(* ===== verification/_CoqProject ===== *)
-Q . S2P
Prelude.v
RustStr.v
SeekSequence.v
PatchParser.v
PatchParserFacts.v
PatchRoundTrip.v
PatchReparse.v
FileUpdate.v
FileUpdateFacts.v
FileSystem.v
ApplyPatch.v
ApplyPatchFacts.v
ApplyPatchProps.v
Invocation.v
InvocationFacts.v
ExecPolicy.v
ExecPolicyFacts.v
PolicyParser.v
PolicyParserFacts.v
Amend.v
ExecPolicyProps.v
StreamText.v
InlineTags.v
TaggedLines.v
AssistantText.v
Utf8Stream.v
StreamProps.v
HeadTail.v
Normalize.v
NormalizeFacts.v
Truncation.v
TruncationFacts.v
OrderedFrames.v
Framing.v
NoiseStream.v
NoiseStreamFacts.v
RelayMux.v
RelayMuxFacts.v
ShellSyntax.v
DangerousCommand.v
Permissions.v
PermissionsFacts.v
ExecApproval.v
ExecApprovalFacts.v
PolicyManager.v
PolicyManagerFacts.v
Approvals.v
ApprovalSession.v
ApprovalsFacts.v
ApprovedCommand.v
PolicyTransforms.v
PolicyTransformsFacts.v
Url.v
PathUri.v
ApiPathString.v
PathUriFacts.v
PathUriJoin.v
PathUriRoundTrip.v
SimpleUrl.v
PathUriProps.v
Sandboxing.v
PatchSafety.v
PatchSafetyFacts.v
Orchestrator.v
OrchestratorFacts.v
IpAddr.v
NetPolicy.v
IpAddrFacts.v
NetPolicyFacts.v
NetConfig.v
NetConfigFacts.v
NetProxy.v
NetProxyFacts.v
NetProps.v
NetApproval.v
NetApprovalFacts.v
NetApprovalProps.v
NetSpec.v
NetSpecFacts.v
