(* ===== verification/Prelude.v ===== *)
(** * Verification of the Codex CLI core

    This library models parts of the Rust workspace [codex-rs] and proves
    what makes them correct.  A Rust function is a Rocq function of the same
    name; [Result] is [result], code that may also panic returns [outcome]
    or an [option] whose [None] is the panic, and state is passed
    explicitly or by a small state monad.  Definitions are executable, and
    the concrete instances ([.._witness]) run them.

    ** The patch engine ([apply-patch/src])

    - [SeekSequence]: [seek_sequence.rs], the search for a block of lines at
      four levels of strictness.
    - [PatchParser]: [parser.rs] and [streaming_parser.rs], the line-based
      state machine that turns patch text into hunks.
    - [FileUpdate]: [text_file.rs], a file as lines with their endings, and
      [file_update.rs], chunks located in a file, turned into replacements
      and applied.
    - [FileSystem]: the trait [ExecutorFileSystem] of [file-system/src/lib.rs]
      as a class, its laws, and an in-memory instance.
    - [ApplyPatch]: [lib.rs], the hunks applied to a file system, with the
      delta of committed changes and all error paths.
    - [Invocation]: [invocation.rs], which command lines are calls of
      [apply_patch], and the preview shown for approval.
    - [PatchParserFacts], [PatchRoundTrip], [FileUpdateFacts],
      [ApplyPatchFacts], [InvocationFacts]: lemmas, with the printed form of
      patches, a program logic for the engine, and deltas as transformations
      of file contents.
    - [ApplyPatchProps] (and the end of [InvocationFacts]): the claims.  The
      parser reads back printed patches and is indifferent to how text is
      chunked; the search finds the best match; replacements are disjoint and
      equal a simultaneous substitution; nothing panics; an exact delta
      replays and undoes the application on success and failure alike; the
      preview equals the result unless renames collide.

    The engine calls the parser, then for each hunk the file system and the
    replacement code; the verifier calls the same replacement code on the
    unmodified files.

    ** Execution policies ([execpolicy/src])

    - [ExecPolicy]: [decision.rs], [rule.rs], [policy.rs],
      [executable_name.rs] and the errors of [error.rs].
    - [PolicyParser]: [parser.rs], the built-ins of policy files, the builder
      and the validation of examples.
    - [Amend]: [amend.rs] and [sandbox_migration.rs].
    - [ExecPolicyFacts], [PolicyParserFacts]: lemmas;
      [ExecPolicyProps]: the claims.  A decision is the strictest of the
      matching rules, overlays never relax, patterns mean their expansions,
      parsing keeps the builder well-formed and checks its examples,
      amendments append one line and never lose text.

    ** Stream parsers ([utils/stream-parser/src])

    - [StreamText]: [stream_text.rs], the trait as a class, with the promise
      [ChunkInvariant] that clients rely on.
    - [InlineTags]: [inline_hidden_tag.rs] and [citation.rs].  The fuel of
      [push_loop] is the length of the pending text plus one; each iteration
      that continues consumes a delimiter ([push_loop_fuel]).
    - [TaggedLines]: [tagged_line_parser.rs]; its reference [spec_text] reads
      the complete text line by line and is defined apart from the parser.
    - [AssistantText]: [proposed_plan.rs] and [assistant_text.rs].
    - [Utf8Stream]: [utf8_stream.rs], with the standard library's UTF-8
      validation; the fuel of [decode] is the number of bytes.
    - [StreamProps]: the claims.  How the text or the bytes are cut into
      chunks makes no difference, and the results agree with definitions on
      the complete text: successive splitting for citations, line by line for
      plan blocks, and the composition of the two for the assistant's text.
      The hidden-tag parser needs that no opener is a proper part of another
      one; adjacent pieces of plan text may be cut differently.

    ** Core data structures ([core/src])

    - [HeadTail]: [unified_exec/head_tail_buffer.rs], the bounded buffer for
      process output.  The claim identifies it with the first and the last
      bytes of everything pushed, and merging with pushing both outputs.
    - [Normalize], [NormalizeFacts]: [context_manager/normalize.rs] and its
      callers in [history.rs], which pair every call of a conversation with
      an output before it is sent to the model.  Parts of an item that are
      neither read nor written are one opaque parameter; the panic of debug
      builds is the value [None].

    ** The Noise relay ([exec-server/src])

    Remote executors are reached through a relay that nobody trusts.

    - [OrderedFrames]: [noise_relay/ordered_ciphertext.rs], the reordering
      window.  The release loop needs as much fuel as there are pending
      records.
    - [Framing]: [noise_relay/message_framing.rs] and
      [client_inbound_request_limit.rs].  The loop of the decoder consumes
      more than four bytes per round, so the buffer's length is fuel enough.
    - [NoiseStream]: the record layer of [noise_channel.rs], the writer and
      the reader of [noise_relay/executor_stream.rs], the handlers of
      [stream_handler.rs] and [forward.rs].  The cipher is the class
      [NoiseCipher], its documented properties [NoiseCipherLaws]; a handler
      promises [HandlerLaws], which [Forwarder] and [ConnectionProcessor]
      fulfil.
    - [NoiseStreamFacts]: the two ends together.  Writer, relay, reader and
      handler are a list of events; what is received is a prefix of what was
      sent as long as the relay cannot forge records ([event_authentic]), and
      it is everything when the relay keeps the order.
    - [RelayMux]: [relay.rs], the loop [run_multiplexed_environment] as a step
      function on what [tokio::select!] delivers; [RelayMuxFacts] has its
      invariant: a stream exists only for a key that the registry accepted
      for this very stream.  Streams, the handshake and its cryptography
      enter through the class [NoiseHandshake]; [noise_streams] fills it with
      the streams of [NoiseStream].  The clock is part of the events, the
      registry's verdict may depend on it, a
      validation id is a [u64] that wraps, so the claims bound the number of
      events.  The physical writer and the keepalive appear only as events.

    ** From a command line to its approval

    A command the model wants to run is split into the commands of its shell
    script; each is checked against the rules, and if none matches, against
    the heuristics; the answer is to run it, to ask the user, or to refuse.

    - [ShellSyntax]: [shell-command/src/bash.rs] on the syntax tree of
      Tree-sitter, which is data here, and the shells of [shell_detect.rs].
      The fuel of the walks is the number of nodes.  The claim compares the
      two readers, on trees with the grammar's shape ([grammatical]).
    - [DangerousCommand]: [command_safety/is_dangerous_command.rs] and
      [windows_dangerous_commands.rs].  The recursion through [sudo], [env],
      [trap] and scripts counts down the nine levels of the source.
    - [Permissions]: [protocol/src/permissions.rs] on path URIs and the
      profiles of [models.rs].  [PathUri] is the class [UriOps], with the laws
      [UriLaws] in [PermissionsFacts], fulfilled there by lists of names and in
      [PathUriProps] by the paths of the program.
      Adapters for local paths, globs and symbolic links are left out.
    - [ExecApproval]: [core/src/exec_policy.rs] with [model_policy.rs] and
      [executable_identity.rs]; the reader of PowerShell scripts is a
      parameter.  [ExecApprovalFacts]: what runs unasked, what the approval
      setting rules out, and that amendments have the effect they promise.
    - [PolicyManager]: loading the policy from configuration layers, and
      updates of the policy and its file as a step relation in which tasks
      interleave between the awaits of the source or are dropped there, while
      their blocking append goes on.  [PolicyManagerFacts]: reachable states
      are those of serial updates, and every execution ends.

    - [Approvals]: [core/src/tools/approvals.rs], the session cache of
      [core/src/tools/sandboxing.rs] and [command_canonicalization.rs].  Hooks,
      the guardian and the user are the answers they would give.  A command is
      cached with the fingerprint of its environment's policy.
    - [ApprovalSession]: everything that reads or writes the one store of
      approvals of a session: commands and patches through
      [with_cached_approval], and the MCP tools of [core/src/mcp_tool_call.rs]
      with their gate, their keys, the answers to their question and what is
      remembered of them.  Calls interleave between the awaits of the source.
      Serialising keys is a parameter, so keys may collide.
      [ApprovalsFacts]: what a cached approval rests on and which command
      lines share one.
    - [ApprovedCommand]: [protocol/src/permissions/target.rs], the policy of a
      command the user approved; the matcher of denied globs is a parameter.
    - [PolicyTransforms]: [sandboxing/src/policy_transforms.rs] and the answer
      to a request for permissions of [core/src/session/mod.rs]; with
      [UriOrderLaws], [PolicyTransformsFacts] shows that a grant stays within
      request and answer, what additional permissions can change, and that
      grants accumulate.
    - [Sandboxing]: [core/src/tools/sandboxing.rs] and the choice of a sandbox
      in [sandboxing/src/manager.rs].
    - [Orchestrator]: [core/src/tools/orchestrator.rs] as a program of effects
      (asking for approval, asking the executor, opening and closing network
      approvals, running the tool).  [runs] says which events and result a
      program has under some answers, [play] runs it in a [World].
      [OrchestratorFacts]: every run returns, nothing runs without consent,
      the sandbox is left only with grounds, network approvals are closed.
    - [PatchSafety]: [core/src/safety.rs], [core/src/apply_patch.rs] and the
      permissions of [core/src/tools/handlers], with the local matcher of
      [permissions/local_aliases.rs]: from a verified patch to the request the
      orchestrator gets.  [PatchReparse]: the text of an action parses again
      to the same hunks.  [PatchSafetyFacts]: what the engine keeps true when
      it may write only some paths; a patch nobody was
      asked about stays within the policy, and what a patch asks for.

    - [Truncation]: [utils/string/src/truncate.rs],
      [utils/output-truncation/src/lib.rs] and the policies of
      [protocol.rs]: middle truncation by bytes or tokens on UTF-8 character
      boundaries, and output items sharing one budget.  [TruncationFacts] has
      the lemmas on boundaries and budgets and the claims: what
      is kept is a prefix and a suffix within the budget, and a list of items
      spends the budget from the front.

    ** The network proxy ([network-proxy/src])

    Commands reach the network through a proxy that decides on every host.

    - [IpAddr]: addresses, their classification and parser in [std::net].
      [IpAddrFacts]: masks and comparisons against a table of blocks.
    - [NetPolicy]: [policy.rs]: hosts, patterns and their comparison.  The
      [globset] crate and the host parser of [url] are the classes [GlobOps]
      and [UrlHost], with the laws [GlobLaws] and [UrlHostLaws], fulfilled
      in [NetProps].  [NetPolicyFacts]: what wildcards match and that a pattern
      allows only patterns whose hosts it has.
    - [NetConfig]: the policy part of [config.rs], [state.rs] and
      [socket_path.rs]: permissions of domains, and the checks of a
      configuration against managed constraints.  MITM hooks are checked by a
      parameter, settings no decision reads are one opaque field.
      [NetConfigFacts]: effective permissions, the checks as a predicate.
    - [NetProxy]: [runtime.rs], [network_policy.rs], [connect_policy.rs]: the
      decision on a host, the decider, the check of an address at connection
      time, and the operations on the state, which interleave at their awaits
      ([net_step]).  DNS, the loader and the builder's I/O are arguments.
      [NetProxyFacts] has the invariant and the decisions,
      [NetProps] the claims: managed limits hold in every reachable state and
      bound the hosts, private addresses need consent, updates take effect.
      Examples show where the code misses its aim: text after a port or a
      bracket smuggles patterns past the managed list, hosts that do not parse
      compare as equal, and an update forgets requests refused meanwhile.

    - [NetApproval]: [core/src/tools/network_approval.rs] with
      [network_policy_decision.rs] and the amendment of [session/mod.rs]: the
      requests the proxy asks about, attributed to commands, joined and
      reviewed.  A request is a state machine of sections between awaits
      ([advance]) that may be dropped at any of them ([drop_request]); the
      turn, the reviewer, the running proxy and the policy file answer as
      inputs.  [NetApprovalFacts]: the service refines a board of reviews and
      uses its lock as intended; [NetApprovalProps]: hosts need consent,
      denials last, nobody waits in vain, denied reviews fail their command.
      Starting a command's proxy and telemetry are left out.
    - [NetSpec]: [core/src/config/network_proxy_spec.rs] with
      [environment_policy.rs] and the domain and socket maps of
      [config_requirements.rs]: the configuration and constraints [NetProxy]
      starts from, made of the user's configuration, managed requirements and
      rules of the execution policy ([from_config_and_constraints],
      [with_exec_policy_network_rules]), or of a controller and the owner of an
      environment ([for_environment]).  [NetSpecFacts]: which hosts are allowed
      and denied in an environment, that it has nothing controller and owner
      do not both give, and that managed lists hold; a checked specification
      builds a state the claims of [NetProps] start from.

    ** Paths

    - [Url]: the URL parser, percent-encoding and base64 as classes of
      operations and laws ([UrlOps], [UrlLaws]); [SimpleUrl] satisfies them.
    - [PathUri]: [utils/path-uri/src/lib.rs] with the normalisation of absolute
      paths and native byte paths, on the URL a path wraps: what is accepted,
      equality, containment, parents, and joins of either convention.
      [ApiPathString]: native text, [api_path_string.rs], [config_path.rs] and
      [platform.rs].  Conversions to the host's own paths are left out.
    - [PathUriFacts], [PathUriJoin], [PathUriRoundTrip]: names of a path,
      joining them, and back from text; [PathUriProps]: validated URLs are an
      instance of [UriOps] with all laws, and the claims.

    ** Conventions and limits

    A [char] is its scalar value and a string a list of them ([RustStr]);
    byte offsets that only delimit cuts are character offsets.  Indices and
    lengths are natural numbers; the subtractions and slices that could
    underflow or leave their range are checked and panic.  Recursion follows
    the data (lines, characters, chunks, rules), so no fuel is needed unless
    a file says so.  Concurrency is modelled where tasks share state, as a
    step relation or a list of events; processes, sockets and terminal output
    are not modelled.

    Parameters stand for code outside the repository: the Tree-sitter query
    that finds a heredoc and its trees of shell scripts, the text differ, the Starlark interpreter, shell
    word splitting, JSON, path parsing, and the operating system's files
    behind [ExecutorFileSystem].  [FileSystemLaws] is what an exact delta
    relies on: distinct paths name distinct regular files, a successful write
    or removal changes just its file, and a failed removal leaves the file
    or removes it.

    ** Not modelled

    - The turn loop of a session, the context manager's token estimates, the
      services around models, MCP, login and the app server: mostly the
      order of calls to remote services, and messages.
    - The transports of the proxy and of the exec server, the sandboxes'
      platform code and the standalone binaries: input and output.
    - The terminal interface and the loading of configuration files.
    - The reader of PowerShell scripts, a parameter of the approval model.

    ** This file

    This file is the prelude: results and outcomes, Rust idioms, tactics
    ([deex], [case_goal], [case_hyp]), the hint database [codex] and lemmas
    on lists and searching loops. *)

From Stdlib Require Export Lia Sorted.
From stdpp Require Export base tactics numbers option list sets gmap.

(** ** Results

    Rust's [Result<T, E>]; the error type comes first so that [result E]
    is a monad and stdpp's [x ← c; k] is the [?] operator. *)
Inductive result (E T : Type) : Type :=
| Ok (t : T)
| Err (e : E).
Arguments Ok {E T} t.
Arguments Err {E T} e.

#[global] Instance result_ret E : MRet (result E) := λ T t, Ok t.
#[global] Instance result_bind E : MBind (result E) := λ T U k r,
  match r with Ok t => k t | Err e => Err e end.
#[global] Instance result_fmap E : FMap (result E) := λ T U f r,
  match r with Ok t => Ok (f t) | Err e => Err e end.

(** ** Outcomes of code that may also panic *)
Inductive outcome (E T : Type) : Type :=
| Done (t : T)
| Failed (e : E)
| Panic.
Arguments Done {E T} t.
Arguments Failed {E T} e.
Arguments Panic {E T}.

#[global] Instance outcome_ret E : MRet (outcome E) := λ T t, Done t.
#[global] Instance outcome_bind E : MBind (outcome E) := λ T U k r,
  match r with Done t => k t | Failed e => Failed e | Panic => Panic end.

(** [None] is a panic. *)
Definition no_panic {E T} (o : option T) : outcome E T :=
  match o with Some t => Done t | None => Panic end.

(** [&v[a..b]] and [a - b] on [usize]. *)
Definition slice {A} (v : list A) (a b : nat) : option (list A) :=
  if decide (a ≤ b ∧ b ≤ length v) then Some (take (b - a) (drop a v)) else None.
Definition checked_sub (a b : nat) : option nat := if decide (b ≤ a) then Some (a - b) else None.

(** [Result::map_err]. *)
Definition map_err {E F T} (f : E → F) (r : result E T) : result F T :=
  match r with Ok t => Ok t | Err e => Err (f e) end.

(** [Option::is_some_and]. *)
Definition is_some_and {A} (f : A → bool) (o : option A) : bool :=
  match o with Some a => f a | None => false end.

Definition is_ok {E T} (r : result E T) : bool :=
  match r with Ok _ => true | Err _ => false end.

(** [slice.is_empty()]. *)
Definition is_empty {A} (l : list A) : bool :=
  match l with [] => true | _ => false end.

(** [last_mut()]: apply [f] to the last element, if there is one. *)
Fixpoint update_last {A} (f : A → A) (l : list A) : list A :=
  match l with
  | [] => []
  | [x] => [f x]
  | x :: l' => x :: update_last f l'
  end.

(** The indices of the Rust loop [for i in a..=b]. *)
Definition range_incl (a b : nat) : list nat := seq a (S b - a).

(** First element accepted by a test that may panic: [None] is a panic,
    [Some None] is a loop that ran to its end. *)
Fixpoint find_index (test : nat → option bool) (idxs : list nat) : option (option nat) :=
  match idxs with
  | [] => Some None
  | i :: idxs' => b ← test i; if (b : bool) then Some (Some i) else find_index test idxs'
  end.

(** ** Automation *)

(** Split every conjunction and existential of the context. *)
Ltac deex :=
  repeat match goal with
  | H : ∃ x, _ |- _ => let x' := fresh x in destruct H as [x' H]
  | H : _ ∧ _ |- _ => destruct H as [??]
  end.

(** Case split on the innermost [match] scrutinee of the goal, with an equation. *)
Ltac case_goal :=
  match goal with
  | |- context [match ?x with _ => _ end] =>
      lazymatch x with context [match _ with _ => _ end] => fail | _ => idtac end;
      let E := fresh "E" in destruct x eqn:E
  end.

(** The same in a hypothesis. *)
Ltac case_hyp H :=
  match type of H with
  | context [match ?x with _ => _ end] =>
      lazymatch x with context [match _ with _ => _ end] => fail | _ => idtac end;
      let E := fresh "E" in destruct x eqn:E
  end.

Create HintDb codex discriminated.

(** ** Lists *)

Section lists.
Context {A : Type}.
Implicit Types (l k : list A) (x : A).

Lemma is_empty_true l : is_empty l = true ↔ l = [].
Proof. by destruct l. Qed.

Lemma is_empty_false l : is_empty l = false ↔ l ≠ [].
Proof. by destruct l. Qed.

Lemma update_last_snoc f l x : update_last f (l ++ [x]) = l ++ [f x].
Proof.
  induction l as [|y l IH]; [done|]. simpl.
  destruct l as [|z l]; simpl in *; [done|]. by rewrite IH.
Qed.

Lemma update_last_length f l : length (update_last f l) = length l.
Proof.
  induction l as [|y l IH]; [done|]. simpl.
  destruct l; simpl in *; [done|]. by rewrite IH.
Qed.

Lemma last_inv l x : last l = Some x → ∃ k, l = k ++ [x].
Proof. by rewrite last_Some. Qed.

Lemma take_drop_app_mid l i n :
  i + n ≤ length l → l = take i l ++ take n (drop i l) ++ drop (i + n) l.
Proof.
  intros H. rewrite <- drop_drop, take_drop. by rewrite take_drop.
Qed.

End lists.

(** ** Searching loops *)

Lemma range_incl_elem a b i : i ∈ range_incl a b ↔ a ≤ i ≤ b.
Proof. unfold range_incl. rewrite elem_of_seq. lia. Qed.

(** A loop whose test never panics on its range finds the first hit. *)
Lemma find_index_seq (p : nat → bool) (test : nat → option bool) (n a : nat) :
  (∀ i, a ≤ i < a + n → test i = Some (p i)) →
  ∃ r, find_index test (seq a n) = Some r ∧
    match r with
    | Some i => a ≤ i < a + n ∧ p i = true ∧ ∀ j, a ≤ j < i → p j = false
    | None => ∀ j, a ≤ j < a + n → p j = false
    end.
Proof.
  revert a. induction n as [|n IH]; intros a Ht; simpl.
  { exists None. split; [done|]. lia. }
  rewrite (Ht a) by lia; simpl. destruct (p a) eqn:Hp.
  { exists (Some a). repeat split; [lia..|done|]. lia. }
  destruct (IH (S a)) as (r & Hr & Hspec). { intros; apply Ht; lia. }
  exists r. split; [done|].
  destruct r as [i|]; [destruct Hspec as (?&?&Hj); repeat split; [lia..|done|]|];
    intros j Hj'; (destruct (decide (j = a)) as [->|]; [done|apply Hj || apply Hspec; lia]).
Qed.

Lemma find_index_range (p : nat → bool) (test : nat → option bool) (a b : nat) :
  (∀ i, a ≤ i ≤ b → test i = Some (p i)) →
  ∃ r, find_index test (range_incl a b) = Some r ∧
    match r with
    | Some i => a ≤ i ≤ b ∧ p i = true ∧ ∀ j, a ≤ j < i → p j = false
    | None => ∀ j, a ≤ j ≤ b → p j = false
    end.
Proof.
  intros Ht. destruct (find_index_seq p test (S b - a) a) as (r & Hr & Hs).
  { intros i Hi. apply Ht. lia. }
  exists r. split; [exact Hr|].
  destruct r; [destruct Hs as (?&?&?); repeat split; [lia..|done|done]|].
  intros j Hj. apply Hs. lia.
Qed.

(** ** Searching and flattening lists *)

(** [Iterator::find_map]. *)
Fixpoint find_map {A B} (f : A → option B) (l : list A) : option B :=
  match l with [] => None | x :: l => match f x with Some y => Some y | None => find_map f l end end.

(** [Option::into_iter]. *)
Definition option_list {A} (o : option A) : list A := match o with Some x => [x] | None => [] end.

Lemma find_map_Some {A B} (f : A → option B) l y : find_map f l = Some y → ∃ x, x ∈ l ∧ f x = Some y.
Proof.
  induction l as [|x l IH]; [done|]. cbn. destruct (f x) eqn:Hx.
  - intros [= <-]. exists x. split; [left|done].
  - intros (z & Hz & Hy)%IH. exists z. split; [by right|done].
Qed.

Lemma find_map_is_Some {A B} (f : A → option B) l x : x ∈ l → is_Some (f x) → is_Some (find_map f l).
Proof.
  intros Hx Hf. induction Hx as [x l|x z l Hx IH]; cbn.
  - destruct Hf as [y ->]. done.
  - destruct (f z); [done|by apply IH].
Qed.

Lemma elem_of_concat_fmap {A B} (f : A → list B) l x : x ∈ concat (f <$> l) ↔ ∃ y, y ∈ l ∧ x ∈ f y.
Proof.
  induction l as [|y l IH]; cbn [fmap list_fmap concat].
  - rewrite elem_of_nil. split; [done|]. by intros (y & ?%elem_of_nil & _).
  - rewrite elem_of_app, IH. split.
    + intros [Hx|(z & Hz & Hx)]; [exists y; by split; [left|]|exists z; by split; [right|]].
    + intros (z & [->|Hz]%elem_of_cons & Hx); [by left|right; by exists z].
Qed.
