(* ===== verification/RustStr.v ===== *)
(** * Rust strings

    The part of Rust's [str], [String] and [char] API the modelled code
    uses.  A [char] is its Unicode scalar value ([N]) and a string is the
    list of its characters.  Byte offsets returned by [str::find] and used
    to slice the same string are character offsets here (both delimit the
    same cut); where the code depends on a byte length it is computed with
    [len_utf8]. *)
From stdpp Require Export strings.
From stdpp Require Import pretty.
From Stdlib Require Import Ascii String.
From S2P Require Import Prelude.


Abbreviation char := N (only parsing).
Abbreviation rstr := (list N) (only parsing).

(** An ASCII literal of the source. *)
Fixpoint str (s : string) : rstr :=
  match s with
  | EmptyString => []
  | String a s' => N_of_ascii a :: str s'
  end.

Declare Scope rstr_scope.
Delimit Scope rstr_scope with R.
Notation "$ s" := (str s%string) (at level 5, s constr at level 0, format "$ s") : rstr_scope.
Open Scope rstr_scope.

Definition LF : char := 10%N.
Definition CR : char := 13%N.
Definition SPACE : char := 32%N.
Definition DQUOTE : char := 34%N.
Definition PLUS : char := 43%N.
Definition MINUS : char := 45%N.
Definition SLASH : char := 47%N.
Definition BACKSLASH : char := 92%N.
Definition QUOTE : char := 39%N.
Definition DOT : char := 46%N.

(** [char::is_whitespace]: the Unicode [White_Space] property. *)
Definition is_whitespace (c : char) : bool :=
  ((9 <=? c) && (c <=? 13) || (c =? 32) || (c =? 133) || (c =? 160) || (c =? 5760)
   || (8192 <=? c) && (c <=? 8202) || (c =? 8232) || (c =? 8233) || (c =? 8239)
   || (c =? 8287) || (c =? 12288))%N.

Definition is_ascii_digit (c : char) : bool := ((48 <=? c) && (c <=? 57))%N.
Definition is_ascii_alphabetic (c : char) : bool :=
  ((65 <=? c) && (c <=? 90) || (97 <=? c) && (c <=? 122))%N.

(** [u8::to_ascii_lowercase] on every character. *)
Definition to_ascii_lowercase_char (c : char) : char :=
  if ((65 <=? c) && (c <=? 90))%N then (c + 32)%N else c.
Definition to_ascii_lowercase (s : rstr) : rstr := to_ascii_lowercase_char <$> s.

Definition eq_ignore_ascii_case (a b : rstr) : bool :=
  bool_decide (to_ascii_lowercase a = to_ascii_lowercase b).

(** [trim_start_matches], [trim_end_matches] and [trim_matches] for a predicate. *)
Fixpoint trim_start_matches (p : char → bool) (s : rstr) : rstr :=
  match s with
  | [] => []
  | c :: s' => if p c then trim_start_matches p s' else s
  end.
Fixpoint trim_end_matches (p : char → bool) (s : rstr) : rstr :=
  match s with
  | [] => []
  | c :: s' =>
      match trim_end_matches p s' with
      | [] => if p c then [] else [c]
      | t => c :: t
      end
  end.
Definition trim_start (s : rstr) : rstr := trim_start_matches is_whitespace s.
Definition trim_end (s : rstr) : rstr := trim_end_matches is_whitespace s.
Definition trim (s : rstr) : rstr := trim_start (trim_end s).

Fixpoint strip_prefix (p s : rstr) : option rstr :=
  match p, s with
  | [], _ => Some s
  | x :: p', y :: s' => if decide (x = y) then strip_prefix p' s' else None
  | _ :: _, [] => None
  end.
Definition strip_suffix (p s : rstr) : option rstr :=
  reverse <$> strip_prefix (reverse p) (reverse s).
Definition starts_with (p s : rstr) : bool :=
  match strip_prefix p s with Some _ => true | None => false end.
Definition ends_with (p s : rstr) : bool :=
  match strip_suffix p s with Some _ => true | None => false end.

(** [str::find] with a string pattern: offset of the first occurrence. *)
Fixpoint find (needle s : rstr) : option nat :=
  if starts_with needle s then Some 0
  else match s with [] => None | _ :: s' => S <$> find needle s' end.
Definition contains (needle s : rstr) : bool :=
  match find needle s with Some _ => true | None => false end.

(** [split_once] (first occurrence) and [rsplit_once] (last occurrence of a char). *)
Definition split_once (needle s : rstr) : option (rstr * rstr) :=
  i ← find needle s; Some (take i s, drop (i + length needle) s).
Definition rsplit_once (c : char) (s : rstr) : option (rstr * rstr) :=
  '(r, l) ← split_once [c] (reverse s); Some (reverse l, reverse r).

(** [split(c)]: always at least one field. *)
Fixpoint split_char (c : char) (s : rstr) : list rstr :=
  match s with
  | [] => [[]]
  | x :: s' =>
      if decide (x = c) then [] :: split_char c s'
      else match split_char c s' with
           | h :: t => (x :: h) :: t
           | [] => [[x]]
           end
  end.

(** [split] with a predicate: always at least one field. *)
Fixpoint split_where (p : char → bool) (s : rstr) : list rstr :=
  match s with
  | [] => [[]]
  | x :: s' =>
      if p x then [] :: split_where p s'
      else match split_where p s' with
           | h :: t => (x :: h) :: t
           | [] => [[x]]
           end
  end.

(** [split_inclusive(c)]: fields keep their terminator, no empty last field. *)
Fixpoint split_inclusive (c : char) (s : rstr) : list rstr :=
  match s with
  | [] => []
  | x :: s' =>
      if decide (x = c) then [x] :: split_inclusive c s'
      else match split_inclusive c s' with
           | h :: t => (x :: h) :: t
           | [] => [[x]]
           end
  end.

(** The line terminator [str::lines] removes: ["\n"] or ["\r\n"]. *)
Definition strip_line_ending (l : rstr) : rstr :=
  match strip_suffix [LF] l with
  | None => l
  | Some l' => default l' (strip_suffix [CR] l')
  end.
Definition lines (s : rstr) : list rstr := strip_line_ending <$> split_inclusive LF s.

(** [slice.join(sep)]. *)
Fixpoint join (sep : rstr) (l : list rstr) : rstr :=
  match l with
  | [] => []
  | [x] => x
  | x :: l' => x ++ sep ++ join sep l'
  end.

(** [format!("{}", n)] for an unsigned integer. *)
Definition fmt_N (n : N) : rstr := str (pretty n).
Definition fmt_nat (n : nat) : rstr := fmt_N (N.of_nat n).

(** [char::len_utf8] and [str::len]. *)
Definition len_utf8 (c : char) : nat :=
  if (c <? 128)%N then 1 else if (c <? 2048)%N then 2 else if (c <? 65536)%N then 3 else 4.
Fixpoint byte_len (s : rstr) : nat :=
  match s with [] => 0 | c :: s' => len_utf8 c + byte_len s' end.

(** ** Trimming *)

Section trimming.
Context (p : char → bool).

Lemma trim_end_matches_snoc_keep s c :
  p c = false → trim_end_matches p (s ++ [c]) = s ++ [c].
Proof.
  intros Hc. induction s as [|x s IH]; simpl; [by rewrite Hc|].
  rewrite IH. by destruct s.
Qed.

Lemma trim_end_matches_prefix s : ∃ k, s = trim_end_matches p s ++ k ∧ Forall (λ c, p c = true) k.
Proof.
  induction s as [|x s (k & Hk & Hall)]; simpl; [by exists []|].
  destruct (trim_end_matches p s) as [|y t] eqn:E.
  - simpl in Hk. subst k. destruct (p x) eqn:Hx.
    + exists (x :: s). split; [done|]. by constructor.
    + by exists s.
  - exists k. rewrite Hk at 1. done.
Qed.

Lemma trim_end_matches_id s :
  is_some_and p (last s) = false → trim_end_matches p s = s.
Proof.
  destruct s as [|c s _] using rev_ind; [done|].
  rewrite last_snoc; simpl. apply trim_end_matches_snoc_keep.
Qed.

Lemma trim_end_matches_last s : is_some_and p (last (trim_end_matches p s)) = false.
Proof.
  induction s as [|x s IH]; simpl; [done|].
  destruct (trim_end_matches p s) as [|y t] eqn:E.
  - destruct (p x) eqn:Hx; by simpl.
  - done.
Qed.

Lemma trim_end_matches_idem s :
  trim_end_matches p (trim_end_matches p s) = trim_end_matches p s.
Proof. apply trim_end_matches_id, trim_end_matches_last. Qed.

Lemma trim_start_matches_id c s : p c = false → trim_start_matches p (c :: s) = c :: s.
Proof. intros Hc. simpl. by rewrite Hc. Qed.

Lemma trim_end_matches_cons_keep c s :
  p c = false → trim_end_matches p (c :: s) = c :: trim_end_matches p s.
Proof.
  intros Hc. simpl. destruct (trim_end_matches p s); [by rewrite Hc|done].
Qed.

End trimming.

Lemma trim_end_id s : is_some_and is_whitespace (last s) = false → trim_end s = s.
Proof. apply trim_end_matches_id. Qed.

Lemma trim_end_idem s : trim_end (trim_end s) = trim_end s.
Proof. apply trim_end_matches_idem. Qed.

Lemma trim_end_trim s t : trim_end s = trim_end t → trim s = trim t.
Proof. unfold trim. by intros ->. Qed.

Lemma trim_id c s :
  is_whitespace c = false → is_some_and is_whitespace (last (c :: s)) = false →
  trim (c :: s) = c :: s.
Proof.
  intros Hc Hl. unfold trim. rewrite trim_end_id by done.
  by apply trim_start_matches_id.
Qed.

Lemma trim_cons_keep c s : is_whitespace c = false → trim (c :: s) = c :: trim_end s.
Proof.
  intros Hc. unfold trim, trim_end. rewrite trim_end_matches_cons_keep by done.
  by apply trim_start_matches_id.
Qed.

Lemma trim_end_cons_keep c s : is_whitespace c = false → trim_end (c :: s) = c :: trim_end s.
Proof. apply trim_end_matches_cons_keep. Qed.

(** ** Prefixes and suffixes *)

Lemma strip_prefix_Some p s r : strip_prefix p s = Some r ↔ s = p ++ r.
Proof.
  revert s. induction p as [|x p IH]; intros s; simpl; [naive_solver|].
  destruct s as [|y s]; [naive_solver|]. case_decide; [rewrite IH; clear IH|clear IH]; naive_solver.
Qed.

Lemma strip_prefix_app p s : strip_prefix p (p ++ s) = Some s.
Proof. by apply strip_prefix_Some. Qed.

Lemma strip_prefix_self p : strip_prefix p p = Some [].
Proof. rewrite <- (app_nil_r p) at 2. apply strip_prefix_app. Qed.

Lemma strip_prefix_None p s : strip_prefix p s = None ↔ ¬ p `prefix_of` s.
Proof.
  destruct (strip_prefix p s) as [r|] eqn:E; split; try done.
  - intros H. destruct H. exists r. by apply strip_prefix_Some.
  - intros _ [r Hr]. apply strip_prefix_Some in Hr. congruence.
Qed.

Lemma starts_with_spec p s : starts_with p s = true ↔ p `prefix_of` s.
Proof.
  unfold starts_with. destruct (strip_prefix p s) as [r|] eqn:E.
  - split; [|done]. intros _. exists r. by apply strip_prefix_Some.
  - apply strip_prefix_None in E. naive_solver.
Qed.

Lemma strip_suffix_Some p s r : strip_suffix p s = Some r ↔ s = r ++ p.
Proof.
  unfold strip_suffix. rewrite fmap_Some. setoid_rewrite strip_prefix_Some. split.
  - intros (x & Hx & ->). apply (f_equal reverse) in Hx.
    by rewrite reverse_app, !reverse_involutive in Hx.
  - intros ->. exists (reverse r). by rewrite reverse_app, reverse_involutive.
Qed.

Lemma strip_suffix_None p s : strip_suffix p s = None ↔ ¬ p `suffix_of` s.
Proof.
  destruct (strip_suffix p s) as [r|] eqn:E; split; try done.
  - intros H. destruct H. exists r. by apply strip_suffix_Some.
  - intros _ [r Hr]. apply strip_suffix_Some in Hr. congruence.
Qed.

Lemma ends_with_spec p s : ends_with p s = true ↔ p `suffix_of` s.
Proof.
  unfold ends_with. destruct (strip_suffix p s) as [r|] eqn:E.
  - split; [|done]. intros _. exists r. by apply strip_suffix_Some.
  - apply strip_suffix_None in E. naive_solver.
Qed.

(** ** Lines *)

Lemma split_inclusive_concat c s : concat (split_inclusive c s) = s.
Proof.
  induction s as [|x s IH]; [done|]. simpl. case_decide; simpl; [by rewrite IH|].
  destruct (split_inclusive c s) as [|h t]; simpl in *; by rewrite <- IH.
Qed.

Lemma split_inclusive_line c l s :
  c ∉ l → split_inclusive c (l ++ c :: s) = (l ++ [c]) :: split_inclusive c s.
Proof.
  induction l as [|x l IH]; intros Hc; simpl.
  { by rewrite decide_True. }
  apply not_elem_of_cons in Hc as [Hx Hl].
  rewrite decide_False by done. by rewrite IH.
Qed.

Lemma split_inclusive_last c l :
  c ∉ l → split_inclusive c l = match l with [] => [] | _ => [l] end.
Proof.
  induction l as [|x l IH]; intros Hc; simpl; [done|].
  apply not_elem_of_cons in Hc as [Hx Hl].
  rewrite decide_False by done. rewrite IH by done. by destruct l.
Qed.

Lemma strip_line_ending_LF l :
  is_some_and (N.eqb CR) (last l) = false → strip_line_ending (l ++ [LF]) = l.
Proof.
  intros Hl. unfold strip_line_ending.
  replace (strip_suffix [LF] (l ++ [LF])) with (Some l)
    by (symmetry; by apply strip_suffix_Some).
  destruct (strip_suffix [CR] l) as [r|] eqn:E; [|done].
  apply strip_suffix_Some in E as ->. by rewrite last_snoc in Hl.
Qed.

Lemma strip_line_ending_id l : LF ∉ l → strip_line_ending l = l.
Proof.
  intros Hl. unfold strip_line_ending.
  destruct (strip_suffix [LF] l) as [r|] eqn:E; [|done].
  apply strip_suffix_Some in E as ->. exfalso. set_solver.
Qed.

(** A line that can be printed on a line of its own and read back. *)
Definition line_ok (l : rstr) : Prop := (LF ∉ l) ∧ is_some_and (N.eqb CR) (last l) = false.

#[global] Instance line_ok_dec l : Decision (line_ok l).
Proof. apply _. Defined.

Lemma join_cons (c : char) x y l :
  join [c] (x :: y :: l) = x ++ c :: join [c] (y :: l).
Proof. done. Qed.

(** Joining lines with ["\n"] and splitting them again is the identity;
    only the last line must not be empty. *)
Lemma lines_join ls l :
  Forall line_ok ls → LF ∉ l → l ≠ [] → lines (join [LF] (ls ++ [l])) = ls ++ [l].
Proof.
  intros Hls Hl Hne. unfold lines.
  induction Hls as [|x ls [Hx1 Hx2] _ IH]; [simpl|rewrite <- app_comm_cons].
  - rewrite split_inclusive_last by done. destruct l; [done|]. simpl.
    by rewrite strip_line_ending_id.
  - assert (∃ y k, ls ++ [l] = y :: k) as (y & k & Hyk).
    { destruct ls; simpl; eauto. }
    rewrite Hyk in *. rewrite join_cons, split_inclusive_line by done.
    rewrite fmap_cons, strip_line_ending_LF by done. by rewrite IH.
Qed.

(** * Native paths as text

    The type [PathConvention] of [utils/path-uri/src/lib.rs]: how the text of
    a path of a POSIX or a Windows system splits into segments. *)
Inductive PathConvention := Posix | Windows.
#[export] Instance PathConvention_eq : EqDecision PathConvention.
Proof. solve_decision. Defined.

Definition is_separator (c : PathConvention) (ch : char) : bool :=
  match c with
  | Posix => bool_decide (ch = SLASH)
  | Windows => bool_decide (ch = SLASH) || bool_decide (ch = BACKSLASH)
  end.

Definition path_segments (c : PathConvention) (path : rstr) : list rstr := split_where (is_separator c) path.

(** The rest of a path below [~]; [~user] is not one. *)
Definition home_relative_suffix (c : PathConvention) (path : rstr) : option rstr :=
  suffix ← strip_prefix ($"~") path;
  match suffix with
  | [] => Some suffix
  | ch :: _ => if is_separator c ch then Some suffix else None
  end.
