(* ===== verification/SeekSequence.v ===== *)
(** * Locating a block of lines in a file

    Model of [apply-patch/src/seek_sequence.rs] and of the file update mode
    declared in [apply-patch/src/lib.rs].

    [seek_sequence] slides a pattern over the lines of a file in four
    passes of decreasing strictness.  Indexing a slice out of bounds panics
    in Rust: the model returns [None] there and [Some r] for a normal
    return of [r]. *)

From S2P Require Import Prelude RustStr.

Inductive ApplyPatchFileUpdateMode := NormalizeToLf | PreserveLineEndings.

#[global] Instance ApplyPatchFileUpdateMode_eq_dec : EqDecision ApplyPatchFileUpdateMode.
Proof. solve_decision. Defined.

(** The punctuation and odd spaces mapped to ASCII by the last pass. *)
Definition normalise_char (c : char) : char :=
  if bool_decide (c ∈ [0x2010; 0x2011; 0x2012; 0x2013; 0x2014; 0x2015; 0x2212]%N) then 45%N
  else if bool_decide (c ∈ [0x2018; 0x2019; 0x201A; 0x201B]%N) then 39%N
  else if bool_decide (c ∈ [0x201C; 0x201D; 0x201E; 0x201F]%N) then 34%N
  else if bool_decide (c ∈ [0x00A0; 0x2002; 0x2003; 0x2004; 0x2005; 0x2006; 0x2007; 0x2008;
                            0x2009; 0x200A; 0x202F; 0x205F; 0x3000]%N) then 32%N
  else c.
Definition normalise (s : rstr) : rstr := normalise_char <$> trim s.

(** [lines[i..i + pattern.len()] == *pattern]: slicing panics out of range. *)
Definition slice_eq (lines pattern : list rstr) (i : nat) : option bool :=
  if decide (i + length pattern ≤ length lines)
  then Some (bool_decide (take (length pattern) (drop i lines) = pattern))
  else None.

(** The inner loop over [pattern.iter().enumerate()] comparing [f] of each
    line; [lines[i + p_idx]] panics out of range. *)
Fixpoint lines_match (f : rstr → rstr) (lines pattern : list rstr) (i : nat) : option bool :=
  match pattern with
  | [] => Some true
  | pat :: pattern' =>
      l ← lines !! i;
      if decide (f l = f pat) then lines_match f lines pattern' (S i) else Some false
  end.

(** Where the scan starts. *)
Definition search_start (lines pattern : list rstr) (start : nat) (eof : bool)
    (mode : ApplyPatchFileUpdateMode) : nat :=
  if eof && (length pattern <=? length lines) then
    let eof_start := length lines - length pattern in
    match mode with
    | NormalizeToLf => eof_start
    | PreserveLineEndings => eof_start `max` start
    end
  else start.

Definition seek_sequence (lines pattern : list rstr) (start : nat) (eof : bool)
    (mode : ApplyPatchFileUpdateMode) : option (option nat) :=
  if is_empty pattern then Some (Some start)
  else if length lines <? length pattern then Some None
  else
    let range := range_incl (search_start lines pattern start eof mode)
                            (length lines - length pattern) in
    r1 ← find_index (slice_eq lines pattern) range;
    match r1 with
    | Some i => Some (Some i)
    | None =>
    r2 ← find_index (lines_match trim_end lines pattern) range;
    match r2 with
    | Some i => Some (Some i)
    | None =>
    r3 ← find_index (lines_match trim lines pattern) range;
    match r3 with
    | Some i => Some (Some i)
    | None => find_index (lines_match normalise lines pattern) range
    end end end.

(** ** Specification

    The four levels of strictness, each a projection two lines must agree on. *)
Inductive level := Exact | Rstrip | Trimmed | Normalised.

Definition level_proj (v : level) : rstr → rstr :=
  match v with
  | Exact => id
  | Rstrip => trim_end
  | Trimmed => trim
  | Normalised => normalise
  end.

Definition level_rank (v : level) : nat :=
  match v with Exact => 0 | Rstrip => 1 | Trimmed => 2 | Normalised => 3 end.

(** The block of [lines] at [i] agrees with [pattern] at level [v]. *)
Definition block_matches (v : level) (lines pattern : list rstr) (i : nat) : Prop :=
  Forall2 (λ l p, level_proj v l = level_proj v p)
    (take (length pattern) (drop i lines)) pattern.

#[global] Instance block_matches_dec v lines pattern i : Decision (block_matches v lines pattern i).
Proof. unfold block_matches. apply _. Defined.

(** ** Lemmas *)

Lemma slice_eq_spec lines pattern i :
  i + length pattern ≤ length lines →
  slice_eq lines pattern i = Some (bool_decide (block_matches Exact lines pattern i)).
Proof.
  intros Hi. unfold slice_eq. rewrite decide_True by done. do 2 f_equal.
  unfold block_matches; simpl. apply bool_decide_ext.
  rewrite <- list_eq_Forall2. done.
Qed.

Lemma block_matches_cons v lines l p pattern i :
  lines !! i = Some l →
  block_matches v lines (p :: pattern) i ↔
    level_proj v l = level_proj v p ∧ block_matches v lines pattern (S i).
Proof.
  intros Hl. unfold block_matches. cbn [length]. rewrite (drop_S lines l i Hl), firstn_cons.
  by rewrite Forall2_cons.
Qed.

Lemma lines_match_spec v lines pattern i :
  i + length pattern ≤ length lines →
  lines_match (level_proj v) lines pattern i =
    Some (bool_decide (block_matches v lines pattern i)).
Proof.
  revert i. induction pattern as [|p pattern IH]; intros i Hi; cbn [lines_match length] in *.
  { done. }
  destruct (lookup_lt_is_Some_2 lines i) as [l Hl]; [lia|]. rewrite Hl; cbn.
  pose proof (block_matches_cons v lines l p pattern i Hl) as Hcons.
  case_decide as Hp.
  - rewrite IH by lia. f_equal. apply bool_decide_ext. tauto.
  - f_equal. symmetry. apply bool_decide_eq_false. tauto.
Qed.

Lemma level_proj_mono v w l p :
  level_rank v ≤ level_rank w → level_proj v l = level_proj v p → level_proj w l = level_proj w p.
Proof.
  destruct v, w; simpl; intros Hr H; try lia; unfold normalise in *; simpl in *; subst; auto;
    try (by rewrite H); try (by rewrite (trim_end_trim _ _ H)); by apply trim_end_trim.
Qed.

Lemma block_matches_mono v w lines pattern i :
  level_rank v ≤ level_rank w → block_matches v lines pattern i → block_matches w lines pattern i.
Proof.
  intros Hr H. eapply Forall2_impl; [exact H|]. intros l p. by apply level_proj_mono.
Qed.

(** Position [i] is the answer the scan promises: a match at some level in
    the searched range, no earlier match at that level, and no match at a
    stricter level anywhere in the range. *)
Definition best_match (lines pattern : list rstr) (lo i : nat) : Prop :=
  ∃ v, lo ≤ i ∧ i + length pattern ≤ length lines ∧ block_matches v lines pattern i
    ∧ (∀ j, lo ≤ j < i → ¬ block_matches v lines pattern j)
    ∧ (∀ w j, level_rank w < level_rank v → lo ≤ j → j + length pattern ≤ length lines →
         ¬ block_matches w lines pattern j).

(** One pass of the scan at level [v]. *)
Lemma pass_spec v test lines pattern lo :
  length pattern ≤ length lines →
  (∀ i, i + length pattern ≤ length lines →
     test i = Some (bool_decide (block_matches v lines pattern i))) →
  ∃ r, find_index test (range_incl lo (length lines - length pattern)) = Some r ∧
    match r with
    | Some i => lo ≤ i ∧ i + length pattern ≤ length lines ∧ block_matches v lines pattern i
                ∧ ∀ j, lo ≤ j < i → ¬ block_matches v lines pattern j
    | None => ∀ j, lo ≤ j → j + length pattern ≤ length lines → ¬ block_matches v lines pattern j
    end.
Proof.
  intros Hlen Ht.
  destruct (find_index_range (λ i, bool_decide (block_matches v lines pattern i)) test
    lo (length lines - length pattern)) as (r & Hr & Hs).
  { intros i Hi. apply Ht. lia. }
  exists r. split; [done|]. destruct r as [i|].
  - destruct Hs as (Hi & Hm & Hfirst). apply bool_decide_eq_true in Hm.
    repeat split; [lia..|done|]. intros j Hj.
    eapply bool_decide_eq_false, Hfirst. lia.
  - intros j Hj1 Hj2. eapply bool_decide_eq_false, Hs. lia.
Qed.

(** The result of a scan from [lo]. *)
Definition scan_result (lines pattern : list rstr) (lo : nat) (r : option nat) : Prop :=
  match r with
  | Some i => best_match lines pattern lo i
  | None => ∀ v j, lo ≤ j → j + length pattern ≤ length lines → ¬ block_matches v lines pattern j
  end.

Lemma seek_sequence_scan lines pattern start eof mode :
  pattern ≠ [] →
  ∃ r, seek_sequence lines pattern start eof mode = Some r ∧
    scan_result lines pattern (search_start lines pattern start eof mode) r.
Proof.
  intros Hne. unfold seek_sequence. rewrite (proj2 (is_empty_false _)) by done.
  destruct (Nat.ltb_spec (length lines) (length pattern)) as [Hlt|Hge].
  { exists None. split; [done|]. intros v j ??. lia. }
  set (lo := search_start lines pattern start eof mode). clearbody lo.
  destruct (pass_spec Exact (slice_eq lines pattern) lines pattern lo Hge)
    as (r1 & -> & H1); [apply slice_eq_spec|].
  destruct (pass_spec Rstrip (lines_match trim_end lines pattern) lines pattern lo Hge)
    as (r2 & -> & H2); [apply (lines_match_spec Rstrip)|].
  destruct (pass_spec Trimmed (lines_match trim lines pattern) lines pattern lo Hge)
    as (r3 & -> & H3); [apply (lines_match_spec Trimmed)|].
  destruct (pass_spec Normalised (lines_match normalise lines pattern) lines pattern lo Hge)
    as (r4 & -> & H4); [apply (lines_match_spec Normalised)|].
  simpl. destruct r1 as [i|]; [|destruct r2 as [i|]; [|destruct r3 as [i|]; [|destruct r4 as [i|]]]];
    eexists; (split; [reflexivity|]); simpl.
  - exists Exact. destruct H1 as (?&?&?&?). repeat split; auto. simpl. lia.
  - exists Rstrip. destruct H2 as (?&?&?&?). repeat split; auto.
    intros w; destruct w; simpl; intros; try lia; auto.
  - exists Trimmed. destruct H3 as (?&?&?&?). repeat split; auto.
    intros w; destruct w; simpl; intros; try lia; auto.
  - exists Normalised. destruct H4 as (?&?&?&?). repeat split; auto.
    intros w; destruct w; simpl; intros; try lia; auto.
  - intros w; destruct w; auto.
Qed.

Lemma seek_sequence_bounds lines pattern start eof mode i :
  pattern ≠ [] → seek_sequence lines pattern start eof mode = Some (Some i) →
  search_start lines pattern start eof mode ≤ i ∧ i + length pattern ≤ length lines.
Proof.
  intros Hne Hs. destruct (seek_sequence_scan lines pattern start eof mode Hne) as (r & Hr & Hres).
  rewrite Hs in Hr. injection Hr as <-. destruct Hres as (v & ? & ? & _). auto.
Qed.

Lemma seek_sequence_total lines pattern start eof mode :
  is_Some (seek_sequence lines pattern start eof mode).
Proof.
  destruct (decide (pattern = [])) as [->|Hne]; [by eexists|].
  destruct (seek_sequence_scan lines pattern start eof mode Hne) as (r & Hr & _). by exists r.
Qed.

(** In the line-ending preserving mode the match never moves before [start]. *)
Lemma seek_sequence_from_start lines pattern start eof i :
  seek_sequence lines pattern start eof PreserveLineEndings = Some (Some i) → start ≤ i.
Proof.
  destruct (decide (pattern = [])) as [->|Hne]; [cbn; intros [= <-]; lia|].
  intros [Hlo _]%seek_sequence_bounds; [|done]. revert Hlo. unfold search_start.
  destruct (_ && _); lia.
Qed.
