(* ===== verification/PatchParser.v ===== *)
(** * The patch parser

    Model of [apply-patch/src/parser.rs] and
    [apply-patch/src/streaming_parser.rs]: a line-driven state machine that
    turns patch text, possibly arriving in pieces, into hunks, and the
    strict and lenient (heredoc) checks of the first and last line.

    A [PathBuf] built from patch text is that text; [path.display()] and
    [to_string_lossy()] give it back. *)

From S2P Require Import Prelude RustStr.

(** ** parser.rs *)

Definition BEGIN_PATCH_MARKER := $"*** Begin Patch".
Definition END_PATCH_MARKER := $"*** End Patch".
Definition ADD_FILE_MARKER := $"*** Add File: ".
Definition DELETE_FILE_MARKER := $"*** Delete File: ".
Definition UPDATE_FILE_MARKER := $"*** Update File: ".
Definition MOVE_TO_MARKER := $"*** Move to: ".
Definition EOF_MARKER := $"*** End of File".
Definition CHANGE_CONTEXT_MARKER := $"@@ ".
Definition EMPTY_CHANGE_CONTEXT_MARKER := $"@@".
Definition ENVIRONMENT_ID_MARKER := $"*** Environment ID:".

Inductive ParseError :=
| InvalidPatchError (message : rstr)
| InvalidHunkError (message : rstr) (line_number : nat).

Record UpdateFileChunk := mkChunk {
  change_context : option rstr;
  old_lines : list rstr;
  new_lines : list rstr;
  context_line_indices : list (nat * nat);
  is_end_of_file : bool
}.

Definition default_chunk : UpdateFileChunk := mkChunk None [] [] [] false.

Inductive Hunk :=
| AddFile (path contents : rstr)
| DeleteFile (path : rstr)
| UpdateFile (path : rstr) (move_path : option rstr) (chunks : list UpdateFileChunk).

(** [Hunk::path]: the path affected, the destination for a rename. *)
Definition hunk_path (h : Hunk) : rstr :=
  match h with
  | AddFile path _ => path
  | DeleteFile path => path
  | UpdateFile _ (Some path) _ => path
  | UpdateFile path None _ => path
  end.

(** The path [Hunk::resolve_path] joins to the working directory: the
    source of an update, also when it is a rename. *)
Definition hunk_source_path (h : Hunk) : rstr :=
  match h with
  | UpdateFile path _ _ => path
  | AddFile _ _ | DeleteFile _ => hunk_path h
  end.

Definition push_context_line (c : UpdateFileChunk) (line : rstr) : UpdateFileChunk :=
  mkChunk (change_context c) (old_lines c ++ [line]) (new_lines c ++ [line])
    (context_line_indices c ++ [(length (old_lines c), length (new_lines c))])
    (is_end_of_file c).

Definition push_new_line (c : UpdateFileChunk) (line : rstr) : UpdateFileChunk :=
  mkChunk (change_context c) (old_lines c) (new_lines c ++ [line])
    (context_line_indices c) (is_end_of_file c).

Definition push_old_line (c : UpdateFileChunk) (line : rstr) : UpdateFileChunk :=
  mkChunk (change_context c) (old_lines c ++ [line]) (new_lines c)
    (context_line_indices c) (is_end_of_file c).

Definition set_end_of_file (c : UpdateFileChunk) : UpdateFileChunk :=
  mkChunk (change_context c) (old_lines c) (new_lines c) (context_line_indices c) true.

(** ** streaming_parser.rs *)

Inductive StreamingParserMode :=
| ModeNotStarted
| ModeStartedPatch
| ModeAddFile
| ModeDeleteFile
| ModeUpdateFile (hunk_line_number : nat)
| ModeEndedPatch.

Record StreamingParserState := mkState {
  mode : StreamingParserMode;
  hunks : list Hunk;
  environment_id : option rstr
}.

Record StreamingPatchParser := mkParser {
  line_buffer : rstr;
  state : StreamingParserState;
  line_number : nat
}.

Definition default_parser : StreamingPatchParser :=
  mkParser [] (mkState ModeNotStarted [] None) 0.

Definition set_mode (m : StreamingParserMode) (p : StreamingPatchParser) :=
  mkParser (line_buffer p) (mkState m (hunks (state p)) (environment_id (state p))) (line_number p).
Definition set_hunks (hs : list Hunk) (p : StreamingPatchParser) :=
  mkParser (line_buffer p) (mkState (mode (state p)) hs (environment_id (state p))) (line_number p).
Definition set_environment_id (e : rstr) (p : StreamingPatchParser) :=
  mkParser (line_buffer p) (mkState (mode (state p)) (hunks (state p)) (Some e)) (line_number p).
Definition push_hunk (h : Hunk) (p : StreamingPatchParser) := set_hunks (hunks (state p) ++ [h]) p.

Definition msg_unexpected_line (line : rstr) : rstr :=
  $"Unexpected line found in update hunk: '" ++ line ++
  $"'. Every line should start with ' ' (context line), '+' (added line), or '-' (removed line)".
Definition msg_expected_context (line : rstr) : rstr :=
  $"Expected update hunk to start with a @@ context marker, got: '" ++ line ++ $"'".
Definition msg_no_lines : rstr := $"Update hunk does not contain any lines".
Definition msg_empty_hunk (path : rstr) : rstr :=
  $"Update file hunk for path '" ++ path ++ $"' is empty".
Definition msg_bad_header (trimmed : rstr) : rstr :=
  $"'" ++ trimmed ++ $"' is not a valid hunk header. Valid hunk headers: '*** Add File: {path}', '*** Delete File: {path}', '*** Update File: {path}'".
Definition msg_first_line : rstr := $"The first line of the patch must be '*** Begin Patch'".
Definition msg_last_line : rstr := $"The last line of the patch must be '*** End Patch'".

Definition chunk_is_empty (c : UpdateFileChunk) : bool :=
  is_empty (old_lines c) && is_empty (new_lines c).

Definition ensure_update_hunk_is_not_empty (p : StreamingPatchParser) (line : rstr)
    : result ParseError unit :=
  match last (hunks (state p)) with
  | Some (UpdateFile path _ chunks) =>
      match is_empty chunks, mode (state p) with
      | true, ModeUpdateFile hunk_line_number =>
          Err (InvalidHunkError (msg_empty_hunk path) hunk_line_number)
      | _, _ =>
          if is_some_and chunk_is_empty (last chunks) then
            if decide (line = END_PATCH_MARKER)
            then Err (InvalidHunkError msg_no_lines (line_number p))
            else Err (InvalidHunkError (msg_unexpected_line line) (line_number p))
          else Ok tt
      end
  | _ => Ok tt
  end.

Definition handle_environment_id (p : StreamingPatchParser) (rest : rstr)
    : result ParseError StreamingPatchParser :=
  match environment_id (state p) with
  | Some _ => Err (InvalidPatchError $"apply_patch environment_id cannot be specified more than once")
  | None =>
      if is_empty (trim rest)
      then Err (InvalidPatchError $"apply_patch environment_id cannot be empty")
      else Ok (set_environment_id (trim rest) p)
  end.

(** [matches!(mode, StartedPatch) && let Some(..) = trimmed.strip_prefix(..)]. *)
Definition environment_id_line (p : StreamingPatchParser) (trimmed : rstr) : option rstr :=
  match mode (state p) with
  | ModeStartedPatch => strip_prefix ENVIRONMENT_ID_MARKER trimmed
  | _ => None
  end.

(** [Ok (Some p')] is the Rust [Ok(true)] with the updated parser, [Ok None] is [Ok(false)]. *)
Definition handle_hunk_headers_and_end_patch (p : StreamingPatchParser) (trimmed : rstr)
    : result ParseError (option StreamingPatchParser) :=
  match environment_id_line p trimmed with
  | Some rest => Some <$> handle_environment_id p rest
  | None =>
  if decide (trimmed = END_PATCH_MARKER) then
    _ ← ensure_update_hunk_is_not_empty p trimmed;
    Ok (Some (set_mode ModeEndedPatch p))
  else match strip_prefix ADD_FILE_MARKER trimmed with
  | Some path =>
      _ ← ensure_update_hunk_is_not_empty p trimmed;
      Ok (Some (set_mode ModeAddFile (push_hunk (AddFile path []) p)))
  | None =>
  match strip_prefix DELETE_FILE_MARKER trimmed with
  | Some path =>
      _ ← ensure_update_hunk_is_not_empty p trimmed;
      Ok (Some (set_mode ModeDeleteFile (push_hunk (DeleteFile path) p)))
  | None =>
  match strip_prefix UPDATE_FILE_MARKER trimmed with
  | Some path =>
      _ ← ensure_update_hunk_is_not_empty p trimmed;
      Ok (Some (set_mode (ModeUpdateFile (line_number p)) (push_hunk (UpdateFile path None []) p)))
  | None => Ok None
  end end end end.

(** The chunks after [if chunks.is_empty() { chunks.push(default) }] and a
    push on the last one. *)
Definition push_on_last (f : UpdateFileChunk → UpdateFileChunk) (chunks : list UpdateFileChunk)
    : list UpdateFileChunk :=
  update_last f (if is_empty chunks then [default_chunk] else chunks).

(** The body of [if let Some(UpdateFile { .. }) = hunks.last_mut()]: the new
    destination and chunks, or the error. *)
Definition update_file_line (ln : nat) (line : rstr) (move_path : option rstr)
    (chunks : list UpdateFileChunk)
    : result ParseError (option rstr * list UpdateFileChunk) :=
  let update_line := trim_end line in
  let is_marker := bool_decide (update_line = EMPTY_CHANGE_CONTEXT_MARKER)
                   || starts_with CHANGE_CONTEXT_MARKER update_line in
  let last_empty := is_some_and chunk_is_empty (last chunks) in
  let after_eof := is_some_and is_end_of_file (last chunks) in
  if after_eof && is_empty update_line then Ok (move_path, chunks)
  else if after_eof && negb is_marker
  then Err (InvalidHunkError (msg_expected_context line) ln)
  else match (if is_empty chunks && bool_decide (move_path = None)
              then strip_prefix MOVE_TO_MARKER update_line else None) with
  | Some move_to_path => Ok (Some move_to_path, chunks)
  | None =>
  if is_marker && last_empty
  then Err (InvalidHunkError (msg_unexpected_line line) ln)
  else if decide (update_line = EMPTY_CHANGE_CONTEXT_MARKER)
  then Ok (move_path, chunks ++ [default_chunk])
  else match strip_prefix CHANGE_CONTEXT_MARKER update_line with
  | Some ctx => Ok (move_path, chunks ++ [mkChunk (Some ctx) [] [] [] false])
  | None =>
  if decide (update_line = EOF_MARKER) then
    if last_empty then Err (InvalidHunkError msg_no_lines ln)
    else Ok (move_path, update_last set_end_of_file chunks)
  else match line with
  | [] => Ok (move_path, push_on_last (λ c, push_context_line c []) chunks)
  | ch :: rest =>
      if decide (ch = SPACE)
      then Ok (move_path, push_on_last (λ c, push_context_line c rest) chunks)
      else if decide (ch = PLUS)
      then Ok (move_path, push_on_last (λ c, push_new_line c rest) chunks)
      else if decide (ch = MINUS)
      then Ok (move_path, push_on_last (λ c, push_old_line c rest) chunks)
      else if is_some_and (λ c, negb (is_empty (old_lines c)) || negb (is_empty (new_lines c)))
                (last chunks)
      then Err (InvalidHunkError (msg_expected_context line) ln)
      else Err (InvalidHunkError (msg_unexpected_line line) ln)
  end end end.

Definition process_line (p : StreamingPatchParser) (line : rstr)
    : result ParseError StreamingPatchParser :=
  let trimmed := trim line in
  let bad_header := Err (InvalidHunkError (msg_bad_header trimmed) (line_number p)) in
  match mode (state p) with
  | ModeNotStarted =>
      if decide (trimmed = BEGIN_PATCH_MARKER) then Ok (set_mode ModeStartedPatch p)
      else Err (InvalidPatchError msg_first_line)
  | ModeStartedPatch =>
      r ← handle_hunk_headers_and_end_patch p trimmed;
      match r with Some p' => Ok p' | None => bad_header end
  | ModeAddFile =>
      r ← handle_hunk_headers_and_end_patch p trimmed;
      match r with
      | Some p' => Ok p'
      | None =>
          match strip_prefix [PLUS] line, last (hunks (state p)) with
          | Some line_to_add, Some (AddFile path contents) =>
              Ok (set_hunks (update_last (λ _, AddFile path (contents ++ line_to_add ++ [LF]))
                               (hunks (state p))) p)
          | _, _ => bad_header
          end
      end
  | ModeDeleteFile =>
      r ← handle_hunk_headers_and_end_patch p trimmed;
      match r with Some p' => Ok p' | None => bad_header end
  | ModeUpdateFile hunk_line_number =>
      r ← handle_hunk_headers_and_end_patch p (trim_end line);
      match r with
      | Some p' => Ok p'
      | None =>
          match last (hunks (state p)) with
          | Some (UpdateFile path move_path chunks) =>
              '(move_path', chunks') ← update_file_line (line_number p) line move_path chunks;
              Ok (set_hunks (update_last (λ _, UpdateFile path move_path' chunks')
                               (hunks (state p))) p)
          | _ => Err (InvalidHunkError (msg_unexpected_line line) (line_number p))
          end
      end
  | ModeEndedPatch =>
      if is_empty trimmed then Ok p else Err (InvalidPatchError msg_last_line)
  end.

(** [line.truncate(line.strip_suffix('\r').map_or(line.len(), str::len))]. *)
Definition drop_trailing_cr (line : rstr) : rstr := default line (strip_suffix [CR] line).

(** Take the buffered line: the buffer is emptied and the line counted
    before the line is processed, also when processing fails. *)
Definition take_line (p : StreamingPatchParser) : StreamingPatchParser :=
  mkParser [] (state p) (S (line_number p)).

(** The character loop of [push_delta]; the parser is returned with the
    outcome because an error leaves it where it stopped. *)
Fixpoint push_chars (p : StreamingPatchParser) (delta : rstr)
    : StreamingPatchParser * result ParseError unit :=
  match delta with
  | [] => (p, Ok tt)
  | ch :: delta' =>
      if decide (ch = LF) then
        let line := drop_trailing_cr (line_buffer p) in
        match process_line (take_line p) line with
        | Ok p' => push_chars p' delta'
        | Err e => (take_line p, Err e)
        end
      else push_chars (mkParser (line_buffer p ++ [ch]) (state p) (line_number p)) delta'
  end.

Definition push_delta (p : StreamingPatchParser) (delta : rstr)
    : StreamingPatchParser * result ParseError (list Hunk) :=
  let '(p', r) := push_chars p delta in
  (p', (λ _, hunks (state p')) <$> r).

Definition finish (p : StreamingPatchParser)
    : StreamingPatchParser * result ParseError (list Hunk) :=
  let '(p', r) :=
    if is_empty (line_buffer p) then (p, Ok tt)
    else
      let line := line_buffer p in
      let p1 := take_line p in
      if decide (trim line = END_PATCH_MARKER) then
        match ensure_update_hunk_is_not_empty p1 (trim line) with
        | Ok _ => (set_mode ModeEndedPatch p1, Ok tt)
        | Err e => (p1, Err e)
        end
      else match process_line p1 line with
        | Ok p2 => (p2, Ok tt)
        | Err e => (p1, Err e)
        end in
  match r with
  | Err e => (p', Err e)
  | Ok _ =>
      match mode (state p') with
      | ModeEndedPatch => (p', Ok (hunks (state p')))
      | _ => (p', Err (InvalidPatchError msg_last_line))
      end
  end.

(** ** parser.rs: boundaries and entry points *)

Inductive ParseMode := Strict | Lenient.
Definition PARSE_IN_STRICT_MODE : bool := false.

Record ApplyPatchArgs := mkArgs {
  args_patch : rstr;
  args_hunks : list Hunk;
  args_workdir : option rstr;
  args_environment_id : option rstr
}.

Definition check_start_and_end_lines_strict (first_line last_line : option rstr)
    : result ParseError unit :=
  match trim <$> first_line, trim <$> last_line with
  | Some first, Some last =>
      if decide (first = BEGIN_PATCH_MARKER ∧ last = END_PATCH_MARKER) then Ok tt
      else if decide (first ≠ BEGIN_PATCH_MARKER) then Err (InvalidPatchError msg_first_line)
      else Err (InvalidPatchError msg_last_line)
  | Some first, None =>
      if decide (first ≠ BEGIN_PATCH_MARKER) then Err (InvalidPatchError msg_first_line)
      else Err (InvalidPatchError msg_last_line)
  | None, _ => Err (InvalidPatchError msg_last_line)
  end.

Definition check_patch_boundaries_strict (ls : list rstr) : result ParseError (list rstr) :=
  _ ← check_start_and_end_lines_strict (head ls) (last ls); Ok ls.

Definition heredoc_openers : list rstr :=
  [ $"<<EOF"; $"<<'EOF'"; $"<<" ++ [DQUOTE] ++ $"EOF" ++ [DQUOTE] ].

Definition check_patch_boundaries_lenient (original_lines : list rstr)
    : result ParseError (list rstr) :=
  match check_patch_boundaries_strict original_lines with
  | Ok ls => Ok ls
  | Err original_parse_error =>
      match head original_lines, last original_lines with
      | Some first, Some last =>
          if bool_decide (2 ≤ length original_lines) && bool_decide (first ∈ heredoc_openers)
             && ends_with $"EOF" last && bool_decide (4 ≤ length original_lines)
          then check_patch_boundaries_strict
                 (take (length original_lines - 2) (drop 1 original_lines))
          else Err original_parse_error
      | _, _ => Err original_parse_error
      end
  end.

Definition parse_patch_text (patch : rstr) (m : ParseMode) : result ParseError ApplyPatchArgs :=
  let ls := lines (trim patch) in
  patch_lines ← match m with
                | Strict => check_patch_boundaries_strict ls
                | Lenient => check_patch_boundaries_lenient ls
                end;
  let patch := join [LF] patch_lines in
  let '(p1, r1) := push_delta default_parser patch in
  _ ← r1;
  let '(p2, r2) := finish p1 in
  hs ← r2;
  Ok (mkArgs patch hs None (environment_id (state p2))).

Definition parse_patch (patch : rstr) : result ParseError ApplyPatchArgs :=
  parse_patch_text patch (if PARSE_IN_STRICT_MODE then Strict else Lenient).
