(* ===== verification/PatchParserFacts.v ===== *)
(** * Correctness of the patch parser

    Independence of how the text is cut into pieces, the invariant of the
    state machine, and the round trip with a printer of patches. *)

From S2P Require Import Prelude RustStr PatchParser.

(** ** Cutting the text *)

Lemma push_chars_app p a b :
  push_chars p (a ++ b) =
    match push_chars p a with
    | (p', Ok _) => push_chars p' b
    | (p', Err e) => (p', Err e)
    end.
Proof.
  revert p. induction a as [|ch a IH]; intros p; [done|]. simpl.
  case_decide; [|apply IH]. by destruct (process_line _ _).
Qed.

(** Pushing the pieces one after the other, stopping at the first error. *)
Fixpoint push_deltas (p : StreamingPatchParser) (pieces : list rstr)
    : StreamingPatchParser * result ParseError unit :=
  match pieces with
  | [] => (p, Ok tt)
  | d :: pieces' =>
      match push_delta p d with
      | (p', Ok _) => push_deltas p' pieces'
      | (p', Err e) => (p', Err e)
      end
  end.

Lemma push_deltas_concat p pieces : push_deltas p pieces = push_chars p (concat pieces).
Proof.
  revert p. induction pieces as [|d pieces IH]; intros p; [done|].
  simpl. rewrite push_chars_app. unfold push_delta.
  destruct (push_chars p d) as [p' [u|e]]; simpl; [apply IH|done].
Qed.

(** ** The state machine invariant *)

(** Strictly increasing pairs of indices, in range, pointing at equal lines. *)
Definition context_pair_ok (old new : list rstr) (ij : nat * nat) : Prop :=
  ∃ l, old !! ij.1 = Some l ∧ new !! ij.2 = Some l.

Definition pair_lt (a b : nat * nat) : Prop := a.1 < b.1 ∧ a.2 < b.2.

Definition chunk_wf (c : UpdateFileChunk) : Prop :=
  Forall (context_pair_ok (old_lines c) (new_lines c)) (context_line_indices c)
  ∧ StronglySorted pair_lt (context_line_indices c).

Definition chunk_nonempty (c : UpdateFileChunk) : Prop := old_lines c ≠ [] ∨ new_lines c ≠ [].

(** A hunk the parser has finished with. *)
Definition hunk_complete (h : Hunk) : Prop :=
  match h with
  | UpdateFile _ _ chunks => chunks ≠ [] ∧ Forall (λ c, chunk_wf c ∧ chunk_nonempty c) chunks
  | _ => True
  end.

(** The chunks of the hunk being read: only the last one may still be empty,
    and not once it is marked as the end of the file. *)
Definition chunks_open (chunks : list UpdateFileChunk) : Prop :=
  ∀ cs c, chunks = cs ++ [c] →
    Forall (λ c, chunk_wf c ∧ chunk_nonempty c) cs ∧ chunk_wf c
    ∧ (is_end_of_file c = true → chunk_nonempty c).

Definition mode_matches (m : StreamingParserMode) (h : Hunk) : Prop :=
  match m, h with
  | ModeAddFile, AddFile _ _ => True
  | ModeDeleteFile, DeleteFile _ => True
  | ModeUpdateFile _, UpdateFile _ _ chunks => chunks_open chunks
  | _, _ => False
  end.

Definition parser_inv (p : StreamingPatchParser) : Prop :=
  match mode (state p) with
  | ModeNotStarted | ModeStartedPatch => hunks (state p) = []
  | ModeEndedPatch => Forall hunk_complete (hunks (state p))
  | m => ∃ hs h, hunks (state p) = hs ++ [h] ∧ Forall hunk_complete hs ∧ mode_matches m h
  end.

Lemma chunk_is_empty_spec c : chunk_is_empty c = false ↔ chunk_nonempty c.
Proof.
  unfold chunk_is_empty, chunk_nonempty.
  destruct (old_lines c), (new_lines c); simpl; intuition congruence.
Qed.

(** *** Chunks *)

Lemma chunk_wf_new ctx eof : chunk_wf (mkChunk ctx [] [] [] eof).
Proof. split; constructor. Qed.

Lemma context_pair_ok_app old new ko kn ij :
  context_pair_ok old new ij → context_pair_ok (old ++ ko) (new ++ kn) ij.
Proof. intros (l & ? & ?). exists l. split; by apply lookup_app_l_Some. Qed.

Lemma context_pair_lt old new ij :
  context_pair_ok old new ij → pair_lt ij (length old, length new).
Proof. intros (l & ?%lookup_lt_Some & ?%lookup_lt_Some). by split. Qed.

Lemma StronglySorted_snoc {A} (R : A → A → Prop) l x :
  StronglySorted R l → Forall (λ y, R y x) l → StronglySorted R (l ++ [x]).
Proof.
  induction 1 as [|y l Hl IH Hy]; intros Hx; simpl.
  { repeat constructor. }
  inversion Hx; subst. constructor; [by apply IH|].
  apply Forall_app. split; [done|by constructor].
Qed.

Lemma push_context_line_wf c l : chunk_wf c → chunk_wf (push_context_line c l).
Proof.
  intros [Hall Hsort]. split; simpl.
  - apply Forall_app. split.
    + eapply Forall_impl; [exact Hall|]. intros ij. apply context_pair_ok_app.
    + constructor; [|constructor]. exists l. by rewrite !list_lookup_middle.
  - apply StronglySorted_snoc; [done|].
    eapply Forall_impl; [exact Hall|]. intros ij. apply context_pair_lt.
Qed.

Lemma push_new_line_wf c l : chunk_wf c → chunk_wf (push_new_line c l).
Proof.
  intros [Hall Hsort]. split; simpl; [|done].
  eapply Forall_impl; [exact Hall|]. intros ij H.
  rewrite <- (app_nil_r (old_lines c)). by apply context_pair_ok_app.
Qed.

Lemma push_old_line_wf c l : chunk_wf c → chunk_wf (push_old_line c l).
Proof.
  intros [Hall Hsort]. split; simpl; [|done].
  eapply Forall_impl; [exact Hall|]. intros ij H.
  rewrite <- (app_nil_r (new_lines c)). by apply context_pair_ok_app.
Qed.

Lemma push_context_line_nonempty c l : chunk_nonempty (push_context_line c l).
Proof. left. simpl. by destruct (old_lines c). Qed.
Lemma push_new_line_nonempty c l : chunk_nonempty (push_new_line c l).
Proof. right. simpl. by destruct (new_lines c). Qed.
Lemma push_old_line_nonempty c l : chunk_nonempty (push_old_line c l).
Proof. left. simpl. by destruct (old_lines c). Qed.

#[export] Hint Resolve chunk_wf_new push_context_line_wf push_new_line_wf push_old_line_wf
  push_context_line_nonempty push_new_line_nonempty push_old_line_nonempty : codex.

Lemma last_some_and_false {A} (f : A → bool) l k x :
  is_some_and f (last l) = false → l = k ++ [x] → f x = false.
Proof. intros H ->. by rewrite last_snoc in H. Qed.

Lemma chunks_open_nil : chunks_open [].
Proof. intros cs c H. by destruct cs. Qed.

Lemma chunks_open_complete chunks :
  chunks_open chunks → is_some_and chunk_is_empty (last chunks) = false →
  Forall (λ c, chunk_wf c ∧ chunk_nonempty c) chunks.
Proof.
  intros Ho Hl. destruct chunks as [|c cs _] using rev_ind; [constructor|].
  destruct (Ho cs c eq_refl) as (? & ? & ?). apply Forall_app. split; [done|].
  constructor; [|constructor]. split; [done|].
  apply chunk_is_empty_spec. by rewrite last_snoc in Hl.
Qed.

Lemma chunks_open_push chunks c :
  chunks_open chunks → is_some_and chunk_is_empty (last chunks) = false →
  chunk_wf c → is_end_of_file c = false → chunks_open (chunks ++ [c]).
Proof.
  intros Ho Hl Hc Heof cs c' [<- [= <-]]%app_inj_2; [|done].
  repeat split; [by apply chunks_open_complete|apply Hc|apply Hc|congruence].
Qed.

Lemma chunks_open_update f chunks :
  chunks_open chunks →
  (∀ c, chunk_wf c → (is_end_of_file c = true → chunk_nonempty c) →
        last chunks = Some c →
        chunk_wf (f c) ∧ (is_end_of_file (f c) = true → chunk_nonempty (f c))) →
  chunks_open (update_last f chunks).
Proof.
  intros Ho Hf. destruct chunks as [|c cs _] using rev_ind; [done|].
  rewrite update_last_snoc. destruct (Ho cs c eq_refl) as (? & ? & ?).
  intros cs' c' [<- [= <-]]%app_inj_2; [|done].
  split; [done|]. apply Hf; [done..|]. apply last_snoc.
Qed.

Lemma chunks_open_push_on_last f chunks :
  chunks_open chunks →
  (∀ c, chunk_wf c → chunk_wf (f c)) → (∀ c, chunk_nonempty (f c)) →
  chunks_open (push_on_last f chunks).
Proof.
  intros Ho Hwf Hne. unfold push_on_last. apply chunks_open_update.
  - destruct chunks; simpl; [|done].
    intros cs c H. destruct cs as [|? [|??]]; simplify_eq/=.
    repeat split; [constructor|constructor|constructor|done].
  - intros c ???. split; [by apply Hwf|]. intros _. apply Hne.
Qed.

(** A context marker is refused while the previous chunk is empty. *)
Definition is_context_marker (ul : rstr) : bool :=
  bool_decide (ul = EMPTY_CHANGE_CONTEXT_MARKER) || starts_with CHANGE_CONTEXT_MARKER ul.

Lemma context_marker_nonempty ul r b :
  is_context_marker ul && b = false →
  ul = EMPTY_CHANGE_CONTEXT_MARKER ∨ strip_prefix CHANGE_CONTEXT_MARKER ul = Some r →
  b = false.
Proof.
  unfold is_context_marker, starts_with. intros H [->|Hr].
  - by rewrite bool_decide_eq_true_2 in H.
  - by rewrite Hr, orb_true_r in H.
Qed.

Lemma set_end_of_file_open chunks :
  chunks_open chunks → is_some_and chunk_is_empty (last chunks) = false →
  chunks_open (update_last set_end_of_file chunks).
Proof.
  intros Ho Hl. apply chunks_open_update; [done|].
  intros c Hwf _ Hlast. split; [exact Hwf|]. intros _.
  rewrite Hlast in Hl. by apply chunk_is_empty_spec in Hl.
Qed.

(** Every line accepted inside an update hunk keeps its chunks well formed. *)
Lemma update_file_line_open ln line mv chunks mv' chunks' :
  chunks_open chunks → update_file_line ln line mv chunks = Ok (mv', chunks') →
  chunks_open chunks'.
Proof.
  intros Ho. unfold update_file_line.
  fold (is_context_marker (trim_end line)).
  destruct (_ && is_empty _); [by intros [= <- <-]|].
  destruct (_ && negb _); [done|].
  case_match; [by intros [= <- <-]|].
  destruct (is_context_marker _ && _) eqn:Hmark; [done|].
  pose proof (λ r, context_marker_nonempty _ r _ Hmark) as Hne. clear Hmark.
  case_decide as Hul.
  { intros [= <- <-]. apply chunks_open_push; [done|by apply (Hne []); left|apply chunk_wf_new|done]. }
  destruct (strip_prefix CHANGE_CONTEXT_MARKER _) as [ctx|].
  { intros [= <- <-]. apply chunks_open_push; [done|by apply (Hne ctx); right|apply chunk_wf_new|done]. }
  case_decide.
  { destruct (is_some_and chunk_is_empty _) eqn:Hl; [done|].
    intros [= <- <-]. by apply set_end_of_file_open. }
  repeat case_match; intros H'; simplify_eq; try done;
    apply chunks_open_push_on_last; auto with codex.
Qed.

(** *** The parser *)

Lemma ensure_ok_complete p line hs h :
  hunks (state p) = hs ++ [h] → mode_matches (mode (state p)) h →
  ensure_update_hunk_is_not_empty p line = Ok tt → hunk_complete h.
Proof.
  intros Hhs Hm. unfold ensure_update_hunk_is_not_empty. rewrite Hhs, last_snoc.
  destruct h as [| |path mv chunks]; [done..|]. simpl.
  destruct (mode (state p)) eqn:Hmode; try done. simpl in Hm.
  destruct (is_empty chunks) eqn:He; [done|].
  destruct (is_some_and chunk_is_empty _) eqn:Hl; [by case_decide|].
  intros _. split; [by apply is_empty_false|by apply chunks_open_complete].
Qed.

(** All hunks so far are finished. *)
Lemma ensure_ok_all p line :
  parser_inv p → ensure_update_hunk_is_not_empty p line = Ok tt →
  Forall hunk_complete (hunks (state p)).
Proof.
  unfold parser_inv. intros Hinv He. destruct (mode (state p)) eqn:Hm;
    try (by rewrite Hinv); try done;
    destruct Hinv as (hs & h & Hhs & Hall & Hmm); rewrite Hhs;
    (apply Forall_app; split; [done|]; constructor; [|constructor]);
    (eapply ensure_ok_complete; [exact Hhs|by rewrite Hm|exact He]).
Qed.

Lemma bind_Ok {E T U} (r : result E T) (k : T → result E U) u :
  (r ≫= k) = Ok u → ∃ t, r = Ok t ∧ k t = Ok u.
Proof. destruct r; [|done]. eauto. Qed.

Lemma start_hunk_inv p l q p' :
  parser_inv p → (Forall hunk_complete (hunks (state p)) → parser_inv q) →
  (_ ← ensure_update_hunk_is_not_empty p l; Ok (Some q)) = Ok (Some p') → parser_inv p'.
Proof.
  intros Hinv Hq H. apply bind_Ok in H as ([] & Hu & [= <-]).
  apply Hq. by eapply ensure_ok_all.
Qed.

Lemma environment_id_inv p l rest p' :
  parser_inv p → environment_id_line p l = Some rest →
  Some <$> handle_environment_id p rest = Ok (Some p') → parser_inv p'.
Proof.
  unfold environment_id_line, handle_environment_id, parser_inv.
  destruct (mode (state p)) eqn:Hm; try done. intros Hinv _.
  destruct (environment_id (state p)); [done|].
  destruct (is_empty _); [done|]. intros [= <-]. simpl. by rewrite Hm.
Qed.

Lemma handle_headers_inv p l p' :
  parser_inv p → handle_hunk_headers_and_end_patch p l = Ok (Some p') → parser_inv p'.
Proof.
  intros Hinv. unfold handle_hunk_headers_and_end_patch.
  destruct (environment_id_line p l) eqn:He; [by eapply environment_id_inv|].
  case_decide; [apply start_hunk_inv; simpl; auto|].
  repeat match goal with
  | |- match strip_prefix ?m l with _ => _ end = _ → _ => destruct (strip_prefix m l); [
      apply start_hunk_inv; [done|]; intros Hall; unfold parser_inv; simpl;
      do 2 eexists; split; [done|]; split; [done|]; auto using chunks_open_nil|]
  end.
  done.
Qed.

Lemma process_line_inv p line p' :
  parser_inv p → process_line p line = Ok p' → parser_inv p'.
Proof.
  intros Hinv. unfold process_line.
  destruct (mode (state p)) eqn:Hm.
  - case_decide; [|done]. intros [= <-]. revert Hinv. unfold parser_inv. by rewrite Hm.
  - intros ([q|] & Hq & H)%bind_Ok; [|done]. injection H as <-. by eapply handle_headers_inv.
  - intros ([q|] & Hq & H)%bind_Ok; [injection H as <-; by eapply handle_headers_inv|].
    destruct (strip_prefix [PLUS] line); [|done].
    destruct (last (hunks (state p))) as [[path c| |]|] eqn:Hl; try done. injection H as <-.
    unfold parser_inv in *. simpl. rewrite Hm in *. destruct Hinv as (hs & h & Hhs & ? & ?).
    rewrite Hhs, update_last_snoc. eauto.
  - intros ([q|] & Hq & H)%bind_Ok; [|done]. injection H as <-. by eapply handle_headers_inv.
  - intros ([q|] & Hq & H)%bind_Ok; [injection H as <-; by eapply handle_headers_inv|].
    unfold parser_inv in Hinv. rewrite Hm in Hinv. destruct Hinv as (hs & h & Hhs & Hall & Hmm).
    rewrite Hhs, last_snoc in H.
    destruct h as [| |path mv chunks]; try done.
    apply bind_Ok in H as ([mv' chunks'] & Hu & H). injection H as <-.
    unfold parser_inv. simpl. rewrite Hm, update_last_snoc.
    do 2 eexists. split; [done|]. split; [done|]. simpl. by eapply update_file_line_open.
  - case_match; [|done]. by intros [= <-].
Qed.

Lemma take_line_inv p : parser_inv p → parser_inv (take_line p).
Proof. done. Qed.

Lemma push_chars_inv p delta : parser_inv p → parser_inv (push_chars p delta).1.
Proof.
  revert p. induction delta as [|ch delta IH]; intros p Hinv; [done|]. simpl.
  case_decide; [|by apply IH].
  destruct (process_line _ _) as [p'|e] eqn:Hp; [|done]. apply IH.
  by eapply process_line_inv, Hp.
Qed.

Lemma finish_inv p p' hs :
  parser_inv p → finish p = (p', Ok hs) → Forall hunk_complete hs.
Proof.
  intros Hinv. unfold finish.
  assert (∀ q, parser_inv q → match mode (state q) with
     | ModeEndedPatch => (q, Ok (hunks (state q)))
     | _ => (q, Err (InvalidPatchError msg_last_line)) end = (p', Ok hs) →
     Forall hunk_complete hs) as Hend.
  { unfold parser_inv. intros q Hq. destruct (mode (state q)); try done. by intros [= _ <-]. }
  destruct (is_empty (line_buffer p)); [by apply Hend|].
  case_decide.
  - destruct (ensure_update_hunk_is_not_empty (take_line p) _) as [[]|e] eqn:He; [|done].
    apply Hend. unfold parser_inv; simpl. eapply (ensure_ok_all (take_line p)); [done|exact He].
  - destruct (process_line (take_line p) _) as [q|e] eqn:Hp; [|done].
    apply Hend. by eapply process_line_inv, Hp.
Qed.

Lemma parse_patch_text_complete patch m args :
  parse_patch_text patch m = Ok args → Forall hunk_complete (args_hunks args).
Proof.
  unfold parse_patch_text. intros (ls & _ & H)%bind_Ok.
  destruct (push_delta default_parser (join [LF] ls)) as [p1 r1] eqn:Hp.
  apply bind_Ok in H as (hs1 & -> & H).
  destruct (finish p1) as [p2 r2] eqn:Hf.
  apply bind_Ok in H as (hs & -> & [= <-]). simpl.
  eapply finish_inv; [|exact Hf].
  unfold push_delta in Hp. destruct (push_chars default_parser _) as [q r] eqn:Hq.
  injection Hp as <- _. change q with (q, r).1. rewrite <- Hq. by apply push_chars_inv.
Qed.

(** ** Line by line *)

Definition step_line (p : StreamingPatchParser) (l : rstr) : result ParseError StreamingPatchParser :=
  process_line (take_line p) l.

Fixpoint step_lines (p : StreamingPatchParser) (ls : list rstr)
    : result ParseError StreamingPatchParser :=
  match ls with
  | [] => Ok p
  | l :: ls' => p' ← step_line p l; step_lines p' ls'
  end.

Lemma step_lines_app p ls ks :
  step_lines p (ls ++ ks) = (p' ← step_lines p ls; step_lines p' ks).
Proof.
  revert p. induction ls as [|l ls IH]; intros p; [done|]. simpl.
  destruct (step_line p l); simpl; auto.
Qed.

Lemma push_chars_no_lf p l :
  LF ∉ l → push_chars p l = (mkParser (line_buffer p ++ l) (state p) (line_number p), Ok tt).
Proof.
  revert p. induction l as [|ch l IH]; intros p Hl; simpl.
  { destruct p. by rewrite app_nil_r. }
  apply not_elem_of_cons in Hl as [Hch Hl]. rewrite decide_False by done.
  rewrite IH by done. simpl. by rewrite <- app_assoc.
Qed.

Lemma drop_trailing_cr_id l : is_some_and (N.eqb CR) (last l) = false → drop_trailing_cr l = l.
Proof.
  intros Hl. unfold drop_trailing_cr. destruct (strip_suffix [CR] l) as [r|] eqn:E; [|done].
  apply strip_suffix_Some in E as ->. by rewrite last_snoc in Hl.
Qed.

Lemma ensure_take_buffer p : line_buffer (take_line p) = [].
Proof. done. Qed.

Lemma handle_headers_buffer p l p' :
  handle_hunk_headers_and_end_patch p l = Ok (Some p') → line_buffer p' = line_buffer p.
Proof.
  unfold handle_hunk_headers_and_end_patch, handle_environment_id.
  repeat case_match; intros H'; simplify_eq/=; try done;
    by apply bind_Ok in H' as (? & _ & [= <-]).
Qed.

Lemma process_line_buffer p l p' : process_line p l = Ok p' → line_buffer p' = line_buffer p.
Proof.
  unfold process_line. destruct (mode (state p)).
  - case_decide; by intros [= <-].
  - intros ([q|] & Hq & H)%bind_Ok; [|done]. injection H as <-. by eapply handle_headers_buffer.
  - intros ([q|] & Hq & H)%bind_Ok; [injection H as <-; by eapply handle_headers_buffer|].
    repeat case_match; by simplify_eq.
  - intros ([q|] & Hq & H)%bind_Ok; [|done]. injection H as <-. by eapply handle_headers_buffer.
  - intros ([q|] & Hq & H)%bind_Ok; [injection H as <-; by eapply handle_headers_buffer|].
    repeat case_match; try done. by apply bind_Ok in H as ([??] & _ & [= <-]).
  - case_match; by intros [= <-].
Qed.

(** Pushing complete lines is the same as processing them one by one. *)
Lemma push_chars_lines p ls rest p' :
  line_buffer p = [] → Forall line_ok ls → step_lines p ls = Ok p' →
  push_chars p (concat ((λ l, l ++ [LF]) <$> ls) ++ rest) = push_chars p' rest
  ∧ line_buffer p' = [].
Proof.
  intros Hbuf Hls. revert p Hbuf. induction Hls as [|l ls [Hl1 Hl2] _ IH]; intros p Hbuf; simpl.
  { by intros [= <-]. }
  intros (q & Hq & Hs)%bind_Ok.
  rewrite <- !app_assoc, push_chars_app, push_chars_no_lf by done. rewrite Hbuf; simpl.
  rewrite drop_trailing_cr_id by done.
  unfold step_line in Hq. unfold take_line in *. simpl in *. rewrite Hq.
  apply IH; [|done]. by apply process_line_buffer in Hq.
Qed.
