(* ===== verification/PatchRoundTrip.v ===== *)
(** * Printing patches and reading them back

    A patch as its author means it (files to add, delete, or update by a
    list of context, added and removed lines), its text in the documented
    grammar, and the proof that [parse_patch] recovers its hunks. *)

From S2P Require Import Prelude RustStr PatchParser PatchParserFacts.

Inductive DiffLine :=
| Context (l : rstr)
| Added (l : rstr)
| Removed (l : rstr).

Record DiffChunk := mkDiffChunk {
  dc_context : option rstr;
  dc_lines : list DiffLine;
  dc_eof : bool
}.

Inductive PatchFile :=
| PAdd (path : rstr) (ls : list rstr)
| PDelete (path : rstr)
| PUpdate (path : rstr) (move_to : option rstr) (chunks : list DiffChunk).

(** ** Meaning *)

Definition push_diff_line (c : UpdateFileChunk) (d : DiffLine) : UpdateFileChunk :=
  match d with
  | Context l => push_context_line c l
  | Added l => push_new_line c l
  | Removed l => push_old_line c l
  end.

Definition chunk_of (dc : DiffChunk) : UpdateFileChunk :=
  let c := foldl push_diff_line (mkChunk (dc_context dc) [] [] [] false) (dc_lines dc) in
  if dc_eof dc then set_end_of_file c else c.

Definition hunk_of (f : PatchFile) : Hunk :=
  match f with
  | PAdd path ls => AddFile path (concat ((λ l, l ++ [LF]) <$> ls))
  | PDelete path => DeleteFile path
  | PUpdate path move_to chunks => UpdateFile path move_to (chunk_of <$> chunks)
  end.

(** ** Text *)

Definition render_diff_line (d : DiffLine) : rstr :=
  match d with
  | Context l => SPACE :: l
  | Added l => PLUS :: l
  | Removed l => MINUS :: l
  end.

Definition render_chunk (dc : DiffChunk) : list rstr :=
  [match dc_context dc with
   | Some ctx => CHANGE_CONTEXT_MARKER ++ ctx
   | None => EMPTY_CHANGE_CONTEXT_MARKER
   end]
  ++ (render_diff_line <$> dc_lines dc)
  ++ (if dc_eof dc then [EOF_MARKER] else []).

Definition render_file (f : PatchFile) : list rstr :=
  match f with
  | PAdd path ls => (ADD_FILE_MARKER ++ path) :: ((λ l, PLUS :: l) <$> ls)
  | PDelete path => [DELETE_FILE_MARKER ++ path]
  | PUpdate path move_to chunks =>
      (UPDATE_FILE_MARKER ++ path)
      :: (match move_to with Some m => [MOVE_TO_MARKER ++ m] | None => [] end)
      ++ concat (render_chunk <$> chunks)
  end.

Definition render_body (env : option rstr) (files : list PatchFile) : list rstr :=
  BEGIN_PATCH_MARKER
  :: (match env with Some e => [ENVIRONMENT_ID_MARKER ++ SPACE :: e] | None => [] end)
  ++ concat (render_file <$> files).

Definition render_patch (env : option rstr) (files : list PatchFile) : rstr :=
  join [LF] (render_body env files ++ [END_PATCH_MARKER]).

(** ** What can be printed *)

(** A file name, context or environment id that fills the rest of a marker line. *)
Definition field_ok (s : rstr) : Prop :=
  s ≠ [] ∧ (LF ∉ s) ∧ is_some_and is_whitespace (last s) = false.

Definition env_ok (s : rstr) : Prop := field_ok s ∧ is_some_and is_whitespace (head s) = false.

Definition diff_line_text (d : DiffLine) : rstr :=
  match d with Context l | Added l | Removed l => l end.

Definition chunk_ok (dc : DiffChunk) : Prop :=
  (∀ ctx, dc_context dc = Some ctx → field_ok ctx)
  ∧ dc_lines dc ≠ [] ∧ Forall (λ d, line_ok (diff_line_text d)) (dc_lines dc).

Definition file_ok (f : PatchFile) : Prop :=
  match f with
  | PAdd path ls => field_ok path ∧ Forall line_ok ls
  | PDelete path => field_ok path
  | PUpdate path move_to chunks =>
      field_ok path ∧ (∀ m, move_to = Some m → field_ok m) ∧ chunks ≠ [] ∧ Forall chunk_ok chunks
  end.

(** ** Markers *)

Lemma last_app_nonempty {A} (l k : list A) : k ≠ [] → last (l ++ k) = last k.
Proof.
  destruct k as [|x k _] using rev_ind; [done|]. intros _.
  by rewrite app_assoc, !last_snoc.
Qed.

(** A printed marker line is unchanged by the trimming of the parser. *)
Lemma trim_marker c m s :
  is_whitespace c = false → field_ok s →
  trim ((c :: m) ++ s) = (c :: m) ++ s ∧ trim_end ((c :: m) ++ s) = (c :: m) ++ s.
Proof.
  intros Hc (Hne & _ & Hl).
  assert (is_some_and is_whitespace (last ((c :: m) ++ s)) = false) as Hlast.
  { by rewrite last_app_nonempty. }
  split; [by apply trim_id|by apply trim_end_id].
Qed.

Lemma field_line_ok m s : LF ∉ m → field_ok s → line_ok (m ++ s).
Proof.
  intros Hm (Hne & Hlf & Hl). split; [rewrite elem_of_app; tauto|].
  rewrite last_app_nonempty by done.
  destruct (last s) as [c|]; [|done]. simpl in *.
  destruct (CR =? c)%N eqn:E; [|done]. apply N.eqb_eq in E as <-. done.
Qed.

Lemma cons_line_ok c l : c ≠ LF → c ≠ CR → line_ok l → line_ok (c :: l).
Proof.
  intros H1 H2 [Hlf Hcr]. split; [rewrite elem_of_cons; intuition congruence|].
  destruct l as [|x l]; [|done]. cbn [last is_some_and]. apply N.eqb_neq. congruence.
Qed.

(** ** Steps of the state machine on printed lines *)

Definition open_mode (m : StreamingParserMode) : Prop :=
  match m with ModeNotStarted | ModeEndedPatch => False | _ => True end.

(** The parser between two lines. *)
Abbreviation parser_at m hs env n := (mkParser [] (mkState m hs env) n) (only parsing).

Lemma ensure_complete m hs env n line :
  Forall hunk_complete hs → ensure_update_hunk_is_not_empty (parser_at m hs env n) line = Ok tt.
Proof.
  intros Hhs. unfold ensure_update_hunk_is_not_empty. simpl.
  destruct hs as [|h hs _] using rev_ind; [done|]. rewrite last_snoc.
  apply Forall_app in Hhs as [_ Hh]. inversion Hh as [|? ? Hc _]; subst.
  destruct h as [| |path mv chunks]; [done..|]. destruct Hc as [Hne Hall].
  rewrite (proj2 (is_empty_false _)) by done.
  destruct chunks as [|c chunks _] using rev_ind; [done|]. rewrite last_snoc; simpl.
  apply Forall_app in Hall as [_ Hc]. inversion Hc as [|? ? [_ Hcne] _]; subst.
  by rewrite (proj2 (chunk_is_empty_spec c)).
Qed.

(** A header or end line is handled before the line is read in its mode. *)
Lemma step_header m hs env n line q :
  open_mode m → trim line = line → trim_end line = line →
  handle_hunk_headers_and_end_patch (parser_at m hs env (S n)) line = Ok (Some q) →
  step_line (parser_at m hs env n) line = Ok q.
Proof.
  intros Hm Ht Hte Hh. unfold step_line, take_line, process_line. simpl.
  destruct m; try done; rewrite ?Ht, ?Hte, Hh; done.
Qed.

Lemma step_begin hs env n :
  step_line (parser_at ModeNotStarted hs env n) BEGIN_PATCH_MARKER
  = Ok (parser_at ModeStartedPatch hs env (S n)).
Proof. reflexivity. Qed.

Lemma step_environment e n :
  env_ok e →
  step_line (parser_at ModeStartedPatch [] None n) (ENVIRONMENT_ID_MARKER ++ SPACE :: e)
  = Ok (parser_at ModeStartedPatch [] (Some e) (S n)).
Proof.
  intros [He Hh].
  replace (ENVIRONMENT_ID_MARKER ++ SPACE :: e) with ((ENVIRONMENT_ID_MARKER ++ [SPACE]) ++ e)
    by (by rewrite <- app_assoc).
  destruct (trim_marker 42 (tail ENVIRONMENT_ID_MARKER ++ [SPACE]) e eq_refl He) as [Ht Hte].
  apply step_header; [done|exact Ht|exact Hte|].
  unfold handle_hunk_headers_and_end_patch, environment_id_line. simpl mode.
  rewrite <- app_assoc, strip_prefix_app. unfold handle_environment_id. simpl environment_id.
  assert (trim ([SPACE] ++ e) = e) as ->.
  { destruct He as (Hne & _ & Hl). unfold trim. rewrite trim_end_id by (by rewrite last_app_nonempty).
    destruct e as [|c e]; [done|]. change (trim_start (c :: e) = c :: e).
    by apply trim_start_matches_id. }
  by rewrite (proj2 (is_empty_false e) (proj1 He)).
Qed.

Section headers.
Context (m : StreamingParserMode) (hs : list Hunk) (env : option rstr) (n : nat).
Hypothesis Hm : open_mode m.
Hypothesis Hhs : Forall hunk_complete hs.

Ltac header marker path :=
  let Ht := fresh in let Hte := fresh in
  match goal with H : field_ok path |- _ =>
    destruct (trim_marker 42 (tail marker) path eq_refl H) as [Ht Hte] end;
  apply step_header; [exact Hm|exact Ht|exact Hte|];
  unfold handle_hunk_headers_and_end_patch;
  replace (environment_id_line _ _) with (@None rstr) by (by destruct m);
  rewrite decide_False by done;
  rewrite ensure_complete by done; rewrite ?strip_prefix_app; reflexivity.

Lemma step_add path :
  field_ok path →
  step_line (parser_at m hs env n) (ADD_FILE_MARKER ++ path)
  = Ok (parser_at ModeAddFile (hs ++ [AddFile path []]) env (S n)).
Proof using Hm Hhs. intros Hp. header ADD_FILE_MARKER path. Qed.

Lemma step_delete path :
  field_ok path →
  step_line (parser_at m hs env n) (DELETE_FILE_MARKER ++ path)
  = Ok (parser_at ModeDeleteFile (hs ++ [DeleteFile path]) env (S n)).
Proof using Hm Hhs. intros Hp. header DELETE_FILE_MARKER path. Qed.

Lemma step_update path :
  field_ok path →
  step_line (parser_at m hs env n) (UPDATE_FILE_MARKER ++ path)
  = Ok (parser_at (ModeUpdateFile (S n)) (hs ++ [UpdateFile path None []]) env (S n)).
Proof using Hm Hhs. intros Hp. header UPDATE_FILE_MARKER path. Qed.

End headers.

Lemma step_add_line hs path contents env n l :
  step_line (parser_at ModeAddFile (hs ++ [AddFile path contents]) env n) (PLUS :: l)
  = Ok (parser_at ModeAddFile (hs ++ [AddFile path (contents ++ l ++ [LF])]) env (S n)).
Proof.
  unfold step_line, take_line, process_line. simpl mode. cbv match.
  rewrite trim_cons_keep by done.
  replace (handle_hunk_headers_and_end_patch _ _) with (@Ok ParseError (option StreamingPatchParser) None)
    by reflexivity.
  simpl. rewrite last_snoc. unfold set_hunks. simpl. by rewrite update_last_snoc.
Qed.

(** *** Inside an update hunk *)

Lemma step_update_line hs path mv chunks env n k l mv' chunks' :
  handle_hunk_headers_and_end_patch
    (parser_at (ModeUpdateFile k) (hs ++ [UpdateFile path mv chunks]) env (S n)) (trim_end l)
    = Ok None →
  update_file_line (S n) l mv chunks = Ok (mv', chunks') →
  step_line (parser_at (ModeUpdateFile k) (hs ++ [UpdateFile path mv chunks]) env n) l
  = Ok (parser_at (ModeUpdateFile k) (hs ++ [UpdateFile path mv' chunks']) env (S n)).
Proof.
  intros Hh Hu. unfold step_line, take_line, process_line. simpl in *. rewrite Hh. simpl.
  rewrite last_snoc. rewrite Hu. simpl. unfold set_hunks. simpl. by rewrite update_last_snoc.
Qed.

Lemma no_header k hs env n ul :
  head ul ≠ Some 42%N →
  handle_hunk_headers_and_end_patch (parser_at (ModeUpdateFile k) hs env n) ul = Ok None.
Proof.
  intros Hul. unfold handle_hunk_headers_and_end_patch, environment_id_line. cbn [mode state].
  rewrite decide_False by (intros ->; done).
  assert (∀ mk, strip_prefix (42%N :: mk) ul = None) as Hnone.
  { intros mk. destruct ul as [|c ul]; [done|]. simpl in *. rewrite decide_False; congruence. }
  rewrite (Hnone (tail ADD_FILE_MARKER) : strip_prefix ADD_FILE_MARKER ul = None).
  rewrite (Hnone (tail DELETE_FILE_MARKER) : strip_prefix DELETE_FILE_MARKER ul = None).
  by rewrite (Hnone (tail UPDATE_FILE_MARKER) : strip_prefix UPDATE_FILE_MARKER ul = None).
Qed.

Lemma diff_line_trim_end d :
  ∃ t, trim_end (render_diff_line d) = t
    ∧ (head t = None ∨ head t = Some SPACE ∨ head t = Some PLUS ∨ head t = Some MINUS).
Proof.
  eexists. split; [done|].
  unfold trim_end. destruct d as [l|l|l]; simpl; destruct (trim_end_matches is_whitespace l);
    first [by left | by right; left | by right; right; left | by right; right; right].
Qed.

Lemma update_line_diff ln d mv cs c :
  is_end_of_file c = false →
  update_file_line ln (render_diff_line d) mv (cs ++ [c]) = Ok (mv, cs ++ [push_diff_line c d]).
Proof.
  intros Hc. unfold update_file_line. rewrite last_snoc. simpl is_some_and. rewrite Hc. simpl andb.
  assert (is_empty (cs ++ [c]) = false) as He by (by destruct cs). rewrite He. simpl andb.
  destruct (diff_line_trim_end d) as (t & -> & Ht).
  assert (∀ mk, head t ≠ Some mk → ∀ r, strip_prefix (mk :: r) t = None) as Hstrip.
  { intros mk Hmk r. destruct t; [done|]. simpl in *. rewrite decide_False; congruence. }
  assert (t ≠ EMPTY_CHANGE_CONTEXT_MARKER ∧ t ≠ EOF_MARKER) as [Hn1 Hn2].
  { split; intros ->; simpl in Ht; destruct Ht as [|[|[|]]]; done. }
  assert (strip_prefix CHANGE_CONTEXT_MARKER t = None) as Hs.
  { apply (Hstrip 64%N). destruct Ht as [Ht|[Ht|[Ht|Ht]]]; rewrite Ht; done. }
  unfold starts_with. rewrite bool_decide_eq_false_2 by done. rewrite Hs. simpl orb. simpl andb.
  rewrite !decide_False by done. unfold push_on_last. rewrite He.
  destruct d; simpl; by rewrite update_last_snoc.
Qed.

Lemma step_diff_line hs path mv cs c env n k d :
  is_end_of_file c = false →
  step_line (parser_at (ModeUpdateFile k) (hs ++ [UpdateFile path mv (cs ++ [c])]) env n)
    (render_diff_line d)
  = Ok (parser_at (ModeUpdateFile k) (hs ++ [UpdateFile path mv (cs ++ [push_diff_line c d])]) env (S n)).
Proof.
  intros Hc. apply step_update_line; [|by apply update_line_diff].
  apply no_header. destruct (diff_line_trim_end d) as (t & -> & [H|[H|[H|H]]]); by rewrite H.
Qed.

Lemma step_move hs path env n k m :
  field_ok m →
  step_line (parser_at (ModeUpdateFile k) (hs ++ [UpdateFile path None []]) env n) (MOVE_TO_MARKER ++ m)
  = Ok (parser_at (ModeUpdateFile k) (hs ++ [UpdateFile path (Some m) []]) env (S n)).
Proof.
  intros Hm. destruct (trim_marker 42 (tail MOVE_TO_MARKER) m eq_refl Hm) as [_ Hte].
  change (trim_end (MOVE_TO_MARKER ++ m) = MOVE_TO_MARKER ++ m) in Hte.
  apply step_update_line; [rewrite Hte; reflexivity|].
  unfold update_file_line. rewrite Hte. simpl last. simpl is_some_and. simpl andb.
  by rewrite strip_prefix_app.
Qed.

Definition marker_line (ctx : option rstr) : rstr :=
  match ctx with Some c => CHANGE_CONTEXT_MARKER ++ c | None => EMPTY_CHANGE_CONTEXT_MARKER end.

Lemma marker_trim ctx :
  (∀ c, ctx = Some c → field_ok c) → trim_end (marker_line ctx) = marker_line ctx.
Proof.
  destruct ctx as [c|]; intros H; [|reflexivity].
  by destruct (trim_marker 64 (tail CHANGE_CONTEXT_MARKER) c eq_refl (H c eq_refl)) as [_ Hte].
Qed.

Lemma step_marker hs path mv cs env n k ctx :
  (∀ c, ctx = Some c → field_ok c) → Forall chunk_nonempty cs →
  step_line (parser_at (ModeUpdateFile k) (hs ++ [UpdateFile path mv cs]) env n) (marker_line ctx)
  = Ok (parser_at (ModeUpdateFile k)
          (hs ++ [UpdateFile path mv (cs ++ [mkChunk ctx [] [] [] false])]) env (S n)).
Proof.
  intros Hctx Hcs. pose proof (marker_trim ctx Hctx) as Ht.
  apply step_update_line.
  { rewrite Ht. apply no_header. by destruct ctx. }
  unfold update_file_line. rewrite Ht.
  assert (is_some_and chunk_is_empty (last cs) = false) as Hlast.
  { destruct cs as [|c cs _] using rev_ind; [done|]. rewrite last_snoc. simpl.
    apply Forall_app in Hcs as [_ H]. inversion H; subst. by apply chunk_is_empty_spec. }
  rewrite Hlast, andb_false_r.
  assert (is_empty (marker_line ctx) = false) as -> by (by destruct ctx). rewrite andb_false_r.
  assert (bool_decide (marker_line ctx = EMPTY_CHANGE_CONTEXT_MARKER)
          || starts_with CHANGE_CONTEXT_MARKER (marker_line ctx) = true) as ->.
  { destruct ctx as [c|]; [|done]. unfold starts_with, marker_line.
    rewrite strip_prefix_app. apply orb_true_r. }
  rewrite andb_false_r.
  assert ((if is_empty cs && bool_decide (mv = None) then strip_prefix MOVE_TO_MARKER (marker_line ctx)
           else None) = None) as ->.
  { destruct (_ && _); [|done]. by destruct ctx. }
  destruct ctx as [c|]; [|by rewrite decide_True].
  rewrite decide_False by done. unfold marker_line. by rewrite strip_prefix_app.
Qed.

Lemma step_eof hs path mv cs c env n k :
  is_end_of_file c = false → chunk_nonempty c →
  step_line (parser_at (ModeUpdateFile k) (hs ++ [UpdateFile path mv (cs ++ [c])]) env n) EOF_MARKER
  = Ok (parser_at (ModeUpdateFile k) (hs ++ [UpdateFile path mv (cs ++ [set_end_of_file c])]) env (S n)).
Proof.
  intros Hc Hne. apply step_update_line; [reflexivity|].
  unfold update_file_line. change (trim_end EOF_MARKER) with EOF_MARKER.
  rewrite last_snoc. simpl is_some_and. rewrite Hc. simpl andb.
  assert (is_empty (cs ++ [c]) = false) as -> by (by destruct cs). simpl andb.
  rewrite (proj2 (chunk_is_empty_spec c) Hne).
  rewrite update_last_snoc. reflexivity.
Qed.

(** ** Whole files *)

Lemma push_diff_line_eof c d : is_end_of_file (push_diff_line c d) = is_end_of_file c.
Proof. by destruct d. Qed.

Lemma push_diff_line_wf c d : chunk_wf c → chunk_wf (push_diff_line c d).
Proof. destruct d; simpl; auto with codex. Qed.

Lemma push_diff_line_nonempty c d : chunk_nonempty (push_diff_line c d).
Proof. destruct d; simpl; auto with codex. Qed.

Lemma foldl_diff_lines c ds :
  (chunk_wf c → chunk_wf (foldl push_diff_line c ds))
  ∧ (ds ≠ [] → chunk_nonempty (foldl push_diff_line c ds))
  ∧ is_end_of_file (foldl push_diff_line c ds) = is_end_of_file c.
Proof.
  destruct ds as [|d ds _] using rev_ind; [done|].
  rewrite foldl_snoc, push_diff_line_eof. split_and!.
  - intros Hc. apply push_diff_line_wf. clear d.
    induction ds as [|d ds IH] using rev_ind; [done|].
    rewrite foldl_snoc. by apply push_diff_line_wf.
  - intros _. apply push_diff_line_nonempty.
  - clear d. induction ds as [|d ds IH] using rev_ind; [done|].
    by rewrite foldl_snoc, push_diff_line_eof.
Qed.

Lemma chunk_of_complete dc : dc_lines dc ≠ [] → chunk_wf (chunk_of dc) ∧ chunk_nonempty (chunk_of dc).
Proof.
  intros Hne. unfold chunk_of.
  destruct (foldl_diff_lines (mkChunk (dc_context dc) [] [] [] false) (dc_lines dc)) as (Hwf & Hn & _).
  specialize (Hwf (chunk_wf_new _ _)). specialize (Hn Hne). by destruct (dc_eof dc).
Qed.

Lemma hunk_of_complete f : file_ok f → hunk_complete (hunk_of f).
Proof.
  destruct f as [| |path mv chunks]; [done..|]. intros (_ & _ & Hne & Hall). simpl. split.
  { by destruct chunks. }
  apply Forall_fmap. eapply Forall_impl; [exact Hall|].
  intros dc (_ & Hl & _). by apply chunk_of_complete.
Qed.

Lemma steps_diff_lines hs path mv cs env k ds : ∀ c n,
  is_end_of_file c = false →
  ∃ n', step_lines (parser_at (ModeUpdateFile k) (hs ++ [UpdateFile path mv (cs ++ [c])]) env n)
          (render_diff_line <$> ds)
        = Ok (parser_at (ModeUpdateFile k)
                (hs ++ [UpdateFile path mv (cs ++ [foldl push_diff_line c ds])]) env n').
Proof.
  induction ds as [|d ds IH]; intros c n Hc; [by eexists|].
  cbn [fmap list_fmap step_lines]. rewrite step_diff_line by done.
  apply IH. by rewrite push_diff_line_eof.
Qed.

Lemma steps_chunk hs path mv cs env n k dc :
  chunk_ok dc → Forall chunk_nonempty cs →
  ∃ n', step_lines (parser_at (ModeUpdateFile k) (hs ++ [UpdateFile path mv cs]) env n) (render_chunk dc)
        = Ok (parser_at (ModeUpdateFile k)
                (hs ++ [UpdateFile path mv (cs ++ [chunk_of dc])]) env n').
Proof.
  intros (Hctx & Hne & _) Hcs. unfold render_chunk. fold (marker_line (dc_context dc)).
  cbn [app step_lines]. rewrite step_marker by done. cbn [mbind result_bind].
  rewrite step_lines_app.
  destruct (steps_diff_lines hs path mv cs env k (dc_lines dc)
    (mkChunk (dc_context dc) [] [] [] false) (S n) eq_refl) as (n1 & ->).
  cbn [mbind result_bind]. unfold chunk_of.
  destruct (foldl_diff_lines (mkChunk (dc_context dc) [] [] [] false) (dc_lines dc)) as (_ & Hn & He).
  destruct (dc_eof dc); [|by eexists]. cbn [step_lines].
  rewrite step_eof by auto. by eexists.
Qed.

Lemma steps_chunks hs path mv env k dcs : ∀ cs n,
  Forall chunk_ok dcs → Forall chunk_nonempty cs →
  ∃ n', step_lines (parser_at (ModeUpdateFile k) (hs ++ [UpdateFile path mv cs]) env n)
          (concat (render_chunk <$> dcs))
        = Ok (parser_at (ModeUpdateFile k)
                (hs ++ [UpdateFile path mv (cs ++ (chunk_of <$> dcs))]) env n').
Proof.
  induction dcs as [|dc dcs IH]; intros cs n Hok Hcs.
  { exists n. cbn. by rewrite app_nil_r. }
  inversion Hok as [|? ? Hdc Hdcs]; subst. cbn [fmap list_fmap concat].
  rewrite step_lines_app. destruct (steps_chunk hs path mv cs env n k dc Hdc Hcs) as (n1 & ->).
  cbn [mbind result_bind].
  destruct (IH (cs ++ [chunk_of dc]) n1 Hdcs) as (n2 & ->).
  { apply Forall_app. split; [done|]. constructor; [|constructor]. apply chunk_of_complete, Hdc. }
  exists n2. by rewrite <- app_assoc.
Qed.

Lemma steps_add_lines hs path env ls : ∀ contents n,
  ∃ n', step_lines (parser_at ModeAddFile (hs ++ [AddFile path contents]) env n) ((λ l, PLUS :: l) <$> ls)
        = Ok (parser_at ModeAddFile
                (hs ++ [AddFile path (contents ++ concat ((λ l, l ++ [LF]) <$> ls))]) env n').
Proof.
  induction ls as [|l ls IH]; intros contents n.
  { exists n. cbn. by rewrite app_nil_r. }
  cbn [fmap list_fmap step_lines concat]. rewrite step_add_line. cbn [mbind result_bind].
  destruct (IH (contents ++ l ++ [LF]) (S n)) as (n' & ->). exists n'. by rewrite <- app_assoc.
Qed.

Lemma steps_file m hs env n f :
  open_mode m → Forall hunk_complete hs → file_ok f →
  ∃ m' n', open_mode m' ∧
    step_lines (parser_at m hs env n) (render_file f) = Ok (parser_at m' (hs ++ [hunk_of f]) env n').
Proof.
  intros Hm Hhs. destruct f as [path ls|path|path mv chunks]; cbn [render_file]; intros Hok.
  - destruct Hok as [Hp _]. cbn [step_lines]. rewrite step_add by done. cbn [mbind result_bind].
    destruct (steps_add_lines hs path env ls [] (S n)) as (n' & ->). by exists ModeAddFile, n'.
  - cbn [step_lines]. rewrite step_delete by done. by exists ModeDeleteFile, (S n).
  - destruct Hok as (Hp & Hmv & _ & Hcs). cbn [step_lines]. rewrite step_update by done.
    cbn [mbind result_bind]. rewrite step_lines_app.
    assert (∃ n1, step_lines (parser_at (ModeUpdateFile (S n)) (hs ++ [UpdateFile path None []]) env (S n))
       match mv with Some m => [MOVE_TO_MARKER ++ m] | None => [] end
       = Ok (parser_at (ModeUpdateFile (S n)) (hs ++ [UpdateFile path mv []]) env n1)) as (n1 & ->).
    { destruct mv as [mv|]; [|by eexists]. cbn [step_lines].
      rewrite step_move by auto. by eexists. }
    cbn [mbind result_bind].
    destruct (steps_chunks hs path mv env (S n) chunks [] n1 Hcs) as (n' & ->); [constructor|].
    by exists (ModeUpdateFile (S n)), n'.
Qed.

Lemma steps_files env files : ∀ m hs n,
  open_mode m → Forall hunk_complete hs → Forall file_ok files →
  ∃ m' n', open_mode m' ∧
    step_lines (parser_at m hs env n) (concat (render_file <$> files))
    = Ok (parser_at m' (hs ++ (hunk_of <$> files)) env n').
Proof.
  induction files as [|f files IH]; intros m hs n Hm Hhs Hok.
  { exists m, n. cbn. by rewrite app_nil_r. }
  inversion Hok as [|? ? Hf Hfs]; subst. cbn [fmap list_fmap concat]. rewrite step_lines_app.
  destruct (steps_file m hs env n f Hm Hhs Hf) as (m1 & n1 & Hm1 & ->). cbn [mbind result_bind].
  destruct (IH m1 (hs ++ [hunk_of f]) n1 Hm1) as (m2 & n2 & Hm2 & ->); [|done|].
  { apply Forall_app. split; [done|]. constructor; [|constructor]. by apply hunk_of_complete. }
  exists m2, n2. by rewrite <- app_assoc.
Qed.

Lemma steps_body env files :
  (∀ e, env = Some e → env_ok e) → Forall file_ok files →
  ∃ m n, open_mode m ∧
    step_lines default_parser (render_body env files) = Ok (parser_at m (hunk_of <$> files) env n).
Proof.
  intros He Hf. unfold render_body, default_parser. cbn [step_lines]. rewrite step_begin.
  cbn [mbind result_bind]. rewrite step_lines_app.
  assert (∃ n1, step_lines (parser_at ModeStartedPatch [] None 1)
     match env with Some e => [ENVIRONMENT_ID_MARKER ++ SPACE :: e] | None => [] end
     = Ok (parser_at ModeStartedPatch [] env n1)) as (n1 & ->).
  { destruct env as [e|]; [|by eexists]. cbn [step_lines].
    rewrite step_environment by auto. by eexists. }
  cbn [mbind result_bind]. by apply (steps_files env files ModeStartedPatch [] n1).
Qed.

(** ** The text as a whole *)

Lemma render_body_lines_ok env files :
  (∀ e, env = Some e → env_ok e) → Forall file_ok files → Forall line_ok (render_body env files).
Proof.
  intros He Hf. unfold render_body. constructor; [by apply (bool_decide_unpack _)|].
  apply Forall_app. split.
  { destruct env as [e|]; [|constructor]. constructor; [|constructor].
    replace (ENVIRONMENT_ID_MARKER ++ SPACE :: e) with ((ENVIRONMENT_ID_MARKER ++ [SPACE]) ++ e)
      by (by rewrite <- app_assoc).
    apply field_line_ok; [by apply (bool_decide_unpack _)|apply (He e eq_refl)]. }
  apply Forall_concat, Forall_fmap. eapply Forall_impl; [exact Hf|]. clear Hf He.
  intros [path ls|path|path mv chunks]; cbn [file_ok compose render_file].
  - intros [Hp Hls]. constructor; [apply field_line_ok; [by apply (bool_decide_unpack _)|done]|].
    apply Forall_fmap. eapply Forall_impl; [exact Hls|]. intros l. by apply cons_line_ok.
  - intros Hp. constructor; [|constructor]. apply field_line_ok; [by apply (bool_decide_unpack _)|done].
  - intros (Hp & Hmv & _ & Hcs).
    constructor; [apply field_line_ok; [by apply (bool_decide_unpack _)|done]|].
    apply Forall_app. split.
    { destruct mv as [mv|]; [|constructor]. constructor; [|constructor].
      apply field_line_ok; [by apply (bool_decide_unpack _)|auto]. }
    apply Forall_concat, Forall_fmap. eapply Forall_impl; [exact Hcs|].
    intros [ctx ds eof] (Hctx & _ & Hds). cbn [compose] in *. unfold render_chunk.
    cbn [dc_context dc_lines dc_eof] in *. constructor.
    { destruct ctx as [c|]; [|by apply (bool_decide_unpack _)].
      apply field_line_ok; [by apply (bool_decide_unpack _)|auto]. }
    apply Forall_app. split.
    + apply Forall_fmap. eapply Forall_impl; [exact Hds|].
      intros [l|l|l]; by apply cons_line_ok.
    + destruct eof; [|constructor]. constructor; [by apply (bool_decide_unpack _)|constructor].
Qed.

Lemma join_lines ls l : join [LF] (ls ++ [l]) = concat ((λ x, x ++ [LF]) <$> ls) ++ l.
Proof.
  induction ls as [|x ls IH]; [done|]. cbn [app fmap list_fmap concat].
  assert (∃ y k, ls ++ [l] = y :: k) as (y & k & Hyk) by (destruct ls; simpl; eauto).
  rewrite Hyk, join_cons, <- Hyk, IH. by rewrite <- !app_assoc.
Qed.

Lemma trim_render_patch env files : trim (render_patch env files) = render_patch env files.
Proof.
  unfold render_patch. rewrite join_lines. unfold render_body. cbn [fmap list_fmap concat app].
  rewrite <- !app_assoc.
  match goal with |- trim (_ ++ ?r) = _ =>
    change (BEGIN_PATCH_MARKER ++ r) with (42%N :: (tail BEGIN_PATCH_MARKER ++ r)) end.
  apply trim_id; [done|]. rewrite app_comm_cons, !app_assoc.
  by rewrite last_app_nonempty.
Qed.

Lemma render_boundaries env files :
  check_patch_boundaries_lenient (render_body env files ++ [END_PATCH_MARKER])
  = Ok (render_body env files ++ [END_PATCH_MARKER]).
Proof.
  unfold check_patch_boundaries_lenient, check_patch_boundaries_strict. rewrite last_snoc. reflexivity.
Qed.

Lemma end_marker_no_lf : LF ∉ END_PATCH_MARKER.
Proof. by apply (bool_decide_unpack _). Qed.

Lemma parse_render env files :
  (∀ e, env = Some e → env_ok e) → Forall file_ok files →
  parse_patch (render_patch env files)
  = Ok (mkArgs (render_patch env files) (hunk_of <$> files) None env).
Proof.
  intros He Hf. unfold parse_patch, parse_patch_text. cbn [PARSE_IN_STRICT_MODE].
  rewrite trim_render_patch. unfold render_patch.
  rewrite (lines_join _ END_PATCH_MARKER (render_body_lines_ok env files He Hf) end_marker_no_lf)
    by done.
  rewrite render_boundaries. cbn [mbind result_bind].
  destruct (steps_body env files He Hf) as (m & n & Hm & Hs).
  unfold push_delta. rewrite join_lines at 1.
  destruct (push_chars_lines default_parser (render_body env files) END_PATCH_MARKER _ eq_refl
    (render_body_lines_ok env files He Hf) Hs) as [-> _].
  rewrite push_chars_no_lf by apply end_marker_no_lf.
  cbn [line_buffer app state line_number]. unfold finish. cbn [line_buffer is_empty].
  change (is_empty END_PATCH_MARKER) with false. cbv match.
  rewrite decide_True by done. unfold take_line. cbn [state line_number].
  rewrite ensure_complete; [reflexivity|].
  apply Forall_fmap. eapply Forall_impl; [exact Hf|]. intros f. apply hunk_of_complete.
Qed.
