(* ===== verification/PatchReparse.v ===== *)
(** * Reading a patch twice

    A verified action carries the text of its patch, and applying the action
    parses that text again.  The text is the trimmed patch, or the body of
    the here-document around it; without carriage returns, parsing it again
    gives the same hunks. *)

From S2P Require Import Prelude RustStr PatchParser PatchParserFacts PatchRoundTrip.

(** ** Trimming around white space *)

Abbreviation blank := (Forall (λ c, is_whitespace c = true)).

Lemma trim_start_prefix s : ∃ k, s = k ++ trim_start s ∧ blank k.
Proof.
  induction s as [|c s (k & E & Hk)]; [by exists []|]. unfold trim_start in *. simpl.
  destruct (is_whitespace c) eqn:Hc; [exists (c :: k)|by exists []].
  split; [by rewrite E at 1|by constructor].
Qed.

Lemma trim_start_blank k s : blank k → trim_start (k ++ s) = trim_start s.
Proof. unfold trim_start. induction 1 as [|c k Hc _ IH]; simpl; [done|by rewrite Hc]. Qed.

Lemma trim_end_blank s k : blank k → trim_end (s ++ k) = trim_end s.
Proof.
  intros Hk. unfold trim_end. induction s as [|c s IH]; simpl; [|by rewrite IH].
  induction Hk as [|c k Hc _ IH]; simpl; [done|by rewrite IH, Hc].
Qed.

Lemma trim_blank k s k' : blank k → blank k' → trim (k ++ s ++ k') = trim s.
Proof.
  intros Hk Hk'. unfold trim. rewrite app_assoc, trim_end_blank by done. clear Hk'.
  destruct (trim_start_prefix s) as (j & Hs & Hj).
  induction Hk as [|c k Hc Hk IH]; [done|]. cbn [app]. rewrite <- IH. unfold trim_end, trim_start. simpl.
  destruct (trim_end_matches is_whitespace (k ++ s)) eqn:E; simpl; by rewrite Hc.
Qed.

Lemma trim_decompose s t : trim s = t → ∃ k k', s = k ++ t ++ k' ∧ blank k ∧ blank k'.
Proof.
  intros <-. destruct (trim_end_matches_prefix is_whitespace s) as (k' & Hs & Hk').
  destruct (trim_start_prefix (trim_end s)) as (k & Ht & Hk). exists k, k'. split; [|done].
  unfold trim. by rewrite app_assoc, <- Ht.
Qed.

(** ** The lines of a text without carriage returns *)

Definition clean (l : rstr) : Prop := (LF ∉ l) ∧ (CR ∉ l).

Lemma clean_app a b : clean (a ++ b) ↔ clean a ∧ clean b.
Proof. unfold clean. rewrite !elem_of_app. tauto. Qed.

Lemma clean_line_ok l : clean l → line_ok l.
Proof.
  intros [H1 H2]. split; [done|]. destruct (last l) as [c|] eqn:E; [|done]. unfold is_some_and.
  apply N.eqb_neq. intros <-. apply H2. apply last_Some in E as [k ->]. apply elem_of_app. right. left.
Qed.

Lemma split_inclusive_clean s : CR ∉ s →
  Forall (λ l, ∃ b, clean b ∧ (l = b ∨ l = b ++ [LF])) (split_inclusive LF s).
Proof.
  unfold clean. induction s as [|c s IH]; intros Hs; simpl; [constructor|].
  apply not_elem_of_cons in Hs as [Hc Hs]. specialize (IH Hs). case_decide as Ec.
  - subst. constructor; [|done]. exists []. split; [|by right]. split; apply not_elem_of_nil.
  - destruct IH as [|l ls (b & [Hb1 Hb2] & Hl) IH]; (constructor; [|done || constructor]).
    + exists [c]. rewrite !list_elem_of_singleton. split; [split; congruence|by left].
    + exists (c :: b). rewrite !not_elem_of_cons. split; [done|]. destruct Hl as [-> | ->]; auto.
Qed.

Lemma lines_clean s : CR ∉ s → Forall clean (lines s).
Proof.
  intros Hs. unfold lines. apply Forall_fmap. eapply Forall_impl; [by apply split_inclusive_clean|].
  intros l (b & Hb & [-> | ->]); unfold compose.
  - rewrite strip_line_ending_id by apply Hb. done.
  - rewrite strip_line_ending_LF by apply clean_line_ok, Hb. done.
Qed.

(** ** Parsing lines *)

(** [parse_patch_text] after the boundaries are checked. *)
Definition parse_joined (ls : list rstr) : result ParseError (list Hunk * option rstr) :=
  let '(p1, r1) := push_delta default_parser (join [LF] ls) in
  _ ← r1;
  let '(p2, r2) := finish p1 in
  hs ← r2;
  Ok (hs, environment_id (state p2)).

Lemma push_lines_buffer ls : ∀ p p', Forall (λ l, LF ∉ l) ls → line_buffer p = [] →
  push_chars p (concat ((λ x, x ++ [LF]) <$> ls)) = (p', Ok tt) → line_buffer p' = [].
Proof.
  induction ls as [|l ls IH]; intros p p' Hls Hp; simpl; [by intros [= <-]|].
  inversion Hls; subst. rewrite <- app_assoc, push_chars_app, push_chars_no_lf by done. simpl.
  destruct (process_line _ _) as [q|e] eqn:Hq; [|done]. apply process_line_buffer in Hq. by apply IH.
Qed.

Lemma begin_step f p : clean f → trim f = BEGIN_PATCH_MARKER → mode (state p) = ModeNotStarted → line_buffer p = [] →
  ∀ rest, push_chars p (f ++ LF :: rest) = push_chars (set_mode ModeStartedPatch (take_line p)) rest.
Proof.
  intros Hf Ht Hm Hb rest. rewrite push_chars_app, push_chars_no_lf by apply Hf. rewrite Hb. cbn [app]. simpl.
  rewrite drop_trailing_cr_id by apply clean_line_ok, Hf.
  unfold process_line at 1. unfold take_line at 1. cbn [state]. rewrite Hm, Ht, decide_True by done. done.
Qed.

(** What a last line reading "*** End Patch" makes of the parser. *)
Lemma finish_end p l : trim l = END_PATCH_MARKER →
  finish (mkParser l (state p) (line_number p))
  = finish (mkParser END_PATCH_MARKER (state p) (line_number p)).
Proof.
  intros Ht. unfold finish. cbn [line_buffer].
  assert (is_empty l = false) as -> by (destruct l; [by vm_compute in Ht|done]).
  assert (is_empty END_PATCH_MARKER = false) as -> by done.
  assert (trim END_PATCH_MARKER = END_PATCH_MARKER) as -> by done.
  rewrite Ht, !decide_True by done. done.
Qed.

Lemma parse_joined_ends f ls l : clean f → Forall clean ls → clean l →
  trim f = BEGIN_PATCH_MARKER → trim l = END_PATCH_MARKER →
  parse_joined (f :: ls ++ [l]) = parse_joined (BEGIN_PATCH_MARKER :: ls ++ [END_PATCH_MARKER]).
Proof.
  assert (∀ f l, clean f → clean l → Forall clean ls → trim f = BEGIN_PATCH_MARKER → trim l = END_PATCH_MARKER →
    parse_joined (f :: ls ++ [l]) =
      let '(p, r) := push_chars (set_mode ModeStartedPatch (take_line default_parser)) (concat ((λ x, x ++ [LF]) <$> ls)) in
      _ ← r; let '(p2, r2) := finish (mkParser END_PATCH_MARKER (state p) (line_number p)) in
      hs ← r2; Ok (hs, environment_id (state p2))) as common.
  { intros f' l' Hf Hl Hls Htf Htl. unfold parse_joined, push_delta.
    rewrite app_comm_cons, join_lines. cbn [fmap list_fmap concat]. rewrite <- !app_assoc. cbn [app].
    rewrite begin_step by done. rewrite push_chars_app.
    destruct (push_chars _ (concat _)) as [p [[]|e]] eqn:E; [|done].
    apply push_lines_buffer in E; [|by eapply Forall_impl; [exact Hls|intros ? []]|done].
    rewrite push_chars_no_lf by apply Hl. rewrite E. cbn [app]. rewrite finish_end by done.
    cbn [fmap result_fmap mbind result_bind]. done. }
  intros. rewrite !common; try done; apply (bool_decide_unpack _); by vm_compute.
Qed.

(** ** Boundaries *)

Lemma strict_boundaries ls ls' : check_patch_boundaries_strict ls = Ok ls' →
  ls' = ls ∧ ∃ f mid l, ls = f :: mid ++ [l] ∧ trim f = BEGIN_PATCH_MARKER ∧ trim l = END_PATCH_MARKER.
Proof.
  unfold check_patch_boundaries_strict, check_start_and_end_lines_strict.
  destruct ls as [|f ls]; [done|]. destruct (last (f :: ls)) as [l|] eqn:El; [|apply last_None in El; done].
  cbn [head fmap option_fmap option_map]. case_decide as E; [|by case_decide]. destruct E as [Ef Et].
  intros [= <-]. split; [done|]. apply last_Some in El as [[|x mid] E].
  - injection E as -> ->. rewrite Ef in Et. done.
  - injection E as -> ->. eauto 6.
Qed.

Lemma lenient_boundaries ls ls' : check_patch_boundaries_lenient ls = Ok ls' →
  ∃ f mid l, ls' = f :: mid ++ [l] ∧ trim f = BEGIN_PATCH_MARKER ∧ trim l = END_PATCH_MARKER ∧
    ∀ x, x ∈ ls' → x ∈ ls.
Proof.
  unfold check_patch_boundaries_lenient. destruct (check_patch_boundaries_strict ls) as [ls0|e] eqn:E.
  - intros [= <-]. destruct (strict_boundaries _ _ E) as (-> & f & mid & l & Hls & ? & ?).
    exists f, mid, l. auto.
  - destruct (head ls); [|done]. destruct (last ls); [|done]. destruct (_ && _); [|done]. clear E.
    intros (-> & f & mid & l' & Hls & ? & ?)%strict_boundaries. exists f, mid, l'. repeat split; try done.
    intros x Hx. apply list_elem_of_In in Hx. apply list_elem_of_In.
    assert (In x (drop 1 ls)) as Hd by (rewrite <- (take_drop (length ls - 2) (drop 1 ls)); apply in_or_app; by left). 
    destruct ls; [done|]. by right.
Qed.

Lemma trim_joined k m mid m' k' :
  blank k → blank k' → is_some_and is_whitespace (head m) = false → m ≠ [] → is_some_and is_whitespace (last m') = false → m' ≠ [] →
  trim (k ++ (m ++ mid ++ m') ++ k') = m ++ mid ++ m'.
Proof.
  intros Hk Hk' Hm Hne Hm' Hne'. rewrite trim_blank by done. destruct m as [|c m]; [done|].
  apply trim_id; [done|]. rewrite app_comm_cons, !last_app_nonempty; [done|done|].
  destruct mid; [done|]. done.
Qed.

Lemma parse_patch_joined patch : parse_patch patch =
  (ls ← check_patch_boundaries_lenient (lines (trim patch));
   '(hs, environment_id) ← parse_joined ls;
   Ok (mkArgs (join [LF] ls) hs None environment_id)).
Proof.
  unfold parse_patch, parse_patch_text, parse_joined. cbn [PARSE_IN_STRICT_MODE].
  destruct (check_patch_boundaries_lenient _) as [ls|e]; [|done]. cbn [mbind result_bind].
  destruct (push_delta _ _) as [p1 [hs1|e]]; [|done]. cbn [mbind result_bind].
  by destruct (finish p1) as [p2 [hs|e]].
Qed.

Lemma reparse_lines f mid l : Forall clean (f :: mid ++ [l]) →
  trim f = BEGIN_PATCH_MARKER → trim l = END_PATCH_MARKER →
  ∃ f' l', lines (trim (join [LF] (f :: mid ++ [l]))) = f' :: mid ++ [l'] ∧ clean f' ∧ clean l' ∧
    trim f' = BEGIN_PATCH_MARKER ∧ trim l' = END_PATCH_MARKER.
Proof.
  intros Hall Hf Hl. apply Forall_cons in Hall as [Cf [Cmid [Cl _]%Forall_cons]%Forall_app].
  destruct (trim_decompose _ _ Hf) as (k1 & k2 & -> & B1 & B2).
  destruct (trim_decompose _ _ Hl) as (k3 & k4 & -> & B3 & B4).
  exists (BEGIN_PATCH_MARKER ++ k2), (k3 ++ END_PATCH_MARKER).
  pose proof Cf as [_ [Cf1 Cf2]%clean_app]%clean_app. pose proof Cl as [Cl1 [Cl2 _]%clean_app]%clean_app.
  assert (clean (BEGIN_PATCH_MARKER ++ k2)) as C1 by (by apply clean_app).
  assert (clean (k3 ++ END_PATCH_MARKER)) as C2 by (by apply clean_app).
  split; [|repeat split; try apply C1; try apply C2; [apply (trim_blank [] BEGIN_PATCH_MARKER k2); [constructor|done]|
    rewrite <- (app_nil_r (k3 ++ END_PATCH_MARKER)), <- app_assoc; apply trim_blank; [done|constructor]]].
  assert (trim (join [LF] ((k1 ++ BEGIN_PATCH_MARKER ++ k2) :: mid ++ [k3 ++ END_PATCH_MARKER ++ k4]))
    = join [LF] ((BEGIN_PATCH_MARKER ++ k2) :: mid ++ [k3 ++ END_PATCH_MARKER])) as ->.
  { rewrite !app_comm_cons, !join_lines. cbn [fmap list_fmap concat].
    set (M := concat _).
    transitivity (trim (k1 ++ (BEGIN_PATCH_MARKER ++ (k2 ++ LF :: M ++ k3) ++ END_PATCH_MARKER) ++ k4)).
    { f_equal. rewrite <- !app_assoc. cbn [app]. by rewrite <- !app_assoc. }
    rewrite trim_joined; [|done..]. rewrite <- !app_assoc. cbn [app]. by rewrite <- !app_assoc. }
  rewrite app_comm_cons. apply lines_join.
  - constructor; [by apply clean_line_ok|]. eapply Forall_impl; [exact Cmid|]. apply clean_line_ok.
  - apply C2.
  - by destruct k3.
Qed.

Lemma reparse patch args : CR ∉ patch → parse_patch patch = Ok args →
  ∃ args', parse_patch (args_patch args) = Ok args' ∧ args_hunks args' = args_hunks args ∧
    args_environment_id args' = args_environment_id args.
Proof.
  intros Hcr. rewrite parse_patch_joined. intros (ls & Hls & ([hs env] & Hp & H)%bind_Ok)%bind_Ok.
  injection H as <-. destruct (lenient_boundaries _ _ Hls) as (f & mid & l & -> & Hf & Hl & Hsub).
  assert (Forall clean (f :: mid ++ [l])) as Hall.
  { apply Forall_forall. intros x Hx. apply Hsub in Hx. revert x Hx. apply Forall_forall, lines_clean.
    intros Hin. apply Hcr. destruct (trim_decompose patch _ eq_refl) as (k & k' & -> & _). rewrite !elem_of_app. auto. }
  destruct (reparse_lines f mid l Hall Hf Hl) as (f' & l' & Hlines & Cf & Cl & Hf' & Hl').
  apply Forall_cons in Hall as [Cf0 [Cmid [Cl0 _]%Forall_cons]%Forall_app].
  cbn [args_patch]. rewrite parse_patch_joined, Hlines.
  assert (check_patch_boundaries_lenient (f' :: mid ++ [l']) = Ok (f' :: mid ++ [l'])) as ->.
  { unfold check_patch_boundaries_lenient, check_patch_boundaries_strict.
    rewrite app_comm_cons, last_snoc. cbn [app head fmap option_fmap option_map].
    unfold check_start_and_end_lines_strict. cbn [fmap option_fmap option_map]. by rewrite Hf', Hl', decide_True. }
  cbn [mbind result_bind]. rewrite parse_joined_ends in Hp by done. rewrite parse_joined_ends by done. rewrite Hp.
  eexists. split; [reflexivity|done].
Qed.

(** With carriage returns the two readings can differ: each takes one off the
    end of a line. *)
Definition crs_patch : rstr :=
  join [LF] [BEGIN_PATCH_MARKER; $"*** Add File: a"; $"+foo" ++ [CR; CR; CR]; END_PATCH_MARKER].

Example carriage_returns_are_lost :
  ∃ args args', parse_patch crs_patch = Ok args ∧ args_hunks args = [AddFile ($"a") ($"foo" ++ [CR; LF])] ∧
    parse_patch (args_patch args) = Ok args' ∧ args_hunks args' = [AddFile ($"a") ($"foo" ++ [LF])].
Proof. do 2 eexists. split; [vm_compute; reflexivity|]. split; [reflexivity|]. split; vm_compute; reflexivity. Qed.
