(* ===== verification/FileUpdate.v ===== *)
(** * Source files with their line endings

    Model of [apply-patch/src/text_file.rs]: a file as logical lines that
    remember how they ended, and the forward pass that applies a list of
    replacements.  [None] stands for a panic (the [usize] subtraction
    [*start_idx - source_index] guarded by the [debug_assert!]). *)
From S2P Require Import Prelude RustStr SeekSequence PatchParser.


(** [(start_index, old_len, new_lines)]. *)
Abbreviation Replacement := (nat * nat * list rstr)%type (only parsing).

Inductive LineEnding := Lf | CrLf | Cr.

Definition ending_str (e : LineEnding) : rstr :=
  match e with Lf => [LF] | CrLf => [CR; LF] | Cr => [CR] end.

Record SourceLine := mkLine { text : rstr; ending : option LineEnding }.
Record SourceFile := mkFile { sf_lines : list SourceLine; preferred_ending : LineEnding }.

(** [Option::get_or_insert]. *)
Definition get_or_insert {A} (o : option A) (a : A) : option A :=
  match o with Some _ => o | None => Some a end.

(** The loop of [parse]: [s] is what is left of the contents, [cur] is
    [contents[line_start..cursor]]. *)
Fixpoint parse_loop (s cur : rstr) (ls : list SourceLine) (pref : option LineEnding) : SourceFile :=
  match s with
  | [] => mkFile (if is_empty cur then ls else ls ++ [mkLine cur None]) (default Lf pref)
  | c :: s' =>
      if decide (c = CR) then
        match s' with
        | d :: s'' =>
            if decide (d = LF)
            then parse_loop s'' [] (ls ++ [mkLine cur (Some CrLf)]) (get_or_insert pref CrLf)
            else parse_loop s' [] (ls ++ [mkLine cur (Some Cr)]) (get_or_insert pref Cr)
        | [] => parse_loop s' [] (ls ++ [mkLine cur (Some Cr)]) (get_or_insert pref Cr)
        end
      else if decide (c = LF)
      then parse_loop s' [] (ls ++ [mkLine cur (Some Lf)]) (get_or_insert pref Lf)
      else parse_loop s' (cur ++ [c]) ls pref
  end.

Definition parse (contents : rstr) : SourceFile := parse_loop contents [] [] None.

Definition line_texts (f : SourceFile) : list rstr := text <$> sf_lines f.

Definition new_line (pref : LineEnding) (t : rstr) : SourceLine := mkLine t (Some pref).

(** The loop of [apply_replacements] over the remaining [source] lines. *)
Fixpoint replace_loop (pref : LineEnding) (source : list SourceLine) (source_index : nat)
    (new : list SourceLine) (reps : list Replacement) : option (list SourceLine) :=
  match reps with
  | [] => Some (new ++ source)
  | (start_idx, old_len, new_segment) :: reps' =>
      if start_idx <? source_index then None
      else
        let k := start_idx - source_index in
        replace_loop pref (drop old_len (drop k source)) (start_idx + old_len)
          (new ++ take k source ++ (new_line pref <$> new_segment)) reps'
  end.

Definition fill_ending (pref : LineEnding) (l : SourceLine) : SourceLine :=
  mkLine (text l) (get_or_insert (ending l) pref).

Definition sf_apply_replacements (f : SourceFile) (reps : list Replacement) : option SourceFile :=
  ls ← replace_loop (preferred_ending f) (sf_lines f) 0 [] reps;
  Some (mkFile (fill_ending (preferred_ending f) <$> ls) (preferred_ending f)).

Definition line_contents (l : SourceLine) : rstr :=
  text l ++ match ending l with Some e => ending_str e | None => [] end.

Definition into_contents (f : SourceFile) : rstr := concat (line_contents <$> sf_lines f).

(** ** The reference: splicing replacements into a list *)

Section splice.
Context {A : Type}.

(** Replace, in a list whose first element has index [off], the block of
    [n] elements at [s] by [seg], for each [(s, n, seg)] in order. *)
Fixpoint splice (off : nat) (l : list A) (reps : list (nat * nat * list A)) : list A :=
  match reps with
  | [] => l
  | (s, n, seg) :: reps' =>
      take (s - off) l ++ seg ++ splice (s + n) (drop (s + n - off) l) reps'
  end.

(** Replacements in order, disjoint and inside [off..len]. *)
Fixpoint chain (off len : nat) (reps : list (nat * nat * list A)) : Prop :=
  match reps with
  | [] => off ≤ len
  | (s, n, _) :: reps' => off ≤ s ∧ chain (s + n) len reps'
  end.

Lemma chain_bound off len reps : chain off len reps → off ≤ len.
Proof.
  revert off. induction reps as [|[[s n] seg] reps IH]; intros off; simpl; [done|].
  intros [? ?%IH]. lia.
Qed.

Lemma chain_weaken off off' len reps : off' ≤ off → chain off len reps → chain off' len reps.
Proof. destruct reps as [|[[s n] seg] reps]; simpl; [lia|]. intros ? [? ?]. split; [lia|done]. Qed.

End splice.

(** ** Reading and writing back *)

Lemma parse_loop_contents s : ∀ cur ls pref,
  into_contents (parse_loop s cur ls pref) = concat (line_contents <$> ls) ++ cur ++ s.
Proof.
  unfold into_contents.
  remember (length s) as n eqn:Hn. revert s Hn.
  induction (lt_wf n) as [n _ IH]. intros s -> cur ls pref.
  assert (∀ s' cur' ls' pref', length s' < length s →
    concat (line_contents <$> sf_lines (parse_loop s' cur' ls' pref'))
    = concat (line_contents <$> ls') ++ cur' ++ s') as IH'.
  { intros s' cur' ls' pref' Hlt. by apply (IH (length s')). } clear IH.
  destruct s as [|c s]; simpl.
  { destruct cur; simpl; [by rewrite !app_nil_r|].
    rewrite fmap_app, concat_app. simpl. unfold line_contents at 2. simpl. by rewrite !app_nil_r. }
  repeat case_decide; [destruct s as [|d s]; [|case_decide]|..]; rewrite IH' by (simpl; lia);
    rewrite ?fmap_app, ?concat_app; simpl; unfold line_contents at 2; simpl;
    subst; rewrite <- ?app_assoc; done.
Qed.

Lemma parse_into_contents contents : into_contents (parse contents) = contents.
Proof. unfold parse. by rewrite parse_loop_contents. Qed.

(** Every line text of a parsed file is free of line terminators, and only
    the last line can lack an ending. *)
Definition source_line_ok (l : SourceLine) : Prop := (LF ∉ text l) ∧ (CR ∉ text l).

Lemma parse_loop_lines_ok s : ∀ cur ls pref,
  source_line_ok (mkLine cur None) → Forall source_line_ok ls →
  Forall source_line_ok (sf_lines (parse_loop s cur ls pref)).
Proof.
  remember (length s) as n eqn:Hn. revert s Hn.
  induction (lt_wf n) as [n _ IH]. intros s -> cur ls pref Hcur Hls.
  assert (∀ e, Forall source_line_ok (ls ++ [mkLine cur e])) as Hsnoc.
  { intros e. apply Forall_app. split; [done|]. by constructor. }
  assert (source_line_ok (mkLine [] None)) as Hnil by (split; apply not_elem_of_nil).
  destruct s as [|c s]; simpl.
  { by destruct (is_empty cur). }
  repeat case_decide; [destruct s as [|d s]; [|case_decide]|..];
    (eapply IH; [|reflexivity| |]; [simpl; lia|..]); try done.
  destruct Hcur as [H1 H2]. split; simpl in *; rewrite elem_of_app, list_elem_of_singleton; intuition congruence.
Qed.

Lemma parse_lines_ok contents : Forall source_line_ok (sf_lines (parse contents)).
Proof. apply parse_loop_lines_ok; [split; apply not_elem_of_nil|constructor]. Qed.

(** ** The forward pass is splicing *)

Definition map_segments {A B} (g : A → B) (reps : list (nat * nat * list A)) : list (nat * nat * list B) :=
  map (λ r, (r.1, map g r.2)) reps.

Lemma splice_fmap {A B} (g : A → B) reps : ∀ off l,
  g <$> splice off l reps = splice off (g <$> l) (map_segments g reps).
Proof.
  induction reps as [|[[s n] seg] reps IH]; intros off l; [done|]. simpl.
  by rewrite !fmap_app, fmap_take, IH, fmap_drop.
Qed.

Lemma chain_map_segments {A B} (g : A → B) reps : ∀ off len,
  chain off len reps ↔ chain off len (map_segments g reps).
Proof.
  induction reps as [|[[s n] seg] reps IH]; intros off len; [done|]. simpl. by rewrite IH.
Qed.

Lemma replace_loop_splice pref reps : ∀ source idx new len,
  chain idx len reps →
  replace_loop pref source idx new reps
  = Some (new ++ splice idx source (map_segments (new_line pref) reps)).
Proof.
  induction reps as [|[[s n] seg] reps IH]; intros source idx new len; simpl; [done|].
  intros [Hs Hc]. destruct (Nat.ltb_spec s idx); [lia|].
  rewrite (IH _ _ _ len Hc). rewrite drop_drop.
  replace (s - idx + n) with (s + n - idx) by lia. by rewrite <- !app_assoc.
Qed.

Lemma sf_apply_replacements_splice f reps len :
  chain 0 len reps →
  sf_apply_replacements f reps
  = Some (mkFile (fill_ending (preferred_ending f) <$>
             splice 0 (sf_lines f) (map_segments (new_line (preferred_ending f)) reps))
             (preferred_ending f)).
Proof.
  intros Hc. unfold sf_apply_replacements. by rewrite (replace_loop_splice _ _ _ _ _ len Hc).
Qed.

Lemma map_segments_comp {A B C} (g : A → B) (h : B → C) reps :
  map_segments h (map_segments g reps) = map_segments (h ∘ g) reps.
Proof.
  unfold map_segments. rewrite map_map. apply map_ext. intros [sn seg]. simpl. by rewrite map_map.
Qed.

Lemma map_segments_id {A} (reps : list (nat * nat * list A)) : map_segments id reps = reps.
Proof.
  unfold map_segments. rewrite <- (map_id reps) at 2. apply map_ext.
  intros [sn seg]. simpl. by rewrite map_id.
Qed.

(** The texts of the result are the splice of the texts. *)
Lemma line_texts_splice f reps f' len :
  chain 0 len reps → sf_apply_replacements f reps = Some f' →
  line_texts f' = splice 0 (line_texts f) reps.
Proof.
  intros Hc. rewrite (sf_apply_replacements_splice f reps len Hc). intros [= <-].
  unfold line_texts. simpl. rewrite <- list_fmap_compose.
  change (text ∘ fill_ending (preferred_ending f)) with text.
  rewrite splice_fmap, map_segments_comp.
  change (text ∘ new_line (preferred_ending f)) with (@id rstr). by rewrite map_segments_id.
Qed.

(** * Computing and applying the replacements of an update hunk

    Model of [apply-patch/src/file_update.rs]: the chunks of an update hunk
    are located in the file one after the other, turned into replacements,
    sorted by position and applied, either on plain lines (newline
    normalisation) or on lines that keep their endings.

    Slicing out of range and [usize] underflow panic in Rust and are [Panic]
    here; the errors of the source are [Failed]. *)
Definition msg_context_not_found (ctx_line path : rstr) : rstr :=
  $"Failed to find context '" ++ ctx_line ++ $"' in " ++ path.
Definition msg_lines_not_found (path : rstr) (old : list rstr) : rstr :=
  $"Failed to find expected lines in " ++ path ++ $":" ++ [LF] ++ join [LF] old.

(** [original_lines.last().is_some_and(String::is_empty)]. *)
Definition last_is_empty (ls : list rstr) : bool := is_some_and is_empty (last ls).

Definition insertion_index (original_lines : list rstr) (m : ApplyPatchFileUpdateMode) : nat :=
  match m with
  | NormalizeToLf =>
      if last_is_empty original_lines then length original_lines - 1 else length original_lines
  | PreserveLineEndings => length original_lines
  end.

(** The loop over [context_line_indices]: context lines stay in place, what
    is between them is replaced. *)
Fixpoint context_loop (start_idx plen : nat) (new_slice : list rstr) (ctx : list (nat * nat))
    (old_start new_start : nat) (acc : list Replacement) : option (nat * nat * list Replacement) :=
  match ctx with
  | [] => Some (old_start, new_start, acc)
  | (old_context, new_context) :: ctx' =>
      if (plen <=? old_context) || (length new_slice <=? new_context)
      then Some (old_start, new_start, acc)
      else
        acc' ← (if negb (old_start =? old_context) || negb (new_start =? new_context) then
                  n ← checked_sub old_context old_start;
                  seg ← slice new_slice new_start new_context;
                  Some (acc ++ [(start_idx + old_start, n, seg)])
                else Some acc);
        context_loop start_idx plen new_slice ctx' (S old_context) (S new_context) acc'
  end.

Definition context_replacements (start_idx : nat) (pattern new_slice : list rstr)
    (ctx : list (nat * nat)) : option (list Replacement) :=
  '(old_start, new_start, acc) ← context_loop start_idx (length pattern) new_slice ctx 0 0 [];
  if negb (old_start =? length pattern) || negb (new_start =? length new_slice) then
    n ← checked_sub (length pattern) old_start;
    seg ← slice new_slice new_start (length new_slice);
    Some (acc ++ [(start_idx + old_start, n, seg)])
  else Some acc.

(** The replacements of one located chunk. *)
Definition located_replacements (m : ApplyPatchFileUpdateMode) (start_idx : nat)
    (pattern new_slice : list rstr) (ctx : list (nat * nat)) : option (list Replacement) :=
  match m with
  | NormalizeToLf => Some [(start_idx, length pattern, new_slice)]
  | PreserveLineEndings => context_replacements start_idx pattern new_slice ctx
  end.

(** [&v[..v.len() - 1]]. *)
Definition drop_last {A} (v : list A) : list A := take (length v - 1) v.

(** Locate [old_lines]; if that fails and the pattern ends with an empty
    line, retry without it.  Gives the position, the pattern and the new
    lines actually used. *)
Definition locate_chunk (original_lines : list rstr) (chunk : UpdateFileChunk) (line_index : nat)
    (m : ApplyPatchFileUpdateMode) : option (option nat * list rstr * list rstr) :=
  found ← seek_sequence original_lines (old_lines chunk) line_index (is_end_of_file chunk) m;
  if bool_decide (found = None) && last_is_empty (old_lines chunk) then
    let pattern := drop_last (old_lines chunk) in
    let new_slice := if last_is_empty (new_lines chunk) then drop_last (new_lines chunk)
                     else new_lines chunk in
    found' ← seek_sequence original_lines pattern line_index (is_end_of_file chunk) m;
    Some (found', pattern, new_slice)
  else Some (found, old_lines chunk, new_lines chunk).

(** The position after the optional [change_context] line. *)
Definition context_position (original_lines : list rstr) (path : rstr) (chunk : UpdateFileChunk)
    (line_index : nat) (m : ApplyPatchFileUpdateMode) : outcome rstr nat :=
  match change_context chunk with
  | None => Done line_index
  | Some ctx_line =>
      r ← no_panic (seek_sequence original_lines [ctx_line] line_index false m);
      match r with
      | Some idx => Done (S idx)
      | None => Failed (msg_context_not_found ctx_line path)
      end
  end.

(** One iteration of the loop over the chunks: the replacements it adds and
    the new [line_index]. *)
Definition chunk_step (original_lines : list rstr) (path : rstr) (m : ApplyPatchFileUpdateMode)
    (chunk : UpdateFileChunk) (line_index : nat) : outcome rstr (list Replacement * nat) :=
  line_index ← context_position original_lines path chunk line_index m;
  if is_empty (old_lines chunk) then
    Done ([(insertion_index original_lines m, 0, new_lines chunk)], line_index)
  else
    '(found, pattern, new_slice) ← no_panic (locate_chunk original_lines chunk line_index m);
    match found with
    | Some start_idx =>
        reps ← no_panic (located_replacements m start_idx pattern new_slice
                           (context_line_indices chunk));
        Done (reps, start_idx + length pattern)
    | None => Failed (msg_lines_not_found path (old_lines chunk))
    end.

Fixpoint chunks_loop (original_lines : list rstr) (path : rstr) (m : ApplyPatchFileUpdateMode)
    (chunks : list UpdateFileChunk) (line_index : nat) (acc : list Replacement)
    : outcome rstr (list Replacement) :=
  match chunks with
  | [] => Done acc
  | chunk :: chunks' =>
      '(reps, line_index') ← chunk_step original_lines path m chunk line_index;
      chunks_loop original_lines path m chunks' line_index' (acc ++ reps)
  end.

(** [sort_by_key(|(index, _, _)| *index)]: Rust's stable sort. *)
Fixpoint insert_by_index (r : Replacement) (l : list Replacement) : list Replacement :=
  match l with
  | [] => [r]
  | r' :: l' => if r.1.1 <=? r'.1.1 then r :: l else r' :: insert_by_index r l'
  end.
Definition sort_by_index (l : list Replacement) : list Replacement := foldr insert_by_index [] l.

Definition compute_replacements (original_lines : list rstr) (path : rstr)
    (chunks : list UpdateFileChunk) (m : ApplyPatchFileUpdateMode) : outcome rstr (list Replacement) :=
  reps ← chunks_loop original_lines path m chunks 0 [];
  Done (sort_by_index reps).

(** [Vec::insert], which panics past the end. *)
Definition vec_insert {A} (v : list A) (i : nat) (x : A) : option (list A) :=
  if decide (i ≤ length v) then Some (take i v ++ x :: drop i v) else None.

Fixpoint insert_segment (v : list rstr) (i : nat) (seg : list rstr) : option (list rstr) :=
  match seg with
  | [] => Some v
  | x :: seg' => v' ← vec_insert v i x; insert_segment v' (S i) seg'
  end.

(** [for _ in 0..old_len { if start_idx < lines.len() { lines.remove(start_idx); } }]. *)
Fixpoint remove_times (n : nat) (i : nat) (v : list rstr) : list rstr :=
  match n with
  | 0 => v
  | S n' => remove_times n' i (if i <? length v then delete i v else v)
  end.

Definition apply_replacement (v : list rstr) (r : Replacement) : option (list rstr) :=
  insert_segment (remove_times r.1.2 r.1.1 v) r.1.1 r.2.

Fixpoint apply_in_order (v : list rstr) (reps : list Replacement) : option (list rstr) :=
  match reps with
  | [] => Some v
  | r :: reps' => v' ← apply_replacement v r; apply_in_order v' reps'
  end.

(** [replacements.iter().rev()]. *)
Definition apply_replacements (v : list rstr) (reps : list Replacement) : option (list rstr) :=
  apply_in_order v (reverse reps).

(** [split('\n')] without the empty field after a final newline. *)
Definition split_lines (contents : rstr) : list rstr :=
  let ls := split_char LF contents in
  if last_is_empty ls then drop_last ls else ls.

(** The new contents from the text of the file, in each mode. *)
Definition derive_new_contents (original_contents path_text : rstr) (chunks : list UpdateFileChunk)
    (m : ApplyPatchFileUpdateMode) : outcome rstr rstr :=
  match m with
  | NormalizeToLf =>
      let original_lines := split_lines original_contents in
      reps ← compute_replacements original_lines path_text chunks m;
      new ← no_panic (apply_replacements original_lines reps);
      Done (join [LF] (if last_is_empty new then new else new ++ [[]]))
  | PreserveLineEndings =>
      let source_file := parse original_contents in
      reps ← compute_replacements (line_texts source_file) path_text chunks m;
      f ← no_panic (sf_apply_replacements source_file reps);
      Done (into_contents f)
  end.
