(* ===== verification/FileUpdateFacts.v ===== *)
(** * Correctness of file updates

    The computed replacements are in order, disjoint and in range; applying
    them backwards on plain lines or forwards on lines with endings is the
    same splice; nothing panics. *)

From S2P Require Import Prelude RustStr SeekSequence PatchParser PatchParserFacts FileUpdate.

(** ** Replacements as intervals *)

Definition rep_start (r : Replacement) : nat := r.1.1.
Definition rep_end (r : Replacement) : nat := r.1.1 + r.1.2.

(** [a], pushed before [b], ends before [b], or [b] belongs strictly before it. *)
Definition rep_compat (a b : Replacement) : Prop :=
  rep_end a ≤ rep_start b ∨ (rep_end b ≤ rep_start a ∧ rep_start b < rep_start a).

Lemma chain_app {A} a b c (r1 r2 : list (nat * nat * list A)) :
  chain a b r1 → chain b c r2 → chain a c (r1 ++ r2).
Proof.
  revert a. induction r1 as [|[[s n] seg] r1 IH]; intros a; simpl.
  { intros Hab. by apply chain_weaken. }
  intros [? ?] ?. split; [done|]. by apply IH.
Qed.

Lemma chain_extend {A} a b c (r : list (nat * nat * list A)) :
  chain a b r → b ≤ c → chain a c r.
Proof. intros Hc Hbc. rewrite <- (app_nil_r r). by eapply chain_app; [exact Hc|]. Qed.

Lemma chain_Forall a b (reps : list Replacement) :
  chain a b reps → Forall (λ r, a ≤ rep_start r ∧ rep_end r ≤ b) reps.
Proof.
  revert a. induction reps as [|[[s n] seg] reps IH]; intros a; [constructor|].
  intros [Hs Hc]. constructor.
  { unfold rep_start, rep_end; simpl. apply chain_bound in Hc. lia. }
  apply IH in Hc. eapply Forall_impl; [exact Hc|]. simpl. intros r [? ?]. lia.
Qed.

Lemma chain_compat a b (reps : list Replacement) : chain a b reps → StronglySorted rep_compat reps.
Proof.
  revert a. induction reps as [|[[s n] seg] reps IH]; intros a; [constructor|].
  intros [Hs Hc]. constructor; [by eapply IH|].
  apply chain_Forall in Hc. eapply Forall_impl; [exact Hc|].
  intros r [? ?]. left. unfold rep_end, rep_start in *. simpl in *. lia.
Qed.

(** ** Sorting *)

Lemma insert_by_index_Forall (P : Replacement → Prop) r l :
  P r → Forall P l → Forall P (insert_by_index r l).
Proof.
  intros Hr. induction 1 as [|r' l Hr' Hl IH]; simpl; [by constructor|].
  destruct (_ <=? _); by repeat constructor.
Qed.

Lemma sort_by_index_Forall (P : Replacement → Prop) l : Forall P l → Forall P (sort_by_index l).
Proof.
  induction 1 as [|r l Hr Hl IH]; [constructor|]. by apply insert_by_index_Forall.
Qed.

Lemma insert_chain off len r l :
  chain off len l → off ≤ rep_start r → rep_end r ≤ len → Forall (rep_compat r) l →
  chain off len (insert_by_index r l).
Proof.
  revert off. induction l as [|[[s n] seg] l IH]; intros off Hc Hs He Hall.
  { destruct r as [[s n] seg]. by split. }
  simpl in Hc. destruct Hc as [Hoff Hc]. inversion Hall as [|? ? Hcomp Hall']; subst.
  unfold rep_compat, rep_start, rep_end in *. simpl in *.
  destruct (Nat.leb_spec (r.1.1) s).
  - destruct r as [[s' n'] seg']. simpl in *. repeat split; [done|lia|done].
  - split; [done|]. apply IH; try done. lia.
Qed.

Lemma sort_chain len l :
  StronglySorted rep_compat l → Forall (λ r, rep_end r ≤ len) l → chain 0 len (sort_by_index l).
Proof.
  induction 1 as [|r l Hl IH Hr]; intros Hb; [simpl; lia|].
  inversion Hb; subst. apply insert_chain; [by apply IH|lia|done|by apply sort_by_index_Forall].
Qed.

(** ** Replacements of one chunk *)

Lemma slice_Some {A} (v : list A) a b : a ≤ b → b ≤ length v → slice v a b = Some (take (b - a) (drop a v)).
Proof. intros. unfold slice. by rewrite decide_True. Qed.

Lemma checked_sub_Some a b : b ≤ a → checked_sub a b = Some (a - b).
Proof. intros. unfold checked_sub. by rewrite decide_True. Qed.

Lemma context_loop_chain start plen new ctx : ∀ os ns acc,
  StronglySorted pair_lt ctx → Forall (λ ij, os ≤ ij.1 ∧ ns ≤ ij.2) ctx →
  os ≤ plen → ns ≤ length new →
  ∃ os' ns' reps, context_loop start plen new ctx os ns acc = Some (os', ns', acc ++ reps)
    ∧ chain (start + os) (start + os') reps ∧ os' ≤ plen ∧ ns' ≤ length new.
Proof.
  induction ctx as [|[oc nc] ctx IH]; intros os ns acc Hsort Hge Hos Hns; simpl.
  { exists os, ns, []. rewrite app_nil_r. simpl. by repeat split. }
  inversion Hsort as [|? ? Hsort' Hlt]; subst. inversion Hge as [|? ? [Ho Hn] Hge']; subst; simpl in *.
  destruct (Nat.leb_spec plen oc); simpl.
  { exists os, ns, []. rewrite app_nil_r. simpl. by repeat split. }
  destruct (Nat.leb_spec (length new) nc); simpl.
  { exists os, ns, []. rewrite app_nil_r. simpl. by repeat split. }
  assert (Forall (λ ij, S oc ≤ ij.1 ∧ S nc ≤ ij.2) ctx) as Hge''.
  { eapply Forall_impl; [exact Hlt|]. intros ij [? ?]. simpl in *. lia. }
  rewrite checked_sub_Some, slice_Some by lia. simpl.
  destruct (_ || _) eqn:Hpush; simpl;
    edestruct (IH (S oc) (S nc)) as (os' & ns' & reps & Hr & Hc & ? & ?); try done; try lia;
    rewrite Hr; eexists os', ns', _; (split; [by rewrite <- ?app_assoc|]); split_and!; try done.
  - simpl. split; [lia|]. eapply chain_weaken; [|exact Hc]. lia.
  - eapply chain_weaken; [|exact Hc]. lia.
Qed.

Lemma context_replacements_chain start pattern new ctx :
  StronglySorted pair_lt ctx →
  ∃ reps, context_replacements start pattern new ctx = Some reps
    ∧ chain start (start + length pattern) reps.
Proof.
  intros Hsort. unfold context_replacements.
  destruct (context_loop_chain start (length pattern) new ctx 0 0 []) as (os & ns & reps & -> & Hc & ? & ?);
    [done| |lia..|].
  { apply Forall_forall. intros; lia. }
  simpl. rewrite Nat.add_0_r in Hc. rewrite checked_sub_Some, slice_Some by lia. simpl.
  destruct (_ || _) eqn:E; eexists; (split; [done|]).
  - eapply chain_app; [exact Hc|]. simpl. lia.
  - eapply chain_extend; [exact Hc|].
    apply orb_false_iff in E as [E _]. apply negb_false_iff, Nat.eqb_eq in E. lia.
Qed.

(** ** Locating chunks *)

(** The mode, or the absence of end-of-file chunks and of a trailing empty
    line, keeps chunks in file order. *)
Definition in_order (m : ApplyPatchFileUpdateMode) (lines : list rstr)
    (chunks : list UpdateFileChunk) : Prop :=
  match m with
  | PreserveLineEndings => True
  | NormalizeToLf =>
      last_is_empty lines = false ∧ Forall (λ c, is_end_of_file c = false) chunks
  end.

Lemma seek_ge lines pat start eof m i :
  m = PreserveLineEndings ∨ eof = false →
  seek_sequence lines pat start eof m = Some (Some i) → start ≤ i.
Proof.
  intros [->| ->]; [apply seek_sequence_from_start|].
  destruct (decide (pat = [])) as [->|Hne]; [cbn; intros [= <-]; lia|].
  by intros [? _]%seek_sequence_bounds.
Qed.

Lemma seek_end lines pat start eof m i :
  start ≤ length lines → seek_sequence lines pat start eof m = Some (Some i) →
  i + length pat ≤ length lines.
Proof.
  intros Hs. destruct (decide (pat = [])) as [->|Hne]; [cbn; intros [= <-]; lia|].
  by intros [_ ?]%seek_sequence_bounds.
Qed.

Lemma drop_last_length {A} (v : list A) : length (drop_last v) = length v - 1.
Proof. unfold drop_last. rewrite length_take. lia. Qed.

Lemma locate_chunk_total lines chunk li m : is_Some (locate_chunk lines chunk li m).
Proof.
  unfold locate_chunk.
  destruct (seek_sequence_total lines (old_lines chunk) li (is_end_of_file chunk) m) as [r ->]. simpl.
  destruct (_ && _); [|by eexists].
  destruct (seek_sequence_total lines (drop_last (old_lines chunk)) li (is_end_of_file chunk) m)
    as [r' ->]. by eexists.
Qed.

Lemma locate_chunk_bounds lines chunk li m i pat new :
  m = PreserveLineEndings ∨ is_end_of_file chunk = false → li ≤ length lines →
  locate_chunk lines chunk li m = Some (Some i, pat, new) →
  li ≤ i ∧ i + length pat ≤ length lines.
Proof.
  intros Hm Hli. unfold locate_chunk.
  destruct (seek_sequence lines (old_lines chunk) li (is_end_of_file chunk) m) as [r|] eqn:H1; [simpl|done].
  destruct (_ && _).
  - destruct (seek_sequence lines (drop_last _) li (is_end_of_file chunk) m) as [r'|] eqn:H2; [simpl|done].
    intros [= -> <- _]. split; [by eapply seek_ge|by eapply seek_end].
  - intros [= -> <- _]. split; [by eapply seek_ge|by eapply seek_end].
Qed.

Lemma context_position_bounds lines path chunk li m li' :
  li ≤ length lines → context_position lines path chunk li m = Done li' →
  li ≤ li' ≤ length lines.
Proof.
  intros Hli. unfold context_position.
  destruct (change_context chunk) as [ctx|]; [|intros [= <-]; lia].
  destruct (seek_sequence lines [ctx] li false m) as [[idx|]|] eqn:Hs; simpl; try done.
  intros [= <-]. apply seek_sequence_bounds in Hs as [Hlo Hhi]; [|done].
  unfold search_start in Hlo. simpl in *. lia.
Qed.

Lemma context_position_no_panic lines path chunk li m : context_position lines path chunk li m ≠ Panic.
Proof.
  unfold context_position. destruct (change_context chunk) as [ctx|]; [|done].
  destruct (seek_sequence_total lines [ctx] li false m) as [[i|] ->]; done.
Qed.

Lemma located_replacements_chain m i pat new chunk :
  chunk_wf chunk →
  ∃ reps, located_replacements m i pat new (context_line_indices chunk) = Some reps
    ∧ chain i (i + length pat) reps.
Proof.
  intros [_ Hsort]. destruct m; simpl.
  - eexists. split; [done|]. simpl. lia.
  - by apply context_replacements_chain.
Qed.

Lemma chunk_step_no_panic lines path m chunk li :
  chunk_wf chunk → chunk_step lines path m chunk li ≠ Panic.
Proof.
  intros Hwf. unfold chunk_step.
  pose proof (context_position_no_panic lines path chunk li m).
  destruct (context_position lines path chunk li m) as [li'|e|]; simpl; try done.
  destruct (is_empty _); [done|].
  destruct (locate_chunk_total lines chunk li' m) as [[[found pat] new] ->]. simpl.
  destruct found as [i|]; [|done].
  destruct (located_replacements_chain m i pat new chunk Hwf) as (reps & -> & _). done.
Qed.

Lemma chunk_step_spec lines path m chunk li reps li' :
  chunk_wf chunk → li ≤ length lines → in_order m lines [chunk] →
  chunk_step lines path m chunk li = Done (reps, li') →
  li ≤ li' ≤ length lines ∧
  (chain li li' reps ∨ ∃ seg, reps = [(length lines, 0, seg)]).
Proof.
  intros Hwf Hli Hord. unfold chunk_step.
  destruct (context_position lines path chunk li m) as [li1|e|] eqn:Hctx; simpl; try done.
  apply context_position_bounds in Hctx; [|done].
  destruct (is_empty _).
  { intros [= <- <-]. split; [lia|]. right. exists (new_lines chunk).
    unfold insertion_index. destruct m; [|done]. destruct Hord as [-> _]. done. }
  destruct (locate_chunk lines chunk li1 m) as [[[[i|] pat] new]|] eqn:Hloc; simpl; try done.
  apply locate_chunk_bounds in Hloc; [| |lia].
  2: { destruct m; [right|by left]. destruct Hord as [_ Heof]. by inversion Heof. }
  destruct (located_replacements_chain m i pat new chunk Hwf) as (reps' & -> & Hc). simpl.
  intros [= <- <-]. split; [lia|]. left. eapply chain_weaken; [|exact Hc]. lia.
Qed.

(** What the loop has accumulated. *)
Definition acc_inv (len li : nat) (acc : list Replacement) : Prop :=
  li ≤ len ∧ StronglySorted rep_compat acc
  ∧ Forall (λ r, rep_end r ≤ len ∧ (rep_end r ≤ li ∨ rep_start r = len)) acc.

Lemma StronglySorted_app_2 {A} (R : A → A → Prop) l k :
  StronglySorted R l → StronglySorted R k → Forall (λ x, Forall (R x) k) l → StronglySorted R (l ++ k).
Proof.
  induction 1 as [|x l Hl IH Hx]; intros Hk Hall; [done|]. simpl.
  inversion Hall; subst. constructor; [by apply IH|]. by apply Forall_app.
Qed.

Lemma acc_inv_step len li li' acc reps :
  acc_inv len li acc → li ≤ li' ≤ len →
  (chain li li' reps ∨ ∃ seg, reps = [(len, 0, seg)]) →
  acc_inv len li' (acc ++ reps).
Proof.
  intros (Hli & Hsort & Hall) Hli' Hreps.
  assert (StronglySorted rep_compat reps ∧
          Forall (λ r, rep_end r ≤ len ∧ li ≤ rep_start r ∧ (rep_end r ≤ li' ∨ rep_start r = len)) reps)
    as [Hsr Hbr].
  { destruct Hreps as [Hc|[seg ->]].
    - split; [by eapply chain_compat|]. apply chain_Forall in Hc.
      eapply Forall_impl; [exact Hc|]. intros r [? ?]. lia.
    - split; [repeat constructor|]. constructor; [|constructor].
      unfold rep_end, rep_start. simpl. lia. }
  split; [lia|]. split.
  - apply StronglySorted_app_2; [done..|].
    eapply Forall_impl; [exact Hall|]. intros a [Ha1 Ha2].
    eapply Forall_impl; [exact Hbr|]. intros b (Hb1 & Hb2 & _).
    unfold rep_compat, rep_end, rep_start in *. lia.
  - apply Forall_app. split.
    + eapply Forall_impl; [exact Hall|]. simpl. intros r [? ?]. lia.
    + eapply Forall_impl; [exact Hbr|]. simpl. intros r (? & ? & ?). lia.
Qed.

Lemma chunks_loop_inv lines path m chunks : ∀ li acc reps,
  Forall chunk_wf chunks → in_order m lines chunks → acc_inv (length lines) li acc →
  chunks_loop lines path m chunks li acc = Done reps →
  ∃ li', acc_inv (length lines) li' reps.
Proof.
  induction chunks as [|c chunks IH]; intros li acc reps Hwf Hord Hinv; simpl.
  { intros [= <-]. eauto. }
  inversion Hwf; subst.
  assert (in_order m lines [c] ∧ in_order m lines chunks) as [Hc Hcs].
  { destruct m; [|done]. destruct Hord as [? Hall]. inversion Hall; subst. repeat split; auto. }
  destruct (chunk_step lines path m c li) as [[r li1]|e|] eqn:Hs; simpl; try done.
  apply chunk_step_spec in Hs as [Hli1 Hr]; [|done|apply Hinv|done].
  apply IH; [done..|]. by eapply acc_inv_step.
Qed.

Lemma chunks_loop_no_panic lines path m chunks : ∀ li acc,
  Forall chunk_wf chunks → chunks_loop lines path m chunks li acc ≠ Panic.
Proof.
  induction chunks as [|c chunks IH]; intros li acc Hwf; [done|]. simpl.
  inversion Hwf; subst.
  destruct (chunk_step lines path m c li) as [[r li1]|e|] eqn:E; simpl; [by apply IH|discriminate|].
  by apply chunk_step_no_panic in E.
Qed.

(** The computed replacements are in order, disjoint and inside the file. *)
Lemma compute_replacements_chain lines path chunks m reps :
  Forall chunk_wf chunks → in_order m lines chunks →
  compute_replacements lines path chunks m = Done reps → chain 0 (length lines) reps.
Proof.
  intros Hwf Hord. unfold compute_replacements.
  destruct (chunks_loop lines path m chunks 0 []) as [acc|e|] eqn:Hl; simpl; try done.
  intros [= <-]. eapply chunks_loop_inv in Hl as (li & _ & Hsort & Hall); [|done..|].
  - apply sort_chain; [done|]. eapply Forall_impl; [exact Hall|]. by intros r [? _].
  - split_and!; [lia|constructor|constructor].
Qed.

(** ** Applying backwards is splicing *)

Lemma insert_segment_spec seg : ∀ (v : list rstr) i,
  i ≤ length v → insert_segment v i seg = Some (take i v ++ seg ++ drop i v).
Proof.
  induction seg as [|x seg IH]; intros v i Hi; simpl.
  { by rewrite take_drop. }
  unfold vec_insert. rewrite decide_True by done. simpl.
  rewrite IH by (rewrite length_app, length_take; simpl; rewrite length_drop; lia).
  f_equal. replace (S i) with (length (take i v ++ [x])) by (rewrite length_app, length_take; simpl; lia).
  replace (take i v ++ x :: drop i v) with ((take i v ++ [x]) ++ drop i v) by (by rewrite <- app_assoc).
  rewrite take_app_length, drop_app_length. by rewrite <- app_assoc.
Qed.

Lemma remove_times_spec n : ∀ i (v : list rstr),
  remove_times n i v = take i v ++ drop (i + n) v.
Proof.
  induction n as [|n IH]; intros i v; simpl.
  { by rewrite Nat.add_0_r, take_drop. }
  rewrite IH. destruct (Nat.ltb_spec i (length v)) as [Hi|Hi].
  - rewrite delete_take_drop. rewrite take_app_le by (rewrite length_take; lia).
    rewrite take_take, Nat.min_id. f_equal.
    rewrite drop_app_ge by (rewrite length_take; lia). rewrite length_take, drop_drop. f_equal. lia.
  - by rewrite !drop_ge by lia.
Qed.

Lemma apply_replacement_spec v s n seg :
  s ≤ length v → apply_replacement v (s, n, seg) = Some (take s v ++ seg ++ drop (s + n) v).
Proof.
  intros Hs. unfold apply_replacement. simpl. rewrite remove_times_spec.
  rewrite insert_segment_spec by (rewrite length_app, length_take; lia).
  f_equal. rewrite take_app_le by (rewrite length_take; lia). rewrite take_take, Nat.min_id.
  f_equal. f_equal. rewrite drop_app_ge by (rewrite length_take; lia).
  rewrite length_take. by replace (s - s `min` length v) with 0 by lia.
Qed.

Lemma apply_in_order_app (v : list rstr) r1 r2 :
  apply_in_order v (r1 ++ r2) = (v' ← apply_in_order v r1; apply_in_order v' r2).
Proof.
  revert v. induction r1 as [|r r1 IH]; intros v; [done|]. simpl.
  destruct (apply_replacement v r); simpl; auto.
Qed.

Lemma apply_replacements_splice_from (v : list rstr) reps : ∀ off,
  chain off (length v) reps →
  apply_replacements v reps = Some (take off v ++ splice off (drop off v) reps).
Proof.
  unfold apply_replacements.
  induction reps as [|[[s n] seg] reps IH]; intros off Hc.
  { simpl. by rewrite take_drop. }
  destruct Hc as [Hoff Hc]. pose proof (chain_bound _ _ _ Hc).
  rewrite reverse_cons, apply_in_order_app, (IH _ Hc). simpl.
  rewrite apply_replacement_spec by (rewrite length_app, length_take; lia). simpl. f_equal.
  rewrite take_app_le by (rewrite length_take; lia). rewrite take_take, Nat.min_l by lia.
  replace (drop (s + n) (take (s + n) v ++ splice (s + n) (drop (s + n) v) reps))
    with (splice (s + n) (drop (s + n) v) reps)
    by (rewrite drop_app_ge by (rewrite length_take; lia); rewrite length_take;
        by replace (s + n - (s + n) `min` length v) with 0 by lia).
  rewrite drop_drop. replace (off + (s + n - off)) with (s + n) by lia.
  rewrite (app_assoc (take off v)). f_equal.
  rewrite <- (take_drop off (take s v)). rewrite take_take, Nat.min_l by lia.
  by rewrite skipn_firstn_comm.
Qed.

Lemma apply_replacements_splice (v : list rstr) reps :
  chain 0 (length v) reps → apply_replacements v reps = Some (splice 0 v reps).
Proof. intros Hc. by rewrite (apply_replacements_splice_from v reps 0 Hc). Qed.

(** ** No panic in either mode *)

Definition start_le (a b : Replacement) : Prop := rep_start a ≤ rep_start b.

Lemma insert_by_index_sorted r l :
  StronglySorted start_le l → StronglySorted start_le (insert_by_index r l).
Proof.
  induction 1 as [|r' l Hl IH Hr']; simpl; [repeat constructor|].
  destruct (Nat.leb_spec r.1.1 r'.1.1).
  - constructor; [by constructor|]. constructor; [done|].
    eapply Forall_impl; [exact Hr'|]. unfold start_le, rep_start. intros; simpl in *; lia.
  - constructor; [done|]. apply insert_by_index_Forall; [|done]. unfold start_le, rep_start. lia.
Qed.

Lemma sort_by_index_sorted l : StronglySorted start_le (sort_by_index l).
Proof. induction l; [constructor|]. by apply insert_by_index_sorted. Qed.

Lemma apply_replacements_some (v : list rstr) reps : ∀ k,
  StronglySorted start_le reps → Forall (λ r, k ≤ rep_start r ≤ length v) reps → k ≤ length v →
  ∃ v', apply_replacements v reps = Some v' ∧ k ≤ length v'.
Proof.
  unfold apply_replacements.
  induction reps as [|[[s n] seg] reps IH]; intros k Hsort Hall Hk; [by exists v|].
  inversion Hsort as [|? ? Hsort' Hle]; subst. inversion Hall as [|? ? Hs Hall']; subst.
  unfold rep_start in Hs; simpl in Hs.
  destruct (IH s) as (v1 & Hv1 & Hlen); [done| |lia|].
  { apply Forall_and in Hall' as [_ Hall']. apply Forall_and. by split. }
  rewrite reverse_cons, apply_in_order_app, Hv1. cbn -[apply_replacement].
  rewrite apply_replacement_spec by done. eexists. split; [done|].
  rewrite length_app, length_take. lia.
Qed.

Lemma insertion_index_le lines m : insertion_index lines m ≤ length lines.
Proof. unfold insertion_index. destruct m; [destruct (last_is_empty lines)|]; lia. Qed.

Lemma chunk_step_starts lines path m chunk li reps li' :
  chunk_wf chunk → li ≤ length lines →
  chunk_step lines path m chunk li = Done (reps, li') →
  li' ≤ length lines ∧ Forall (λ r, rep_start r ≤ length lines) reps.
Proof.
  intros Hwf Hli. unfold chunk_step.
  destruct (context_position lines path chunk li m) as [li1|e|] eqn:Hctx; simpl; try done.
  apply context_position_bounds in Hctx; [|done].
  destruct (is_empty _).
  { intros [= <- <-]. split; [lia|]. constructor; [|constructor].
    unfold rep_start; simpl. apply insertion_index_le. }
  destruct (locate_chunk lines chunk li1 m) as [[[[i|] pat] new]|] eqn:Hloc; simpl; try done.
  assert (i + length pat ≤ length lines) as Hend.
  { revert Hloc. unfold locate_chunk.
    destruct (seek_sequence lines (old_lines chunk) li1 _ m) as [r|] eqn:H1; [simpl|done].
    destruct (_ && _).
    - destruct (seek_sequence lines (drop_last _) li1 _ m) as [r'|] eqn:H2; [simpl|done].
      intros [= -> <- _]. eapply seek_end, H2. lia.
    - intros [= -> <- _]. eapply seek_end, H1. lia. }
  destruct (located_replacements_chain m i pat new chunk Hwf) as (reps' & -> & Hc). simpl.
  intros [= <- <-]. split; [done|]. apply chain_Forall in Hc.
  eapply Forall_impl; [exact Hc|]. unfold rep_end, rep_start. simpl. intros r [? ?]. lia.
Qed.

Lemma chunks_loop_starts lines path m chunks : ∀ li acc reps,
  Forall chunk_wf chunks → li ≤ length lines → Forall (λ r, rep_start r ≤ length lines) acc →
  chunks_loop lines path m chunks li acc = Done reps →
  Forall (λ r, rep_start r ≤ length lines) reps.
Proof.
  induction chunks as [|c chunks IH]; intros li acc reps Hwf Hli Hacc; simpl; [by intros [= <-]|].
  inversion Hwf; subst.
  destruct (chunk_step lines path m c li) as [[r li1]|e|] eqn:Hs; simpl; try done.
  apply chunk_step_starts in Hs as [Hli1 Hr]; [|done..].
  apply IH; [done..|]. by apply Forall_app.
Qed.

Lemma compute_replacements_no_panic lines path chunks m :
  Forall chunk_wf chunks → compute_replacements lines path chunks m ≠ Panic.
Proof.
  intros Hwf. unfold compute_replacements.
  destruct (chunks_loop lines path m chunks 0 []) as [acc|e|] eqn:E; simpl; [discriminate..|].
  by apply chunks_loop_no_panic in E.
Qed.

Lemma apply_computed_replacements lines path chunks m reps :
  Forall chunk_wf chunks → compute_replacements lines path chunks m = Done reps →
  is_Some (apply_replacements lines reps).
Proof.
  intros Hwf. unfold compute_replacements.
  destruct (chunks_loop lines path m chunks 0 []) as [acc|e|] eqn:E; simpl; try done.
  intros [= <-]. apply chunks_loop_starts in E; [|done|lia|constructor].
  edestruct (apply_replacements_some lines (sort_by_index acc) 0) as (v' & Hv' & _);
    [apply sort_by_index_sorted| |lia|by exists v'].
  apply sort_by_index_Forall. eapply Forall_impl; [exact E|]. simpl. lia.
Qed.

Lemma derive_no_panic contents path chunks m :
  Forall chunk_wf chunks → derive_new_contents contents path chunks m ≠ Panic.
Proof.
  intros Hwf. unfold derive_new_contents. destruct m.
  - destruct (compute_replacements (split_lines contents) path chunks NormalizeToLf)
      as [reps|e|] eqn:E; simpl; [|discriminate|by apply compute_replacements_no_panic in E].
    destruct (apply_computed_replacements _ _ _ _ _ Hwf E) as [v ->]. discriminate.
  - destruct (compute_replacements (line_texts (parse contents)) path chunks PreserveLineEndings)
      as [reps|e|] eqn:E; simpl; [|discriminate|by apply compute_replacements_no_panic in E].
    apply compute_replacements_chain in E; [|done..].
    rewrite (sf_apply_replacements_splice _ _ _ E). discriminate.
Qed.

(** ** Keeping context lines in place changes nothing on an exact match *)

Definition context_equal (pattern new : list rstr) (ij : nat * nat) : Prop :=
  pattern !! ij.1 = new !! ij.2.


(** The replacement pushed after the loop over the context lines. *)
Definition final_replacement (start os ns : nat) (pattern new : list rstr) : list Replacement :=
  if negb (os =? length pattern) || negb (ns =? length new)
  then [(start + os, length pattern - os, drop ns new)] else [].

Lemma splice_skip {A} (x : A) l off len reps :
  chain (S off) len reps → splice off (x :: l) reps = x :: splice (S off) l reps.
Proof.
  destruct reps as [|[[s n] seg] reps]; simpl; [done|]. intros [Hs _].
  replace (s - off) with (S (s - S off)) by lia. simpl.
  by replace (s + n - off) with (S (s + n - S off)) by lia.
Qed.

Lemma final_replacement_chain start os ns pattern new :
  os ≤ length pattern → chain (start + os) (start + length pattern) (final_replacement start os ns pattern new).
Proof.
  intros Hos. unfold final_replacement. destruct (_ || _) eqn:E; simpl; [lia|].
  lia.
Qed.

Lemma splice_final start os ns pattern new :
  os ≤ length pattern → ns ≤ length new →
  splice (start + os) (drop os pattern) (final_replacement start os ns pattern new) = drop ns new.
Proof.
  intros Hos Hns. unfold final_replacement.
  destruct (_ || _) eqn:E; cbn [splice].
  - rewrite Nat.sub_diag, take_0. simpl. rewrite (drop_ge (drop os pattern)), app_nil_r; [done|].
    rewrite length_drop. lia.
  - apply orb_false_iff in E as [E1 E2].
    apply negb_false_iff, Nat.eqb_eq in E1. apply negb_false_iff, Nat.eqb_eq in E2.
    by rewrite !drop_ge by lia.
Qed.

Lemma context_loop_splice start pattern new ctx : ∀ os ns acc,
  StronglySorted pair_lt ctx → Forall (λ ij, os ≤ ij.1 ∧ ns ≤ ij.2) ctx →
  Forall (λ ij, ij.1 < length pattern → ij.2 < length new → context_equal pattern new ij) ctx →
  os ≤ length pattern → ns ≤ length new →
  ∃ os' ns' reps, context_loop start (length pattern) new ctx os ns acc = Some (os', ns', acc ++ reps)
    ∧ os' ≤ length pattern ∧ ns' ≤ length new
    ∧ splice (start + os) (drop os pattern) (reps ++ final_replacement start os' ns' pattern new)
      = drop ns new.
Proof.
  induction ctx as [|[oc nc] ctx IH]; intros os ns acc Hsort Hge Heq Hos Hns.
  { exists os, ns, []. rewrite app_nil_r. split_and!; [done..|]. by apply splice_final. }
  inversion Hsort as [|? ? Hsort' Hlt]; subst. inversion Hge as [|? ? [Ho Hn] Hge']; subst.
  inversion Heq as [|? ? Heq1 Heq']; subst. cbn [fst snd context_loop] in *.
  destruct (Nat.leb_spec (length pattern) oc) as [|Hoc]; cbn [orb].
  { exists os, ns, []. rewrite app_nil_r. split_and!; [done..|]. by apply splice_final. }
  destruct (Nat.leb_spec (length new) nc) as [|Hnc]; cbn [orb].
  { exists os, ns, []. rewrite app_nil_r. split_and!; [done..|]. by apply splice_final. }
  assert (Forall (λ ij, S oc ≤ ij.1 ∧ S nc ≤ ij.2) ctx) as Hge''.
  { eapply Forall_impl; [exact Hlt|]. intros ij [? ?]. simpl in *. lia. }
  specialize (Heq1 Hoc Hnc). unfold context_equal in Heq1. cbn [fst snd] in Heq1.
  destruct (lookup_lt_is_Some_2 pattern oc Hoc) as [x Hx]. rewrite Hx in Heq1. symmetry in Heq1.
  (* what the remaining context gives, shifted by the kept line *)
  assert (∀ acc', ∃ os' ns' reps,
    context_loop start (length pattern) new ctx (S oc) (S nc) acc' = Some (os', ns', acc' ++ reps)
    ∧ os' ≤ length pattern ∧ ns' ≤ length new
    ∧ splice (start + oc) (drop oc pattern) (reps ++ final_replacement start os' ns' pattern new)
      = drop nc new) as Hrest.
  { intros acc'. destruct (IH (S oc) (S nc) acc') as (os' & ns' & reps & Hr & Ho' & Hn' & Hsp);
      [done..|lia|lia|].
    exists os', ns', reps. split_and!; [done..|].
    destruct (context_loop_chain start (length pattern) new ctx (S oc) (S nc) acc')
      as (os2 & ns2 & reps2 & Hr2 & Hc & _ & _); [done..|lia|lia|].
    rewrite Hr in Hr2. injection Hr2 as -> -> <-%app_inv_head.
    rewrite (drop_S pattern x oc Hx), (drop_S new x nc Heq1).
    erewrite splice_skip.
    - f_equal. rewrite <- Hsp. f_equal. lia.
    - replace (S (start + oc)) with (start + S oc) by lia.
      eapply chain_app; [exact Hc|]. by apply final_replacement_chain. }
  rewrite checked_sub_Some, slice_Some by lia.
  destruct (negb (os =? oc) || negb (ns =? nc)) eqn:Hpush; cbn [mbind option_bind].
  - destruct (Hrest (acc ++ [(start + os, oc - os, take (nc - ns) (drop ns new))]))
      as (os' & ns' & reps & -> & Ho' & Hn' & Hsp).
    eexists os', ns', (_ :: reps). split; [by rewrite <- app_assoc|]. split_and!; [done..|].
    cbn [app splice]. rewrite Nat.sub_diag, take_0. simpl. rewrite drop_drop.
    replace (os + (start + os + (oc - os) - (start + os))) with oc by lia.
    replace (start + os + (oc - os)) with (start + oc) by lia. rewrite Hsp.
    rewrite <- (take_drop (nc - ns) (drop ns new)) at 2. rewrite drop_drop.
    by replace (ns + (nc - ns)) with nc by lia.
  - apply orb_false_iff in Hpush as [E1 E2].
    apply negb_false_iff, Nat.eqb_eq in E1. apply negb_false_iff, Nat.eqb_eq in E2. subst oc nc.
    apply (Hrest acc).
Qed.

(** Replacing only what is between the context lines gives the new lines. *)
Lemma context_replacements_splice start pattern new ctx :
  StronglySorted pair_lt ctx →
  Forall (λ ij, ij.1 < length pattern → ij.2 < length new → context_equal pattern new ij) ctx →
  ∃ reps, context_replacements start pattern new ctx = Some reps ∧ splice start pattern reps = new.
Proof.
  intros Hsort Heq.
  destruct (context_loop_splice start pattern new ctx 0 0 [])
    as (os & ns & reps & Hr & Ho & Hn & Hsp); [done| |done|lia..|].
  { apply Forall_forall. intros; lia. }
  unfold context_replacements. rewrite Hr. cbn [mbind option_bind app].
  rewrite checked_sub_Some, slice_Some by lia. cbn [mbind option_bind].
  rewrite Nat.add_0_r in Hsp. simpl in Hsp. unfold final_replacement in Hsp.
  rewrite (take_ge (drop ns new)) by (rewrite length_drop; lia).
  destruct (_ || _); eexists; (split; [done|]); [done|]. by rewrite app_nil_r in Hsp.
Qed.
