(* ===== verification/FileSystem.v ===== *)
(** * The executor file system

    The interface [ExecutorFileSystem] of [file-system/src/lib.rs], as far as
    the patch engine uses it, as a type class: reading does not change the
    state of the file system, the other operations return the new state and
    a result, since a failed operation may have had an effect.  The sandbox
    context is fixed during a patch and belongs to the instance.

    [FileSystemLaws] is what the engine's recorded deltas rely on, stated on
    the map from paths to the text of regular files.  [mem_fs] is an
    in-memory implementation that satisfies it. *)

From S2P Require Import Prelude RustStr.

(** [std::io::Error]: the kinds the engine distinguishes and the message. *)
Inductive ErrorKind := NotFound | InvalidInput | OtherKind.
Record io_error := mkIoError { kind : ErrorKind; io_message : rstr }.

#[global] Instance ErrorKind_eq_dec : EqDecision ErrorKind.
Proof. solve_decision. Defined.

Record FileMetadata := mkMetadata {
  is_directory : bool;
  is_file : bool;
  is_symlink : bool
}.

Class ExecutorFileSystem (FS Path : Type) := {
  read_file_text : Path → bool → FS → result io_error rstr;
  get_metadata : Path → bool → FS → result io_error FileMetadata;
  write_file : Path → rstr → bool → FS → FS * result io_error unit;
  (** [CreateDirectoryOptions { recursive: true, follow_symlinks }]. *)
  create_directory : Path → bool → FS → FS * result io_error unit;
  (** [RemoveOptions { recursive: false, force: false, follow_symlinks }]. *)
  remove : Path → bool → FS → FS * result io_error unit
}.

(** The parts of [PathUri] the engine uses. *)
Class PathOps (Path UriError : Type) := {
  path_join : Path → rstr → result UriError Path;
  path_parent : Path → option Path;
  inferred_native_path_string : Path → rstr;
  uri_error_message : UriError → rstr
}.

Section laws.
Context {FS Path UriError : Type}.
Context `{Countable Path, !ExecutorFileSystem FS Path, !PathOps Path UriError}.

(** What the metadata has to say of a path for a delta on it to be exact:
    a regular file, or nothing. *)
Definition plain (follow : bool) (p : Path) (fs : FS) : Prop :=
  match get_metadata p follow fs with
  | Ok md => is_file md = true ∧ is_symlink md = false
  | Err e => kind e = NotFound
  end.

(** The laws hold between distinct paths that name distinct files; an
    operation on a path that is a symlink or not a regular file is not
    constrained at all. *)
Class FileSystemLaws (follow : bool) (contents : FS → gmap Path rstr) : Prop := {
  read_ok p fs c : read_file_text p follow fs = Ok c → contents fs !! p = Some c;
  read_not_found p fs e :
    read_file_text p follow fs = Err e → kind e = NotFound → contents fs !! p = None;
  write_ok p c fs fs' :
    plain follow p fs → write_file p c follow fs = (fs', Ok tt) → contents fs' = <[p:=c]> (contents fs);
  write_missing_parent p c fs fs' e :
    write_file p c follow fs = (fs', Err e) → kind e = NotFound →
    contents fs' = contents fs ∧ (plain follow p fs → plain follow p fs');
  create_parent p q fs fs' r :
    path_parent p = Some q → create_directory q follow fs = (fs', r) →
    contents fs' = contents fs ∧ (plain follow p fs → plain follow p fs');
  file_stays_plain p q c fs fs' r :
    is_Some (contents fs !! p) → plain follow p fs →
    (write_file q c follow fs = (fs', r) ∨ create_directory q follow fs = (fs', r)) → plain follow p fs';
  remove_ok p fs fs' :
    plain follow p fs → remove p follow fs = (fs', Ok tt) → contents fs' = delete p (contents fs);
  remove_failed p fs fs' e :
    plain follow p fs → remove p follow fs = (fs', Err e) →
    contents fs' = contents fs ∨ contents fs' = delete p (contents fs)
}.

End laws.

(** ** An in-memory file system

    Regular files, directories, and files that refuse to be changed. *)

Record MemFs := mkMem {
  files : gmap rstr rstr;
  dirs : list rstr;
  locked : list rstr
}.


(** The path up to its last slash. *)
Definition mem_parent (p : rstr) : option rstr :=
  fst <$> rsplit_once SLASH p.

Definition mem_join (p rel : rstr) : result rstr rstr := Ok (p ++ [SLASH] ++ rel).

#[global] Instance mem_path_ops : PathOps rstr rstr := {
  path_join := mem_join;
  path_parent := mem_parent;
  inferred_native_path_string p := p;
  uri_error_message e := e
}.

Definition not_found : io_error := mkIoError NotFound ($"No such file or directory").
Definition denied : io_error := mkIoError OtherKind ($"Permission denied").

Definition mem_read (p : rstr) (_ : bool) (fs : MemFs) : result io_error rstr :=
  match files fs !! p with
  | Some c => Ok c
  | None => if decide (p ∈ dirs fs) then Err denied else Err not_found
  end.

Definition mem_metadata (p : rstr) (_ : bool) (fs : MemFs) : result io_error FileMetadata :=
  match files fs !! p with
  | Some c => Ok (mkMetadata false true false)
  | None => if decide (p ∈ dirs fs) then Ok (mkMetadata true false false) else Err not_found
  end.

Definition mem_write (p c : rstr) (_ : bool) (fs : MemFs) : MemFs * result io_error unit :=
  if decide (p ∈ locked fs) then (fs, Err denied)
  else if decide (p ∈ dirs fs) then (fs, Err denied)
  else if is_some_and (λ d, bool_decide (d ∈ dirs fs)) (mem_parent p)
  then (mkMem (<[p:=c]> (files fs)) (dirs fs) (locked fs), Ok tt)
  else (fs, Err not_found).

(** One level is enough for the examples. *)
Definition mem_mkdir (p : rstr) (_ : bool) (fs : MemFs) : MemFs * result io_error unit :=
  if decide (is_Some (files fs !! p)) then (fs, Err denied)
  else (mkMem (files fs) (p :: dirs fs) (locked fs), Ok tt).

Definition mem_remove (p : rstr) (_ : bool) (fs : MemFs) : MemFs * result io_error unit :=
  if decide (p ∈ locked fs) then (fs, Err denied)
  else match files fs !! p with
       | Some _ => (mkMem (delete p (files fs)) (dirs fs) (locked fs), Ok tt)
       | None => (fs, Err not_found)
       end.

#[global] Instance mem_fs : ExecutorFileSystem MemFs rstr := {
  read_file_text := mem_read;
  get_metadata := mem_metadata;
  write_file := mem_write;
  create_directory := mem_mkdir;
  remove := mem_remove
}.

Lemma mem_parent_neq p : mem_parent p ≠ Some p.
Proof.
  unfold mem_parent, rsplit_once, split_once. destruct p as [|c p]; [done|].
  destruct (find [SLASH] (reverse (c :: p))) as [i|]; simpl; [|done].
  intros [= E%(f_equal length)]. rewrite length_reverse, length_drop, length_reverse in E. simpl in E. lia.
Qed.

Lemma mem_plain follow p fs :
  plain follow p fs ↔ is_Some (files fs !! p) ∨ (p ∉ dirs fs).
Proof.
  unfold plain; simpl; unfold mem_metadata.
  destruct (files fs !! p); simpl; [intuition eauto|]. case_decide; simpl.
  - split; [intros [??]; done|]. intros [[??]|?]; done.
  - intuition.
Qed.

#[global] Instance mem_fs_laws follow : FileSystemLaws follow files.
Proof.
  split; simpl.
  - unfold mem_read. intros p fs c. destruct (files fs !! p); [congruence|]. by case_decide.
  - unfold mem_read. intros p fs e. by destruct (files fs !! p).
  - unfold mem_write. intros p c fs fs' _. repeat case_decide; [done..|].
    destruct (is_some_and _ _); by intros [= <-].
  - unfold mem_write. intros p c fs fs' e. repeat case_decide; [by intros [= <- <-]..|].
    destruct (is_some_and _ _); [done|]. by intros [= <- <-].
  - unfold mem_mkdir. intros p q fs fs' r Hp. case_decide; intros [= <- <-]; [done|].
    split; [done|]. rewrite !mem_plain; simpl. rewrite not_elem_of_cons.
    intros [?|?]; [by left|]. right. split; [|done]. intros ->. by apply (mem_parent_neq q).
  - intros p q c fs fs' r Hp _. rewrite mem_plain. unfold mem_write, mem_mkdir.
    intros [E|E]; left; revert E.
    + repeat case_decide; [by intros [= <- <-]..|]. destruct (is_some_and _ _); intros [= <- <-]; [|done].
      simpl. destruct (decide (p = q)) as [->|]; [by rewrite lookup_insert_eq|by rewrite lookup_insert_ne].
    + case_decide; by intros [= <- <-].
  - unfold mem_remove. intros p fs fs' _. case_decide; [done|].
    destruct (files fs !! p) eqn:E; by intros [= <-].
  - unfold mem_remove. intros p fs fs' e _. case_decide; [intros [= <- <-]; by left|].
    destruct (files fs !! p) eqn:E; intros [= <- <-]. by left.
Qed.
