(* ===== verification/ApplyPatch.v ===== *)
(** * Applying a patch to the file system

    Model of [apply-patch/src/lib.rs]: the hunks of a patch are applied one
    after the other, and a delta records the textual changes that were
    committed.  The delta is [exact] while the engine is sure that it
    describes everything that happened.

    The code runs in a state monad over the file system and the delta; an
    [anyhow::Error] remembers whether [downcast_ref::<io::Error>] succeeds
    on it.  [plain], [FileSystemLaws] and the class of file systems are in
    [FileSystem]. *)

From S2P Require Import Prelude RustStr SeekSequence PatchParser FileUpdate FileSystem.

Record ApplyPatchOptions := mkOptions {
  update_file_mode : ApplyPatchFileUpdateMode;
  follow_symlinks : bool
}.

Definition default_options : ApplyPatchOptions := mkOptions NormalizeToLf true.

Record IoError := mkIo { io_context : rstr; io_source : io_error }.

Section engine.
Context {FS Path UriError : Type}.
Context `{!ExecutorFileSystem FS Path, !PathOps Path UriError}.

Inductive ApplyPatchError :=
| ApplyParseError (e : ParseError)
| ApplyIoError (e : IoError)
| ComputeReplacements (message : rstr)
| PathUriError (e : UriError)
| ImplicitInvocation.

(** [impl From<&std::io::Error> for ApplyPatchError]. *)
Definition from_io (e : io_error) : ApplyPatchError := ApplyIoError (mkIo ($"I/O error") e).

(** [#[error("{context}: {source}")]]. *)
Definition IoError_display (e : IoError) : rstr := io_context e ++ $": " ++ io_message (io_source e).

(** [ParseError]'s messages, [parser.rs]. *)
Definition ParseError_display (e : ParseError) : rstr :=
  match e with
  | InvalidPatchError m => $"invalid patch: " ++ m
  | InvalidHunkError m n => $"invalid hunk at line " ++ fmt_nat n ++ $", " ++ m
  end.

Definition ApplyPatchError_display (e : ApplyPatchError) : rstr :=
  match e with
  | ApplyParseError e => ParseError_display e
  | ApplyIoError e => IoError_display e
  | ComputeReplacements m => m
  | PathUriError e => uri_error_message e
  | ImplicitInvocation =>
      $"patch detected without explicit call to apply_patch. Rerun as ["
      ++ [DQUOTE] ++ $"apply_patch" ++ [DQUOTE] ++ $", " ++ [DQUOTE] ++ $"<patch>" ++ [DQUOTE] ++ $"]"
  end.

(** [anyhow::Error]: a message, an I/O error under a context, or another
    error type. *)
Inductive anyhow :=
| AnyMessage (m : rstr)
| AnyIo (context : rstr) (e : io_error)
| AnyPatch (e : ApplyPatchError)
| AnyUri (e : UriError).

Definition anyhow_display (e : anyhow) : rstr :=
  match e with
  | AnyMessage m => m
  | AnyIo context _ => context
  | AnyPatch e => ApplyPatchError_display e
  | AnyUri e => uri_error_message e
  end.

(** [error.downcast_ref::<std::io::Error>()]. *)
Definition downcast_io (e : anyhow) : option io_error :=
  match e with AnyIo _ e => Some e | _ => None end.

(** ** Deltas *)

Inductive AppliedPatchFileChange :=
| ChangeAdd (content : rstr) (overwritten_content : option rstr)
| ChangeDelete (content : rstr)
| ChangeUpdate (move_path : option Path) (old_content : rstr)
    (overwritten_move_content : option rstr) (new_content : rstr).

Record AppliedPatchChange := mkChange {
  change_path : Path;
  change : AppliedPatchFileChange
}.

Record AppliedPatchDelta := mkDelta {
  changes : list AppliedPatchChange;
  exact : bool
}.

Definition delta_empty : AppliedPatchDelta := mkDelta [] true.

(** [AppliedPatchDelta::append]. *)
Definition delta_append (d other : AppliedPatchDelta) : AppliedPatchDelta :=
  mkDelta (changes d ++ changes other) (exact d && exact other).

Record ApplyPatchFailure := mkFailure {
  failure_error : ApplyPatchError;
  failure_delta : AppliedPatchDelta
}.

Definition without_delta (e : ApplyPatchError) : ApplyPatchFailure := mkFailure e delta_empty.

(** ** The monad of the engine *)

Definition engine (A : Type) : Type :=
  FS * AppliedPatchDelta → (FS * AppliedPatchDelta) * outcome anyhow A.

#[global] Instance engine_ret : MRet engine := λ A a s, (s, Done a).
#[global] Instance engine_bind : MBind engine := λ A B k m s,
  match m s with
  | (s', Done a) => k a s'
  | (s', Failed e) => (s', Failed e)
  | (s', Panic) => (s', Panic)
  end.

Definition raise {A} (e : anyhow) : engine A := λ s, (s, Failed e).
(** A call that reads the file system, and one that may change it. *)
Definition query {A} (f : FS → A) : engine A := λ '(fs, d), ((fs, d), Done (f fs)).
Definition effect {A} (f : FS → FS * A) : engine A := λ '(fs, d), let '(fs', r) := f fs in ((fs', d), Done r).
Definition modify_delta (f : AppliedPatchDelta → AppliedPatchDelta) : engine unit :=
  λ '(fs, d), ((fs, f d), Done tt).
(** [delta.exact = false] and [delta.exact &= b]. *)
Definition not_exact : engine unit := modify_delta (λ d, mkDelta (changes d) false).
Definition and_exact (b : bool) : engine unit := modify_delta (λ d, mkDelta (changes d) (exact d && b)).
Definition push_change (c : AppliedPatchChange) : engine unit :=
  modify_delta (λ d, mkDelta (changes d ++ [c]) (exact d)).
(** [delta.changes[i] = c]; a panic out of range. *)
Definition set_change (i : nat) (c : AppliedPatchChange) : engine unit := λ '(fs, d),
  if decide (i < length (changes d)) then ((fs, mkDelta (<[i:=c]> (changes d)) (exact d)), Done tt)
  else ((fs, d), Panic).
Definition change_count : engine nat := λ '(fs, d), ((fs, d), Done (length (changes d))).

(** [io_result.with_context(...)?]. *)
Definition with_context {A} (context : rstr) (r : result io_error A) : engine A :=
  match r with Ok a => mret a | Err e => raise (AnyIo context e) end.

(** [try_write!]: a failed write makes the delta inexact. *)
Definition try_write {A} (m : engine A) : engine A := λ s,
  match m s with
  | ((fs, d), Failed e) => ((fs, mkDelta (changes d) false), Failed e)
  | r => r
  end.

(** ** Operations on one path *)

Section options.
Variable options : ApplyPatchOptions.
Abbreviation follow := (follow_symlinks options).

Definition native (p : Path) : rstr := inferred_native_path_string p.

(** [Hunk::resolve_path]. *)
Definition resolve_path (cwd : Path) (h : Hunk) : result UriError Path := path_join cwd (hunk_source_path h).

Definition lift_uri (r : result UriError Path) : engine Path :=
  match r with Ok p => mret p | Err e => raise (AnyUri e) end.

Definition ensure_not_directory (p : Path) (fs : FS) : result io_error unit :=
  metadata ← get_metadata p follow fs;
  if is_directory metadata then Err (mkIoError InvalidInput ($"path is a directory")) else Ok tt.

Definition remove_failure_was_side_effect_free (p : Path) (expected_content : option rstr) (fs : FS) : bool :=
  match expected_content with
  | Some expected =>
      match read_file_text p follow fs with Ok content => bool_decide (content = expected) | Err _ => false end
  | None => false
  end.

Definition note_existing_path_delta_support (p : Path) : engine unit :=
  md ← query (get_metadata p follow);
  match md with
  | Ok md => if is_file md && negb (is_symlink md) then mret tt else not_exact
  | Err source => if decide (kind source = NotFound) then mret tt else not_exact
  end.

Definition read_optional_file_text_for_delta (p : Path) : engine (option rstr) :=
  note_existing_path_delta_support p;;
  r ← query (read_file_text p follow);
  match r with
  | Ok content => mret (Some content)
  | Err source => if decide (kind source = NotFound) then mret None else not_exact;; mret None
  end.

Definition msg_write (p : Path) : rstr := $"Failed to write file " ++ native p.
Definition msg_parents (p : Path) : rstr := $"Failed to create parent directories for " ++ native p.
Definition msg_delete (p : Path) : rstr := $"Failed to delete file " ++ native p.
Definition msg_remove_original (p : Path) : rstr := $"Failed to remove original " ++ native p.

Definition write_file_with_missing_parent_retry (p : Path) (contents : rstr) : engine unit :=
  r ← effect (write_file p contents follow);
  match r with
  | Ok _ => mret tt
  | Err err =>
      if decide (kind err = NotFound) then
        match path_parent p with
        | Some parent => r ← effect (create_directory parent follow); with_context (msg_parents p) r
        | None => mret tt
        end;;
        r ← effect (write_file p contents follow); with_context (msg_write p) r
      else with_context (msg_write p) (Err err)
  end.

(** [derive_new_contents_from_chunks], [file_update.rs]. *)
Definition derive_new_contents_from_chunks (p : Path) (chunks : list UpdateFileChunk)
    (fs : FS) : outcome ApplyPatchError (rstr * rstr) :=
  match read_file_text p follow fs with
  | Err err => Failed (ApplyIoError (mkIo ($"Failed to read file to update " ++ native p) err))
  | Ok original_contents =>
      match derive_new_contents original_contents (native p) chunks (update_file_mode options) with
      | Done new_contents => Done (original_contents, new_contents)
      | Failed m => Failed (ComputeReplacements m)
      | Panic => Panic
      end
  end.

Definition lift_patch {A} (r : outcome ApplyPatchError A) : engine A :=
  match r with
  | Done a => mret a
  | Failed e => raise (AnyPatch e)
  | Panic => λ s, (s, Panic)
  end.

(** [ensure_not_directory(..)?] and the removal both branches share: on
    failure the delta stays exact only if the file is seen unchanged. *)
Definition remove_checked (p : Path) (context : rstr) (expected : option rstr) : engine unit :=
  r ← query (ensure_not_directory p);
  with_context context r;;
  r ← effect (remove p follow);
  match r with
  | Ok _ => mret tt
  | Err e =>
      b ← query (remove_failure_was_side_effect_free p expected);
      and_exact b;; raise (AnyIo context e)
  end.

(** ** One hunk *)

Record AffectedPaths := mkAffected {
  added : list rstr;
  modified : list rstr;
  deleted : list rstr
}.

Definition affected_none : AffectedPaths := mkAffected [] [] [].

Definition affect (h : Hunk) (a : AffectedPaths) : AffectedPaths :=
  match h with
  | AddFile _ _ => mkAffected (added a ++ [hunk_path h]) (modified a) (deleted a)
  | DeleteFile _ => mkAffected (added a) (modified a) (deleted a ++ [hunk_path h])
  | UpdateFile _ _ _ => mkAffected (added a) (modified a ++ [hunk_path h]) (deleted a)
  end.

Definition add_file (path_uri : Path) (contents : rstr) : engine unit :=
  overwritten_content ← read_optional_file_text_for_delta path_uri;
  try_write (write_file_with_missing_parent_retry path_uri contents);;
  push_change (mkChange path_uri (ChangeAdd contents overwritten_content)).

Definition delete_file (path_uri : Path) : engine unit :=
  note_existing_path_delta_support path_uri;;
  r ← query (read_file_text path_uri follow);
  let deleted_content := match r with Ok c => Some c | Err _ => None end in
  (if deleted_content is None then not_exact else mret tt);;
  remove_checked path_uri (msg_delete path_uri) deleted_content;;
  match deleted_content with
  | Some content => push_change (mkChange path_uri (ChangeDelete content))
  | None => mret tt
  end.

Definition move_file (path_uri dest_uri : Path) (original_contents new_contents : rstr) : engine unit :=
  overwritten_move_content ← read_optional_file_text_for_delta dest_uri;
  try_write (write_file_with_missing_parent_retry dest_uri new_contents);;
  dest_write_change_index ← change_count;
  push_change (mkChange dest_uri (ChangeAdd new_contents overwritten_move_content));;
  remove_checked path_uri (msg_remove_original path_uri) (Some original_contents);;
  set_change dest_write_change_index
    (mkChange path_uri (ChangeUpdate (Some dest_uri) original_contents overwritten_move_content new_contents)).

Definition update_file (cwd path_uri : Path) (move_path : option rstr) (chunks : list UpdateFileChunk)
    : engine unit :=
  note_existing_path_delta_support path_uri;;
  r ← query (derive_new_contents_from_chunks path_uri chunks);
  '(original_contents, new_contents) ← lift_patch r;
  match move_path with
  | Some dest =>
      dest_uri ← lift_uri (path_join cwd dest);
      move_file path_uri dest_uri original_contents new_contents
  | None =>
      try_write (r ← effect (write_file path_uri new_contents follow); with_context (msg_write path_uri) r);;
      push_change (mkChange path_uri (ChangeUpdate None original_contents None new_contents))
  end.

Definition apply_hunk (cwd : Path) (h : Hunk) : engine unit :=
  path_uri ← lift_uri (resolve_path cwd h);
  match h with
  | AddFile _ contents => add_file path_uri contents
  | DeleteFile _ => delete_file path_uri
  | UpdateFile _ move_path chunks => update_file cwd path_uri move_path chunks
  end.

Fixpoint hunks_loop (cwd : Path) (hs : list Hunk) (a : AffectedPaths) : engine AffectedPaths :=
  match hs with
  | [] => mret a
  | h :: hs' => apply_hunk cwd h;; hunks_loop cwd hs' (affect h a)
  end.

Definition apply_hunks_to_files (hs : list Hunk) (cwd : Path) : engine AffectedPaths :=
  if is_empty hs then raise (AnyMessage ($"No files were modified."))
  else hunks_loop cwd hs affected_none.

(** ** Output *)

Context {W : Type} (writeln : W → rstr → W * result io_error unit).

(** [for path in paths { writeln!(out, "A {}", path)?; }]. *)
Fixpoint write_lines (ls : list rstr) (out : W) : W * result io_error unit :=
  match ls with
  | [] => (out, Ok tt)
  | l :: ls' =>
      match writeln out l with
      | (out', Ok _) => write_lines ls' out'
      | (out', Err e) => (out', Err e)
      end
  end.

Definition summary_lines (a : AffectedPaths) : list rstr :=
  $"Success. Updated the following files:"
  :: (app ($"A ") <$> added a) ++ (app ($"M ") <$> modified a) ++ (app ($"D ") <$> deleted a).

Definition print_summary (a : AffectedPaths) (out : W) : W * result io_error unit :=
  write_lines (summary_lines a) out.

Record World := mkWorld { fs_of : FS; stdout : W; stderr : W }.

Definition apply_hunks_with_options (hs : list Hunk) (cwd : Path) (w : World)
    : World * outcome ApplyPatchFailure AppliedPatchDelta :=
  let '((fs, delta), r) := apply_hunks_to_files hs cwd (fs_of w, delta_empty) in
  match r with
  | Done affected_paths =>
      let '(out, r) := print_summary affected_paths (stdout w) in
      (mkWorld fs out (stderr w),
       match r with
       | Ok _ => Done delta
       | Err error => Failed (mkFailure (from_io error) delta)
       end)
  | Failed error =>
      let msg := anyhow_display error in
      let '(err, r) := writeln (stderr w) msg in
      (mkWorld fs (stdout w) err,
       match r with
       | Err error => Failed (mkFailure (from_io error) delta)
       | Ok _ =>
           Failed (mkFailure match downcast_io error with
                             | Some io => from_io io
                             | None => ApplyIoError (mkIo msg (mkIoError OtherKind msg))
                             end delta)
       end)
  | Panic => (mkWorld fs (stdout w) (stderr w), Panic)
  end.

Definition invalid_patch_line (e : ParseError) : rstr :=
  match e with
  | InvalidPatchError message => $"Invalid patch: " ++ message
  | InvalidHunkError message line_number =>
      $"Invalid patch hunk on line " ++ fmt_nat line_number ++ $": " ++ message
  end.

Definition apply_patch_with_options (patch : rstr) (cwd : Path) (w : World)
    : World * outcome ApplyPatchFailure AppliedPatchDelta :=
  match parse_patch patch with
  | Ok source => apply_hunks_with_options (args_hunks source) cwd w
  | Err e =>
      let '(err, r) := writeln (stderr w) (invalid_patch_line e) in
      (mkWorld (fs_of w) (stdout w) err,
       match r with
       | Err error => Failed (without_delta (from_io error))
       | Ok _ => Failed (without_delta (ApplyParseError e))
       end)
  end.

End options.
End engine.

Arguments engine : clear implicits.
Arguments anyhow : clear implicits.
Arguments ApplyPatchError : clear implicits.
Arguments ApplyPatchFailure : clear implicits.
Arguments AppliedPatchDelta : clear implicits.
Arguments AppliedPatchChange : clear implicits.
Arguments AppliedPatchFileChange : clear implicits.
Arguments World : clear implicits.
