(* ===== verification/ApplyPatchFacts.v ===== *)
(** * Facts about the patch engine

    A program logic for the engine's monad ([triple]: a postcondition for
    normal results, one for failures, and no panic), the meaning of a delta
    as a transformation of the map from paths to contents ([replay] and
    [undo]), and the proof that an exact delta is the whole truth: it
    replays to the final state and undoes to the initial one, on success
    and on every error path. *)

From S2P Require Import Prelude RustStr SeekSequence PatchParser PatchParserFacts FileUpdate FileUpdateFacts.
From S2P Require Import FileSystem ApplyPatch.

(** ** The program logic *)

Section logic.
Context {FS Path UriError : Type}.
Implicit Types (fs : FS) (d : AppliedPatchDelta Path).
Abbreviation assertion := (FS → AppliedPatchDelta Path → Prop).

Definition triple {A} (P : assertion) (m : engine FS Path UriError A) (Q : A → assertion) (E : assertion)
    : Prop :=
  ∀ fs d, P fs d →
    match m (fs, d) with
    | ((fs', d'), Done a) => Q a fs' d'
    | ((fs', d'), Failed _) => E fs' d'
    | (_, Panic) => False
    end.

Lemma triple_bind {A B} P (m : engine FS Path UriError A) (k : A → engine FS Path UriError B) R Q E :
  triple P m R E → (∀ a, triple (R a) (k a) Q E) → triple P (m ≫= k) Q E.
Proof.
  intros Hm Hk fs d HP. specialize (Hm fs d HP). unfold mbind, engine_bind.
  destruct (m (fs, d)) as [[fs' d'] [a|e|]]; [by apply Hk|done..].
Qed.

Lemma triple_assoc {A B C} P (m : engine FS Path UriError A) (k : A → engine FS Path UriError B)
    (g : B → engine FS Path UriError C) Q E :
  triple P ((m ≫= k) ≫= g) Q E → triple P (m ≫= λ a, k a ≫= g) Q E.
Proof.
  intros Hm fs d HP. specialize (Hm fs d HP). unfold mbind, engine_bind in *.
  by destruct (m (fs, d)) as [s [a|e|]].
Qed.

Lemma triple_ret {A} (P : assertion) (a : A) (Q : A → assertion) (E : assertion) :
  (∀ fs d, P fs d → Q a fs d) → triple P (mret a : engine FS Path UriError A) Q E.
Proof. intros H fs d HP. by apply H. Qed.

Lemma triple_raise {A} (P : assertion) (e : anyhow UriError) (Q : A → assertion) (E : assertion) :
  (∀ fs d, P fs d → E fs d) → triple P (raise e : engine FS Path UriError A) Q E.
Proof. intros H fs d HP. by apply H. Qed.

Lemma triple_query {A} (P : assertion) (f : FS → A) (Q : A → assertion) (E : assertion) :
  (∀ fs d, P fs d → Q (f fs) fs d) → triple P (query f : engine FS Path UriError A) Q E.
Proof. intros H fs d HP. by apply H. Qed.

Lemma triple_effect {A} (P : assertion) (f : FS → FS * A) (Q : A → assertion) (E : assertion) :
  (∀ fs d fs' r, P fs d → f fs = (fs', r) → Q r fs' d) → triple P (effect f : engine FS Path UriError A) Q E.
Proof. intros H fs d HP. simpl. destruct (f fs) as [fs' r] eqn:Ef. by eapply H. Qed.

Lemma triple_modify (P : assertion) f (Q : unit → assertion) (E : assertion) :
  (∀ fs d, P fs d → Q tt fs (f d)) → triple P (modify_delta f : engine FS Path UriError unit) Q E.
Proof. intros H fs d HP. by apply H. Qed.

Lemma triple_try_write {A} P (m : engine FS Path UriError A) Q (E : assertion) :
  triple P m Q (λ _ _, True) → (∀ fs d, exact d = false → E fs d) → triple P (try_write m) Q E.
Proof.
  intros Hm HE fs d HP. specialize (Hm fs d HP). unfold try_write.
  destruct (m (fs, d)) as [[fs' d'] [a|e|]]; [done|by apply HE|done].
Qed.

Lemma triple_with_context {A} (P : assertion) ctx (r : result io_error A) (Q : A → assertion) (E : assertion) :
  (∀ a, r = Ok a → ∀ fs d, P fs d → Q a fs d) → (∀ e, r = Err e → ∀ fs d, P fs d → E fs d) →
  triple P (with_context ctx r : engine FS Path UriError A) Q E.
Proof. destruct r; intros HQ HE; [by apply triple_ret, HQ|by eapply triple_raise, HE]. Qed.

Lemma triple_conseq {A} (P P' : assertion) (m : engine FS Path UriError A) (Q Q' : A → assertion) (E E' : assertion) :
  triple P m Q E → (∀ fs d, P' fs d → P fs d) → (∀ a fs d, Q a fs d → Q' a fs d) →
  (∀ fs d, E fs d → E' fs d) → triple P' m Q' E'.
Proof.
  intros Hm HP HQ HE fs d H. specialize (Hm fs d (HP _ _ H)).
  destruct (m (fs, d)) as [[fs' d'] [a|e|]]; auto.
Qed.

(** Facts that do not depend on the state. *)
Lemma triple_pure {A} (φ : Prop) (P : assertion) (m : engine FS Path UriError A) Q E :
  (φ → triple P m Q E) → triple (λ fs d, φ ∧ P fs d) m Q E.
Proof. intros H fs d [Hφ HP]. by apply H. Qed.

End logic.

(** ** Exactness, once lost, is lost *)

Section mono.
Context {FS Path UriError : Type}.

Definition mono {A} (m : engine FS Path UriError A) : Prop :=
  ∀ s, exact s.2 = false → exact (m s).1.2 = false.

Lemma mono_bind {A B} (m : engine FS Path UriError A) (k : A → engine FS Path UriError B) :
  mono m → (∀ a, mono (k a)) → mono (m ≫= k).
Proof.
  intros Hm Hk s Hs. specialize (Hm s Hs). unfold mbind, engine_bind.
  destruct (m s) as [s' [a|e|]]; simpl in *; [by apply Hk|done..].
Qed.

Lemma mono_ret {A} (a : A) : mono (mret a).
Proof. by intros s Hs. Qed.
Lemma mono_raise {A} e : mono (raise e : engine FS Path UriError A).
Proof. by intros s Hs. Qed.
Lemma mono_query {A} (f : FS → A) : mono (query f).
Proof. by intros [fs d]. Qed.
Lemma mono_effect {A} (f : FS → FS * A) : mono (effect f).
Proof. intros [fs d]. simpl. by destruct (f fs). Qed.
Lemma mono_not_exact : mono not_exact.
Proof. by intros [fs d] _. Qed.
Lemma mono_and_exact b : mono (and_exact b).
Proof. intros [fs d]. simpl. by intros ->. Qed.
Lemma mono_push_change c : mono (push_change c).
Proof. by intros [fs d]. Qed.
Lemma mono_change_count : mono change_count.
Proof. by intros [fs d]. Qed.
Lemma mono_set_change i c : mono (set_change i c).
Proof. intros [fs d]. simpl. by case_decide. Qed.
Lemma mono_with_context {A} ctx (r : result io_error A) : mono (with_context ctx r).
Proof. destruct r; by intros s Hs. Qed.
Lemma mono_try_write {A} (m : engine FS Path UriError A) : mono m → mono (try_write m).
Proof.
  intros Hm s Hs. specialize (Hm s Hs). unfold try_write. by destruct (m s) as [[fs d] [a|e|]].
Qed.
Lemma mono_lift_uri r : mono (lift_uri r).
Proof. destruct r; by intros s Hs. Qed.
Lemma mono_lift_patch {A} (r : outcome _ A) : mono (lift_patch r).
Proof. destruct r; by intros s Hs. Qed.
End mono.

#[export] Hint Resolve mono_ret mono_raise mono_query mono_effect mono_not_exact mono_and_exact
  mono_push_change mono_change_count mono_set_change mono_with_context mono_lift_uri mono_lift_patch : codex.

(** Walk through a program, splitting its binds and branches. *)
Ltac solve_mono :=
  repeat first
    [ solve [auto with codex nocore]
    | apply mono_try_write
    | apply mono_bind; [|intros ?]
    | progress case_goal ].

Section mono_engine.
Context {FS Path UriError : Type} `{!ExecutorFileSystem FS Path, !PathOps Path UriError}.
Variable options : ApplyPatchOptions.

Lemma mono_note p : mono (note_existing_path_delta_support options p : engine FS Path UriError _).
Proof. unfold note_existing_path_delta_support. solve_mono. Qed.
Lemma mono_read_optional p : mono (read_optional_file_text_for_delta options p : engine FS Path UriError _).
Proof. unfold read_optional_file_text_for_delta. pose proof mono_note. solve_mono. Qed.
Lemma mono_write_retry p c : mono (write_file_with_missing_parent_retry options p c : engine FS Path UriError _).
Proof. unfold write_file_with_missing_parent_retry. solve_mono. Qed.
Lemma mono_remove_checked p c e : mono (remove_checked options p c e : engine FS Path UriError _).
Proof. unfold remove_checked. solve_mono. Qed.

Lemma mono_apply_hunk cwd h : mono (apply_hunk options cwd h : engine FS Path UriError _).
Proof.
  pose proof mono_note. pose proof mono_read_optional. pose proof mono_write_retry.
  pose proof mono_remove_checked.
  unfold apply_hunk, add_file, delete_file, update_file, move_file. solve_mono.
Qed.
End mono_engine.

(** ** The meaning of a delta *)

Section deltas.
Context `{Countable Path}.
Implicit Types (m : gmap Path rstr) (c : AppliedPatchChange Path).

Definition restore (p : Path) (o : option rstr) (m : gmap Path rstr) : gmap Path rstr :=
  partial_alter (λ _, o) p m.

Definition replay1 (m : gmap Path rstr) (c : AppliedPatchChange Path) : gmap Path rstr :=
  match change c with
  | ChangeAdd content _ => <[change_path c := content]> m
  | ChangeDelete _ => delete (change_path c) m
  | ChangeUpdate None _ _ new => <[change_path c := new]> m
  | ChangeUpdate (Some dest) _ _ new => delete (change_path c) (<[dest := new]> m)
  end.

Definition undo1 (c : AppliedPatchChange Path) (m : gmap Path rstr) : gmap Path rstr :=
  match change c with
  | ChangeAdd _ overwritten => restore (change_path c) overwritten m
  | ChangeDelete content => <[change_path c := content]> m
  | ChangeUpdate None old _ _ => <[change_path c := old]> m
  | ChangeUpdate (Some dest) old overwritten _ =>
      <[change_path c := old]> (restore dest overwritten m)
  end.

Definition replay (cs : list (AppliedPatchChange Path)) (m : gmap Path rstr) : gmap Path rstr :=
  foldl replay1 m cs.
Definition undo (cs : list (AppliedPatchChange Path)) (m : gmap Path rstr) : gmap Path rstr :=
  foldr undo1 m cs.

(** What a recorded change must say of the contents it was made on. *)
Definition change_fits (c : AppliedPatchChange Path) (m : gmap Path rstr) : Prop :=
  match change c with
  | ChangeAdd _ overwritten => m !! change_path c = overwritten
  | ChangeDelete content => m !! change_path c = Some content
  | ChangeUpdate None old _ _ => m !! change_path c = Some old
  | ChangeUpdate (Some dest) old overwritten _ =>
      m !! change_path c = Some old ∧ m !! dest = overwritten
  end.

(** The delta [cs] leads from [m0] to [m] and back. *)
Definition tracks (m0 : gmap Path rstr) (cs : list (AppliedPatchChange Path)) (m : gmap Path rstr) : Prop :=
  m = replay cs m0 ∧ undo cs m = m0.

Lemma undo1_replay1 c m : change_fits c m → undo1 c (replay1 m c) = m.
Proof.
  unfold change_fits, undo1, replay1, restore. destruct c as [p [x o|x|[q|] old o new]]; simpl; intros E;
    apply map_eq; intros i.
  - destruct (decide (i = p)) as [->|]; [by rewrite lookup_partial_alter_eq|].
    by rewrite lookup_partial_alter_ne, lookup_insert_ne.
  - destruct (decide (i = p)) as [->|]; by simplify_map_eq.
  - destruct E as [E1 E2]. destruct (decide (i = p)) as [->|]; [by simplify_map_eq|].
    rewrite lookup_insert_ne by done.
    destruct (decide (i = q)) as [->|]; [by rewrite lookup_partial_alter_eq|].
    rewrite lookup_partial_alter_ne by done. by simplify_map_eq.
  - destruct (decide (i = p)) as [->|]; by simplify_map_eq.
Qed.

Lemma tracks_nil m : tracks m [] m.
Proof. done. Qed.

Lemma tracks_push m0 cs m c : tracks m0 cs m → change_fits c m → tracks m0 (cs ++ [c]) (replay1 m c).
Proof.
  intros [E1 E2] Hc. unfold tracks, replay, undo. rewrite foldl_snoc, foldr_snoc.
  split; [f_equal; exact E1|]. by rewrite undo1_replay1.
Qed.

Lemma replay_app cs1 cs2 m : replay (cs1 ++ cs2) m = replay cs2 (replay cs1 m).
Proof. apply foldl_app. Qed.

Lemma undo_app cs1 cs2 m : undo (cs1 ++ cs2) m = undo cs1 (undo cs2 m).
Proof. apply foldr_app. Qed.

End deltas.

(** ** The engine keeps its delta truthful *)

Section engine_facts.
Context {FS Path UriError : Type}.
Context `{Countable Path, !ExecutorFileSystem FS Path, !PathOps Path UriError}.
Variable options : ApplyPatchOptions.
Variable contents : FS → gmap Path rstr.
Context `{Hlaws : !FileSystemLaws (follow_symlinks options) contents}.
Variable m0 : gmap Path rstr.
Abbreviation follow := (follow_symlinks options).
Abbreviation eng := (engine FS Path UriError).

(** An assertion that has to hold only while the delta is exact. *)
Definition if_exact (P : FS → list (AppliedPatchChange Path) → Prop) (fs : FS) (d : AppliedPatchDelta Path) : Prop :=
  exact d = true → P fs (changes d).

Definition truthful (fs : FS) (cs : list (AppliedPatchChange Path)) : Prop := tracks m0 cs (contents fs).

Lemma note_existing_triple (P : FS → list (AppliedPatchChange Path) → Prop) p E :
  triple (if_exact P) (note_existing_path_delta_support options p : eng _)
    (λ _, if_exact (λ fs cs, P fs cs ∧ plain follow p fs)) E.
Proof.
  unfold note_existing_path_delta_support.
  eapply triple_bind with (R := λ r fs d, if_exact P fs d ∧ r = get_metadata p follow fs).
  { apply triple_query. done. }
  intros [md|e].
  - destruct (is_file md && negb (is_symlink md)) eqn:Hmd.
    + apply triple_ret. intros fs d [HP E'] Hex. split; [by apply HP|].
      unfold plain. rewrite <- E'. by destruct (is_file md), (is_symlink md).
    + apply triple_modify. intros fs d _ Hex. discriminate.
  - case_decide.
    + apply triple_ret. intros fs d [HP E'] Hex. split; [by apply HP|]. unfold plain. by rewrite <- E'.
    + apply triple_modify. intros fs d _ Hex. discriminate.
Qed.

Lemma read_optional_triple (P : FS → list (AppliedPatchChange Path) → Prop) p E :
  triple (if_exact P) (read_optional_file_text_for_delta options p : eng _)
    (λ o, if_exact (λ fs cs, P fs cs ∧ plain follow p fs ∧ contents fs !! p = o)) E.
Proof.
  unfold read_optional_file_text_for_delta.
  eapply triple_bind; [apply note_existing_triple|]. intros [].
  eapply triple_bind with (R := λ r fs d,
    if_exact (λ fs cs, P fs cs ∧ plain follow p fs) fs d ∧ r = read_file_text p follow fs).
  { apply triple_query. done. }
  intros [c|e].
  - apply triple_ret. intros fs d [HP E'] Hex. destruct (HP Hex). repeat split; [done..|].
    by eapply read_ok.
  - case_decide.
    + apply triple_ret. intros fs d [HP E'] Hex. destruct (HP Hex). repeat split; [done..|].
      by eapply read_not_found.
    + eapply triple_bind with (R := λ _ _ d, exact d = false).
      { by apply triple_modify. }
      intros []. apply triple_ret. intros fs d Hd Hex. congruence.
Qed.

(** The contents, the changes so far, files known to be plain, and a fact
    that holds while the delta is exact. *)
Definition at_state (φ : Prop) (m : gmap Path rstr) (cs : list (AppliedPatchChange Path)) (S : Path → Prop)
    (fs : FS) (ks : list (AppliedPatchChange Path)) : Prop :=
  φ ∧ ks = cs ∧ contents fs = m ∧ ∀ q, S q → is_Some (m !! q) ∧ plain follow q fs.

(** The same after the file [p] was written. *)
Definition written (φ : Prop) (m : gmap Path rstr) (cs : list (AppliedPatchChange Path)) (S : Path → Prop)
    (p : Path) (c : rstr) (fs : FS) (ks : list (AppliedPatchChange Path)) : Prop :=
  φ ∧ ks = cs ∧ contents fs = <[p:=c]> m ∧ ∀ q, S q → plain follow q fs.

Lemma at_state_write φ m cs S fs ks p c fs' :
  at_state φ m cs S fs ks → plain follow p fs → write_file p c follow fs = (fs', Ok tt) →
  written φ m cs S p c fs' ks.
Proof.
  intros (? & -> & <- & HS) Hp Hw. split; [done|]. split; [done|]. split; [by eapply write_ok|].
  intros q [Hq ?]%HS. eapply file_stays_plain; eauto.
Qed.

(** An operation that left the contents alone. *)
Lemma at_state_same φ m cs S fs fs' ks :
  at_state φ m cs S fs ks → contents fs' = contents fs →
  (∀ q, is_Some (contents fs !! q) → plain follow q fs → plain follow q fs') → at_state φ m cs S fs' ks.
Proof.
  intros (Hφ & Hks & Hm & HS) Hc Hpl. split; [done|]. split; [done|]. split; [congruence|].
  intros q [? ?]%HS. split; [done|]. apply Hpl; [by rewrite Hm|done].
Qed.

(** A successful write, retried or not, changes exactly the file [p]; what
    the caller knows of other plain files stays known. *)
Lemma write_retry_triple φ p c m cs S :
  triple (if_exact (λ fs ks, at_state φ m cs S fs ks ∧ plain follow p fs))
    (write_file_with_missing_parent_retry options p c : eng _)
    (λ _, if_exact (written φ m cs S p c)) (λ _ _, True).
Proof.
  unfold write_file_with_missing_parent_retry.
  eapply triple_bind with (R := λ r, if_exact (λ fs ks,
    match r with
    | Ok _ => written φ m cs S p c fs ks
    | Err e => kind e = NotFound → at_state φ m cs S fs ks ∧ plain follow p fs
    end)).
  { apply triple_effect. intros fs d fs' r HP Hw Hex. destruct (HP Hex) as [Hat Hp].
    destruct r as [[]|e]; [by eapply at_state_write|]. intros Hnf.
    destruct (write_missing_parent _ _ _ _ _ Hw Hnf) as [Hc Hpl]. split; [|by apply Hpl].
    eapply at_state_same; eauto. intros. eapply file_stays_plain; eauto. }
  intros [[]|e]; [by apply triple_ret|].
  destruct (decide (kind e = NotFound)) as [Hnf|]; [|by apply triple_raise].
  eapply triple_bind with (R := λ _, if_exact (λ fs ks, at_state φ m cs S fs ks ∧ plain follow p fs)).
  { destruct (path_parent p) as [q|] eqn:Hpar; [|apply triple_ret; intros fs d HP Hex; by apply HP].
    eapply triple_bind with (R := λ _, if_exact (λ fs ks, at_state φ m cs S fs ks ∧ plain follow p fs));
      [|intros r; by apply triple_with_context].
    apply triple_effect. intros fs d fs' r HP Hcd Hex. destruct (HP Hex Hnf) as [Hat Hp].
    destruct (create_parent _ _ _ _ _ Hpar Hcd) as [Hc Hpl]. split; [|by apply Hpl].
    eapply at_state_same; eauto. intros. eapply (file_stays_plain _ _ c); eauto. }
  intros [].
  eapply triple_bind with (R := λ r, if_exact (λ fs ks,
    match r with Ok _ => written φ m cs S p c fs ks | Err e => True end));
    [|intros r; apply triple_with_context; [by intros [] ->|done]].
  apply triple_effect. intros fs d fs' r HP Hw Hex. destruct (HP Hex) as [Hat Hp].
  destruct r as [[]|e']; [by eapply at_state_write|done].
Qed.

(** Removal of a plain file; on failure the delta stays exact only if
    nothing happened.  The changes recorded so far are not touched. *)
Lemma remove_checked_triple φ p ctx expected m cs (F : list (AppliedPatchChange Path) → Prop) :
  triple (λ fs d, F (changes d) ∧
            if_exact (λ fs ks, φ ∧ ks = cs ∧ contents fs = m ∧ plain follow p fs) fs d)
    (remove_checked options p ctx expected : eng _)
    (λ _ fs d, F (changes d) ∧ if_exact (λ fs ks, φ ∧ ks = cs ∧ contents fs = delete p m) fs d)
    (if_exact (λ fs ks, φ ∧ ks = cs ∧ contents fs = m)).
Proof.
  unfold remove_checked. set (P := λ fs d, _ ∧ _).
  eapply triple_bind with (R := λ _, P); [by apply triple_query|]. intros r.
  eapply triple_bind with (R := λ _, P).
  { apply triple_with_context; [done|]. intros e _ fs d [_ HP] Hex.
    destruct (HP Hex) as (? & ? & ? & ?); done. }
  intros [].
  eapply triple_bind with (R := λ r fs d, F (changes d) ∧ if_exact (λ fs ks, φ ∧ ks = cs ∧
    match r with
    | Ok _ => contents fs = delete p m
    | Err _ => contents fs = m ∨ contents fs = delete p m
    end) fs d).
  { apply triple_effect. intros fs d fs' r' [HF HP] Hr. split; [done|]. intros Hex.
    destruct (HP Hex) as (? & ? & <- & ?). split; [done|]. split; [done|].
    destruct r' as [[]|e]; [by eapply remove_ok|by eapply remove_failed]. }
  intros [[]|e].
  { apply triple_ret. intros fs d [HF HP]. split; [done|]. intros Hex. by apply HP. }
  eapply triple_bind with (R := λ b, if_exact (λ fs ks, φ ∧ ks = cs ∧ (b = true → contents fs = m))).
  { apply triple_query. intros fs d [_ HP] Hex. destruct (HP Hex) as (? & ? & Hor).
    split; [done|]. split; [done|]. unfold remove_failure_was_side_effect_free.
    destruct expected as [x|]; [|done].
    destruct (read_file_text p follow fs) as [y|] eqn:Hread; [|done]. intros _.
    apply read_ok in Hread. destruct Hor as [?|Hd]; [done|]. rewrite Hd, lookup_delete_eq in Hread. done. }
  intros b. eapply triple_bind with (R := λ _, if_exact (λ fs ks, φ ∧ ks = cs ∧ contents fs = m)).
  { apply triple_modify. intros fs d HP. unfold if_exact; simpl.
    rewrite andb_true_iff. intros [Hex Hb]. destruct (HP Hex) as (? & ? & Hm). auto. }
  intros []. by apply triple_raise.
Qed.

(** *** The specification: hunks as partial functions on the contents *)

Definition spec_update (m : gmap Path rstr) (p : Path) (chunks : list UpdateFileChunk) : option rstr :=
  old ← m !! p;
  match derive_new_contents old (native p) chunks (update_file_mode options) with
  | Done new => Some new
  | _ => None
  end.

Definition spec_hunk (cwd : Path) (m : gmap Path rstr) (h : Hunk) : option (gmap Path rstr) :=
  match resolve_path cwd h with
  | Err _ => None
  | Ok p =>
      match h with
      | AddFile _ c => Some (<[p:=c]> m)
      | DeleteFile _ => _ ← m !! p; Some (delete p m)
      | UpdateFile _ None chunks => new ← spec_update m p chunks; Some (<[p:=new]> m)
      | UpdateFile _ (Some dest) chunks =>
          new ← spec_update m p chunks;
          match path_join cwd dest with Ok q => Some (delete p (<[q:=new]> m)) | Err _ => None end
      end
  end.

Definition spec_hunks (cwd : Path) (hs : list Hunk) (m : gmap Path rstr) : option (gmap Path rstr) :=
  foldl (λ o h, m ← o; spec_hunk cwd m h) (Some m) hs.

(** Recording the change that was made keeps the delta truthful. *)
Lemma push_change_triple ψ m cs c E :
  tracks m0 cs m →
  triple (if_exact (λ fs ks, (change_fits c m ∧ ψ) ∧ ks = cs ∧ contents fs = replay1 m c))
    (push_change c : eng _) (λ _, if_exact (λ fs ks, truthful fs ks ∧ ψ ∧ contents fs = replay1 m c)) E.
Proof.
  intros Ht. apply triple_modify. intros fs d HP Hex. destruct (HP Hex) as ([Hfit Hψ] & -> & Hc).
  unfold truthful. simpl. rewrite Hc. split; [by apply tracks_push|done].
Qed.

Lemma exact_false_error P (fs : FS) (d : AppliedPatchDelta Path) : exact d = false → if_exact P fs d.
Proof. intros Hd Hex. congruence. Qed.

(** A program that takes contents [m] to contents satisfying [R], and keeps
    the delta truthful on every path. *)
Definition runs (m : gmap Path rstr) {A} (prog : eng A) (R : gmap Path rstr → Prop) : Prop :=
  ∀ cs, tracks m0 cs m →
    triple (if_exact (λ fs ks, ks = cs ∧ contents fs = m)) prog
      (λ _, if_exact (λ fs ks, truthful fs ks ∧ R (contents fs))) (if_exact truthful).

Lemma add_file_runs m p c : runs m (add_file options p c) (λ m', m' = <[p:=c]> m).
Proof.
  intros cs Ht. unfold add_file.
  eapply triple_bind; [apply read_optional_triple|]. intros o.
  eapply triple_bind with (R := λ _, if_exact (written (m !! p = o) m cs (λ _, False) p c)).
  { eapply triple_conseq; [eapply triple_try_write;
      [apply (write_retry_triple (m !! p = o) p c m cs (λ _, False))|apply (exact_false_error truthful)]| |done..].
    intros fs d HP Hex. destruct (HP Hex) as ((-> & <-) & ? & ?). done. }
  intros []. eapply triple_conseq; [by apply (push_change_triple True)| | |done].
  - intros fs d HP Hex. destruct (HP Hex) as (? & ? & ? & _). done.
  - intros [] fs d HP Hex. destruct (HP Hex) as (? & _ & ?). done.
Qed.

Lemma delete_file_runs m p : runs m (delete_file options p) (λ m', is_Some (m !! p) ∧ m' = delete p m).
Proof.
  intros cs Ht. unfold delete_file.
  eapply triple_bind; [apply note_existing_triple|]. intros [].
  eapply triple_bind with (R := λ r, if_exact (λ fs ks, ks = cs ∧ contents fs = m ∧ plain follow p fs ∧
    match r with Ok c => m !! p = Some c | Err _ => True end)).
  { apply triple_query. intros fs d HP Hex. destruct (HP Hex) as ((-> & <-) & ?).
    repeat (split; [done|]). case_goal; [by eapply read_ok|done]. }
  intros r. set (o := match r with Ok c => Some c | Err _ => None end). set (φ := is_Some o ∧ m !! p = o).
  eapply triple_bind with (R := λ _, if_exact (λ fs ks, φ ∧ ks = cs ∧ contents fs = m ∧ plain follow p fs)).
  { destruct r as [c|e]; simpl; [|by apply triple_modify].
    apply triple_ret. intros fs d HP Hex. destruct (HP Hex) as (? & ? & ? & ?). subst φ o. eauto. }
  intros [].
  eapply triple_bind with (R := λ _, if_exact (λ fs ks, φ ∧ ks = cs ∧ contents fs = delete p m)).
  { eapply triple_conseq; [apply (remove_checked_triple φ p _ _ m cs (λ _, True))| |
      by intros ? ? ? [_ ?]|]; [done|].
    intros fs d HP Hex. destruct (HP Hex) as (? & -> & <-). done. }
  intros []. subst φ o. destruct r as [c|e].
  - eapply triple_conseq; [by apply (push_change_triple (is_Some (m !! p)))| |done..].
    intros fs d HP Hex. destruct (HP Hex) as ([_ Hp] & ? & ?). repeat split; [done|by rewrite Hp|done..].
  - apply triple_ret. intros fs d HP Hex. destruct (HP Hex) as ([[? ?] _] & _). done.
Qed.

(** The move: the destination is written and recorded, the source removed,
    and the record replaced by the rename. *)
Lemma move_file_triple ψ m cs p q old new :
  tracks m0 cs m →
  triple (if_exact (at_state (m !! p = Some old ∧ ψ) m cs (λ x, x = p)))
    (move_file options p q old new : eng _)
    (λ _, if_exact (λ fs ks, truthful fs ks ∧ ψ ∧ contents fs = delete p (<[q:=new]> m)))
    (if_exact truthful).
Proof.
  intros Ht. unfold move_file.
  eapply triple_bind; [apply read_optional_triple|]. intros o.
  set (φ := (m !! p = Some old ∧ ψ) ∧ m !! q = o).
  eapply triple_bind with (R := λ _, if_exact (written φ m cs (λ x, x = p) q new)).
  { eapply triple_conseq; [eapply triple_try_write;
      [apply (write_retry_triple φ q new m cs (λ x, x = p))|apply (exact_false_error truthful)]| |done..].
    intros fs d HP Hex. destruct (HP Hex) as ((? & -> & <- & ?) & ? & ?). done. }
  intros [].
  eapply triple_bind with (R := λ n fs d, n = length (changes d) ∧ if_exact (written φ m cs (λ x, x = p) q new) fs d).
  { by intros fs d HP. }
  intros n. set (c := mkChange q (ChangeAdd new o)).
  eapply triple_bind with (R := λ _ fs d, n < length (changes d) ∧
    if_exact (λ fs ks, (φ ∧ n = length cs) ∧ ks = cs ++ [c] ∧ contents fs = <[q:=new]> m ∧ plain follow p fs) fs d).
  { apply triple_modify. intros fs d [-> HP]. simpl. rewrite length_app. simpl. split; [lia|].
    intros Hex. destruct (HP Hex) as (? & -> & ? & Hp). simpl. auto. }
  intros [].
  eapply triple_bind.
  { eapply triple_conseq;
      [apply (remove_checked_triple (φ ∧ n = length cs) p _ _ (<[q:=new]> m) (cs ++ [c]) (λ ks, n < length ks))
      |done|intros a fs d Q; exact Q|].
    intros fs d HP Hex. destruct (HP Hex) as (([[? ?] Ho] & _) & -> & Hc). unfold truthful. rewrite Hc.
    apply (tracks_push m0 cs m c); done. }
  intros [] fs d [Hn HP]. unfold set_change. rewrite decide_True by done. intros Hex.
  destruct (HP Hex) as (([[Hp ?] Ho] & ->) & E & Hc). unfold truthful. simpl. rewrite E, Hc.
  rewrite insert_app_r_alt, Nat.sub_diag by lia. simpl.
  split; [|done]. apply (tracks_push m0 cs m (mkChange p (ChangeUpdate (Some q) old o new))); done.
Qed.

(** What is known once the new contents are derived. *)
Definition derived (m : gmap Path rstr) (cs : list (AppliedPatchChange Path)) (p : Path)
    (chunks : list UpdateFileChunk) (old new : rstr) : FS → list (AppliedPatchChange Path) → Prop :=
  at_state (m !! p = Some old ∧ spec_update m p chunks = Some new) m cs (λ x, x = p).

Lemma derive_triple m cs p chunks :
  Forall chunk_wf chunks → tracks m0 cs m →
  triple (if_exact (λ fs ks, (ks = cs ∧ contents fs = m) ∧ plain follow p fs))
    (r ← query (derive_new_contents_from_chunks options p chunks); lift_patch r : eng (rstr * rstr))
    (λ '(old, new), if_exact (derived m cs p chunks old new)) (if_exact truthful).
Proof.
  intros Hwf Ht.
  eapply triple_bind with (R := λ r fs d, r ≠ Panic ∧ if_exact truthful fs d ∧
    (∀ old new, r = Done (old, new) → if_exact (derived m cs p chunks old new) fs d)).
  { apply triple_query. intros fs d HP. unfold derive_new_contents_from_chunks.
    assert (if_exact truthful fs d) by (intros Hex; destruct (HP Hex) as [[-> <-] _]; done).
    destruct (read_file_text p follow fs) as [old|] eqn:Hr; [|done].
    split. { pose proof (derive_no_panic old (native p) chunks (update_file_mode options) Hwf). by case_goal. }
    split; [done|]. intros old' new. case_goal; [|done..]. intros [= <- <-] Hex.
    destruct (HP Hex) as ((-> & <-) & ?). apply read_ok in Hr. unfold derived, spec_update.
    rewrite Hr; simpl. rewrite E. repeat split; [done..| |]; subst; by rewrite ?Hr. }
  intros [[old new]|e|]; simpl.
  - apply triple_ret. intros fs d (_ & _ & Hd). by eapply Hd.
  - apply triple_raise. by intros fs d (_ & HP & _).
  - by intros fs d (? & _).
Qed.

Lemma update_file_runs m cwd p mv chunks :
  Forall chunk_wf chunks →
  runs m (update_file options cwd p mv chunks) (λ m', ∃ new, spec_update m p chunks = Some new ∧
    match mv with
    | None => m' = <[p:=new]> m
    | Some dest => ∃ q, path_join cwd dest = Ok q ∧ m' = delete p (<[q:=new]> m)
    end).
Proof.
  intros Hwf cs Ht. unfold update_file.
  eapply triple_bind; [apply note_existing_triple|]. intros [].
  apply triple_assoc. eapply triple_bind; [by apply derive_triple|]. intros [old new].
  destruct mv as [dest|].
  - set (P := if_exact (derived m cs p chunks old new)).
    eapply triple_bind with (R := λ q fs d, path_join cwd dest = Ok q ∧ P fs d).
    { destruct (path_join cwd dest); simpl; [by apply triple_ret|]. apply triple_raise.
      intros fs d HP Hex. destruct (HP Hex) as (_ & -> & <- & _). done. }
    intros q. apply triple_pure. intros Hq. eapply triple_conseq; [by apply move_file_triple|done| |done].
    intros [] fs d HP Hex. destruct (HP Hex) as (? & ? & ?). naive_solver.
  - set (W := written (m !! p = Some old ∧ spec_update m p chunks = Some new) m cs (λ x, x = p) p new).
    eapply triple_bind with (R := λ _, if_exact W).
    { eapply triple_try_write; [|apply (exact_false_error truthful)].
      eapply triple_bind with (R := λ r, if_exact (λ fs ks, match r with Ok _ => W fs ks | Err e => True end));
        [|intros r'; apply triple_with_context; [by intros [] ->|done]].
      apply triple_effect. intros fs d fs' r' HP Hw Hex. destruct r' as [[]|]; [|done].
      pose proof (HP Hex) as Hat. eapply at_state_write; eauto. by apply Hat. }
    intros []. eapply triple_conseq; [by apply (push_change_triple (spec_update m p chunks = Some new))| | |done].
    { intros fs d HP Hex. destruct (HP Hex) as (? & ? & ? & _). done. }
    intros [] fs d HP Hex. destruct (HP Hex) as (? & ? & ?). eauto.
Qed.

Lemma apply_hunk_runs m cwd h :
  hunk_complete h → runs m (apply_hunk options cwd h) (λ m', spec_hunk cwd m h = Some m').
Proof.
  intros Hh cs Ht. unfold apply_hunk, spec_hunk.
  eapply triple_bind with (R := λ p fs d, resolve_path cwd h = Ok p ∧ if_exact (λ fs ks, ks = cs ∧ contents fs = m) fs d).
  { destruct (resolve_path cwd h); simpl; [by apply triple_ret|]. apply triple_raise.
    intros fs d HP Hex. destruct (HP Hex) as [-> <-]. done. }
  intros p. apply triple_pure. intros ->.
  assert (∀ prog (R R' : gmap Path rstr → Prop), runs m prog R → (∀ m', R m' → R' m') →
    triple (if_exact (λ fs ks, ks = cs ∧ contents fs = m)) prog
      (λ _ : (), if_exact (λ fs ks, truthful fs ks ∧ R' (contents fs))) (if_exact truthful)) as weaken.
  { intros prog R R' Hr HR. eapply triple_conseq; [by apply Hr|done| |done].
    intros [] fs d HP Hex. destruct (HP Hex). auto. }
  destruct h as [path c|path|path mv chunks].
  - eapply (weaken _ _ (λ m', _ = Some m')); [apply add_file_runs|]. by intros m' ->.
  - eapply (weaken _ _ (λ m', _ = Some m')); [apply delete_file_runs|]. by intros m' [[? ->] ->].
  - eapply (weaken _ _ (λ m', _ = Some m')); [apply update_file_runs|].
    { destruct Hh as [_ Hall]. eapply Forall_impl; [exact Hall|]. by intros c [? _]. }
    intros m' (new & -> & Hm). destruct mv as [dest|]; simpl; [|by subst]. by destruct Hm as (q & -> & ->).
Qed.

(** From the initial contents [m0], the hunks [ks] are done. *)
Definition progress (cwd : Path) (ks : list Hunk) (fs : FS) (cs : list (AppliedPatchChange Path)) : Prop :=
  truthful fs cs ∧ spec_hunks cwd ks m0 = Some (contents fs).

Lemma spec_hunks_snoc cwd ks h m m' m'' :
  spec_hunks cwd ks m = Some m' → spec_hunk cwd m' h = Some m'' → spec_hunks cwd (ks ++ [h]) m = Some m''.
Proof. unfold spec_hunks. intros E E'. rewrite foldl_snoc, E. done. Qed.

Lemma apply_hunk_progress cwd ks h :
  hunk_complete h →
  triple (if_exact (progress cwd ks)) (apply_hunk options cwd h : eng _)
    (λ _, if_exact (progress cwd (ks ++ [h]))) (if_exact truthful).
Proof.
  intros Hh fs d HP. destruct (exact d) eqn:Hex.
  - destruct (HP Hex) as [Ht Hs].
    pose proof (apply_hunk_runs (contents fs) cwd h Hh (changes d) Ht fs d (λ _, conj eq_refl eq_refl)) as Hr.
    destruct (apply_hunk options cwd h (fs, d)) as [[fs' d'] [[]|e|]]; [|done..].
    intros Hex'. destruct (Hr Hex') as [? ?]. split; [done|]. by eapply spec_hunks_snoc.
  - pose proof (apply_hunk_runs m0 cwd h Hh [] (tracks_nil m0) fs d (exact_false_error _ fs d Hex)) as Hr.
    pose proof (mono_apply_hunk options cwd h (fs, d) Hex) as Hno.
    destruct (apply_hunk options cwd h (fs, d)) as [[fs' d'] [[]|e|]]; [by apply exact_false_error|done..].
Qed.

Lemma hunks_loop_progress cwd hs : ∀ ks a, Forall hunk_complete hs →
  triple (if_exact (progress cwd ks)) (hunks_loop options cwd hs a : eng _)
    (λ _, if_exact (progress cwd (ks ++ hs))) (if_exact truthful).
Proof.
  induction hs as [|h hs IH]; intros ks a Hall; simpl.
  { rewrite app_nil_r. by apply triple_ret. }
  inversion Hall; subst. eapply triple_bind; [by apply apply_hunk_progress|]. intros [].
  pose proof (IH (ks ++ [h]) (affect h a)) as IH'. rewrite <- app_assoc in IH'. by apply IH'.
Qed.

Lemma apply_hunks_progress cwd hs :
  Forall hunk_complete hs →
  triple (if_exact (progress cwd [])) (apply_hunks_to_files options hs cwd : eng _)
    (λ _, if_exact (progress cwd hs)) (if_exact truthful).
Proof.
  intros Hall. unfold apply_hunks_to_files. destruct (is_empty hs); [|by apply (hunks_loop_progress cwd hs [])].
  apply triple_raise. intros fs d HP Hex. by destruct (HP Hex).
Qed.

End engine_facts.

(** ** Properties of a whole patch application *)

Section properties.
Context {FS Path UriError W : Type}.
Context `{Countable Path, !ExecutorFileSystem FS Path, !PathOps Path UriError}.
Variable options : ApplyPatchOptions.
Variable contents : FS → gmap Path rstr.
Context `{Hlaws : !FileSystemLaws (follow_symlinks options) contents}.
Variable writeln : W → rstr → W * result io_error unit.

(** The delta a caller gets, in either case. *)
Definition reported_delta (r : outcome (ApplyPatchFailure Path UriError) (AppliedPatchDelta Path))
    : option (AppliedPatchDelta Path) :=
  match r with
  | Done d => Some d
  | Failed f => Some (failure_delta f)
  | Panic => None
  end.

Lemma apply_hunks_report hs cwd (w : World FS W) :
  Forall hunk_complete hs →
  let '(w', r) := apply_hunks_with_options options writeln hs cwd w in
  ∃ d, reported_delta r = Some d ∧
    (exact d = true → tracks (contents (fs_of w)) (changes d) (contents (fs_of w'))) ∧
    (∀ d', r = Done d' → exact d' = true →
       spec_hunks options cwd hs (contents (fs_of w)) = Some (contents (fs_of w'))).
Proof.
  intros Hall. unfold apply_hunks_with_options.
  pose proof (apply_hunks_progress options contents (contents (fs_of w)) cwd hs Hall
    (fs_of w) delta_empty (λ _, conj (tracks_nil _) eq_refl)) as Ht.
  destruct (apply_hunks_to_files options hs cwd (fs_of w, delta_empty)) as [[fs d] [a|e|]]; [..|done].
  - destruct (print_summary writeln a (stdout w)) as [out [[]|e]]; exists d; (split; [done|]);
      (split; [intros Hex; by apply Ht|]); [|done].
    intros ? [= <-] Hex. by apply Ht.
  - destruct (writeln (stderr w) (anyhow_display e)) as [err [[]|e']]; exists d; (split; [done|]);
      by (split; [intros Hex; by apply Ht|]).
Qed.

Lemma apply_patch_report patch cwd (w : World FS W) :
  let '(w', r) := apply_patch_with_options options writeln patch cwd w in
  ∃ d, reported_delta r = Some d ∧
    (exact d = true → tracks (contents (fs_of w)) (changes d) (contents (fs_of w'))) ∧
    (∀ d', r = Done d' → exact d' = true → ∃ args, parse_patch patch = Ok args ∧
       spec_hunks options cwd (args_hunks args) (contents (fs_of w)) = Some (contents (fs_of w'))).
Proof.
  unfold apply_patch_with_options. destruct (parse_patch patch) as [args|e] eqn:Hp.
  - pose proof (apply_hunks_report (args_hunks args) cwd w) as Hr.
    destruct (apply_hunks_with_options options writeln (args_hunks args) cwd w) as [w' r].
    destruct Hr as (d & ? & ? & Hs). { unfold parse_patch in Hp. by eapply parse_patch_text_complete. }
    exists d. split; [done|]. split; [done|]. intros d' Hd Hex. exists args. split; [done|]. by eapply Hs.
  - destruct (writeln (stderr w) (invalid_patch_line e)) as [err [[]|e']]; exists delta_empty;
      (split; [done|]); (split; [intros _; apply tracks_nil|done]).
Qed.

Lemma hunks_loop_affected hs cwd : ∀ a s s' a',
  hunks_loop options cwd hs a s = (s', Done a') → a' = foldl (flip affect) a hs.
Proof.
  induction hs as [|h hs IH]; intros a s s' a'; simpl; [by intros [= _ <-]|].
  unfold mbind, engine_bind. destruct (apply_hunk options cwd h s) as [s1 [[]|e|]]; [|done..]. apply IH.
Qed.

End properties.

(** The three lists of the summary, from the hunks. *)
Definition paths_added (hs : list Hunk) : list rstr :=
  omap (λ h, match h with AddFile p _ => Some p | _ => None end) hs.
Definition paths_modified (hs : list Hunk) : list rstr :=
  omap (λ h, match h with UpdateFile _ _ _ => Some (hunk_path h) | _ => None end) hs.
Definition paths_deleted (hs : list Hunk) : list rstr :=
  omap (λ h, match h with DeleteFile p => Some p | _ => None end) hs.

Lemma affect_all hs : ∀ a, foldl (flip affect) a hs =
  mkAffected (added a ++ paths_added hs) (modified a ++ paths_modified hs) (deleted a ++ paths_deleted hs).
Proof.
  induction hs as [|h hs IH]; intros a; simpl; [by destruct a; rewrite !app_nil_r|].
  rewrite IH. destruct h; simpl; by rewrite <- !app_assoc.
Qed.
