(* ===== verification/ApplyPatchProps.v ===== *)
(** * Properties of the patch engine

    The claims about [apply-patch/src]: each theorem is a consequence of the
    lemmas of the component files, followed by a concrete instance. *)

From S2P Require Import Prelude RustStr SeekSequence PatchParser PatchParserFacts PatchRoundTrip FileUpdate.
From S2P Require Import FileUpdate FileUpdateFacts FileSystem ApplyPatch ApplyPatchFacts.

(** ** A world to run examples in *)

(** An output stream that keeps its lines. *)
Definition log_writeln (w : list rstr) (l : rstr) : list rstr * result io_error unit := (w ++ [l], Ok tt).

Definition text_lines (ls : list rstr) : rstr := concat ((λ l, l ++ [LF]) <$> ls).

Definition demo_fs : MemFs :=
  mkMem {[ $"/w/a.txt" := text_lines [$"foo"; $"bar"; $"baz"]; $"/w/old.txt" := text_lines [$"x"] ]}
    [$"/w"] [].

Definition demo_world : World MemFs (list rstr) := mkWorld demo_fs [] [].

Definition demo_patch : rstr := render_patch None
  [ PAdd ($"dir/new.txt") [$"hello"];
    PUpdate ($"a.txt") None [mkDiffChunk None [Context ($"foo"); Removed ($"bar"); Added ($"BAR")] false];
    PUpdate ($"old.txt") (Some ($"moved.txt")) [mkDiffChunk None [Removed ($"x"); Added ($"y")] false] ].

(** ** The delta of a patch *)

(** C1: For every patch text and every outcome of its application (success,
    parse error, or a failure in any hunk), the engine does not panic and
    reports a delta; if that delta is exact, replaying its changes on the
    initial file contents gives the final contents, and undoing them in
    reverse order on the final contents restores the initial ones. *)
Theorem apply_patch_exact_delta {FS Path UriError W : Type} `{Countable Path, !ExecutorFileSystem FS Path,
    !PathOps Path UriError} (options : ApplyPatchOptions) (contents : FS → gmap Path rstr)
    (writeln : W → rstr → W * result io_error unit) (patch : rstr) (cwd : Path) (w : World FS W) :
  FileSystemLaws (follow_symlinks options) contents →
  let '(w', r) := apply_patch_with_options options writeln patch cwd w in
  ∃ d, reported_delta r = Some d ∧
    (exact d = true →
     contents (fs_of w') = replay (changes d) (contents (fs_of w)) ∧
     undo (changes d) (contents (fs_of w')) = contents (fs_of w)).
Proof.
  intros Hlaws. pose proof (apply_patch_report options contents writeln patch cwd w) as Hr.
  destruct (apply_patch_with_options options writeln patch cwd w) as [w' r].
  destruct Hr as (d & ? & ? & _). eauto.
Qed.

Lemma apply_patch_exact_delta_witness :
  (let '(w', r) := apply_patch_with_options default_options log_writeln demo_patch ($"/w") demo_world in
   ∃ d, reported_delta r = Some d ∧
     (exact d = true →
      files (fs_of w') = replay (changes d) (files demo_fs) ∧
      undo (changes d) (files (fs_of w')) = files demo_fs)) ∧
  (exact <$> reported_delta (apply_patch_with_options default_options log_writeln demo_patch ($"/w") demo_world).2)
  = Some true.
Proof.
  split; [|by vm_compute].
  apply (apply_patch_exact_delta default_options files log_writeln demo_patch ($"/w") demo_world). apply _.
Defined.

(** C2: A successful application with an exact delta implements the
    specification of patches as partial functions on file contents: the
    text parses, and adding, deleting, updating and renaming the files of
    its hunks one after the other takes the initial contents to the final
    ones and nothing else changes. *)
Theorem apply_patch_refines_spec {FS Path UriError W : Type} `{Countable Path, !ExecutorFileSystem FS Path,
    !PathOps Path UriError} (options : ApplyPatchOptions) (contents : FS → gmap Path rstr)
    (writeln : W → rstr → W * result io_error unit) (patch : rstr) (cwd : Path) (w w' : World FS W) d :
  FileSystemLaws (follow_symlinks options) contents →
  apply_patch_with_options options writeln patch cwd w = (w', Done d) → exact d = true →
  ∃ args, parse_patch patch = Ok args ∧
    spec_hunks options cwd (args_hunks args) (contents (fs_of w)) = Some (contents (fs_of w')).
Proof.
  intros Hlaws E Hex. pose proof (apply_patch_report options contents writeln patch cwd w) as Hr.
  rewrite E in Hr. destruct Hr as (? & _ & _ & Hs). by apply (Hs d).
Qed.

Definition demo_run := Eval vm_compute in
  apply_patch_with_options default_options log_writeln demo_patch ($"/w") demo_world.

Definition demo_delta : AppliedPatchDelta rstr :=
  match demo_run.2 with Done d => d | _ => delta_empty end.

Lemma apply_patch_refines_spec_witness :
  ∃ args, parse_patch demo_patch = Ok args ∧
    spec_hunks default_options ($"/w") (args_hunks args) (files demo_fs) = Some (files (fs_of demo_run.1)).
Proof.
  apply (apply_patch_refines_spec default_options files log_writeln demo_patch ($"/w") demo_world demo_run.1 demo_delta);
    [apply _|by vm_compute|by vm_compute].
Defined.

(** When every hunk succeeds, the summary lists exactly the paths of the
    patch, in patch order and in the category of their hunk, a rename under
    its destination. *)
Theorem apply_hunks_summary {FS Path UriError : Type} `{!ExecutorFileSystem FS Path, !PathOps Path UriError}
    (options : ApplyPatchOptions) (hs : list Hunk) (cwd : Path) s s' (a : AffectedPaths) :
  apply_hunks_to_files options hs cwd s = (s', Done a) →
  a = mkAffected (paths_added hs) (paths_modified hs) (paths_deleted hs).
Proof.
  unfold apply_hunks_to_files. destruct (is_empty hs); [done|].
  intros ->%hunks_loop_affected. by rewrite affect_all.
Qed.

Definition demo_hunks : list Hunk := Eval vm_compute in
  match parse_patch demo_patch with Ok args => args_hunks args | Err _ => [] end.

Lemma apply_hunks_summary_witness :
  ∃ s', apply_hunks_to_files default_options demo_hunks ($"/w") (demo_fs, delta_empty)
        = (s', Done (mkAffected [$"dir/new.txt"] [$"a.txt"; $"moved.txt"] [])).
Proof.
  destruct (apply_hunks_to_files default_options demo_hunks ($"/w") (demo_fs, delta_empty))
    as [s' [a|e|]] eqn:E; [|by vm_compute in E..].
  exists s'. by rewrite (apply_hunks_summary default_options demo_hunks ($"/w") _ s' a E).
Defined.

(** An update whose [*** Move to:] names the file itself removes it:
    after a successful application with an exact delta the path has no
    contents, although the new contents were just written there. *)
Theorem move_to_itself_loses_the_file {FS Path UriError : Type} `{Countable Path, !ExecutorFileSystem FS Path,
    !PathOps Path UriError} (options : ApplyPatchOptions) (contents : FS → gmap Path rstr)
    (path : rstr) (chunks : list UpdateFileChunk) (cwd p : Path) fs fs' d a :
  FileSystemLaws (follow_symlinks options) contents →
  path_join cwd path = Ok p → hunk_complete (UpdateFile path (Some path) chunks) →
  apply_hunks_to_files options [UpdateFile path (Some path) chunks] cwd (fs, delta_empty) = ((fs', d), Done a) →
  exact d = true → contents fs' !! p = None.
Proof.
  intros Hlaws Hj Hc E Hex.
  pose proof (apply_hunks_progress options contents (contents fs) cwd [UpdateFile path (Some path) chunks]
    (proj2 (Forall_singleton _ _) Hc) fs delta_empty (λ _, conj (tracks_nil _) eq_refl)) as Ht.
  rewrite E in Ht. destruct (Ht Hex) as [_ Hs]. revert Hs. unfold spec_hunks, spec_hunk, resolve_path. simpl.
  rewrite !Hj. destruct (spec_update _ _ _ _); simpl; [|done]. intros [= <-]. apply lookup_delete_eq.
Qed.

Definition self_move_chunks : list UpdateFileChunk := [mkChunk None [$"x"] [$"y"] [] false].

Definition self_move_run := Eval vm_compute in
  apply_hunks_to_files default_options [UpdateFile ($"old.txt") (Some ($"old.txt")) self_move_chunks] ($"/w")
    (demo_fs, delta_empty).

Lemma move_to_itself_loses_the_file_witness : files self_move_run.1.1 !! ($"/w/old.txt") = None.
Proof.
  eapply (move_to_itself_loses_the_file default_options files ($"old.txt") self_move_chunks ($"/w") ($"/w/old.txt")
    demo_fs self_move_run.1.1 self_move_run.1.2 (mkAffected [] [$"old.txt"] [])).
  - apply _.
  - reflexivity.
  - split; [done|]. constructor; [|constructor]. split; [split; constructor|by left].
  - by vm_compute.
  - by vm_compute.
Defined.

(** ** The patch grammar *)

(** C32: Reading back a printed patch: for every list of files to add, delete
    or update whose names, contexts and lines fit on a line of the format,
    with or without an environment id, parsing the text of the patch gives
    exactly its hunks (with the line indices of context lines), the
    environment id and the text itself. *)
Theorem parse_patch_of_rendered (env : option rstr) (files : list PatchFile) :
  (∀ e, env = Some e → env_ok e) → Forall file_ok files →
  parse_patch (render_patch env files)
  = Ok (mkArgs (render_patch env files) (hunk_of <$> files) None env).
Proof. apply parse_render. Qed.

Lemma field_ok_decidable s :
  negb (is_empty s) && bool_decide (LF ∉ s) && negb (is_some_and is_whitespace (last s)) = true → field_ok s.
Proof.
  rewrite !andb_true_iff, !negb_true_iff, bool_decide_eq_true. intros [[H1%is_empty_false ?] ?]. done.
Qed.

Lemma parse_patch_of_rendered_witness :
  parse_patch (render_patch (Some ($"remote")) [PUpdate ($"a b.txt") (Some ($"c.txt"))
    [mkDiffChunk (Some ($"fn main()")) [Context ($"foo"); Removed ($"bar"); Added []] true]])
  = Ok (mkArgs (render_patch (Some ($"remote")) [PUpdate ($"a b.txt") (Some ($"c.txt"))
          [mkDiffChunk (Some ($"fn main()")) [Context ($"foo"); Removed ($"bar"); Added []] true]])
       [UpdateFile ($"a b.txt") (Some ($"c.txt"))
          [mkChunk (Some ($"fn main()")) [$"foo"; $"bar"] [$"foo"; []] [(0, 0)] true]] None (Some ($"remote"))).
Proof.
  apply (parse_patch_of_rendered (Some ($"remote")) [PUpdate ($"a b.txt") (Some ($"c.txt"))
    [mkDiffChunk (Some ($"fn main()")) [Context ($"foo"); Removed ($"bar"); Added []] true]]).
  - intros e [= <-]. split; [by apply field_ok_decidable|done].
  - constructor; [|constructor]. split; [by apply field_ok_decidable|].
    split; [by intros m [= <-]; apply field_ok_decidable|]. split; [done|].
    constructor; [|constructor]. split; [by intros m [= <-]; apply field_ok_decidable|]. split; [done|].
    repeat constructor; by apply (bool_decide_unpack _).
Defined.

(** The streaming parser gives the same hunks, state and error for the
    same text however it is cut into deltas. *)
Theorem streaming_chunk_invariance (p : StreamingPatchParser) (pieces pieces' : list rstr) :
  concat pieces = concat pieces' → push_deltas p pieces = push_deltas p pieces'.
Proof. intros E. by rewrite !push_deltas_concat, E. Qed.

Lemma streaming_chunk_invariance_witness :
  push_deltas default_parser [$"*** Be"; $"gin Patch"; [LF]; $"*** Add "; $"File: a"; [LF; PLUS]; $"hi"; [LF]]
  = push_deltas default_parser [$"*** Begin Patch" ++ [LF] ++ $"*** Add File: a" ++ [LF; PLUS] ++ $"hi" ++ [LF]].
Proof. apply (streaming_chunk_invariance default_parser _ _). reflexivity. Defined.

(** The hunks of every parsed patch are complete: an update hunk has at
    least one chunk, each chunk has lines, and its recorded context pairs
    are strictly increasing positions of equal lines. *)
Theorem parsed_hunks_complete (patch : rstr) (args : ApplyPatchArgs) :
  parse_patch patch = Ok args → Forall hunk_complete (args_hunks args).
Proof. apply parse_patch_text_complete. Qed.

Lemma parsed_hunks_complete_witness : Forall hunk_complete demo_hunks.
Proof.
  apply (parsed_hunks_complete demo_patch (mkArgs demo_patch demo_hunks None None)). by vm_compute.
Defined.

(** ** Locating and replacing lines *)

(** [seek_sequence] never panics, and its answer is the best match: at
    the strictest of the four levels (exact, trailing white space ignored,
    surrounding white space ignored, punctuation normalised) at which the
    pattern occurs in the searched range, the first occurrence; [None] only
    if the pattern occurs at no level. *)
Theorem seek_sequence_best_match (lines pattern : list rstr) (start : nat) (eof : bool)
    (mode : ApplyPatchFileUpdateMode) :
  pattern ≠ [] →
  ∃ r, seek_sequence lines pattern start eof mode = Some r ∧
    scan_result lines pattern (search_start lines pattern start eof mode) r.
Proof. apply seek_sequence_scan. Qed.

Lemma seek_sequence_best_match_witness :
  scan_result [$"foo "; $"foo"] [$"foo"] 0 (Some 1).
Proof.
  destruct (seek_sequence_best_match [$"foo "; $"foo"] [$"foo"] 0 false NormalizeToLf) as (r & E & Hs); [done|].
  vm_compute in E. injection E as <-. exact Hs.
Defined.

(** The end-of-file search does not fall back to the start position:
    with the end-of-file flag, a pattern that occurs only before the end of
    the file is not found. *)
Theorem seek_eof_has_no_fallback (pre suf pattern : list rstr) :
  pattern ≠ [] → length pattern ≤ length suf →
  (∀ v, ¬ block_matches v (pre ++ pattern ++ suf) pattern (length (pre ++ suf))) →
  seek_sequence (pre ++ pattern ++ suf) pattern 0 true NormalizeToLf = Some None.
Proof.
  intros Hne Hle Hend.
  destruct (seek_sequence_scan (pre ++ pattern ++ suf) pattern 0 true NormalizeToLf Hne) as (r & -> & Hs).
  assert (search_start (pre ++ pattern ++ suf) pattern 0 true NormalizeToLf = length (pre ++ suf)) as Hlo.
  { unfold search_start. rewrite !length_app. rewrite (proj2 (Nat.leb_le _ _)) by lia. simpl. lia. }
  rewrite Hlo in Hs. destruct r as [i|]; [|done].
  destruct Hs as (v & H1 & H2 & Hm & _). exfalso. apply (Hend v).
  rewrite !length_app in H2. rewrite length_app in *. by replace (length pre + length suf) with i by lia.
Qed.

Lemma seek_eof_has_no_fallback_witness :
  seek_sequence [$"foo"; $"bar"; $"baz"] [$"foo"] 0 true NormalizeToLf = Some None.
Proof.
  apply (seek_eof_has_no_fallback [] [$"bar"; $"baz"] [$"foo"]); [done|simpl; lia|].
  intros v. apply (bool_decide_unpack _). by destruct v.
Defined.

(** The lines an update is computed on. *)
Definition update_lines (m : ApplyPatchFileUpdateMode) (contents : rstr) : list rstr :=
  match m with
  | NormalizeToLf => split_lines contents
  | PreserveLineEndings => line_texts (parse contents)
  end.

(** The text of a spliced file: joined by newlines with a final one, or
    with the endings of the kept lines and the preferred ending elsewhere. *)
Definition spliced_text (m : ApplyPatchFileUpdateMode) (contents : rstr) (reps : list Replacement) : rstr :=
  match m with
  | NormalizeToLf =>
      let new := splice 0 (split_lines contents) reps in
      join [LF] (if last_is_empty new then new else new ++ [[]])
  | PreserveLineEndings =>
      let f := parse contents in
      let pref := preferred_ending f in
      concat (line_contents <$>
        (fill_ending pref <$> splice 0 (sf_lines f) (map_segments (new_line pref) reps)))
  end.

(** When the chunks of an update are found, the replacements computed
    for them are in file order, disjoint and inside the file, and the new
    contents are the old lines with each replaced range substituted
    simultaneously; in the line-ending preserving mode a kept line keeps
    its ending.  (In the normalising mode this needs a file that does not
    end in an empty line and chunks without the end-of-file marker.) *)
Theorem derive_is_splice contents path chunks m new :
  Forall chunk_wf chunks → in_order m (update_lines m contents) chunks →
  derive_new_contents contents path chunks m = Done new →
  ∃ reps, compute_replacements (update_lines m contents) path chunks m = Done reps ∧
    chain 0 (length (update_lines m contents)) reps ∧ new = spliced_text m contents reps.
Proof.
  intros Hwf Hord. unfold derive_new_contents, spliced_text, update_lines in *.
  destruct m; destruct (compute_replacements _ _ _ _) as [reps|e|] eqn:E; simpl; try done.
  - pose proof (compute_replacements_chain _ _ _ _ _ Hwf Hord E) as Hc.
    rewrite apply_replacements_splice by done. simpl. intros [= <-]. eauto.
  - pose proof (compute_replacements_chain _ _ _ _ _ Hwf Hord E) as Hc.
    rewrite (sf_apply_replacements_splice _ _ _ Hc). simpl. intros [= <-]. eauto.
Qed.

Definition crlf (l : rstr) : rstr := l ++ [CR; LF].

Lemma derive_is_splice_witness :
  ∃ reps, compute_replacements [$"foo"; $"bar"] ($"a") [mkChunk None [$"bar"] [$"x"; $"y"] [] false]
            PreserveLineEndings = Done reps ∧
    chain 0 2 reps ∧
    crlf ($"foo") ++ crlf ($"x") ++ crlf ($"y")
    = spliced_text PreserveLineEndings (crlf ($"foo") ++ crlf ($"bar")) reps.
Proof.
  apply (derive_is_splice (crlf ($"foo") ++ crlf ($"bar")) ($"a") [mkChunk None [$"bar"] [$"x"; $"y"] [] false]
    PreserveLineEndings (crlf ($"foo") ++ crlf ($"x") ++ crlf ($"y"))).
  - constructor; [|constructor]. split; constructor.
  - done.
  - by vm_compute.
Defined.

(** No update panics: for chunks as the parser produces them, deriving
    the new contents of any file text in either mode returns a text or a
    message (slices, removals and insertions stay in range). *)
Theorem derive_never_panics patch args path mv chunks contents name m :
  parse_patch patch = Ok args → UpdateFile path mv chunks ∈ args_hunks args →
  (∃ new, derive_new_contents contents name chunks m = Done new) ∨
  (∃ msg, derive_new_contents contents name chunks m = Failed msg).
Proof.
  intros Hp Hin. apply parse_patch_text_complete in Hp. rewrite Forall_forall in Hp.
  destruct (Hp _ Hin) as [_ Hall].
  assert (Forall chunk_wf chunks) as Hwf by (eapply Forall_impl; [exact Hall|by intros ? [? _]]).
  pose proof (derive_no_panic contents name chunks m Hwf) as Hd.
  destruct (derive_new_contents contents name chunks m) as [new|msg|]; eauto. done.
Qed.

Lemma derive_never_panics_witness :
  let chunks := [mkChunk None [$"foo"; $"bar"] [$"foo"; $"BAR"] [(0, 0)] false] in
  (∃ new, derive_new_contents [] ($"empty") chunks NormalizeToLf = Done new) ∨
  (∃ msg, derive_new_contents [] ($"empty") chunks NormalizeToLf = Failed msg).
Proof.
  apply (derive_never_panics demo_patch (mkArgs demo_patch demo_hunks None None) ($"a.txt") None);
    [by vm_compute|by apply (list_elem_of_lookup_2 _ 1)].
Defined.

(** Skipping context lines is an optimisation only: where the context
    lines of a chunk equal the file's lines, the small replacements computed
    between them turn the matched block into the chunk's new lines, as
    replacing the whole block would. *)
Theorem context_lines_kept start pattern new ctx :
  StronglySorted pair_lt ctx →
  Forall (λ ij, ij.1 < length pattern → ij.2 < length new → context_equal pattern new ij) ctx →
  ∃ reps, context_replacements start pattern new ctx = Some reps ∧ splice start pattern reps = new.
Proof. apply context_replacements_splice. Qed.

Lemma context_lines_kept_witness :
  ∃ reps, context_replacements 7 [$"a"; $"b"; $"c"] [$"a"; $"x"; $"y"; $"c"] [(0, 0); (2, 3)] = Some reps ∧
    splice 7 [$"a"; $"b"; $"c"] reps = [$"a"; $"x"; $"y"; $"c"].
Proof.
  apply (context_lines_kept 7 [$"a"; $"b"; $"c"] [$"a"; $"x"; $"y"; $"c"] [(0, 0); (2, 3)]).
  - repeat constructor; unfold pair_lt; simpl; lia.
  - repeat constructor; unfold context_equal; done.
Defined.

(** Splitting a file into lines with their endings loses nothing: any
    mix of LF, CRLF and bare CR endings, with or without a final one, is
    written back unchanged, and no line text contains a terminator. *)
Theorem text_file_round_trip (contents : rstr) :
  into_contents (parse contents) = contents ∧
  Forall (λ l, (LF ∉ text l) ∧ (CR ∉ text l)) (sf_lines (parse contents)).
Proof. split; [apply parse_into_contents|apply parse_lines_ok]. Qed.

(** In the normalising mode a chunk marked as the end of the file may be
    located on lines an earlier chunk already replaced; the update succeeds
    and the text of the end-of-file chunk is silently lost.  The preserving
    mode reports the conflict. *)
Theorem eof_chunk_silently_lost :
  let chunks := [mkChunk None [$"b"] [$"first"] [] false; mkChunk None [$"b"] [$"second"] [] true] in
  derive_new_contents (text_lines [$"a"; $"b"]) ($"f") chunks NormalizeToLf
  = Done (text_lines [$"a"; $"first"]) ∧
  derive_new_contents (text_lines [$"a"; $"b"]) ($"f") chunks PreserveLineEndings
  = Failed (msg_lines_not_found ($"f") [$"b"]).
Proof. by vm_compute. Qed.
