(* ===== verification/Invocation.v ===== *)
(** * Recognising and verifying an [apply_patch] invocation

    Model of [apply-patch/src/invocation.rs] and of the preview functions of
    [apply-patch/src/file_update.rs]: which command lines are calls of
    [apply_patch], and the file changes a call would make, computed without
    making them.

    The Tree-sitter query over the Bash grammar and the text differ are
    libraries: [bash_query] gives the captures of each match of the query,
    in order, [text_diff] the unified diff of two texts.
    [infer_path_convention] belongs to the path library. *)

From S2P Require Import Prelude RustStr SeekSequence PatchParser FileUpdate FileSystem ApplyPatch.

Definition APPLY_PATCH_COMMANDS : list rstr := [$"apply_patch"; $"applypatch"].

Inductive ApplyPatchShell := Unix | PowerShell | Cmd.

Definition classify_shell_name (shell : rstr) (convention : PathConvention) : option rstr :=
  basename ← last (path_segments convention shell);
  let stem :=
    match rsplit_once DOT basename with
    | Some (stem, _) => if is_empty stem then basename else stem
    | None => basename
    end in
  Some (to_ascii_lowercase stem).

Definition classify_shell (shell flag : rstr) (convention : PathConvention) : option ApplyPatchShell :=
  name ← classify_shell_name shell convention;
  if bool_decide (name ∈ [$"bash"; $"zsh"; $"sh"]) && bool_decide (flag ∈ [$"-lc"; $"-c"]) then Some Unix
  else if bool_decide (name ∈ [$"pwsh"; $"powershell"]) && eq_ignore_ascii_case flag ($"-command")
  then Some PowerShell
  else if bool_decide (name = $"cmd") && eq_ignore_ascii_case flag ($"/c") then Some Cmd
  else None.

Definition can_skip_flag (shell flag : rstr) (convention : PathConvention) : bool :=
  is_some_and (λ name, bool_decide (name ∈ [$"pwsh"; $"powershell"]) && eq_ignore_ascii_case flag ($"-noprofile"))
    (classify_shell_name shell convention).

Inductive ExtractHeredocError :=
| CommandDidNotStartWithApplyPatch
| FailedToLoadBashGrammar
| HeredocNotUtf8
| FailedToParsePatchIntoAst
| FailedToFindHeredocBody.

#[global] Instance ExtractHeredocError_eq_dec : EqDecision ExtractHeredocError.
Proof. solve_decision. Defined.

Inductive MaybeApplyPatch :=
| Body (args : ApplyPatchArgs)
| ShellParseError (e : ExtractHeredocError)
| PatchParseError (e : ParseError)
| NotApplyPatch.

(** The captures of the query, by name; [CaptureOther] is any other name. *)
Inductive CaptureName := CapHeredoc | CapCdPath | CapCdRawString | CaptureOther.

Section parsing.
Context {Path : Type}.
(** The captured texts of each match; [None] is a text that is not UTF-8. *)
Variable bash_query : rstr → result ExtractHeredocError (list (list (CaptureName * option rstr))).
Variable infer_path_convention : Path → option PathConvention.

Definition parse_shell_script (argv : list rstr) (cwd : Path) : option (ApplyPatchShell * rstr) :=
  convention ← infer_path_convention cwd;
  match argv with
  | [shell; flag; script] => shell_type ← classify_shell shell flag convention; Some (shell_type, script)
  | [shell; skip_flag; flag; script] =>
      if negb (can_skip_flag shell skip_flag convention) then None
      else shell_type ← classify_shell shell flag convention; Some (shell_type, script)
  | _ => None
  end.

(** One capture of a match, on [(heredoc_text, cd_path)]. *)
Definition take_capture (acc : option rstr * option rstr) (cap : CaptureName * option rstr)
    : result ExtractHeredocError (option rstr * option rstr) :=
  let '(heredoc_text, cd_path) := acc in
  match cap with
  | (CaptureOther, _) => Ok acc
  | (_, None) => Err HeredocNotUtf8
  | (CapHeredoc, Some t) => Ok (Some (trim_end_matches (N.eqb LF) t), cd_path)
  | (CapCdPath, Some t) => Ok (heredoc_text, Some t)
  | (CapCdRawString, Some raw) =>
      let trimmed : option rstr := (s ← strip_prefix [QUOTE] raw; strip_suffix [QUOTE] s) in
      Ok (heredoc_text, Some (default raw trimmed))
  end.

Fixpoint take_captures (acc : option rstr * option rstr) (caps : list (CaptureName * option rstr))
    : result ExtractHeredocError (option rstr * option rstr) :=
  match caps with
  | [] => Ok acc
  | cap :: caps' => acc' ← take_capture acc cap; take_captures acc' caps'
  end.

Fixpoint first_heredoc (ms : list (list (CaptureName * option rstr)))
    : result ExtractHeredocError (rstr * option rstr) :=
  match ms with
  | [] => Err CommandDidNotStartWithApplyPatch
  | m :: ms' =>
      '(heredoc_text, cd_path) ← take_captures (None, None) m;
      match heredoc_text with
      | Some heredoc => Ok (heredoc, cd_path)
      | None => first_heredoc ms'
      end
  end.

Definition extract_apply_patch_from_bash (src : rstr) : result ExtractHeredocError (rstr * option rstr) :=
  ms ← bash_query src; first_heredoc ms.

Definition extract_apply_patch_from_shell (shell : ApplyPatchShell) (script : rstr)
    : result ExtractHeredocError (rstr * option rstr) :=
  match shell with
  | Unix | PowerShell | Cmd => extract_apply_patch_from_bash script
  end.

Definition set_workdir (w : option rstr) (a : ApplyPatchArgs) : ApplyPatchArgs :=
  mkArgs (args_patch a) (args_hunks a) w (args_environment_id a).

Definition parse_shell_form (argv : list rstr) (cwd : Path) : MaybeApplyPatch :=
  match parse_shell_script argv cwd with
  | Some (shell, script) =>
      match extract_apply_patch_from_shell shell script with
      | Ok (body, workdir) =>
          match parse_patch body with
          | Ok source => Body (set_workdir workdir source)
          | Err e => PatchParseError e
          end
      | Err CommandDidNotStartWithApplyPatch => NotApplyPatch
      | Err e => ShellParseError e
      end
  | None => NotApplyPatch
  end.

Definition maybe_parse_apply_patch (argv : list rstr) (cwd : Path) : MaybeApplyPatch :=
  match argv with
  | [cmd; body] =>
      if bool_decide (cmd ∈ APPLY_PATCH_COMMANDS) then
        match parse_patch body with Ok source => Body source | Err e => PatchParseError e end
      else parse_shell_form argv cwd
  | _ => parse_shell_form argv cwd
  end.

End parsing.

(** ** Verification *)

Section verification.
Context {FS Path UriError : Type}.
Context `{Countable Path, !ExecutorFileSystem FS Path, !PathOps Path UriError}.
Variable bash_query : rstr → result ExtractHeredocError (list (list (CaptureName * option rstr))).
Variable infer_path_convention : Path → option PathConvention.
(** [TextDiff::from_lines(a, b).unified_diff().context_radius(n)]. *)
Variable text_diff : nat → rstr → rstr → rstr.

Inductive ApplyPatchFileChange :=
| Add (content : rstr)
| Delete (content : rstr)
| Update (unified_diff : rstr) (move_path : option Path) (new_content : rstr).

Record ApplyPatchFileUpdate := mkFileUpdate {
  unified_diff_of : rstr;
  original_content : rstr;
  updated_content : rstr
}.

Record ApplyPatchAction := mkAction {
  action_changes : gmap Path ApplyPatchFileChange;
  action_update_file_mode : ApplyPatchFileUpdateMode;
  action_patch : rstr;
  action_cwd : Path
}.

Inductive MaybeApplyPatchVerified :=
| VerifiedBody (a : ApplyPatchAction)
| VerifiedShellParseError (e : ExtractHeredocError)
| CorrectnessError (e : ApplyPatchError UriError)
| VerifiedNotApplyPatch.

Definition unified_diff_from_chunks_with_context_and_mode (path : Path) (chunks : list UpdateFileChunk)
    (context : nat) (m : ApplyPatchFileUpdateMode) (fs : FS)
    : outcome (ApplyPatchError UriError) ApplyPatchFileUpdate :=
  '(original_contents, new_contents) ← derive_new_contents_from_chunks (mkOptions m true) path chunks fs;
  Done (mkFileUpdate (text_diff context original_contents new_contents) original_contents new_contents).

Definition unified_diff_from_chunks_with_mode path chunks m fs :=
  unified_diff_from_chunks_with_context_and_mode path chunks 1 m fs.

Definition of_result {E T} (r : result E T) : outcome E T :=
  match r with Ok t => Done t | Err e => Failed e end.

Definition join_uri (cwd : Path) (p : rstr) : outcome (ApplyPatchError UriError) Path :=
  of_result (map_err PathUriError (path_join cwd p)).

Definition msg_multiple (p : Path) : rstr := $"multiple operations target " ++ native p.

(** The change of one hunk. *)
Definition hunk_change (m : ApplyPatchFileUpdateMode) (fs : FS) (cwd path : Path) (h : Hunk)
    : outcome (ApplyPatchError UriError) ApplyPatchFileChange :=
  match h with
  | AddFile _ contents => Done (Add contents)
  | DeleteFile _ =>
      match read_file_text path true fs with
      | Ok content => Done (Delete content)
      | Err source => Failed (ApplyIoError (mkIo ($"Failed to read " ++ native path) source))
      end
  | UpdateFile _ move_path chunks =>
      u ← unified_diff_from_chunks_with_mode path chunks m fs;
      match move_path with
      | None => Done (Update (unified_diff_of u) None (updated_content u))
      | Some dest => q ← join_uri cwd dest; Done (Update (unified_diff_of u) (Some q) (updated_content u))
      end
  end.

Fixpoint verify_loop (m : ApplyPatchFileUpdateMode) (fs : FS) (cwd : Path) (hs : list Hunk)
    (changes : gmap Path ApplyPatchFileChange)
    : outcome (ApplyPatchError UriError) (gmap Path ApplyPatchFileChange) :=
  match hs with
  | [] => Done changes
  | h :: hs' =>
      path ← join_uri cwd (hunk_source_path h);
      if bool_decide (is_Some (changes !! path)) then
        Failed (ApplyParseError (InvalidPatchError (msg_multiple path)))
      else
        c ← hunk_change m fs cwd path h;
        verify_loop m fs cwd hs' (<[path:=c]> changes)
  end.

Definition effective_cwd (args : ApplyPatchArgs) (cwd : Path) : outcome (ApplyPatchError UriError) Path :=
  match args_workdir args with Some dir => join_uri cwd dir | None => Done cwd end.

Definition try_verify_apply_patch_args (args : ApplyPatchArgs) (cwd : Path) (m : ApplyPatchFileUpdateMode)
    (fs : FS) : outcome (ApplyPatchError UriError) ApplyPatchAction :=
  cwd' ← effective_cwd args cwd;
  changes ← verify_loop m fs cwd' (args_hunks args) ∅;
  Done (mkAction changes m (args_patch args) cwd').

Definition verify_apply_patch_args_with_mode (args : ApplyPatchArgs) (cwd : Path)
    (m : ApplyPatchFileUpdateMode) (fs : FS) : option MaybeApplyPatchVerified :=
  match try_verify_apply_patch_args args cwd m fs with
  | Done action => Some (VerifiedBody action)
  | Failed err => Some (CorrectnessError err)
  | Panic => None
  end.

Definition maybe_parse_apply_patch_verified_with_mode (argv : list rstr) (cwd : Path)
    (m : ApplyPatchFileUpdateMode) (fs : FS) : option MaybeApplyPatchVerified :=
  if match argv with [body] => is_ok (parse_patch body) | _ => false end
  then Some (CorrectnessError ImplicitInvocation)
  else if match parse_shell_script infer_path_convention argv cwd with
          | Some (_, script) => is_ok (parse_patch script)
          | None => false
          end
  then Some (CorrectnessError ImplicitInvocation)
  else
    match maybe_parse_apply_patch bash_query infer_path_convention argv cwd with
    | Body args => verify_apply_patch_args_with_mode args cwd m fs
    | ShellParseError e => Some (VerifiedShellParseError e)
    | PatchParseError e => Some (CorrectnessError (ApplyParseError e))
    | NotApplyPatch => Some VerifiedNotApplyPatch
    end.

End verification.

Arguments ApplyPatchFileChange : clear implicits.
Arguments ApplyPatchAction Path {_ _}.
Arguments MaybeApplyPatchVerified Path UriError {_ _}.
