(* ===== verification/InvocationFacts.v ===== *)
(** * Facts about verified invocations

    The changes shown for approval are the changes that will be made, as
    long as no rename targets a path another hunk works on; a rename that
    does is not detected.  A patch is applied only on an explicit call. *)

From S2P Require Import Prelude RustStr SeekSequence PatchParser PatchParserFacts PatchRoundTrip PatchReparse FileUpdate.
From S2P Require Import RustStr FileUpdateFacts FileSystem ApplyPatch ApplyPatchFacts ApplyPatchProps Invocation.

Section preview.
Context {FS Path UriError : Type}.
Context `{Countable Path, !ExecutorFileSystem FS Path, !PathOps Path UriError}.
Variable text_diff : nat → rstr → rstr → rstr.
Variable contents : FS → gmap Path rstr.
Context `{Hlaws : !FileSystemLaws true contents}.
Variable m : ApplyPatchFileUpdateMode.

(** The paths a hunk reads or writes. *)
Definition touched_hunk (cwd : Path) (h : Hunk) : list Path :=
  match resolve_path cwd h with
  | Err _ => []
  | Ok p =>
      p :: match h with
           | UpdateFile _ (Some dest) _ => match path_join cwd dest with Ok q => [q] | Err _ => [] end
           | _ => []
           end
  end.

Definition touched (cwd : Path) (hs : list Hunk) : list Path := concat (touched_hunk cwd <$> hs).

(** The final contents agree with the change shown for [p]. *)
Definition shows (c : ApplyPatchFileChange Path) (p : Path) (final : gmap Path rstr) : Prop :=
  match c with
  | Add content => final !! p = Some content
  | Delete _ => final !! p = None
  | Update _ None new => final !! p = Some new
  | Update _ (Some q) new => final !! p = None ∧ final !! q = Some new
  end.

Lemma join_uri_Done cwd s p : join_uri cwd s = Done p ↔ path_join cwd s = Ok p.
Proof. unfold join_uri. destruct (path_join cwd s); simpl; naive_solver. Qed.

Lemma hunk_change_spec fs cwd p h c cur :
  resolve_path cwd h = Ok p → hunk_change text_diff m fs cwd p h = Done c →
  (∀ q, q ∈ touched_hunk cwd h → cur !! q = contents fs !! q) → NoDup (touched_hunk cwd h) →
  ∃ cur', spec_hunk (mkOptions m true) cwd cur h = Some cur' ∧
    (∀ q, q ∉ touched_hunk cwd h → cur' !! q = cur !! q) ∧
    (∀ final, (∀ q, q ∈ touched_hunk cwd h → final !! q = cur' !! q) → shows c p final).
Proof.
  intros Hp Hc Hcur Hnd. unfold spec_hunk, touched_hunk in *. rewrite Hp in *.
  assert (cur !! p = contents fs !! p) as Hcp by (apply Hcur; left).
  destruct h as [path x|path|path mv chunks]; simpl in *.
  - injection Hc as <-. eexists. split; [done|]. split.
    + intros q Hq. rewrite lookup_insert_ne; [done|]. intros ->. apply Hq. left.
    + intros final Hf. simpl. rewrite Hf by left. apply lookup_insert_eq.
  - destruct (read_file_text p true fs) as [x|] eqn:Hr; [|done]. injection Hc as <-.
    apply read_ok in Hr. rewrite Hcp, Hr. simpl. eexists. split; [done|]. split.
    + intros q Hq. rewrite lookup_delete_ne; [done|]. intros ->. apply Hq. left.
    + intros final Hf. simpl. rewrite Hf by left. apply lookup_delete_eq.
  - unfold unified_diff_from_chunks_with_mode, unified_diff_from_chunks_with_context_and_mode,
      derive_new_contents_from_chunks in Hc. simpl in Hc.
    destruct (read_file_text p true fs) as [old|] eqn:Hr; [|done]. simpl in Hc. apply read_ok in Hr.
    unfold spec_update. rewrite Hcp, Hr. simpl.
    destruct (derive_new_contents old (native p) chunks m) as [new|e|]; [|done..]. simpl in Hc.
    destruct mv as [dest|]; simpl in Hc.
    + destruct (join_uri cwd dest) as [q|e|] eqn:Hq; [|done..]. injection Hc as <-.
      apply join_uri_Done in Hq. rewrite Hq in *. simpl. eexists. split; [done|].
      assert (p ≠ q). { intros ->. apply NoDup_cons in Hnd as [Hnd _]. apply Hnd. left. }
      split.
      * intros q' Hq'. rewrite lookup_delete_ne, lookup_insert_ne; [done|..]; intros ->; apply Hq';
          [right; left|left].
      * intros final Hf. simpl. rewrite !Hf by (left || (right; left)).
        split; [apply lookup_delete_eq|by rewrite lookup_delete_ne, lookup_insert_eq].
    + injection Hc as <-. eexists. split; [done|]. split.
      * intros q Hq. rewrite lookup_insert_ne; [done|]. intros ->. apply Hq. left.
      * intros final Hf. simpl. rewrite Hf by left. apply lookup_insert_eq.
Qed.

Lemma touched_hunk_source cwd h p : resolve_path cwd h = Ok p → p ∈ touched_hunk cwd h.
Proof. intros E. unfold touched_hunk. rewrite E. left. Qed.

Lemma verify_loop_spec fs cwd hs : ∀ changes0 changes cur,
  verify_loop text_diff m fs cwd hs changes0 = Done changes →
  (∀ q, q ∈ touched cwd hs → cur !! q = contents fs !! q) → NoDup (touched cwd hs) →
  ∃ final, spec_hunks (mkOptions m true) cwd hs cur = Some final ∧
    (∀ q, q ∉ touched cwd hs → final !! q = cur !! q) ∧
    (∀ p c, changes !! p = Some c → changes0 !! p = Some c ∨ shows c p final).
Proof.
  induction hs as [|h hs IH]; intros changes0 changes cur Hv Hcur Hnd.
  { simpl in Hv. injection Hv as <-. exists cur. split; [done|]. split; [done|]. by left. }
  simpl in Hv. destruct (join_uri cwd (hunk_source_path h)) as [p|e|] eqn:Hj; [|done..]. simpl in Hv.
  apply join_uri_Done in Hj. case_bool_decide; [done|].
  destruct (hunk_change text_diff m fs cwd p h) as [c|e|] eqn:Hc; [|done..]. simpl in Hv.
  unfold touched in *. rewrite fmap_cons in *. simpl in *. apply NoDup_app in Hnd as (Hnd1 & Hdisj & Hnd2).
  destruct (hunk_change_spec fs cwd p h c cur Hj Hc) as (cur' & Hs & Hout & Hshow);
    [intros q Hq; apply Hcur; apply elem_of_app; by left|done|].
  destruct (IH _ _ cur' Hv) as (final & Hfold & Hout' & Hshows); [|done|].
  { intros q Hq. rewrite Hout; [apply Hcur; apply elem_of_app; by right|]. intros Hq'. by eapply Hdisj. }
  exists final. split; [unfold spec_hunks in *; simpl; by rewrite Hs|]. split.
  - intros q Hq. rewrite elem_of_app in Hq. rewrite Hout', Hout; tauto.
  - intros p' c' Hp'. destruct (Hshows _ _ Hp') as [Hins|?]; [|by right].
    destruct (decide (p' = p)) as [->|]; [|left; by rewrite lookup_insert_ne in Hins].
    rewrite lookup_insert_eq in Hins. injection Hins as <-. right. apply Hshow.
    intros q Hq. apply Hout'. intros Hq'. by eapply Hdisj.
Qed.

End preview.

(** ** Properties *)

(** C3: What is shown is what is done.  A verified action carries the text of
    its patch, which is parsed again when it is applied.  If the patch text has
    no carriage return and verifies, and the paths its hunks read or write
    (rename destinations included) are pairwise distinct, then after any
    successful application of the action with an exact delta from the same
    state, every change shown for approval is what the file system contains,
    and no other file changed.  (With carriage returns the second reading can
    differ from the first, see [carriage_returns_are_lost].) *)
Theorem verified_preview_is_applied {FS Path UriError W : Type} `{Countable Path, !ExecutorFileSystem FS Path,
    !PathOps Path UriError} (text_diff : nat → rstr → rstr → rstr) (contents : FS → gmap Path rstr)
    (writeln : W → rstr → W * result io_error unit) (patch : rstr) args (cwd : Path)
    (m : ApplyPatchFileUpdateMode) action (w w' : World FS W) d :
  FileSystemLaws true contents →
  CR ∉ patch → parse_patch patch = Ok args →
  try_verify_apply_patch_args text_diff args cwd m (fs_of w) = Done action →
  NoDup (touched (action_cwd action) (args_hunks args)) →
  apply_patch_with_options (mkOptions (action_update_file_mode action) true) writeln (action_patch action) (action_cwd action) w
    = (w', Done d) →
  exact d = true →
  (∀ p c, action_changes action !! p = Some c → shows c p (contents (fs_of w'))) ∧
  (∀ p, p ∉ touched (action_cwd action) (args_hunks args) →
     contents (fs_of w') !! p = contents (fs_of w) !! p).
Proof.
  intros Hlaws Hcr Hp Hv Hnd Ha Hex. destruct (reparse patch args Hcr Hp) as (args1 & Hp1 & Hhs & _).
  pose proof (apply_patch_report (mkOptions (action_update_file_mode action) true) contents writeln (action_patch action) (action_cwd action) w) as Hr.
  rewrite Ha in Hr. destruct Hr as (_ & _ & _ & Hr). destruct (Hr d eq_refl Hex) as (args' & Hp' & Hs).
  unfold try_verify_apply_patch_args in Hv.
  destruct (effective_cwd args cwd) as [cwd'|e|]; [|done..]. simpl in Hv.
  destruct (verify_loop text_diff m (fs_of w) cwd' (args_hunks args) ∅) as [changes|e|] eqn:Hl; [|done..].
  injection Hv as <-. simpl in *. rewrite Hp1 in Hp'. injection Hp' as <-. rewrite Hhs in Hs.
  destruct (verify_loop_spec text_diff contents m _ _ _ _ _ (contents (fs_of w)) Hl) as (final & Hf & Hout & Hsh);
    [done|done|].
  rewrite Hs in Hf. injection Hf as ->. split; [|done].
  intros p c Hpc. destruct (Hsh _ _ Hpc) as [Hn|?]; [by rewrite lookup_empty in Hn|done].
Qed.

Definition no_diff (_ : nat) (_ _ : rstr) : rstr := [].

Definition demo_args : ApplyPatchArgs := mkArgs demo_patch demo_hunks None None.

Definition demo_action : ApplyPatchAction rstr := Eval vm_compute in
  match try_verify_apply_patch_args (UriError:=rstr) no_diff demo_args ($"/w") NormalizeToLf demo_fs with
  | Done a => a
  | _ => mkAction ∅ NormalizeToLf [] []
  end.

Lemma verified_preview_is_applied_witness :
  (∀ p c, action_changes demo_action !! p = Some c → shows c p (files (fs_of demo_run.1))) ∧
  (∀ p, p ∉ touched ($"/w") demo_hunks → files (fs_of demo_run.1) !! p = files demo_fs !! p).
Proof.
  apply (verified_preview_is_applied no_diff files log_writeln demo_patch demo_args ($"/w") NormalizeToLf
    demo_action demo_world demo_run.1 demo_delta); [apply _| |by vm_compute|by vm_compute| |by vm_compute|by vm_compute].
  all: by apply (bool_decide_unpack _); vm_compute.
Defined.

(** A rename onto a file that a later hunk updates. *)
Definition collision_patch : rstr := render_patch None
  [ PUpdate ($"old.txt") (Some ($"a.txt")) [mkDiffChunk None [Removed ($"x"); Added ($"bar")] false];
    PUpdate ($"a.txt") None [mkDiffChunk None [Removed ($"bar"); Added ($"BAR")] false] ].

Definition collision_args : ApplyPatchArgs := Eval vm_compute in
  match parse_patch collision_patch with Ok a => a | Err _ => mkArgs [] [] None None end.

(** A rename onto a path that another hunk updates is not rejected: the
    patch verifies, the change shown for that path is computed from its old
    contents, and a successful application leaves other contents there. *)
Theorem rename_collision_undetected :
  ∃ action w' d c,
    try_verify_apply_patch_args (UriError:=rstr) no_diff collision_args ($"/w") NormalizeToLf demo_fs = Done action ∧
    apply_patch_with_options default_options log_writeln collision_patch ($"/w") demo_world = (w', Done d) ∧
    exact d = true ∧
    action_changes action !! ($"/w/a.txt") = Some c ∧
    shows c ($"/w/a.txt") {[ $"/w/a.txt" := text_lines [$"foo"; $"BAR"; $"baz"] ]} ∧
    files (fs_of w') !! ($"/w/a.txt") = Some (text_lines [$"BAR"]).
Proof. do 4 eexists. repeat (split; [by vm_compute|]). by vm_compute. Qed.

(** A patch is only ever accepted from an explicit call: if the
    verification of a command line ends in a set of changes, the command is
    [apply_patch] (or [applypatch]) with the patch as its argument, or a
    recognised shell whose script is not itself a patch and contains the
    call with a heredoc from which the patch was taken. *)
Theorem applied_only_when_called {FS Path UriError : Type} `{Countable Path, !ExecutorFileSystem FS Path,
    !PathOps Path UriError} bash_query (infer_path_convention : Path → option PathConvention) text_diff
    (argv : list rstr) (cwd : Path) (m : ApplyPatchFileUpdateMode) (fs : FS) action :
  maybe_parse_apply_patch_verified_with_mode (UriError:=UriError) bash_query infer_path_convention text_diff
    argv cwd m fs = Some (VerifiedBody action) →
  ∃ args, try_verify_apply_patch_args (UriError:=UriError) text_diff args cwd m fs = Done action ∧
    ((∃ cmd body, argv = [cmd; body] ∧ cmd ∈ APPLY_PATCH_COMMANDS ∧ parse_patch body = Ok args) ∨
     (∃ shell script body workdir args', parse_shell_script infer_path_convention argv cwd = Some (shell, script) ∧
        is_ok (parse_patch script) = false ∧ extract_apply_patch_from_bash bash_query script = Ok (body, workdir) ∧
        parse_patch body = Ok args' ∧ args = set_workdir workdir args')).
Proof.
  unfold maybe_parse_apply_patch_verified_with_mode.
  match goal with |- (if ?b then _ else _) = _ → _ => destruct b; [done|] end.
  match goal with |- (if ?b then _ else _) = _ → _ => destruct b eqn:Himp; [done|] end.
  destruct (maybe_parse_apply_patch bash_query infer_path_convention argv cwd) as [args| | |] eqn:Hp; [|done..].
  unfold verify_apply_patch_args_with_mode. intros Hv. exists args.
  destruct (try_verify_apply_patch_args text_diff args cwd m fs) as [a|e|]; [|done..].
  injection Hv as ->. split; [done|].
  assert (parse_shell_form bash_query infer_path_convention argv cwd = Body args ∨
    ∃ cmd body, argv = [cmd; body] ∧ cmd ∈ APPLY_PATCH_COMMANDS ∧ parse_patch body = Ok args) as [Hs|?]; [| |by left].
  { unfold maybe_parse_apply_patch in Hp.
    destruct argv as [|cmd [|body [|? ?]]]; [by left..| |by left].
    case_bool_decide; [|by left]. destruct (parse_patch body) eqn:E; [|done]. injection Hp as ->. eauto 10. }
  right. unfold parse_shell_form in Hs.
  destruct (parse_shell_script infer_path_convention argv cwd) as [[shell script]|]; [|done].
  destruct (extract_apply_patch_from_shell bash_query shell script) as [[body workdir]|[]] eqn:Ex; try done.
  destruct (parse_patch body) as [args'|] eqn:Eb; [|done]. injection Hs as <-.
  exists shell, script, body, workdir, args'. repeat split; try done. by destruct shell.
Qed.

Lemma applied_only_when_called_witness :
  ∃ args, try_verify_apply_patch_args (UriError:=rstr) no_diff args ($"/w") NormalizeToLf demo_fs = Done demo_action ∧
    ((∃ cmd body, [$"apply_patch"; demo_patch] = [cmd; body] ∧ cmd ∈ APPLY_PATCH_COMMANDS ∧ parse_patch body = Ok args) ∨
     (∃ shell script body workdir args',
        parse_shell_script (λ _ : rstr, Some Posix) [$"apply_patch"; demo_patch] ($"/w") = Some (shell, script) ∧
        is_ok (parse_patch script) = false ∧
        extract_apply_patch_from_bash (λ _, Ok []) script = Ok (body, workdir) ∧
        parse_patch body = Ok args' ∧ args = set_workdir workdir args')).
Proof.
  apply (applied_only_when_called (λ _, Ok []) (λ _, Some Posix) no_diff [$"apply_patch"; demo_patch] ($"/w")
    NormalizeToLf demo_fs demo_action). by vm_compute.
Defined.
