(* ===== verification/ExecPolicy.v ===== *)
(** * Execution policy: rules and their evaluation

    Model of [execpolicy/src/decision.rs], [rule.rs], [executable_name.rs]
    and [policy.rs]: prefix rules over command lines, network rules, and the
    decision a policy takes on a command.

    The only implementation of the trait [Rule] is [PrefixRule].  A
    [MultiMap] is a map to non-empty lists in insertion order.  Absolute
    paths belong to a library: [try_from] parses one and [file_name] is its
    last component. *)

From S2P Require Import Prelude RustStr.

(** ** Decisions *)

Inductive Decision := Allow | Prompt | Forbidden.

#[global] Instance Decision_eq_dec : EqDecision Decision.
Proof. solve_decision. Defined.

(** The derived order: [Allow < Prompt < Forbidden]. *)
Definition decision_rank (d : Decision) : nat :=
  match d with Allow => 0 | Prompt => 1 | Forbidden => 2 end.
Definition decision_le (a b : Decision) : Prop := decision_rank a ≤ decision_rank b.
Definition decision_max (a b : Decision) : Decision :=
  if decide (decision_rank a ≤ decision_rank b) then b else a.

Inductive ErrorLocation := mkLocation (path : rstr) (start_line start_column end_line end_column : nat).

(** [error.rs]; a Starlark error is its message. *)
Inductive Error :=
| InvalidDecision (m : rstr)
| InvalidPattern (m : rstr)
| InvalidExample (m : rstr)
| InvalidRule (m : rstr)
| ExampleDidNotMatch (rules examples : list rstr) (location : option ErrorLocation)
| ExampleDidMatch (rule example : rstr) (location : option ErrorLocation)
| StarlarkError (m : rstr).

Definition with_location (e : Error) (location : ErrorLocation) : Error :=
  match e with
  | ExampleDidNotMatch rules examples None => ExampleDidNotMatch rules examples (Some location)
  | ExampleDidMatch rule example None => ExampleDidMatch rule example (Some location)
  | other => other
  end.

Definition decision_parse (raw : rstr) : result Error Decision :=
  if decide (raw = $"allow") then Ok Allow
  else if decide (raw = $"prompt") then Ok Prompt
  else if decide (raw = $"forbidden") then Ok Forbidden
  else Err (InvalidDecision raw).

(** ** Prefix rules *)

Inductive PatternToken :=
| Single (expected : rstr)
| Alts (alternatives : list rstr).

Definition token_matches (t : PatternToken) (token : rstr) : bool :=
  match t with
  | Single expected => bool_decide (expected = token)
  | Alts alternatives => existsb (λ alt, bool_decide (alt = token)) alternatives
  end.

Definition alternatives (t : PatternToken) : list rstr :=
  match t with Single expected => [expected] | Alts alts => alts end.

Record PrefixPattern := mkPattern { first : rstr; rest : list PatternToken }.

(** The loop over [self.rest.iter().zip(&cmd[1..pattern_length])]. *)
Fixpoint rest_matches (ts : list PatternToken) (tokens : list rstr) : bool :=
  match ts, tokens with
  | t :: ts', tok :: tokens' => token_matches t tok && rest_matches ts' tokens'
  | _, _ => true
  end.

Definition matches_prefix (p : PrefixPattern) (cmd : list rstr) : option (list rstr) :=
  let pattern_length := length (rest p) + 1 in
  match cmd with
  | [] => None
  | c :: tail =>
      if (length cmd <? pattern_length) || negb (bool_decide (c = first p)) then None
      else if rest_matches (rest p) (take (length (rest p)) tail) then Some (take pattern_length cmd)
      else None
  end.

Record PrefixRule := mkRule {
  pattern : PrefixPattern;
  rule_decision : Decision;
  justification : option rstr
}.

Section paths.
Context {AbsPath : Type}.

Inductive RuleMatch :=
| PrefixRuleMatch (matched_prefix : list rstr) (d : Decision) (resolved_program : option AbsPath)
    (just : option rstr)
| HeuristicsRuleMatch (command : list rstr) (d : Decision).

Definition match_decision (m : RuleMatch) : Decision :=
  match m with PrefixRuleMatch _ d _ _ => d | HeuristicsRuleMatch _ d => d end.

Definition with_resolved_program (m : RuleMatch) (program : AbsPath) : RuleMatch :=
  match m with
  | PrefixRuleMatch prefix d _ just => PrefixRuleMatch prefix d (Some program) just
  | other => other
  end.

(** [impl Rule for PrefixRule]. *)
Definition rule_program (r : PrefixRule) : rstr := first (pattern r).
Definition rule_matches (r : PrefixRule) (cmd : list rstr) : option RuleMatch :=
  prefix ← matches_prefix (pattern r) cmd;
  Some (PrefixRuleMatch prefix (rule_decision r) None (justification r)).

End paths.
Arguments RuleMatch : clear implicits.

(** ** Network rules *)

Inductive NetworkRuleProtocol := Http | Https | Socks5Tcp | Socks5Udp.

#[global] Instance NetworkRuleProtocol_eq_dec : EqDecision NetworkRuleProtocol.
Proof. solve_decision. Defined.

Definition protocol_parse (raw : rstr) : result Error NetworkRuleProtocol :=
  if decide (raw = $"http") then Ok Http
  else if decide (raw ∈ [$"https"; $"https_connect"; $"http-connect"]) then Ok Https
  else if decide (raw = $"socks5_tcp") then Ok Socks5Tcp
  else if decide (raw = $"socks5_udp") then Ok Socks5Udp
  else Err (InvalidRule ($"network_rule protocol must be one of http, https, socks5_tcp, socks5_udp (got "
                         ++ raw ++ $")")).

Definition as_policy_string (p : NetworkRuleProtocol) : rstr :=
  match p with
  | Http => $"http"
  | Https => $"https"
  | Socks5Tcp => $"socks5_tcp"
  | Socks5Udp => $"socks5_udp"
  end.

Record NetworkRule := mkNetworkRule {
  host : rstr;
  protocol : NetworkRuleProtocol;
  network_decision : Decision;
  network_justification : option rstr
}.

Definition COLON : char := 58%N.
Definition STAR : char := 42%N.
Definition FULL_STOP : char := 46%N.

Definition all_digits (s : rstr) : bool := forallb is_ascii_digit s.

(** [host.matches(':').count()]. *)
Definition count_char (c : char) (s : rstr) : nat := length (filter (λ x, x = c) s).

Definition msg_host_empty := $"network_rule host cannot be empty".
Definition msg_host_not_hostname :=
  $"network_rule host must be a hostname or IP literal (without scheme or path)".
Definition msg_host_brackets := $"network_rule host has an invalid bracketed IPv6 literal".
Definition msg_host_suffix (raw : rstr) := $"network_rule host contains an unsupported suffix: " ++ raw.
Definition msg_host_wildcard := $"network_rule host must be a specific host; wildcards are not allowed".
Definition msg_host_whitespace := $"network_rule host cannot contain whitespace".

(** The host without brackets and port. *)
Definition strip_host_port (raw h : rstr) : result Error rstr :=
  match strip_prefix ($"[") h with
  | Some stripped =>
      match split_once ($"]") stripped with
      | None => Err (InvalidRule msg_host_brackets)
      | Some (inside, rest) =>
          let port_ok :=
            is_some_and (λ port, negb (is_empty port) && all_digits port) (strip_prefix [COLON] rest) in
          if negb (is_empty rest) && negb port_ok then Err (InvalidRule (msg_host_suffix raw)) else Ok inside
      end
  | None =>
      if count_char COLON h =? 1 then
        match rsplit_once COLON h with
        | Some (candidate, port) =>
            if negb (is_empty candidate) && negb (is_empty port) && all_digits port then Ok candidate else Ok h
        | None => Ok h
        end
      else Ok h
  end.

Definition normalize_network_rule_host (raw : rstr) : result Error rstr :=
  let h := trim raw in
  if is_empty h then Err (InvalidRule msg_host_empty)
  else if contains ($"://") h || contains ($"/") h || contains ($"?") h || contains ($"#") h
  then Err (InvalidRule msg_host_not_hostname)
  else
    h' ← strip_host_port raw h;
    let normalized := to_ascii_lowercase (trim (trim_end_matches (N.eqb FULL_STOP) h')) in
    if is_empty normalized then Err (InvalidRule msg_host_empty)
    else if contains [STAR] normalized then Err (InvalidRule msg_host_wildcard)
    else if existsb is_whitespace normalized then Err (InvalidRule msg_host_whitespace)
    else Ok normalized.

(** ** Executable names *)

Definition WINDOWS_EXECUTABLE_SUFFIXES : list rstr := [$".exe"; $".cmd"; $".bat"; $".com"].

Fixpoint strip_first_suffix (suffixes : list rstr) (raw : rstr) : rstr :=
  match suffixes with
  | [] => raw
  | s :: suffixes' => match strip_suffix s raw with Some r => r | None => strip_first_suffix suffixes' raw end
  end.

Definition executable_lookup_key (windows : bool) (raw : rstr) : rstr :=
  if windows then strip_first_suffix WINDOWS_EXECUTABLE_SUFFIXES (to_ascii_lowercase raw) else raw.

(** ** Policies *)

Section policy.
Context {AbsPath : Type} `{!EqDecision AbsPath}.
Variable windows : bool.
(** [AbsolutePathBuf::try_from] and [Path::file_name] as UTF-8. *)
Variable try_from : rstr → option AbsPath.
Variable file_name : AbsPath → option rstr.

Record Policy := mkPolicy {
  rules_by_program : gmap rstr (list PrefixRule);
  network_rules : list NetworkRule;
  host_executables_by_name : gmap rstr (list AbsPath)
}.

Record MatchOptions := mkMatchOptions { resolve_host_executables : bool }.
Definition default_match_options : MatchOptions := mkMatchOptions false.

Definition policy_empty : Policy := mkPolicy ∅ [] ∅.

(** [MultiMap::insert]: at the end of the key's list. *)
Definition multimap_insert (k : rstr) (r : PrefixRule) (m : gmap rstr (list PrefixRule))
    : gmap rstr (list PrefixRule) := <[k := default [] (m !! k) ++ [r]]> m.

Definition executable_path_lookup_key (p : AbsPath) : option rstr :=
  executable_lookup_key windows <$> file_name p.

Definition add_prefix_rule (p : Policy) (prefix : list rstr) (d : Decision) : result Error Policy :=
  match prefix with
  | [] => Err (InvalidPattern ($"prefix cannot be empty"))
  | first_token :: rest_tokens =>
      let rule := mkRule (mkPattern first_token (Single <$> rest_tokens)) d None in
      Ok (mkPolicy (multimap_insert first_token rule (rules_by_program p)) (network_rules p)
            (host_executables_by_name p))
  end.

Definition blank_justification (j : option rstr) : bool := is_some_and (λ raw, is_empty (trim raw)) j.

Definition add_network_rule (p : Policy) (h : rstr) (proto : NetworkRuleProtocol) (d : Decision)
    (j : option rstr) : result Error Policy :=
  h' ← normalize_network_rule_host h;
  if blank_justification j then Err (InvalidRule ($"justification cannot be empty"))
  else Ok (mkPolicy (rules_by_program p) (network_rules p ++ [mkNetworkRule h' proto d j])
             (host_executables_by_name p)).

Definition set_host_executable_paths (p : Policy) (name : rstr) (paths : list AbsPath) : Policy :=
  mkPolicy (rules_by_program p) (network_rules p) (<[name := paths]> (host_executables_by_name p)).

(** [for (program, rules) in overlay.iter_all() { for rule in rules { insert } }]. *)
Definition insert_rules (m : gmap rstr (list PrefixRule)) (e : rstr * list PrefixRule)
    : gmap rstr (list PrefixRule) := foldl (λ m r, multimap_insert e.1 r m) m e.2.

Definition merge_overlay (self overlay : Policy) : Policy :=
  mkPolicy (foldl insert_rules (rules_by_program self) (map_to_list (rules_by_program overlay)))
    (network_rules self ++ network_rules overlay)
    (host_executables_by_name overlay ∪ host_executables_by_name self).

Definition upsert_domain (entries : list rstr) (h : rstr) : list rstr :=
  filter (λ e, e ≠ h) entries ++ [h].

Definition compile_rule (acc : list rstr * list rstr) (r : NetworkRule) : list rstr * list rstr :=
  let '(allowed, denied) := acc in
  match network_decision r with
  | Allow => (upsert_domain allowed (host r), filter (λ e, e ≠ host r) denied)
  | Forbidden => (filter (λ e, e ≠ host r) allowed, upsert_domain denied (host r))
  | Prompt => acc
  end.

Definition compiled_network_domains (p : Policy) : list rstr * list rstr :=
  foldl compile_rule ([], []) (network_rules p).

(** *** Matching *)

Definition match_exact_rules (p : Policy) (cmd : list rstr) : option (list (RuleMatch AbsPath)) :=
  c ← head cmd;
  Some (match rules_by_program p !! c with
        | Some rules => omap (λ r, rule_matches r cmd) rules
        | None => []
        end).

Definition match_host_executable_rules (p : Policy) (cmd : list rstr) : list (RuleMatch AbsPath) :=
  match head cmd with
  | None => []
  | Some c =>
      match try_from c with
      | None => []
      | Some program =>
          match executable_path_lookup_key program with
          | None => []
          | Some basename =>
              match rules_by_program p !! basename with
              | None => []
              | Some rules =>
                  if is_some_and (λ paths, negb (existsb (λ path, bool_decide (path = program)) paths))
                       (host_executables_by_name p !! basename)
                  then []
                  else (λ m, with_resolved_program m program) <$>
                         omap (λ r, rule_matches r (basename :: drop 1 cmd)) rules
              end
          end
      end
  end.

(** [Option::filter(|m| !m.is_empty())]. *)
Definition non_empty {A} (o : option (list A)) : option (list A) :=
  l ← o; if is_empty l then None else Some l.

Definition matches_for_command_with_options (p : Policy) (cmd : list rstr)
    (heuristics_fallback : option (list rstr → Decision)) (o : MatchOptions) : list (RuleMatch AbsPath) :=
  let matched_rules :=
    match non_empty (match_exact_rules p cmd) with
    | Some ms => ms
    | None =>
        default [] (non_empty (if resolve_host_executables o then Some (match_host_executable_rules p cmd)
                               else None))
    end in
  match heuristics_fallback with
  | Some f => if is_empty matched_rules then [HeuristicsRuleMatch cmd (f cmd)] else matched_rules
  | None => matched_rules
  end.

Definition matches_for_command (p : Policy) (cmd : list rstr)
    (heuristics_fallback : option (list rstr → Decision)) : list (RuleMatch AbsPath) :=
  matches_for_command_with_options p cmd heuristics_fallback default_match_options.

Record Evaluation := mkEvaluation { eval_decision : Decision; matched_rules : list (RuleMatch AbsPath) }.

(** [iter().max()]. *)
Definition max_decision (ds : list Decision) : option Decision :=
  match ds with [] => None | d :: ds' => Some (foldl decision_max d ds') end.

(** [None] is the [expect] on an empty list. *)
Definition from_matches (ms : list (RuleMatch AbsPath)) : option Evaluation :=
  d ← max_decision (match_decision <$> ms); Some (mkEvaluation d ms).

Definition is_match (e : Evaluation) : bool :=
  existsb (λ m, match m with HeuristicsRuleMatch _ _ => false | _ => true end) (matched_rules e).

Definition check_with_options (p : Policy) (cmd : list rstr) (f : list rstr → Decision) (o : MatchOptions)
    : option Evaluation :=
  from_matches (matches_for_command_with_options p cmd (Some f) o).

Definition check (p : Policy) (cmd : list rstr) (f : list rstr → Decision) : option Evaluation :=
  check_with_options p cmd f default_match_options.

Definition check_multiple_with_options (p : Policy) (cmds : list (list rstr)) (f : list rstr → Decision)
    (o : MatchOptions) : option Evaluation :=
  from_matches (concat ((λ cmd, matches_for_command_with_options p cmd (Some f) o) <$> cmds)).

Definition check_multiple (p : Policy) (cmds : list (list rstr)) (f : list rstr → Decision) : option Evaluation :=
  check_multiple_with_options p cmds f default_match_options.

End policy.
Arguments Policy : clear implicits.
Arguments Evaluation : clear implicits.

(** ** Allowed prefixes *)

Definition render_pattern_token (t : PatternToken) : rstr :=
  match t with
  | Single value => value
  | Alts alts => $"[" ++ join ($"|") alts ++ $"]"
  end.

(** The order of [String] and [Vec<String>]: lexicographic. *)
Fixpoint lex_le {A} (le : A → A → bool) (a b : list A) : bool :=
  match a, b with
  | [], _ => true
  | _ :: _, [] => false
  | x :: a', y :: b' => if le x y then (if le y x then lex_le le a' b' else true) else false
  end.

Definition rstr_le : rstr → rstr → bool := lex_le N.leb.
Definition words_le : list rstr → list rstr → bool := lex_le rstr_le.

Section sorting.
Context {A : Type} (le : A → A → bool) `{!EqDecision A}.

(** [sort()] and [dedup()]. *)
Fixpoint sort_insert (x : A) (l : list A) : list A :=
  match l with
  | [] => [x]
  | y :: l' => if le x y then x :: l else y :: sort_insert x l'
  end.
Definition sort (l : list A) : list A := foldr sort_insert [] l.

Fixpoint dedup (l : list A) : list A :=
  match l with
  | [] => []
  | x :: l' => match l' with
               | y :: _ => if decide (x = y) then dedup l' else x :: dedup l'
               | [] => [x]
               end
  end.
End sorting.

Definition rendered_prefix (r : PrefixRule) : list rstr :=
  first (pattern r) :: (render_pattern_token <$> rest (pattern r)).

Definition all_rules {AbsPath} (p : Policy AbsPath) : list PrefixRule :=
  concat (map_to_list (rules_by_program p)).*2.

Definition get_allowed_prefixes {AbsPath} (p : Policy AbsPath) : list (list rstr) :=
  dedup (sort words_le (rendered_prefix <$> filter (λ r, rule_decision r = Allow) (all_rules p))).
