(* ===== verification/ExecPolicyFacts.v ===== *)
(** * Facts about execution policies

    The decision of a policy is the strictest one of the rules that match;
    prefix patterns match exactly the expansions of their alternatives; an
    overlay only adds matches; the compiled network domains follow the last
    verdict on each host. *)

From S2P Require Import Prelude RustStr ExecPolicy.

(** ** Decisions *)

Lemma decision_rank_inj a b : decision_rank a = decision_rank b → a = b.
Proof. by destruct a, b. Qed.

Lemma decision_max_le_l a b : decision_le a (decision_max a b).
Proof. unfold decision_le, decision_max. case_decide; lia. Qed.
Lemma decision_max_le_r a b : decision_le b (decision_max a b).
Proof. unfold decision_le, decision_max. case_decide; lia. Qed.
Lemma decision_max_either a b : decision_max a b = a ∨ decision_max a b = b.
Proof. unfold decision_max. case_decide; auto. Qed.

Lemma decision_max_assoc a b c : decision_max a (decision_max b c) = decision_max (decision_max a b) c.
Proof. by destruct a, b, c. Qed.

Lemma decision_le_trans a b c : decision_le a b → decision_le b c → decision_le a c.
Proof. unfold decision_le. lia. Qed.

Lemma foldl_max_spec ds : ∀ d,
  (foldl decision_max d ds ∈ d :: ds) ∧ ∀ d', d' ∈ d :: ds → decision_le d' (foldl decision_max d ds).
Proof.
  induction ds as [|x ds IH]; intros d; simpl.
  { split; [left|]. intros d' ->%list_elem_of_singleton. unfold decision_le. lia. }
  destruct (IH (decision_max d x)) as [Hin Hle]. split.
  - apply elem_of_cons in Hin as [->|Hin]; [|by do 2 right].
    destruct (decision_max_either d x) as [->| ->]; [left|right; left].
  - intros d' Hd'. apply elem_of_cons in Hd' as [->|Hd']; [|apply elem_of_cons in Hd' as [->|Hd']].
    + eapply decision_le_trans; [apply decision_max_le_l|]. apply Hle. left.
    + eapply decision_le_trans; [apply decision_max_le_r|]. apply Hle. left.
    + apply Hle. by right.
Qed.

Lemma max_decision_spec ds d :
  max_decision ds = Some d ↔ d ∈ ds ∧ ∀ d', d' ∈ ds → decision_le d' d.
Proof.
  destruct ds as [|x ds]; simpl.
  { split; [done|]. intros [?%elem_of_nil _]. done. }
  destruct (foldl_max_spec ds x) as [Hin Hle]. split.
  - by intros [= <-].
  - intros [Hd Hmax]. f_equal. apply decision_rank_inj.
    specialize (Hmax _ Hin). specialize (Hle _ Hd). unfold decision_le in *. lia.
Qed.

Lemma max_decision_app ds ds' d d' :
  max_decision ds = Some d → max_decision ds' = Some d' → max_decision (ds ++ ds') = Some (decision_max d d').
Proof.
  rewrite !max_decision_spec. intros [H1 H2] [H3 H4]. split.
  - apply elem_of_app. destruct (decision_max_either d d') as [->| ->]; auto.
  - intros x [Hx|Hx]%elem_of_app.
    + eapply decision_le_trans; [by apply H2|apply decision_max_le_l].
    + eapply decision_le_trans; [by apply H4|apply decision_max_le_r].
Qed.

(** ** Prefix patterns *)

(** Every command prefix a pattern stands for. *)
Fixpoint expand (ts : list PatternToken) : list (list rstr) :=
  match ts with
  | [] => [[]]
  | t :: ts' => a ← alternatives t; (λ e, a :: e) <$> expand ts'
  end.

Lemma token_matches_spec t tok : token_matches t tok = true ↔ tok ∈ alternatives t.
Proof.
  destruct t as [x|alts]; simpl.
  - rewrite bool_decide_eq_true, list_elem_of_singleton. naive_solver.
  - rewrite existsb_exists. setoid_rewrite bool_decide_eq_true. setoid_rewrite <- list_elem_of_In. naive_solver.
Qed.

Lemma rest_matches_spec ts : ∀ toks,
  length toks = length ts → rest_matches ts toks = true ↔ toks ∈ expand ts.
Proof.
  induction ts as [|t ts IH]; intros [|tok toks] Hlen; simpl in *; try lia.
  { split; [left|done]. }
  rewrite andb_true_iff, token_matches_spec, IH by lia.
  rewrite list_elem_of_bind. setoid_rewrite list_elem_of_fmap. naive_solver.
Qed.

Lemma expand_length ts e : e ∈ expand ts → length e = length ts.
Proof.
  revert e. induction ts as [|t ts IH]; intros e; simpl.
  { by intros ->%list_elem_of_singleton. }
  rewrite list_elem_of_bind. intros (a & (e' & -> & He')%list_elem_of_fmap & _). simpl. f_equal. by apply IH.
Qed.

Lemma matches_prefix_spec p cmd pre :
  matches_prefix p cmd = Some pre ↔ ∃ e, e ∈ expand (rest p) ∧ pre = first p :: e ∧ pre `prefix_of` cmd.
Proof.
  unfold matches_prefix. destruct cmd as [|c tail].
  { split; [done|]. intros (e & _ & -> & [k Hk]). done. }
  destruct (Nat.ltb_spec (length (c :: tail)) (length (rest p) + 1)) as [Hlt|Hge]; simpl in *.
  { split; [done|]. intros (e & He%expand_length & -> & [k [= -> ->]]). rewrite length_app in Hlt. lia. }
  case_bool_decide as Hc; simpl; last first.
  { split; [done|]. intros (e & _ & -> & [k [= -> ->]]). done. }
  subst c. rewrite Nat.add_1_r. simpl.
  destruct (rest_matches (rest p) (take (length (rest p)) tail)) eqn:Hm.
  - rewrite rest_matches_spec in Hm by (rewrite length_take; lia). split.
    + intros [= <-]. eexists. split; [done|]. split; [done|]. exists (drop (length (rest p)) tail).
      simpl. by rewrite take_drop.
    + intros (e & He%expand_length & -> & [k [= ->]]). by rewrite take_app_length'.
  - split; [done|]. intros (e & He & -> & [k [= ->]]). exfalso.
    pose proof (expand_length _ _ He) as Hlen. rewrite take_app_length' in Hm by done.
    apply rest_matches_spec in He; [congruence|done].
Qed.

(** ** Evaluation *)

Section evaluation.
Context {AbsPath : Type} `{!EqDecision AbsPath}.
Variable windows : bool.
Variable try_from : rstr → option AbsPath.
Variable file_name : AbsPath → option rstr.
Abbreviation matches_with := (matches_for_command_with_options windows try_from file_name).
Abbreviation check_opts := (check_with_options windows try_from file_name).

Lemma matches_nonempty p cmd f o : matches_with p cmd (Some f) o ≠ [].
Proof.
  unfold matches_for_command_with_options. cbv zeta.
  match goal with |- (if is_empty ?l then _ else _) ≠ _ => destruct (is_empty l) eqn:E; [done|] end.
  by apply is_empty_false.
Qed.

Lemma from_matches_Some (ms : list (RuleMatch AbsPath)) : ms ≠ [] → is_Some (from_matches ms).
Proof. unfold from_matches. destruct ms; [done|]. eauto. Qed.

Lemma from_matches_spec (ms : list (RuleMatch AbsPath)) e :
  from_matches ms = Some e ↔
  matched_rules e = ms ∧ eval_decision e ∈ match_decision <$> ms ∧
  ∀ m, m ∈ ms → decision_le (match_decision m) (eval_decision e).
Proof.
  unfold from_matches. split.
  - destruct (max_decision _) as [d|] eqn:E; [|done]. simpl. intros [= <-]. simpl.
    apply max_decision_spec in E as [E1 E2]. split; [done|]. split; [done|].
    intros m Hm. apply E2. by apply list_elem_of_fmap_2.
  - intros (<- & H1 & H2). rewrite (proj2 (max_decision_spec _ (eval_decision e))); [by destruct e|].
    split; [done|]. intros d (m & -> & Hm)%list_elem_of_fmap. by apply H2.
Qed.

Lemma check_total p cmd f o : is_Some (check_opts p cmd f o).
Proof. apply from_matches_Some, matches_nonempty. Qed.

(** The matches of the rules keyed by the first word. *)
Definition exact_matches (p : Policy AbsPath) (cmd : list rstr) : list (RuleMatch AbsPath) :=
  default [] (match_exact_rules p cmd).

Lemma exact_matches_eq p cmd :
  exact_matches p cmd
  = match cmd with
    | [] => []
    | c :: _ => omap (λ r, rule_matches r cmd) (default [] (rules_by_program p !! c))
    end.
Proof. unfold exact_matches, match_exact_rules. destruct cmd; simpl; [done|]. by destruct (rules_by_program p !! _). Qed.

Lemma matches_exact p cmd fb o :
  exact_matches p cmd ≠ [] → matches_with p cmd fb o = exact_matches p cmd.
Proof.
  unfold matches_for_command_with_options, exact_matches. intros Hne.
  destruct (match_exact_rules p cmd) as [ms|]; simpl in *; [|done].
  rewrite (proj2 (is_empty_false ms)) by done. by rewrite ?(proj2 (is_empty_false ms)); destruct fb.
Qed.

Lemma matches_fallback p cmd f o :
  exact_matches p cmd = [] → resolve_host_executables o = false →
  matches_with p cmd (Some f) o = [HeuristicsRuleMatch cmd (f cmd)].
Proof.
  unfold matches_for_command_with_options, exact_matches. intros He ->.
  destruct (match_exact_rules p cmd) as [ms|]; simpl in *; [|done]. by subst ms.
Qed.

Lemma rule_in_exact p c tail r m :
  r ∈ default [] (rules_by_program p !! c) → rule_matches r (c :: tail) = Some m →
  m ∈ exact_matches p (c :: tail).
Proof. intros Hr Hm. rewrite exact_matches_eq. apply list_elem_of_omap. eauto. Qed.

Lemma exact_in_rule p cmd m :
  m ∈ exact_matches p cmd →
  ∃ c tail r pre, cmd = c :: tail ∧ r ∈ default [] (rules_by_program p !! c) ∧
    matches_prefix (pattern r) cmd = Some pre ∧
    m = PrefixRuleMatch pre (rule_decision r) None (justification r).
Proof.
  rewrite exact_matches_eq. destruct cmd as [|c tail]; [by intros ?%elem_of_nil|].
  intros (r & Hr & Hm)%list_elem_of_omap. unfold rule_matches in Hm.
  destruct (matches_prefix (pattern r) (c :: tail)) as [pre|] eqn:E; [|done]. injection Hm as <-. eauto 10.
Qed.

Lemma elem_of_fmap_match (ms : list (RuleMatch AbsPath)) d :
  d ∈ match_decision <$> ms ↔ ∃ m, m ∈ ms ∧ match_decision m = d.
Proof. rewrite list_elem_of_fmap. split; intros (m & H1 & H2); eauto. Qed.

(** *** Several commands *)

Lemma from_matches_app (ms ms' : list (RuleMatch AbsPath)) e e' :
  from_matches ms = Some e → from_matches ms' = Some e' →
  from_matches (ms ++ ms')
  = Some (mkEvaluation (decision_max (eval_decision e) (eval_decision e')) (matched_rules e ++ matched_rules e')).
Proof.
  unfold from_matches. destruct (max_decision (_ <$> ms)) eqn:E; [|done]. simpl. intros [= <-].
  destruct (max_decision (_ <$> ms')) eqn:E'; [|done]. simpl. intros [= <-].
  rewrite fmap_app, (max_decision_app _ _ _ _ E E'). done.
Qed.

Lemma check_multiple_cons (p : Policy AbsPath) cmd cmds f o e e' :
  check_opts p cmd f o = Some e →
  check_multiple_with_options windows try_from file_name p cmds f o = Some e' →
  check_multiple_with_options windows try_from file_name p (cmd :: cmds) f o
  = Some (mkEvaluation (decision_max (eval_decision e) (eval_decision e')) (matched_rules e ++ matched_rules e')).
Proof. intros E E'. unfold check_multiple_with_options. simpl. by apply from_matches_app. Qed.

(** ** Overlays *)

Lemma insert_rules_lookup rules k : ∀ (m : gmap rstr (list PrefixRule)) prog,
  default [] (foldl (λ m r, multimap_insert prog r m) m rules !! k)
  = default [] (m !! k) ++ (if decide (k = prog) then rules else []).
Proof.
  induction rules as [|r rules IH]; intros m prog; simpl.
  { case_decide; by rewrite app_nil_r. }
  rewrite IH. unfold multimap_insert. case_decide as Hk.
  - subst. rewrite lookup_insert_eq. simpl. by rewrite <- app_assoc.
  - by rewrite lookup_insert_ne.
Qed.

Lemma insert_all_lookup (l : list (rstr * list PrefixRule)) k : ∀ m : gmap rstr (list PrefixRule),
  NoDup l.*1 →
  default [] (foldl insert_rules m l !! k)
  = default [] (m !! k) ++ default [] ((list_to_map l : gmap rstr (list PrefixRule)) !! k).
Proof.
  induction l as [|[prog rules] l IH]; intros m Hnd; simpl.
  { by rewrite lookup_empty, app_nil_r. }
  apply NoDup_cons in Hnd as [Hni Hnd]. rewrite IH by done. unfold insert_rules at 1. simpl.
  rewrite insert_rules_lookup. case_decide as Hk.
  - subst prog. rewrite lookup_insert_eq. simpl.
    rewrite not_elem_of_list_to_map_1 by done. simpl. by rewrite app_nil_r.
  - by rewrite lookup_insert_ne, app_nil_r.
Qed.

Lemma merge_rules (p q : Policy AbsPath) k :
  default [] (rules_by_program (merge_overlay p q) !! k)
  = default [] (rules_by_program p !! k) ++ default [] (rules_by_program q !! k).
Proof.
  simpl. rewrite insert_all_lookup by apply NoDup_fst_map_to_list. by rewrite list_to_map_to_list.
Qed.

Lemma merge_exact_matches (p q : Policy AbsPath) cmd :
  exact_matches (merge_overlay p q) cmd = exact_matches p cmd ++ exact_matches q cmd.
Proof.
  rewrite !exact_matches_eq. destruct cmd as [|c tail]; [done|].
  by rewrite merge_rules, omap_app.
Qed.

End evaluation.

(** ** Network domains *)

Section domains.
Context {AbsPath : Type}.

(** The last rule on a host that is not a prompt. *)
Definition last_verdict (h : rstr) (rules : list NetworkRule) : option Decision :=
  foldl (λ v r, if decide (host r = h) then
                  match network_decision r with Prompt => v | d => Some d end
                else v) None rules.

Definition domains_ok (rules : list NetworkRule) (acc : list rstr * list rstr) : Prop :=
  NoDup acc.1 ∧ NoDup acc.2 ∧
  (∀ h, h ∈ acc.1 ↔ last_verdict h rules = Some Allow) ∧
  (∀ h, h ∈ acc.2 ↔ last_verdict h rules = Some Forbidden).

Lemma last_verdict_snoc h rules r :
  last_verdict h (rules ++ [r])
  = if decide (host r = h) then
      match network_decision r with Prompt => last_verdict h rules | d => Some d end
    else last_verdict h rules.
Proof. unfold last_verdict. by rewrite foldl_snoc. Qed.

Lemma upsert_NoDup l h : NoDup l → NoDup (upsert_domain l h).
Proof.
  intros Hl. apply NoDup_app. split; [by apply NoDup_filter|]. split; [|apply NoDup_singleton].
  intros x [Hx _]%list_elem_of_filter ->%list_elem_of_singleton. done.
Qed.

Lemma elem_of_upsert x l h : x ∈ upsert_domain l h ↔ x = h ∨ x ∈ l.
Proof.
  unfold upsert_domain. rewrite elem_of_app, list_elem_of_filter, list_elem_of_singleton.
  destruct (decide (x = h)); tauto.
Qed.

Lemma compile_rule_ok rules acc r : domains_ok rules acc → domains_ok (rules ++ [r]) (compile_rule acc r).
Proof.
  destruct acc as [allowed denied]. intros (H1 & H2 & H3 & H4). simpl in *.
  unfold domains_ok, compile_rule. setoid_rewrite last_verdict_snoc.
  destruct (network_decision r) eqn:Hd; simpl.
  - split; [by apply upsert_NoDup|]. split; [by apply NoDup_filter|]. split; intros h.
    + rewrite elem_of_upsert, H3. case_decide; [naive_solver|]. intuition congruence.
    + rewrite list_elem_of_filter, H4. case_decide; [|naive_solver]. split; [|done]. intros [? _]. congruence.
  - split; [done|]. split; [done|]. split; intros h; case_decide; auto.
  - split; [by apply NoDup_filter|]. split; [by apply upsert_NoDup|]. split; intros h.
    + rewrite list_elem_of_filter, H3. case_decide; [|naive_solver]. split; [|done]. intros [? _]. congruence.
    + rewrite elem_of_upsert, H4. case_decide; [naive_solver|]. intuition congruence.
Qed.

Lemma compiled_domains_ok (p : Policy AbsPath) : domains_ok (network_rules p) (compiled_network_domains p).
Proof.
  unfold compiled_network_domains. induction (network_rules p) as [|r rules IH] using rev_ind.
  { repeat split; try apply NoDup_nil_2; try done; by intros ?%elem_of_nil. }
  rewrite foldl_snoc. by apply compile_rule_ok.
Qed.

End domains.

(** ** Sorting and removing duplicates *)

Section sorting_facts.
Context {A : Type} (le : A → A → bool) `{!EqDecision A}.
Context (le_total : ∀ x y, le x y = true ∨ le y x = true).
Context (le_trans : ∀ x y z, le x y = true → le y z = true → le x z = true).
Context (le_antisym : ∀ x y, le x y = true → le y x = true → x = y).
Abbreviation leP := (λ x y, le x y = true).
Abbreviation ltP := (λ x y, le x y = true ∧ x ≠ y).

Lemma sort_insert_elem x y l : y ∈ sort_insert le x l ↔ y = x ∨ y ∈ l.
Proof.
  induction l as [|z l IH]; simpl; [rewrite elem_of_cons; done|].
  case_match; rewrite !elem_of_cons; [tauto|]. rewrite IH. tauto.
Qed.

Lemma sort_elem y l : y ∈ sort le l ↔ y ∈ l.
Proof.
  induction l as [|x l IH]; simpl; [done|]. rewrite sort_insert_elem, elem_of_cons, IH. done.
Qed.

Lemma sort_insert_sorted x l : StronglySorted leP l → StronglySorted leP (sort_insert le x l).
Proof.
  induction 1 as [|y l Hl IH Hy]; simpl; [repeat constructor|].
  destruct (le x y) eqn:E; constructor; [by constructor| |done|].
  - constructor; [done|]. eapply Forall_impl; [exact Hy|]. intros z Hz. by eapply le_trans.
  - rewrite Forall_forall in *. intros z [->|Hz]%sort_insert_elem; [|by apply Hy].
    destruct (le_total x y) as [?|?]; [congruence|done].
Qed.

Lemma sort_sorted l : StronglySorted leP (sort le l).
Proof. induction l; simpl; [constructor|by apply sort_insert_sorted]. Qed.

Lemma dedup_cons2 (x z : A) l :
  dedup (x :: z :: l) = if decide (x = z) then dedup (z :: l) else x :: dedup (z :: l).
Proof. done. Qed.

Lemma dedup_elem (y : A) l : y ∈ dedup l ↔ y ∈ l.
Proof.
  induction l as [|x l IH]; [done|]. destruct l as [|z l]; [done|]. rewrite dedup_cons2.
  case_decide as E; [subst z|]; rewrite ?elem_of_cons in *; rewrite IH; tauto.
Qed.

Lemma dedup_sorted (l : list A) : StronglySorted leP l → StronglySorted ltP (dedup l).
Proof.
  induction 1 as [|x l Hl IH Hx]; [constructor|]. destruct l as [|z l]; [repeat constructor|].
  rewrite dedup_cons2. case_decide as E; [done|]. constructor; [done|].
  apply Forall_forall. intros y Hy. rewrite dedup_elem in Hy. rewrite Forall_forall in Hx.
  split; [by apply Hx|]. intros <-. apply E.
  apply elem_of_cons in Hy as [->|Hy]; [done|].
  apply le_antisym; [apply Hx; left|]. inversion Hl as [|?? _ Hz]; subst. rewrite Forall_forall in Hz. by apply Hz.
Qed.
End sorting_facts.

(** The lexicographic order is linear when the order of the elements is. *)
Section lex.
Context {A : Type} (le : A → A → bool).
Context (le_refl : ∀ x, le x x = true).
Context (le_total : ∀ x y, le x y = true ∨ le y x = true).
Context (le_trans : ∀ x y z, le x y = true → le y z = true → le x z = true).
Context (le_antisym : ∀ x y, le x y = true → le y x = true → x = y).

Lemma lex_le_refl a : lex_le le a a = true.
Proof. induction a; simpl; [done|]. by rewrite le_refl. Qed.

Lemma lex_le_total a : ∀ b, lex_le le a b = true ∨ lex_le le b a = true.
Proof.
  induction a as [|x a IH]; intros [|y b]; simpl; auto.
  destruct (le x y) eqn:E1, (le y x) eqn:E2; auto. destruct (le_total x y); congruence.
Qed.

Lemma lex_le_antisym a : ∀ b, lex_le le a b = true → lex_le le b a = true → a = b.
Proof.
  induction a as [|x a IH]; intros [|y b]; simpl; try done.
  destruct (le x y) eqn:E1, (le y x) eqn:E2; try done. intros ??. f_equal; auto.
Qed.

Lemma lex_le_trans a : ∀ b c, lex_le le a b = true → lex_le le b c = true → lex_le le a c = true.
Proof.
  induction a as [|x a IH]; intros [|y b] [|z c]; simpl; try done.
  destruct (le x y) eqn:E1; [|done]. destruct (le y z) eqn:E2; [|by destruct (le y x)].
  rewrite (le_trans _ _ _ E1 E2).
  destruct (le z x) eqn:E3; [|done].
  pose proof (le_trans _ _ _ E3 E1) as E4. pose proof (le_trans _ _ _ E2 E3) as E5.
  rewrite E4, E5. apply IH.
Qed.
End lex.

Lemma words_le_total a b : words_le a b = true ∨ words_le b a = true.
Proof.
  apply lex_le_total. intros x y. apply lex_le_total. intros m n. rewrite !N.leb_le. lia.
Qed.
Lemma rstr_le_trans a b c : rstr_le a b = true → rstr_le b c = true → rstr_le a c = true.
Proof. apply lex_le_trans. intros x y z. rewrite !N.leb_le. lia. Qed.
Lemma rstr_le_antisym a b : rstr_le a b = true → rstr_le b a = true → a = b.
Proof. apply lex_le_antisym. intros x y. rewrite !N.leb_le. lia. Qed.
Lemma words_le_trans a b c : words_le a b = true → words_le b c = true → words_le a c = true.
Proof. apply lex_le_trans, rstr_le_trans. Qed.
Lemma words_le_antisym a b : words_le a b = true → words_le b a = true → a = b.
Proof. apply lex_le_antisym, rstr_le_antisym. Qed.

Lemma all_rules_elem {AbsPath} (p : Policy AbsPath) r :
  r ∈ all_rules p ↔ ∃ k rules, rules_by_program p !! k = Some rules ∧ r ∈ rules.
Proof.
  unfold all_rules. rewrite list_elem_of_In, in_concat. setoid_rewrite <- list_elem_of_In. split.
  - intros (rules & ([k rules'] & -> & Hk)%list_elem_of_fmap & Hr). apply elem_of_map_to_list in Hk. eauto.
  - intros (k & rules & Hk & Hr). exists rules. split; [|done].
    apply list_elem_of_fmap. exists (k, rules). split; [done|]. by apply elem_of_map_to_list.
Qed.

Lemma allowed_prefixes_elem {AbsPath} (p : Policy AbsPath) pre :
  pre ∈ get_allowed_prefixes p ↔
  ∃ k rules r, rules_by_program p !! k = Some rules ∧ r ∈ rules ∧ rule_decision r = Allow ∧ rendered_prefix r = pre.
Proof.
  unfold get_allowed_prefixes. rewrite dedup_elem, sort_elem, list_elem_of_fmap.
  setoid_rewrite list_elem_of_filter. setoid_rewrite all_rules_elem. naive_solver.
Qed.

Lemma allowed_prefixes_sorted {AbsPath} (p : Policy AbsPath) :
  StronglySorted (λ a b, words_le a b = true ∧ a ≠ b) (get_allowed_prefixes p).
Proof.
  apply dedup_sorted; [apply words_le_antisym|]. apply sort_sorted; [apply words_le_total|apply words_le_trans].
Qed.

(** ** Normalised hosts *)

Lemma to_ascii_lowercase_char_idemp c :
  to_ascii_lowercase_char (to_ascii_lowercase_char c) = to_ascii_lowercase_char c.
Proof.
  unfold to_ascii_lowercase_char.
  destruct ((65 <=? c) && (c <=? 90))%N eqn:E; [|by rewrite E].
  apply andb_true_iff in E as [E1%N.leb_le E2%N.leb_le].
  destruct ((65 <=? c + 32) && (c + 32 <=? 90))%N eqn:E'; [|done].
  apply andb_true_iff in E' as [_ E'%N.leb_le]. lia.
Qed.

Lemma to_ascii_lowercase_idemp s : to_ascii_lowercase (to_ascii_lowercase s) = to_ascii_lowercase s.
Proof.
  unfold to_ascii_lowercase. rewrite <- list_fmap_compose. apply list_fmap_ext.
  intros _ c _. apply to_ascii_lowercase_char_idemp.
Qed.

Lemma normalize_host_shape raw h :
  normalize_network_rule_host raw = Ok h →
  h ≠ [] ∧ to_ascii_lowercase h = h ∧ contains [STAR] h = false ∧ Forall (λ c, is_whitespace c = false) h.
Proof.
  unfold normalize_network_rule_host. destruct (is_empty (trim raw)); [done|].
  destruct (_ || _); [done|]. destruct (strip_host_port raw (trim raw)) as [h'|e]; [|done]. simpl.
  set (n := to_ascii_lowercase _).
  destruct (is_empty n) eqn:E1; [done|]. destruct (contains [STAR] n) eqn:E2; [done|].
  destruct (existsb is_whitespace n) eqn:E3; [done|]. intros [= <-].
  split; [by apply is_empty_false|]. split; [apply to_ascii_lowercase_idemp|]. split; [done|].
  apply Forall_forall. intros c Hc. destruct (is_whitespace c) eqn:Ec; [|done]. exfalso.
  apply not_true_iff_false in E3. apply E3. apply existsb_exists. exists c. split; [by apply list_elem_of_In|done].
Qed.
