(* ===== verification/PolicyParser.v ===== *)
(** * Reading execution policies

    Model of [execpolicy/src/parser.rs] and of the example validation of
    [rule.rs]: the three built-in functions a policy file calls, the builder
    they fill, and the validation of the examples of a rule.

    The Starlark interpreter is a library.  Since the built-ins return
    [None] and read nothing back, a policy file is, for the builder, the
    sequence of calls it makes and the error it stops on, if any:
    [eval_policy] gives them.  [shlex_split], [shlex_join] and the path
    functions are libraries too; [debug_rule] and [debug_match] are derived
    [Debug] formats, used in messages only. *)

From S2P Require Import Prelude RustStr ExecPolicy.

(** A Starlark value, as far as the built-ins look into it. *)
Inductive Value :=
| VStr (s : rstr)
| VList (vs : list Value)
| VOther (type_name : rstr).

Definition get_type (v : Value) : rstr :=
  match v with VStr _ => $"string" | VList _ => $"list" | VOther t => t end.
Definition unpack_str (v : Value) : option rstr :=
  match v with VStr s => Some s | _ => None end.

(** [iter().map(f).collect::<Result<Vec<_>, _>>()]. *)
Fixpoint try_map {E A B} (f : A → result E B) (l : list A) : result E (list B) :=
  match l with
  | [] => Ok []
  | x :: l' => y ← f x; ys ← try_map f l'; Ok (y :: ys)
  end.

(** [option.map(f).transpose()?.unwrap_or_default()]. *)
Definition try_default {E A B} (f : A → result E (list B)) (o : option A) : result E (list B) :=
  match o with Some a => f a | None => Ok [] end.

Definition alternative_str (v : Value) : result Error rstr :=
  match unpack_str v with
  | Some s => Ok s
  | None => Err (InvalidPattern ($"pattern alternative must be a string (got " ++ get_type v ++ $")"))
  end.

Definition parse_pattern_token (v : Value) : result Error PatternToken :=
  match v with
  | VStr s => Ok (Single s)
  | VList vs =>
      tokens ← try_map alternative_str vs;
      match tokens with
      | [] => Err (InvalidPattern ($"pattern alternatives cannot be empty"))
      | [single] => Ok (Single single)
      | _ => Ok (Alts tokens)
      end
  | VOther t => Err (InvalidPattern ($"pattern element must be a string or list of strings (got " ++ t ++ $")"))
  end.

Definition parse_pattern (vs : list Value) : result Error (list PatternToken) :=
  tokens ← try_map parse_pattern_token vs;
  if is_empty tokens then Err (InvalidPattern ($"pattern cannot be empty")) else Ok tokens.

Section parser.
Context {AbsPath : Type} `{!EqDecision AbsPath}.
Variable windows : bool.
Variable try_from : rstr → option AbsPath.
Variable file_name : AbsPath → option rstr.
(** [Path::is_absolute], the component count and [file_name] of a name, and
    the message of a failed [AbsolutePathBuf::try_from]. *)
Variable is_absolute : rstr → bool.
Variable component_count : rstr → nat.
Variable name_file_name : rstr → option rstr.
Variable try_from_message : rstr → rstr.
Variable shlex_split : rstr → option (list rstr).
Variable shlex_join : list rstr → option rstr.
Variable debug_rule : PrefixRule → rstr.
Variable debug_match : RuleMatch AbsPath → rstr.

Definition example_str (v : Value) : result Error rstr :=
  match unpack_str v with
  | Some s => Ok s
  | None => Err (InvalidExample ($"example tokens must be strings (got " ++ get_type v ++ $")"))
  end.

Definition parse_string_example (raw : rstr) : result Error (list rstr) :=
  match shlex_split raw with
  | None => Err (InvalidExample ($"example string has invalid shell syntax"))
  | Some tokens =>
      if is_empty tokens then Err (InvalidExample ($"example cannot be an empty string")) else Ok tokens
  end.

Definition parse_list_example (vs : list Value) : result Error (list rstr) :=
  tokens ← try_map example_str vs;
  if is_empty tokens then Err (InvalidExample ($"example cannot be an empty list")) else Ok tokens.

Definition parse_example (v : Value) : result Error (list rstr) :=
  match v with
  | VStr raw => parse_string_example raw
  | VList vs => parse_list_example vs
  | VOther t => Err (InvalidExample ($"example must be a string or list of strings (got " ++ t ++ $")"))
  end.

Definition parse_examples (vs : list Value) : result Error (list (list rstr)) := try_map parse_example vs.

Definition parse_literal_absolute_path (raw : rstr) : result Error AbsPath :=
  if negb (is_absolute raw) then
    Err (InvalidRule ($"host_executable paths must be absolute (got " ++ raw ++ $")"))
  else match try_from raw with
       | Some p => Ok p
       | None => Err (InvalidRule ($"invalid absolute path `" ++ raw ++ $"`: " ++ try_from_message raw))
       end.

Definition validate_host_executable_name (name : rstr) : result Error unit :=
  if is_empty name then Err (InvalidRule ($"host_executable name cannot be empty"))
  else if negb (component_count name =? 1) || negb (bool_decide (name_file_name name = Some name))
  then Err (InvalidRule ($"host_executable name must be a bare executable name (got " ++ name ++ $")"))
  else Ok tt.

Definition parse_network_rule_decision (raw : rstr) : result Error Decision :=
  if decide (raw = $"deny") then Ok Forbidden else decision_parse raw.

Definition attach_validation_location (e : Error) (location : option ErrorLocation) : Error :=
  match location with Some l => with_location e l | None => e end.

(** ** The builder *)

Record PendingExampleValidation := mkPending {
  pending_rules : list PrefixRule;
  pending_matches : list (list rstr);
  pending_not_matches : list (list rstr);
  pending_location : option ErrorLocation
}.

Record PolicyBuilder := mkBuilder {
  b_rules_by_program : gmap rstr (list PrefixRule);
  b_network_rules : list NetworkRule;
  b_host_executables_by_name : gmap rstr (list AbsPath);
  pending_example_validations : list PendingExampleValidation
}.

Definition builder_new : PolicyBuilder := mkBuilder ∅ [] ∅ [].

Definition add_rule (b : PolicyBuilder) (r : PrefixRule) : PolicyBuilder :=
  mkBuilder (multimap_insert (rule_program r) r (b_rules_by_program b)) (b_network_rules b)
    (b_host_executables_by_name b) (pending_example_validations b).

Definition builder_add_network_rule (b : PolicyBuilder) (r : NetworkRule) : PolicyBuilder :=
  mkBuilder (b_rules_by_program b) (b_network_rules b ++ [r]) (b_host_executables_by_name b)
    (pending_example_validations b).

Definition add_host_executable (b : PolicyBuilder) (name : rstr) (paths : list AbsPath) : PolicyBuilder :=
  mkBuilder (b_rules_by_program b) (b_network_rules b) (<[name := paths]> (b_host_executables_by_name b))
    (pending_example_validations b).

Definition add_pending_example_validation (b : PolicyBuilder) (v : PendingExampleValidation) : PolicyBuilder :=
  mkBuilder (b_rules_by_program b) (b_network_rules b) (b_host_executables_by_name b)
    (pending_example_validations b ++ [v]).

Definition build (b : PolicyBuilder) : Policy AbsPath :=
  mkPolicy (b_rules_by_program b) (b_network_rules b) (b_host_executables_by_name b).

(** ** Examples *)

Definition resolving : MatchOptions := mkMatchOptions true.
Abbreviation example_matches p ex :=
  (matches_for_command_with_options windows try_from file_name p ex None resolving).
Definition render_example (ex : list rstr) : rstr := default ($"unable to render example") (shlex_join ex).

Definition validate_match_examples (p : Policy AbsPath) (rules : list PrefixRule)
    (matches : list (list rstr)) : result Error unit :=
  let unmatched := filter (λ ex, is_empty (example_matches p ex)) matches in
  if is_empty unmatched then Ok tt
  else Err (ExampleDidNotMatch (debug_rule <$> rules) (render_example <$> unmatched) None).

Fixpoint validate_not_match_examples (p : Policy AbsPath) (not_matches : list (list rstr))
    : result Error unit :=
  match not_matches with
  | [] => Ok tt
  | ex :: not_matches' =>
      match head (example_matches p ex) with
      | Some m => Err (ExampleDidMatch (debug_match m) (render_example ex) None)
      | None => validate_not_match_examples p not_matches'
      end
  end.

(** The policy of one call's rules, with all host executables. *)
Definition validation_policy (hosts : gmap rstr (list AbsPath)) (rules : list PrefixRule) : Policy AbsPath :=
  mkPolicy (foldl (λ m r, multimap_insert (rule_program r) r m) ∅ rules) [] hosts.

Definition validate_one (b : PolicyBuilder) (v : PendingExampleValidation) : result Error unit :=
  let p := validation_policy (b_host_executables_by_name b) (pending_rules v) in
  let attach e := attach_validation_location e (pending_location v) in
  _ ← map_err attach (validate_not_match_examples p (pending_not_matches v));
  map_err attach (validate_match_examples p (pending_rules v) (pending_matches v)).

Fixpoint validate_all (b : PolicyBuilder) (vs : list PendingExampleValidation) : result Error unit :=
  match vs with
  | [] => Ok tt
  | v :: vs' => _ ← validate_one b v; validate_all b vs'
  end.

Definition validate_pending_examples_from (b : PolicyBuilder) (start : nat) : result Error unit :=
  validate_all b (drop start (pending_example_validations b)).

(** ** The built-ins *)

(** A justification that is present must not be blank. *)
Definition checked_justification (j : option rstr) : result Error (option rstr) :=
  if blank_justification j then Err (InvalidRule ($"justification cannot be empty")) else Ok j.

Definition pattern_rules (tokens : list PatternToken) (d : Decision) (j : option rstr)
    : result Error (list PrefixRule) :=
  match tokens with
  | [] => Err (InvalidPattern ($"pattern cannot be empty"))
  | first_token :: remaining =>
      Ok ((λ h, mkRule (mkPattern h remaining) d j) <$> alternatives first_token)
  end.

Definition prefix_rule (b : PolicyBuilder) (pat : list Value) (d : option rstr)
    (m not_m : option (list Value)) (j : option rstr) (location : option ErrorLocation)
    : result Error PolicyBuilder :=
  d ← match d with Some raw => decision_parse raw | None => Ok Allow end;
  j ← checked_justification j;
  tokens ← parse_pattern pat;
  matches ← try_default parse_examples m;
  not_matches ← try_default parse_examples not_m;
  rules ← pattern_rules tokens d j;
  let b := add_pending_example_validation b (mkPending rules matches not_matches location) in
  Ok (foldl add_rule b rules).

Definition network_rule (b : PolicyBuilder) (h proto d : rstr) (j : option rstr)
    : result Error PolicyBuilder :=
  proto ← protocol_parse proto;
  d ← parse_network_rule_decision d;
  j ← checked_justification j;
  h ← normalize_network_rule_host h;
  Ok (builder_add_network_rule b (mkNetworkRule h proto d j)).

Definition msg_basename (raw name : rstr) : rstr :=
  $"host_executable path `" ++ raw ++ $"` must have basename `" ++ name ++ $"`".

(** One path of [host_executable]. *)
Definition host_path (name : rstr) (v : Value) : result Error AbsPath :=
  match unpack_str v with
  | None => Err (InvalidRule ($"host_executable paths must be strings (got " ++ get_type v ++ $")"))
  | Some raw =>
      path ← parse_literal_absolute_path raw;
      match executable_path_lookup_key windows file_name path with
      | None => Err (InvalidRule (msg_basename raw name))
      | Some path_name =>
          if decide (path_name = executable_lookup_key windows name) then Ok path
          else Err (InvalidRule (msg_basename raw name))
      end
  end.

Fixpoint host_paths (name : rstr) (vs : list Value) (parsed : list AbsPath) : result Error (list AbsPath) :=
  match vs with
  | [] => Ok parsed
  | v :: vs' =>
      path ← host_path name v;
      host_paths name vs' (if existsb (λ e, bool_decide (e = path)) parsed then parsed else parsed ++ [path])
  end.

Definition host_executable (b : PolicyBuilder) (name : rstr) (paths : list Value) : result Error PolicyBuilder :=
  _ ← validate_host_executable_name name;
  parsed ← host_paths name paths [];
  Ok (add_host_executable b (executable_lookup_key windows name) parsed).

(** ** A policy file *)

Inductive Call :=
| CallPrefixRule (pat : list Value) (d : option rstr) (m not_m : option (list Value)) (j : option rstr)
    (location : option ErrorLocation)
| CallNetworkRule (h proto d : rstr) (j : option rstr)
| CallHostExecutable (name : rstr) (paths : list Value).

Definition call (b : PolicyBuilder) (c : Call) : result Error PolicyBuilder :=
  match c with
  | CallPrefixRule pat d m not_m j location => prefix_rule b pat d m not_m j location
  | CallNetworkRule h proto d j => network_rule b h proto d j
  | CallHostExecutable name paths => host_executable b name paths
  end.

(** The message of the Starlark error that wraps a failed built-in. *)
Variable starlark_message : Error → rstr.

(** The calls of a module, one after the other; a failed call stops the
    module and leaves what earlier calls added. *)
Fixpoint run_calls (b : PolicyBuilder) (cs : list Call) : PolicyBuilder * result Error unit :=
  match cs with
  | [] => (b, Ok tt)
  | c :: cs' => match call b c with Ok b' => run_calls b' cs' | Err e => (b, Err (StarlarkError (starlark_message e))) end
  end.

Variable eval_policy : rstr → rstr → result rstr (list Call * option rstr).

(** [PolicyParser::parse], on the parser's builder. *)
Definition parse_policy (b : PolicyBuilder) (policy_identifier contents : rstr)
    : PolicyBuilder * result Error unit :=
  let pending_validation_count := length (pending_example_validations b) in
  match eval_policy policy_identifier contents with
  | Err m => (b, Err (StarlarkError m))
  | Ok (calls, final) =>
      match run_calls b calls with
      | (b', Err e) => (b', Err e)
      | (b', Ok _) =>
          match final with
          | Some m => (b', Err (StarlarkError m))
          | None => (b', validate_pending_examples_from b' pending_validation_count)
          end
      end
  end.

End parser.
Arguments PolicyBuilder : clear implicits.
