(* ===== verification/PolicyParserFacts.v ===== *)
(** * Facts about policy files

    What a [prefix_rule] call matches, the invariant of the builder, and
    what a successful parse has checked. *)

From S2P Require Import Prelude RustStr ExecPolicy ExecPolicyFacts PolicyParser.

Lemma try_map_Ok {E A B} (f : A → result E B) l ys :
  try_map f l = Ok ys → Forall2 (λ x y, f x = Ok y) l ys.
Proof.
  revert ys. induction l as [|x l IH]; intros ys; simpl; [by intros [= <-]|].
  destruct (f x) eqn:Ex; [|done]. simpl. destruct (try_map f l) eqn:El; [|done]. simpl.
  intros [= <-]. constructor; [done|]. by apply IH.
Qed.

(** ** Patterns *)

(** A token the parser builds: alternatives are at least two. *)
Definition token_ok (t : PatternToken) : Prop :=
  match t with Single _ => True | Alts alts => 2 ≤ length alts end.

Lemma parse_pattern_token_ok v t : parse_pattern_token v = Ok t → token_ok t.
Proof.
  destruct v as [s|vs|ty]; simpl; [by intros [= <-]| |done].
  destruct (try_map alternative_str vs) as [[|a [|b l]]|]; simpl; [done|by intros [= <-]| |done].
  intros [= <-]. simpl. lia.
Qed.

Lemma parse_pattern_ok vs tokens : parse_pattern vs = Ok tokens → tokens ≠ [] ∧ Forall token_ok tokens.
Proof.
  unfold parse_pattern. destruct (try_map parse_pattern_token vs) as [ts|] eqn:E; [|done]. simpl.
  destruct (is_empty ts) eqn:Ee; [done|]. intros [= <-]. split; [by apply is_empty_false|].
  apply try_map_Ok in E. 
  clear Ee. induction E; constructor; eauto using parse_pattern_token_ok.
Qed.

Lemma pattern_rules_match tokens d j rules cmd :
  pattern_rules tokens d j = Ok rules →
  (∃ r, r ∈ rules ∧ is_Some (matches_prefix (pattern r) cmd)) ↔ ∃ e, e ∈ expand tokens ∧ e `prefix_of` cmd.
Proof.
  destruct tokens as [|t ts]; [done|]. intros [= <-]. simpl. split.
  - intros (r & (h & -> & Hh)%list_elem_of_fmap & [pre Hpre]). apply matches_prefix_spec in Hpre.
    simpl in Hpre. destruct Hpre as (e & He & -> & Hp). exists (h :: e). split; [|done].
    apply list_elem_of_bind. exists h. split; [|done]. by apply list_elem_of_fmap_2.
  - intros (e & (h & (e' & -> & He')%list_elem_of_fmap & Hh)%list_elem_of_bind & Hp).
    exists (mkRule (mkPattern h ts) d j). split; [by apply (list_elem_of_fmap_2 (λ h, mkRule (mkPattern h ts) d j))|].
    exists (h :: e'). apply matches_prefix_spec. eauto.
Qed.

(** ** The builder *)

Section builder.
Context {AbsPath : Type} `{!EqDecision AbsPath}.
Variable windows : bool.
Variable try_from : rstr → option AbsPath.
Variable file_name : AbsPath → option rstr.
Variable is_absolute : rstr → bool.
Variable component_count : rstr → nat.
Variable name_file_name : rstr → option rstr.
Variable try_from_message : rstr → rstr.
Variable shlex_split : rstr → option (list rstr).
Variable shlex_join : list rstr → option rstr.
Variable debug_rule : PrefixRule → rstr.
Variable debug_match : RuleMatch AbsPath → rstr.
Variable starlark_message : Error → rstr.
Variable eval_policy : rstr → rstr → result rstr (list Call * option rstr).
Implicit Types b : PolicyBuilder AbsPath.

(** A stored rule is under its own program and its tokens are as parsed. *)
Definition rule_ok (k : rstr) (r : PrefixRule) : Prop :=
  rule_program r = k ∧ Forall token_ok (rest (pattern r)).

Definition rules_ok (m : gmap rstr (list PrefixRule)) : Prop :=
  map_Forall (λ k rules, rules ≠ [] ∧ Forall (rule_ok k) rules) m.

Definition network_ok (r : NetworkRule) : Prop :=
  (∃ raw, normalize_network_rule_host raw = Ok (host r)) ∧ blank_justification (network_justification r) = false.

Definition hosts_ok (m : gmap rstr (list AbsPath)) : Prop :=
  map_Forall (λ name paths, NoDup paths ∧
    Forall (λ p, executable_path_lookup_key windows file_name p = Some name) paths) m.

Definition builder_ok b : Prop :=
  rules_ok (b_rules_by_program b) ∧ Forall network_ok (b_network_rules b) ∧
  hosts_ok (b_host_executables_by_name b).

Lemma multimap_insert_ok m r :
  rules_ok m → Forall token_ok (rest (pattern r)) → rules_ok (multimap_insert (rule_program r) r m).
Proof.
  intros Hm Hr. apply map_Forall_insert_2; [|done]. split; [by destruct (default [] _)|].
  apply Forall_app. split; [|by repeat constructor].
  destruct (m !! rule_program r) as [rules|] eqn:E; [|constructor]. by apply (Hm _ _ E).
Qed.

Lemma add_rules_ok rules : ∀ b,
  builder_ok b → Forall (λ r, Forall token_ok (rest (pattern r))) rules → builder_ok (foldl add_rule b rules).
Proof.
  induction rules as [|r rules IH]; intros b Hb Hr; simpl; [done|].
  inversion Hr as [|? ? Hr1 Hr2]; subst. apply IH; [|done]. destruct Hb as (H1 & H2 & H3).
  split; [by apply multimap_insert_ok|done].
Qed.

Lemma prefix_rule_ok b pat d m not_m j loc b' :
  builder_ok b → prefix_rule shlex_split b pat d m not_m j loc = Ok b' → builder_ok b'.
Proof.
  intros Hb. unfold prefix_rule.
  destruct (match d with Some _ => _ | None => _ end) as [d'|]; [|done]. simpl.
  destruct (checked_justification j) as [j'|]; [|done]. simpl.
  destruct (parse_pattern pat) as [tokens|] eqn:Ep; [|done]. simpl.
  destruct (try_default _ m) as [ms|]; [|done]. simpl.
  destruct (try_default _ not_m) as [ns|]; [|done]. simpl.
  apply parse_pattern_ok in Ep as [_ Htok].
  destruct tokens as [|t ts]; simpl; [done|]. intros [= <-]. apply add_rules_ok; [done|].
  apply Forall_forall. intros r (h & -> & _)%list_elem_of_fmap. by inversion Htok.
Qed.

Lemma network_rule_ok b h proto d j b' :
  builder_ok b → network_rule b h proto d j = Ok b' → builder_ok b'.
Proof.
  intros (H1 & H2 & H3). unfold network_rule.
  destruct (protocol_parse proto) as [p|]; [|done]. simpl.
  destruct (parse_network_rule_decision d) as [d'|]; [|done]. simpl.
  unfold checked_justification. destruct (blank_justification j) eqn:Hj; [done|]. simpl.
  destruct (normalize_network_rule_host h) as [h'|] eqn:Hh; [|done]. simpl. intros [= <-].
  split; [done|]. split; [|done]. apply Forall_app. split; [done|]. repeat constructor; simpl; eauto.
Qed.

Lemma host_paths_ok name vs : ∀ parsed paths,
  let P := Forall (λ p, executable_path_lookup_key windows file_name p = Some (executable_lookup_key windows name)) in
  NoDup parsed → P parsed →
  host_paths windows try_from file_name is_absolute try_from_message name vs parsed = Ok paths →
  NoDup paths ∧ P paths.
Proof.
  induction vs as [|v vs IH]; intros parsed paths P Hnd HP; simpl; [by intros [= <-]|].
  destruct (host_path _ _ _ _ _ name v) as [path|] eqn:Hp; [|done]. simpl.
  assert (executable_path_lookup_key windows file_name path = Some (executable_lookup_key windows name)) as Hk.
  { unfold host_path in Hp. destruct (unpack_str v) as [raw|]; [|done].
    destruct (parse_literal_absolute_path _ _ _ raw) as [p|]; [|done]. simpl in Hp.
    destruct (executable_path_lookup_key windows file_name p) as [k|] eqn:Ek; [|done].
    case_decide; [|done]. injection Hp as <-. congruence. }
  destruct (existsb _ parsed) eqn:Hex; [by apply IH|]. apply IH.
  - apply NoDup_app. split; [done|]. split; [|apply NoDup_singleton].
    intros x Hx ->%list_elem_of_singleton. apply not_true_iff_false in Hex. apply Hex, existsb_exists.
    exists path. split; [by apply list_elem_of_In|by apply bool_decide_eq_true].
  - apply Forall_app. split; [done|by repeat constructor].
Qed.

Abbreviation call_builtin := (call windows try_from file_name is_absolute component_count name_file_name
  try_from_message shlex_split).

Lemma call_ok b c b' : builder_ok b → call_builtin b c = Ok b' → builder_ok b'.
Proof.
  intros Hb. destruct c as [pat d m not_m j loc|h proto d j|name paths]; simpl.
  - by apply prefix_rule_ok.
  - by apply network_rule_ok.
  - unfold host_executable. destruct (validate_host_executable_name _ _ name) as [[]|]; [|done]. simpl.
    destruct (host_paths _ _ _ _ _ name paths []) as [parsed|] eqn:Hp; [|done]. simpl. intros [= <-].
    apply host_paths_ok in Hp; [|constructor|constructor]. destruct Hb as (H1 & H2 & H3).
    split; [done|]. split; [done|]. by apply map_Forall_insert_2.
Qed.

Abbreviation run := (run_calls windows try_from file_name is_absolute component_count name_file_name
  try_from_message shlex_split starlark_message).

Lemma run_calls_ok cs : ∀ b, builder_ok b → builder_ok (run b cs).1.
Proof.
  induction cs as [|c cs IH]; intros b Hb; simpl; [done|].
  destruct (call_builtin b c) as [b'|e] eqn:E; [|done]. apply IH. by eapply call_ok.
Qed.

Abbreviation parse := (parse_policy windows try_from file_name is_absolute component_count name_file_name
  try_from_message shlex_split shlex_join debug_rule debug_match starlark_message eval_policy).

Lemma parse_policy_ok b id text : builder_ok b → builder_ok (parse b id text).1.
Proof.
  intros Hb. unfold parse_policy. destruct (eval_policy id text) as [[cs final]|m]; [|done].
  pose proof (run_calls_ok cs b Hb) as Hr. destruct (run b cs) as [b' [[]|e]]; [|done].
  by destruct final.
Qed.

(** ** Examples *)

Definition examples_hold b (v : PendingExampleValidation) : Prop :=
  let p := validation_policy (b_host_executables_by_name b) (pending_rules v) in
  let matches ex := matches_for_command_with_options windows try_from file_name p ex None resolving in
  Forall (λ ex, matches ex ≠ []) (pending_matches v) ∧ Forall (λ ex, matches ex = []) (pending_not_matches v).

Lemma validate_match_Ok p rules exs :
  validate_match_examples windows try_from file_name shlex_join debug_rule p rules exs = Ok tt →
  Forall (λ ex, matches_for_command_with_options windows try_from file_name p ex None resolving ≠ []) exs.
Proof.
  unfold validate_match_examples. cbv zeta.
  match goal with |- (if is_empty ?l then _ else _) = _ → _ => destruct (is_empty l) eqn:E; [|done] end.
  intros _. apply is_empty_true in E. apply Forall_forall. intros ex Hex Hm.
  assert (ex ∈ @nil (list rstr)) as ?%elem_of_nil; [|done]. rewrite <- E.
  apply list_elem_of_filter. split; [|done]. by rewrite Hm.
Qed.

Lemma validate_not_match_Ok p exs :
  validate_not_match_examples windows try_from file_name shlex_join debug_match p exs = Ok tt →
  Forall (λ ex, matches_for_command_with_options windows try_from file_name p ex None resolving = []) exs.
Proof.
  induction exs as [|ex exs IH]; [done|]. cbn [validate_not_match_examples].
  destruct (matches_for_command_with_options windows try_from file_name p ex None resolving) eqn:E;
    cbn [head]; [|done].
  intros ?. constructor; [done|by apply IH].
Qed.

Lemma map_err_Ok {E F T} (f : E → F) (r : result E T) t : map_err f r = Ok t → r = Ok t.
Proof. destruct r; simpl; congruence. Qed.

Lemma validate_all_Ok b vs :
  validate_all windows try_from file_name shlex_join debug_rule debug_match b vs = Ok tt →
  Forall (examples_hold b) vs.
Proof.
  induction vs as [|v vs IH]; simpl; [done|]. unfold validate_one.
  destruct (map_err _ (validate_not_match_examples _ _ _ _ _ _ _)) as [[]|] eqn:E1; [|done]. simpl.
  destruct (map_err _ (validate_match_examples _ _ _ _ _ _ _ _)) as [[]|] eqn:E2; [|done]. simpl.
  intros ?. constructor; [|by apply IH]. split.
  - by eapply validate_match_Ok, map_err_Ok.
  - by eapply validate_not_match_Ok, map_err_Ok.
Qed.

Lemma parse_policy_examples b id text b' :
  parse b id text = (b', Ok tt) →
  Forall (examples_hold b') (drop (length (pending_example_validations b)) (pending_example_validations b')).
Proof.
  unfold parse_policy. destruct (eval_policy id text) as [[cs final]|m]; [|done].
  destruct (run b cs) as [b1 [[]|e]]; [|done]. destruct final; [done|].
  intros [= <- Hv]. by apply validate_all_Ok.
Qed.

End builder.

(** ** What a [prefix_rule] call adds *)

Lemma add_rules_lookup {AbsPath} (rules : list PrefixRule) k : ∀ b : PolicyBuilder AbsPath,
  default [] (b_rules_by_program (foldl add_rule b rules) !! k)
  = default [] (b_rules_by_program b !! k) ++ filter (λ r, rule_program r = k) rules.
Proof.
  induction rules as [|r rules IH]; intros b; simpl; [by rewrite app_nil_r|].
  rewrite IH, filter_cons. simpl. unfold multimap_insert. case_decide as Hk.
  - rewrite <- Hk, lookup_insert_eq. simpl. by rewrite <- app_assoc.
  - by rewrite lookup_insert_ne.
Qed.

Lemma prefix_rule_adds {AbsPath} shlex_split (b : PolicyBuilder AbsPath) pat d m not_m j loc b' :
  prefix_rule shlex_split b pat d m not_m j loc = Ok b' →
  ∃ tokens dec rules, parse_pattern pat = Ok tokens ∧
    match d with Some raw => decision_parse raw = Ok dec | None => dec = Allow end ∧
    pattern_rules tokens dec j = Ok rules ∧
    ∀ k, default [] (b_rules_by_program b' !! k)
         = default [] (b_rules_by_program b !! k) ++ filter (λ r, rule_program r = k) rules.
Proof.
  unfold prefix_rule.
  destruct (match d with Some _ => _ | None => _ end) as [dec|] eqn:Hd; [|done]. simpl.
  unfold checked_justification. destruct (blank_justification j); [done|]. simpl.
  destruct (parse_pattern pat) as [tokens|] eqn:Ep; [|done]. simpl.
  destruct (try_default _ m) as [ms|]; [|done]. simpl.
  destruct (try_default _ not_m) as [ns|]; [|done]. simpl.
  destruct (pattern_rules tokens dec j) as [rules|] eqn:Er; [|done]. simpl. intros [= <-].
  exists tokens, dec, rules. split; [done|]. split; [by destruct d; congruence|]. split; [done|].
  intros k. by rewrite add_rules_lookup.
Qed.
