(* ===== verification/Amend.v ===== *)
(** * Amending a policy file

    Model of [execpolicy/src/amend.rs] and [sandbox_migration.rs]: appending
    a rule to the policy file under its lock, and removing banned rules
    once.

    The file is its text; the outcome of each system call is given by a
    [FileCalls] record (an append that fails may have written any part of
    its text), so that every error path is a value.  JSON is a library:
    [to_json] prints a string, [json_string_list] reads an array of
    strings. *)
From S2P Require Import Prelude RustStr FileSystem ExecPolicy.


(** The variants of the error; the path they carry is the policy path. *)
Inductive AmendError :=
| EmptyPrefix
| InvalidNetworkRule (m : rstr)
| MissingParent
| CreatePolicyDir (e : io_error)
| SerializePrefix
| SerializeNetworkRule
| OpenPolicyFile (e : io_error)
| WritePolicyFile (e : io_error)
| LockPolicyFile (e : io_error)
| SeekPolicyFile (e : io_error)
| ReadPolicyFile (e : io_error)
| PolicyMetadata (e : io_error).

(** The results of the system calls of one amendment. *)
Record FileCalls := mkCalls {
  create_dir_result : option io_error;
  open_result : option io_error;
  lock_result : option io_error;
  seek_result : option io_error;
  read_result : option io_error;
  (** a failed [write_all]: how much was written, and the error *)
  newline_result : option (nat * io_error);
  line_result : option (nat * io_error)
}.

Definition no_failure : FileCalls := mkCalls None None None None None None None.

(** [file.write_all] on a file opened for appending. *)
Definition append_text (contents t : rstr) (failure : option (nat * io_error))
    : rstr * result AmendError unit :=
  match failure with
  | None => (contents ++ t, Ok tt)
  | Some (n, e) => (contents ++ take n t, Err (WritePolicyFile e))
  end.

(** The text of the file after the call, and the result. *)
Definition append_locked_line (env : FileCalls) (contents line : rstr) : rstr * result AmendError unit :=
  match open_result env with
  | Some e => (contents, Err (OpenPolicyFile e))
  | None =>
  match lock_result env with
  | Some e => (contents, Err (LockPolicyFile e))
  | None =>
  match seek_result env with
  | Some e => (contents, Err (SeekPolicyFile e))
  | None =>
  match read_result env with
  | Some e => (contents, Err (ReadPolicyFile e))
  | None =>
      if existsb (λ existing, bool_decide (existing = line)) (lines contents) then (contents, Ok tt)
      else
        let '(contents1, r1) :=
          if negb (is_empty contents) && negb (ends_with [LF] contents)
          then append_text contents [LF] (newline_result env) else (contents, Ok tt) in
        match r1 with
        | Err e => (contents1, Err e)
        | Ok _ => append_text contents1 (line ++ [LF]) (line_result env)
        end
  end end end end.

(** [append_rule_line]; [has_parent] is [policy_path.parent().is_some()] and
    a directory that already exists is no failure. *)
Definition append_rule_line (env : FileCalls) (has_parent : bool) (contents rule : rstr)
    : rstr * result AmendError unit :=
  if negb has_parent then (contents, Err MissingParent)
  else match create_dir_result env with
       | Some e => (contents, Err (CreatePolicyDir e))
       | None => append_locked_line env contents rule
       end.

Section json.
Variable to_json : rstr → option rstr.
Variable json_string_list : rstr → option (list rstr).
(** [err.to_string()] of a policy error. *)
Variable error_message : Error → rstr.

Fixpoint to_json_all (l : list rstr) : option (list rstr) :=
  match l with
  | [] => Some []
  | x :: l' => y ← to_json x; ys ← to_json_all l'; Some (y :: ys)
  end.

Definition pattern_text (tokens : list rstr) : rstr := $"[" ++ join ($", ") tokens ++ $"]".
Definition quoted (s : rstr) : rstr := [DQUOTE] ++ s ++ [DQUOTE].
Definition RULE_PREFIX : rstr := $"prefix_rule(pattern=".
Definition RULE_SUFFIX : rstr := $", decision=" ++ quoted ($"allow") ++ $")".

Definition allow_prefix_rule_text (prefix : list rstr) : option rstr :=
  tokens ← to_json_all prefix;
  Some (RULE_PREFIX ++ pattern_text tokens ++ RULE_SUFFIX).

Definition blocking_append_allow_prefix_rule (env : FileCalls) (has_parent : bool) (contents : rstr)
    (prefix : list rstr) : rstr * result AmendError unit :=
  if is_empty prefix then (contents, Err EmptyPrefix)
  else match allow_prefix_rule_text prefix with
       | None => (contents, Err SerializePrefix)
       | Some rule => append_rule_line env has_parent contents rule
       end.

Definition decision_text (d : Decision) : rstr :=
  match d with Allow => $"allow" | Prompt => $"prompt" | Forbidden => $"deny" end.

Definition network_rule_text (h : rstr) (p : NetworkRuleProtocol) (d : Decision) (j : option rstr)
    : option rstr :=
  h' ← to_json h;
  p' ← to_json (as_policy_string p);
  d' ← to_json (decision_text d);
  j' ← match j with Some raw => t ← to_json raw; Some [$"justification=" ++ t] | None => Some [] end;
  Some ($"network_rule("
        ++ join ($", ") ([$"host=" ++ h'; $"protocol=" ++ p'; $"decision=" ++ d'] ++ j') ++ $")").

Definition blocking_append_network_rule (env : FileCalls) (has_parent : bool) (contents h : rstr)
    (p : NetworkRuleProtocol) (d : Decision) (j : option rstr) : rstr * result AmendError unit :=
  match normalize_network_rule_host h with
  | Err e => (contents, Err (InvalidNetworkRule (error_message e)))
  | Ok h' =>
      if blank_justification j then (contents, Err (InvalidNetworkRule ($"justification cannot be empty")))
      else match network_rule_text h' p d j with
           | None => (contents, Err SerializeNetworkRule)
           | Some rule => append_rule_line env has_parent contents rule
           end
  end.

(** ** The migration *)

Definition strip_or_self (suffix s : rstr) : rstr := default s (strip_suffix suffix s).

Definition should_remove_rule (line : rstr) (banned : list (list rstr)) : bool :=
  let line := strip_or_self [CR] (strip_or_self [LF] line) in
  match strip_prefix RULE_PREFIX line with
  | None => false
  | Some l =>
      match strip_suffix RULE_SUFFIX l with
      | None => false
      | Some pattern =>
          match json_string_list pattern with
          | None => false
          | Some prefix => bool_decide (map to_ascii_lowercase prefix ∈ banned)
          end
      end
  end.

Definition strip_banned_allow_rules (contents : rstr) (banned_prefixes : list (list rstr)) : rstr :=
  let banned := map (map to_ascii_lowercase) banned_prefixes in
  concat (filter (λ line, should_remove_rule line banned = false) (split_inclusive LF contents)).

(** [clean_rules_file] on the text of the file, [None] if it is missing; the
    file is read again once it is open for writing. *)
Definition clean_rules_file (first_read : result io_error rstr) (reopened : result io_error rstr)
    (banned_prefixes : list (list rstr)) : result io_error (option rstr) :=
  match first_read with
  | Err e => if decide (kind e = NotFound) then Ok None else Err e
  | Ok contents =>
      if decide (strip_banned_allow_rules contents banned_prefixes = contents) then Ok None
      else
        match reopened with
        | Err e => if decide (kind e = NotFound) then Ok None else Err e
        | Ok contents =>
            let retained := strip_banned_allow_rules contents banned_prefixes in
            if decide (retained = contents) then Ok None else Ok (Some retained)
        end
  end.

(** [prefix_rule_migration]: whether the marker exists, the reads of the
    policy file, and the attempt to write the marker; the result is the text
    the file was replaced with, if any. *)
Definition prefix_rule_migration (marker_exists : result io_error bool)
    (first_read reopened : result io_error rstr) (banned_prefixes : list (list rstr))
    (write_marker : result io_error unit) : result io_error (option rstr) :=
  exists_ ← marker_exists;
  if (exists_ : bool) then Ok None
  else
    r ← clean_rules_file first_read reopened banned_prefixes;
    _ ← write_marker;
    Ok r.

End json.

(** * Facts about amending a policy file

    An amendment only ever appends, adds its rule as one line and is
    idempotent; the migration removes exactly the banned rules and is
    idempotent as well. *)
(** ** Lines of a text that ends in a newline *)

Definition terminated (s : rstr) : bool := is_empty s || ends_with [LF] s.

Lemma terminated_spec s : terminated s = true ↔ s = [] ∨ ∃ r, s = r ++ [LF].
Proof.
  unfold terminated. rewrite orb_true_iff, is_empty_true, ends_with_spec. done.
Qed.

Lemma split_inclusive_app s t :
  terminated s = true → split_inclusive LF (s ++ t) = split_inclusive LF s ++ split_inclusive LF t.
Proof.
  intros [->|[r ->]]%terminated_spec; [done|]. rewrite <- app_assoc. cbn [app].
  induction r as [|x r IH]; [done|]. cbn [app split_inclusive]. case_decide as E; [by rewrite IH|].
  rewrite IH. destruct (split_inclusive LF (r ++ [LF])) as [|h tl] eqn:E'; [|done].
  pose proof (split_inclusive_concat LF (r ++ [LF])) as Hc. rewrite E' in Hc. by destruct r.
Qed.

Lemma lines_app s t : terminated s = true → lines (s ++ t) = lines s ++ lines t.
Proof. intros Hs. unfold lines. by rewrite split_inclusive_app, fmap_app. Qed.

Lemma lines_line l : line_ok l → lines (l ++ [LF]) = [l].
Proof.
  intros [Hlf Hcr]. unfold lines. rewrite split_inclusive_line by done. cbn.
  by rewrite strip_line_ending_LF.
Qed.

(** The last line of a text. *)
Lemma last_line s : ∃ a l, s = a ++ l ∧ terminated a = true ∧ LF ∉ l.
Proof.
  induction s as [|x s (a & l & -> & Ha & Hl)] using rev_ind.
  { exists [], []. split; [done|]. split; [done|]. apply not_elem_of_nil. }
  destruct (decide (x = LF)) as [->|Hx].
  - exists ((a ++ l) ++ [LF]), []. rewrite app_nil_r. split; [done|]. split; [|apply not_elem_of_nil].
    apply terminated_spec. eauto.
  - exists a, (l ++ [x]). rewrite app_assoc. split; [done|]. split; [done|].
    rewrite elem_of_app, list_elem_of_singleton. intuition congruence.
Qed.

(** Terminating the last line does not change the lines. *)
Lemma lines_snoc_LF s :
  terminated s = false → is_some_and (N.eqb CR) (last s) = false → lines (s ++ [LF]) = lines s.
Proof.
  intros Hs Hcr. destruct (last_line s) as (a & l & -> & Ha & Hl).
  assert (l ≠ []) as Hne by (intros ->; rewrite app_nil_r in Hs; congruence).
  rewrite <- app_assoc, !(lines_app a) by done. f_equal.
  rewrite lines_line.
  - unfold lines. rewrite split_inclusive_last by done. destruct l; [done|]. cbn.
    by rewrite strip_line_ending_id.
  - split; [done|]. destruct l as [|x l _] using rev_ind; [done|].
    rewrite app_assoc, last_snoc in Hcr. by rewrite last_snoc.
Qed.

(** ** Appending a line *)

Lemma append_text_prefix c t f : c `prefix_of` (append_text c t f).1.
Proof. destruct f as [[n e]|]; simpl; apply prefix_app_r; done. Qed.

Lemma append_locked_line_prefix env contents line :
  contents `prefix_of` (append_locked_line env contents line).1.
Proof.
  unfold append_locked_line.
  destruct (open_result env); [done|]. destruct (lock_result env); [done|].
  destruct (seek_result env); [done|]. destruct (read_result env); [done|].
  destruct (existsb _ _); [done|]. destruct (negb _ && negb _); simpl.
  - unfold append_text at 1. destruct (newline_result env) as [[n e]|]; simpl; [by apply prefix_app_r|].
    etrans; [|apply append_text_prefix]. by apply prefix_app_r.
  - apply append_text_prefix.
Qed.

(** What a call with no failing system call does. *)
Definition with_newline (contents : rstr) : rstr := if terminated contents then contents else contents ++ [LF].

Lemma with_newline_terminated contents : terminated (with_newline contents) = true.
Proof. unfold with_newline. destruct (terminated contents) eqn:E; [done|]. apply terminated_spec. eauto. Qed.

Lemma line_present_spec (l : rstr) ls :
  existsb (λ existing, bool_decide (existing = l)) ls = true ↔ l ∈ ls.
Proof.
  rewrite existsb_exists. setoid_rewrite bool_decide_eq_true. setoid_rewrite <- list_elem_of_In. naive_solver.
Qed.

Lemma append_locked_line_Ok env contents line contents' :
  append_locked_line env contents line = (contents', Ok tt) →
  (line ∈ lines contents ∧ contents' = contents) ∨
  ((line ∉ lines contents) ∧ contents' = with_newline contents ++ line ++ [LF]).
Proof.
  unfold append_locked_line.
  destruct (open_result env); [done|]. destruct (lock_result env); [done|].
  destruct (seek_result env); [done|]. destruct (read_result env); [done|].
  destruct (existsb _ _) eqn:He.
  { intros [= <-]. left. by rewrite line_present_spec in He. }
  assert (line ∉ lines contents) as Hni by (rewrite <- line_present_spec; congruence).
  rewrite <- negb_orb. fold (terminated contents). intros Ha. right. split; [done|]. revert Ha.
  unfold with_newline. destruct (terminated contents); simpl.
  - unfold append_text. destruct (line_result env) as [[n e]|]; [done|]. by intros [= <-].
  - unfold append_text. destruct (newline_result env) as [[n e]|]; [done|].
    destruct (line_result env) as [[n e]|]; [done|]. intros [= <-]. done.
Qed.

Lemma append_adds_line env contents line contents' :
  line_ok line → append_locked_line env contents line = (contents', Ok tt) → line ∈ lines contents'.
Proof.
  intros Hl [[? ->]|[_ ->]]%append_locked_line_Ok; [done|].
  rewrite lines_app by apply with_newline_terminated. apply elem_of_app. right.
  rewrite lines_line by done. by apply list_elem_of_singleton.
Qed.

Lemma append_keeps_lines env contents line contents' :
  line_ok line → is_some_and (N.eqb CR) (last contents) = false →
  append_locked_line env contents line = (contents', Ok tt) →
  lines contents' = lines contents ∨ lines contents' = lines contents ++ [line].
Proof.
  intros Hl Hcr [[_ ->]|[_ ->]]%append_locked_line_Ok; [by left|]. right.
  rewrite lines_app by apply with_newline_terminated. rewrite lines_line by done. f_equal.
  unfold with_newline. destruct (terminated contents) eqn:Ht; [done|]. by apply lines_snoc_LF.
Qed.

Lemma append_present env contents line :
  line ∈ lines contents → (append_locked_line env contents line).1 = contents.
Proof.
  intros Hin. unfold append_locked_line.
  destruct (open_result env); [done|]. destruct (lock_result env); [done|].
  destruct (seek_result env); [done|]. destruct (read_result env); [done|].
  by rewrite (proj2 (line_present_spec _ _)).
Qed.

(** ** The migration *)

(** Lines as [split_inclusive] gives them: only the last may be open. *)
Fixpoint segments (ls : list rstr) : Prop :=
  match ls with
  | [] => True
  | l :: ls' => (∃ r, l = r ++ [LF] ∧ LF ∉ r) ∧ segments ls' ∨ (LF ∉ l) ∧ l ≠ [] ∧ ls' = []
  end.

Lemma split_inclusive_segments s : segments (split_inclusive LF s).
Proof.
  induction s as [|x s IH]; [done|]. cbn [split_inclusive]. case_decide as Hx.
  { left. split; [|done]. exists []. subst. split; [done|apply not_elem_of_nil]. }
  destruct (split_inclusive LF s) as [|h t].
  { right. split; [|done]. rewrite list_elem_of_singleton. congruence. }
  destruct IH as [[(r & -> & Hr) Ht]|(Hh & Hne & ->)].
  - left. split; [|done]. exists (x :: r). split; [done|]. rewrite elem_of_cons. intuition congruence.
  - right. split; [|done]. rewrite elem_of_cons. intuition congruence.
Qed.

Lemma split_inclusive_of_segments ls : segments ls → split_inclusive LF (concat ls) = ls.
Proof.
  induction ls as [|l ls IH]; [done|]. simpl. intros [[(r & -> & Hr) Ht]|(Hl & Hne & ->)].
  - rewrite <- app_assoc. cbn [app]. rewrite split_inclusive_line by done. by rewrite IH.
  - simpl. rewrite app_nil_r, split_inclusive_last by done. by destruct l.
Qed.

Lemma filter_segments (P : rstr → Prop) `{!∀ l, stdpp.base.Decision (P l)} ls : segments ls → segments (filter P ls).
Proof.
  induction ls as [|l ls IH]; [done|]. simpl. rewrite filter_cons.
  intros [[Hr Ht]|(Hl & Hne & ->)]; case_decide; simpl; auto.
Qed.

Section strip.
Variable json_string_list : rstr → option (list rstr).
Abbreviation strip := (strip_banned_allow_rules json_string_list).
Abbreviation removes := (should_remove_rule json_string_list).

Lemma strip_lines contents banned :
  split_inclusive LF (strip contents banned)
  = filter (λ line, removes line (map (map to_ascii_lowercase) banned) = false) (split_inclusive LF contents).
Proof. apply split_inclusive_of_segments, filter_segments, split_inclusive_segments. Qed.

Lemma strip_idempotent contents banned : strip (strip contents banned) banned = strip contents banned.
Proof.
  unfold strip_banned_allow_rules at 1. rewrite strip_lines. unfold strip_banned_allow_rules. cbv zeta.
  f_equal. rewrite list_filter_filter. apply list_filter_iff. tauto.
Qed.

End strip.

(** A rule this program wrote is recognised by the migration, in any case of
    its letters. *)
Lemma written_rule_recognised to_json json_string_list prefix rule banned :
  (∀ p tokens, to_json_all to_json p = Some tokens → json_string_list (pattern_text tokens) = Some p) →
  allow_prefix_rule_text to_json prefix = Some rule →
  should_remove_rule json_string_list (rule ++ [LF]) banned = bool_decide (map to_ascii_lowercase prefix ∈ banned).
Proof.
  intros Hjson. unfold allow_prefix_rule_text. destruct (to_json_all to_json prefix) as [tokens|] eqn:Ht; [|done].
  cbn [mbind option_bind]. intros <-%(inj Some). unfold should_remove_rule, strip_or_self.
  rewrite (proj2 (strip_suffix_Some [LF] _ _) eq_refl). cbn [from_option id].
  assert (strip_suffix [CR] (RULE_PREFIX ++ pattern_text tokens ++ RULE_SUFFIX) = None) as ->.
  { apply strip_suffix_None. intros [k Hk]. apply (f_equal last) in Hk. rewrite last_snoc in Hk.
    rewrite !app_assoc in Hk. unfold RULE_SUFFIX, quoted in Hk. rewrite !app_assoc in Hk.
    change ($")") with [41%N] in Hk. rewrite last_snoc in Hk. done. }
  cbn [from_option id]. rewrite strip_prefix_app.
  rewrite (proj2 (strip_suffix_Some RULE_SUFFIX _ _) eq_refl). by rewrite (Hjson _ _ Ht).
Qed.
