(* ===== verification/ExecPolicyProps.v ===== *)
(** * Properties of execution policies

    The claims about [execpolicy/src], each from the lemmas of the component
    files, with concrete instances. *)

From S2P Require Import Prelude RustStr FileSystem ExecPolicy ExecPolicyFacts PolicyParser PolicyParserFacts.
From S2P Require Import Amend.

(** ** A policy to evaluate *)

(** Paths as their text: absolute when they start with a slash. *)
Definition demo_try_from (s : rstr) : option rstr := if starts_with [SLASH] s then Some s else None.
Definition demo_file_name (p : rstr) : option rstr := snd <$> rsplit_once SLASH p.

Definition git_push : PrefixRule := mkRule (mkPattern ($"git") [Single ($"push")]) Forbidden None.
Definition git_any : PrefixRule := mkRule (mkPattern ($"git") []) Allow None.

Definition demo_policy : Policy rstr :=
  mkPolicy {[ $"git" := [git_any; git_push] ]} [] ∅.

Definition ask_heuristics (_ : list rstr) : Decision := Prompt.

(** ** Evaluation *)

(** C4: Checking a command always yields an evaluation (the matched rules
    are never empty, so the aggregation does not panic), and its decision
    is the strictest one among the matched rules: it is the decision of one
    of them and no other is stricter. *)
Theorem check_strictest_match {AbsPath} `{!EqDecision AbsPath} windows (try_from : rstr → option AbsPath)
    file_name (p : Policy AbsPath) (cmd : list rstr) (f : list rstr → Decision) (o : MatchOptions) :
  ∃ e, check_with_options windows try_from file_name p cmd f o = Some e ∧
    matched_rules e = matches_for_command_with_options windows try_from file_name p cmd (Some f) o ∧
    (∃ m, m ∈ matched_rules e ∧ match_decision m = eval_decision e) ∧
    (∀ m, m ∈ matched_rules e → decision_le (match_decision m) (eval_decision e)).
Proof.
  destruct (check_total windows try_from file_name p cmd f o) as [e He]. exists e. split; [done|].
  apply from_matches_spec in He as (-> & Hd & Hle). split; [done|].
  split; [by apply elem_of_fmap_match|done].
Qed.

(** A matching rule binds: if a rule stored under the command's program
    matches a prefix of the command, the decision is at least as strict as
    the rule's, whatever the heuristics, the options and the other rules
    say; in particular a matching forbidden rule forbids the command. *)
Theorem matching_rule_binds {AbsPath} `{!EqDecision AbsPath} windows (try_from : rstr → option AbsPath)
    file_name (p : Policy AbsPath) c tail r pre f o e :
  r ∈ default [] (rules_by_program p !! c) →
  matches_prefix (pattern r) (c :: tail) = Some pre →
  check_with_options windows try_from file_name p (c :: tail) f o = Some e →
  decision_le (rule_decision r) (eval_decision e) ∧
  (rule_decision r = Forbidden → eval_decision e = Forbidden).
Proof.
  intros Hr Hm He.
  assert (decision_le (rule_decision r) (eval_decision e)) as Hle.
  { apply from_matches_spec in He as (_ & _ & Hle).
    assert (PrefixRuleMatch pre (rule_decision r) None (justification r) ∈ exact_matches p (c :: tail)) as Hin.
    { eapply rule_in_exact; [done|]. unfold rule_matches. by rewrite Hm. }
    apply (Hle (PrefixRuleMatch pre (rule_decision r) None (justification r))).
    rewrite matches_exact; [done|]. intros E. rewrite E in Hin. by apply elem_of_nil in Hin. }
  split; [done|]. intros E. rewrite E in Hle. apply decision_rank_inj. unfold decision_le in Hle.
  destruct (eval_decision e); simpl in *; lia.
Qed.

Lemma matching_rule_binds_witness :
  decision_le Forbidden Forbidden ∧ (Forbidden = Forbidden → Forbidden = Forbidden).
Proof.
  apply (matching_rule_binds false demo_try_from demo_file_name demo_policy ($"git") [$"push"; $"origin"]
    git_push [$"git"; $"push"] ask_heuristics default_match_options
    (mkEvaluation Forbidden [PrefixRuleMatch [$"git"] Allow None None;
                             PrefixRuleMatch [$"git"; $"push"] Forbidden None None])).
  - apply (list_elem_of_lookup_2 _ 1). by vm_compute.
  - by vm_compute.
  - by vm_compute.
Defined.

(** A command is only allowed on grounds: with host executables not
    resolved, an [Allow] evaluation means that some rule matches and every
    rule that matches allows, or that no rule matches and the heuristics
    allow. *)
Theorem allow_has_grounds {AbsPath} `{!EqDecision AbsPath} windows (try_from : rstr → option AbsPath)
    file_name (p : Policy AbsPath) (cmd : list rstr) f e :
  check windows try_from file_name p cmd f = Some e → eval_decision e = Allow →
  (exact_matches p cmd ≠ [] ∧ ∀ c tail r, cmd = c :: tail → r ∈ default [] (rules_by_program p !! c) →
     is_Some (matches_prefix (pattern r) cmd) → rule_decision r = Allow) ∨
  (exact_matches p cmd = [] ∧ f cmd = Allow).
Proof.
  unfold check, check_with_options. intros He Ha. apply from_matches_spec in He as (_ & Hin & Hle).
  rewrite Ha in *. destruct (decide (is_empty (exact_matches p cmd) = true)) as [Hem|Hne].
  - right. apply is_empty_true in Hem. split; [done|]. rewrite matches_fallback in Hin by done.
    simpl in Hin. by apply list_elem_of_singleton in Hin.
  - left. apply not_true_iff_false, is_empty_false in Hne. split; [done|].
    intros c tail r -> Hr [pre Hpre]. rewrite matches_exact in Hle by done.
    assert (decision_le (rule_decision r) Allow) as Hd.
    { apply (Hle (PrefixRuleMatch pre (rule_decision r) None (justification r))).
      eapply rule_in_exact; [done|]. unfold rule_matches. by rewrite Hpre. }
    destruct (rule_decision r); unfold decision_le in Hd; simpl in Hd; [done|lia..].
Qed.

Lemma allow_has_grounds_witness :
  let cmd := [$"git"; $"status"] in
  (exact_matches demo_policy cmd ≠ [] ∧
     ∀ c tail r, cmd = c :: tail → r ∈ default [] (rules_by_program demo_policy !! c) →
       is_Some (matches_prefix (pattern r) cmd) → rule_decision r = Allow) ∨
  (exact_matches demo_policy cmd = [] ∧ ask_heuristics cmd = Allow).
Proof.
  apply (allow_has_grounds false demo_try_from demo_file_name demo_policy [$"git"; $"status"] ask_heuristics
    (mkEvaluation Allow [PrefixRuleMatch [$"git"] Allow None None])); by vm_compute.
Defined.

(** Checking several commands takes the strictest of their decisions
    and all their matches in order; the only input on which the aggregation
    panics is the empty list of commands. *)
Theorem check_multiple_aggregates {AbsPath} `{!EqDecision AbsPath} windows (try_from : rstr → option AbsPath)
    file_name (p : Policy AbsPath) f o :
  check_multiple_with_options windows try_from file_name p [] f o = None ∧
  (∀ cmd, check_multiple_with_options windows try_from file_name p [cmd] f o
          = check_with_options windows try_from file_name p cmd f o) ∧
  ∀ cmd cmd' cmds, ∃ e e',
    check_with_options windows try_from file_name p cmd f o = Some e ∧
    check_multiple_with_options windows try_from file_name p (cmd' :: cmds) f o = Some e' ∧
    check_multiple_with_options windows try_from file_name p (cmd :: cmd' :: cmds) f o
    = Some (mkEvaluation (decision_max (eval_decision e) (eval_decision e'))
              (matched_rules e ++ matched_rules e')).
Proof.
  split; [done|]. split.
  { intros cmd. unfold check_multiple_with_options, check_with_options. simpl. by rewrite app_nil_r. }
  intros cmd cmd' cmds. destruct (check_total windows try_from file_name p cmd f o) as [e He].
  assert (is_Some (check_multiple_with_options windows try_from file_name p (cmd' :: cmds) f o)) as [e' He'].
  { apply from_matches_Some. rewrite fmap_cons. cbn [concat].
    pose proof (matches_nonempty windows try_from file_name p cmd' f o) as Hne.
    by destruct (matches_for_command_with_options windows try_from file_name p cmd' (Some f) o). }
  exists e, e'. split; [done|]. split; [done|]. by apply check_multiple_cons.
Qed.

(** A prefix pattern matches a command exactly when one of the word
    sequences it stands for (its first word, then one alternative per
    token) is a prefix of the command, and it reports that prefix. *)
Theorem prefix_pattern_language (p : PrefixPattern) (cmd pre : list rstr) :
  matches_prefix p cmd = Some pre ↔ ∃ e, e ∈ expand (rest p) ∧ pre = first p :: e ∧ pre `prefix_of` cmd.
Proof. apply matches_prefix_spec. Qed.

(** An overlay only adds rules: the rule matches of the merged policy
    are those of the base followed by those of the overlay, so where the
    base already has a matching rule the merged decision is never more
    permissive than the base's. *)
Theorem overlay_never_relaxes {AbsPath} `{!EqDecision AbsPath} windows (try_from : rstr → option AbsPath)
    file_name (base overlay : Policy AbsPath) cmd f o e e' :
  exact_matches base cmd ≠ [] →
  check_with_options windows try_from file_name base cmd f o = Some e →
  check_with_options windows try_from file_name (merge_overlay base overlay) cmd f o = Some e' →
  matched_rules e' = matched_rules e ++ exact_matches overlay cmd ∧
  decision_le (eval_decision e) (eval_decision e').
Proof.
  intros Hne He He'. apply from_matches_spec in He as (Hm & Hd & _). apply from_matches_spec in He' as (Hm' & _ & Hle').
  rewrite matches_exact in Hm, Hd by done.
  assert (exact_matches (merge_overlay base overlay) cmd ≠ []) as Hne'.
  { rewrite merge_exact_matches. by destruct (exact_matches base cmd). }
  rewrite matches_exact in Hm', Hle' by done. rewrite merge_exact_matches in Hm', Hle'.
  split; [congruence|]. apply elem_of_fmap_match in Hd as (m & Hmin & <-). apply Hle'.
  apply elem_of_app. by left.
Qed.

Lemma overlay_never_relaxes_witness :
  [PrefixRuleMatch (AbsPath:=rstr) [$"git"] Allow None None; PrefixRuleMatch [$"git"; $"push"] Forbidden None None]
  = [PrefixRuleMatch [$"git"] Allow None None]
    ++ exact_matches (mkPolicy {[ $"git" := [git_push] ]} [] ∅) [$"git"; $"push"] ∧ decision_le Allow Forbidden.
Proof.
  apply (overlay_never_relaxes false demo_try_from demo_file_name (mkPolicy {[ $"git" := [git_any] ]} [] ∅)
    (mkPolicy {[ $"git" := [git_push] ]} [] ∅) [$"git"; $"push"] ask_heuristics default_match_options
    (mkEvaluation Allow [PrefixRuleMatch [$"git"] Allow None None])
    (mkEvaluation Forbidden [PrefixRuleMatch [$"git"] Allow None None;
                             PrefixRuleMatch [$"git"; $"push"] Forbidden None None])); by vm_compute.
Defined.

(** The compiled network domains follow the last verdict: the allowed
    and denied lists have no duplicates, a host is allowed exactly if the
    last rule on it that is not a prompt allows, and denied exactly if that
    rule forbids (so no host is in both lists). *)
Theorem network_domains_last_verdict {AbsPath} (p : Policy AbsPath) :
  let '(allowed, denied) := compiled_network_domains p in
  NoDup allowed ∧ NoDup denied ∧
  (∀ h, h ∈ allowed ↔ last_verdict h (network_rules p) = Some Allow) ∧
  (∀ h, h ∈ denied ↔ last_verdict h (network_rules p) = Some Forbidden).
Proof.
  pose proof (compiled_domains_ok p) as Hp. destruct (compiled_network_domains p) as [allowed denied]. exact Hp.
Qed.

(** The allowed prefixes are listed in strictly increasing order and
    are exactly the renderings of the rules that allow. *)
Theorem allowed_prefixes_canonical {AbsPath} (p : Policy AbsPath) :
  StronglySorted (λ a b, words_le a b = true ∧ a ≠ b) (get_allowed_prefixes p) ∧
  ∀ pre, pre ∈ get_allowed_prefixes p ↔
    ∃ k rules r, rules_by_program p !! k = Some rules ∧ r ∈ rules ∧ rule_decision r = Allow ∧ rendered_prefix r = pre.
Proof. split; [apply allowed_prefixes_sorted|apply allowed_prefixes_elem]. Qed.

(** ** Policy files *)

(** A [prefix_rule] call adds, for every program, the rules of its
    pattern after the rules already there, all with the call's decision;
    together they match a command exactly when some choice of one
    alternative per pattern element is a prefix of the command. *)
Theorem prefix_rule_call_meaning {AbsPath} shlex_split (b b' : PolicyBuilder AbsPath) pat d m not_m j loc :
  prefix_rule shlex_split b pat d m not_m j loc = Ok b' →
  ∃ tokens dec rules, parse_pattern pat = Ok tokens ∧
    match d with Some raw => decision_parse raw = Ok dec | None => dec = Allow end ∧
    (∀ k, default [] (b_rules_by_program b' !! k)
          = default [] (b_rules_by_program b !! k) ++ filter (λ r, rule_program r = k) rules) ∧
    Forall (λ r, rule_decision r = dec ∧ justification r = j) rules ∧
    ∀ cmd, (∃ r, r ∈ rules ∧ is_Some (matches_prefix (pattern r) cmd)) ↔
           ∃ e, e ∈ expand tokens ∧ e `prefix_of` cmd.
Proof.
  intros (tokens & dec & rules & Hp & Hd & Hr & Hk)%prefix_rule_adds. exists tokens, dec, rules.
  split; [done|]. split; [done|]. split; [done|]. split; [|intros cmd; by eapply pattern_rules_match].
  destruct tokens as [|t ts]; [done|]. injection Hr as <-. apply Forall_forall.
  by intros r (h & -> & _)%list_elem_of_fmap.
Qed.

Definition demo_pattern : list Value := [VList [VStr ($"npm"); VStr ($"yarn")]; VStr ($"install")].

Definition demo_builder : PolicyBuilder rstr := Eval vm_compute in
  match prefix_rule (λ _, None) builder_new demo_pattern None None None None None with
  | Ok b => b
  | Err _ => builder_new
  end.

Lemma prefix_rule_call_meaning_witness :
  ∃ tokens dec rules, parse_pattern demo_pattern = Ok tokens ∧ dec = Allow ∧
    (∀ k, default [] (b_rules_by_program demo_builder !! k)
          = default [] (b_rules_by_program (AbsPath:=rstr) builder_new !! k)
            ++ filter (λ r, rule_program r = k) rules) ∧
    Forall (λ r, rule_decision r = dec ∧ justification r = None) rules ∧
    ∀ cmd, (∃ r, r ∈ rules ∧ is_Some (matches_prefix (pattern r) cmd)) ↔
           ∃ e, e ∈ expand tokens ∧ e `prefix_of` cmd.
Proof.
  apply (prefix_rule_call_meaning (λ _, None) builder_new demo_builder demo_pattern None None None None None).
  by vm_compute.
Defined.

(** Parsing keeps the builder well-formed, whether it succeeds or fails
    half-way: every stored rule is under its own program with alternatives
    of at least two words, every network host is normalised, and the paths
    of a host executable are distinct and have its name. *)
Theorem parsing_keeps_builder_ok {AbsPath} `{!EqDecision AbsPath} windows (try_from : rstr → option AbsPath)
    file_name is_absolute component_count name_file_name try_from_message shlex_split shlex_join debug_rule
    debug_match starlark_message eval_policy (b : PolicyBuilder AbsPath) id text :
  builder_ok windows file_name b →
  builder_ok windows file_name
    (parse_policy windows try_from file_name is_absolute component_count name_file_name try_from_message
       shlex_split shlex_join debug_rule debug_match starlark_message eval_policy b id text).1.
Proof. apply parse_policy_ok. Qed.

(** An interpreter for one file with two calls, the second of which fails. *)
Definition demo_eval (_ _ : rstr) : result rstr (list Call * option rstr) :=
  Ok ([CallPrefixRule demo_pattern None None None None None; CallNetworkRule ($"*.example.com") ($"http") ($"allow") None],
      None).

Lemma builder_new_ok {AbsPath} windows (file_name : AbsPath → option rstr) : builder_ok windows file_name builder_new.
Proof. split; [apply map_Forall_empty|]. split; [constructor|apply map_Forall_empty]. Qed.

Lemma parsing_keeps_builder_ok_witness :
  builder_ok false demo_file_name
    (parse_policy false demo_try_from demo_file_name (starts_with [SLASH]) (λ _, 1) Some (λ _, []) (λ _, None)
       (λ _, None) (λ _, []) (λ _, []) (λ _, []) demo_eval builder_new ($"default.rules") []).1.
Proof.
  apply (parsing_keeps_builder_ok false demo_try_from demo_file_name). apply builder_new_ok.
Defined.

(** A successful parse has checked every example of the file: each
    [match] example is matched, and no [not_match] example is matched, by
    the rules of its own call together with the host executables. *)
Theorem parsed_examples_hold {AbsPath} `{!EqDecision AbsPath} windows (try_from : rstr → option AbsPath)
    file_name is_absolute component_count name_file_name try_from_message shlex_split shlex_join debug_rule
    debug_match starlark_message eval_policy (b b' : PolicyBuilder AbsPath) id text :
  parse_policy windows try_from file_name is_absolute component_count name_file_name try_from_message
    shlex_split shlex_join debug_rule debug_match starlark_message eval_policy b id text = (b', Ok tt) →
  Forall (examples_hold windows try_from file_name b')
    (drop (length (pending_example_validations b)) (pending_example_validations b')).
Proof. apply parse_policy_examples. Qed.

Definition demo_eval_examples (_ _ : rstr) : result rstr (list Call * option rstr) :=
  Ok ([CallPrefixRule demo_pattern None (Some [VList [VStr ($"yarn"); VStr ($"install"); VStr ($"-D")]])
         (Some [VList [VStr ($"yarn"); VStr ($"add")]]) None None], None).

Definition demo_parse := Eval vm_compute in
  parse_policy false demo_try_from demo_file_name (starts_with [SLASH]) (λ _, 1) Some (λ _, []) (λ _, None)
    (λ _, None) (λ _, []) (λ _, []) (λ _, []) demo_eval_examples builder_new ($"default.rules") [].

Lemma parsed_examples_hold_witness :
  Forall (examples_hold false demo_try_from demo_file_name demo_parse.1) (pending_example_validations demo_parse.1).
Proof.
  apply (parsed_examples_hold false demo_try_from demo_file_name (starts_with [SLASH]) (λ _, 1) Some (λ _, [])
    (λ _, None) (λ _, None) (λ _, []) (λ _, []) (λ _, []) demo_eval_examples builder_new demo_parse.1
    ($"default.rules") []). by vm_compute.
Defined.

(** ** Amendments *)

(** Appending a rule never loses text: whatever system call fails, and
    wherever a write stops, the old text of the policy file is a prefix of
    the new one. *)
Theorem append_never_truncates (env : FileCalls) (contents line : rstr) :
  contents `prefix_of` (append_locked_line env contents line).1.
Proof. apply append_locked_line_prefix. Qed.

(** A successful append makes the rule one line of the file and keeps
    the other lines: the lines are the old ones, or the old ones followed by
    the rule; and appending it again changes nothing.  (The text must not
    end in a carriage return without a newline.) *)
Theorem append_is_idempotent (env env' : FileCalls) (contents line contents' : rstr) :
  line_ok line → is_some_and (N.eqb CR) (last contents) = false →
  append_locked_line env contents line = (contents', Ok tt) →
  line ∈ lines contents' ∧
  (lines contents' = lines contents ∨ lines contents' = lines contents ++ [line]) ∧
  (append_locked_line env' contents' line).1 = contents'.
Proof.
  intros Hl Hcr Ha. pose proof (append_adds_line _ _ _ _ Hl Ha) as Hin.
  split; [done|]. split; [by eapply append_keeps_lines|by apply append_present].
Qed.

Lemma append_is_idempotent_witness :
  $"b" ∈ lines ($"a" ++ [LF] ++ $"b" ++ [LF]) ∧
  (lines ($"a" ++ [LF] ++ $"b" ++ [LF]) = lines ($"a")
   ∨ lines ($"a" ++ [LF] ++ $"b" ++ [LF]) = lines ($"a") ++ [$"b"]) ∧
  (append_locked_line no_failure ($"a" ++ [LF] ++ $"b" ++ [LF]) ($"b")).1 = $"a" ++ [LF] ++ $"b" ++ [LF].
Proof.
  apply (append_is_idempotent no_failure no_failure ($"a") ($"b") ($"a" ++ [LF] ++ $"b" ++ [LF]));
    [by apply (bool_decide_unpack _)|reflexivity|by vm_compute].
Defined.

(** The migration removes exactly the banned allow rules and leaves
    every other line as it is, byte for byte and in order; running it again
    changes nothing; and a rule line this program appended is removed
    exactly if its prefix is banned, letters compared without case. *)
Theorem migration_removes_banned_rules to_json json_string_list (contents : rstr) (banned : list (list rstr)) :
  (∀ p tokens, to_json_all to_json p = Some tokens → json_string_list (pattern_text tokens) = Some p) →
  split_inclusive LF (strip_banned_allow_rules json_string_list contents banned)
  = filter (λ line, should_remove_rule json_string_list line (map (map to_ascii_lowercase) banned) = false)
      (split_inclusive LF contents) ∧
  strip_banned_allow_rules json_string_list (strip_banned_allow_rules json_string_list contents banned) banned
  = strip_banned_allow_rules json_string_list contents banned ∧
  ∀ prefix rule, allow_prefix_rule_text to_json prefix = Some rule →
    should_remove_rule json_string_list (rule ++ [LF]) (map (map to_ascii_lowercase) banned)
    = bool_decide (map to_ascii_lowercase prefix ∈ map (map to_ascii_lowercase) banned).
Proof.
  intros Hjson. split; [apply strip_lines|]. split; [apply strip_idempotent|].
  intros prefix rule Hr. by eapply written_rule_recognised.
Qed.

(** A printer and reader of arrays of strings without escapes. *)
Definition plain_json (s : rstr) : option rstr := if decide (DQUOTE ∈ s) then None else Some (quoted s).

Fixpoint json_items (s : rstr) (cur : option rstr) : option (list rstr) :=
  match s, cur with
  | [], None => Some []
  | [], Some _ => None
  | c :: s', Some acc =>
      if decide (c = DQUOTE) then r ← json_items s' None; Some (acc :: r) else json_items s' (Some (acc ++ [c]))
  | c :: s', None =>
      if decide (c = DQUOTE) then json_items s' (Some [])
      else if decide (c ∈ [44%N; SPACE]) then json_items s' None else None
  end.

Definition plain_json_list (t : rstr) : option (list rstr) :=
  t ← strip_prefix ($"[") t; t ← strip_suffix ($"]") t; json_items t None.

Lemma json_items_string x s : ∀ acc,
  DQUOTE ∉ x → json_items (x ++ DQUOTE :: s) (Some acc) = (r ← json_items s None; Some ((acc ++ x) :: r)).
Proof.
  induction x as [|c x IH]; intros acc Hx; cbn [json_items app].
  { rewrite decide_True by done. by rewrite app_nil_r. }
  apply not_elem_of_cons in Hx as [Hc Hx]. rewrite decide_False by done. rewrite IH by done. by rewrite <- app_assoc.
Qed.

Lemma json_items_separator c s : c = 44%N ∨ c = SPACE → json_items (c :: s) None = json_items s None.
Proof. by intros [->| ->]. Qed.

Lemma json_items_join p : ∀ tokens,
  to_json_all plain_json p = Some tokens → json_items (join ($", ") tokens) None = Some p.
Proof.
  induction p as [|x p IH]; intros tokens; cbn [to_json_all]; [by intros [= <-]|].
  destruct (plain_json x) as [y0|] eqn:Hy; [|done]. unfold plain_json in Hy. case_decide as Hx; [done|].
  apply (inj Some) in Hy as <-. cbn [mbind option_bind].
  destruct (to_json_all plain_json p) as [ys|] eqn:Ey; [|done]. cbn [mbind option_bind]. intros <-%(inj Some).
  specialize (IH ys eq_refl). unfold quoted.
  destruct ys as [|y ys].
  - destruct p as [|x' p'].
    2: { revert Ey. cbn [to_json_all]. destruct (plain_json x'); [|done]. by destruct (to_json_all plain_json p'). }
    cbn [join app json_items]. rewrite decide_True by done. rewrite (json_items_string x []) by done. done.
  - change (join (str ", ") (([DQUOTE] ++ x ++ [DQUOTE]) :: y :: ys))
      with (([DQUOTE] ++ x ++ [DQUOTE]) ++ str ", " ++ join (str ", ") (y :: ys)).
    rewrite <- !app_assoc. cbn [app json_items]. rewrite decide_True by done.
    rewrite json_items_string by done.
    change (str ", " ++ join (str ", ") (y :: ys)) with (44%N :: SPACE :: join (str ", ") (y :: ys)).
    rewrite !json_items_separator by auto. by rewrite IH.
Qed.

Lemma plain_json_round_trip p tokens :
  to_json_all plain_json p = Some tokens → plain_json_list (pattern_text tokens) = Some p.
Proof.
  intros Ht. unfold plain_json_list, pattern_text. rewrite strip_prefix_app. cbn [mbind option_bind].
  rewrite (proj2 (strip_suffix_Some _ _ _) eq_refl). by apply json_items_join.
Qed.

Lemma migration_removes_banned_rules_witness :
  let text := RULE_PREFIX ++ pattern_text [quoted ($"Bash"); quoted ($"-lc")] ++ RULE_SUFFIX ++ [LF] in
  strip_banned_allow_rules plain_json_list (strip_banned_allow_rules plain_json_list text [[$"bash"; $"-lc"]])
    [[$"bash"; $"-lc"]] = [].
Proof.
  cbv zeta. rewrite (proj1 (proj2 (migration_removes_banned_rules plain_json plain_json_list _ [[$"bash"; $"-lc"]]
    plain_json_round_trip))). by vm_compute.
Defined.
