(* ===== verification/StreamText.v ===== *)
(** * Streaming text parsers

    The interface of [utils/stream-parser/src/stream_text.rs]: a parser is
    fed chunks of text and gives back visible text and extracted payloads.
    [ChunkInvariant] states what every parser of the crate promises its
    clients: the result does not depend on how the text is cut into chunks,
    up to an equivalence on payloads (adjacent text segments may be merged
    differently).

    The second part holds what the parsers share on first occurrences of a
    delimiter in a text that is still growing. *)

From S2P Require Import Prelude RustStr.

Record StreamTextChunk (T : Type) := mkStreamChunk { visible_text : rstr; extracted : list T }.
Arguments mkStreamChunk {T} visible_text extracted.
Arguments visible_text {T}.
Arguments extracted {T}.

Definition chunk_default {T} : StreamTextChunk T := mkStreamChunk [] [].

(** [StreamTextChunk::is_empty]. *)
Definition chunk_empty {T} (c : StreamTextChunk T) : bool := is_empty (visible_text c) && is_empty (extracted c).

(** What a client accumulates. *)
Definition chunk_app {T} (a b : StreamTextChunk T) : StreamTextChunk T :=
  mkStreamChunk (visible_text a ++ visible_text b) (extracted a ++ extracted b).

Class StreamTextParser (P T : Type) := {
  push_str : P → rstr → P * StreamTextChunk T;
  finish : P → P * StreamTextChunk T
}.

(** Feed several chunks, and then the end of the stream. *)
Fixpoint push_all `{StreamTextParser P T} (p : P) (chunks : list rstr) : P * StreamTextChunk T :=
  match chunks with
  | [] => (p, chunk_default)
  | c :: chunks' =>
      let '(p1, o1) := push_str p c in
      let '(p2, o2) := push_all p1 chunks' in
      (p2, chunk_app o1 o2)
  end.

Definition run_stream `{StreamTextParser P T} (p : P) (chunks : list rstr) : StreamTextChunk T :=
  let '(p1, o1) := push_all p chunks in
  chunk_app o1 (finish p1).2.

(** The promise of a parser: on the states that satisfy [ok], cutting a
    chunk in two changes neither the final state nor the visible text, and
    the payloads only up to [norm]. *)
Class ChunkInvariant (P T : Type) `{!StreamTextParser P T} (ok : P → Prop) (norm : list T → list T) : Prop := {
  push_ok p c : ok p → ok (push_str p c).1;
  push_nil p : ok p → push_str p [] = (p, chunk_default);
  push_app p a b : ok p →
    let '(p1, o1) := push_str p a in
    let '(p2, o2) := push_str p1 b in
    let '(p3, o3) := push_str p (a ++ b) in
    p3 = p2 ∧ visible_text o3 = visible_text o1 ++ visible_text o2 ∧
    norm (extracted o3) = norm (extracted o1 ++ extracted o2);
  norm_app l l' k k' : norm l = norm l' → norm k = norm k' → norm (l ++ k) = norm (l' ++ k')
}.

Section invariant.
Context `{Hci : ChunkInvariant P T ok norm}.

Lemma push_all_ok chunks : ∀ p, ok p → ok (push_all p chunks).1.
Proof.
  induction chunks as [|c chunks IH]; intros p Hp; simpl; [done|].
  pose proof (push_ok p c Hp) as Hok. destruct (push_str p c) as [p1 o1]. specialize (IH p1 Hok).
  by destruct (push_all p1 chunks).
Qed.

Lemma push_all_concat chunks : ∀ p, ok p →
  let '(p1, o1) := push_all p chunks in
  let '(p2, o2) := push_str p (concat chunks) in
  p1 = p2 ∧ visible_text o1 = visible_text o2 ∧ norm (extracted o1) = norm (extracted o2).
Proof.
  induction chunks as [|c chunks IH]; intros p Hp; simpl; [by rewrite push_nil|].
  pose proof (push_app p c (concat chunks) Hp) as Happ. pose proof (push_ok p c Hp) as Hok.
  destruct (push_str p c) as [p1 o1]. simpl in Hok. specialize (IH p1 Hok).
  destruct (push_all p1 chunks) as [p2 o2]. destruct (push_str p1 (concat chunks)) as [p2' o2'].
  destruct (push_str p (c ++ concat chunks)) as [p3 o3].
  destruct Happ as (-> & Hv & Hn), IH as (<- & Hv' & Hn'). simpl.
  split; [done|]. split; [by rewrite Hv, Hv'|]. rewrite Hn. by apply norm_app.
Qed.

Lemma run_stream_concat p chunks chunks' : ok p → concat chunks = concat chunks' →
  visible_text (run_stream p chunks) = visible_text (run_stream p chunks') ∧
  norm (extracted (run_stream p chunks)) = norm (extracted (run_stream p chunks')).
Proof.
  intros Hp E. unfold run_stream. pose proof (push_all_concat chunks p Hp) as H1.
  pose proof (push_all_concat chunks' p Hp) as H2. rewrite <- E in H2.
  destruct (push_all p chunks) as [p1 o1], (push_all p chunks') as [p2 o2], (push_str p (concat chunks)) as [p3 o3].
  destruct H1 as (-> & Hv1 & Hn1), H2 as (-> & Hv2 & Hn2). simpl.
  split; [by rewrite Hv1, Hv2|]. apply norm_app; [congruence|done].
Qed.
End invariant.

(** ** First occurrences *)

Definition occurs (needle s : rstr) (i : nat) : Prop := needle `prefix_of` drop i s.

Lemma find_Some needle s i :
  find needle s = Some i ↔ occurs needle s i ∧ ∀ j, j < i → ¬ occurs needle s j.
Proof.
  unfold occurs. revert i. induction s as [|c s IH]; intros i; cbn [find].
  - destruct (starts_with needle []) eqn:E.
    + apply starts_with_spec in E. split; [intros [= <-]; split; [done|lia]|].
      intros [_ H]. destruct i; [done|]. destruct (H 0); [lia|done].
    + assert (¬ needle `prefix_of` []) as Hn by (rewrite <- starts_with_spec; congruence).
      split; [done|]. intros [H _]. by rewrite drop_nil in H.
  - destruct (starts_with needle (c :: s)) eqn:E.
    + apply starts_with_spec in E. split; [intros [= <-]; split; [done|lia]|].
      intros [_ H]. destruct i; [done|]. destruct (H 0); [lia|done].
    + assert (¬ needle `prefix_of` c :: s) as Hn by (rewrite <- starts_with_spec; congruence).
      rewrite fmap_Some. split.
      * intros (k & Hk%IH & ->). destruct Hk as [Hk1 Hk2]. split; [done|].
        intros [|j] Hj; [done|]. apply Hk2. lia.
      * intros [H1 H2]. destruct i as [|i]; [done|]. exists i. split; [|done]. apply IH.
        split; [done|]. intros j Hj. apply (H2 (S j)). lia.
Qed.

Lemma find_None needle s : needle ≠ [] → find needle s = None ↔ ∀ j, ¬ occurs needle s j.
Proof.
  intros Hne. split.
  - intros Hf j Hj.
    assert (∃ k, occurs needle s k ∧ ∀ l, l < k → ¬ occurs needle s l) as (k & Hk).
    { revert Hj. induction (lt_wf j) as [j _ IH]. intros Hj.
      destruct (decide (Exists (λ l, needle `prefix_of` drop l s) (seq 0 j))) as [Hex|Hex].
      - apply Exists_exists in Hex as (l & Hl%elem_of_seq & Hocc). apply (IH l); [lia|done].
      - exists j. split; [done|]. intros l Hl Hocc. apply Hex, Exists_exists.
        exists l. split; [apply elem_of_seq; lia|done]. }
    apply find_Some in Hk. congruence.
  - intros H. destruct (find needle s) as [i|] eqn:E; [|done]. apply find_Some in E as [E _]. by destruct (H i).
Qed.

Lemma occurs_length needle s i : needle ≠ [] → occurs needle s i → i + length needle ≤ length s.
Proof.
  intros Hne [k Hk]. apply (f_equal length) in Hk. rewrite length_app, length_drop in Hk.
  destruct needle; [done|]. simpl in *. lia.
Qed.

Lemma occurs_app_l needle a b i : occurs needle a i → occurs needle (a ++ b) i ∨ needle = [].
Proof.
  intros Ho. destruct (decide (needle = [])) as [->|Hne]; [by right|left].
  pose proof (occurs_length _ _ _ Hne Ho). unfold occurs in *.
  rewrite drop_app_le by lia. by apply prefix_app_r.
Qed.

Lemma occurs_app_inv needle a b i :
  i + length needle ≤ length a → occurs needle (a ++ b) i → occurs needle a i.
Proof.
  unfold occurs. intros Hl. rewrite drop_app_le by lia. intros [k Hk].
  exists (drop (length needle) (drop i a)). rewrite <- (take_drop (length needle) (drop i a)) at 1. f_equal.
  apply (f_equal (take (length needle))) in Hk.
  rewrite take_app_le in Hk by (rewrite length_drop; lia). by rewrite take_app_length in Hk.
Qed.

(** An occurrence in a text stays the first one when the text grows. *)
Lemma find_stable needle a b i : needle ≠ [] → find needle a = Some i → find needle (a ++ b) = Some i.
Proof.
  intros Hne [Ho Hf]%find_Some. apply find_Some. split; [by destruct (occurs_app_l _ _ b _ Ho)|].
  intros j Hj Hoj. apply (Hf j Hj). eapply occurs_app_inv; [|done].
  pose proof (occurs_length _ _ _ Hne Ho). lia.
Qed.

Lemma occurs_drop needle s n i : n ≤ i → occurs needle s i ↔ occurs needle (drop n s) (i - n).
Proof. intros Hn. unfold occurs. rewrite drop_drop. by replace (n + (i - n)) with i by lia. Qed.

(** If nothing occurs before [n], searching after [n] is searching. *)
Lemma find_drop needle s n : needle ≠ [] → (∀ j, j < n → ¬ occurs needle s j) →
  find needle s = (λ i, n + i) <$> find needle (drop n s).
Proof.
  intros Hne Hn. destruct (find needle (drop n s)) as [i|] eqn:E; simpl.
  - apply find_Some in E as [Ho Hf]. apply find_Some. split.
    + rewrite (occurs_drop _ _ n) by lia. by replace (n + i - n) with i by lia.
    + intros j Hj. destruct (decide (j < n)) as [|Hge]; [by apply Hn|].
      rewrite (occurs_drop _ _ n) by lia. apply Hf. lia.
  - apply find_None; [done|]. intros j. destruct (decide (j < n)) as [|Hge]; [by apply Hn|].
    rewrite (occurs_drop _ _ n) by lia. by apply find_None.
Qed.
