(* ===== verification/InlineTags.v ===== *)
(** * Hidden inline tags

    [utils/stream-parser/src/inline_hidden_tag.rs] and [citation.rs]: a
    streaming parser that hides tagged spans of a text and extracts their
    contents, keeping back the end of a chunk as long as it may be the start
    of a delimiter.  [push_step] is one iteration of the [loop] of
    [push_str], [push_loop] the loop; [push_loop_fuel] shows that the fuel
    chosen is enough. *)

From S2P Require Import Prelude RustStr StreamText.

Section parser.
Context {T : Type}.

Record ExtractedInlineTag := mkExtracted { ex_tag : T; ex_content : rstr }.
Record InlineTagSpec := mkTagSpec { ts_tag : T; ts_open : rstr; ts_close : rstr }.
Record ActiveTag := mkActive { at_tag : T; at_close : rstr; at_content : rstr }.

Record InlineHiddenTagParser := mkInlineParser {
  ip_specs : list InlineTagSpec;
  ip_pending : rstr;
  ip_active : option ActiveTag
}.

(** [InlineHiddenTagParser::new]: its assertions panic. *)
Definition new_inline_parser (specs : list InlineTagSpec) : option InlineHiddenTagParser :=
  if is_empty specs then None
  else if existsb (λ s, is_empty (ts_open s) || is_empty (ts_close s)) specs then None
  else Some (mkInlineParser specs [] None).

(** The comparison of [find_next_open]: position, then the longer opener,
    then the index. *)
Definition open_cand_lt (a b : nat * nat * nat) : bool :=
  let '(pos_a, len_a, idx_a) := a in
  let '(pos_b, len_b, idx_b) := b in
  match Nat.compare pos_a pos_b with
  | Lt => true
  | Gt => false
  | Eq => match Nat.compare len_b len_a with
          | Lt => true
          | Gt => false
          | Eq => idx_a <? idx_b
          end
  end.

(** [Iterator::min_by]: the first of the smallest elements. *)
Fixpoint min_by {A} (lt : A → A → bool) (l : list A) : option A :=
  match l with
  | [] => None
  | x :: l' => match min_by lt l' with
               | None => Some x
               | Some y => Some (if lt y x then y else x)
               end
  end.

Fixpoint open_candidates (idx : nat) (specs : list InlineTagSpec) (pending : rstr) : list (nat * nat * nat) :=
  match specs with
  | [] => []
  | spec :: specs' =>
      match find (ts_open spec) pending with
      | Some pos => (pos, byte_len (ts_open spec), idx) :: open_candidates (S idx) specs' pending
      | None => open_candidates (S idx) specs' pending
      end
  end.

Definition find_next_open (specs : list InlineTagSpec) (pending : rstr) : option (nat * nat) :=
  (λ '(pos, _, idx), (pos, idx)) <$> min_by open_cand_lt (open_candidates 0 specs pending).

(** [longest_suffix_prefix_len]: the loop over [(1..=max).rev()]. *)
Fixpoint suffix_prefix_from (s needle : rstr) (k : nat) : nat :=
  match k with
  | 0 => 0
  | S k' => if ends_with (take k needle) s then k else suffix_prefix_from s needle k'
  end.
Definition longest_suffix_prefix_len (s needle : rstr) : nat :=
  suffix_prefix_from s needle (length s `min` (length needle - 1)).

Definition max_open_prefix_suffix_len (specs : list InlineTagSpec) (pending : rstr) : nat :=
  max_list ((λ spec, longest_suffix_prefix_len pending (ts_open spec)) <$> specs).

Inductive control := Continue | Break.

(** One iteration: the new [active], the text not consumed yet and the output. *)
Definition push_step (specs : list InlineTagSpec) (active : option ActiveTag) (pending : rstr) :
    control * (option ActiveTag * rstr) * StreamTextChunk ExtractedInlineTag :=
  match active with
  | Some a =>
      match find (at_close a) pending with
      | Some close_idx =>
          (Continue, (None, drop (close_idx + length (at_close a)) pending),
           mkStreamChunk [] [mkExtracted (at_tag a) (at_content a ++ take close_idx pending)])
      | None =>
          let tk := length pending - longest_suffix_prefix_len pending (at_close a) in
          (Break, (Some (mkActive (at_tag a) (at_close a) (at_content a ++ take tk pending)), drop tk pending),
           chunk_default)
      end
  | None =>
      match find_next_open specs pending with
      | Some (open_idx, spec_idx) =>
          match specs !! spec_idx with
          | Some spec =>
              (Continue, (Some (mkActive (ts_tag spec) (ts_close spec) []),
                          drop (open_idx + length (ts_open spec)) pending),
               mkStreamChunk (take open_idx pending) [])
          | None => (Break, (active, pending), chunk_default)
          end
      | None =>
          let tk := length pending - max_open_prefix_suffix_len specs pending in
          (Break, (None, drop tk pending), mkStreamChunk (take tk pending) [])
      end
  end.

Fixpoint push_loop (fuel : nat) (specs : list InlineTagSpec) (active : option ActiveTag) (pending : rstr) :
    (option ActiveTag * rstr) * StreamTextChunk ExtractedInlineTag :=
  match fuel with
  | 0 => ((active, pending), chunk_default)
  | S fuel' =>
      match push_step specs active pending with
      | (Continue, (active', pending'), o) =>
          let '(st, o') := push_loop fuel' specs active' pending' in (st, chunk_app o o')
      | (Break, st, o) => (st, o)
      end
  end.

Definition inline_push_str (p : InlineHiddenTagParser) (chunk : rstr) :
    InlineHiddenTagParser * StreamTextChunk ExtractedInlineTag :=
  let pending := ip_pending p ++ chunk in
  let '((active', pending'), o) := push_loop (S (length pending)) (ip_specs p) (ip_active p) pending in
  (mkInlineParser (ip_specs p) pending' active', o).

Definition inline_finish (p : InlineHiddenTagParser) :
    InlineHiddenTagParser * StreamTextChunk ExtractedInlineTag :=
  match ip_active p with
  | Some a =>
      (mkInlineParser (ip_specs p) [] None,
       mkStreamChunk [] [mkExtracted (at_tag a) (at_content a ++ ip_pending p)])
  | None => (mkInlineParser (ip_specs p) [] None, mkStreamChunk (ip_pending p) [])
  end.
End parser.

Arguments ExtractedInlineTag : clear implicits.
Arguments InlineTagSpec : clear implicits.
Arguments ActiveTag : clear implicits.
Arguments InlineHiddenTagParser : clear implicits.

#[global] Instance inline_stream_parser T : StreamTextParser (InlineHiddenTagParser T) (ExtractedInlineTag T) :=
  { push_str := inline_push_str; finish := inline_finish }.

(** ** Citations *)

Inductive CitationTag := Citation.
Definition CITATION_OPEN : rstr := $"<oai-mem-citation>".
Definition CITATION_CLOSE : rstr := $"</oai-mem-citation>".

Record CitationStreamParser := mkCitationParser { cit_inner : InlineHiddenTagParser CitationTag }.

Definition citation_specs : list (InlineTagSpec CitationTag) := [mkTagSpec Citation CITATION_OPEN CITATION_CLOSE].

(** [CitationStreamParser::new]; [citation_parser_new_ok] shows that the
    assertions of the inner constructor hold. *)
Definition new_citation_parser : CitationStreamParser :=
  mkCitationParser (mkInlineParser citation_specs [] None).

Definition citation_chunk (c : StreamTextChunk (ExtractedInlineTag CitationTag)) : StreamTextChunk rstr :=
  mkStreamChunk (visible_text c) (ex_content <$> extracted c).

Definition citation_push_str (p : CitationStreamParser) (chunk : rstr) : CitationStreamParser * StreamTextChunk rstr :=
  let '(inner, o) := push_str (cit_inner p) chunk in (mkCitationParser inner, citation_chunk o).
Definition citation_finish (p : CitationStreamParser) : CitationStreamParser * StreamTextChunk rstr :=
  let '(inner, o) := finish (cit_inner p) in (mkCitationParser inner, citation_chunk o).

#[global] Instance citation_stream_parser : StreamTextParser CitationStreamParser rstr :=
  { push_str := citation_push_str; finish := citation_finish }.

Definition strip_citations (text : rstr) : rstr * list rstr :=
  let '(parser, out) := push_str new_citation_parser text in
  let '(_, tail) := finish parser in
  (visible_text out ++ visible_text tail, extracted out ++ extracted tail).

Example strip_citations_example :
  strip_citations $"a<oai-mem-citation>one</oai-mem-citation>b<oai-mem-citation>two"
  = ($"ab", [$"one"; $"two"]).
Proof. reflexivity. Qed.

Lemma citation_parser_new_ok : new_inline_parser citation_specs = Some (cit_inner new_citation_parser).
Proof. reflexivity. Qed.

(** ** Partial delimiters at the end of a text *)

(** The last [k] characters of [s] start the delimiter [needle]. *)
Definition partial (s needle : rstr) (k : nat) : Prop :=
  k ≤ length s ∧ k < length needle ∧ drop (length s - k) s = take k needle.

Lemma suffix_prefix_from_spec s needle n : n ≤ length s → n < length needle →
  partial s needle (suffix_prefix_from s needle n) ∧
  ∀ k, k ≤ n → partial s needle k → k ≤ suffix_prefix_from s needle n.
Proof.
  intros Hs Hn. induction n as [|n IH]; cbn [suffix_prefix_from].
  { split; [|lia]. repeat split; [lia..|]. by rewrite Nat.sub_0_r, drop_all. }
  destruct (ends_with (take (S n) needle) s) eqn:E.
  - apply ends_with_spec in E as [r Hr]. split; [|lia]. repeat split; [lia..|].
    rewrite Hr at 2. rewrite drop_app_length'; [done|].
    apply (f_equal length) in Hr. rewrite length_app, length_take in Hr. lia.
  - destruct IH as [IH1 IH2]; [lia..|]. split; [done|]. intros k Hk Hp.
    destruct (decide (k = S n)) as [->|]; [|apply IH2; [lia|done]].
    destruct Hp as (_ & _ & Hp). assert (ends_with (take (S n) needle) s = true); [|congruence].
    apply ends_with_spec. rewrite <- Hp. exists (take (length s - S n) s). by rewrite take_drop.
Qed.

Lemma longest_partial s needle : needle ≠ [] →
  partial s needle (longest_suffix_prefix_len s needle) ∧
  ∀ k, partial s needle k → k ≤ longest_suffix_prefix_len s needle.
Proof.
  intros Hne. assert (0 < length needle) by (destruct needle; [done|simpl; lia]).
  destruct (suffix_prefix_from_spec s needle (length s `min` (length needle - 1))) as [H1 H2]; [lia..|].
  split; [done|]. intros k Hp. apply H2; [|done]. destruct Hp as (?&?&?). lia.
Qed.

Lemma longest_eq s t needle : needle ≠ [] → (∀ k, partial s needle k ↔ partial t needle k) →
  longest_suffix_prefix_len s needle = longest_suffix_prefix_len t needle.
Proof.
  intros Hne H. destruct (longest_partial s needle Hne) as [S1 S2], (longest_partial t needle Hne) as [T1 T2].
  apply Nat.le_antisymm; [by apply T2, H|by apply S2, H].
Qed.

(** Nothing before the kept part of [a] matters to what follows. *)
Lemma partial_drop a b needle n : n ≤ length a →
  (∀ k, partial a needle k → n + k ≤ length a) →
  ∀ k, partial (a ++ b) needle k ↔ partial (drop n a ++ b) needle k.
Proof.
  intros Hn Hmax k. unfold partial. rewrite !length_app, length_drop. split.
  - intros (H1 & H2 & H3).
    assert (k ≤ length a - n + length b) as Hk.
    { destruct (decide (k ≤ length b)); [lia|]. rewrite drop_app_le in H3 by lia.
      assert (partial a needle (k - length b)) as Hm%Hmax; [|lia]. split; [lia|]. split; [lia|].
      apply (f_equal (take (k - length b))) in H3. rewrite take_take in H3.
      rewrite Nat.min_l in H3 by lia. rewrite <- H3, take_app_length'; [f_equal; lia|].
      rewrite length_drop. lia. }
    split; [lia|]. split; [done|]. rewrite <- H3.
    replace (drop n a ++ b) with (drop n (a ++ b)) by (by rewrite drop_app_le by lia).
    rewrite drop_drop. f_equal. lia.
  - intros (H1 & H2 & H3). split; [lia|]. split; [done|]. rewrite <- H3.
    replace (drop n a ++ b) with (drop n (a ++ b)) by (by rewrite drop_app_le by lia).
    rewrite drop_drop. f_equal. lia.
Qed.

(** An occurrence in [a ++ b] that starts in [a] and is not in [a] starts in the kept part. *)
Lemma occurs_straddle a b needle j : ¬ occurs needle a j → occurs needle (a ++ b) j → j < length a →
  partial a needle (length a - j).
Proof.
  intros Hna Hab Hj. assert (length a < j + length needle) as Hl.
  { destruct (decide (j + length needle ≤ length a)); [|lia]. destruct Hna. by eapply occurs_app_inv. }
  unfold partial. split; [lia|]. split; [lia|]. replace (length a - (length a - j)) with j by lia.
  unfold occurs in Hab. rewrite drop_app_le in Hab by lia. destruct Hab as [k Hk].
  apply (f_equal (take (length a - j))) in Hk. rewrite take_app_length' in Hk by (rewrite length_drop; lia).
  rewrite Hk, take_app_le by lia. done.
Qed.

(** ** Choosing the next opener *)

Lemma open_cand_lt_spec pa la ia pb lb ib :
  open_cand_lt (pa, la, ia) (pb, lb, ib) = true ↔ pa < pb ∨ pa = pb ∧ (lb < la ∨ lb = la ∧ ia < ib).
Proof.
  unfold open_cand_lt. destruct (Nat.compare_spec pa pb); [|naive_solver lia..].
  destruct (Nat.compare_spec lb la); [|naive_solver lia..]. rewrite Nat.ltb_lt. lia.
Qed.

Lemma open_cand_lt_false a b : open_cand_lt a b = false ↔ a = b ∨ open_cand_lt b a = true.
Proof.
  rewrite <- not_true_iff_false. destruct a as [[pa la] ia], b as [[pb lb] ib]. rewrite !open_cand_lt_spec. split.
  - intros H. destruct (decide (pa = pb)) as [->|]; [|lia]. destruct (decide (la = lb)) as [->|]; [|lia].
    destruct (decide (ia = ib)) as [->|]; [by left|lia].
  - intros [[= -> -> ->]|]; lia.
Qed.

Lemma open_cand_lt_trans a b c : open_cand_lt a b = false → open_cand_lt b c = false → open_cand_lt a c = false.
Proof.
  rewrite <- !not_true_iff_false. destruct a as [[??]?], b as [[??]?], c as [[??]?].
  rewrite !open_cand_lt_spec. lia.
Qed.

Lemma min_by_spec l y : min_by open_cand_lt l = Some y ↔ y ∈ l ∧ ∀ x, x ∈ l → open_cand_lt x y = false.
Proof.
  assert (∀ y, min_by open_cand_lt l = Some y → y ∈ l ∧ ∀ x, x ∈ l → open_cand_lt x y = false) as Hfw.
  { induction l as [|z l IH]; intros y'; cbn [min_by]; [done|].
    destruct (min_by open_cand_lt l) as [w|] eqn:E.
    - specialize (IH w eq_refl) as [IH1 IH2]. destruct (open_cand_lt w z) eqn:Ewz; intros <-%(inj Some).
      + split; [by right|]. intros x [->|Hx]%elem_of_cons; [|by apply IH2].
        apply open_cand_lt_false. by right.
      + split; [left|]. intros x [->|Hx]%elem_of_cons; [apply open_cand_lt_false; by left|].
        by eapply open_cand_lt_trans; [apply IH2|].
    - intros <-%(inj Some). split; [left|]. intros x [->|Hx]%elem_of_cons; [apply open_cand_lt_false; by left|].
      destruct l as [|u l]; [by apply elem_of_nil in Hx|]. cbn [min_by] in E. by case_match. }
  split; [apply Hfw|]. intros [Hy Hmin]. destruct (min_by open_cand_lt l) as [w|] eqn:E.
  - specialize (Hfw w eq_refl) as [Hw Hw']. f_equal. apply Hmin in Hw as [->|Hw]%open_cand_lt_false; [done|].
    apply Hw' in Hy. congruence.
  - destruct l; [by apply elem_of_nil in Hy|]. cbn [min_by] in E. by case_match.
Qed.

Lemma min_by_map f l : (∀ a b, open_cand_lt (f a) (f b) = open_cand_lt a b) →
  min_by open_cand_lt (f <$> l) = f <$> min_by open_cand_lt l.
Proof.
  intros Hf. induction l as [|x l IH]; [done|]. cbn [min_by fmap list_fmap]. rewrite IH.
  destruct (min_by open_cand_lt l) as [y|]; simpl; [|done]. rewrite Hf. by destruct (open_cand_lt y x).
Qed.

Section opens.
Context {T : Type}.
Implicit Types specs : list (InlineTagSpec T).

Lemma open_candidates_elem k specs s pos len i :
  (pos, len, i) ∈ open_candidates k specs s ↔
  ∃ spec, k ≤ i ∧ specs !! (i - k) = Some spec ∧ find (ts_open spec) s = Some pos ∧ len = byte_len (ts_open spec).
Proof.
  revert k. induction specs as [|sp specs IH]; intros k; cbn [open_candidates].
  { rewrite elem_of_nil. split; [done|]. intros (?&_&?&_). by rewrite lookup_nil in *. }
  trans ((pos, len, i) ∈ open_candidates (S k) specs s ∨
         i = k ∧ find (ts_open sp) s = Some pos ∧ len = byte_len (ts_open sp)).
  { destruct (find (ts_open sp) s) as [q|]; [rewrite elem_of_cons|]; naive_solver. }
  rewrite IH. split.
  - intros [(spec & ? & Hl & ?)|(-> & ? & ?)].
    + exists spec. split; [lia|]. split; [|done]. by replace (i - k) with (S (i - S k)) by lia.
    + exists sp. rewrite Nat.sub_diag. naive_solver.
  - intros (spec & Hk & Hl & Hf & Hlen). destruct (decide (i = k)) as [->|].
    + right. rewrite Nat.sub_diag in Hl. naive_solver.
    + left. exists spec. split; [lia|]. split; [|done]. by replace (i - k) with (S (i - S k)) in Hl by lia.
Qed.

Lemma find_next_open_None specs s :
  find_next_open specs s = None ↔ ∀ spec, spec ∈ specs → find (ts_open spec) s = None.
Proof.
  unfold find_next_open. rewrite fmap_None. split.
  - intros Hm spec [i Hi]%list_elem_of_lookup. destruct (find (ts_open spec) s) as [pos|] eqn:E; [|done].
    assert ((pos, byte_len (ts_open spec), i) ∈ open_candidates 0 specs s) as Hin.
    { apply open_candidates_elem. exists spec. rewrite Nat.sub_0_r. naive_solver lia. }
    destruct (open_candidates 0 specs s); [by apply elem_of_nil in Hin|]. cbn [min_by] in Hm. by case_match.
  - intros H. destruct (min_by _ _) as [[[pos len] i]|] eqn:E; [|done].
    apply min_by_spec in E as [(spec & _ & Hl & Hf & _)%open_candidates_elem _].
    rewrite (H spec) in Hf; [done|]. by eapply list_elem_of_lookup_2.
Qed.

Lemma find_next_open_Some specs s pos i : find_next_open specs s = Some (pos, i) →
  ∃ spec, specs !! i = Some spec ∧ find (ts_open spec) s = Some pos ∧
    min_by open_cand_lt (open_candidates 0 specs s) = Some (pos, byte_len (ts_open spec), i).
Proof.
  unfold find_next_open. rewrite fmap_Some. intros ([[pos' len] i'] & Hm & [= -> ->]).
  pose proof Hm as Hm'. apply min_by_spec in Hm' as [(spec & _ & Hl & Hf & ->)%open_candidates_elem _].
  rewrite Nat.sub_0_r in Hl. eauto.
Qed.

(** No opener is a proper part of another one. *)
Definition delims_ok specs : Prop :=
  Forall (λ s, ts_open s ≠ [] ∧ ts_close s ≠ []) specs ∧
  ∀ s1 s2 x y, s1 ∈ specs → s2 ∈ specs → ts_open s2 = x ++ ts_open s1 ++ y → ts_open s1 = ts_open s2.

Lemma delims_open specs spec : delims_ok specs → spec ∈ specs → ts_open spec ≠ [].
Proof. intros [Hf _] Hin. rewrite Forall_forall in Hf. by apply Hf. Qed.

(** An opener that spans the end of another one contains it. *)
Lemma occurs_nested o1 o2 s i j : occurs o1 s i → occurs o2 s j → j ≤ i → i + length o1 ≤ j + length o2 →
  ∃ x y, o2 = x ++ o1 ++ y.
Proof.
  intros [k1 H1] [k2 H2] Hji Hl. exists (take (i - j) o2), (drop (i - j + length o1) o2).
  replace i with (j + (i - j)) in H1 by lia. rewrite <- drop_drop, H2, drop_app_le in H1 by lia.
  apply (f_equal (take (length o1))) in H1. rewrite take_app_length, take_app_le in H1 by (rewrite length_drop; lia).
  rewrite <- H1 at 1. apply take_drop_app_mid. lia.
Qed.

Lemma find_next_open_stable specs a b pos i : delims_ok specs →
  find_next_open specs a = Some (pos, i) → find_next_open specs (a ++ b) = Some (pos, i).
Proof.
  intros Hok (spec & Hl & Hf & Hm)%find_next_open_Some.
  assert (spec ∈ specs) as Hin by (by eapply list_elem_of_lookup_2).
  pose proof (delims_open _ _ Hok Hin) as Hne.
  enough (min_by open_cand_lt (open_candidates 0 specs (a ++ b)) = Some (pos, byte_len (ts_open spec), i)) as E
    by (unfold find_next_open; by rewrite E).
  apply min_by_spec in Hm as [_ Hmin]. apply min_by_spec. split.
  - apply open_candidates_elem. exists spec. rewrite Nat.sub_0_r. repeat split; [lia|done|by apply find_stable].
  - intros [[pos' len'] j] (spec' & _ & Hl' & Hf' & ->)%open_candidates_elem. rewrite Nat.sub_0_r in Hl'.
    assert (spec' ∈ specs) as Hin' by (by eapply list_elem_of_lookup_2).
    pose proof (delims_open _ _ Hok Hin') as Hne'.
    destruct (find (ts_open spec') a) as [q|] eqn:Eq.
    + pose proof (find_stable _ _ b _ Hne' Eq) as Eq'. rewrite Hf' in Eq'. injection Eq' as ->.
      apply Hmin, open_candidates_elem. exists spec'. rewrite Nat.sub_0_r. naive_solver lia.
    + apply not_true_iff_false. rewrite open_cand_lt_spec. intros Hlt.
      assert (pos' ≤ pos) as Hle by lia. clear Hlt.
      pose proof Hf as [Ho _]%find_Some. pose proof (occurs_length _ _ _ Hne Ho) as Hlen.
      apply find_Some in Hf' as [Ho' _].
      pose proof (proj1 (find_None (ts_open spec') a Hne') Eq pos') as Hno.
      assert (¬ (pos' + length (ts_open spec') ≤ length a)) as Hgt.
      { intros Hle'. apply Hno. by eapply occurs_app_inv. }
      destruct (occurs_app_l _ _ b _ Ho) as [Ho2|]; [|done].
      destruct (occurs_nested _ _ _ _ _ Ho2 Ho' Hle) as (x & y & Hxy); [lia|].
      pose proof (proj2 Hok spec spec' x y Hin Hin' Hxy) as Heq.
      rewrite <- Heq in Eq. congruence.
Qed.
End opens.

(** ** Growing the text *)

Section growing.
Context {T : Type}.
Implicit Types (specs : list (InlineTagSpec T)) (act : option (ActiveTag T)).

Definition active_ok act : Prop := match act with Some a => at_close a ≠ [] | None => True end.

Lemma longest_le s needle : longest_suffix_prefix_len s needle ≤ length s.
Proof.
  unfold longest_suffix_prefix_len. generalize (Nat.le_min_l (length s) (length needle - 1)).
  generalize (length s `min` (length needle - 1)). intros n. induction n as [|n IH]; cbn [suffix_prefix_from]; [lia|].
  destruct (ends_with _ _); [done|]. intros. apply IH. lia.
Qed.

Lemma max_open_le specs s : max_open_prefix_suffix_len specs s ≤ length s.
Proof.
  unfold max_open_prefix_suffix_len. induction specs as [|sp specs IH]; simpl; [lia|].
  apply Nat.max_lub; [apply longest_le|exact IH].
Qed.

Lemma max_open_ge specs s spec : spec ∈ specs →
  longest_suffix_prefix_len s (ts_open spec) ≤ max_open_prefix_suffix_len specs s.
Proof.
  intros Hin. apply max_list_elem_of_le, list_elem_of_fmap. by exists spec.
Qed.

(** Cutting [n] characters off a text in which the delimiter neither occurs
    nor starts before [n] changes neither the search nor the kept part. *)
Lemma cut_delim a b needle n : needle ≠ [] → find needle a = None → n ≤ length a →
  n + longest_suffix_prefix_len a needle ≤ length a →
  find needle (a ++ b) = (λ i, n + i) <$> find needle (drop n a ++ b) ∧
  longest_suffix_prefix_len (a ++ b) needle = longest_suffix_prefix_len (drop n a ++ b) needle.
Proof.
  intros Hne Hnone Hn Hk. destruct (longest_partial a needle Hne) as [_ Hmax]. split.
  - replace (drop n a ++ b) with (drop n (a ++ b)) by (by rewrite drop_app_le by lia).
    apply find_drop; [done|]. intros j Hj Ho.
    pose proof (proj1 (find_None _ _ Hne) Hnone j) as Hna.
    pose proof (Hmax _ (occurs_straddle _ _ _ _ Hna Ho ltac:(lia))). lia.
  - apply longest_eq; [done|]. apply partial_drop; [done|]. intros k Hp. pose proof (Hmax _ Hp). lia.
Qed.

Lemma cut_opens specs a b n : delims_ok specs → find_next_open specs a = None →
  n = length a - max_open_prefix_suffix_len specs a →
  find_next_open specs (a ++ b) = prod_map (λ i, n + i) id <$> find_next_open specs (drop n a ++ b) ∧
  max_open_prefix_suffix_len specs (a ++ b) = max_open_prefix_suffix_len specs (drop n a ++ b).
Proof.
  intros Hok Hnone Hn. pose proof (max_open_le specs a) as Hle.
  assert (∀ spec, spec ∈ specs →
    find (ts_open spec) (a ++ b) = (λ i, n + i) <$> find (ts_open spec) (drop n a ++ b) ∧
    longest_suffix_prefix_len (a ++ b) (ts_open spec) = longest_suffix_prefix_len (drop n a ++ b) (ts_open spec)) as Hcut.
  { intros spec Hin. pose proof (max_open_ge specs a spec Hin).
    apply cut_delim; [by eapply delims_open|by eapply find_next_open_None|lia|lia]. }
  split.
  - assert (∀ k, open_candidates k specs (a ++ b) =
      prod_map (prod_map (λ i, n + i) id) id <$> open_candidates k specs (drop n a ++ b)) as Hc.
    { clear Hnone Hn Hle Hok. induction specs as [|sp specs IH]; intros k; [done|]. cbn [open_candidates].
      destruct (Hcut sp) as [-> _]; [left|]. rewrite IH by (intros; apply Hcut; by right).
      by destruct (find (ts_open sp) (drop n a ++ b)). }
    unfold find_next_open. rewrite Hc, min_by_map.
    + by destruct (min_by open_cand_lt _) as [[[??]?]|].
    + intros [[pa la] ia] [[pb lb] ib]. apply eq_true_iff_eq. cbn [prod_map fst snd id].
      rewrite !open_cand_lt_spec. unfold id. lia.
  - unfold max_open_prefix_suffix_len. f_equal. apply list_fmap_ext. intros i spec Hi.
    apply Hcut. by eapply list_elem_of_lookup_2.
Qed.

Lemma push_step_continue specs act a act' rest o : delims_ok specs → active_ok act →
  push_step specs act a = (Continue, (act', rest), o) →
  (∀ b, push_step specs act (a ++ b) = (Continue, (act', rest ++ b), o)) ∧
  length rest < length a ∧ active_ok act'.
Proof.
  intros Hok Ha. destruct act as [[tag close content]|]; cbn [push_step at_close at_tag at_content].
  - cbn [active_ok at_close] in Ha. destruct (find close a) as [i|] eqn:E; [|done]. intros [= <- <- <-].
    pose proof E as [Ho _]%find_Some. pose proof (occurs_length _ _ _ Ha Ho). split; [|split; [|done]].
    + intros b. rewrite (find_stable _ _ _ _ Ha E). by rewrite drop_app_le, take_app_le by lia.
    + rewrite length_drop. destruct close; [done|simpl in *; lia].
  - destruct (find_next_open specs a) as [[i k]|] eqn:E; [|done].
    pose proof E as (spec & Hl & Hf & _)%find_next_open_Some. rewrite Hl. intros [= <- <- <-].
    assert (spec ∈ specs) as Hin by (by eapply list_elem_of_lookup_2).
    pose proof (delims_open _ _ Hok Hin) as Hne.
    pose proof Hf as [Ho _]%find_Some. pose proof (occurs_length _ _ _ Hne Ho). split; [|split].
    + intros b. rewrite (find_next_open_stable _ _ _ _ _ Hok E), Hl. by rewrite drop_app_le, take_app_le by lia.
    + rewrite length_drop. destruct (ts_open spec); [done|simpl in *; lia].
    + destruct Hok as [Hf' _]. rewrite Forall_forall in Hf'. simpl. by apply Hf'.
Qed.

Lemma cut_take (a b : rstr) n i : n ≤ length a → take (n + i) (a ++ b) = take n a ++ take i (drop n a ++ b).
Proof. intros Hn. by rewrite <- take_take_drop, take_app_le, drop_app_le by lia. Qed.

Lemma cut_drop (a b : rstr) n i : n ≤ length a → drop (n + i) (a ++ b) = drop i (drop n a ++ b).
Proof. intros Hn. by rewrite <- drop_drop, drop_app_le by lia. Qed.

Lemma cut_sub (a b : rstr) n k : n ≤ length a → k ≤ length (drop n a ++ b) →
  length (a ++ b) - k = n + (length (drop n a ++ b) - k).
Proof. rewrite !length_app, length_drop. lia. Qed.

(** An iteration that leaves the loop commutes with growing the text. *)
Lemma push_step_break specs act a act' rest o : delims_ok specs → active_ok act →
  push_step specs act a = (Break, (act', rest), o) →
  active_ok act' ∧ length rest ≤ length a ∧
  ∀ b, push_step specs act (a ++ b) =
       (λ '(c, st, o'), (c, st, chunk_app o o')) (push_step specs act' (rest ++ b)).
Proof.
  intros Hok Ha. destruct act as [[tag close content]|]; cbn [push_step at_close at_tag at_content].
  - cbn [active_ok at_close] in Ha. destruct (find close a) as [i|] eqn:E; [done|].
    pose proof (longest_le a close) as Hle. set (n := length a - longest_suffix_prefix_len a close).
    assert (n ≤ length a) as Hn by lia.
    intros [= <- <- <-]. split; [done|]. split; [rewrite length_drop; lia|]. intros b.
    destruct (cut_delim a b close n Ha E) as [-> ->]; [lia..|].
    cbn [push_step at_close at_tag at_content]. destruct (find close (drop n a ++ b)) as [i|]; unfold chunk_app; simpl.
    + by rewrite <- Nat.add_assoc, cut_drop, cut_take, <- app_assoc by done.
    + rewrite (cut_sub _ _ n) by (done || apply longest_le). by rewrite cut_drop, cut_take, <- app_assoc by done.
  - destruct (find_next_open specs a) as [[i k]|] eqn:E.
    { pose proof E as (spec & -> & _)%find_next_open_Some. done. }
    pose proof (max_open_le specs a) as Hle. set (n := length a - max_open_prefix_suffix_len specs a).
    assert (n ≤ length a) as Hn by lia.
    intros [= <- <- <-]. split; [done|]. split; [rewrite length_drop; lia|]. intros b.
    destruct (cut_opens specs a b n Hok E eq_refl) as [Hf ->]. rewrite Hf.
    cbn [push_step]. destruct (find_next_open specs (drop n a ++ b)) as [[i k]|] eqn:E'; unfold chunk_app; simpl.
    + pose proof E' as (spec & -> & _)%find_next_open_Some.
      by rewrite <- Nat.add_assoc, cut_drop, cut_take by done.
    + rewrite (cut_sub _ _ n) by (done || apply max_open_le). by rewrite cut_drop, cut_take by done.
Qed.

(** The loop: enough fuel reaches a [Break], and the fuel does not matter. *)
Lemma push_loop_fuel specs act a n m : delims_ok specs → active_ok act →
  length a < n → length a < m → push_loop n specs act a = push_loop m specs act a.
Proof.
  intros Hok. revert act a m. induction n as [|n IH]; intros act a m Ha Hn Hm; [lia|].
  destruct m as [|m]; [lia|]. cbn [push_loop].
  destruct (push_step specs act a) as [[[] [act' rest]] o] eqn:E; [|done].
  destruct (push_step_continue _ _ _ _ _ _ Hok Ha E) as (_ & Hl & Ha').
  by rewrite (IH act' rest m) by (done || lia).
Qed.

(** A state the loop leaves alone until more text arrives. *)
Definition quiet specs act (pending : rstr) : Prop :=
  push_step specs act pending = (Break, (act, pending), chunk_default).

Lemma push_loop_quiet specs act a n : delims_ok specs → active_ok act → length a < n →
  let '((act', rest), o) := push_loop n specs act a in quiet specs act' rest ∧ active_ok act' ∧ length rest ≤ length a.
Proof.
  intros Hok. revert act a. induction n as [|n IH]; intros act a Ha Hn; [lia|]. cbn [push_loop].
  destruct (push_step specs act a) as [[[] [act' rest]] o] eqn:E.
  - destruct (push_step_continue _ _ _ _ _ _ Hok Ha E) as (_ & Hl & Ha').
    specialize (IH act' rest Ha' ltac:(lia)). destruct (push_loop n specs act' rest) as [[act2 rest2] o2].
    destruct IH as (?&?&?). naive_solver lia.
  - destruct (push_step_break _ _ _ _ _ _ Hok Ha E) as (Ha' & Hl & Hb). split; [|done].
    specialize (Hb []). rewrite !app_nil_r, E in Hb. unfold quiet.
    destruct (push_step specs act' rest) as [[c st] [v e]]. injection Hb as <- <- Ho. destruct o as [vo eo].
    unfold chunk_app in Ho. simpl in Ho. injection Ho as Hv He. unfold chunk_default. do 2 f_equal.
    + rewrite <- (app_nil_r vo) in Hv at 1. by apply app_inv_head in Hv.
    + rewrite <- (app_nil_r eo) in He at 1. by apply app_inv_head in He.
Qed.

Lemma chunk_app_assoc {E} (a b c : StreamTextChunk E) : chunk_app a (chunk_app b c) = chunk_app (chunk_app a b) c.
Proof. unfold chunk_app. simpl. by rewrite !app_assoc. Qed.

Lemma push_loop_app specs act a b n1 n2 n3 : delims_ok specs → active_ok act → length a < n1 →
  length (a ++ b) < n2 → length (a ++ b) < n3 →
  push_loop n3 specs act (a ++ b) =
  (let '((act1, rest1), o1) := push_loop n1 specs act a in
   let '(st2, o2) := push_loop n2 specs act1 (rest1 ++ b) in (st2, chunk_app o1 o2)).
Proof.
  intros Hok. revert act a n2 n3. induction n1 as [|n1 IH]; intros act a n2 n3 Ha H1 H2 H3; [lia|].
  destruct n3 as [|n3]; [lia|]. cbn [push_loop].
  destruct (push_step specs act a) as [[[] [act' rest]] o] eqn:E.
  - destruct (push_step_continue _ _ _ _ _ _ Hok Ha E) as (Hb & Hl & Ha'). rewrite Hb.
    rewrite length_app in *. rewrite (IH act' rest n2 n3 Ha') by (rewrite ?length_app; lia).
    destruct (push_loop n1 specs act' rest) as [[act1 rest1] o1]. destruct (push_loop n2 specs act1 (rest1 ++ b)).
    by rewrite chunk_app_assoc.
  - destruct (push_step_break _ _ _ _ _ _ Hok Ha E) as (Ha' & Hl & Hb). rewrite Hb. destruct n2 as [|n2]; [lia|].
    cbn [push_loop]. destruct (push_step specs act' (rest ++ b)) as [[[] [act2 rest2]] o2] eqn:E2; [|done].
    destruct (push_step_continue _ _ _ _ _ _ Hok Ha' E2) as (_ & Hl2 & Ha2). rewrite length_app in *.
    rewrite (push_loop_fuel specs act2 rest2 n3 n2) by (done || lia).
    destruct (push_loop n2 specs act2 rest2). by rewrite chunk_app_assoc.
Qed.
End growing.

(** ** The promise of the parser *)

Section promise.
Context {T : Type}.
Implicit Types (p : InlineHiddenTagParser T).

Definition inline_ok p : Prop :=
  delims_ok (ip_specs p) ∧ active_ok (ip_active p) ∧ quiet (ip_specs p) (ip_active p) (ip_pending p).

Lemma new_inline_ok specs p : delims_ok specs → new_inline_parser specs = Some p → inline_ok p.
Proof.
  intros Hok. unfold new_inline_parser. destruct (is_empty specs); [done|].
  destruct (existsb _ specs); [done|]. intros <-%(inj Some). split; [done|]. split; [done|].
  unfold quiet. cbn [ip_specs ip_active ip_pending push_step].
  destruct (find_next_open specs []) as [[i k]|] eqn:E; [|by rewrite drop_nil, take_nil].
  pose proof E as (spec & Hl & Hf & _)%find_next_open_Some. apply find_Some in Hf as [Hf _].
  assert (ts_open spec ≠ []) as Hne by (eapply delims_open; [done|by eapply list_elem_of_lookup_2]).
  pose proof (occurs_length _ _ _ Hne Hf). destruct (ts_open spec); [done|]. simpl in *. lia.
Qed.

#[global] Instance inline_invariant : ChunkInvariant (InlineHiddenTagParser T) (ExtractedInlineTag T) inline_ok id.
Proof.
  split.
  - intros [specs pending act] c (Hok & Ha & Hq). cbn [push_str inline_stream_parser].
    unfold inline_push_str. cbn [ip_specs ip_pending ip_active] in *.
    pose proof (push_loop_quiet specs act (pending ++ c) (S (length (pending ++ c))) Hok Ha ltac:(lia)) as H.
    destruct (push_loop _ _ _ _) as [[act' rest] o]. destruct H as (?&?&_). done.
  - intros [specs pending act] (Hok & Ha & Hq). cbn [push_str inline_stream_parser].
    unfold inline_push_str. cbn [ip_specs ip_pending ip_active] in *. rewrite app_nil_r.
    cbn [push_loop]. by rewrite Hq.
  - intros [specs pending act] a b (Hok & Ha & Hq). cbn [push_str inline_stream_parser].
    unfold inline_push_str. cbn [ip_specs ip_pending ip_active] in *. rewrite app_assoc.
    pose proof (push_loop_quiet specs act (pending ++ a) (S (length (pending ++ a))) Hok Ha ltac:(lia)) as Hq1.
    rewrite (push_loop_app specs act (pending ++ a) b (S (length (pending ++ a))) (S (length ((pending ++ a) ++ b))))
      by (done || lia).
    destruct (push_loop (S (length (pending ++ a))) specs act (pending ++ a)) as [[act1 rest1] o1].
    destruct Hq1 as (_ & Ha1 & Hl1). rewrite length_app in Hl1. cbn [ip_specs ip_pending ip_active].
    rewrite (push_loop_fuel specs act1 (rest1 ++ b) (S (length ((pending ++ a) ++ b))) (S (length (rest1 ++ b))))
      by (done || (rewrite ?length_app; lia)).
    destruct (push_loop _ specs act1 (rest1 ++ b)) as [[act2 rest2] o2]. done.
  - intros l l' k k' ??. unfold id in *. by subst.
Qed.

(** What is kept back is the start of a delimiter. *)
Lemma inline_ok_pending p : inline_ok p →
  match ip_active p with
  | Some a => partial (ip_pending p) (at_close a) (length (ip_pending p))
  | None => ip_pending p = [] ∨
      ∃ spec, spec ∈ ip_specs p ∧ partial (ip_pending p) (ts_open spec) (length (ip_pending p))
  end.
Proof.
  destruct p as [specs pending [[tag close content]|]]; intros (Hok & Ha & Hq);
    unfold quiet in Hq; cbn [ip_specs ip_pending ip_active push_step at_close at_tag at_content active_ok] in *.
  - destruct (find close pending); [done|]. injection Hq as _ Hd.
    destruct (longest_partial pending close Ha) as [Hp _]. pose proof (longest_le pending close).
    apply (f_equal length) in Hd. rewrite length_drop in Hd.
    by replace (length pending) with (longest_suffix_prefix_len pending close) by lia.
  - destruct (find_next_open specs pending) as [[i k]|] eqn:E.
    { pose proof E as (spec & Hl & _)%find_next_open_Some. by rewrite Hl in Hq. }
    injection Hq as Hd _. apply (f_equal length) in Hd. rewrite length_drop in Hd.
    destruct (decide (pending = [])) as [->|Hne]; [by left|right].
    assert (0 < length pending) by (destruct pending; [done|simpl; lia]).
    pose proof (max_open_le specs pending) as Hle. unfold max_open_prefix_suffix_len in *.
    assert (max_list ((λ spec, longest_suffix_prefix_len pending (ts_open spec)) <$> specs)
      ∈ (λ spec, longest_suffix_prefix_len pending (ts_open spec)) <$> specs) as Hin.
    { apply max_list_elem_of. intros ->%fmap_nil_inv. simpl in *. lia. }
    apply list_elem_of_fmap in Hin as (spec & Hmax & Hin). exists spec. split; [done|].
    pose proof (proj1 (longest_partial pending (ts_open spec) (delims_open _ _ Hok Hin))) as Hp.
    rewrite <- Hmax in Hp. by replace (length pending) with
      (max_list ((λ spec, longest_suffix_prefix_len pending (ts_open spec)) <$> specs)) by lia.
Qed.
End promise.

(** ** Citations *)

Definition citation_ok (p : CitationStreamParser) : Prop := inline_ok (cit_inner p).

Lemma citation_delims_ok : delims_ok citation_specs.
Proof.
  split; [by repeat constructor|]. by intros s1 s2 x y ->%list_elem_of_singleton ->%list_elem_of_singleton.
Qed.

Lemma new_citation_ok : citation_ok new_citation_parser.
Proof. apply (new_inline_ok _ _ citation_delims_ok citation_parser_new_ok). Qed.

#[global] Instance citation_invariant : ChunkInvariant CitationStreamParser rstr citation_ok id.
Proof.
  split.
  - intros [p] c Hp. cbn [push_str citation_stream_parser]. unfold citation_push_str. cbn [cit_inner].
    pose proof (push_ok (ChunkInvariant := inline_invariant) p c Hp). by destruct (push_str p c).
  - intros [p] Hp. cbn [push_str citation_stream_parser]. unfold citation_push_str. cbn [cit_inner].
    by rewrite (push_nil (ChunkInvariant := inline_invariant) p Hp).
  - intros [p] a b Hp. cbn [push_str citation_stream_parser]. unfold citation_push_str. cbn [cit_inner].
    pose proof (push_app (ChunkInvariant := inline_invariant) p a b Hp) as H.
    destruct (push_str p a) as [p1 o1]. cbn [cit_inner]. destruct (push_str p1 b) as [p2 o2].
    destruct (push_str p (a ++ b)) as [p3 o3]. destruct H as (-> & Hv & He). unfold id in *.
    split; [done|]. split; [done|]. cbn [citation_chunk extracted]. by rewrite He, fmap_app.
  - intros l l' k k' ??. unfold id in *. by subst.
Qed.

(** What the parser means, on a complete text: split at the first opener,
    then at the first closer after it, and so on; an opener without a closer
    takes the rest of the text. *)
Fixpoint citation_spec (fuel : nat) (text : rstr) : rstr * list rstr :=
  match fuel with
  | 0 => (text, [])
  | S fuel' =>
      match split_once CITATION_OPEN text with
      | None => (text, [])
      | Some (before, rest) =>
          match split_once CITATION_CLOSE rest with
          | None => (before, [rest])
          | Some (body, after) =>
              let '(visible, bodies) := citation_spec fuel' after in (before ++ visible, body :: bodies)
          end
      end
  end.

(** The text and the payloads a loop and the end of the stream leave. *)
Definition citation_result (r : (option (ActiveTag CitationTag) * rstr) * StreamTextChunk (ExtractedInlineTag CitationTag)) :
    rstr * list rstr :=
  let '((act, rest), o) := r in
  let o' := chunk_app o (inline_finish (mkInlineParser citation_specs rest act)).2 in
  (visible_text o', ex_content <$> extracted o').

Lemma push_loop_citation m n text : length text < m → length text < n →
  citation_result (push_loop n citation_specs None text) = citation_spec m text.
Proof.
  revert text n. induction m as [|m IH]; intros text n Hm Hn; [lia|].
  rewrite (push_loop_fuel _ _ _ n (S (S n)) citation_delims_ok) by (done || lia).
  cbn [push_loop push_step citation_spec]. unfold split_once, find_next_open, citation_specs at 1.
  cbn [open_candidates ts_open]. destruct (find CITATION_OPEN text) as [i|] eqn:Ei.
  - cbn [min_by fmap option_fmap option_map mbind option_bind citation_specs lookup list_lookup ts_tag ts_open ts_close at_close at_tag at_content].
    pose proof Ei as [Ho _]%find_Some. apply occurs_length in Ho; [|done].
    set (rest := drop (i + length CITATION_OPEN) text).
    assert (length rest < length text) as Hrest.
    { unfold rest. rewrite length_drop. assert (0 < length CITATION_OPEN) by (vm_compute; lia). lia. }
    cbn [push_step at_close at_tag at_content].
    destruct (find CITATION_CLOSE rest) as [j|] eqn:Ej; cbn [mbind option_bind].
    + set (after := drop (j + length CITATION_CLOSE) rest).
      assert (length after ≤ length rest) by (unfold after; rewrite length_drop; lia).
      specialize (IH after n ltac:(lia) ltac:(lia)). rewrite <- IH.
      destruct (push_loop n citation_specs None after) as [[act' rest'] o']. unfold citation_result, chunk_app.
      cbn [visible_text extracted app fmap list_fmap ex_content]. by rewrite <- !app_assoc.
    + unfold citation_result, chunk_app, inline_finish, chunk_default.
      cbn [visible_text extracted ip_active ip_pending at_content at_tag snd app].
      rewrite take_drop. by rewrite !app_nil_r.
  - cbn [min_by fmap option_fmap option_map mbind option_bind]. unfold citation_result, chunk_app, inline_finish.
    cbn [visible_text extracted ip_active ip_pending snd app]. by rewrite take_drop.
Qed.

Lemma run_citation_single text :
  run_stream new_citation_parser [text] = (λ '(v, c), mkStreamChunk v c) (citation_spec (S (length text)) text).
Proof.
  unfold run_stream. cbn [push_all push_str finish citation_stream_parser]. unfold citation_push_str, citation_finish.
  cbn [cit_inner new_citation_parser push_str finish inline_stream_parser]. unfold inline_push_str.
  cbn [ip_pending ip_specs ip_active app].
  rewrite <- (push_loop_citation (S (length text)) (S (length text)) text) by lia.
  destruct (push_loop _ citation_specs None text) as [[act rest] o]. unfold citation_result.
  cbn [cit_inner finish inline_stream_parser].
  destruct (inline_finish (mkInlineParser citation_specs rest act)) as [p o'].
  unfold chunk_app, citation_chunk, chunk_default. cbn [visible_text extracted snd].
  by rewrite !app_nil_r, fmap_app.
Qed.

Lemma strip_citations_run text :
  strip_citations text = (λ o, (visible_text o, extracted o)) (run_stream new_citation_parser [text]).
Proof.
  unfold strip_citations, run_stream. cbn [push_all]. destruct (push_str new_citation_parser text) as [p o].
  destruct (finish p) as [p' o']. unfold chunk_app, chunk_default. cbn [visible_text extracted snd]. by rewrite !app_nil_r.
Qed.
