(* ===== verification/TaggedLines.v ===== *)
(** * Tag blocks on lines of their own

    [utils/stream-parser/src/tagged_line_parser.rs]: a line is buffered until
    it can no longer be a tag.  [parse_loop] is the loop of [parse] over the
    characters of a chunk, with its local [run] and [segments].

    The reference definition is [spec_lines], which looks at complete lines;
    [parse_spec] and [finish_spec] relate the two. *)

From S2P Require Import Prelude RustStr.

Section parser.
Context {T : Type} `{EqDecision T}.

Record TagSpec := mkTag { tg_open : rstr; tg_close : rstr; tg_tag : T }.

Inductive TaggedLineSegment :=
| Normal (text : rstr)
| TagStart (tag : T)
| TagDelta (tag : T) (text : rstr)
| TagEnd (tag : T).

Record TaggedLineParser := mkTagged {
  tl_specs : list TagSpec;
  active_tag : option T;
  detect_tag : bool;
  line_buffer : rstr
}.

Definition new_tagged (specs : list TagSpec) : TaggedLineParser := mkTagged specs None true [].

(** [push_segment]: adjacent text of the same kind is merged. *)
Definition push_segment (segments : list TaggedLineSegment) (segment : TaggedLineSegment) : list TaggedLineSegment :=
  match segment with
  | Normal delta =>
      if is_empty delta then segments
      else match last segments with
           | Some (Normal _) =>
               update_last (λ s, match s with Normal existing => Normal (existing ++ delta) | _ => s end) segments
           | _ => segments ++ [Normal delta]
           end
  | TagDelta tag delta =>
      if is_empty delta then segments
      else match last segments with
           | Some (TagDelta existing_tag _) =>
               if decide (existing_tag = tag) then
                 update_last (λ s, match s with TagDelta t existing => TagDelta t (existing ++ delta) | _ => s end) segments
               else segments ++ [TagDelta tag delta]
           | _ => segments ++ [TagDelta tag delta]
           end
  | TagStart tag => segments ++ [TagStart tag]
  | TagEnd tag => segments ++ [TagEnd tag]
  end.

Definition text_segment (active : option T) (text : rstr) : TaggedLineSegment :=
  match active with Some tag => TagDelta tag text | None => Normal text end.

Definition push_text (active : option T) (text : rstr) (segments : list TaggedLineSegment) : list TaggedLineSegment :=
  push_segment segments (text_segment active text).

Definition is_tag_prefix (specs : list TagSpec) (slug : rstr) : bool :=
  let slug := trim_end slug in
  existsb (λ spec, starts_with slug (tg_open spec) || starts_with slug (tg_close spec)) specs.

Fixpoint find_tag (f : TagSpec → rstr) (specs : list TagSpec) (slug : rstr) : option T :=
  match specs with
  | [] => None
  | spec :: specs' => if decide (f spec = slug) then Some (tg_tag spec) else find_tag f specs' slug
  end.
Definition match_open : list TagSpec → rstr → option T := find_tag tg_open.
Definition match_close : list TagSpec → rstr → option T := find_tag tg_close.

Definition line_slug (line : rstr) : rstr :=
  let without_newline := default line (strip_suffix [LF] line) in
  trim_end (trim_start without_newline).

(** The decision [finish_line] and [finish] take on a buffered line: the new
    [active_tag] and the segment pushed. *)
Definition close_line (specs : list TagSpec) (active : option T) (line : rstr) : option T * TaggedLineSegment :=
  let slug := line_slug line in
  match match_open specs slug, active with
  | Some tag, None => (Some tag, TagStart tag)
  | _, _ =>
      match match_close specs slug with
      | Some tag => if decide (active = Some tag) then (None, TagEnd tag) else (active, text_segment active line)
      | None => (active, text_segment active line)
      end
  end.

Definition finish_line (p : TaggedLineParser) (segments : list TaggedLineSegment) : TaggedLineParser * list TaggedLineSegment :=
  let '(active, segment) := close_line (tl_specs p) (active_tag p) (line_buffer p) in
  (mkTagged (tl_specs p) active true [], push_segment segments segment).

(** One character of the loop of [parse]. *)
Definition parse_char (p : TaggedLineParser) (run : rstr) (segments : list TaggedLineSegment) (ch : char) :
    TaggedLineParser * rstr * list TaggedLineSegment :=
  if detect_tag p then
    let segments := if is_empty run then segments else push_text (active_tag p) run segments in
    let buffer := line_buffer p ++ [ch] in
    let p := mkTagged (tl_specs p) (active_tag p) (detect_tag p) buffer in
    if decide (ch = LF) then let '(p, segments) := finish_line p segments in (p, [], segments)
    else
      let slug := trim_start buffer in
      if is_empty slug || is_tag_prefix (tl_specs p) slug then (p, [], segments)
      else (mkTagged (tl_specs p) (active_tag p) false [], [], push_text (active_tag p) buffer segments)
  else
    let run := run ++ [ch] in
    if decide (ch = LF) then
      (mkTagged (tl_specs p) (active_tag p) true (line_buffer p), [], push_text (active_tag p) run segments)
    else (p, run, segments).

Fixpoint parse_loop (p : TaggedLineParser) (run : rstr) (segments : list TaggedLineSegment) (delta : rstr) :
    TaggedLineParser * list TaggedLineSegment :=
  match delta with
  | [] => (p, if is_empty run then segments else push_text (active_tag p) run segments)
  | ch :: delta' => let '(p', run', segments') := parse_char p run segments ch in parse_loop p' run' segments' delta'
  end.

Definition tagged_parse (p : TaggedLineParser) (delta : rstr) : TaggedLineParser * list TaggedLineSegment :=
  parse_loop p [] [] delta.

Definition tagged_finish (p : TaggedLineParser) : TaggedLineParser * list TaggedLineSegment :=
  let '(active, segments) :=
    if is_empty (line_buffer p) then (active_tag p, [])
    else let '(active, segment) := close_line (tl_specs p) (active_tag p) (line_buffer p) in
         (active, push_segment [] segment) in
  let segments := match active with Some tag => push_segment segments (TagEnd tag) | None => segments end in
  (mkTagged (tl_specs p) None true [], segments).

(** ** Merging segments *)

(** Lists of segments up to the merging of adjacent text. *)
Definition merge (l : list TaggedLineSegment) : list TaggedLineSegment := foldl push_segment [] l.

Definition empty_segment (s : TaggedLineSegment) : bool :=
  match s with Normal t | TagDelta _ t => is_empty t | _ => false end.

Definition join_segment (s k : TaggedLineSegment) : option TaggedLineSegment :=
  match s, k with
  | Normal a, Normal b => Some (Normal (a ++ b))
  | TagDelta t a, TagDelta u b => if decide (t = u) then Some (TagDelta t (a ++ b)) else None
  | _, _ => None
  end.

Lemma push_segment_nil k : push_segment [] k = if empty_segment k then [] else [k].
Proof. by destruct k. Qed.

Lemma push_segment_snoc l s k : push_segment (l ++ [s]) k =
  if empty_segment k then l ++ [s]
  else match join_segment s k with Some s' => l ++ [s'] | None => (l ++ [s]) ++ [k] end.
Proof.
  destruct k as [t|t|u t|t]; cbn [push_segment empty_segment]; [..|by destruct s].
  - destruct (is_empty t); [done|]. rewrite last_snoc. destruct s; try done. by rewrite update_last_snoc.
  - by destruct s.
  - destruct (is_empty t); [done|]. rewrite last_snoc. destruct s; try done. simpl.
    case_decide; [|done]. by rewrite update_last_snoc.
Qed.

Lemma join_empty_l s k c : join_segment s k = Some c → empty_segment s = true → c = k.
Proof.
  destruct s, k; simpl; try done; [|case_decide; [|done]]; intros [= <-] ->%is_empty_true; [done|by subst].
Qed.
Lemma join_empty_r s k c : join_segment s k = Some c → empty_segment k = true → c = s.
Proof.
  destruct s, k; simpl; try done; [|case_decide; [|done]]; intros [= <-] ->%is_empty_true; by rewrite app_nil_r.
Qed.
Lemma join_not_empty s k c : join_segment s k = Some c → empty_segment s = false → empty_segment c = false.
Proof.
  destruct s as [[]| |? []|], k; simpl; try done; [|case_decide; [|done]]; by intros [= <-].
Qed.
Lemma join_assoc r s k c : join_segment s k = Some c →
  join_segment r c = s' ← join_segment r s; join_segment s' k.
Proof.
  destruct s, k, r; simpl; try done; try case_decide; try done; intros [= <-]; subst; simpl; try done.
  - by rewrite app_assoc.
  - case_decide; [|done]. subst; simpl. rewrite decide_True by done. by rewrite app_assoc.
Qed.

(** Pushing two texts that belong together is pushing their concatenation. *)
Lemma push_join l s k c : join_segment s k = Some c →
  push_segment l c = push_segment (push_segment l s) k.
Proof.
  intros Hj. destruct (empty_segment k) eqn:Hk.
  { rewrite (join_empty_r _ _ _ Hj Hk).
    destruct (push_segment l s) as [|r l' _] using rev_ind; rewrite ?push_segment_nil, ?push_segment_snoc; by rewrite Hk. }
  destruct (empty_segment s) eqn:Hs.
  { rewrite (join_empty_l _ _ _ Hj Hs). f_equal.
    destruct l as [|r l _] using rev_ind; rewrite ?push_segment_nil, ?push_segment_snoc; by rewrite Hs. }
  pose proof (join_not_empty _ _ _ Hj Hs) as Hc.
  destruct l as [|r l _] using rev_ind; rewrite ?push_segment_nil, ?push_segment_snoc, Hc, Hs.
  - change [s] with ([] ++ [s]). by rewrite push_segment_snoc, Hk, Hj.
  - rewrite (join_assoc _ _ _ _ Hj). destruct (join_segment r s) as [r'|] eqn:Hr; cbn [mbind option_bind].
    + rewrite push_segment_snoc, Hk. destruct (join_segment r' k) eqn:Hr'; [done|].
      destruct r, s, k; simpl in *; try done; repeat case_decide; simplify_eq/=; by rewrite ?decide_True in Hr'.
    + by rewrite push_segment_snoc, Hk, Hj.
Qed.

Lemma push_empty l k : empty_segment k = true → push_segment l k = l.
Proof.
  intros Hk. destruct l as [|r l _] using rev_ind; rewrite ?push_segment_nil, ?push_segment_snoc; by rewrite Hk.
Qed.

Lemma push_text_app active l x y : push_text active (x ++ y) l = push_text active y (push_text active x l).
Proof. apply push_join. destruct active; simpl; [by rewrite decide_True|done]. Qed.

Lemma push_text_nil active l : push_text active [] l = l.
Proof. apply push_empty. by destruct active. Qed.

(** Merging one side of an append first makes no difference. *)
Lemma foldl_push_segment l k s : foldl push_segment l (push_segment k s) = push_segment (foldl push_segment l k) s.
Proof.
  destruct (empty_segment s) eqn:Hs; [by rewrite !push_empty|].
  destruct k as [|r k _] using rev_ind; rewrite ?push_segment_nil, ?push_segment_snoc, Hs; [done|].
  destruct (join_segment r s) as [c|] eqn:Hj; rewrite !foldl_app; simpl; [by apply push_join|done].
Qed.

Lemma foldl_merge l k : foldl push_segment l (merge k) = foldl push_segment l k.
Proof.
  unfold merge. induction k as [|s k IH] using rev_ind; [done|].
  rewrite !foldl_app. simpl. by rewrite foldl_push_segment, IH.
Qed.

Lemma merge_merge l : merge (merge l) = merge l.
Proof. apply foldl_merge. Qed.

Lemma merge_app l k : merge (l ++ k) = merge (merge l ++ merge k).
Proof. unfold merge. rewrite !foldl_app. fold (merge l). fold (merge (merge l)). by rewrite merge_merge, foldl_merge. Qed.

Lemma merge_app_proper l l' k k' : merge l = merge l' → merge k = merge k' → merge (l ++ k) = merge (l' ++ k').
Proof. intros H1 H2. by rewrite merge_app, H1, H2, <- merge_app. Qed.

(** ** Without the local [run]

    The segments of a chunk before merging, one character at a time. *)
Definition raw_char (p : TaggedLineParser) (ch : char) : TaggedLineParser * list TaggedLineSegment :=
  if detect_tag p then
    let buffer := line_buffer p ++ [ch] in
    if decide (ch = LF) then
      let '(active, segment) := close_line (tl_specs p) (active_tag p) buffer in
      (mkTagged (tl_specs p) active true [], [segment])
    else
      let slug := trim_start buffer in
      if is_empty slug || is_tag_prefix (tl_specs p) slug
      then (mkTagged (tl_specs p) (active_tag p) true buffer, [])
      else (mkTagged (tl_specs p) (active_tag p) false [], [text_segment (active_tag p) buffer])
  else if decide (ch = LF)
  then (mkTagged (tl_specs p) (active_tag p) true (line_buffer p), [text_segment (active_tag p) [ch]])
  else (p, [text_segment (active_tag p) [ch]]).

Fixpoint raw (p : TaggedLineParser) (delta : rstr) : TaggedLineParser * list TaggedLineSegment :=
  match delta with
  | [] => (p, [])
  | ch :: delta' =>
      let '(p', s) := raw_char p ch in
      let '(p'', ss) := raw p' delta' in (p'', s ++ ss)
  end.

Lemma flush_run active run segs : (if is_empty run then segs else push_text active run segs) = push_text active run segs.
Proof. destruct run; [by rewrite push_text_nil|done]. Qed.

Lemma parse_char_raw p run segs ch :
  let '(p', run', segs') := parse_char p run segs ch in
  let '(p'', ss) := raw_char p ch in
  p' = p'' ∧ push_text (active_tag p') run' segs' = foldl push_segment (push_text (active_tag p) run segs) ss.
Proof.
  destruct p as [specs active [] buffer]; unfold parse_char, raw_char; cbn [detect_tag tl_specs active_tag line_buffer].
  - rewrite flush_run. case_decide.
    + unfold finish_line. cbn [tl_specs active_tag line_buffer]. destruct (close_line _ _ _) as [a s].
      split; [done|]. by rewrite push_text_nil.
    + destruct (_ || _); (split; [done|]); by rewrite push_text_nil.
  - case_decide; (split; [done|]); cbn [active_tag foldl]; [rewrite push_text_nil|]; by rewrite push_text_app.
Qed.

Lemma parse_loop_raw delta : ∀ p run segs,
  parse_loop p run segs delta =
  ((raw p delta).1, foldl push_segment (push_text (active_tag p) run segs) (raw p delta).2).
Proof.
  induction delta as [|ch delta IH]; intros p run segs; cbn [parse_loop raw]; [by rewrite flush_run|].
  pose proof (parse_char_raw p run segs ch) as H.
  destruct (parse_char p run segs ch) as [[p' run'] segs'], (raw_char p ch) as [p'' s]. destruct H as [<- H].
  rewrite IH, H. destruct (raw p' delta) as [q ss]. simpl. by rewrite foldl_app.
Qed.

Lemma parse_raw p delta : tagged_parse p delta = ((raw p delta).1, merge (raw p delta).2).
Proof. unfold tagged_parse. rewrite parse_loop_raw. by rewrite push_text_nil. Qed.

Lemma raw_app p a b :
  raw p (a ++ b) = let '(p1, s1) := raw p a in let '(p2, s2) := raw p1 b in (p2, s1 ++ s2).
Proof.
  revert p. induction a as [|ch a IH]; intros p; simpl; [by destruct (raw p b)|].
  destruct (raw_char p ch) as [p' s]. rewrite IH. destruct (raw p' a) as [p1 s1], (raw p1 b) as [p2 s2].
  by rewrite app_assoc.
Qed.

(** ** The reference: complete lines *)

(** Outside of a block a line that is an opening tag but for white space opens
    one; inside, only the closing tag of the block ends it; every other line is
    text, white space and line feed included.  The first of equal tags counts. *)
Definition spec_line (specs : list TagSpec) (active : option T) (line : rstr) : option T * TaggedLineSegment :=
  let marker (f : TagSpec → rstr) := tg_tag <$> List.find (λ spec, bool_decide (f spec = trim line)) specs in
  match active with
  | None => match marker tg_open with Some tag => (Some tag, TagStart tag) | None => (None, Normal line) end
  | Some tag => if bool_decide (marker tg_close = Some tag) then (None, TagEnd tag) else (Some tag, TagDelta tag line)
  end.

Fixpoint spec_lines (specs : list TagSpec) (active : option T) (ls : list rstr) : list TaggedLineSegment :=
  match ls with
  | [] => match active with Some tag => [TagEnd tag] | None => [] end
  | l :: ls' => let '(active', segment) := spec_line specs active l in segment :: spec_lines specs active' ls'
  end.

Lemma trim_end_start (s : rstr) : trim_end (trim_start s) = trim_start (trim_end s).
Proof.
  unfold trim_end, trim_start. induction s as [|c s IH]; [done|]. cbn [trim_start_matches trim_end_matches].
  destruct (is_whitespace c) eqn:Hc.
  - rewrite IH. destruct (trim_end_matches is_whitespace s) eqn:E; [done|]. cbn [trim_start_matches]. by rewrite Hc.
  - cbn [trim_end_matches]. destruct (trim_end_matches is_whitespace s); cbn [trim_start_matches]; rewrite ?Hc; cbn [trim_start_matches]; by rewrite ?Hc.
Qed.

Lemma trim_end_newline (s : rstr) : trim_end (s ++ [LF]) = trim_end s.
Proof. unfold trim_end. induction s as [|c s IH]; [done|]. cbn [app trim_end_matches]. by rewrite IH. Qed.

Lemma line_slug_trim line : line_slug line = trim line.
Proof.
  unfold line_slug, trim. rewrite trim_end_start. destruct (strip_suffix [LF] line) as [w|] eqn:E; [|done].
  apply strip_suffix_Some in E as ->. cbn [default from_option]. unfold id. by rewrite trim_end_newline.
Qed.

Lemma find_tag_find f specs slug :
  find_tag f specs slug = tg_tag <$> List.find (λ spec, bool_decide (f spec = slug)) specs.
Proof.
  induction specs as [|spec specs IH]; [done|]. cbn [find_tag List.find].
  destruct (decide (f spec = slug)) as [E|E]; [by rewrite bool_decide_eq_true_2|rewrite bool_decide_eq_false_2 by exact E; exact IH].
Qed.

(** The parser decides like the reference. *)
Lemma close_line_spec specs active line : spec_line specs active line = close_line specs active line.
Proof.
  unfold spec_line, close_line, match_open, match_close. rewrite line_slug_trim, !find_tag_find.
  destruct active as [tag|]; cbn zeta.
  - transitivity (match tg_tag <$> List.find (λ spec, bool_decide (tg_close spec = trim line)) specs with
      | Some tag' => if decide (Some tag = Some tag') then (None, TagEnd tag') else (Some tag, text_segment (Some tag) line)
      | None => (Some tag, text_segment (Some tag) line) end).
    + destruct (tg_tag <$> List.find _ _) as [tag'|]; [|by rewrite bool_decide_eq_false_2].
      case_bool_decide as E; [injection E as ->; by rewrite decide_True|rewrite decide_False by congruence; done].
    + by destruct (tg_tag <$> List.find (λ spec, bool_decide (tg_open spec = _)) _).
  - destruct (tg_tag <$> List.find (λ spec, bool_decide (tg_open spec = _)) _); [done|]. by destruct (tg_tag <$> List.find _ _).
Qed.

Lemma spec_lines_cons specs active l ls : spec_lines specs active (l :: ls) =
  let '(active', segment) := close_line specs active l in segment :: spec_lines specs active' ls.
Proof. cbn [spec_lines]. by rewrite close_line_spec. Qed.

Definition spec_text (specs : list TagSpec) (text : rstr) : list TaggedLineSegment :=
  spec_lines specs None (split_inclusive LF text).

Lemma trim_start_app x y : trim_start x ≠ [] → trim_start (x ++ y) = trim_start x ++ y.
Proof.
  unfold trim_start. induction x as [|c x IH]; simpl; [done|]. by destruct (is_whitespace c).
Qed.

Lemma trim_end_app x y : trim_end x `prefix_of` trim_end (x ++ y).
Proof.
  unfold trim_end. induction x as [|c x IH]; simpl; [apply prefix_nil|].
  destruct (trim_end_matches is_whitespace x) as [|d t].
  - destruct (is_whitespace c); [apply prefix_nil|].
    destruct (trim_end_matches is_whitespace (x ++ y)); [done|]. apply prefix_cons, prefix_nil.
  - destruct (trim_end_matches is_whitespace (x ++ y)) as [|e u]; [by apply prefix_nil_inv in IH|].
    by apply prefix_cons.
Qed.

Lemma find_tag_None f specs slug : (∀ spec, spec ∈ specs → f spec ≠ slug) → find_tag f specs slug = None.
Proof.
  induction specs as [|spec specs IH]; intros H; simpl; [done|].
  rewrite decide_False by (apply H; left). apply IH. intros; apply H; by right.
Qed.

(** A line rejected early is not a tag whatever follows. *)
Lemma reject_line specs active buffer rest : LF ∉ buffer →
  is_empty (trim_start buffer) = false → is_tag_prefix specs (trim_start buffer) = false →
  close_line specs active (buffer ++ rest) = (active, text_segment active (buffer ++ rest)).
Proof.
  intros Hlf Hne Hpre. apply is_empty_false in Hne.
  assert (∃ rest', default (buffer ++ rest) (strip_suffix [LF] (buffer ++ rest)) = buffer ++ rest') as [rest' Hw].
  { destruct (strip_suffix [LF] (buffer ++ rest)) as [w|] eqn:E; [|by exists rest]. apply strip_suffix_Some in E.
    destruct rest as [|c rest _] using rev_ind.
    - rewrite app_nil_r in E. subst. exfalso. apply Hlf. set_solver.
    - rewrite app_assoc in E. apply app_inj_tail in E as [<- _]. by exists rest. }
  assert (trim_end (trim_start buffer) `prefix_of` line_slug (buffer ++ rest)) as Hslug.
  { unfold line_slug. rewrite Hw, trim_start_app by done. apply trim_end_app. }
  assert (∀ spec, spec ∈ specs → tg_open spec ≠ line_slug (buffer ++ rest) ∧ tg_close spec ≠ line_slug (buffer ++ rest)) as Hno.
  { intros spec Hin. unfold is_tag_prefix in Hpre.
    assert (¬ (starts_with (trim_end (trim_start buffer)) (tg_open spec)
            || starts_with (trim_end (trim_start buffer)) (tg_close spec) = true)) as Hb.
    { intros Hb. apply not_true_iff_false in Hpre. apply Hpre, existsb_exists. exists spec.
      split; [by apply list_elem_of_In|done]. }
    rewrite orb_true_iff, !starts_with_spec in Hb. split; intros E; rewrite E in Hb; tauto. }
  unfold close_line, match_open, match_close.
  rewrite !find_tag_None by (intros spec Hin; by apply Hno). by destruct active.
Qed.

(** ** The parser against the reference *)

(** What the parser keeps between characters. *)
Definition tagged_ok (p : TaggedLineParser) : Prop :=
  if detect_tag p then LF ∉ line_buffer p else line_buffer p = [].

Lemma raw_char_ok p ch : tagged_ok p → tagged_ok (raw_char p ch).1 ∧ tl_specs (raw_char p ch).1 = tl_specs p.
Proof.
  destruct p as [specs active [] buffer]; unfold tagged_ok, raw_char; cbn [detect_tag tl_specs active_tag line_buffer]; intros Hok.
  - case_decide.
    + destruct (close_line _ _ _). simpl. split; [apply not_elem_of_nil|done].
    + destruct (_ || _); simpl; [|done]. split; [|done]. set_solver.
  - case_decide; simpl; [|done]. subst buffer. split; [apply not_elem_of_nil|done].
Qed.

Lemma raw_ok delta : ∀ p, tagged_ok p → tagged_ok (raw p delta).1 ∧ tl_specs (raw p delta).1 = tl_specs p.
Proof.
  induction delta as [|ch delta IH]; intros p Hok; simpl; [done|].
  pose proof (raw_char_ok p ch Hok) as [H1 H2]. destruct (raw_char p ch) as [p' s]. simpl in *.
  destruct (IH p' H1) as [H3 H4]. destruct (raw p' delta). simpl in *. split; [done|congruence].
Qed.

(** What is still to come from state [p] when the text [rest] follows. *)
Definition pending_spec (p : TaggedLineParser) (rest : rstr) : list TaggedLineSegment :=
  if detect_tag p then spec_lines (tl_specs p) (active_tag p) (split_inclusive LF (line_buffer p ++ rest))
  else match split_inclusive LF rest with
       | [] => spec_lines (tl_specs p) (active_tag p) []
       | l :: ls => text_segment (active_tag p) l :: spec_lines (tl_specs p) (active_tag p) ls
       end.

Lemma merge_join s k c l : join_segment s k = Some c → merge (s :: k :: l) = merge (c :: l).
Proof. intros Hj. unfold merge. simpl. by rewrite (push_join [] _ _ _ Hj). Qed.

Lemma text_join active x y : join_segment (text_segment active x) (text_segment active y) = Some (text_segment active (x ++ y)).
Proof. destruct active; simpl; [by rewrite decide_True|done]. Qed.

Lemma split_inclusive_app_line c b rest : c ∉ b → b ≠ [] →
  split_inclusive c (b ++ rest) =
  match split_inclusive c rest with [] => [b] | l :: ls => (b ++ l) :: ls end.
Proof.
  induction b as [|x b IH]; intros Hc Hne; [done|]. apply not_elem_of_cons in Hc as [Hx Hc]. simpl.
  rewrite decide_False by done. destruct (decide (b = [])) as [->|Hb]; [done|].
  rewrite IH by done. by destruct (split_inclusive c rest).
Qed.

Lemma pending_step p ch rest : tagged_ok p →
  merge (pending_spec p (ch :: rest)) = let '(p', s) := raw_char p ch in merge (s ++ pending_spec p' rest).
Proof.
  destruct p as [specs active [] buffer]; unfold tagged_ok, raw_char, pending_spec;
    cbn [detect_tag tl_specs active_tag line_buffer]; intros Hok.
  - case_decide as Hlf.
    + subst ch. rewrite split_inclusive_line by done. rewrite spec_lines_cons. by destruct (close_line _ _ _).
    + replace (buffer ++ ch :: rest) with ((buffer ++ [ch]) ++ rest) by by rewrite <- app_assoc.
      destruct (is_empty (trim_start (buffer ++ [ch]))) eqn:He; [done|].
      destruct (is_tag_prefix _ _) eqn:Hpre; [done|]. cbn [orb detect_tag tl_specs active_tag line_buffer].
      assert (LF ∉ buffer ++ [ch]) as Hb by set_solver.
      rewrite split_inclusive_app_line by (done || by destruct buffer).
      destruct (split_inclusive LF rest) as [|l ls]; rewrite spec_lines_cons.
      * rewrite <- (app_nil_r (buffer ++ [ch])), reject_line by (by rewrite ?app_nil_r). by rewrite app_nil_r.
      * rewrite reject_line by done. symmetry. apply merge_join, text_join.
  - subst buffer. case_decide as Hlf; cbn [detect_tag tl_specs active_tag line_buffer split_inclusive].
    + by rewrite decide_True.
    + rewrite decide_False by done. destruct (split_inclusive LF rest) as [|l ls]; [done|].
      symmetry. apply (merge_join _ (text_segment active l)), text_join.
Qed.

Lemma pending_finish p : tagged_ok p → merge (pending_spec p []) = merge (tagged_finish p).2.
Proof.
  destruct p as [specs active detect buffer]; unfold tagged_ok, tagged_finish, pending_spec;
    cbn [detect_tag tl_specs active_tag line_buffer]; intros Hok.
  destruct (decide (buffer = [])) as [->|Hne].
  { cbn [is_empty]. by destruct detect, active. }
  destruct detect; [|done]. rewrite app_nil_r, split_inclusive_last by done.
  destruct buffer as [|c buffer]; [done|]. rewrite spec_lines_cons. cbn [spec_lines is_empty].
  destruct (close_line specs active (c :: buffer)) as [a s].
  rewrite <- merge_merge. f_equal. by destruct a.
Qed.

Lemma pending_raw rest : ∀ p, tagged_ok p →
  merge (pending_spec p rest) = merge ((raw p rest).2 ++ (tagged_finish (raw p rest).1).2).
Proof.
  induction rest as [|ch rest IH]; intros p Hok; simpl; [by apply pending_finish|].
  rewrite pending_step by done. pose proof (raw_char_ok p ch Hok) as [H1 _].
  destruct (raw_char p ch) as [p' s]. simpl in H1. specialize (IH p' H1).
  destruct (raw p' rest) as [q ss]. simpl in *. rewrite <- app_assoc. by apply merge_app_proper.
Qed.
End parser.

Arguments TagSpec : clear implicits.
Arguments TaggedLineSegment : clear implicits.
Arguments TaggedLineParser : clear implicits.
