(* ===== verification/AssistantText.v ===== *)
(** * Plan blocks and the assistant text stream

    [utils/stream-parser/src/proposed_plan.rs] wraps the tagged-line parser
    for the one tag of plan mode, and [assistant_text.rs] puts the citation
    parser in front of it. *)

From S2P Require Import Prelude RustStr StreamText InlineTags TaggedLines.

Inductive PlanTag := ProposedPlan.
#[global] Instance plan_tag_eq_dec : EqDecision PlanTag.
Proof. solve_decision. Defined.

Inductive ProposedPlanSegment :=
| PlanNormal (text : rstr)
| ProposedPlanStart
| ProposedPlanDelta (text : rstr)
| ProposedPlanEnd.

Definition OPEN_TAG : rstr := $"<proposed_plan>".
Definition CLOSE_TAG : rstr := $"</proposed_plan>".

Definition plan_specs : list (TagSpec PlanTag) := [mkTag OPEN_TAG CLOSE_TAG ProposedPlan].

Record ProposedPlanParser := mkPlanParser { plan_parser : TaggedLineParser PlanTag }.
Definition new_plan_parser : ProposedPlanParser := mkPlanParser (new_tagged plan_specs).

Definition map_segment (s : TaggedLineSegment PlanTag) : ProposedPlanSegment :=
  match s with
  | Normal text => PlanNormal text
  | TagStart ProposedPlan => ProposedPlanStart
  | TagDelta ProposedPlan text => ProposedPlanDelta text
  | TagEnd ProposedPlan => ProposedPlanEnd
  end.

(** The loop of [map_segments]. *)
Fixpoint map_segments (segments : list (TaggedLineSegment PlanTag)) : StreamTextChunk ProposedPlanSegment :=
  match segments with
  | [] => chunk_default
  | s :: segments' =>
      let mapped := map_segment s in
      let visible := match mapped with PlanNormal text => text | _ => [] end in
      chunk_app (mkStreamChunk visible [mapped]) (map_segments segments')
  end.

Definition plan_push_str (p : ProposedPlanParser) (chunk : rstr) : ProposedPlanParser * StreamTextChunk ProposedPlanSegment :=
  let '(inner, segments) := tagged_parse (plan_parser p) chunk in (mkPlanParser inner, map_segments segments).
Definition plan_finish (p : ProposedPlanParser) : ProposedPlanParser * StreamTextChunk ProposedPlanSegment :=
  let '(inner, segments) := tagged_finish (plan_parser p) in (mkPlanParser inner, map_segments segments).

#[global] Instance plan_stream_parser : StreamTextParser ProposedPlanParser ProposedPlanSegment :=
  { push_str := plan_push_str; finish := plan_finish }.

Definition strip_proposed_plan_blocks (text : rstr) : rstr :=
  let '(parser, out) := push_str new_plan_parser text in
  visible_text out ++ visible_text (finish parser).2.

(** One iteration of the loop of [extract_proposed_plan_text]: the plan text
    and [saw_plan_block]. *)
Definition extract_step (st : rstr * bool) (segment : ProposedPlanSegment) : rstr * bool :=
  match segment with
  | ProposedPlanStart => ([], true)
  | ProposedPlanDelta delta => (st.1 ++ delta, st.2)
  | ProposedPlanEnd | PlanNormal _ => st
  end.

Definition extract_proposed_plan_text (text : rstr) : option rstr :=
  let '(parser, out) := push_str new_plan_parser text in
  let '(plan_text, saw_plan_block) :=
    foldl extract_step ([], false) (extracted out ++ extracted (finish parser).2) in
  if saw_plan_block then Some plan_text else None.

(** ** The assistant text stream *)

Record AssistantTextChunk := mkAssistantChunk {
  at_visible_text : rstr;
  citations : list rstr;
  plan_segments : list ProposedPlanSegment
}.

Definition assistant_chunk_empty (c : AssistantTextChunk) : bool :=
  is_empty (at_visible_text c) && is_empty (citations c) && is_empty (plan_segments c).

Record AssistantTextStreamParser := mkAssistantParser {
  plan_mode : bool;
  ap_citations : CitationStreamParser;
  ap_plan : ProposedPlanParser
}.

Definition new_assistant_parser (mode : bool) : AssistantTextStreamParser :=
  mkAssistantParser mode new_citation_parser new_plan_parser.

Definition parse_visible_text (p : AssistantTextStreamParser) (visible : rstr) : AssistantTextStreamParser * AssistantTextChunk :=
  if plan_mode p then
    let '(plan, chunk) := push_str (ap_plan p) visible in
    (mkAssistantParser (plan_mode p) (ap_citations p) plan,
     mkAssistantChunk (visible_text chunk) [] (extracted chunk))
  else (p, mkAssistantChunk visible [] []).

Definition assistant_push_str (p : AssistantTextStreamParser) (chunk : rstr) : AssistantTextStreamParser * AssistantTextChunk :=
  let '(cits, citation_chunk) := push_str (ap_citations p) chunk in
  let '(p, out) := parse_visible_text (mkAssistantParser (plan_mode p) cits (ap_plan p)) (visible_text citation_chunk) in
  (p, mkAssistantChunk (at_visible_text out) (extracted citation_chunk) (plan_segments out)).

Definition assistant_finish (p : AssistantTextStreamParser) : AssistantTextStreamParser * AssistantTextChunk :=
  let '(cits, citation_chunk) := finish (ap_citations p) in
  let '(p, out) := parse_visible_text (mkAssistantParser (plan_mode p) cits (ap_plan p)) (visible_text citation_chunk) in
  let '(p, out) :=
    if plan_mode p then
      let '(plan, tail) := finish (ap_plan p) in
      (mkAssistantParser (plan_mode p) (ap_citations p) plan,
       if chunk_empty tail then out
       else mkAssistantChunk (at_visible_text out ++ visible_text tail) (citations out)
                             (plan_segments out ++ extracted tail))
    else (p, out) in
  (p, mkAssistantChunk (at_visible_text out) (extracted citation_chunk) (plan_segments out)).

(** What a client collects from a stream of chunks. *)
Definition assistant_app (a b : AssistantTextChunk) : AssistantTextChunk :=
  mkAssistantChunk (at_visible_text a ++ at_visible_text b) (citations a ++ citations b)
                   (plan_segments a ++ plan_segments b).

Fixpoint assistant_run (p : AssistantTextStreamParser) (chunks : list rstr) : AssistantTextChunk :=
  match chunks with
  | [] => (assistant_finish p).2
  | c :: chunks' => let '(p', o) := assistant_push_str p c in assistant_app o (assistant_run p' chunks')
  end.

(** ** The plan parser keeps its promise *)

Definition unmap_segment (s : ProposedPlanSegment) : TaggedLineSegment PlanTag :=
  match s with
  | PlanNormal text => Normal text
  | ProposedPlanStart => TagStart ProposedPlan
  | ProposedPlanDelta text => TagDelta ProposedPlan text
  | ProposedPlanEnd => TagEnd ProposedPlan
  end.

Lemma unmap_map (l : list (TaggedLineSegment PlanTag)) : unmap_segment <$> (map_segment <$> l) = l.
Proof. induction l as [|[t|[]|[] t|[]] l IH]; [done|..]; rewrite !fmap_cons, IH; done. Qed.

(** Plan segments up to the merging of adjacent text. *)
Definition plan_norm (l : list ProposedPlanSegment) : list ProposedPlanSegment :=
  map_segment <$> merge (unmap_segment <$> l).

Lemma plan_norm_map (l : list (TaggedLineSegment PlanTag)) : plan_norm (map_segment <$> l) = map_segment <$> merge l.
Proof. unfold plan_norm. by rewrite unmap_map. Qed.

Fixpoint normal_text (l : list (TaggedLineSegment PlanTag)) : rstr :=
  match l with
  | [] => []
  | Normal t :: l' => t ++ normal_text l'
  | _ :: l' => normal_text l'
  end.

Lemma normal_text_app l k : normal_text (l ++ k) = normal_text l ++ normal_text k.
Proof. induction l as [|[] l IH]; simpl; rewrite ?IH, <- ?app_assoc; done. Qed.

Lemma map_segments_spec l : map_segments l = mkStreamChunk (normal_text l) (map_segment <$> l).
Proof. by induction l as [|[t|[]|[] t|[]] l IH]; simpl; rewrite ?IH. Qed.

Lemma normal_text_push l s : normal_text (push_segment l s) = normal_text l ++ normal_text [s].
Proof.
  destruct (empty_segment s) eqn:Hs.
  { rewrite push_empty by done. destruct s; simpl in *; try done; rewrite ?app_nil_r; [|done].
    apply is_empty_true in Hs as ->. by rewrite app_nil_r. }
  destruct l as [|r l _] using rev_ind; rewrite ?push_segment_nil, ?push_segment_snoc, Hs; [done|].
  destruct (join_segment r s) as [c|] eqn:Hj; rewrite !normal_text_app, <- ?app_assoc; [f_equal|done].
  destruct r, s; simpl in *; try done; [|case_decide; [|done]]; injection Hj as <-; simpl; by rewrite ?app_nil_r.
Qed.

Lemma normal_text_merge l : normal_text (merge l) = normal_text l.
Proof.
  unfold merge. induction l as [|s l IH] using rev_ind; [done|].
  rewrite foldl_app. simpl. by rewrite normal_text_push, IH, normal_text_app.
Qed.

Lemma normal_text_proper l k : merge l = merge k → normal_text l = normal_text k.
Proof. intros H. by rewrite <- (normal_text_merge l), H, normal_text_merge. Qed.

Definition plan_ok (p : ProposedPlanParser) : Prop := tagged_ok (plan_parser p).

Lemma plan_norm_app l l' k k' : plan_norm l = plan_norm l' → plan_norm k = plan_norm k' →
  plan_norm (l ++ k) = plan_norm (l' ++ k').
Proof.
  unfold plan_norm. intros H1 H2. rewrite !fmap_app. f_equal. apply merge_app_proper.
  - by rewrite <- (unmap_map (merge _)), H1, unmap_map.
  - by rewrite <- (unmap_map (merge _)), H2, unmap_map.
Qed.

#[global] Instance plan_invariant : ChunkInvariant ProposedPlanParser ProposedPlanSegment plan_ok plan_norm.
Proof.
  split; [intros [p] c Hp|intros [p] Hp|intros [p] a b Hp|apply plan_norm_app];
    cbn [push_str plan_stream_parser]; unfold plan_push_str, plan_ok in *; cbn [plan_parser] in *; rewrite ?parse_raw.
  - by apply raw_ok.
  - done.
  - pose proof (raw_app p a b) as Happ.
    destruct (raw p a) as [p1 s1]. cbn [fst plan_parser]. rewrite Happ.
    destruct (raw p1 b) as [p2 s2]. cbn [fst snd]. split; [done|]. rewrite !map_segments_spec.
    cbn [visible_text extracted]. split.
    + by rewrite !normal_text_merge, normal_text_app.
    + rewrite <- fmap_app, !plan_norm_map. f_equal. by rewrite merge_merge, <- merge_app.
Qed.

(** A complete stream against the line-by-line reference. *)
Lemma run_plan chunks :
  let o := run_stream new_plan_parser chunks in
  visible_text o = normal_text (spec_text plan_specs (concat chunks)) ∧
  plan_norm (extracted o) = map_segment <$> merge (spec_text plan_specs (concat chunks)).
Proof.
  assert (plan_ok new_plan_parser) as Hok by apply not_elem_of_nil.
  assert (concat chunks = concat [concat chunks]) as Hc by (simpl; by rewrite app_nil_r).
  destruct (run_stream_concat (ok := plan_ok) (norm := plan_norm) new_plan_parser _ _ Hok Hc) as [Hv He].
  cbn zeta. rewrite Hv, He. unfold run_stream. cbn [push_all push_str finish plan_stream_parser].
  unfold plan_push_str, plan_finish. cbn [plan_parser new_plan_parser]. rewrite parse_raw.
  pose proof (pending_raw (concat chunks) (new_tagged plan_specs) Hok) as Hraw.
  destruct (raw (new_tagged plan_specs) (concat chunks)) as [p s]. cbn [fst snd plan_parser] in *.
  destruct (tagged_finish p) as [q t]. cbn [fst snd] in *. rewrite !map_segments_spec. unfold chunk_app, chunk_default.
  cbn [visible_text extracted]. change (pending_spec _ _) with (spec_text plan_specs (concat chunks)) in Hraw.
  rewrite !app_nil_r, <- fmap_app, plan_norm_map, Hraw. split.
  - rewrite normal_text_merge, <- normal_text_app. by apply normal_text_proper.
  - f_equal. rewrite merge_app, merge_merge, <- merge_app. done.
Qed.

(** ** The composition *)

Lemma run_stream_cons `{StreamTextParser P E} (p : P) c cs :
  run_stream p (c :: cs) = let '(p', o) := push_str p c in chunk_app o (run_stream p' cs).
Proof.
  unfold run_stream. cbn [push_all]. destruct (push_str p c) as [p1 o1]. destruct (push_all p1 cs) as [p2 o2].
  by rewrite chunk_app_assoc.
Qed.

Lemma run_stream_nil `{StreamTextParser P E} (p : P) : run_stream p [] = (finish p).2.
Proof. unfold run_stream. simpl. unfold chunk_app. simpl. by destruct (finish p).2. Qed.

Lemma chunk_empty_spec {E} (c : StreamTextChunk E) : chunk_empty c = true → c = chunk_default.
Proof. destruct c as [v e]. unfold chunk_empty. simpl. by intros [->%is_empty_true ->%is_empty_true]%andb_true_iff. Qed.

Lemma chunk_app_default_r {E} (c : StreamTextChunk E) : chunk_app c chunk_default = c.
Proof. destruct c. unfold chunk_app. simpl. by rewrite !app_nil_r. Qed.

(** Outside plan mode the stream is that of the citation parser. *)
Lemma assistant_run_plain chunks : ∀ c q,
  assistant_run (mkAssistantParser false c q) chunks =
  mkAssistantChunk (visible_text (run_stream c chunks)) (extracted (run_stream c chunks)) [].
Proof.
  induction chunks as [|s chunks IH]; intros c q; cbn [assistant_run].
  - rewrite run_stream_nil. unfold assistant_finish. cbn [ap_citations]. by destruct (finish c) as [c' o].
  - rewrite run_stream_cons. unfold assistant_push_str. cbn [ap_citations]. destruct (push_str c s) as [c' o].
    unfold parse_visible_text. cbn [plan_mode]. by rewrite IH.
Qed.

(** In plan mode the plan parser reads the visible text of the citation parser. *)
Lemma assistant_run_plan chunks : ∀ c q, ∃ vs,
  concat vs = visible_text (run_stream c chunks) ∧
  assistant_run (mkAssistantParser true c q) chunks =
  mkAssistantChunk (visible_text (run_stream q vs)) (extracted (run_stream c chunks)) (extracted (run_stream q vs)).
Proof.
  induction chunks as [|s chunks IH]; intros c q; cbn [assistant_run].
  - rewrite run_stream_nil. unfold assistant_finish. cbn [ap_citations]. destruct (finish c) as [c' o].
    exists [visible_text o]. split; [simpl; by rewrite app_nil_r|]. rewrite run_stream_cons.
    unfold parse_visible_text. cbn [plan_mode ap_plan]. destruct (push_str q (visible_text o)) as [q' u].
    rewrite run_stream_nil. cbn [plan_mode ap_plan]. destruct (finish q') as [q'' t]. cbn [snd].
    destruct (chunk_empty t) eqn:Et; [|done]. apply chunk_empty_spec in Et as ->. by rewrite chunk_app_default_r.
  - rewrite run_stream_cons. unfold assistant_push_str. cbn [ap_citations]. destruct (push_str c s) as [c' o].
    unfold parse_visible_text. cbn [plan_mode ap_plan]. destruct (push_str q (visible_text o)) as [q' u] eqn:Eq.
    destruct (IH c' q') as (vs & Hvs & Hrun). exists (visible_text o :: vs). split; [simpl; by rewrite Hvs|].
    cbn [ap_citations]. rewrite Hrun, run_stream_cons, Eq. done.
Qed.

(** ** Extracting the plan *)

Lemma foldl_extract_push st (l : list (TaggedLineSegment PlanTag)) :
  foldl extract_step st (map_segment <$> merge l) = foldl extract_step st (map_segment <$> l).
Proof.
  unfold merge. induction l as [|s l IH] using rev_ind; [done|].
  rewrite foldl_app, fmap_app, foldl_app, <- IH. cbn [foldl]. generalize (foldl push_segment [] l). clear l IH. intros l.
  destruct (empty_segment s) eqn:Hs.
  { rewrite push_empty by done. destruct s as [|[]|[] t|[]]; simpl in *; try done.
    apply is_empty_true in Hs as ->. rewrite app_nil_r. by destruct (foldl _ _ _). }
  destruct l as [|r l _] using rev_ind; rewrite ?push_segment_nil, ?push_segment_snoc, Hs; [done|].
  destruct (join_segment r s) as [c|] eqn:Hj; rewrite !fmap_app, !foldl_app; [|done].
  destruct r as [|[]|[] t|[]], s as [|[]|[] t'|[]]; simpl in *; try done; injection Hj as <-; simpl; by rewrite ?app_assoc.
Qed.

Definition plan_result (st : rstr * bool) : option rstr := if st.2 then Some st.1 else None.

Lemma extract_spec text :
  extract_proposed_plan_text text =
  plan_result (foldl extract_step ([], false) (map_segment <$> spec_text plan_specs text)).
Proof.
  pose proof (run_plan [text]) as [_ He]. cbn [concat] in He. rewrite app_nil_r in He.
  rewrite run_stream_cons in He. unfold extract_proposed_plan_text.
  destruct (push_str new_plan_parser text) as [p o]. rewrite run_stream_nil in He. destruct (finish p) as [p' t].
  cbn [snd] in *. unfold chunk_app in He. cbn [extracted] in He. set (e := extracted o ++ extracted t) in *.
  assert (foldl extract_step ([], false) e = foldl extract_step ([], false) (map_segment <$> (unmap_segment <$> e))) as He1.
  { f_equal. clear. induction e as [|[w| |w|] e IH]; [done|..]; by rewrite !fmap_cons, <- IH. }
  rewrite He1, <- foldl_extract_push. change (map_segment <$> merge (unmap_segment <$> e)) with (plan_norm e).
  rewrite He, foldl_extract_push. clear. unfold plan_result. by destruct (foldl _ _ _) as [x []].
Qed.

Lemma strip_plan_spec text : strip_proposed_plan_blocks text = normal_text (spec_text plan_specs text).
Proof.
  pose proof (run_plan [text]) as [Hv _]. cbn [concat] in Hv. rewrite app_nil_r in Hv. rewrite <- Hv.
  rewrite run_stream_cons. unfold strip_proposed_plan_blocks.
  destruct (push_str new_plan_parser text) as [p o]. by rewrite run_stream_nil.
Qed.

(** ** Documents with plan blocks *)

(** A line that is not a tag, with its newline. *)
Definition prose_line (l : rstr) : Prop :=
  ∃ w, l = w ++ [LF] ∧ (LF ∉ w) ∧ line_slug l ≠ OPEN_TAG ∧ line_slug l ≠ CLOSE_TAG.

Inductive doc_item := Prose (line : rstr) | Block (body : list rstr).
Definition doc_item_ok (d : doc_item) : Prop :=
  match d with Prose l => prose_line l | Block b => Forall prose_line b end.

Definition render_item (d : doc_item) : rstr :=
  match d with
  | Prose l => l
  | Block b => OPEN_TAG ++ [LF] ++ concat b ++ CLOSE_TAG ++ [LF]
  end.
Definition render_doc (ds : list doc_item) : rstr := concat (render_item <$> ds).

Definition item_prose (d : doc_item) : rstr := match d with Prose l => l | Block _ => [] end.
Definition last_block (ds : list doc_item) : option rstr :=
  foldl (λ o d, match d with Prose _ => o | Block b => Some (concat b) end) None ds.

Definition item_segments (d : doc_item) : list (TaggedLineSegment PlanTag) :=
  match d with
  | Prose l => [Normal l]
  | Block b => TagStart ProposedPlan :: (TagDelta ProposedPlan <$> b) ++ [TagEnd ProposedPlan]
  end.

Lemma close_prose active l : prose_line l → close_line plan_specs active l = (active, text_segment active l).
Proof.
  intros (w & _ & _ & Ho & Hc). unfold close_line, match_open, match_close.
  rewrite !find_tag_None; [by destruct active|..]; by intros spec ->%list_elem_of_singleton; apply not_eq_sym.
Qed.

Lemma split_line w rest : LF ∉ w → split_inclusive LF ((w ++ [LF]) ++ rest) = (w ++ [LF]) :: split_inclusive LF rest.
Proof. intros Hw. rewrite <- app_assoc. by apply split_inclusive_line. Qed.

Lemma spec_block b rest : Forall prose_line b →
  spec_lines plan_specs (Some ProposedPlan) (split_inclusive LF (concat b ++ CLOSE_TAG ++ [LF] ++ rest)) =
  (TagDelta ProposedPlan <$> b) ++ TagEnd ProposedPlan :: spec_lines plan_specs None (split_inclusive LF rest).
Proof.
  induction 1 as [|l b Hl Hb IH]; [done|]. pose proof Hl as (w & -> & Hw & _). cbn [concat].
  rewrite <- (app_assoc (w ++ [LF])), split_line by done. rewrite spec_lines_cons.
  rewrite close_prose by done. rewrite IH. done.
Qed.

Lemma spec_doc ds : Forall doc_item_ok ds →
  spec_text plan_specs (render_doc ds) = concat (item_segments <$> ds).
Proof.
  unfold spec_text, render_doc. induction 1 as [|[l|b] ds Hd Hds IH]; [done|..]; rewrite !fmap_cons; cbn [concat render_item item_segments].
  - pose proof Hd as (w & Hl & Hw & _). subst l. rewrite split_line by done. rewrite spec_lines_cons.
    rewrite close_prose by done. by rewrite IH.
  - rewrite <- !app_assoc. change (OPEN_TAG ++ [LF] ++ ?x) with ((OPEN_TAG ++ [LF]) ++ x).
    rewrite split_line by (vm_compute; set_solver). rewrite spec_lines_cons.
    change (close_line plan_specs None (OPEN_TAG ++ [LF])) with (Some ProposedPlan, TagStart ProposedPlan).
    cbv beta iota. rewrite spec_block by done. rewrite IH. by rewrite <- app_comm_cons, <- app_assoc.
Qed.

Lemma normal_text_doc ds : normal_text (concat (item_segments <$> ds)) = concat (item_prose <$> ds).
Proof.
  induction ds as [|[l|b] ds IH]; [done|..]; rewrite !fmap_cons; cbn [concat item_segments item_prose]; rewrite normal_text_app, IH.
  - simpl. by rewrite app_nil_r.
  - cbn [normal_text]. rewrite normal_text_app. cbn [normal_text]. rewrite app_nil_r.
    by replace (normal_text (TagDelta ProposedPlan <$> b)) with ([] : rstr) by (induction b; done).
Qed.

Lemma extract_doc ds st : plan_result (foldl extract_step st (map_segment <$> concat (item_segments <$> ds))) =
  foldl (λ o d, match d with Prose _ => o | Block b => Some (concat b) end) (plan_result st) ds.
Proof.
  revert st. induction ds as [|d ds IH]; intros st; [done|].
  rewrite fmap_cons. cbn [concat foldl]. rewrite fmap_app, foldl_app, IH. f_equal.
  destruct d as [l|b]; [done|]. cbn [item_segments]. rewrite fmap_cons, fmap_app. cbn [foldl]. rewrite foldl_app. cbn [map_segment extract_step].
  assert (∀ x, foldl extract_step (x, true) (map_segment <$> (TagDelta ProposedPlan <$> b)) = (x ++ concat b, true)) as ->.
  { induction b as [|l b IHb]; intros x; [by rewrite app_nil_r|]. rewrite !fmap_cons. cbn [foldl map_segment extract_step fst snd concat].
    by rewrite IHb, app_assoc. }
  done.
Qed.
