(* ===== verification/Utf8Stream.v ===== *)
(** * UTF-8 over a byte stream

    [utils/stream-parser/src/utf8_stream.rs]: bytes are decoded as they
    arrive, an incomplete code point is kept for the next chunk, and a chunk
    with invalid bytes is rolled back.  [from_utf8] is the validation of the
    standard library; a byte is its value. *)

From S2P Require Import Prelude RustStr StreamText.

Open Scope N_scope.

(** ** [std::str::from_utf8] *)

Abbreviation bytes := (list N) (only parsing).

(** The next code point: its value and width, or the length of an invalid
    sequence, or the input ends inside it. *)
Inductive utf8_step :=
| CodePoint (c : char) (width : nat)
| InvalidSeq (len : nat)
| Incomplete.

Definition between (lo x hi : N) : bool := (lo <=? x) && (x <=? hi).
Definition is_cont (b : N) : bool := between 128 b 191.

(** The bounds on the second byte of three- and four-byte sequences. *)
Definition second3 (b0 b1 : N) : bool :=
  if b0 =? 224 then between 160 b1 191 else if b0 =? 237 then between 128 b1 159 else is_cont b1.
Definition second4 (b0 b1 : N) : bool :=
  if b0 =? 240 then between 144 b1 191 else if b0 =? 244 then between 128 b1 143 else is_cont b1.

Definition utf8_next (b0 : N) (rest : bytes) : utf8_step :=
  if b0 <? 128 then CodePoint b0 1
  else if between 194 b0 223 then
    match rest with
    | [] => Incomplete
    | b1 :: _ => if is_cont b1 then CodePoint ((b0 - 192) * 64 + (b1 - 128)) 2 else InvalidSeq 1
    end
  else if between 224 b0 239 then
    match rest with
    | [] => Incomplete
    | b1 :: rest =>
        if second3 b0 b1 then
          match rest with
          | [] => Incomplete
          | b2 :: _ =>
              if is_cont b2
              then CodePoint ((b0 - 224) * 4096 + (b1 - 128) * 64 + (b2 - 128)) 3
              else InvalidSeq 2
          end
        else InvalidSeq 1
    end
  else if between 240 b0 244 then
    match rest with
    | [] => Incomplete
    | b1 :: rest =>
        if second4 b0 b1 then
          match rest with
          | [] => Incomplete
          | b2 :: rest =>
              if is_cont b2 then
                match rest with
                | [] => Incomplete
                | b3 :: _ =>
                    if is_cont b3
                    then CodePoint ((b0 - 240) * 262144 + (b1 - 128) * 4096 + (b2 - 128) * 64 + (b3 - 128)) 4
                    else InvalidSeq 3
                end
              else InvalidSeq 2
          end
        else InvalidSeq 1
    end
  else InvalidSeq 1.

Close Scope N_scope.

(** [Utf8Error]: [valid_up_to] and [error_len]. *)
Record Utf8Error := mkUtf8Error { valid_up_to : nat; error_len : option nat }.

(** The decoded prefix and the error, if there is one. *)
Fixpoint from_utf8_loop (fuel : nat) (bs : bytes) : rstr * option Utf8Error :=
  match fuel, bs with
  | S fuel', b :: rest =>
      match utf8_next b rest with
      | CodePoint c w =>
          let '(s, e) := from_utf8_loop fuel' (drop w bs) in
          (c :: s, (λ e, mkUtf8Error (w + valid_up_to e) (error_len e)) <$> e)
      | InvalidSeq n => ([], Some (mkUtf8Error 0 (Some n)))
      | Incomplete => ([], Some (mkUtf8Error 0 None))
      end
  | _, _ => ([], None)
  end.
Definition decode (bs : bytes) : rstr * option Utf8Error := from_utf8_loop (length bs) bs.

Definition from_utf8 (bs : bytes) : result Utf8Error rstr :=
  match decode bs with (s, None) => Ok s | (_, Some e) => Err e end.

(** ** The parser *)

Inductive Utf8StreamParserError :=
| InvalidUtf8 (valid_up_to error_len : nat)
| IncompleteUtf8AtEof.

Section parser.
Context `{StreamTextParser P T}.

Record Utf8StreamParser := mkUtf8Parser { u_inner : P; pending_utf8 : bytes }.

Definition new_utf8_parser (inner : P) : Utf8StreamParser := mkUtf8Parser inner [].

Definition push_bytes (p : Utf8StreamParser) (chunk : bytes) :
    Utf8StreamParser * result Utf8StreamParserError (StreamTextChunk T) :=
  let old_len := length (pending_utf8 p) in
  let pending := pending_utf8 p ++ chunk in
  match from_utf8 pending with
  | Ok text => let '(inner, out) := push_str (u_inner p) text in (mkUtf8Parser inner [], Ok out)
  | Err err =>
      match error_len err with
      | Some n => (mkUtf8Parser (u_inner p) (take old_len pending), Err (InvalidUtf8 (valid_up_to err) n))
      | None =>
          if decide (valid_up_to err = 0) then (mkUtf8Parser (u_inner p) pending, Ok chunk_default)
          else
            match from_utf8 (take (valid_up_to err) pending) with
            | Err prefix_err =>
                (mkUtf8Parser (u_inner p) (take old_len pending),
                 Err (InvalidUtf8 (valid_up_to prefix_err) (default 0 (error_len prefix_err))))
            | Ok text =>
                let '(inner, out) := push_str (u_inner p) text in
                (mkUtf8Parser inner (drop (valid_up_to err) pending), Ok out)
            end
      end
  end.

(** The check [finish] and [into_inner] share. *)
Definition check_pending (pending : bytes) : option Utf8StreamParserError :=
  match from_utf8 pending with
  | Ok _ => None
  | Err err => Some match error_len err with
                    | Some n => InvalidUtf8 (valid_up_to err) n
                    | None => IncompleteUtf8AtEof
                    end
  end.

Definition utf8_finish (p : Utf8StreamParser) : Utf8StreamParser * result Utf8StreamParserError (StreamTextChunk T) :=
  match (if is_empty (pending_utf8 p) then None else check_pending (pending_utf8 p)) with
  | Some e => (p, Err e)
  | None =>
      let flushed :=
        if is_empty (pending_utf8 p) then Ok (p, chunk_default)
        else match from_utf8 (pending_utf8 p) with
             | Err err => Err (InvalidUtf8 (valid_up_to err) (default 0 (error_len err)))
             | Ok text => let '(inner, out) := push_str (u_inner p) text in Ok (mkUtf8Parser inner [], out)
             end in
      match flushed with
      | Err e => (p, Err e)
      | Ok (p, out) =>
          let '(inner, tail) := finish (u_inner p) in
          (mkUtf8Parser inner (pending_utf8 p), Ok (chunk_app out tail))
      end
  end.

Definition into_inner (p : Utf8StreamParser) : result Utf8StreamParserError P :=
  if is_empty (pending_utf8 p) then Ok (u_inner p)
  else match check_pending (pending_utf8 p) with None => Ok (u_inner p) | Some e => Err e end.
Definition into_inner_lossy (p : Utf8StreamParser) : P := u_inner p.

(** A client that stops at the first error. *)
Fixpoint run_bytes (p : Utf8StreamParser) (chunks : list bytes) : result Utf8StreamParserError (StreamTextChunk T) :=
  match chunks with
  | [] => (utf8_finish p).2
  | c :: chunks' =>
      let '(p', r) := push_bytes p c in
      o ← r; o' ← run_bytes p' chunks'; Ok (chunk_app o o')
  end.
End parser.
Arguments Utf8StreamParser : clear implicits.

(** ** Decoding a growing input *)

Lemma utf8_next_app b rest k :
  match utf8_next b rest with
  | Incomplete => True
  | st => utf8_next b (rest ++ k) = st
  end.
Proof.
  unfold utf8_next.
  repeat (case_match; simplify_eq/=; try done).
Qed.

Lemma utf8_next_width b rest c w : utf8_next b rest = CodePoint c w → 1 ≤ w ≤ S (length rest).
Proof.
  unfold utf8_next. intros Hn. repeat case_hyp Hn; simplify_eq/=; lia.
Qed.

Lemma utf8_next_take b rest c w n : utf8_next b rest = CodePoint c (S w) → utf8_next b (take (w + n) rest) = CodePoint c (S w).
Proof.
  intros Hn. assert (utf8_next b (take w rest) = CodePoint c (S w)) as Ht.
  { revert Hn. unfold utf8_next. repeat case_match; simpl; intros; simplify_eq/=; try done; congruence. }
  rewrite <- take_take_drop. pose proof (utf8_next_app b (take w rest) (take n (drop w rest))) as Ha. by rewrite Ht in Ha.
Qed.

Lemma from_utf8_fuel bs n m : length bs ≤ n → length bs ≤ m → from_utf8_loop n bs = from_utf8_loop m bs.
Proof.
  revert bs m. induction n as [|n IH]; intros bs m Hn Hm.
  { destruct bs; [by destruct m|simpl in *; lia]. }
  destruct bs as [|b rest]; [by destruct m|]. destruct m as [|m]; [simpl in *; lia|]. cbn [from_utf8_loop].
  destruct (utf8_next b rest) as [c w| |] eqn:E; try done. apply utf8_next_width in E.
  by rewrite (IH (drop w (b :: rest)) m) by (rewrite length_drop; simpl in *; lia).
Qed.

Definition shift_error (w : nat) (e : Utf8Error) : Utf8Error := mkUtf8Error (w + valid_up_to e) (error_len e).

Lemma decode_cons b rest :
  decode (b :: rest) =
  match utf8_next b rest with
  | CodePoint c w => (λ '(s, e), (c :: s, shift_error w <$> e)) (decode (drop w (b :: rest)))
  | InvalidSeq n => ([], Some (mkUtf8Error 0 (Some n)))
  | Incomplete => ([], Some (mkUtf8Error 0 None))
  end.
Proof.
  unfold decode. cbn [length from_utf8_loop]. destruct (utf8_next b rest) as [c w| |] eqn:E; [|done..].
  apply utf8_next_width in E.
  rewrite (from_utf8_fuel _ (length rest) (length (drop w (b :: rest)))) by (rewrite ?length_drop; simpl; lia). done.
Qed.

(** Decoding [a ++ k] goes on where decoding [a] stopped. *)
Lemma decode_app a k :
  decode (a ++ k) =
  match decode a with
  | (s, None) => (λ '(s', e), (s ++ s', shift_error (length a) <$> e)) (decode k)
  | (s, Some (mkUtf8Error v None)) => (λ '(s', e), (s ++ s', shift_error v <$> e)) (decode (drop v a ++ k))
  | (s, Some e) => (s, Some e)
  end.
Proof.
  induction a as [a IH] using (well_founded_induction (well_founded_ltof _ length)). unfold ltof in IH.
  destruct a as [|b rest].
  { simpl. destruct (decode k) as [s [[v e]|]]; done. }
  rewrite (decode_cons b rest). pose proof (utf8_next_app b rest k) as Hn.
  destruct (utf8_next b rest) as [c w| |] eqn:E.
  - rewrite <- app_comm_cons, decode_cons, Hn. pose proof (utf8_next_width _ _ _ _ E) as Hw. rewrite (app_comm_cons rest k b).
    rewrite drop_app_le by (simpl; lia). rewrite IH by (rewrite length_drop; simpl; lia).
    destruct (decode (drop w (b :: rest))) as [s [[v [n|]]|]]; simpl.
    + done.
    + rewrite <- drop_drop. destruct w as [|w]; [lia|]. cbn [drop].
      destruct (decode (drop v (drop w rest) ++ k)) as [s' [[v' e']|]]; simpl; [|done].
      unfold shift_error; simpl. by rewrite Nat.add_assoc.
    + destruct (decode k) as [s' [[v' e']|]]; simpl; [|done].
      unfold shift_error; simpl. rewrite length_drop. simpl. do 3 f_equal. lia.
  - by rewrite <- app_comm_cons, decode_cons, Hn.
  - cbn [drop]. destruct (decode ((b :: rest) ++ k)) as [s' [[v' e']|]]; done.
Qed.

(** Up to [valid_up_to] the input is valid. *)
Lemma decode_valid a s e : decode a = (s, Some e) →
  decode (take (valid_up_to e) a) = (s, None) ∧ valid_up_to e < length a ∧
  decode (drop (valid_up_to e) a) = ([], Some (mkUtf8Error 0 (error_len e))).
Proof.
  revert s e. induction a as [a IH] using (well_founded_induction (well_founded_ltof _ length)). unfold ltof in IH.
  intros s e. destruct a as [|b rest]; [done|]. rewrite decode_cons.
  destruct (utf8_next b rest) as [c w| |] eqn:E.
  - pose proof (utf8_next_width _ _ _ _ E) as Hw.
    destruct (decode (drop w (b :: rest))) as [s1 [e1|]] eqn:E1; cbn [fmap option_fmap option_map]; [|done].
    intros [= <- <-]. apply IH in E1 as (H1 & H2 & H3); [|rewrite length_drop; simpl; lia].
    cbn [shift_error valid_up_to error_len]. rewrite length_drop in H2. split; [|split; [simpl in *; lia|by rewrite <- drop_drop]].
    destruct w as [|w]; [lia|]. cbn [Nat.add take]. rewrite decode_cons, (utf8_next_take _ _ _ _ _ E).
    cbn [drop] in *. rewrite <- take_take_drop, drop_app_length', H1 by (rewrite length_take; lia). done.
  - intros [= <- <-]. simpl. rewrite decode_cons, E. split; [done|]. split; [lia|done].
  - intros [= <- <-]. simpl. rewrite decode_cons, E. split; [done|]. split; [lia|done].
Qed.

(** ** Encoding *)

(** [char]: a Unicode scalar value. *)
Definition is_scalar (c : char) : bool := ((c <? 55296) || (57343 <? c) && (c <? 1114112))%N.

Definition encode_char (c : char) : bytes :=
  (if c <? 128 then [c]
   else if c <? 2048 then [192 + c / 64; 128 + c mod 64]
   else if c <? 65536 then [224 + c / 4096; 128 + (c / 64) mod 64; 128 + c mod 64]
   else [240 + c / 262144; 128 + (c / 4096) mod 64; 128 + (c / 64) mod 64; 128 + c mod 64])%N.
Definition encode (s : rstr) : bytes := concat (encode_char <$> s).

Lemma between_true lo x hi : between lo x hi = true ↔ (lo ≤ x ≤ hi)%N.
Proof. unfold between. rewrite andb_true_iff, !N.leb_le. done. Qed.
Lemma between_false lo x hi : between lo x hi = false ↔ (x < lo ∨ hi < x)%N.
Proof. rewrite <- not_true_iff_false, between_true. lia. Qed.

Ltac bytes_lia := zify; Z.to_euclidean_division_equations; lia.
Ltac byte_case :=
  match goal with
  | |- context [(?a <? ?b)%N] => let E := fresh in destruct (N.ltb_spec a b) as [E|E]; try (exfalso; bytes_lia)
  | |- context [(?a =? ?b)%N] => let E := fresh in destruct (N.eqb_spec a b) as [E|E]; try (exfalso; bytes_lia)
  | |- context [between ?a ?b ?c] =>
      let E := fresh in destruct (between a b c) eqn:E;
      [apply between_true in E|apply between_false in E]; try (exfalso; bytes_lia)
  end.

Lemma utf8_next_encode c : is_scalar c = true →
  ∃ b rest, encode_char c = b :: rest ∧ utf8_next b rest = CodePoint c (length (encode_char c)).
Proof.
  intros Hc. assert (c < 55296 ∨ 57343 < c < 1114112)%N as Hs.
  { unfold is_scalar in Hc. rewrite orb_true_iff, andb_true_iff, !N.ltb_lt in Hc. lia. }
  clear Hc. unfold encode_char.
  destruct (N.ltb_spec c 128); [|destruct (N.ltb_spec c 2048); [|destruct (N.ltb_spec c 65536)]];
    (do 2 eexists; split; [reflexivity|]); unfold utf8_next, second3, second4, is_cont.
  all: repeat byte_case; simpl; f_equal; bytes_lia.
Qed.

Lemma decode_encode s : Forall (λ c, is_scalar c = true) s → decode (encode s) = (s, None).
Proof.
  induction 1 as [|c s Hc Hs IH]; [done|]. unfold encode. rewrite fmap_cons. cbn [concat].
  destruct (utf8_next_encode c Hc) as (b & rest & He & Hn). rewrite decode_app.
  assert (decode (encode_char c) = ([c], None)) as ->.
  { rewrite He in *. rewrite decode_cons, Hn. by rewrite drop_all. }
  fold (encode s). by rewrite IH.
Qed.

(** ** The parser over an inner parser that keeps its promise *)

Section run.
Context `{Hci : ChunkInvariant P T ok norm}.
Implicit Types p : Utf8StreamParser P.

(** The buffer holds at most one unfinished code point. *)
Definition utf8_ok p : Prop :=
  ok (u_inner p) ∧ (pending_utf8 p = [] ∨ decode (pending_utf8 p) = ([], Some (mkUtf8Error 0 None))).

Lemma push_bytes_spec p chunk : utf8_ok p →
  match decode (pending_utf8 p ++ chunk) with
  | (_, Some (mkUtf8Error v (Some n))) => push_bytes p chunk = (p, Err (InvalidUtf8 v n))
  | (s, e) =>
      let '(inner, o) := push_str (u_inner p) s in
      let rest := match e with
                  | None => []
                  | Some e => drop (valid_up_to e) (pending_utf8 p ++ chunk)
                  end in
      push_bytes p chunk = (mkUtf8Parser inner rest, Ok o) ∧ utf8_ok (mkUtf8Parser inner rest)
  end.
Proof.
  destruct p as [inner pending]. intros [Hok Hp]. unfold push_bytes, from_utf8. cbn [pending_utf8 u_inner] in *.
  destruct (decode (pending ++ chunk)) as [s [[v [n|]]|]] eqn:E; cbn [error_len valid_up_to].
  - by rewrite take_app_length.
  - apply decode_valid in E as (Hv & Hl & Hd). cbn [error_len valid_up_to] in *.
    pose proof (push_ok inner s Hok) as Hok'. destruct (decide (v = 0)) as [->|Hne].
    + simpl in Hv. injection Hv as <-. rewrite push_nil by done. rewrite drop_0. split; [done|].
      split; [done|]. right. by rewrite drop_0 in Hd.
    + rewrite Hv. destruct (push_str inner s) as [inner' o]. split; [done|]. split; [done|]. by right.
  - pose proof (push_ok inner s Hok) as Hok'. destruct (push_str inner s) as [inner' o].
    split; [done|]. split; [done|]. by left.
Qed.

(** Pushing two texts is pushing their concatenation, as seen at the end. *)
Definition same_result (a b : StreamTextChunk T) : Prop :=
  visible_text a = visible_text b ∧ norm (extracted a) = norm (extracted b).

Lemma same_result_app o a b c : same_result a b → same_result (chunk_app o b) c → same_result (chunk_app o a) c.
Proof.
  intros [H1 H2] [H3 H4]. split; simpl in *; [by rewrite H1|]. rewrite <- H4. by apply norm_app.
Qed.

Lemma run_stream_push q s t : ok q →
  let '(q', o) := push_str q s in same_result (chunk_app o (run_stream q' [t])) (run_stream q [s ++ t]).
Proof.
  intros Hq. pose proof (run_stream_concat q [s; t] [s ++ t] Hq) as H2.
  assert (run_stream q [s; t] = let '(q', o) := push_str q s in chunk_app o (run_stream q' [t])) as E.
  { unfold run_stream. cbn [push_all]. destruct (push_str q s) as [q1 o1]. destruct (push_str q1 t) as [q2 o2].
    unfold chunk_app. cbn [visible_text extracted]. by rewrite <- !app_assoc. }
  rewrite E in H2. destruct (push_str q s). apply H2. simpl. by rewrite !app_nil_r.
Qed.

Lemma run_bytes_spec chunks : ∀ p, utf8_ok p →
  match decode (pending_utf8 p ++ concat chunks) with
  | (text, None) => ∃ o, run_bytes p chunks = Ok o ∧ same_result o (run_stream (u_inner p) [text])
  | (_, Some (mkUtf8Error _ None)) => run_bytes p chunks = Err IncompleteUtf8AtEof
  | (_, Some (mkUtf8Error _ (Some n))) => ∃ v, run_bytes p chunks = Err (InvalidUtf8 v n)
  end.
Proof.
  induction chunks as [|c chunks IH]; intros p Hp; cbn [concat run_bytes].
  - rewrite app_nil_r. destruct p as [inner pending], Hp as [Hok Hp]. cbn [pending_utf8 u_inner] in *. destruct Hp as [->|Hd].
    + exists (chunk_app chunk_default (finish inner).2). unfold utf8_finish. simpl.
      split; [by destruct (finish inner)|].
      unfold run_stream. cbn [push_all]. rewrite push_nil by done. done.
    + rewrite Hd. unfold utf8_finish. cbn [pending_utf8]. destruct pending as [|b pending]; [done|]. cbn [is_empty].
      unfold check_pending, from_utf8. by rewrite Hd.
  - rewrite app_assoc, decode_app. pose proof (push_bytes_spec p c Hp) as Hpush.
    destruct (decode (pending_utf8 p ++ c)) as [s [[v [n|]]|]].
    + rewrite Hpush. by exists v.
    + pose proof (run_stream_push (u_inner p) s) as Hrun.
      destruct (push_str (u_inner p) s) as [inner o], Hpush as [Hpush Hok]. cbn [valid_up_to] in *.
      specialize (IH _ Hok). cbn [pending_utf8 u_inner] in IH. rewrite Hpush. cbn [mbind result_bind].
      destruct (decode (drop v (pending_utf8 p ++ c) ++ concat chunks)) as [s' [[v' [n'|]]|]]; cbn [fmap option_fmap option_map shift_error valid_up_to error_len].
      * destruct IH as [v2 ->]. by exists v2.
      * by rewrite IH.
      * destruct IH as (o' & -> & Ho'). exists (chunk_app o o'). split; [done|].
        by eapply same_result_app; [|apply (Hrun s' (proj1 Hp))].
    + pose proof (run_stream_push (u_inner p) s) as Hrun.
      destruct (push_str (u_inner p) s) as [inner o], Hpush as [Hpush Hok].
      specialize (IH _ Hok). cbn [pending_utf8 u_inner app] in IH. rewrite Hpush. cbn [mbind result_bind].
      destruct (decode (concat chunks)) as [s' [[v' [n'|]]|]]; cbn [fmap option_fmap option_map shift_error valid_up_to error_len].
      * destruct IH as [v2 ->]. by exists v2.
      * by rewrite IH.
      * destruct IH as (o' & -> & Ho'). exists (chunk_app o o'). split; [done|].
        by eapply same_result_app; [|apply (Hrun s' (proj1 Hp))].
Qed.
End run.
