(* ===== verification/StreamProps.v ===== *)
(** * Properties of the stream parsers

    What [utils/stream-parser] promises: results that do not depend on how
    the model's output was cut into chunks, and that agree with definitions
    on the complete text. *)

From S2P Require Import Prelude RustStr StreamText InlineTags TaggedLines AssistantText Utf8Stream.

(** the hidden-tag parser accepts its specs when they and their
    delimiters are not empty; if moreover no opener is a proper part of
    another one, the visible text and the extracted tags of a stream depend
    only on the concatenation of its chunks, and after every chunk the parser
    keeps back no more than the beginning of a delimiter. *)
Theorem inline_chunks_irrelevant {T} (specs : list (InlineTagSpec T)) (p : InlineHiddenTagParser T) (chunks chunks' : list rstr)
  (Hspecs : delims_ok specs) (Hnew : new_inline_parser specs = Some p) (Hsame : concat chunks = concat chunks') :
  run_stream p chunks = run_stream p chunks' ∧
  let q := (push_all p chunks).1 in
  match ip_active q with
  | Some a => partial (ip_pending q) (at_close a) (length (ip_pending q))
  | None => ip_pending q = [] ∨ ∃ spec, spec ∈ ip_specs q ∧ partial (ip_pending q) (ts_open spec) (length (ip_pending q))
  end.
Proof.
  pose proof (new_inline_ok _ _ Hspecs Hnew) as Hok. split.
  - destruct (run_stream_concat (Hci := inline_invariant) p _ _ Hok Hsame) as [H1 H2].
    destruct (run_stream p chunks), (run_stream p chunks'). unfold id in *. simpl in *. by subst.
  - apply inline_ok_pending, (push_all_ok (Hci := inline_invariant)), Hok.
Qed.

Definition two_specs : list (InlineTagSpec nat) := [mkTagSpec 0 $"<a>" $"</a>"; mkTagSpec 1 $"<b>" $"</b>"].

Lemma two_specs_ok : delims_ok two_specs.
Proof.
  split; [by repeat constructor|].
  intros s1 s2 x y H1 H2 E. unfold two_specs in H1, H2.
  repeat (apply elem_of_cons in H1 as [->|H1]); try (by apply elem_of_nil in H1);
    repeat (apply elem_of_cons in H2 as [->|H2]); try (by apply elem_of_nil in H2); try done; exfalso;
    (destruct x as [|? [|? [|? [|? x]]]]; [..|apply (f_equal length) in E; rewrite !length_app in E; simpl in E; lia]); discriminate E.
Qed.

Lemma inline_chunks_irrelevant_witness :
  run_stream (mkInlineParser two_specs [] None) [$"x<"; $"b>y</"; $"b>z<a>w"]
  = run_stream (mkInlineParser two_specs [] None) [$"x<b>y</b>z<a>w"] ∧
  run_stream (mkInlineParser two_specs [] None) [$"x<b>y</b>z<a>w"]
  = mkStreamChunk $"xz" [mkExtracted 1 $"y"; mkExtracted 0 $"w"].
Proof.
  split; [|vm_compute; reflexivity].
  refine (proj1 (inline_chunks_irrelevant two_specs (mkInlineParser two_specs [] None)
           [$"x<"; $"b>y</"; $"b>z<a>w"] [$"x<b>y</b>z<a>w"] two_specs_ok _ _)); vm_compute; reflexivity.
Defined.

(** however the assistant's text is cut into chunks, the citation parser
    shows the text outside the tags and extracts the bodies, as given by
    splitting the complete text at the first opener, then at the first closer
    after it, and so on; [strip_citations] is the stream of one chunk. *)
Theorem citations_are_split (chunks : list rstr) :
  let text := concat chunks in
  let o := run_stream new_citation_parser chunks in
  (visible_text o, extracted o) = citation_spec (S (length text)) text ∧
  strip_citations text = (visible_text o, extracted o).
Proof.
  cbn zeta. assert (concat chunks = concat [concat chunks]) as Hc by (simpl; by rewrite app_nil_r).
  destruct (run_stream_concat (Hci := citation_invariant) _ _ _ new_citation_ok Hc) as [Hv He]. unfold id in *.
  rewrite Hv, He, strip_citations_run, run_citation_single. split; [by destruct (citation_spec _ _)|done].
Qed.

(** C37: in plan mode, whatever the chunks: the citations are those of the
    text, the plan parser sees the text without them, the visible text is
    what is outside the plan blocks of that text, read line by line, and the
    plan segments are the blocks and the text around them in order (up to
    the cutting of text into pieces).  Outside plan mode the citations are
    removed and nothing else. *)
Theorem assistant_stream_correct (mode : bool) (chunks : list rstr) :
  let text := concat chunks in
  let '(uncited, bodies) := citation_spec (S (length text)) text in
  let o := assistant_run (new_assistant_parser mode) chunks in
  citations o = bodies ∧
  (if mode then
     at_visible_text o = normal_text (spec_text plan_specs uncited) ∧
     plan_norm (plan_segments o) = map_segment <$> merge (spec_text plan_specs uncited)
   else at_visible_text o = uncited ∧ plan_segments o = []).
Proof.
  cbn zeta. assert (concat chunks = concat [concat chunks]) as Hc by (simpl; by rewrite app_nil_r).
  destruct (run_stream_concat (Hci := citation_invariant) _ _ _ new_citation_ok Hc) as [Hv He].
  rewrite run_citation_single in Hv, He. unfold id in He.
  destruct (citation_spec _ _) as [uncited bodies]. cbn [visible_text extracted] in *.
  unfold new_assistant_parser. destruct mode.
  - destruct (assistant_run_plan chunks new_citation_parser new_plan_parser) as (vs & Hvs & ->).
    cbn [citations at_visible_text plan_segments]. rewrite <- Hv, <- Hvs. split; [done|]. apply run_plan.
  - by rewrite assistant_run_plain.
Qed.

(** stripping and extracting plans from a document made of prose lines
    and plan blocks gives back its prose and its last block. *)
Theorem plan_document_roundtrip (ds : list doc_item) (Hok : Forall doc_item_ok ds) :
  strip_proposed_plan_blocks (render_doc ds) = concat (item_prose <$> ds) ∧
  extract_proposed_plan_text (render_doc ds) = last_block ds.
Proof.
  split.
  - by rewrite strip_plan_spec, spec_doc, normal_text_doc.
  - by rewrite extract_spec, spec_doc, extract_doc.
Qed.

Lemma plan_document_roundtrip_witness :
  strip_proposed_plan_blocks ($"intro" ++ [LF] ++ $"<proposed_plan>" ++ [LF] ++ $"- step 1" ++ [LF] ++ $"</proposed_plan>" ++ [LF])
    = $"intro" ++ [LF] ∧
  extract_proposed_plan_text ($"intro" ++ [LF] ++ $"<proposed_plan>" ++ [LF] ++ $"- step 1" ++ [LF] ++ $"</proposed_plan>" ++ [LF])
    = Some ($"- step 1" ++ [LF]).
Proof.
  apply (plan_document_roundtrip [Prose ($"intro" ++ [LF]); Block [$"- step 1" ++ [LF]]]).
  repeat constructor; [exists $"intro"|exists $"- step 1"]; (split; [reflexivity|]);
    (split; [by apply (bool_decide_unpack _); vm_compute|split; discriminate]).
Defined.

(** a byte stream over a parser whose result does not depend on its
    chunks gives what the inner parser gives on the decoded text when the
    concatenation of the chunks is valid UTF-8, and an error otherwise: the
    one that tells that the stream ends inside a code point, or the length of
    the invalid sequence.  A rejected chunk leaves the parser as it was. *)
Theorem utf8_stream_correct `{Hci : ChunkInvariant P T ok norm} (inner : P) (chunks : list (list N)) (Hok : ok inner) :
  match decode (concat chunks) with
  | (text, None) => ∃ o, run_bytes (new_utf8_parser inner) chunks = Ok o ∧
      visible_text o = visible_text (run_stream inner [text]) ∧
      norm (extracted o) = norm (extracted (run_stream inner [text]))
  | (_, Some e) =>
      match error_len e with
      | None => run_bytes (new_utf8_parser inner) chunks = Err IncompleteUtf8AtEof
      | Some n => ∃ v, run_bytes (new_utf8_parser inner) chunks = Err (InvalidUtf8 v n)
      end
  end ∧
  ∀ p chunk e, utf8_ok (ok := ok) p → (push_bytes p chunk).2 = Err e → (push_bytes p chunk).1 = p.
Proof.
  split.
  - pose proof (run_bytes_spec (norm := norm) chunks (new_utf8_parser inner) (conj Hok (or_introl eq_refl))) as H1.
    cbn [pending_utf8 new_utf8_parser app u_inner] in H1.
    destruct (decode (concat chunks)) as [text [[v [n|]]|]]; done.
  - intros p chunk e Hp. pose proof (push_bytes_spec p chunk Hp) as H1.
    destruct (decode (pending_utf8 p ++ chunk)) as [text [[v [n|]]|]]; [by rewrite H1|..];
      destruct (push_str (u_inner p) text) as [q o]; destruct H1 as [-> _]; done.
Qed.

(** The euro sign cut after its first byte, inside a citation. *)
Lemma utf8_stream_correct_witness :
  let bs := encode ($"x<oai-mem-citation>" ++ [8364%N] ++ $"</oai-mem-citation>") in
  ∃ o, run_bytes (new_utf8_parser new_citation_parser) [take 20 bs; drop 20 bs] = Ok o ∧
    visible_text o = $"x" ∧ extracted o = [[8364%N]].
Proof.
  cbn zeta. pose proof (proj1 (utf8_stream_correct (Hci := citation_invariant) new_citation_parser
    [take 20 (encode ($"x<oai-mem-citation>" ++ [8364%N] ++ $"</oai-mem-citation>"));
     drop 20 (encode ($"x<oai-mem-citation>" ++ [8364%N] ++ $"</oai-mem-citation>"))] new_citation_ok)) as H.
  vm_compute in H |- *. exact H.
Defined.
