(* ===== verification/HeadTail.v ===== *)
(** * Bounded process output

    [core/src/unified_exec/head_tail_buffer.rs]: the first and the last bytes
    of a process's output within a budget.  [omitted_bytes] is a [usize] with
    saturating arithmetic; a byte is its value.  [summary] is the reference:
    what the buffer must hold after a given output. *)

From S2P Require Import Prelude RustStr.

(** ** [usize] *)

Definition USIZE_MAX : N := 18446744073709551615%N.
Definition saturating_add (a b : N) : N := N.min USIZE_MAX (a + b).

Record HeadTailBuffer := mkBuffer { head : list N; tail : list N; omitted_bytes : N }.
Definition buffer_default : HeadTailBuffer := mkBuffer [] [] 0.

(** [format_output_omission_marker]. *)
Definition format_output_omission_marker (omitted : N) : rstr := $"... " ++ fmt_N omitted ++ $" bytes omitted ...".

Section buffer.
Context (MAX_BYTES : nat).

Definition HEAD_BUDGET : nat := MAX_BYTES / 2.
Definition TAIL_BUDGET : nat := MAX_BYTES - HEAD_BUDGET.

Definition retained_bytes (b : HeadTailBuffer) : nat := length (head b) + length (tail b).
Definition total_bytes (b : HeadTailBuffer) : N := saturating_add (N.of_nat (retained_bytes b)) (omitted_bytes b).

(** The updated buffer and the bytes that did not fit. *)
Definition fill_head (b : HeadTailBuffer) (chunk : list N) : HeadTailBuffer * list N :=
  let remaining_head := HEAD_BUDGET - length (head b) in
  let '(chunk_head, chunk_tail) :=
    if decide (remaining_head ≤ length chunk) then (take remaining_head chunk, drop remaining_head chunk)
    else (chunk, []) in
  (mkBuffer (head b ++ chunk_head) (tail b) (omitted_bytes b), chunk_tail).

Definition push_tail (b : HeadTailBuffer) (chunk : list N) : HeadTailBuffer :=
  let remaining_tail := TAIL_BUDGET - length (tail b) in
  let excess_tail := length chunk - remaining_tail in
  let omitted := saturating_add (omitted_bytes b) (N.of_nat excess_tail) in
  let '(kept, chunk) :=
    match checked_sub excess_tail (length (tail b)) with
    | None => (drop excess_tail (tail b), chunk)
    | Some skip => ([], drop skip chunk)
    end in
  mkBuffer (head b) (kept ++ chunk) omitted.

Definition push_chunk (b : HeadTailBuffer) (chunk : list N) : HeadTailBuffer :=
  let '(b, chunk) := fill_head b chunk in push_tail b chunk.

Definition to_bytes (b : HeadTailBuffer) : list N := head b ++ tail b.

(** The marker is ASCII: its bytes are its characters. *)
Definition to_bytes_with_omission_marker (b : HeadTailBuffer) : list N :=
  if decide (omitted_bytes b = 0%N) then to_bytes b
  else head b ++ [LF] ++ format_output_omission_marker (omitted_bytes b) ++ [LF] ++ tail b.

(** [wrap] is where the ring buffer of the source tail is cut by [as_slices]. *)
Definition push_buffer (wrap : nat) (b buffer : HeadTailBuffer) : HeadTailBuffer :=
  let b := mkBuffer (head b) (tail b) (saturating_add (omitted_bytes b) (omitted_bytes buffer)) in
  let '(b, overflow) :=
    if is_empty (head b) then (mkBuffer (head buffer) (tail b) (omitted_bytes b), [])
    else fill_head b (head buffer) in
  if decide (length (tail buffer) = TAIL_BUDGET) then
    mkBuffer (head b) (tail buffer)
      (saturating_add (saturating_add (omitted_bytes b) (N.of_nat (length (tail b)))) (N.of_nat (length overflow)))
  else
    let b := push_tail b overflow in
    if is_empty (tail b) then mkBuffer (head b) (tail buffer) (omitted_bytes b)
    else push_tail (push_tail b (take wrap (tail buffer))) (drop wrap (tail buffer)).

(** ** The reference *)

Definition lastn (n : nat) (l : list N) : list N := drop (length l - n) l.

Definition summary (s : list N) : HeadTailBuffer :=
  let t := lastn TAIL_BUDGET (drop HEAD_BUDGET s) in
  mkBuffer (take HEAD_BUDGET s) t (N.min USIZE_MAX (N.of_nat (length s - HEAD_BUDGET - length t))).

Lemma lastn_length n l : length (lastn n l) = n `min` length l.
Proof. unfold lastn. rewrite length_drop. lia. Qed.

Lemma lastn_all n l : length l ≤ n → lastn n l = l.
Proof. intros H. unfold lastn. by replace (length l - n) with 0 by lia. Qed.

Lemma lastn_app n a b : lastn n (a ++ b) = if decide (n ≤ length b) then lastn n b else lastn (n - length b) a ++ b.
Proof.
  unfold lastn. rewrite length_app. case_decide.
  - rewrite drop_app_ge by lia. f_equal. lia.
  - rewrite drop_app_le by lia. do 2 f_equal. lia.
Qed.

Lemma lastn_lastn n m l : n ≤ m → lastn n (lastn m l) = lastn n l.
Proof. intros H. unfold lastn. rewrite drop_drop, length_drop. f_equal. lia. Qed.

Lemma saturating_add_min a b : saturating_add (N.min USIZE_MAX a) b = N.min USIZE_MAX (a + b).
Proof. unfold saturating_add. lia. Qed.

Lemma saturating_add_0 a : saturating_add (N.min USIZE_MAX a) 0 = N.min USIZE_MAX a.
Proof. rewrite saturating_add_min. f_equal. lia. Qed.

Lemma saturating_add_min_min a b : saturating_add (N.min USIZE_MAX a) (N.min USIZE_MAX b) = N.min USIZE_MAX (a + b).
Proof. unfold saturating_add. lia. Qed.

(** Pushing on the tail keeps the newest bytes. *)
Lemma push_tail_spec b chunk : length (tail b) ≤ TAIL_BUDGET →
  push_tail b chunk =
  mkBuffer (head b) (lastn TAIL_BUDGET (tail b ++ chunk))
    (saturating_add (omitted_bytes b) (N.of_nat (length (tail b) + length chunk - TAIL_BUDGET))).
Proof.
  intros Ht. unfold push_tail, checked_sub.
  replace (length (tail b) + length chunk - TAIL_BUDGET) with (length chunk - (TAIL_BUDGET - length (tail b))) by lia.
  set (excess := length chunk - _). unfold lastn. rewrite length_app.
  case_decide; f_equal; simpl.
  - rewrite drop_app_ge by lia. f_equal. lia.
  - rewrite drop_app_le by lia. do 2 f_equal. lia.
Qed.

Lemma fill_head_spec b chunk :
  fill_head b chunk =
  (mkBuffer (head b ++ take (HEAD_BUDGET - length (head b)) chunk) (tail b) (omitted_bytes b),
   drop (HEAD_BUDGET - length (head b)) chunk).
Proof. unfold fill_head. case_decide; [done|]. rewrite take_ge, drop_ge by lia. done. Qed.

Lemma summary_nil : summary [] = buffer_default.
Proof. unfold summary, lastn. by rewrite drop_nil, take_nil, drop_nil. Qed.

Lemma summary_push_chunk s c : push_chunk (summary s) c = summary (s ++ c).
Proof.
  unfold push_chunk. rewrite fill_head_spec. cbn [summary head tail omitted_bytes].
  rewrite push_tail_spec by (cbn [tail]; rewrite lastn_length; lia). cbn [head tail omitted_bytes]. unfold summary.
  rewrite length_take, !lastn_length, !length_drop, length_app.
  assert (take HEAD_BUDGET s ++ take (HEAD_BUDGET - HEAD_BUDGET `min` length s) c = take HEAD_BUDGET (s ++ c)) as ->.
  { rewrite take_app. f_equal. f_equal. lia. }
  assert (drop (HEAD_BUDGET - HEAD_BUDGET `min` length s) c = drop (HEAD_BUDGET - length s) c) as -> by (f_equal; lia).
  rewrite drop_app, saturating_add_min. f_equal.
  - rewrite !lastn_app. case_decide; [done|]. f_equal. rewrite lastn_lastn by lia. done.
  - f_equal. lia.
Qed.

Lemma summary_push_tail u c : HEAD_BUDGET ≤ length u → push_tail (summary u) c = summary (u ++ c).
Proof.
  intros Hu. rewrite <- summary_push_chunk. unfold push_chunk. rewrite fill_head_spec.
  cbn [summary head tail omitted_bytes]. rewrite length_take, Nat.min_l, Nat.sub_diag by done.
  by rewrite take_0, app_nil_r, drop_0.
Qed.

Lemma summary_push_tail_nil u : push_tail (summary u) [] = summary u.
Proof.
  rewrite push_tail_spec by (cbn [summary tail]; rewrite lastn_length; lia). unfold summary. cbn [head tail omitted_bytes].
  rewrite app_nil_r, lastn_lastn, Nat.add_0_r by lia. f_equal.
  replace (length _ - TAIL_BUDGET) with 0; [apply saturating_add_0|]. rewrite lastn_length. lia.
Qed.

Lemma budgets : HEAD_BUDGET ≤ TAIL_BUDGET ∧ HEAD_BUDGET + TAIL_BUDGET = MAX_BYTES.
Proof. unfold TAIL_BUDGET, HEAD_BUDGET. pose proof (Nat.div_mod_eq MAX_BYTES 2). pose proof (Nat.mod_upper_bound MAX_BYTES 2). lia. Qed.

(** What [push_buffer] has done before it looks at the source tail. *)
Lemma push_buffer_head (s t : list N) :
  (if is_empty (take HEAD_BUDGET s) then (take HEAD_BUDGET t, [])
   else (take HEAD_BUDGET s ++ take (HEAD_BUDGET - length (take HEAD_BUDGET s)) (take HEAD_BUDGET t),
         drop (HEAD_BUDGET - length (take HEAD_BUDGET s)) (take HEAD_BUDGET t)))
  = (take HEAD_BUDGET (s ++ t), drop (HEAD_BUDGET - length s) (take HEAD_BUDGET t)).
Proof.
  rewrite take_app, length_take, take_take.
  replace (HEAD_BUDGET - HEAD_BUDGET `min` length s) with (HEAD_BUDGET - length s) by lia.
  rewrite Nat.min_l by lia. destruct (is_empty (take HEAD_BUDGET s)) eqn:E; [|done].
  apply is_empty_true in E. rewrite E. apply (f_equal length) in E. rewrite length_take in E. simpl in E.
  destruct (decide (HEAD_BUDGET = 0)) as [->|]; [done|]. replace (length s) with 0 by lia.
  rewrite Nat.sub_0_r. f_equal. rewrite drop_ge; [done|]. rewrite length_take. lia.
Qed.

Lemma summary_push_buffer wrap s t : push_buffer wrap (summary s) (summary t) = summary (s ++ t).
Proof.
  destruct budgets as [Hb _]. unfold push_buffer. rewrite fill_head_spec.
  cbn [head tail omitted_bytes summary].
  pose proof (push_buffer_head s t) as Hh.
  set (ts := lastn TAIL_BUDGET (drop HEAD_BUDGET s)). set (tt := lastn TAIL_BUDGET (drop HEAD_BUDGET t)).
  set (o := saturating_add _ _).
  match goal with |- (let '(b, overflow) := ?X in _) = _ =>
    assert (X = (mkBuffer (take HEAD_BUDGET (s ++ t)) ts o, drop (HEAD_BUDGET - length s) (take HEAD_BUDGET t))) as -> end.
  { destruct (is_empty (take HEAD_BUDGET s)); injection Hh as -> ->; done. }
  clear Hh. cbn [head tail omitted_bytes].
  assert (length tt = TAIL_BUDGET `min` (length t - HEAD_BUDGET)) as Htt by (unfold tt; by rewrite lastn_length, length_drop).
  assert (length ts = TAIL_BUDGET `min` (length s - HEAD_BUDGET)) as Hts by (unfold ts; by rewrite lastn_length, length_drop).
  case_decide as Hfull.
  - unfold summary, o. f_equal.
    + assert (∃ mid, drop HEAD_BUDGET (s ++ t) = mid ++ drop HEAD_BUDGET t) as [mid ->].
      { rewrite drop_app. exists (drop HEAD_BUDGET s ++ take (HEAD_BUDGET - (HEAD_BUDGET - length s)) (drop (HEAD_BUDGET - length s) t)).
        rewrite <- app_assoc. f_equal. rewrite <- (take_drop (HEAD_BUDGET - (HEAD_BUDGET - length s)) (drop (HEAD_BUDGET - length s) t)) at 1.
        f_equal. rewrite drop_drop. f_equal. lia. }
      rewrite lastn_app, decide_True by (rewrite length_drop; lia). done.
    + rewrite saturating_add_min_min, !saturating_add_min, lastn_length, !length_drop, length_take, length_app, Hts, Htt.
      rewrite <- !Nat2N.inj_add. do 2 f_equal. lia.
  - assert (length t - HEAD_BUDGET < TAIL_BUDGET) as Hlt by lia.
    assert (tt = drop HEAD_BUDGET t) as Ett by (apply lastn_all; rewrite length_drop; lia).
    assert (o = omitted_bytes (summary s)) as Eo.
    { unfold o. rewrite Htt. replace (length t - HEAD_BUDGET - TAIL_BUDGET `min` (length t - HEAD_BUDGET)) with 0 by lia.
      apply saturating_add_0. }
    assert (push_tail (mkBuffer (take HEAD_BUDGET (s ++ t)) ts o) (drop (HEAD_BUDGET - length s) (take HEAD_BUDGET t))
            = summary (s ++ take HEAD_BUDGET t)) as ->.
    { rewrite <- summary_push_chunk. unfold push_chunk. rewrite fill_head_spec. cbn [summary head tail omitted_bytes].
      rewrite length_take, take_take, take_app, Eo.
      replace (HEAD_BUDGET - HEAD_BUDGET `min` length s) with (HEAD_BUDGET - length s) by lia. by rewrite Nat.min_l by lia. }
    destruct (decide (length t ≤ HEAD_BUDGET)) as [Hshort|Hlong].
    { rewrite Ett, (drop_ge t), (take_ge t), take_nil, drop_nil, !summary_push_tail_nil by lia.
      destruct (is_empty _) eqn:Ee; [|done]. apply is_empty_true in Ee. rewrite <- Ee.
      by destruct (summary (s ++ t)). }
    destruct (is_empty _) eqn:Ee.
    + apply is_empty_true, (f_equal length) in Ee. cbn [summary tail] in Ee.
      rewrite lastn_length, length_drop, length_app, length_take in Ee. simpl in Ee.
      assert (s = []) as -> by (destruct s; [done|simpl in Ee; lia]). cbn [app].
      unfold summary. cbn [head omitted_bytes]. rewrite take_take, Nat.min_id. fold tt. f_equal. f_equal. f_equal.
      rewrite length_take, Htt. lia.
    + rewrite summary_push_tail by (rewrite length_app, length_take; lia).
      rewrite summary_push_tail by (rewrite !length_app, length_take; lia).
      rewrite <- !app_assoc. by rewrite take_drop, Ett, take_drop.
Qed.
(** ** What a buffer has seen *)

(** [seen b s]: [b] was filled with the output [s], chunk by chunk and
    buffer by buffer. *)
Inductive seen : HeadTailBuffer → list N → Prop :=
| seen_default : seen buffer_default []
| seen_chunk b s c : seen b s → seen (push_chunk b c) (s ++ c)
| seen_buffer b s b' s' wrap : seen b s → seen b' s' → seen (push_buffer wrap b b') (s ++ s').

Lemma seen_summary b s : seen b s → b = summary s.
Proof.
  induction 1 as [|b s c _ ->|b s b' s' wrap _ -> _ ->];
    [by rewrite summary_nil|apply summary_push_chunk|apply summary_push_buffer].
Qed.

Lemma summary_retained s : retained_bytes (summary s) = MAX_BYTES `min` length s.
Proof.
  destruct budgets. unfold retained_bytes. cbn [summary head tail].
  rewrite length_take, lastn_length, length_drop. lia.
Qed.

Lemma summary_total s : total_bytes (summary s) = N.min USIZE_MAX (N.of_nat (length s)).
Proof.
  pose proof (summary_retained s) as Hr. unfold total_bytes, saturating_add.
  destruct budgets. unfold retained_bytes in *. cbn [summary head tail omitted_bytes] in *.
  rewrite length_take, lastn_length, length_drop in *. lia.
Qed.

Lemma summary_short s : length s ≤ MAX_BYTES → head (summary s) ++ tail (summary s) = s ∧ omitted_bytes (summary s) = 0%N.
Proof.
  intros Hs. destruct budgets. cbn [summary head tail omitted_bytes].
  rewrite lastn_all by (rewrite length_drop; lia). rewrite take_drop. split; [done|].
  rewrite length_drop. replace (length s - HEAD_BUDGET - (length s - HEAD_BUDGET)) with 0 by lia. done.
Qed.
End buffer.

(** a buffer that has seen an output within its budget holds it whole and
    shows no marker.  In every case it retains a prefix and a suffix of the
    output, as many bytes as fit the budget, counts all bytes, and shows the
    prefix, the number of bytes missing and the suffix; merging two buffers
    is seeing both outputs. *)
Theorem head_tail_keeps_ends (MAX_BYTES : nat) (b : HeadTailBuffer) (s : list N) (Hseen : seen MAX_BYTES b s) :
  b = summary MAX_BYTES s ∧
  head b `prefix_of` s ∧ tail b `suffix_of` s ∧
  retained_bytes b = MAX_BYTES `min` length s ∧
  total_bytes b = N.min USIZE_MAX (N.of_nat (length s)) ∧
  (length s ≤ MAX_BYTES → to_bytes_with_omission_marker b = s) ∧
  (MAX_BYTES < length s → to_bytes_with_omission_marker b =
     take (HEAD_BUDGET MAX_BYTES) s ++ [LF] ++
     format_output_omission_marker (N.min USIZE_MAX (N.of_nat (length s - MAX_BYTES))) ++ [LF] ++
     lastn (TAIL_BUDGET MAX_BYTES) s).
Proof.
  apply seen_summary in Hseen as ->. split; [done|]. pose proof (budgets MAX_BYTES) as [_ Hb].
  split; [exists (drop (HEAD_BUDGET MAX_BYTES) s); symmetry; apply take_drop|].
  split.
  { cbn [summary tail]. unfold lastn. rewrite drop_drop. eexists. symmetry. apply take_drop. }
  split; [apply summary_retained|]. split; [apply summary_total|]. unfold to_bytes_with_omission_marker, to_bytes. split; intros Hs.
  - destruct (summary_short MAX_BYTES s Hs) as [H1 H2]. by rewrite H2, decide_True.
  - cbn [summary head tail omitted_bytes]. rewrite lastn_length, length_drop.
    replace (length s - HEAD_BUDGET MAX_BYTES - TAIL_BUDGET MAX_BYTES `min` (length s - HEAD_BUDGET MAX_BYTES))
      with (length s - MAX_BYTES) by lia.
    rewrite decide_False by (unfold USIZE_MAX; lia).
    assert (lastn (TAIL_BUDGET MAX_BYTES) (drop (HEAD_BUDGET MAX_BYTES) s) = lastn (TAIL_BUDGET MAX_BYTES) s) as ->; [|done].
    unfold lastn. rewrite drop_drop, length_drop. f_equal. lia.
Qed.

(** Ten bytes of budget: five at the front, and the last five of what follows. *)
Lemma head_tail_keeps_ends_witness :
  to_bytes_with_omission_marker (push_buffer 10 1 (push_chunk 10 buffer_default $"0123456") (push_chunk 10 buffer_default $"789ab"))
  = $"01234" ++ [LF] ++ $"... 2 bytes omitted ..." ++ [LF] ++ $"789ab".
Proof.
  assert (seen 10 (push_buffer 10 1 (push_chunk 10 buffer_default $"0123456") (push_chunk 10 buffer_default $"789ab"))
            (([] ++ $"0123456") ++ ([] ++ $"789ab"))) as H by (repeat constructor).
  destruct (head_tail_keeps_ends 10 _ _ H) as (_ & _ & _ & _ & _ & _ & Hm).
  rewrite Hm; [vm_compute; reflexivity|simpl; lia].
Defined.
