(* ===== verification/Normalize.v ===== *)
(** * Normalising the conversation history

    [core/src/context_manager/normalize.rs] and the operations of
    [history.rs] that call it.  A history is a list of envelopes.  The fields
    of an item that normalisation neither reads nor builds are one value
    [rest] of the parameter type [X]; [default_rest] is the default of those
    of the metadata, [new_v5] the UUID of a name in the module's namespace,
    and [debug_assertions] the build flag that makes [error_or_panic]
    panic. *)

From S2P Require Import Prelude RustStr.

(** ** Items *)

Inductive ImageReference := Inline (image_url : rstr) | File (file_id : rstr).
Inductive ImageDetail := Auto | Low | High | Original.

Inductive ContentItem :=
| CInputText (text : rstr)
| CInputImage (image : ImageReference) (detail : option ImageDetail)
| CInputAudio (audio_url : rstr)
| COutputText (text : rstr).

Inductive FunctionCallOutputContentItem :=
| InputText (text : rstr)
| InputImage (image : ImageReference) (detail : option ImageDetail)
| InputAudio (audio_url : rstr)
| EncryptedContent (encrypted_content : rstr).

Inductive FunctionCallOutputBody :=
| Text (content : rstr)
| ContentItems (items : list FunctionCallOutputContentItem).

Record FunctionCallOutputPayload := mkPayload { body : FunctionCallOutputBody; success : option bool }.
Definition from_text (content : rstr) : FunctionCallOutputPayload := mkPayload (Text content) None.

Inductive InputModality := TextModality | ImageModality | AudioModality.
#[global] Instance input_modality_eq_dec : EqDecision InputModality.
Proof. solve_decision. Defined.

(** [InternalChatMessageMetadataPassthrough]. *)
Record Metadata (X : Type) := mkMetadata { content_item_kinds : option (list rstr); metadata_rest : X }.
Arguments mkMetadata {X} content_item_kinds metadata_rest.
Arguments content_item_kinds {X}.
Arguments metadata_rest {X}.

Inductive ResponseItem (X : Type) :=
| AdditionalTools (id : option rstr) (rest : X)
| Message (id : option rstr) (role : rstr) (content : list ContentItem) (metadata : option (Metadata X)) (rest : X)
| AgentMessage (id : option rstr) (rest : X)
| Reasoning (id : option rstr) (rest : X)
| LocalShellCall (id : option rstr) (call_id : option rstr) (rest : X)
| FunctionCall (id : option rstr) (call_id : rstr) (rest : X)
| ToolSearchCall (id : option rstr) (call_id : option rstr) (rest : X)
| FunctionCallOutput (id : option rstr) (call_id : option rstr) (name namespace : option rstr)
    (output : FunctionCallOutputPayload) (metadata : option (Metadata X))
| CustomToolCall (id : option rstr) (call_id : rstr) (rest : X)
| CustomToolCallOutput (id : option rstr) (call_id : rstr) (name : option rstr)
    (output : FunctionCallOutputPayload) (metadata : option (Metadata X))
| ToolSearchOutput (id : option rstr) (call_id : option rstr) (status execution : rstr) (tools : list X)
    (metadata : option (Metadata X))
| WebSearchCall (id : option rstr) (rest : X)
| ImageGenerationCall (id : option rstr) (image_result : rstr) (rest : X)
| Compaction (id : option rstr) (rest : X)
| ConfigurationUpdate (rest : X)
| CompactionTrigger
| ContextCompaction (id : option rstr) (rest : X)
| Other.
Arguments AdditionalTools {X}. Arguments Message {X}. Arguments AgentMessage {X}. Arguments Reasoning {X}.
Arguments LocalShellCall {X}. Arguments FunctionCall {X}. Arguments ToolSearchCall {X}.
Arguments FunctionCallOutput {X}. Arguments CustomToolCall {X}. Arguments CustomToolCallOutput {X}.
Arguments ToolSearchOutput {X}. Arguments WebSearchCall {X}. Arguments ImageGenerationCall {X}.
Arguments Compaction {X}. Arguments ConfigurationUpdate {X}. Arguments CompactionTrigger {X}.
Arguments ContextCompaction {X}. Arguments Other {X}.

Record ResponseItemEnvelope (X : Type) := mkEnvelope { item : ResponseItem X; harness : option X }.
Arguments mkEnvelope {X} item harness.
Arguments item {X}.
Arguments harness {X}.
Definition envelope_new {X} (i : ResponseItem X) : ResponseItemEnvelope X := mkEnvelope i None.

Section normalize.
Context {X : Type} (default_rest : X) (new_v5 : rstr → rstr) (debug_assertions : bool).
Abbreviation Item := (ResponseItem X).
Abbreviation Envelope := (ResponseItemEnvelope X).

(** ** Call ids *)

Definition function_output_id (i : Item) : option rstr :=
  match i with FunctionCallOutput _ (Some call_id) _ _ _ _ => Some call_id | _ => None end.
Definition tool_search_output_id (i : Item) : option rstr :=
  match i with ToolSearchOutput _ (Some call_id) _ _ _ _ => Some call_id | _ => None end.
Definition custom_tool_output_id (i : Item) : option rstr :=
  match i with CustomToolCallOutput _ call_id _ _ _ => Some call_id | _ => None end.
Definition function_call_id (i : Item) : option rstr :=
  match i with
  | FunctionCall _ call_id _ | LocalShellCall _ (Some call_id) _ => Some call_id
  | _ => None
  end.
Definition tool_search_call_id (i : Item) : option rstr :=
  match i with ToolSearchCall _ (Some call_id) _ => Some call_id | _ => None end.
Definition custom_tool_call_id (i : Item) : option rstr :=
  match i with CustomToolCall _ call_id _ => Some call_id | _ => None end.

(** The loop that fills a [HashSet] of ids. *)
Fixpoint collect_ids (f : Item → option rstr) (items : list Envelope) : gset rstr :=
  match items with
  | [] => ∅
  | e :: items' => match f (item e) with Some id => {[id]} ∪ collect_ids f items' | None => collect_ids f items' end
  end.

(** ** Missing outputs *)

Definition synthetic_output_id (prefix : rstr) (item_id : option rstr) : option rstr :=
  match item_id with
  | Some source_id =>
      if is_empty source_id then None
      else Some (prefix ++ $"_" ++ new_v5 (prefix ++ $":" ++ source_id))
  | None => None
  end.

(** [error_or_panic]: [None] is the panic. *)
Definition error_or_panic : option unit := if debug_assertions then None else Some tt.

(** The synthetic output of a call without one; [None] is a panic. *)
Definition missing_output (fids tids cids : gset rstr) (i : Item) : option (option Item) :=
  match i with
  | FunctionCall id call_id _ =>
      if decide (call_id ∈ fids) then Some None
      else Some (Some (FunctionCallOutput (synthetic_output_id $"fco" id) (Some call_id) None None (from_text $"aborted") None))
  | ToolSearchCall id (Some call_id) _ =>
      if decide (call_id ∈ tids) then Some None
      else Some (Some (ToolSearchOutput (synthetic_output_id $"tso" id) (Some call_id) $"completed" $"client" [] None))
  | CustomToolCall id call_id _ =>
      if decide (call_id ∈ cids) then Some None
      else error_or_panic;;
           Some (Some (CustomToolCallOutput (synthetic_output_id $"ctco" id) call_id None (from_text $"aborted") None))
  | LocalShellCall id (Some call_id) _ =>
      if decide (call_id ∈ fids) then Some None
      else error_or_panic;;
           Some (Some (FunctionCallOutput (synthetic_output_id $"fco" id) (Some call_id) None None (from_text $"aborted") None))
  | _ => Some None
  end.

(** The enumerating loop: positions with the outputs to insert after them. *)
Fixpoint missing_loop (fids tids cids : gset rstr) (idx : nat) (items : list Envelope) : option (list (nat * Envelope)) :=
  match items with
  | [] => Some []
  | e :: items' =>
      m ← missing_output fids tids cids (item e);
      rest ← missing_loop fids tids cids (S idx) items';
      Some (match m with Some i => (idx, envelope_new i) :: rest | None => rest end)
  end.

(** [Vec::insert] panics past the end. *)
Definition vec_insert (items : list Envelope) (idx : nat) (e : Envelope) : option (list Envelope) :=
  if decide (idx ≤ length items) then Some (take idx items ++ e :: drop idx items) else None.

Fixpoint insert_all (items : list Envelope) (ins : list (nat * Envelope)) : option (list Envelope) :=
  match ins with
  | [] => Some items
  | (idx, e) :: ins' => items' ← vec_insert items (idx + 1) e; insert_all items' ins'
  end.

Definition ensure_call_outputs_present (items : list Envelope) : option (list Envelope) :=
  missing ← missing_loop (collect_ids function_output_id items) (collect_ids tool_search_output_id items)
                         (collect_ids custom_tool_output_id items) 0 items;
  insert_all items (reverse missing).

(** ** Orphan outputs *)

Definition is_orphan (fids tids cids : gset rstr) (i : Item) : bool :=
  match i with
  | FunctionCallOutput _ (Some call_id) _ _ _ _ => bool_decide (call_id ∉ fids)
  | CustomToolCallOutput _ call_id _ _ _ => bool_decide (call_id ∉ cids)
  | ToolSearchOutput _ (Some call_id) _ execution _ _ =>
      bool_decide (execution ≠ $"server") && bool_decide (call_id ∉ tids)
  | _ => false
  end.

Fixpoint orphan_loop (fids tids cids : gset rstr) (position : nat) (items : list Envelope) : option (list nat) :=
  match items with
  | [] => Some []
  | e :: items' =>
      if is_orphan fids tids cids (item e) then
        error_or_panic;;
        rest ← orphan_loop fids tids cids (S position) items'; Some (position :: rest)
      else orphan_loop fids tids cids (S position) items'
  end.

(** The closure of [retain]: the remaining positions and the current one. *)
Fixpoint retain_loop (orphans : list nat) (position : nat) (items : list Envelope) : list Envelope :=
  match items with
  | [] => []
  | e :: items' =>
      match orphans with
      | p :: orphans' =>
          if decide (p = position) then retain_loop orphans' (S position) items'
          else e :: retain_loop orphans (S position) items'
      | [] => e :: retain_loop orphans (S position) items'
      end
  end.

Definition remove_orphan_outputs (items : list Envelope) : option (list Envelope) :=
  orphans ← orphan_loop (collect_ids function_call_id items) (collect_ids tool_search_call_id items)
                        (collect_ids custom_tool_call_id items) 0 items;
  Some (if is_empty orphans then items else retain_loop orphans 0 items).

(** ** The counterpart of a removed item *)

Fixpoint position (p : Item → bool) (items : list Envelope) : option nat :=
  match items with
  | [] => None
  | e :: items' => if p (item e) then Some 0 else S <$> position p items'
  end.
Definition vec_remove (items : list Envelope) (pos : nat) : list Envelope := take pos items ++ drop (S pos) items.
Definition remove_first_matching (p : Item → bool) (items : list Envelope) : list Envelope :=
  match position p items with Some pos => vec_remove items pos | None => items end.

Definition has_id (f : Item → option rstr) (call_id : rstr) (i : Item) : bool := bool_decide (f i = Some call_id).

Definition is_function_call (call_id : rstr) (i : Item) : bool :=
  match i with FunctionCall _ existing _ => bool_decide (existing = call_id) | _ => false end.
Definition is_local_shell_call (call_id : rstr) (i : Item) : bool :=
  match i with LocalShellCall _ (Some existing) _ => bool_decide (existing = call_id) | _ => false end.

Definition remove_corresponding_for (items : list Envelope) (i : Item) : list Envelope :=
  match i with
  | FunctionCall _ call_id _ => remove_first_matching (has_id function_output_id call_id) items
  | FunctionCallOutput _ (Some call_id) _ _ _ _ =>
      match position (is_function_call call_id) items with
      | Some pos => vec_remove items pos
      | None =>
          match position (is_local_shell_call call_id) items with
          | Some pos => vec_remove items pos
          | None => items
          end
      end
  | ToolSearchCall _ (Some call_id) _ => remove_first_matching (has_id tool_search_output_id call_id) items
  | ToolSearchOutput _ (Some call_id) _ _ _ _ => remove_first_matching (has_id tool_search_call_id call_id) items
  | CustomToolCall _ call_id _ => remove_first_matching (has_id custom_tool_output_id call_id) items
  | CustomToolCallOutput _ call_id _ _ _ => remove_first_matching (has_id custom_tool_call_id call_id) items
  | LocalShellCall _ (Some call_id) _ => remove_first_matching (has_id function_output_id call_id) items
  | _ => items
  end.

(** [remove_first_item] of [history.rs], on the items. *)
Definition remove_first_item (items : list Envelope) : list Envelope :=
  match items with [] => [] | e :: items' => remove_corresponding_for items' (item e) end.

(** ** Unsupported media *)

(** [UnsupportedMedia]: the text and its classification. *)
Record UnsupportedMedia := mkMedia { media_text : rstr; content_kind : rstr }.
Definition IMAGE : UnsupportedMedia :=
  mkMedia $"image content omitted because you do not support image input" $"images.unsupported".
Definition AUDIO : UnsupportedMedia :=
  mkMedia $"audio content omitted because you do not support audio input" $"audio.unsupported".

(** [to_annotated_content]: missing classifications are unknown. *)
Fixpoint annotate (content : list ContentItem) (kinds : list rstr) : list (ContentItem * rstr) :=
  match content with
  | [] => []
  | c :: content' => (c, default $"unknown" (hd_error kinds)) :: annotate content' (List.tl kinds)
  end.

Definition strip_annotated (is_media : ContentItem → bool) (m : UnsupportedMedia) (c : ContentItem * rstr) : ContentItem * rstr :=
  if is_media c.1 then (CInputText (media_text m), content_kind m) else c.

(** A message: annotate, replace, and set both fields. *)
Definition strip_message (is_media : ContentItem → bool) (m : UnsupportedMedia)
    (content : list ContentItem) (metadata : option (Metadata X)) : list ContentItem * option (Metadata X) :=
  let kinds := default [] (metadata ≫= content_item_kinds) in
  let content := strip_annotated is_media m <$> annotate content kinds in
  (content.*1, Some (mkMetadata (Some (content.*2)) (from_option metadata_rest default_rest metadata))).

Definition strip_output (is_media : FunctionCallOutputContentItem → bool) (m : UnsupportedMedia)
    (output : FunctionCallOutputPayload) : FunctionCallOutputPayload :=
  match body output with
  | ContentItems items =>
      mkPayload (ContentItems ((λ c, if is_media c then InputText (media_text m) else c) <$> items)) (success output)
  | Text _ => output
  end.

Definition is_content_image (c : ContentItem) : bool := match c with CInputImage _ _ => true | _ => false end.
Definition is_content_audio (c : ContentItem) : bool := match c with CInputAudio _ => true | _ => false end.
Definition is_output_image (c : FunctionCallOutputContentItem) : bool := match c with InputImage _ _ => true | _ => false end.
Definition is_output_audio (c : FunctionCallOutputContentItem) : bool := match c with InputAudio _ => true | _ => false end.

Definition strip_image (i : Item) : Item :=
  match i with
  | Message id role content metadata rest =>
      let '(content, metadata) := strip_message is_content_image IMAGE content metadata in
      Message id role content metadata rest
  | FunctionCallOutput id call_id name namespace output metadata =>
      FunctionCallOutput id call_id name namespace (strip_output is_output_image IMAGE output) metadata
  | CustomToolCallOutput id call_id name output metadata =>
      CustomToolCallOutput id call_id name (strip_output is_output_image IMAGE output) metadata
  | ImageGenerationCall id _ rest => ImageGenerationCall id [] rest
  | _ => i
  end.

Definition strip_audio (i : Item) : Item :=
  match i with
  | Message id role content metadata rest =>
      let '(content, metadata) := strip_message is_content_audio AUDIO content metadata in
      Message id role content metadata rest
  | FunctionCallOutput id call_id name namespace output metadata =>
      FunctionCallOutput id call_id name namespace (strip_output is_output_audio AUDIO output) metadata
  | CustomToolCallOutput id call_id name output metadata =>
      CustomToolCallOutput id call_id name (strip_output is_output_audio AUDIO output) metadata
  | _ => i
  end.

Definition map_item (f : Item → Item) (e : Envelope) : Envelope := mkEnvelope (f (item e)) (harness e).

Definition strip_images_when_unsupported (input_modalities : list InputModality) (items : list Envelope) : list Envelope :=
  if bool_decide (ImageModality ∈ input_modalities) then items else map_item strip_image <$> items.
Definition strip_audio_when_unsupported (input_modalities : list InputModality) (items : list Envelope) : list Envelope :=
  if bool_decide (AudioModality ∈ input_modalities) then items else map_item strip_audio <$> items.

(** [normalize_history] and [for_prompt] of [history.rs]. *)
Definition normalize_history (input_modalities : list InputModality) (items : list Envelope) : option (list Envelope) :=
  items ← ensure_call_outputs_present items;
  items ← remove_orphan_outputs items;
  let items := strip_images_when_unsupported input_modalities items in
  Some (strip_audio_when_unsupported input_modalities items).

Definition for_prompt (input_modalities : list InputModality) (items : list Envelope) : option (list Item) :=
  match normalize_history input_modalities items with
  | Some items => Some (item <$> items)
  | None => None
  end.
End normalize.
