(* ===== verification/NormalizeFacts.v ===== *)
(** * Normalising the history: lemmas and claims

    The enumerating and inserting loops against their closed forms, the
    pairing of calls and outputs, and the absence of unsupported media. *)

From S2P Require Import Prelude RustStr Normalize.

Set Default Proof Using "Type".

Section facts.
Context {X : Type} (default_rest : X) (new_v5 : rstr → rstr).
Abbreviation Item := (ResponseItem X).
Abbreviation Envelope := (ResponseItemEnvelope X).
Implicit Types (items : list Envelope) (e : Envelope) (i : Item).

Lemma collect_ids_spec (f : Item → option rstr) items id :
  id ∈ collect_ids f items ↔ ∃ e, e ∈ items ∧ f (item e) = Some id.
Proof.
  clear new_v5 default_rest. induction items as [|e items IH]; cbn [collect_ids]; [set_solver|].
  setoid_rewrite elem_of_cons. destruct (f (item e)) as [c|] eqn:E; [rewrite elem_of_union, elem_of_singleton|]; rewrite IH.
  - naive_solver.
  - naive_solver.
Qed.

(** ** The loops *)

Abbreviation ids := (gset rstr).

(** The synthetic output of a call, in a build where nothing panics. *)
Definition synthetic (fids tids cids : ids) i : option Item :=
  default None (missing_output new_v5 false fids tids cids i).

Lemma missing_output_synthetic debug fids tids cids i m :
  missing_output new_v5 debug fids tids cids i = Some m → m = synthetic fids tids cids i.
Proof.
  unfold synthetic, missing_output, error_or_panic.
  destruct i as [| | | |? [?|]| |? [?|]| | | | | | | | | | |], debug; intros Hm; repeat case_decide; simpl in *; congruence.
Qed.

Lemma missing_output_release fids tids cids i : is_Some (missing_output new_v5 false fids tids cids i).
Proof.
  unfold missing_output, error_or_panic. destruct i as [| | | |? [?|]| |? [?|]| | | | | | | | | | |]; repeat case_decide; by eexists.
Qed.

(** Every call followed by its missing output. *)
Definition with_outputs (fids tids cids : ids) items : list Envelope :=
  items ≫= λ e, e :: match synthetic fids tids cids (item e) with Some i => [envelope_new i] | None => [] end.

Lemma insert_all_app items a b :
  insert_all items (a ++ b) = items' ← insert_all items a; insert_all items' b.
Proof.
  revert items. induction a as [|[idx e] a IH]; intros items; simpl; [done|].
  destruct (vec_insert items (idx + 1) e); simpl; [apply IH|done].
Qed.

Lemma missing_loop_spec debug fids tids cids items : ∀ pre ms,
  missing_loop new_v5 debug fids tids cids (length pre) items = Some ms →
  insert_all (pre ++ items) (reverse ms) = Some (pre ++ with_outputs fids tids cids items).
Proof.
  induction items as [|e items IH]; intros pre ms; cbn [missing_loop]; [by intros <-%(inj Some)|].
  destruct (missing_output _ _ _ _ _ _) as [m|] eqn:Em; cbn [mbind option_bind]; [|done].
  destruct (missing_loop _ _ _ _ _ (S (length pre)) items) as [rest|] eqn:El; cbn [mbind option_bind]; [|done].
  intros <-%(inj Some). apply missing_output_synthetic in Em as ->.
  replace (S (length pre)) with (length (pre ++ [e])) in El by (rewrite length_app; simpl; lia).
  specialize (IH (pre ++ [e]) rest El). rewrite <- app_assoc in IH. cbn [app] in IH.
  unfold with_outputs in *. rewrite bind_cons. destruct (synthetic fids tids cids (item e)) as [i|].
  - rewrite reverse_cons, insert_all_app, IH. cbn [mbind option_bind insert_all]. unfold vec_insert.
    rewrite decide_True by (rewrite !length_app; simpl; lia). cbn [mbind option_bind].
    replace (length pre + 1) with (length (pre ++ [e])) by (rewrite length_app; simpl; lia).
    by rewrite take_app_length, drop_app_length, <- app_assoc.
  - rewrite IH, <- app_assoc. done.
Qed.

Lemma missing_loop_release fids tids cids items n : is_Some (missing_loop new_v5 false fids tids cids n items).
Proof.
  revert n. induction items as [|e items IH]; intros n; cbn [missing_loop]; [by eexists|].
  destruct (missing_output_release fids tids cids (item e)) as [m ->].
  destruct (IH (S n)) as [rest ->]. by eexists.
Qed.

Lemma orphan_loop_ge debug fids tids cids items n ps p :
  orphan_loop debug fids tids cids n items = Some ps → p ∈ ps → n ≤ p.
Proof.
  revert n ps. induction items as [|e items IH]; intros n ps; cbn [orphan_loop]; [by intros <-%(inj Some) ?%elem_of_nil|].
  destruct (is_orphan _ _ _ _); [|intros Hl Hp; pose proof (IH _ _ Hl Hp); lia].
  destruct (error_or_panic debug); cbn [mbind option_bind]; [|done].
  destruct (orphan_loop _ _ _ _ (S n) items) as [rest|] eqn:E; cbn [mbind option_bind]; [|done].
  intros <-%(inj Some) [->|Hp]%elem_of_cons; [done|]. pose proof (IH _ _ E Hp). lia.
Qed.

Lemma orphan_loop_spec debug fids tids cids items n ps :
  orphan_loop debug fids tids cids n items = Some ps →
  retain_loop ps n items = filter (λ e, is_orphan fids tids cids (item e) = false) items ∧
  (ps = [] → filter (λ e, is_orphan fids tids cids (item e) = false) items = items).
Proof.
  revert n ps. induction items as [|e items IH]; intros n ps; cbn [orphan_loop]; [done|].
  rewrite filter_cons. destruct (is_orphan _ _ _ _) eqn:Eo.
  - destruct (error_or_panic debug); cbn [mbind option_bind]; [|done].
    destruct (orphan_loop _ _ _ _ (S n) items) as [rest|] eqn:E; cbn [mbind option_bind]; [|done].
    intros <-%(inj Some). rewrite decide_False by done. cbn [retain_loop]. rewrite decide_True by done.
    split; [by apply IH|done].
  - intros Hl. rewrite decide_True by done. destruct (IH _ _ Hl) as [IH1 IH2].
    split; [|intros Hps; by rewrite IH2]. cbn [retain_loop]. destruct ps as [|p ps].
    + by rewrite IH1.
    + pose proof (orphan_loop_ge _ _ _ _ _ _ _ p Hl) as Hp. rewrite decide_False by (specialize (Hp ltac:(left)); lia).
      by rewrite IH1.
Qed.

Lemma orphan_loop_release fids tids cids items n : is_Some (orphan_loop false fids tids cids n items).
Proof.
  revert n. induction items as [|e items IH]; intros n; cbn [orphan_loop]; [by eexists|].
  destruct (is_orphan _ _ _ _); [|apply IH]. simpl. destruct (IH (S n)) as [rest ->]. by eexists.
Qed.

(** ** Pairing *)

Inductive kind := Function | ToolSearch | CustomTool.
Definition call_id (k : kind) : Item → option rstr :=
  match k with Function => function_call_id | ToolSearch => tool_search_call_id | CustomTool => custom_tool_call_id end.
Definition output_id (k : kind) : Item → option rstr :=
  match k with Function => function_output_id | ToolSearch => tool_search_output_id | CustomTool => custom_tool_output_id end.

(** Every call has an output and every output that needs one has a call. *)
Definition paired items : Prop :=
  (∀ k id, id ∈ collect_ids (call_id k) items → id ∈ collect_ids (output_id k) items) ∧
  (∀ e, e ∈ items → is_orphan (collect_ids function_call_id items) (collect_ids tool_search_call_id items)
                              (collect_ids custom_tool_call_id items) (item e) = false).

(** The reference: every call followed by its missing output, without the
    outputs that have no call. *)
Definition completed items : list Envelope :=
  with_outputs (collect_ids function_output_id items) (collect_ids tool_search_output_id items)
               (collect_ids custom_tool_output_id items) items.
Definition without_orphans items : list Envelope :=
  filter (λ e, is_orphan (collect_ids function_call_id items) (collect_ids tool_search_call_id items)
                         (collect_ids custom_tool_call_id items) (item e) = false) items.

Lemma ensure_spec debug items items' :
  ensure_call_outputs_present new_v5 debug items = Some items' → items' = completed items.
Proof.
  unfold ensure_call_outputs_present, completed. set (f := collect_ids function_output_id items).
  set (t := collect_ids tool_search_output_id items). set (c := collect_ids custom_tool_output_id items).
  destruct (missing_loop _ _ f t c 0 items) as [ms|] eqn:E; cbn [mbind option_bind]; [|done].
  pose proof (missing_loop_spec _ _ _ _ items [] ms E) as H. cbn [app] in H. rewrite H. by intros [= <-].
Qed.

Lemma ensure_release items : ensure_call_outputs_present new_v5 false items = Some (completed items).
Proof.
  destruct (ensure_call_outputs_present new_v5 false items) as [items'|] eqn:E; [by rewrite (ensure_spec _ _ _ E)|].
  exfalso. unfold ensure_call_outputs_present in E.
  set (f := collect_ids function_output_id items) in *.
  set (t := collect_ids tool_search_output_id items) in *. set (c := collect_ids custom_tool_output_id items) in *.
  destruct (missing_loop_release f t c items 0) as [ms Hms]. rewrite Hms in E. cbn [mbind option_bind] in E.
  pose proof (missing_loop_spec _ _ _ _ items [] ms Hms) as H. cbn [app] in H. congruence.
Qed.

Lemma remove_orphans_spec debug items items' :
  remove_orphan_outputs debug items = Some items' → items' = without_orphans items.
Proof.
  unfold remove_orphan_outputs, without_orphans. destruct (orphan_loop _ _ _ _ 0 items) as [ps|] eqn:E; cbn [mbind option_bind]; [|done].
  intros <-%(inj Some). apply orphan_loop_spec in E as [E1 E2]. destruct ps; cbn [is_empty]; [by rewrite E2|done].
Qed.

Lemma remove_orphans_release items : remove_orphan_outputs false items = Some (without_orphans items).
Proof.
  destruct (remove_orphan_outputs false items) as [items'|] eqn:E; [by rewrite (remove_orphans_spec _ _ _ E)|].
  exfalso. unfold remove_orphan_outputs in E.
  destruct (orphan_loop_release (collect_ids function_call_id items) (collect_ids tool_search_call_id items)
              (collect_ids custom_tool_call_id items) items 0) as [ps Hps]. by rewrite Hps in E.
Qed.

(** A paired history is left alone, in every build. *)
Lemma paired_ensure debug items : paired items → ensure_call_outputs_present new_v5 debug items = Some items.
Proof.
  intros (Hp & _). unfold ensure_call_outputs_present.
  assert (∀ l n, l ⊆ items → missing_loop new_v5 debug (collect_ids function_output_id items) (collect_ids tool_search_output_id items)
            (collect_ids custom_tool_output_id items) n l = Some []) as Hl.
  { induction l as [|e l IH]; intros n Hin; cbn [missing_loop]; [done|].
    assert (e ∈ items) as He by (apply Hin; left).
    rewrite (IH (S n)) by set_solver. cbn [mbind option_bind].
    assert (missing_output new_v5 debug (collect_ids function_output_id items) (collect_ids tool_search_output_id items)
              (collect_ids custom_tool_output_id items) (item e) = Some None) as ->; [|done].
    unfold missing_output. destruct (item e) as [| | | |? [c|]| |? [c|]| | | | | | | | | | |] eqn:Ee; try done;
      rewrite decide_True; try done;
      [apply (Hp Function)|apply (Hp Function)|apply (Hp ToolSearch)|apply (Hp CustomTool)]; apply collect_ids_spec; exists e; by rewrite Ee. }
  by rewrite Hl.
Qed.

Lemma paired_remove_orphans debug items : paired items → remove_orphan_outputs debug items = Some items.
Proof.
  intros (_ & Ho). unfold remove_orphan_outputs.
  assert (∀ l n, l ⊆ items → orphan_loop debug (collect_ids function_call_id items) (collect_ids tool_search_call_id items)
            (collect_ids custom_tool_call_id items) n l = Some []) as Hl.
  { induction l as [|e l IH]; intros n Hin; cbn [orphan_loop]; [done|].
    rewrite Ho by (apply Hin; left). apply IH. set_solver. }
  by rewrite Hl.
Qed.

Lemma with_outputs_elem fids tids cids items e :
  e ∈ with_outputs fids tids cids items ↔
  e ∈ items ∨ ∃ e' i, e' ∈ items ∧ synthetic fids tids cids (item e') = Some i ∧ e = envelope_new i.
Proof.
  unfold with_outputs. rewrite list_elem_of_bind. split.
  - intros (e' & [->|H]%elem_of_cons & He'); [by left|]. right.
    destruct (synthetic _ _ _ _) as [i|] eqn:E; [|by apply elem_of_nil in H].
    apply list_elem_of_singleton in H as ->. eauto.
  - intros [He|(e' & i & He' & Hs & ->)]; [exists e; split; [left|done]|].
    exists e'. split; [|done]. rewrite Hs. right. by left.
Qed.

Lemma synthetic_not_call fids tids cids i o k : synthetic fids tids cids i = Some o → call_id k o = None.
Proof.
  unfold synthetic, missing_output, error_or_panic.
  destruct i as [| | | |? [?|]| |? [?|]| | | | | | | | | | |]; simpl; repeat case_decide; simpl; try done; intros [= <-]; by destruct k.
Qed.

Lemma call_has_output fids tids cids i k id : call_id k i = Some id →
  id ∈ match k with Function => fids | ToolSearch => tids | CustomTool => cids end ∨
  ∃ o, synthetic fids tids cids i = Some o ∧ output_id k o = Some id.
Proof.
  unfold synthetic, missing_output, error_or_panic. intros Hc.
  destruct k, i as [| | | |? [?|]| |? [?|]| | | | | | | | | | |]; simpl in *; try done; injection Hc as <-;
    (case_decide; [by left|right]); simpl; by eexists.
Qed.

Lemma collect_completed_call k items : collect_ids (call_id k) (completed items) = collect_ids (call_id k) items.
Proof.
  apply set_eq. intros id. rewrite !collect_ids_spec. split.
  - intros (e & [He|(e' & i & He' & Hs & ->)]%with_outputs_elem & Hid); [by exists e|].
    cbn [envelope_new item] in Hid. by rewrite (synthetic_not_call _ _ _ _ _ _ Hs) in Hid.
  - intros (e & He & Hid). exists e. split; [apply with_outputs_elem; by left|done].
Qed.

Lemma completed_outputs k id items :
  id ∈ collect_ids (call_id k) (completed items) → id ∈ collect_ids (output_id k) (completed items).
Proof.
  rewrite collect_completed_call, !collect_ids_spec. intros (e & He & Hid).
  destruct (call_has_output (collect_ids function_output_id items) (collect_ids tool_search_output_id items)
              (collect_ids custom_tool_output_id items) _ _ _ Hid) as [Hin|(o & Ho & Hoid)].
  - assert (id ∈ collect_ids (output_id k) items) as (e' & He' & Hid')%collect_ids_spec by (by destruct k).
    exists e'. split; [apply with_outputs_elem; by left|done].
  - exists (envelope_new o). split; [apply with_outputs_elem; right; eauto|done].
Qed.

Lemma call_not_orphan fids tids cids i k id : call_id k i = Some id → is_orphan fids tids cids i = false.
Proof. by destruct k, i as [| | | |? [?|]| |? [?|]| | | | | | | | | | |]. Qed.

Lemma output_not_orphan fids tids cids i k id : output_id k i = Some id →
  id ∈ match k with Function => fids | ToolSearch => tids | CustomTool => cids end → is_orphan fids tids cids i = false.
Proof. clear new_v5 default_rest.
  destruct k, i as [| | | | | | |? [?|]| | |? [?|]| | | | | | |]; simpl; try done; intros [= <-] Hin;
    rewrite ?andb_false_iff, ?bool_decide_eq_false; by (right; tauto) || tauto.
Qed.

Lemma collect_kept_call k items : collect_ids (call_id k) (without_orphans items) = collect_ids (call_id k) items.
Proof. clear new_v5 default_rest.
  apply set_eq. intros id. rewrite !collect_ids_spec. unfold without_orphans. setoid_rewrite list_elem_of_filter.
  split; [naive_solver|]. intros (e & He & Hid). exists e. split; [split; [by eapply call_not_orphan|done]|done].
Qed.

Lemma without_orphans_paired items :
  (∀ k id, id ∈ collect_ids (call_id k) items → id ∈ collect_ids (output_id k) items) → paired (without_orphans items).
Proof.
  intros Hout. split.
  - intros k id. rewrite collect_kept_call. intros Hc. pose proof (Hout _ _ Hc) as (e & He & Hid)%collect_ids_spec.
    apply collect_ids_spec. exists e. split; [|done]. apply list_elem_of_filter. split; [|done].
    eapply output_not_orphan; [done|]. by destruct k.
  - intros e [Ho He]%list_elem_of_filter.
    by rewrite (collect_kept_call Function), (collect_kept_call ToolSearch), (collect_kept_call CustomTool).
Qed.

Lemma completed_paired items : paired (without_orphans (completed items)).
Proof. apply without_orphans_paired. intros k id. apply completed_outputs. Qed.

(** ** Media *)

Definition message_clean (is_media : ContentItem → bool) (content : list ContentItem) (metadata : option (Metadata X)) : Prop :=
  Forall (λ c, is_media c = false) content ∧
  ∃ kinds r, metadata = Some (mkMetadata (Some kinds) r) ∧ length kinds = length content.
Definition output_clean (is_media : FunctionCallOutputContentItem → bool) (output : FunctionCallOutputPayload) : Prop :=
  match body output with ContentItems items => Forall (λ c, is_media c = false) items | Text _ => True end.

Definition image_clean i : Prop :=
  match i with
  | Message _ _ content metadata _ => message_clean is_content_image content metadata
  | FunctionCallOutput _ _ _ _ output _ | CustomToolCallOutput _ _ _ output _ => output_clean is_output_image output
  | ImageGenerationCall _ image_result _ => image_result = []
  | _ => True
  end.
Definition audio_clean i : Prop :=
  match i with
  | Message _ _ content metadata _ => message_clean is_content_audio content metadata
  | FunctionCallOutput _ _ _ _ output _ | CustomToolCallOutput _ _ _ output _ => output_clean is_output_audio output
  | _ => True
  end.

Lemma annotate_content content kinds : (annotate content kinds).*1 = content.
Proof. revert kinds. induction content as [|c content IH]; intros kinds; simpl; [done|]. f_equal. apply IH. Qed.

Lemma annotate_kinds content kinds : length kinds = length content → (annotate content kinds).*2 = kinds.
Proof.
  revert kinds. induction content as [|c content IH]; intros [|k kinds] Hl; simpl in *; try done.
  f_equal. apply IH. lia.
Qed.

Section media.
Context (is_media : ContentItem → bool) (Htext : ∀ t, is_media (CInputText t) = false).

Lemma strip_message_clean m content metadata :
  let '(content', metadata') := strip_message default_rest is_media m content metadata in message_clean is_media content' metadata'.
Proof using Htext.
  unfold strip_message. set (l := annotate content _). split.
  - rewrite Forall_fmap, Forall_fmap. apply Forall_true. intros [c k]. unfold strip_annotated. cbn [compose fst].
    destruct (is_media c) eqn:E; simpl; [apply Htext|done].
  - do 2 eexists. split; [done|]. by rewrite !length_fmap.
Qed.

Lemma strip_message_keeps (q : ContentItem → bool) m content metadata : message_clean is_media content metadata →
  let '(content', metadata') := strip_message default_rest q m content metadata in message_clean is_media content' metadata'.
Proof using Htext.
  intros [Hc _]. unfold strip_message. set (kinds := default [] _). split.
  - rewrite Forall_fmap, Forall_fmap. clearbody kinds. revert kinds.
    induction Hc as [|c content Hc _ IH]; intros kinds; simpl; constructor; [|apply IH].
    cbn [compose]. unfold strip_annotated. cbn [fst]. destruct (q c); simpl; [apply Htext|done].
  - do 2 eexists. split; [done|]. by rewrite !length_fmap.
Qed.

Lemma strip_message_id m content metadata : message_clean is_media content metadata →
  strip_message default_rest is_media m content metadata = (content, metadata).
Proof.
  intros (Hc & kinds & r & -> & Hl). unfold strip_message. cbn [mbind option_bind content_item_kinds default from_option metadata_rest id].
  assert (strip_annotated is_media m <$> annotate content kinds = annotate content kinds) as ->.
  { clear Hl. revert kinds. induction Hc as [|c content Hc _ IH]; intros kinds; simpl; [done|].
    rewrite IH. unfold strip_annotated at 1. simpl. by rewrite Hc. }
  by rewrite annotate_content, annotate_kinds.
Qed.
End media.

Lemma strip_output_clean is_media m output : (∀ t, is_media (InputText t) = false) → output_clean is_media (strip_output is_media m output).
Proof.
  intros Ht. unfold strip_output, output_clean. destruct (body output) as [t|l] eqn:E; [by rewrite E|]. cbn [body].
  rewrite Forall_fmap. apply Forall_true. intros c. cbn [compose]. destruct (is_media c) eqn:Ec; [apply Ht|done].
Qed.

Lemma strip_output_keeps is_media q m output : (∀ t, is_media (InputText t) = false) →
  output_clean is_media output → output_clean is_media (strip_output q m output).
Proof.
  intros Ht. unfold strip_output, output_clean. destruct (body output) as [t|l] eqn:E; [by rewrite E|]. cbn [body].
  rewrite Forall_fmap. intros Hl. apply (Forall_impl _ _ _ Hl). intros c Hc. cbn [compose]. destruct (q c); [apply Ht|done].
Qed.

Lemma strip_output_id is_media m output : output_clean is_media output → strip_output is_media m output = output.
Proof.
  destruct output as [[t|l] s]; unfold strip_output, output_clean; simpl; [done|]. intros Hl. do 2 f_equal.
  induction Hl as [|c l Hc _ IH]; [done|]. by rewrite fmap_cons, Hc, IH.
Qed.

Lemma strip_image_clean i : image_clean (strip_image default_rest i).
Proof.
  destruct i; cbn [strip_image strip_audio image_clean audio_clean]; try done; try by apply strip_output_clean.
  pose proof (strip_message_clean is_content_image (λ _, eq_refl) IMAGE content metadata) as H.
  by destruct (strip_message _ _ _ _ _).
Qed.
Lemma strip_audio_clean i : audio_clean (strip_audio default_rest i).
Proof.
  destruct i; cbn [strip_image strip_audio image_clean audio_clean]; try done; try by apply strip_output_clean.
  pose proof (strip_message_clean is_content_audio (λ _, eq_refl) AUDIO content metadata) as H.
  by destruct (strip_message _ _ _ _ _).
Qed.
Lemma strip_audio_keeps i : image_clean i → image_clean (strip_audio default_rest i).
Proof.
  destruct i; cbn [strip_image strip_audio image_clean audio_clean]; try done; try by apply strip_output_keeps. intros Hc.
  pose proof (strip_message_keeps is_content_image (λ _, eq_refl) is_content_audio AUDIO content metadata Hc) as H.
  by destruct (strip_message _ _ _ _ _).
Qed.
Lemma strip_image_id i : image_clean i → strip_image default_rest i = i.
Proof.
  destruct i; cbn [strip_image strip_audio image_clean audio_clean]; intros Hc; try done; try by rewrite strip_output_id.
  - by rewrite strip_message_id.
  - by subst.
Qed.
Lemma strip_audio_id i : audio_clean i → strip_audio default_rest i = i.
Proof. destruct i; cbn [strip_image strip_audio image_clean audio_clean]; intros Hc; try done; [by rewrite strip_message_id|by rewrite strip_output_id..]. Qed.

(** Stripping does not touch call ids. *)
Lemma strip_ids k i :
  call_id k (strip_image default_rest i) = call_id k i ∧ output_id k (strip_image default_rest i) = output_id k i ∧
  call_id k (strip_audio default_rest i) = call_id k i ∧ output_id k (strip_audio default_rest i) = output_id k i.
Proof.
  destruct i; by destruct k.
Qed.

Lemma strip_orphan fids tids cids i :
  is_orphan fids tids cids (strip_image default_rest i) = is_orphan fids tids cids i ∧
  is_orphan fids tids cids (strip_audio default_rest i) = is_orphan fids tids cids i.
Proof.
  by destruct i.
Qed.

(** The part of [normalize_history] after pairing. *)
Definition strip_media (mods : list InputModality) items : list Envelope :=
  strip_audio_when_unsupported default_rest mods (strip_images_when_unsupported default_rest mods items).

Lemma collect_map (f : Item → option rstr) g items : (∀ i, f (g i) = f i) → collect_ids f (map_item g <$> items) = collect_ids f items.
Proof. intros Hg. induction items as [|e items IH]; [done|]. rewrite fmap_cons. cbn [collect_ids map_item item]. by rewrite Hg, IH. Qed.

Lemma map_item_paired g items : (∀ k i, call_id k (g i) = call_id k i ∧ output_id k (g i) = output_id k i) →
  (∀ f t c i, is_orphan f t c (g i) = is_orphan f t c i) → paired items → paired (map_item g <$> items).
Proof.
  intros Hid Ho [H1 H2]. split.
  - intros k id. rewrite !collect_map by (intros; apply Hid). apply H1.
  - intros e (e' & -> & He')%list_elem_of_fmap. cbn [map_item item]. rewrite Ho.
    rewrite (collect_map function_call_id) by (intros i; apply (Hid Function)).
    rewrite (collect_map tool_search_call_id) by (intros i; apply (Hid ToolSearch)).
    rewrite (collect_map custom_tool_call_id) by (intros i; apply (Hid CustomTool)). by apply H2.
Qed.

Lemma strip_media_paired mods items : paired items → paired (strip_media mods items).
Proof.
  intros Hp. unfold strip_media, strip_audio_when_unsupported, strip_images_when_unsupported.
  assert (paired (if bool_decide (ImageModality ∈ mods) then items else map_item (strip_image default_rest) <$> items)) as Hi.
  { destruct (bool_decide _); [done|]. apply map_item_paired; [|intros; apply strip_orphan|done]. intros k i. by destruct (strip_ids k i) as (?&?&_). }
  destruct (bool_decide (AudioModality ∈ mods)); [done|].
  apply map_item_paired; [|intros; apply strip_orphan|done]. intros k i. by destruct (strip_ids k i) as (_&_&?&?).
Qed.

(** No media the model does not support. *)
Definition supported (mods : list InputModality) i : Prop :=
  (ImageModality ∉ mods → image_clean i) ∧ (AudioModality ∉ mods → audio_clean i).

Lemma strip_media_supported mods items e : e ∈ strip_media mods items → supported mods (item e).
Proof.
  unfold strip_media, strip_audio_when_unsupported, strip_images_when_unsupported, supported.
  destruct (bool_decide_reflect (AudioModality ∈ mods)), (bool_decide_reflect (ImageModality ∈ mods)); intros He; split; intros; try done.
  - apply list_elem_of_fmap in He as (e' & -> & _). apply strip_image_clean.
  - apply list_elem_of_fmap in He as (e' & -> & _). apply strip_audio_clean.
  - apply list_elem_of_fmap in He as (e' & -> & (e'' & -> & _)%list_elem_of_fmap). apply strip_audio_keeps, strip_image_clean.
  - apply list_elem_of_fmap in He as (e' & -> & _). apply strip_audio_clean.
Qed.

Lemma map_item_id g items : (∀ e, e ∈ items → g (item e) = item e) → map_item g <$> items = items.
Proof.
  induction items as [|e items IH]; intros Hg; [done|]. rewrite fmap_cons, IH by (intros; apply Hg; by right).
  unfold map_item. rewrite Hg by left. by destruct e.
Qed.

Lemma strip_media_id mods items : (∀ e, e ∈ items → supported mods (item e)) → strip_media mods items = items.
Proof.
  intros Hs. unfold strip_media, strip_audio_when_unsupported, strip_images_when_unsupported.
  assert ((if bool_decide (ImageModality ∈ mods) then items else map_item (strip_image default_rest) <$> items) = items) as ->.
  { case_bool_decide as Hm; [done|]. apply map_item_id. intros e He. apply strip_image_id. by apply Hs. }
  case_bool_decide as Hm; [done|]. apply map_item_id. intros e He. apply strip_audio_id. by apply Hs.
Qed.

Lemma normalize_spec debug mods items items' :
  normalize_history default_rest new_v5 debug mods items = Some items' →
  items' = strip_media mods (without_orphans (completed items)).
Proof.
  unfold normalize_history. destruct (ensure_call_outputs_present _ _ items) as [a|] eqn:E1; cbn [mbind option_bind]; [|done].
  apply ensure_spec in E1 as ->.
  destruct (remove_orphan_outputs _ _) as [b|] eqn:E2; cbn [mbind option_bind]; [|done].
  apply remove_orphans_spec in E2 as ->. by intros [= <-].
Qed.

Lemma normalize_release mods items :
  normalize_history default_rest new_v5 false mods items = Some (strip_media mods (without_orphans (completed items))).
Proof. unfold normalize_history. rewrite ensure_release. cbn [mbind option_bind]. by rewrite remove_orphans_release. Qed.

Lemma normalize_id debug mods items : paired items → (∀ e, e ∈ items → supported mods (item e)) →
  normalize_history default_rest new_v5 debug mods items = Some items.
Proof.
  intros Hp Hs. unfold normalize_history. rewrite (paired_ensure debug) by done. cbn [mbind option_bind].
  rewrite paired_remove_orphans by done. cbn [mbind option_bind]. f_equal. by apply strip_media_id.
Qed.

(** ** Removing the first item with its counterpart *)

(** At most one call and one output per id, in each family. *)
Definition unique_ids items : Prop :=
  ∀ k, NoDup (omap (λ e, call_id k (item e)) items) ∧ NoDup (omap (λ e, output_id k (item e)) items).

(** The id of a call an output cannot do without. *)
Definition needs_call (k : kind) i : option rstr :=
  match k, i with
  | ToolSearch, ToolSearchOutput _ (Some id) _ execution _ _ => if decide (execution = $"server") then None else Some id
  | ToolSearch, _ => None
  | _, _ => output_id k i
  end.

Lemma needs_call_output k i id : needs_call k i = Some id → output_id k i = Some id.
Proof. destruct k, i as [| | | | | | | | | |? [?|]| | | | | | |]; simpl; try done. by case_decide. Qed.

Lemma not_orphan_iff items i :
  is_orphan (collect_ids function_call_id items) (collect_ids tool_search_call_id items)
            (collect_ids custom_tool_call_id items) i = false ↔
  ∀ k id, needs_call k i = Some id → id ∈ collect_ids (call_id k) items.
Proof. clear new_v5 default_rest.
  split.
  - intros Ho k id. destruct k, i as [| | | | | | |? [?|]| | |? [?|]| | | | | | |]; simpl in *; try done; try case_decide; try done;
      intros [= <-]; rewrite ?andb_false_iff, ?bool_decide_eq_false in Ho; apply dec_stable; tauto.
  - intros Hn. pose proof (Hn Function) as Hf. pose proof (Hn ToolSearch) as Ht. pose proof (Hn CustomTool) as Hc.
    destruct i as [| | | | | | |? [?|]| | |? [?|]| | | | | | |]; simpl in *; try done.
    + apply bool_decide_eq_false. intros Hni. by apply Hni, Hf.
    + apply bool_decide_eq_false. intros Hni. by apply Hni, Hc.
    + apply andb_false_iff. case_decide as Hs; [left; apply bool_decide_eq_false; tauto|right].
      apply bool_decide_eq_false. intros Hni. by apply Hni, Ht.
Qed.

Lemma collect_omap (f : Item → option rstr) items id :
  id ∈ collect_ids f items ↔ id ∈ omap (λ e, f (item e)) items.
Proof. rewrite collect_ids_spec, list_elem_of_omap. done. Qed.

Lemma collect_perm (f : Item → option rstr) items items' : items ≡ₚ items' → collect_ids f items = collect_ids f items'.
Proof. intros Hp. apply set_eq. intros id. rewrite !collect_ids_spec. by setoid_rewrite Hp. Qed.

Lemma paired_perm items items' : items ≡ₚ items' → paired items → paired items'.
Proof.
  intros Hp [H1 H2]. split.
  - intros k id. rewrite <- !(collect_perm _ _ _ Hp). apply H1.
  - intros e He. rewrite <- !(collect_perm _ _ _ Hp). apply H2. by rewrite Hp.
Qed.

Lemma unique_perm items items' : items ≡ₚ items' → unique_ids items → unique_ids items'.
Proof. intros Hp Hu k. destruct (Hu k). by rewrite <- Hp. Qed.

Lemma unique_cons e items : unique_ids (e :: items) → unique_ids items ∧
  ∀ k id, (call_id k (item e) = Some id → id ∉ collect_ids (call_id k) items) ∧
          (output_id k (item e) = Some id → id ∉ collect_ids (output_id k) items).
Proof.
  intros Hu. split.
  - intros k. destruct (Hu k) as [H1 H2]. cbn [omap list_omap] in H1, H2. split.
    + destruct (call_id k (item e)); [by inversion H1|done].
    + destruct (output_id k (item e)); [by inversion H2|done].
  - intros k id. destruct (Hu k) as [H1 H2]. cbn [omap list_omap] in H1, H2. rewrite !collect_omap. split; intros E; rewrite E in *.
    + by apply NoDup_cons in H1 as [H1 _].
    + by apply NoDup_cons in H2 as [H2 _].
Qed.

Lemma collect_cons (f : Item → option rstr) e items id :
  id ∈ collect_ids f (e :: items) ↔ f (item e) = Some id ∨ id ∈ collect_ids f items.
Proof. clear new_v5 default_rest. rewrite !collect_ids_spec. setoid_rewrite elem_of_cons. naive_solver. Qed.

Lemma call_no_output k k' i id : call_id k i = Some id → output_id k' i = None.
Proof. by destruct k, k', i as [| | | |? [?|]| |? [?|]| | | | | | | | | | |]. Qed.
Lemma call_kind k k' i id id' : call_id k i = Some id → call_id k' i = Some id' → k = k' ∧ id = id'.
Proof. clear new_v5 default_rest. destruct k, k', i as [| | | |? [?|]| |? [?|]| | | | | | | | | | |]; simpl; naive_solver. Qed.
Lemma output_kind k k' i id id' : output_id k i = Some id → output_id k' i = Some id' → k = k' ∧ id = id'.
Proof. clear new_v5 default_rest. destruct k, k', i as [| | | | | | |? [?|]| | |? [?|]| | | | | | |]; simpl; naive_solver. Qed.

(** A call and its output can go together. *)
Lemma drop_pair e1 e2 items k id : call_id k (item e1) = Some id → output_id k (item e2) = Some id →
  unique_ids (e1 :: e2 :: items) → paired (e1 :: e2 :: items) → paired items.
Proof. clear new_v5 default_rest.
  intros H1 H2 [Hu He1]%unique_cons [Hp Ho]. apply unique_cons in Hu as [_ He2].
  destruct (He1 k id) as [Hc1 _]. specialize (Hc1 H1). rewrite collect_cons in Hc1.
  destruct (He2 k id) as [_ Hc2]. specialize (Hc2 H2). split.
  - intros k' id' Hin.
    assert (id' ∈ collect_ids (call_id k') (e1 :: e2 :: items)) as Hin' by (rewrite !collect_cons; tauto).
    apply Hp in Hin'. rewrite !collect_cons in Hin'. destruct Hin' as [E|[E|]]; [..|done].
    + by rewrite (call_no_output _ _ _ _ H1) in E.
    + destruct (output_kind _ _ _ _ _ H2 E) as [-> ->]. exfalso. apply Hc1. by right.
  - intros e He. apply not_orphan_iff. intros k' id' Hn.
    assert (e ∈ e1 :: e2 :: items) as He' by (do 2 right; done). apply Ho in He'.
    pose proof (proj1 (not_orphan_iff _ _) He' _ _ Hn) as Hin. rewrite !collect_cons in Hin.
    destruct Hin as [E|[E|]]; [..|done].
    + destruct (call_kind _ _ _ _ _ H1 E) as [-> ->]. exfalso. apply Hc2, collect_ids_spec. exists e.
      split; [done|]. by apply needs_call_output.
    + by rewrite (call_no_output _ k _ _ E) in H2.
Qed.

(** An item that is not a call and whose call is not there can go alone. *)
Lemma drop_single e items : (∀ k, call_id k (item e) = None) →
  (∀ k id, output_id k (item e) = Some id → id ∉ collect_ids (call_id k) items) →
  paired (e :: items) → paired items.
Proof. clear new_v5 default_rest.
  intros Hc Hout [Hp Ho]. split.
  - intros k id Hin. assert (id ∈ collect_ids (call_id k) (e :: items)) as Hin' by (rewrite collect_cons; tauto).
    apply Hp in Hin'. rewrite collect_cons in Hin'. destruct Hin' as [E|]; [|done]. by apply Hout in E.
  - intros e' He'. apply not_orphan_iff. intros k id Hn.
    assert (e' ∈ e :: items) as He2 by (by right). apply Ho in He2.
    pose proof (proj1 (not_orphan_iff _ _) He2 _ _ Hn) as Hin. rewrite collect_cons in Hin.
    destruct Hin as [E|]; [|done]. by rewrite Hc in E.
Qed.

Lemma position_cases (p : Item → bool) items :
  match position p items with
  | Some pos => ∃ e, p (item e) = true ∧ items ≡ₚ e :: vec_remove items pos
  | None => ∀ e, e ∈ items → p (item e) = false
  end.
Proof.
  induction items as [|e items IH]; cbn [position]; [by intros e ?%elem_of_nil|].
  destruct (p (item e)) eqn:E; [by exists e|].
  destruct (position p items) as [pos|]; cbn [fmap option_fmap option_map].
  - destruct IH as (e' & He' & Hp). exists e'. split; [done|]. unfold vec_remove in *. cbn [take drop app].
    rewrite Hp at 1. by rewrite perm_swap.
  - intros e' [->|He']%elem_of_cons; [done|by apply IH].
Qed.

(** A call goes with its output. *)
Lemma remove_with_output e items k id : call_id k (item e) = Some id →
  unique_ids (e :: items) → paired (e :: items) →
  paired (remove_first_matching (has_id (output_id k) id) items) ∧
  unique_ids (remove_first_matching (has_id (output_id k) id) items).
Proof. clear new_v5 default_rest.
  intros Hc Hu Hp. unfold remove_first_matching. pose proof (position_cases (has_id (output_id k) id) items) as Hpos.
  destruct (position _ items) as [pos|].
  - destruct Hpos as (e' & He' & Hperm). unfold has_id in He'. apply bool_decide_eq_true in He'.
    assert (e :: items ≡ₚ e :: e' :: vec_remove items pos) as Hq by (by rewrite Hperm at 1).
    pose proof (paired_perm _ _ Hq Hp) as Hp'. pose proof (unique_perm _ _ Hq Hu) as Hu'.
    split; [by eapply drop_pair|]. by apply unique_cons in Hu' as [[Hu' _]%unique_cons _].
  - exfalso. destruct Hp as [Hp _]. assert (id ∈ collect_ids (call_id k) (e :: items)) as Hin by (rewrite collect_cons; tauto).
    apply Hp in Hin. rewrite collect_cons in Hin. destruct Hin as [E|(e' & He' & E)%collect_ids_spec].
    + by rewrite (call_no_output _ _ _ _ Hc) in E.
    + specialize (Hpos e' He'). unfold has_id in Hpos. by apply bool_decide_eq_false in Hpos.
Qed.

(** An output goes with its call, found by any search that finds exactly
    calls with its id. *)
Lemma remove_with_call e items k id pos : output_id k (item e) = Some id →
  unique_ids (e :: items) → paired (e :: items) →
  match pos with
  | Some n => ∃ e', call_id k (item e') = Some id ∧ items ≡ₚ e' :: vec_remove items n
  | None => ∀ e', e' ∈ items → call_id k (item e') ≠ Some id
  end →
  let r := match pos with Some n => vec_remove items n | None => items end in
  paired r ∧ unique_ids r.
Proof.
  intros Ho Hu Hp Hpos r. destruct pos as [n|]; cbn zeta.
  - destruct Hpos as (e' & He' & Hperm).
    assert (e :: items ≡ₚ e' :: e :: r) as Hq by (rewrite Hperm at 1; by rewrite perm_swap).
    pose proof (paired_perm _ _ Hq Hp) as Hp'. pose proof (unique_perm _ _ Hq Hu) as Hu'.
    split; [by eapply drop_pair|]. by apply unique_cons in Hu' as [[Hu' _]%unique_cons _].
  - split; [|by apply unique_cons in Hu as [Hu _]]. apply (drop_single e); [..|done].
    + intros k'. destruct (call_id k' (item e)) eqn:E; [|done]. by rewrite (call_no_output _ _ _ _ E) in Ho.
    + intros k' id' Ho' (e' & He' & Hc)%collect_ids_spec. destruct (output_kind _ _ _ _ _ Ho Ho') as [<- <-].
      by apply (Hpos e').
Qed.

Lemma remove_alone e items : (∀ k, call_id k (item e) = None ∧ output_id k (item e) = None) →
  unique_ids (e :: items) → paired (e :: items) → paired items ∧ unique_ids items.
Proof.
  intros Hn Hu Hp. split; [|by apply unique_cons in Hu as [Hu _]].
  apply (drop_single e); [intros k; apply Hn|intros k id Ho; by destruct (Hn k) as [_ ?]; congruence|done].
Qed.

Lemma has_id_call_pos k id items :
  match position (has_id (call_id k) id) items with
  | Some n => ∃ e', call_id k (item e') = Some id ∧ items ≡ₚ e' :: vec_remove items n
  | None => ∀ e', e' ∈ items → call_id k (item e') ≠ Some id
  end.
Proof.
  pose proof (position_cases (has_id (call_id k) id) items) as H. destruct (position _ items).
  - destruct H as (e & He & Hp). exists e. split; [|done]. by apply bool_decide_eq_true in He.
  - intros e He. specialize (H e He). by apply bool_decide_eq_false in H.
Qed.

Definition function_call_pos id items : option nat :=
  match position (is_function_call id) items with Some n => Some n | None => position (is_local_shell_call id) items end.

Lemma function_call_pos_spec id items :
  match function_call_pos id items with
  | Some n => ∃ e', call_id Function (item e') = Some id ∧ items ≡ₚ e' :: vec_remove items n
  | None => ∀ e', e' ∈ items → call_id Function (item e') ≠ Some id
  end.
Proof.
  unfold function_call_pos. pose proof (position_cases (is_function_call id) items) as H1.
  pose proof (position_cases (is_local_shell_call id) items) as H2.
  destruct (position (is_function_call id) items).
  { destruct H1 as (e & He & Hp). exists e. split; [|done]. destruct (item e); try done. simpl in *. by apply bool_decide_eq_true in He as ->. }
  destruct (position (is_local_shell_call id) items).
  { destruct H2 as (e & He & Hp). exists e. split; [|done]. destruct (item e) as [| | | |? [?|]| | | | | | | | | | | | |]; try done. simpl in *. by apply bool_decide_eq_true in He as ->. }
  intros e He Hc. specialize (H1 e He). specialize (H2 e He).
  destruct (item e) as [| | | |? [?|]| | | | | | | | | | | | |]; try done; simpl in *; injection Hc as ->; by rewrite bool_decide_eq_false in H1 || by rewrite bool_decide_eq_false in H2.
Qed.

Lemma remove_first_item_ok items : paired items → unique_ids items →
  paired (remove_first_item items) ∧ unique_ids (remove_first_item items).
Proof.
  destruct items as [|e items]; [done|]. intros Hp Hu. unfold remove_first_item, remove_corresponding_for.
  destruct (item e) as [| | | |? [id|]|? id|? [id|]|? [id|]|? id|? id|? [id|]| | | | | | |] eqn:E;
    try (eapply remove_alone; [intros k; rewrite E; by destruct k|done|done]).
  - apply (remove_with_output e items Function); by rewrite ?E.
  - apply (remove_with_output e items Function); by rewrite ?E.
  - apply (remove_with_output e items ToolSearch); by rewrite ?E.
  - pose proof (remove_with_call e items Function id (function_call_pos id items)) as H. rewrite E in H.
    specialize (H eq_refl Hu Hp (function_call_pos_spec id items)). unfold function_call_pos in H.
    destruct (position (is_function_call id) items); [done|]. by destruct (position (is_local_shell_call id) items).
  - apply (remove_with_output e items CustomTool); by rewrite ?E.
  - pose proof (remove_with_call e items CustomTool id _ (f_equal _ E) Hu Hp (has_id_call_pos CustomTool id items)) as H. done.
  - pose proof (remove_with_call e items ToolSearch id _ (f_equal _ E) Hu Hp (has_id_call_pos ToolSearch id items)) as H. done.
Qed.
End facts.

(** ** Claims *)

(** C40: normalising a history for a prompt never panics in a release build
    and gives every call followed by its missing output, without the outputs
    that have no call, and with unsupported media replaced.  In that history
    every call has an output, every output that needs one has a call, and no
    unsupported image or audio is left; normalising it again, in any build,
    changes nothing.  In a debug build the result is the same or a panic. *)
Theorem normalize_history_correct {X} (default_rest : X) (new_v5 : rstr → rstr) (mods : list InputModality)
  (items : list (ResponseItemEnvelope X)) :
  let r := strip_media default_rest mods (without_orphans (completed new_v5 items)) in
  normalize_history default_rest new_v5 false mods items = Some r ∧
  (∀ debug, normalize_history default_rest new_v5 debug mods items = None ∨
            normalize_history default_rest new_v5 debug mods items = Some r) ∧
  paired r ∧ (∀ e, e ∈ r → supported mods (item e)) ∧
  ∀ debug, normalize_history default_rest new_v5 debug mods r = Some r.
Proof.
  cbn zeta. pose proof (strip_media_paired default_rest mods _ (completed_paired new_v5 items)) as Hp.
  pose proof (strip_media_supported default_rest mods (without_orphans (completed new_v5 items))) as Hs.
  split; [apply normalize_release|]. split; [|split; [done|split; [done|]]].
  - intros debug. destruct (normalize_history _ _ debug _ _) as [r|] eqn:E; [|by left].
    right. by rewrite (normalize_spec _ _ _ _ _ _ E).
  - intros debug. by apply normalize_id.
Qed.

(** dropping the oldest item together with its counterpart keeps a history
    with unique call ids paired: no call loses its output and no output its
    call. *)
Theorem remove_first_item_keeps_pairs {X} (items : list (ResponseItemEnvelope X))
  (Hpaired : paired items) (Hunique : unique_ids items) :
  paired (remove_first_item items) ∧ unique_ids (remove_first_item items).
Proof. by apply remove_first_item_ok. Qed.

Definition demo_items : list (ResponseItemEnvelope unit) :=
  envelope_new <$> [FunctionCall None $"c1" (); LocalShellCall None (Some $"c2") ();
    FunctionCallOutput None (Some $"c2") None None (from_text $"ok") None;
    FunctionCallOutput None (Some $"c1") None None (from_text $"done") None].

Lemma demo_items_paired : paired demo_items ∧ unique_ids demo_items.
Proof.
  split; [split|].
  - intros k id. rewrite !collect_omap. revert id. apply Forall_forall.
    destruct k; (apply (bool_decide_unpack _); vm_compute; exact I).
  - intros e He. unfold demo_items in He. repeat (apply elem_of_cons in He as [->|He]); try (by apply elem_of_nil in He); by vm_compute.
  - intros k. split; destruct k; (apply (bool_decide_unpack _); vm_compute; exact I).
Qed.

Lemma remove_first_item_keeps_pairs_witness :
  paired (remove_first_item demo_items) ∧ length (remove_first_item demo_items) = 2.
Proof.
  split; [|reflexivity].
  exact (proj1 (remove_first_item_keeps_pairs demo_items (proj1 demo_items_paired) (proj2 demo_items_paired))).
Defined.
