(* ===== verification/Truncation.v ===== *)
(** * Truncating output

    [utils/string/src/truncate.rs], [utils/output-truncation/src/lib.rs] and
    [TruncationPolicy] of [protocol/src/protocol.rs]: what is kept of a tool's
    output that is too long for the model.  Budgets are [usize]s: numbers up
    to [USIZE_MAX], with the saturation of the code.  Slicing a string off a
    character boundary panics.  The cost of audio is a parameter;
    [with_serialization_allowance] multiplies by a float and is left out. *)

From S2P Require Import Prelude RustStr Normalize.
From S2P Require HeadTail.
Import HeadTail(USIZE_MAX, saturating_add).

(** ** Strings by byte index *)

Definition len (s : rstr) : N := N.of_nat (byte_len s).
Definition char_len (c : char) : N := N.of_nat (len_utf8 c).

(** [s.split_at(i)]: the slices [&s[..i]] and [&s[i..]]. *)
Fixpoint split_at (s : rstr) (i : N) : outcome unit (rstr * rstr) :=
  if (i =? 0)%N then Done ([], s)
  else
    match s with
    | [] => Panic
    | c :: s => if (char_len c <=? i)%N then '(l, r) ← split_at s (i - char_len c); Done (c :: l, r) else Panic
    end.

(** The largest boundary up to [i], and the smallest from [i] on. *)
Fixpoint floor_char_boundary (s : rstr) (i : N) : N :=
  match s with
  | [] => 0
  | c :: s => if (char_len c <=? i)%N then char_len c + floor_char_boundary s (i - char_len c) else 0
  end.
Fixpoint ceil_char_boundary (s : rstr) (i : N) : N :=
  if (i =? 0)%N then 0
  else match s with [] => 0 | c :: s => char_len c + ceil_char_boundary s (i - char_len c) end.

(** [a - b] on [usize]s. *)
Definition usize_sub (a b : N) : outcome unit N := if (b <=? a)%N then Done (a - b)%N else Panic.

(** ** Estimates *)

Definition APPROX_BYTES_PER_TOKEN : N := 4.
Definition saturating_mul (a b : N) : N := N.min USIZE_MAX (a * b).

Definition approx_token_count (text : rstr) : N :=
  (saturating_add (len text) (APPROX_BYTES_PER_TOKEN - 1) / APPROX_BYTES_PER_TOKEN)%N.
Definition approx_bytes_for_tokens (tokens : N) : N := saturating_mul tokens APPROX_BYTES_PER_TOKEN.
(** A [u64], of the width of [usize]. *)
Definition approx_tokens_from_byte_count (bytes : N) : N :=
  (saturating_add bytes (APPROX_BYTES_PER_TOKEN - 1) / APPROX_BYTES_PER_TOKEN)%N.

Definition I64_MAX : Z := 9223372036854775807.
Definition approx_tokens_from_byte_count_i64 (bytes : Z) : Z :=
  if (bytes <=? 0)%Z then 0%Z else Z.min I64_MAX (Z.of_N (approx_tokens_from_byte_count (Z.to_N bytes))).

(** ** Truncating a string *)

Definition split_budget (budget : N) : N * N := let half := (budget / 2)%N in (half, (budget - half)%N).

Definition ELLIPSIS : char := 8230%N.
Definition format_truncation_marker (use_tokens : bool) (removed_count : N) : rstr :=
  [ELLIPSIS] ++ fmt_N removed_count ++ (if use_tokens then $" tokens truncated" else $" chars truncated") ++ [ELLIPSIS].

Definition removed_units (use_tokens : bool) (removed_bytes removed_chars : N) : N :=
  if use_tokens then approx_tokens_from_byte_count removed_bytes else removed_chars.

Definition assemble_truncated_output (prefix suffix marker : rstr) : rstr := prefix ++ marker ++ suffix.

(** The variables of the loop over [char_indices]. *)
Record SplitState := mkSplit { prefix_end : N; suffix_start : N; removed_chars : N; suffix_started : bool }.

Fixpoint split_loop (beginning_bytes tail_start_target : N) (idx : N) (s : rstr) (st : SplitState) : SplitState :=
  match s with
  | [] => st
  | ch :: s =>
      let char_end := (idx + char_len ch)%N in
      split_loop beginning_bytes tail_start_target char_end s
        (if (char_end <=? beginning_bytes)%N
         then mkSplit char_end (suffix_start st) (removed_chars st) (suffix_started st)
         else if (tail_start_target <=? idx)%N
         then if suffix_started st then st else mkSplit (prefix_end st) idx (removed_chars st) true
         else mkSplit (prefix_end st) (suffix_start st) (saturating_add (removed_chars st) 1) (suffix_started st))
  end.

Definition split_string (s : rstr) (beginning_bytes end_bytes : N) : outcome unit (N * rstr * rstr) :=
  if is_empty s then Done (0%N, [], [])
  else
    let st := split_loop beginning_bytes (len s - end_bytes) 0 s (mkSplit 0 (len s) 0 false) in
    let suffix_start := if (suffix_start st <? prefix_end st)%N then prefix_end st else suffix_start st in
    '(before, _) ← split_at s (prefix_end st);
    '(_, after) ← split_at s suffix_start;
    Done (removed_chars st, before, after).

Definition truncate_with_byte_estimate (s : rstr) (max_bytes : N) (use_tokens : bool) : outcome unit rstr :=
  if is_empty s then Done []
  else if (max_bytes =? 0)%N then
    let total_chars := if use_tokens then 0%N else N.of_nat (length s) in
    Done (format_truncation_marker use_tokens (removed_units use_tokens (len s) total_chars))
  else if (len s <=? max_bytes)%N then Done s
  else
    let total_bytes := len s in
    let '(left_budget, right_budget) := split_budget max_bytes in
    '(removed, prefix, suffix) ←
      (if use_tokens then
         target ← usize_sub total_bytes right_budget;
         '(prefix, _) ← split_at s (floor_char_boundary s left_budget);
         '(_, suffix) ← split_at s (ceil_char_boundary s target);
         Done (0%N, prefix, suffix)
       else split_string s left_budget right_budget);
    Done (assemble_truncated_output prefix suffix
            (format_truncation_marker use_tokens (removed_units use_tokens (total_bytes - max_bytes) removed))).

Definition truncate_middle_chars (s : rstr) (max_bytes : N) : outcome unit rstr :=
  truncate_with_byte_estimate s max_bytes false.

Definition truncate_middle_with_token_budget (s : rstr) (max_tokens : N) : outcome unit (rstr * option N) :=
  if is_empty s then Done ([], None)
  else if (0 <? max_tokens)%N && (len s <=? approx_bytes_for_tokens max_tokens)%N then Done (s, None)
  else
    truncated ← truncate_with_byte_estimate s (approx_bytes_for_tokens max_tokens) true;
    Done (truncated, if bool_decide (truncated = s) then None else Some (approx_token_count s)).

(** ** Policies *)

Inductive TruncationPolicy := Bytes (bytes : N) | Tokens (tokens : N).

Definition token_budget (policy : TruncationPolicy) : N :=
  match policy with Bytes bytes => approx_tokens_from_byte_count bytes | Tokens tokens => tokens end.
Definition byte_budget (policy : TruncationPolicy) : N :=
  match policy with Bytes bytes => bytes | Tokens tokens => approx_bytes_for_tokens tokens end.

Definition truncate_text (content : rstr) (policy : TruncationPolicy) : outcome unit rstr :=
  match policy with
  | Bytes bytes => truncate_middle_chars content bytes
  | Tokens tokens => '(truncated, _) ← truncate_middle_with_token_budget content tokens; Done truncated
  end.

Definition formatted_truncate_text (content : rstr) (policy : TruncationPolicy) : outcome unit rstr :=
  if (len content <=? byte_budget policy)%N then Done content
  else
    result ← truncate_text content policy;
    Done ($"Warning: truncated output (original token count: " ++ fmt_N (approx_token_count content) ++ $")" ++ [LF]
          ++ $"Total output lines: " ++ fmt_nat (length (lines content)) ++ [LF; LF] ++ result).

(** ** Structured output *)

Definition text_segment (item : FunctionCallOutputContentItem) : option rstr :=
  match item with InputText text => Some text | _ => None end.
Definition is_text (item : FunctionCallOutputContentItem) : bool := match item with InputText _ => true | _ => false end.

(** One more segment: separated by a newline unless nothing came before. *)
Definition combine (combined text : rstr) : rstr :=
  (if is_empty combined then combined else combined ++ [LF]) ++ text.

Definition formatted_truncate_text_content_items_with_policy (items : list FunctionCallOutputContentItem) (policy : TruncationPolicy) :
    outcome unit (list FunctionCallOutputContentItem * option N) :=
  let text_segments := omap text_segment items in
  if is_empty text_segments then Done (items, None)
  else
    let combined := foldl combine [] text_segments in
    if (len combined <=? byte_budget policy)%N then Done (items, None)
    else
      text ← formatted_truncate_text combined policy;
      Done (InputText text :: filter (λ item, is_text item = false) items, Some (approx_token_count combined)).

Section items.
Context (estimate_audio_token_count : rstr → N).

Definition text_cost (policy : TruncationPolicy) (text : rstr) : N :=
  match policy with Bytes _ => len text | Tokens _ => approx_token_count text end.
Definition audio_cost (policy : TruncationPolicy) (audio_url : rstr) : N :=
  let token_cost := estimate_audio_token_count audio_url in
  match policy with Bytes _ => approx_bytes_for_tokens token_cost | Tokens _ => token_cost end.
Definition with_budget (policy : TruncationPolicy) (remaining : N) : TruncationPolicy :=
  match policy with Bytes _ => Bytes remaining | Tokens _ => Tokens remaining end.

Record ItemsState := mkItems {
  out : list FunctionCallOutputContentItem;
  remaining_budget : N;
  omitted_text_items : nat;
  omitted_audio_items : nat
}.
Definition push_item (st : ItemsState) (item : FunctionCallOutputContentItem) (remaining : N) : ItemsState :=
  mkItems (out st ++ [item]) remaining (omitted_text_items st) (omitted_audio_items st).

Definition truncate_item (policy : TruncationPolicy) (st : ItemsState) (item : FunctionCallOutputContentItem) : outcome unit ItemsState :=
  match item with
  | InputText text =>
      if is_empty text then Done st
      else if (remaining_budget st =? 0)%N
      then Done (mkItems (out st) 0 (S (omitted_text_items st)) (omitted_audio_items st))
      else
        let cost := text_cost policy text in
        if (cost <=? remaining_budget st)%N then Done (push_item st item (remaining_budget st - cost))
        else
          snippet ← truncate_text text (with_budget policy (remaining_budget st));
          Done (if is_empty snippet then mkItems (out st) 0 (S (omitted_text_items st)) (omitted_audio_items st)
                else push_item st (InputText snippet) 0)
  | InputAudio audio_url =>
      let cost := audio_cost policy audio_url in
      if (cost <=? remaining_budget st)%N then Done (push_item st item (remaining_budget st - cost))
      else Done (mkItems (out st) (remaining_budget st) (omitted_text_items st) (S (omitted_audio_items st)))
  | InputImage _ _ | EncryptedContent _ => Done (push_item st item (remaining_budget st))
  end.

Fixpoint truncate_items (policy : TruncationPolicy) (items : list FunctionCallOutputContentItem) (st : ItemsState) :
    outcome unit ItemsState :=
  match items with
  | [] => Done st
  | item :: items => st ← truncate_item policy st item; truncate_items policy items st
  end.

Definition omitted_note (n : nat) (what : rstr) : list FunctionCallOutputContentItem :=
  match n with 0 => [] | _ => [InputText ($"[omitted " ++ fmt_nat n ++ $" " ++ what ++ $" items ...]")] end.

Definition initial_budget (policy : TruncationPolicy) : N :=
  match policy with Bytes _ => byte_budget policy | Tokens _ => token_budget policy end.

Definition truncate_function_output_items_with_policy (items : list FunctionCallOutputContentItem) (policy : TruncationPolicy) :
    outcome unit (list FunctionCallOutputContentItem) :=
  st ← truncate_items policy items (mkItems [] (initial_budget policy) 0 0);
  Done (out st ++ omitted_note (omitted_text_items st) ($"text") ++ omitted_note (omitted_audio_items st) ($"audio")).

Definition truncate_function_output_payload (output : FunctionCallOutputPayload) (policy : TruncationPolicy) :
    outcome unit FunctionCallOutputPayload :=
  match body output with
  | Text text => text ← truncate_text text policy; Done (mkPayload (Text text) (success output))
  | ContentItems items =>
      items ← truncate_function_output_items_with_policy items policy; Done (mkPayload (ContentItems items) (success output))
  end.
End items.
