(* ===== verification/TruncationFacts.v ===== *)
(** * Facts about truncated output

    A truncated text is a longest prefix and a longest suffix within the two
    halves of the budget, with a marker that counts what is missing; nothing
    is sliced off a character boundary.  Structured output keeps its media in
    order, spends at most its budget on whole items, and says what it left
    out. *)
From S2P Require HeadTail.
From S2P Require Import Prelude RustStr Normalize Truncation.

Import HeadTail(USIZE_MAX, saturating_add).

(** ** Lengths and slices *)

Lemma char_len_pos c : (1 ≤ char_len c ≤ 4)%N.
Proof. unfold char_len, len_utf8. repeat case_match; lia. Qed.

Lemma len_cons c s : len (c :: s) = (char_len c + len s)%N.
Proof. unfold len, char_len. simpl. lia. Qed.

Lemma len_nil : len [] = 0%N.
Proof. done. Qed.

Lemma len_app a b : len (a ++ b) = (len a + len b)%N.
Proof. induction a as [|c a IH]; [done|]. rewrite <- app_comm_cons, !len_cons, IH. lia. Qed.

Lemma len_chars s : (N.of_nat (length s) ≤ len s)%N.
Proof. induction s as [|c s IH]; [done|]. rewrite len_cons. pose proof (char_len_pos c). cbn [length]. lia. Qed.

Lemma len_zero s : (len s =? 0)%N = is_empty s.
Proof. destruct s as [|c s]; [done|]. rewrite len_cons. pose proof (char_len_pos c). apply N.eqb_neq. lia. Qed.

Lemma split_at_app a b : split_at (a ++ b) (len a) = Done (a, b).
Proof.
  induction a as [|c a IH]; [by destruct b|]. rewrite len_cons. cbn [app split_at].
  pose proof (char_len_pos c). rewrite (proj2 (N.eqb_neq _ _)), (proj2 (N.leb_le _ _)) by lia.
  by replace (char_len c + len a - char_len c)%N with (len a) by lia; rewrite IH.
Qed.

(** The longest prefix of [s] within [i] bytes. *)
Definition longest_prefix (s a b : rstr) (i : N) : Prop :=
  s = a ++ b ∧ (len a ≤ i)%N ∧ ∀ c m, b = c :: m → (i < len a + char_len c)%N.

(** The longest suffix of [s] from byte [i] on. *)
Definition longest_suffix (s a b : rstr) (i : N) : Prop :=
  s = a ++ b ∧ ((i ≤ len s)%N → (i ≤ len a)%N) ∧ ∀ c m, a = m ++ [c] → (len m < i)%N.

Lemma floor_spec s i : ∃ a b, longest_prefix s a b i ∧ floor_char_boundary s i = len a.
Proof.
  unfold longest_prefix. revert i. induction s as [|c s IH]; intros i; cbn [floor_char_boundary].
  { exists [], []. rewrite len_nil. split_and!; [done|lia|done|done]. }
  destruct (N.leb_spec (char_len c) i).
  - destruct (IH (i - char_len c)%N) as (a & b & (-> & ? & Hb) & ->). exists (c :: a), b. rewrite len_cons.
    split_and!; [done|lia| |done]. intros d m Hd. specialize (Hb d m Hd). lia.
  - exists [], (c :: s). rewrite len_nil. split_and!; [done|lia| |done]. intros d m [= <- <-]. lia.
Qed.

Lemma ceil_spec s i : ∃ a b, longest_suffix s a b i ∧ ceil_char_boundary s i = len a.
Proof.
  unfold longest_suffix. revert i. induction s as [|c s IH]; intros i; cbn [ceil_char_boundary]; destruct (N.eqb_spec i 0) as [-> |Hi].
  1,3: eexists [], _; split_and!; [done|lia|by intros ? []|done].
  { exists [], []. split_and!; [done|done|by intros ? []|done]. }
  destruct (IH (i - char_len c)%N) as (a & b & (-> & ? & Ha) & ->). exists (c :: a), b. rewrite !len_cons.
  split_and!; [done|lia| |done]. intros d m Hm. destruct m as [|x m]; [rewrite len_nil; lia|].
  injection Hm as <- Hm. specialize (Ha d m Hm). rewrite len_cons. lia.
Qed.

(** ** Cutting the middle out *)

(** Both ends are as long as their budgets allow. *)
Definition cut (s : rstr) (left right : N) (prefix middle suffix : rstr) : Prop :=
  s = prefix ++ middle ++ suffix ∧ (len prefix ≤ left)%N ∧ (len suffix ≤ right)%N ∧
  (∀ c m, middle = c :: m → (left < len prefix + char_len c)%N) ∧
  (∀ c m, middle = m ++ [c] → (right < char_len c + len suffix)%N).

Lemma cut_exists s left right : (left + right < len s)%N → ∃ prefix middle suffix,
  cut s left right prefix middle suffix ∧ middle ≠ [] ∧
  floor_char_boundary s left = len prefix ∧ ceil_char_boundary s (len s - right) = len (prefix ++ middle).
Proof.
  intros Hlt. destruct (floor_spec s left) as (a & b & (Hs & Ha & Hb) & Hf).
  destruct (ceil_spec s (len s - right)) as (x & y & (Hs' & Hx & Hy) & Hc).
  assert (∃ m, x = a ++ m ∧ m ≠ []) as (m & -> & Hne).
  { specialize (Hx ltac:(lia)). rewrite Hs in Hs'. apply app_eq_app in Hs' as (l & [[-> ->]|[-> ->]]).
    - rewrite len_app in Ha. lia.
    - exists l. split; [done|]. intros ->. rewrite app_nil_r in Hx. lia. }
  exists a, m, y. rewrite <- app_assoc in Hs'. assert (len s = len a + len m + len y)%N as Hlen by (rewrite Hs', !len_app; lia).
  split; [|done]. split; [done|]. split; [done|]. specialize (Hx ltac:(lia)). rewrite len_app in Hx. split; [lia|]. split.
  - rewrite Hs in Hs'. apply app_inv_head in Hs' as ->. intros c l ->. by apply (Hb c (l ++ y)).
  - intros c l ->. specialize (Hy c (a ++ l)). rewrite len_app, <- app_assoc in Hy. specialize (Hy eq_refl).
    rewrite Hlen, len_app, len_cons, len_nil in Hy. lia.
Qed.

(** *** The loop over the characters *)

Section loop.
Context (left target : N).

Lemma loop_prefix a : ∀ idx rest st, prefix_end st = idx → (idx + len a ≤ left)%N →
  split_loop left target idx (a ++ rest) st =
    split_loop left target (idx + len a) rest (mkSplit (idx + len a) (suffix_start st) (removed_chars st) (suffix_started st)).
Proof.
  induction a as [|c a IH]; intros idx rest st Hst Hle.
  { rewrite len_nil, N.add_0_r. destruct st. cbn in *. by subst. }
  rewrite len_cons in *. cbn [app split_loop]. rewrite (proj2 (N.leb_le _ _)) by lia. rewrite IH; [|done|lia].
  cbn [suffix_start removed_chars suffix_started]. by rewrite !N.add_assoc.
Qed.

Lemma loop_middle m : ∀ idx rest st, (∀ c l, m = c :: l → (left < idx + char_len c)%N) →
  (∀ c l, m = l ++ [c] → (idx + len l < target)%N) → (removed_chars st + N.of_nat (length m) ≤ USIZE_MAX)%N →
  split_loop left target idx (m ++ rest) st =
    split_loop left target (idx + len m) rest
      (mkSplit (prefix_end st) (suffix_start st) (removed_chars st + N.of_nat (length m)) (suffix_started st)).
Proof.
  induction m as [|c m IH]; intros idx rest st Hl Ht Hn.
  { rewrite len_nil, !N.add_0_r. by destruct st. }
  pose proof (char_len_pos c) as Hc. specialize (Hl c m eq_refl) as Hlc. cbn [app split_loop length] in *.
  assert (idx < target)%N as Hidx.
  { destruct m as [|d m] using rev_ind; [specialize (Ht c [] eq_refl); rewrite len_nil in Ht; lia|].
    specialize (Ht d (c :: m) eq_refl). lia. }
  rewrite (proj2 (N.leb_gt _ _)), (proj2 (N.leb_gt _ _)) by lia. rewrite IH.
  - cbn [prefix_end suffix_start removed_chars suffix_started]. unfold saturating_add. rewrite len_cons, N.add_assoc. f_equal. f_equal. lia.
  - intros d l ->. pose proof (char_len_pos d). lia.
  - intros d l ->. specialize (Ht d (c :: l) eq_refl). rewrite len_cons in Ht. lia.
  - cbn [removed_chars]. unfold saturating_add. lia.
Qed.

Lemma loop_suffix y : ∀ idx st, (target ≤ idx)%N → (left < idx)%N →
  (suffix_started st = false → y = [] → suffix_start st = idx) →
  split_loop left target idx y st =
    mkSplit (prefix_end st) (if suffix_started st then suffix_start st else idx) (removed_chars st)
      (suffix_started st || negb (is_empty y)).
Proof.
  induction y as [|c y IH]; intros idx st Ht Hl Hst; cbn [split_loop is_empty].
  { destruct st as [? ? ? []]; cbn in *; [done|]. by rewrite Hst. }
  pose proof (char_len_pos c). rewrite (proj2 (N.leb_gt _ _)), (proj2 (N.leb_le _ _)) by lia.
  rewrite IH; [|lia|lia|].
  - destruct (suffix_started st) eqn:E; cbn; rewrite ?E; cbn; [done|]. done.
  - destruct (suffix_started st) eqn:E; cbn; rewrite ?E; done.
Qed.
End loop.

Lemma split_string_cut s left right : (left + right < len s)%N → (len s ≤ USIZE_MAX)%N → ∃ prefix middle suffix,
  cut s left right prefix middle suffix ∧ middle ≠ [] ∧
  split_string s left right = Done (N.of_nat (length middle), prefix, suffix).
Proof.
  intros Hlt Hmax. destruct (cut_exists s left right Hlt) as (a & m & y & Hcut & Hne & _). exists a, m, y.
  split; [done|]. split; [done|]. destruct Hcut as (Hs & Ha & Hy & Hm1 & Hm2). unfold split_string.
  assert (is_empty s = false) as -> by (rewrite <- len_zero; apply N.eqb_neq; lia).
  pose proof (len_chars m) as Hmc. assert (len s = len a + len m + len y)%N as Hlen by (rewrite Hs, !len_app; lia).
  assert (split_loop left (len s - right) 0 s (mkSplit 0 (len s) 0 false)
    = mkSplit (len a) (len a + len m) (N.of_nat (length m)) (negb (is_empty y))) as ->.
  { set (L := len s) in *. clearbody L. subst s. rewrite loop_prefix by (done || lia).
    rewrite loop_middle; cbn [prefix_end suffix_start removed_chars suffix_started].
    - rewrite loop_suffix; cbn [prefix_end suffix_start removed_chars suffix_started orb]; [done|lia| |].
      + destruct m as [|c m]; [done|]. specialize (Hm1 c m eq_refl). rewrite len_cons. lia.
      + intros _ ->. rewrite len_nil in Hlen. lia.
    - intros c l ->. specialize (Hm1 c l eq_refl). lia.
    - intros c l ->. specialize (Hm2 c l eq_refl). rewrite len_app, len_cons, len_nil in Hlen. lia.
    - lia. }
  cbn [prefix_end suffix_start removed_chars]. rewrite (proj2 (N.ltb_ge _ _)) by lia.
  rewrite Hs, split_at_app. cbn [mbind outcome_bind]. rewrite app_assoc, <- len_app, split_at_app. done.
Qed.

(** *** A whole text *)

Definition marker_of (policy : TruncationPolicy) (s middle : rstr) : rstr :=
  match policy with
  | Bytes _ => format_truncation_marker false (N.of_nat (length middle))
  | Tokens _ => format_truncation_marker true (approx_tokens_from_byte_count (len s - byte_budget policy))
  end.

(** What is left of a text that is too long. *)
Definition shortened (policy : TruncationPolicy) (s r : rstr) : Prop := ∃ prefix middle suffix,
  let budget := byte_budget policy in
  cut s (budget / 2) (budget - budget / 2) prefix middle suffix ∧ middle ≠ [] ∧ r = prefix ++ marker_of policy s middle ++ suffix.

Definition tokens_policy (use_tokens : bool) (policy : TruncationPolicy) : Prop :=
  match policy with Bytes _ => use_tokens = false | Tokens _ => use_tokens = true end.

Lemma half_budget b : (b / 2 + (b - b / 2))%N = b.
Proof. pose proof (N.Div0.div_le_mono b b 2). pose proof (N.Div0.mul_div_le b 2). lia. Qed.

Lemma truncate_with_byte_estimate_spec s policy use_tokens : tokens_policy use_tokens policy →
  (byte_budget policy < len s)%N → (len s ≤ USIZE_MAX)%N →
  ∃ r, truncate_with_byte_estimate s (byte_budget policy) use_tokens = Done r ∧ shortened policy s r.
Proof.
  intros Hp Hlt Hmax. set (b := byte_budget policy) in *. unfold truncate_with_byte_estimate.
  assert (is_empty s = false) as -> by (rewrite <- len_zero; apply N.eqb_neq; lia).
  destruct (N.eqb_spec b 0) as [Hb|Hb].
  { eexists. split; [done|]. exists [], s, []. fold b. rewrite Hb. split.
    - unfold cut. rewrite !app_nil_r, !len_nil. change (0 / 2)%N with 0%N.
      split_and!; [done..| |]; intros c m _; pose proof (char_len_pos c); lia.
    - split; [intros ->; rewrite len_nil in Hlt; lia|]. unfold marker_of. fold b. rewrite Hb, N.sub_0_r, app_nil_r.
      by destruct policy; cbn in Hp; subst use_tokens. }
  rewrite (proj2 (N.leb_gt _ _)) by lia. cbn [split_budget]. unfold split_budget. pose proof (half_budget b) as Hhalf.
  destruct policy as [bytes|tokens]; cbn in Hp; subst use_tokens.
  - destruct (split_string_cut s (b / 2) (b - b / 2)) as (a & m & y & Hcut & Hne & ->); [by rewrite Hhalf|done|].
    eexists. split; [done|]. exists a, m, y. done.
  - destruct (cut_exists s (b / 2) (b - b / 2)) as (a & m & y & Hcut & Hne & Hf & Hc); [by rewrite Hhalf|].
    assert (b - b / 2 ≤ len s)%N as Hle by (etrans; [apply N.le_sub_l|lia]).
    unfold usize_sub. apply N.leb_le in Hle as ->. cbn [mbind outcome_bind]. rewrite Hf, Hc.
    pose proof Hcut as (Hs & _).
    assert (split_at s (len a) = Done (a, m ++ y)) as -> by (rewrite Hs; apply split_at_app). cbn [mbind outcome_bind].
    assert (split_at s (len (a ++ m)) = Done (a ++ m, y)) as -> by (rewrite Hs, app_assoc; apply split_at_app).
    cbn [mbind outcome_bind]. eexists. split; [done|]. exists a, m, y. done.
Qed.

Lemma truncate_text_spec s policy : (len s ≤ USIZE_MAX)%N →
  if (len s <=? byte_budget policy)%N then truncate_text s policy = Done s
  else ∃ r, truncate_text s policy = Done r ∧ shortened policy s r.
Proof.
  intros Hmax. destruct (N.leb_spec (len s) (byte_budget policy)) as [Hle|Hgt].
  - destruct policy as [b|t]; cbn [truncate_text byte_budget] in *.
    + unfold truncate_middle_chars, truncate_with_byte_estimate. rewrite <- len_zero. destruct (N.eqb_spec (len s) 0) as [E|E].
      { pose proof (len_zero s) as Hz. rewrite E in Hz. by destruct s. }
      rewrite (proj2 (N.eqb_neq _ _)), (proj2 (N.leb_le _ _)) by lia. done.
    + unfold truncate_middle_with_token_budget. rewrite <- len_zero. destruct (N.eqb_spec (len s) 0) as [E|E].
      { pose proof (len_zero s) as Hz. rewrite E in Hz. by destruct s. }
      assert (0 < t)%N. { destruct (N.eq_dec t 0%N) as [->|]; [|lia]. unfold approx_bytes_for_tokens, saturating_mul in Hle. rewrite N.mul_0_l in Hle. lia. }
      rewrite (proj2 (N.ltb_lt _ _)), (proj2 (N.leb_le _ _)) by done. done.
  - destruct policy as [b|t]; cbn [truncate_text].
    + apply (truncate_with_byte_estimate_spec s (Bytes b) false); done.
    + unfold truncate_middle_with_token_budget.
      assert (is_empty s = false) as -> by (rewrite <- len_zero; apply N.eqb_neq; lia).
      cbn [byte_budget] in Hgt. rewrite (proj2 (N.leb_gt _ _)) by done. rewrite andb_false_r.
      destruct (truncate_with_byte_estimate_spec s (Tokens t) true) as (r & Hr & Hsh); [done..|].
      cbn [byte_budget] in Hr. rewrite Hr. cbn [mbind outcome_bind]. eauto.
Qed.

Lemma shortened_nonempty policy s r : shortened policy s r → is_empty r = false.
Proof. intros (a & m & y & _ & _ & ->). unfold marker_of, format_truncation_marker. by destruct a, policy. Qed.

(** ** Structured output *)

(** What becomes of an item. *)
Inductive Fate := Kept | Shortened (snippet : rstr) | Omitted | Skipped.
#[global] Instance fate_eq_dec : EqDecision Fate.
Proof. solve_decision. Defined.

Definition apply_fate (item : FunctionCallOutputContentItem) (f : Fate) : list FunctionCallOutputContentItem :=
  match f with Kept => [item] | Shortened snippet => [InputText snippet] | Omitted | Skipped => [] end.
Definition outcome_of (items : list FunctionCallOutputContentItem) (fates : list Fate) : list FunctionCallOutputContentItem :=
  concat (zip_with apply_fate items fates).
Definition omitted (p : FunctionCallOutputContentItem → bool) (items : list FunctionCallOutputContentItem) (fates : list Fate) : nat :=
  length (filter (λ x, p x.1 = true ∧ x.2 = Omitted) (zip items fates)).
Definition is_audio (item : FunctionCallOutputContentItem) : bool := match item with InputAudio _ => true | _ => false end.
Definition is_shortened (f : Fate) : bool := match f with Shortened _ => true | _ => false end.

Section items.
Context (estimate : rstr → N) (policy : TruncationPolicy).

Definition item_cost (item : FunctionCallOutputContentItem) : N :=
  match item with InputText text => text_cost policy text | InputAudio url => audio_cost estimate policy url | _ => 0 end.

(** What the items that are kept whole cost. *)
Fixpoint spent (items : list FunctionCallOutputContentItem) (fates : list Fate) : N :=
  match items, fates with
  | item :: items, f :: fates => (match f with Kept => item_cost item | _ => 0 end + spent items fates)%N
  | _, _ => 0
  end.

Definition may_have (item : FunctionCallOutputContentItem) (f : Fate) : Prop :=
  match item, f with
  | InputText text, Skipped => text = []
  | InputText text, (Kept | Omitted) => text ≠ []
  | InputText text, Shortened snippet => ∃ b, (0 < b < text_cost policy text)%N ∧ shortened (with_budget policy b) text snippet
  | InputAudio _, (Kept | Omitted) => True
  | (InputImage _ _ | EncryptedContent _), Kept => True
  | _, _ => False
  end.

(** Spending a budget item by item. *)
Inductive spends : N → list FunctionCallOutputContentItem → list Fate → Prop :=
| spends_nil r : spends r [] []
| spends_skip r items fates : spends r items fates → spends r (InputText [] :: items) (Skipped :: fates)
| spends_kept r item items fates :
    item ≠ InputText [] → (item_cost item ≤ r)%N → spends (r - item_cost item) items fates → spends r (item :: items) (Kept :: fates)
| spends_shortened r text snippet items fates :
    text ≠ [] → (0 < r < text_cost policy text)%N → shortened (with_budget policy r) text snippet →
    spends 0 items fates → spends r (InputText text :: items) (Shortened snippet :: fates)
| spends_omitted r item items fates :
    item ≠ InputText [] → is_text item = true ∧ r = 0%N ∨ is_audio item = true → (r < item_cost item)%N →
    spends r items fates → spends r (item :: items) (Omitted :: fates).

Lemma text_cost_pos text : text ≠ [] → (0 < text_cost policy text)%N.
Proof.
  intros Hne. assert (1 ≤ len text)%N.
  { destruct text as [|c s]; [done|]. rewrite len_cons. pose proof (char_len_pos c). lia. }
  destruct policy; cbn [text_cost]; [lia|]. unfold approx_token_count, saturating_add, APPROX_BYTES_PER_TOKEN.
  apply N.div_str_pos. split; [done|]. unfold USIZE_MAX. lia.
Qed.

Lemma too_long text r : (r < text_cost policy text)%N → (byte_budget (with_budget policy r) < len text)%N.
Proof.
  destruct policy as [b|t]; cbn [text_cost with_budget byte_budget]; [done|].
  unfold approx_token_count, saturating_add, approx_bytes_for_tokens, saturating_mul, APPROX_BYTES_PER_TOKEN. intros Hlt.
  assert (N.min USIZE_MAX (len text + 3) / 4 ≤ (len text + 3) / 4)%N as Hm by (apply N.Div0.div_le_mono; lia).
  pose proof (N.lt_le_trans _ _ _ Hlt Hm) as Hr. apply N.le_succ_l in Hr.
  pose proof (N.Div0.mul_div_le (len text + 3) 4) as Hd. revert Hr Hd. generalize ((len text + 3) / 4)%N. lia.
Qed.

Lemma truncate_item_spends item st :
  (∀ text, item = InputText text → len text ≤ USIZE_MAX)%N →
  ∃ f r, truncate_item estimate policy st item =
      Done (mkItems (out st ++ apply_fate item f) r
        (omitted_text_items st + (if is_text item && bool_decide (f = Omitted) then 1 else 0))
        (omitted_audio_items st + (if is_audio item && bool_decide (f = Omitted) then 1 else 0))) ∧
    ∀ items fates, spends r items fates → spends (remaining_budget st) (item :: items) (f :: fates).
Proof.
  intros Hlen. destruct st as [o r nt na]. destruct item as [text|image detail|url|e]; cbn [truncate_item is_text is_audio].
  - destruct text as [|c s]; cbn [is_empty remaining_budget].
    { exists Skipped, r. cbn. rewrite app_nil_r, !Nat.add_0_r. split; [done|]. intros. by constructor. }
    set (text := c :: s) in *. assert (text ≠ []) as Hne by done. pose proof (text_cost_pos text Hne) as Hpos.
    destruct (N.eqb_spec r 0) as [->|Hr].
    { exists Omitted, 0%N. cbn. rewrite app_nil_r, Nat.add_0_r, Nat.add_1_r. split; [done|]. intros. constructor; eauto; congruence. }
    destruct (N.leb_spec (text_cost policy text) r) as [Hle|Hgt].
    { exists Kept, (r - text_cost policy text)%N. cbn. rewrite !Nat.add_0_r. split; [done|]. intros. constructor; [congruence|done|done]. }
    pose proof (truncate_text_spec text (with_budget policy r) (Hlen text eq_refl)) as Ht.
    rewrite (proj2 (N.leb_gt _ _)) in Ht by (by apply too_long). destruct Ht as (sn & -> & Hsn). cbn [mbind outcome_bind].
    rewrite (shortened_nonempty _ _ _ Hsn). exists (Shortened sn), 0%N. cbn. rewrite !Nat.add_0_r. split; [done|].
    intros. constructor; [done|lia|done|done].
  - exists Kept, r. cbn. rewrite !Nat.add_0_r. split; [done|]. intros. constructor; [done|cbn; lia|]. cbn. by rewrite N.sub_0_r.
  - cbn [remaining_budget]. destruct (N.leb_spec (audio_cost estimate policy url) r) as [Hle|Hgt].
    + exists Kept, (r - audio_cost estimate policy url)%N. cbn. rewrite !Nat.add_0_r. split; [done|]. intros. by constructor.
    + exists Omitted, r. cbn. rewrite app_nil_r, Nat.add_0_r, Nat.add_1_r. split; [done|]. intros. constructor; [done|by right|done|done].
  - exists Kept, r. cbn. rewrite !Nat.add_0_r. split; [done|]. intros. constructor; [done|cbn; lia|]. cbn. by rewrite N.sub_0_r.
Qed.

Lemma truncate_items_spends items : (∀ text, InputText text ∈ items → len text ≤ USIZE_MAX)%N → ∀ st, ∃ fates r,
  truncate_items estimate policy items st =
    Done (mkItems (out st ++ outcome_of items fates) r
      (omitted_text_items st + omitted is_text items fates) (omitted_audio_items st + omitted is_audio items fates)) ∧
  spends (remaining_budget st) items fates.
Proof.
  unfold outcome_of, omitted. induction items as [|item items IH]; intros Hlen st.
  { exists [], (remaining_budget st). destruct st. cbn. rewrite app_nil_r, !Nat.add_0_r. split; [done|constructor]. }
  destruct (truncate_item_spends item st) as (f & r & Hi & Hs); [intros text ->; apply Hlen; left|].
  cbn [truncate_items]. rewrite Hi. cbn [mbind outcome_bind].
  destruct (IH (λ text Hin, Hlen text (list_elem_of_further _ _ _ Hin)) (mkItems (out st ++ apply_fate item f) r
    (omitted_text_items st + (if is_text item && bool_decide (f = Omitted) then 1 else 0))
    (omitted_audio_items st + (if is_audio item && bool_decide (f = Omitted) then 1 else 0)))) as (fates & r' & Hr & Hsp).
  exists (f :: fates), r'. split; [|by apply Hs]. rewrite Hr. cbn [out omitted_text_items omitted_audio_items remaining_budget].
  cbn [zip_with concat]. rewrite app_assoc.
  assert (∀ p : FunctionCallOutputContentItem → bool, length (filter (λ x, p x.1 = true ∧ x.2 = Omitted) ((item, f) :: zip items fates))
    = (if p item && bool_decide (f = Omitted) then 1 else 0) + length (filter (λ x, p x.1 = true ∧ x.2 = Omitted) (zip items fates))) as Hc.
  { intros p. rewrite filter_cons. cbn [fst snd]. destruct (p item), (bool_decide_reflect (f = Omitted)); cbn [andb];
      case_decide as E; try done; naive_solver. }
  rewrite !Hc, !Nat.add_assoc. done.
Qed.
End items.

Section spending.
Context (estimate : rstr → N) (policy : TruncationPolicy).

Lemma spends_fates r items fates : spends estimate policy r items fates → Forall2 (may_have policy) items fates.
Proof.
  induction 1 as [|r items fates Hs IH|r item items fates Hne Hc Hs IH|r text sn items fates Hne Hr Hsh Hs IH|r item items fates Hne Ho Hr Hs IH];
    constructor; try done.
  - destruct item; cbn; [congruence|done..].
  - cbn. eauto.
  - destruct item; cbn in *; [congruence|naive_solver..].
Qed.

Lemma spends_within r items fates : spends estimate policy r items fates →
  (spent estimate policy items fates ≤ r)%N ∧ length (filter (λ f, is_shortened f = true) fates) ≤ 1 ∧
  (r = 0%N → length (filter (λ f, is_shortened f = true) fates) = 0).
Proof.
  induction 1 as [|r items fates Hs IH|r item items fates Hne Hc Hs IH|r text sn items fates Hne Hr Hsh Hs IH|r item items fates Hne Ho Hr Hs IH];
    cbn [spent]; rewrite ?filter_cons; cbn [is_shortened]; repeat case_decide; try done; cbn [length filter list_filter]; try (lia || naive_solver lia).
Qed.

(** An item is left out or cut only when the budget does not pay for it. *)
Lemma spends_greedy r items fates : spends estimate policy r items fates → ∀ pre item post fpre f fpost,
  items = pre ++ item :: post → fates = fpre ++ f :: fpost → length pre = length fpre →
  f = Omitted ∨ is_shortened f = true →
  (r < spent estimate policy pre fpre + item_cost estimate policy item)%N ∨ existsb is_shortened fpre = true.
Proof.
  induction 1 as [|r items fates Hs IH|r item items fates Hne Hc Hs IH|r text sn items fates Hne Hr Hsh Hs IH|r item items fates Hne Ho Hr Hs IH];
    intros pre x post fpre f fpost Hi Hf Hlen Hlost; destruct pre as [|y pre], fpre as [|g fpre]; try done;
    cbn [app] in *; simplify_eq; cbn [spent existsb is_shortened orb].
  - by destruct Hlost.
  - rewrite N.add_0_l. by eapply IH.
  - by destruct Hlost.
  - destruct (IH pre x post fpre f fpost) as [?|?]; [done..|left; lia|by right].
  - left. cbn. lia.
  - by right.
  - left. lia.
  - rewrite N.add_0_l. by eapply IH.
Qed.
End spending.

(** * The claims about truncated output *)
Import HeadTail(USIZE_MAX).

Definition warning (s : rstr) : rstr :=
  $"Warning: truncated output (original token count: " ++ fmt_N (approx_token_count s) ++ $")" ++ [LF]
  ++ $"Total output lines: " ++ fmt_nat (length (lines s)) ++ [LF; LF].

(** C38: A truncated text keeps its ends.  Truncation never panics; a text
    within the budget is unchanged; of a longer one it keeps the longest
    prefix within half of the budget and the longest suffix within the rest,
    never cutting a character, and between them a marker with the exact
    number of characters that are missing, or with the estimated tokens above
    the budget; the formatted form puts the original size before it. *)
Theorem truncated_text_keeps_ends (s : rstr) (policy : TruncationPolicy) : (len s ≤ USIZE_MAX)%N →
  if (len s <=? byte_budget policy)%N then truncate_text s policy = Done s ∧ formatted_truncate_text s policy = Done s
  else ∃ prefix middle suffix r, let budget := byte_budget policy in
    cut s (budget / 2) (budget - budget / 2) prefix middle suffix ∧ middle ≠ [] ∧
    r = prefix ++ marker_of policy s middle ++ suffix ∧ (len r ≤ budget + len (marker_of policy s middle))%N ∧
    truncate_text s policy = Done r ∧ formatted_truncate_text s policy = Done (warning s ++ r).
Proof.
  intros Hmax. pose proof (truncate_text_spec s policy Hmax) as Ht. unfold formatted_truncate_text, warning.
  destruct (len s <=? byte_budget policy)%N; [done|]. destruct Ht as (r & Hr & a & m & y & Hcut & Hne & ->).
  exists a, m, y. eexists. split; [done|]. split; [done|]. split; [done|]. rewrite Hr. split; [|split; [done|]].
  - rewrite !len_app. destruct Hcut as (_ & Ha & Hy & _). pose proof (half_budget (byte_budget policy)) as Hh.
    revert Ha Hy Hh. generalize (byte_budget policy / 2)%N. intros. lia.
  - cbn [mbind outcome_bind]. by rewrite <- !app_assoc.
Qed.

Lemma truncated_text_keeps_ends_witness :
  ∃ r, truncate_text ($"a" ++ replicate 3 233%N ++ $"bcdefg") (Bytes 7) = Done r ∧ (len r ≤ 7 + 24)%N ∧
    r = $"a" ++ [233%N] ++ ELLIPSIS :: $"4 chars truncated" ++ [ELLIPSIS] ++ $"defg".
Proof.
  set (s := $"a" ++ replicate 3 233%N ++ $"bcdefg").
  assert (len s ≤ USIZE_MAX)%N as Hs by (vm_compute; discriminate).
  pose proof (truncated_text_keeps_ends s (Bytes 7) Hs) as H. replace (len s <=? _)%N with false in H by (vm_compute; reflexivity).
  destruct H as (a & m & y & r & Hcut & Hne & Hr & Hle & Ht & _). exists r. split; [exact Ht|]. vm_compute in Ht. injection Ht as Hr'.
  rewrite <- Hr'. split; vm_compute; [discriminate|reflexivity].
Defined.

(** C39: Structured output is cut fairly.  Truncating a list of items never
    panics, and every item has one fate: images and encrypted content are
    kept, empty texts are skipped, other texts and audio are kept, cut
    ([shortened]) or left out, in order; what is kept whole costs at most the
    budget, at most one text is cut, an item is cut or left out only when
    what was kept before it and it itself exceed the budget or a text before
    it was cut, and two notes at the end say how many texts and how much audio
    were left out. *)
Theorem truncated_items_fair (estimate : rstr → N) (policy : TruncationPolicy) (items : list FunctionCallOutputContentItem) :
  (∀ text, InputText text ∈ items → len text ≤ USIZE_MAX)%N →
  ∃ fates,
    truncate_function_output_items_with_policy estimate items policy =
      Done (outcome_of items fates ++ omitted_note (omitted is_text items fates) ($"text")
            ++ omitted_note (omitted is_audio items fates) ($"audio")) ∧
    Forall2 (may_have policy) items fates ∧
    (spent estimate policy items fates ≤ initial_budget policy)%N ∧
    length (filter (λ f, is_shortened f = true) fates) ≤ 1 ∧
    ∀ pre item post fpre f fpost, items = pre ++ item :: post → fates = fpre ++ f :: fpost → length pre = length fpre →
      f = Omitted ∨ is_shortened f = true →
      (initial_budget policy < spent estimate policy pre fpre + item_cost estimate policy item)%N ∨ existsb is_shortened fpre = true.
Proof.
  intros Hlen. destruct (truncate_items_spends estimate policy items Hlen (mkItems [] (initial_budget policy) 0 0)) as (fates & r & Ht & Hs).
  exists fates. unfold truncate_function_output_items_with_policy. rewrite Ht. cbn [mbind outcome_bind out omitted_text_items omitted_audio_items app].
  split; [done|]. cbn [remaining_budget] in Hs. split; [by eapply spends_fates|].
  destruct (spends_within _ _ _ _ _ Hs) as (? & ? & _). split; [done|]. split; [done|]. by apply (spends_greedy _ _ _ _ _ Hs).
Qed.

Definition demo_items : list FunctionCallOutputContentItem :=
  [InputText ($"abcd"); InputImage (File ($"f")) None; InputText []; InputText ($"0123456789"); InputAudio ($"u"); InputText ($"x")].

Lemma truncated_items_fair_witness :
  ∃ fates, Forall2 (may_have (Bytes 8)) demo_items fates ∧ (spent (λ _, 3%N) (Bytes 8) demo_items fates ≤ 8)%N ∧
    outcome_of demo_items fates ++ omitted_note (omitted is_text demo_items fates) ($"text")
      ++ omitted_note (omitted is_audio demo_items fates) ($"audio") =
    [InputText ($"abcd"); InputImage (File ($"f")) None; InputText ($"01" ++ ELLIPSIS :: $"6 chars truncated" ++ [ELLIPSIS] ++ $"89");
     InputText ($"[omitted 1 text items ...]"); InputText ($"[omitted 1 audio items ...]")].
Proof.
  destruct (truncated_items_fair (λ _, 3%N) (Bytes 8) demo_items) as (fates & Ht & Hf & Hs & _).
  { intros text Hin. unfold demo_items in Hin. rewrite !elem_of_cons, elem_of_nil in Hin.
    destruct Hin as [E|[E|[E|[E|[E|[E|[]]]]]]]; try discriminate E; injection E as ->; vm_compute; discriminate. }
  exists fates. split; [exact Hf|]. split; [exact Hs|].
  set (r := _ ++ _) in Ht |- *. clearbody r. vm_compute in Ht. injection Ht as <-. vm_compute. reflexivity.
Defined.
