(* ===== verification/OrderedFrames.v ===== *)
(** * Reordering of relay records

    [exec-server/src/noise_relay/ordered_ciphertext.rs]: records that arrive
    out of order are kept in a bounded window and released in sequence.  A
    sequence number is a [u32], a byte its value, and [pending] the map of
    the source; subtractions that could underflow panic. *)

From S2P Require Import Prelude RustStr.

Definition U32_MAX : N := 4294967295%N.
Definition MAX_REORDER_DISTANCE : N := 64%N.
Definition MAX_PENDING_BYTES : N := 1048576%N.

Abbreviation bytes := (list N) (only parsing).

Record OrderedCiphertextFrames := mkFrames {
  next_seq : N;
  pending : gmap N bytes;
  pending_bytes : N
}.

Definition frames_default : OrderedCiphertextFrames := mkFrames 0 ∅ 0.

Definition msg_window : rstr := $"Noise relay ciphertext exceeds reorder window".
Definition msg_buffer_full : rstr := $"Noise relay pending ciphertext buffer is full".
Definition msg_exhausted : rstr := $"Noise relay sequence number exhausted".

Definition byte_count (p : bytes) : N := N.of_nat (length p).

(** The new state, and [None] when the sequence numbers are exhausted. *)
Definition advance (f : OrderedCiphertextFrames) : option OrderedCiphertextFrames :=
  if (next_seq f <? U32_MAX)%N
  then Some (mkFrames (next_seq f + 1) (pending f) (pending_bytes f)) else None.

(** The [while let] loop: every iteration removes a pending record. *)
Fixpoint release_loop (fuel : nat) (f : OrderedCiphertextFrames) (ready : list bytes) :
    OrderedCiphertextFrames * outcome rstr (list bytes) :=
  match fuel, pending f !! next_seq f with
  | S fuel', Some payload =>
      let removed := delete (next_seq f) (pending f) in
      if (byte_count payload <=? pending_bytes f)%N then
        let f1 := mkFrames (next_seq f) removed (pending_bytes f - byte_count payload) in
        match advance f1 with
        | Some f2 => release_loop fuel' f2 (ready ++ [payload])
        | None => (f1, Failed msg_exhausted)
        end
      else (mkFrames (next_seq f) removed (pending_bytes f), Panic)
  | _, _ => (f, Done ready)
  end.

Definition push (f : OrderedCiphertextFrames) (seq : N) (payload : bytes) :
    OrderedCiphertextFrames * outcome rstr (list bytes) :=
  if (seq <? next_seq f)%N || bool_decide (is_Some (pending f !! seq)) then (f, Done [])
  else if (next_seq f <? seq)%N then
    if (MAX_REORDER_DISTANCE <? seq - next_seq f)%N then (f, Failed msg_window)
    else
      let new_bytes := (pending_bytes f + byte_count payload)%N in
      if (MAX_PENDING_BYTES <? new_bytes)%N then (f, Failed msg_buffer_full)
      else (mkFrames (next_seq f) (<[seq:=payload]> (pending f)) new_bytes, Done [])
  else
    match advance f with
    | Some f1 => release_loop (size (pending f1)) f1 [payload]
    | None => (f, Failed msg_exhausted)
    end.

(** ** Invariant *)

Definition total (m : gmap N bytes) : N := map_fold (λ _ p t, byte_count p + t)%N 0%N m.

Lemma total_insert m k p : m !! k = None → total (<[k:=p]> m) = (byte_count p + total m)%N.
Proof. intros Hk. unfold total. rewrite map_fold_insert_L; [done|intros; lia|done]. Qed.

Lemma total_delete m k p : m !! k = Some p → total m = (byte_count p + total (delete k m))%N.
Proof.
  intros Hk. rewrite <- (total_insert (delete k m) k p) by apply lookup_delete_eq.
  by rewrite insert_delete_id.
Qed.

(** The window, the byte count and its bound. *)
Definition frames_in (f : OrderedCiphertextFrames) : Prop :=
  (∀ k, is_Some (pending f !! k) → next_seq f ≤ k ≤ next_seq f + MAX_REORDER_DISTANCE)%N ∧
  pending_bytes f = total (pending f) ∧ (pending_bytes f ≤ MAX_PENDING_BYTES)%N ∧
  (next_seq f ≤ U32_MAX)%N.

Definition frames_ok (f : OrderedCiphertextFrames) : Prop :=
  frames_in f ∧ pending f !! next_seq f = None.

(** What has been kept of the record with number [k]: released or pending. *)
Definition known (f : OrderedCiphertextFrames) (out : list bytes) (k : N) : option bytes :=
  if (k <? next_seq f)%N then out !! N.to_nat k else pending f !! k.

Lemma frames_default_ok : frames_ok frames_default.
Proof.
  split; [|done]. split; [|repeat split; vm_compute; congruence].
  intros k [p Hp]. cbn in Hp. by rewrite lookup_empty in Hp.
Qed.

Lemma frames_ok_free f k : frames_ok f → is_Some (pending f !! k) → (next_seq f < k)%N.
Proof.
  intros [(Hw & _) Hn] Hk. pose proof (Hw k Hk).
  destruct (decide (k = next_seq f)) as [->|]; [|lia]. rewrite Hn in Hk. by destruct Hk.
Qed.

(** Releasing the record with number [next_seq]. *)
Lemma released_frames_in f p f' :
  frames_in f → pending f !! next_seq f = Some p →
  advance (mkFrames (next_seq f) (delete (next_seq f) (pending f)) (pending_bytes f - byte_count p)) = Some f' →
  frames_in f' ∧ next_seq f' = (next_seq f + 1)%N ∧ pending f' = delete (next_seq f) (pending f).
Proof.
  intros (Hw & Ht & Hb & Hn) Hp Hadv. unfold advance in Hadv. cbn [next_seq pending pending_bytes] in Hadv.
  destruct (N.ltb_spec (next_seq f) U32_MAX); [|done]. apply (inj Some) in Hadv. subst f'.
  pose proof (total_delete _ _ _ Hp). split; [|done]. split; [|split; [|split]]; cbn; [|lia..].
  intros k Hk. destruct (decide (k = next_seq f)) as [->|Hne].
  - rewrite lookup_delete_eq in Hk. by destruct Hk.
  - rewrite lookup_delete_ne in Hk by congruence. pose proof (Hw k Hk). lia.
Qed.

Lemma known_release f out p f' k :
  length out = N.to_nat (next_seq f) → pending f !! next_seq f = Some p →
  next_seq f' = (next_seq f + 1)%N → pending f' = delete (next_seq f) (pending f) →
  known f' (out ++ [p]) k = known f out k.
Proof.
  intros Hl Hp Hn Hd. unfold known. rewrite Hn, Hd.
  destruct (N.ltb_spec k (next_seq f)), (N.ltb_spec k (next_seq f + 1)); try lia.
  - apply lookup_app_l. lia.
  - assert (k = next_seq f) as -> by lia. by rewrite <- Hl, list_lookup_middle.
  - apply lookup_delete_ne. lia.
Qed.

(** The loop releases exactly the contiguous run: what is known does not
    change, and nothing that could be released stays behind. *)
Lemma release_loop_spec : ∀ fuel f ready f' o out,
  frames_in f → size (pending f) ≤ fuel → length out + length ready = N.to_nat (next_seq f) →
  release_loop fuel f ready = (f', o) →
  o = Failed msg_exhausted ∨
  ∃ more, o = Done (ready ++ more) ∧ frames_ok f' ∧
    length (out ++ ready ++ more) = N.to_nat (next_seq f') ∧
    ∀ k, known f' (out ++ ready ++ more) k = known f (out ++ ready) k.
Proof.
  induction fuel as [|fuel IH]; intros f ready f' o out Hin Hs Hl Hrun.
  - cbn [release_loop] in Hrun. injection Hrun as <- <-. right. exists []. rewrite !app_nil_r.
    assert (pending f = ∅) as He by (apply map_size_empty_iff; lia).
    split_and!; [done|split; [done|by rewrite He]|by rewrite length_app|done].
  - cbn [release_loop] in Hrun. destruct (pending f !! next_seq f) as [p|] eqn:Hp.
    + pose proof Hin as (_ & Ht & _). pose proof (total_delete _ _ _ Hp).
      destruct (N.leb_spec (byte_count p) (pending_bytes f)); [|lia].
      destruct (advance _) as [f2|] eqn:Hadv; [|injection Hrun as <- <-; by left].
      destruct (released_frames_in _ _ _ Hin Hp Hadv) as (Hin2 & Hn2 & Hp2).
      apply (IH _ _ _ _ out) in Hrun as [?|(more & -> & Hok & Hlen & Hk)]; [by left| |done| |].
      * right. exists (p :: more). rewrite <- !(assoc_L (++)) in *. cbn [app] in *.
        split_and!; [done..|]. intros k. rewrite Hk, (assoc_L (++)).
        apply known_release; [rewrite length_app; lia|done..].
      * rewrite Hp2, map_size_delete_Some by eauto. lia.
      * rewrite length_app, Hn2. cbn [length]. lia.
    + injection Hrun as <- <-. right. exists []. rewrite !app_nil_r.
      split_and!; [done|done|by rewrite length_app|done].
Qed.

(** [push] never panics; when it succeeds, the record is known unless one
    with its number was, and nothing else changes. *)
Lemma push_spec f seq p f' o out :
  frames_ok f → length out = N.to_nat (next_seq f) → push f seq p = (f', o) →
  match o with
  | Done ready => frames_ok f' ∧ length (out ++ ready) = N.to_nat (next_seq f') ∧
      ∀ k, known f' (out ++ ready) k =
        match known f out k with Some q => Some q | None => if decide (k = seq) then Some p else None end
  | Failed _ => True
  | Panic => False
  end.
Proof.
  intros Hok Hl Hrun. unfold push in Hrun. pose proof Hok as [Hin Hfree].
  pose proof (frames_ok_free f) as Hgt.
  destruct (_ || _) eqn:Hdup.
  { injection Hrun as <- <-. rewrite app_nil_r. split_and!; [done..|]. intros k.
    destruct (known f out k) eqn:Hkn; [done|]. destruct (decide (k = seq)) as [->|]; [|done]. exfalso.
    unfold known in Hkn. apply orb_true_iff in Hdup as [Hlt|Hpe%bool_decide_eq_true].
    - rewrite Hlt in Hkn. apply lookup_ge_None in Hkn. apply N.ltb_lt in Hlt. lia.
    - specialize (Hgt seq Hok Hpe). destruct (N.ltb_spec seq (next_seq f)); [lia|].
      rewrite Hkn in Hpe. by destruct Hpe. }
  apply orb_false_iff in Hdup as [Hlt%N.ltb_ge Hpe%bool_decide_eq_false].
  destruct (N.ltb_spec (next_seq f) seq) as [Hgap|Heq].
  - destruct (N.ltb_spec MAX_REORDER_DISTANCE (seq - next_seq f)); [by injection Hrun as <- <-|].
    destruct (N.ltb_spec MAX_PENDING_BYTES (pending_bytes f + byte_count p)); injection Hrun as <- <-; [done|].
    apply eq_None_not_Some in Hpe. destruct Hin as (Hw & Ht & Hb & Hn). rewrite app_nil_r.
    split; [split; [split; [|split; [|split]]|]|split].
    + cbn. intros k Hk. destruct (decide (k = seq)) as [->|]; [lia|].
      rewrite lookup_insert_ne in Hk by congruence. by apply Hw.
    + cbn. rewrite total_insert by done. lia.
    + cbn. lia.
    + done.
    + cbn. rewrite lookup_insert_ne by lia. done.
    + done.
    + intros k. unfold known. cbn. destruct (N.ltb_spec k (next_seq f)).
      * destruct (lookup_lt_is_Some_2 out (N.to_nat k)) as [q Hq]; [lia|]. by rewrite Hq.
      * destruct (decide (k = seq)) as [->|]; [by rewrite lookup_insert_eq, Hpe|].
        rewrite lookup_insert_ne by congruence. by destruct (pending f !! k).
  - assert (seq = next_seq f) as -> by lia.
    unfold advance in Hrun. destruct (N.ltb_spec (next_seq f) U32_MAX); [|by injection Hrun as <- <-].
    apply (release_loop_spec _ _ _ _ _ out) in Hrun as [->|(more & -> & Hok' & Hlen & Hk)]; [done| | |done|].
    + split_and!; [done..|]. intros k. rewrite Hk. unfold known. cbn.
      destruct (N.ltb_spec k (next_seq f)), (N.ltb_spec k (next_seq f + 1)); try lia.
      * rewrite lookup_app_l by lia. destruct (lookup_lt_is_Some_2 out (N.to_nat k)) as [q Hq]; [lia|]. by rewrite Hq.
      * assert (k = next_seq f) as -> by lia. rewrite <- Hl, list_lookup_middle, Hfree, decide_True by done. done.
      * rewrite decide_False by lia. by destruct (pending f !! k).
    + destruct Hin as (Hw & Ht & Hb & Hn). split; [|split; [|split]]; cbn; [|lia..].
      intros k Hk. pose proof (Hgt k Hok Hk). pose proof (Hw k Hk). lia.
    + cbn. lia.
Qed.

(** ** A stream of records *)

(** The receive loop of a stream stops at the first error. *)
Fixpoint run_frames (f : OrderedCiphertextFrames) (records : list (N * bytes)) :
    OrderedCiphertextFrames * list bytes * outcome rstr () :=
  match records with
  | [] => (f, [], Done ())
  | (seq, payload) :: rest =>
      match push f seq payload with
      | (f', Done ready) => let '(f'', more, o) := run_frames f' rest in (f'', ready ++ more, o)
      | (f', Failed e) => (f', [], Failed e)
      | (f', Panic) => (f', [], Panic)
      end
  end.

(** The reference: the first copy of every record. *)
Fixpoint first_copy (records : list (N * bytes)) (k : N) : option bytes :=
  match records with
  | [] => None
  | (seq, payload) :: rest => if decide (k = seq) then Some payload else first_copy rest k
  end.

Definition orElse {A} (a b : option A) : option A := match a with Some _ => a | None => b end.

Lemma run_frames_spec : ∀ records f out f' more o,
  frames_ok f → length out = N.to_nat (next_seq f) → run_frames f records = (f', more, o) →
  o ≠ Panic ∧ (∀ k p, (out ++ more) !! k = Some p →
    orElse (known f out (N.of_nat k)) (first_copy records (N.of_nat k)) = Some p) ∧
  (o = Done () → frames_ok f' ∧ length (out ++ more) = N.to_nat (next_seq f') ∧
    ∀ k, known f' (out ++ more) k = orElse (known f out k) (first_copy records k)).
Proof.
  induction records as [|[seq p] rest IH]; intros f out f' more o Hok Hl Hrun; cbn [run_frames] in Hrun.
  - injection Hrun as <- <- <-. rewrite app_nil_r. split_and!; [done| |].
    + intros k q Hk. pose proof (lookup_lt_Some _ _ _ Hk). unfold known.
      destruct (N.ltb_spec (N.of_nat k) (next_seq f)); [|lia]. by rewrite Nat2N.id, Hk.
    + intros _. split_and!; [done..|]. intros k. by destruct (known f out k).
  - destruct (push f seq p) as [f1 o1] eqn:Hpush. pose proof (push_spec _ _ _ _ _ _ Hok Hl Hpush) as Hspec.
    assert (∀ k q, out !! k = Some q → known f out (N.of_nat k) = Some q) as Hout.
    { intros k q Hk. pose proof (lookup_lt_Some _ _ _ Hk). unfold known.
      destruct (N.ltb_spec (N.of_nat k) (next_seq f)); [|lia]. by rewrite Nat2N.id. }
    destruct o1 as [ready|e|]; [|injection Hrun as <- <- <-|done].
    + destruct (run_frames f1 rest) as [[f2 more2] o2] eqn:Hrest. injection Hrun as <- <- <-.
      destruct Hspec as (Hok1 & Hl1 & Hk1).
      destruct (IH _ _ _ _ _ Hok1 Hl1 Hrest) as (Hnp & Hpre & Hdone). rewrite (assoc_L (++)).
      assert (∀ k, orElse (known f1 (out ++ ready) k) (first_copy rest k)
                 = orElse (known f out k) (first_copy ((seq, p) :: rest) k)) as Hstep.
      { intros k. rewrite Hk1. cbn [first_copy]. destruct (known f out k); [done|]. by destruct (decide (k = seq)). }
      split_and!; [done| |].
      * intros k q Hk. rewrite <- Hstep. by apply Hpre.
      * intros Ho. destruct (Hdone Ho) as (Hok2 & Hl2 & Hk2). split_and!; [done..|].
        intros k. by rewrite Hk2, Hstep.
    + split_and!; [done| |done]. intros k q. rewrite app_nil_r. intros Hk. by rewrite (Hout _ _ Hk).
Qed.

(** C35: Records handed to a stream in any order, with any duplicates, leave
    the reordering buffer in sequence: never a panic; the [k]-th payload
    released is the first copy received of record [k], also when an error
    (a gap, a full buffer) ends the stream; without an error everything up
    to the first missing record has been released, the records still held
    lie in the window after it, and their bytes are counted exactly and
    bounded. *)
Theorem reordering_correct (records : list (N * bytes)) :
  let '(f, released, o) := run_frames frames_default records in
  o ≠ Panic ∧
  (∀ k p, released !! k = Some p → first_copy records (N.of_nat k) = Some p) ∧
  (o = Done () →
     frames_ok f ∧ first_copy records (N.of_nat (length released)) = None ∧
     next_seq f = N.of_nat (length released) ∧
     ∀ k, (N.of_nat (length released) ≤ k)%N → pending f !! k = first_copy records k).
Proof.
  destruct (run_frames frames_default records) as [[f released] o] eqn:Hrun.
  destruct (run_frames_spec records frames_default [] f released o) as (Hnp & Hpre & Hdone);
    [apply frames_default_ok|done|done|].
  assert (∀ k, known frames_default [] k = None) as Hempty.
  { intros k. unfold known. cbn [next_seq frames_default]. destruct (N.ltb_spec k 0); [lia|]. apply lookup_empty. }
  split_and!; [done| |].
  - intros k p Hk. specialize (Hpre k p Hk). by rewrite Hempty in Hpre.
  - intros Ho. destruct (Hdone Ho) as (Hok & Hl & Hk). cbn [app] in *.
    assert (next_seq f = N.of_nat (length released)) as Hn by lia. rewrite <- Hn.
    assert (∀ k, (next_seq f ≤ k)%N → pending f !! k = first_copy records k) as Hpend.
    { intros k Hge. specialize (Hk k). rewrite Hempty in Hk. unfold known in Hk.
      destruct (N.ltb_spec k (next_seq f)); [lia|done]. }
    split_and!; [done| |done|done]. rewrite <- Hpend by lia. apply Hok.
Qed.
