(* ===== verification/Framing.v ===== *)
(** * Messages inside relay records

    [exec-server/src/noise_relay/message_framing.rs] and
    [client_inbound_request_limit.rs]: a message is framed by its length in
    four big-endian bytes, the framed bytes are cut into records, and the
    decoder reassembles the messages from the decrypted records. *)

From stdpp Require Import pretty.
From S2P Require Import Prelude RustStr OrderedFrames.

Open Scope N_scope.

Definition LENGTH_PREFIX_BYTES : N := 4.
Definition MAX_NOISE_JSONRPC_MESSAGE_LEN : N := 67108864.
Definition NOISE_RECORD_PLAINTEXT_LEN : N := 61440.

Definition msg_too_long : rstr := $"Noise relay JSON-RPC message exceeds maximum length".
Definition msg_record_too_long : rstr := $"Noise relay plaintext record exceeds maximum length".
Definition msg_invalid_length : rstr := $"Noise relay JSON-RPC message has invalid length".
Definition msg_reassembly_full : rstr := $"Noise relay JSON-RPC reassembly buffer exceeds maximum length".

(** [u32::to_be_bytes], [u32::from_be_bytes]. *)
Definition u32_to_be_bytes (n : N) : bytes :=
  [n / 16777216 mod 256; n / 65536 mod 256; n / 256 mod 256; n mod 256].
Definition u32_from_be_bytes (a b c d : N) : N := a * 16777216 + b * 65536 + c * 256 + d.

Definition message_length_prefix (message_len : N) : result rstr bytes :=
  if (message_len =? 0) || (MAX_NOISE_JSONRPC_MESSAGE_LEN <? message_len)
  then Err msg_too_long else Ok (u32_to_be_bytes (message_len mod 4294967296)).

Definition frame_message (message : bytes) : result rstr bytes :=
  prefix ← message_length_prefix (byte_count message);
  Ok (prefix ++ message).

(** ** [MessageDecoder] *)

(** The [while let] loop and the check behind it: the rest of the buffer and
    the complete messages. *)
Fixpoint decode_loop (fuel : nat) (buffered : bytes) (messages : list bytes) :
    bytes * result rstr (list bytes) :=
  let after_loop :=
    if LENGTH_PREFIX_BYTES + MAX_NOISE_JSONRPC_MESSAGE_LEN <? byte_count buffered
    then (buffered, Err msg_reassembly_full) else (buffered, Ok messages) in
  match fuel, buffered with
  | S fuel', a :: b :: c :: d :: rest =>
      let message_len := u32_from_be_bytes a b c d in
      if (message_len =? 0) || (MAX_NOISE_JSONRPC_MESSAGE_LEN <? message_len)
      then (buffered, Err msg_invalid_length)
      else
        let framed_len := LENGTH_PREFIX_BYTES + message_len in
        if byte_count buffered <? framed_len then after_loop
        else decode_loop fuel' (drop (N.to_nat message_len) rest)
               (messages ++ [take (N.to_nat message_len) rest])
  | _, _ => after_loop
  end.

(** Every iteration consumes more than the prefix. *)
Definition decoder_push (buffered plaintext_record : bytes) : bytes * result rstr (list bytes) :=
  if NOISE_RECORD_PLAINTEXT_LEN <? byte_count plaintext_record
  then (buffered, Err msg_record_too_long)
  else
    let buffered := buffered ++ plaintext_record in
    decode_loop (length buffered) buffered [].

Close Scope N_scope.

(** Records up to the first error. *)
Fixpoint run_decoder (buffered : bytes) (records : list bytes) : bytes * list bytes * result rstr () :=
  match records with
  | [] => (buffered, [], Ok ())
  | r :: rest =>
      match decoder_push buffered r with
      | (buffered, Ok messages) =>
          let '(b, more, o) := run_decoder buffered rest in (b, messages ++ more, o)
      | (buffered, Err e) => (buffered, [], Err e)
      end
  end.

(** [slice::chunks]. *)
Fixpoint chunks_loop (fuel n : nat) (l : bytes) : list bytes :=
  match fuel, l with
  | S fuel', _ :: _ => take n l :: chunks_loop fuel' n (drop n l)
  | _, _ => []
  end.
Definition chunks (n : nat) (l : bytes) : list bytes := chunks_loop (length l) n l.

(** ** JSON-RPC *)

Definition MAX_CLIENT_INBOUND_REQUEST_LEN : N := 8192%N.
Definition MAX_HTTP_BODY_DELTA_BYTES : N := 1048576%N.
Definition MAX_CLIENT_INBOUND_NOTIFICATION_LEN : N := (2 * MAX_HTTP_BODY_DELTA_BYTES)%N.
Definition EXEC_OUTPUT_DELTA_METHOD : rstr := $"process/output".
Definition EXEC_EXITED_METHOD : rstr := $"process/exited".
Definition EXEC_CLOSED_METHOD : rstr := $"process/closed".
Definition HTTP_REQUEST_BODY_DELTA_METHOD : rstr := $"http/request/bodyDelta".

Definition msg_limit (max_len : N) : rstr :=
  $"Noise relay JSON-RPC message exceeds maximum length of " ++ str (pretty max_len) ++ $" bytes".

(** [JSONRPCMessage] of [exec-server-protocol]: the method of a notification
    decides its limit; the remaining fields are opaque. *)
Inductive JSONRPCMessage (body : Type) :=
| JRequest (b : body)
| JNotification (method : rstr) (b : body)
| JResponse (b : body)
| JError (b : body).
Arguments JRequest {body}. Arguments JNotification {body}.
Arguments JResponse {body}. Arguments JError {body}.

Section json.
(** [serde_json] on messages. *)
Context {body : Type} (to_writer : JSONRPCMessage body → result rstr bytes)
  (from_slice : bytes → result rstr (JSONRPCMessage body)).

Definition frame_jsonrpc_message (message : JSONRPCMessage body) : result rstr bytes :=
  encoded ← to_writer message;
  prefix ← message_length_prefix (byte_count encoded);
  Ok (prefix ++ encoded).

Definition json_push (buffered plaintext_record : bytes) :
    bytes * result rstr (list (JSONRPCMessage body)) :=
  match decoder_push buffered plaintext_record with
  | (buffered, Ok messages) => (buffered, mapM from_slice messages)
  | (buffered, Err e) => (buffered, Err e)
  end.

(** The notifications that may be large. *)
Definition is_large_notification (method : rstr) : bool :=
  bool_decide (method ∈ [EXEC_OUTPUT_DELTA_METHOD; EXEC_EXITED_METHOD; EXEC_CLOSED_METHOD;
                         HTTP_REQUEST_BODY_DELTA_METHOD]).

Definition client_inbound_message_exceeded_limit
    (message : result rstr (JSONRPCMessage body)) (encoded_len max_request_len : N) : option N :=
  let check max_len := if (max_len <? encoded_len)%N then Some max_len else None in
  match message with
  | Ok (JNotification method _) =>
      check (if is_large_notification method then MAX_CLIENT_INBOUND_NOTIFICATION_LEN
             else max_request_len)
  | Ok (JRequest _) | Err _ => check max_request_len
  | Ok (JResponse _) | Ok (JError _) => None
  end.

(** One message of [ClientJsonRpcMessageDecoder::push], limit first. *)
Definition client_message (encoded : bytes) : result rstr (JSONRPCMessage body) :=
  let message := from_slice encoded in
  match client_inbound_message_exceeded_limit message (byte_count encoded)
          MAX_CLIENT_INBOUND_REQUEST_LEN with
  | Some max_len => Err (msg_limit max_len)
  | None => message
  end.

(** A short record that starts a buffer cannot complete a large message. *)
Definition client_push (buffered plaintext_record : bytes) :
    bytes * result rstr (list (JSONRPCMessage body)) :=
  if is_empty buffered && (byte_count plaintext_record <=? MAX_CLIENT_INBOUND_REQUEST_LEN)%N
  then json_push buffered plaintext_record
  else
    match decoder_push buffered plaintext_record with
    | (buffered, Ok messages) => (buffered, mapM client_message messages)
    | (buffered, Err e) => (buffered, Err e)
    end.
End json.

(** ** Lemmas *)

Lemma byte_count_app (a b : bytes) : byte_count (a ++ b) = (byte_count a + byte_count b)%N.
Proof. unfold byte_count. rewrite length_app. lia. Qed.

Lemma byte_count_nat (a : bytes) : N.to_nat (byte_count a) = length a.
Proof. unfold byte_count. lia. Qed.

Lemma u32_be_roundtrip n : (n < 4294967296)%N →
  u32_from_be_bytes (n / 16777216 mod 256) (n / 65536 mod 256) (n / 256 mod 256) (n mod 256) = n.
Proof.
  intros Hn. unfold u32_from_be_bytes.
  replace (n / 65536)%N with (n / 256 / 256)%N by by rewrite N.Div0.div_div.
  replace (n / 16777216)%N with (n / 256 / 256 / 256)%N by by rewrite !N.Div0.div_div.
  pose proof (N.div_mod n 256 ltac:(done)). pose proof (N.div_mod (n / 256) 256 ltac:(done)).
  pose proof (N.div_mod (n / 256 / 256) 256 ltac:(done)).
  assert (n / 256 / 256 / 256 < 256)%N by (rewrite !N.Div0.div_div; apply N.Div0.div_lt_upper_bound; exact Hn).
  rewrite (N.mod_small (n / 256 / 256 / 256)) by done. lia.
Qed.

(** The frame of a message that [frame_message] accepts. *)
Definition framed (m : bytes) : bytes := u32_to_be_bytes (byte_count m) ++ m.

Definition fits (m : bytes) : Prop := (0 < byte_count m ≤ MAX_NOISE_JSONRPC_MESSAGE_LEN)%N.

Lemma frame_message_ok m f : frame_message m = Ok f ↔ fits m ∧ f = framed m.
Proof.
  unfold frame_message, message_length_prefix, fits, framed.
  destruct (N.eqb_spec (byte_count m) 0), (N.ltb_spec MAX_NOISE_JSONRPC_MESSAGE_LEN (byte_count m));
    cbn [orb]; (split; [|intros [? ->]]); cbn; try done; try lia.
  - intros [= <-]. rewrite (N.mod_small (byte_count m)) by (unfold MAX_NOISE_JSONRPC_MESSAGE_LEN in *; lia).
    split; [lia|done].
  - by rewrite (N.mod_small (byte_count m)) by (unfold MAX_NOISE_JSONRPC_MESSAGE_LEN in *; lia).
Qed.

Lemma framed_length m : byte_count (framed m) = (LENGTH_PREFIX_BYTES + byte_count m)%N.
Proof. unfold framed. rewrite byte_count_app. done. Qed.

Lemma app_eq_le {A} (a b c d : list A) :
  a ++ b = c ++ d → length c ≤ length a → ∃ k, a = c ++ k ∧ d = k ++ b.
Proof.
  intros H Hl. exists (drop (length c) a). apply (f_equal (take (length c))) in H as Ht.
  rewrite take_app_le, take_app_length in Ht by done. split; [by rewrite <- Ht at 1; rewrite take_drop|].
  apply (f_equal (drop (length c))) in H. by rewrite drop_app_le, drop_app_length in H.
Qed.

(** One step of the loop on a whole frame, and on the beginning of one. *)
Lemma decode_loop_frame fuel m k msgs : fits m →
  decode_loop (S fuel) (framed m ++ k) msgs = decode_loop fuel k (msgs ++ [m]).
Proof.
  intros [Hpos Hmax]. unfold framed, u32_to_be_bytes. cbn [app decode_loop].
  rewrite u32_be_roundtrip by (unfold MAX_NOISE_JSONRPC_MESSAGE_LEN in *; lia).
  rewrite (proj2 (N.eqb_neq _ _)), (proj2 (N.ltb_ge _ _)) by lia. cbn [orb].
  rewrite (proj2 (N.ltb_ge _ _)).
  2:{ unfold byte_count, LENGTH_PREFIX_BYTES.
      cbn [length]. rewrite length_app. lia. }
  by rewrite byte_count_nat, take_app_length, drop_app_length.
Qed.

Lemma decode_loop_partial fuel m buf rest msgs : fits m →
  buf ++ rest = framed m → (byte_count buf < byte_count (framed m))%N →
  decode_loop fuel buf msgs = (buf, Ok msgs).
Proof.
  intros [Hpos Hmax] Heq Hlt. rewrite framed_length in Hlt.
  assert ((LENGTH_PREFIX_BYTES + MAX_NOISE_JSONRPC_MESSAGE_LEN <? byte_count buf)%N = false) as Hb
    by (apply N.ltb_ge; lia).
  destruct fuel as [|fuel]; cbn [decode_loop]; rewrite Hb; [done|].
  destruct buf as [|a [|b [|c [|d buf]]]]; [done..|]. unfold framed, u32_to_be_bytes in Heq.
  cbn [app] in Heq. injection Heq as -> -> -> -> Heq.
  rewrite u32_be_roundtrip by (unfold MAX_NOISE_JSONRPC_MESSAGE_LEN in *; lia).
  by rewrite (proj2 (N.eqb_neq _ _)), (proj2 (N.ltb_ge _ _)), (proj2 (N.ltb_lt _ _)) by lia.
Qed.

(** The loop on a buffer that starts with whole frames takes them; the fuel
    covers them. *)
Lemma decode_loop_frames : ∀ todo fuel buf rest msgs,
  Forall fits todo → buf ++ rest = concat (framed <$> todo) → length buf ≤ fuel →
  ∃ got left buf', todo = got ++ left ∧ decode_loop fuel buf msgs = (buf', Ok (msgs ++ got)) ∧
    buf = concat (framed <$> got) ++ buf' ∧ buf' ++ rest = concat (framed <$> left) ∧
    from_option (λ m, byte_count buf' < byte_count (framed m))%N (buf' = []) (head left).
Proof.
  induction todo as [|m todo IH]; intros fuel buf rest msgs Hfit Heq Hfuel.
  - apply app_nil in Heq as [-> ->]. exists [], [], []. rewrite (app_nil_r msgs).
    split_and!; [done|by destruct fuel|done..].
  - apply Forall_cons in Hfit as [Hm Hfit]. cbn [fmap list_fmap concat] in Heq.
    destruct (decide (byte_count (framed m) ≤ byte_count buf)%N) as [Hge|Hlt].
    + apply app_eq_le in Heq as (k & -> & Hk); [|unfold byte_count in Hge; lia].
      rewrite length_app in Hfuel. destruct fuel as [|fuel]; [by cbn in Hfuel; lia|].
      destruct (IH fuel k rest (msgs ++ [m])) as (got & left & buf' & -> & Hrun & -> & Hr & Hh);
        [done|by rewrite Hk|cbn in Hfuel; lia|].
      exists (m :: got), left, buf'. rewrite decode_loop_frame, Hrun by done. cbn [fmap list_fmap concat].
      by rewrite <- !(assoc_L (++)).
    + exists [], (m :: todo), buf. rewrite (app_nil_r msgs). split_and!; [done| |done|done|cbn [head from_option]; lia].
      destruct (app_eq_le (framed m) (concat (framed <$> todo)) buf rest) as (k & Hk & _); [done| |].
      { unfold byte_count in Hlt. lia. }
      apply (decode_loop_partial _ m _ k); [done..|lia].
Qed.

Definition record_fits (r : bytes) : Prop := (byte_count r ≤ NOISE_RECORD_PLAINTEXT_LEN)%N.

Lemma run_decoder_frames : ∀ records todo buf rest,
  Forall fits todo → Forall record_fits records →
  from_option (λ m, byte_count buf < byte_count (framed m))%N (buf = []) (head todo) →
  buf ++ concat records ++ rest = concat (framed <$> todo) →
  ∃ got left buf', todo = got ++ left ∧ run_decoder buf records = (buf', got, Ok ()) ∧
    buf ++ concat records = concat (framed <$> got) ++ buf' ∧ buf' ++ rest = concat (framed <$> left) ∧
    from_option (λ m, byte_count buf' < byte_count (framed m))%N (buf' = []) (head left).
Proof.
  induction records as [|r records IH]; intros todo buf rest Hfit Hrec Hb Heq.
  - exists [], todo, buf. cbn in *. by rewrite app_nil_r.
  - apply Forall_cons in Hrec as [Hr Hrec]. cbn [concat] in Heq.
    destruct (decode_loop_frames todo (length (buf ++ r)) (buf ++ r) (concat records ++ rest) [] Hfit)
      as (got & left & buf' & -> & Hrun & Hb1 & Hr1 & Hh1); [by rewrite <- !(assoc_L (++)) in *|done|].
    apply Forall_app in Hfit as [_ Hfit].
    destruct (IH left buf' rest Hfit Hrec Hh1 Hr1) as (got2 & left2 & buf2 & -> & Hrun2 & Hb2 & Hr2 & Hh2).
    exists (got ++ got2), left2, buf2. cbn [run_decoder]. unfold decoder_push.
    rewrite (proj2 (N.ltb_ge _ _)) by exact Hr. rewrite Hrun, Hrun2. cbn [app concat].
    split_and!; [by rewrite (assoc_L (++))|done| |done..].
    by rewrite (assoc_L (++)), Hb1, <- (assoc_L (++)), Hb2, fmap_app, concat_app, (assoc_L (++)).
Qed.

(** C36: However the framed messages of a sender are cut into records, and
    wherever the stream of records stops, the decoder has delivered exactly
    the messages that arrived completely, unchanged and in order, and holds
    the beginning of the next frame; its buffer and its final check cannot
    fail on such input. *)
Theorem framing_roundtrip (messages frames records : list bytes) (rest : bytes)
    (Hframes : mapM frame_message messages = Ok frames) (Hrecords : Forall record_fits records)
    (Hcut : concat records ++ rest = concat frames) :
  ∃ delivered pending buffered,
    messages = delivered ++ pending ∧ run_decoder [] records = (buffered, delivered, Ok ()) ∧
    concat records = concat (framed <$> delivered) ++ buffered ∧
    match pending with
    | [] => buffered = []
    | m :: _ => (byte_count buffered < LENGTH_PREFIX_BYTES + byte_count m)%N
    end.
Proof.
  assert (Forall fits messages ∧ frames = framed <$> messages) as [Hfit ->].
  { clear Hcut. revert frames Hframes. induction messages as [|m ms IH]; intros frames Hf; cbn in Hf.
    { by injection Hf as <-. }
    destruct (frame_message m) as [f|e] eqn:Hm; cbn in Hf; [|done]. apply frame_message_ok in Hm as [Hm ->].
    destruct (mapM frame_message ms) as [fs|e] eqn:Hms; cbn in Hf; [|done]. injection Hf as <-.
    destruct (IH fs eq_refl) as [Hfit ->]. by split; [constructor|]. }
  destruct (run_decoder_frames records messages [] rest) as (got & left & buf & -> & Hrun & Hb & Hr & Hh);
    [done|done|destruct messages as [|m ?]; [done|]; cbn [head from_option]; rewrite framed_length; change (byte_count []) with 0%N; unfold LENGTH_PREFIX_BYTES; lia|done|].
  exists got, left, buf. split_and!; [done..|]. destruct left; cbn [head from_option] in Hh; [done|by rewrite framed_length in Hh].
Qed.

Lemma framing_roundtrip_witness :
  let m1 := [104; 105]%N in let m2 := [111; 107; 33]%N in
  ∃ delivered pending buffered,
    [m1; m2] = delivered ++ pending ∧
    run_decoder [] [[0; 0; 0]; [2; 104; 105; 0; 0; 0; 3]; [111]]%N = (buffered, delivered, Ok ()) ∧
    concat [[0; 0; 0]; [2; 104; 105; 0; 0; 0; 3]; [111]]%N = concat (framed <$> delivered) ++ buffered ∧
    match pending with
    | [] => buffered = []
    | m :: _ => (byte_count buffered < LENGTH_PREFIX_BYTES + byte_count m)%N
    end.
Proof.
  apply (framing_roundtrip _ [[0; 0; 0; 2; 104; 105]; [0; 0; 0; 3; 111; 107; 33]]%N _ [107; 33]%N);
    [reflexivity| |reflexivity].
  apply (bool_decide_unpack _). vm_compute. exact I.
Defined.

(** ** Arbitrary input *)

Definition is_byte (b : N) : Prop := (b < 256)%N.

Lemma u32_be_of_from a b c d : is_byte a → is_byte b → is_byte c → is_byte d →
  u32_to_be_bytes (u32_from_be_bytes a b c d) = [a; b; c; d].
Proof.
  unfold is_byte, u32_to_be_bytes, u32_from_be_bytes. intros Ha Hb Hc Hd.
  set (n := (a * 16777216 + b * 65536 + c * 256 + d)%N).
  assert (n / 256 = a * 65536 + b * 256 + c)%N as H1 by (symmetry; apply (N.div_unique _ _ _ d); lia).
  assert (n / 65536 = a * 256 + b)%N as H2 by (symmetry; apply (N.div_unique _ _ _ (c * 256 + d)); lia).
  assert (n / 16777216 = a)%N as H3
    by (symmetry; apply (N.div_unique _ _ _ (b * 65536 + c * 256 + d)); lia).
  rewrite H1, H2, H3. f_equal; [by rewrite N.mod_small|].
  f_equal; [symmetry; apply (N.mod_unique _ _ a); lia|].
  f_equal; [symmetry; apply (N.mod_unique _ _ (a * 256 + b)); lia|].
  f_equal. symmetry. apply (N.mod_unique _ _ (a * 65536 + b * 256 + c)); lia.
Qed.

(** The stream [s] continues with the header of no message. *)
Definition bad_header (s : bytes) : Prop :=
  ∃ a b c d tail, s = a :: b :: c :: d :: tail ∧
    ¬ (0 < u32_from_be_bytes a b c d ≤ MAX_NOISE_JSONRPC_MESSAGE_LEN)%N.

(** Whatever the buffer holds, the loop delivers whole frames and stops
    before an incomplete frame or at a bad header. *)
Lemma decode_loop_sound : ∀ fuel buf msgs buf' o,
  Forall is_byte buf → length buf ≤ fuel → decode_loop fuel buf msgs = (buf', o) →
  ∃ got, buf = concat (framed <$> got) ++ buf' ∧ Forall fits got ∧
    match o with
    | Ok out => out = msgs ++ got ∧
        (byte_count buf' < LENGTH_PREFIX_BYTES + MAX_NOISE_JSONRPC_MESSAGE_LEN)%N
    | Err e => e = msg_invalid_length ∧ bad_header buf'
    end.
Proof.
  assert (∀ buf (msgs : list bytes) buf' o,
    (byte_count buf < LENGTH_PREFIX_BYTES + MAX_NOISE_JSONRPC_MESSAGE_LEN)%N →
    (if LENGTH_PREFIX_BYTES + MAX_NOISE_JSONRPC_MESSAGE_LEN <? byte_count buf
     then (buf, Err msg_reassembly_full) else (buf, Ok msgs))%N = (buf', o) →
    buf' = buf ∧ o = Ok msgs) as Hafter.
  { intros buf msgs buf' o Hlt. rewrite (proj2 (N.ltb_ge _ _)) by lia. by intros [= <- <-]. }
  assert (∀ buf (msgs : list bytes) buf' o, length buf < 4 →
    (if LENGTH_PREFIX_BYTES + MAX_NOISE_JSONRPC_MESSAGE_LEN <? byte_count buf
     then (buf, Err msg_reassembly_full) else (buf, Ok msgs))%N = (buf', o) →
    ∃ got, buf = concat (framed <$> got) ++ buf' ∧ Forall fits got ∧
      match o with
      | Ok out => out = msgs ++ got ∧
          (byte_count buf' < LENGTH_PREFIX_BYTES + MAX_NOISE_JSONRPC_MESSAGE_LEN)%N
      | Err e => e = msg_invalid_length ∧ bad_header buf'
      end) as Hshort.
  { intros buf msgs buf' o Hl H.
    assert (byte_count buf < LENGTH_PREFIX_BYTES + MAX_NOISE_JSONRPC_MESSAGE_LEN)%N
      by (unfold byte_count, LENGTH_PREFIX_BYTES; lia).
    apply Hafter in H as [-> ->]; [|done]. exists []. by rewrite app_nil_r. }
  induction fuel as [|fuel IH]; intros buf msgs buf' o Hbytes Hfuel Hrun.
  - apply (Hshort buf msgs); [lia|by destruct buf].
  - destruct buf as [|a [|b [|c [|d rest]]]]; [apply (Hshort _ msgs); [cbn; lia|done]..|].
    cbn [decode_loop] in Hrun. apply Forall_cons in Hbytes as [Ha Hbytes].
    apply Forall_cons in Hbytes as [Hb Hbytes]. apply Forall_cons in Hbytes as [Hc Hbytes].
    apply Forall_cons in Hbytes as [Hd Hbytes].
    set (n := u32_from_be_bytes a b c d) in *.
    destruct ((n =? 0) || (MAX_NOISE_JSONRPC_MESSAGE_LEN <? n))%N eqn:Hn.
    { injection Hrun as <- <-. exists []. split_and!; [done..|]. exists a, b, c, d, rest. split; [done|].
      fold n. apply orb_true_iff in Hn as [?%N.eqb_eq|?%N.ltb_lt]; lia. }
    apply orb_false_iff in Hn as [Hn0%N.eqb_neq Hnmax%N.ltb_ge].
    destruct (N.ltb_spec (byte_count (a :: b :: c :: d :: rest)) (LENGTH_PREFIX_BYTES + n)) as [Hlt|Hge].
    { apply Hafter in Hrun as [-> ->]; [|lia]. exists []. rewrite app_nil_r. split_and!; [done..|lia]. }
    assert (N.to_nat n ≤ length rest) as Hle by (unfold byte_count, LENGTH_PREFIX_BYTES in Hge; cbn in Hge; lia).
    apply IH in Hrun as (got & Heq & Hfit & Ho); [|by apply Forall_drop|rewrite length_drop; cbn in Hfuel; lia].
    assert (byte_count (take (N.to_nat n) rest) = n) as Hcount
      by (unfold byte_count; rewrite length_take_le by done; lia).
    exists (take (N.to_nat n) rest :: got). split_and!.
    + cbn [fmap list_fmap concat]. rewrite <- (assoc_L (++)), <- Heq. unfold framed. rewrite Hcount. unfold n.
      rewrite u32_be_of_from by done. cbn [app]. by rewrite take_drop.
    + constructor; [unfold fits; rewrite Hcount; lia|done].
    + destruct o; [|done]. destruct Ho as [-> Ho]. split; [by rewrite <- (assoc_L (++))|done].
Qed.

(** Whatever bytes a peer sends, the decoder delivers only messages of
    legal length that are framed in the stream, in order; without an error
    the stream is those frames followed by the buffer, which stays below one
    frame of maximal size; the only errors are an oversized record and a
    length outside the limits right after the frames decoded so far. *)
Theorem decoder_bounded (records : list bytes) (Hbytes : Forall is_byte (concat records)) :
  let '(buffered, messages, o) := run_decoder [] records in
  Forall fits messages ∧
  match o with
  | Ok _ => concat records = concat (framed <$> messages) ++ buffered ∧
      (byte_count buffered < LENGTH_PREFIX_BYTES + MAX_NOISE_JSONRPC_MESSAGE_LEN)%N
  | Err e =>
      (e = msg_record_too_long ∧ Exists (λ r, ¬ record_fits r) records) ∨
      (e = msg_invalid_length ∧ ∃ seen later lost, records = seen ++ later ∧
         concat seen = concat (framed <$> messages ++ lost) ++ buffered ∧ bad_header buffered)
  end.
Proof.
  assert (∀ records buf, Forall is_byte (buf ++ concat records) →
    (byte_count buf < LENGTH_PREFIX_BYTES + MAX_NOISE_JSONRPC_MESSAGE_LEN)%N →
    let '(buffered, messages, o) := run_decoder buf records in
    Forall fits messages ∧
    match o with
    | Ok _ => buf ++ concat records = concat (framed <$> messages) ++ buffered ∧
        (byte_count buffered < LENGTH_PREFIX_BYTES + MAX_NOISE_JSONRPC_MESSAGE_LEN)%N
    | Err e =>
        (e = msg_record_too_long ∧ Exists (λ r, ¬ record_fits r) records) ∨
        (e = msg_invalid_length ∧ ∃ seen later lost, records = seen ++ later ∧
           buf ++ concat seen = concat (framed <$> messages ++ lost) ++ buffered ∧ bad_header buffered)
    end) as Hgen; [|apply (Hgen records []); [done|by vm_compute]].
  clear. induction records as [|r records IH]; intros buf Hbytes Hbuf; cbn [run_decoder].
  { split; [done|]. split; [by rewrite app_nil_r|done]. }
  unfold decoder_push. destruct (N.ltb_spec NOISE_RECORD_PLAINTEXT_LEN (byte_count r)) as [Hr|Hr].
  { split; [done|]. left. split; [done|]. constructor. unfold record_fits. lia. }
  cbn [concat] in Hbytes. rewrite (assoc_L (++)) in Hbytes.
  destruct (decode_loop _ _ _) as [buf1 o1] eqn:Hloop.
  apply decode_loop_sound in Hloop as (got & Heq & Hfit & Ho); [|by apply Forall_app in Hbytes as [? _]|done].
  destruct o1 as [out|e].
  - destruct Ho as [-> Hb1]. cbn [app]. specialize (IH buf1).
    destruct (run_decoder buf1 records) as [[buf2 more] o2].
    destruct IH as [Hfit2 IH]; [|done|].
    { rewrite Heq, <- (assoc_L (++)) in Hbytes. by apply Forall_app in Hbytes as [_ ?]. }
    split; [by apply Forall_app|]. cbn [concat].
    destruct o2 as [?|e2]; [|destruct IH as [[-> Hex]|(-> & seen & later & lost & -> & Hs & Hbad)]].
    + destruct IH as [Hs Hb2]. split; [|done].
      by rewrite (assoc_L (++)), Heq, <- (assoc_L (++)), Hs, fmap_app, concat_app, (assoc_L (++)).
    + left. split; [done|by constructor].
    + right. split; [done|]. exists (r :: seen), later, lost. split_and!; [done| |done]. cbn [concat].
      by rewrite (assoc_L (++)), Heq, <- (assoc_L (++)), Hs, <- (assoc_L (++)), (fmap_app _ got), concat_app, (assoc_L (++)).
  - destruct Ho as [-> Hbad]. split; [done|]. right. split; [done|]. exists [r], records, got.
    cbn [concat app]. by rewrite app_nil_r.
Qed.

Lemma decoder_bounded_witness :
  Forall is_byte (concat [[0; 0; 0; 1; 65; 0; 0]; [0; 0; 7]]%N) ∧
  let '(buffered, messages, o) := run_decoder [] [[0; 0; 0; 1; 65; 0; 0]; [0; 0; 7]]%N in
  Forall fits messages ∧
  match o with
  | Ok _ => concat [[0; 0; 0; 1; 65; 0; 0]; [0; 0; 7]]%N = concat (framed <$> messages) ++ buffered ∧
      (byte_count buffered < LENGTH_PREFIX_BYTES + MAX_NOISE_JSONRPC_MESSAGE_LEN)%N
  | Err e =>
      (e = msg_record_too_long ∧ Exists (λ r, ¬ record_fits r) [[0; 0; 0; 1; 65; 0; 0]; [0; 0; 7]]%N) ∨
      (e = msg_invalid_length ∧ ∃ seen later lost, [[0; 0; 0; 1; 65; 0; 0]; [0; 0; 7]]%N = seen ++ later ∧
         concat seen = concat (framed <$> messages ++ lost) ++ buffered ∧ bad_header buffered)
  end.
Proof.
  assert (Forall is_byte (concat [[0; 0; 0; 1; 65; 0; 0]; [0; 0; 7]]%N)) as H
    by (apply (bool_decide_unpack _); vm_compute; exact I).
  split; [exact H|]. apply (decoder_bounded [[0; 0; 0; 1; 65; 0; 0]; [0; 0; 7]]%N), H.
Defined.

(** ** The client's short cut *)

Lemma decode_loop_small (l : N) : ∀ fuel buf msgs buf' out,
  (byte_count buf ≤ l)%N → Forall (λ m, byte_count m ≤ l)%N msgs →
  decode_loop fuel buf msgs = (buf', Ok out) → Forall (λ m, byte_count m ≤ l)%N out.
Proof.
  induction fuel as [|fuel IH]; intros buf msgs buf' out Hbuf Hmsgs Hrun; cbn [decode_loop] in Hrun.
  - by case_hyp Hrun; simplify_eq.
  - destruct buf as [|a [|b [|c [|d rest]]]]; [by case_hyp Hrun; simplify_eq..|].
    destruct (_ || _); [done|]. destruct (_ <? _)%N; [by case_hyp Hrun; simplify_eq|].
    apply IH in Hrun; [done| |apply Forall_app; split; [done|constructor; [|done]]];
      unfold byte_count in *; cbn [length] in Hbuf; [rewrite length_drop|rewrite length_take]; lia.
Qed.

(** The client decoder skips the per-message limits for a short record
    that starts a fresh buffer, and this is no loophole: it is equal, in
    state, messages and errors, to the decoder that checks every message. *)
Theorem client_short_cut_sound {body : Type}
    (from_slice : bytes → result rstr (JSONRPCMessage body)) (buffered plaintext_record : bytes) :
  client_push from_slice buffered plaintext_record =
  match decoder_push buffered plaintext_record with
  | (b, Ok messages) => (b, mapM (client_message from_slice) messages)
  | (b, Err e) => (b, Err e)
  end.
Proof.
  unfold client_push. destruct (_ && _) eqn:Hshort; [|done].
  apply andb_true_iff in Hshort as [->%is_empty_true Hlen%N.leb_le]. unfold json_push.
  destruct (decoder_push [] plaintext_record) as [b [out|e]] eqn:Hpush; [|done]. f_equal.
  unfold decoder_push in Hpush. destruct (_ <? _)%N; [done|].
  apply (decode_loop_small MAX_CLIENT_INBOUND_REQUEST_LEN) in Hpush; [|done|done].
  induction Hpush as [|m ms Hm Hms IH]; [done|]. cbn. rewrite IH.
  replace (client_message from_slice m) with (from_slice m); [done|]. unfold client_message.
  assert (∀ lim, (MAX_CLIENT_INBOUND_REQUEST_LEN ≤ lim)%N → (lim <? byte_count m)%N = false) as Hlim
    by (intros lim ?; apply N.ltb_ge; lia).
  unfold client_inbound_message_exceeded_limit.
  destruct (from_slice m) as [[| method ?| |]|]; try done; try (by rewrite Hlim).
  destruct (is_large_notification method); by rewrite Hlim.
Qed.
