(* ===== verification/NoiseStream.v ===== *)
(** * Encrypted virtual streams

    The record layer of [exec-server/src/noise_channel.rs], the two halves of
    a stream in [noise_relay/executor_stream.rs], and the handlers that own a
    stream ([noise_relay/stream_handler.rs], [forward.rs]).  The cipher is a
    class, its documented behaviour a class of laws; records on the wire are
    pairs of a sequence number and a ciphertext. *)

From S2P Require Import Prelude RustStr OrderedFrames Framing.

(** [noise_relay/mod.rs]: the sequence number and its successor. *)
Definition take_next_sequence (next_seq : N) : result rstr (N * N) :=
  if (next_seq <? U32_MAX)%N then Ok (next_seq, next_seq + 1)%N else Err msg_exhausted.

(** ** The transport *)

(** The AEAD cipher of an established channel in one direction, with its
    nonce as an argument. *)
Class NoiseCipher := {
  send_vec : N → bytes → result rstr bytes;
  receive_vec : N → bytes → result rstr bytes;
  tag_len : N;
  MAX_MESSAGE_LEN : N
}.

(** What an AEAD promises: opening inverts sealing, the tag has a fixed
    length; and a record of this protocol fits a message. *)
Class NoiseCipherLaws `{NoiseCipher} : Prop := {
  open_seal n p c : send_vec n p = Ok c → receive_vec n c = Ok p;
  seal_length n p c : send_vec n p = Ok c → byte_count c = (byte_count p + tag_len)%N;
  record_in_message : (NOISE_RECORD_PLAINTEXT_LEN + tag_len ≤ MAX_MESSAGE_LEN)%N
}.

(** [TransportState]: the implicit nonces. *)
Record NoiseTransport := mkTransport { send_nonce : N; receive_nonce : N }.

Definition msg_plaintext_large : rstr := $"invalid Noise channel message: transport plaintext is too large".
Definition msg_ciphertext_short : rstr := $"invalid Noise channel message: transport ciphertext is too short".
Definition msg_ciphertext_large : rstr := $"invalid Noise channel message: transport ciphertext is too large".
Definition msg_transport (e : rstr) : rstr := $"Noise channel transport failed: " ++ e.
Definition msg_decryption (e : rstr) : rstr := $"Noise relay decryption failed: " ++ e.
Definition msg_queue_full : rstr := $"Noise virtual stream inbound queue is full or closed".

Section transport.
Context `{NoiseCipher}.

Definition ensure_noise_frame_len (frame_len : N) (message : rstr) : result rstr () :=
  if (MAX_MESSAGE_LEN <? frame_len)%N then Err message else Ok ().

Definition encrypt (t : NoiseTransport) (plaintext : bytes) : result rstr (NoiseTransport * bytes) :=
  _ ← ensure_noise_frame_len (byte_count plaintext + tag_len) msg_plaintext_large;
  match send_vec (send_nonce t) plaintext with
  | Ok c => Ok (mkTransport (send_nonce t + 1) (receive_nonce t), c)
  | Err e => Err (msg_transport e)
  end.

Definition decrypt (t : NoiseTransport) (ciphertext : bytes) : result rstr (NoiseTransport * bytes) :=
  if (byte_count ciphertext <? tag_len)%N then Err msg_ciphertext_short
  else
    _ ← ensure_noise_frame_len (byte_count ciphertext) msg_ciphertext_large;
    match receive_vec (receive_nonce t) ciphertext with
    | Ok p => Ok (mkTransport (send_nonce t) (receive_nonce t + 1), p)
    | Err e => Err (msg_transport e)
    end.
End transport.

(** ** Handlers *)

(** The trait: [decode] on a received payload, [encode] to a framed one. *)
Class NoiseStreamHandler (Incoming Outgoing : Type) := {
  decode : bytes → result rstr Incoming;
  encode : Outgoing → result rstr bytes
}.

(** What a handler promises to the stream: it sends frames, and its peer
    understands them; [arrives] is what the peer sees of a message. *)
Class HandlerLaws {Incoming Outgoing} `{NoiseStreamHandler Incoming Outgoing}
    (arrives : Outgoing → Incoming) : Prop :=
  encode_decode o f : encode o = Ok f → ∃ p, frame_message p = Ok f ∧ decode p = Ok (arrives o).

(** [Forwarder] copies payloads. *)
Definition Forwarder : NoiseStreamHandler bytes bytes :=
  {| decode payload := Ok payload; encode payload := frame_message payload |}.
#[export] Existing Instance Forwarder.

#[export] Instance Forwarder_laws : HandlerLaws id.
Proof. intros o f Hf. by exists o. Qed.

(** [ConnectionProcessor] exchanges JSON-RPC messages; its laws rest on
    [serde_json] reading back what it writes. *)
Section processor.
Context {body : Type} (to_writer : JSONRPCMessage body → result rstr bytes)
  (from_slice : bytes → result rstr (JSONRPCMessage body)).

Definition ConnectionProcessor : NoiseStreamHandler (JSONRPCMessage body) (JSONRPCMessage body) :=
  {| decode := from_slice; encode := frame_jsonrpc_message to_writer |}.

Lemma ConnectionProcessor_laws :
  (∀ m e, to_writer m = Ok e → from_slice e = Ok m) →
  @HandlerLaws _ _ ConnectionProcessor id.
Proof.
  intros Hserde o f Hf. cbn in Hf. unfold frame_jsonrpc_message in Hf.
  destruct (to_writer o) as [e|] eqn:He; [|done]. cbn in Hf. exists e. split; [|by apply Hserde].
  unfold frame_message. exact Hf.
Qed.
End processor.

Definition CHANNEL_CAPACITY : nat := 128.

Record Writer := mkWriter { w_transport : NoiseTransport; w_next_seq : N }.

(** What happens to a stream: a record of the relay, and its handler, which
    takes messages or drops its end of the queue. *)
Inductive event :=
| Received (seq : N) (payload : bytes)
| HandlerTakes (n : nat)
| HandlerCloses.

Section stream.
Context {Incoming Outgoing : Type} `{NoiseStreamHandler Incoming Outgoing} `{NoiseCipher}.

(** ** The writer task *)

(** [accepts] tells whether the physical relay takes a record; the result
    is [false] after [break 'writer]. *)
Fixpoint write_records (accepts : N → bool) (w : Writer) (records : list bytes) :
    Writer * list (N * bytes) * bool :=
  match records with
  | [] => (w, [], true)
  | plaintext_record :: records =>
      match take_next_sequence (w_next_seq w) with
      | Err _ => (w, [], false)
      | Ok (seq, next_seq) =>
          match encrypt (w_transport w) plaintext_record with
          | Err _ => (mkWriter (w_transport w) next_seq, [], false)
          | Ok (transport, ciphertext) =>
              let w := mkWriter transport next_seq in
              if accepts seq then
                let '(w, wire, go) := write_records accepts w records in
                (w, (seq, ciphertext) :: wire, go)
              else (w, [], false)
          end
      end
  end.

(** The records put on the wire for each message. *)
Fixpoint write_messages (accepts : N → bool) (w : Writer) (messages : list Outgoing) :
    Writer * list (list (N * bytes)) * bool :=
  match messages with
  | [] => (w, [], true)
  | message :: messages =>
      match encode message with
      | Err _ => (w, [], false)
      | Ok framed =>
          let '(w, wire, go) :=
            write_records accepts w (chunks (N.to_nat NOISE_RECORD_PLAINTEXT_LEN) framed) in
          if go : bool then
            let '(w, wires, go) := write_messages accepts w messages in (w, wire :: wires, go)
          else (w, [wire], false)
      end
  end.

(** ** The reader *)

(** The inbound queue is a bounded channel; [queue_open] is false once the
    handler has dropped its end. *)
Record NoiseVirtualStream := mkStream {
  inbound_ciphertexts : OrderedCiphertextFrames;
  transport : NoiseTransport;
  inbound_decoder : bytes;
  queue : list Incoming;
  queue_open : bool
}.

Definition try_send (s : NoiseVirtualStream) (i : Incoming) : NoiseVirtualStream * result rstr () :=
  if queue_open s && bool_decide (length (queue s) < CHANNEL_CAPACITY)
  then (mkStream (inbound_ciphertexts s) (transport s) (inbound_decoder s) (queue s ++ [i])
          (queue_open s), Ok ())
  else (s, Err msg_queue_full).

(** The inner [for] loop. *)
Fixpoint deliver (s : NoiseVirtualStream) (messages : list bytes) : NoiseVirtualStream * result rstr () :=
  match messages with
  | [] => (s, Ok ())
  | m :: messages =>
      match decode m with
      | Err e => (s, Err e)
      | Ok i => match try_send s i with
                | (s, Ok _) => deliver s messages
                | (s, Err e) => (s, Err e)
                end
      end
  end.

(** The outer [for] loop. *)
Fixpoint process (s : NoiseVirtualStream) (ciphertexts : list bytes) :
    NoiseVirtualStream * result rstr () :=
  match ciphertexts with
  | [] => (s, Ok ())
  | c :: ciphertexts =>
      match decrypt (transport s) c with
      | Err e => (s, Err (msg_decryption e))
      | Ok (t, plaintext) =>
          let '(buffered, pushed) := decoder_push (inbound_decoder s) plaintext in
          let s := mkStream (inbound_ciphertexts s) t buffered (queue s) (queue_open s) in
          match pushed with
          | Err e => (s, Err e)
          | Ok messages =>
              match deliver s messages with
              | (s, Ok _) => process s ciphertexts
              | (s, Err e) => (s, Err e)
              end
          end
      end
  end.

Definition receive_data (s : NoiseVirtualStream) (seq : N) (payload : bytes) :
    NoiseVirtualStream * outcome rstr () :=
  let '(frames, pushed) := push (inbound_ciphertexts s) seq payload in
  let s := mkStream frames (transport s) (inbound_decoder s) (queue s) (queue_open s) in
  match pushed with
  | Failed e => (s, Failed e)
  | Panic => (s, Panic)
  | Done ciphertexts =>
      match process s ciphertexts with
      | (s, Ok _) => (s, Done ())
      | (s, Err e) => (s, Failed e)
      end
  end.

Definition new_stream : NoiseVirtualStream :=
  mkStream frames_default (mkTransport 0 0) [] [] true.
Definition new_writer : Writer := mkWriter (mkTransport 0 0) 0.

(** ** The life of a stream *)

(** A stream whose [receive_data] failed is removed; what its handler has
    taken and what still is in its queue remain. *)
Record Reader := mkReader {
  stream : NoiseVirtualStream;
  taken : list Incoming;
  alive : bool;
  panicked : bool
}.

Definition handler_step (r : Reader) (n : nat) (open : bool) : Reader :=
  let s := stream r in
  mkReader (mkStream (inbound_ciphertexts s) (transport s) (inbound_decoder s) (drop n (queue s))
              (queue_open s && open))
    (taken r ++ take n (queue s)) (alive r) (panicked r).

Definition reader_step (r : Reader) (e : event) : Reader :=
  match e with
  | HandlerTakes n => handler_step r n true
  | HandlerCloses => handler_step r 0 false
  | Received seq payload =>
      if alive r then
        let '(s, o) := receive_data (stream r) seq payload in
        mkReader s (taken r) (match o with Done _ => true | _ => false end)
          (panicked r || match o with Panic => true | _ => false end)
      else r
  end.

Definition run_reader (events : list event) : Reader :=
  foldl reader_step (mkReader new_stream [] true false) events.

Definition received (r : Reader) : list Incoming := taken r ++ queue (stream r).
End stream.
Arguments NoiseVirtualStream : clear implicits.
Arguments Reader : clear implicits.
