(* ===== verification/NoiseStreamFacts.v ===== *)
(** * Secure streams are reliable

    The writer of [NoiseStream] feeds the reader through a relay that nobody
    trusts: what the handler receives is a prefix of what its peer sent. *)

From S2P Require Import Prelude RustStr OrderedFrames Framing NoiseStream.

(** ** Chunks *)

Lemma chunks_loop_spec n : 0 < n → ∀ fuel l, length l ≤ fuel →
  concat (chunks_loop fuel n l) = l ∧ Forall (λ c, length c ≤ n) (chunks_loop fuel n l).
Proof.
  intros Hn. induction fuel as [|fuel IH]; intros l Hl; [by destruct l; cbn in *; [|lia]|].
  destruct l as [|x l]; [done|]. cbn [chunks_loop concat].
  destruct (IH (drop n (x :: l))) as [Hc Hf]; [rewrite length_drop; cbn in *; lia|].
  rewrite Hc, take_drop. split; [done|]. constructor; [rewrite length_take; lia|done].
Qed.

Lemma chunks_records f :
  concat (chunks (N.to_nat NOISE_RECORD_PLAINTEXT_LEN) f) = f ∧
  Forall record_fits (chunks (N.to_nat NOISE_RECORD_PLAINTEXT_LEN) f).
Proof.
  unfold chunks. destruct (chunks_loop_spec (N.to_nat NOISE_RECORD_PLAINTEXT_LEN) ltac:(unfold NOISE_RECORD_PLAINTEXT_LEN; lia) (length f) f)
    as [Hc Hf]; [done|]. split; [done|]. eapply Forall_impl; [exact Hf|].
  intros c Hl. unfold record_fits, byte_count. cbn beta in Hl. lia.
Qed.

Lemma run_decoder_snoc r : ∀ records b b1 ms, run_decoder b records = (b1, ms, Ok ()) →
  run_decoder b (records ++ [r]) =
  match decoder_push b1 r with
  | (b2, Ok ms2) => (b2, ms ++ ms2, Ok ())
  | (b2, Err e) => (b2, ms, Err e)
  end.
Proof.
  induction records as [|r0 records IH]; intros b b1 ms Hrun; cbn [run_decoder app] in *.
  - injection Hrun as <- <-. destruct (decoder_push b r) as [b2 [ms2|e]]; [by rewrite app_nil_r|done].
  - destruct (decoder_push b r0) as [b0 [ms0|e]]; [|done].
    destruct (run_decoder b0 records) as [[b' more] o] eqn:Hrest. injection Hrun as -> <- ->.
    rewrite (IH _ _ _ Hrest). destruct (decoder_push b1 r) as [b2 [ms2|e]]; [by rewrite (assoc_L (++))|done].
Qed.

(** Nothing is left of a stream of whole frames. *)
Lemma whole_frames left b :
  b ++ [] = concat (framed <$> left) →
  from_option (λ m, byte_count b < byte_count (framed m))%N (b = []) (head left) → left = [] ∧ b = [].
Proof.
  rewrite app_nil_r. intros Hrest Hh. destruct left as [|m left]; [done|]. exfalso.
  cbn [head from_option fmap list_fmap concat] in Hh, Hrest.
  apply (f_equal length) in Hrest. rewrite length_app in Hrest. unfold byte_count in Hh. lia.
Qed.

Section stream.
Context {Incoming Outgoing : Type} (arrives : Outgoing → Incoming)
  `{Hhandler : HandlerLaws Incoming Outgoing arrives} `{Hcipher : NoiseCipherLaws}.

(** ** What the writer puts on the wire *)

(** [wire] is the sealed form of [records], numbered from [s]. *)
Fixpoint sealed_from (s : N) (records : list bytes) (wire : list (N * bytes)) : Prop :=
  match records, wire with
  | [], [] => True
  | p :: records, (n, c) :: wire => n = s ∧ send_vec s p = Ok c ∧ sealed_from (s + 1) records wire
  | _, _ => False
  end.

Lemma sealed_length s records wire : sealed_from s records wire → length wire = length records.
Proof.
  revert s wire. induction records as [|p records IH]; intros s [|[n c] wire]; cbn; try done.
  intros (_ & _ & Hs). by rewrite (IH _ _ Hs).
Qed.

Lemma sealed_app s r1 w1 r2 w2 :
  sealed_from s r1 w1 → sealed_from (s + N.of_nat (length r1)) r2 w2 → sealed_from s (r1 ++ r2) (w1 ++ w2).
Proof.
  revert s w1. induction r1 as [|p r1 IH]; intros s [|[n c] w1]; cbn [sealed_from length app]; try done.
  - intros _. by rewrite N.add_0_r.
  - intros (-> & Hp & Hs) H2. split_and!; [done..|]. apply IH; [done|].
    by replace (s + 1 + N.of_nat (length r1))%N with (s + N.of_nat (S (length r1)))%N by lia.
Qed.

Lemma sealed_lookup s records wire i n c :
  sealed_from s records wire → wire !! i = Some (n, c) →
  n = (s + N.of_nat i)%N ∧ ∃ p, records !! i = Some p ∧ send_vec n p = Ok c.
Proof.
  revert s wire i. induction records as [|p records IH]; intros s [|[n' c'] wire] i; cbn [sealed_from]; try done.
  intros (-> & Hp & Hs) Hi. destruct i as [|i]; cbn in Hi.
  - injection Hi as <- <-. split; [lia|]. by exists p.
  - destruct (IH _ _ _ Hs Hi) as [-> ?]. split; [lia|done].
Qed.

(** The writer's nonce is the sequence number of the next record. *)
Definition in_step (w : Writer) : Prop := send_nonce (w_transport w) = w_next_seq w.

Lemma write_records_sealed accepts : ∀ records w w' wire go,
  in_step w → write_records accepts w records = (w', wire, go) →
  ∃ done rest, records = done ++ rest ∧ sealed_from (w_next_seq w) done wire ∧
    (go = true → rest = [] ∧ in_step w' ∧ w_next_seq w' = (w_next_seq w + N.of_nat (length done))%N).
Proof.
  induction records as [|p records IH]; intros w w' wire go Hin Hrun; cbn [write_records] in Hrun.
  { injection Hrun as <- <- <-. exists [], []. split_and!; [done..|]. intros _. split_and!; [done..|cbn; lia]. }
  assert (∀ w0, (w0, [], false) = (w', wire, go) →
    ∃ done rest, p :: records = done ++ rest ∧ sealed_from (w_next_seq w) done wire ∧
    (go = true → rest = [] ∧ in_step w' ∧ w_next_seq w' = (w_next_seq w + N.of_nat (length done))%N)) as Hstop.
  { intros w0 [= <- <- <-]. by exists [], (p :: records). }
  unfold take_next_sequence in Hrun. destruct (N.ltb_spec (w_next_seq w) U32_MAX); [|by eapply Hstop].
  destruct (encrypt (w_transport w) p) as [[t c]|e] eqn:He; [|by eapply Hstop].
  destruct (accepts (w_next_seq w)); [|by eapply Hstop].
  destruct (write_records _ _ records) as [[w1 wire1] go1] eqn:Hrest. injection Hrun as <- <- <-.
  unfold encrypt in He. destruct (ensure_noise_frame_len _ _) as [[]|]; cbn in He; [|done].
  destruct (send_vec (send_nonce (w_transport w)) p) as [c'|] eqn:Hc; [|done]. injection He as <- <-.
  apply IH in Hrest as (dn & rest & -> & Hs & Hgo); [|unfold in_step in *; cbn; lia].
  cbn [w_next_seq] in *. exists (p :: dn), rest. rewrite Hin in Hc. split_and!; [done..|].
  intros Hg. destruct (Hgo Hg) as (-> & Hin' & ->). split_and!; [done..|]. cbn [length]. lia.
Qed.

(** What [write_messages] sends of [messages]. *)
Record sent (s : N) (messages : list Outgoing) (wire : list (N * bytes)) (go : bool)
    (payloads records : list bytes) (tail : bytes) : Prop := {
  sent_messages : ∃ sent_os rest_os, messages = sent_os ++ rest_os ∧ (go = true → rest_os = []) ∧
    Forall2 (λ o p, fits p ∧ decode p = Ok (arrives o)) sent_os payloads;
  sent_records : Forall record_fits records;
  sent_bytes : concat records ++ tail = concat (framed <$> payloads);
  sent_all : go = true → tail = [];
  sent_sealed : sealed_from s records wire
}.

Lemma write_messages_sent accepts : ∀ messages w w' wires go,
  in_step w → write_messages accepts w messages = (w', wires, go) →
  ∃ payloads records tail, sent (w_next_seq w) messages (concat wires) go payloads records tail.
Proof.
  induction messages as [|o messages IH]; intros w w' wires go Hin Hrun; cbn [write_messages] in Hrun.
  { injection Hrun as <- <- <-. exists [], [], []. constructor; try done. by exists [], []. }
  destruct (encode o) as [f|e] eqn:Ho.
  2:{ injection Hrun as <- <- <-. exists [], [], []. constructor; try done. by exists [], (o :: messages). }
  destruct (encode_decode _ _ Ho) as (p & [Hfits ->]%frame_message_ok & Hdec).
  destruct (chunks_records (framed p)) as [Hcat Hrec].
  destruct (write_records _ _ _) as [[w1 wire] go1] eqn:Hw.
  apply write_records_sealed in Hw as (dn & rest & Hchunks & Hs & Hgo); [|done].
  rewrite Hchunks in Hcat, Hrec. rewrite concat_app in Hcat. apply Forall_app in Hrec as [Hrec _].
  destruct go1.
  - destruct (Hgo eq_refl) as (-> & Hin1 & Hn1). destruct (write_messages accepts w1 messages) as [[w2 wires2] go2] eqn:Hm.
    injection Hrun as <- <- <-. destruct (IH _ _ _ _ Hin1 Hm) as (payloads & records & tail & Hsent).
    destruct Hsent as [(sos & ros & -> & Hros & Hall) Hrecs Hb Ht Hseal]. exists (p :: payloads), (dn ++ records), tail.
    rewrite app_nil_r in Hcat. constructor; try done.
    + exists (o :: sos), ros. split_and!; [done..|]. by constructor.
    + by apply Forall_app.
    + cbn [fmap list_fmap concat]. by rewrite concat_app, <- (assoc_L (++)), Hb, Hcat.
    + cbn [concat]. apply sealed_app; [done|]. by rewrite Hn1 in Hseal.
  - injection Hrun as <- <- <-. exists [p], dn, (concat rest). cbn [concat]. rewrite !app_nil_r.
    constructor; try done; [|by cbn; rewrite app_nil_r]. exists [o], messages. split_and!; [done..|]. constructor; [by split|constructor].
Qed.

(** ** What the reader makes of it *)

(** Only the peer can seal: a record that opens under some nonce is the
    one the peer sealed with that nonce. *)
Definition authentic (wire : list (N * bytes)) (c : bytes) : Prop :=
  ∀ n p, receive_vec n c = Ok p → wire !! N.to_nat n = Some (n, c).

Definition decoded (messages : list bytes) (log : list Incoming) : Prop :=
  Forall2 (λ m i, decode m = Ok i) messages log.

Context (records : list bytes) (wire : list (N * bytes)) (Hsealed : sealed_from 0 records wire)
  (Hprogress : ∀ n, ∃ b got, run_decoder [] (take n records) = (b, got, Ok ())).

(** After [n] records the stream has decoded exactly those records. *)
Record aligned (s : NoiseVirtualStream Incoming) (taken : list Incoming) (n : nat) : Prop := {
  al_nonce : receive_nonce (transport s) = N.of_nat n;
  al_bound : n ≤ length records;
  al_log : ∃ got, run_decoder [] (take n records) = (inbound_decoder s, got, Ok ()) ∧
    decoded got (taken ++ queue s)
}.

Definition partial (log : list Incoming) : Prop :=
  ∃ n b got k, run_decoder [] (take n records) = (b, got, Ok ()) ∧ decoded (take k got) log.

Lemma aligned_partial s tk n : aligned s tk n → partial (tk ++ queue s).
Proof.
  intros [_ _ (got & Hrun & Hd)]. exists n, (inbound_decoder s), got, (length got).
  by rewrite firstn_all.
Qed.

Lemma deliver_spec : ∀ messages (s s' : NoiseVirtualStream Incoming) o, deliver s messages = (s', o) →
  ∃ k del, s' = mkStream (inbound_ciphertexts s) (transport s) (inbound_decoder s) (queue s ++ del) (queue_open s) ∧
    decoded (take k messages) del ∧ (o = Ok () → k = length messages).
Proof.
  induction messages as [|m messages IH]; intros s s' o Hrun; cbn [deliver] in Hrun.
  { injection Hrun as <- <-. exists 0, []. rewrite app_nil_r. destruct s. split_and!; [done|constructor|done]. }
  assert (∀ e, (s, Err e) = (s', o) →
    ∃ k del, s' = mkStream (inbound_ciphertexts s) (transport s) (inbound_decoder s) (queue s ++ del) (queue_open s) ∧
    decoded (take k (m :: messages)) del ∧ (o = Ok () → k = length (m :: messages))) as Hstop.
  { intros e [= <- <-]. exists 0, []. rewrite app_nil_r. destruct s. split_and!; [done|constructor|done]. }
  destruct (decode m) as [i|e] eqn:Hm; [|by eapply Hstop].
  unfold try_send in Hrun. destruct (_ && _); [|by eapply Hstop].
  apply IH in Hrun as (k & del & -> & Hd & Ho). cbn. exists (S k), (i :: del).
  rewrite <- (assoc_L (++)). split_and!; [done|by constructor|]. intros Hok. by rewrite (Ho Hok).
Qed.

Lemma process_spec tk : ∀ cts s n s' o,
  aligned s tk n → Forall (authentic wire) cts → process s cts = (s', o) →
  inbound_ciphertexts s' = inbound_ciphertexts s ∧ queue_open s' = queue_open s ∧
  match o with
  | Ok _ => aligned s' tk (n + length cts)
  | Err _ => partial (tk ++ queue s')
  end.
Proof.
  induction cts as [|c cts IH]; intros s n s' o Hal Hauth Hrun; cbn [process] in Hrun.
  { injection Hrun as <- <-. split_and!; [done..|]. cbn [length]. by rewrite Nat.add_0_r. }
  apply Forall_cons in Hauth as [Hc Hauth].
  destruct (decrypt (transport s) c) as [[t p]|e] eqn:Hdec.
  2:{ injection Hrun as <- <-. split_and!; [done..|]. by eapply aligned_partial. }
  unfold decrypt in Hdec. destruct (_ <? _)%N; [done|].
  destruct (ensure_noise_frame_len _ _) as [[]|]; cbn in Hdec; [|done].
  destruct (receive_vec _ c) as [p'|] eqn:Hopen; [|done]. injection Hdec as <- <-.
  destruct Hal as [Hnonce Hbound (got & Hdone & Hlog)]. rewrite Hnonce in *.
  apply Hc in Hopen as Hwire. rewrite Nat2N.id in Hwire.
  destruct (sealed_lookup _ _ _ _ _ _ Hsealed Hwire) as (_ & p & Hp & Hseal).
  apply open_seal in Hseal. rewrite Hopen in Hseal. injection Hseal as ->.
  destruct (Hprogress (S n)) as (b1 & got1 & Hrun1). rewrite (take_S_r _ _ _ Hp) in Hrun1.
  rewrite (run_decoder_snoc _ _ _ _ _ Hdone) in Hrun1.
  destruct (decoder_push (inbound_decoder s) p) as [b2 [ms2|e]] eqn:Hpush; [|done]. injection Hrun1 as -> <-.
  pose proof (run_decoder_snoc p _ _ _ _ Hdone) as Hnext. rewrite Hpush, <- (take_S_r _ _ _ Hp) in Hnext.
  destruct (deliver _ ms2) as [s2 o2] eqn:Hdel.
  apply deliver_spec in Hdel as (k & del & -> & Hd & Ho). cbn in Hrun.
  assert (decoded (take (length got + k) (got ++ ms2)) (tk ++ queue s ++ del)) as Hlog2.
  { rewrite take_app_add', (assoc_L (++)) by done. by apply Forall2_app. }
  destruct o2 as [[]|e].
  - rewrite (Ho eq_refl) in *. apply (IH _ (S n)) in Hrun as (-> & -> & Hspec); cbn; [| |done].
    + split_and!; [done..|]. cbn [length]. by rewrite Nat.add_succ_r in *.
    + constructor; cbn; [lia|apply lookup_lt_Some in Hp; lia|]. exists (got ++ ms2). split; [done|].
      by rewrite take_ge in Hlog2 by (rewrite length_app; lia).
  - injection Hrun as <- <-. split_and!; [done..|]. cbn. by exists (S n), b1, (got ++ ms2), (length got + k).
Qed.

(** The reader between two events, after the records [seen]. *)
Record sound (r : Reader Incoming) (seen : list event) : Prop := {
  so_panic : panicked r = false;
  so_dead : partial (received r);
  so_alive : alive r = true → ∃ out,
    frames_ok (inbound_ciphertexts (stream r)) ∧
    length out = N.to_nat (next_seq (inbound_ciphertexts (stream r))) ∧
    aligned (stream r) (taken r) (length out) ∧
    (∀ k c, known (inbound_ciphertexts (stream r)) out k = Some c → authentic wire c) ∧
    (∀ seq c, Received seq c ∈ seen → is_Some (known (inbound_ciphertexts (stream r)) out seq))
}.

Definition event_authentic (e : event) : Prop :=
  match e with Received _ c => authentic wire c | _ => True end.

Lemma sound_new : sound (mkReader new_stream [] true false) [].
Proof.
  assert (aligned new_stream [] 0) as Hal.
  { constructor; [done|lia|]. exists []. by split; [|constructor]. }
  constructor; [done|by eapply aligned_partial in Hal|]. intros _. exists []. split_and!; try done.
  - apply frames_default_ok.
  - intros k c. unfold known. cbn. destruct (N.ltb_spec k 0); [lia|]. by rewrite lookup_empty.
  - intros seq c Hin. by apply elem_of_nil in Hin.
Qed.

Lemma handler_step_sound r seen n open e : (∀ seq c, e ≠ Received seq c) →
  sound r seen → sound (handler_step r n open) (seen ++ [e]).
Proof.
  intros He [Hp Hd Ha]. assert (received (handler_step r n open) = received r) as Hrec.
  { unfold received, handler_step. cbn. by rewrite <- (assoc_L (++)), take_drop. }
  constructor; [done|by rewrite Hrec|]. intros Hal. destruct (Ha Hal) as (out & Hok & Hl & Halign & Hk & Hs).
  exists out. cbn. split_and!; try done.
  - destruct Halign as [Hn Hb (got & Hrun & Hlog)]. constructor; cbn; try done. exists got. split; [done|].
    by rewrite <- (assoc_L (++)), take_drop.
  - intros seq c Hin. apply elem_of_app in Hin as [Hin|Hin%list_elem_of_singleton]; [by eapply Hs|].
    by destruct (He seq c).
Qed.

Lemma reader_step_sound r seen e :
  event_authentic e → sound r seen → sound (reader_step r e) (seen ++ [e]).
Proof.
  intros He Hr. destruct e as [seq c|n|]; cbn [reader_step]; [|by apply handler_step_sound..].
  pose proof Hr as [Hp Hd Ha]. destruct (alive r) eqn:Hal; [|by constructor; [..|rewrite Hal]].
  destruct (Ha eq_refl) as (out & Hok & Hl & Halign & Hk & Hs). unfold receive_data.
  destruct (push (inbound_ciphertexts (stream r)) seq c) as [f o] eqn:Hpush.
  pose proof (push_spec _ _ _ _ _ _ Hok Hl Hpush) as Hspec.
  destruct o as [ready|e|]; [|by constructor; cbn; [rewrite Hp|..]|done].
  destruct Hspec as (Hok' & Hl' & Hk').
  assert (∀ k c', known f (out ++ ready) k = Some c' → authentic wire c') as Hauth.
  { intros k c'. rewrite Hk'. destruct (known _ out k) eqn:Hkn; [intros [= <-]; by eapply Hk|].
    destruct (decide (k = seq)); [|done]. by intros [= <-]. }
  set (s1 := mkStream f _ _ _ _) in *. destruct (process s1 ready) as [s2 o2] eqn:Hproc.
  apply (process_spec (taken r) _ _ (length out)) in Hproc as (Hf & _ & Hspec).
  - destruct o2 as [[]|e]; (constructor; cbn; [by rewrite Hp| |]); [by eapply aligned_partial in Hspec| |done..].
    intros _. exists (out ++ ready). rewrite Hf. cbn. rewrite length_app. rewrite length_app in Hl'.
    split_and!; try done. intros seq' c' Hin. rewrite Hk'.
    apply elem_of_app in Hin as [Hin|Hin%list_elem_of_singleton].
    + destruct (Hs _ _ Hin) as [q Hq]. by rewrite Hq.
    + injection Hin as -> ->. destruct (known _ out seq); [done|]. by rewrite decide_True.
  - destruct Halign as [Hn Hb Hlog]. by constructor.
  - apply Forall_forall. intros c' [i Hi]%list_elem_of_lookup.
    apply (Hauth (N.of_nat (length out + i))). unfold known.
    rewrite length_app in Hl'. apply lookup_lt_Some in Hi as Hlt.
    rewrite (proj2 (N.ltb_lt _ _)) by lia. rewrite Nat2N.id. by rewrite lookup_app_r, Nat.add_sub_swap, Nat.sub_diag by lia.
Qed.

Lemma run_reader_sound events : Forall event_authentic events → sound (run_reader events) events.
Proof.
  intros Hauth. unfold run_reader.
  assert (∀ later seen r, Forall event_authentic later → sound r seen →
    sound (foldl reader_step r later) (seen ++ later)) as Hgen.
  { induction later as [|e later IH]; intros seen r Hl Hr; [by rewrite app_nil_r|].
    apply Forall_cons in Hl as [He Hl]. cbn [foldl].
    rewrite (app_assoc seen [e] later : seen ++ e :: later = _). apply IH; [done|].
    by apply reader_step_sound. }
  apply (Hgen events []); [done|apply sound_new].
Qed.
End stream.

(** ** The two halves together *)

Section claims.
Context {Incoming Outgoing : Type} (arrives : Outgoing → Incoming)
  `{Hhandler : HandlerLaws Incoming Outgoing arrives} `{Hcipher : NoiseCipherLaws}.

(** What was decoded from a prefix of the payloads is a prefix of what was sent. *)
Lemma decoded_prefix sos payloads got left k log :
  Forall2 (λ o p, fits p ∧ decode p = Ok (arrives o)) sos payloads →
  payloads = got ++ left → decoded (take k got) log →
  ∃ j, log = arrives <$> take j sos ∧ (left = [] → length got ≤ k → log = arrives <$> sos).
Proof.
  intros Hall -> Hlog. assert (∀ os ps log', Forall2 (λ o p, fits p ∧ decode p = Ok (arrives o)) os ps →
    decoded ps log' → log' = arrives <$> os) as Hfun.
  { clear. intros os ps log' Hall. revert log'. induction Hall as [|o p os ps [_ Ho] Hall IH]; intros log' Hlog.
    - by inversion Hlog.
    - inversion Hlog as [|? i ? rest Hi Hrest]; subst. rewrite Ho in Hi. injection Hi as <-. cbn. by rewrite (IH rest). }
  apply Forall2_app_inv_r in Hall as (os1 & os2 & H1 & H2 & ->). exists (min k (length os1)). split.
  - rewrite take_app_le by lia. apply (Hfun _ (take k got)); [|done].
    rewrite (Forall2_length _ _ _ H1). replace (take k got) with (take (min k (length got)) got).
    + by apply Forall2_take.
    + destruct (decide (k ≤ length got)); [by rewrite Nat.min_l by lia|].
      by rewrite Nat.min_r, firstn_all, take_ge by lia.
  - intros -> Hk. inversion H2; subst. rewrite app_nil_r. apply (Hfun _ got); [done|]. by rewrite take_ge in Hlog.
Qed.

(** The decoder on the first [n] records of a sender. *)
Lemma sent_decodes s messages wire go payloads records tail n :
  sent arrives s messages wire go payloads records tail →
  ∃ b got left, run_decoder [] (take n records) = (b, got, Ok ()) ∧ payloads = got ++ left ∧
    (length records ≤ n → tail = [] → left = []).
Proof.
  intros [(sos & ros & -> & Hros & Hall) Hrec Hbytes Htail Hseal].
  assert (Forall fits payloads) as Hfits.
  { clear -Hall. induction Hall as [|o p ? ? [? ?]]; by constructor. }
  destruct (run_decoder_frames (take n records) payloads [] (concat (drop n records) ++ tail))
    as (got & left & b & Heq & Hr & Hb & Hrest & Hh); [done|by apply Forall_take| | |].
  - destruct payloads; [done|]. cbn [head from_option]. rewrite framed_length.
    change (byte_count []) with 0%N. unfold LENGTH_PREFIX_BYTES. lia.
  - cbn [app]. rewrite <- Hbytes, (assoc_L (++)), <- concat_app, take_drop. done.
  - exists b, got, left. split_and!; [done..|]. intros Hn ->.
    rewrite drop_ge in Hrest by done. by apply whole_frames in Hrest as [? _].
Qed.

(** C33: The untrusted relay between two peers may drop, repeat, reorder,
    renumber, truncate and invent records; as long as it cannot forge
    ciphertexts, what a handler receives is at every moment a prefix of
    what its peer sent, whatever the queue, the relay and the peer's writer
    do, and nothing panics.  If the stream is still alive and some record
    arrived under every number the peer used, the prefix is everything. *)
Theorem stream_delivers_prefix (accepts : N → bool) (messages : list Outgoing) (events : list event)
    (Hauthentic : Forall (event_authentic
      (concat (write_messages accepts new_writer messages).1.2)) events) :
  let '(_, wires, complete) := write_messages accepts new_writer messages in
  let r := run_reader events in
  panicked r = false ∧ (∃ k, received r = arrives <$> take k messages) ∧
  (complete = true → alive r = true →
   (∀ seq, (seq < N.of_nat (length (concat wires)))%N → ∃ c, Received seq c ∈ events) →
   received r = arrives <$> messages).
Proof.
  destruct (write_messages accepts new_writer messages) as [[w wires] go] eqn:Hw. cbn in Hauthentic.
  destruct (write_messages_sent arrives _ _ _ _ _ _ (eq_refl : in_step new_writer) Hw)
    as (payloads & records & tail & Hsent).
  pose proof (λ n, sent_decodes _ _ _ _ _ _ _ n Hsent) as Hrun.
  destruct Hsent as [(sos & ros & -> & Hros & Hall) _ _ Htail Hseal].
  assert (∀ n, ∃ b got, run_decoder [] (take n records) = (b, got, Ok ())) as Hprog.
  { intros n. destruct (Hrun n) as (b & got & _ & ? & _). eauto. }
  destruct (run_reader_sound records (concat wires) Hseal Hprog events Hauthentic) as [Hp Hd Ha].
  split_and!; [done| |].
  - destruct Hd as (n & b & got & k & Hr & Hk). destruct (Hrun n) as (b' & got' & left & Hr' & Heq & _).
    rewrite Hr in Hr'. injection Hr' as <- <-.
    destruct (decoded_prefix _ _ _ _ _ _ Hall Heq Hk) as (j & -> & _). exists (min j (length sos)).
    rewrite take_app_le by lia. destruct (decide (j ≤ length sos)); [by rewrite Nat.min_l|].
    by rewrite Nat.min_r, firstn_all, take_ge by lia.
  - intros -> Halive Hall_in. destruct (Ha Halive) as (out & [Hin Hfree] & Hl & [_ Hb (got & Hr & Hg)] & _ & Hknown).
    destruct (Hrun (length out)) as (b & got' & left & Hr' & Heq & Hleft). rewrite Hr in Hr'. injection Hr' as <- <-.
    assert (length records ≤ length out) as Hge.
    { destruct (decide (length records ≤ length out)); [done|]. exfalso.
      destruct (Hall_in (N.of_nat (length out))) as [c Hc]; [rewrite (sealed_length _ _ _ Hseal); lia|].
      apply Hknown in Hc as [q Hq]. unfold known in Hq. rewrite Hl, N2Nat.id, N.ltb_irrefl in Hq. by rewrite Hfree in Hq. }
    rewrite <- (firstn_all got) in Hg. destruct (decoded_prefix _ _ _ _ _ _ Hall Heq Hg) as (j & _ & Hlog).
    rewrite Hros, app_nil_r by done. by apply Hlog; [apply Hleft, Htail|].
Qed.
End claims.

(** ** Progress *)

Section progress.
Context {Incoming Outgoing : Type} (arrives : Outgoing → Incoming)
  `{Hhandler : HandlerLaws Incoming Outgoing arrives} `{Hcipher : NoiseCipherLaws}.

(** The stream expects record [n] and holds nothing back. *)
Record expects (s : NoiseVirtualStream Incoming) (n : N) : Prop := {
  ex_frames : inbound_ciphertexts s = mkFrames n ∅ 0;
  ex_nonce : receive_nonce (transport s) = n;
  ex_open : queue_open s = true
}.

Lemma deliver_ok : ∀ messages got (s : NoiseVirtualStream Incoming), decoded messages got → queue_open s = true →
  length (queue s) + length got ≤ CHANNEL_CAPACITY →
  deliver s messages = (mkStream (inbound_ciphertexts s) (transport s) (inbound_decoder s)
    (queue s ++ got) (queue_open s), Ok ()).
Proof.
  induction messages as [|m messages IH]; intros got s Hd Ho Hl; inversion Hd as [|? i ? rest Hm Hrest]; subst.
  - cbn. rewrite app_nil_r. by destruct s.
  - cbn [deliver length] in *. rewrite Hm. unfold try_send. rewrite Ho. rewrite bool_decide_true by lia. cbn [andb].
    rewrite (IH rest) by (cbn; rewrite ?length_app; cbn; done || lia). cbn. by rewrite <- (assoc_L (++)).
Qed.

Lemma receive_expected s n p c b ms got :
  expects s n → (n < U32_MAX)%N → send_vec n p = Ok c → record_fits p →
  decoder_push (inbound_decoder s) p = (b, Ok ms) → decoded ms got →
  length (queue s) + length got ≤ CHANNEL_CAPACITY →
  ∃ s', receive_data s n c = (s', Done ()) ∧ expects s' (n + 1) ∧
    inbound_decoder s' = b ∧ queue s' = queue s ++ got.
Proof.
  intros [Hf Hn Ho] Hlt Hc Hp Hpush Hd Hq. apply open_seal in Hc as Hopen. apply seal_length in Hc as Hlen.
  pose proof record_in_message as Hmax. unfold record_fits in Hp.
  unfold receive_data. rewrite Hf. unfold push. cbn [next_seq pending pending_bytes].
  rewrite (bool_decide_false (is_Some _)) by (rewrite lookup_empty; by intros []).
  rewrite N.ltb_irrefl. cbn [orb]. unfold advance. cbn [next_seq]. rewrite (proj2 (N.ltb_lt _ _)) by done.
  cbn [pending pending_bytes]. rewrite map_size_empty. cbn [release_loop process transport].
  unfold decrypt. rewrite (proj2 (N.ltb_ge _ _)) by lia. unfold ensure_noise_frame_len.
  rewrite (proj2 (N.ltb_ge _ _)) by lia. cbn [mbind result_bind]. rewrite Hn, Hopen. cbn [inbound_decoder].
  rewrite Hpush, (deliver_ok _ _ _ Hd) by done. cbn. eexists. split; [done|]. by split.
Qed.

Lemma read_in_order tk : ∀ records wire s n b ms got,
  expects s n → sealed_from n records wire → Forall (λ r, r.1 < U32_MAX)%N wire → Forall record_fits records →
  run_decoder (inbound_decoder s) records = (b, ms, Ok ()) → decoded ms got →
  length (queue s) + length got ≤ CHANNEL_CAPACITY →
  ∃ s', foldl reader_step (mkReader s tk true false) (uncurry Received <$> wire) = mkReader s' tk true false ∧
    expects s' (n + N.of_nat (length records)) ∧ inbound_decoder s' = b ∧ queue s' = queue s ++ got.
Proof.
  induction records as [|p records IH]; intros [|[n' c] wire] s n b ms got He Hs Hw Hr Hrun Hd Hq;
    cbn [sealed_from] in Hs; try done.
  - injection Hrun as <- <-. inversion Hd; subst. exists s. rewrite app_nil_r. cbn. by rewrite N.add_0_r.
  - destruct Hs as (-> & Hc & Hs). apply Forall_cons in Hw as [Hlt Hw]. apply Forall_cons in Hr as [Hp Hr].
    cbn [run_decoder] in Hrun. destruct (decoder_push _ p) as [b1 [ms1|e]] eqn:Hpush; [|done].
    destruct (run_decoder b1 records) as [[b2 ms2] o2] eqn:Hrest. injection Hrun as -> <- ->.
    apply Forall2_app_inv_l in Hd as (got1 & got2 & Hd1 & Hd2 & ->). rewrite length_app in Hq.
    destruct (receive_expected s n p c b1 ms1 got1) as (s1 & Hrecv & He1 & Hb1 & Hq1); [done..|lia|].
    rewrite <- Hb1 in Hrest.
    destruct (IH wire s1 (n + 1)%N b ms2 got2) as (s2 & Hfold & He2 & Hb2 & Hq2);
      [done..|rewrite Hq1, length_app; lia|].
    exists s2. cbn [fmap list_fmap foldl uncurry reader_step alive stream]. rewrite Hrecv. cbn [orb taken panicked].
    rewrite Hfold, Hq2, Hq1, <- (assoc_L (++)). split_and!; [done| |done..].
    cbn [length]. by replace (n + N.of_nat (S (length records)))%N with (n + 1 + N.of_nat (length records))%N by lia.
Qed.

Lemma write_records_below accepts : ∀ records w w' wire go,
  write_records accepts w records = (w', wire, go) → Forall (λ r, r.1 < U32_MAX)%N wire.
Proof.
  induction records as [|p records IH]; intros w w' wire go Hrun; cbn [write_records] in Hrun.
  { by injection Hrun as <- <- <-. }
  unfold take_next_sequence in Hrun. destruct (N.ltb_spec (w_next_seq w) U32_MAX); [|by injection Hrun as <- <- <-].
  destruct (encrypt _ p) as [[t c]|]; [|by injection Hrun as <- <- <-].
  destruct (accepts _); [|by injection Hrun as <- <- <-].
  destruct (write_records _ _ records) as [[w1 wire1] go1] eqn:Hrest. injection Hrun as <- <- <-.
  constructor; [done|by eapply IH].
Qed.

(** A relay that keeps the order, and a handler that takes a message as
    soon as it is complete. *)
Definition in_order (wires : list (list (N * bytes))) : list event :=
  concat ((λ wire, (uncurry Received <$> wire) ++ [HandlerTakes 1]) <$> wires).

Lemma messages_in_order accepts : ∀ messages w w' wires s tk, in_step w → expects s (w_next_seq w) → inbound_decoder s = [] → queue s = [] →
    write_messages accepts w messages = (w', wires, true) →
    length wires = length messages ∧ ∃ s', foldl reader_step (mkReader s tk true false) (in_order wires)
      = mkReader s' (tk ++ (arrives <$> messages)) true false ∧ queue s' = [].
Proof.
  induction messages as [|o messages IH]; intros w w' wires s tk Hin He Hb Hq Hw; cbn [write_messages] in Hw.
  { injection Hw as <- <-. split; [done|]. exists s. cbn. by rewrite app_nil_r. }
  destruct (encode o) as [f|e] eqn:Ho; [|done].
  destruct (encode_decode _ _ Ho) as (p & [Hfits ->]%frame_message_ok & Hdec).
  destruct (chunks_records (framed p)) as [Hcat Hrec].
  destruct (write_records _ _ _) as [[w1 wire] go1] eqn:Hwr. destruct go1; [|done].
  apply write_records_below in Hwr as Hbelow.
  apply write_records_sealed in Hwr as (dn & rest & Hchunks & Hs & Hgo); [|done].
  destruct (Hgo eq_refl) as (-> & Hin1 & Hn1). rewrite app_nil_r in Hchunks. subst dn.
  destruct (write_messages accepts w1 messages) as [[w2 wires2] go2] eqn:Hrest. injection Hw as <- <- ->.
  set (recs := chunks _ (framed p)) in *.
  destruct (run_decoder_frames recs [p] [] []) as (got & left & b & Hsplit & Hrun & _ & Htail & Hh).
  { by constructor. } { done. } { cbn [head from_option]. rewrite framed_length.
      change (byte_count []) with 0%N. unfold LENGTH_PREFIX_BYTES. lia. }
  { cbn [app fmap list_fmap concat]. by rewrite !app_nil_r, Hcat. }
  apply whole_frames in Htail as [-> ->]; [|done]. rewrite app_nil_r in Hsplit. subst got.
  assert (run_decoder (inbound_decoder s) recs = ([], [p], Ok ())) as Hrun' by by rewrite Hb.
  destruct (read_in_order tk recs wire s (w_next_seq w) [] [p] [arrives o]) as (s1 & Hfold & He1 & Hb1 & Hq1);
    [done..|constructor; [done|constructor]|rewrite Hq; cbn; unfold CHANNEL_CAPACITY; lia|].
  rewrite Hq in Hq1. rewrite <- Hn1 in He1.
  destruct (IH w1 w2 wires2 (stream (handler_step (mkReader s1 tk true false) 1 true)) (tk ++ [arrives o]))
    as (Hl & s2 & Hr & Hq2); [done| |done|by cbn; rewrite Hq1|done|].
  { destruct He1 as [H1 H2 H3]. constructor; cbn; [done..|by rewrite H3]. }
  split; [by cbn; rewrite Hl|]. exists s2. unfold in_order in *. cbn [fmap list_fmap concat].
  rewrite !foldl_app, Hfold. cbn [foldl reader_step]. unfold handler_step in *. cbn in *. rewrite Hq1 in *. cbn in *.
  rewrite Hr. by rewrite <- (assoc_L (++)).
Qed.

(** Progress: if the writer has sent all messages and the relay keeps
    their order, the stream never fails and the handler gets every message,
    one by one; in particular the sizes of records, the sequence numbers,
    the nonces and the queue bound of the two sides agree. *)
Theorem in_order_delivery (accepts : N → bool) (messages : list Outgoing)
    (Hcomplete : (write_messages accepts new_writer messages).2 = true) :
  let wires := (write_messages accepts new_writer messages).1.2 in
  let r := run_reader (in_order wires) in
  length wires = length messages ∧ alive r = true ∧ taken r = arrives <$> messages ∧ queue (stream r) = [].
Proof.
  destruct (write_messages accepts new_writer messages) as [[w' wires] go] eqn:Hw. cbn in Hcomplete. subst go.
  cbn [fst snd].
  destruct (messages_in_order accepts messages new_writer w' wires new_stream []) as (Hl & s' & Hr & Hq);
    [by try split..|].
  unfold run_reader. rewrite Hr. by rewrite Hl.
Qed.
End progress.

(** ** A concrete channel *)

(** A cipher for the examples: it only appends the nonce as a tag. *)
Definition toy_tag (n : N) : bytes := replicate 16 n.
#[local] Instance toy_cipher : NoiseCipher := {
  send_vec n p := Ok (p ++ toy_tag n);
  receive_vec n c :=
    if bool_decide (drop (length c - 16) c = toy_tag n) then Ok (take (length c - 16) c) else Err [];
  tag_len := 16%N;
  MAX_MESSAGE_LEN := 65535%N
}.

#[local] Instance toy_cipher_laws : NoiseCipherLaws.
Proof.
  split.
  - intros n p c [= <-]. cbn [receive_vec toy_cipher].
    replace (length (p ++ toy_tag n) - 16) with (length p) by (rewrite length_app; cbn; lia).
    rewrite drop_app_length, take_app_length. by rewrite bool_decide_true.
  - intros n p c [= <-]. by rewrite byte_count_app.
  - by vm_compute.
Qed.

Lemma toy_authentic wire c :
  (∀ n, drop (length c - 16) c = toy_tag n → wire !! N.to_nat n = Some (n, c)) → authentic wire c.
Proof. intros H n p Hp. cbn in Hp. case_bool_decide; [by apply H|done]. Qed.

Lemma stream_delivers_prefix_witness :
  let m := [[104; 105]; [33]]%N in
  let c0 := ([0; 0; 0; 2; 104; 105] ++ toy_tag 0)%N in
  let c1 := ([0; 0; 0; 1; 33] ++ toy_tag 1)%N in
  let events := [Received 1 c1; HandlerTakes 1; Received 0 c0; Received 0 [7]%N; HandlerTakes 1] in
  Forall (event_authentic (concat (write_messages (λ _, true) new_writer m).1.2)) events ∧
  let '(_, wires, complete) := write_messages (λ _, true) new_writer m in
  let r := run_reader events in
  panicked r = false ∧ (∃ k, received r = id <$> take k m) ∧
  (complete = true → alive r = true →
   (∀ seq, (seq < N.of_nat (length (concat wires)))%N → ∃ c, Received seq c ∈ events) →
   received r = id <$> m).
Proof.
  intros m c0 c1 events.
  assert (Forall (event_authentic (concat (write_messages (λ _, true) new_writer m).1.2)) events) as H.
  { replace (concat (write_messages (λ _, true) new_writer m).1.2) with [(0, c0); (1, c1)]%N by reflexivity.
    repeat constructor; cbn [event_authentic]; apply toy_authentic; intros n Hn; vm_compute in Hn;
      try discriminate; injection Hn as <-; reflexivity. }
  split; [exact H|]. apply (stream_delivers_prefix id (λ _, true) m events H).
Defined.

Lemma in_order_delivery_witness :
  let m := [[104; 105]; [33]]%N in
  (write_messages (λ _, true) new_writer m).2 = true ∧
  let wires := (write_messages (λ _, true) new_writer m).1.2 in
  let r := run_reader (in_order wires) in
  length wires = length m ∧ alive r = true ∧ taken r = id <$> m ∧ queue (stream r) = [].
Proof. intros m. split; [reflexivity|]. apply (in_order_delivery id (λ _, true) m). reflexivity. Defined.
