(* ===== verification/RelayMux.v ===== *)
(** * The multiplexed executor relay

    [exec-server/src/relay.rs]: the frames of the relay, and the loop
    [run_multiplexed_environment] that serves many virtual streams over one
    websocket; with [noise_channel_prologue] of [noise_channel.rs].  The loop
    is a step function on what [tokio::select!] may deliver next. *)

From stdpp Require Import pretty.
From S2P Require Import Prelude RustStr Utf8Stream OrderedFrames NoiseStream.

(** ** Frames *)

Definition RELAY_MESSAGE_FRAME_VERSION : N := 1%N.
Definition MAX_ACTIVE_NOISE_RELAY_STREAMS : nat := 128.
Definition MAX_FAILED_NOISE_HANDSHAKES : nat := 8.
Definition NOISE_HANDSHAKE_FAILURE_COOLDOWN : N := 10000%N.
Definition MAX_HARNESS_KEY_AUTHORIZATION_BYTES : nat := 4096.
Definition MAX_PENDING_HANDSHAKE_VALIDATIONS : nat := 32.
Definition PHYSICAL_CHANNEL_CAPACITY : nat := 128.
Definition NOISE_RELAY_RESET_REASON : rstr := $"noise_relay_protocol_error".

Record RelayData := mkData { seq : N; segment_index : N; segment_count : N; payload : bytes }.

Inductive Body :=
| BData (d : RelayData)
| BAck
| BResume (next_seq : N)
| BReset (reason : rstr)
| BHeartbeat
| BHandshake (payload : bytes).

(** The trace context of a frame is left out. *)
Record RelayMessageFrame := mkFrame { version : N; stream_id : rstr; body : option Body }.

Definition data_frame (id : rstr) (n : N) (p : bytes) : RelayMessageFrame :=
  mkFrame RELAY_MESSAGE_FRAME_VERSION id (Some (BData (mkData n 0 1 p))).
Definition resume_frame (id : rstr) : RelayMessageFrame :=
  mkFrame RELAY_MESSAGE_FRAME_VERSION id (Some (BResume 0)).
Definition handshake_frame (id : rstr) (p : bytes) : RelayMessageFrame :=
  mkFrame RELAY_MESSAGE_FRAME_VERSION id (Some (BHandshake p)).
Definition reset_frame (id reason : rstr) : RelayMessageFrame :=
  mkFrame RELAY_MESSAGE_FRAME_VERSION id (Some (BReset reason)).

Inductive RelayFrameBodyKind := KData | KAck | KResume | KReset | KHeartbeat | KHandshake.
#[export] Instance RelayFrameBodyKind_eq : EqDecision RelayFrameBodyKind.
Proof. solve_decision. Defined.

Definition msg_version (v : N) : rstr := $"unsupported relay message frame version " ++ str (pretty v).
Definition msg_no_stream_id : rstr := $"relay message frame is missing stream_id".
Definition msg_bad_data : rstr := $"relay data message frame is missing required fields".
Definition msg_bad_reset : rstr := $"relay reset message frame is missing reason".
Definition msg_bad_handshake : rstr := $"relay handshake message frame is missing payload".
Definition msg_no_body : rstr := $"relay message frame is missing body".
Definition msg_expected_data : rstr := $"expected relay data message frame".
Definition msg_expected_handshake : rstr := $"expected relay handshake message frame".

Definition validate (f : RelayMessageFrame) : result rstr RelayFrameBodyKind :=
  if bool_decide (version f ≠ RELAY_MESSAGE_FRAME_VERSION) then Err (msg_version (version f))
  else if is_empty (trim (stream_id f)) then Err msg_no_stream_id
  else
    match body f with
    | Some (BData d) =>
        if bool_decide (segment_index d ≠ 0%N) || bool_decide (segment_count d ≠ 1%N) || is_empty (payload d)
        then Err msg_bad_data else Ok KData
    | Some BAck => Ok KAck
    | Some (BResume _) => Ok KResume
    | Some (BReset reason) => if is_empty reason then Err msg_bad_reset else Ok KReset
    | Some BHeartbeat => Ok KHeartbeat
    | Some (BHandshake p) => if is_empty p then Err msg_bad_handshake else Ok KHandshake
    | None => Err msg_no_body
    end.

Definition into_data (f : RelayMessageFrame) : result rstr RelayData :=
  kind ← validate f;
  if decide (kind = KData)
  then match body f with Some (BData d) => Ok d | _ => Err msg_expected_data end
  else Err msg_expected_data.

Definition into_handshake_payload (f : RelayMessageFrame) : result rstr bytes :=
  kind ← validate f;
  if decide (kind = KHandshake)
  then match body f with Some (BHandshake p) => Ok p | _ => Err msg_expected_handshake end
  else Err msg_expected_handshake.

Definition into_reset_reason (f : RelayMessageFrame) : option rstr :=
  match body f with
  | Some (BReset reason) => if is_empty reason then None else Some reason
  | _ => None
  end.

(** ** The prologue of a handshake *)

Definition PROLOGUE_DOMAIN : rstr := $"codex-exec-server-relay-noise/v1".

Definition u64_to_be_bytes (n : N) : bytes :=
  (λ i, n / 2 ^ (8 * i) mod 256)%N <$> [7; 6; 5; 4; 3; 2; 1; 0]%N.

Definition append_prologue_part (prologue part : bytes) : bytes :=
  prologue ++ u64_to_be_bytes (byte_count part mod 2 ^ 64)%N ++ part.

(** [as_bytes] of a string is its UTF-8 encoding. *)
Definition noise_channel_prologue (environment_id executor_registration_id id : rstr) : bytes :=
  append_prologue_part
    (append_prologue_part
      (append_prologue_part (append_prologue_part [] (Utf8Stream.encode PROLOGUE_DOMAIN)) (Utf8Stream.encode environment_id))
      (Utf8Stream.encode executor_registration_id))
    (Utf8Stream.encode id).

(** ** The environment loop *)

Inductive RendezvousDisconnectReason := PeerClose | ReadError | WriteError | PongTimeout | LocalShutdown.

(** The cryptography of a handshake and the streams it opens: parsing the
    first message yields the responder's state, the authenticated key of the
    harness and the payload; completing it the stream and the response. *)
Class NoiseHandshake (Handshake Key Stream : Type) := {
  read_request : bytes → bytes → result rstr (Handshake * Key * bytes);
  complete : Handshake → result rstr (Stream * bytes);
  stream_receive : Stream → RelayData → Stream * outcome rstr ()
}.

(** [spawn_noise_virtual_stream] makes a stream of [NoiseStream] of a
    completed handshake; [receive_data] serves it. *)
Definition noise_streams {Handshake Key Incoming Outgoing} `{NoiseStreamHandler Incoming Outgoing} `{NoiseCipher}
    (read : bytes → bytes → result rstr (Handshake * Key * bytes)) (respond : Handshake → result rstr bytes) :
    NoiseHandshake Handshake Key (NoiseVirtualStream Incoming) := {|
  read_request := read;
  complete h := response ← respond h; Ok (new_stream, response);
  stream_receive s d := receive_data s (seq d) (payload d)
|}.

Section mux.
Context `{NoiseHandshake Handshake Key Stream}.
(** [prost]'s decoding of a frame, and the registry's verdicts, which may
    change with time. *)
Context (decode_relay_message_frame : bytes → result rstr RelayMessageFrame)
  (registry : N → Key → rstr → bool).
Context (environment_id executor_registration_id : rstr).

Record PendingHandshake := mkPending { p_validation_id : N; p_handshake : Handshake }.
Record VirtualStream := mkVirtual { instance_id : N; v_stream : Stream }.
(** A running check: what [validation_tasks.spawn] captured. *)
Record Validation := mkValidation
  { t_stream_id : rstr; t_validation_id : N; t_key : Key; t_authorization : rstr }.

Record Environment := mkEnv {
  streams : gmap rstr VirtualStream;
  pending_handshakes : gmap rstr PendingHandshake;
  validation_tasks : list Validation;
  failed_handshakes : nat;
  handshake_cooldown_until : option N;
  next_validation_id : N;
  outgoing : list RelayMessageFrame;
  outgoing_open : bool;
  stopped : option RendezvousDisconnectReason
}.

Definition set_streams m (e : Environment) : Environment :=
  mkEnv m (pending_handshakes e) (validation_tasks e) (failed_handshakes e) (handshake_cooldown_until e)
    (next_validation_id e) (outgoing e) (outgoing_open e) (stopped e).
Definition set_pending m (e : Environment) : Environment :=
  mkEnv (streams e) m (validation_tasks e) (failed_handshakes e) (handshake_cooldown_until e)
    (next_validation_id e) (outgoing e) (outgoing_open e) (stopped e).
Definition set_tasks l (e : Environment) : Environment :=
  mkEnv (streams e) (pending_handshakes e) l (failed_handshakes e) (handshake_cooldown_until e)
    (next_validation_id e) (outgoing e) (outgoing_open e) (stopped e).
Definition set_failures n c (e : Environment) : Environment :=
  mkEnv (streams e) (pending_handshakes e) (validation_tasks e) n c
    (next_validation_id e) (outgoing e) (outgoing_open e) (stopped e).
Definition set_next_id n (e : Environment) : Environment :=
  mkEnv (streams e) (pending_handshakes e) (validation_tasks e) (failed_handshakes e)
    (handshake_cooldown_until e) n (outgoing e) (outgoing_open e) (stopped e).
Definition set_outgoing l o (e : Environment) : Environment :=
  mkEnv (streams e) (pending_handshakes e) (validation_tasks e) (failed_handshakes e)
    (handshake_cooldown_until e) (next_validation_id e) l o (stopped e).
(** [break]: behind the loop every stream is disconnected and the checks
    are aborted. *)
Definition stop reason (e : Environment) : Environment :=
  mkEnv ∅ ∅ [] (failed_handshakes e) (handshake_cooldown_until e) (next_validation_id e)
    (outgoing e) (outgoing_open e) (Some reason).

Definition new_environment : Environment := mkEnv ∅ ∅ [] 0 None 0 [] true None.

(** [try_send] on the bounded channel to the physical writer. *)
Definition try_send_physical (f : RelayMessageFrame) (e : Environment) : Environment * bool :=
  if outgoing_open e && bool_decide (length (outgoing e) < PHYSICAL_CHANNEL_CAPACITY)
  then (set_outgoing (outgoing e ++ [f]) true e, true) else (e, false).

(** Best effort. *)
Definition send_reset (id : rstr) (e : Environment) : Environment :=
  (try_send_physical (reset_frame id NOISE_RELAY_RESET_REASON) e).1.

Definition record_failed_handshake (now : N) (e : Environment) : Environment :=
  match handshake_cooldown_until e with
  | Some _ => e
  | None =>
      let n := S (failed_handshakes e) in
      set_failures n
        (if bool_decide (MAX_FAILED_NOISE_HANDSHAKES ≤ n)
         then Some (now + NOISE_HANDSHAKE_FAILURE_COOLDOWN)%N else None) e
  end.

Definition reject (now : N) (id : rstr) (e : Environment) : Environment :=
  record_failed_handshake now (send_reset id e).

(** A stream's task has ended. *)
Definition closed_stream (id : rstr) (inst : N) (e : Environment) : Environment :=
  match streams e !! id with
  | Some s => if (instance_id s =? inst)%N then send_reset id (set_streams (delete id (streams e)) e) else e
  | None => e
  end.

(** A check has ended; [ok] is its verdict. *)
Definition validation_result (now : N) (t : Validation) (ok : bool) (e : Environment) : Environment :=
  let id := t_stream_id t in
  match pending_handshakes e !! id with
  | None => e
  | Some pending =>
      if negb (p_validation_id pending =? t_validation_id t)%N then e
      else
        let e := set_pending (delete id (pending_handshakes e)) e in
        if negb ok then reject now id e
        else if bool_decide (MAX_ACTIVE_NOISE_RELAY_STREAMS ≤ size (streams e)) then send_reset id e
        else
          match complete (p_handshake pending) with
          | Err _ => reject now id e
          | Ok (transport, response) =>
              match try_send_physical (handshake_frame id response) e with
              | (e, false) => stop LocalShutdown e
              | (e, true) =>
                  set_streams (<[id := mkVirtual (t_validation_id t) transport]> (streams e)) e
              end
          end
  end.

(** A check has panicked. *)
Definition validation_failed (e : Environment) : Environment :=
  foldl (λ e id, send_reset id e) (set_pending ∅ e) (map_to_list (pending_handshakes e)).*1.

Definition parse_authorization (p : bytes) : option rstr :=
  match from_utf8 p with
  | Ok authorization =>
      if bool_decide (byte_len authorization ≤ MAX_HARNESS_KEY_AUTHORIZATION_BYTES)
      then Some authorization else None
  | Err _ => None
  end.

Definition on_handshake (now : N) (f : RelayMessageFrame) (e : Environment) : Environment :=
  let id := stream_id f in
  let handle e :=
    if bool_decide (is_Some (streams e !! id)) then send_reset id e
    else if bool_decide (is_Some (pending_handshakes e !! id)) then
      reject now id (set_pending (delete id (pending_handshakes e)) e)
    else if bool_decide (MAX_ACTIVE_NOISE_RELAY_STREAMS ≤ size (streams e)) then send_reset id e
    else if bool_decide (MAX_PENDING_HANDSHAKE_VALIDATIONS ≤ length (validation_tasks e)) then send_reset id e
    else
      match into_handshake_payload f with
      | Err _ => send_reset id e
      | Ok request =>
          match read_request (noise_channel_prologue environment_id executor_registration_id id) request with
          | Err _ => reject now id e
          | Ok (handshake, key, p) =>
              match parse_authorization p with
              | None => reject now id e
              | Some authorization =>
                  let validation_id := next_validation_id e in
                  set_tasks (validation_tasks e ++ [mkValidation id validation_id key authorization])
                    (set_pending (<[id := mkPending validation_id handshake]> (pending_handshakes e))
                      (set_next_id ((validation_id + 1) mod 2 ^ 64)%N e))
              end
          end
      end in
  match handshake_cooldown_until e with
  | Some deadline => if (now <? deadline)%N then send_reset id e else handle (set_failures 0 None e)
  | None => handle e
  end.

Definition on_data (now : N) (f : RelayMessageFrame) (e : Environment) : Environment * bool :=
  let id := stream_id f in
  match streams e !! id with
  | None =>
      let canceled := bool_decide (is_Some (pending_handshakes e !! id)) in
      let e := send_reset id (set_pending (delete id (pending_handshakes e)) e) in
      (if canceled then record_failed_handshake now e else e, true)
  | Some s =>
      match into_data f with
      | Err _ => (send_reset id (set_streams (delete id (streams e)) e), true)
      | Ok data =>
          let '(s', o) := stream_receive (v_stream s) data in
          match o with
          | Done _ => (set_streams (<[id := mkVirtual (instance_id s) s']> (streams e)) e, true)
          | Failed _ => (send_reset id (set_streams (delete id (streams e)) e), true)
          | Panic => (e, false)
          end
      end
  end.

(** One frame; [false] is a panic. *)
Definition on_frame (now : N) (f : RelayMessageFrame) (e : Environment) : Environment * bool :=
  match validate f with
  | Err _ => (e, true)
  | Ok KHandshake => (on_handshake now f e, true)
  | Ok KData => on_data now f e
  | Ok KReset =>
      (set_streams (delete (stream_id f) (streams e))
        (set_pending (delete (stream_id f) (pending_handshakes e)) e), true)
  | Ok (KAck | KResume | KHeartbeat) => (e, true)
  end.

Inductive ws_message :=
| WsBinary (p : bytes)
| WsClose
| WsEnd
| WsPong
| WsPing
| WsFrame
| WsText
| WsError.

(** What can happen next: the physical writer sends frames, breaks or is
    seen to have ended; a stream's task queues a frame or ends; the check
    of a task ends, in time or not, or panics; the websocket yields. *)
Inductive mux_event :=
| WriterSends (n : nat)
| WriterBreaks
| WriterEnded (reason : RendezvousDisconnectReason)
| StreamQueues (f : RelayMessageFrame)
| StreamEnded (id : rstr) (inst : N)
| Validated (now : N) (task : nat) (in_time : bool)
| ValidationPanicked (task : nat)
| WsYields (now : N) (m : ws_message).

Definition mux_step (e : Environment) (ev : mux_event) : Environment * bool :=
  match stopped e with
  | Some _ => (e, true)
  | None =>
      match ev with
      | WriterSends n => (set_outgoing (drop n (outgoing e)) (outgoing_open e) e, true)
      | WriterBreaks => (set_outgoing (outgoing e) false e, true)
      | WriterEnded reason => (stop reason e, true)
      | StreamQueues f => ((try_send_physical f e).1, true)
      | StreamEnded id inst => (closed_stream id inst e, true)
      | Validated now i in_time =>
          match validation_tasks e !! i with
          | None => (e, true)
          | Some t =>
              (validation_result now t (in_time && registry now (t_key t) (t_authorization t))
                 (set_tasks (delete i (validation_tasks e)) e), true)
          end
      | ValidationPanicked i =>
          match validation_tasks e !! i with
          | None => (e, true)
          | Some _ => (validation_failed (set_tasks (delete i (validation_tasks e)) e), true)
          end
      | WsYields now (WsBinary p) =>
          match decode_relay_message_frame p with
          | Ok f => on_frame now f e
          | Err _ => (e, true)
          end
      | WsYields _ (WsClose | WsEnd) => (stop PeerClose e, true)
      | WsYields _ WsError => (stop ReadError e, true)
      | WsYields _ (WsPong | WsPing | WsFrame | WsText) => (e, true)
      end
  end.

(** Steps up to a panic. *)
Fixpoint run_mux (e : Environment) (events : list mux_event) : Environment * bool :=
  match events with
  | [] => (e, true)
  | ev :: events => match mux_step e ev with (e, true) => run_mux e events | (e, false) => (e, false) end
  end.
End mux.

Arguments Environment : clear implicits.
Arguments VirtualStream : clear implicits.
Arguments PendingHandshake : clear implicits.
Arguments Validation : clear implicits.
