(* ===== verification/RelayMuxFacts.v ===== *)
(** * Only authorized peers get a stream

    Invariants of the loop of [RelayMux], and the injectivity of the
    prologue that binds a handshake to its stream. *)

From S2P Require Import Prelude RustStr Utf8Stream OrderedFrames Framing NoiseStream NoiseStreamFacts RelayMux.

Lemma map_size_insert_le {A} (m : gmap rstr A) k a : size (<[k := a]> m) ≤ S (size m).
Proof. rewrite map_size_insert. destruct (m !! k); [apply Nat.le_succ_diag_r|done]. Qed.

Section mux.
Context `{NoiseHandshake Handshake Key Stream}.
Context (decode_relay_message_frame : bytes → result rstr RelayMessageFrame)
  (registry : N → Key → rstr → bool) (accepted : Key → rstr → Prop) (environment_id executor_registration_id : rstr).

Abbreviation env := (Environment Handshake Key Stream) (only parsing).
Abbreviation prologue id := (noise_channel_prologue environment_id executor_registration_id id) (only parsing).

(** ** Invariant *)

(** The streams that come from a handshake by receiving data. *)
Inductive derived_from (h : Handshake) : Stream → Prop :=
| derived_complete s response : complete h = Ok (s, response) → derived_from h s
| derived_receive s d s' o : derived_from h s → stream_receive s d = (s', o) → derived_from h s'.

(** A handshake for stream [id] whose first message carried [key] and [authorization]. *)
Definition authenticates (id : rstr) (h : Handshake) (key : Key) (authorization : rstr) : Prop :=
  ∃ request p, read_request (prologue id) request = Ok (h, key, p) ∧ parse_authorization p = Some authorization.

Definition authorized (id : rstr) (s : Stream) : Prop :=
  ∃ h key authorization, authenticates id h key authorization ∧ accepted key authorization ∧ derived_from h s.

(** The owner of a validation id among streams and pending handshakes. *)
Definition owns (e : env) (n : N) (id : rstr) : Prop :=
  (∃ s, streams e !! id = Some s ∧ instance_id s = n) ∨
  (∃ p, pending_handshakes e !! id = Some p ∧ p_validation_id p = n).

Record limits (e : env) : Prop := {
  li_streams : size (streams e) ≤ MAX_ACTIVE_NOISE_RELAY_STREAMS;
  li_tasks : length (validation_tasks e) ≤ MAX_PENDING_HANDSHAKE_VALIDATIONS;
  li_outgoing : length (outgoing e) ≤ PHYSICAL_CHANNEL_CAPACITY;
  li_failures : match handshake_cooldown_until e with
                | Some _ => failed_handshakes e = MAX_FAILED_NOISE_HANDSHAKES
                | None => failed_handshakes e < MAX_FAILED_NOISE_HANDSHAKES
                end
}.

Record identities (e : env) : Prop := {
  id_disjoint id : is_Some (streams e !! id) → pending_handshakes e !! id = None;
  id_fresh n id : owns e n id → (n < next_validation_id e)%N;
  id_unique n id1 id2 : owns e n id1 → owns e n id2 → id1 = id2;
  id_task t : t ∈ validation_tasks e → (t_validation_id t < next_validation_id e)%N;
  id_pending t p : t ∈ validation_tasks e → pending_handshakes e !! t_stream_id t = Some p →
    p_validation_id p = t_validation_id t →
    authenticates (t_stream_id t) (p_handshake p) (t_key t) (t_authorization t);
  id_streams id s : streams e !! id = Some s → authorized id (v_stream s)
}.

Record env_ok (e : env) : Prop := { ok_limits : limits e; ok_ids : identities e }.

(** ** The operations keep it *)

(** Two environments that agree on everything the identities mention. *)
Lemma identities_eq (e e' : env) :
  streams e' = streams e → pending_handshakes e' = pending_handshakes e →
  validation_tasks e' = validation_tasks e → next_validation_id e' = next_validation_id e →
  identities e → identities e'.
Proof.
  intros Hs Hp Ht Hn [H1 H2 H3 H4 H5 H6].
  constructor; unfold owns in *; rewrite ?Hs, ?Hp, ?Ht, ?Hn; eauto.
Qed.

(** Forgetting streams, pending handshakes and tasks is harmless. *)
Lemma identities_sub (e e' : env) :
  streams e' ⊆ streams e → pending_handshakes e' ⊆ pending_handshakes e →
  (∀ t, t ∈ validation_tasks e' → t ∈ validation_tasks e) → next_validation_id e' = next_validation_id e →
  identities e → identities e'.
Proof.
  intros Hs Hp Ht Hn [H1 H2 H3 H4 H5 H6].
  assert (∀ n id, owns e' n id → owns e n id) as Howns.
  { intros n id [(s & Hl & <-)|(p & Hl & <-)]; [left; exists s|right; exists p]; (split; [|done]);
      by eapply lookup_weaken. }
  constructor; rewrite ?Hn; eauto.
  - intros id [s Hl]. apply (lookup_weaken _ _ _ _ Hl) in Hs. specialize (H1 id (mk_is_Some _ _ Hs)).
    by eapply lookup_weaken_None.
  - intros t p Hin Hl. apply H5; [by apply Ht|]. by eapply lookup_weaken.
  - intros id s Hl. apply H6. by eapply lookup_weaken.
Qed.

Lemma try_send_ok (e : env) f : env_ok e → env_ok (try_send_physical f e).1.
Proof.
  intros [[H1 H2 H3 H4] Hid]. unfold try_send_physical. destruct (_ && _) eqn:Hb; [|done].
  apply andb_true_iff in Hb as [_ Hb%bool_decide_eq_true]. constructor.
  - constructor; cbn; try done. rewrite length_app. cbn. lia.
  - by apply (identities_eq e).
Qed.

Lemma send_reset_ok (e : env) id : env_ok e → env_ok (send_reset id e).
Proof. apply try_send_ok. Qed.

Lemma send_reset_fields id (e : env) :
  streams (send_reset id e) = streams e ∧ pending_handshakes (send_reset id e) = pending_handshakes e ∧
  validation_tasks (send_reset id e) = validation_tasks e ∧ next_validation_id (send_reset id e) = next_validation_id e.
Proof. unfold send_reset, try_send_physical. by destruct (_ && _). Qed.

Lemma record_failed_ok (e : env) now : env_ok e → env_ok (record_failed_handshake now e).
Proof.
  intros He. unfold record_failed_handshake. destruct (handshake_cooldown_until e) eqn:Hc; [done|].
  destruct He as [[H1 H2 H3 H4] Hid]. rewrite Hc in H4. constructor; [|by apply (identities_eq e)].
  constructor; cbn; try done. case_bool_decide; lia.
Qed.

Lemma reject_ok (e : env) now id : env_ok e → env_ok (reject now id e).
Proof. intros He. by apply record_failed_ok, send_reset_ok. Qed.

Lemma delete_stream_ok (e : env) id : env_ok e → env_ok (set_streams (delete id (streams e)) e).
Proof.
  intros [[H1 H2 H3 H4] Hid]. constructor.
  - constructor; cbn; try done. etrans; [apply map_subseteq_size, delete_subseteq|done].
  - apply (identities_sub e); cbn; try done. apply delete_subseteq.
Qed.

Lemma delete_pending_ok (e : env) id : env_ok e → env_ok (set_pending (delete id (pending_handshakes e)) e).
Proof.
  intros [[H1 H2 H3 H4] Hid]. constructor; [by constructor|]. apply (identities_sub e); cbn; try done.
  apply delete_subseteq.
Qed.

Lemma delete_task_ok (e : env) i : env_ok e → env_ok (set_tasks (delete i (validation_tasks e)) e).
Proof.
  intros [[H1 H2 H3 H4] Hid]. constructor.
  - constructor; cbn; try done. etrans; [apply sublist_length, sublist_delete|done].
  - apply (identities_sub e); cbn; try done. intros t. apply list_elem_of_delete_inv.
Qed.

Lemma stop_ok (e : env) reason : env_ok e → env_ok (stop reason e).
Proof.
  intros [[H1 H2 H3 H4] Hid]. constructor; [constructor; cbn; try done; [rewrite map_size_empty|]; apply Nat.le_0_l|].
  apply (identities_sub e); cbn; try done; [apply map_empty_subseteq..|]. by intros t ?%elem_of_nil.
Qed.

Lemma set_failures_ok (e : env) n : n < MAX_FAILED_NOISE_HANDSHAKES → env_ok e → env_ok (set_failures n None e).
Proof.
  intros Hn [[H1 H2 H3 H4] Hid]. constructor; [by constructor|]. by apply (identities_eq e).
Qed.

(** A pending handshake becomes a stream under the same id. *)
Lemma promote_ids (e e' : env) id p s :
  identities e → pending_handshakes e !! id = Some p → authorized id s →
  streams e' = <[id := mkVirtual (p_validation_id p) s]> (streams e) →
  pending_handshakes e' = delete id (pending_handshakes e) →
  (∀ t, t ∈ validation_tasks e' → t ∈ validation_tasks e) → next_validation_id e' = next_validation_id e →
  identities e'.
Proof.
  intros [H1 H2 H3 H4 H5 H6] Hp Hauth Hs' Hp' Ht Hn.
  assert (∀ n i, owns e' n i → owns e n i) as Howns.
  { intros n i [(v & Hl & <-)|(q & Hl & <-)].
    - rewrite Hs' in Hl. apply lookup_insert_Some in Hl as [[<- <-]|[Hne Hl]]; [right; by exists p|left; by exists v].
    - rewrite Hp' in Hl. apply lookup_delete_Some in Hl as [Hne Hl]. right. by exists q. }
  constructor; rewrite ?Hn; eauto.
  - intros i [v Hl]. rewrite Hp'. rewrite Hs' in Hl. apply lookup_insert_Some in Hl as [[<- <-]|[Hne Hl]].
    + apply lookup_delete_eq.
    + rewrite lookup_delete_ne by done. apply H1. by exists v.
  - intros t q Hin Hl. rewrite Hp' in Hl. apply lookup_delete_Some in Hl as [_ Hl]. apply H5; [by apply Ht|done].
  - intros i v Hl. rewrite Hs' in Hl. apply lookup_insert_Some in Hl as [[<- <-]|[Hne Hl]]; [done|by apply H6].
Qed.

(** A new pending handshake and its check, under a fresh id. *)
Lemma admit_ok (e : env) id h key authorization :
  env_ok e → streams e !! id = None → pending_handshakes e !! id = None →
  length (validation_tasks e) < MAX_PENDING_HANDSHAKE_VALIDATIONS → (next_validation_id e + 1 < 2 ^ 64)%N →
  authenticates id h key authorization →
  env_ok (set_tasks (validation_tasks e ++ [mkValidation id (next_validation_id e) key authorization])
    (set_pending (<[id := mkPending (next_validation_id e) h]> (pending_handshakes e))
      (set_next_id ((next_validation_id e + 1) mod 2 ^ 64)%N e))).
Proof.
  intros [[L1 L2 L3 L4] [H1 H2 H3 H4 H5 H6]] Hs Hp Hlen Hn Hauth. rewrite N.mod_small by done. constructor.
  { constructor; cbn; try done. rewrite length_app. cbn. lia. }
  match goal with |- identities ?x => set (e' := x) end.
  assert (∀ n i, owns e' n i → owns e n i ∨ (n = next_validation_id e ∧ i = id)) as Howns.
  { intros n i [(v & Hl & <-)|(q & Hl & <-)]; [left; left; by exists v|]. cbn in Hl.
    apply lookup_insert_Some in Hl as [[<- <-]|[Hne Hl]]; [by right|]. left; right. by exists q. }
  constructor.
  - intros i [v Hl]. cbn in *. rewrite lookup_insert_ne; [apply H1; by exists v|]. intros <-. by rewrite Hs in Hl.
  - intros n i [Ho|[-> ->]]%Howns; cbn; [apply H2 in Ho|]; lia.
  - intros n i1 i2 [O1|[-> ->]]%Howns [O2|[E ->]]%Howns; [by eapply H3|apply H2 in O1; lia|apply H2 in O2; lia|done].
  - intros t [Hin%H4|Hin%list_elem_of_singleton]%elem_of_app; [|subst t]; cbn; lia.
  - intros t q [Hin|Hin%list_elem_of_singleton]%elem_of_app Hl Hq; cbn in Hl; [|subst t].
    + apply lookup_insert_Some in Hl as [[Hi <-]|[Hne Hl]]; [|by apply H5]. cbn in Hq. apply H4 in Hin. lia.
    + rewrite lookup_insert_eq in Hl. injection Hl as <-. exact Hauth.
  - intros i v Hl. by apply H6.
Qed.

(** Received data changes a stream in place. *)
Lemma receive_ok (e : env) id s s' d o :
  env_ok e → streams e !! id = Some s → stream_receive (v_stream s) d = (s', o) →
  env_ok (set_streams (<[id := mkVirtual (instance_id s) s']> (streams e)) e).
Proof.
  intros [[L1 L2 L3 L4] [H1 H2 H3 H4 H5 H6]] Hs Hrecv. constructor.
  { constructor; cbn; try done. by rewrite map_size_insert_Some by by eexists. }
  match goal with |- identities ?x => set (e' := x) end.
  assert (∀ n i, owns e' n i → owns e n i) as Howns.
  { intros n i [(v & Hl & <-)|(q & Hl & <-)]; [|right; by exists q]. cbn in Hl. left.
    apply lookup_insert_Some in Hl as [[<- <-]|[Hne Hl]]; [by exists s|by exists v]. }
  constructor; eauto.
  - intros i [v Hl]. cbn in *. apply lookup_insert_Some in Hl as [[<- <-]|[Hne Hl]]; apply H1; by eexists.
  - intros i v Hl. cbn in Hl. apply lookup_insert_Some in Hl as [[<- <-]|[Hne Hl]]; [|by apply H6].
    destruct (H6 _ _ Hs) as (h & key & a & Ha & Hr & Hd). exists h, key, a. split_and!; [done..|].
    by eapply derived_receive.
Qed.

Lemma validation_result_ok (e : env) now i t ok :
  env_ok e → validation_tasks e !! i = Some t → (ok = true → accepted (t_key t) (t_authorization t)) →
  env_ok (validation_result now t ok (set_tasks (delete i (validation_tasks e)) e)).
Proof.
  intros He Ht Hreg. pose proof (delete_task_ok e i He) as He1. unfold validation_result. cbn [pending_handshakes set_tasks].
  destruct (pending_handshakes e !! t_stream_id t) as [p|] eqn:Hp; [|done].
  destruct (N.eqb_spec (p_validation_id p) (t_validation_id t)) as [Hid|]; cbn [negb]; [|done].
  set (e1 := set_tasks _ e) in *. pose proof (delete_pending_ok e1 (t_stream_id t) He1) as He2.
  change (pending_handshakes e1) with (pending_handshakes e) in He2. set (e2 := set_pending _ e1) in *.
  destruct ok; cbn [negb]; [|by apply reject_ok]. case_bool_decide as Hsize; [by apply send_reset_ok|].
  destruct (complete (p_handshake p)) as [[s response]|] eqn:Hc; [|by apply reject_ok].
  pose proof (try_send_ok e2 (handshake_frame (t_stream_id t) response) He2) as He3.
  unfold try_send_physical in *. destruct (_ && _); [|by apply stop_ok]. cbn [fst] in He3.
  destruct He3 as [[L1 L2 L3 L4] _]. constructor.
  - constructor; cbn; try done. etrans; [apply map_size_insert_le|]. cbn [streams set_pending set_tasks] in Hsize.
    change (streams e2) with (streams e) in Hsize. lia.
  - apply (promote_ids e _ (t_stream_id t) p s); try done; cbn.
    + apply He.
    + exists (p_handshake p), (t_key t), (t_authorization t). split_and!; [|by apply Hreg|by econstructor].
      apply (id_pending e (ok_ids e He)); [by eapply list_elem_of_lookup_2|done|done].
    + by rewrite Hid.
    + intros t'. apply list_elem_of_delete_inv.
Qed.

Lemma validation_failed_ok (e : env) : env_ok e → env_ok (validation_failed e).
Proof.
  intros [[H1 H2 H3 H4] Hid]. unfold validation_failed. generalize ((map_to_list (pending_handshakes e)).*1) as ids.
  assert (env_ok (set_pending ∅ e)) as He.
  { constructor; [by constructor|]. apply (identities_sub e); cbn; try done. apply map_empty_subseteq. }
  revert He. generalize (set_pending ∅ e) as e'. clear. intros e' He ids. revert e' He.
  induction ids as [|id ids IH]; intros e' He; [done|]. cbn. by apply IH, send_reset_ok.
Qed.

Lemma on_handshake_ok (e : env) now f :
  env_ok e → (next_validation_id e + 1 < 2 ^ 64)%N →
  env_ok (on_handshake environment_id executor_registration_id now f e).
Proof.
  assert (∀ e : env, env_ok e → (next_validation_id e + 1 < 2 ^ 64)%N →
    env_ok (if bool_decide (is_Some (streams e !! stream_id f)) then send_reset (stream_id f) e
    else if bool_decide (is_Some (pending_handshakes e !! stream_id f)) then
      reject now (stream_id f) (set_pending (delete (stream_id f) (pending_handshakes e)) e)
    else if bool_decide (MAX_ACTIVE_NOISE_RELAY_STREAMS ≤ size (streams e)) then send_reset (stream_id f) e
    else if bool_decide (MAX_PENDING_HANDSHAKE_VALIDATIONS ≤ length (validation_tasks e)) then send_reset (stream_id f) e
    else
      match into_handshake_payload f with
      | Err _ => send_reset (stream_id f) e
      | Ok request =>
          match read_request (prologue (stream_id f)) request with
          | Err _ => reject now (stream_id f) e
          | Ok (handshake, key, p) =>
              match parse_authorization p with
              | None => reject now (stream_id f) e
              | Some authorization =>
                  set_tasks (validation_tasks e ++ [mkValidation (stream_id f) (next_validation_id e) key authorization])
                    (set_pending (<[stream_id f := mkPending (next_validation_id e) handshake]> (pending_handshakes e))
                      (set_next_id ((next_validation_id e + 1) mod 2 ^ 64)%N e))
              end
          end
      end)) as Hadmit.
  { clear e. intros e He Hn. case_bool_decide as Hs; [by apply send_reset_ok|].
    case_bool_decide as Hp; [by apply reject_ok, delete_pending_ok|].
    case_bool_decide; [by apply send_reset_ok|]. case_bool_decide as Hl; [by apply send_reset_ok|].
    destruct (into_handshake_payload f) as [request|]; [|by apply send_reset_ok].
    destruct (read_request _ request) as [[[h key] p]|] eqn:Hr; [|by apply reject_ok].
    destruct (parse_authorization p) as [a|] eqn:Ha; [|by apply reject_ok].
    apply eq_None_not_Some in Hs, Hp. apply admit_ok; try done; [lia|]. by exists request, p. }
  intros He Hn. unfold on_handshake. destruct (handshake_cooldown_until e); [|by apply Hadmit].
  destruct (_ <? _)%N; [by apply send_reset_ok|].
  apply (Hadmit (set_failures 0 None e)); [|done]. apply set_failures_ok; [unfold MAX_FAILED_NOISE_HANDSHAKES; lia|done].
Qed.

Lemma on_data_ok (e : env) now f : env_ok e → env_ok (on_data now f e).1.
Proof.
  intros He. unfold on_data. destruct (streams e !! stream_id f) as [s|] eqn:Hs.
  - destruct (into_data f) as [d|]; [|by apply send_reset_ok, delete_stream_ok].
    destruct (stream_receive (v_stream s) d) as [s' o] eqn:Hr.
    destruct o; [by eapply receive_ok|by apply send_reset_ok, delete_stream_ok|done].
  - cbn. case_bool_decide; [apply record_failed_ok|]; by apply send_reset_ok, delete_pending_ok.
Qed.

(** The verdicts of a step are accepted. *)
Definition verdicts_accepted (ev : mux_event) : Prop :=
  ∀ now i key authorization, ev = Validated now i true → registry now key authorization = true → accepted key authorization.

Lemma mux_step_ok (e : env) ev : verdicts_accepted ev →
  env_ok e → (next_validation_id e + 1 < 2 ^ 64)%N →
  env_ok (mux_step decode_relay_message_frame registry environment_id executor_registration_id e ev).1.
Proof.
  intros Hev He Hn. unfold mux_step. destruct (stopped e); [done|].
  destruct ev as [n| |reason|f|id inst|now i in_time|i|now m].
  - destruct He as [[H1 H2 H3 H4] Hid]. constructor; [|by apply (identities_eq e)].
    constructor; cbn; try done. rewrite length_drop. lia.
  - destruct He as [[H1 H2 H3 H4] Hid]. constructor; [by constructor|by apply (identities_eq e)].
  - by apply stop_ok.
  - by apply try_send_ok.
  - cbn. unfold closed_stream. destruct (streams e !! id); [|done]. destruct (_ =? _)%N; [|done].
    by apply send_reset_ok, delete_stream_ok.
  - destruct (validation_tasks e !! i) as [t|] eqn:Ht; [|done]. apply validation_result_ok; [done..|].
    intros [-> Hok]%andb_true_iff. by eapply Hev.
  - destruct (validation_tasks e !! i); [|done]. by apply validation_failed_ok, delete_task_ok.
  - destruct m as [p| | | | | | |]; try done; try by apply stop_ok.
    destruct (decode_relay_message_frame p) as [f|]; [|done]. unfold on_frame.
    destruct (validate f) as [[]|]; try done; [by apply on_data_ok| |by apply on_handshake_ok].
    apply (delete_stream_ok (set_pending _ _)). by apply delete_pending_ok.
Qed.

(** Every step uses up at most one validation id. *)
Lemma next_send_reset id (e : env) : next_validation_id (send_reset id e) = next_validation_id e.
Proof. apply send_reset_fields. Qed.
Lemma next_record now (e : env) : next_validation_id (record_failed_handshake now e) = next_validation_id e.
Proof. unfold record_failed_handshake. by destruct (handshake_cooldown_until e). Qed.
Lemma next_reject now id (e : env) : next_validation_id (reject now id e) = next_validation_id e.
Proof. unfold reject. by rewrite next_record, next_send_reset. Qed.
Lemma next_try_send f (e : env) : next_validation_id (try_send_physical f e).1 = next_validation_id e.
Proof. unfold try_send_physical. by destruct (_ && _). Qed.
Lemma next_failed (e : env) : next_validation_id (validation_failed e) = next_validation_id e.
Proof.
  unfold validation_failed. generalize ((map_to_list (pending_handshakes e)).*1) as ids.
  change (next_validation_id e) with (next_validation_id (set_pending ∅ e)). generalize (set_pending ∅ e) as e'.
  intros e' ids. revert e'. induction ids as [|id ids IH]; intros e'; [done|]. cbn. by rewrite IH, next_send_reset.
Qed.

Lemma mux_step_next (e : env) ev :
  (next_validation_id (mux_step decode_relay_message_frame registry environment_id executor_registration_id e ev).1
   ≤ next_validation_id e + 1)%N.
Proof.
  assert (∀ n, ((n + 1) mod 2 ^ 64 ≤ n + 1)%N) as Hmod by (intros n; apply N.Div0.mod_le).
  unfold mux_step. destruct (stopped e); [cbn; lia|].
  destruct ev as [n| |reason|f|id inst|now i in_time|i|now m]; try (cbn; lia).
  - cbn [fst]. rewrite next_try_send. lia.
  - cbn [fst]. unfold closed_stream. repeat case_goal; rewrite ?next_send_reset; cbn; lia.
  - destruct (validation_tasks e !! i); [|cbn; lia]. cbn [fst]. unfold validation_result.
    repeat first [progress rewrite ?next_reject, ?next_send_reset|case_goal]; try (cbn; lia);
      match goal with H : try_send_physical ?f ?e = (?e', _) |- _ =>
        pose proof (next_try_send f e) as Hnext; rewrite H in Hnext end; cbn in *; lia.
  - destruct (validation_tasks e !! i); [|cbn; lia]. cbn [fst]. rewrite next_failed. cbn. lia.
  - destruct m as [p| | | | | | |]; try (cbn; lia). destruct (decode_relay_message_frame p) as [f|]; [|cbn; lia].
    unfold on_frame. destruct (validate f) as [[]|]; try (cbn; lia).
    + unfold on_data. cbv zeta.
      repeat first [progress cbn [fst]|progress rewrite ?next_record, ?next_send_reset|case_goal]; cbn; lia.
    + cbn [fst]. unfold on_handshake.
      repeat first [progress rewrite ?next_reject, ?next_send_reset|case_goal]; cbn [next_validation_id set_tasks set_pending set_next_id set_failures];
        try apply Hmod; lia.
Qed.

(** Resets and failure counts do not touch the streams. *)
Lemma streams_send_reset id (e : env) : streams (send_reset id e) = streams e.
Proof. apply send_reset_fields. Qed.
Lemma streams_record now (e : env) : streams (record_failed_handshake now e) = streams e.
Proof. unfold record_failed_handshake. by destruct (handshake_cooldown_until e). Qed.
Lemma streams_reject now id (e : env) : streams (reject now id e) = streams e.
Proof. unfold reject. by rewrite streams_record, streams_send_reset. Qed.
Lemma streams_try_send f (e : env) : streams (try_send_physical f e).1 = streams e.
Proof. unfold try_send_physical. by destruct (_ && _). Qed.
Lemma streams_failed (e : env) : streams (validation_failed e) = streams e.
Proof.
  unfold validation_failed. generalize ((map_to_list (pending_handshakes e)).*1) as ids.
  change (streams e) with (streams (set_pending ∅ e)). generalize (set_pending ∅ e) as e'.
  intros e' ids. revert e'. induction ids as [|id ids IH]; intros e'; [done|]. cbn. by rewrite IH, streams_send_reset.
Qed.

Lemma on_handshake_streams now f (e : env) :
  streams (on_handshake environment_id executor_registration_id now f e) = streams e.
Proof.
  unfold on_handshake. repeat first [progress rewrite ?streams_reject, ?streams_send_reset|case_goal]; done.
Qed.

Lemma validation_result_streams now t ok (e : env) id s :
  identities e → streams e !! id = Some s →
  streams (validation_result now t ok e) !! id = Some s ∨ is_Some (stopped (validation_result now t ok e)).
Proof.
  intros Hid Hs. unfold validation_result.
  destruct (pending_handshakes e !! t_stream_id t) as [p|] eqn:Hp; [|by left].
  destruct (negb _); [by left|]. destruct (negb ok); [left; by rewrite streams_reject|].
  case_bool_decide; [left; by rewrite streams_send_reset|].
  destruct (complete _) as [[st response]|]; [|left; by rewrite streams_reject].
  destruct (try_send_physical _ _) as [e1 []] eqn:Htry; [left|right; by eexists]. cbn.
  apply (f_equal (λ r, streams r.1)) in Htry. rewrite streams_try_send in Htry. cbn in Htry. rewrite <- Htry.
  rewrite lookup_insert_ne; [done|]. intros <-.
  rewrite (id_disjoint _ Hid (t_stream_id t)) in Hp; [done|by exists s].
Qed.

Abbreviation run := (run_mux decode_relay_message_frame registry environment_id executor_registration_id) (only parsing).

Lemma new_environment_ok : env_ok (new_environment : env).
Proof.
  constructor; constructor; cbn.
  all: try (apply Nat.le_0_l || (unfold MAX_FAILED_NOISE_HANDSHAKES; lia)).
  all: try by (intros; repeat match goal with
    | H : is_Some (∅ !! _) |- _ => destruct H as [? H]; by rewrite lookup_empty in H
    | H : owns _ _ _ |- _ => destruct H as [(? & H & _)|(? & H & _)]; cbn in H; by rewrite lookup_empty in H
    | H : ∅ !! _ = Some _ |- _ => by rewrite lookup_empty in H
    | H : _ ∈ [] |- _ => by apply elem_of_nil in H end).
Qed.

Lemma run_mux_ok : ∀ events (e : env), (∀ ev, ev ∈ events → verdicts_accepted ev) → env_ok e →
  (next_validation_id e + N.of_nat (length events) < 2 ^ 64)%N → env_ok (run e events).1.
Proof.
  induction events as [|ev events IH]; intros e Hev He Hn; [done|]. cbn [run_mux length] in *.
  pose proof (mux_step_ok e ev (Hev ev (list_elem_of_here _ _)) He) as Hok. pose proof (mux_step_next e ev) as Hnext.
  destruct (mux_step _ _ _ _ e ev) as [e' []]; cbn [fst] in *; [apply IH; [intros ev' ?; apply Hev; by right|apply Hok; lia|lia]|apply Hok; lia].
Qed.
End mux.

Section claims.
Context `{NoiseHandshake Handshake Key Stream}.
Context (decode_relay_message_frame : bytes → result rstr RelayMessageFrame)
  (registry : N → Key → rstr → bool) (environment_id executor_registration_id : rstr).

(** C34: Whatever arrives from the relay and however the tasks interleave,
    every active stream was opened by a handshake whose first message was
    bound to this environment, registration and stream id, carried a short
    authorization, and whose authenticated key the registry accepted with
    that authorization when a check ended in time; the bounds on streams, checks, queued frames and
    failed handshakes hold, a stream and a pending handshake never share an
    id, and no two of them an instance. *)
Theorem only_authorized_streams (events : list mux_event) (Hlen : (N.of_nat (length events) < 2 ^ 64)%N) :
  let e := (run_mux decode_relay_message_frame registry environment_id executor_registration_id
              new_environment events).1 in
  (∀ id s, streams e !! id = Some s → ∃ request h key p authorization,
     read_request (noise_channel_prologue environment_id executor_registration_id id) request = Ok (h, key, p) ∧
     parse_authorization p = Some authorization ∧
     (∃ now i, Validated now i true ∈ events ∧ registry now key authorization = true) ∧
     derived_from h (v_stream s)) ∧
  limits e ∧
  (∀ id, is_Some (streams e !! id) → pending_handshakes e !! id = None) ∧
  (∀ n id1 id2, owns e n id1 → owns e n id2 → id1 = id2).
Proof.
  intros e. set (accepted := λ key authorization, ∃ now i, Validated now i true ∈ events ∧ registry now key authorization = true).
  assert (env_ok accepted environment_id executor_registration_id e) as [Hl Hid].
  { apply run_mux_ok; [|apply new_environment_ok|exact Hlen]. intros ev Hev now i key a -> ?. by exists now, i. }
  split_and!; [|done|apply Hid|apply Hid].
  intros id s Hs. destruct (id_streams _ _ _ _ Hid id s Hs) as (h & key & a & (request & p & Hr & Ha) & Hreg & Hd).
  by exists request, h, key, p, a.
Qed.

(** A live stream is disturbed only by its own peer: a step keeps it as
    it is, unless the loop ends, its own task reports its end under its own
    instance (a late report of an earlier stream with the same id is
    ignored), or a valid data or reset frame with its id arrives. *)
Theorem streams_isolated (events : list mux_event) (ev : mux_event) (id : rstr) (s : VirtualStream Stream)
    (Hlen : (N.of_nat (length events) < 2 ^ 64)%N) :
  let run := run_mux decode_relay_message_frame registry environment_id executor_registration_id in
  let step := mux_step decode_relay_message_frame registry environment_id executor_registration_id in
  let e := (run new_environment events).1 in
  let e' := (step e ev).1 in
  streams e !! id = Some s →
  streams e' !! id = Some s ∨ is_Some (stopped e') ∨ ev = StreamEnded id (instance_id s) ∨
  ∃ now p f, ev = WsYields now (WsBinary p) ∧ decode_relay_message_frame p = Ok f ∧ stream_id f = id ∧
    (validate f = Ok KData ∨ validate f = Ok KReset).
Proof.
  intros run step e e' Hs. assert (env_ok (λ _ _, True) environment_id executor_registration_id e) as [_ Hid].
  { by apply run_mux_ok; [|apply new_environment_ok|exact Hlen]. }
  subst e'. clearbody e. unfold step, mux_step. clear run step Hlen. destruct (stopped e); [by left|].
  destruct ev as [n| |reason|f|i inst|now i in_time|i|now m]; cbn [fst]; [by left|by left|by right; left; eexists|..].
  - left. by rewrite streams_try_send.
  - unfold closed_stream. destruct (streams e !! i) as [s'|] eqn:Hi; [|by left].
    destruct (N.eqb_spec (instance_id s') inst) as [<-|]; [|by left]. rewrite streams_send_reset. cbn.
    destruct (decide (i = id)) as [->|]; [rewrite Hs in Hi; injection Hi as ->; auto|].
    left. by rewrite lookup_delete_ne.
  - destruct (validation_tasks e !! i) as [t|]; [|by left]. cbn [fst].
    destruct (validation_result_streams (λ _ _, True) environment_id executor_registration_id now t (in_time && registry now (t_key t) (t_authorization t))
      (set_tasks (delete i (validation_tasks e)) e) id s) as [|]; [|done|by left|by right; left].
    apply (identities_sub _ _ _ e); try done. intros t'. apply list_elem_of_delete_inv.
  - destruct (validation_tasks e !! i); [|by left]. left. cbn [fst]. by rewrite streams_failed.
  - destruct m as [p| | | | | | |]; try (by left); try (by right; left; eexists).
    destruct (decode_relay_message_frame p) as [f|] eqn:Hf; [|by left]. unfold on_frame.
    destruct (validate f) as [k|] eqn:Hv; [|by left].
    destruct (decide (stream_id f = id ∧ (k = KData ∨ k = KReset))) as [[Hi Hk]|Hother].
    { right; right; right. exists now, p, f. split_and!; [done..|]. by destruct Hk as [->| ->]; auto. }
    left. destruct k; try done; cbn [fst].
    + assert (stream_id f ≠ id) by (intros <-; auto). unfold on_data. cbv zeta.
      repeat first [progress cbn [fst]|progress rewrite ?streams_record, ?streams_send_reset|case_goal];
        cbn; rewrite ?lookup_delete_ne, ?lookup_insert_ne by done; done.
    + assert (stream_id f ≠ id) by (intros <-; auto). cbn. by rewrite lookup_delete_ne.
    + by rewrite on_handshake_streams.
Qed.
End claims.

(** ** The prologue *)

(** The value of big-endian digits. *)
Definition be_value (digits : bytes) : N := foldl (λ acc d, acc * 256 + d)%N 0%N digits.

Lemma u64_be_value n : (n < 2 ^ 64)%N → be_value (u64_to_be_bytes n) = n.
Proof.
  intros Hn. unfold be_value, u64_to_be_bytes. cbn [fmap list_fmap foldl].
  assert (∀ i, n / 2 ^ (8 * i) = n / 2 ^ (8 * (i + 1)) * 256 + n / 2 ^ (8 * i) mod 256)%N as Hstep.
  { intros i. replace (2 ^ (8 * (i + 1)))%N with (2 ^ (8 * i) * 256)%N
      by (rewrite N.mul_add_distr_l, N.pow_add_r; done).
    rewrite <- N.Div0.div_div. pose proof (N.div_mod (n / 2 ^ (8 * i)) 256 ltac:(done)). lia. }
  assert (n / 2 ^ (8 * (7 + 1)) = 0)%N as H8 by (by apply N.div_small).
  pose proof (Hstep 7%N) as H7. rewrite H8 in H7. cbn [N.add] in H7. rewrite N.mul_0_l, N.add_0_l in H7.
  rewrite N.mul_0_l, N.add_0_l, <- H7.
  rewrite <- (Hstep 6%N : n / 2 ^ (8 * 6) = n / 2 ^ (8 * 7) * 256 + _)%N.
  rewrite <- (Hstep 5%N : n / 2 ^ (8 * 5) = n / 2 ^ (8 * 6) * 256 + _)%N.
  rewrite <- (Hstep 4%N : n / 2 ^ (8 * 4) = n / 2 ^ (8 * 5) * 256 + _)%N.
  rewrite <- (Hstep 3%N : n / 2 ^ (8 * 3) = n / 2 ^ (8 * 4) * 256 + _)%N.
  rewrite <- (Hstep 2%N : n / 2 ^ (8 * 2) = n / 2 ^ (8 * 3) * 256 + _)%N.
  rewrite <- (Hstep 1%N : n / 2 ^ (8 * 1) = n / 2 ^ (8 * 2) * 256 + _)%N.
  rewrite <- (Hstep 0%N : n / 2 ^ (8 * 0) = n / 2 ^ (8 * 1) * 256 + _)%N.
  by rewrite N.mul_0_r, N.pow_0_r, N.div_1_r.
Qed.

(** A part and what precedes it can be told apart. *)
Lemma prologue_part_inj x y (r r' : bytes) :
  (byte_count x < 2 ^ 64)%N → (byte_count y < 2 ^ 64)%N →
  (u64_to_be_bytes (byte_count x mod 2 ^ 64) ++ x) ++ r = (u64_to_be_bytes (byte_count y mod 2 ^ 64) ++ y) ++ r' →
  x = y ∧ r = r'.
Proof.
  intros Hx Hy H. rewrite !N.mod_small in H by done. rewrite <- !(assoc_L (++)) in H.
  apply app_inj_1 in H as [Hlen H]; [|done]. apply (f_equal be_value) in Hlen. rewrite !u64_be_value in Hlen by done.
  apply app_inj_1 in H; [done|]. unfold byte_count in Hlen. lia.
Qed.

Lemma encode_inj a b : Forall (λ c, is_scalar c = true) a → Forall (λ c, is_scalar c = true) b →
  Utf8Stream.encode a = Utf8Stream.encode b → a = b.
Proof.
  intros Ha Hb H. apply (f_equal Utf8Stream.decode) in H. rewrite !decode_encode in H by done. by injection H.
Qed.

(** A string of the program: Unicode scalar values, with a length in a [usize]. *)
Definition is_str (s : rstr) : Prop :=
  Forall (λ c, is_scalar c = true) s ∧ (byte_count (Utf8Stream.encode s) < 2 ^ 64)%N.

(** The prologue determines the environment, the registration and the
    stream it was made for, wherever the boundaries between the three lie:
    a handshake for one stream is no handshake for another. *)
Theorem prologue_injective (environment_id registration_id id environment_id' registration_id' id' : rstr)
    (Henv : is_str environment_id) (Hreg : is_str registration_id) (Hid : is_str id)
    (Henv' : is_str environment_id') (Hreg' : is_str registration_id') (Hid' : is_str id')
    (Heq : noise_channel_prologue environment_id registration_id id =
           noise_channel_prologue environment_id' registration_id' id') :
  environment_id = environment_id' ∧ registration_id = registration_id' ∧ id = id'.
Proof.
  unfold noise_channel_prologue, append_prologue_part in Heq. cbn [app] in Heq.
  rewrite <- !(assoc_L (++)) in Heq. do 2 apply app_inv_head in Heq.
  destruct Henv, Hreg, Hid, Henv', Hreg', Hid'.
  rewrite (assoc_L (++)), (assoc_L (++) (u64_to_be_bytes (byte_count (Utf8Stream.encode environment_id') mod _))) in Heq.
  apply prologue_part_inj in Heq as [He%encode_inj Heq]; [|done..].
  rewrite (assoc_L (++)), (assoc_L (++) (u64_to_be_bytes (byte_count (Utf8Stream.encode registration_id') mod _))) in Heq.
  apply prologue_part_inj in Heq as [Hr%encode_inj Heq]; [|done..].
  rewrite <- (app_nil_r (_ ++ Utf8Stream.encode id)), <- (app_nil_r (_ ++ Utf8Stream.encode id')) in Heq.
  apply prologue_part_inj in Heq as [Hi%encode_inj _]; done.
Qed.

Lemma prologue_injective_witness :
  let env := $"env-1" in let reg := $"reg" in let id := $"stream-7" in
  is_str env ∧ env = env ∧ reg = reg ∧ id = id.
Proof.
  intros env reg id.
  assert (is_str env ∧ is_str reg ∧ is_str id) as (He & Hr & Hi).
  { unfold is_str. apply (bool_decide_unpack _). vm_compute. exact I. }
  split; [exact He|]. apply (prologue_injective env reg id env reg id He Hr Hi He Hr Hi). reflexivity.
Defined.

(** ** A concrete relay *)

(** Frames for one stream, a handshake that carries the authorization in the
    clear, a registry that knows one word, streams of [NoiseStream]. *)
Definition toy_decode (p : bytes) : result rstr RelayMessageFrame :=
  match p with
  | 72%N :: rest => Ok (handshake_frame ($"s") rest)
  | 68%N :: n :: rest => Ok (data_frame ($"s") n rest)
  | 82%N :: rest => Ok (reset_frame ($"s") ($"bye"))
  | _ => Err []
  end.
Definition toy_registry (now : N) (key authorization : rstr) : bool := bool_decide (authorization = $"ok").
#[local] Instance toy_handshake : NoiseHandshake bytes rstr (NoiseVirtualStream bytes) :=
  noise_streams (H0 := toy_cipher) (λ prologue request, Ok (request, $"key", request)) (λ h, Ok [1%N]).

Definition toy_events : list mux_event := [
  WsYields 0 (WsBinary [72; 111; 107]%N);
  Validated 1 0 true;
  WsYields 2 (WsBinary ([68; 0] ++ [0; 0; 0; 2; 104; 105] ++ toy_tag 0)%N);
  StreamEnded ($"s") 7
].

Lemma only_authorized_streams_witness :
  let e := (run_mux toy_decode toy_registry ($"e") ($"r") new_environment toy_events).1 in
  (N.of_nat (length toy_events) < 2 ^ 64)%N ∧
  (queue ∘ v_stream <$> (streams e !! ($"s") : option (VirtualStream (NoiseVirtualStream bytes)))) = Some [[104; 105]%N] ∧
  (∀ id s, streams e !! id = Some s → ∃ request h key p authorization,
     read_request (noise_channel_prologue ($"e") ($"r") id) request = Ok (h, key, p) ∧
     parse_authorization p = Some authorization ∧
     (∃ now i, Validated now i true ∈ toy_events ∧ toy_registry now key authorization = true) ∧
     derived_from h (v_stream s)) ∧
  limits e ∧
  (∀ id, is_Some (streams e !! id) → pending_handshakes e !! id = None) ∧
  (∀ n id1 id2, owns e n id1 → owns e n id2 → id1 = id2).
Proof.
  intros e. split; [reflexivity|]. split; [vm_compute; reflexivity|].
  apply (only_authorized_streams toy_decode toy_registry ($"e") ($"r") toy_events). reflexivity.
Defined.

Lemma streams_isolated_witness :
  let run := run_mux toy_decode toy_registry ($"e") ($"r") in
  let step := mux_step toy_decode toy_registry ($"e") ($"r") in
  let e := (run new_environment toy_events).1 in
  let ev := WsYields 3 (WsBinary [72; 111; 107]%N) in
  let e' := (step e ev).1 in
  ∃ s, streams e !! ($"s") = Some s ∧
  (streams e' !! ($"s") = Some s ∨ is_Some (stopped e') ∨ ev = StreamEnded ($"s") (instance_id s) ∨
   ∃ now p f, ev = WsYields now (WsBinary p) ∧ toy_decode p = Ok f ∧ stream_id f = $"s" ∧
     (validate f = Ok KData ∨ validate f = Ok KReset)).
Proof.
  intros run step e ev e'. destruct (streams e !! ($"s")) as [s|] eqn:Hs; [|vm_compute in Hs; discriminate].
  exists s. split; [reflexivity|].
  apply (streams_isolated toy_decode toy_registry ($"e") ($"r") toy_events ev ($"s") s); [reflexivity|exact Hs].
Defined.
