(* ===== verification/ShellSyntax.v ===== *)
(** * Commands inside shell scripts

    [shell-command/src/bash.rs]: which commands a script of [bash -lc] runs,
    read off the syntax tree of Tree-sitter.  The tree is data: the source's
    parser for it is a parameter, and a node carries the text that
    [utf8_text] finds for it. *)

From S2P Require Import Prelude RustStr.

(** ** Shells *)

Inductive ShellType := Zsh | Bash | PowerShell | Sh | Cmd.
#[export] Instance ShellType_eq : EqDecision ShellType.
Proof. solve_decision. Defined.

Definition shell_of_name (name : rstr) : option ShellType :=
  if bool_decide (name = $"zsh") then Some Zsh
  else if bool_decide (name = $"sh") then Some Sh
  else if bool_decide (name = $"cmd") then Some Cmd
  else if bool_decide (name = $"bash") then Some Bash
  else if bool_decide (name = $"pwsh") || bool_decide (name = $"powershell") then Some PowerShell
  else None.

(** [std::path::Path] on a POSIX host: the root, a leading [.] and the
    components in between; paths are equal when these are. *)
Definition SEPARATOR : char := 47%N.
Definition path_components (p : rstr) : bool * bool * list rstr :=
  (starts_with [SEPARATOR] p, bool_decide (head (split_char SEPARATOR p) = Some ($".")),
   filter (λ c, c ≠ [] ∧ c ≠ $".") (split_char SEPARATOR p)).
Definition path_eq (p q : rstr) : bool := bool_decide (path_components p = path_components q).

(** [Path::file_name] and [Path::file_stem]. *)
Definition file_name (p : rstr) : option rstr :=
  name ← last (path_components p).2; if bool_decide (name = $"..") then None else Some name.
Definition file_stem (p : rstr) : option rstr :=
  name ← file_name p;
  match rsplit_once 46%N name with
  | Some (before, _) => Some (if is_empty before then name else before)
  | None => Some name
  end.

(** A stem that is not the path itself is shorter: the length is fuel. *)
Fixpoint detect_shell_loop (fuel : nat) (shell_path : rstr) : option ShellType :=
  match shell_of_name shell_path with
  | Some t => Some t
  | None =>
      match fuel, file_stem shell_path with
      | S fuel', Some shell_name =>
          if negb (path_eq shell_name shell_path) then detect_shell_loop fuel' shell_name else None
      | _, _ => None
      end
  end.

Definition detect_shell_type (shell_path : rstr) : option ShellType :=
  detect_shell_loop (length shell_path) shell_path.

Definition is_posix_shell (shell : rstr) : bool :=
  match detect_shell_type shell with Some Zsh | Some Bash | Some Sh => true | _ => false end.

Definition extract_bash_command (command : list rstr) : option (rstr * rstr) :=
  match command with
  | [shell; flag; script] =>
      if negb (bool_decide (flag = $"-lc") || bool_decide (flag = $"-c")) || negb (is_posix_shell shell)
      then None else Some (shell, script)
  | _ => None
  end.

(** ** Syntax trees *)

#[warnings="-register-all"]
Inductive Node := mkNode (kind : rstr) (named : bool) (start_byte : N) (text : rstr) (children : list Node).

Definition kind (n : Node) : rstr := let 'mkNode k _ _ _ _ := n in k.
Definition is_named (n : Node) : bool := let 'mkNode _ b _ _ _ := n in b.
Definition start_byte (n : Node) : N := let 'mkNode _ _ s _ _ := n in s.
Definition text (n : Node) : rstr := let 'mkNode _ _ _ t _ := n in t.
Definition children (n : Node) : list Node := let 'mkNode _ _ _ _ l := n in l.
Definition named_children (n : Node) : list Node := filter (λ c, is_named c = true) (children n).

(** A tree and whether the parser found errors in it. *)
Record Tree := mkTree { root_node : Node; has_error : bool }.

Definition kind_in (ks : list rstr) (n : Node) : bool := bool_decide (kind n ∈ ks).

Definition ALLOWED_KINDS : list rstr :=
  [$"program"; $"list"; $"pipeline"; $"command"; $"command_name"; $"word"; $"string"; $"string_content";
   $"raw_string"; $"number"; $"concatenation"].
Definition ALLOWED_PUNCT_TOKENS : list rstr := [$"&&"; $"||"; $";"; $"|"; [DQUOTE]; $"'"].

(** ** Words *)

Definition EXPANSION_CHARS : rstr := $"{}*?[]\~^#$`".
Definition is_word (n : Node) : bool := kind_in [$"word"; $"number"] n.

Definition is_literal_word_or_number (n : Node) : bool :=
  is_word n && is_empty (named_children n) &&
  (negb (starts_with ($"=") (text n)) && negb (existsb (λ c, bool_decide (c ∈ EXPANSION_CHARS)) (text n))).

(** [windows(2)] finds an escape that double quotes do not keep. *)
Fixpoint has_escape (s : rstr) : bool :=
  match s with
  | c :: ((d :: _) as rest) =>
      (bool_decide (c = 92%N) && bool_decide (d ∈ [36; 96; 34; 92; 10]%N)) || has_escape rest
  | _ => false
  end.

Definition parse_double_quoted_string (n : Node) : option rstr :=
  if negb (kind_in [$"string"] n) then None
  else if negb (forallb (kind_in [$"string_content"]) (named_children n)) then None
  else
    stripped ← (strip_prefix [DQUOTE] (text n) ≫= strip_suffix [DQUOTE]);
    if has_escape stripped then None else Some stripped.

Definition parse_raw_string (n : Node) : option rstr :=
  if negb (kind_in [$"raw_string"] n) then None
  else strip_prefix ($"'") (text n) ≫= strip_suffix ($"'").

(** ** Plain commands *)

(** A part of a concatenated argument. *)
Definition plain_part (n : Node) : option rstr :=
  if is_word n then Some (text n)
  else if kind_in [$"string"] n then parse_double_quoted_string n
  else if kind_in [$"raw_string"] n then parse_raw_string n
  else None.

Definition non_empty_str (s : rstr) : option rstr := if is_empty s then None else Some s.

(** A child of a command node. *)
Definition plain_word (n : Node) : option rstr :=
  if kind_in [$"command_name"] n then
    word_node ← head (named_children n);
    if kind_in [$"word"] word_node then Some (text word_node) else None
  else if is_word n then Some (text n)
  else if kind_in [$"string"] n then parse_double_quoted_string n
  else if kind_in [$"raw_string"] n then parse_raw_string n
  else if kind_in [$"concatenation"] n then
    parts ← mapM plain_part (named_children n); non_empty_str (concat parts)
  else None.

Definition parse_plain_command_from_node (n : Node) : option (list rstr) :=
  if negb (kind_in [$"command"] n) then None else mapM plain_word (named_children n).

(** What the walk admits at a node. *)
Definition node_allowed (n : Node) : bool :=
  if is_named n then kind_in ALLOWED_KINDS n && (negb (is_word n) || is_literal_word_or_number n)
  else
    negb (existsb (λ c, bool_decide (c ∈ $"&;|")) (kind n) && negb (kind_in ALLOWED_PUNCT_TOKENS n)) &&
    (kind_in ALLOWED_PUNCT_TOKENS n || is_empty (trim (kind n))).

(** The walk with its stack, popped and pushed at the end (the head here):
    [None] at the first node that is not admitted.  The fuel is the number
    of nodes. *)
Fixpoint node_size (n : Node) : nat :=
  let 'mkNode _ _ _ _ l := n in S (list_sum (List.map node_size l)).

Fixpoint walk (fuel : nat) (stack : list Node) (command_nodes : list Node) : option (list Node) :=
  match fuel, stack with
  | S fuel', n :: stack =>
      if node_allowed n then
        walk fuel' (rev (children n) ++ stack)
          (if is_named n && kind_in [$"command"] n then command_nodes ++ [n] else command_nodes)
      else None
  | _, _ => Some command_nodes
  end.

(** [sort_by_key] is stable. *)
Fixpoint insert_by_start (n : Node) (l : list Node) : list Node :=
  match l with
  | [] => [n]
  | m :: l' => if (start_byte n <=? start_byte m)%N then n :: l else m :: insert_by_start n l'
  end.
Definition sort_by_start (l : list Node) : list Node := foldr insert_by_start [] l.

Definition try_parse_word_only_commands_sequence (tree : Tree) : option (list (list rstr)) :=
  if has_error tree then None
  else
    command_nodes ← walk (node_size (root_node tree)) [root_node tree] [];
    mapM parse_plain_command_from_node (sort_by_start command_nodes).

(** ** Literal commands *)

(** Parts of a concatenation may nest; the fuel is the node's size. *)
Fixpoint literal_word (fuel : nat) (n : Node) : option rstr :=
  if is_literal_word_or_number n then Some (text n)
  else if kind_in [$"string"] n then parse_double_quoted_string n
  else if kind_in [$"raw_string"] n then parse_raw_string n
  else if kind_in [$"concatenation"] n then
    match fuel with
    | S fuel' => parts ← mapM (literal_word fuel') (named_children n); non_empty_str (concat parts)
    | 0 => None
    end
  else None.

Definition parse_literal_shell_word (n : Node) : option rstr := literal_word (node_size n) n.

(** The words so far and whether the command name was found; [None] is the
    early return of [?]. *)
Fixpoint literal_words (cs : list Node) (words : list rstr) (found : bool) : option (list rstr * bool) :=
  match cs with
  | [] => Some (words, found)
  | c :: cs =>
      if kind_in [$"command_name"] c then
        name_node ← head (named_children c);
        name ← parse_literal_shell_word name_node;
        literal_words cs (words ++ [name]) true
      else if found then
        match parse_literal_shell_word c with
        | Some w => literal_words cs (words ++ [w]) found
        | None => literal_words cs words found
        end
      else literal_words cs words found
  end.

Definition parse_literal_command_from_node (n : Node) : option (list rstr) :=
  if negb (kind_in [$"command"] n) then None
  else '(words, found) ← literal_words (named_children n) [] false; if (found : bool) then Some words else None.

Fixpoint literal_walk (fuel : nat) (stack : list Node) (commands : list (list rstr)) : list (list rstr) :=
  match fuel, stack with
  | S fuel', n :: stack =>
      literal_walk fuel' (rev (named_children n) ++ stack)
        (match (if kind_in [$"command"] n then parse_literal_command_from_node n else None) with
         | Some c => commands ++ [c]
         | None => commands
         end)
  | _, _ => commands
  end.

Section scripts.
Context (try_parse_shell : rstr → option Tree).

Definition parse_shell_script_into_commands (script : rstr) : option (list (list rstr)) :=
  tree ← try_parse_shell script; try_parse_word_only_commands_sequence tree.

Definition parse_shell_lc_plain_commands (command : list rstr) : option (list (list rstr)) :=
  '(_, script) ← extract_bash_command command; parse_shell_script_into_commands script.

Definition parse_shell_lc_literal_commands (command : list rstr) : option (list (list rstr)) :=
  '(_, script) ← extract_bash_command command;
  tree ← try_parse_shell script;
  if has_error tree then None
  else Some (literal_walk (node_size (root_node tree)) [root_node tree] []).
End scripts.

(** ** The walks see every command *)

Fixpoint all_nodes (n : Node) : list Node :=
  n :: (let 'mkNode _ _ _ _ l := n in concat (List.map all_nodes l)).

Definition is_command (n : Node) : bool := is_named n && kind_in [$"command"] n.

Lemma all_nodes_eq n : all_nodes n = n :: concat (all_nodes <$> children n).
Proof. by destruct n. Qed.

Lemma node_size_eq n : node_size n = S (list_sum (node_size <$> children n)).
Proof. by destruct n. Qed.

Lemma list_sum_perm (l k : list nat) : l ≡ₚ k → list_sum l = list_sum k.
Proof. induction 1; [done|..]; unfold list_sum in *; cbn [foldr] in *; lia. Qed.

Lemma sizes_rev (l : list Node) : list_sum (node_size <$> rev l) = list_sum (node_size <$> l).
Proof. apply list_sum_perm. by rewrite <- Permutation_rev. Qed.

Lemma concat_perm {A} (l k : list (list A)) : l ≡ₚ k → concat l ≡ₚ concat k.
Proof.
  induction 1 as [|x l k _ IH|x y l|l k m _ IH1 _ IH2]; cbn; [done|by rewrite IH| |by rewrite IH1].
  by rewrite !(assoc_L (++)), (Permutation_app_comm x y).
Qed.

(** The admitted walk returns the command nodes of the tree. *)
Lemma walk_spec : ∀ fuel stack acc l, list_sum (node_size <$> stack) ≤ fuel → walk fuel stack acc = Some l →
  Forall (λ n, node_allowed n = true) (concat (all_nodes <$> stack)) ∧
  l ≡ₚ acc ++ filter (λ n, is_command n = true) (concat (all_nodes <$> stack)).
Proof.
  induction fuel as [|fuel IH]; intros [|n stack] acc l Hf Hw; cbn [walk] in Hw.
  - injection Hw as <-. by rewrite app_nil_r.
  - cbn in Hf. rewrite node_size_eq in Hf. lia.
  - injection Hw as <-. by rewrite app_nil_r.
  - destruct (node_allowed n) eqn:Hn; [|done]. cbn [fmap list_fmap list_sum foldr] in Hf. rewrite node_size_eq in Hf.
    apply IH in Hw as [Hall Hl].
    + rewrite fmap_app, concat_app in Hall, Hl.
      assert (concat (all_nodes <$> rev (children n)) ≡ₚ concat (all_nodes <$> children n)) as Hrev
        by (apply concat_perm, fmap_Permutation; symmetry; apply Permutation_rev).
      rewrite Hrev in Hall, Hl. cbn [fmap list_fmap concat]. rewrite all_nodes_eq. split.
      * cbn. by constructor.
      * rewrite Hl. cbn [app]. rewrite filter_cons. fold (is_command n).
        destruct (is_command n); [by rewrite <- (assoc_L (++))|done].
    + rewrite fmap_app, list_sum_app, sizes_rev. unfold list_sum in *. lia.
Qed.

(** What Tree-sitter and its Bash grammar guarantee of a tree without errors:
    tokens without a name are leaves, and the words of a command follow its
    name. *)
Record grammatical (root : Node) : Prop := {
  gr_tokens n : n ∈ all_nodes root → is_named n = false → children n = [];
  gr_commands n : n ∈ all_nodes root → kind n = $"command" →
    ∃ name words, named_children n = name :: words ∧ kind name = $"command_name" ∧
      Forall (λ w, kind w ≠ $"command_name") words
}.

Lemma node_rect_children (P : Node → Prop) : (∀ n, (∀ c, c ∈ children n → P c) → P n) → ∀ n, P n.
Proof.
  intros Hstep. assert (∀ k n, node_size n ≤ k → P n) as Hgen; [|intros n; by apply (Hgen (node_size n))].
  induction k as [|k IH]; intros n Hk; rewrite node_size_eq in Hk; [lia|]. apply Hstep. intros c Hc. apply IH.
  enough (node_size c ≤ list_sum (node_size <$> children n)) by lia. clear Hk. induction Hc as [|c d l Hc IHc].
  - unfold list_sum. cbn. lia.
  - unfold list_sum in *. cbn. lia.
Qed.

Lemma all_nodes_trans n : ∀ m c, m ∈ all_nodes n → c ∈ all_nodes m → c ∈ all_nodes n.
Proof.
  induction n as [n IH] using node_rect_children. intros m c Hm Hc. rewrite all_nodes_eq in Hm.
  apply elem_of_cons in Hm as [->|(d & Hd & Hm)%elem_of_concat_fmap]; [done|].
  rewrite all_nodes_eq. right. apply elem_of_concat_fmap. exists d. split; [done|]. by eapply IH.
Qed.

Lemma all_nodes_self n : n ∈ all_nodes n.
Proof. rewrite all_nodes_eq. left. Qed.

Lemma all_nodes_child n c : c ∈ children n → c ∈ all_nodes n.
Proof.
  intros Hc. rewrite all_nodes_eq. right. apply elem_of_concat_fmap. exists c. split; [done|apply all_nodes_self].
Qed.

Lemma grammatical_sub n m : grammatical n → m ∈ all_nodes n → grammatical m.
Proof. intros [H1 H2] Hm. split; intros k Hk; [apply H1|apply H2]; by eapply all_nodes_trans. Qed.

(** ** Plain commands are literal commands *)

(** The commands below a node, by structural recursion on the named part. *)
Definition literal_commands (ns : list Node) : list (list rstr) :=
  omap (λ n, if kind_in [$"command"] n then parse_literal_command_from_node n else None) ns.

Fixpoint named_nodes (n : Node) : list Node :=
  n :: (let 'mkNode _ _ _ _ l := n in concat (List.map (λ c, if is_named c then named_nodes c else []) l)).

Lemma named_nodes_eq n : named_nodes n = n :: concat (named_nodes <$> named_children n).
Proof.
  destruct n as [k b s t l]. cbn [named_nodes]. f_equal. unfold named_children. cbn [children].
  induction l as [|c l IH]; [done|]. cbn [List.map concat]. rewrite filter_cons, IH.
  by destruct (is_named c).
Qed.

Lemma named_size n : list_sum (node_size <$> named_children n) < node_size n.
Proof.
  rewrite node_size_eq. unfold named_children. induction (children n) as [|c l IH]; [apply Nat.lt_0_succ|].
  rewrite filter_cons. unfold list_sum in *. case_decide; cbn [fmap list_fmap foldr] in *; lia.
Qed.

Lemma literal_walk_spec : ∀ fuel stack acc, list_sum (node_size <$> stack) ≤ fuel →
  literal_walk fuel stack acc ≡ₚ acc ++ literal_commands (concat (named_nodes <$> stack)).
Proof.
  induction fuel as [|fuel IH]; intros [|n stack] acc Hf; cbn [literal_walk].
  - by rewrite app_nil_r.
  - cbn in Hf. rewrite node_size_eq in Hf. lia.
  - by rewrite app_nil_r.
  - cbn [fmap list_fmap list_sum foldr] in Hf. rewrite IH.
    + rewrite fmap_app, concat_app.
      assert (concat (named_nodes <$> rev (named_children n)) ≡ₚ concat (named_nodes <$> named_children n)) as Hrev
        by (apply concat_perm, fmap_Permutation; symmetry; apply Permutation_rev).
      unfold literal_commands. rewrite Hrev. cbn [fmap list_fmap concat]. rewrite named_nodes_eq. cbn [app omap list_omap].
      destruct (if kind_in _ n then _ else _); [by rewrite <- (assoc_L (++))|done].
    + rewrite fmap_app, list_sum_app, sizes_rev. pose proof (named_size n). unfold list_sum in *. lia.
Qed.

Lemma named_part n : (∀ m, m ∈ all_nodes n → is_named m = false → children m = []) → is_named n = true →
  filter (λ m, is_command m = true) (all_nodes n) = filter (λ m, kind_in [$"command"] m = true) (named_nodes n).
Proof.
  induction n as [n IH] using node_rect_children. intros Hleaf Hn. rewrite all_nodes_eq, named_nodes_eq.
  rewrite !filter_cons. assert (is_command n = kind_in [$"command"] n) as Hcmd by (unfold is_command; by rewrite Hn).
  enough (filter (λ m, is_command m = true) (concat (all_nodes <$> children n)) =
          filter (λ m, kind_in [$"command"] m = true) (concat (named_nodes <$> named_children n))) as ->.
  { do 2 case_decide; congruence. }
  clear Hcmd.
  assert (∀ c, c ∈ children n → ∀ m, m ∈ all_nodes c → is_named m = false → children m = []) as Hc.
  { intros c Hc m Hm. apply Hleaf. eapply all_nodes_trans; [by apply all_nodes_child|done]. }
  clear Hleaf Hn. unfold named_children. induction (children n) as [|c l IHl]; [done|].
  rewrite filter_cons. cbn [fmap list_fmap concat]. rewrite filter_app, IHl.
  - case_decide as Hnamed.
    + cbn [fmap list_fmap concat]. rewrite filter_app. by rewrite IH; [| left|apply Hc; left|].
    + apply not_true_is_false in Hnamed. rewrite all_nodes_eq, (Hc c) by (done || left || apply all_nodes_self).
      cbn [fmap list_fmap concat]. rewrite filter_cons, decide_False; [done|]. unfold is_command. by rewrite Hnamed.
  - intros d Hd. apply IH. by right.
  - intros d Hd. apply Hc. by right.
Qed.

Lemma insert_by_start_perm n l : insert_by_start n l ≡ₚ n :: l.
Proof. induction l as [|m l IH]; [done|]. cbn. destruct (_ <=? _)%N; [done|]. rewrite IH. apply Permutation_swap. Qed.

Lemma sort_by_start_perm l : sort_by_start l ≡ₚ l.
Proof. induction l as [|n l IH]; [done|]. cbn. by rewrite insert_by_start_perm, IH. Qed.

Lemma kind_in_1 k n : kind_in [k] n = true ↔ kind n = k.
Proof. unfold kind_in. rewrite bool_decide_eq_true. apply list_elem_of_singleton. Qed.

Lemma mapM_impl {A B} (f g : A → option B) l k :
  (∀ x y, x ∈ l → f x = Some y → g x = Some y) → mapM f l = Some k → mapM g l = Some k.
Proof.
  revert k. induction l as [|x l IH]; intros k Hfg Hf; [done|]. cbn in *. apply bind_Some in Hf as (y & Hy & Hf).
  apply bind_Some in Hf as (ys & Hys & Hf). rewrite (Hfg x y) by (done || left). cbn.
  rewrite (IH ys); [done| |done]. intros z w Hz. apply Hfg. by right.
Qed.

(** A literal word is its text, its contents or the concatenation of its parts. *)
Definition allowed (n : Node) : Prop := Forall (λ m, node_allowed m = true) (all_nodes n).

Lemma allowed_word n : is_named n = true → allowed n → is_word n = true → is_literal_word_or_number n = true.
Proof.
  unfold allowed. rewrite all_nodes_eq, Forall_cons. intros Hn [Ha _] Hw. unfold node_allowed in Ha.
  rewrite Hn, Hw in Ha. by apply andb_true_iff in Ha as [_ ?].
Qed.

Lemma allowed_child n c : allowed n → c ∈ children n → allowed c.
Proof.
  unfold allowed. rewrite !Forall_forall. intros Ha Hc m Hm. apply Ha. eapply all_nodes_trans; [|done].
  by apply all_nodes_child.
Qed.

Lemma named_child n c : c ∈ named_children n → is_named c = true ∧ c ∈ children n.
Proof. unfold named_children. by rewrite list_elem_of_filter. Qed.

Lemma not_literal n : is_word n = false → is_literal_word_or_number n = false.
Proof. intros H. unfold is_literal_word_or_number. by rewrite H. Qed.

Lemma literal_part fuel n w : is_named n = true → allowed n → plain_part n = Some w → literal_word fuel n = Some w.
Proof.
  intros Hn Ha. unfold plain_part. destruct (is_word n) eqn:Hw.
  { intros [= <-]. destruct fuel; cbn [literal_word]; by rewrite allowed_word. }
  destruct (kind_in [$"string"] n) eqn:Hs.
  { intros Hp. destruct fuel; cbn [literal_word]; by rewrite (not_literal n Hw), Hs. }
  destruct (kind_in [$"raw_string"] n) eqn:Hr; [|done].
  intros Hp. destruct fuel; cbn [literal_word]; by rewrite (not_literal n Hw), Hs, Hr.
Qed.

Lemma literal_of_plain n w : is_named n = true → allowed n → kind n ≠ $"command_name" →
  plain_word n = Some w → parse_literal_shell_word n = Some w.
Proof.
  intros Hn Ha Hk. unfold plain_word, parse_literal_shell_word.
  destruct (kind_in [$"command_name"] n) eqn:Hc; [by apply kind_in_1 in Hc|].
  destruct (is_word n) eqn:Hw; [intros Hp; apply literal_part; [done..|]; unfold plain_part; by rewrite Hw|].
  destruct (kind_in [$"string"] n) eqn:Hs.
  { intros Hp. apply literal_part; [done..|]. unfold plain_part. by rewrite Hw, Hs. }
  destruct (kind_in [$"raw_string"] n) eqn:Hr.
  { intros Hp. apply literal_part; [done..|]. unfold plain_part. by rewrite Hw, Hs, Hr. }
  destruct (kind_in [$"concatenation"] n) eqn:Hcat; [|done].
  rewrite node_size_eq. cbn [literal_word]. rewrite (not_literal n Hw), Hs, Hr, Hcat.
  destruct (mapM plain_part (named_children n)) as [parts|] eqn:Hparts; [|done]. cbn [mbind option_bind].
  intros Hp. rewrite (mapM_impl plain_part _ _ parts); [done| |done].
  intros x y [Hx Hin]%named_child Hxy. apply literal_part; [done|by eapply allowed_child|done].
Qed.

Lemma literal_words_all ws : ∀ acc ts, Forall (λ w, kind w ≠ $"command_name") ws →
  mapM parse_literal_shell_word ws = Some ts → literal_words ws acc true = Some (acc ++ ts, true).
Proof.
  induction ws as [|w ws IH]; intros acc ts Hk Hm; cbn in Hm.
  { injection Hm as <-. by rewrite app_nil_r. }
  apply Forall_cons in Hk as [Hw Hk]. apply bind_Some in Hm as (t & Ht & Hm). apply bind_Some in Hm as (ts' & Hts & [= <-]).
  cbn [literal_words]. destruct (kind_in [$"command_name"] w) eqn:Hc; [by apply kind_in_1 in Hc|].
  rewrite Ht, (IH _ ts') by done. by rewrite <- (assoc_L (++)).
Qed.

(** A plain command is read the same way as a literal one. *)
Lemma plain_command_is_literal root n ws :
  grammatical root → allowed root → n ∈ all_nodes root →
  parse_plain_command_from_node n = Some ws → parse_literal_command_from_node n = Some ws.
Proof.
  intros Hg Ha Hn. unfold parse_plain_command_from_node, parse_literal_command_from_node.
  destruct (kind_in [$"command"] n) eqn:Hk; [|done]. cbn [negb]. apply kind_in_1 in Hk.
  assert (allowed n) as Hna.
  { unfold allowed in *. rewrite Forall_forall in *. intros m Hm. apply Ha. by eapply all_nodes_trans. }
  destruct (gr_commands _ Hg n Hn Hk) as (name & words & Hch & Hname & Hwords). rewrite Hch. cbn [mapM].
  intros Hp. cbn in Hp. apply bind_Some in Hp as (t & Ht & Hp). apply bind_Some in Hp as (ts & Hts & [= <-]).
  assert (∀ c, c ∈ name :: words → is_named c = true ∧ allowed c) as Hkids.
  { intros c Hc. rewrite <- Hch in Hc. apply named_child in Hc as [? ?]. split; [done|by eapply allowed_child]. }
  cbn [literal_words]. unfold plain_word in Ht. rewrite (proj2 (kind_in_1 _ name) Hname) in *.
  apply bind_Some in Ht as (w & Hw & Ht). rewrite Hw. cbn [mbind option_bind].
  destruct (kind_in [$"word"] w) eqn:Hwk; [|done]. injection Ht as <-. apply kind_in_1 in Hwk.
  assert (w ∈ named_children name) as Hwin by (destruct (named_children name); [done|injection Hw as ->; left]).
  apply named_child in Hwin as [Hwn Hwin]. destruct (Hkids name) as [_ Hnamea]; [left|].
  unfold parse_literal_shell_word at 1. rewrite (literal_part _ w (text w)).
  - cbn [mbind option_bind app]. rewrite (literal_words_all words [text w] ts); [done|done|].
    eapply mapM_impl; [|exact Hts]. intros x y Hx Hy. destruct (Hkids x) as [? ?]; [by right|].
    apply literal_of_plain; try done. rewrite Forall_forall in Hwords. by apply Hwords.
  - done.
  - by eapply allowed_child.
  - unfold plain_part, is_word, kind_in. rewrite Hwk. by rewrite bool_decide_true by left.
Qed.

(** The two readers of a shell script agree on the scripts that the
    policy takes apart: if [bash -lc] is split into plain commands, the
    reader that looks for dangerous commands anywhere in the script finds the
    same commands with the same words, no more and no fewer; so what the
    policy rules on is everything the script runs. *)
Theorem plain_commands_are_literal (try_parse_shell : rstr → option Tree) (command : list rstr)
    (plain : list (list rstr))
    (Hgrammar : ∀ script tree, try_parse_shell script = Some tree → has_error tree = false →
       is_named (root_node tree) = true ∧ grammatical (root_node tree))
    (Hplain : parse_shell_lc_plain_commands try_parse_shell command = Some plain) :
  ∃ literal, parse_shell_lc_literal_commands try_parse_shell command = Some literal ∧ literal ≡ₚ plain.
Proof.
  unfold parse_shell_lc_plain_commands, parse_shell_lc_literal_commands in *.
  apply bind_Some in Hplain as ([shell script] & Hext & Hplain). rewrite Hext. cbn [mbind option_bind].
  apply bind_Some in Hplain as (tree & Htree & Hplain). rewrite Htree. cbn [mbind option_bind].
  unfold try_parse_word_only_commands_sequence in Hplain. destruct (has_error tree) eqn:Herr; [done|].
  destruct (Hgrammar _ _ Htree Herr) as [Hnamed Hg]. apply bind_Some in Hplain as (nodes & Hwalk & Hplain).
  apply walk_spec in Hwalk as [Hallowed Hnodes]; [|cbn; lia].
  cbn [fmap list_fmap concat app] in Hallowed, Hnodes. rewrite app_nil_r in Hallowed, Hnodes.
  eexists. split; [done|]. rewrite literal_walk_spec by (cbn; lia). cbn [fmap list_fmap concat app]. rewrite app_nil_r.
  rewrite named_part in Hnodes by (done || apply Hg).
  rewrite <- (sort_by_start_perm nodes) in Hnodes. apply mapM_Some in Hplain.
  assert (∀ n, n ∈ sort_by_start nodes → n ∈ all_nodes (root_node tree) ∧ kind_in [$"command"] n = true) as Hin.
  { intros n Hn. rewrite Hnodes in Hn. apply list_elem_of_filter in Hn as [Hk Hn]. split; [|done].
    assert (n ∈ filter (λ m, is_command m = true) (all_nodes (root_node tree))) as Hf.
    { rewrite named_part by (done || apply Hg). by apply list_elem_of_filter. }
    by apply list_elem_of_filter in Hf as [_ ?]. }
  trans (literal_commands (sort_by_start nodes)).
  - unfold literal_commands. rewrite Hnodes. clear. induction (named_nodes (root_node tree)) as [|n l IH]; [done|].
    rewrite filter_cons. cbn [omap list_omap]. case_decide as Hk.
    + cbn [omap list_omap]. rewrite Hk. destruct (parse_literal_command_from_node n); [by constructor|done].
    + apply not_true_is_false in Hk. by rewrite Hk.
  - assert (literal_commands (sort_by_start nodes) = plain) as ->; [|done].
    clear Hnodes. induction Hplain as [|n ws ns plain Hn Hplain IH]; [done|].
    destruct (Hin n) as [Hnin Hk]; [left|]. cbn [literal_commands omap list_omap]. rewrite Hk.
    rewrite (plain_command_is_literal (root_node tree) n ws) by done. f_equal. apply IH. intros m Hm. apply Hin. by right.
Qed.

(** A test for the grammar, for concrete trees. *)
Definition grammaticalb (root : Node) : bool :=
  forallb (λ n, (is_named n || is_empty (children n)) &&
    (negb (kind_in [$"command"] n) ||
     match named_children n with
     | name :: words => kind_in [$"command_name"] name && forallb (λ w, negb (kind_in [$"command_name"] w)) words
     | [] => false
     end)) (all_nodes root).

Lemma grammaticalb_sound root : grammaticalb root = true → grammatical root.
Proof.
  unfold grammaticalb. rewrite forallb_forall. intros H. split; intros n Hn%list_elem_of_In; apply H in Hn;
    apply andb_true_iff in Hn as [H1 H2].
  - intros Hnamed. rewrite Hnamed in H1. by apply is_empty_true.
  - intros Hk%kind_in_1. rewrite Hk in H2. cbn [negb orb] in H2.
    destruct (named_children n) as [|name words]; [done|]. apply andb_true_iff in H2 as [Hname%kind_in_1 Hw].
    exists name, words. split_and!; [done..|]. rewrite forallb_forall in Hw. apply Forall_forall.
    intros w Hin%list_elem_of_In Hwk%kind_in_1. apply Hw in Hin. by rewrite Hwk in Hin.
Qed.

(** The tree of [ls -l && rm -f 'x']. *)
Definition demo_word (start : N) (t : rstr) : Node := mkNode ($"word") true start t [].
Definition demo_command (start : N) (name : rstr) (args : list Node) : Node :=
  mkNode ($"command") true start [] (mkNode ($"command_name") true start name [demo_word start name] :: args).
Definition demo_tree : Tree := mkTree (mkNode ($"program") true 0 [] [mkNode ($"list") true 0 []
  [demo_command 0 ($"ls") [demo_word 3 ($"-l")]; mkNode ($"&&") false 6 ($"&&") [];
   demo_command 9 ($"rm") [demo_word 12 ($"-f"); mkNode ($"raw_string") true 15 ($"'x'") []]]]) false.
Definition demo_parse (script : rstr) : option Tree := Some demo_tree.

Lemma plain_commands_are_literal_witness :
  let command := [$"/bin/bash"; $"-lc"; $"ls -l && rm -f 'x'"] in
  let plain := [[$"ls"; $"-l"]; [$"rm"; $"-f"; $"x"]] in
  parse_shell_lc_plain_commands demo_parse command = Some plain ∧
  ∃ literal, parse_shell_lc_literal_commands demo_parse command = Some literal ∧ literal ≡ₚ plain.
Proof.
  intros command plain. split; [vm_compute; reflexivity|].
  apply (plain_commands_are_literal demo_parse command plain); [|vm_compute; reflexivity].
  intros script tree [= <-] _. split; [reflexivity|]. apply grammaticalb_sound. vm_compute. reflexivity.
Defined.
