(* ===== verification/DangerousCommand.v ===== *)
(** * Dangerous commands

    [shell-command/src/command_safety/is_dangerous_command.rs] and
    [windows_dangerous_commands.rs]: the heuristics that flag a command
    before the user is asked, with a proof that a forced [rm] is found behind
    any nesting of [sudo], [env], [trap] and shell scripts. *)

From S2P Require Import Prelude RustStr ShellSyntax.

Inductive DangerousCommandPlatform := Posix | Windows.
#[export] Instance DangerousCommandPlatform_eq : EqDecision DangerousCommandPlatform.
Proof. solve_decision. Defined.

Inductive DangerousCommandMatch := ForcedRm | Other.
#[export] Instance DangerousCommandMatch_eq : EqDecision DangerousCommandMatch.
Proof. solve_decision. Defined.

Definition MAX_DANGEROUS_COMMAND_WRAPPER_DEPTH : nat := 8.

(** ** Words *)

Definition path_separator (c : char) : bool := bool_decide (c = SLASH) || bool_decide (c = BACKSLASH).

(** The part behind a drive letter. *)
Definition strip_drive (name : rstr) : rstr :=
  match name with
  | drive :: 58%N :: rest => if is_ascii_alphabetic drive then rest else name
  | _ => name
  end.

Definition last_segment (sep : char → bool) (raw : rstr) : option rstr :=
  name ← last (split_where sep raw); if is_empty name then None else Some name.

Definition executable_name_lookup_key (raw : rstr) (platform : DangerousCommandPlatform) : option rstr :=
  match platform with
  | Posix => last_segment (λ c, bool_decide (c = SLASH)) raw
  | Windows =>
      name ← last_segment path_separator raw;
      let name := to_ascii_lowercase (strip_drive name) in
      match omap (λ suffix, strip_suffix suffix name) [$".exe"; $".cmd"; $".bat"; $".com"] with
      | stripped :: _ => Some stripped
      | [] => if is_empty name then None else Some name
      end
  end.

Fixpoint take_while {A} (p : A → bool) (l : list A) : list A :=
  match l with [] => [] | x :: l => if p x then x :: take_while p l else [] end.
Fixpoint drop_while {A} (p : A → bool) (l : list A) : list A :=
  match l with [] => [] | x :: l' => if p x then drop_while p l' else l end.

Definition is_force_option (arg : rstr) : bool :=
  bool_decide (arg = $"--force") ||
  match strip_prefix ($"-") arg with
  | Some flags => negb (starts_with ($"-") flags) && bool_decide (102%N ∈ flags)
  | None => false
  end.

Definition rm_args_include_force_option (args : list rstr) : bool :=
  existsb is_force_option (take_while (λ arg, negb (bool_decide (arg = $"--"))) args).

(** ** Windows *)

Section windows.
Context (shlex_split : rstr → option (list rstr)) (url_scheme : rstr → option rstr).

Definition lead_char (c : char) : bool := bool_decide (c ∈ [SPACE; DQUOTE; QUOTE; 40%N]) || is_whitespace c.
Definition group_char (c : char) : bool :=
  negb (is_whitespace c || bool_decide (c ∈ [DQUOTE; QUOTE; 41%N; 59%N])).
Definition trail_char (c : char) : bool := is_whitespace c || bool_decide (c ∈ [59%N; 41%N]).

(** The first group of the regular expression of [looks_like_url]; a leading
    parenthesis is the only character the group can win back. *)
Definition regex_group (s : rstr) : option rstr :=
  let lead := take_while lead_char s in
  let rest := drop_while lead_char s in
  let group := take_while group_char rest in
  if negb (is_empty group)
  then if forallb trail_char (drop_while group_char rest) then Some group else None
  else
    if bool_decide (last (trim_end_matches is_whitespace lead) = Some 40%N) && forallb trail_char rest
    then Some [40%N] else None.

Definition looks_like_url (token : rstr) : bool :=
  let lowercase_token := to_ascii_lowercase token in
  let urlish :=
    match find ($"https://") lowercase_token with
    | Some idx => drop idx token
    | None => match find ($"http://") lowercase_token with Some idx => drop idx token | None => token end
    end in
  match url_scheme (default urlish (regex_group urlish)) with
  | Some scheme => bool_decide (scheme ∈ [$"http"; $"https"])
  | None => false
  end.

Definition args_have_url (args : list rstr) : bool := existsb looks_like_url args.

Definition executable_basename (exe : rstr) : option rstr :=
  name ← last_segment path_separator exe;
  let name := strip_drive name in
  if is_empty name then None else Some (to_ascii_lowercase name).

Definition is_powershell_executable (exe : rstr) : bool :=
  match executable_basename exe with
  | Some name => bool_decide (name ∈ [$"powershell"; $"powershell.exe"; $"pwsh"; $"pwsh.exe"])
  | None => false
  end.

Definition is_browser_executable (name : rstr) : bool :=
  bool_decide (name ∈ [$"chrome"; $"chrome.exe"; $"msedge"; $"msedge.exe"; $"firefox"; $"firefox.exe";
                       $"iexplore"; $"iexplore.exe"]).

(** Segments of a PowerShell script, as lists of trimmed words. *)
Definition segment_separator (c : char) : bool := bool_decide (c ∈ $";|&" ++ [LF; CR; 9%N]).
Definition soft_separator (c : char) : bool := bool_decide (c ∈ $"{}()[],;").

Definition push_trimmed (segments : list (list rstr)) (cur : rstr) : list (list rstr) :=
  let s := trim cur in if is_empty s then segments else update_last (λ seg, seg ++ [s]) segments.
Definition new_segment (segments : list (list rstr)) : list (list rstr) :=
  match last segments with
  | Some seg => if is_empty seg then segments else segments ++ [[]]
  | None => segments
  end.
Fixpoint scan_token (segments : list (list rstr)) (cur tok : rstr) : list (list rstr) :=
  match tok with
  | [] => push_trimmed segments cur
  | ch :: tok =>
      if segment_separator ch then scan_token (new_segment (push_trimmed segments cur)) [] tok
      else scan_token segments (cur ++ [ch]) tok
  end.

Definition atoms (seg : list rstr) : list rstr :=
  filter (λ s, s ≠ []) (trim <$> concat (split_where soft_separator <$> seg)).

Definition is_delete_cmdlet (a : rstr) : bool :=
  existsb (eq_ignore_ascii_case a) [$"remove-item"; $"ri"; $"rm"; $"del"; $"erase"; $"rd"; $"rmdir"].
Definition is_force_flag (a : rstr) : bool :=
  eq_ignore_ascii_case a ($"-force") || eq_ignore_ascii_case (take 7 a) ($"-force:").

Definition has_force_delete_cmdlet (tokens : list rstr) : bool :=
  existsb (λ seg, existsb is_delete_cmdlet (atoms seg) && existsb is_force_flag (atoms seg))
    (foldl (λ segs tok, scan_token segs [] tok) [[]] tokens).

Definition trim_matches (c : char) (s : rstr) : rstr :=
  trim_start_matches (N.eqb c) (trim_end_matches (N.eqb c) s).

Definition is_dangerous_powershell_words (words : list rstr) : bool :=
  let tokens_lc := (λ t, to_ascii_lowercase (trim_matches DQUOTE (trim_matches QUOTE t))) <$> words in
  let has_url := args_have_url words in
  (has_url && existsb (λ t, bool_decide (t ∈ [$"start-process"; $"start"; $"saps"; $"invoke-item"; $"ii"])
                            || contains ($"start-process") t || contains ($"invoke-item") t) tokens_lc)
  || (has_url && existsb (λ t, contains ($"shellexecute") t || contains ($"shell.application") t) tokens_lc)
  || match head tokens_lc with
     | Some first =>
         (bool_decide (first = $"rundll32")
          && existsb (contains ($"url.dll,fileprotocolhandler")) tokens_lc && has_url)
         || (bool_decide (first = $"mshta") && has_url)
         || (is_browser_executable first && has_url)
         || (bool_decide (first ∈ [$"explorer"; $"explorer.exe"]) && has_url)
     | None => false
     end
  || has_force_delete_cmdlet tokens_lc.

(** The words of a PowerShell invocation. *)
Fixpoint parse_powershell_invocation (args : list rstr) : option (list rstr) :=
  match args with
  | [] => None
  | arg :: rest =>
      let lower := to_ascii_lowercase arg in
      if bool_decide (lower ∈ [$"-command"; $"/command"; $"-c"]) then
        match rest with [script] => shlex_split script | _ => None end
      else if starts_with ($"-command:") lower || starts_with ($"/command:") lower then
        if is_empty rest then '(_, script) ← split_once ($":") arg; shlex_split script else None
      else if bool_decide (lower ∈ [$"-nologo"; $"-noprofile"; $"-noninteractive"; $"-mta"; $"-sta"])
        then parse_powershell_invocation rest
      else if starts_with ($"-") lower then parse_powershell_invocation rest
      else Some args
  end.

Definition is_dangerous_powershell (command : list rstr) : bool :=
  match command with
  | exe :: rest =>
      is_powershell_executable exe &&
      match parse_powershell_invocation rest with
      | Some tokens => is_dangerous_powershell_words tokens
      | None => false
      end
  | [] => false
  end.

(** [cmd] operators inside a word. *)
Fixpoint split_operators (cur tok : rstr) : list rstr :=
  let flush := if is_empty cur then [] else [cur] in
  match tok with
  | [] => flush
  | ch :: tok' =>
      if bool_decide (ch ∈ $"&|") then
        flush ++ match tok' with
                 | next :: tok'' =>
                     if bool_decide (next = ch) then [ch; ch] :: split_operators [] tok''
                     else [ch] :: split_operators [] tok'
                 | [] => [[ch]]
                 end
      else split_operators (cur ++ [ch]) tok'
  end.
Definition split_embedded_cmd_operators (token : rstr) : list rstr :=
  filter (λ s, trim s ≠ []) (split_operators [] token).

Definition is_cmd_separator (t : rstr) : bool := bool_decide (t ∈ [$"&"; $"&&"; $"|"; $"||"]).

(** [slice::split]. *)
Fixpoint split_tokens (p : rstr → bool) (l : list rstr) : list (list rstr) :=
  match l with
  | [] => [[]]
  | x :: l =>
      if p x then [] :: split_tokens p l
      else match split_tokens p l with h :: t => (x :: h) :: t | [] => [[x]] end
  end.

(** The words behind [/c], or [None] if there is an unknown word before. *)
Fixpoint cmd_body (args : list rstr) : option (list rstr) :=
  match args with
  | [] => Some []
  | arg :: rest =>
      let lower := to_ascii_lowercase arg in
      if bool_decide (lower ∈ [$"/c"; $"/r"; $"-c"]) then Some rest
      else if starts_with ($"/") lower then cmd_body rest
      else None
  end.

Definition has_cmd_flag (flag : rstr) (args : list rstr) : bool :=
  existsb (λ a, eq_ignore_ascii_case a flag) args.

Definition is_dangerous_cmd_segment (segment : list rstr) : bool :=
  match segment with
  | [] => false
  | cmd :: _ =>
      (eq_ignore_ascii_case cmd ($"start") && args_have_url segment)
      || ((eq_ignore_ascii_case cmd ($"del") || eq_ignore_ascii_case cmd ($"erase"))
          && has_cmd_flag ($"/f") segment)
      || ((eq_ignore_ascii_case cmd ($"rd") || eq_ignore_ascii_case cmd ($"rmdir"))
          && has_cmd_flag ($"/s") segment && has_cmd_flag ($"/q") segment)
  end.

Definition is_dangerous_cmd (command : list rstr) : bool :=
  match command with
  | [] => false
  | exe :: rest =>
      match executable_basename exe with
      | Some base =>
          bool_decide (base ∈ [$"cmd"; $"cmd.exe"]) &&
          match cmd_body rest with
          | None | Some [] => false
          | Some remaining =>
              let cmd_tokens :=
                match remaining with [only] => default [only] (shlex_split only) | _ => remaining end in
              existsb is_dangerous_cmd_segment
                (split_tokens is_cmd_separator (concat (split_embedded_cmd_operators <$> cmd_tokens)))
          end
      | None => false
      end
  end.

Definition is_direct_gui_launch (command : list rstr) : bool :=
  match command with
  | [] => false
  | exe :: rest =>
      match executable_basename exe with
      | Some base =>
          (bool_decide (base ∈ [$"explorer"; $"explorer.exe"]) && args_have_url rest)
          || (bool_decide (base ∈ [$"mshta"; $"mshta.exe"]) && args_have_url rest)
          || (bool_decide (base ∈ [$"rundll32"; $"rundll32.exe"])
              && existsb (λ t, contains ($"url.dll,fileprotocolhandler") (to_ascii_lowercase t)) rest
              && args_have_url rest)
          || (is_browser_executable base && args_have_url rest)
      | None => false
      end
  end.

Definition is_dangerous_command_windows (command : list rstr) : bool :=
  is_dangerous_powershell command || is_dangerous_cmd command || is_direct_gui_launch command.

(** ** The classifier *)

Context (try_parse_shell : rstr → option Tree).

(** The words [env] skips before the command it runs. *)
Definition env_skips (argument : rstr) : bool :=
  bool_decide (argument ∈ [$"-i"; $"--ignore-environment"]) ||
  match split_once ($"=") argument with
  | Some (name, _) => negb (is_empty name) && negb (starts_with ($"-") name)
  | None => false
  end.
Fixpoint env_command (args : list rstr) : list rstr :=
  match args with
  | [] => []
  | argument :: rest =>
      if bool_decide (argument = $"--") then rest
      else if env_skips argument then env_command rest
      else args
  end.

(** The script of [trap], as a shell command. *)
Definition trap_command (args : list rstr) : option (list rstr) :=
  let args := match args with a :: rest => if bool_decide (a = $"--") then rest else args | [] => [] end in
  match args with
  | action :: _ => if starts_with ($"-") action then None else Some [$"sh"; $"-c"; action]
  | [] => None
  end.

(** [levels] is the number of nested wrappers that are still looked into:
    one more than [MAX_DANGEROUS_COMMAND_WRAPPER_DEPTH] less the depth. *)
Fixpoint dangerous_command_match_with_depth (levels : nat) (command : list rstr)
    (platform : DangerousCommandPlatform) : option DangerousCommandMatch :=
  match levels with
  | 0 => Some Other
  | S levels =>
      let for_exec :=
        match command with
        | [] => None
        | cmd :: args =>
            match executable_name_lookup_key cmd platform with
            | None => None
            | Some name =>
                if bool_decide (name = $"rm") && rm_args_include_force_option args then Some ForcedRm
                else if bool_decide (name = $"sudo") then dangerous_command_match_with_depth levels args platform
                else if bool_decide (name = $"env")
                  then dangerous_command_match_with_depth levels (env_command args) platform
                else if bool_decide (name = $"trap") then
                  shell_command ← trap_command args; dangerous_command_match_with_depth levels shell_command platform
                else None
            end
        end in
      match for_exec with
      | Some m => Some m
      | None =>
          match (commands ← parse_shell_lc_literal_commands try_parse_shell command;
                 find_map (λ c, dangerous_command_match_with_depth levels c platform) commands) with
          | Some m => Some m
          | None =>
              if bool_decide (platform = Windows) && is_dangerous_command_windows command then Some Other else None
          end
      end
  end.

Definition dangerous_command_match_for_platform (command : list rstr) (platform : DangerousCommandPlatform) :
    option DangerousCommandMatch :=
  dangerous_command_match_with_depth (S MAX_DANGEROUS_COMMAND_WRAPPER_DEPTH) command platform.

Definition dangerous_powershell_words_match (command : list rstr) (platform : DangerousCommandPlatform) :
    option DangerousCommandMatch :=
  match platform with
  | Windows => if is_dangerous_powershell_words command then Some Other else None
  | Posix => None
  end.
End windows.


(** ** What the classifier looks for *)

Section wrappers.
Context (shlex_split : rstr → option (list rstr)) (url_scheme : rstr → option rstr).
Context (try_parse_shell : rstr → option Tree) (platform : DangerousCommandPlatform).

(** [unwraps command inner]: [command] is [sudo], [env], [trap] or a shell
    script, and [inner] a command it runs. *)
Inductive unwraps : list rstr → list rstr → Prop :=
  | unwraps_sudo cmd args :
      executable_name_lookup_key cmd platform = Some ($"sudo") → unwraps (cmd :: args) args
  | unwraps_env cmd args :
      executable_name_lookup_key cmd platform = Some ($"env") → unwraps (cmd :: args) (env_command args)
  | unwraps_trap cmd args inner :
      executable_name_lookup_key cmd platform = Some ($"trap") → trap_command args = Some inner →
      unwraps (cmd :: args) inner
  | unwraps_script command commands inner :
      parse_shell_lc_literal_commands try_parse_shell command = Some commands → inner ∈ commands →
      unwraps command inner.

Definition forced_rm (command : list rstr) : Prop :=
  ∃ cmd args, command = cmd :: args ∧ executable_name_lookup_key cmd platform = Some ($"rm") ∧
    rm_args_include_force_option args = true.

Definition dangerous_itself (command : list rstr) : Prop :=
  forced_rm command ∨
  platform = Windows ∧ is_dangerous_command_windows shlex_split url_scheme command = true.

Local Abbreviation search levels command :=
  (dangerous_command_match_with_depth shlex_split url_scheme try_parse_shell levels command platform).

(** The branch for the name of the executable. *)
Definition for_exec (levels : nat) (command : list rstr) : option DangerousCommandMatch :=
  match command with
  | [] => None
  | cmd :: args =>
      match executable_name_lookup_key cmd platform with
      | None => None
      | Some name =>
          if bool_decide (name = $"rm") && rm_args_include_force_option args then Some ForcedRm
          else if bool_decide (name = $"sudo") then search levels args
          else if bool_decide (name = $"env") then search levels (env_command args)
          else if bool_decide (name = $"trap") then
            shell_command ← trap_command args; search levels shell_command
          else None
      end
  end.

Lemma search_S levels command : search (S levels) command =
  match for_exec levels command with
  | Some m => Some m
  | None =>
      match (commands ← parse_shell_lc_literal_commands try_parse_shell command;
             find_map (λ c, search levels c) commands) with
      | Some m => Some m
      | None =>
          if bool_decide (platform = Windows) && is_dangerous_command_windows shlex_split url_scheme command
          then Some Other else None
      end
  end.
Proof. done. Qed.

Lemma for_exec_sound levels command m : for_exec levels command = Some m →
  (m = ForcedRm ∧ forced_rm command) ∨ ∃ inner, unwraps command inner ∧ search levels inner = Some m.
Proof.
  destruct command as [|cmd args]; [done|]. unfold for_exec. destruct (executable_name_lookup_key cmd platform) as [name|] eqn:Hk; [|done].
  destruct (bool_decide (name = $"rm") && rm_args_include_force_option args) eqn:Hrm.
  { apply andb_true_iff in Hrm as [->%bool_decide_eq_true Hf]. intros [= <-]. left. split; [done|by exists cmd, args]. }
  destruct (decide (name = $"sudo")) as [->|Hsudo].
  { rewrite bool_decide_true by done. intros Hm. right. exists args. split; [by apply unwraps_sudo|done]. }
  rewrite (bool_decide_false (name = $"sudo")) by done. destruct (decide (name = $"env")) as [->|Henv].
  { rewrite bool_decide_true by done. intros Hm. right. exists (env_command args). split; [by apply unwraps_env|done]. }
  rewrite (bool_decide_false (name = $"env")) by done. clear Hrm. case_bool_decide; [subst|done].
  intros (inner & Hi & Hm)%bind_Some. right. exists inner. split; [by eapply unwraps_trap|done].
Qed.

(** A command that the search reports is dangerous or wraps one that is reported. *)
Lemma search_sound levels command m : search (S levels) command = Some m →
  (m = ForcedRm ∧ forced_rm command) ∨ (m = Other ∧ dangerous_itself command) ∨
  ∃ inner, unwraps command inner ∧ search levels inner = Some m.
Proof.
  rewrite search_S. destruct (for_exec levels command) as [m'|] eqn:He.
  { intros [= ->]. apply for_exec_sound in He as [?|?]; [by left|by right; right]. }
  destruct (parse_shell_lc_literal_commands try_parse_shell command) as [commands|] eqn:Hp; cbn [mbind option_bind];
    [destruct (find_map _ commands) as [m'|] eqn:Hf|].
  { intros [= ->]. apply find_map_Some in Hf as (c & Hc & Hm). right; right. exists c. split; [by eapply unwraps_script|done]. }
  all: destruct (bool_decide (platform = Windows) && is_dangerous_command_windows shlex_split url_scheme command) eqn:Hw;
    [|done]; intros [= <-]; apply andb_true_iff in Hw as [Hw%bool_decide_eq_true ?]; right; left; split; [done|]; by right.
Qed.

Lemma for_exec_complete levels command inner : unwraps command inner → is_Some (search levels inner) →
  is_Some (search (S levels) command).
Proof.
  intros Hu Hs. rewrite search_S.
  assert (is_Some (for_exec levels command) → is_Some (match for_exec levels command with Some m => Some m | None =>
      match (commands ← parse_shell_lc_literal_commands try_parse_shell command; find_map (λ c, search levels c) commands) with
      | Some m => Some m
      | None => if bool_decide (platform = Windows) && is_dangerous_command_windows shlex_split url_scheme command
                then Some Other else None end end)) as Hexec by (by intros [m ->]).
  destruct Hu as [cmd args Hk|cmd args Hk|cmd args inner Hk Ht|command commands inner Hp Hin].
  - apply Hexec. cbn. by rewrite Hk.
  - apply Hexec. cbn. by rewrite Hk.
  - apply Hexec. cbn. rewrite Hk, Ht. by cbn.
  - destruct (for_exec levels command); [done|]. rewrite Hp. cbn [mbind option_bind].
    by destruct (find_map_is_Some (λ c, search levels c) commands inner Hin Hs) as [m ->].
Qed.

Lemma search_itself levels command : dangerous_itself command → is_Some (search (S levels) command).
Proof.
  intros [(cmd & args & -> & Hk & Hf)|(Hp & Hw)]; rewrite search_S.
  - cbn. by rewrite Hk, Hf.
  - destruct (for_exec levels command); [done|]. destruct (_ ≫= _); [done|].
    by rewrite Hw, bool_decide_true by done.
Qed.

Lemma search_exact levels : ∀ command, is_Some (search levels command) ↔
  ∃ n inner, nsteps unwraps n command inner ∧ (n < levels ∧ dangerous_itself inner ∨ n = levels).
Proof.
  induction levels as [|levels IH]; intros command; split.
  - intros _. exists 0, command. split; [constructor|by right].
  - intros _. done.
  - intros [m Hm]. apply search_sound in Hm as [[_ Hrm]|[[_ Hd]|(inner & Hu & Hm)]].
    + exists 0, command. split; [constructor|]. left. split; [lia|by left].
    + exists 0, command. split; [constructor|]. left. split; [lia|done].
    + destruct (proj1 (IH inner)) as (n & c & Hn & Hc); [by eexists|]. exists (S n), c. split; [by econstructor|].
      destruct Hc as [[? ?]| ->]; [left; split; [lia|done]|by right].
  - intros (n & c & Hn & Hc). inversion Hn as [|n' ? mid ? Hu Hmid]; subst.
    + destruct Hc as [[_ Hd]|?]; [by apply search_itself|lia].
    + eapply for_exec_complete; [done|]. apply IH. exists n', c. split; [done|].
      destruct Hc as [[? ?]|?]; [left; split; [lia|done]|right; lia].
Qed.

Lemma search_forced_rm levels : ∀ command, search levels command = Some ForcedRm →
  ∃ n inner, n < levels ∧ nsteps unwraps n command inner ∧ forced_rm inner.
Proof.
  induction levels as [|levels IH]; intros command Hm; [done|].
  apply search_sound in Hm as [[_ Hrm]|[[? _]|(inner & Hu & Hm)]]; [|done|].
  - exists 0, command. split_and!; [lia|constructor|done].
  - apply IH in Hm as (n & c & ? & Hn & Hc). exists (S n), c. split_and!; [lia|by econstructor|done].
Qed.

Lemma nsteps_prefix {A} (R : A → A → Prop) n m x z : nsteps R (n + m) x z → ∃ y, nsteps R n x y.
Proof.
  revert x. induction n as [|n IH]; intros x Hn; [by exists x; constructor|].
  inversion Hn as [|? ? y ? HR Hrest]; subst. apply IH in Hrest as [w ?]. exists w. by econstructor.
Qed.
End wrappers.

(** C24: The classifier reports exactly the dangerous commands and what is
    nested too deeply to tell: a command is flagged if and only if at most
    eight layers of [sudo], [env], [trap] and shell scripts lead to a forced
    [rm] (or, on Windows, to a command its rules flag), or nine layers lead
    to anything.  It reports a forced [rm] only if there is one, and one
    behind any number of layers never goes unreported. *)
Theorem dangerous_commands_exact (shlex_split : rstr → option (list rstr)) (url_scheme : rstr → option rstr)
    (try_parse_shell : rstr → option Tree) (platform : DangerousCommandPlatform) (command : list rstr) :
  let found := dangerous_command_match_for_platform shlex_split url_scheme try_parse_shell command platform in
  let runs n c := nsteps (unwraps try_parse_shell platform) n command c in
  (is_Some found ↔
     ∃ n c, runs n c ∧ (n ≤ MAX_DANGEROUS_COMMAND_WRAPPER_DEPTH ∧ dangerous_itself shlex_split url_scheme platform c
                        ∨ n = S MAX_DANGEROUS_COMMAND_WRAPPER_DEPTH)) ∧
  (found = Some ForcedRm → ∃ n c, n ≤ MAX_DANGEROUS_COMMAND_WRAPPER_DEPTH ∧ runs n c ∧ forced_rm platform c) ∧
  (∀ n c, runs n c → forced_rm platform c → is_Some found).
Proof.
  intros found runs. unfold found, runs, dangerous_command_match_for_platform. split_and!.
  - rewrite search_exact. split; intros (n & c & Hn & Hc); exists n, c; (split; [done|]).
    + destruct Hc as [[? ?]|?]; [left; split; [lia|done]|by right].
    + destruct Hc as [[? ?]|?]; [left; split; [lia|done]|by right].
  - intros (n & c & ? & Hn & Hc)%search_forced_rm. exists n, c. split_and!; [lia|done..].
  - intros n c Hn Hc. apply search_exact. destruct (decide (n < S MAX_DANGEROUS_COMMAND_WRAPPER_DEPTH)) as [Hlt|Hge].
    + exists n, c. split; [done|]. left. split; [done|by left].
    + apply Nat.nlt_ge in Hge. replace n with (S MAX_DANGEROUS_COMMAND_WRAPPER_DEPTH + (n - S MAX_DANGEROUS_COMMAND_WRAPPER_DEPTH)) in Hn by lia.
      apply nsteps_prefix in Hn as [y Hy]. exists (S MAX_DANGEROUS_COMMAND_WRAPPER_DEPTH), y. split; [done|by right].
Qed.

(** [sudo env A=1 rm -rf /] is a forced [rm]. *)
Lemma dangerous_commands_exact_witness :
  let command := [$"/usr/bin/sudo"; $"env"; $"A=1"; $"rm"; $"-rf"; $"/"] in
  let found := dangerous_command_match_for_platform (λ _, None) (λ _, None) demo_parse command Posix in
  found = Some ForcedRm ∧
  ∃ n c, n ≤ MAX_DANGEROUS_COMMAND_WRAPPER_DEPTH ∧ nsteps (unwraps demo_parse Posix) n command c ∧ forced_rm Posix c.
Proof.
  intros command found. assert (found = Some ForcedRm) as Hf by (vm_compute; reflexivity). split; [exact Hf|].
  exact (proj1 (proj2 (dangerous_commands_exact (λ _, None) (λ _, None) demo_parse Posix command)) Hf).
Defined.
