(* ===== verification/Permissions.v ===== *)
(** * File system permissions

    Model of [protocol/src/permissions.rs] and of the profiles of
    [protocol/src/models.rs]: what a policy of read, write and deny entries
    says about a path.  Paths are the URIs of [utils/path-uri]; the policy
    code uses them through the interface [UriOps], which the file
    [PathUriLaws] implements with the definitions of [PathUri]. *)

From S2P Require Import Prelude RustStr.

(** ** Paths *)

(** The operations of [PathUri] that permissions use; [==] is [uri_eqb]. *)
Class UriOps (PathUri : Type) := {
  uri_eqb : PathUri → PathUri → bool;
  infer_path_convention : PathUri → option PathConvention;
  lexical_depth : PathUri → option nat;
  is_opaque : PathUri → bool;
  parent : PathUri → option PathUri;
  ancestors : PathUri → list PathUri;
  basename : PathUri → option rstr;
  is_within : PathUri → PathUri → bool;
  join : PathUri → rstr → option PathUri;
  join_descendant : PathUri → rstr → option PathUri;
  validate_glob_directory : PathUri → PathConvention → bool;
  inferred_native_path_string : PathUri → rstr
}.

(** ** Policies *)

Inductive FileSystemAccessMode := Read | Write | Deny.
#[export] Instance FileSystemAccessMode_eq : EqDecision FileSystemAccessMode.
Proof. solve_decision. Defined.

(** The derived order: [Read < Write < Deny]. *)
Definition access_rank (m : FileSystemAccessMode) : nat := match m with Read => 0 | Write => 1 | Deny => 2 end.
Definition can_read (m : FileSystemAccessMode) : bool := negb (bool_decide (m = Deny)).
Definition can_write (m : FileSystemAccessMode) : bool := bool_decide (m = Write).

Inductive FileSystemSpecialPath :=
| Root
| Minimal
| ProjectRoots (subpath : option rstr)
| Tmpdir
| SlashTmp
| Unknown (path : rstr) (subpath : option rstr).
#[export] Instance FileSystemSpecialPath_eq : EqDecision FileSystemSpecialPath.
Proof. solve_decision. Defined.

Inductive FileSystemSandboxKind := Restricted | Unrestricted | ExternalSandbox.
#[export] Instance FileSystemSandboxKind_eq : EqDecision FileSystemSandboxKind.
Proof. solve_decision. Defined.

Inductive FileSystemSandboxEntryMissingPathBehavior := Skip.
#[export] Instance MissingPathBehavior_eq : EqDecision FileSystemSandboxEntryMissingPathBehavior.
Proof. solve_decision. Defined.

Section policies.
Context {PathUri : Type} `{!UriOps PathUri}.

Inductive FileSystemPath :=
| Path (path : PathUri)
| GlobPattern (pattern : rstr)
| Special (value : FileSystemSpecialPath).

Record FileSystemSandboxEntry := mkEntry {
  entry_path : FileSystemPath;
  access : FileSystemAccessMode;
  missing_path_behavior : option FileSystemSandboxEntryMissingPathBehavior
}.

Definition new_entry (path : FileSystemPath) (m : FileSystemAccessMode) : FileSystemSandboxEntry :=
  mkEntry path m None.
Definition skip_missing_path (path : FileSystemPath) (m : FileSystemAccessMode) : FileSystemSandboxEntry :=
  mkEntry path m (Some Skip).
Definition skips_missing_path (e : FileSystemSandboxEntry) : bool :=
  bool_decide (missing_path_behavior e = Some Skip).

(** The derived [==] of paths and entries. *)
Definition path_eqb (p q : FileSystemPath) : bool :=
  match p, q with
  | Path p, Path q => uri_eqb p q
  | GlobPattern p, GlobPattern q => bool_decide (p = q)
  | Special p, Special q => bool_decide (p = q)
  | _, _ => false
  end.
Definition entry_eqb (a b : FileSystemSandboxEntry) : bool :=
  path_eqb (entry_path a) (entry_path b) && bool_decide (access a = access b)
  && bool_decide (missing_path_behavior a = missing_path_behavior b).

Record FileSystemSandboxPolicy := mkPolicy {
  kind : FileSystemSandboxKind;
  glob_scan_max_depth : option nat;
  entries : list FileSystemSandboxEntry
}.

Record FileSystemSandboxPolicyContext := mkContext {
  cwd : PathUri;
  workspace_roots : list PathUri;
  user_home_dir : option PathUri;
  temporary_directories : option (list PathUri)
}.

Definition restricted (es : list FileSystemSandboxEntry) : FileSystemSandboxPolicy := mkPolicy Restricted None es.
Definition unrestricted : FileSystemSandboxPolicy := mkPolicy Unrestricted None [].
Definition external_sandbox : FileSystemSandboxPolicy := mkPolicy ExternalSandbox None [].
Definition read_only : FileSystemSandboxPolicy := restricted [new_entry (Special Root) Read].

Definition is_restricted (p : FileSystemSandboxPolicy) : bool := bool_decide (kind p = Restricted).

Definition remove_skip_missing_path_entries (p : FileSystemSandboxPolicy) : FileSystemSandboxPolicy :=
  mkPolicy (kind p) (glob_scan_max_depth p) (filter (λ e, skips_missing_path e = false) (entries p)).

(** ** Whole-disk questions *)

Definition has_root_access (p : FileSystemSandboxPolicy) (predicate : FileSystemAccessMode → bool) : bool :=
  is_restricted p &&
  existsb (λ e, match entry_path e with Special Root => predicate (access e) | _ => false end) (entries p).

Definition has_denied_read_restrictions_for_convention (p : FileSystemSandboxPolicy)
    (convention : option PathConvention) : bool :=
  is_restricted p &&
  existsb (λ e, bool_decide (access e = Deny) &&
    negb (match entry_path e with
          | Special SlashTmp => bool_decide (convention = Some Windows)
          | _ => false
          end)) (entries p).

Definition special_paths_share_target (l r : FileSystemSpecialPath) : bool :=
  match l, r with
  | Root, Root | Minimal, Minimal | Tmpdir, Tmpdir | SlashTmp, SlashTmp => true
  | ProjectRoots l, ProjectRoots r => bool_decide (l = r)
  | Unknown l ls, Unknown r rs =>
      bool_decide (l = r) && bool_decide (ls = rs)
  | _, _ => false
  end.

Definition special_path_matches_path_uri (value : FileSystemSpecialPath) (path : PathUri) : bool :=
  match value with
  | Root => bool_decide (is_Some (lexical_depth path)) && negb (bool_decide (is_Some (parent path)))
  | SlashTmp =>
      bool_decide (infer_path_convention path = Some Posix) && bool_decide (lexical_depth path = Some 1)
      && bool_decide (basename path = Some ($"tmp"))
  | _ => false
  end.

Definition file_system_paths_share_target (l r : FileSystemPath) (convention : PathConvention) : bool :=
  match l, r with
  | Path l, Path r => uri_eqb l r
  | Special l, Special r => special_paths_share_target l r
  | Path path, Special value | Special value, Path path =>
      bool_decide (infer_path_convention path = Some convention) && special_path_matches_path_uri value path
  | GlobPattern l, GlobPattern r => bool_decide (l = r)
  | GlobPattern _, _ | _, GlobPattern _ => false
  end.

Definition has_same_target_write_override (p : FileSystemSandboxPolicy) (entry : FileSystemSandboxEntry)
    (convention : PathConvention) : bool :=
  existsb (λ candidate, can_write (access candidate) && (access_rank (access entry) <? access_rank (access candidate))
    && file_system_paths_share_target (entry_path candidate) (entry_path entry) convention) (entries p).

Definition narrows_write (p : FileSystemSandboxPolicy) (convention : PathConvention)
    (entry : FileSystemSandboxEntry) : bool :=
  if can_write (access entry) then false
  else
    match entry_path entry with
    | Path _ => negb (has_same_target_write_override p entry convention)
    | GlobPattern _ => true
    | Special Root => bool_decide (access entry = Deny)
    | Special (Minimal | Unknown _ _) => false
    | Special SlashTmp =>
        if bool_decide (convention = Windows) then false
        else negb (has_same_target_write_override p entry convention)
    | Special _ => negb (has_same_target_write_override p entry convention)
    end.

Definition has_write_narrowing_entries (p : FileSystemSandboxPolicy) (convention : PathConvention) : bool :=
  is_restricted p && existsb (narrows_write p convention) (entries p).

Definition has_full_disk_read_access_for_convention (p : FileSystemSandboxPolicy)
    (convention : option PathConvention) : bool :=
  match kind p with
  | Unrestricted | ExternalSandbox => true
  | Restricted => has_root_access p can_read && negb (has_denied_read_restrictions_for_convention p convention)
  end.

Definition has_full_disk_write_access_for_convention (p : FileSystemSandboxPolicy)
    (convention : option PathConvention) : bool :=
  match kind p with
  | Unrestricted | ExternalSandbox => true
  | Restricted =>
      is_some_and (λ convention, has_root_access p can_write && negb (has_write_narrowing_entries p convention))
        convention
  end.

Definition has_full_disk_write_access_with_context (p : FileSystemSandboxPolicy)
    (context : FileSystemSandboxPolicyContext) : bool :=
  has_full_disk_write_access_for_convention p (infer_path_convention (cwd context)).

Definition include_platform_defaults (p : FileSystemSandboxPolicy) (native : PathConvention) : bool :=
  negb (has_full_disk_read_access_for_convention p (Some native)) && is_restricted p &&
  existsb (λ e, match entry_path e with Special Minimal => can_read (access e) | _ => false end) (entries p).

(** ** Resolving entries *)

Definition file_system_root (context : FileSystemSandboxPolicyContext) : option PathUri :=
  match lexical_depth (cwd context) with
  | Some _ => last (ancestors (cwd context))
  | None => None
  end.

Definition resolved_paths (context : FileSystemSandboxPolicyContext) (path : FileSystemPath) : list PathUri :=
  match path with
  | Path path => [path]
  | GlobPattern _ => []
  | Special Root => option_list (file_system_root context)
  | Special (ProjectRoots subpath) =>
      omap (λ root, match subpath with Some subpath => join root subpath | None => Some root end)
        (workspace_roots context)
  | Special Tmpdir => default [] (temporary_directories context)
  | Special SlashTmp =>
      if bool_decide (infer_path_convention (cwd context) = Some Posix)
      then option_list (join (cwd context) ($"/tmp")) else []
  | Special (Minimal | Unknown _ _) => []
  end.

Definition resolved_entry (context : FileSystemSandboxPolicyContext) (e : FileSystemSandboxEntry) :
    list (PathUri * FileSystemAccessMode) :=
  (λ path, (path, access e)) <$>
    filter (λ path, infer_path_convention path = infer_path_convention (cwd context))
      (resolved_paths context (entry_path e)).

Definition resolved_entries (p : FileSystemSandboxPolicy) (context : FileSystemSandboxPolicyContext) :
    list (PathUri * FileSystemAccessMode) :=
  concat (resolved_entry context <$> entries p).

(** The [try_fold]: [None] if a root is neither comparable nor opaque. *)
Fixpoint with_depths (l : list (PathUri * FileSystemAccessMode)) : option (list (PathUri * FileSystemAccessMode * nat)) :=
  match l with
  | [] => Some []
  | (root, m) :: l =>
      match lexical_depth root with
      | Some depth => rest ← with_depths l; Some ((root, m, depth) :: rest)
      | None => if is_opaque root then with_depths l else None
      end
  end.

(** [max_by_key] on [(depth, access)] returns the last of the greatest. *)
Definition key_le (a b : FileSystemAccessMode * nat) : bool :=
  (a.2 <? b.2) || (a.2 =? b.2) && (access_rank a.1 <=? access_rank b.1).
Fixpoint max_by_key (l : list (FileSystemAccessMode * nat)) : option (FileSystemAccessMode * nat) :=
  match l with
  | [] => None
  | x :: l => match max_by_key l with
              | Some y => Some (if key_le x y then y else x)
              | None => Some x
              end
  end.

Definition covering (path : PathUri) (l : list (PathUri * FileSystemAccessMode * nat)) :
    list (FileSystemAccessMode * nat) :=
  (λ e, (e.1.2, e.2)) <$> filter (λ e, is_within path e.1.1 = true) l.

Definition comparable (path : PathUri) (context : FileSystemSandboxPolicyContext) : bool :=
  bool_decide (infer_path_convention path = infer_path_convention (cwd context))
  && bool_decide (is_Some (lexical_depth path)) && bool_decide (is_Some (lexical_depth (cwd context))).

Definition resolve_access (p : FileSystemSandboxPolicy) (path : PathUri)
    (context : FileSystemSandboxPolicyContext) : FileSystemAccessMode :=
  match kind p with
  | Unrestricted | ExternalSandbox => Write
  | Restricted =>
      match infer_path_convention (cwd context) with
      | None => Deny
      | Some _ =>
          if negb (comparable path context) then Deny
          else
            match with_depths (resolved_entries p context) with
            | None => Deny
            | Some l => default Deny (fst <$> max_by_key (covering path l))
            end
      end
  end.

(** ** Protected metadata *)

Definition PROTECTED_METADATA_PATH_NAMES : list rstr := [$".git"; $".agents"; $".codex"; $".aws"].

(** The metadata directory of a writable root that contains the path. *)
Definition protecting (path root : PathUri) : option (PathUri * rstr) :=
  find_map (λ metadata_name,
    protected ← join_descendant root metadata_name;
    if is_within path protected then Some (protected, metadata_name) else None) PROTECTED_METADATA_PATH_NAMES.

Definition metadata_write_denial (p : FileSystemSandboxPolicy) (path : PathUri)
    (context : FileSystemSandboxPolicyContext) : option rstr :=
  if negb (is_restricted p) then None
  else
    let es := resolved_entries p context in
    '(protected, metadata_name) ← find_map (λ e, protecting path e.1) (filter (λ e, can_write e.2 = true) es);
    if existsb (λ e, can_write e.2 && is_within path e.1 && is_within e.1 protected) es
    then None else Some metadata_name.

Definition can_write_path (p : FileSystemSandboxPolicy) (path : PathUri)
    (context : FileSystemSandboxPolicyContext) : bool :=
  if negb (can_write (resolve_access p path context)) then false
  else has_full_disk_write_access_with_context p context
       || negb (bool_decide (is_Some (metadata_write_denial p path context))).

Definition has_configured_writable_roots (p : FileSystemSandboxPolicy) (context : FileSystemSandboxPolicyContext) : bool :=
  negb (has_full_disk_write_access_with_context p context) &&
  existsb (λ e, can_write e.2 && can_write_path p e.1 context) (resolved_entries p context).

(** [forbidden_agent_metadata_write] behind the local path adapter. *)
Definition forbidden_agent_metadata_write (p : FileSystemSandboxPolicy) (path : PathUri)
    (context : FileSystemSandboxPolicyContext) : option rstr :=
  if negb (is_restricted p) then None
  else name ← metadata_write_denial p path context; if can_write_path p path context then None else Some name.

(** ** Changing policies *)

Definition push_missing (es : list FileSystemSandboxEntry) (deny_entry : FileSystemSandboxEntry) :
    list FileSystemSandboxEntry :=
  if existsb (λ e, entry_eqb e deny_entry) es then es else es ++ [deny_entry].

Definition deny_entries (p : FileSystemSandboxPolicy) : list FileSystemSandboxEntry :=
  filter (λ e, access e = Deny) (entries p).

Definition preserve_deny_read_restrictions_from (p existing : FileSystemSandboxPolicy) : FileSystemSandboxPolicy :=
  let p :=
    if bool_decide (kind p = Unrestricted) && negb (is_empty (deny_entries existing))
    then restricted [new_entry (Special Root) Write] else p in
  if negb (is_restricted p) then p
  else mkPolicy (kind p)
         (match glob_scan_max_depth p with None => glob_scan_max_depth existing | d => d end)
         (foldl push_missing (entries p) (deny_entries existing)).

(** *** Workspace roots *)

Definition PROJECT_ROOTS_GLOB_PATTERN_PREFIX : rstr := $"codex-project-roots://".

Definition resolve_scoped_workspace_path (root : PathUri) (subpath : rstr) : option PathUri :=
  convention ← infer_path_convention root;
  if is_some_and (is_separator convention) (head subpath)
     || existsb (λ segment, bool_decide (segment ∈ [$"."; $".."])) (path_segments convention subpath)
     || bool_decide (convention = Windows) && existsb (λ segment, bool_decide (58%N ∈ segment))
                                                (path_segments convention subpath)
  then None
  else path ← join root subpath; if is_within path root then Some path else None.

(** The subpath of an entry for the workspace roots and whether it is a glob. *)
Definition project_root_subpath (path : FileSystemPath) : option (option rstr * bool) :=
  match path with
  | Special (ProjectRoots subpath) => Some (subpath, false)
  | GlobPattern pattern =>
      suffix ← strip_prefix PROJECT_ROOTS_GLOB_PATTERN_PREFIX pattern; Some (Some suffix, true)
  | _ => None
  end.

Definition materialize_root (e : FileSystemSandboxEntry) (subpath : option rstr) (is_glob : bool)
    (root : PathUri) : option FileSystemSandboxEntry :=
  let path :=
    if is_glob && negb (is_some_and (validate_glob_directory root) (infer_path_convention root)) then None
    else match subpath with Some subpath => resolve_scoped_workspace_path root subpath | None => Some root end in
  '(path, m) ←
    match path with
    | Some path =>
        Some (if is_glob then GlobPattern (inferred_native_path_string path) else Path path, access e)
    | None => if negb (can_write (access e)) then Some (Path root, Deny) else None
    end;
  Some (mkEntry path m (missing_path_behavior e)).

Definition denies_home (e : FileSystemSandboxEntry) (subpath : option rstr) (roots : list PathUri) : bool :=
  bool_decide (access e = Deny) &&
  is_some_and (λ subpath,
    existsb (λ root, is_some_and (λ convention, bool_decide (is_Some (home_relative_suffix convention subpath)))
                       (infer_path_convention root)) roots) subpath.

Fixpoint materialize_entries (roots : list PathUri) (es : list FileSystemSandboxEntry) :
    option (list FileSystemSandboxEntry) :=
  match es with
  | [] => Some []
  | e :: es =>
      match project_root_subpath (entry_path e) with
      | None => rest ← materialize_entries roots es; Some (e :: rest)
      | Some (subpath, is_glob) =>
          if denies_home e subpath roots then None
          else rest ← materialize_entries roots es; Some (omap (materialize_root e subpath is_glob) roots ++ rest)
      end
  end.

Definition materialize_project_roots_with_path_uris (p : FileSystemSandboxPolicy) (roots : list PathUri) :
    FileSystemSandboxPolicy :=
  match materialize_entries roots (entries p) with
  | Some es => mkPolicy (kind p) (glob_scan_max_depth p) es
  | None => restricted []
  end.

End policies.
Arguments FileSystemPath : clear implicits.
Arguments FileSystemSandboxEntry : clear implicits.
Arguments FileSystemSandboxPolicy : clear implicits.
Arguments FileSystemSandboxPolicyContext : clear implicits.

(** ** Permission profiles *)

Inductive NetworkSandboxPolicy := NetworkRestricted | NetworkEnabled.

Section profiles.
Context {PathUri : Type}.

Inductive ManagedFileSystemPermissions :=
| ManagedRestricted (es : list (FileSystemSandboxEntry PathUri)) (depth : option positive)
| ManagedUnrestricted.

Inductive PermissionProfile :=
| Managed (file_system : ManagedFileSystemPermissions) (network : NetworkSandboxPolicy)
| Disabled
| External (network : NetworkSandboxPolicy).

Definition to_sandbox_policy (m : ManagedFileSystemPermissions) : FileSystemSandboxPolicy PathUri :=
  match m with
  | ManagedRestricted es depth => mkPolicy Restricted (Pos.to_nat <$> depth) es
  | ManagedUnrestricted => unrestricted
  end.

Definition file_system_sandbox_policy (p : PermissionProfile) : FileSystemSandboxPolicy PathUri :=
  match p with
  | Managed file_system _ => to_sandbox_policy file_system
  | Disabled => unrestricted
  | External _ => external_sandbox
  end.

Definition network_sandbox_policy (p : PermissionProfile) : NetworkSandboxPolicy :=
  match p with Managed _ network | External network => network | Disabled => NetworkEnabled end.
End profiles.
Arguments ManagedFileSystemPermissions : clear implicits.
Arguments PermissionProfile : clear implicits.
