(* ===== verification/PermissionsFacts.v ===== *)
(** * Properties of file system permissions

    What [resolve_access] decides, when the whole-disk answers are right, how
    denials combine, and what stays protected in a writable root. *)

From S2P Require Import Prelude RustStr Permissions.

(** What permissions rely on from paths. *)
Class UriLaws (PathUri : Type) `{!UriOps PathUri} : Prop := {
  eqb_refl p : uri_eqb p p = true;
  within_refl p : is_within p p = true;
  eqb_same p q : infer_path_convention q = Some Posix → uri_eqb p q = true →
    infer_path_convention p = Some Posix ∧ lexical_depth p = lexical_depth q ∧
    ∀ x, is_within x p = is_within x q;
  posix_root c : infer_path_convention c = Some Posix → is_Some (lexical_depth c) →
    ∃ r, last (ancestors c) = Some r ∧ infer_path_convention r = Some Posix ∧ lexical_depth r = Some 0;
  posix_within_root x r : infer_path_convention x = Some Posix → is_Some (lexical_depth x) →
    infer_path_convention r = Some Posix → lexical_depth r = Some 0 → is_within x r = true;
  posix_no_parent q d : infer_path_convention q = Some Posix → lexical_depth q = Some d → parent q = None → d = 0;
  posix_tmp c : infer_path_convention c = Some Posix →
    ∃ t, join c ($"/tmp") = Some t ∧ infer_path_convention t = Some Posix ∧ lexical_depth t = Some 1 ∧
      ∀ q, infer_path_convention q = Some Posix → lexical_depth q = Some 1 → basename q = Some ($"tmp") →
        ∀ x, is_within x q = is_within x t
}.

Section access.
Context {PathUri : Type} `{!UriOps PathUri}.
Implicit Types (p : FileSystemSandboxPolicy PathUri) (path root : PathUri) (context : FileSystemSandboxPolicyContext PathUri).

(** ** The winning entry *)

Lemma key_le_total a b : key_le a b = false → key_le b a = true.
Proof.
  unfold key_le. rewrite !orb_true_iff, orb_false_iff, !andb_true_iff, !andb_false_iff, !Nat.ltb_lt, !Nat.ltb_ge,
    !Nat.eqb_eq, !Nat.eqb_neq, !Nat.leb_le, !Nat.leb_gt. lia.
Qed.

Lemma key_le_trans a b c : key_le a b = true → key_le b c = true → key_le a c = true.
Proof.
  unfold key_le. rewrite !orb_true_iff, !andb_true_iff, !Nat.ltb_lt, !Nat.eqb_eq, !Nat.leb_le. lia.
Qed.

Lemma key_le_refl a : key_le a a = true.
Proof. unfold key_le. rewrite Nat.eqb_refl, Nat.leb_refl. apply orb_true_r. Qed.

Lemma key_le_antisym m d m' d' : key_le (m, d) (m', d') = true → key_le (m', d') (m, d) = true → m = m' ∧ d = d'.
Proof.
  unfold key_le. cbn [fst snd]. rewrite !orb_true_iff, !andb_true_iff, !Nat.ltb_lt, !Nat.eqb_eq, !Nat.leb_le.
  intros H1 H2. assert (d = d' ∧ access_rank m = access_rank m') as [-> Hr] by lia. by destruct m, m'.
Qed.

Lemma max_by_key_spec l x : max_by_key l = Some x → x ∈ l ∧ ∀ y, y ∈ l → key_le y x = true.
Proof.
  revert x. induction l as [|z l IH]; intros x; [done|]. cbn. destruct (max_by_key l) as [w|] eqn:Hw.
  - destruct (IH w eq_refl) as [Hin Hmax]. intros [= <-]. destruct (key_le z w) eqn:Hz.
    + split; [by right|]. intros y [->|Hy]%elem_of_cons; [done|by apply Hmax].
    + split; [left|]. apply key_le_total in Hz. intros y [->|Hy]%elem_of_cons; [apply key_le_refl|].
      eapply key_le_trans; [by apply Hmax|done].
  - intros [= <-]. destruct l as [|v l]; [|cbn in Hw; by destruct (max_by_key l)]. split; [left|].
    intros y [->|?%elem_of_nil]%elem_of_cons; [apply key_le_refl|done].
Qed.

Lemma max_by_key_None l : max_by_key l = None → l = [].
Proof. destruct l as [|x l]; [done|]. cbn. by destruct (max_by_key l). Qed.

Lemma max_by_key_is_Some x l : x ∈ l → is_Some (max_by_key l).
Proof. intros Hx. destruct (max_by_key l) eqn:Hm; [done|]. apply max_by_key_None in Hm. subst l. by apply elem_of_nil in Hx. Qed.

(** ** Entries with their depths *)

Lemma with_depths_elem l k root m d : with_depths l = Some k →
  (root, m, d) ∈ k ↔ (root, m) ∈ l ∧ lexical_depth root = Some d.
Proof.
  revert k. induction l as [|[r m'] l IH]; intros k; cbn [with_depths].
  - intros [= <-]. rewrite !elem_of_nil. by split; [|intros [? _]].
  - destruct (lexical_depth r) as [d'|] eqn:Hd.
    + intros (rest & Hrest & [= <-])%bind_Some. rewrite !elem_of_cons, (IH rest) by done. split.
      * intros [[= -> -> ->]|[? ?]]; (split; [|done]); [by left|by right].
      * intros [[[= -> ->]|?] ?]; [left; congruence|by right].
    + destruct (is_opaque r); [|done]. intros Hk. rewrite (IH k) by done. rewrite elem_of_cons. split.
      * intros [? ?]. split; [by right|done].
      * intros [[[= -> ->]|?] ?]; [congruence|done].
Qed.

Lemma with_depths_app l k : with_depths (l ++ k) =
  (a ← with_depths l; b ← with_depths k; Some (a ++ b)).
Proof.
  induction l as [|[r m] l IH]; cbn [with_depths app].
  - cbn. by destruct (with_depths k).
  - destruct (lexical_depth r); [|destruct (is_opaque r); [apply IH|done]].
    rewrite IH. destruct (with_depths l); [|done]. cbn. by destruct (with_depths k).
Qed.

Lemma covering_elem path l m d : (m, d) ∈ covering path l ↔ ∃ root, (root, m, d) ∈ l ∧ is_within path root = true.
Proof.
  unfold covering. rewrite list_elem_of_fmap. split.
  - intros ([[r m'] d'] & [= -> ->] & Hf). apply list_elem_of_filter in Hf as [? ?]. by exists r.
  - intros (r & Hin & Hw). exists (r, m, d). split; [done|]. by apply list_elem_of_filter.
Qed.

Lemma covering_app path l k : covering path (l ++ k) = covering path l ++ covering path k.
Proof. unfold covering. by rewrite filter_app, fmap_app. Qed.

(** ** What a policy says of a path *)

(** [decides p context path m d]: an entry with access [m] covers the path at
    depth [d]. *)
Definition decides p context path (m : FileSystemAccessMode) (d : nat) : Prop :=
  ∃ root, (root, m) ∈ resolved_entries p context ∧ lexical_depth root = Some d ∧ is_within path root = true.

Lemma resolve_access_spec p context path l :
  kind p = Restricted → comparable path context = true → is_Some (infer_path_convention (cwd context)) →
  with_depths (resolved_entries p context) = Some l →
  (∃ m d, resolve_access p path context = m ∧ decides p context path m d ∧
     ∀ m' d', decides p context path m' d' → key_le (m', d') (m, d) = true) ∨
  (resolve_access p path context = Deny ∧ ∀ m d, ¬ decides p context path m d).
Proof.
  intros Hk Hc [c Hcwd] Hl. unfold resolve_access. rewrite Hk, Hcwd, Hc, Hl. cbn [negb].
  assert (∀ m d, (m, d) ∈ covering path l ↔ decides p context path m d) as Hdec.
  { intros m d. rewrite covering_elem. unfold decides. split.
    - intros (r & Hin & Hw). destruct (proj1 (with_depths_elem _ _ _ _ _ Hl) Hin) as [? ?]. by exists r.
    - intros (r & Hin & Hd & Hw). exists r. split; [|done]. by apply (with_depths_elem _ _ _ _ _ Hl). }
  destruct (max_by_key (covering path l)) as [[m d]|] eqn:Hmax; cbn.
  - left. apply max_by_key_spec in Hmax as [Hin Hmax]. exists m, d. split_and!; [done|by apply Hdec|].
    intros m' d' H. apply Hmax. by apply Hdec.
  - right. split; [done|]. apply max_by_key_None in Hmax. intros m d H%Hdec. rewrite Hmax in H. by apply elem_of_nil in H.
Qed.

Lemma resolve_access_deny p context path :
  kind p = Restricted →
  (comparable path context = false ∨ infer_path_convention (cwd context) = None
   ∨ with_depths (resolved_entries p context) = None) →
  resolve_access p path context = Deny.
Proof.
  intros Hk H. unfold resolve_access. rewrite Hk. destruct (infer_path_convention (cwd context)); [|done].
  destruct (comparable path context); [|done]. cbn. destruct H as [?|[?|H]]; [done..|by rewrite H].
Qed.

Lemma resolved_entries_elem p context root m : (root, m) ∈ resolved_entries p context ↔
  ∃ e, e ∈ entries p ∧ access e = m ∧ root ∈ resolved_paths context (entry_path e) ∧
    infer_path_convention root = infer_path_convention (cwd context).
Proof.
  unfold resolved_entries. rewrite elem_of_concat_fmap. split.
  - intros (e & He & Hin). unfold resolved_entry in Hin.
    apply list_elem_of_fmap in Hin as (r & [= -> ->] & [Hc Hr]%list_elem_of_filter). by exists e.
  - intros (e & He & <- & Hr & Hc). exists e. split; [done|]. unfold resolved_entry. apply list_elem_of_fmap.
    exists root. split; [done|]. by apply list_elem_of_filter.
Qed.

(** ** Denials *)

Definition all_deny (l : list (PathUri * FileSystemAccessMode)) : Prop := Forall (λ e, e.2 = Deny) l.

Lemma resolved_deny context es : Forall (λ e, access e = Deny) es → all_deny (concat (resolved_entry context <$> es)).
Proof.
  unfold all_deny. rewrite !Forall_forall. intros Hes [r m] (e & He & Hin)%elem_of_concat_fmap.
  unfold resolved_entry in Hin. apply list_elem_of_fmap in Hin as (r' & [= -> ->] & _). cbn. by apply Hes.
Qed.

(** More denials leave the answer as it is or turn it into a denial. *)
Lemma deny_more p context path es g :
  kind p = Restricted → Forall (λ e, access e = Deny) es →
  let p' := mkPolicy Restricted g (entries p ++ es) in
  resolve_access p' path context = Deny ∨ resolve_access p' path context = resolve_access p path context.
Proof.
  intros Hk Hes p'. unfold resolve_access. rewrite Hk. cbn [kind p'].
  destruct (infer_path_convention (cwd context)); [|by left]. destruct (comparable path context); [|by left]. cbn [negb].
  assert (resolved_entries p' context = resolved_entries p context ++ concat (resolved_entry context <$> es)) as ->.
  { unfold resolved_entries, p'. cbn [entries]. by rewrite fmap_app, concat_app. }
  pose proof (resolved_deny context es Hes) as Hdeny. rewrite with_depths_app.
  destruct (with_depths (resolved_entries p context)) as [l|]; [|by left]. cbn [mbind option_bind].
  destruct (with_depths (concat (resolved_entry context <$> es))) as [k|] eqn:Hwk; [|by left]. cbn [mbind option_bind].
  rewrite covering_app. destruct (max_by_key (covering path l ++ covering path k)) as [[m d]|] eqn:Hmax; [|by left].
  apply max_by_key_spec in Hmax as [[Hin|Hin]%elem_of_app Hmax].
  - right. cbn. destruct (max_by_key (covering path l)) as [[m' d']|] eqn:Hmax'.
    + apply max_by_key_spec in Hmax' as [Hin' Hmax'].
      assert (key_le (m, d) (m', d') = true) as H1 by by apply Hmax'.
      assert (key_le (m', d') (m, d) = true) as H2 by (apply Hmax; apply elem_of_app; by left).
      cbn. revert H1 H2. unfold key_le. cbn [fst snd]. rewrite !orb_true_iff, !andb_true_iff, !Nat.ltb_lt, !Nat.eqb_eq, !Nat.leb_le.
      intros H1 H2. assert (access_rank m = access_rank m') as Hr by lia. by destruct m, m'.
    + apply max_by_key_None in Hmax'. rewrite Hmax' in Hin. by apply elem_of_nil in Hin.
  - left. cbn. apply covering_elem in Hin as (r & Hin & _). apply (with_depths_elem _ _ _ _ _ Hwk) in Hin as [Hin _].
    unfold all_deny in Hdeny. rewrite Forall_forall in Hdeny. by apply Hdeny in Hin.
Qed.

Lemma push_missing_app es ds : ∃ k, foldl push_missing es ds = es ++ k ∧ k ⊆ ds.
Proof.
  revert es. induction ds as [|d ds IH]; intros es; cbn [foldl].
  - exists []. split; [by rewrite app_nil_r|done].
  - destruct (IH (push_missing es d)) as (k & Hk & Hs). unfold push_missing in *. destruct (existsb _ es).
    + exists k. split; [done|by apply list_subseteq_cons].
    + exists (d :: k). split; [by rewrite Hk, <- (assoc_L (++))|]. by apply list_subseteq_skip.
Qed.

Lemma push_missing_has es ds d : d ∈ ds → entry_eqb d d = true →
  ∃ e, e ∈ foldl push_missing es ds ∧ entry_eqb e d = true.
Proof.
  intros Hd Hrefl. revert es. induction Hd as [d ds|d d' ds Hd IH]; intros es; cbn [foldl]; [|by apply IH].
  destruct (push_missing_app (push_missing es d) ds) as (k & -> & _). unfold push_missing.
  destruct (existsb (λ e, entry_eqb e d) es) eqn:He.
  - apply existsb_exists in He as (e & He%list_elem_of_In & Heq). exists e. split; [|done]. apply elem_of_app. by left.
  - exists d. split; [|done]. apply elem_of_app. left. apply elem_of_app. right. left.
Qed.

(** ** Overrides *)

Context `{!UriLaws PathUri}.

Definition posix_context context path : Prop :=
  infer_path_convention (cwd context) = Some Posix ∧ is_Some (lexical_depth (cwd context)) ∧
  infer_path_convention path = Some Posix ∧ is_Some (lexical_depth path).

Lemma posix_comparable context path : infer_path_convention (cwd context) = Some Posix →
  comparable path context = true → posix_context context path.
Proof.
  intros Hcwd. unfold comparable, posix_context. rewrite !andb_true_iff, !bool_decide_eq_true, Hcwd. tauto.
Qed.

Lemma root_entry context path : posix_context context path →
  ∃ r, resolved_paths context (Special Root) = [r] ∧ infer_path_convention r = Some Posix ∧
    lexical_depth r = Some 0 ∧ is_within path r = true.
Proof.
  intros (Hcwd & Hcd & Hp & Hd). destruct (posix_root _ Hcwd Hcd) as (r & Hr & Hrc & Hrd). exists r. split_and!; try done.
  - cbn. unfold file_system_root. destruct Hcd as [d ->]. by rewrite Hr.
  - by apply posix_within_root.
Qed.

Lemma special_share l r : special_paths_share_target l r = true → l = r.
Proof.
  destruct l, r; cbn; try done; rewrite ?andb_true_iff, ?bool_decide_eq_true; try by intros ->. by intros [-> ->].
Qed.

(** A special path that names the same place as a URI resolves to one root
    with its depth and the paths it covers. *)
Lemma special_same context value q path d :
  posix_context context path → infer_path_convention q = Some Posix → lexical_depth q = Some d →
  special_path_matches_path_uri value q = true →
  ∃ r, resolved_paths context (Special value) = [r] ∧ infer_path_convention r = Some Posix ∧
    lexical_depth r = Some d ∧ is_within path r = is_within path q.
Proof.
  intros Hctx Hq Hd. destruct value; try done; cbn [special_path_matches_path_uri].
  - intros [_ Hp%negb_true_iff%bool_decide_eq_false]%andb_true_iff. apply eq_None_not_Some in Hp.
    pose proof (posix_no_parent _ _ Hq Hd Hp) as ->. destruct (root_entry context path Hctx) as (r & Hr & Hrc & Hrd & Hcov).
    exists r. split_and!; try done. rewrite Hcov. symmetry. destruct Hctx as (_ & _ & ? & ?). by apply posix_within_root.
  - rewrite !andb_true_iff, !bool_decide_eq_true. intros [[_ Hd1] Hb]. assert (d = 1) as -> by congruence.
    destruct Hctx as (Hcwd & _). destruct (posix_tmp _ Hcwd) as (t & Ht & Htc & Htd & Hsame). exists t. split_and!; try done.
    + cbn [resolved_paths]. by rewrite bool_decide_true, Ht by done.
    + symmetry. by apply Hsame.
Qed.

(** Entries that share their target cover the same paths at the same depth. *)
Lemma share_target_covers context path l r root d :
  posix_context context path → file_system_paths_share_target l r Posix = true →
  root ∈ resolved_paths context r → infer_path_convention root = Some Posix →
  lexical_depth root = Some d → is_within path root = true →
  ∃ root', root' ∈ resolved_paths context l ∧ infer_path_convention root' = Some Posix ∧
    lexical_depth root' = Some d ∧ is_within path root' = true.
Proof.
  intros Hctx Hshare Hroot Hrc Hd Hin.
  destruct l as [q|g|v], r as [q'|g'|v']; cbn [file_system_paths_share_target] in Hshare; try done.
  - apply list_elem_of_singleton in Hroot as ->. destruct (eqb_same _ _ Hrc Hshare) as (E1 & E2 & E3).
    exists q. split_and!; [left|congruence..|by rewrite E3].
  - apply andb_true_iff in Hshare as [Hqc%bool_decide_eq_true Hm].
    assert (∃ dq, lexical_depth q = Some dq) as [dq Hdq].
    { destruct v'; try done; cbn in Hm; rewrite !andb_true_iff, !bool_decide_eq_true in Hm.
      - by destruct Hm as [[dq Hdq] _]; exists dq.
      - exists 1. tauto. }
    destruct (special_same context v' q path dq Hctx Hqc Hdq Hm) as (r & Hr & Hrc' & Hrd & Hsame).
    rewrite Hr in Hroot. apply list_elem_of_singleton in Hroot as ->. exists q.
    split_and!; [left|done|congruence|by rewrite <- Hsame].
  - by apply elem_of_nil in Hroot.
  - apply andb_true_iff in Hshare as [Hqc%bool_decide_eq_true Hm]. apply list_elem_of_singleton in Hroot as ->.
    destruct (special_same context v q' path d Hctx Hqc Hd Hm) as (r & Hr & Hrc' & Hrd & Hsame).
    exists r. rewrite Hr. split_and!; [left|done..|by rewrite Hsame].
  - apply special_share in Hshare as ->. by exists root.
Qed.

(** An entry that does not narrow writing is no write entry's superior. *)
Lemma not_narrowing p context path e root d :
  posix_context context path → e ∈ entries p → narrows_write p Posix e = false →
  has_root_access p can_write = true →
  root ∈ resolved_paths context (entry_path e) → infer_path_convention root = Some Posix →
  lexical_depth root = Some d → is_within path root = true →
  decides p context path Write d.
Proof.
  intros Hctx He Hn Hwr Hroot Hrc Hd Hin. pose proof Hctx as (Hcwd & _).
  assert (∀ c, c ∈ entries p → access c = Write → file_system_paths_share_target (entry_path c) (entry_path e) Posix = true →
    decides p context path Write d) as Hgo.
  { intros c Hc Hw Hs. destruct (share_target_covers context path _ _ root d Hctx Hs Hroot) as (r & ? & ? & ? & ?); try done.
    exists r. split; [|done]. apply resolved_entries_elem. exists c. by rewrite Hcwd. }
  assert (has_same_target_write_override p e Posix = true → decides p context path Write d) as Hov.
  { intros (c & Hc%list_elem_of_In & H)%existsb_exists. rewrite !andb_true_iff in H. destruct H as [[Hw%bool_decide_eq_true _] Hs].
    by apply (Hgo c). }
  unfold narrows_write in Hn. destruct (can_write (access e)) eqn:Hw.
  { apply bool_decide_eq_true in Hw. exists root. split; [|done]. apply resolved_entries_elem. exists e. by rewrite Hcwd. }
  destruct (entry_path e) as [q|g|v] eqn:Hpe; [by apply Hov, negb_false_iff|done|].
  destruct v; try by apply Hov, negb_false_iff.
  - apply andb_true_iff in Hwr as [_ (c & Hc%list_elem_of_In & Hcw)%existsb_exists].
    destruct (entry_path c) as [|  |[]] eqn:Hpc; try done. apply bool_decide_eq_true in Hcw.
    apply (Hgo c); [done..|]. by rewrite Hpc.
  - by apply elem_of_nil in Hroot.
  - by apply elem_of_nil in Hroot.
Qed.

(** A denial that resolves to anything narrows writing. *)
Lemma deny_narrows p context e root :
  access e = Deny → root ∈ resolved_paths context (entry_path e) → narrows_write p Posix e = true.
Proof.
  intros Ha Hroot. assert (has_same_target_write_override p e Posix = false) as Hov.
  { apply not_true_is_false. intros (c & _ & H)%existsb_exists. rewrite !andb_true_iff, Nat.ltb_lt, Ha in H.
    destruct H as [[Hw%bool_decide_eq_true Hr] _]. rewrite Hw in Hr. cbn in Hr. lia. }
  unfold narrows_write. rewrite Ha, Hov. destruct (entry_path e) as [q|g|[]]; try done; by apply elem_of_nil in Hroot.
Qed.

(** ** Equal entries *)

Lemma entry_eqb_refl (e : FileSystemSandboxEntry PathUri) : entry_eqb e e = true.
Proof.
  unfold entry_eqb. rewrite !bool_decide_true by done. rewrite !andb_true_r. unfold path_eqb.
  destruct (entry_path e); [apply eqb_refl|by apply bool_decide_eq_true..].
Qed.

Lemma entry_eqb_spec (a b : FileSystemSandboxEntry PathUri) : entry_eqb a b = true →
  access a = access b ∧ (a = b ∨ ∃ q r, entry_path a = Path q ∧ entry_path b = Path r ∧ uri_eqb q r = true).
Proof.
  unfold entry_eqb. rewrite !andb_true_iff, !bool_decide_eq_true. intros [[Hp Ha] Hm]. split; [done|].
  destruct a as [pa ma ba], b as [pb mb bb]. cbn in *. subst. destruct pa, pb; cbn in Hp; try done;
    try (apply bool_decide_eq_true in Hp; subst; by left). right. by eexists _, _.
Qed.

Lemma decides_entry p context path m d : decides p context path m d ↔
  ∃ e root, e ∈ entries p ∧ access e = m ∧ root ∈ resolved_paths context (entry_path e) ∧
    infer_path_convention root = infer_path_convention (cwd context) ∧ lexical_depth root = Some d ∧ is_within path root = true.
Proof.
  unfold decides. setoid_rewrite resolved_entries_elem. split.
  - intros (root & (e & He & Ha & Hr & Hc) & Hd & Hw). by exists e, root.
  - intros (e & root & He & Ha & Hr & Hc & Hd & Hw). exists root. split; [by exists e|done].
Qed.

(** Equal entries stand for places that cover the same paths. *)
Lemma eqb_resolved context (a b : FileSystemSandboxEntry PathUri) root : entry_eqb a b = true →
  root ∈ resolved_paths context (entry_path b) → infer_path_convention root = Some Posix →
  ∃ root', root' ∈ resolved_paths context (entry_path a) ∧ infer_path_convention root' = Some Posix ∧
    lexical_depth root' = lexical_depth root ∧ ∀ x, is_within x root' = is_within x root.
Proof.
  intros [_ [->|(q & r & -> & -> & Hqr)]]%entry_eqb_spec Hr Hc; [by exists root|].
  apply list_elem_of_singleton in Hr as ->. destruct (eqb_same q r Hc Hqr) as (? & ? & ?). exists q. split; [left|done].
Qed.

(** Appending the entries that are missing covers what both lists cover. *)
Lemma push_missing_decides context x k g es ds m d : infer_path_convention (cwd context) = Some Posix →
  decides (mkPolicy k g (foldl push_missing es ds)) context x m d ↔
  decides (mkPolicy k g es) context x m d ∨ decides (mkPolicy k g ds) context x m d.
Proof.
  intros Hcwd. rewrite !decides_entry. cbn [entries]. destruct (push_missing_app es ds) as (l & Hl & Hsub). split.
  - intros (e & root & He & ?). rewrite Hl in He. apply elem_of_app in He as [He|He]; [left|right]; exists e, root;
      (split; [|done]); [done|by apply Hsub].
  - intros [(e & root & He & ?)|(e & root & He & Ha & Hr & Hc & Hd & Hw)].
    + exists e, root. rewrite Hl. split; [|done]. apply elem_of_app. by left.
    + destruct (push_missing_has es ds e He (entry_eqb_refl e)) as (e' & He' & Heq). rewrite Hcwd in Hc.
      destruct (eqb_resolved context e' e root Heq Hr Hc) as (root' & Hr' & Hc' & Hd' & Hw').
      exists e', root'. split_and!; [done| |done|congruence|congruence|by rewrite Hw'].
      rewrite <- Ha. by destruct (entry_eqb_spec _ _ Heq).
Qed.

End access.

(** On a POSIX system the answers about the whole disk agree with the
    answers about paths.  If a policy is said to have full write access, every
    path may be written, and if it is said to have full read access every path
    may be read, whatever entries it has, as long as each of them can be
    compared (one that cannot denies every path). *)
Theorem whole_disk_answers {PathUri} `{!UriOps PathUri, !UriLaws PathUri} (p : FileSystemSandboxPolicy PathUri)
    (path : PathUri) (context : FileSystemSandboxPolicyContext PathUri)
    (Hposix : infer_path_convention (cwd context) = Some Posix) (Hcomparable : comparable path context = true)
    (Hclear : is_Some (with_depths (resolved_entries p context))) :
  (has_full_disk_write_access_with_context p context = true → can_write_path p path context = true) ∧
  (has_full_disk_read_access_for_convention p (Some Posix) = true → can_read (resolve_access p path context) = true).
Proof.
  pose proof (posix_comparable _ _ Hposix Hcomparable) as Hctx. destruct Hclear as [l Hl].
  destruct (root_entry context path Hctx) as (r & Hr & Hrc & Hrd & Hcov).
  assert (∀ e, e ∈ entries p → entry_path e = Special Root → decides p context path (access e) 0) as Hroot.
  { intros e He Hpe. exists r. split; [|done]. apply resolved_entries_elem. exists e. rewrite Hpe, Hr, Hposix.
    split_and!; [done..|left|done]. }
  split; intros Hfull.
  - unfold can_write_path. rewrite Hfull. cbn [orb]. enough (resolve_access p path context = Write) as -> by done.
    unfold has_full_disk_write_access_with_context, has_full_disk_write_access_for_convention in Hfull. rewrite Hposix in Hfull.
    destruct (kind p) eqn:Hk; [|by unfold resolve_access; rewrite Hk..]. cbn [is_some_and] in Hfull.
    apply andb_true_iff in Hfull as [Hwr Hn%negb_true_iff]. unfold has_write_narrowing_entries, is_restricted in Hn.
    rewrite Hk, bool_decide_true in Hn by done. cbn [andb] in Hn.
    destruct (resolve_access_spec p context path l Hk Hcomparable ltac:(by eexists) Hl) as [(m & d & Hm & Hdec & Hmax)|[_ Hno]].
    + rewrite Hm. pose proof Hdec as (root & Hin & Hd & Hw). apply resolved_entries_elem in Hin as (e & He & <- & Hre & Hrec).
      assert (narrows_write p Posix e = false) as Hne.
      { apply not_true_is_false. intros Hne. rewrite <- not_true_iff_false in Hn. apply Hn. apply existsb_exists.
        exists e. by rewrite <- list_elem_of_In. }
      assert (decides p context path Write d) as Hwd by (apply (not_narrowing p context path e root d); congruence).
      apply Hmax in Hwd. unfold key_le in Hwd. cbn [fst snd] in Hwd.
      rewrite orb_true_iff, andb_true_iff, Nat.ltb_lt, Nat.eqb_eq, Nat.leb_le in Hwd.
      destruct (access e) eqn:Ha; [cbn in Hwd; lia|done|]. by rewrite (deny_narrows p context e root Ha Hre) in Hne.
    + apply andb_true_iff in Hwr as [_ (c & Hc%list_elem_of_In & Hcw)%existsb_exists].
      destruct (entry_path c) as [| |[]] eqn:Hpc; try done. by destruct (Hno (access c) 0); apply Hroot.
  - unfold has_full_disk_read_access_for_convention in Hfull.
    destruct (kind p) eqn:Hk; [|by unfold resolve_access; rewrite Hk..].
    apply andb_true_iff in Hfull as [Hrd' Hn%negb_true_iff]. unfold has_denied_read_restrictions_for_convention, is_restricted in Hn.
    rewrite Hk, bool_decide_true in Hn by done. cbn [andb] in Hn.
    destruct (resolve_access_spec p context path l Hk Hcomparable ltac:(by eexists) Hl) as [(m & d & Hm & Hdec & Hmax)|[_ Hno]].
    + rewrite Hm. destruct Hdec as (root & Hin & _). apply resolved_entries_elem in Hin as (e & He & <- & _).
      unfold can_read. apply negb_true_iff, bool_decide_eq_false. intros Ha. rewrite <- not_true_iff_false in Hn. apply Hn.
      apply existsb_exists. exists e. rewrite <- list_elem_of_In. split; [done|]. rewrite bool_decide_true by done.
      destruct (entry_path e) as [| |[]]; try done.
    + apply andb_true_iff in Hrd' as [_ (c & Hc%list_elem_of_In & Hcw)%existsb_exists].
      destruct (entry_path c) as [| |[]] eqn:Hpc; try done. by destruct (Hno (access c) 0); apply Hroot.
Qed.

(** Taking over the denials of another policy never grants anything: every
    path keeps its access or is denied.  And on a POSIX system they take
    effect: a path under a denied place is denied unless an entry covers it
    more specifically. *)
Theorem denials_only_narrow {PathUri} `{!UriOps PathUri, !UriLaws PathUri} (p existing : FileSystemSandboxPolicy PathUri)
    (path : PathUri) (context : FileSystemSandboxPolicyContext PathUri) :
  let p' := preserve_deny_read_restrictions_from p existing in
  (resolve_access p' path context = Deny ∨ resolve_access p' path context = resolve_access p path context) ∧
  (∀ e root d, infer_path_convention (cwd context) = Some Posix → kind p' = Restricted → e ∈ entries existing → access e = Deny →
     root ∈ resolved_paths context (entry_path e) →
     infer_path_convention root = Some Posix →
     lexical_depth root = Some d → is_within path root = true →
     (∀ m d', decides p' context path m d' → d' ≤ d) → resolve_access p' path context = Deny).
Proof.
  intros p'. assert (∀ q, kind q = Restricted → ∀ g,
    let q' := mkPolicy Restricted g (foldl push_missing (entries q) (deny_entries existing)) in
    resolve_access q' path context = Deny ∨ resolve_access q' path context = resolve_access q path context) as Hnarrow.
  { intros q Hq g q'. destruct (push_missing_app (entries q) (deny_entries existing)) as (k & Hk & Hsub).
    unfold q'. rewrite Hk. apply deny_more; [done|]. apply Forall_forall. intros e He. apply Hsub in He.
    by apply list_elem_of_filter in He as [? _]. }
  split.
  - unfold p', preserve_deny_read_restrictions_from. destruct (bool_decide (kind p = Unrestricted) && _) eqn:Hu.
    + apply andb_true_iff in Hu as [Hu%bool_decide_eq_true _]. cbn [is_restricted restricted kind bool_decide].
      unfold is_restricted. cbn [kind restricted]. rewrite bool_decide_true by done. cbn [negb].
      destruct (Hnarrow (restricted [new_entry (Special Root) Write]) eq_refl (glob_scan_max_depth existing)) as [?|Heq]; [by left|].
      cbn [glob_scan_max_depth restricted] in *. rewrite Heq.
      assert (resolve_access p path context = Write) as -> by (unfold resolve_access; by rewrite Hu).
      unfold resolve_access. cbn [kind restricted]. destruct (infer_path_convention (cwd context)); [|by left].
      destruct (negb _); [by left|]. destruct (with_depths _) as [l|] eqn:Hl; [|by left].
      destruct (max_by_key (covering path l)) as [[m d]|] eqn:Hmax; [|by left]. right.
      apply max_by_key_spec in Hmax as [(r & Hin & _)%covering_elem _].
      apply (with_depths_elem _ _ _ _ _ Hl) in Hin as [Hin _]. apply resolved_entries_elem in Hin as (e & He & <- & _).
      by apply list_elem_of_singleton in He as ->.
    + unfold is_restricted. destruct (kind p) eqn:Hk; [|by right..].
      rewrite bool_decide_true by done. cbn [negb]. by apply Hnarrow.
  - intros e root d Hcwd Hk He Ha Hroot Hc Hd Hin Hdeepest.
    assert (∃ e', e' ∈ entries p' ∧ entry_eqb e' e = true) as (e' & He' & Heq).
    { unfold p', preserve_deny_read_restrictions_from in *. revert Hk.
      destruct (bool_decide (kind p = Unrestricted) && _) eqn:Hu; unfold is_restricted; intros Hk.
      all: case_bool_decide as Hr; cbn [negb] in *; [|by destruct Hr].
      all: apply push_missing_has; [by apply list_elem_of_filter|].
      all: unfold entry_eqb; rewrite !bool_decide_true, !andb_true_r by done.
      all: destruct (entry_path e); cbn; [apply eqb_refl|by rewrite bool_decide_true..]. }
    unfold entry_eqb in Heq. rewrite !andb_true_iff, !bool_decide_eq_true in Heq. destruct Heq as [[Hpath Hacc] _].
    assert (decides p' context path Deny d) as Hdec.
    { destruct (entry_path e') as [q|g|v] eqn:Hpe, (entry_path e) as [q'|g'|v']; cbn in Hpath; try done.
      - apply list_elem_of_singleton in Hroot as ->. destruct (eqb_same _ _ Hc Hpath) as (E1 & E2 & E3).
        exists q. split_and!; [|congruence|by rewrite E3]. apply resolved_entries_elem. exists e'. rewrite Hpe.
        split_and!; [done|congruence|left|congruence].
      - by apply elem_of_nil in Hroot.
      - apply bool_decide_eq_true in Hpath as ->. exists root. split; [|done]. apply resolved_entries_elem. exists e'.
        rewrite Hpe. split_and!; [done|congruence|done|congruence]. }
    destruct (comparable path context) eqn:Hcmp; [|apply resolve_access_deny; tauto].
    destruct (with_depths (resolved_entries p' context)) as [l|] eqn:Hl; [|apply resolve_access_deny; tauto].
    destruct (resolve_access_spec p' context path l Hk Hcmp ltac:(by eexists) Hl) as [(m & d' & Hm & Hdec' & Hmax)|[? _]]; [|done].
    rewrite Hm. apply Hmax in Hdec. apply Hdeepest in Hdec'. unfold key_le in Hdec. cbn [fst snd] in Hdec.
    rewrite orb_true_iff, andb_true_iff, Nat.ltb_lt, Nat.eqb_eq, Nat.leb_le in Hdec. destruct m; cbn in Hdec; [lia..|done].
Qed.

(** The metadata of a writable root stays read only: a path below [.git],
    [.agents], [.codex] or [.aws] of a writable root can be written only if
    the policy grants the whole disk or an entry grants writing at or below
    such a directory, on the way to the path. *)
Theorem metadata_is_protected {PathUri} `{!UriOps PathUri} (p : FileSystemSandboxPolicy PathUri)
    (path root protected : PathUri) (name : rstr) (context : FileSystemSandboxPolicyContext PathUri)
    (Hrestricted : kind p = Restricted) (Hnot_full : has_full_disk_write_access_with_context p context = false)
    (Hroot : (root, Write) ∈ resolved_entries p context) (Hname : name ∈ PROTECTED_METADATA_PATH_NAMES)
    (Hjoin : join_descendant root name = Some protected) (Hbelow : is_within path protected = true)
    (Hwrite : can_write_path p path context = true) :
  ∃ root' protected' name' granted, (root', Write) ∈ resolved_entries p context ∧
    name' ∈ PROTECTED_METADATA_PATH_NAMES ∧ join_descendant root' name' = Some protected' ∧
    (granted, Write) ∈ resolved_entries p context ∧ is_within path granted = true ∧ is_within granted protected' = true.
Proof.
  unfold can_write_path in Hwrite. destruct (can_write (resolve_access p path context)); [|done]. cbn [negb] in Hwrite.
  rewrite Hnot_full in Hwrite. cbn [orb] in Hwrite. apply negb_true_iff, bool_decide_eq_false in Hwrite.
  apply eq_None_not_Some in Hwrite. unfold metadata_write_denial, is_restricted in Hwrite.
  rewrite Hrestricted, bool_decide_true in Hwrite by done. cbn [negb] in Hwrite.
  assert (is_Some (protecting path root)) as Hp.
  { apply find_map_is_Some with (x := name); [done|]. by rewrite Hjoin; cbn; rewrite Hbelow. }
  destruct (find_map_is_Some (λ e : PathUri * FileSystemAccessMode, protecting path e.1)
    (filter (λ e, can_write e.2 = true) (resolved_entries p context)) (root, Write)) as [[protected' name'] Hf]; [|done|].
  { by apply list_elem_of_filter. }
  rewrite Hf in Hwrite. cbn [mbind option_bind] in Hwrite.
  destruct (existsb _ _) eqn:Hex; [|done]. apply existsb_exists in Hex as ([granted m] & Hg%list_elem_of_In & Hcond).
  rewrite !andb_true_iff in Hcond. destruct Hcond as [[Hm%bool_decide_eq_true Hpg] Hgp]. cbn [fst snd] in Hm, Hpg, Hgp. subst m.
  apply find_map_Some in Hf as ([root' m'] & [Hm' Hr']%list_elem_of_filter & Hprot). apply bool_decide_eq_true in Hm'.
  cbn [fst snd] in Hm', Hprot. subst m'. unfold protecting in Hprot. apply find_map_Some in Hprot as (name'' & Hn & Hj).
  apply bind_Some in Hj as (protected'' & Hj & Hw). destruct (is_within path protected''); [|done]. injection Hw as -> ->.
  by exists root', protected', name', granted.
Qed.

(** Replacing the symbolic workspace roots of a policy by real ones never
    reaches outside of them: an entry of the result is an entry of the policy
    that names no workspace root, or it lies in one of the roots, with the
    access of the entry it comes from or as a denial. *)
Theorem materialized_inside {PathUri} `{!UriOps PathUri, !UriLaws PathUri} (p : FileSystemSandboxPolicy PathUri)
    (roots : list PathUri) (e : FileSystemSandboxEntry PathUri)
    (He : e ∈ entries (materialize_project_roots_with_path_uris p roots)) :
  (e ∈ entries p ∧ project_root_subpath (entry_path e) = None) ∨
  ∃ source root path, source ∈ entries p ∧ is_Some (project_root_subpath (entry_path source)) ∧ root ∈ roots ∧
    is_within path root = true ∧
    (entry_path e = Path path ∨ entry_path e = GlobPattern (inferred_native_path_string path)) ∧
    (access e = access source ∨ access e = Deny).
Proof.
  unfold materialize_project_roots_with_path_uris in He.
  destruct (materialize_entries roots (entries p)) as [es|] eqn:Hm; [|by apply elem_of_nil in He]. cbn [entries] in He.
  revert es Hm He. induction (entries p) as [|s ss IH]; intros es Hm He; cbn [materialize_entries] in Hm.
  { injection Hm as <-. by apply elem_of_nil in He. }
  destruct (project_root_subpath (entry_path s)) as [[subpath is_glob]|] eqn:Hs.
  - destruct (denies_home s subpath roots); [done|]. apply bind_Some in Hm as (rest & Hrest & [= <-]).
    apply elem_of_app in He as [He|He].
    + right. apply list_elem_of_omap in He as (root & Hr & Hmat). unfold materialize_root in Hmat. cbv zeta in Hmat.
      apply bind_Some in Hmat as ([path' m] & Hpm & [= <-]). cbn [entry_path access].
      destruct (if is_glob && _ then None else _) as [path|] eqn:Hpath.
      * injection Hpm as <- <-. exists s, root, path. split_and!; [left|by eexists|done| | |by left].
        -- destruct (is_glob && _); [done|]. destruct subpath as [sub|]; [|injection Hpath as <-; apply within_refl].
           unfold resolve_scoped_workspace_path in Hpath. apply bind_Some in Hpath as (c & _ & Hpath).
           destruct (_ || _ || _); [done|]. apply bind_Some in Hpath as (q & _ & Hpath).
           destruct (is_within q root) eqn:Hq; [|done]. by injection Hpath as <-.
        -- destruct is_glob; [by right|by left].
      * destruct (can_write (access s)); [done|]. injection Hpm as <- <-.
        exists s, root, root. split_and!; [left|by eexists|done|apply within_refl|by left|by right].
    + destruct (IH _ Hrest He) as [[? ?]|(source & root & path & ? & ?)]; [left; split; [by right|done]|].
      right. exists source, root, path. split; [by right|done].
  - apply bind_Some in Hm as (rest & Hrest & [= <-]). apply elem_of_cons in He as [->|He].
    + left. split; [left|done].
    + destruct (IH _ Hrest He) as [[? ?]|(source & root & path & ? & ?)]; [left; split; [by right|done]|].
      right. exists source, root, path. split; [by right|done].
Qed.

(** ** Paths as lists of names

    The simplest paths with these laws: absolute POSIX paths without links,
    for concrete policies. *)
Definition names (s : rstr) : list rstr := filter (λ c, c ≠ []) (path_segments Posix s).

#[local] Instance names_ops : UriOps (list rstr) := {|
  uri_eqb p q := bool_decide (p = q);
  infer_path_convention _ := Some Posix;
  lexical_depth p := Some (length p);
  is_opaque _ := false;
  parent p := match p with [] => None | _ => Some (take (length p - 1) p) end;
  ancestors p := (λ n, take n p) <$> reverse (seq 0 (S (length p)));
  basename p := last p;
  is_within x p := bool_decide (p `prefix_of` x);
  join p s := Some (if starts_with ($"/") s then names s else p ++ names s);
  join_descendant p s := Some (p ++ names s);
  validate_glob_directory _ _ := true;
  inferred_native_path_string p := concat (cons SLASH <$> p)
|}.

#[local] Instance names_laws : UriLaws (list rstr).
Proof.
  split; cbn.
  - intros p. by apply bool_decide_eq_true.
  - intros p. by apply bool_decide_eq_true.
  - intros p q _ H%bool_decide_eq_true. by subst.
  - intros c _ _. exists []. split_and!; [|done..].
    change (last ((λ n, take n c) <$> reverse (0 :: seq 1 (length c))) = Some []).
    by rewrite reverse_cons, fmap_app, last_app.
  - intros x r _ _ _ [= H]. destruct r; [|done]. apply bool_decide_eq_true, prefix_nil.
  - intros q d _ [= <-]. by destruct q.
  - intros c _. exists [$"tmp"]. split_and!; [done..|]. intros q _ [= Hl] Hb x.
    destruct q as [|a [|b q]]; [done| |done]. cbn in Hb. by injection Hb as ->.
Qed.

Definition demo_context : FileSystemSandboxPolicyContext (list rstr) :=
  mkContext [$"w"] [[$"w"]] None None.
Definition demo_file : list rstr := names ($"/w/.git/config").

Lemma whole_disk_answers_witness :
  let p := restricted [new_entry (Special Root) Write; new_entry (Path [$"w"]) Read; new_entry (Path [$"w"]) Write] in
  can_write_path p demo_file demo_context = true.
Proof.
  intros p. apply (whole_disk_answers p demo_file demo_context); [reflexivity|reflexivity| |reflexivity].
  eexists. reflexivity.
Defined.

Lemma denials_only_narrow_witness :
  let existing := restricted [new_entry (Path [$"w"; $".git"]) Deny] in
  resolve_access (preserve_deny_read_restrictions_from unrestricted existing) demo_file demo_context = Deny.
Proof.
  intros existing. destruct (denials_only_narrow unrestricted existing demo_file demo_context) as [_ Hdeny].
  apply (Hdeny (new_entry (Path [$"w"; $".git"]) Deny) [$"w"; $".git"] 2); [reflexivity|reflexivity|left|reflexivity|left|reflexivity..|].
  intros m d (r & Hin & Hd & _).
  change (resolved_entries _ _) with [([] : list rstr, Write); ([$"w"; $".git"], Deny)] in Hin.
  rewrite !elem_of_cons, elem_of_nil in Hin.
  destruct Hin as [[= -> ->]|[[= -> ->]|[]]]; injection Hd as <-; repeat constructor.
Defined.

Definition demo_policy : FileSystemSandboxPolicy (list rstr) :=
  restricted [new_entry (Special (ProjectRoots None)) Write; new_entry (Path [$"w"; $".git"]) Write].

Lemma metadata_is_protected_witness :
  can_write_path demo_policy demo_file demo_context = true ∧
  ∃ root' protected' name' granted, (root', Write) ∈ resolved_entries demo_policy demo_context ∧
    name' ∈ PROTECTED_METADATA_PATH_NAMES ∧ join_descendant root' name' = Some protected' ∧
    (granted, Write) ∈ resolved_entries demo_policy demo_context ∧ is_within demo_file granted = true ∧
    is_within granted protected' = true.
Proof.
  assert (can_write_path demo_policy demo_file demo_context = true) as Hw by (vm_compute; reflexivity).
  split; [exact Hw|].
  apply (metadata_is_protected demo_policy demo_file [$"w"] [$"w"; $".git"] ($".git") demo_context);
    [reflexivity|reflexivity|left|left|reflexivity|reflexivity|exact Hw].
Defined.

Lemma materialized_inside_witness :
  let p := restricted [new_entry (Special (ProjectRoots (Some ($"src")))) Write] in
  let e := new_entry (Path [$"w"; $"src"]) Write in
  e ∈ entries (materialize_project_roots_with_path_uris p [[$"w"]]) ∧
  ((e ∈ entries p ∧ project_root_subpath (entry_path e) = None) ∨
   ∃ source root path, source ∈ entries p ∧ is_Some (project_root_subpath (entry_path source)) ∧ root ∈ [[$"w"]] ∧
    is_within path root = true ∧
    (entry_path e = Path path ∨ entry_path e = GlobPattern (inferred_native_path_string path)) ∧
    (access e = access source ∨ access e = Deny)).
Proof.
  intros p e. assert (e ∈ entries (materialize_project_roots_with_path_uris p [[$"w"]])) as He by left.
  split; [exact He|]. exact (materialized_inside p [[$"w"]] e He).
Defined.

(** The denial for metadata looks only at the first writable root that has
    some: which of two nested roots comes first decides whether the metadata
    of the inner one is protected. *)
Lemma metadata_denial_depends_on_order :
  let outer := new_entry (Path [$"w"]) Write in
  let inner := new_entry (Path [$"w"; $".git"; $"hooks"]) Write in
  let path := names ($"/w/.git/hooks/.git/config") in
  metadata_write_denial (restricted [outer; inner]) path demo_context = None ∧
  metadata_write_denial (restricted [inner; outer]) path demo_context = Some ($".git").
Proof. split; vm_compute; reflexivity. Qed.
