(* ===== verification/ExecApproval.v ===== *)
(** * Approval of commands

    Model of [core/src/exec_policy.rs] with [exec_policy/model_policy.rs] and
    [exec_policy/executable_identity.rs]: whether a command of the model runs,
    needs the user's approval or is refused.  The rules are those of
    [ExecPolicy], the commands inside a shell script those of [ShellSyntax],
    and commands without a rule are classified by [DangerousCommand]. *)

From S2P Require Import Prelude RustStr ExecPolicy ShellSyntax DangerousCommand Permissions.

(** ** Settings *)

Record GranularApprovalConfig := mkGranular {
  sandbox_approval : bool;
  rules : bool;
  skill_approval : bool;
  request_permissions : bool;
  mcp_elicitations : bool
}.

Inductive AskForApproval := UnlessTrusted | OnRequest | Granular (config : GranularApprovalConfig) | Never.

Inductive SandboxPermissions := UseDefault | RequireEscalated | WithAdditionalPermissions.
#[export] Instance SandboxPermissions_eq : EqDecision SandboxPermissions.
Proof. solve_decision. Defined.

Definition requests_sandbox_override (p : SandboxPermissions) : bool := negb (bool_decide (p = UseDefault)).
Definition requires_escalated_permissions (p : SandboxPermissions) : bool := bool_decide (p = RequireEscalated).

Inductive WindowsSandboxLevel := SandboxDisabled | RestrictedToken | Elevated.
#[export] Instance WindowsSandboxLevel_eq : EqDecision WindowsSandboxLevel.
Proof. solve_decision. Defined.

Inductive ExecPolicyCommandOrigin := Generic | FromPowerShell.
Inductive AllowPrefixRules := Honor | IgnoreForCyberModel.
#[export] Instance AllowPrefixRules_eq : EqDecision AllowPrefixRules.
Proof. solve_decision. Defined.

Definition PROMPT_CONFLICT_REASON : rstr := $"approval required by policy, but AskForApproval is set to Never".
Definition REJECT_SANDBOX_APPROVAL_REASON : rstr :=
  $"approval required by policy, but AskForApproval::Granular.sandbox_approval is false".
Definition REJECT_RULES_APPROVAL_REASON : rstr :=
  $"approval required by policy rule, but AskForApproval::Granular.rules is false".

Definition prompt_is_rejected_by_policy (approval_policy : AskForApproval) (prompt_is_rule : bool) : option rstr :=
  match approval_policy with
  | Never => Some PROMPT_CONFLICT_REASON
  | OnRequest | UnlessTrusted => None
  | Granular config =>
      if prompt_is_rule then (if negb (rules config) then Some REJECT_RULES_APPROVAL_REASON else None)
      else if negb (sandbox_approval config) then Some REJECT_SANDBOX_APPROVAL_REASON else None
  end.

(** An amendment is the prefix of the rule it proposes. *)
Inductive ExecApprovalRequirement :=
| Skip (bypass_sandbox : bool) (proposed_execpolicy_amendment : option (list rstr))
| NeedsApproval (reason : option rstr) (proposed_execpolicy_amendment : option (list rstr))
| Forbidden (reason : rstr).

Definition proposed_amendment (r : ExecApprovalRequirement) : option (list rstr) :=
  match r with
  | Skip _ amendment | NeedsApproval _ amendment => amendment
  | Forbidden _ => None
  end.

Definition BANNED_PREFIX_SUGGESTIONS : list (list rstr) :=
  [[$"/bin/bash"]; [$"/bin/bash"; $"-c"]; [$"/bin/bash"; $"-lc"]; [$"/bin/sh"]; [$"/bin/sh"; $"-c"];
   [$"/bin/sh"; $"-lc"]; [$"/bin/zsh"]; [$"/bin/zsh"; $"-c"]; [$"/bin/zsh"; $"-lc"]; [$"Rscript"]; [$"bash"];
   [$"bash"; $"-c"]; [$"bash"; $"-lc"]; [$"bun"]; [$"bun"; $"-e"]; [$"bun"; $"run"]; [$"cmd"]; [$"cmd"; $"/c"];
   [$"cmd"; $"/k"]; [$"cmd.exe"]; [$"cmd.exe"; $"/c"]; [$"cmd.exe"; $"/k"]; [$"dash"]; [$"dash"; $"-c"]; [$"deno"];
   [$"deno"; $"eval"]; [$"env"]; [$"fish"]; [$"fish"; $"-c"]; [$"git"]; [$"julia"]; [$"julia"; $"-e"]; [$"ksh"];
   [$"ksh"; $"-c"]; [$"lua"]; [$"lua"; $"-e"]; [$"node"]; [$"node"; $"-e"]; [$"nodejs"]; [$"nodejs"; $"-e"];
   [$"npm"; $"run"]; [$"osascript"]; [$"perl"]; [$"perl"; $"-e"]; [$"php"]; [$"php"; $"-r"]; [$"pnpm"; $"run"];
   [$"powershell"]; [$"powershell"; $"-Command"]; [$"powershell"; $"-EncodedCommand"]; [$"powershell"; $"-File"];
   [$"powershell"; $"-c"]; [$"powershell.exe"]; [$"powershell.exe"; $"-Command"];
   [$"powershell.exe"; $"-EncodedCommand"]; [$"powershell.exe"; $"-File"]; [$"powershell.exe"; $"-c"]; [$"pwsh"];
   [$"pwsh"; $"-Command"]; [$"pwsh"; $"-EncodedCommand"]; [$"pwsh"; $"-File"]; [$"pwsh"; $"-c"]; [$"pwsh"; $"-e"];
   [$"pwsh"; $"-ec"]; [$"pwsh"; $"-f"]; [$"py"]; [$"py"; $"-3"]; [$"pypy"]; [$"pypy3"]; [$"python"];
   [$"python"; $"-"]; [$"python"; $"-c"]; [$"python3"]; [$"python3"; $"-"]; [$"python3"; $"-c"]; [$"pythonw"];
   [$"pyw"]; [$"rm"]; [$"ruby"]; [$"ruby"; $"-e"]; [$"sh"]; [$"sh"; $"-c"]; [$"sh"; $"-lc"]; [$"sudo"];
   [$"yarn"; $"run"]; [$"zsh"]; [$"zsh"; $"-c"]; [$"zsh"; $"-lc"]].

Definition dangerous_command_rejection_reason (m : DangerousCommandMatch) : rstr :=
  match m with
  | ForcedRm => $"rm -f style commands are not permitted. Use a safer approach"
  | Other => $"blocked by policy"
  end.

Definition derive_rejected_prompt_reason (fallback_reason : rstr) (m : option DangerousCommandMatch) : rstr :=
  match m with
  | Some ForcedRm => dangerous_command_rejection_reason ForcedRm
  | Some Other | None => fallback_reason
  end.

(** [Iterator::max_by_key]: the last of the greatest. *)
Fixpoint max_by {A} (key : A → nat) (l : list A) : option A :=
  match l with
  | [] => None
  | x :: l => match max_by key l with
              | Some y => Some (if key x <=? key y then y else x)
              | None => Some x
              end
  end.

Section approval.
Context {AbsPath PathUri : Type} `{!EqDecision AbsPath} `{!UriOps PathUri}.
(** [cfg!(windows)], the host's paths, and the libraries that read shell text. *)
Context (windows : bool) (try_from : rstr → option AbsPath) (file_name : AbsPath → option rstr).
Context (shlex_split : rstr → option (list rstr)) (shlex_join : list rstr → option rstr).
Context (url_scheme : rstr → option rstr) (try_parse_shell : rstr → option Tree).
(** The reader of PowerShell scripts. *)
Context (try_parse_powershell_commands : rstr → option (list (list rstr))).

Local Abbreviation Policy := (ExecPolicy.Policy AbsPath).
Local Abbreviation RuleMatch := (ExecPolicy.RuleMatch AbsPath).

(** [PathConvention::native]. *)
Definition native : PathConvention := if windows then RustStr.Windows else RustStr.Posix.

(** ** Commands without a rule *)

Definition dangerous_command_match_for_origin (command : list rstr) (origin : ExecPolicyCommandOrigin)
    (platform : DangerousCommandPlatform) : option DangerousCommandMatch :=
  match origin with
  | Generic => dangerous_command_match_for_platform shlex_split url_scheme try_parse_shell command platform
  | FromPowerShell => dangerous_powershell_words_match url_scheme command platform
  end.

Definition profile_has_managed_filesystem_restrictions (profile : PermissionProfile PathUri) : bool :=
  let policy := file_system_sandbox_policy profile in
  match profile with Managed _ _ => true | _ => false end
  && bool_decide (Permissions.kind policy = Restricted)
  && negb (has_full_disk_write_access_for_convention policy (Some native)).

Record UnmatchedCommandContext := mkUnmatched {
  approval_policy : AskForApproval;
  permission_profile : PermissionProfile PathUri;
  windows_sandbox_level : WindowsSandboxLevel;
  sandbox_permissions : SandboxPermissions;
  command_origin : ExecPolicyCommandOrigin
}.

(** The conditions under which an unmatched command never just runs. *)
Definition unprotected (command : list rstr) (context : UnmatchedCommandContext)
    (platform : DangerousCommandPlatform) : bool :=
  bool_decide (is_Some (dangerous_command_match_for_origin command (command_origin context) platform))
  || windows && bool_decide (windows_sandbox_level context = SandboxDisabled)
     && profile_has_managed_filesystem_restrictions (permission_profile context).

Definition render_decision_for_unmatched_command_for_platform (command : list rstr)
    (context : UnmatchedCommandContext) (platform : DangerousCommandPlatform) : Decision :=
  if unprotected command context platform then
    match approval_policy context with
    | Never => ExecPolicy.Forbidden
    | OnRequest | UnlessTrusted | Granular _ => Prompt
    end
  else
    match approval_policy context with
    | Never => Allow
    | UnlessTrusted => Prompt
    | OnRequest | Granular _ =>
        match Permissions.kind (file_system_sandbox_policy (permission_profile context)) with
        | Unrestricted | ExternalSandbox => Allow
        | Restricted => if requests_sandbox_override (sandbox_permissions context) then Prompt else Allow
        end
    end.

(** ** The commands of a command line *)

Definition POWERSHELL_FLAGS : list rstr := [$"-nologo"; $"-noprofile"; $"-command"; $"-c"].

(** The loop over the flags; [args] are the words from index [i]. *)
Fixpoint powershell_script (args : list rstr) : option rstr :=
  match args with
  | flag :: ((script :: _) as rest) =>
      if negb (bool_decide (to_ascii_lowercase flag ∈ POWERSHELL_FLAGS)) then None
      else if eq_ignore_ascii_case flag ($"-Command") || eq_ignore_ascii_case flag ($"-c") then Some script
      else powershell_script rest
  | _ => None
  end.

Definition extract_powershell_command (command : list rstr) : option (rstr * rstr) :=
  match command with
  | shell :: ((_ :: _ :: _) as args) =>
      if negb (bool_decide (detect_shell_type shell = Some PowerShell)) then None
      else script ← powershell_script args; Some (shell, script)
  | _ => None
  end.

Definition parse_powershell_command_into_plain_commands (command : list rstr) : option (list (list rstr)) :=
  '(_, script) ← extract_powershell_command command; try_parse_powershell_commands script.

Definition commands_for_exec_policy_for_platform (command : list rstr) (platform : DangerousCommandPlatform) :
    list (list rstr) * ExecPolicyCommandOrigin :=
  match non_empty (parse_shell_lc_plain_commands try_parse_shell command) with
  | Some commands => (commands, Generic)
  | None =>
      match (if bool_decide (platform = DangerousCommand.Windows)
             then non_empty (parse_powershell_command_into_plain_commands command) else None) with
      | Some commands => (commands, FromPowerShell)
      | None => ([command], Generic)
      end
  end.

(** ** Reasons *)

Definition is_policy_match (m : RuleMatch) : bool :=
  match m with PrefixRuleMatch _ _ _ _ => true | HeuristicsRuleMatch _ _ => false end.

Definition dangerous_command_match_for_heuristics (ms : list RuleMatch) (d : Decision)
    (origin : ExecPolicyCommandOrigin) (platform : DangerousCommandPlatform) : option DangerousCommandMatch :=
  find_map (λ m, match m with
                 | HeuristicsRuleMatch command matched =>
                     if decide (matched = d) then dangerous_command_match_for_origin command origin platform else None
                 | _ => None
                 end) ms.

Definition render_shlex_command (args : list rstr) : rstr := default (RustStr.join ($" ") args) (shlex_join args).

(** The prefix rules that matched with a decision: the prefix and its reason. *)
Definition rules_deciding (d : Decision) (ms : list RuleMatch) : list (list rstr * option rstr) :=
  omap (λ m, match m with
             | PrefixRuleMatch prefix d' _ justification => if decide (d' = d) then Some (prefix, justification) else None
             | HeuristicsRuleMatch _ _ => None
             end) ms.
Definition most_specific (d : Decision) (ms : list RuleMatch) : option (list rstr * option rstr) :=
  max_by (λ m, length m.1) (rules_deciding d ms).

Definition quoted_command (command_args : list rstr) : rstr := $"`" ++ render_shlex_command command_args ++ $"`".

Definition derive_prompt_reason (command_args : list rstr) (ms : list RuleMatch) : option rstr :=
  match most_specific Prompt ms with
  | Some (_, Some justification) => Some (quoted_command command_args ++ $" requires approval: " ++ justification)
  | Some (_, None) => Some (quoted_command command_args ++ $" requires approval by policy")
  | None => None
  end.

Definition derive_forbidden_reason (command_args : list rstr) (ms : list RuleMatch)
    (dangerous : option DangerousCommandMatch) : rstr :=
  match most_specific ExecPolicy.Forbidden ms with
  | Some (_, Some justification) => quoted_command command_args ++ $" rejected: " ++ justification
  | Some (prefix, None) =>
      quoted_command command_args ++ $" rejected: policy forbids commands starting with " ++ quoted_command prefix
  | None =>
      match dangerous with
      | Some m => quoted_command command_args ++ $" rejected: " ++ dangerous_command_rejection_reason m
      | None => quoted_command command_args ++ $" rejected: blocked by policy"
      end
  end.

(** ** Proposed amendments *)

Definition rule_with (d : Decision) (m : RuleMatch) : bool := is_policy_match m && bool_decide (match_decision m = d).

Definition first_heuristic (d : Decision) (ms : list RuleMatch) : option (list rstr) :=
  find_map (λ m, match m with
                 | HeuristicsRuleMatch command d' => if decide (d' = d) then Some command else None
                 | _ => None
                 end) ms.

Definition try_derive_execpolicy_amendment_for_prompt_rules (ms : list RuleMatch) : option (list rstr) :=
  if existsb (rule_with Prompt) ms then None else first_heuristic Prompt ms.

Definition try_derive_execpolicy_amendment_for_allow_rules (ms : list RuleMatch) : option (list rstr) :=
  if existsb is_policy_match ms then None else first_heuristic Allow ms.

Definition match_options : MatchOptions := mkMatchOptions true.

Local Abbreviation check_command := (check_with_options windows try_from file_name).

(** [None] is the panic of [from_matches]. *)
Definition prefix_rule_would_approve_all_commands (exec_policy : Policy) (prefix_rule : list rstr)
    (commands : list (list rstr)) (fallback : list rstr → Decision) : option bool :=
  match add_prefix_rule exec_policy prefix_rule Allow with
  | Err _ => Some false
  | Ok with_rule =>
      (fix all commands := match commands with
        | [] => Some true
        | command :: commands =>
            e ← check_command with_rule command fallback match_options;
            if decide (eval_decision e = Allow) then all commands else Some false
        end) commands
  end.

Definition derive_requested_execpolicy_amendment_from_prefix_rule (prefix_rule : option (list rstr))
    (ms : list RuleMatch) (exec_policy : Policy) (commands : list (list rstr)) (fallback : list rstr → Decision) :
    option (option (list rstr)) :=
  match prefix_rule with
  | None => Some None
  | Some prefix =>
      if is_empty prefix || bool_decide (prefix ∈ BANNED_PREFIX_SUGGESTIONS) || existsb is_policy_match ms
      then Some None
      else approves ← prefix_rule_would_approve_all_commands exec_policy prefix commands fallback;
           Some (if (approves : bool) then Some prefix else None)
  end.

(** ** The requirement *)

Definition current_for_prefix_rules (policy : Policy) (allow_prefix_rules : AllowPrefixRules) : Policy :=
  match allow_prefix_rules with
  | Honor => policy
  | IgnoreForCyberModel =>
      ExecPolicy.mkPolicy
        (omap (λ rs, non_empty (Some (filter (λ r, rule_decision r ≠ Allow) rs))) (rules_by_program policy))
        (network_rules policy) (host_executables_by_name policy)
  end.

Definition current_for_environment (policy : Policy) (environment_policy : option Policy)
    (allow_prefix_rules : AllowPrefixRules) : Policy :=
  let policy := current_for_prefix_rules policy allow_prefix_rules in
  match environment_policy with
  | Some environment_policy => merge_overlay policy environment_policy
  | None => policy
  end.

Record ExecApprovalRequest := mkRequest {
  command : list rstr;
  req_approval_policy : AskForApproval;
  req_permission_profile : PermissionProfile PathUri;
  environment_policy : option Policy;
  req_windows_sandbox_level : WindowsSandboxLevel;
  req_sandbox_permissions : SandboxPermissions;
  prefix_rule : option (list rstr);
  allow_prefix_rules : AllowPrefixRules
}.

Definition request_context (req : ExecApprovalRequest) (origin : ExecPolicyCommandOrigin) : UnmatchedCommandContext :=
  mkUnmatched (req_approval_policy req) (req_permission_profile req) (req_windows_sandbox_level req)
    (req_sandbox_permissions req) origin.

Definition exec_policy_fallback (req : ExecApprovalRequest) (origin : ExecPolicyCommandOrigin)
    (platform : DangerousCommandPlatform) (cmd : list rstr) : Decision :=
  render_decision_for_unmatched_command_for_platform cmd (request_context req origin) platform.

Definition explicitly_allowed (exec_policy : Policy) (command : list rstr) : bool :=
  existsb (rule_with Allow)
    (matches_for_command_with_options windows try_from file_name exec_policy command None match_options).

(** The requirement for a decision; [requested] is the amendment for the
    prefix that the model asked for. *)
Definition requirement_for (exec_policy : Policy) (req : ExecApprovalRequest) (commands : list (list rstr))
    (origin : ExecPolicyCommandOrigin) (platform : DangerousCommandPlatform) (evaluation : Evaluation AbsPath)
    (requested : option (list rstr)) : ExecApprovalRequirement :=
  let auto_amendment_allowed := bool_decide (allow_prefix_rules req = Honor) in
  let ms := matched_rules evaluation in
  match eval_decision evaluation with
  | ExecPolicy.Forbidden =>
      Forbidden (derive_forbidden_reason (command req) ms
        (dangerous_command_match_for_heuristics ms ExecPolicy.Forbidden origin platform))
  | Prompt =>
      let prompt_is_rule := existsb (rule_with Prompt) ms in
      match prompt_is_rejected_by_policy (req_approval_policy req) prompt_is_rule with
      | Some reason =>
          if prompt_is_rule then Forbidden reason
          else Forbidden (derive_rejected_prompt_reason reason
                 (dangerous_command_match_for_heuristics ms Prompt origin platform))
      | None =>
          NeedsApproval (derive_prompt_reason (command req) ms)
            (match requested with
             | Some amendment => Some amendment
             | None => if auto_amendment_allowed then try_derive_execpolicy_amendment_for_prompt_rules ms else None
             end)
      end
  | Allow =>
      Skip (forallb (explicitly_allowed exec_policy) commands)
        (if auto_amendment_allowed then try_derive_execpolicy_amendment_for_allow_rules ms else None)
  end.

(** [None] is a panic. *)
Definition create_exec_approval_requirement_for_parsed_commands (policy : Policy) (req : ExecApprovalRequest)
    (commands : list (list rstr)) (origin : ExecPolicyCommandOrigin) (platform : DangerousCommandPlatform) :
    option ExecApprovalRequirement :=
  let exec_policy := current_for_environment policy (environment_policy req) (allow_prefix_rules req) in
  let fallback := exec_policy_fallback req origin platform in
  evaluation ← check_multiple_with_options windows try_from file_name exec_policy commands fallback match_options;
  requested ←
    (if bool_decide (allow_prefix_rules req = Honor)
     then derive_requested_execpolicy_amendment_from_prefix_rule (prefix_rule req) (matched_rules evaluation)
            exec_policy commands fallback
     else Some None);
  Some (requirement_for exec_policy req commands origin platform evaluation requested).

Definition create_exec_approval_requirement_for_command_platform (policy : Policy) (req : ExecApprovalRequest)
    (platform : DangerousCommandPlatform) : option ExecApprovalRequirement :=
  let '(commands, origin) := commands_for_exec_policy_for_platform (command req) platform in
  create_exec_approval_requirement_for_parsed_commands policy req commands origin platform.

(** *** Commands of an unfamiliar shell *)

(** On a POSIX host: the executable is in [/bin] or [/usr/bin]. *)
Definition is_system_shell (executable : rstr) : bool :=
  let '(rooted, _, components) := path_components executable in
  rooted && bool_decide (removelast components ∈ [[$"bin"]; [$"usr"; $"bin"]]).

Definition shell_approval_command (command : list rstr) (configured_shell : rstr) (zsh_fork : bool) : list rstr :=
  match command with
  | [] => command
  | executable :: _ =>
      if path_eq executable configured_shell || is_system_shell executable || zsh_fork then command else [executable]
  end.

Definition with_command (req : ExecApprovalRequest) (command : list rstr) : ExecApprovalRequest :=
  mkRequest command (req_approval_policy req) (req_permission_profile req) (environment_policy req)
    (req_windows_sandbox_level req) (req_sandbox_permissions req) (prefix_rule req) (allow_prefix_rules req).

Definition create_exec_approval_requirement_for_shell (policy : Policy) (req : ExecApprovalRequest)
    (configured_shell : rstr) (zsh_fork : bool) (platform : DangerousCommandPlatform) : option ExecApprovalRequirement :=
  let executable := shell_approval_command (command req) configured_shell zsh_fork in
  if length executable =? length (command req)
  then create_exec_approval_requirement_for_command_platform policy req platform
  else
    let '(commands, origin) :=
      match (if bool_decide (platform = DangerousCommand.Windows) then extract_powershell_command (command req) else None) with
      | Some (_, script) => (default [command req] (try_parse_powershell_commands script), FromPowerShell)
      | None => commands_for_exec_policy_for_platform (command req) platform
      end in
    create_exec_approval_requirement_for_parsed_commands policy (with_command req executable)
      (executable :: commands) origin platform.
End approval.
Arguments UnmatchedCommandContext : clear implicits.
Arguments ExecApprovalRequest : clear implicits.
