(* ===== verification/ExecApprovalFacts.v ===== *)
(** * Properties of command approval

    Every request gets an answer, a command runs unasked only if a rule or the
    classifier says so, the approval settings are respected, and an amendment
    that was proposed for a request makes the next one run. *)

From S2P Require Import Prelude RustStr ExecPolicy ExecPolicyFacts ShellSyntax DangerousCommand Permissions PermissionsFacts ExecApproval.

Section approval.
Context {AbsPath PathUri : Type} `{!EqDecision AbsPath} `{!UriOps PathUri}.
Context (windows : bool) (try_from : rstr → option AbsPath) (file_name : AbsPath → option rstr).
Context (shlex_split : rstr → option (list rstr)) (shlex_join : list rstr → option rstr).
Context (url_scheme : rstr → option rstr) (try_parse_shell : rstr → option Tree).
Context (try_parse_powershell_commands : rstr → option (list (list rstr))).
Implicit Types (p : Policy AbsPath) (c : list rstr) (f : list rstr → Decision) (m : RuleMatch AbsPath).

(** ** Matches with and without the heuristics *)

Definition rule_matches_of p c : list (RuleMatch AbsPath) :=
  matches_for_command_with_options windows try_from file_name p c None match_options.

Local Abbreviation with_fallback p c f :=
  (matches_for_command_with_options windows try_from file_name p c (Some f) match_options).

Lemma with_fallback_eq p c f : with_fallback p c f =
  if is_empty (rule_matches_of p c) then [HeuristicsRuleMatch c (f c)] else rule_matches_of p c.
Proof. done. Qed.

Lemma rule_matches_policy p c m : m ∈ rule_matches_of p c → is_policy_match m = true.
Proof.
  unfold rule_matches_of, matches_for_command_with_options. cbv zeta.
  assert (∀ (l : list (RuleMatch AbsPath)) o, non_empty o = Some l → o = Some l) as Hne.
  { intros l [k|]; [|done]. cbn. destruct (is_empty k); [done|]. by intros [= ->]. }
  assert (∀ (rs : list PrefixRule) d, m ∈ omap (λ r, rule_matches r d) rs → is_policy_match m = true) as Hom.
  { intros rs d (r & _ & Hm)%list_elem_of_omap. unfold rule_matches in Hm.
    destruct (matches_prefix _ _); [|done]. by injection Hm as <-. }
  destruct (non_empty (match_exact_rules p c)) as [ms|] eqn:Hx.
  - apply Hne in Hx. unfold match_exact_rules in Hx. destruct c as [|w c]; [done|]. cbn [head mbind option_bind] in Hx. injection Hx as <-.
    destruct (rules_by_program p !! w) as [rs|]; [apply Hom|by intros ?%elem_of_nil].
  - cbn [resolve_host_executables match_options].
    destruct (non_empty (Some _)) as [ms|] eqn:Hh; [|by intros ?%elem_of_nil]. apply Hne in Hh. injection Hh as <-.
    unfold match_host_executable_rules. destruct (head c); [|by intros ?%elem_of_nil].
    destruct (try_from _); [|by intros ?%elem_of_nil]. destruct (executable_path_lookup_key _ _ _); [|by intros ?%elem_of_nil].
    destruct (rules_by_program p !! _) as [rs|]; [|by intros ?%elem_of_nil].
    destruct (is_some_and _ _); [by intros ?%elem_of_nil|]. intros (m' & -> & Hm')%list_elem_of_fmap.
    apply list_elem_of_omap in Hm' as (r & _ & Hm'). unfold rule_matches in Hm'.
    destruct (matches_prefix _ _); [|done]. by injection Hm' as <-.
Qed.

(** ** Several commands *)

Local Abbreviation evaluate p cmds f :=
  (check_multiple_with_options windows try_from file_name p cmds f match_options).

Lemma evaluate_total p cmds f : cmds ≠ [] → is_Some (evaluate p cmds f).
Proof.
  destruct cmds as [|c cmds]; [done|]. intros _. apply from_matches_Some. cbn [fmap list_fmap concat].
  intros [Hnil _]%app_nil. by apply matches_nonempty in Hnil.
Qed.

Lemma evaluate_spec p cmds f e : evaluate p cmds f = Some e →
  (∀ m, m ∈ matched_rules e ↔ ∃ c, c ∈ cmds ∧ m ∈ with_fallback p c f) ∧
  (∃ m, m ∈ matched_rules e ∧ match_decision m = eval_decision e) ∧
  (∀ m, m ∈ matched_rules e → decision_le (match_decision m) (eval_decision e)).
Proof.
  unfold check_multiple_with_options. intros (Hms & Hin & Hle)%from_matches_spec. split_and!.
  - intros m. rewrite Hms. apply elem_of_concat_fmap.
  - rewrite Hms. by apply elem_of_fmap_match.
  - rewrite Hms. exact Hle.
Qed.

Lemma with_fallback_elem p c f m : m ∈ with_fallback p c f ↔
  m ∈ rule_matches_of p c ∨ (rule_matches_of p c = [] ∧ m = HeuristicsRuleMatch c (f c)).
Proof.
  rewrite with_fallback_eq. destruct (rule_matches_of p c) as [|x l]; cbn [is_empty].
  - rewrite list_elem_of_singleton, elem_of_nil. split; [intros ->; by right|by intros [?|[_ ?]]].
  - split; [by left|]. by intros [?|[? _]].
Qed.

(** ** Decisions of the whole *)

Lemma decision_le_allow d : decision_le d Allow → d = Allow.
Proof. unfold decision_le. destruct d; cbn; [done|lia..]. Qed.

Lemma evaluate_allow p cmds f e : evaluate p cmds f = Some e → eval_decision e = Allow →
  Forall (λ c, (rule_matches_of p c ≠ [] ∧ ∀ m, m ∈ rule_matches_of p c → match_decision m = Allow) ∨
               (rule_matches_of p c = [] ∧ f c = Allow)) cmds.
Proof.
  intros (Hms & _ & Hle)%evaluate_spec Ha. rewrite Ha in Hle. apply Forall_forall. intros c Hc.
  assert (∀ m, m ∈ with_fallback p c f → match_decision m = Allow) as Hall.
  { intros m Hm. apply decision_le_allow, Hle, Hms. by exists c. }
  destruct (rule_matches_of p c) as [|x l] eqn:Hr.
  - right. split; [done|]. apply (Hall (HeuristicsRuleMatch c (f c))). apply with_fallback_elem. by right.
  - left. split; [done|]. intros m Hm. apply Hall. apply with_fallback_elem. left. by rewrite Hr.
Qed.

Lemma allow_evaluate p cmds f : cmds ≠ [] →
  Forall (λ c, (rule_matches_of p c ≠ [] ∧ ∀ m, m ∈ rule_matches_of p c → match_decision m = Allow) ∨
               (rule_matches_of p c = [] ∧ f c = Allow)) cmds →
  ∃ e, evaluate p cmds f = Some e ∧ eval_decision e = Allow.
Proof.
  intros Hne Hall. destruct (evaluate_total p cmds f Hne) as [e He]. exists e. split; [done|].
  apply evaluate_spec in He as (Hms & (m & Hm & <-) & _). apply Hms in Hm as (c & Hc & Hm).
  rewrite Forall_forall in Hall. apply with_fallback_elem in Hm as [Hm|[Hr ->]].
  - destruct (Hall c Hc) as [[_ Hx]|[Hx _]]; [by apply Hx|]. rewrite Hx in Hm. by apply elem_of_nil in Hm.
  - destruct (Hall c Hc) as [[Hx _]|[_ Hx]]; [done|exact Hx].
Qed.

Lemma rule_with_spec d m : rule_with d m = true ↔ is_policy_match m = true ∧ match_decision m = d.
Proof. unfold rule_with. by rewrite andb_true_iff, bool_decide_eq_true. Qed.

Lemma explicitly_allowed_spec p c : explicitly_allowed windows try_from file_name p c = true ↔
  ∃ m, m ∈ rule_matches_of p c ∧ match_decision m = Allow.
Proof.
  unfold explicitly_allowed. rewrite existsb_exists. setoid_rewrite rule_with_spec. split.
  - intros (m & Hm%list_elem_of_In & _ & Hd). by exists m.
  - intros (m & Hm & Hd). exists m. split; [by apply list_elem_of_In|]. split; [by eapply rule_matches_policy|done].
Qed.

(** ** The amendment for a prefix *)

Lemma would_approve_total p prefix cmds f :
  is_Some (prefix_rule_would_approve_all_commands windows try_from file_name p prefix cmds f).
Proof.
  unfold prefix_rule_would_approve_all_commands. destruct (add_prefix_rule p prefix Allow) as [q|]; [|done].
  induction cmds as [|c cmds IH]; [done|]. destruct (check_total windows try_from file_name q c f match_options) as [e ->].
  cbn [mbind option_bind]. by case_decide.
Qed.

Lemma would_approve_spec p prefix cmds f :
  prefix_rule_would_approve_all_commands windows try_from file_name p prefix cmds f = Some true →
  ∃ q, add_prefix_rule p prefix Allow = Ok q ∧
    Forall (λ c, ∃ e, evaluate q [c] f = Some e ∧ eval_decision e = Allow) cmds.
Proof.
  unfold prefix_rule_would_approve_all_commands. destruct (add_prefix_rule p prefix Allow) as [q|]; [|done].
  intros H. exists q. split; [done|]. revert H. induction cmds as [|c cmds IH]; [by constructor|].
  destruct (check_total windows try_from file_name q c f match_options) as [e He]. rewrite He. cbn [mbind option_bind].
  case_decide as Hd; [|done]. intros Hrest. constructor; [|by apply IH]. exists e. split; [|done].
  unfold check_multiple_with_options. cbn [fmap list_fmap concat]. rewrite app_nil_r. exact He.
Qed.

Lemma requested_total prefix ms p cmds f :
  is_Some (derive_requested_execpolicy_amendment_from_prefix_rule windows try_from file_name prefix ms p cmds f).
Proof.
  unfold derive_requested_execpolicy_amendment_from_prefix_rule. destruct prefix as [prefix|]; [|done].
  destruct (_ || _ || _); [done|]. by destruct (would_approve_total p prefix cmds f) as [b ->].
Qed.

Local Abbreviation create := (create_exec_approval_requirement_for_parsed_commands windows try_from file_name
  shlex_split shlex_join url_scheme try_parse_shell).

Lemma create_total p (req : ExecApprovalRequest AbsPath PathUri) cmds origin platform :
  cmds ≠ [] → is_Some (create p req cmds origin platform).
Proof.
  intros Hne. unfold create_exec_approval_requirement_for_parsed_commands. cbv zeta.
  destruct (evaluate_total (current_for_environment p (environment_policy req) (allow_prefix_rules req)) cmds
    (exec_policy_fallback windows shlex_split url_scheme try_parse_shell req origin platform) Hne) as [e ->].
  cbn [mbind option_bind].
  match goal with |- is_Some (?x ≫= _) => assert (is_Some x) as [r ->]; [|done] end.
  case_bool_decide; [apply requested_total|done].
Qed.

Local Abbreviation policy_of p req := (current_for_environment p (environment_policy req) (allow_prefix_rules req)).
Local Abbreviation fallback_of req origin platform :=
  (exec_policy_fallback windows shlex_split url_scheme try_parse_shell req origin platform).

Lemma create_inv p (req : ExecApprovalRequest AbsPath PathUri) cmds origin platform r :
  create p req cmds origin platform = Some r →
  ∃ e requested, evaluate (policy_of p req) cmds (fallback_of req origin platform) = Some e ∧
    (allow_prefix_rules req ≠ Honor → requested = None) ∧
    r = requirement_for windows try_from file_name shlex_split shlex_join url_scheme try_parse_shell (policy_of p req)
          req cmds origin platform e requested.
Proof.
  intros (e & He & (requested & Hr & [= <-])%bind_Some)%bind_Some. exists e, requested. split_and!; [done| |done].
  intros Hne. rewrite bool_decide_false in Hr by done. by injection Hr as <-.
Qed.

Lemma commands_nonempty c platform :
  (commands_for_exec_policy_for_platform try_parse_shell try_parse_powershell_commands c platform).1 ≠ [].
Proof.
  unfold commands_for_exec_policy_for_platform.
  assert (∀ o (l : list (list rstr)), non_empty o = Some l → l ≠ []) as Hne.
  { intros [k|] l; [|done]. cbn. destruct k; [done|]. by intros [= <-]. }
  destruct (non_empty _) as [l|] eqn:H1; [by eapply Hne|].
  destruct (if bool_decide _ then _ else _) as [l|] eqn:H2; [|done].
  case_bool_decide; [by eapply Hne|done].
Qed.

(** What a command may do without being asked. *)
Definition runs_unasked p (req : ExecApprovalRequest AbsPath PathUri) origin platform c : Prop :=
  (rule_matches_of p c ≠ [] ∧ ∀ m, m ∈ rule_matches_of p c → match_decision m = Allow) ∨
  (rule_matches_of p c = [] ∧
   unprotected windows shlex_split url_scheme try_parse_shell c (request_context req origin) platform = false ∧
   (req_approval_policy req = Never ∨
    req_approval_policy req ≠ UnlessTrusted ∧
    (Permissions.kind (file_system_sandbox_policy (req_permission_profile req)) = Restricted →
     req_sandbox_permissions req = UseDefault))).

Lemma fallback_allow (req : ExecApprovalRequest AbsPath PathUri) origin platform c :
  fallback_of req origin platform c = Allow ↔
  unprotected windows shlex_split url_scheme try_parse_shell c (request_context req origin) platform = false ∧
  (req_approval_policy req = Never ∨
   req_approval_policy req ≠ UnlessTrusted ∧
   (Permissions.kind (file_system_sandbox_policy (req_permission_profile req)) = Restricted →
    req_sandbox_permissions req = UseDefault)).
Proof.
  unfold exec_policy_fallback, render_decision_for_unmatched_command_for_platform.
  destruct (unprotected _ _ _ _ _ _ _) eqn:Hu.
  { split; [by destruct (approval_policy _)|by intros [? _]]. }
  cbn [request_context approval_policy permission_profile sandbox_permissions].
  unfold requests_sandbox_override. destruct (req_approval_policy req).
  - split; [done|]. intros [_ [?|[? _]]]; done.
  - destruct (Permissions.kind _); [|split; [|done]; intros _; split; [done|by right]..].
    case_bool_decide as Hs; split; cbn; try done; [intros _; split; [done|by right]|].
    intros [_ [?|[_ H]]]; [done|]. by destruct Hs; apply H.
  - destruct (Permissions.kind _); [|split; [|done]; intros _; split; [done|by right]..].
    case_bool_decide as Hs; split; cbn; try done; [intros _; split; [done|by right]|].
    intros [_ [?|[_ H]]]; [done|]. by destruct Hs; apply H.
  - split; [|done]. intros _. split; [done|by left].
Qed.

Lemma fallback_forbidden (req : ExecApprovalRequest AbsPath PathUri) origin platform c :
  fallback_of req origin platform c = ExecPolicy.Forbidden →
  req_approval_policy req = Never ∧
  unprotected windows shlex_split url_scheme try_parse_shell c (request_context req origin) platform = true.
Proof.
  unfold exec_policy_fallback, render_decision_for_unmatched_command_for_platform.
  destruct (unprotected _ _ _ _ _ _ _) eqn:Hu; cbn [request_context approval_policy].
  - by destruct (req_approval_policy req).
  - destruct (req_approval_policy req); try done; destruct (Permissions.kind _); try done; by destruct (requests_sandbox_override _).
Qed.

Lemma skip_inv p (req : ExecApprovalRequest AbsPath PathUri) cmds origin platform e requested bypass amendment :
  requirement_for windows try_from file_name shlex_split shlex_join url_scheme try_parse_shell p
    req cmds origin platform e requested = Skip bypass amendment →
  eval_decision e = Allow ∧ bypass = forallb (explicitly_allowed windows try_from file_name p) cmds ∧
  (allow_prefix_rules req ≠ Honor → amendment = None).
Proof.
  unfold requirement_for. destruct (eval_decision e); [|by repeat case_match|done]. intros [= <- <-].
  split_and!; [done..|]. intros Hne. by rewrite bool_decide_false.
Qed.
End approval.

(** C5: A command runs without the user being asked only if every command of
    its script has a rule and all of its rules allow it, or has no rule, is
    not classified as dangerous, and the approval setting leaves it to the
    sandbox.  It runs outside of the sandbox exactly if every one of them is
    allowed by a rule. *)
Theorem skipped_commands_are_safe {AbsPath PathUri} `{!EqDecision AbsPath, !UriOps PathUri} windows
    (try_from : rstr → option AbsPath) file_name shlex_split shlex_join url_scheme try_parse_shell
    (policy : Policy AbsPath) (req : ExecApprovalRequest AbsPath PathUri) cmds origin platform bypass amendment
    (Hskip : create_exec_approval_requirement_for_parsed_commands windows try_from file_name shlex_split shlex_join
       url_scheme try_parse_shell policy req cmds origin platform = Some (Skip bypass amendment)) :
  let p := current_for_environment policy (environment_policy req) (allow_prefix_rules req) in
  Forall (runs_unasked windows try_from file_name shlex_split url_scheme try_parse_shell p req origin platform) cmds ∧
  (bypass = true ↔ Forall (λ c, rule_matches_of windows try_from file_name p c ≠ []) cmds).
Proof.
  intros p. apply create_inv in Hskip as (e & requested & He & _ & Hr). symmetry in Hr.
  apply skip_inv in Hr as (Ha & -> & _). pose proof (evaluate_allow _ _ _ _ _ _ _ He Ha) as Hall. split.
  - eapply Forall_impl; [exact Hall|]. intros c [H|[H Hf]]; [by left|]. right. split; [done|].
    by apply fallback_allow in Hf.
  - rewrite forallb_forall. rewrite !Forall_forall in *. setoid_rewrite explicitly_allowed_spec. split.
    + intros H c Hc Hnil. apply list_elem_of_In in Hc. destruct (H c Hc) as (m & Hm & _). unfold p in Hnil.
      rewrite Hnil in Hm. by apply elem_of_nil in Hm.
    + intros H c Hc%list_elem_of_In. destruct (Hall c Hc) as [[Hne Hm]|[Hnil _]]; [|by destruct (H c Hc)].
      destruct (rule_matches_of windows try_from file_name p c) as [|m l] eqn:Heq; [by destruct (H c Hc)|].
      exists m. unfold p in Heq. rewrite Heq in *. split; [left|]. apply Hm. left.
Qed.

Section amendments.
Context {AbsPath PathUri : Type} `{!EqDecision AbsPath} `{!UriOps PathUri}.
Context (windows : bool) (try_from : rstr → option AbsPath) (file_name : AbsPath → option rstr).
Implicit Types (p : Policy AbsPath) (c : list rstr) (m : RuleMatch AbsPath).

Local Abbreviation rule_matches_of := (rule_matches_of windows try_from file_name).

(** A rule match has the decision of one of the rules. *)
Lemma rule_matches_from p c m : m ∈ rule_matches_of p c →
  ∃ program r, r ∈ default [] (rules_by_program p !! program) ∧ match_decision m = rule_decision r.
Proof.
  unfold ExecApprovalFacts.rule_matches_of, matches_for_command_with_options. cbv zeta.
  assert (∀ (l : list (RuleMatch AbsPath)) o, non_empty o = Some l → o = Some l) as Hne.
  { intros l [k|]; [|done]. cbn. destruct (is_empty k); [done|]. by intros [= ->]. }
  assert (∀ program (rs : list PrefixRule) d m', rules_by_program p !! program = Some rs →
    m' ∈ omap (λ r, rule_matches (AbsPath:=AbsPath) r d) rs →
    ∃ program r, r ∈ default [] (rules_by_program p !! program) ∧ match_decision m' = rule_decision r) as Hom.
  { intros program rs d m' Hp (r & Hr & Hm)%list_elem_of_omap. exists program, r. rewrite Hp. split; [done|].
    unfold rule_matches in Hm. destruct (matches_prefix _ _); [|done]. by injection Hm as <-. }
  destruct (non_empty (match_exact_rules p c)) as [ms|] eqn:Hx.
  - apply Hne in Hx. unfold match_exact_rules in Hx. destruct c as [|w c]; [done|]. cbn [head mbind option_bind] in Hx.
    injection Hx as <-. destruct (rules_by_program p !! w) as [rs|] eqn:Hp; [|by intros ?%elem_of_nil].
    cbn [is_empty]. by eapply Hom.
  - cbn [resolve_host_executables match_options].
    destruct (non_empty (Some _)) as [ms|] eqn:Hh; [|by intros ?%elem_of_nil]. apply Hne in Hh. injection Hh as <-.
    unfold match_host_executable_rules. destruct (head c); [|by intros ?%elem_of_nil].
    destruct (try_from _); [|by intros ?%elem_of_nil]. destruct (executable_path_lookup_key _ _ _); [|by intros ?%elem_of_nil].
    destruct (rules_by_program p !! _) as [rs|] eqn:Hp; [|by intros ?%elem_of_nil].
    destruct (is_some_and _ _); [by intros ?%elem_of_nil|]. intros (m' & -> & Hm')%list_elem_of_fmap.
    destruct (Hom _ _ _ _ Hp Hm') as (program & r & Hr & Hd). exists program, r. split; [done|]. by destruct m'.
Qed.

Lemma rule_matches_nil_exact p c : rule_matches_of p c = [] → exact_matches p c = [].
Proof.
  intros H. destruct (exact_matches p c) as [|m l] eqn:He; [done|].
  assert (exact_matches p c ≠ []) as Hne by by rewrite He.
  pose proof (matches_exact windows try_from file_name p c None match_options Hne) as Hm.
  unfold ExecApprovalFacts.rule_matches_of in H. congruence.
Qed.

(** A command for which an allow rule was added is allowed by it. *)
Lemma added_rule_allows p p' c : add_prefix_rule p c Allow = Ok p' → rule_matches_of p c = [] →
  rule_matches_of p' c = [PrefixRuleMatch c Allow None None].
Proof.
  intros Hadd Hnil. apply rule_matches_nil_exact in Hnil. destruct c as [|w t]; [done|]. injection Hadd as <-.
  rewrite exact_matches_eq in Hnil.
  assert (matches_prefix (mkPattern w (Single <$> t)) (w :: t) = Some (w :: t)) as Hpre.
  { apply matches_prefix_spec. exists t. cbn [rest first]. split_and!; [|done|done].
    clear. induction t as [|x t IH]; [left|]. cbn [fmap list_fmap expand]. apply list_elem_of_bind. exists x.
    split; [apply list_elem_of_fmap; by exists t|left]. }
  assert (exact_matches (ExecPolicy.mkPolicy (multimap_insert w (mkRule (mkPattern w (Single <$> t)) Allow None) (rules_by_program p))
    (network_rules p) (host_executables_by_name p)) (w :: t) = [PrefixRuleMatch (w :: t) Allow None None]) as Hex.
  { rewrite exact_matches_eq. cbn [rules_by_program]. unfold multimap_insert. rewrite lookup_insert_eq.
    revert Hnil. generalize (default [] (rules_by_program p !! w)). intros l Hnil. cbn [from_option]. unfold id.
    rewrite omap_app, Hnil. cbn [omap list_omap app]. unfold rule_matches at 1. cbn [pattern rule_decision justification].
    by rewrite Hpre. }
  unfold ExecApprovalFacts.rule_matches_of. rewrite matches_exact by by rewrite Hex. exact Hex.
Qed.

Lemma filtered_no_allow p c m : m ∈ rule_matches_of (current_for_prefix_rules p IgnoreForCyberModel) c →
  match_decision m ≠ Allow.
Proof.
  intros (program & r & Hr & ->)%rule_matches_from. cbn [current_for_prefix_rules rules_by_program] in Hr.
  rewrite lookup_omap in Hr. destruct (rules_by_program p !! program) as [rs|]; [|by apply elem_of_nil in Hr].
  cbn in Hr. destruct (is_empty _); cbn in Hr; [by apply elem_of_nil in Hr|]. by apply list_elem_of_filter in Hr as [? _].
Qed.
(** *** Policies with the same rules, in whatever order *)

Definition same_rules (p q : Policy AbsPath) : Prop :=
  host_executables_by_name p = host_executables_by_name q ∧
  ∀ k r, r ∈ default [] (rules_by_program p !! k) ↔ r ∈ default [] (rules_by_program q !! k).

Lemma omap_same {A B} (f : A → option B) (l k : list A) : (∀ x, x ∈ l ↔ x ∈ k) → ∀ y, y ∈ omap f l ↔ y ∈ omap f k.
Proof using Type. intros H y. rewrite !list_elem_of_omap. naive_solver. Qed.

Lemma same_nil {A} (l k : list A) : (∀ x, x ∈ l ↔ x ∈ k) → is_empty l = is_empty k.
Proof using Type.
  intros H. destruct l as [|x l], k as [|y k]; try done; exfalso.
  - by apply (not_elem_of_nil y), H, list_elem_of_here.
  - by apply (not_elem_of_nil x), H, list_elem_of_here.
Qed.

Lemma same_nil_iff {A} (l k : list A) : (∀ x, x ∈ l ↔ x ∈ k) → l = [] ↔ k = [].
Proof using Type. intros H%same_nil. by destruct l, k. Qed.

(** The rules that match, read off the lists of rules. *)
Lemma rule_matches_eq p c : rule_matches_of p c =
  let exact := exact_matches p c in
  if is_empty exact then match_host_executable_rules windows try_from file_name p c else exact.
Proof.
  unfold ExecApprovalFacts.rule_matches_of, matches_for_command_with_options, exact_matches. cbv zeta. cbn [resolve_host_executables match_options].
  destruct (match_exact_rules p c) as [l|]; cbn [non_empty mbind option_bind default]; [destruct (is_empty l) eqn:E|].
  - destruct l; [|done]. cbn. by destruct (match_host_executable_rules _ _ _ p c).
  - change (id l) with l. by rewrite E.
  - cbn. by destruct (match_host_executable_rules _ _ _ p c).
Qed.

Lemma host_matches_eq p c : match_host_executable_rules windows try_from file_name p c =
  match (w ← head c; program ← try_from w; name ← executable_path_lookup_key windows file_name program; Some (program, name)) with
  | None => []
  | Some (program, name) =>
      if is_some_and (λ paths, negb (existsb (λ path, bool_decide (path = program)) paths)) (host_executables_by_name p !! name)
      then []
      else (λ m, with_resolved_program m program) <$>
             omap (λ r, rule_matches r (name :: drop 1 c)) (default [] (rules_by_program p !! name))
  end.
Proof.
  unfold match_host_executable_rules. destruct (head c) as [w|]; [|done]. cbn. destruct (try_from w) as [program|]; [|done]. cbn.
  destruct (executable_path_lookup_key _ _ _) as [name|]; [|done]. cbn.
  destruct (rules_by_program p !! name) as [rs|]; [done|]. by destruct (is_some_and _ _).
Qed.

Lemma rule_matches_same p q c : same_rules p q → ∀ m, m ∈ rule_matches_of p c ↔ m ∈ rule_matches_of q c.
Proof.
  intros [Hh Hr] m. rewrite !rule_matches_eq. cbv zeta.
  assert (∀ m, m ∈ exact_matches p c ↔ m ∈ exact_matches q c) as Hx.
  { rewrite !exact_matches_eq. destruct c as [|w c]; [done|]. by apply omap_same. }
  rewrite (same_nil _ _ Hx). destruct (is_empty _); [|done]. rewrite !host_matches_eq, Hh.
  destruct (w ← head c; _) as [[program name]|]; [|done]. destruct (is_some_and _ _); [done|].
  rewrite !list_elem_of_fmap. by setoid_rewrite (omap_same _ _ _ (Hr name)).
Qed.

Lemma add_prefix_rules p prefix d p1 : add_prefix_rule p prefix d = Ok p1 →
  host_executables_by_name p1 = host_executables_by_name p ∧
  ∀ k, default [] (rules_by_program p1 !! k) = default [] (rules_by_program p !! k) ++
       (if bool_decide (head prefix = Some k) then [mkRule (mkPattern k (Single <$> tail prefix)) d None] else []).
Proof using Type.
  destruct prefix as [|w t]; [done|]. intros [= <-]. split; [done|]. intros k. cbn [rules_by_program head tail].
  unfold multimap_insert. case_bool_decide as Hk.
  - injection Hk as ->. by rewrite lookup_insert_eq.
  - rewrite lookup_insert_ne by congruence. by rewrite app_nil_r.
Qed.

(** Adding a rule below the policy of an environment or on top of it. *)
Lemma merge_add_same p overlay prefix d p1 p2 : add_prefix_rule p prefix d = Ok p1 →
  add_prefix_rule (merge_overlay p overlay) prefix d = Ok p2 → same_rules (merge_overlay p1 overlay) p2.
Proof using Type.
  intros [H1 R1]%add_prefix_rules [H2 R2]%add_prefix_rules. split; [rewrite H2; cbn; by rewrite H1|].
  intros k r. rewrite R2, !merge_rules, R1, !elem_of_app. clear. split; [intros [[?|?]|?]|intros [[?|?]|?]]; auto.
Qed.

Lemma current_add p env prefix d p2 : add_prefix_rule (current_for_environment p env Honor) prefix d = Ok p2 →
  ∃ p1, add_prefix_rule p prefix d = Ok p1 ∧ same_rules (current_for_environment p1 env Honor) p2.
Proof using Type.
  destruct env as [e|]; cbn [current_for_environment current_for_prefix_rules]; [|intros H; exists p2; by split].
  intros H. destruct prefix as [|w t]; [done|]. eexists. split; [reflexivity|].
  exact (merge_add_same p e (w :: t) d _ p2 eq_refl H).
Qed.

Lemma first_heuristic_elem d (ms : list (RuleMatch AbsPath)) c : first_heuristic d ms = Some c → HeuristicsRuleMatch c d ∈ ms.
Proof using Type.
  unfold first_heuristic. intros (m & Hm & Hmm)%find_map_Some. destruct m as [|command d']; [done|].
  case_decide; [|done]. by injection Hmm as ->; subst.
Qed.

End amendments.

(** Every request gets an answer, and the answer respects the approval
    setting: with [Never] the user is not asked; a granular setting is asked
    only for the kind of prompt it admits; and where the user can be asked, a
    command is refused only because a rule forbids it. *)
Theorem approval_settings_respected {AbsPath PathUri} `{!EqDecision AbsPath, !UriOps PathUri} windows
    (try_from : rstr → option AbsPath) file_name shlex_split shlex_join url_scheme try_parse_shell
    (policy : Policy AbsPath) (req : ExecApprovalRequest AbsPath PathUri) cmds origin platform (Hcmds : cmds ≠ []) :
  let p := current_for_environment policy (environment_policy req) (allow_prefix_rules req) in
  let ruled d := ∃ c m, c ∈ cmds ∧ m ∈ rule_matches_of windows try_from file_name p c ∧ match_decision m = d in
  ∃ r, create_exec_approval_requirement_for_parsed_commands windows try_from file_name shlex_split shlex_join
         url_scheme try_parse_shell policy req cmds origin platform = Some r ∧
    (req_approval_policy req = Never → ∀ reason a, r ≠ NeedsApproval reason a) ∧
    (∀ g reason a, req_approval_policy req = Granular g → r = NeedsApproval reason a →
       ruled Prompt ∧ rules g = true ∨ (¬ ruled Prompt) ∧ sandbox_approval g = true) ∧
    (∀ reason, r = Forbidden reason → req_approval_policy req = OnRequest ∨ req_approval_policy req = UnlessTrusted →
       ruled ExecPolicy.Forbidden).
Proof.
  intros p ruled.
  destruct (create_total windows try_from file_name shlex_split shlex_join url_scheme try_parse_shell policy req cmds
    origin platform Hcmds) as [r Hr].
  exists r. split; [done|]. apply create_inv in Hr as (e & requested & He & _ & ->).
  apply evaluate_spec in He as (Hms & (m0 & Hm0 & Hd0) & _).
  assert (existsb (rule_with Prompt) (matched_rules e) = true ↔ ruled Prompt) as Hrule.
  { rewrite existsb_exists. setoid_rewrite <- list_elem_of_In. setoid_rewrite rule_with_spec. split.
    - intros (m & (c & Hc & Hm)%Hms & Hpm & Hd). exists c, m. split_and!; [done| |done].
      by apply with_fallback_elem in Hm as [?|[_ ->]].
    - intros (c & m & Hc & Hm & Hd). exists m. split_and!; [|by eapply rule_matches_policy|done].
      apply Hms. exists c. split; [done|]. apply with_fallback_elem. by left. }
  unfold requirement_for. split_and!.
  - intros Hnever reason a. rewrite Hnever. cbn [prompt_is_rejected_by_policy]. repeat case_match; done.
  - intros g reason a Hg. rewrite Hg. destruct (eval_decision e); [done| |done]. cbn [prompt_is_rejected_by_policy].
    destruct (existsb (rule_with Prompt) (matched_rules e)) eqn:Hx.
    + destruct (rules g) eqn:Hrg; [|done]. intros _. left. split; [by apply Hrule|done].
    + destruct (sandbox_approval g) eqn:Hsg; [|done]. intros _. right. split; [|done]. by intros ?%Hrule.
  - intros reason Hf Happ.
    assert (∀ b, prompt_is_rejected_by_policy (req_approval_policy req) b = None) as Hask.
    { intros b. by destruct Happ as [-> | ->]. }
    rewrite Hask in Hf. destruct (eval_decision e) eqn:Hd; [done|done|].
    apply Hms in Hm0 as (c & Hc & Hm0). apply with_fallback_elem in Hm0 as [Hm|[_ ->]]; [by exists c, m0|].
    cbn in Hd0. apply fallback_forbidden in Hd0 as [Hn _]. destruct Happ; congruence.
Qed.

Section proposals.
Context {AbsPath PathUri : Type} `{!EqDecision AbsPath, !UriOps PathUri} (windows : bool).
Context (try_from : rstr → option AbsPath) (file_name : AbsPath → option rstr) (shlex_split : rstr → option (list rstr)).
Context (shlex_join : list rstr → option rstr) (url_scheme : rstr → option rstr) (try_parse_shell : rstr → option Tree).
Implicit Types (req : ExecApprovalRequest AbsPath PathUri).

Local Abbreviation create := (create_exec_approval_requirement_for_parsed_commands windows try_from file_name shlex_split shlex_join
  url_scheme try_parse_shell).
Local Abbreviation matches_of := (rule_matches_of windows try_from file_name).
Local Abbreviation policy_of p req := (current_for_environment p (environment_policy req) (allow_prefix_rules req)).

(** A request whose commands are all allowed runs unasked. *)
Lemma allowed_request_skips p req cmds origin platform e :
  check_multiple_with_options windows try_from file_name (policy_of p req) cmds
    (exec_policy_fallback windows shlex_split url_scheme try_parse_shell req origin platform) match_options = Some e →
  eval_decision e = Allow → ∃ bypass a, create p req cmds origin platform = Some (Skip bypass a).
Proof.
  intros He Hd. unfold create_exec_approval_requirement_for_parsed_commands. cbv zeta. rewrite He. cbn [mbind option_bind].
  match goal with |- context [?x ≫= _] => assert (is_Some x) as [requested ->] end.
  { case_bool_decide; [apply requested_total|done]. }
  cbn [mbind option_bind]. unfold requirement_for. rewrite Hd. by do 2 eexists.
Qed.

(** A command all of whose rules allow it runs outside of the sandbox. *)
Lemma allowed_command_skips p req c origin platform : matches_of (policy_of p req) c ≠ [] →
  (∀ m, m ∈ matches_of (policy_of p req) c → match_decision m = Allow) →
  create p req [c] origin platform = Some (Skip true None).
Proof.
  intros Hne Hall. set (f := exec_policy_fallback windows shlex_split url_scheme try_parse_shell req origin platform).
  destruct (allow_evaluate windows try_from file_name (policy_of p req) [c] f) as (e & He & Hd); [done|apply Forall_singleton; by left|].
  assert (existsb is_policy_match (matched_rules e) = true) as Hp.
  { apply evaluate_spec in He as (Hms & _). destruct (matches_of (policy_of p req) c) as [|m l] eqn:Hl; [done|].
    assert (m ∈ matches_of (policy_of p req) c) as Hm by (rewrite Hl; left).
    apply existsb_exists. exists m. split; [|by eapply rule_matches_policy].
    apply list_elem_of_In, Hms. exists c. split; [left|]. apply with_fallback_elem. by left. }
  unfold create_exec_approval_requirement_for_parsed_commands. cbv zeta. fold f. rewrite He. cbn [mbind option_bind].
  assert ((if bool_decide (allow_prefix_rules req = Honor)
           then derive_requested_execpolicy_amendment_from_prefix_rule windows try_from file_name (prefix_rule req) (matched_rules e)
                  (policy_of p req) [c] f
           else Some None) = Some None) as ->.
  { case_bool_decide; [|done]. unfold derive_requested_execpolicy_amendment_from_prefix_rule. destruct (prefix_rule req); [|done].
    by rewrite Hp, orb_true_r. }
  cbn [mbind option_bind]. unfold requirement_for, try_derive_execpolicy_amendment_for_allow_rules. rewrite Hd, Hp.
  do 2 f_equal; [|by case_bool_decide]. cbn [forallb]. rewrite andb_true_r. apply explicitly_allowed_spec.
  destruct (matches_of (policy_of p req) c) as [|m l]; [done|]. exists m. split; [left|]. apply Hall. left.
Qed.

(** Where a proposal comes from. *)
Lemma proposal_source p req cmds origin platform r amendment : create p req cmds origin platform = Some r →
  proposed_amendment r = Some amendment → allow_prefix_rules req = Honor ∧
  ∃ e, check_multiple_with_options windows try_from file_name (policy_of p req) cmds
         (exec_policy_fallback windows shlex_split url_scheme try_parse_shell req origin platform) match_options = Some e ∧
    (derive_requested_execpolicy_amendment_from_prefix_rule windows try_from file_name (prefix_rule req) (matched_rules e)
       (policy_of p req) cmds (exec_policy_fallback windows shlex_split url_scheme try_parse_shell req origin platform)
       = Some (Some amendment) ∨
     ∃ d, HeuristicsRuleMatch amendment d ∈ matched_rules e).
Proof.
  intros (e & He & (requested & Hreq & [= <-])%bind_Some)%bind_Some Ha. unfold requirement_for in Ha.
  destruct (decide (allow_prefix_rules req = Honor)) as [Hh|Hh].
  2: { rewrite bool_decide_false in * by done. injection Hreq as <-. exfalso. revert Ha. by repeat case_match. }
  split; [done|]. rewrite bool_decide_true in * by done. exists e. split; [exact He|].
  destruct (eval_decision e); [|destruct (prompt_is_rejected_by_policy _ _); [by case_match|]|done]; cbn [proposed_amendment] in Ha.
  - right. exists Allow. apply first_heuristic_elem. unfold try_derive_execpolicy_amendment_for_allow_rules in Ha.
    by destruct (existsb _ _).
  - destruct requested as [a|]; [left; congruence|right]. exists Prompt. apply first_heuristic_elem.
    unfold try_derive_execpolicy_amendment_for_prompt_rules in Ha. by destruct (existsb _ _).
Qed.

(** The prefix the model asked for, as a rule. *)
Lemma requested_prefix_skips p req cmds origin platform e amendment : allow_prefix_rules req = Honor → cmds ≠ [] →
  derive_requested_execpolicy_amendment_from_prefix_rule windows try_from file_name (prefix_rule req) (matched_rules e)
    (policy_of p req) cmds (exec_policy_fallback windows shlex_split url_scheme try_parse_shell req origin platform)
    = Some (Some amendment) →
  prefix_rule req = Some amendment ∧ (amendment ∉ BANNED_PREFIX_SUGGESTIONS) ∧
  ∃ p' bypass a, add_prefix_rule p amendment Allow = Ok p' ∧ create p' req cmds origin platform = Some (Skip bypass a).
Proof.
  intros Hh Hne Hreq. set (f := exec_policy_fallback windows shlex_split url_scheme try_parse_shell req origin platform) in *.
  unfold derive_requested_execpolicy_amendment_from_prefix_rule in Hreq. destruct (prefix_rule req) as [prefix|]; [|done].
  destruct (is_empty prefix || bool_decide (prefix ∈ BANNED_PREFIX_SUGGESTIONS) || _) eqn:Hb; [done|].
  rewrite !orb_false_iff, bool_decide_eq_false in Hb. destruct Hb as [[_ Hban] _].
  apply bind_Some in Hreq as ([|] & Happ & [= ->]). split_and!; [done..|].
  apply would_approve_spec in Happ as (q & Hq & Hall). rewrite Hh in Hq. apply current_add in Hq as (p' & Hp' & Hsame).
  destruct (allow_evaluate windows try_from file_name (policy_of p' req) cmds f Hne) as (e' & He' & Hd').
  { eapply Forall_impl; [exact Hall|]. intros c (e' & He' & Hd'). pose proof (evaluate_allow _ _ _ _ _ _ _ He' Hd') as Hc.
    rewrite Forall_singleton in Hc. rewrite Hh. pose proof (rule_matches_same windows try_from file_name _ _ c Hsame) as Hm.
    pose proof (same_nil_iff _ _ Hm) as Hn. destruct Hc as [[Hne' Hc]|[Hnil Hc]]; [left|right].
    - split; [by intros E%Hn|]. intros m Hin. by apply Hc, Hm.
    - split; [by apply Hn|done]. }
  destruct (allowed_request_skips p' req cmds origin platform e' He' Hd') as (bypass & a & H). by exists p', bypass, a.
Qed.

End proposals.

(** C26: A proposed amendment takes effect, whatever the policy of the
    environment adds, and whether the request has to be approved or runs in
    the sandbox.  Either it is the prefix the model asked for, which is never
    one of the banned prefixes, and once it is a rule the same request runs
    unasked; or it is a command of the request that no rule matches, and once
    it is a rule this command alone, unless it is empty, runs unasked and
    outside of the sandbox.  A model whose allow rules are ignored gets no proposal. *)
Theorem amendments_take_effect {AbsPath PathUri} `{!EqDecision AbsPath, !UriOps PathUri} windows
    (try_from : rstr → option AbsPath) file_name shlex_split shlex_join url_scheme try_parse_shell
    (policy : Policy AbsPath) (req : ExecApprovalRequest AbsPath PathUri) cmds origin platform r amendment
    (Hcreate : create_exec_approval_requirement_for_parsed_commands windows try_from file_name shlex_split shlex_join
       url_scheme try_parse_shell policy req cmds origin platform = Some r)
    (Hproposed : proposed_amendment r = Some amendment) :
  allow_prefix_rules req = Honor ∧
  (prefix_rule req = Some amendment ∧ (amendment ∉ BANNED_PREFIX_SUGGESTIONS) ∧
   (∃ policy' bypass a, add_prefix_rule policy amendment Allow = Ok policy' ∧
      create_exec_approval_requirement_for_parsed_commands windows try_from file_name shlex_split shlex_join
        url_scheme try_parse_shell policy' req cmds origin platform = Some (Skip bypass a)) ∨
   amendment ∈ cmds ∧
   rule_matches_of windows try_from file_name
     (current_for_environment policy (environment_policy req) (allow_prefix_rules req)) amendment = [] ∧
   (amendment ≠ [] → ∃ policy', add_prefix_rule policy amendment Allow = Ok policy' ∧
      create_exec_approval_requirement_for_parsed_commands windows try_from file_name shlex_split shlex_join
        url_scheme try_parse_shell policy' req [amendment] origin platform = Some (Skip true None))).
Proof.
  destruct (proposal_source _ _ _ _ _ _ _ _ _ _ _ _ _ _ Hcreate Hproposed) as (Hh & e & He & [Hreq|[d Hd]]); split; [done| |done|].
  - left. eapply requested_prefix_skips; [done| |exact Hreq]. intros ->. done.
  - right. apply evaluate_spec in He as (Hms & _). apply Hms in Hd as (c & Hc & Hm).
    apply with_fallback_elem in Hm as [Hm|[Hnil [= -> _]]]; [by apply rule_matches_policy in Hm|].
    split_and!; [done..|]. intros Hne. rewrite Hh in Hnil.
    destruct (add_prefix_rule (current_for_environment policy (environment_policy req) Honor) c Allow) as [q|] eqn:Hq; [|by destruct c].
    pose proof (added_rule_allows _ _ _ _ _ _ Hq Hnil) as Hnew. destruct (current_add _ _ _ _ _ Hq) as (p' & Hp' & Hsame).
    exists p'. split; [done|]. pose proof (rule_matches_same windows try_from file_name _ _ c Hsame) as Hm.
    rewrite Hnew in Hm. apply allowed_command_skips; rewrite Hh.
    + rewrite (same_nil_iff _ _ Hm). done.
    + intros m ->%Hm%list_elem_of_singleton. done.
Qed.

(** A model whose allow rules are ignored gains nothing from them: it never
    runs outside of the sandbox because of a rule, and no amendment is proposed
    to it. *)
Theorem ignored_allow_rules {AbsPath PathUri} `{!EqDecision AbsPath, !UriOps PathUri} windows
    (try_from : rstr → option AbsPath) file_name shlex_split shlex_join url_scheme try_parse_shell
    (policy : Policy AbsPath) (req : ExecApprovalRequest AbsPath PathUri) cmds origin platform r
    (Hignore : allow_prefix_rules req = IgnoreForCyberModel) (Henv : environment_policy req = None)
    (Hr : create_exec_approval_requirement_for_parsed_commands windows try_from file_name shlex_split shlex_join
       url_scheme try_parse_shell policy req cmds origin platform = Some r) :
  proposed_amendment r = None ∧ ∀ amendment, r ≠ Skip true amendment.
Proof.
  pose proof Hr as Hr'. apply create_inv in Hr as (e & requested & He & Hreq & ->).
  assert (requested = None) as -> by (apply Hreq; congruence).
  unfold requirement_for in *. rewrite bool_decide_false in * by congruence.
  split; [repeat case_match; done|]. intros amendment. destruct (eval_decision e); [|repeat case_match; done|done].
  intros [= Hall _]. destruct cmds as [|c cmds]; [done|]. cbn [forallb] in Hall.
  apply andb_true_iff in Hall as [Hc _]. apply explicitly_allowed_spec in Hc as (m & Hm & Ha).
  rewrite Hignore, Henv in Hm. cbn [current_for_environment] in Hm. by apply filtered_no_allow in Hm.
Qed.

(** ** A request, for the witnesses *)

#[local] Existing Instance names_ops.

Definition demo_request (setting : AskForApproval) (prefix : option (list rstr)) (allow : AllowPrefixRules) :
    ExecApprovalRequest rstr (list rstr) :=
  mkRequest [$"cargo"; $"build"] setting Disabled None SandboxDisabled UseDefault prefix allow.
Definition demo_rules : Policy rstr :=
  ExecPolicy.mkPolicy {[ $"cargo" := [mkRule (mkPattern ($"cargo") []) Allow None] ]} [] ∅.
Definition demo_create (policy : Policy rstr) (req : ExecApprovalRequest rstr (list rstr)) :
    option ExecApprovalRequirement :=
  create_exec_approval_requirement_for_parsed_commands false (λ s, Some s) (λ s, Some s) (λ _, None) (λ _, None)
    (λ _, None) (λ _, None) policy req [[$"cargo"; $"build"]] Generic DangerousCommand.Posix.

Lemma skipped_commands_are_safe_witness :
  let req := demo_request OnRequest None Honor in
  demo_create demo_rules req = Some (Skip true None) ∧
  Forall (runs_unasked false (λ s, Some s) (λ s, Some s) (λ _, None) (λ _, None) (λ _, None) demo_rules req Generic
    DangerousCommand.Posix) [[$"cargo"; $"build"]].
Proof.
  intros req. assert (demo_create demo_rules req = Some (Skip true None)) as Hskip by (vm_compute; reflexivity).
  split; [exact Hskip|].
  exact (proj1 (skipped_commands_are_safe false (λ s, Some s) (λ s, Some s) (λ _, None) (λ _, None) (λ _, None) (λ _, None)
    demo_rules req [[$"cargo"; $"build"]] Generic DangerousCommand.Posix true None Hskip)).
Defined.

Lemma approval_settings_respected_witness :
  ∃ r, demo_create policy_empty (demo_request Never None Honor) = Some r ∧ r ≠ NeedsApproval None None.
Proof.
  destruct (approval_settings_respected false (λ s, Some s) (λ s, Some s) (λ _, None) (λ _, None) (λ _, None) (λ _, None)
    policy_empty (demo_request Never None Honor) [[$"cargo"; $"build"]] Generic DangerousCommand.Posix ltac:(discriminate))
    as (r & Hr & Hnever & _).
  exists r. split; [exact Hr|]. by apply Hnever.
Defined.

(** An environment that asks before publishing. *)
Definition publish_rules : Policy rstr :=
  ExecPolicy.mkPolicy {[ $"cargo" := [mkRule (mkPattern ($"cargo") [Single ($"publish")]) Prompt None] ]} [] ∅.
Definition demo_request_in (env : option (Policy rstr)) (setting : AskForApproval) (prefix : option (list rstr)) :
    ExecApprovalRequest rstr (list rstr) :=
  mkRequest [$"cargo"; $"build"] setting Disabled env SandboxDisabled UseDefault prefix Honor.

Lemma amendments_take_effect_witness :
  let req := demo_request_in (Some publish_rules) UnlessTrusted (Some [$"cargo"]) in
  demo_create policy_empty req = Some (NeedsApproval None (Some [$"cargo"])) ∧
  (∃ policy' bypass a, add_prefix_rule policy_empty [$"cargo"] Allow = Ok policy' ∧ demo_create policy' req = Some (Skip bypass a)).
Proof.
  intros req.
  assert (demo_create policy_empty req = Some (NeedsApproval None (Some [$"cargo"]))) as Hask by (vm_compute; reflexivity).
  split; [exact Hask|].
  destruct (amendments_take_effect false (λ s, Some s) (λ s, Some s) (λ _, None) (λ _, None) (λ _, None) (λ _, None)
    policy_empty req [[$"cargo"; $"build"]] Generic DangerousCommand.Posix _ [$"cargo"] Hask eq_refl)
    as [_ [(_ & _ & H)|(H & _)]]; [exact H|].
  exfalso. apply list_elem_of_singleton in H. discriminate H.
Defined.

Lemma ignored_allow_rules_witness :
  let req := demo_request OnRequest None IgnoreForCyberModel in
  demo_create demo_rules req = Some (Skip false None) ∧ proposed_amendment (Skip false None) = None.
Proof.
  intros req. assert (demo_create demo_rules req = Some (Skip false None)) as Hr by (vm_compute; reflexivity).
  split; [exact Hr|].
  exact (proj1 (ignored_allow_rules false (λ s, Some s) (λ s, Some s) (λ _, None) (λ _, None) (λ _, None) (λ _, None)
    demo_rules req [[$"cargo"; $"build"]] Generic DangerousCommand.Posix (Skip false None) eq_refl eq_refl Hr)).
Defined.
