(* ===== verification/PolicyManager.v ===== *)
(** * The policy in use

    [core/src/exec_policy.rs]: loading the policy from the rules files of the
    configuration layers, and the updates of the policy and its file that run
    under the manager's semaphore, with a proof that concurrent updates behave
    like updates one after the other. *)

From S2P Require Import Prelude RustStr FileSystem ExecPolicy ExecPolicyFacts PolicyParser Amend ExecApproval.

(** ** Configuration layers *)

Inductive ConfigLayerSource :=
| PackagedDefaults (file : rstr)
| Mdm (domain key : rstr)
| System (file : rstr)
| EnterpriseManaged (id name : rstr)
| User (file : rstr) (profile : option rstr)
| Project (dot_codex_folder : rstr)
| SessionFlags
| LegacyManagedConfigTomlFromFile (file : rstr)
| LegacyManagedConfigTomlFromMdm.

Definition is_user_or_project (s : ConfigLayerSource) : bool :=
  match s with User _ _ | Project _ => true | _ => false end.

(** A directory entry: its path, extension and type. *)
Record DirEntry := mkDirEntry { entry_path : rstr; extension : option rstr; is_file : result io_error bool }.

Inductive ExecPolicyError :=
| ReadDir (dir : rstr) (source : io_error)
| ReadFile (path : rstr) (source : io_error)
| ParsePolicy (path : rstr) (source : Error).

Definition RULE_EXTENSION : rstr := $"rules".
Definition RULES_DIR_NAME : rstr := $"rules".

Section loading.
Context {AbsPath : Type} `{!EqDecision AbsPath}.
(** The folders of layers and directories as the file system gives them, and
    [PolicyParser::parse]. *)
Context (path_parent : rstr → option rstr) (path_join : rstr → rstr → rstr).
Context (read_dir : rstr → result io_error (list (result io_error DirEntry))).
Context (read_to_string : rstr → result io_error rstr).
Context (parse : PolicyBuilder AbsPath → rstr → rstr → PolicyBuilder AbsPath * result Error unit).

Definition config_folder (s : ConfigLayerSource) : option rstr :=
  match s with
  | System file | User file _ => path_parent file
  | Project dot_codex_folder => Some dot_codex_folder
  | _ => None
  end.

(** [layers] are the enabled layers, the lowest precedence first. *)
Record ConfigLayerStack := mkStack {
  layers : list ConfigLayerSource;
  ignore_user_and_project_exec_policy_rules : bool;
  requirements_exec_policy : option (Policy AbsPath)
}.

Definition exec_policy_config_folders (c : ConfigLayerStack) : list rstr := omap config_folder (layers c).
Definition child_uses_parent_exec_policy (same_requirements : bool) (parent child : ConfigLayerStack) : bool :=
  bool_decide (exec_policy_config_folders parent = exec_policy_config_folders child)
  && bool_decide (ignore_user_and_project_exec_policy_rules parent = ignore_user_and_project_exec_policy_rules child)
  && same_requirements.

Fixpoint rule_files (dir : rstr) (es : list (result io_error DirEntry)) : result ExecPolicyError (list rstr) :=
  match es with
  | [] => Ok []
  | Err e :: _ => Err (ReadDir dir e)
  | Ok entry :: es =>
      match is_file entry with
      | Err e => Err (ReadDir dir e)
      | Ok file =>
          paths ← rule_files dir es;
          Ok (if bool_decide (extension entry = Some RULE_EXTENSION) && file then entry_path entry :: paths else paths)
      end
  end.

Definition collect_policy_files (dir : rstr) : result ExecPolicyError (list rstr) :=
  match read_dir dir with
  | Err e => if decide (FileSystem.kind e = NotFound) then Ok [] else Err (ReadDir dir e)
  | Ok es => paths ← rule_files dir es; Ok (sort rstr_le paths)
  end.

Fixpoint policy_paths (ignore : bool) (ls : list ConfigLayerSource) : result ExecPolicyError (list rstr) :=
  match ls with
  | [] => Ok []
  | l :: ls =>
      if ignore && is_user_or_project l then policy_paths ignore ls
      else match config_folder l with
           | None => policy_paths ignore ls
           | Some folder =>
               paths ← collect_policy_files (path_join folder RULES_DIR_NAME);
               rest ← policy_paths ignore ls; Ok (paths ++ rest)
           end
  end.

Fixpoint parse_files (b : PolicyBuilder AbsPath) (paths : list rstr) : result ExecPolicyError (PolicyBuilder AbsPath) :=
  match paths with
  | [] => Ok b
  | path :: paths =>
      match read_to_string path with
      | Err e => Err (ReadFile path e)
      | Ok contents =>
          match parse b path contents with
          | (_, Err e) => Err (ParsePolicy path e)
          | (b, Ok _) => parse_files b paths
          end
      end
  end.

Definition load_exec_policy (c : ConfigLayerStack) : result ExecPolicyError (Policy AbsPath) :=
  paths ← policy_paths (ignore_user_and_project_exec_policy_rules c) (layers c);
  b ← parse_files builder_new paths;
  match requirements_exec_policy c with
  | None => Ok (build b)
  | Some requirements => Ok (merge_overlay (build b) requirements)
  end.

Definition load_exec_policy_with_warning (c : ConfigLayerStack) :
    result ExecPolicyError (Policy AbsPath * option ExecPolicyError) :=
  match load_exec_policy c with
  | Ok policy => Ok (policy, None)
  | Err (ParsePolicy path e) =>
      Ok (default policy_empty (requirements_exec_policy c), Some (ParsePolicy path e))
  | Err e => Err e
  end.
End loading.

(** ** Updates *)

Inductive ExecPolicyUpdateError :=
| AppendRule (source : AmendError)
| JoinBlockingTask
| AddRule (source : Error).

Inductive UpdateRequest :=
| AmendPrefix (command : list rstr)
| AmendNetwork (host : rstr) (protocol : NetworkRuleProtocol) (decision : Decision) (justification : option rstr).

Section updates.
Context {AbsPath : Type} `{!EqDecision AbsPath}.
Context (windows : bool) (try_from : rstr → option AbsPath) (file_name : AbsPath → option rstr).
Context (to_json : rstr → option rstr) (error_message : Error → rstr).

(** The policy in memory and the text of the default policy file. *)
Record Manager := mkManager { policy : Policy AbsPath; file : rstr }.

(** The blocking part; the policy file is in a directory. *)
Definition append_to_file (r : UpdateRequest) (calls : FileCalls) (contents : rstr) : rstr * result AmendError unit :=
  match r with
  | AmendPrefix command => blocking_append_allow_prefix_rule to_json calls true contents command
  | AmendNetwork h proto d j => blocking_append_network_rule to_json error_message calls true contents h proto d j
  end.

(** The rest: the policy to store, if any; [None] is a panic. *)
Definition update_policy (p : Policy AbsPath) (r : UpdateRequest) : option (result Error (option (Policy AbsPath))) :=
  match r with
  | AmendPrefix command =>
      e ← check_multiple_with_options windows try_from file_name p [command] (λ _, ExecPolicy.Forbidden) match_options;
      if bool_decide (eval_decision e = Allow) && existsb (rule_with Allow) (matched_rules e) then Some (Ok None)
      else Some (Some <$> add_prefix_rule p command Allow)
  | AmendNetwork h proto d j => Some (Some <$> add_network_rule p h proto d j)
  end.

(** How the blocking task ended: with the system calls' results, or not at
    all, after some of the file may have been written. *)
Inductive TaskEnd := Joined (calls : FileCalls) | Lost (contents : rstr).

(** [append_amendment_and_update] and [append_network_rule_and_update], alone. *)
Definition append_and_update (m : Manager) (r : UpdateRequest) (t : TaskEnd) :
    option (Manager * result ExecPolicyUpdateError unit) :=
  match t with
  | Lost contents => Some (mkManager (policy m) contents, Err JoinBlockingTask)
  | Joined calls =>
      match append_to_file r calls (file m) with
      | (contents, Err e) => Some (mkManager (policy m) contents, Err (AppendRule e))
      | (contents, Ok _) =>
          updated ← update_policy (policy m) r;
          Some match updated with
               | Err e => (mkManager (policy m) contents, Err (AddRule e))
               | Ok None => (mkManager (policy m) contents, Ok tt)
               | Ok (Some p) => (mkManager p contents, Ok tt)
               end
      end
  end.

(** The same when the future is dropped before it gets the task's result. *)
Definition written (r : UpdateRequest) (t : TaskEnd) (contents : rstr) : rstr :=
  match t with Lost contents => contents | Joined calls => (append_to_file r calls contents).1 end.
Definition append_only (m : Manager) (r : UpdateRequest) (t : TaskEnd) : Manager :=
  mkManager (policy m) (written r t (file m)).

Inductive Ending := Awaited (t : TaskEnd) | Abandoned (t : TaskEnd).

(** ** Concurrent updates

    A task waits for the semaphore, appends to the file, loads the policy,
    and stores the updated one; the permit is dropped when it returns, and
    when the future is dropped at an await.  The blocking append goes on then
    without the permit ([Detached]); the lock of the file makes it one step. *)
Inductive Phase :=
| Waiting
| Appending
| Loading
| Storing (updated : Policy AbsPath)
| Finished (r : result ExecPolicyUpdateError unit)
| Detached
| Dropped.

Record Updates := mkUpdates {
  manager : Manager;
  permit : option nat;
  tasks : list (UpdateRequest * Phase)
}.

Definition set_phase (s : Updates) (i : nat) (ph : Phase) : list (UpdateRequest * Phase) :=
  alter (λ t, (t.1, ph)) i (tasks s).

Inductive step : Updates → Updates → Prop :=
| step_acquire s i r : tasks s !! i = Some (r, Waiting) → permit s = None →
    step s (mkUpdates (manager s) (Some i) (set_phase s i Appending))
| step_append s i r calls contents : tasks s !! i = Some (r, Appending) →
    append_to_file r calls (file (manager s)) = (contents, Ok tt) →
    step s (mkUpdates (mkManager (policy (manager s)) contents) (permit s) (set_phase s i Loading))
| step_append_fails s i r calls contents e : tasks s !! i = Some (r, Appending) →
    append_to_file r calls (file (manager s)) = (contents, Err e) →
    step s (mkUpdates (mkManager (policy (manager s)) contents) None (set_phase s i (Finished (Err (AppendRule e)))))
| step_lost s i r contents : tasks s !! i = Some (r, Appending) →
    step s (mkUpdates (mkManager (policy (manager s)) contents) None (set_phase s i (Finished (Err JoinBlockingTask))))
| step_load s i r p : tasks s !! i = Some (r, Loading) → update_policy (policy (manager s)) r = Some (Ok (Some p)) →
    step s (mkUpdates (manager s) (permit s) (set_phase s i (Storing p)))
| step_load_present s i r : tasks s !! i = Some (r, Loading) → update_policy (policy (manager s)) r = Some (Ok None) →
    step s (mkUpdates (manager s) None (set_phase s i (Finished (Ok tt))))
| step_load_fails s i r e : tasks s !! i = Some (r, Loading) → update_policy (policy (manager s)) r = Some (Err e) →
    step s (mkUpdates (manager s) None (set_phase s i (Finished (Err (AddRule e)))))
| step_store s i r p : tasks s !! i = Some (r, Storing p) →
    step s (mkUpdates (mkManager p (file (manager s))) None (set_phase s i (Finished (Ok tt))))
| step_drop_waiting s i r : tasks s !! i = Some (r, Waiting) →
    step s (mkUpdates (manager s) (permit s) (set_phase s i Dropped))
| step_drop_appending s i r : tasks s !! i = Some (r, Appending) →
    step s (mkUpdates (manager s) None (set_phase s i Detached))
| step_drop_appended s i r : tasks s !! i = Some (r, Loading) →
    step s (mkUpdates (manager s) None (set_phase s i Dropped))
| step_detached s i r t : tasks s !! i = Some (r, Detached) →
    step s (mkUpdates (append_only (manager s) r t) (permit s) (set_phase s i Dropped)).

Definition start (m : Manager) (rs : list UpdateRequest) : Updates :=
  mkUpdates m None ((λ r, (r, Waiting)) <$> rs).

(** Updates one after the other: the manager afterwards and the result of
    each task that returns one, by its number. *)
Fixpoint run_in_order (m : Manager) (calls : list (nat * UpdateRequest * Ending)) :
    option (Manager * list (nat * result ExecPolicyUpdateError unit)) :=
  match calls with
  | [] => Some (m, [])
  | (_, r, Abandoned t) :: calls => run_in_order (append_only m r t) calls
  | (i, r, Awaited t) :: calls =>
      '(m, res) ← append_and_update m r t; '(m, rest) ← run_in_order m calls; Some (m, (i, res) :: rest)
  end.
End updates.
Arguments Manager : clear implicits.
Arguments Updates : clear implicits.
Arguments Phase : clear implicits.
