(* ===== verification/PolicyManagerFacts.v ===== *)
(** * Properties of loading and updating the policy

    Concurrent updates behave like updates one after the other and all of
    them return, and the requirements of an administrator survive loading. *)

From S2P Require Import Prelude RustStr FileSystem ExecPolicy ExecPolicyFacts PolicyParser Amend ExecApproval PolicyManager.

(** ** The updates are serial *)

Section serial.
Context {AbsPath : Type} `{!EqDecision AbsPath}.
Context (windows : bool) (try_from : rstr → option AbsPath) (file_name : AbsPath → option rstr).
Context (to_json : rstr → option rstr) (error_message : Error → rstr).
Implicit Types (m : Manager AbsPath) (s : Updates AbsPath) (r : UpdateRequest) (p : Policy AbsPath).

Local Abbreviation step := (step windows try_from file_name to_json error_message).
Local Abbreviation append_to_file := (append_to_file to_json error_message).
Local Abbreviation update_policy := (update_policy windows try_from file_name).
Local Abbreviation append_and_update := (append_and_update windows try_from file_name to_json error_message).
Local Abbreviation run_in_order := (run_in_order windows try_from file_name to_json error_message).

Lemma run_in_order_app m calls m1 res calls' m2 res' :
  run_in_order m calls = Some (m1, res) → run_in_order m1 calls' = Some (m2, res') →
  run_in_order m (calls ++ calls') = Some (m2, res ++ res').
Proof.
  revert m res. induction calls as [|[[j r'] [t'|t']] calls IH]; intros m res; cbn [PolicyManager.run_in_order app].
  - by intros [= -> <-].
  - destruct (append_and_update m r' t') as [[m' result]|]; [|done]. cbn [mbind option_bind].
    destruct (run_in_order m' calls) as [[m'' rest]|] eqn:Hr; [|done]. cbn [mbind option_bind]. intros [= -> <-] Hc.
    by rewrite (IH m' rest Hr Hc).
  - intros Hr Hc. by apply IH.
Qed.

(** Appends whose futures are gone only touch the file. *)
Definition abandoned (l : nat * UpdateRequest * TaskEnd) : nat * UpdateRequest * Ending := (l.1, Abandoned l.2).
Definition landed (late : list (nat * UpdateRequest * TaskEnd)) (contents : rstr) : rstr :=
  foldl (λ c '(_, r, t), written to_json error_message r t c) contents late.

Lemma run_abandoned m late :
  run_in_order m (abandoned <$> late) = Some (mkManager (policy m) (landed late (file m)), []).
Proof.
  revert m. induction late as [|[[i r] t] late IH]; intros m; cbn; [by destruct m|]. by rewrite IH.
Qed.

Definition active (ph : Phase AbsPath) : bool :=
  match ph with Appending | Loading | Storing _ => true | Waiting | Finished _ | Detached | Dropped => false end.
Definition over (ph : Phase AbsPath) : bool := match ph with Finished _ | Dropped => true | _ => false end.
Definition ended (e : Ending) (ph : Phase AbsPath) : Prop :=
  match e, ph with Awaited _, Finished _ | Abandoned _, Dropped => True | _, _ => False end.

(** *** The tasks that had their turn *)

Record ledger (rs : list UpdateRequest) (ts : list (UpdateRequest * Phase AbsPath))
    (calls : list (nat * UpdateRequest * Ending)) (res : list (nat * result ExecPolicyUpdateError unit)) : Prop := {
  lg_requests : ts.*1 = rs;
  lg_results i r result : ts !! i = Some (r, Finished result) → (i, result) ∈ res;
  lg_calls i r e : (i, r, e) ∈ calls → ∃ ph, ts !! i = Some (r, ph) ∧ ended e ph;
  lg_once : NoDup calls.*1.*1
}.

Lemma set_phase_requests s i ph : (set_phase s i ph).*1 = (tasks s).*1.
Proof.
  unfold set_phase. apply list_eq. intros j. rewrite !list_lookup_fmap.
  destruct (decide (i = j)) as [->|Hne]; [rewrite list_lookup_alter_eq|rewrite list_lookup_alter_ne by done; done].
  by destruct (tasks s !! j).
Qed.

Lemma set_phase_lookup s i ph r ph0 j r' ph' : tasks s !! i = Some (r, ph0) →
  set_phase s i ph !! j = Some (r', ph') ↔ (j = i ∧ r' = r ∧ ph' = ph) ∨ (j ≠ i ∧ tasks s !! j = Some (r', ph')).
Proof.
  intros Hi. unfold set_phase. destruct (decide (j = i)) as [->|Hne].
  - rewrite list_lookup_alter_eq, Hi. cbn. split; [intros [= <- <-]; by left|].
    intros [(_ & -> & ->)|[? _]]; done.
  - rewrite list_lookup_alter_ne by done. split; [by right|]. by intros [[? _]|[_ ?]].
Qed.

Lemma ended_over e ph : ended e ph → over ph = true.
Proof. by destruct e, ph. Qed.

Lemma ledger_move rs s calls res i r ph0 ph : ledger rs (tasks s) calls res → tasks s !! i = Some (r, ph0) →
  over ph0 = false → (∀ x, ph ≠ Finished x) → ledger rs (set_phase s i ph) calls res.
Proof.
  intros [H1 H2 H3 H4] Hi Hover Hph. split; [by rewrite set_phase_requests| | |done].
  - intros j r' result Hj. apply (set_phase_lookup _ _ _ _ _ _ _ _ Hi) in Hj as [(_ & _ & ?)|[_ Hj]]; [by destruct (Hph result)|].
    by eapply H2.
  - intros j r' e Hc. destruct (H3 j r' e Hc) as (phj & Hj & He). exists phj. split; [|done].
    apply (set_phase_lookup _ _ _ _ _ _ _ _ Hi). right. split; [|done]. intros ->. rewrite Hi in Hj. injection Hj as _ <-.
    apply ended_over in He. congruence.
Qed.

Lemma ledger_end rs s calls1 calls2 res new i r ph0 e ph : ledger rs (tasks s) (calls1 ++ calls2) res →
  tasks s !! i = Some (r, ph0) → over ph0 = false → ended e ph → (∀ result, ph = Finished result → (i, result) ∈ new) →
  ledger rs (set_phase s i ph) (calls1 ++ (i, r, e) :: calls2) (res ++ new).
Proof.
  intros [H1 H2 H3 H4] Hi Hover He Hnew. split; [by rewrite set_phase_requests| | |].
  - intros j r' result Hj. apply elem_of_app.
    apply (set_phase_lookup _ _ _ _ _ _ _ _ Hi) in Hj as [(-> & _ & Hj)|[_ Hj]]; [right; by apply Hnew|left; by eapply H2].
  - intros j r' e' Hc. assert ((j, r', e') = (i, r, e) ∨ (j, r', e') ∈ calls1 ++ calls2) as [[= -> -> ->]|Hc'] by set_solver.
    { exists ph. split; [|done]. apply (set_phase_lookup _ _ _ _ _ _ _ _ Hi). by left. }
    destruct (H3 j r' e' Hc') as (phj & Hj & He'). exists phj. split; [|done].
    apply (set_phase_lookup _ _ _ _ _ _ _ _ Hi). right. split; [|done]. intros ->. rewrite Hi in Hj. injection Hj as _ <-.
    apply ended_over in He'. congruence.
  - assert (calls1 ++ (i, r, e) :: calls2 ≡ₚ (i, r, e) :: (calls1 ++ calls2)) as -> by (by rewrite Permutation_middle).
    cbn. apply NoDup_cons. split; [|done]. intros ([j' r'] & Ei & Hj)%list_elem_of_fmap.
    apply list_elem_of_fmap in Hj as ([[j r''] e'] & [= -> ->] & Hj). cbn in Ei. subst j.
    destruct (H3 _ _ _ Hj) as (phj & Hi' & He'). rewrite Hi in Hi'. injection Hi' as _ <-. apply ended_over in He'. congruence.
Qed.

(** *** The holder of the permit *)

(** What it has done since the manager was [m0]; [late] are the appends that
    landed after its own. *)
Definition holder_ok m0 late m r (ph : Phase AbsPath) : Prop :=
  match ph with
  | Appending => m = m0 ∧ late = []
  | Loading | Storing _ =>
      policy m = policy m0 ∧ (∃ calls contents, append_to_file r calls (file m0) = (contents, Ok tt) ∧
        file m = landed late contents) ∧
      match ph with Storing p => update_policy (policy m0) r = Some (Ok (Some p)) | _ => True end
  | Waiting | Finished _ | Detached | Dropped => False
  end.

Record serial (m : Manager AbsPath) (rs : list UpdateRequest) (s : Updates AbsPath) (m0 : Manager AbsPath)
    (calls : list (nat * UpdateRequest * Ending)) (late : list (nat * UpdateRequest * TaskEnd))
    (res : list (nat * result ExecPolicyUpdateError unit)) : Prop := {
  sr_run : run_in_order m calls = Some (m0, res);
  sr_ledger : ledger rs (tasks s) (calls ++ (abandoned <$> late)) res;
  sr_active i r ph : tasks s !! i = Some (r, ph) → active ph = true → permit s = Some i;
  sr_permit : match permit s with
              | None => manager s = m0 ∧ late = []
              | Some i => ∃ r ph, tasks s !! i = Some (r, ph) ∧ holder_ok m0 late (manager s) r ph
              end
}.

(** A step of the holder that keeps the permit, or its first one. *)
Lemma serial_advance m rs s m0 calls late res i r ph0 ph m' :
  serial m rs s m0 calls late res → tasks s !! i = Some (r, ph0) → over ph0 = false →
  permit s = Some i ∨ permit s = None → holder_ok m0 late m' r ph →
  serial m rs (mkUpdates m' (Some i) (set_phase s i ph)) m0 calls late res.
Proof.
  intros [H1 H2 H3 H4] Hi Hnf Hp Hok. split; cbn [tasks permit manager]; [done| | |].
  - eapply ledger_move; [done..|]. by destruct ph.
  - intros j r' ph' Hj Hact. apply (set_phase_lookup _ _ _ _ _ _ _ _ Hi) in Hj as [(-> & _)|[Hne Hj]]; [done|].
    pose proof (H3 _ _ _ Hj Hact) as Hpj. destruct Hp; congruence.
  - exists r, ph. split; [|done]. apply (set_phase_lookup _ _ _ _ _ _ _ _ Hi). by left.
Qed.

(** The holder ends. *)
Lemma serial_finish m rs s m0 calls late res i r ph0 m' e ph new :
  serial m rs s m0 calls late res → tasks s !! i = Some (r, ph0) → active ph0 = true →
  run_in_order m0 ((i, r, e) :: (abandoned <$> late)) = Some (m', new) → ended e ph →
  (∀ result, ph = Finished result → (i, result) ∈ new) →
  serial m rs (mkUpdates m' None (set_phase s i ph)) m' (calls ++ (i, r, e) :: (abandoned <$> late)) [] (res ++ new).
Proof.
  intros [H1 H2 H3 H4] Hi Hact Hrun He Hnew. pose proof (H3 _ _ _ Hi Hact) as Hp. split; cbn [tasks permit manager].
  - by eapply run_in_order_app.
  - rewrite app_nil_r. eapply ledger_end; [done..| |done|done]. by destruct ph0.
  - intros j r' ph' Hj Ha. apply (set_phase_lookup _ _ _ _ _ _ _ _ Hi) in Hj as [(-> & _ & ->)|[Hne Hj]].
    + apply ended_over in He. by destruct ph.
    + pose proof (H3 _ _ _ Hj Ha). congruence.
  - done.
Qed.

(** A task that holds nothing changes its phase. *)
Lemma serial_idle m rs s m0 calls late res i r ph0 ph : serial m rs s m0 calls late res →
  tasks s !! i = Some (r, ph0) → over ph0 = false → active ph0 = false → active ph = false → (∀ x, ph ≠ Finished x) →
  serial m rs (mkUpdates (manager s) (permit s) (set_phase s i ph)) m0 calls late res.
Proof.
  intros [H1 H2 H3 H4] Hi Hover Hact Hact' Hph. split; cbn [tasks permit manager]; [done|by eapply ledger_move| |].
  - intros j r' ph' Hj Ha. apply (set_phase_lookup _ _ _ _ _ _ _ _ Hi) in Hj as [(_ & _ & ->)|[_ Hj]]; [congruence|by eapply H3].
  - destruct (permit s) as [j|]; [|done]. destruct H4 as (rj & phj & Hj & Hok). exists rj, phj. split; [|done].
    apply (set_phase_lookup _ _ _ _ _ _ _ _ Hi). right. split; [|done]. intros ->. rewrite Hi in Hj. injection Hj as _ <-.
    by destruct ph0.
Qed.

(** An append whose future is gone lands. *)
Lemma serial_lands m rs s m0 calls late res i r t : serial m rs s m0 calls late res →
  tasks s !! i = Some (r, Detached) →
  ∃ m0' calls' late',
    serial m rs (mkUpdates (append_only to_json error_message (manager s) r t) (permit s) (set_phase s i Dropped)) m0' calls' late' res.
Proof.
  intros Hs Hi. pose proof Hs as [H1 H2 _ H4]. destruct (serial_idle _ _ _ _ _ _ _ _ _ _ Dropped Hs Hi) as [_ _ Ha Hp]; try done.
  cbn [tasks permit manager] in Ha, Hp.
  assert (run_in_order m (calls ++ [(i, r, Abandoned t)]) = Some (append_only to_json error_message m0 r t, res)) as Hnow.
  { rewrite <- (app_nil_r res). by eapply run_in_order_app. }
  assert (∀ late', late' = [] → ledger rs (set_phase s i Dropped) ((calls ++ [(i, r, Abandoned t)]) ++ (abandoned <$> late')) res ∨ late ≠ []) as Hentry.
  { intros late' ->. destruct late; [|by right]. left. rewrite app_nil_r, <- (app_nil_r res).
    eapply ledger_end; [exact H2|done..]. }
  assert (late = [] → manager s = m0 → match permit s with None => True | Some j => ∃ rj, set_phase s i Dropped !! j = Some (rj, Appending) end →
    ∃ m0' calls' late', serial m rs (mkUpdates (append_only to_json error_message (manager s) r t) (permit s) (set_phase s i Dropped)) m0' calls' late' res) as Hdone.
  { intros Hl Em Hperm. exists (append_only to_json error_message m0 r t), (calls ++ [(i, r, Abandoned t)]), [].
    split; cbn [tasks permit manager]; [done| |done|].
    - by destruct (Hentry [] eq_refl).
    - rewrite Em. destruct (permit s) as [j|]; [|done]. destruct Hperm as [rj Hj]. by exists rj, Appending. }
  destruct (permit s) as [j|] eqn:Ep; [|destruct H4; by apply Hdone].
  destruct Hp as (rj & phj & Hj & Hok). destruct phj as [| |p| | | |]; try done.
  - destruct Hok. apply Hdone; [done..|]. by exists rj.
  - exists m0, calls, (late ++ [(i, r, t)]). split; cbn [tasks permit manager]; [done| |done|].
    + rewrite fmap_app, app_assoc, <- (app_nil_r res). eapply ledger_end; [by rewrite app_nil_r|done..].
    + exists rj, Loading. split; [done|]. destruct Hok as (Hpol & (fc & c & Hc & Hf) & _). split; [done|]. split; [|done].
      exists fc, c. split; [done|]. unfold landed. rewrite foldl_app. cbn. by rewrite Hf.
  - exists m0, calls, (late ++ [(i, r, t)]). split; cbn [tasks permit manager]; [done| |done|].
    + rewrite fmap_app, app_assoc, <- (app_nil_r res). eapply ledger_end; [by rewrite app_nil_r|done..].
    + exists rj. eexists. split; [done|]. destruct Hok as (Hpol & (fc & c & Hc & Hf) & ?). split; [done|]. split; [|done].
      exists fc, c. split; [done|]. unfold landed. rewrite foldl_app. cbn. by rewrite Hf.
Qed.

Lemma holder_of m rs s m0 calls late res i r ph : serial m rs s m0 calls late res →
  tasks s !! i = Some (r, ph) → active ph = true → permit s = Some i ∧ holder_ok m0 late (manager s) r ph.
Proof.
  intros Hs Hi Ha. pose proof (sr_active _ _ _ _ _ _ _ Hs _ _ _ Hi Ha) as Hp. split; [done|].
  pose proof (sr_permit _ _ _ _ _ _ _ Hs) as H. rewrite Hp in H. destruct H as (r' & ph' & Hi' & Hok). congruence.
Qed.

(** The result of the holder's turn with the appends that landed meanwhile. *)
Lemma run_turn m0 late i r fc contents updated p' result : append_to_file r fc (file m0) = (contents, Ok tt) →
  update_policy (policy m0) r = Some updated →
  match updated with
  | Err e => p' = policy m0 ∧ result = Err (AddRule e)
  | Ok None => p' = policy m0 ∧ result = Ok tt
  | Ok (Some p) => p' = p ∧ result = Ok tt
  end →
  run_in_order m0 ((i, r, Awaited (Joined fc)) :: (abandoned <$> late)) = Some (mkManager p' (landed late contents), [(i, result)]).
Proof.
  intros Ha Hu Hr. cbn [PolicyManager.run_in_order]. unfold PolicyManager.append_and_update. rewrite Ha, Hu. cbn [mbind option_bind].
  destruct updated as [[p|]|e]; destruct Hr as [-> ->]; cbn [mbind option_bind]; by rewrite run_abandoned.
Qed.

Lemma serial_step m rs s s' m0 calls late res : serial m rs s m0 calls late res → step s s' →
  ∃ m0' calls' late' res', serial m rs s' m0' calls' late' res'.
Proof.
  intros Hs Hstep. destruct Hstep as [s i r Hi Hp|s i r fc contents Hi Ha|s i r fc contents e Hi Ha|s i r contents Hi
    |s i r p Hi Hu|s i r Hi Hu|s i r e Hi Hu|s i r p Hi|s i r Hi|s i r Hi|s i r Hi|s i r t Hi].
  1: { exists m0, calls, late, res. pose proof (sr_permit _ _ _ _ _ _ _ Hs) as H. rewrite Hp in H.
       eapply serial_advance; [done|done|done|by right|exact H]. }
  8: { exists m0, calls, late, res. by eapply serial_idle. }
  10: { destruct (serial_lands _ _ _ _ _ _ _ _ _ t Hs Hi) as (m0' & calls' & late' & H). by exists m0', calls', late', res. }
  all: destruct (holder_of _ _ _ _ _ _ _ _ _ _ Hs Hi eq_refl) as [Hp Hok]; cbn in Hok.
  - destruct Hok as [<- ->]. eexists _, calls, [], res. rewrite Hp.
    eapply serial_advance; [exact Hs|done|done|by left|]. split; [done|]. split; [|done]. by exists fc, contents.
  - destruct Hok as [<- ->]. eexists _, _, _, _.
    eapply (serial_finish _ _ _ _ _ _ _ _ _ _ _ (Awaited (Joined fc))); [exact Hs|done|done| |done|].
    + cbn. by rewrite Ha.
    + intros ? [= <-]. left.
  - destruct Hok as [<- ->]. eexists _, _, _, _.
    eapply (serial_finish _ _ _ _ _ _ _ _ _ _ _ (Awaited (Lost contents))); [exact Hs|done|done|done|done|].
    intros ? [= <-]. left.
  - destruct Hok as (Hpol & Hf & _). exists m0, calls, late, res. rewrite Hp.
    eapply serial_advance; [done|done|done|by left|]. split; [done|]. split; [done|]. by rewrite <- Hpol.
  - destruct Hok as (Hpol & (fc & c & Hc & Hf) & _). eexists _, _, _, _. rewrite Hpol in Hu.
    replace (manager s) with (mkManager (policy m0) (landed late c)) by (rewrite <- Hf, <- Hpol; by destruct (manager s)).
    eapply (serial_finish _ _ _ _ _ _ _ _ _ _ _ (Awaited (Joined fc))); [exact Hs|done|done|by eapply run_turn|done|].
    intros ? [= <-]. left.
  - destruct Hok as (Hpol & (fc & c & Hc & Hf) & _). eexists _, _, _, _. rewrite Hpol in Hu.
    replace (manager s) with (mkManager (policy m0) (landed late c)) by (rewrite <- Hf, <- Hpol; by destruct (manager s)).
    eapply (serial_finish _ _ _ _ _ _ _ _ _ _ _ (Awaited (Joined fc))); [exact Hs|done|done|by eapply run_turn|done|].
    intros ? [= <-]. left.
  - destruct Hok as (Hpol & (fc & c & Hc & Hf) & Hu). eexists _, _, _, _. rewrite Hf.
    eapply (serial_finish _ _ _ _ _ _ _ _ _ _ _ (Awaited (Joined fc))); [exact Hs|done|done|by eapply run_turn|done|].
    intros ? [= <-]. left.
  - destruct Hok as [Em ->]. exists m0, calls, [], res. destruct Hs as [H1 H2 H3 _]. split; cbn [tasks permit manager]; try done.
    + by eapply ledger_move.
    + intros j r' ph' Hj Ha. apply (set_phase_lookup _ _ _ _ _ _ _ _ Hi) in Hj as [(_ & _ & ->)|[? Hj]]; [done|].
      pose proof (H3 _ _ _ Hj Ha). congruence.
  - destruct Hok as (Hpol & (fc & c & Hc & Hf) & _). eexists _, _, _, _.
    replace (manager s) with (mkManager (policy m0) (landed late c)) by (rewrite <- Hf, <- Hpol; by destruct (manager s)).
    eapply (serial_finish _ _ _ _ _ _ _ _ _ _ _ (Abandoned (Joined fc))); [exact Hs|done|done| |done|done].
    cbn [PolicyManager.run_in_order]. rewrite run_abandoned. cbn. by rewrite Hc.
Qed.

Lemma start_serial m rs : serial m rs (start m rs) m [] [] [].
Proof.
  split; cbn [tasks permit manager start]; [done|split| |done].
  - rewrite <- list_fmap_compose. apply list_eq. intros i. rewrite list_lookup_fmap. by destruct (rs !! i).
  - intros i r result H. rewrite list_lookup_fmap in H. destruct (rs !! i); cbn in H; [|done]. by injection H.
  - intros i r t H. by apply elem_of_nil in H.
  - apply NoDup_nil_2.
  - intros i r ph H. rewrite list_lookup_fmap in H. destruct (rs !! i); cbn in H; [|done]. by injection H as <- <-.
Qed.

Lemma reachable_serial m rs s : rtc step (start m rs) s → ∃ m0 calls late res, serial m rs s m0 calls late res.
Proof.
  revert s. refine (rtc_ind_r (λ s, ∃ m0 calls late res, serial m rs s m0 calls late res) (start m rs) _ _).
  - exists m, [], [], []. apply start_serial.
  - intros y z _ Hyz (m0 & calls & late & res & Hs). by eapply serial_step.
Qed.

(** ** Progress *)

Lemma update_policy_total p r : is_Some (update_policy p r).
Proof.
  destruct r as [command|h proto d j]; cbn [PolicyManager.update_policy]; [|done].
  destruct (check_total windows try_from file_name p command (λ _, ExecPolicy.Forbidden) match_options) as [e He].
  unfold check_multiple_with_options. cbn [fmap list_fmap concat]. rewrite app_nil_r. unfold check_with_options in He.
  rewrite He. cbn [mbind option_bind]. by destruct (_ && _).
Qed.

Definition phase_weight (ph : Phase AbsPath) : nat :=
  match ph with Waiting => 4 | Appending => 3 | Loading => 2 | Storing _ | Detached => 1 | Finished _ | Dropped => 0 end.
Definition remaining s : nat := list_sum ((λ t, phase_weight t.2) <$> tasks s).

Lemma set_phase_weight s i r ph ph' : tasks s !! i = Some (r, ph) →
  list_sum ((λ t, phase_weight t.2) <$> set_phase s i ph') + phase_weight ph = remaining s + phase_weight ph'.
Proof.
  unfold remaining, set_phase. generalize (tasks s). intros l. revert i.
  induction l as [|[r0 ph0] l IH]; intros [|i] Hi; [done|done| |].
  - injection Hi as -> ->. cbn. lia.
  - cbn in Hi. specialize (IH i Hi). cbn in *. unfold list_sum in *. lia.
Qed.

Lemma step_decreases s s' : step s s' → remaining s' < remaining s.
Proof.
  intros Hstep. destruct Hstep as [s i r Hi|s i r fc contents Hi|s i r fc contents e Hi|s i r contents Hi
    |s i r p Hi|s i r Hi|s i r e Hi|s i r p Hi|s i r Hi|s i r Hi|s i r Hi|s i r t Hi]; unfold remaining at 1; cbn [tasks];
    match goal with |- list_sum (_ <$> set_phase s i ?ph) < _ => pose proof (set_phase_weight s i r _ ph Hi) as Hwt end;
    cbn [phase_weight] in Hwt; lia.
Qed.

Lemma progress m rs s i r ph : rtc step (start m rs) s → tasks s !! i = Some (r, ph) → phase_weight ph ≠ 0 →
  ∃ s', step s s'.
Proof.
  intros Hreach Hi Hw. apply reachable_serial in Hreach as (m0 & calls & late & res & Hs).
  assert (∀ j r' ph', tasks s !! j = Some (r', ph') → active ph' = true → ∃ s', step s s') as Hact.
  { intros j r' ph' Hj Ha. destruct ph' as [| | |p|result| |]; try done.
    - eexists. by eapply (step_lost _ _ _ _ _ s j r' []).
    - destruct (update_policy_total (policy (manager s)) r') as [[[p|]|e] Hu]; eexists;
        [by eapply step_load|by eapply step_load_present|by eapply step_load_fails].
    - eexists. by eapply step_store. }
  destruct (permit s) as [j|] eqn:Hp.
  - pose proof (sr_permit _ _ _ _ _ _ _ Hs) as H. rewrite Hp in H. destruct H as (r' & ph' & Hj & Hok).
    apply (Hact j r' ph' Hj). by destruct ph'.
  - destruct (active ph) eqn:Ha; [by eapply Hact|]. destruct ph; try done; eexists; [by eapply step_acquire|by apply (step_detached _ _ _ _ _ s i r (Lost []))].
Qed.
End serial.

(** C25: Updates never interfere: whatever the order in which the tasks take
    their steps, and whichever of them are dropped at an await, whenever the
    semaphore is free the policy in memory and the policy file are those of
    some updates of the started tasks run one after the other, each at most
    once, and every task that has returned had its turn and returned what it
    returns there.  Only of a dropped task may the append land alone, in the
    middle of others' turns included: it changes no policy and nobody's
    result. *)
Theorem updates_are_serial {AbsPath} `{!EqDecision AbsPath} windows (try_from : rstr → option AbsPath) file_name to_json
    error_message (m : Manager AbsPath) (rs : list UpdateRequest) (s : Updates AbsPath)
    (Hreach : rtc (step windows try_from file_name to_json error_message) (start m rs) s) (Hfree : permit s = None) :
  ∃ calls res, run_in_order windows try_from file_name to_json error_message m calls = Some (manager s, res) ∧
    NoDup calls.*1.*1 ∧ (∀ i r e, (i, r, e) ∈ calls → rs !! i = Some r) ∧
    (∀ i r result, tasks s !! i = Some (r, Finished result) → (i, result) ∈ res) ∧
    (∀ i r t, (i, r, Abandoned t) ∈ calls → tasks s !! i = Some (r, Dropped)).
Proof.
  apply reachable_serial in Hreach as (m0 & calls & late & res & [H1 [H2 H3 H4 H5] H6 H7]). exists calls, res.
  rewrite Hfree in H7. destruct H7 as [-> ->]. rewrite app_nil_r in H4, H5. split_and!; [done..| |done|].
  - intros i r e Hc. destruct (H4 i r e Hc) as (ph & Hi & _). rewrite <- H2, list_lookup_fmap. by rewrite Hi.
  - intros i r t Hc. destruct (H4 _ _ _ Hc) as (ph & Hi & He). by destruct ph.
Qed.

(** Updates never wait for each other forever: while a task has neither
    returned nor been dropped some task can take a step, and every step brings
    the tasks closer to their end, so every execution returns a result for
    every task that is not dropped. *)
Theorem updates_return {AbsPath} `{!EqDecision AbsPath} windows (try_from : rstr → option AbsPath) file_name to_json
    error_message (m : Manager AbsPath) (rs : list UpdateRequest) (s : Updates AbsPath)
    (Hreach : rtc (step windows try_from file_name to_json error_message) (start m rs) s) :
  ((∃ s', step windows try_from file_name to_json error_message s s') ∨
   (∀ i r, rs !! i = Some r → tasks s !! i = Some (r, Dropped) ∨ ∃ result, tasks s !! i = Some (r, Finished result))) ∧
  (∀ n s', nsteps (step windows try_from file_name to_json error_message) n s s' → n ≤ 4 * length rs).
Proof.
  pose proof Hreach as Hreach'. apply reachable_serial in Hreach' as (m0 & calls & late & res & Hs).
  pose proof (lg_requests _ _ _ _ (sr_ledger _ _ _ _ _ _ _ _ _ _ _ _ Hs)) as Hrs. split.
  - destruct (decide (Exists (λ t, phase_weight t.2 ≠ 0) (tasks s))) as [Hex|Hno].
    + apply Exists_exists in Hex as ([r ph] & Hin & Hw). apply list_elem_of_lookup_1 in Hin as [i Hi]. left. by eapply progress.
    + right. intros i r Hi. rewrite <- Hrs, list_lookup_fmap in Hi.
      destruct (tasks s !! i) as [[r' ph]|] eqn:Ht; [|done]. injection Hi as <-.
      destruct (decide (phase_weight ph = 0)) as [Hz|Hz]; [destruct ph; try done; [by right; eexists|by left]|].
      destruct Hno. apply Exists_exists. exists (r', ph). split; [by eapply list_elem_of_lookup_2|done].
  - intros n s' Hn. assert (n + remaining s' ≤ remaining s) as Hsum.
    { clear Hs Hrs. induction Hn as [s|n s s1 s' Hst Hn IH]; [done|]. pose proof (step_decreases _ _ _ _ _ _ _ Hst) as Hlt.
      assert (rtc (step windows try_from file_name to_json error_message) (start m rs) s1) as Hr1 by by eapply rtc_r.
      specialize (IH Hr1). lia. }
    assert (remaining s ≤ 4 * length rs) as Hb; [|lia].
    rewrite <- Hrs, length_fmap. unfold remaining. clear.
    induction (tasks s) as [|[r ph] l IH]; [done|]. cbn [fmap list_fmap length]. unfold list_sum in *. cbn [foldr].
    assert (phase_weight ph ≤ 4) by (destruct ph; cbn; lia). cbn [snd]. lia.
Qed.

(** Whatever the rules files say, and even if one of them does not parse,
    the rules an administrator requires are in the policy that is loaded:
    after all other rules of their program, and their network rules after all
    others, so that their verdicts are the last. *)
Theorem requirements_always_apply {AbsPath} `{!EqDecision AbsPath} path_parent path_join read_dir read_to_string
    (parse : PolicyBuilder AbsPath → rstr → rstr → PolicyBuilder AbsPath * result Error unit)
    (c : ConfigLayerStack) (p requirements : Policy AbsPath) (warning : option ExecPolicyError)
    (Hreq : requirements_exec_policy c = Some requirements)
    (Hload : load_exec_policy_with_warning path_parent path_join read_dir read_to_string parse c = Ok (p, warning)) :
  (∀ program, ∃ before, default [] (rules_by_program p !! program) =
     before ++ default [] (rules_by_program requirements !! program)) ∧
  (∃ before, network_rules p = before ++ network_rules requirements) ∧
  (∀ name paths, host_executables_by_name requirements !! name = Some paths →
     host_executables_by_name p !! name = Some paths).
Proof.
  unfold load_exec_policy_with_warning, load_exec_policy in Hload. rewrite Hreq in Hload.
  assert (p = requirements ∨ ∃ q, p = merge_overlay q requirements) as [-> |[q ->]].
  { destruct (policy_paths _ _ _ _ _) as [paths|e] eqn:Hp; cbn [mbind result_bind] in Hload.
    - destruct (parse_files _ _ _ _) as [b|e] eqn:Hb; cbn [mbind result_bind] in Hload.
      + injection Hload as <- _. right. by exists (build b).
      + destruct e; try done. injection Hload as <- _. by left.
    - destruct e; try done. injection Hload as <- _. by left. }
  - split_and!; [intros program; by exists []|by exists []|done].
  - split_and!; [|by exists (network_rules q)|].
    + intros program. exists (default [] (rules_by_program q !! program)). apply merge_rules.
    + intros name paths Hn. by apply lookup_union_Some_l.
Qed.

Definition demo_requirements : Policy rstr :=
  ExecPolicy.mkPolicy {[ $"rm" := [mkRule (mkPattern ($"rm") []) ExecPolicy.Forbidden None] ]} [] ∅.

Lemma requirements_always_apply_witness :
  ∃ before, [mkRule (mkPattern ($"rm") []) ExecPolicy.Forbidden None] =
    before ++ default [] (rules_by_program demo_requirements !! $"rm").
Proof.
  apply (proj1 (requirements_always_apply (λ _, None) app (λ _, Ok []) (λ _, Ok []) (λ b _ _, (b, Ok tt))
    (mkStack [PolicyManager.Project ($"/w/.codex")] false (Some demo_requirements)) demo_requirements demo_requirements None
    eq_refl ltac:(vm_compute; reflexivity)) ($"rm")).
Defined.

(** ** One update, for the witnesses *)

Definition demo_json (s : rstr) : option rstr := Some ([DQUOTE] ++ s ++ [DQUOTE]).
Definition demo_update : UpdateRequest := AmendPrefix [$"ls"].
Definition demo_line : rstr := $"prefix_rule(pattern=[" ++ [DQUOTE] ++ $"ls" ++ [DQUOTE] ++ $"], decision="
  ++ [DQUOTE] ++ $"allow" ++ [DQUOTE] ++ $")" ++ [LF].
Definition demo_updated : Policy rstr :=
  ExecPolicy.mkPolicy {[ $"ls" := [mkRule (mkPattern ($"ls") []) Allow None] ]} [] ∅.
Definition demo_end : Updates rstr :=
  mkUpdates (mkManager demo_updated demo_line) None [(demo_update, Finished (Ok tt))].
Local Abbreviation demo_step := (step false (λ s, Some s) (λ s, Some s) demo_json (λ _, [])).

Lemma demo_reach : rtc demo_step (start (mkManager policy_empty []) [demo_update]) demo_end.
Proof.
  eapply rtc_l; [by apply (step_acquire _ _ _ _ _ _ 0 demo_update)|].
  eapply rtc_l; [eapply (step_append _ _ _ _ _ _ 0 demo_update no_failure demo_line); [reflexivity|vm_compute; reflexivity]|].
  eapply rtc_l; [eapply (step_load _ _ _ _ _ _ 0 demo_update demo_updated); [reflexivity|vm_compute; reflexivity]|].
  eapply rtc_l; [by eapply (step_store _ _ _ _ _ _ 0 demo_update demo_updated)|]. apply rtc_refl.
Qed.

Lemma updates_are_serial_witness :
  ∃ calls res, run_in_order false (λ s, Some s) (λ s, Some s) demo_json (λ _, []) (mkManager policy_empty []) calls =
    Some (mkManager demo_updated demo_line, res) ∧ (0, Ok tt) ∈ res.
Proof.
  destruct (updates_are_serial false (λ s, Some s) (λ s, Some s) demo_json (λ _, []) (mkManager policy_empty [])
    [demo_update] demo_end demo_reach eq_refl) as (calls & res & Hrun & _ & _ & Hres & _).
  exists calls, res. split; [exact Hrun|]. by apply (Hres 0 demo_update).
Defined.

Lemma updates_return_witness :
  (∃ s', demo_step demo_end s') ∨ (∃ result, tasks demo_end !! 0 = Some (demo_update, Finished result)).
Proof.
  destruct (updates_return false (λ s, Some s) (λ s, Some s) demo_json (λ _, []) (mkManager policy_empty [])
    [demo_update] demo_end demo_reach) as [[Hstep | Hdone] _]; [by left|right].
  destruct (Hdone 0 demo_update eq_refl) as [?|Hfinished]; [done|exact Hfinished].
Defined.
