(* ===== verification/Approvals.v ===== *)
(** * Asking for approval

    [core/src/tools/approvals.rs], the approval cache of
    [core/src/tools/sandboxing.rs] and [core/src/command_canonicalization.rs]:
    who decides whether a tool call may go on, and which decisions hold for
    the rest of the session. *)

From S2P Require Import Prelude RustStr ExecPolicy ShellSyntax ExecApproval.

(** ** Decisions and errors *)

Inductive NetworkPolicyRuleAction := AllowHost | DenyHost.

Inductive ReviewDecision :=
| Approved
| ApprovedExecpolicyAmendment (proposed_execpolicy_amendment : list rstr)
| ApprovedForSession
| ApprovedMcpPolicyAmendment
| NetworkPolicyAmendment (host : rstr) (action : NetworkPolicyRuleAction)
| Denied (rejection : rstr)
| TimedOut
| Abort.

#[export] Instance NetworkPolicyRuleAction_eq : EqDecision NetworkPolicyRuleAction.
Proof. solve_decision. Defined.
#[export] Instance ReviewDecision_eq : EqDecision ReviewDecision.
Proof. solve_decision. Defined.

(** The errors of a tool call that the code tells apart. *)
Inductive CodexErr (Output Payload : Type) :=
| SandboxDenied (output : Output) (network_policy_decision : option Payload)
| SandboxTimeout (output : Output)
| SandboxSignal (signal : Z)
| TurnAborted
| OtherErr (message : rstr).
Arguments SandboxDenied {Output Payload}.
Arguments SandboxTimeout {Output Payload}.
Arguments SandboxSignal {Output Payload}.
Arguments TurnAborted {Output Payload}.
Arguments OtherErr {Output Payload}.

Inductive ToolError (Output Payload : Type) :=
| Rejected (reason : rstr)
| Codex (err : CodexErr Output Payload).
Arguments Rejected {Output Payload}.
Arguments Codex {Output Payload}.

(** ** The cache *)

(** [ApprovalStore]: serialised keys with their decisions. *)
Abbreviation ApprovalStore := (gmap rstr ReviewDecision).

Section cache.
Context {K : Type} (to_json : K → option rstr).

Definition get (store : ApprovalStore) (key : K) : option ReviewDecision := s ← to_json key; store !! s.
Definition put (store : ApprovalStore) (key : K) (value : ReviewDecision) : ApprovalStore :=
  match to_json key with Some s => <[s := value]> store | None => store end.

Definition already_approved (store : ApprovalStore) (keys : list K) : bool :=
  forallb (λ key, bool_decide (get store key = Some ApprovedForSession)) keys.

Definition record_decision (store : ApprovalStore) (keys : list K) (decision : ReviewDecision) : ApprovalStore :=
  if bool_decide (decision = ApprovedForSession)
  then foldl (λ store key, put store key ApprovedForSession) store keys else store.

(** One call when nothing else uses the store; [fetched] is what the user
    would answer. *)
Definition with_cached_approval (store : ApprovalStore) (keys : list K) (fetched : ReviewDecision) :
    ReviewDecision * ApprovalStore :=
  if is_empty keys then (fetched, store)
  else if already_approved store keys then (ApprovedForSession, store)
  else (fetched, record_decision store keys fetched).
End cache.

(** ** Commands that share an approval *)

Definition CANONICAL_BASH_SCRIPT_PREFIX : rstr := $"__codex_shell_script__".
Definition CANONICAL_POWERSHELL_SCRIPT_PREFIX : rstr := $"__codex_powershell_script__".

Definition canonicalize_command_for_approval (try_parse_shell : rstr → option Tree) (command : list rstr) : list rstr :=
  match parse_shell_lc_plain_commands try_parse_shell command with
  | Some [single_command] => single_command
  | _ =>
      match extract_bash_command command with
      | Some (_, script) =>
          let shell_mode := default [] (command !! 1) in [CANONICAL_BASH_SCRIPT_PREFIX; shell_mode; script]
      | None =>
          match extract_powershell_command command with
          | Some (_, script) => [CANONICAL_POWERSHELL_SCRIPT_PREFIX; script]
          | None => command
          end
      end
  end.

Section requests.
(** Additional permissions, patches and MCP calls are opaque here. *)
Context {PathUri Extra Changes NetworkContext Output Payload : Type}.
Context (try_parse_shell : rstr → option Tree).

Record UnifiedExecApprovalKey := mkExecKey {
  key_environment_id : rstr;
  key_executable : option rstr;
  key_command : list rstr;
  key_cwd : PathUri;
  key_tty : bool;
  key_sandbox_permissions : SandboxPermissions;
  key_additional_permissions : option Extra
}.

Inductive ApprovalCacheKey :=
| ExecCommandKey (key : UnifiedExecApprovalKey)
| ApplyPatchKey (environment_id : rstr) (path : PathUri).

Record McpToolApprovalKey := mkMcpKey {
  mcp_key_server : rstr;
  mcp_key_plugin_id : option rstr;
  mcp_key_connector_id : option rstr;
  mcp_key_link_id : option rstr;
  mcp_key_tool_name : rstr
}.

(** The types of keys that are serialised into the one store: those of
    commands with the fingerprint of their environment's policy, those of
    patches, and those of MCP tools. *)
Inductive StoreKey :=
| CommandStoreKey (key : ApprovalCacheKey) (policy_fingerprint : option (list rstr))
| PatchStoreKey (key : ApprovalCacheKey)
| McpStoreKey (key : McpToolApprovalKey).

(** The fields that prompts, hooks and telemetry show are left out; what
    remains is what the code decides with. *)
Inductive ApprovalAction :=
| ExecCommand (environment_id : rstr) (command : list rstr) (cwd : PathUri) (tty : bool)
    (sandbox_permissions : SandboxPermissions) (additional_permissions : option Extra)
| WriteStdin (sandbox_permissions : SandboxPermissions)
| Execve
| ApplyPatch (environment_id : rstr) (files : list PathUri) (changes : Changes) (permissions_preapproved : bool)
| McpToolCall
| NetworkAccess
| RequestPermissions.

Definition cache_keys (a : ApprovalAction) : list ApprovalCacheKey :=
  match a with
  | ExecCommand environment_id command cwd tty sandbox_permissions additional_permissions =>
      [ExecCommandKey (mkExecKey environment_id (head command)
         (canonicalize_command_for_approval try_parse_shell command) cwd tty sandbox_permissions
         additional_permissions)]
  | ApplyPatch environment_id files _ _ => ApplyPatchKey environment_id <$> files
  | Execve | McpToolCall | NetworkAccess | RequestPermissions | WriteStdin _ => []
  end.

Record ApprovalContext := mkApprovalContext {
  strict_auto_review : bool;
  approval_reason : option rstr;
  retry_reason : option rstr;
  network_approval_context : option NetworkContext
}.

(** ** Who decides *)

Inductive PermissionRequestDecision := HookAllow | HookDeny (message : rstr).
Inductive ApprovalResolutionSource := Hook | Guardian | User.

Local Abbreviation ToolResult := (result (ToolError Output Payload) ReviewDecision).

Definition msg_review_cancelled : rstr := $"automatic approval review was cancelled".
Definition msg_unexpected_decision : rstr := $"Error while requesting approval".

Definition rejection_by (source : ApprovalResolutionSource) : rstr :=
  match source with
  | Hook => $"rejected by configuration"
  | Guardian => $"automatic approval review denied the action"
  | User => $"rejected by user"
  end.

Definition into_tool_result (timeout_instructions : rstr) (decision : ReviewDecision)
    (source : ApprovalResolutionSource) : ToolResult :=
  match decision with
  | ApprovedMcpPolicyAmendment => Err (Rejected msg_unexpected_decision)
  | NetworkPolicyAmendment _ DenyHost => Err (Rejected (rejection_by source))
  | Denied rejection => Err (Rejected rejection)
  | TimedOut => Err (Rejected timeout_instructions)
  | Abort => Err (Codex TurnAborted)
  | decision => Ok decision
  end.

Definition is_none {A} (o : option A) : bool := match o with Some _ => false | None => true end.
Definition or_else {A} (o p : option A) : option A := match o with Some _ => o | None => p end.

(** The environments of the turn with the fingerprints of their policies. *)
Context (turn_environments : list (rstr * option (list rstr))).

Definition policy_fingerprint (environment_id : rstr) : option (list rstr) :=
  '(_, fingerprint) ← List.find (λ '(id, _), bool_decide (id = environment_id)) turn_environments; fingerprint.

(** What an action is cached under. *)
Definition store_keys (a : ApprovalAction) : list StoreKey :=
  match a with
  | ExecCommand environment_id _ _ _ _ _ =>
      (λ key, CommandStoreKey key (policy_fingerprint environment_id)) <$> cache_keys a
  | _ => PatchStoreKey <$> cache_keys a
  end.

(** [request_user_approval]: [None] is the [unreachable!]. *)
Definition request_user_approval (to_json : StoreKey → option rstr) (action : ApprovalAction)
    (ctx : ApprovalContext) (user : ReviewDecision) (store : ApprovalStore) : option (ReviewDecision * ApprovalStore) :=
  match action with
  | ExecCommand _ _ _ _ _ _ => Some (with_cached_approval to_json store (store_keys action) user)
  | WriteStdin _ | Execve | McpToolCall | NetworkAccess => Some (user, store)
  | ApplyPatch _ _ _ permissions_preapproved =>
      let reason := or_else (retry_reason ctx) (approval_reason ctx) in
      if permissions_preapproved && is_none reason then Some (Approved, store)
      else if negb (is_none reason) then Some (user, store)
      else Some (with_cached_approval to_json store (store_keys action) user)
  | RequestPermissions => None
  end.

(** [hook], [guardian] and [user] are their answers if they are asked. *)
Definition resolve (to_json : StoreKey → option rstr) (action : ApprovalAction) (ctx : ApprovalContext)
    (hook : option PermissionRequestDecision) (guardian : option ReviewDecision) (user : ReviewDecision)
    (store : ApprovalStore) : option (ReviewDecision * ApprovalResolutionSource * ApprovalStore) :=
  match hook with
  | Some HookAllow => Some (Approved, Hook, store)
  | Some (HookDeny message) => Some (Denied message, Hook, store)
  | None =>
      match guardian with
      | Some decision => Some (decision, Guardian, store)
      | None => '(decision, store) ← request_user_approval to_json action ctx user store; Some (decision, User, store)
      end
  end.

Definition request_approval (to_json : StoreKey → option rstr) (timeout_instructions : rstr)
    (policy : AskForApproval) (action : ApprovalAction) (ctx : ApprovalContext)
    (hook : option PermissionRequestDecision) (guardian : option ReviewDecision) (user : ReviewDecision)
    (store : ApprovalStore) : option (ToolResult * ApprovalStore) :=
  let refused :=
    match action with
    | WriteStdin sandbox_permissions =>
        if requests_sandbox_override sandbox_permissions
           && negb (strict_auto_review ctx && match policy with Never => true | _ => false end)
        then prompt_is_rejected_by_policy policy false else None
    | _ => None
    end in
  match refused with
  | Some reason => Some (Err (Rejected reason), store)
  | None =>
      '(decision, source, store) ← resolve to_json action ctx hook guardian user store;
      Some (match action, decision, source with
            | McpToolCall, ApprovedMcpPolicyAmendment, _ => Ok decision
            | NetworkAccess, NetworkPolicyAmendment _ DenyHost, _ => Ok decision
            | NetworkAccess, Abort, Guardian => Err (Rejected msg_review_cancelled)
            | _, _, _ => into_tool_result timeout_instructions decision source
            end, store)
  end.
End requests.
Arguments UnifiedExecApprovalKey : clear implicits.
Arguments ApprovalCacheKey : clear implicits.
Arguments StoreKey : clear implicits.
Arguments ApprovalAction : clear implicits.
Arguments ApprovalContext : clear implicits.
