(* ===== verification/ApprovalSession.v ===== *)
(** * The approvals of a session

    The one store of approvals of a session and everything that reads and
    writes it: commands and patches through [with_cached_approval]
    ([core/src/tools/sandboxing.rs]), and calls of MCP tools
    ([core/src/mcp_tool_call.rs]), whose gate and answers are modelled up to
    the texts of prompts.  Calls run at the same time: the store is locked for
    a check or an update, not while somebody is asked. *)

From S2P Require Import Prelude RustStr ExecPolicy ShellSyntax Permissions ExecApproval Approvals.

Inductive AppToolApproval := Auto | PromptTool | Writes | Approve.
#[export] Instance AppToolApproval_eq : EqDecision AppToolApproval.
Proof. solve_decision. Defined.

Record ToolAnnotations := mkAnnotations {
  destructive_hint : option bool;
  open_world_hint : option bool;
  read_only_hint : option bool
}.

Definition CODEX_APPS_MCP_SERVER_NAME : rstr := $"codex_apps".
Definition MCP_TOOL_APPROVAL_ACCEPT : rstr := $"Allow".
Definition MCP_TOOL_APPROVAL_ACCEPT_FOR_SESSION : rstr := $"Allow for this session".
Definition MCP_TOOL_APPROVAL_ACCEPT_AND_REMEMBER : rstr := $"Allow and don't ask me again".

Section session.
Context {PathUri Extra Changes : Type} `{!UriOps PathUri}.

(** ** Calls of MCP tools *)

(** What the gate reads of the invocation, its metadata, its policy and the
    settings of the turn. *)
Record McpCall := mkMcpCall {
  mcp_server : rstr;
  mcp_tool : rstr;
  mcp_plugin_id : option rstr;
  mcp_connector_id : option rstr;
  mcp_link_id : option rstr;
  mcp_annotations : option ToolAnnotations;
  mcp_mode : AppToolApproval;
  mcp_allow_persistent : bool;
  mcp_strict_auto_review : bool;
  mcp_approval_policy : AskForApproval;
  mcp_permission_profile : PermissionProfile PathUri
}.

(** [native] is the convention of the host. *)
Definition mcp_permission_prompt_is_auto_approved (native : PathConvention) (m : McpCall) : bool :=
  if bool_decide (mcp_mode m = Approve) then true
  else if negb (match mcp_approval_policy m with Never => true | _ => false end) then false
  else
    match mcp_permission_profile m with
    | Disabled | External _ => true
    | Managed file_system _ => has_full_disk_write_access_for_convention (to_sandbox_policy file_system) (Some native)
    end.

Definition requires_mcp_tool_approval (annotations : option ToolAnnotations) : bool :=
  let destructive := (annotations ≫= destructive_hint) in
  if bool_decide (destructive = Some true) then true
  else if default false (annotations ≫= read_only_hint) then false
  else default true destructive || default true (annotations ≫= open_world_hint).

Definition requires_mcp_tool_approval_for_mode (annotations : option ToolAnnotations) (mode : AppToolApproval) : bool :=
  match mode with
  | Auto => requires_mcp_tool_approval annotations
  | PromptTool => true
  | Writes => negb (default false (annotations ≫= read_only_hint))
  | Approve => false
  end.

(** Whether [maybe_request_mcp_tool_approval] goes on to the store. *)
Definition mcp_needs_approval (native : PathConvention) (m : McpCall) : bool :=
  mcp_strict_auto_review m
  || negb (mcp_permission_prompt_is_auto_approved native m)
     && requires_mcp_tool_approval_for_mode (mcp_annotations m) (mcp_mode m).

Definition session_mcp_tool_approval_key (m : McpCall) : option McpToolApprovalKey :=
  if negb (bool_decide (mcp_mode m = Auto)) then None
  else if bool_decide (mcp_server m = CODEX_APPS_MCP_SERVER_NAME) && is_none (mcp_connector_id m) then None
  else Some (mkMcpKey (mcp_server m) (mcp_plugin_id m) (mcp_connector_id m) (mcp_link_id m) (mcp_tool m)).
Definition persistent_mcp_tool_approval_key (m : McpCall) : option McpToolApprovalKey := session_mcp_tool_approval_key m.

(** *** The answer *)

(** The answers to the question; [None] if there are none for it. *)
Definition parse_mcp_tool_approval_response (answers : option (list rstr)) : ReviewDecision :=
  match answers with
  | None => Abort
  | Some answers =>
      if bool_decide (MCP_TOOL_APPROVAL_ACCEPT_FOR_SESSION ∈ answers) then ApprovedForSession
      else if bool_decide (MCP_TOOL_APPROVAL_ACCEPT_AND_REMEMBER ∈ answers) then ApprovedMcpPolicyAmendment
      else if bool_decide (MCP_TOOL_APPROVAL_ACCEPT ∈ answers) then Approved
      else Abort
  end.

(** An elicitation's action; accepting may say how long it holds and answer
    the question. *)
Inductive Elicitation :=
| Accept (persist : option rstr) (answers : option (list rstr))
| Decline
| Cancel.

Definition parse_mcp_tool_approval_elicitation_response (response : option Elicitation) : ReviewDecision :=
  match response with
  | None | Some Cancel => Abort
  | Some Decline => Denied ($"user rejected MCP tool call")
  | Some (Accept persist answers) =>
      if bool_decide (persist = Some ($"session")) then ApprovedForSession
      else if bool_decide (persist = Some ($"always")) then ApprovedMcpPolicyAmendment
      else match parse_mcp_tool_approval_response answers with Abort => Approved | decision => decision end
  end.

Definition normalize_approval_decision_for_mode (decision : ReviewDecision) (mode : AppToolApproval) : ReviewDecision :=
  match mode, decision with
  | (PromptTool | Writes), (ApprovedForSession | ApprovedMcpPolicyAmendment) => Approved
  | _, _ => decision
  end.

(** How the user is reached: by an elicitation, by a question on the root
    thread, or not at all. *)
Inductive McpAnswer :=
| Elicited (response : option Elicitation)
| UserInput (answers : option (list rstr))
| NonRootAgent.

Definition msg_non_root_agent : rstr :=
  $"MCP tool approval via request_user_input requires the root thread. "
  ++ $"Ask the parent agent to handle this request. "
  ++ $"Do not retry the blocked action until the parent confirms the blocker is resolved.".

Definition request_mcp_tool_user_approval (m : McpCall) (answer : McpAnswer) : ReviewDecision :=
  match mcp_approval_policy m with
  | Never => Denied ($"MCP tool call requires approval, but approval policy is never")
  | _ =>
      match answer with
      | NonRootAgent => Denied msg_non_root_agent
      | Elicited response =>
          normalize_approval_decision_for_mode (parse_mcp_tool_approval_elicitation_response response) (mcp_mode m)
      | UserInput answers => normalize_approval_decision_for_mode (parse_mcp_tool_approval_response answers) (mcp_mode m)
      end
  end.

(** The decision of the request; [request_approval] does not use the store
    for MCP tools. *)
Definition mcp_decision (timeout_instructions : rstr) (m : McpCall) (hook : option PermissionRequestDecision)
    (guardian : option ReviewDecision) (answer : McpAnswer) : ReviewDecision :=
  match request_approval (PathUri := PathUri) (Extra := Extra) (Changes := Changes) (NetworkContext := ()) (Output := ())
          (Payload := ()) (λ _, None) [] (λ _, None) timeout_instructions (mcp_approval_policy m) McpToolCall
          (mkApprovalContext (mcp_strict_auto_review m) None None None) hook guardian
          (request_mcp_tool_user_approval m answer) ∅ with
  | Some (Ok decision, _) => decision
  | Some (Err (Rejected rejection), _) => Denied rejection
  | Some (Err (Codex _), _) | None => Abort
  end.

(** The decisions [handle_mcp_tool_call] runs the tool on. *)
Definition mcp_tool_runs (d : ReviewDecision) : bool :=
  match d with
  | Approved | ApprovedForSession | ApprovedMcpPolicyAmendment | ApprovedExecpolicyAmendment _ | NetworkPolicyAmendment _ _ => true
  | Denied _ | TimedOut | Abort => false
  end.

(** The key [apply_mcp_tool_approval_decision] remembers; an amendment is
    written to the configuration first, and remembered if that fails too. *)
Definition remembered_key (m : McpCall) (d : ReviewDecision) : option McpToolApprovalKey :=
  match d with
  | ApprovedForSession => session_mcp_tool_approval_key m
  | ApprovedMcpPolicyAmendment =>
      or_else (if mcp_allow_persistent m then persistent_mcp_tool_approval_key m else None) (session_mcp_tool_approval_key m)
  | _ => None
  end.

(** ** A session *)

Local Abbreviation StoreKey := (StoreKey PathUri Extra).
Context (try_parse_shell : rstr → option Tree) (to_json : StoreKey → option rstr) (native : PathConvention).

Definition mcp_tool_approval_is_remembered (store : ApprovalStore) (key : McpToolApprovalKey) : bool :=
  bool_decide (get to_json store (McpStoreKey key) = Some ApprovedForSession).
Definition remember_mcp_tool_approval (store : ApprovalStore) (key : option McpToolApprovalKey) : ApprovalStore :=
  match key with Some key => put to_json store (McpStoreKey key) ApprovedForSession | None => store end.

(** Where a call is.  [asked] is false for a decision from the store. *)
Inductive Call :=
| Called (keys : list StoreKey)
| Fetching (keys : list StoreKey)
| Recording (keys : list StoreKey) (decision : ReviewDecision)
| Returned (keys : list StoreKey) (decision : ReviewDecision) (asked : bool)
| McpCalled (m : McpCall)
| McpNotRequired (m : McpCall)
| McpAsking (m : McpCall)
| McpAnswered (m : McpCall) (decision : ReviewDecision) (asked : bool)
| McpApplied (m : McpCall) (decision : ReviewDecision) (asked : bool).

Inductive call_step : ApprovalStore → Call → ApprovalStore → Call → Prop :=
| call_uncached store : call_step store (Called []) store (Fetching [])
| call_approved store keys : keys ≠ [] → already_approved to_json store keys = true →
    call_step store (Called keys) store (Returned keys ApprovedForSession false)
| call_fetch store keys : keys ≠ [] → already_approved to_json store keys = false →
    call_step store (Called keys) store (Fetching keys)
| call_fetched_uncached store d : call_step store (Fetching []) store (Returned [] d true)
| call_fetched store keys d : keys ≠ [] → call_step store (Fetching keys) store (Recording keys d)
| call_recorded store keys d :
    call_step store (Recording keys d) (record_decision to_json store keys d) (Returned keys d true)
| mcp_not_required store m : mcp_needs_approval native m = false → call_step store (McpCalled m) store (McpNotRequired m)
| mcp_remembered store m key : mcp_needs_approval native m = true → mcp_strict_auto_review m = false →
    session_mcp_tool_approval_key m = Some key → mcp_tool_approval_is_remembered store key = true →
    call_step store (McpCalled m) store (McpAnswered m Approved false)
| mcp_ask store m : mcp_needs_approval native m = true →
    (∀ key, mcp_strict_auto_review m = false → session_mcp_tool_approval_key m = Some key →
       mcp_tool_approval_is_remembered store key = false) →
    call_step store (McpCalled m) store (McpAsking m)
| mcp_answered store m timeout hook guardian answer :
    call_step store (McpAsking m) store (McpAnswered m (mcp_decision timeout m hook guardian answer) true)
| mcp_applied store m d asked : mcp_tool_runs d = true →
    call_step store (McpAnswered m d asked) (remember_mcp_tool_approval store (remembered_key m d)) (McpApplied m d asked).

(** The store and the calls made so far; the environments of a turn are those
    of the call. *)
Record Session := mkSession { store : ApprovalStore; calls : list Call }.

Inductive session_step : Session → Session → Prop :=
| session_call s environments (action : ApprovalAction PathUri Extra Changes) :
    session_step s (mkSession (store s) (calls s ++ [Called (store_keys try_parse_shell environments action)]))
| session_mcp_call s m : session_step s (mkSession (store s) (calls s ++ [McpCalled m]))
| session_progress s i c store' c' : calls s !! i = Some c → call_step (store s) c store' c' →
    session_step s (mkSession store' (<[i := c']> (calls s))).

Definition new_session : Session := mkSession ∅ [].
End session.
Arguments McpCall : clear implicits.
Arguments Call : clear implicits.
Arguments Session : clear implicits.
