(* ===== verification/ApprovalsFacts.v ===== *)
(** * Facts about approvals

    What a cached approval rests on, which commands share one, and what it
    takes for a tool call to be approved. *)

From S2P Require Import Prelude RustStr ExecPolicy ShellSyntax Permissions PermissionsFacts ExecApproval Approvals ApprovalSession.

(** ** The cache *)

Section store.
Context {K : Type} (to_json : K → option rstr).
Implicit Types (keys : list K).

Lemma put_lookup st key v json :
  put to_json st key v !! json = if decide (to_json key = Some json) then Some v else st !! json.
Proof.
  unfold put. destruct (to_json key) as [j|]; [|by rewrite decide_False].
  destruct (decide (Some j = Some json)) as [[= ->]|Hne]; [by rewrite lookup_insert_eq|].
  apply lookup_insert_ne. congruence.
Qed.

Lemma puts_lookup keys st json :
  let st' := foldl (λ st key, put to_json st key ApprovedForSession) st keys in
  ((∃ key, key ∈ keys ∧ to_json key = Some json) ∧ st' !! json = Some ApprovedForSession) ∨
  (¬ (∃ key, key ∈ keys ∧ to_json key = Some json) ∧ st' !! json = st !! json).
Proof.
  cbn zeta. revert st. induction keys as [|key keys IH]; intros st; cbn [foldl].
  { right. split; [|done]. by intros (? & ?%elem_of_nil & _). }
  destruct (IH (put to_json st key ApprovedForSession)) as [[(k & Hk & Hjson) Hst]|[Hnone Hst]].
  { left. split; [|done]. exists k. split; [by right|done]. }
  rewrite Hst, put_lookup. destruct (decide (to_json key = Some json)) as [Hkey|Hkey].
  - left. split; [|done]. exists key. split; [left|done].
  - right. split; [|done]. intros (k & [->|Hk]%elem_of_cons & Hjson); [done|]. apply Hnone. by exists k.
Qed.

Lemma already_approved_true st keys :
  already_approved to_json st keys = true ↔
  ∀ key, key ∈ keys → ∃ json, to_json key = Some json ∧ st !! json = Some ApprovedForSession.
Proof.
  unfold already_approved. rewrite forallb_forall. setoid_rewrite bool_decide_eq_true. unfold get.
  setoid_rewrite <- list_elem_of_In. by setoid_rewrite bind_Some.
Qed.

End store.

(** ** The calls of a session *)

Section session.
Context {PathUri Extra Changes : Type} `{!UriOps PathUri} (try_parse_shell : rstr → option Tree).
Context (to_json : StoreKey PathUri Extra → option rstr) (native : PathConvention).
Local Abbreviation Session := (Session PathUri Extra).
Local Abbreviation Call := (Call PathUri Extra).
Local Abbreviation call_step := (call_step (Changes := Changes) to_json native).
Local Abbreviation session_step := (session_step (Changes := Changes) try_parse_shell to_json native).
Implicit Types (s : Session) (c : Call) (key : StoreKey PathUri Extra).

(** The keys that were approved for the session by the answer to a call. *)
Definition given_keys c : list (StoreKey PathUri Extra) :=
  match c with
  | Returned keys ApprovedForSession true => keys
  | McpApplied m d true => option_list (McpStoreKey <$> remembered_key m d)
  | _ => []
  end.

(** The keys a call went through on without anybody being asked. *)
Definition relied_on c : list (StoreKey PathUri Extra) :=
  match c with
  | Returned keys _ false => keys
  | McpAnswered m _ false | McpApplied m _ false => option_list (McpStoreKey <$> session_mcp_tool_approval_key m)
  | _ => []
  end.

Definition granted s key : Prop := ∃ i c, calls s !! i = Some c ∧ key ∈ given_keys c.
(** A key that is serialised alike was granted. *)
Definition grounds s key : Prop := ∃ key' json, granted s key' ∧ to_json key' = Some json ∧ to_json key = Some json.

(** What a decision from the store is. *)
Definition unasked_ok c : Prop :=
  match c with
  | Returned keys d false => d = ApprovedForSession ∧ keys ≠ []
  | McpAnswered m d false | McpApplied m d false =>
      d = Approved ∧ mcp_strict_auto_review m = false ∧ is_Some (session_mcp_tool_approval_key m)
  | _ => True
  end.
(** Calls through the cache are commands and patches. *)
Definition keys_ok c : Prop :=
  match c with
  | Called keys | Fetching keys | Recording keys _ | Returned keys _ _ => ∀ key m, key ∈ keys → key ≠ McpStoreKey m
  | _ => True
  end.

Record cache_ok s : Prop := {
  cache_store json v : store s !! json = Some v ↔ v = ApprovedForSession ∧ ∃ key, granted s key ∧ to_json key = Some json;
  cache_calls i c : calls s !! i = Some c → unasked_ok c ∧ keys_ok c ∧ ∀ key, key ∈ relied_on c → grounds s key
}.

Lemma store_keys_not_mcp environments (action : ApprovalAction PathUri Extra Changes) key m :
  key ∈ store_keys try_parse_shell environments action → key ≠ McpStoreKey m.
Proof.
  destruct action; cbn [store_keys]; try (cbn; by intros ?%elem_of_nil).
  all: by intros (? & -> & _)%list_elem_of_fmap.
Qed.

(** A step of a call stores the keys it gives. *)
Lemma call_step_store st c st' c' : unasked_ok c → call_step st c st' c' →
  given_keys c = [] ∧ ∀ json,
  (∃ key, key ∈ given_keys c' ∧ to_json key = Some json) ∧ st' !! json = Some ApprovedForSession ∨
  (¬ ∃ key, key ∈ given_keys c' ∧ to_json key = Some json) ∧ st' !! json = st !! json.
Proof.
  intros Hok Hstep. assert (∀ json, ¬ ∃ key, key ∈ ([] : list (StoreKey PathUri Extra)) ∧ to_json key = Some json) as Hnil
    by (intros json (key & ?%elem_of_nil & _); done).
  destruct Hstep as [| | |st d| |st keys d| | | | |st m d asked Hruns]; (split; [done|]); intros json; try by right; split; [apply Hnil|].
  - right. split; [|done]. destruct d; apply Hnil.
  - unfold record_decision. case_bool_decide as Hd; [subst d; apply puts_lookup|].
    right. split; [|done]. destruct d; cbn [given_keys]; try apply Hnil. done.
  - cbn [given_keys]. destruct asked.
    + unfold remember_mcp_tool_approval. destruct (remembered_key m d) as [key|]; cbn [fmap option_fmap option_map option_list].
      * exact (puts_lookup to_json [McpStoreKey key] st json).
      * right. split; [apply Hnil|done].
    + destruct Hok as (-> & _). right. split; [apply Hnil|done].
Qed.

(** And relies on keys that are stored. *)
Lemma call_step_relies st c st' c' : unasked_ok c → keys_ok c → call_step st c st' c' → unasked_ok c' ∧ keys_ok c' ∧
  ∀ key, key ∈ relied_on c' → key ∈ relied_on c ∨ ∃ json, to_json key = Some json ∧ st !! json = Some ApprovedForSession.
Proof.
  intros Hok Hkeys Hstep.
  destruct Hstep as [|st keys Hne Happ| | | | | |st m mkey Hneeds Hstrict Hkey Hst| | |st m d [] Hruns];
    (split; [try done; cbn; eauto|split; [done|]]); cbn [relied_on]; try by intros ? ?%elem_of_nil.
  - intros key Hin. right. by apply (proj1 (already_approved_true to_json st keys)).
  - rewrite Hkey. intros key ->%list_elem_of_singleton. right. unfold mcp_tool_approval_is_remembered in Hst.
    apply bool_decide_eq_true in Hst. by apply bind_Some in Hst.
  - by left.
Qed.

Lemma granted_insert s i c c' st key : calls s !! i = Some c → given_keys c = [] →
  granted (mkSession st (<[i := c']> (calls s))) key ↔ granted s key ∨ key ∈ given_keys c'.
Proof.
  intros Hc Hquiet. split.
  - intros (j & cj & [(<- & <- & _)|[_ Hj]]%list_lookup_insert_Some & Hkey); [by right|left]. by exists j, cj.
  - intros [(j & cj & Hj & Hkey)|Hkey].
    + exists j, cj. split; [|done]. cbn. destruct (decide (i = j)) as [->|Hne]; [|by rewrite list_lookup_insert_ne].
      rewrite Hc in Hj. injection Hj as ->. rewrite Hquiet in Hkey. by apply elem_of_nil in Hkey.
    + exists i, c'. split; [|done]. apply list_lookup_insert_eq. by eapply lookup_lt_Some.
Qed.

Lemma granted_app s c key : given_keys c = [] → granted (mkSession (store s) (calls s ++ [c])) key ↔ granted s key.
Proof.
  intros Hc. split; intros (j & cj & Hj & Hkey); exists j, cj; (split; [|done]); cbn [calls] in *.
  - apply lookup_app_Some in Hj as [Hj|[_ Hj]]; [done|]. apply list_lookup_singleton_Some in Hj as [_ <-].
    rewrite Hc in Hkey. by apply elem_of_nil in Hkey.
  - by apply lookup_app_l_Some.
Qed.

Lemma cache_ok_app s c : cache_ok s → given_keys c = [] → relied_on c = [] → unasked_ok c → keys_ok c →
  cache_ok (mkSession (store s) (calls s ++ [c])).
Proof.
  intros [Hstore Hcalls] Hg Hr Hu Hk. pose proof (λ key, granted_app s c key Hg) as Hgranted. split; cbn [store calls].
  - intros json v. setoid_rewrite Hgranted. apply Hstore.
  - intros i ci Hi. unfold grounds. setoid_rewrite Hgranted. apply lookup_app_Some in Hi as [Hi|[_ Hi]]; [by apply (Hcalls i)|].
    apply list_lookup_singleton_Some in Hi as [_ <-]. split_and!; [done..|]. rewrite Hr. by intros ? ?%elem_of_nil.
Qed.

Lemma cache_ok_progress s i c st' c' : cache_ok s → calls s !! i = Some c → call_step (store s) c st' c' →
  cache_ok (mkSession st' (<[i := c']> (calls s))).
Proof.
  intros [Hstore Hcalls] Hi Hstep. destruct (Hcalls i c Hi) as (Hu & Hk & Hr).
  destruct (call_step_store _ _ _ _ Hu Hstep) as [Hquiet Hput]. destruct (call_step_relies _ _ _ _ Hu Hk Hstep) as (Hu' & Hk' & Hr').
  pose proof (λ key, granted_insert s i c c' st' key Hi Hquiet) as Hgranted.
  assert (∀ key, grounds s key → grounds (mkSession st' (<[i := c']> (calls s))) key) as Hmono.
  { intros key (key' & json & Hg & ?). exists key', json. split; [|done]. apply Hgranted. by left. }
  split; cbn [store calls].
  - intros json v. setoid_rewrite Hgranted. destruct (Hput json) as [[(key & Hkey & Hjson) ->]|[Hno ->]].
    + split; [intros [= <-]; split; [done|]; exists key; auto|by intros [-> _]].
    + rewrite Hstore. naive_solver.
  - intros j cj [(<- & <- & _)|[_ Hj]]%list_lookup_insert_Some.
    + split_and!; [done..|]. intros key [Hin|(json & Hjson & Hst)]%Hr'; [by apply Hmono, Hr|].
      apply Hmono. apply Hstore in Hst as [_ (key' & ? & ?)]. by exists key', json.
    + destruct (Hcalls j cj Hj) as (? & ? & Hg). split_and!; [done..|]. intros key Hin. by apply Hmono, Hg.
Qed.

Lemma cache_ok_reachable s : rtc session_step new_session s → cache_ok s.
Proof.
  assert (cache_ok (@new_session PathUri Extra)) as Hnew.
  { split; cbn; [|done]. intros json v. rewrite lookup_empty. split; [done|]. by intros (_ & key & (i & c & Hi & _) & _). }
  revert Hnew. generalize (@new_session PathUri Extra). intros s0 Hok Hs.
  induction Hs as [|s1 s2 s3 Hstep _ IH]; [done|]. apply IH. destruct Hstep; [apply cache_ok_app|apply cache_ok_app|by eapply cache_ok_progress]; try done.
  intros key m. apply store_keys_not_mcp.
Qed.
End session.


(** ** Commands that share an approval *)

Section keys.
Context (try_parse_shell : rstr → option Tree).
Implicit Types (c : list rstr).

Local Abbreviation canonical := (canonicalize_command_for_approval try_parse_shell).
Local Abbreviation plain := (parse_shell_lc_plain_commands try_parse_shell).

(** The command itself or a script of [sh -c] and the like that runs it. *)
Definition runs_just (w : list rstr) c : Prop := c = w ∨ plain c = Some [w].

(** What a canonical form is the canonical form of. *)
Inductive canonical_of : list rstr → list rstr → Prop :=
| canonical_single c w : plain c = Some [w] → canonical_of c w
| canonical_script shell mode script : is_posix_shell shell = true →
    canonical_of [shell; mode; script] [CANONICAL_BASH_SCRIPT_PREFIX; mode; script]
| canonical_powershell c shell script : extract_powershell_command c = Some (shell, script) →
    canonical_of c [CANONICAL_POWERSHELL_SCRIPT_PREFIX; script]
| canonical_itself c : canonical_of c c.

Lemma extract_bash_Some c shell script : extract_bash_command c = Some (shell, script) →
  is_posix_shell shell = true ∧ ∃ mode, c = [shell; mode; script].
Proof.
  unfold extract_bash_command. destruct c as [|a [|b [|d [|? ?]]]]; try done.
  destruct (is_posix_shell a) eqn:Ha; [|by rewrite orb_true_r].
  case_match; [done|]. intros [= <- <-]. split; [done|]. by exists b.
Qed.

Lemma canonical_spec c : canonical_of c (canonical c).
Proof.
  unfold canonicalize_command_for_approval.
  assert (canonical_of c (match extract_bash_command c with
    | Some (_, script) => [CANONICAL_BASH_SCRIPT_PREFIX; default [] (c !! 1); script]
    | None => match extract_powershell_command c with
              | Some (_, script) => [CANONICAL_POWERSHELL_SCRIPT_PREFIX; script] | None => c end end)) as Hrest.
  { destruct (extract_bash_command c) as [[shell script]|] eqn:Hb.
    - apply extract_bash_Some in Hb as (Hshell & mode & ->). by apply canonical_script.
    - destruct (extract_powershell_command c) as [[shell script]|] eqn:Hp; [by eapply canonical_powershell|apply canonical_itself]. }
  destruct (plain c) as [[|w [|w' ws]]|] eqn:Hplain; try exact Hrest. by apply canonical_single.
Qed.

Lemma powershell_head c shell script : extract_powershell_command c = Some (shell, script) →
  head c = Some shell ∧ detect_shell_type shell = Some PowerShell.
Proof.
  unfold extract_powershell_command. destruct c as [|a [|b [|d l]]]; try done.
  case_bool_decide as Hshell; [|done]. cbn [negb]. intros (? & _ & [= <- _])%bind_Some. done.
Qed.
End keys.

(** Only calls that run the same thing share an approval: if two command
    lines have the same key, they are the same, or they run the same single
    command, or they are the same shell's PowerShell invocations with the
    same script; provided that no script consists of one command named like
    the reserved words of the keys. *)
Theorem shared_approval_same_command {PathUri Extra Changes} (try_parse_shell : rstr → option Tree)
    (c1 c2 : list rstr) (env : rstr) (cwd : PathUri) (tty : bool) (sp : SandboxPermissions) (extra : option Extra)
    (Hkeys : cache_keys (Changes := Changes) try_parse_shell (ExecCommand env c1 cwd tty sp extra)
             = cache_keys (Changes := Changes) try_parse_shell (ExecCommand env c2 cwd tty sp extra))
    (Hreserved : ∀ script w, parse_shell_script_into_commands try_parse_shell script = Some [w] →
       head w ≠ Some CANONICAL_BASH_SCRIPT_PREFIX ∧ head w ≠ Some CANONICAL_POWERSHELL_SCRIPT_PREFIX) :
  c1 = c2 ∨ (∃ w, runs_just try_parse_shell w c1 ∧ runs_just try_parse_shell w c2) ∨
  (∃ shell script, extract_powershell_command c1 = Some (shell, script) ∧
     extract_powershell_command c2 = Some (shell, script)).
Proof.
  injection Hkeys as Hhead Hcanon.
  assert (∀ c w, parse_shell_lc_plain_commands try_parse_shell c = Some [w] →
    head w ≠ Some CANONICAL_BASH_SCRIPT_PREFIX ∧ head w ≠ Some CANONICAL_POWERSHELL_SCRIPT_PREFIX) as Hsingle.
  { intros c w ((? & script) & _ & Hw)%bind_Some. by apply (Hreserved script). }
  pose proof (canonical_spec try_parse_shell c1) as H1. pose proof (canonical_spec try_parse_shell c2) as H2.
  rewrite <- Hcanon in H2. revert H1 H2. generalize (canonicalize_command_for_approval try_parse_shell c1). intros k H1 H2.
  clear Hcanon.
  assert (∀ s, is_posix_shell s = true → s ≠ CANONICAL_BASH_SCRIPT_PREFIX) as Hposix by (intros s Hs ->; vm_compute in Hs; done).
  assert (∀ s, detect_shell_type s = Some PowerShell → s ≠ CANONICAL_POWERSHELL_SCRIPT_PREFIX) as Hps
    by (intros s Hs ->; vm_compute in Hs; done).
  destruct H1 as [c1 w1 Hw1|s1 m1 t1 Hs1|c1 s1 t1 Hp1|c1]; inversion H2 as [? ? Hw2|s2 m2 t2 Hs2|? s2 t2 Hp2|]; subst.
  all: try by (right; left; eexists; split; [by right|by right]).
  all: try by (right; left; eexists; split; [by right|by left]).
  all: try by (right; left; eexists; split; [by left|by right]).
  all: try by left.
  all: try by (destruct (Hsingle _ _ Hw1)).
  all: try by (destruct (Hsingle _ _ Hw2)).
  all: try (apply powershell_head in Hp1 as Hd1; destruct Hd1 as [Hh1 Ht1]; rewrite Hh1 in Hhead).
  all: try (apply powershell_head in Hp2 as Hd2; destruct Hd2 as [Hh2 Ht2]; rewrite Hh2 in Hhead).
  all: cbn [head] in Hhead; injection Hhead as Hhead; subst.
  all: try by (exfalso; eapply Hposix).
  all: try by (exfalso; eapply Hps).
  - by left.
  - right. right. by exists s2, t1.
Qed.

(** The reserved words do collide: a script that is one command with the
    reserved name shares the key of the script it quotes. *)
Definition quoting_tree (script : rstr) : Tree :=
  mkTree (mkNode ($"program") true 0 [] [mkNode ($"command") true 0 []
    [mkNode ($"command_name") true 0 [] [mkNode ($"word") true 0 CANONICAL_BASH_SCRIPT_PREFIX []];
     mkNode ($"word") true 23 ($"-lc") [];
     mkNode ($"raw_string") true 27 ($"'" ++ script ++ $"'") []]]) false.

Lemma reserved_words_collide :
  let script := $"rm -rf $(cat list)" in
  let parse s := if bool_decide (s = script) then None else Some (quoting_tree script) in
  let quoting := CANONICAL_BASH_SCRIPT_PREFIX ++ $" -lc '" ++ script ++ $"'" in
  canonicalize_command_for_approval parse [$"bash"; $"-lc"; quoting]
  = canonicalize_command_for_approval parse [$"bash"; $"-lc"; script].
Proof. vm_compute. reflexivity. Qed.

(** ** Who approved *)

Definition approves (d : ReviewDecision) : Prop :=
  match d with
  | Approved | ApprovedExecpolicyAmendment _ | ApprovedForSession | NetworkPolicyAmendment _ AllowHost => True
  | ApprovedMcpPolicyAmendment | NetworkPolicyAmendment _ DenyHost | Denied _ | TimedOut | Abort => False
  end.

Lemma into_tool_result_ok {Output Payload} timeout d source d' :
  into_tool_result (Output := Output) (Payload := Payload) timeout d source = Ok d' → d = d' ∧ approves d'.
Proof. destruct d as [| | | |? []| | |]; cbn; intros [= <-]; done. Qed.

(** Consent to a command or a patch comes from a hook, or if none answers
    from the guardian, or if it has no opinion from the user: now, or earlier
    for the session, or before for the permissions of the patch. *)
Lemma request_approval_consent {PathUri Extra Changes NetworkContext Output Payload} parse environments to_json timeout policy
    (action : ApprovalAction PathUri Extra Changes) (ctx : ApprovalContext NetworkContext) hook guardian user store d store'
    (Haction : match action with McpToolCall | NetworkAccess => False | _ => True end)
    (Hok : request_approval (Output := Output) (Payload := Payload) parse environments to_json timeout policy action ctx hook guardian
       user store = Some (Ok d, store')) :
  approves d ∧
  (hook = Some HookAllow ∨
   hook = None ∧ guardian = Some d ∨
   hook = None ∧ guardian = None ∧
     (user = d ∨ d = ApprovedForSession ∧ already_approved to_json store (store_keys parse environments action) = true ∨
      ∃ env files changes, action = ApplyPatch env files changes true)).
Proof.
  unfold request_approval in Hok. case_match; [done|]. apply bind_Some in Hok as ([[d0 source] st] & Hres & Hok).
  injection Hok as Hd ->. assert (d0 = d ∧ approves d) as [-> Happroves].
  { apply (into_tool_result_ok (Output := Output) (Payload := Payload) timeout d0 source). revert Hd. by destruct action. }
  split; [done|]. clear Hd. unfold resolve in Hres. destruct hook as [[|message]|]; [by left|by injection Hres as <- _ _|].
  right. destruct guardian as [g|]; [injection Hres as -> _ _; by left|]. right. split; [done|]. split; [done|].
  apply bind_Some in Hres as ([d1 st1] & Hu & Hres). injection Hres as -> _ _.
  assert (∀ keys d st, with_cached_approval to_json store keys user = (d, st) →
    user = d ∨ d = ApprovedForSession ∧ already_approved to_json store keys = true) as Hcached.
  { intros keys d' st' Hc. unfold with_cached_approval in Hc. destruct (is_empty keys); [injection Hc; auto|].
    destruct (already_approved to_json store keys) eqn:Ha; injection Hc as <- _; auto. }
  destruct action as [env cmd cwd tty sp extra|sp| |env files changes pre| | |]; cbn [request_user_approval] in Hu; try done.
  - injection Hu as Hu. destruct (Hcached _ _ _ Hu) as [|[? ?]]; auto.
  - injection Hu as -> _. by left.
  - injection Hu as -> _. by left.
  - destruct pre; cbn [andb] in Hu.
    + right. right. by exists env, files, changes.
    + destruct (negb _); [injection Hu as -> _; by left|]. injection Hu as Hu. destruct (Hcached _ _ _ Hu) as [|[? ?]]; auto.
Qed.

(** ** Witnesses *)

(** A patch and a call of an MCP tool, approved for the session, then again. *)
#[local] Existing Instance names_ops.

Definition demo_json (key : StoreKey (list rstr) ()) : option rstr :=
  match key with
  | PatchStoreKey (ApplyPatchKey env []) => Some (0%N :: env)
  | McpStoreKey (mkMcpKey server None None None []) => Some (1%N :: server)
  | _ => None
  end.
Lemma demo_json_injective k k' json : demo_json k = Some json → demo_json k' = Some json → k = k'.
Proof.
  unfold demo_json. intros H H'. repeat case_match; naive_solver.
Qed.

Definition demo_mcp : McpCall (list rstr) :=
  mkMcpCall ($"docs") [] None None None None Auto true false OnRequest Disabled.
Definition demo_mcp_key : StoreKey (list rstr) () := McpStoreKey (mkMcpKey ($"docs") None None None []).
Definition demo_patch_key : StoreKey (list rstr) () := PatchStoreKey (ApplyPatchKey ($"local") []).
Definition demo_patch : ApprovalAction (list rstr) () () := ApplyPatch ($"local") [[]] () false.

Definition demo_session : Session (list rstr) () :=
  mkSession {[ 1%N :: $"docs" := ApprovedForSession; 0%N :: $"local" := ApprovedForSession ]}
    [Returned [demo_patch_key] ApprovedForSession true; McpApplied demo_mcp ApprovedForSession true;
     Returned [demo_patch_key] ApprovedForSession false; McpAnswered demo_mcp Approved false].

Lemma demo_session_reachable :
  rtc (session_step (Changes := ()) (λ _, None) demo_json Posix) new_session demo_session.
Proof.
  eapply rtc_l; [apply (session_call _ _ _ _ [] demo_patch)|].
  eapply rtc_l; [eapply (session_progress _ _ _ _ 0); [reflexivity|by apply call_fetch]|].
  eapply rtc_l; [eapply (session_progress _ _ _ _ 0); [reflexivity|by apply (call_fetched _ _ _ _ ApprovedForSession)]|].
  eapply rtc_l; [eapply (session_progress _ _ _ _ 0); [reflexivity|apply call_recorded]|].
  eapply rtc_l; [apply (session_mcp_call _ _ _ _ demo_mcp)|].
  eapply rtc_l; [eapply (session_progress _ _ _ _ 1); [reflexivity|by apply mcp_ask; [|intros key _ [= <-]]]|].
  eapply rtc_l; [eapply (session_progress _ _ _ _ 1); [reflexivity|]|].
  { apply (mcp_answered _ _ _ _ [] None None (UserInput (Some [MCP_TOOL_APPROVAL_ACCEPT_FOR_SESSION]))). }
  eapply rtc_l; [eapply (session_progress _ _ _ _ 1); [reflexivity|by apply mcp_applied]|].
  eapply rtc_l; [apply (session_call _ _ _ _ [] demo_patch)|].
  eapply rtc_l; [eapply (session_progress _ _ _ _ 2); [reflexivity|by apply call_approved]|].
  eapply rtc_l; [apply (session_mcp_call _ _ _ _ demo_mcp)|].
  eapply rtc_l; [eapply (session_progress _ _ _ _ 3); [reflexivity|by eapply mcp_remembered]|].
  apply rtc_refl.
Qed.


Definition demo_ls (script : rstr) : option Tree :=
  Some (mkTree (mkNode ($"program") true 0 [] [demo_command 0 ($"ls") [demo_word 3 ($"-l")]]) false).

Lemma shared_approval_same_command_witness :
  let c1 := [$"bash"; $"-lc"; $"ls -l"] in let c2 := [$"bash"; $"-c"; $"ls  -l"] in
  c1 = c2 ∨ (∃ w, runs_just demo_ls w c1 ∧ runs_just demo_ls w c2) ∨
  (∃ shell script, extract_powershell_command c1 = Some (shell, script) ∧
     extract_powershell_command c2 = Some (shell, script)).
Proof.
  intros c1 c2. apply (shared_approval_same_command (PathUri := unit) (Extra := unit) (Changes := unit) demo_ls c1 c2 []
    tt false UseDefault None); [vm_compute; reflexivity|].
  intros script w Hw. vm_compute in Hw. injection Hw as <-. split; vm_compute; discriminate.
Defined.
