(* ===== verification/ApprovedCommand.v ===== *)
(** * Permissions of an approved command

    [protocol/src/permissions/target.rs]: when the user approves running a
    command with escalated permissions, but the policy denies reading some
    places, the command gets the whole disk except for these places. *)

From S2P Require Import Prelude RustStr Permissions PermissionsFacts.

(** What the metadata directories of a root are: one level below it. *)
Class UriChildLaws (PathUri : Type) `{!UriOps PathUri} : Prop := {
  posix_child r name c d : name ∈ PROTECTED_METADATA_PATH_NAMES → infer_path_convention r = Some Posix →
    lexical_depth r = Some d → join_descendant r name = Some c →
    infer_path_convention c = Some Posix ∧ lexical_depth c = Some (S d)
}.

(** A native path is not a pattern below the workspace roots. *)
Class UriNativeLaws (PathUri : Type) `{!UriOps PathUri} : Prop := {
  native_no_scheme (path : PathUri) :
    strip_prefix PROJECT_ROOTS_GLOB_PATTERN_PREFIX (inferred_native_path_string path) = None
}.

Section approved.
Context {PathUri : Type} `{!UriOps PathUri}.
(** [ReadDenyMatcher::try_new_with_context], which compiles the denied globs
    of a policy to a test of paths. *)
Context (try_new_matcher : FileSystemSandboxPolicy PathUri → FileSystemSandboxPolicyContext PathUri →
  result rstr (option (PathUri → bool))).
Implicit Types (p : FileSystemSandboxPolicy PathUri) (path root : PathUri) (context : FileSystemSandboxPolicyContext PathUri).

Definition names_workspace_roots (e : FileSystemSandboxEntry PathUri) : bool :=
  bool_decide (is_Some (project_root_subpath (entry_path e))).

(** The whole disk with the denials of a policy. *)
Definition whole_disk_with_denials p : FileSystemSandboxPolicy PathUri :=
  preserve_deny_read_restrictions_from (restricted [new_entry (Special Root) Write]) p.

(** The loop over the metadata names: [None] is its early return. *)
Fixpoint metadata_entries (root : PathUri) (read_denied : PathUri → bool) (names : list rstr) :
    option (list (FileSystemSandboxEntry PathUri)) :=
  match names with
  | [] => Some []
  | name :: names =>
      path ← join_descendant root name;
      rest ← metadata_entries root read_denied names;
      Some (if read_denied path then rest else new_entry (Path path) Write :: rest)
  end.

Definition for_approved_command p context : FileSystemSandboxPolicy PathUri :=
  if negb (is_restricted p) then p
  else
    let approved := whole_disk_with_denials p in
    if is_empty (workspace_roots context) && existsb names_workspace_roots (entries approved) then p
    else
      match materialize_entries (workspace_roots context) (entries approved), file_system_root context with
      | Some es, Some root =>
          let approved := mkPolicy (kind approved) (glob_scan_max_depth approved) es in
          match try_new_matcher approved context with
          | Ok matcher =>
              let read_denied path := is_some_and (λ denied, denied path) matcher in
              if negb (can_write (resolve_access approved root context)) || read_denied root then p
              else
                match metadata_entries root read_denied PROTECTED_METADATA_PATH_NAMES with
                | Some metadata => mkPolicy (kind approved) (glob_scan_max_depth approved) (es ++ metadata)
                | None => p
                end
          | Err _ => p
          end
      | _, _ => p
      end.

(** ** What it denies *)

(** What an entry becomes when the workspace roots are known. *)
Definition materialize_one (roots : list PathUri) (e : FileSystemSandboxEntry PathUri) :
    option (list (FileSystemSandboxEntry PathUri)) :=
  match project_root_subpath (entry_path e) with
  | None => Some [e]
  | Some (subpath, is_glob) =>
      if denies_home e subpath roots then None else Some (omap (materialize_root e subpath is_glob) roots)
  end.

(** A denial of the policy covers the path. *)
Definition denied p context path : Prop :=
  ∃ e es e' root, e ∈ entries p ∧ access e = Deny ∧ materialize_one (workspace_roots context) e = Some es ∧ e' ∈ es ∧
    root ∈ resolved_paths context (entry_path e') ∧
    infer_path_convention root = infer_path_convention (cwd context) ∧ is_Some (lexical_depth root) ∧
    is_within path root = true.

Lemma materialize_entries_elem roots es l x : materialize_entries roots es = Some l →
  x ∈ l ↔ ∃ e ls, e ∈ es ∧ materialize_one roots e = Some ls ∧ x ∈ ls.
Proof.
  revert l. induction es as [|e es IH]; intros l; cbn [materialize_entries].
  { intros [= <-]. rewrite elem_of_nil. split; [done|]. by intros (e & ls & ?%elem_of_nil & _). }
  assert (∀ ls rest, materialize_one roots e = Some ls → materialize_entries roots es = Some rest →
    x ∈ ls ++ rest ↔ ∃ e0 ls0, e0 ∈ e :: es ∧ materialize_one roots e0 = Some ls0 ∧ x ∈ ls0) as Hcons.
  { intros ls rest Hone Hrest. rewrite elem_of_app, (IH rest Hrest). split.
    - intros [Hx|(e0 & ls0 & He & Hls)]; [exists e, ls; split; [left|done]|exists e0, ls0; split; [by right|done]].
    - intros (e0 & ls0 & [->|He]%elem_of_cons & Hls & Hx); [left; congruence|right; by exists e0, ls0]. }
  unfold materialize_one in Hcons at 1. destruct (project_root_subpath (entry_path e)) as [[subpath is_glob]|].
  - destruct (denies_home e subpath roots); [done|]. intros (rest & Hrest & [= <-])%bind_Some. by apply Hcons.
  - intros (rest & Hrest & [= <-])%bind_Some. by apply (Hcons [e] rest).
Qed.

Lemma materialize_entries_all roots es l e : materialize_entries roots es = Some l → e ∈ es →
  is_Some (materialize_one roots e).
Proof.
  intros Hl He. revert l Hl. induction He as [e es|e f es He IH]; intros l; cbn [materialize_entries].
  - unfold materialize_one. destruct (project_root_subpath (entry_path e)) as [[subpath is_glob]|]; [|done].
    by destruct (denies_home e subpath roots).
  - destruct (project_root_subpath (entry_path f)) as [[subpath is_glob]|].
    + destruct (denies_home f subpath roots); [done|]. intros (rest & Hrest & _)%bind_Some. by apply (IH rest).
    + intros (rest & Hrest & _)%bind_Some. by apply (IH rest).
Qed.

Lemma materialize_one_deny roots e ls x : materialize_one roots e = Some ls → access e = Deny → x ∈ ls → access x = Deny.
Proof.
  unfold materialize_one. destruct (project_root_subpath (entry_path e)) as [[subpath is_glob]|].
  - destruct (denies_home e subpath roots); [done|]. intros [= <-] Ha (root & _ & Hx)%list_elem_of_omap.
    unfold materialize_root in Hx. cbv zeta in Hx. apply bind_Some in Hx as ([path m] & Hpath & [= <-]). cbn [access].
    rewrite Ha in Hpath. destruct (if is_glob && _ then None else _) as [q|]; by injection Hpath as _ <-.
  - intros [= <-] Ha ->%list_elem_of_singleton. done.
Qed.

(** ** The entries of the approved policy *)

Context `{!UriLaws PathUri, !UriChildLaws PathUri}.

Lemma whole_disk_entries p : entries (whole_disk_with_denials p) = foldl push_missing [new_entry (Special Root) Write] (deny_entries p).
Proof. done. Qed.

Lemma whole_disk_elem p e : e ∈ entries (whole_disk_with_denials p) →
  e = new_entry (Special Root) Write ∨ e ∈ entries p ∧ access e = Deny.
Proof.
  rewrite whole_disk_entries. destruct (push_missing_app [new_entry (Special Root) Write] (deny_entries p)) as (k & -> & Hk).
  rewrite elem_of_app, list_elem_of_singleton. intros [->|He]; [by left|right].
  apply Hk in He. by apply list_elem_of_filter in He as [? ?].
Qed.

Lemma whole_disk_root p : new_entry (Special Root) Write ∈ entries (whole_disk_with_denials p).
Proof.
  rewrite whole_disk_entries. destruct (push_missing_app [new_entry (Special Root) Write] (deny_entries p)) as (k & -> & _).
  apply elem_of_app. left. left.
Qed.

(** A denial or an equal one is kept. *)
Lemma whole_disk_keeps p e : e ∈ entries p → access e = Deny →
  ∃ e', e' ∈ entries (whole_disk_with_denials p) ∧ entry_eqb e' e = true.
Proof.
  intros He Ha. rewrite whole_disk_entries. apply push_missing_has; [|apply entry_eqb_refl].
  by apply list_elem_of_filter.
Qed.

(** What a denial of [p] covers, its equal covers at the same depth. *)
Lemma eqb_covers context path (a b : FileSystemSandboxEntry PathUri) es x root :
  entry_eqb a b = true → infer_path_convention (cwd context) = Some Posix →
  materialize_one (workspace_roots context) b = Some es → x ∈ es → root ∈ resolved_paths context (entry_path x) →
  infer_path_convention root = infer_path_convention (cwd context) → is_Some (lexical_depth root) → is_within path root = true →
  ∃ es' x' root', materialize_one (workspace_roots context) a = Some es' ∧ x' ∈ es' ∧
    root' ∈ resolved_paths context (entry_path x') ∧ infer_path_convention root' = infer_path_convention (cwd context) ∧
    is_Some (lexical_depth root') ∧ is_within path root' = true.
Proof.
  intros Heq Hcwd Hone Hx Hr Hc Hd Hw. apply entry_eqb_spec in Heq as [_ [->|(q & r & Ha & Hb & Hqr)]].
  { by eexists _, _, _. }
  unfold materialize_one in Hone. rewrite Hb in Hone. cbn in Hone. injection Hone as <-.
  apply list_elem_of_singleton in Hx as ->. rewrite Hb in Hr. apply list_elem_of_singleton in Hr as ->.
  rewrite Hcwd in Hc. destruct (eqb_same q r Hc Hqr) as (Hqc & Hqd & Hqw).
  exists [a], a, q. unfold materialize_one. rewrite Ha. cbn. split_and!; [done|left|left|congruence| |by rewrite Hqw].
  by rewrite Hqd.
Qed.

Lemma metadata_entries_elem root denied_at names l e : metadata_entries root denied_at names = Some l → e ∈ l →
  ∃ name path, name ∈ names ∧ join_descendant root name = Some path ∧ e = new_entry (Path path) Write.
Proof.
  revert l. induction names as [|name names IH]; intros l; cbn [metadata_entries].
  { intros [= <-] []%elem_of_nil. }
  intros (path & Hpath & (rest & Hrest & [= <-])%bind_Some)%bind_Some He.
  assert (e ∈ rest ∨ e = new_entry (Path path) Write) as [Hin| ->].
  { destruct (denied_at path); [by left|]. apply elem_of_cons in He as [->|?]; [by right|by left]. }
  - destruct (IH _ Hrest Hin) as (n & q & ? & ? & ?). exists n, q. split; [by right|done].
  - exists name, path. split; [left|done].
Qed.

(** An entry of the approved policy without its metadata grants. *)
Lemma approved_elem p context es e : materialize_entries (workspace_roots context) (entries (whole_disk_with_denials p)) = Some es →
  e ∈ es → e = new_entry (Special Root) Write ∨
    access e = Deny ∧ ∃ s ls, s ∈ entries p ∧ access s = Deny ∧ materialize_one (workspace_roots context) s = Some ls ∧ e ∈ ls.
Proof.
  intros Hes He. apply (materialize_entries_elem _ _ _ _ Hes) in He as (s & ls & Hs & Hls & He).
  apply whole_disk_elem in Hs as [->|[Hs Ha]].
  - cbn in Hls. injection Hls as <-. apply list_elem_of_singleton in He as ->. by left.
  - right. split; [by eapply materialize_one_deny|by exists s, ls].
Qed.

Lemma approved_root p context es : materialize_entries (workspace_roots context) (entries (whole_disk_with_denials p)) = Some es →
  new_entry (Special Root) Write ∈ es.
Proof.
  intros Hes. apply (materialize_entries_elem _ _ _ _ Hes). exists (new_entry (Special Root) Write), [new_entry (Special Root) Write].
  split_and!; [apply whole_disk_root|done|left].
Qed.

(** Its writes are at depth 0. *)
Lemma approved_writes context path g es root m d : (∀ e, e ∈ es → e = new_entry (Special Root) Write ∨ access e = Deny) →
  resolved_paths context (Special Root) = [root] → lexical_depth root = Some 0 →
  decides (mkPolicy Restricted g es) context path m d → m = Deny ∨ m = Write ∧ d = 0.
Proof.
  intros Hes Hroot Hrd (e & r & He & <- & Hr & _ & Hd & _)%decides_entry.
  destruct (Hes e He) as [->|Ha]; [right|by left]. cbn [new_entry entry_path] in Hr. rewrite Hroot in Hr.
  apply list_elem_of_singleton in Hr as ->. split; [done|congruence].
Qed.

(** The file system root is writable, so no denial is as shallow as it. *)
Lemma writable_root_denials context path g es root : (∀ e, e ∈ es → e = new_entry (Special Root) Write ∨ access e = Deny) →
  posix_context context path →
  resolved_paths context (Special Root) = [root] → infer_path_convention root = Some Posix → lexical_depth root = Some 0 →
  resolve_access (mkPolicy Restricted g es) root context = Write →
  is_Some (with_depths (resolved_entries (mkPolicy Restricted g es) context)) ∧
  ∀ d, decides (mkPolicy Restricted g es) context path Deny d → 1 ≤ d.
Proof.
  intros Hes (Hcwd & Hcd & _ & _) Hroot Hrc Hrd Hw.
  assert (comparable root context = true) as Hcmp.
  { unfold comparable. by rewrite Hcwd, Hrc, Hrd, !bool_decide_true. }
  set (A := mkPolicy Restricted g es) in *.
  destruct (with_depths (resolved_entries A context)) as [l|] eqn:Hl;
    [|by rewrite (resolve_access_deny A context root eq_refl) in Hw; [|right; right]].
  split; [done|]. intros d Hdec. destruct d as [|d]; [exfalso|lia].
  assert (decides A context root Deny 0) as Hdeny.
  { apply decides_entry in Hdec as (e & r & He & Ha & Hr & Hc & Hd & _). apply decides_entry. exists e, r.
    split_and!; try done. apply posix_within_root; [done| |congruence|done]. by rewrite Hrd. }
  assert (is_Some (infer_path_convention (cwd context))) as Hconv by (by rewrite Hcwd).
  destruct (resolve_access_spec A context root l eq_refl Hcmp Hconv Hl) as [(m & d & Hm & Hd & Hmax)|[Hm Hno]];
    [|by apply (Hno Deny 0)].
  rewrite Hw in Hm. subst m. specialize (Hmax _ _ Hdeny).
  destruct (approved_writes context root g es root _ _ Hes Hroot Hrd Hd) as [?|[_ ->]]; [done|]. done.
Qed.

(** An entry one level below the root grants no more than the root itself. *)
Lemma metadata_decides context root read_denied metadata e r : metadata_entries root read_denied PROTECTED_METADATA_PATH_NAMES = Some metadata →
  infer_path_convention root = Some Posix → lexical_depth root = Some 0 →
  e ∈ metadata → r ∈ resolved_paths context (entry_path e) → access e = Write ∧ lexical_depth r = Some 1.
Proof.
  intros Hm Hc Hd He Hr. destruct (metadata_entries_elem _ _ _ _ _ Hm He) as (name & q & Hn & Hj & ->).
  cbn in Hr. apply list_elem_of_singleton in Hr as ->. split; [done|].
  by destruct (posix_child root name q 0 Hn Hc Hd Hj).
Qed.

Lemma with_depths_is_Some (l : list (PathUri * FileSystemAccessMode)) : (∀ x, x ∈ l → is_Some (lexical_depth x.1)) → is_Some (with_depths l).
Proof.
  induction l as [|[root m] l IH]; intros H; [done|]. cbn [with_depths].
  destruct (H (root, m) ltac:(left)) as [d Hd]. cbn in Hd. rewrite Hd.
  assert (is_Some (with_depths l)) as [k ->] by (apply IH; intros x Hx; apply H; by right). done.
Qed.

(** The denials of the policy are the denials of the approved policy. *)
Lemma denied_decides p context path g es : infer_path_convention (cwd context) = Some Posix →
  materialize_entries (workspace_roots context) (entries (whole_disk_with_denials p)) = Some es →
  denied p context path ↔ ∃ d, decides (mkPolicy Restricted g es) context path Deny d.
Proof.
  intros Hcwd Hes. split.
  - intros (s & ls & x & r & Hs & Ha & Hls & Hx & Hr & Hc & Hd & Hw).
    destruct (whole_disk_keeps p s Hs Ha) as (s' & Hs' & Heq).
    destruct (eqb_covers _ _ _ _ _ _ _ Heq Hcwd Hls Hx Hr Hc Hd Hw) as (ls' & x' & r' & Hls' & Hx' & Hr' & Hc' & [d Hd'] & Hw').
    exists d. apply decides_entry. exists x', r'. split_and!; try done.
    + apply (materialize_entries_elem _ _ _ _ Hes). by exists s', ls'.
    + apply (materialize_one_deny _ _ _ _ Hls'); [|done]. by rewrite (proj1 (entry_eqb_spec _ _ Heq)).
  - intros (d & (e & r & He & Ha & Hr & Hc & Hd & Hw)%decides_entry).
    destruct (approved_elem _ _ _ _ Hes He) as [->|(_ & s & ls & Hs & Hsa & Hls & Hin)]; [done|].
    exists s, ls, e, r. split_and!; try done.
Qed.

(** What the approved policy decides. *)
Lemma approved_decides p context path root read_denied metadata g es :
  posix_context context path → resolved_paths context (Special Root) = [root] →
  infer_path_convention root = Some Posix → lexical_depth root = Some 0 → is_within path root = true →
  materialize_entries (workspace_roots context) (entries (whole_disk_with_denials p)) = Some es →
  metadata_entries root read_denied PROTECTED_METADATA_PATH_NAMES = Some metadata →
  resolve_access (mkPolicy Restricted g es) root context = Write →
  (resolve_access (mkPolicy Restricted g (es ++ metadata)) path context = Deny ∧ denied p context path) ∨
  (resolve_access (mkPolicy Restricted g (es ++ metadata)) path context = Write ∧ ¬ denied p context path).
Proof.
  intros Hctx Hroot Hrc Hrd Hin Hes Hm Hw. pose proof Hctx as (Hcwd & Hcd & Hp & Hpd).
  assert (∀ e, e ∈ es → e = new_entry (Special Root) Write ∨ access e = Deny) as Hshape.
  { intros e He. destruct (approved_elem _ _ _ _ Hes He) as [?|[? _]]; [by left|by right]. }
  destruct (writable_root_denials context path g es root Hshape Hctx Hroot Hrc Hrd Hw) as [[l Hl] Hdeep].
  set (q := mkPolicy Restricted g (es ++ metadata)).
  assert (∀ m d, decides q context path m d → m = Deny ∧ decides (mkPolicy Restricted g es) context path m d ∨ m = Write ∧ d ≤ 1) as Hdec.
  { intros m d Hdec. pose proof Hdec as (e & r & [He|He]%elem_of_app & Ha & Hr & Hc & Hd & Hwi)%decides_entry.
    - assert (decides (mkPolicy Restricted g es) context path m d) as Hold by (apply decides_entry; by exists e, r).
      destruct (approved_writes _ _ _ _ _ _ _ Hshape Hroot Hrd Hold) as [->|[-> ->]]; [by left|right; split; [done|lia]].
    - destruct (metadata_decides _ _ _ _ _ _ Hm Hrc Hrd He Hr) as [Hwr Hd1]. right. split; [congruence|].
      rewrite Hd in Hd1. injection Hd1 as ->. done. }
  assert (is_Some (with_depths (resolved_entries q context))) as [l' Hl'].
  { unfold q, resolved_entries. cbn [entries]. rewrite fmap_app, concat_app, with_depths_app.
    change (concat (resolved_entry context <$> es)) with (resolved_entries (mkPolicy Restricted g es) context). rewrite Hl.
    cbn [mbind option_bind]. destruct (with_depths_is_Some (concat (resolved_entry context <$> metadata))) as [k ->]; [|done].
    intros [r m] (e & He & Hx)%elem_of_concat_fmap. unfold resolved_entry in Hx.
    apply list_elem_of_fmap in Hx as (r' & [= -> ->] & [_ Hr]%list_elem_of_filter).
    destruct (metadata_decides _ _ _ _ _ _ Hm Hrc Hrd He Hr) as [_ Hd]. cbn. by rewrite Hd. }
  assert (comparable path context = true) as Hcmp by (unfold comparable; by rewrite Hcwd, Hp, !bool_decide_true).
  assert (is_Some (infer_path_convention (cwd context))) as Hconv by (by rewrite Hcwd).
  assert (decides q context path Write 0) as Hroot_dec.
  { apply decides_entry. exists (new_entry (Special Root) Write), root. split_and!; try done.
    - apply elem_of_app. left. by eapply approved_root.
    - cbn [new_entry entry_path]. rewrite Hroot. left.
    - congruence. }
  destruct (resolve_access_spec q context path l' eq_refl Hcmp Hconv Hl') as [(m & d & -> & Hd & Hmax)|[_ Hno]];
    [|by destruct (Hno _ _ Hroot_dec)].
  destruct (Hdec _ _ Hd) as [[-> Hold]|[-> Hle]].
  - left. split; [done|]. apply (denied_decides p context path g es Hcwd Hes). by exists d.
  - right. split; [done|]. intros [d' Hden]%(denied_decides p context path g es Hcwd Hes). pose proof (Hdeep _ Hden) as Hd'.
    assert (decides q context path Deny d') as Hq.
    { apply decides_entry in Hden as (e & r & He & ?). apply decides_entry. exists e, r. split; [|done].
      apply elem_of_app. by left. }
    specialize (Hmax _ _ Hq). unfold key_le in Hmax. cbn [fst snd] in Hmax.
    rewrite orb_true_iff, andb_true_iff, Nat.ltb_lt in Hmax. destruct Hmax as [?|[_ ?]]; [lia|done].
Qed.

(** ** When the policy is kept *)

(** The whole disk with the denials of [p], the workspace roots resolved. *)
Definition resolved_denials p context : option (FileSystemSandboxPolicy PathUri) :=
  es ← materialize_entries (workspace_roots context) (entries (whole_disk_with_denials p));
  Some (mkPolicy Restricted (glob_scan_max_depth (whole_disk_with_denials p)) es).

(** Why the command does not get more than it had. *)
Inductive keeps_policy p context : Prop :=
| keeps_unrestricted : kind p ≠ Restricted → keeps_policy p context
| keeps_symbolic e : e ∈ entries p → access e = Deny → names_workspace_roots e = true → workspace_roots context = [] →
    keeps_policy p context
| keeps_home e : e ∈ entries p → access e = Deny → materialize_one (workspace_roots context) e = None → keeps_policy p context
| keeps_invalid q err : resolved_denials p context = Some q → try_new_matcher q context = Err err → keeps_policy p context
| keeps_denied root : file_system_root context = Some root → denied p context root → keeps_policy p context
| keeps_matched q denies root : resolved_denials p context = Some q → try_new_matcher q context = Ok (Some denies) →
    file_system_root context = Some root → denies root = true → keeps_policy p context
| keeps_unresolved e es x root : e ∈ entries p → access e = Deny → materialize_one (workspace_roots context) e = Some es →
    x ∈ es → root ∈ resolved_paths context (entry_path x) → lexical_depth root = None → is_opaque root = false →
    keeps_policy p context
| keeps_nameless root name : file_system_root context = Some root → name ∈ PROTECTED_METADATA_PATH_NAMES →
    join_descendant root name = None → keeps_policy p context.

Lemma with_depths_None (l : list (PathUri * FileSystemAccessMode)) : with_depths l = None →
  ∃ x, x ∈ l ∧ lexical_depth x.1 = None ∧ is_opaque x.1 = false.
Proof.
  induction l as [|[root m] l IH]; [done|]. cbn [with_depths].
  destruct (lexical_depth root) eqn:Hd.
  - destruct (with_depths l); [done|]. intros _. destruct (IH eq_refl) as (x & ? & ?). exists x. split; [by right|done].
  - destruct (is_opaque root) eqn:Ho; intros Hl; [|exists (root, m); split; [left|done]].
    destruct (IH Hl) as (x & ? & ?). exists x. split; [by right|done].
Qed.

Lemma metadata_entries_None root denied_at names : metadata_entries root denied_at names = None →
  ∃ name, name ∈ names ∧ join_descendant root name = None.
Proof.
  induction names as [|name names IH]; [done|]. cbn [metadata_entries].
  destruct (join_descendant root name) as [q|] eqn:Hq; [|exists name; split; [left|done]].
  cbn [mbind option_bind]. destruct (metadata_entries _ _ names); [done|]. intros _.
  destruct (IH eq_refl) as (n & ? & ?). exists n. split; [by right|done].
Qed.

Lemma materialize_entries_None roots es : materialize_entries roots es = None →
  ∃ e, e ∈ es ∧ materialize_one roots e = None.
Proof.
  induction es as [|e es IH]; [done|]. cbn [materialize_entries]. intros H.
  destruct (materialize_one roots e) as [ls|] eqn:Hone; [|exists e; split; [left|done]].
  assert (materialize_entries roots es = None) as Hn.
  { unfold materialize_one in Hone. destruct (project_root_subpath (entry_path e)) as [[subpath is_glob]|].
    - destruct (denies_home e subpath roots); [done|]. by destruct (materialize_entries roots es).
    - by destruct (materialize_entries roots es). }
  destruct (IH Hn) as (x & ? & ?). exists x. split; [by right|done].
Qed.

(** A file system root that is not writable is denied, or a denial cannot be
    compared with it. *)
Lemma closed_root_keeps p context root g es : posix_context context root → file_system_root context = Some root →
  infer_path_convention root = Some Posix → lexical_depth root = Some 0 →
  materialize_entries (workspace_roots context) (entries (whole_disk_with_denials p)) = Some es →
  resolve_access (mkPolicy Restricted g es) root context ≠ Write → keeps_policy p context.
Proof.
  intros Hctx Hroot Hrc Hrd Hes Hw. pose proof Hctx as (Hcwd & Hcd & _).
  set (A := mkPolicy Restricted g es) in *.
  assert (comparable root context = true) as Hcmp by (unfold comparable; by rewrite Hcwd, Hrc, Hrd, !bool_decide_true).
  assert (is_Some (infer_path_convention (cwd context))) as Hconv by (by rewrite Hcwd).
  assert (∀ e, e ∈ es → e = new_entry (Special Root) Write ∨ access e = Deny) as Hshape.
  { intros e He. destruct (approved_elem _ _ _ _ Hes He) as [?|[? _]]; [by left|by right]. }
  assert (resolved_paths context (Special Root) = [root]) as Hpaths by (cbn; by rewrite Hroot).
  destruct (with_depths (resolved_entries A context)) as [l|] eqn:Hl.
  - apply (keeps_denied p context root Hroot). apply (denied_decides p context root g es Hcwd Hes).
    assert (decides A context root Write 0) as Hdec.
    { apply decides_entry. exists (new_entry (Special Root) Write), root. split_and!; try done.
      - by eapply approved_root.
      - cbn [new_entry entry_path]. rewrite Hpaths. left.
      - congruence.
      - apply within_refl. }
    destruct (resolve_access_spec A context root l eq_refl Hcmp Hconv Hl) as [(m & d & Hm & Hd & _)|[_ Hno]];
      [|by destruct (Hno _ _ Hdec)].
    rewrite Hm in Hw. exists d. by destruct (approved_writes _ _ _ _ _ _ _ Hshape Hpaths Hrd Hd) as [->|[? _]].
  - apply with_depths_None in Hl as ([r m] & (e & He & Ha & Hr & _)%resolved_entries_elem & Hd & Ho). cbn [fst] in Hd, Ho.
    destruct (approved_elem _ _ _ _ Hes He) as [->|(_ & s & ls & Hs & Hsa & Hls & Hx)].
    { cbn [new_entry entry_path] in Hr. rewrite Hpaths in Hr. apply list_elem_of_singleton in Hr as ->. congruence. }
    by eapply keeps_unresolved.
Qed.

Lemma root_context context path : posix_context context path → ∃ root, file_system_root context = Some root ∧
  posix_context context root ∧ infer_path_convention root = Some Posix ∧ lexical_depth root = Some 0 ∧ is_within path root = true.
Proof.
  intros Hctx. destruct (root_entry context path Hctx) as (r & Hr & Hrc & Hrd & Hin). exists r.
  destruct Hctx as (? & ? & _). split_and!; try done.
  cbn in Hr. destruct (file_system_root context); [by injection Hr as ->|done].
Qed.

(** The policy is kept for a reason, or the loop over the metadata is done. *)
Lemma for_approved_cases p context path : posix_context context path →
  (keeps_policy p context ∧ for_approved_command p context = p) ∨
  ∃ es root read_denied metadata g,
    materialize_entries (workspace_roots context) (entries (whole_disk_with_denials p)) = Some es ∧
    file_system_root context = Some root ∧
    resolve_access (mkPolicy Restricted g es) root context = Write ∧
    metadata_entries root read_denied PROTECTED_METADATA_PATH_NAMES = Some metadata ∧
    for_approved_command p context = mkPolicy Restricted g (es ++ metadata).
Proof.
  intros Hctx. destruct (root_context context path Hctx) as (root & Hroot & Hrctx & Hrc & Hrd & _).
  unfold for_approved_command. destruct (is_restricted p) eqn:Hk; cbn [negb];
    [|left; split; [apply keeps_unrestricted; by apply bool_decide_eq_false in Hk|done]].
  destruct (_ && _) eqn:Hsym.
  { left. split; [|done]. apply andb_true_iff in Hsym as [Hempty (e & He%list_elem_of_In & Hn)%existsb_exists].
    destruct (whole_disk_elem p e He) as [->|[? ?]]; [done|]. apply (keeps_symbolic p context e); try done.
    by destruct (workspace_roots context). }
  destruct (materialize_entries _ _) as [es|] eqn:Hes.
  2: { left. split; [|done]. apply materialize_entries_None in Hes as (e & He & Hone).
       destruct (whole_disk_elem p e He) as [->|[? ?]]; [done|]. by apply (keeps_home p context e). }
  rewrite Hroot. change (kind (whole_disk_with_denials p)) with Restricted in *.
  assert (resolved_denials p context = Some (mkPolicy Restricted (glob_scan_max_depth (whole_disk_with_denials p)) es)) as Hres
    by (unfold resolved_denials; by rewrite Hes).
  destruct (try_new_matcher _ context) as [matcher|err] eqn:Hmatcher;
    [|left; split; [by eapply keeps_invalid|done]].
  set (g := glob_scan_max_depth (whole_disk_with_denials p)) in *.
  destruct (can_write _) eqn:Hw; cbn [negb orb].
  2: { left. split; [|done]. apply bool_decide_eq_false in Hw. by eapply closed_root_keeps. }
  destruct matcher as [denies|]; cbn [is_some_and].
  - destruct (denies root) eqn:Hdenies; [left; split; [by eapply keeps_matched|done]|].
    destruct (metadata_entries _ _ _) as [metadata|] eqn:Hm.
    + right. apply bool_decide_eq_true in Hw. by eexists es, root, _, metadata, g.
    + left. apply metadata_entries_None in Hm as (name & ? & ?). split; [by eapply keeps_nameless|done].
  - destruct (metadata_entries _ _ _) as [metadata|] eqn:Hm.
    + right. apply bool_decide_eq_true in Hw. by eexists es, root, _, metadata, g.
    + left. apply metadata_entries_None in Hm as (name & ? & ?). split; [by eapply keeps_nameless|done].
Qed.

(** What the policy of an approved command says of a path. *)
Lemma for_approved_access p context path : posix_context context path →
  let q := for_approved_command p context in
  keeps_policy p context ∧ q = p ∨
  kind q = Restricted ∧
  (resolve_access q path context = Deny ∧ denied p context path ∨ resolve_access q path context = Write ∧ ¬ denied p context path).
Proof.
  intros Hposix q.
  destruct (for_approved_cases p context path Hposix) as [?|(es & root & rd & metadata & g & Hes & Hroot & Hw & Hm & Hq)]; [by left|].
  right. unfold q. rewrite Hq. split; [done|].
  destruct (root_context context path Hposix) as (r & Hr & _ & Hrc & Hrd & Hin).
  assert (r = root) as -> by congruence. eapply approved_decides; try done. cbn. by rewrite Hroot.
Qed.

(** ** Materialising it once more *)

Lemma materialize_plain roots (es : list (FileSystemSandboxEntry PathUri)) :
  (∀ e, e ∈ es → project_root_subpath (entry_path e) = None) → materialize_entries roots es = Some es.
Proof.
  induction es as [|e es IH]; [done|]. intros H. cbn [materialize_entries]. rewrite (H e) by left.
  rewrite IH; [done|]. intros e' ?. apply H. by right.
Qed.

Lemma materialize_one_plain `{!UriNativeLaws PathUri} roots e ls x : materialize_one roots e = Some ls → x ∈ ls →
  project_root_subpath (entry_path x) = None.
Proof.
  unfold materialize_one. destruct (project_root_subpath (entry_path e)) as [[subpath is_glob]|] eqn:He.
  - destruct (denies_home e subpath roots); [done|]. intros [= <-] (root & _ & Hx)%list_elem_of_omap.
    unfold materialize_root in Hx. cbv zeta in Hx. apply bind_Some in Hx as ([path m] & Hpath & [= <-]). cbn [entry_path].
    destruct (if is_glob && _ then None else _) as [q|].
    + injection Hpath as <- _. destruct is_glob; [|done]. cbn [project_root_subpath]. by rewrite native_no_scheme.
    + destruct (negb _); [|done]. by injection Hpath as <- _.
  - by intros [= <-] ->%list_elem_of_singleton.
Qed.

(** Resolving the workspace roots of an approved policy changes nothing. *)
Lemma for_approved_plain `{!UriNativeLaws PathUri} p context path e : posix_context context path →
  for_approved_command p context ≠ p → e ∈ entries (for_approved_command p context) →
  project_root_subpath (entry_path e) = None.
Proof.
  intros Hposix Hne.
  destruct (for_approved_cases p context path Hposix) as [[_ ?]|(es & root & rd & metadata & g & Hes & Hroot & Hw & Hm & Hq)]; [done|].
  rewrite Hq. cbn [entries]. intros [He|He]%elem_of_app.
  - apply (materialize_entries_elem _ _ _ _ Hes) in He as (x & ls & _ & Hone & He). by eapply materialize_one_plain.
  - by destruct (metadata_entries_elem _ _ _ _ _ Hm He) as (name & q & _ & _ & ->).
Qed.
End approved.


(** ** An example *)

#[local] Existing Instance names_ops.
#[local] Existing Instance names_laws.

#[local] Instance names_native_laws : UriNativeLaws (list rstr).
Proof. split. by intros [|[|c name] path]. Qed.

#[local] Instance names_child_laws : UriChildLaws (list rstr).
Proof.
  split. intros r name c d Hn _ Hd Hc. cbn in Hd, Hc. injection Hd as <-. injection Hc as <-. split; [done|].
  unfold PROTECTED_METADATA_PATH_NAMES in Hn. rewrite !elem_of_cons, elem_of_nil in Hn. destruct Hn as [->|[->|[->|[->|[]]]]]; cbn; by rewrite length_app, Nat.add_1_r.
Qed.

