(* ===== verification/PolicyTransforms.v ===== *)
(** * Additional permissions

    [sandboxing/src/policy_transforms.rs], with the profiles it converts from
    and to in [protocol/src/models.rs] and the request for permissions of
    [core/src/session/mod.rs]: permissions a command asks for on top of its
    profile, how they are normalised, merged, limited to what was asked for,
    and added to the profile. *)

From S2P Require Import Prelude RustStr Permissions.

(** ** Data *)

Record NetworkPermissions := mkNetworkPermissions { enabled : option bool }.

Definition is_enabled (n : NetworkSandboxPolicy) : bool :=
  match n with NetworkEnabled => true | NetworkRestricted => false end.

Inductive SandboxEnforcement := EnforcementManaged | EnforcementDisabled | EnforcementExternal.

Inductive GlobScanDepth := Bounded (depth : nat) | Unbounded.

(** Errors with what their messages show. *)
Inductive PermissionError (PathUri : Type) :=
| GlobGrant
| OtherConvention (path cwd : PathUri)
| Unresolvable (cwd : PathUri).
Arguments GlobGrant {PathUri}.
Arguments OtherConvention {PathUri}.
Arguments Unresolvable {PathUri}.

Definition nonzero (n : nat) : option positive := match n with 0 => None | _ => Some (Pos.of_nat n) end.

Section transforms.
Context {PathUri : Type} `{!UriOps PathUri}.

Local Abbreviation Entry := (FileSystemSandboxEntry PathUri).
Local Abbreviation Policy := (FileSystemSandboxPolicy PathUri).
Local Abbreviation PolicyContext := (FileSystemSandboxPolicyContext PathUri).

Record FileSystemPermissions := mkFileSystemPermissions {
  permission_entries : list Entry;
  permission_depth : option positive
}.

Record AdditionalPermissionProfile := mkAdditional {
  network : option NetworkPermissions;
  file_system : option FileSystemPermissions
}.

Definition network_is_empty (n : NetworkPermissions) : bool := negb (bool_decide (is_Some (enabled n))).
Definition file_system_is_empty (f : FileSystemPermissions) : bool := is_empty (permission_entries f).
Definition additional_is_empty (a : AdditionalPermissionProfile) : bool :=
  match network a, file_system a with None, None => true | _, _ => false end.

(** [Option::filter]. *)
Definition option_filter {A} (f : A → bool) (o : option A) : option A :=
  match o with Some x => if f x then Some x else None | None => None end.

(** ** Profiles *)

(** [None] is the [unreachable!]. *)
Definition from_sandbox_policy (p : Policy) : option (ManagedFileSystemPermissions PathUri) :=
  match kind p with
  | Restricted => Some (ManagedRestricted (entries p) (d ← glob_scan_max_depth p; nonzero d))
  | Unrestricted => Some ManagedUnrestricted
  | ExternalSandbox => None
  end.

Definition from_runtime_permissions_with_enforcement (enforcement : SandboxEnforcement) (p : Policy)
    (network_policy : NetworkSandboxPolicy) : PermissionProfile PathUri :=
  let managed :=
    match from_sandbox_policy p with
    | Some file_system => Managed file_system network_policy
    | None => External network_policy
    end in
  match kind p, enforcement with
  | ExternalSandbox, _ => External network_policy
  | Unrestricted, EnforcementDisabled => Disabled
  | Unrestricted, _ | Restricted, _ => managed
  end.

Definition enforcement (p : PermissionProfile PathUri) : SandboxEnforcement :=
  match p with
  | Managed _ _ => EnforcementManaged
  | Disabled => EnforcementDisabled
  | External _ => EnforcementExternal
  end.

Definition to_runtime_permissions (p : PermissionProfile PathUri) : Policy * NetworkSandboxPolicy :=
  (file_system_sandbox_policy p, network_sandbox_policy p).

(** ** Normalising *)

(** The loop over the entries. *)
Fixpoint normalize_entries (es done_entries : list Entry) : result (PermissionError PathUri) (list Entry) :=
  match es with
  | [] => Ok done_entries
  | e :: es =>
      match entry_path e, access e with
      | GlobPattern _, (Read | Write) => Err GlobGrant
      | _, _ => normalize_entries es (push_missing done_entries e)
      end
  end.

Definition normalize_additional_permissions (a : AdditionalPermissionProfile) :
    result (PermissionError PathUri) AdditionalPermissionProfile :=
  let network := option_filter (λ n, negb (network_is_empty n)) (network a) in
  match file_system a with
  | Some f =>
      match normalize_entries (permission_entries f) [] with
      | Ok es => Ok (mkAdditional network
          (option_filter (λ f, negb (file_system_is_empty f)) (Some (mkFileSystemPermissions es (permission_depth f)))))
      | Err err => Err err
      end
  | None => Ok (mkAdditional network None)
  end.

Definition outside_convention (context : PolicyContext) (e : Entry) : option PathUri :=
  match entry_path e with
  | Path path =>
      if negb (bool_decide (is_Some (infer_path_convention path)))
         || negb (bool_decide (infer_path_convention path = infer_path_convention (cwd context)))
         || negb (bool_decide (is_Some (Permissions.join path ($"."))))
      then Some path else None
  | _ => None
  end.

Definition normalize_additional_permissions_with_context (a : AdditionalPermissionProfile) (context : PolicyContext) :
    result (PermissionError PathUri) AdditionalPermissionProfile :=
  match normalize_additional_permissions a with
  | Ok normalized =>
      match f ← file_system normalized; find_map (outside_convention context) (permission_entries f) with
      | Some path => Err (OtherConvention path (cwd context))
      | None => Ok normalized
      end
  | Err err => Err err
  end.

(** ** Entries in a context *)

Definition is_root_entry (e : Entry) : bool := match entry_path e with Special Root => true | _ => false end.

Definition resolve_permission_path (path : FileSystemPath PathUri) (context : PolicyContext) : option PathUri :=
  match path with
  | Path path => Some path
  | GlobPattern _ => None
  | Special Root => file_system_root context
  | Special (ProjectRoots subpath) =>
      root ← head (workspace_roots context);
      match subpath with Some subpath => Permissions.join root subpath | None => Some root end
  | Special Tmpdir => directories ← temporary_directories context; head directories
  | Special SlashTmp =>
      if bool_decide (infer_path_convention (cwd context) = Some Posix)
      then Permissions.join (cwd context) ($"/tmp") else None
  | Special (Minimal | Unknown _ _) => None
  end.

(** [pattern.strip_prefix("~/")] and its alternatives. *)
Definition home_relative_glob (is_windows : bool) (pattern : rstr) : option rstr :=
  match strip_prefix ($"~/") pattern with
  | Some suffix => Some suffix
  | None =>
      if bool_decide (pattern = $"~") then Some []
      else if is_windows then strip_prefix ($"~\") pattern else None
  end.

Definition materialize_cwd_dependent_entry (e : Entry) (context : PolicyContext) : option Entry :=
  match entry_path e with
  | GlobPattern pattern =>
      let is_windows := bool_decide (infer_path_convention (cwd context) = Some Windows) in
      '(root, pattern) ←
        match home_relative_glob is_windows pattern with
        | Some suffix =>
            home ← user_home_dir context;
            Some (home, trim_start_matches (λ c, N.eqb c SLASH || is_windows && N.eqb c BACKSLASH) suffix)
        | None => Some (cwd context, pattern)
        end;
      path ← Permissions.join root pattern;
      Some (mkEntry (GlobPattern (inferred_native_path_string path)) (access e) (missing_path_behavior e))
  | Path _ | Special _ => Some e
  end.

Definition materialized_path_entry (e : Entry) (path : PathUri) : Entry :=
  mkEntry (Path path) (access e) (missing_path_behavior e).

Definition is_deny (e : Entry) : bool := bool_decide (access e = Deny).

(** The loop over the workspace roots: [None] is its early return. *)
Fixpoint project_root_entries (e : Entry) (context : PolicyContext) (roots : list PathUri) : option (list Entry) :=
  match roots with
  | [] => Some []
  | root :: roots =>
      let root_context := mkContext (cwd context) [root] (user_home_dir context) (temporary_directories context) in
      match resolve_permission_path (entry_path e) root_context with
      | Some path =>
          rest ← project_root_entries e context roots; Some (materialized_path_entry e path :: rest)
      | None => if is_deny e then None else project_root_entries e context roots
      end
  end.

(** What one entry becomes. *)
Definition materialize_context_dependent_entry (e : Entry) (context : PolicyContext) : option (list Entry) :=
  match entry_path e with
  | Special (ProjectRoots _) =>
      resolved ← project_root_entries e context (workspace_roots context);
      if is_deny e && is_empty resolved then None else Some resolved
  | Special Tmpdir =>
      match temporary_directories context with
      | None => if is_deny e then None else Some [e]
      | Some directories => Some (materialized_path_entry e <$> directories)
      end
  | Special Root => _ ← resolve_permission_path (entry_path e) context; Some [e]
  | _ =>
      match materialize_cwd_dependent_entry e context with
      | Some e => Some [e]
      | None => if is_deny e then None else Some []
      end
  end.

Fixpoint materialize_context_dependent_entries (es : list Entry) (context : PolicyContext) : option (list Entry) :=
  match es with
  | [] => Some []
  | e :: es =>
      first ← materialize_context_dependent_entry e context;
      rest ← materialize_context_dependent_entries es context; Some (first ++ rest)
  end.

Definition materialize_additional_permissions_with_context (a : AdditionalPermissionProfile) (context : PolicyContext) :
    result (PermissionError PathUri) AdditionalPermissionProfile :=
  match file_system a with
  | Some f =>
      match materialize_context_dependent_entries (permission_entries f) context with
      | Some es =>
          normalize_additional_permissions_with_context
            (mkAdditional (network a) (Some (mkFileSystemPermissions es (permission_depth f)))) context
      | None => Err (Unresolvable (cwd context))
      end
  | None => normalize_additional_permissions_with_context a context
  end.

(** ** Merging *)

Definition effective_glob_scan_depth (es : list Entry) (depth : option nat) : option GlobScanDepth :=
  if existsb (λ e, is_deny e && match entry_path e with GlobPattern _ => true | _ => false end) es
  then Some (match depth with Some depth => Bounded depth | None => Unbounded end)
  else None.

Definition merge_glob_scan_max_depth (left : list Entry) (left_depth : option nat) (right : list Entry)
    (right_depth : option nat) : option nat :=
  match effective_glob_scan_depth left left_depth, effective_glob_scan_depth right right_depth with
  | Some Unbounded, _ | _, Some Unbounded => None
  | Some (Bounded l), Some (Bounded r) => Some (l `max` r)
  | Some (Bounded depth), None | None, Some (Bounded depth) => Some depth
  | None, None => None
  end.

Definition merge_permission_entries (base permissions : list Entry) : list Entry :=
  foldl push_missing [] (base ++ permissions).

Definition grants_network (n : option NetworkPermissions) : bool :=
  match n with Some (mkNetworkPermissions (Some true)) => true | _ => false end.
Definition network_granted : option NetworkPermissions := Some (mkNetworkPermissions (Some true)).

Definition merge_permission_profiles (base permissions : option AdditionalPermissionProfile) :
    option AdditionalPermissionProfile :=
  match permissions with
  | None => base
  | Some permissions =>
      match base with
      | Some base =>
          let network := if grants_network (network base) || grants_network (network permissions) then network_granted else None in
          let file_system :=
            match file_system base, file_system permissions with
            | Some b, Some p =>
                option_filter (λ f, negb (file_system_is_empty f))
                  (Some (mkFileSystemPermissions (merge_permission_entries (permission_entries b) (permission_entries p))
                     (d ← merge_glob_scan_max_depth (permission_entries b) (Pos.to_nat <$> permission_depth b)
                            (permission_entries p) (Pos.to_nat <$> permission_depth p); nonzero d)))
            | Some b, None => Some b
            | None, p => p
            end in
          option_filter (λ a, negb (additional_is_empty a)) (Some (mkAdditional network file_system))
      | None => option_filter (λ a, negb (additional_is_empty a)) (Some permissions)
      end
  end.

Definition merge_file_system_policy_with_additional_permissions (p : Policy) (additional : FileSystemPermissions) : Policy :=
  match kind p with
  | Restricted =>
      mkPolicy Restricted
        (merge_glob_scan_max_depth (entries p) (glob_scan_max_depth p) (permission_entries additional)
           (Pos.to_nat <$> permission_depth additional))
        (foldl push_missing (entries p) (permission_entries additional))
  | Unrestricted | ExternalSandbox => p
  end.

Definition effective_file_system_sandbox_policy (p : Policy) (additional : option AdditionalPermissionProfile) : Policy :=
  match a ← additional; file_system a with
  | Some f => if file_system_is_empty f then p else merge_file_system_policy_with_additional_permissions p f
  | None => p
  end.

Definition merge_network_access (base_network_access : bool) (additional : AdditionalPermissionProfile) : bool :=
  base_network_access || default false (n ← network additional; enabled n).

Definition effective_network_sandbox_policy (network_policy : NetworkSandboxPolicy)
    (additional : option AdditionalPermissionProfile) : NetworkSandboxPolicy :=
  match additional with
  | Some additional =>
      if merge_network_access (is_enabled network_policy) additional then NetworkEnabled else NetworkRestricted
  | None => network_policy
  end.

Definition effective_permission_profile (profile : PermissionProfile PathUri)
    (additional : option AdditionalPermissionProfile) : PermissionProfile PathUri :=
  let '(file_system_policy, network_policy) := to_runtime_permissions profile in
  from_runtime_permissions_with_enforcement (enforcement profile)
    (effective_file_system_sandbox_policy file_system_policy additional)
    (effective_network_sandbox_policy network_policy additional).

(** [native] is the convention of the host. *)
Definition should_require_platform_sandbox (native : PathConvention) (p : Policy) (network_policy : NetworkSandboxPolicy)
    (has_managed_network_requirements : bool) : bool :=
  if has_managed_network_requirements then true
  else if negb (is_enabled network_policy) then negb (bool_decide (kind p = ExternalSandbox))
  else
    match kind p with
    | Restricted => negb (has_full_disk_write_access_for_convention p (Some native))
    | Unrestricted | ExternalSandbox => false
    end.

(** ** Limiting a grant to the request *)

(** [prepare_deny_read_matcher] compiles the denials of a policy, globs
    included, to a test of paths. *)
Context (prepare_deny_read_matcher : Policy → PolicyContext → option (PathUri → bool)).

(** [ReadDenyMatcher::from_context]. *)
Definition from_context (p : Policy) (context : PolicyContext) : option (PathUri → bool) :=
  if existsb is_deny (entries p) then prepare_deny_read_matcher p context else None.

Definition access_covers (requested granted : FileSystemAccessMode) : bool :=
  match granted with Read => can_read requested | Write => can_write requested | Deny => false end.

(** [PathUri::overlaps]. *)
Definition overlaps (left right : PathUri) : option bool :=
  if uri_eqb left right then Some true
  else
    _ ← lexical_depth left; _ ← lexical_depth right; Some (is_within left right || is_within right left).
Definition paths_overlap (left right : PathUri) : bool := default true (overlaps left right).

Definition is_glob_char (c : char) : bool := bool_decide (c ∈ $"*?[]").

(** [pattern.find]: the text before the first wildcard and whether there is one. *)
Fixpoint glob_prefix (pattern : rstr) : rstr * bool :=
  match pattern with
  | [] => ([], false)
  | c :: pattern => if is_glob_char c then ([], true) else let '(prefix, found) := glob_prefix pattern in (c :: prefix, found)
  end.

Definition glob_static_prefix_path (pattern : rstr) (context : PolicyContext) : option PathUri :=
  let is_windows := bool_decide (infer_path_convention (cwd context) = Some Windows) in
  let '(prefix, found) := glob_prefix pattern in
  if found && is_empty prefix then None
  else
    let wildcard_in_segment :=
      found && negb (ends_with ($"/") prefix || is_windows && ends_with ($"\") prefix) in
    prefix ← Permissions.join (cwd context) prefix;
    if wildcard_in_segment then parent prefix else Some prefix.

Definition is_none_or {A} (f : A → bool) (o : option A) : bool := match o with Some x => f x | None => true end.

(** The test of one accepted entry. *)
Definition deny_entry_constrains (deny_entry : Entry) (context : PolicyContext) (e : Entry) : bool :=
  if is_root_entry e then true
  else
    match resolve_permission_path (entry_path e) context with
    | None => true
    | Some grant_path =>
        match entry_path deny_entry with
        | GlobPattern pattern => is_none_or (λ prefix, paths_overlap prefix grant_path) (glob_static_prefix_path pattern context)
        | Path _ | Special _ =>
            is_none_or (λ deny_path, paths_overlap deny_path grant_path)
              (resolve_permission_path (entry_path deny_entry) context)
        end
    end.

Definition deny_entry_constrains_accepted_grant (deny_entry : Entry) (accepted : list Entry) (context : PolicyContext) : bool :=
  existsb (λ e, can_read (access e) && deny_entry_constrains deny_entry context e) accepted.

(** What is retained; the output gets those it does not contain. *)
Definition retained_deny_entries (source accepted : list Entry) (context : PolicyContext) : list Entry :=
  filter (λ e, is_deny e && deny_entry_constrains_accepted_grant e accepted context = true) source.
Definition retain_constraining_deny_entries (source accepted : list Entry) (context : PolicyContext) (output : list Entry) : list Entry :=
  foldl push_missing output (retained_deny_entries source accepted context).

Definition granted_file_system_entry_within_request (requested : FileSystemPermissions) (requested_policy : Policy)
    (denies : option (PathUri → bool)) (context : PolicyContext) (granted : Entry) : bool :=
  if negb (can_read (access granted))
     || match entry_path granted with
        | Special SlashTmp => negb (bool_decide (infer_path_convention (cwd context) = Some Posix))
        | _ => false
        end
  then false
  else if bool_decide (infer_path_convention (cwd context) = Some Windows) && is_root_entry granted
          && negb (existsb (λ e, is_root_entry e && access_covers (access e) (access granted)) (permission_entries requested))
  then false
  else
    match resolve_permission_path (entry_path granted) context with
    | Some path =>
        if negb (bool_decide (infer_path_convention path = infer_path_convention (cwd context)))
           || is_some_and (λ denies, denies path) denies
        then false
        else access_covers (resolve_access requested_policy path context) (access granted)
    | None =>
        existsb (λ e, access_covers (access e) (access granted) && path_eqb (entry_path e) (entry_path granted))
          (permission_entries requested)
    end.

Definition intersect_file_systems (requested granted : FileSystemPermissions) (context : PolicyContext) :
    option FileSystemPermissions :=
  requested_entries ← materialize_context_dependent_entries (permission_entries requested) context;
  granted_entries ← materialize_context_dependent_entries (permission_entries granted) context;
  let requested_policy := restricted requested_entries in
  let denies := from_context requested_policy context in
  let accepted := foldl push_missing []
    (filter (λ e, granted_file_system_entry_within_request requested requested_policy denies context e = true) granted_entries) in
  let es := retain_constraining_deny_entries requested_entries accepted context accepted in
  let es := retain_constraining_deny_entries granted_entries accepted context es in
  Some (mkFileSystemPermissions es
    (d ← merge_glob_scan_max_depth
           (retained_deny_entries requested_entries accepted context) (Pos.to_nat <$> permission_depth requested)
           (retained_deny_entries granted_entries accepted context) (Pos.to_nat <$> permission_depth granted);
     nonzero d)).

Definition intersect_permission_profiles_with_context (requested granted : AdditionalPermissionProfile)
    (context : PolicyContext) : AdditionalPermissionProfile :=
  let file_system :=
    requested_file_system ← file_system requested;
    intersect_file_systems requested_file_system
      (default (mkFileSystemPermissions [] None) (file_system granted)) context in
  mkAdditional
    (if grants_network (network requested) && grants_network (network granted) then network_granted else None)
    (option_filter (λ f, negb (file_system_is_empty f)) file_system).

(** ** The answer to a request for permissions *)

Inductive PermissionGrantScope := Turn | SessionScope.

Record RequestPermissionsResponse := mkResponse {
  permissions : AdditionalPermissionProfile;
  scope : PermissionGrantScope;
  strict_auto_review : bool
}.

Definition normalize_request_permissions_response (requested : AdditionalPermissionProfile)
    (response : RequestPermissionsResponse) (context : PolicyContext) : RequestPermissionsResponse :=
  if strict_auto_review response && match scope response with SessionScope => true | Turn => false end
  then mkResponse (mkAdditional None None) Turn false
  else if additional_is_empty (permissions response) then response
  else mkResponse (intersect_permission_profiles_with_context requested (permissions response) context)
         (scope response) (strict_auto_review response).
End transforms.
Arguments FileSystemPermissions : clear implicits.
Arguments AdditionalPermissionProfile : clear implicits.
Arguments RequestPermissionsResponse : clear implicits.
