(* ===== verification/PolicyTransformsFacts.v ===== *)
(** * Properties of additional permissions

    What limiting a grant to a request guarantees, how additional permissions
    combine with a policy, and that profiles survive the conversion to
    policies and back. *)

From S2P Require Import Prelude RustStr Permissions PermissionsFacts PolicyTransforms.

(** Containment of POSIX paths is an order whose lower sets are chains. *)
Class UriOrderLaws (PathUri : Type) `{!UriOps PathUri} : Prop := {
  posix_within_trans x a b : infer_path_convention x = Some Posix → infer_path_convention a = Some Posix →
    infer_path_convention b = Some Posix → is_within x a = true → is_within a b = true → is_within x b = true;
  posix_within_depth x a d d' : infer_path_convention x = Some Posix → infer_path_convention a = Some Posix →
    lexical_depth x = Some d → lexical_depth a = Some d' → is_within x a = true → d' ≤ d;
  posix_within_chain x a b d d' : infer_path_convention x = Some Posix → infer_path_convention a = Some Posix →
    infer_path_convention b = Some Posix → lexical_depth a = Some d → lexical_depth b = Some d' → d ≤ d' →
    is_within x a = true → is_within x b = true → is_within b a = true;
  posix_eqb_opaque p q : infer_path_convention q = Some Posix → uri_eqb p q = true → is_opaque p = is_opaque q
}.

Section facts.
Context {PathUri : Type} `{!UriOps PathUri}.
Implicit Types (e : FileSystemSandboxEntry PathUri) (es : list (FileSystemSandboxEntry PathUri))
  (p : FileSystemSandboxPolicy PathUri) (context : FileSystemSandboxPolicyContext PathUri).

(** ** Materialised entries mean the same *)

Definition resolved context es : list (PathUri * FileSystemAccessMode) := concat (resolved_entry context <$> es).

Lemma resolved_app context es es' : resolved context (es ++ es') = resolved context es ++ resolved context es'.
Proof. unfold resolved. by rewrite fmap_app, concat_app. Qed.

(** The place an entry stands for, if the context gives it one. *)
Lemma resolved_paths_list context (paths : list PathUri) e :
  resolved context (materialized_path_entry e <$> paths)
  = (λ path, (path, access e)) <$> filter (λ path, infer_path_convention path = infer_path_convention (cwd context)) paths.
Proof.
  induction paths as [|path paths IH]; [done|]. unfold resolved in *. cbn [fmap list_fmap concat]. rewrite IH.
  unfold resolved_entry at 1. cbn [materialized_path_entry entry_path access resolved_paths].
  rewrite !filter_cons. cbn [filter]. by case_decide.
Qed.

Lemma project_root_entries_resolved context e subpath roots l :
  entry_path e = Special (ProjectRoots subpath) → project_root_entries e context roots = Some l →
  l = materialized_path_entry e <$> omap (λ root, match subpath with Some s => Permissions.join root s | None => Some root end) roots.
Proof.
  intros He. revert l. induction roots as [|root roots IH]; intros l; cbn [project_root_entries omap list_omap].
  { by intros [= <-]. }
  rewrite He. cbn [resolve_permission_path workspace_roots head mbind option_bind].
  destruct (match subpath with Some s => Permissions.join root s | None => Some root end) as [path|].
  - intros (rest & Hrest & [= <-])%bind_Some. cbn [fmap list_fmap]. by rewrite (IH rest).
  - destruct (is_deny e); [done|]. apply IH.
Qed.

Lemma materialize_one_resolved context e l : materialize_context_dependent_entry e context = Some l →
  resolved context l = resolved_entry context e.
Proof.
  unfold materialize_context_dependent_entry.
  assert (∀ e', access e' = access e → resolved_paths context (entry_path e') = resolved_paths context (entry_path e) →
    resolved context [e'] = resolved_entry context e) as Hsame.
  { intros e' Ha Hp. unfold resolved, resolved_entry. cbn [fmap list_fmap concat]. by rewrite app_nil_r, Ha, Hp. }
  assert (resolved context [e] = resolved_entry context e) as Hself by by apply Hsame.
  destruct (entry_path e) as [path|pattern|[| |subpath| | |]] eqn:He; cbn [materialize_cwd_dependent_entry].
  - unfold materialize_cwd_dependent_entry. rewrite He. intros [= <-]. exact Hself.
  - unfold materialize_cwd_dependent_entry. rewrite He. destruct (mbind _ _) as [e'|] eqn:Hm.
    + intros [= <-]. apply bind_Some in Hm as ([root q] & _ & (path & _ & [= <-])%bind_Some). by apply Hsame.
    + destruct (is_deny e); [done|]. intros [= <-]. unfold resolved_entry. by rewrite He.
  - intros (root & _ & [= <-])%bind_Some. exact Hself.
  - unfold materialize_cwd_dependent_entry. rewrite He. intros [= <-]. exact Hself.
  - intros (l' & Hl & H)%bind_Some. apply (project_root_entries_resolved _ _ subpath) in Hl; [|done].
    destruct (is_deny e && is_empty l'); [done|]. injection H as <-. rewrite Hl, resolved_paths_list.
    unfold resolved_entry. by rewrite He.
  - destruct (temporary_directories context) as [dirs|] eqn:Hdirs.
    + intros [= <-]. rewrite resolved_paths_list. unfold resolved_entry. rewrite He. cbn [resolved_paths]. by rewrite Hdirs.
    + destruct (is_deny e); [done|]. intros [= <-]. exact Hself.
  - unfold materialize_cwd_dependent_entry. rewrite He. intros [= <-]. exact Hself.
  - unfold materialize_cwd_dependent_entry. rewrite He. intros [= <-]. exact Hself.
Qed.

(** Materialising entries changes nothing for the paths they cover. *)
Lemma materialize_resolved context es l : materialize_context_dependent_entries es context = Some l →
  resolved context l = resolved context es.
Proof.
  revert l. induction es as [|e es IH]; intros l; cbn [materialize_context_dependent_entries].
  { by intros [= <-]. }
  intros (first & Hfirst & (rest & Hrest & [= <-])%bind_Some)%bind_Some.
  rewrite resolved_app, (materialize_one_resolved _ _ _ Hfirst), (IH rest Hrest). done.
Qed.

(** An entry in its context stands for at most one place, the one
    [resolve_permission_path] finds. *)
Definition names_one context e : Prop :=
  ∀ r, r ∈ resolved_paths context (entry_path e) → resolve_permission_path (entry_path e) context = Some r.

Lemma names_one_path context path e : entry_path e = Path path → names_one context e.
Proof. intros He r. rewrite He. by intros ->%list_elem_of_singleton. Qed.

Lemma materialize_one_single context e l e' : materialize_context_dependent_entry e context = Some l → e' ∈ l →
  names_one context e'.
Proof.
  unfold materialize_context_dependent_entry.
  assert (∀ x : FileSystemSandboxEntry PathUri, e' ∈ [x] → names_one context x → names_one context e') as Hsingle
    by by intros x ->%list_elem_of_singleton.
  assert (∀ paths : list PathUri, e' ∈ materialized_path_entry e <$> paths → names_one context e') as Hpaths.
  { intros paths (path & -> & _)%list_elem_of_fmap. by eapply names_one_path. }
  assert (∀ x, entry_path e = Special x → x = Minimal ∨ x = Root ∨ x = SlashTmp ∨ (∃ a b, x = Unknown a b) ∨
    (x = Tmpdir ∧ temporary_directories context = None) → names_one context e) as Hspecial.
  { intros x He Hx r. rewrite He.
    destruct Hx as [->|[->|[->|[(a & b & ->)|[-> Hdirs]]]]]; cbn [resolved_paths resolve_permission_path].
    - by intros ?%elem_of_nil.
    - destruct (file_system_root context); [by intros ->%list_elem_of_singleton|by intros ?%elem_of_nil].
    - case_bool_decide; [|by intros ?%elem_of_nil].
      destruct (Permissions.join (cwd context) _); [by intros ->%list_elem_of_singleton|by intros ?%elem_of_nil].
    - by intros ?%elem_of_nil.
    - rewrite Hdirs. by intros ?%elem_of_nil. }
  destruct (entry_path e) as [path|pattern|[| |subpath| | |]] eqn:He; unfold materialize_cwd_dependent_entry; rewrite ?He.
  - intros [= <-] Hin. apply (Hsingle e Hin). by eapply names_one_path.
  - destruct (mbind _ _) as [x|] eqn:Hm.
    + intros [= <-] Hin. apply (Hsingle x Hin). apply bind_Some in Hm as ([root q] & _ & (path & _ & [= <-])%bind_Some).
      intros r Hr. by apply elem_of_nil in Hr.
    + destruct (is_deny e); [done|]. by intros [= <-] ?%elem_of_nil.
  - intros (root & _ & [= <-])%bind_Some Hin. apply (Hsingle e Hin). eapply Hspecial; [done|auto].
  - intros [= <-] Hin. apply (Hsingle e Hin). eapply Hspecial; [done|auto].
  - intros (l' & Hl & H)%bind_Some Hin. apply (project_root_entries_resolved _ _ subpath) in Hl; [|done].
    destruct (is_deny e && is_empty l'); [done|]. injection H as <-. subst l'. by eapply Hpaths.
  - destruct (temporary_directories context) as [dirs|] eqn:Hdirs; [intros [= <-]; apply Hpaths|].
    destruct (is_deny e); [done|]. intros [= <-] Hin. apply (Hsingle e Hin). eapply Hspecial; [done|auto 6].
  - intros [= <-] Hin. apply (Hsingle e Hin). eapply Hspecial; [done|auto].
  - intros [= <-] Hin. apply (Hsingle e Hin). eapply Hspecial; [done|]. do 3 right. left. by eexists _, _.
Qed.

Lemma materialize_single context es l e : materialize_context_dependent_entries es context = Some l → e ∈ l →
  names_one context e.
Proof.
  revert l. induction es as [|x es IH]; intros l; cbn [materialize_context_dependent_entries].
  { by intros [= <-] ?%elem_of_nil. }
  intros (first & Hfirst & (rest & Hrest & [= <-])%bind_Some)%bind_Some [He|He]%elem_of_app; [|by eapply IH].
  by eapply materialize_one_single.
Qed.

Lemma materialize_decides context es l path m d k g k' g' : materialize_context_dependent_entries es context = Some l →
  decides (mkPolicy k g l) context path m d ↔ decides (mkPolicy k' g' es) context path m d.
Proof.
  intros Hl. apply materialize_resolved in Hl. unfold decides. unfold resolved_entries. cbn [entries].
  by setoid_rewrite Hl.
Qed.

(** ** Limiting a grant *)

Section limit.
Context `{!UriLaws PathUri, !UriOrderLaws PathUri}.
Context (context : FileSystemSandboxPolicyContext PathUri) (Hcwd : infer_path_convention (cwd context) = Some Posix).

Lemma overlap_covers x a b : infer_path_convention x = Some Posix → infer_path_convention a = Some Posix →
  infer_path_convention b = Some Posix → is_Some (lexical_depth a) → is_Some (lexical_depth b) →
  is_within x a = true → is_within x b = true → paths_overlap a b = true.
Proof.
  intros Hx Ha Hb [d Hd] [d' Hd'] Hwa Hwb. unfold paths_overlap, overlaps. destruct (uri_eqb a b); [done|]. rewrite Hd, Hd'. cbn.
  destruct (decide (d ≤ d')) as [Hle|Hle].
  - rewrite (posix_within_chain x a b d d') by done. apply orb_true_r.
  - by rewrite (posix_within_chain x b a d' d) by (done || lia).
Qed.

(** A denial that covers a path with an accepted entry is retained. *)
Lemma covering_deny_retained x f e accepted rf re :
  infer_path_convention x = Some Posix → access f = Deny → names_one context f → names_one context e → e ∈ accepted →
  can_read (access e) = true →
  rf ∈ resolved_paths context (entry_path f) → infer_path_convention rf = Some Posix → is_Some (lexical_depth rf) → is_within x rf = true →
  re ∈ resolved_paths context (entry_path e) → infer_path_convention re = Some Posix → is_Some (lexical_depth re) → is_within x re = true →
  deny_entry_constrains_accepted_grant f accepted context = true.
Proof.
  intros Hx Ha Hf He Hin Hread Hrf Hrfc Hrfd Hwf Hre Hrec Hred Hwe. apply existsb_exists. exists e.
  split; [by apply list_elem_of_In|]. rewrite Hread. cbn [andb]. unfold deny_entry_constrains. rewrite (He re Hre).
  destruct (is_root_entry e); [done|]. pose proof (Hf rf Hrf) as Hfr.
  destruct (entry_path f) as [q|pattern|v] eqn:Hpf; [|by apply elem_of_nil in Hrf|]; rewrite Hfr; by apply (overlap_covers x).
Qed.

(** Where a policy allows a place but denies a path below it, a denial lies
    strictly between. *)
Lemma denial_between p r x d l : kind p = Restricted → with_depths (resolved_entries p context) = Some l →
  posix_context context r → posix_context context x → lexical_depth r = Some d → is_within x r = true →
  can_read (resolve_access p r context) = true → resolve_access p x context = Deny →
  ∃ d', d < d' ∧ decides p context x Deny d'.
Proof.
  intros Hk Hl Hr Hx Hd Hw Hread Hdeny.
  assert (∀ y, posix_context context y → comparable y context = true) as Hcmp.
  { intros y (H1 & H2 & H3 & H4). unfold comparable. by rewrite H1, H3, !bool_decide_true. }
  assert (is_Some (infer_path_convention (cwd context))) as Hconv by (by rewrite Hcwd).
  pose proof Hr as (_ & _ & Hrc & _). pose proof Hx as (_ & _ & Hxc & _).
  destruct (resolve_access_spec p context r l Hk (Hcmp r Hr) Hconv Hl) as [(w & dw & Hrw & Hdw & Hmaxr)|[Hrw _]];
    [|by rewrite Hrw in Hread].
  rewrite Hrw in Hread. pose proof Hdw as (ew & rw & Hew & Haw & Hprw & Hrwc & Hrwd & Hwrw)%decides_entry. rewrite Hcwd in Hrwc.
  assert (decides p context x w dw) as Hxw.
  { apply decides_entry. exists ew, rw. rewrite Hcwd. split_and!; try done. by apply (posix_within_trans x r rw). }
  assert (dw ≤ d) as Hle by (by apply (posix_within_depth r rw d dw)).
  destruct (resolve_access_spec p context x l Hk (Hcmp x Hx) Hconv Hl) as [(v & dv & Hxv & Hdv & Hmaxx)|[_ Hno]];
    [|by destruct (Hno _ _ Hxw)].
  rewrite Hdeny in Hxv. subst v. exists dv. split; [|done]. destruct (decide (dv ≤ d)) as [Hdvd|]; [exfalso|lia].
  assert (decides p context r Deny dv) as Hrdeny.
  { apply decides_entry in Hdv as (f & rf & Hf & Ha & Hprf & Hrfc & Hrfd & Hwrf). rewrite Hcwd in Hrfc.
    apply decides_entry. exists f, rf. rewrite Hcwd. split_and!; try done. by apply (posix_within_chain x rf r dv d). }
  pose proof (Hmaxr _ _ Hrdeny) as H1. pose proof (Hmaxx _ _ Hxw) as H2. revert H1 H2. unfold key_le. cbn [fst snd].
  rewrite !orb_true_iff, !andb_true_iff, !Nat.ltb_lt, !Nat.eqb_eq, !Nat.leb_le.
  intros H1 H2. assert (dv = dw) as -> by lia. destruct w; [cbn in H1; lia..|done].
Qed.

(** *** The result *)

Context (requested : FileSystemPermissions PathUri) (rm gm : list (FileSystemSandboxEntry PathUri))
  (denies : option (PathUri → bool)).
Context (Hrm : ∀ e, e ∈ rm → names_one context e) (Hgm : ∀ e, e ∈ gm → names_one context e).

Definition accepted_entries : list (FileSystemSandboxEntry PathUri) :=
  foldl push_missing [] (filter (λ e, granted_file_system_entry_within_request requested (restricted rm) denies context e = true) gm).
Definition result_entries : list (FileSystemSandboxEntry PathUri) :=
  retain_constraining_deny_entries gm accepted_entries context
    (retain_constraining_deny_entries rm accepted_entries context accepted_entries).

Lemma accepted_elem e : e ∈ accepted_entries →
  e ∈ gm ∧ granted_file_system_entry_within_request requested (restricted rm) denies context e = true.
Proof.
  unfold accepted_entries. destruct (push_missing_app [] (filter (λ e, granted_file_system_entry_within_request
    requested (restricted rm) denies context e = true) gm)) as (k & -> & Hk).
  intros He%Hk. by apply list_elem_of_filter in He as [? ?].
Qed.

Lemma result_decides x m d : decides (restricted result_entries) context x m d ↔
  decides (restricted accepted_entries) context x m d ∨
  decides (restricted (retained_deny_entries rm accepted_entries context)) context x m d ∨
  decides (restricted (retained_deny_entries gm accepted_entries context)) context x m d.
Proof.
  unfold result_entries, retain_constraining_deny_entries, restricted. rewrite !push_missing_decides by done. tauto.
Qed.

Lemma retained_decides source x m d : decides (restricted (retained_deny_entries source accepted_entries context)) context x m d →
  m = Deny.
Proof.
  intros (e & r & He & <- & _)%decides_entry. apply list_elem_of_filter in He as [[He _]%andb_true_iff _].
  by apply bool_decide_eq_true in He.
Qed.

(** A readable path of the result has a deepest accepted entry. *)
Lemma result_readable x : posix_context context x → can_read (resolve_access (restricted result_entries) x context) = true →
  ∃ e r d, e ∈ accepted_entries ∧ r ∈ resolved_paths context (entry_path e) ∧ posix_context context r ∧
    lexical_depth r = Some d ∧ is_within x r = true ∧
    resolve_access (restricted result_entries) x context = access e ∧ can_read (access e) = true ∧
    ∀ m' d', decides (restricted result_entries) context x m' d' → key_le (m', d') (access e, d) = true.
Proof.
  intros Hx Hread. pose proof Hx as (_ & Hcd & Hxc & Hxd). set (X := restricted result_entries) in *.
  assert (comparable x context = true) as Hcmp by (unfold comparable; by rewrite Hcwd, Hxc, !bool_decide_true).
  destruct (with_depths (resolved_entries X context)) as [l|] eqn:Hl;
    [|by rewrite (resolve_access_deny X context x eq_refl) in Hread; [|right; right]].
  destruct (resolve_access_spec X context x l eq_refl Hcmp ltac:(by rewrite Hcwd) Hl) as [(m & d & Hm & Hd & Hmax)|[Hm _]];
    [|by rewrite Hm in Hread].
  rewrite Hm in Hread. apply result_decides in Hd as [Hd|[Hd|Hd]];
    [|apply retained_decides in Hd; by rewrite Hd in Hread|apply retained_decides in Hd; by rewrite Hd in Hread].
  apply decides_entry in Hd as (e & r & He & Ha & Hr & Hrc & Hrd & Hw). rewrite Hcwd in Hrc. rewrite Hm, <- Ha in *.
  exists e, r, d. split_and!; try done.
Qed.

(** What it took to accept an entry with a place. *)
Lemma accepted_covers e r : e ∈ accepted_entries → r ∈ resolved_paths context (entry_path e) →
  infer_path_convention r = Some Posix →
  can_read (access e) = true ∧ is_some_and (λ denies, denies r) denies = false ∧
  access_covers (resolve_access (restricted rm) r context) (access e) = true.
Proof.
  intros He Hr Hrc. apply accepted_elem in He as [Hin Hwithin]. unfold granted_file_system_entry_within_request in Hwithin.
  destruct (_ || _) eqn:Hfirst; [done|]. apply orb_false_iff in Hfirst as [Hread%negb_false_iff _].
  rewrite Hcwd in Hwithin. cbn [andb] in Hwithin.
  rewrite bool_decide_false in Hwithin by done. cbn [andb] in Hwithin. rewrite (Hgm e Hin r Hr) in Hwithin.
  rewrite Hrc, bool_decide_true in Hwithin by done. cbn [negb orb] in Hwithin. by destruct (is_some_and _ _).
Qed.

Lemma entry_accepted e r : e ∈ gm → r ∈ resolved_paths context (entry_path e) → infer_path_convention r = Some Posix →
  can_read (access e) = true → is_some_and (λ denies, denies r) denies = false →
  access_covers (resolve_access (restricted rm) r context) (access e) = true →
  granted_file_system_entry_within_request requested (restricted rm) denies context e = true.
Proof.
  intros He Hr Hrc Hread Hden Hcov. unfold granted_file_system_entry_within_request. rewrite Hread, Hcwd. cbn [negb orb].
  assert (match entry_path e with Special SlashTmp => negb (bool_decide (Some Posix = Some Posix)) | _ => false end = false) as ->
    by (by destruct (entry_path e) as [| |[]]).
  rewrite bool_decide_false by done. cbn [andb]. rewrite (Hgm e He r Hr), Hrc, bool_decide_true by done. by rewrite Hden.
Qed.

Lemma covers_readable a b : access_covers a b = true → can_read a = true.
Proof. destruct b; cbn; [done| |done]. intros ->%bool_decide_eq_true. done. Qed.

(** The denials of either side that cover the path are in the result. *)
Lemma deny_in_result source x e r d d' : source = rm ∨ source = gm → posix_context context x →
  e ∈ accepted_entries → can_read (access e) = true → r ∈ resolved_paths context (entry_path e) →
  infer_path_convention r = Some Posix → lexical_depth r = Some d → is_within x r = true →
  decides (restricted source) context x Deny d' → decides (restricted result_entries) context x Deny d'.
Proof.
  intros Hsource (_ & _ & Hxc & _) He Hread Hr Hrc Hrd Hw (f & rf & Hf & Ha & Hrf & Hrfc & Hrfd & Hwf)%decides_entry.
  rewrite Hcwd in Hrfc. pose proof (accepted_elem _ He) as [Heg _].
  assert (names_one context f) as Hone by (destruct Hsource as [->| ->]; [by apply Hrm|by apply Hgm]).
  assert (f ∈ retained_deny_entries source accepted_entries context) as Hret.
  { apply list_elem_of_filter. split; [|done]. apply andb_true_iff. split; [by apply bool_decide_eq_true|].
    by apply (covering_deny_retained x f e accepted_entries rf r Hxc Ha Hone (Hgm e Heg)); eauto. }
  apply result_decides. right. destruct Hsource as [->| ->]; [left|right]; apply decides_entry; exists f, rf; by rewrite Hcwd.
Qed.

Lemma result_within_request x : posix_context context x →
  can_read (resolve_access (restricted result_entries) x context) = true →
  can_read (resolve_access (restricted rm) x context) = true.
Proof.
  intros Hx Hread. destruct (result_readable x Hx Hread) as (e & r & d & He & Hr & Hrctx & Hrd & Hw & _ & Hre & Hmax).
  pose proof Hrctx as (_ & _ & Hrc & _). destruct (accepted_covers e r He Hr Hrc) as (_ & _ & Hcov%covers_readable).
  destruct (with_depths (resolved_entries (restricted rm) context)) as [l|] eqn:Hl;
    [|by rewrite (resolve_access_deny (restricted rm) context r eq_refl) in Hcov; [|right; right]].
  apply negb_true_iff, bool_decide_eq_false. intros Hdeny.
  destruct (denial_between (restricted rm) r x d l eq_refl Hl Hrctx Hx Hrd Hw Hcov Hdeny) as (d' & Hlt & Hdec).
  apply (deny_in_result rm x e r d) in Hdec; try done; [|by left]. apply Hmax in Hdec. revert Hdec.
  unfold key_le. cbn [fst snd]. rewrite orb_true_iff, andb_true_iff, Nat.ltb_lt, Nat.eqb_eq. lia.
Qed.

(** An entry gives [m] to the place [q]. *)
Definition decides_at (es : list (FileSystemSandboxEntry PathUri)) (q : PathUri) (m : FileSystemAccessMode) : Prop :=
  ∃ e, e ∈ es ∧ access e = m ∧ q ∈ resolved_paths context (entry_path e).

Lemma result_within_grant x : posix_context context x → is_Some (with_depths (resolved_entries (restricted gm) context)) →
  can_read (resolve_access (restricted result_entries) x context) = true →
  can_read (resolve_access (restricted gm) x context) = true ∧
  (can_write (resolve_access (restricted result_entries) x context) = true →
   can_write (resolve_access (restricted gm) x context) = true ∨
   ∃ q, decides_at gm q Read ∧ is_some_and (λ denies, denies q) denies = true ∧ is_within x q = true).
Proof.
  intros Hx [l Hl] Hread. destruct (result_readable x Hx Hread) as (e & r & d & He & Hr & Hrctx & Hrd & Hw & Hacc & Hre & Hmax).
  pose proof Hrctx as (_ & _ & Hrc & _). pose proof (accepted_elem _ He) as [Heg _]. pose proof Hx as (_ & Hcd & Hxc & Hxd).
  assert (comparable x context = true) as Hcmp by (unfold comparable; by rewrite Hcwd, Hxc, !bool_decide_true).
  assert (decides (restricted gm) context x (access e) d) as Hdec by (apply decides_entry; exists e, r; by rewrite Hcwd).
  destruct (resolve_access_spec (restricted gm) context x l eq_refl Hcmp ltac:(by rewrite Hcwd) Hl) as [(v & dv & Hv & Hdv & Hmaxg)|[_ Hno]];
    [|by destruct (Hno _ _ Hdec)].
  rewrite Hv, Hacc. pose proof (Hmaxg _ _ Hdec) as Hle.
  assert (v ≠ Deny) as Hne.
  { intros ->. apply (deny_in_result gm x e r d) in Hdv; try done; [|by right]. apply Hmax in Hdv. revert Hdv Hle. unfold key_le.
    cbn [fst snd]. rewrite !orb_true_iff, !andb_true_iff, !Nat.ltb_lt, !Nat.eqb_eq, !Nat.leb_le. intros.
    destruct (access e); [cbn in *; lia..|done]. }
  split; [by apply negb_true_iff, bool_decide_eq_false|].
  intros Hwrite%bool_decide_eq_true. destruct v; [|by left|done]. rewrite Hwrite in *.
  assert (d < dv) as Hlt.
  { revert Hle. unfold key_le. cbn [fst snd]. rewrite orb_true_iff, andb_true_iff, Nat.ltb_lt. intros [?|[_ ?]]; [lia|done]. }
  apply decides_entry in Hdv as (g & rg & Hg & Hga & Hrg & Hrgc & Hrgd & Hwg). rewrite Hcwd in Hrgc.
  destruct (is_some_and (λ denies, denies rg) denies) eqn:Hden; [right; exists rg; split_and!; [by exists g|done..]|]. exfalso.
  assert (posix_context context rg) as Hrgctx by (split_and!; try done; by rewrite Hrgd).
  assert (is_within rg r = true) as Hin by (by apply (posix_within_chain x r rg d dv); try lia).
  assert (can_read (resolve_access (restricted rm) rg context) = true) as Hrgread.
  { apply negb_true_iff, bool_decide_eq_false. intros Hdeny.
    destruct (accepted_covers e r He Hr Hrc) as (_ & _ & Hcov%covers_readable).
    destruct (with_depths (resolved_entries (restricted rm) context)) as [k|] eqn:Hk;
      [|by rewrite (resolve_access_deny (restricted rm) context r eq_refl) in Hcov; [|right; right]].
    destruct (denial_between (restricted rm) r rg d k eq_refl Hk Hrctx Hrgctx Hrd Hin Hcov Hdeny) as (d' & Hlt' & Hdec').
    assert (decides (restricted rm) context x Deny d') as Hx'.
    { apply decides_entry in Hdec' as (f & rf & Hf & Ha & Hprf & Hrfc & Hrfd & Hwf). rewrite Hcwd in Hrfc. apply decides_entry.
      exists f, rf. rewrite Hcwd. split_and!; try done. by apply (posix_within_trans x rg rf). }
    apply (deny_in_result rm x e r d) in Hx'; try done; [|by left|by rewrite Hwrite]. apply Hmax in Hx'. revert Hx'. unfold key_le. cbn [fst snd].
    rewrite orb_true_iff, andb_true_iff, Nat.ltb_lt, Nat.eqb_eq. lia. }
  assert (granted_file_system_entry_within_request requested (restricted rm) denies context g = true) as Hok.
  { apply (entry_accepted g rg Hg Hrg Hrgc); [by rewrite Hga|done|]. by rewrite Hga. }
  assert (decides (restricted accepted_entries) context x Read dv) as Haccdec.
  { unfold accepted_entries, restricted. apply push_missing_decides; [done|]. right. apply decides_entry. exists g, rg.
    rewrite Hcwd. split_and!; try done. by apply list_elem_of_filter. }
  assert (decides (restricted result_entries) context x Read dv) as Hresdec by (apply result_decides; by left).
  apply Hmax in Hresdec. revert Hresdec. unfold key_le. cbn [fst snd].
  rewrite orb_true_iff, andb_true_iff, Nat.ltb_lt, Nat.eqb_eq. lia.
Qed.
End limit.

Lemma materialize_access context es l x : materialize_context_dependent_entries es context = Some l →
  resolve_access (restricted l) x context = resolve_access (restricted es) x context.
Proof.
  intros Hl%materialize_resolved. unfold resolve_access. cbn [kind restricted].
  change (resolved_entries (restricted l) context) with (resolved context l).
  change (resolved_entries (restricted es) context) with (resolved context es). by rewrite Hl.
Qed.
End facts.

(** The policy of the file system permissions of a profile. *)
Definition additional_policy {PathUri} (a : AdditionalPermissionProfile PathUri) : FileSystemSandboxPolicy PathUri :=
  restricted (match file_system a with Some f => permission_entries f | None => [] end).

(** The denials of a request cover [q]. *)
Definition denied_by_request {PathUri} `{!UriOps PathUri}
    (prepare : FileSystemSandboxPolicy PathUri → FileSystemSandboxPolicyContext PathUri → option (PathUri → bool))
    (requested : AdditionalPermissionProfile PathUri) context (q : PathUri) : Prop :=
  ∃ f es denies, file_system requested = Some f ∧ materialize_context_dependent_entries (permission_entries f) context = Some es ∧
    from_context prepare (restricted es) context = Some denies ∧ denies q = true.

(** An entry of a grant gives [m] to the place [q]. *)
Definition granted_at {PathUri} `{!UriOps PathUri} (granted : AdditionalPermissionProfile PathUri) context (q : PathUri)
    (m : FileSystemAccessMode) : Prop :=
  ∃ es, materialize_context_dependent_entries (entries (additional_policy granted)) context = Some es ∧ decides_at context es q m.

(** The intersection of a request and a grant is within both. *)
Lemma intersection_within {PathUri} `{!UriOps PathUri, !UriLaws PathUri, !UriOrderLaws PathUri}
    (prepare : FileSystemSandboxPolicy PathUri → FileSystemSandboxPolicyContext PathUri → option (PathUri → bool))
    (requested granted : AdditionalPermissionProfile PathUri) (context : FileSystemSandboxPolicyContext PathUri) (path : PathUri)
    (Hposix : posix_context context path)
    (Hcomparable : is_Some (with_depths (resolved_entries (additional_policy granted) context))) :
  let result := intersect_permission_profiles_with_context prepare requested granted context in
  (can_read (resolve_access (additional_policy result) path context) = true →
     can_read (resolve_access (additional_policy requested) path context) = true ∧
     can_read (resolve_access (additional_policy granted) path context) = true) ∧
  (can_write (resolve_access (additional_policy result) path context) = true →
     can_write (resolve_access (additional_policy granted) path context) = true ∨
     ∃ q, granted_at granted context q Read ∧ denied_by_request prepare requested context q ∧ is_within path q = true) ∧
  (grants_network (network result) = true → grants_network (network requested) = true ∧ grants_network (network granted) = true).
Proof.
  intros result. pose proof Hposix as (Hcwd & _).
  assert (can_read (resolve_access (additional_policy result) path context) = true →
    can_read (resolve_access (additional_policy requested) path context) = true ∧
    can_read (resolve_access (additional_policy granted) path context) = true ∧
    (can_write (resolve_access (additional_policy result) path context) = true →
     can_write (resolve_access (additional_policy granted) path context) = true ∨
     ∃ q, granted_at granted context q Read ∧ denied_by_request prepare requested context q ∧ is_within path q = true)) as Hmain.
  { unfold result, intersect_permission_profiles_with_context, additional_policy at 1 4. cbn [file_system].
    assert (can_read (resolve_access (restricted []) path context) = false) as Hnone.
    { unfold resolve_access. cbn. repeat case_match; done. }
    destruct (file_system requested) as [fr|] eqn:Hfr; cbn [mbind option_bind option_filter]; [|by rewrite Hnone].
    destruct (intersect_file_systems _ _ _ _) as [f|] eqn:Hf; cbn [option_filter]; [|by rewrite Hnone].
    destruct (file_system_is_empty f); cbn [negb]; [by rewrite Hnone|].
    unfold intersect_file_systems in Hf. apply bind_Some in Hf as (rm & Hrm & (gm & Hgm & [= <-])%bind_Some).
    cbn [permission_entries]. unfold additional_policy. rewrite Hfr.
    set (G := match file_system granted with Some f => permission_entries f | None => [] end).
    assert (permission_entries (default (mkFileSystemPermissions [] None) (file_system granted)) = G) as HG.
    { unfold G. by destruct (file_system granted). }
    rewrite HG in Hgm. rewrite <- (materialize_access context _ _ path Hrm), <- (materialize_access context _ _ path Hgm).
    pose proof (λ e, materialize_single context _ _ e Hrm) as Hrm1. pose proof (λ e, materialize_single context _ _ e Hgm) as Hgm1.
    intros Hread. split; [by apply (result_within_request context Hcwd fr rm gm (from_context prepare (restricted rm) context))|].
    assert (is_Some (with_depths (resolved_entries (restricted gm) context))) as Hc.
    { change (resolved_entries (restricted gm) context) with (resolved context gm). by rewrite (materialize_resolved _ _ _ Hgm). }
    destruct (result_within_grant context Hcwd fr rm gm (from_context prepare (restricted rm) context) Hrm1 Hgm1 path Hposix Hc Hread) as [H1 H2].
    split; [done|]. intros Hw. destruct (H2 Hw) as [?|(q & Hgq & Hq & Hwq)]; [by left|right].
    destruct (from_context prepare (restricted rm) context) as [denies|] eqn:Hden; [|done].
    exists q. split_and!; [by exists gm|by exists fr, rm, denies|done]. }
  split_and!.
  - intros H. by destruct (Hmain H) as (? & ? & _).
  - intros H. destruct (Hmain) as (_ & _ & Hw); [|by apply Hw]. by apply bool_decide_eq_true in H as ->.
  - unfold result, intersect_permission_profiles_with_context. cbn [network].
    destruct (grants_network (network requested)), (grants_network (network granted)); done.
Qed.

(** C29: What the user's answer to a request for permissions grants is limited to
    what was asked for: on POSIX paths, and if the places the answer names can
    be compared by their depth, whatever can be read with the recorded
    permissions can be read under the request and under the answer, and
    whatever can be written can be written under the answer, with one
    exception: below a place the answer lets be read only, if the request's
    own denials cover this place; the network is granted only if it was both
    requested and granted; and permissions granted under strict review never
    last for the session. *)
Theorem response_within_request {PathUri} `{!UriOps PathUri, !UriLaws PathUri, !UriOrderLaws PathUri}
    (prepare : FileSystemSandboxPolicy PathUri → FileSystemSandboxPolicyContext PathUri → option (PathUri → bool))
    (requested : AdditionalPermissionProfile PathUri) (response : RequestPermissionsResponse PathUri)
    (context : FileSystemSandboxPolicyContext PathUri) (path : PathUri)
    (Hposix : posix_context context path)
    (Hcomparable : is_Some (with_depths (resolved_entries (additional_policy (permissions response)) context))) :
  let recorded := normalize_request_permissions_response prepare requested response context in
  let result := permissions recorded in let granted := permissions response in
  (can_read (resolve_access (additional_policy result) path context) = true →
     can_read (resolve_access (additional_policy requested) path context) = true ∧
     can_read (resolve_access (additional_policy granted) path context) = true) ∧
  (can_write (resolve_access (additional_policy result) path context) = true →
     can_write (resolve_access (additional_policy granted) path context) = true ∨
     ∃ q, granted_at granted context q Read ∧ denied_by_request prepare requested context q ∧ is_within path q = true) ∧
  (grants_network (network result) = true → grants_network (network requested) = true ∧ grants_network (network granted) = true) ∧
  (strict_auto_review recorded = true → scope recorded = Turn).
Proof.
  assert (∀ a : AdditionalPermissionProfile PathUri, additional_is_empty a = true →
    resolve_access (additional_policy a) path context = Deny ∧ grants_network (network a) = false) as Hempty.
  { intros [[n|] [f|]]; try done. intros _. split; [|done]. unfold resolve_access. cbn. by repeat case_match. }
  intros recorded. unfold recorded, normalize_request_permissions_response.
  destruct (strict_auto_review response) eqn:Hstrict, (scope response) eqn:Hscope; cbn [andb].
  2: { destruct (Hempty (mkAdditional None None) eq_refl) as [H1 H2]. cbn [permissions]. by rewrite H1, H2. }
  all: destruct (additional_is_empty (permissions response)) eqn:He;
    [destruct (Hempty _ He) as [H1 H2]; cbv zeta; rewrite H1, H2, ?Hstrict, ?Hscope; done|cbn [permissions strict_auto_review scope]].
  all: destruct (intersection_within prepare requested (permissions response) context path Hposix Hcomparable) as (? & ? & ?).
  all: cbv zeta; rewrite ?Hstrict, ?Hscope; split_and!; done.
Qed.

(** ** Adding permissions *)

Section effective.
Context {PathUri : Type} `{!UriOps PathUri, !UriLaws PathUri}.
Implicit Types (p : FileSystemSandboxPolicy PathUri) (a : AdditionalPermissionProfile PathUri)
  (context : FileSystemSandboxPolicyContext PathUri).

(** What additional permissions add is decided with what the policy has. *)
Lemma effective_decides p a context x m d : kind p = Restricted → infer_path_convention (cwd context) = Some Posix →
  decides (effective_file_system_sandbox_policy p (Some a)) context x m d ↔
  decides p context x m d ∨ decides (additional_policy a) context x m d.
Proof.
  intros Hk Hcwd. unfold effective_file_system_sandbox_policy, additional_policy. cbn [mbind option_bind].
  assert (∀ q, ¬ decides (restricted []) q x m d) as Hnone by (by intros q (e & ? & ?%elem_of_nil & _)%decides_entry).
  destruct (file_system a) as [f|]; [|split; [by left|by intros [?|?%Hnone]]].
  unfold file_system_is_empty. destruct (permission_entries f) as [|e es] eqn:Hf; cbn [is_empty].
  { split; [by left|by intros [?|?%Hnone]]. }
  unfold merge_file_system_policy_with_additional_permissions. rewrite Hk, Hf, push_missing_decides by done.
  unfold restricted. rewrite !decides_entry. done.
Qed.

Lemma effective_entries p a : kind p = Restricted → ∃ k, entries (effective_file_system_sandbox_policy p (Some a)) = entries p ++ k.
Proof.
  intros Hk. unfold effective_file_system_sandbox_policy. cbn [mbind option_bind].
  destruct (file_system a) as [f|]; [|exists []; by rewrite app_nil_r]. destruct (file_system_is_empty f); [exists []; by rewrite app_nil_r|].
  unfold merge_file_system_policy_with_additional_permissions. rewrite Hk. cbn [entries].
  destruct (push_missing_app (entries p) (permission_entries f)) as (k & -> & _). by exists k.
Qed.

Lemma effective_kind p additional : kind (effective_file_system_sandbox_policy p additional) = kind p.
Proof.
  unfold effective_file_system_sandbox_policy. destruct (mbind _ _) as [f|]; [|done]. destruct (file_system_is_empty f); [done|].
  unfold merge_file_system_policy_with_additional_permissions. by destruct (kind p) eqn:Hk; cbn.
Qed.

Lemma nonzero_pos (d : option positive) : (n ← Pos.to_nat <$> d; nonzero n) = d.
Proof.
  destruct d as [d|]; [|done]. cbn. unfold nonzero. destruct (Pos.to_nat d) eqn:Hd; [lia|]. by rewrite <- Hd, Pos2Nat.id.
Qed.

Lemma from_runtime_roundtrip (profile : PermissionProfile PathUri) :
  from_runtime_permissions_with_enforcement (enforcement profile) (file_system_sandbox_policy profile)
    (network_sandbox_policy profile) = profile.
Proof.
  destruct profile as [[es depth|] n| |n]; try done. unfold from_runtime_permissions_with_enforcement. cbn.
  by rewrite nonzero_pos.
Qed.

Lemma from_runtime_kind (profile : PermissionProfile PathUri) p n : kind p = kind (file_system_sandbox_policy profile) →
  kind (file_system_sandbox_policy (from_runtime_permissions_with_enforcement (enforcement profile) p n)) = kind p.
Proof.
  intros Hk. unfold from_runtime_permissions_with_enforcement, from_sandbox_policy.
  destruct (kind p) eqn:Hp, (enforcement profile); try done.
Qed.
End effective.

(** Additional permissions add to a profile and take nothing else away:
    without any the profile stays as it is; what its sandbox is (managed,
    external or none) never changes; on POSIX paths a path that
    is not denied gets another access only through an additional entry that
    is at least as specific as every entry of the profile, so a denial gives
    way only to a strictly more specific entry; and the network stays
    enabled. *)
Theorem additional_permissions_add {PathUri} `{!UriOps PathUri, !UriLaws PathUri} (profile : PermissionProfile PathUri)
    (a : AdditionalPermissionProfile PathUri) (context : FileSystemSandboxPolicyContext PathUri) (path : PathUri)
    (Hcwd : infer_path_convention (cwd context) = Some Posix) :
  let p := file_system_sandbox_policy profile in
  let effective := effective_permission_profile profile (Some a) in
  let q := effective_file_system_sandbox_policy p (Some a) in
  effective_permission_profile profile None = profile ∧
  kind (file_system_sandbox_policy effective) = kind p ∧
  (is_enabled (network_sandbox_policy profile) = true → is_enabled (network_sandbox_policy effective) = true) ∧
  resolve_access (file_system_sandbox_policy effective) path context = resolve_access q path context ∧
  (resolve_access q path context ≠ resolve_access p path context →
   resolve_access q path context = Deny ∨
   ∃ d, decides (additional_policy a) context path (resolve_access q path context) d ∧
     ∀ m d', decides p context path m d' → key_le (m, d') (resolve_access q path context, d) = true).
Proof.
  intros p effective q. split_and!.
  - apply from_runtime_roundtrip.
  - unfold effective, effective_permission_profile, to_runtime_permissions. rewrite from_runtime_kind; apply effective_kind.
  - unfold effective, effective_permission_profile, to_runtime_permissions, effective_network_sandbox_policy, merge_network_access.
    intros ->. cbn [orb]. unfold from_runtime_permissions_with_enforcement, from_sandbox_policy.
    by destruct (kind _), (enforcement profile).
  - unfold effective, effective_permission_profile, to_runtime_permissions. fold p q.
    unfold from_runtime_permissions_with_enforcement, from_sandbox_policy, resolve_access.
    assert (kind q = kind p) as Hk by apply effective_kind.
    destruct (kind q) eqn:Hq; [|by destruct (enforcement profile)|done]. by destruct (enforcement profile).
  - intros Hne. assert (kind q = kind p) as Hkind by apply effective_kind.
    destruct (kind p) eqn:Hk; [|by destruct Hne; unfold resolve_access; rewrite Hkind, Hk..].
    destruct (decide (resolve_access q path context = Deny)) as [|Hnd]; [by left|right].
    destruct (comparable path context) eqn:Hcmp; [|by rewrite (resolve_access_deny q) in Hnd; [|done|left]].
    destruct (with_depths (resolved_entries q context)) as [l|] eqn:Hl;
      [|by rewrite (resolve_access_deny q) in Hnd; [|done|right; right]].
    assert (is_Some (infer_path_convention (cwd context))) as Hconv by (by rewrite Hcwd).
    destruct (resolve_access_spec q context path l Hkind Hcmp Hconv Hl) as [(m & d & Hm & Hd & Hmax)|[? _]]; [|done].
    assert (∀ m' d', decides p context path m' d' → key_le (m', d') (m, d) = true) as Hp.
    { intros m' d' H. apply Hmax. apply effective_decides; [done..|by left]. }
    rewrite Hm. apply effective_decides in Hd as [Hd|Hd]; [|by exists d|done|done].
    exfalso. destruct (effective_entries p a Hk) as (k & Hq).
    assert (is_Some (with_depths (resolved_entries p context))) as [lp Hlp].
    { unfold resolved_entries in Hl |- *. fold q in Hq. rewrite Hq, fmap_app, concat_app, with_depths_app in Hl.
      destruct (with_depths (concat (resolved_entry context <$> entries p))); [done|discriminate]. }
    destruct (resolve_access_spec p context path lp Hk Hcmp Hconv Hlp) as [(m' & d' & Hm' & Hd' & Hmax')|[_ Hno]];
      [|by destruct (Hno _ _ Hd)].
    destruct (key_le_antisym m d m' d') as [-> _]; [by apply Hmax'|by apply Hp|]. apply Hne. by rewrite Hm, Hm'.
Qed.

(** ** Accumulating grants *)

Section accumulate.
Context {PathUri : Type} `{!UriOps PathUri, !UriLaws PathUri, !UriOrderLaws PathUri}.
Context (context : FileSystemSandboxPolicyContext PathUri) (Hcwd : infer_path_convention (cwd context) = Some Posix).
Implicit Types (p q : FileSystemSandboxPolicy PathUri) (a b : AdditionalPermissionProfile PathUri).

(** The places an entry list stands for can all be compared or ignored. *)
Definition clear_entries (es : list (FileSystemSandboxEntry PathUri)) : Prop :=
  ∀ e r, e ∈ es → r ∈ resolved_paths context (entry_path e) → infer_path_convention r = Some Posix →
    is_Some (lexical_depth r) ∨ is_opaque r = true.

Lemma with_depths_clear (l : list (PathUri * FileSystemAccessMode)) :
  is_Some (with_depths l) ↔ ∀ x, x ∈ l → is_Some (lexical_depth x.1) ∨ is_opaque x.1 = true.
Proof.
  induction l as [|[r m] l IH]; [split; [by intros _ ? ?%elem_of_nil|done]|]. cbn [with_depths]. split.
  - intros H x [->|Hx]%elem_of_cons; cbn [fst].
    + destruct (lexical_depth r); [by left|]. destruct (is_opaque r); [by right|by destruct H].
    + revert x Hx. apply IH. destruct (lexical_depth r); [|destruct (is_opaque r); [done|by destruct H]].
      by destruct (with_depths l).
  - intros H. assert (is_Some (with_depths l)) as [k Hk] by (apply IH; intros x Hx; apply H; by right).
    rewrite Hk. destruct (H (r, m)) as [[d Hd]|Ho]; [left|cbn in Hd; by rewrite Hd|cbn in Ho; rewrite Ho; by destruct (lexical_depth r)].
Qed.

Lemma clear_resolved p : is_Some (with_depths (resolved_entries p context)) ↔ clear_entries (entries p).
Proof.
  rewrite with_depths_clear. split.
  - intros H e r He Hr Hc. apply (H (r, access e)). apply resolved_entries_elem. exists e. by rewrite Hcwd.
  - intros H [r m] (e & He & _ & Hr & Hc)%resolved_entries_elem. rewrite Hcwd in Hc. by apply (H e r).
Qed.

Lemma clear_push_missing es ds : clear_entries (foldl push_missing es ds) ↔ clear_entries es ∧ clear_entries ds.
Proof.
  destruct (push_missing_app es ds) as (k & Hk & Hsub). split.
  - intros H. split; intros e r He Hr Hc.
    + apply (H e r); [|done..]. rewrite Hk. apply elem_of_app. by left.
    + destruct (push_missing_has es ds e He (entry_eqb_refl e)) as (e' & He' & Heq).
      destruct (entry_eqb_spec _ _ Heq) as [_ [->|(u & v & Hu & Hv & Huv)]]; [by apply (H e r)|].
      rewrite Hv in Hr. apply list_elem_of_singleton in Hr as ->. destruct (eqb_same u v Hc Huv) as (Huc & Hud & _).
      rewrite <- Hud, <- (posix_eqb_opaque u v Hc Huv). apply (H e' u); [done| |done]. rewrite Hu. left.
  - intros [H1 H2] e r He Hr Hc. rewrite Hk in He. apply elem_of_app in He as [He|He]; [by apply (H1 e r)|].
    apply (H2 e r); [by apply Hsub|done..].
Qed.

(** Policies that decide alike give the same access. *)
Lemma same_access p q path : kind p = Restricted → kind q = Restricted →
  (clear_entries (entries p) ↔ clear_entries (entries q)) →
  (∀ m d, decides p context path m d ↔ decides q context path m d) →
  resolve_access p path context = resolve_access q path context.
Proof.
  intros Hp Hq Hclear Hdec. rewrite <- !clear_resolved in Hclear.
  destruct (comparable path context) eqn:Hcmp; [|by rewrite !resolve_access_deny; eauto].
  assert (is_Some (infer_path_convention (cwd context))) as Hconv by (by rewrite Hcwd).
  destruct (with_depths (resolved_entries p context)) as [l|] eqn:Hl.
  - destruct (proj1 Hclear ltac:(done)) as [k Hk].
    destruct (resolve_access_spec p context path l Hp Hcmp Hconv Hl) as [(m & d & -> & Hd & Hmax)|[-> Hno]],
      (resolve_access_spec q context path k Hq Hcmp Hconv Hk) as [(m' & d' & -> & Hd' & Hmax')|[-> Hno']]; try done.
    + destruct (key_le_antisym m d m' d') as [-> _]; [by apply Hmax', Hdec|by apply Hmax, Hdec|done].
    + by destruct (Hno' m d); apply Hdec.
    + by destruct (Hno m' d'); apply Hdec.
  - assert (with_depths (resolved_entries q context) = None) as Hk.
    { apply eq_None_not_Some. intros H. by destruct (proj2 Hclear H). }
    rewrite !resolve_access_deny; auto.
Qed.

Lemma effective_clear p a : kind p = Restricted →
  clear_entries (entries (effective_file_system_sandbox_policy p (Some a))) ↔
  clear_entries (entries p) ∧ clear_entries (entries (additional_policy a)).
Proof.
  intros Hk. unfold effective_file_system_sandbox_policy, additional_policy. cbn [mbind option_bind restricted entries].
  assert (clear_entries []) as Hnil by by intros ? ? ?%elem_of_nil.
  destruct (file_system a) as [f|]; [|tauto]. unfold file_system_is_empty.
  destruct (permission_entries f) as [|e es] eqn:Hf; cbn [is_empty]; [tauto|].
  unfold merge_file_system_policy_with_additional_permissions. rewrite Hk, Hf. apply clear_push_missing.
Qed.

Definition merged_policy a b : FileSystemSandboxPolicy PathUri :=
  match merge_permission_profiles (Some a) (Some b) with Some c => additional_policy c | None => restricted [] end.

Lemma merged_entries a b :
  let es := entries (additional_policy a) in let fs := entries (additional_policy b) in
  entries (merged_policy a b) = es ∧ fs = [] ∨ entries (merged_policy a b) = fs ∧ es = [] ∨
  entries (merged_policy a b) = foldl push_missing [] (es ++ fs).
Proof.
  unfold merged_policy, merge_permission_profiles, additional_policy. cbn [restricted entries].
  destruct (file_system a) as [fa|] eqn:Ha, (file_system b) as [fb|] eqn:Hb.
  - right. right. unfold merge_permission_entries. destruct (foldl push_missing _ _) as [|x l];
      unfold option_filter, file_system_is_empty, additional_is_empty; cbn; by destruct (_ || _).
  - left. split; [|done]. unfold option_filter, additional_is_empty. by destruct (_ || _).
  - right. left. split; [|done]. unfold option_filter, additional_is_empty. by destruct (_ || _).
  - left. split; [|done]. unfold option_filter, additional_is_empty. by destruct (_ || _).
Qed.

Lemma decides_nil k g x m d : ¬ decides (mkPolicy k g []) context x m d.
Proof. by intros (e & ? & ?%elem_of_nil & _)%decides_entry. Qed.

Lemma decides_same es k g k' g' x m d : decides (mkPolicy k g es) context x m d ↔ decides (mkPolicy k' g' es) context x m d.
Proof. by rewrite !decides_entry. Qed.

Lemma decides_app k g es fs x m d :
  decides (mkPolicy k g (es ++ fs)) context x m d ↔ decides (mkPolicy k g es) context x m d ∨ decides (mkPolicy k g fs) context x m d.
Proof.
  rewrite !decides_entry. cbn [entries]. split.
  - intros (e & r & [He|He]%elem_of_app & H); [left|right]; by exists e, r.
  - intros [(e & r & He & H)|(e & r & He & H)]; exists e, r; (split; [apply elem_of_app|done]); auto.
Qed.

Lemma merged_decides a b x m d : decides (merged_policy a b) context x m d ↔
  decides (additional_policy a) context x m d ∨ decides (additional_policy b) context x m d.
Proof.
  assert (∀ p, decides p context x m d ↔ decides (mkPolicy Restricted None (entries p)) context x m d) as Hnorm
    by by intros p; rewrite !decides_entry.
  rewrite (Hnorm (merged_policy a b)), (Hnorm (additional_policy a)), (Hnorm (additional_policy b)).
  destruct (merged_entries a b) as [[-> Hb]|[[-> Ha]| ->]]; cbv zeta in *.
  - rewrite Hb. split; [by left|]. by intros [?|?%decides_nil].
  - rewrite Ha. split; [by right|]. by intros [?%decides_nil|?].
  - rewrite push_missing_decides, decides_app by done. split; [intros [?%decides_nil|?]; [done|done]|by right].
Qed.

Lemma merged_clear a b : clear_entries (entries (merged_policy a b)) ↔
  clear_entries (entries (additional_policy a)) ∧ clear_entries (entries (additional_policy b)).
Proof.
  assert (clear_entries []) as Hnil by by intros ? ? ?%elem_of_nil.
  destruct (merged_entries a b) as [[-> Hb]|[[-> Ha]| ->]]; cbv zeta in *.
  - rewrite Hb. tauto.
  - rewrite Ha. tauto.
  - rewrite clear_push_missing. unfold clear_entries at 2. setoid_rewrite elem_of_app. split.
    + intros [_ H]. split; intros e r He; apply H; auto.
    + intros [H1 H2]. split; [done|]. intros e r [He|He]; [by apply H1|by apply H2].
Qed.
End accumulate.

(** Granted permissions accumulate: on POSIX paths, adding two grants one
    after the other gives every path the access, and the command the network,
    that adding their merge gives; so it does not matter whether grants are
    merged when they are recorded or when they are used. *)
Theorem grants_accumulate {PathUri} `{!UriOps PathUri, !UriLaws PathUri, !UriOrderLaws PathUri}
    (p : FileSystemSandboxPolicy PathUri) (n : NetworkSandboxPolicy) (a b : AdditionalPermissionProfile PathUri)
    (context : FileSystemSandboxPolicyContext PathUri) (path : PathUri)
    (Hcwd : infer_path_convention (cwd context) = Some Posix) :
  let merged := merge_permission_profiles (Some a) (Some b) in
  resolve_access (effective_file_system_sandbox_policy p merged) path context
  = resolve_access (effective_file_system_sandbox_policy (effective_file_system_sandbox_policy p (Some a)) (Some b)) path context ∧
  effective_network_sandbox_policy n merged
  = effective_network_sandbox_policy (effective_network_sandbox_policy n (Some a)) (Some b).
Proof.
  intros merged. split.
  - destruct (kind p) eqn:Hk; [|by unfold resolve_access; rewrite !effective_kind, Hk..].
    assert (kind (effective_file_system_sandbox_policy p (Some a)) = Restricted) as Hka by by rewrite effective_kind.
    apply same_access; [done|by rewrite effective_kind|by rewrite effective_kind| |].
    + rewrite (effective_clear context _ b Hka), (effective_clear context _ a Hk), <- (assoc _), <- merged_clear by done.
      unfold merged, merged_policy. destruct (merge_permission_profiles (Some a) (Some b)) as [c|]; [by rewrite effective_clear|].
      split; [intros H; split; [done|by intros ? ? ?%elem_of_nil]|by intros [? _]].
    + intros m d. rewrite (effective_decides _ b context path m d Hka Hcwd), (effective_decides _ a context path m d Hk Hcwd),
        <- (assoc _), <- merged_decides by done.
      unfold merged, merged_policy. destruct (merge_permission_profiles (Some a) (Some b)) as [c|]; [by rewrite effective_decides|].
      split; [by left|by intros [?|?%decides_nil]].
  - unfold merged, merge_permission_profiles. 
    match goal with |- context [mkAdditional _ ?f] => generalize f end. intros fs.
    unfold effective_network_sandbox_policy, merge_network_access, grants_network.
    by destruct fs, (network a) as [[[[]|]]|], (network b) as [[[[]|]]|], n.
Qed.

(** ** Examples *)

#[local] Existing Instance names_ops.
#[local] Existing Instance names_laws.

#[local] Instance names_order_laws : UriOrderLaws (list rstr).
Proof.
  split; cbn.
  - intros x a b _ _ _ Hxa%bool_decide_eq_true Hab%bool_decide_eq_true. apply bool_decide_eq_true. by etrans.
  - intros x a d d' _ _ [= <-] [= <-] Hxa%bool_decide_eq_true. by apply prefix_length.
  - intros x a b d d' _ _ _ [= <-] [= <-] Hle Ha%bool_decide_eq_true Hb%bool_decide_eq_true. apply bool_decide_eq_true.
    destruct (prefix_weak_total a b x Ha Hb) as [?|Hba]; [done|]. by rewrite (prefix_length_eq b a Hba Hle).
  - done.
Qed.

Definition demo_request : AdditionalPermissionProfile (list rstr) :=
  mkAdditional network_granted (Some (mkFileSystemPermissions
    [new_entry (Path [$"w"]) Write; new_entry (Path [$"w"; $"secret"]) Deny] None)).
Definition demo_grant : AdditionalPermissionProfile (list rstr) :=
  mkAdditional None (Some (mkFileSystemPermissions [new_entry (Path [$"w"]) Write] None)).
Definition no_globs (_ : FileSystemSandboxPolicy (list rstr)) (_ : FileSystemSandboxPolicyContext (list rstr)) :
  option (list rstr → bool) := None.

Lemma demo_convention : infer_path_convention (cwd demo_context) = Some Posix.
Proof. reflexivity. Qed.

Lemma demo_posix path : posix_context demo_context path.
Proof. split_and!; [done|by eexists|done|by eexists]. Qed.

Lemma response_within_request_witness :
  let response := mkResponse demo_grant SessionScope false in
  let recorded := normalize_request_permissions_response no_globs demo_request response demo_context in
  can_write (resolve_access (additional_policy (permissions recorded)) demo_file demo_context) = true ∧
  can_read (resolve_access (additional_policy demo_request) demo_file demo_context) = true ∧
  can_read (resolve_access (additional_policy (permissions recorded)) [$"w"; $"secret"] demo_context) = false.
Proof.
  intros response recorded. destruct (response_within_request no_globs demo_request response demo_context demo_file (demo_posix _)
    ltac:(by eexists)) as [Hread _].
  split_and!; [vm_compute; reflexivity|apply Hread; vm_compute; reflexivity|vm_compute; reflexivity].
Defined.

Lemma additional_permissions_add_witness :
  let profile := Managed (ManagedRestricted [new_entry (Special Root) Read] None) NetworkRestricted in
  effective_permission_profile profile None = profile ∧
  resolve_access (effective_file_system_sandbox_policy (file_system_sandbox_policy profile) (Some demo_request)) demo_file
    demo_context = Write.
Proof.
  intros profile. destruct (additional_permissions_add profile demo_request demo_context demo_file demo_convention) as [Hid _].
  split; [exact Hid|vm_compute; reflexivity].
Defined.

Lemma grants_accumulate_witness :
  let p := restricted [new_entry (Special Root) Read] in
  resolve_access (effective_file_system_sandbox_policy p (merge_permission_profiles (Some demo_request) (Some demo_grant)))
    [$"w"; $"secret"] demo_context = Deny.
Proof.
  intros p. rewrite (proj1 (grants_accumulate p NetworkRestricted demo_request demo_grant demo_context [$"w"; $"secret"] demo_convention)).
  vm_compute. reflexivity.
Defined.

(** The intersection loses what the request only reads: with the whole
    workspace granted for writing, the part of it that the request asked to
    read becomes writable. *)
Lemma read_narrowing_is_lost :
  let requested := mkAdditional None (Some (mkFileSystemPermissions
    [new_entry (Path [$"w"]) Write; new_entry (Path [$"w"; $"docs"]) Read] None)) in
  let result := intersect_permission_profiles_with_context no_globs requested demo_grant demo_context in
  resolve_access (additional_policy requested) [$"w"; $"docs"; $"a"] demo_context = Read ∧
  resolve_access (additional_policy result) [$"w"; $"docs"; $"a"] demo_context = Write.
Proof. split; vm_compute; reflexivity. Qed.
