(* ===== verification/Url.v ===== *)
(** * URLs

    The interface of the crates [url], [urlencoding] and [base64] that
    [utils/path-uri] is written against: a type of URLs with the accessors
    and setters it calls ([UrlOps]), and what the WHATWG URL standard and
    the crates document of them for [file:] URLs ([UrlLaws]).  A concrete
    instance at the end shows the laws together and runs the examples. *)

From S2P Require Import Prelude RustStr StreamText Utf8Stream.

Definition PERCENT : char := 37%N.
Definition COLON : char := 58%N.

(** [str::as_bytes]. *)
Definition as_bytes (s : rstr) : bytes := encode s.

Definition FILE_SCHEME : rstr := $"file".

(** [path_segments] and [path_segments_mut] are [Some] and [Ok] for the
    hierarchical URLs the code calls them on; a segment setter is the effect
    of one call on [PathSegmentsMut]. *)
Class UrlOps (Url : Type) := {
  url_eq_dec :: EqDecision Url;
  url_parse : rstr → result rstr Url;
  as_str : Url → rstr;
  scheme : Url → rstr;
  username : Url → rstr;
  password : Url → option rstr;
  port : Url → option N;
  query : Url → option rstr;
  fragment : Url → option rstr;
  host_str : Url → option rstr;
  url_path : Url → rstr;
  url_segments : Url → list rstr;
  set_host : option rstr → Url → option Url;
  set_path : rstr → Url → Url;
  seg_clear : Url → Url;
  seg_pop_if_empty : Url → Url;
  seg_pop : Url → Url;
  seg_push : rstr → Url → Url;
  decode_binary : bytes → bytes;
  encode_binary : bytes → rstr;
  base64_encode : bytes → rstr;
  base64_decode : rstr → option bytes
}.

(** The value of a hexadecimal digit. *)
Definition hex_value (c : N) : option N :=
  if is_ascii_digit c then Some (c - 48)%N
  else if ((65 <=? c) && (c <=? 70))%N then Some (c - 55)%N
  else if ((97 <=? c) && (c <=? 102))%N then Some (c - 87)%N
  else None.

Definition is_ascii_lowercase (c : char) : bool := ((97 <=? c) && (c <=? 122))%N.

(** Characters a URL path keeps as they are wherever they stand. *)
Definition plain_char (c : char) : bool :=
  is_ascii_digit c || is_ascii_alphabetic c || bool_decide (c = MINUS) || bool_decide (c = 95%N).

(** What setting a segment makes of its text: its bytes, except that the
    first segment of a path normalises the drive spelling [C|] to [C:]. *)
Definition segment_bytes (first : bool) (s : rstr) : bytes :=
  match s with
  | [c; bar] => if first && is_ascii_alphabetic c && bool_decide (bar = 124%N) then [c; COLON] else as_bytes s
  | _ => as_bytes s
  end.

Section laws.
Context {Url : Type} `{!UrlOps Url}.

(** A [file:] URL with nothing but a host and a path. *)
Definition plain_file (u : Url) : Prop :=
  scheme u = FILE_SCHEME ∧ username u = [] ∧ password u = None ∧ port u = None ∧ query u = None ∧ fragment u = None.

Definition dot_segment (s : rstr) : Prop := decode_binary s = [DOT] ∨ decode_binary s = [DOT; DOT].

(** Segments without the tabs and line breaks that URL parsing removes. *)
Definition segment_text (s : rstr) : Prop := Forall (λ c, is_scalar c = true ∧ c ∉ [9%N; LF; CR]) s.

Class UrlLaws : Prop := {
  (** The serialisation determines the URL and is ASCII. *)
  as_str_inj u v : as_str u = as_str v → u = v;
  as_str_ascii u : Forall (λ c, (c < 128)%N) (as_str u);
  as_str_file u : plain_file u → as_str u = $"file://" ++ default [] (host_str u) ++ url_path u;
  (** A path is its segments behind slashes; dot segments are resolved. *)
  path_of_segments u : plain_file u → url_path u = concat (cons SLASH <$> url_segments u);
  segments_nonempty u : plain_file u → url_segments u ≠ [];
  segments_no_slash u s : plain_file u → s ∈ url_segments u → SLASH ∉ s;
  segments_no_dots u s : plain_file u → s ∈ url_segments u → ¬ dot_segment s;
  host_no_slash u : plain_file u → SLASH ∉ default [] (host_str u);
  (** Text that is already in normal form parses to itself. *)
  parse_normal segs : segs ≠ [] → Forall (λ s, ¬ dot_segment s ∧ Forall (λ c, plain_char c || bool_decide (c = PERCENT)) s) segs →
    ∃ u, url_parse ($"file://" ++ concat (cons SLASH <$> segs)) = Ok u ∧
      plain_file u ∧ host_str u = None ∧ url_segments u = segs;
  (** The setters change one part. *)
  set_host_part h u v : plain_file u → set_host h u = Some v → plain_file v ∧ url_segments v = url_segments u;
  unset_host u : plain_file u → ∃ v, set_host None u = Some v ∧ host_str v = None;
  set_path_part p u : plain_file u → plain_file (set_path p u) ∧ host_str (set_path p u) = host_str u;
  set_path_case u pre c rest : plain_file u → url_path u = pre ++ c :: rest → is_ascii_lowercase c →
    Forall (λ c, c = SLASH) pre →
    url_path (set_path (pre ++ (c - 32)%N :: rest) u) = pre ++ (c - 32)%N :: rest;
  seg_clear_part u : plain_file u → plain_file (seg_clear u) ∧ host_str (seg_clear u) = host_str u;
  seg_pop_if_empty_part u : plain_file u →
    plain_file (seg_pop_if_empty u) ∧ host_str (seg_pop_if_empty u) = host_str u;
  seg_pop_part u : plain_file u → plain_file (seg_pop u) ∧ host_str (seg_pop u) = host_str u;
  seg_push_part s u : plain_file u → plain_file (seg_push s u) ∧ host_str (seg_push s u) = host_str u;
  (** What the segment setters do; the root path has one empty segment. *)
  seg_clear_segments u : plain_file u → url_segments (seg_clear u) = [[]];
  seg_pop_if_empty_segments u k s : plain_file u → url_segments u = k ++ [s] →
    url_segments (seg_pop_if_empty u) = match s, k with [], _ :: _ => k | _, _ => k ++ [s] end;
  seg_pop_segments u k s : plain_file u → url_segments u = k ++ [s] →
    url_segments (seg_pop u) = match k with [] => [[]] | _ => k end;
  seg_push_segments s u : plain_file u → segment_text s → s ∉ [[DOT]; [DOT; DOT]] →
    ∃ e, url_segments (seg_push s u)
         = (if bool_decide (url_segments u = [[]]) then [] else url_segments u) ++ [e] ∧
      decode_binary e = segment_bytes (bool_decide (url_segments u = [[]])) s ∧ (s = [] → e = []);
  (** Percent decoding; what is not an escape stands for itself. *)
  decode_nil : decode_binary [] = [];
  decode_plain c s : c ≠ PERCENT → decode_binary (c :: s) = c :: decode_binary s;
  decode_escape h l x y s : hex_value h = Some x → hex_value l = Some y →
    decode_binary (PERCENT :: h :: l :: s) = (16 * x + y)%N :: decode_binary s;
  decode_bare s : match s with h :: l :: _ => hex_value h = None ∨ hex_value l = None | _ => True end →
    decode_binary (PERCENT :: s) = PERCENT :: decode_binary s;
  base64_roundtrip bs : base64_decode (base64_encode bs) = Some bs;
  base64_plain bs : Forall (λ c, plain_char c) (base64_encode bs);
  base64_nonempty bs : bs ≠ [] → base64_encode bs ≠ []
}.

End laws.
Arguments UrlLaws Url {_}.

(** ** Percent decoding

    The laws determine it. *)

Fixpoint percent_decode (s : bytes) : bytes :=
  match s with
  | [] => []
  | c :: s' =>
      if decide (c = PERCENT) then
        match s' with
        | h :: l :: s'' =>
            match hex_value h, hex_value l with
            | Some x, Some y => (16 * x + y)%N :: percent_decode s''
            | _, _ => c :: percent_decode s'
            end
        | _ => c :: percent_decode s'
        end
      else c :: percent_decode s'
  end.

Section decoding.
Context {Url : Type} `{!UrlOps Url, !UrlLaws Url}.

Lemma decode_binary_spec s : decode_binary s = percent_decode s.
Proof.
  induction s as [s IH] using (induction_ltof1 _ (@length N)). unfold ltof in IH.
  destruct s as [|c s]; [apply decode_nil|]. cbn [percent_decode].
  destruct (decide (c = PERCENT)) as [->|Hc]; [|rewrite decode_plain by done; f_equal; apply IH; simpl; lia].
  destruct s as [|h [|l s]].
  1,2: rewrite decode_bare by done; f_equal; apply IH; simpl; lia.
  destruct (hex_value h) as [x|] eqn:Eh; [destruct (hex_value l) as [y|] eqn:El|].
  - rewrite (decode_escape h l x y) by done. f_equal. apply IH. simpl. lia.
  - rewrite decode_bare by auto. f_equal. apply IH. simpl. lia.
  - rewrite decode_bare by auto. f_equal. apply IH. simpl. lia.
Qed.
End decoding.

Lemma percent_decode_slash a b : percent_decode (a ++ SLASH :: b) = percent_decode a ++ SLASH :: percent_decode b.
Proof.
  induction a as [a IH] using (induction_ltof1 _ (@length N)). unfold ltof in IH.
  destruct a as [|c a]; [done|]. cbn [app percent_decode].
  destruct (decide (c = PERCENT)) as [->|Hc]; [|cbn [app]; f_equal; apply IH; simpl; lia].
  destruct a as [|h [|l a]]; cbn [app].
  - destruct b as [|l b]; [done|]. by destruct (hex_value l).
  - destruct (hex_value h) as [x|]; cbn [hex_value]; f_equal; apply (IH [h]); simpl; lia.
  - destruct (hex_value h) as [x|] eqn:Eh; [destruct (hex_value l) as [y|] eqn:El|]; cbn [app]; f_equal;
      (apply (IH (h :: l :: a)) || apply IH); simpl; lia.
Qed.

Lemma percent_decode_path segs :
  percent_decode (concat (cons SLASH <$> segs)) = concat (cons SLASH <$> (percent_decode <$> segs)).
Proof.
  induction segs as [|s segs IH] using rev_ind; [done|].
  rewrite !fmap_app, !concat_app, <- IH. cbn [fmap list_fmap concat]. by rewrite !app_nil_r, percent_decode_slash.
Qed.

(** Text without escapes is itself. *)
Lemma percent_decode_plain s : PERCENT ∉ s → percent_decode s = s.
Proof.
  induction s as [|c s IH]; [done|]. rewrite not_elem_of_cons. intros [Hc Hs]. cbn [percent_decode].
  rewrite decide_False by done. f_equal. by apply IH.
Qed.

Lemma as_bytes_ascii s : Forall (λ c, (c < 128)%N) s → as_bytes s = s.
Proof.
  unfold as_bytes, encode. induction 1 as [|c s Hc _ IH]; [done|]. cbn [fmap list_fmap concat]. rewrite IH.
  unfold encode_char. apply N.ltb_lt in Hc. by rewrite Hc.
Qed.

(** The segments of a path are determined by its text. *)
Lemma path_segments_inj (segs segs' : list rstr) : (∀ s, s ∈ segs → SLASH ∉ s) → (∀ s, s ∈ segs' → SLASH ∉ s) →
  concat (cons SLASH <$> segs) = concat (cons SLASH <$> segs') → segs = segs'.
Proof.
  revert segs'. induction segs as [|s segs IH]; intros [|s' segs']; [done..|]. intros H H' E.
  cbn [fmap list_fmap concat app] in E. injection E as E.
  assert (s = s' ∧ concat (cons SLASH <$> segs) = concat (cons SLASH <$> segs')) as [-> E'].
  { assert (SLASH ∉ s) as Hs by (apply H; left). assert (SLASH ∉ s') as Hs' by (apply H'; left). clear H H' IH.
    assert (∀ segs : list rstr, concat (cons SLASH <$> segs) = [] ∨ ∃ r, concat (cons SLASH <$> segs) = SLASH :: r) as Hc.
    { intros [|? ?]; cbn [fmap list_fmap concat app]; eauto. }
    revert s' Hs' E. induction s as [|a s IH]; intros [|b s'] Hs' E; cbn [app] in E.
    - done.
    - destruct (Hc segs) as [Hn|[r Hn]]; rewrite Hn in E; [done|]. injection E as <- _. exfalso. apply Hs'. left.
    - destruct (Hc segs') as [Hn|[r Hn]]; rewrite Hn in E; [done|]. injection E as -> _. exfalso. apply Hs. left.
    - injection E as <- E. rewrite not_elem_of_cons in Hs, Hs'.
      destruct (IH (proj2 Hs) s' (proj2 Hs') E) as [-> ?]. done. }
  f_equal. apply IH; [intros s Hs; apply H; by right|intros s Hs; apply H'; by right|done].
Qed.
