(* ===== verification/PathUri.v ===== *)
(** * Path URIs

    [utils/path-uri/src/lib.rs], [absolute_path_normalization.rs] and
    [native_path_bytes.rs]: absolute paths of any system as [file:] URLs,
    with the lexical operations the permission code uses.  [PathUri] is a
    newtype of a URL; a function here takes the URL, and [PathUriFacts]
    shows what the validated ones satisfy.  A [usize] depth is a [nat]. *)

From S2P Require Import Prelude RustStr StreamText Utf8Stream Url.

Definition BAD_PATH_URI_PREFIX : rstr := $"file:///%00/bad/path/".

Inductive PathUriParseError :=
| InvalidUri (e : rstr)
| UnsupportedScheme (s : rstr)
| InvalidFileUriPath (path : rstr)
| CredentialsNotAllowed
| PortNotAllowed
| QueryNotAllowed
| FragmentNotAllowed
| JoinPathMustBeDescendant (path : rstr).

Section path_uri.
Context {Url : Type} `{!UrlOps Url}.
Implicit Types (u v self other base : Url) (path : rstr).

(** ** Opaque URIs *)

Definition decode_bad_path_uri u : option bytes :=
  encoded_path ← strip_prefix BAD_PATH_URI_PREFIX (as_str u);
  if is_empty encoded_path || bool_decide (SLASH ∈ encoded_path) then None
  else
    path_bytes ← base64_decode encoded_path;
    if bool_decide (base64_encode path_bytes = encoded_path) then Some path_bytes else None.

Definition opaque_fallback_bytes self : option bytes := decode_bad_path_uri self.

(** The code units of UTF-16LE text; [None] for an odd number of bytes. *)
Fixpoint chunks_u16 (bs : bytes) : option (list N) :=
  match bs with
  | [] => Some []
  | [_] => None
  | b0 :: b1 :: bs => us ← chunks_u16 bs; Some ((b0 + 256 * b1)%N :: us)
  end.

Definition is_windows_separator_char (c : char) : bool := bool_decide (c = BACKSLASH) || bool_decide (c = SLASH).

Definition infer_opaque_path_convention (path_bytes : bytes) : option PathConvention :=
  if RustStr.starts_with [SLASH] path_bytes && negb (RustStr.starts_with [SLASH; 0%N] path_bytes) then Some Posix
  else
    path_wide ← chunks_u16 path_bytes;
    match path_wide with
    | first :: second :: _ =>
        let has_drive := is_ascii_alphabetic first && bool_decide (second = COLON) in
        let has_unc_prefix := is_windows_separator_char first && is_windows_separator_char second in
        if has_drive || has_unc_prefix then Some Windows else None
    | _ => None
    end.

(** ** The convention of a URI *)

(** [[drive, b':'] | [drive, b'%', b'3', b'A' | b'a']]. *)
Definition is_windows_drive_uri_segment (segment : rstr) : bool :=
  match segment with
  | [drive; colon] => bool_decide (colon = COLON) && is_ascii_alphabetic drive
  | [drive; percent; three; a] =>
      bool_decide (percent = PERCENT) && bool_decide (three = 51%N)
      && (bool_decide (a = 65%N) || bool_decide (a = 97%N)) && is_ascii_alphabetic drive
  | _ => false
  end.

Definition non_empty (segments : list rstr) : list rstr := filter (λ s, s ≠ []) segments.

Definition infer_path_convention self : option PathConvention :=
  match opaque_fallback_bytes self with
  | Some path_bytes => infer_opaque_path_convention path_bytes
  | None =>
      if bool_decide (is_Some (host_str self)) then Some Windows
      else if is_some_and is_windows_drive_uri_segment (head (non_empty (url_segments self)))
      then Some Windows else Some Posix
  end.

(** [urlencoding::decode]: the decoded bytes if they are UTF-8. *)
Definition decode_uri_path (path : rstr) : rstr :=
  match from_utf8 (decode_binary (as_bytes path)) with Ok s => s | Err _ => path end.

Definition has_native_separator (c : PathConvention) (segment : rstr) : bool :=
  existsb (λ byte, bool_decide (byte = SLASH) || bool_decide (c = Windows) && bool_decide (byte = BACKSLASH))
    (decode_binary (as_bytes segment)).

(** ** Equality *)

Definition windows_identity_path_bytes self : option bytes :=
  if negb (bool_decide (infer_path_convention self = Some Windows)) || bool_decide (is_Some (opaque_fallback_bytes self))
     || existsb (has_native_separator Windows) (url_segments self)
  then None else Some (decode_binary (as_bytes (url_path self))).

Definition path_uri_eq self other : bool :=
  if bool_decide (self = other) then true
  else
    match windows_identity_path_bytes self, windows_identity_path_bytes other with
    | Some path, Some other_path =>
        bool_decide (host_str self = host_str other) && eq_ignore_ascii_case path other_path
    | _, _ => false
    end.

(** What [Hash] feeds to the hasher: the URL, or host and folded bytes. *)
Definition hash_input self : Url + option rstr * nat * bytes :=
  match windows_identity_path_bytes self with
  | None => inl self
  | Some path => inr (host_str self, length path, to_ascii_lowercase path)
  end.

(** ** Segments *)

Definition containment_path_segments u (c : PathConvention) : option (list rstr) :=
  let segments := non_empty (url_segments u) in
  if existsb (has_native_separator c) segments then None else Some segments.

Definition same_segment (c : PathConvention) (path base : rstr) : bool :=
  match c with
  | Posix => bool_decide (decode_binary (as_bytes path) = decode_binary (as_bytes base))
  | Windows => eq_ignore_ascii_case path base || eq_ignore_ascii_case (decode_uri_path path) (decode_uri_path base)
  end.

Definition native_path_segments_start_with (path_segments base_segments : list rstr) (c : PathConvention) : bool :=
  (length base_segments <=? length path_segments)
  && forallb (λ '(path, base), same_segment c path base) (zip path_segments base_segments).

Definition is_opaque self : bool := bool_decide (is_Some (opaque_fallback_bytes self)).

Definition lexical_depth self : option nat :=
  if is_opaque self then None
  else c ← infer_path_convention self; length <$> containment_path_segments self c.

Definition basename self : option rstr :=
  if is_opaque self then None else decode_uri_path <$> last (non_empty (url_segments self)).

Definition anchor_depth (c : PathConvention) : nat := match c with Windows => 1 | Posix => 0 end.

Definition parent self : option Url :=
  if is_opaque self then None
  else
    c ← infer_path_convention self;
    if length (non_empty (url_segments self)) <=? anchor_depth c then None
    else Some (seg_pop (seg_pop_if_empty self)).

(** [successors(Some(self), parent)]; every parent has a shorter path. *)
Fixpoint successors (fuel : nat) self : list Url :=
  match fuel with
  | 0 => []
  | S fuel => self :: match parent self with Some p => successors fuel p | None => [] end
  end.
Definition ancestors self : list Url := successors (S (length (url_path self))) self.

Definition starts_with self base : bool :=
  if path_uri_eq self base then true
  else if is_opaque self || is_opaque base then false
  else if negb (bool_decide (host_str self = host_str base)) then false
  else
    let convention := infer_path_convention self in
    if negb (bool_decide (convention = infer_path_convention base)) then false
    else
      let c := default Posix convention in
      match containment_path_segments self c, containment_path_segments base c with
      | Some path_segments, Some base_segments => native_path_segments_start_with path_segments base_segments c
      | _, _ => false
      end.

Definition overlaps self other : option bool :=
  if path_uri_eq self other then Some true
  else
    _ ← lexical_depth self;
    _ ← lexical_depth other;
    Some (starts_with self other || starts_with other self).

Definition native_separator (c : PathConvention) : rstr := match c with Posix => [SLASH] | Windows => [BACKSLASH] end.

Definition relative_path_from self base : option rstr :=
  if path_uri_eq self base then Some []
  else if is_opaque self || is_opaque base || negb (bool_decide (host_str self = host_str base))
          || negb (bool_decide (infer_path_convention self = infer_path_convention base))
  then None
  else
    c ← infer_path_convention self;
    path_segments ← containment_path_segments self c;
    base_segments ← containment_path_segments base c;
    if negb (native_path_segments_start_with path_segments base_segments c) then None
    else Some (RustStr.join (native_separator c) (decode_uri_path <$> drop (length base_segments) path_segments)).

(** ** Validation *)

Definition validate_common_known_uri u : result PathUriParseError unit :=
  if negb (is_empty (username u)) || bool_decide (is_Some (password u)) then Err CredentialsNotAllowed
  else if bool_decide (is_Some (port u)) then Err PortNotAllowed
  else if bool_decide (is_Some (query u)) then Err QueryNotAllowed
  else if bool_decide (is_Some (fragment u)) then Err FragmentNotAllowed
  else Ok tt.

Definition validate_file_url u : result PathUriParseError unit :=
  _ ← validate_common_known_uri u;
  if bool_decide (0%N ∈ decode_binary (as_bytes (url_path u))) && negb (is_opaque u)
  then Err (InvalidFileUriPath (as_str u)) else Ok tt.

(** [None] is the [unreachable!]. *)
Definition without_localhost_authority u : option Url :=
  if bool_decide (host_str u = Some ($"localhost")) then set_host None u else Some u.

Definition is_ascii_uppercase (c : char) : bool := ((65 <=? c) && (c <=? 90))%N.
Definition to_ascii_uppercase_char (c : char) : char := if ((97 <=? c) && (c <=? 122))%N then (c - 32)%N else c.

Definition with_normalized_windows_drive_letter u : Url :=
  if bool_decide (is_Some (host_str u)) then u
  else
    let path := url_path u in
    match trim_start_matches (λ c, bool_decide (c = SLASH)) path with
    | [] => u
    | drive_letter :: rest =>
        let drive := default [] (head (split_char SLASH (drive_letter :: rest))) in
        if negb (is_windows_drive_uri_segment drive) || is_ascii_uppercase drive_letter then u
        else
          let drive_start := length path - length (drive_letter :: rest) in
          set_path (take drive_start path ++ to_ascii_uppercase_char drive_letter :: rest) u
    end.

(** [TryFrom<Url>]. *)
Definition try_from u : outcome PathUriParseError Url :=
  if negb (bool_decide (scheme u = FILE_SCHEME)) then Failed (UnsupportedScheme (scheme u))
  else
    match validate_file_url u with
    | Err e => Failed e
    | Ok _ => u ← no_panic (without_localhost_authority u); Done (with_normalized_windows_drive_letter u)
    end.

Definition parse (uri : rstr) : outcome PathUriParseError Url :=
  match url_parse uri with Err e => Failed (InvalidUri e) | Ok u => try_from u end.

(** ** Native paths

    [Failed tt] is the [None] of a function that returns an option. *)

Definition ok {E T} (r : outcome E T) : outcome unit T :=
  match r with Done t => Done t | Failed _ => Failed tt | Panic => Panic end.

Definition from_opaque_path_bytes (path_bytes : bytes) : outcome unit Url :=
  match parse (BAD_PATH_URI_PREFIX ++ base64_encode path_bytes) with Done u => Done u | _ => Panic end.

Definition encode_utf16 path : list N :=
  concat ((λ c, if (c <? 65536)%N then [c]
                else [55296 + (c - 65536) / 1024; 56320 + (c - 65536) mod 1024]%N) <$> path).
Definition to_le_bytes (u : N) : bytes := [(u mod 256)%N; (u / 256)%N].
Definition windows_opaque_path_uri path : outcome unit Url :=
  from_opaque_path_bytes (concat (to_le_bytes <$> encode_utf16 path)).

(** The loop of [path_uri_from_segments]; [acc] is reversed. *)
Fixpoint normalize_segments (anchor depth : nat) (acc : list rstr) (has_trailing_separator : bool) (segments : list rstr) :
    list rstr * nat * bool :=
  match segments with
  | [] => (reverse acc, depth, has_trailing_separator)
  | segment :: segments =>
      if bool_decide (segment = []) then normalize_segments anchor depth acc true segments
      else if bool_decide (segment = [DOT]) then normalize_segments anchor depth acc false segments
      else if bool_decide (segment = [DOT; DOT]) then
        if anchor <? depth then normalize_segments anchor (depth - 1) (tail acc) false segments
        else normalize_segments anchor depth acc false segments
      else normalize_segments anchor (S depth) (segment :: acc) false segments
  end.

Definition extend (segments : list rstr) u : Url := foldl (λ u s, seg_push s u) u segments.

Definition path_uri_from_segments (c : PathConvention) (host : option rstr) (segments : list rstr) : outcome unit Url :=
  match url_parse ($"file:///") with
  | Err _ => Failed tt
  | Ok url =>
      match (match host with Some h => set_host (Some h) url | None => Some url end) with
      | None => Failed tt
      | Some url =>
          let '(normalized_segments, depth, has_trailing_separator) :=
            normalize_segments (anchor_depth c) 0 [] false segments in
          let normalized_segments :=
            if has_trailing_separator
               || bool_decide (c = Windows) && bool_decide (host = None) && (depth =? anchor_depth c)
            then normalized_segments ++ [[]] else normalized_segments in
          ok (try_from (extend normalized_segments (seg_clear url)))
      end
  end.

Definition parse_posix_path path : outcome unit Url :=
  match strip_prefix [SLASH] path with
  | None => Failed tt
  | Some path =>
      if bool_decide (0%N ∈ path) then from_opaque_path_bytes (as_bytes (SLASH :: path))
      else path_uri_from_segments Posix None (split_char SLASH path)
  end.

(** [utils/absolute-path/src/lib.rs]. *)
Definition is_windows_drive_absolute_path path : bool :=
  match path with
  | drive :: colon :: sep :: _ => is_ascii_alphabetic drive && bool_decide (colon = COLON) && is_windows_separator_char sep
  | _ => false
  end.
Definition normalize_windows_device_path path : option rstr :=
  match strip_prefix ($"\\?\UNC\") path with
  | Some unc => Some ($"\\" ++ unc)
  | None =>
      match strip_prefix ($"\\.\UNC\") path with
      | Some unc => Some ($"\\" ++ unc)
      | None =>
          let drive_path prefix :=
            p ← strip_prefix prefix path; if is_windows_drive_absolute_path p then Some p else None in
          match drive_path ($"\\?\") with Some p => Some p | None => drive_path ($"\\.\") end
      end
  end.

Definition special_component (s : rstr) : bool := bool_decide (s ∈ [[DOT]; [DOT; DOT]]).

Definition uses_namespace path : bool :=
  match path with
  | first :: second :: namespace :: separator :: _ =>
      is_windows_separator_char first && is_windows_separator_char second && is_windows_separator_char separator
      && bool_decide (namespace ∈ [DOT; 63%N])
  | _ => false
  end.

Definition parse_unnormalized_windows_path path : outcome unit Url :=
  if uses_namespace path || bool_decide (0%N ∈ path) then windows_opaque_path_uri path
  else if is_windows_drive_absolute_path path then
    path_uri_from_segments Windows None (take 2 path :: split_where is_windows_separator_char (drop 3 path))
  else
    match path with
    | first :: second :: rest =>
        if is_windows_separator_char first && is_windows_separator_char second then
          match split_where is_windows_separator_char rest with
          | host :: share :: components =>
              if is_empty host || is_empty share then Failed tt
              else if special_component host || special_component share then windows_opaque_path_uri path
              else
                match path_uri_from_segments Windows (Some host) (share :: components) with
                | Panic => Panic
                | Done uri =>
                    if is_some_and (λ parsed, eq_ignore_ascii_case parsed host) (host_str uri)
                    then Done uri else windows_opaque_path_uri path
                | Failed _ => windows_opaque_path_uri path
                end
          | _ => Failed tt
          end
        else Failed tt
    | _ => Failed tt
    end.

Definition parse_windows_path path : outcome unit Url :=
  match normalize_windows_device_path path with
  | None => parse_unnormalized_windows_path path
  | Some normalized_path =>
      let bad component := is_empty component || special_component component in
      let incomplete_unc :=
        is_some_and (λ unc_path,
          match split_where is_windows_separator_char unc_path with
          | host :: share :: _ => bad host || bad share
          | _ => true
          end) (strip_prefix ($"\\") normalized_path) in
      if incomplete_unc then windows_opaque_path_uri path
      else
        match parse_unnormalized_windows_path normalized_path with
        | Panic => Panic
        | Failed _ => windows_opaque_path_uri path
        | Done uri =>
            if bool_decide (infer_path_convention uri = Some Windows) && negb (is_opaque uri)
               && (negb (RustStr.starts_with ($"\\") normalized_path)
                   || is_some_and (λ host, negb (is_empty host)) (host_str uri))
            then Done uri else windows_opaque_path_uri path
        end
  end.

Definition from_absolute_native_path path (c : PathConvention) : outcome unit Url :=
  uri ← match c with Posix => parse_posix_path path | Windows => parse_windows_path path end;
  if negb (bool_decide (host_str uri = Some [])) && bool_decide (infer_path_convention uri = Some c) then Done uri
  else match c with Posix => from_opaque_path_bytes (as_bytes path) | Windows => windows_opaque_path_uri path end.

(** ** Joining *)

Definition is_drive_relative path : bool :=
  match path with drive :: colon :: _ => bool_decide (colon = COLON) && is_ascii_alphabetic drive | _ => false end.

(** The drive of [self] is the drive letter. *)
Definition same_drive self (drive : char) : bool :=
  is_some_and (λ segment,
    is_windows_drive_uri_segment segment
    && is_some_and (λ c, bool_decide (to_ascii_lowercase_char c = to_ascii_lowercase_char drive)) (head segment))
    (head (non_empty (url_segments self))).

(** A rooted path behind the drive or share: exactly one separator first. *)
Definition windows_root_relative (c : PathConvention) path : bool :=
  bool_decide (c = Windows) &&
  match path with
  | sep :: rest => is_windows_separator_char sep && negb (is_some_and is_windows_separator_char (head rest))
  | [] => false
  end.

Definition join_component (anchor : nat) (st : Url * nat) (component : rstr) : Url * nat :=
  let '(u, depth) := st in
  if is_empty component || bool_decide (component = [DOT]) then (u, depth)
  else if bool_decide (component = [DOT; DOT]) then
    if anchor <? depth then (seg_pop u, depth - 1) else (u, depth)
  else (seg_push component u, S depth).

(** The components after the root was popped to, if the path is rooted. *)
Definition join_components (c : PathConvention) path self : Url :=
  let anchor := anchor_depth c in
  let depth := length (non_empty (url_segments self)) in
  let u := seg_pop_if_empty self in
  let '(u, depth) :=
    if windows_root_relative c path then (Nat.iter (depth - anchor) seg_pop u, min depth anchor) else (u, depth) in
  let path :=
    match c with Posix => path | Windows => (λ ch, if decide (ch = BACKSLASH) then SLASH else ch) <$> path end in
  (foldl (join_component anchor) (u, depth) (split_char SLASH path)).1.

Definition join self path : outcome PathUriParseError Url :=
  if bool_decide (0%N ∈ path) then Failed (InvalidFileUriPath path)
  else if is_empty path then Done self
  else
    match infer_path_convention self with
    | None => Failed (InvalidFileUriPath (as_str self))
    | Some c =>
        match from_absolute_native_path path c with
        | Panic => Panic
        | Done absolute => Done absolute
        | Failed _ =>
            let drive_relative := bool_decide (c = Windows) && is_drive_relative path in
            if drive_relative && negb (is_some_and (same_drive self) (head path)) then Failed (InvalidFileUriPath path)
            else
              let path := if drive_relative then drop 2 path else path in
              if is_opaque self then Failed (InvalidFileUriPath (as_str self))
              else try_from (join_components c path self)
        end
    end.

Definition join_descendant self path : outcome PathUriParseError Url :=
  descendant ← join self path;
  let windows := bool_decide (infer_path_convention self = Some Windows) in
  if RustStr.starts_with [SLASH] path
     || windows && (RustStr.starts_with [BACKSLASH] path
                    || existsb (λ segment, bool_decide (COLON ∈ segment)) (path_segments Windows path))
     || negb (starts_with descendant self)
  then Failed (JoinPathMustBeDescendant path) else Done descendant.

(** [native_path_bytes.rs]: a native path as bytes. *)
Definition join_native_component (segments : list rstr) (component : bytes) : list rstr :=
  if is_empty component || bool_decide (component = [DOT]) then segments
  else if bool_decide (component = [DOT; DOT]) then take (length segments - 1) segments
  else segments ++ [encode_binary component].

Definition join_native_bytes self (path : bytes) : outcome PathUriParseError Url :=
  match from_utf8 path with
  | Ok path => join self path
  | Err _ =>
      if negb (bool_decide (infer_path_convention self = Some Posix)) || is_opaque self || bool_decide (0%N ∈ path)
      then Failed (InvalidFileUriPath (as_str self))
      else
        let segments :=
          if RustStr.starts_with [SLASH] path then [] else non_empty (split_char SLASH (url_path self)) in
        let segments := foldl join_native_component segments (split_char SLASH path) in
        uri ← try_from (set_path (SLASH :: RustStr.join [SLASH] segments) self);
        if bool_decide (infer_path_convention uri = Some Posix) then Done uri
        else Failed (InvalidFileUriPath (as_str uri))
  end.

End path_uri.
