(* ===== verification/ApiPathString.v ===== *)
(** * Path URIs as native text

    [utils/path-uri/src/api_path_string.rs], [config_path.rs] and
    [platform.rs]: rendering a URI with the syntax of the system it belongs
    to, reading path text of an API or a configuration file, and rejecting
    the text whose meaning could change on the way. *)

From S2P Require Import Prelude RustStr StreamText Utf8Stream Url PathUri.

(** ** Lossy decoding of the standard library *)

Definition REPLACEMENT : char := 65533%N.

Fixpoint utf8_lossy_loop (fuel : nat) (bs : bytes) : rstr :=
  match fuel, bs with
  | S fuel, b :: rest =>
      match utf8_next b rest with
      | CodePoint c w => c :: utf8_lossy_loop fuel (drop w bs)
      | InvalidSeq n => REPLACEMENT :: utf8_lossy_loop fuel (drop n bs)
      | Incomplete => [REPLACEMENT]
      end
  | _, _ => []
  end.
Definition from_utf8_lossy (bs : bytes) : rstr := utf8_lossy_loop (length bs) bs.

Definition is_high_surrogate (u : N) : bool := between 55296 u 56319.
Definition is_low_surrogate (u : N) : bool := between 56320 u 57343.
Fixpoint from_utf16_lossy (us : list N) : rstr :=
  match us with
  | [] => []
  | u :: us' =>
      if is_high_surrogate u then
        match us' with
        | v :: us'' =>
            if is_low_surrogate v
            then (65536 + (u - 55296) * 1024 + (v - 56320))%N :: from_utf16_lossy us''
            else REPLACEMENT :: from_utf16_lossy us'
        | [] => [REPLACEMENT]
        end
      else (if is_low_surrogate u then REPLACEMENT else u) :: from_utf16_lossy us'
  end.

Inductive LegacyAppPathStringError :=
| OpaqueFallback (path : rstr)
| IncompatibleConvention (path : rstr) (convention : PathConvention)
| InvalidNativePath (path : rstr) (convention : option PathConvention)
| UnsupportedConfigPath (path : rstr) (convention : PathConvention)
| MissingBaseConvention (cwd : rstr)
| MissingHomeDirectory (path : rstr)
| MismatchedConvention (path : rstr) (path_convention : PathConvention) (cwd : rstr) (convention : PathConvention)
| PathUriError (e : PathUriParseError).

Section api_path.
Context {Url : Type} `{!UrlOps Url}.
Implicit Types (path u self : Url).

(** ** Rendering *)

Definition incompatible_convention path (c : PathConvention) : LegacyAppPathStringError :=
  IncompatibleConvention (as_str path) c.

(** A drive root or a UNC or namespace root, in UTF-16. *)
Definition render_windows_opaque_fallback (path_bytes : bytes) : option rstr :=
  path_wide ← chunks_u16 path_bytes;
  let has_drive_root :=
    match path_wide with
    | drive :: colon :: separator :: _ =>
        is_ascii_alphabetic drive && bool_decide (colon = COLON) && is_windows_separator_char separator
    | _ => false
    end in
  let has_namespace_or_unc_root :=
    match path_wide with
    | first :: second :: _ => is_windows_separator_char first && is_windows_separator_char second
    | _ => false
    end in
  if has_drive_root || has_namespace_or_unc_root then Some (from_utf16_lossy path_wide) else None.

Definition render_opaque_fallback path (path_bytes : bytes) (c : PathConvention) : result LegacyAppPathStringError rstr :=
  let rendered :=
    match c with
    | Posix => if RustStr.starts_with [SLASH] path_bytes then Some (from_utf8_lossy path_bytes) else None
    | Windows => render_windows_opaque_fallback path_bytes
    end in
  match rendered with Some s => Ok s | None => Err (OpaqueFallback (as_str path)) end.

Definition decode_native_segment (segment : rstr) : rstr := from_utf8_lossy (decode_binary (as_bytes segment)).

Definition render_posix_path path : result LegacyAppPathStringError rstr :=
  if bool_decide (is_Some (host_str path)) then Err (incompatible_convention path Posix)
  else Ok (concat ((λ segment, SLASH :: decode_native_segment segment) <$> url_segments path)).

Definition is_bare_drive (s : rstr) : bool :=
  match s with [drive; colon] => is_ascii_alphabetic drive && bool_decide (colon = COLON) | _ => false end.

Definition render_windows_path path : result LegacyAppPathStringError rstr :=
  '(rendered, segments) ←
    match host_str path, url_segments path with
    | _, [] => Err (incompatible_convention path Windows)
    | Some host, share :: segments =>
        let share := decode_native_segment share in
        if is_empty share then Err (incompatible_convention path Windows)
        else Ok ($"\\" ++ host ++ [BACKSLASH] ++ share, segments)
    | None, drive :: segments =>
        let drive := decode_native_segment drive in
        if is_bare_drive drive then Ok (drive, segments) else Err (incompatible_convention path Windows)
    end;
  let rendered := rendered ++ concat ((λ segment, BACKSLASH :: decode_native_segment segment) <$> segments) in
  Ok (match rendered with
      | [_; colon] => if bool_decide (colon = COLON) then rendered ++ [BACKSLASH] else rendered
      | _ => rendered
      end).

Definition from_path_uri path (c : PathConvention) : result LegacyAppPathStringError rstr :=
  match opaque_fallback_bytes path with
  | Some path_bytes => render_opaque_fallback path path_bytes c
  | None => match c with Posix => render_posix_path path | Windows => render_windows_path path end
  end.

Definition inferred_native_path_string self : rstr :=
  match infer_path_convention self with
  | Some c => match from_path_uri self c with Ok s => s | Err _ => as_str self end
  | None => as_str self
  end.

(** ** Reading *)

Definition lift_uri {T} (r : outcome PathUriParseError T) : outcome LegacyAppPathStringError T :=
  match r with Done t => Done t | Failed e => Failed (PathUriError e) | Panic => Panic end.

Definition to_path_uri (s : rstr) (c : PathConvention) : outcome LegacyAppPathStringError Url :=
  match from_absolute_native_path s c with
  | Done u => Done u
  | Failed _ => Failed (InvalidNativePath s (Some c))
  | Panic => Panic
  end.

Definition infer_absolute_path_convention (s : rstr) : option PathConvention :=
  let has_windows_unc_root :=
    match s with
    | first :: second :: _ => is_windows_separator_char first && is_windows_separator_char second
    | _ => false
    end in
  if is_windows_drive_absolute_path s || has_windows_unc_root then Some Windows
  else if RustStr.starts_with [SLASH] s then Some Posix else None.

(** [TryFrom<LegacyAppPathString> for PathUri] and [to_inferred_path_uri]. *)
Definition to_inferred_path_uri (s : rstr) : outcome unit Url :=
  match infer_absolute_path_convention s with
  | None => Failed tt
  | Some c => from_absolute_native_path s c
  end.

Definition render_for_ui (s : rstr) : option rstr :=
  match to_inferred_path_uri s with
  | Done u => Some (inferred_native_path_string u)
  | Failed _ => Some s
  | Panic => None
  end.

Definition is_native_separator (is_windows : bool) (separator : char) : bool :=
  bool_decide (separator = SLASH) || is_windows && bool_decide (separator = BACKSLASH).

Definition resolve_against (s : rstr) (cwd : Url) (user_home_dir : option Url) : outcome LegacyAppPathStringError Url :=
  match infer_path_convention cwd with
  | None => Failed (MissingBaseConvention (as_str cwd))
  | Some c =>
      let is_windows := bool_decide (c = Windows) in
      match home_relative_suffix c s with
      | Some suffix =>
          match user_home_dir with
          | None => Failed (MissingHomeDirectory s)
          | Some home => lift_uri (join home (trim_start_matches (is_native_separator is_windows) suffix))
          end
      | None =>
          if is_windows && (RustStr.starts_with ($"//") s || RustStr.starts_with ($"\\") s) then to_path_uri s Windows
          else
            match infer_absolute_path_convention s with
            | Some path_convention =>
                if bool_decide (path_convention = c) then to_path_uri s c
                else
                  match path_convention with
                  | Posix =>
                      if is_windows then lift_uri (join cwd s)
                      else Failed (MismatchedConvention s path_convention (as_str cwd) c)
                  | Windows => Failed (MismatchedConvention s path_convention (as_str cwd) c)
                  end
            | None => lift_uri (join cwd s)
            end
      end
  end.

(** ** Configuration paths *)

Definition contains_glob_metacharacter (s : rstr) : bool :=
  existsb (λ c, bool_decide (c ∈ $"*?[]{}")) s.

(** The first segment without its drive, and the others. *)
Definition component_colon (segments : list rstr) : bool :=
  match segments with
  | [] => false
  | first :: rest =>
      bool_decide (COLON ∈ (if is_drive_relative first then drop 2 first else first))
      || existsb (λ segment, bool_decide (COLON ∈ segment)) rest
  end.

Definition mixed_separators (suffix : rstr) : bool :=
  RustStr.starts_with [SLASH] suffix
    && RustStr.starts_with [BACKSLASH] (trim_start_matches (λ c, bool_decide (c = SLASH)) suffix)
  || RustStr.starts_with [BACKSLASH] suffix
    && RustStr.starts_with [SLASH] (trim_start_matches (λ c, bool_decide (c = BACKSLASH)) suffix).

Definition validate_config_path_text (input : rstr) (c : PathConvention) : result LegacyAppPathStringError unit :=
  let native_input := default input (normalize_windows_device_path input) in
  let windows := bool_decide (c = Windows) in
  if bool_decide (0%N ∈ input)
     || windows && component_colon (path_segments c native_input)
     || windows && is_some_and mixed_separators (home_relative_suffix c input)
     || windows && is_bare_drive native_input
  then Err (UnsupportedConfigPath input c) else Ok tt.

Definition validate_config_path self (c : PathConvention) : result LegacyAppPathStringError unit :=
  if negb (bool_decide (infer_path_convention self = Some c)) then Err (IncompatibleConvention (as_str self) c)
  else
    let path_bytes := decode_binary (as_bytes (url_path self)) in
    if negb (bool_decide (is_Some (lexical_depth self))) || bool_decide (0%N ∈ path_bytes) || negb (is_ok (from_utf8 path_bytes))
    then Err (PathUriError (InvalidFileUriPath (as_str self)))
    else s ← from_path_uri self c; validate_config_path_text s c.

Definition validate_glob_directory self (c : PathConvention) : result LegacyAppPathStringError unit :=
  _ ← validate_config_path self c;
  path ← from_path_uri self c;
  if contains_glob_metacharacter path || bool_decide (c = Posix) && bool_decide (BACKSLASH ∈ path)
  then Err (UnsupportedConfigPath path c) else Ok tt.

Definition lift_check {T} (r : result LegacyAppPathStringError T) : outcome LegacyAppPathStringError T :=
  match r with Ok t => Done t | Err e => Failed e end.

(** The checks of the home or base directory a relative path is resolved in. *)
Definition validate_directory (dir : Url) (input : rstr) (c : PathConvention) : result LegacyAppPathStringError unit :=
  _ ← validate_config_path dir c;
  if contains_glob_metacharacter input then validate_glob_directory dir c else Ok tt.

Definition resolve_config_path_uri (input : rstr) (c : PathConvention) (base user_home_dir : option Url) :
    outcome LegacyAppPathStringError Url :=
  _ ← lift_check (validate_config_path_text input c);
  resolved ←
    match home_relative_suffix c input with
    | Some _ =>
        match user_home_dir with
        | None => Failed (MissingHomeDirectory input)
        | Some home => _ ← lift_check (validate_directory home input c); resolve_against input home (Some home)
        end
    | None =>
        match to_path_uri input c, base with
        | Panic, _ => Panic
        | Done absolute, _ => Done absolute
        | Failed e, None => Failed e
        | Failed _, Some base => _ ← lift_check (validate_directory base input c); resolve_against input base None
        end
    end;
  _ ← lift_check (validate_config_path resolved c);
  lift_uri (join resolved [DOT]).

Definition to_config_path_string self (c : PathConvention) : result LegacyAppPathStringError rstr :=
  rendered ← from_path_uri self c;
  Ok (if bool_decide (is_Some (host_str self)) && negb (bool_decide (is_Some (parent self)))
      then rendered ++ [BACKSLASH] else rendered).

Definition resolve_config_path (input : rstr) (c : PathConvention) (base user_home_dir : option Url) :
    outcome LegacyAppPathStringError rstr :=
  u ← resolve_config_path_uri input c base user_home_dir;
  lift_check (to_config_path_string u c).
End api_path.

(** ** Platforms ([platform.rs]) *)

Inductive Platform := PlatformLinux | PlatformMacos | PlatformWindows | PlatformUnknown.

Definition from_platform_os (platform_os : option rstr) : Platform :=
  match platform_os with
  | Some os =>
      if bool_decide (os = $"linux") then PlatformLinux
      else if bool_decide (os = $"macos") then PlatformMacos
      else if bool_decide (os = $"windows") then PlatformWindows
      else PlatformUnknown
  | None => PlatformUnknown
  end.

Definition path_convention (p : Platform) : option PathConvention :=
  match p with
  | PlatformLinux | PlatformMacos => Some Posix
  | PlatformWindows => Some Windows
  | PlatformUnknown => None
  end.
