(* ===== verification/PathUriFacts.v ===== *)
(** * Properties of path URIs

    The validated URLs, what opaque ones look like, containment of POSIX paths
    as a prefix order on names, and that every operation returns a validated
    URL again. *)

From S2P Require Import Prelude RustStr StreamText Utf8Stream Url PathUri ApiPathString.

(** ** Segments *)

Lemma non_empty_app k l : non_empty (k ++ l) = non_empty k ++ non_empty l.
Proof. apply filter_app. Qed.

Lemma non_empty_one s : non_empty [s] = if bool_decide (s = []) then [] else [s].
Proof. unfold non_empty. rewrite filter_cons. by destruct s. Qed.

Lemma decode_drive s c rest : is_windows_drive_uri_segment s = true → s = c :: rest →
  percent_decode s = [c; COLON] ∧ is_ascii_alphabetic c = true ∧ c ≠ PERCENT.
Proof.
  intros Hs ->. assert (∀ c : char, is_ascii_alphabetic c = true → c ≠ PERCENT) as Hp by (by intros ? ? ->).
  destruct rest as [|a [|b [|d [|? ?]]]]; try done; cbn [is_windows_drive_uri_segment] in Hs.
  - apply andb_true_iff in Hs as [->%bool_decide_eq_true Hc]. split_and!; [|done|by apply Hp].
    cbn [percent_decode]. by rewrite decide_False by (by apply Hp).
  - rewrite !andb_true_iff in Hs. destruct Hs as [[[->%bool_decide_eq_true ->%bool_decide_eq_true] Ha] Hc].
    split_and!; [|done|by apply Hp]. cbn [percent_decode]. rewrite decide_False by (by apply Hp).
    f_equal. apply orb_true_iff in Ha as [->%bool_decide_eq_true| ->%bool_decide_eq_true]; reflexivity.
Qed.

Section facts.
Context {Url : Type} `{!UrlOps Url, !UrlLaws Url}.
Implicit Types (u v x base : Url).

(** ** Validated URLs *)

Definition valid u : bool := bool_decide (scheme u = FILE_SCHEME) && is_ok (validate_file_url u).

Lemma validate_known u : validate_common_known_uri u = Ok tt ↔
  username u = [] ∧ password u = None ∧ port u = None ∧ query u = None ∧ fragment u = None.
Proof.
  unfold validate_common_known_uri. destruct (username u); cbn [is_empty negb orb]; [|by split; [|intros [? _]]].
  destruct (password u); [by split; [|intros (_ & ? & _)]|]. cbn. destruct (port u); [by split; [|intros (_ & _ & ? & _)]|].
  destruct (query u); [by split; [|intros (_ & _ & _ & ? & _)]|]. destruct (fragment u); [by split; [|intros (_ & _ & _ & _ & ?)]|].
  done.
Qed.

Lemma url_path_ascii u : plain_file u → Forall (λ c, (c < 128)%N) (url_path u).
Proof.
  intros Hu. pose proof (as_str_ascii u) as H. rewrite (as_str_file u Hu), !Forall_app in H. tauto.
Qed.

Lemma segment_ascii u s : plain_file u → s ∈ url_segments u → Forall (λ c, (c < 128)%N) s.
Proof.
  intros Hu Hs. pose proof (url_path_ascii u Hu) as H. rewrite (path_of_segments u Hu) in H.
  apply Forall_concat, (Forall_forall _ _) with (x := SLASH :: s) in H; [by inversion H|].
  by apply list_elem_of_fmap_2.
Qed.

Lemma decode_segment u s : plain_file u → s ∈ url_segments u →
  decode_binary (as_bytes s) = percent_decode s.
Proof. intros Hu Hs. rewrite decode_binary_spec, as_bytes_ascii; [done|]. by eapply segment_ascii. Qed.

Definition no_nul u : Prop := ∀ s, s ∈ url_segments u → 0%N ∉ percent_decode s.

Lemma decoded_path u : plain_file u →
  decode_binary (as_bytes (url_path u)) = concat (cons SLASH <$> (percent_decode <$> url_segments u)).
Proof.
  intros Hu. rewrite decode_binary_spec, as_bytes_ascii by (by apply url_path_ascii).
  by rewrite (path_of_segments u Hu), percent_decode_path.
Qed.

Lemma no_nul_path u : plain_file u → 0%N ∉ decode_binary (as_bytes (url_path u)) ↔ no_nul u.
Proof.
  intros Hu. rewrite (decoded_path u Hu), <- list_fmap_compose, elem_of_concat_fmap. unfold no_nul. cbn [compose].
  split; [intros H s Hs H0|intros H (s & Hs & H0)]; [apply H; exists s; by rewrite elem_of_cons; auto|].
  apply elem_of_cons in H0 as [?|H0]; [done|]. by apply (H s).
Qed.

Lemma valid_spec u : valid u = true ↔ plain_file u ∧ (is_opaque u = true ∨ no_nul u).
Proof.
  unfold valid. rewrite andb_true_iff, bool_decide_eq_true. unfold validate_file_url.
  destruct (validate_common_known_uri u) as [[]|e] eqn:Ek; cbn.
  - apply validate_known in Ek. split; [intros [Hs Hn]|intros [Hu Ho]].
    + assert (plain_file u) as Hu by done. split; [done|]. destruct (is_opaque u); [by left|right].
      apply no_nul_path; [done|]. by case_bool_decide.
    + split; [apply Hu|]. destruct Ho as [->|Ho]; [by rewrite andb_false_r|].
      apply no_nul_path in Ho; [|done]. by rewrite bool_decide_eq_false_2.
  - split; [by intros [_ ?]|]. intros [Hu _]. assert (validate_common_known_uri u = Ok tt) as Hk; [|congruence].
    apply validate_known, Hu.
Qed.

(** An opaque URI is nothing but its payload behind the reserved prefix. *)
Lemma opaque_shape u : plain_file u → is_opaque u = true →
  default [] (host_str u) = [] ∧ ∃ e, SLASH ∉ e ∧ e ≠ [] ∧ url_segments u = [$"%00"; $"bad"; $"path"; e].
Proof.
  intros Hu Ho%bool_decide_eq_true. destruct Ho as [bs Ho]. unfold opaque_fallback_bytes, decode_bad_path_uri in Ho.
  destruct (strip_prefix BAD_PATH_URI_PREFIX (as_str u)) as [e|] eqn:Es; [cbn in Ho|done].
  destruct e as [|c e]; [done|]. cbn [is_empty orb] in Ho. case_bool_decide as He; [done|]. clear Ho.
  apply strip_prefix_Some in Es. rewrite (as_str_file u Hu) in Es.
  change BAD_PATH_URI_PREFIX with ($"file://" ++ $"/%00/bad/path/") in Es. rewrite <- app_assoc in Es.
  apply app_inv_head in Es.
  assert (default [] (host_str u) = []) as Hh.
  { pose proof (host_no_slash u Hu) as Hns. destruct (default [] (host_str u)) as [|h t]; [done|].
    injection Es as -> _. exfalso. apply Hns. left. }
  split; [done|]. rewrite Hh in Es. cbn [app] in Es. rewrite (path_of_segments u Hu) in Es.
  exists (c :: e). split_and!; [done|done|].
  apply path_segments_inj; [by intros s; apply segments_no_slash| |rewrite Es; cbn; by rewrite app_nil_r].
  intros s. rewrite !elem_of_cons, elem_of_nil. intros [->|[->|[->|[->|[]]]]]; [apply (bool_decide_unpack _); reflexivity..|done].
Qed.

Lemma no_nul_not_opaque u : plain_file u → no_nul u → is_opaque u = false.
Proof.
  intros Hu Hn. destruct (is_opaque u) eqn:Ho; [|done]. destruct (opaque_shape u Hu Ho) as (_ & e & _ & _ & Hs).
  exfalso. apply (Hn ($"%00")); [rewrite Hs; left|]. vm_compute. left.
Qed.

Lemma opaque_host u : plain_file u → is_opaque u = true → host_str u ≠ Some ($"localhost").
Proof. intros Hu Ho. destruct (opaque_shape u Hu Ho) as [Hh _]. by destruct (host_str u) as [h|]; [cbn in Hh; subst h|]. Qed.

(** ** POSIX URIs *)

Lemma posix_head u : is_opaque u = false → infer_path_convention u = Some Posix ↔
  host_str u = None ∧ is_some_and is_windows_drive_uri_segment (head (non_empty (url_segments u))) = false.
Proof.
  unfold infer_path_convention, is_opaque. destruct (opaque_fallback_bytes u); [done|]. intros _.
  destruct (host_str u) as [h|]; cbn; [by split; [|intros [? _]]|].
  destruct (is_some_and _ _); [by split; [|intros [_ ?]]|]. done.
Qed.

Lemma non_opaque_convention u : is_opaque u = false → is_Some (infer_path_convention u).
Proof.
  unfold infer_path_convention, is_opaque. destruct (opaque_fallback_bytes u); [done|]. intros _.
  case_bool_decide; [by eexists|]. destruct (is_some_and _ _); by eexists.
Qed.

Lemma posix_depth u d : infer_path_convention u = Some Posix → lexical_depth u = Some d →
  is_opaque u = false ∧ containment_path_segments u Posix = Some (non_empty (url_segments u)) ∧
  d = length (non_empty (url_segments u)).
Proof.
  intros Hc. unfold lexical_depth. destruct (is_opaque u); [done|]. rewrite Hc. cbn. unfold containment_path_segments.
  destruct (existsb _ _); cbn; [done|]. by intros [= <-].
Qed.

(** The decoded names of a path. *)
Definition path_names u : list bytes := percent_decode <$> non_empty (url_segments u).

Lemma decode_non_empty u : plain_file u →
  (λ s, decode_binary (as_bytes s)) <$> non_empty (url_segments u) = path_names u.
Proof.
  intros Hu. apply list_fmap_ext. intros i s Hs. apply (decode_segment u); [done|].
  apply list_elem_of_lookup_2, list_elem_of_filter in Hs. tauto.
Qed.

Lemma start_with_posix ps bs : native_path_segments_start_with ps bs Posix = true ↔
  ((λ s, decode_binary (as_bytes s)) <$> bs) `prefix_of` ((λ s, decode_binary (as_bytes s)) <$> ps).
Proof.
  unfold native_path_segments_start_with. rewrite andb_true_iff, Nat.leb_le.
  revert ps. induction bs as [|b bs IH]; intros [|s ps]; cbn [fmap list_fmap length zip zip_with forallb same_segment].
  - split; [done|]. by intros _.
  - split; [intros _; apply prefix_nil|]. intros _. split; [lia|done].
  - split; [intros [? _]; lia|]. by intros ?%prefix_nil_not.
  - rewrite andb_true_iff, bool_decide_eq_true. specialize (IH ps). split.
    + intros (Hl & -> & Hf). apply prefix_cons, IH. split; [lia|done].
    + intros Hp. pose proof (prefix_cons_inv_1 _ _ _ _ Hp) as <-. apply prefix_cons_inv_2, IH in Hp as [Hl Hf].
      split_and!; [lia|done|done].
Qed.

Lemma posix_eq u v : infer_path_convention v = Some Posix → path_uri_eq u v = bool_decide (u = v).
Proof.
  intros Hv. unfold path_uri_eq. case_bool_decide; [done|]. unfold windows_identity_path_bytes at 2. rewrite Hv. cbn.
  by destruct (windows_identity_path_bytes u).
Qed.

(** Containment of paths with a depth is a prefix of names. *)
Lemma posix_within u v d d' : plain_file u → plain_file v →
  infer_path_convention u = Some Posix → infer_path_convention v = Some Posix →
  lexical_depth u = Some d → lexical_depth v = Some d' →
  starts_with u v = true ↔ path_names v `prefix_of` path_names u.
Proof.
  intros Hu Hv Hcu Hcv (Hou & Hsu & _)%posix_depth (Hov & Hsv & _)%posix_depth; [|done..].
  unfold starts_with. rewrite (posix_eq u v Hcv). case_bool_decide as He; [subst v; done|].
  rewrite Hou, Hov. cbn [orb]. pose proof (proj1 (posix_head u Hou) Hcu) as [-> _].
  pose proof (proj1 (posix_head v Hov) Hcv) as [-> _]. rewrite Hcu, Hcv.
  rewrite !bool_decide_eq_true_2 by done. cbn [negb from_option id]. rewrite Hsu, Hsv, start_with_posix.
  by rewrite !decode_non_empty.
Qed.

(** Paths without a depth are within nothing but themselves. *)
Lemma posix_within_no_depth u v : infer_path_convention u = Some Posix → infer_path_convention v = Some Posix →
  lexical_depth u = None ∨ lexical_depth v = None → starts_with u v = true → u = v.
Proof.
  intros Hu Hv Hd Hw. unfold starts_with in Hw. rewrite (posix_eq u v Hv) in Hw. case_bool_decide as He; [done|].
  unfold lexical_depth in Hd. destruct (is_opaque u); [done|]. destruct (is_opaque v); [done|]. cbn [orb] in Hw.
  case_bool_decide; [|done]. cbn in Hw. rewrite Hu, Hv in *. cbn in Hw, Hd.
  destruct Hd as [Hd|Hd]; apply fmap_None in Hd; rewrite Hd in Hw; [done|].
  by destruct (containment_path_segments u Posix).
Qed.

(** ** Parents *)

Lemma segments_snoc u : plain_file u → ∃ k s, url_segments u = k ++ [s].
Proof.
  intros Hu. pose proof (segments_nonempty u Hu) as Hn. destruct (url_segments u) as [|k s _] using rev_ind; [done|]. eauto.
Qed.

Lemma up_shape u : plain_file u → non_empty (url_segments u) ≠ [] →
  let p := seg_pop (seg_pop_if_empty u) in
  plain_file p ∧ host_str p = host_str u ∧ (∀ s, s ∈ url_segments p → s = [] ∨ s ∈ url_segments u) ∧
  non_empty (url_segments p) `prefix_of` non_empty (url_segments u) ∧ length (url_path p) < length (url_path u).
Proof.
  intros Hu Hd p. destruct (seg_pop_if_empty_part u Hu) as [Hv Hhv]. destruct (seg_pop_part _ Hv) as [Hp Hhp].
  split; [done|]. split; [unfold p; congruence|]. rewrite (path_of_segments u Hu), (path_of_segments p Hp).
  destruct (segments_snoc u Hu) as (k & s & Hs). pose proof (seg_pop_if_empty_segments u k s Hu Hs) as Hsv.
  rewrite Hs in Hd |- *. unfold p.
  assert ((s = [] ∧ ∃ k0 s0, k = k0 ++ [s0] ∧ url_segments (seg_pop_if_empty u) = k0 ++ [s0]) ∨
    (s ≠ [] ∧ url_segments (seg_pop_if_empty u) = k ++ [s])) as Hcase.
  { destruct s as [|c s]; [left|right; split; [done|by rewrite Hsv]]. split; [done|].
    destruct k as [|s0 k0 _] using rev_ind; [cbn [app] in Hd; by rewrite non_empty_one in Hd|]. exists k0, s0. split; [done|].
    rewrite Hsv. by destruct k0. }
  assert (∀ k0 : list rstr, match k0 with [] => [[]] | _ => k0 end = k0 ∨
    k0 = []) as Hm by (intros [|? ?]; auto).
  destruct Hcase as [[-> (k0 & s0 & -> & Hv0)]|[Hsn Hv0]]; rewrite (seg_pop_segments _ _ _ Hv Hv0).
  - destruct (Hm k0) as [->| ->].
    + split_and!; [intros ? ?; right; rewrite !elem_of_app; auto| |].
      * rewrite !non_empty_app, <- app_assoc. by apply prefix_app_r.
      * rewrite !fmap_app, !concat_app, !length_app. cbn. lia.
    + split_and!; [by intros ? ->%list_elem_of_singleton; left|apply prefix_nil|]. cbn. rewrite length_app. cbn. lia.
  - destruct (Hm k) as [->| ->].
    + split_and!; [intros ? ?; right; rewrite !elem_of_app; auto|rewrite non_empty_app; by apply prefix_app_r|].
      rewrite fmap_app, concat_app, length_app. cbn. lia.
    + split_and!; [by intros ? ->%list_elem_of_singleton; left|apply prefix_nil|]. cbn. rewrite app_nil_r.
      destruct s; [done|cbn; lia].
Qed.

Lemma parent_up u p : parent u = Some p → is_opaque u = false ∧ non_empty (url_segments u) ≠ [] ∧ p = seg_pop (seg_pop_if_empty u).
Proof.
  unfold parent. destruct (is_opaque u); [done|]. destruct (infer_path_convention u) as [c|]; [cbn|done].
  destruct (Nat.leb_spec (length (non_empty (url_segments u))) (anchor_depth c)) as [|Hl]; [done|]. intros [= <-].
  split_and!; [done| |done]. intros E. rewrite E in Hl. simpl in Hl. lia.
Qed.

Lemma no_nul_up u p : no_nul u → (∀ s, s ∈ url_segments p → s = [] ∨ s ∈ url_segments u) → no_nul p.
Proof. intros Hn H s [->|Hs]%H; [apply not_elem_of_nil|by apply Hn]. Qed.

Lemma parent_valid u p : valid u = true → parent u = Some p → valid p = true.
Proof.
  intros [Hu Hn]%valid_spec (Ho & Hd & ->)%parent_up. destruct Hn as [?|Hn]; [congruence|].
  destruct (up_shape u Hu Hd) as (Hp & _ & Hs & _). apply valid_spec. split; [done|right]. by eapply no_nul_up.
Qed.

Lemma prefix_head {A} (k l : list A) : k `prefix_of` l → head k = None ∨ head k = head l.
Proof. intros [r ->]. destruct k; cbn; auto. Qed.

(** A POSIX URI that is not opaque, with the names the laws speak of. *)
Definition posix u : Prop := plain_file u ∧ no_nul u ∧ infer_path_convention u = Some Posix.

Lemma posix_intro u : plain_file u → no_nul u → host_str u = None →
  is_some_and is_windows_drive_uri_segment (head (non_empty (url_segments u))) = false → posix u.
Proof. intros Hu Hn Hh Hd. split_and!; [done..|]. apply posix_head; [by apply no_nul_not_opaque|done]. Qed.

Lemma parent_posix u p : posix u → parent u = Some p → posix p.
Proof.
  intros (Hu & Hn & Hc) (Ho & Hd & ->)%parent_up. apply posix_head in Hc as [Hh Hdr]; [|done].
  destruct (up_shape u Hu Hd) as (Hp & Hhp & Hs & Hpre & _). apply posix_intro; [done|by eapply no_nul_up|congruence|].
  by destruct (prefix_head _ _ Hpre) as [->| ->].
Qed.

Lemma parent_none u : posix u → parent u = None → non_empty (url_segments u) = [].
Proof.
  intros (Hu & Hn & Hc). unfold parent. rewrite (no_nul_not_opaque u Hu Hn), Hc. cbn.
  by destruct (non_empty (url_segments u)).
Qed.

(** The fuel of [ancestors] is enough: the walk ends at a root. *)
Lemma successors_root fuel : ∀ u, posix u → length (url_path u) < fuel →
  ∃ r, last (successors fuel u) = Some r ∧ posix r ∧ non_empty (url_segments r) = [].
Proof.
  induction fuel as [|fuel IH]; intros u Hu Hf; [lia|]. cbn [successors].
  destruct (parent u) as [p|] eqn:Ep.
  - pose proof (parent_posix u p Hu Ep) as Hp. destruct (parent_up u p Ep) as (_ & Hd & Hup).
    destruct (up_shape u (proj1 Hu) Hd) as (_ & _ & _ & _ & Hl). rewrite <- Hup in Hl.
    destruct (IH p Hp) as (r & Hr & Hpr); [lia|]. exists r. split; [|done]. rewrite last_cons, Hr. done.
  - exists u. split_and!; [done..|]. by apply parent_none.
Qed.

Lemma root_depth u : posix u → non_empty (url_segments u) = [] → lexical_depth u = Some 0.
Proof.
  intros (Hu & Hn & Hc) He. unfold lexical_depth. rewrite (no_nul_not_opaque u Hu Hn), Hc. cbn.
  unfold containment_path_segments. by rewrite He.
Qed.

End facts.
