(* ===== verification/PathUriJoin.v ===== *)
(** * Building and joining path URIs

    Every URL a conversion or a join returns is validated, the
    [unreachable!]s of the code are not reached, and a POSIX join is the
    resolution of names. *)

From S2P Require Import Prelude RustStr StreamText Utf8Stream Url PathUri ApiPathString PathUriFacts.

(** ** The first name of a path *)

Lemma trim_slash_path segs : (∀ s : rstr, s ∈ segs → SLASH ∉ s) →
  ∃ pre rest, concat (cons SLASH <$> segs) = pre ++ default [] (head (non_empty segs)) ++ rest ∧
    Forall (λ c, c = SLASH) pre ∧
    trim_start_matches (λ c, bool_decide (c = SLASH)) (concat (cons SLASH <$> segs)) = default [] (head (non_empty segs)) ++ rest ∧
    (rest = [] ∨ ∃ r, rest = SLASH :: r) ∧ (head (non_empty segs) = None → rest = []).
Proof.
  induction segs as [|s segs IH]; intros Hs; [by exists [], []; split_and!; eauto|].
  destruct IH as (pre & rest & Hc & Hp & Ht & Hr & Hn); [by intros s' Hs'; apply Hs; right|].
  change (non_empty (s :: segs)) with (non_empty ([s] ++ segs)). rewrite non_empty_app, non_empty_one.
  cbn [fmap list_fmap concat]. destruct s as [|c s]; cbn [app].
  - exists (SLASH :: pre), rest. rewrite bool_decide_eq_true_2 by done. cbn [app]. split_and!; [by rewrite Hc|by constructor| |done|done].
    cbn [trim_start_matches]. by rewrite bool_decide_eq_true_2.
  - rewrite bool_decide_eq_false_2 by done. cbn [app head default from_option id]. exists [SLASH], (concat (cons SLASH <$> segs)).
    split_and!; [done|by constructor| | |done].
    + cbn [app trim_start_matches]. rewrite bool_decide_eq_true_2 by done. cbn [trim_start_matches].
      rewrite bool_decide_eq_false_2; [done|]. intros ->. apply (Hs (SLASH :: s)); left.
    + destruct segs as [|s' segs']; [by left|right]. cbn. eauto.
Qed.

Lemma split_char_first s rest : SLASH ∉ s → rest = [] ∨ (∃ r, rest = SLASH :: r) →
  head (split_char SLASH (s ++ rest)) = Some s.
Proof.
  intros Hs Hr. induction s as [|c s IH]; cbn [app].
  - by destruct Hr as [->|[r ->]].
  - apply not_elem_of_cons in Hs as [Hc Hs]. cbn [split_char]. rewrite decide_False by done. specialize (IH Hs).
    destruct (split_char SLASH (s ++ rest)) as [|h t]; [done|]. cbn in *. by injection IH as ->.
Qed.

(** Splitting what was joined. *)
Lemma split_char_join l : l ≠ [] → (∀ s : rstr, s ∈ l → SLASH ∉ s) → split_char SLASH (RustStr.join [SLASH] l) = l.
Proof.
  assert (∀ s t : rstr, SLASH ∉ s → split_char SLASH (s ++ SLASH :: t) = s :: split_char SLASH t) as Happ.
  { intros s t. induction s as [|c s IH]; intros Hs; cbn [app split_char]; [by rewrite decide_True|].
    apply not_elem_of_cons in Hs as [Hc Hs]. rewrite decide_False by done. by rewrite IH. }
  assert (∀ s : rstr, SLASH ∉ s → split_char SLASH s = [s]) as Hone.
  { intros s. induction s as [|c s IH]; intros Hs; [done|]. cbn [split_char].
    apply not_elem_of_cons in Hs as [Hc Hs]. rewrite decide_False by done. by rewrite IH. }
  induction l as [|s [|s' l] IH]; intros Hn Hl; [done|apply Hone, Hl; left|].
  change (RustStr.join [SLASH] (s :: s' :: l)) with (s ++ SLASH :: RustStr.join [SLASH] (s' :: l)).
  rewrite Happ by (apply Hl; left). f_equal. apply IH; [done|]. intros x Hx. apply Hl. by right.
Qed.

Lemma split_char_no_sep s t : t ∈ split_char SLASH s → SLASH ∉ t.
Proof.
  revert t. induction s as [|c s IH]; intros t; cbn [split_char]; [by intros ->%list_elem_of_singleton; apply not_elem_of_nil|].
  destruct (decide (c = SLASH)) as [->|Hc].
  - intros [->|Ht]%elem_of_cons; [apply not_elem_of_nil|by apply IH].
  - destruct (split_char SLASH s) as [|h tl].
    + intros ->%list_elem_of_singleton. rewrite not_elem_of_cons. split; [done|apply not_elem_of_nil].
    + intros [->|Ht]%elem_of_cons; [|apply IH; by right]. rewrite not_elem_of_cons. split; [done|]. apply IH. left.
Qed.

Section joins.
Context {Url : Type} `{!UrlOps Url, !UrlLaws Url}.
Implicit Types (u v w base : Url).

(** ** Validation *)

Lemma drive_normalised u w : plain_file u → is_opaque u = true ∨ no_nul u → with_normalized_windows_drive_letter u = w →
  w = u ∨
  ∃ pre c rest, plain_file w ∧ host_str w = host_str u ∧ host_str u = None ∧ Forall (λ c, c = SLASH) pre ∧
    is_ascii_lowercase c = true ∧
    url_path u = pre ++ c :: rest ∧ url_path w = pre ++ (c - 32)%N :: rest ∧
    ∃ s, head (non_empty (url_segments u)) = Some s ∧ is_windows_drive_uri_segment s = true.
Proof.
  intros Hu Hn. unfold with_normalized_windows_drive_letter. case_bool_decide as Hh; [by left|].
  assert (host_str u = None) as Hnone by (destruct (host_str u); [destruct Hh; by eexists|done]). clear Hh.
  pose proof (path_of_segments u Hu) as Hpath.
  destruct (trim_slash_path (url_segments u)) as (pre & rest & Hc & Hp & Ht & Hr & Hno); [by intros s; apply segments_no_slash|].
  rewrite <- Hpath in Hc, Ht. rewrite Ht.
  destruct (head (non_empty (url_segments u))) as [s|] eqn:Es; cbn [default from_option id] in *; [|rewrite (Hno eq_refl); by left].
  assert (s ∈ url_segments u ∧ s ≠ []) as [Hin Hsn].
  { assert (s ∈ non_empty (url_segments u)) as Hin; [|apply list_elem_of_filter in Hin; tauto].
    destruct (non_empty (url_segments u)); [done|]. injection Es as ->. left. }
  destruct s as [|c s]; [done|]. cbn [app].
  assert (head (split_char SLASH (c :: s ++ rest)) = Some (c :: s)) as ->.
  { apply (split_char_first (c :: s)); [|done]. by apply (segments_no_slash u). }
  cbn [default from_option id].
  destruct (is_windows_drive_uri_segment (c :: s)) eqn:Ed; [cbn [negb orb]|by left].
  destruct (is_ascii_uppercase c) eqn:Eu; [by left|]. intros <-. right.
  destruct (decode_drive (c :: s) c s Ed eq_refl) as (_ & Hal & _).
  assert (is_ascii_lowercase c = true) as Hlow.
  { unfold is_ascii_alphabetic in Hal. unfold is_ascii_uppercase in Eu. by rewrite Eu in Hal. }
  assert (to_ascii_uppercase_char c = (c - 32)%N) as Hup.
  { unfold to_ascii_uppercase_char. unfold is_ascii_lowercase in Hlow. by rewrite Hlow. }
  rewrite Hup. replace (length (url_path u) - length (c :: s ++ rest)) with (length pre)
    by (rewrite Hc, length_app; cbn [app length]; lia).
  rewrite Hc, take_app_length. exists pre, c, (s ++ rest).
  destruct (set_path_part (pre ++ (c - 32)%N :: s ++ rest) u Hu) as [Hw Hhw].
  split_and!; [done|congruence|done|done|done|done| |by exists (c :: s)].
  apply set_path_case; [done|done|by rewrite Hlow|done].
Qed.

Lemma percent_decode_slashes pre t : Forall (λ c, c = SLASH) pre → percent_decode (pre ++ t) = pre ++ percent_decode t.
Proof. induction 1 as [|c pre -> _ IH]; [done|]. cbn [app percent_decode]. by rewrite decide_False, IH. Qed.

Lemma drive_normalised_valid u : valid u = true → valid (with_normalized_windows_drive_letter u) = true.
Proof.
  intros Hv. pose proof Hv as [Hu Hn]%valid_spec.
  destruct (drive_normalised u _ Hu Hn eq_refl) as [->|(pre & c & rest & Hw & _ & _ & Hp & Hal & Hpu & Hpw & s & Hs & Hd)]; [done|].
  apply valid_spec. split; [done|right].
  assert (is_opaque u = false) as Ho.
  { destruct (is_opaque u) eqn:Ho; [|done]. destruct (opaque_shape u Hu Ho) as (_ & e & _ & _ & Hsegs).
    rewrite Hsegs in Hs. by injection Hs as <-. }
  destruct Hn as [?|Hn]; [congruence|]. apply no_nul_path in Hn; [|done]. apply no_nul_path; [done|].
  rewrite decode_binary_spec, as_bytes_ascii in Hn |- * by (by apply url_path_ascii). rewrite Hpu in Hn. rewrite Hpw.
  assert (c ≠ PERCENT ∧ (c - 32)%N ≠ PERCENT ∧ (c - 32)%N ≠ 0%N) as (Hc0 & Hc1 & Hc2).
  { unfold is_ascii_lowercase in Hal. rewrite !andb_true_iff, !N.leb_le in Hal. unfold PERCENT. lia. }
  rewrite percent_decode_slashes in Hn |- * by done. cbn [percent_decode] in *.
  rewrite decide_False in Hn by done. rewrite decide_False by done.
  rewrite elem_of_app, elem_of_cons in *. intros [?|[?|?]]; [tauto|congruence|tauto].
Qed.
Lemma try_from_shape u : match try_from u with
  | Done w => valid u = true ∧ ∃ v, valid v = true ∧ url_segments v = url_segments u ∧
      (v = u ∧ host_str u ≠ Some ($"localhost") ∨ host_str u = Some ($"localhost") ∧ host_str v = None) ∧
      w = with_normalized_windows_drive_letter v
  | Failed e => valid u = false
  | Panic => False
  end.
Proof.
  unfold try_from, valid. case_bool_decide as Hs; cbn [negb andb]; [|done].
  destruct (validate_file_url u) as [[]|e] eqn:Ev; [|done]. cbn [is_ok].
  assert (valid u = true) as Hv by (unfold valid; by rewrite bool_decide_eq_true_2, Ev).
  pose proof Hv as [Hu Hn]%valid_spec. unfold without_localhost_authority. case_bool_decide as Hl.
  - destruct (unset_host u Hu) as (v & Hset & Hhv). rewrite Hset. cbn. split; [done|]. exists v.
    destruct (set_host_part None u v Hu Hset) as [Hpv Hsv]. split_and!; [|done|by right|done].
    apply valid_spec. split; [done|right]. destruct Hn as [Ho|Hn]; [by apply opaque_host in Ho|].
    intros s. rewrite Hsv. apply Hn.
  - cbn. split; [done|]. exists u. split_and!; [done|done|by left|done].
Qed.

Lemma try_from_valid u w : try_from u = Done w → valid w = true.
Proof.
  intros E. pose proof (try_from_shape u) as H. rewrite E in H. destruct H as (_ & v & Hv & _ & _ & ->).
  by apply drive_normalised_valid.
Qed.

(** A validated URL without a drive is kept as it is. *)
Lemma try_from_same u : valid u = true → host_str u = None →
  is_some_and is_windows_drive_uri_segment (head (non_empty (url_segments u))) = false → try_from u = Done u.
Proof.
  intros Hv Hh Hd. pose proof Hv as [Hu Hn]%valid_spec. unfold valid in Hv. apply andb_true_iff in Hv as [Hs Hv].
  unfold try_from. rewrite Hs. cbn [negb]. destruct (validate_file_url u); [|done].
  unfold without_localhost_authority. rewrite Hh, bool_decide_eq_false_2 by done. cbn. f_equal.
  destruct (drive_normalised u _ Hu Hn eq_refl) as [->|(pre & c & rest & _ & _ & _ & _ & _ & _ & _ & s & Hhd & Hdr)]; [done|].
  rewrite Hhd in Hd. cbn in Hd. congruence.
Qed.

Lemma try_from_valid_arg u w : try_from u = Done w → valid u = true.
Proof. intros E. pose proof (try_from_shape u) as H. rewrite E in H. tauto. Qed.

Lemma ok_Done {E T} (r : outcome E T) t : ok r = Done t ↔ r = Done t.
Proof. destruct r; cbn; split; congruence. Qed.

Lemma ok_try_from_total u : ok (try_from u) ≠ Panic.
Proof. pose proof (try_from_shape u). by destruct (try_from u). Qed.

(** ** Opaque URIs are built *)

Lemma plain_char_no_dot (e : rstr) : Forall (λ c, plain_char c) e → PERCENT ∉ e ∧ SLASH ∉ e ∧ DOT ∉ e.
Proof. rewrite Forall_forall. intros H. split_and!; intros ?%H; done. Qed.

Lemma from_opaque_spec (bs : bytes) : bs ≠ [] →
  ∃ u, from_opaque_path_bytes bs = Done u ∧ valid u = true ∧ opaque_fallback_bytes u = Some bs.
Proof.
  intros Hbs. unfold from_opaque_path_bytes, parse. set (e := base64_encode bs).
  pose proof (base64_plain bs) as Hplain. fold e in Hplain. pose proof (plain_char_no_dot e Hplain) as (Hp & Hs & Hd).
  destruct (parse_normal [$"%00"; $"bad"; $"path"; e]) as (u & Hpu & Hu & Hh & Hsegs); [done| |].
  { repeat apply Forall_cons_2; [..|apply Forall_nil_2]; unfold dot_segment; rewrite decode_binary_spec; split.
    1,3,5: vm_compute; by intros [?|?]. 1,2,3: apply (bool_decide_unpack _); reflexivity.
    - rewrite percent_decode_plain by done. intros [E|E]; apply Hd; rewrite E; left.
    - eapply Forall_impl; [apply Hplain|]. intros c. by intros ->%Is_true_eq_true. }
  assert (as_str u = BAD_PATH_URI_PREFIX ++ e) as Hstr.
  { rewrite (as_str_file u Hu), Hh, (path_of_segments u Hu), Hsegs. cbn. by rewrite app_nil_r. }
  assert (opaque_fallback_bytes u = Some bs) as Ho.
  { unfold opaque_fallback_bytes, decode_bad_path_uri. rewrite Hstr, strip_prefix_app. cbn.
    rewrite bool_decide_eq_false_2 by done. assert (e ≠ []) as He by (by apply base64_nonempty).
    destruct e as [|c e'] eqn:Ee; [done|]. cbn. rewrite <- Ee. unfold e. rewrite base64_roundtrip. cbn.
    by rewrite bool_decide_eq_true_2. }
  assert (valid u = true) as Hv.
  { apply valid_spec. split; [done|left]. unfold is_opaque. apply bool_decide_eq_true_2. by eexists. }
  exists u. split_and!; [|done|done].
  change ($"file://" ++ _) with (BAD_PATH_URI_PREFIX ++ e ++ []) in Hpu. rewrite app_nil_r in Hpu. rewrite Hpu.
  rewrite try_from_same; [done|done|done|]. by rewrite Hsegs.
Qed.

Lemma windows_opaque_spec (path : rstr) : path ≠ [] →
  ∃ u, windows_opaque_path_uri path = Done u ∧ valid u = true ∧ is_opaque u = true.
Proof.
  intros Hp. destruct (from_opaque_spec (concat (to_le_bytes <$> encode_utf16 path))) as (u & E & Hv & Ho).
  - destruct path as [|c path]; [done|]. unfold encode_utf16. cbn [fmap list_fmap concat]. by destruct (c <? 65536)%N.
  - exists u. split_and!; [done|done|]. unfold is_opaque. apply bool_decide_eq_true_2. by eexists.
Qed.

(** ** Native paths and joins return validated URLs and do not panic *)

Definition good (r : outcome unit Url) : Prop :=
  match r with Done w => valid w = true | Failed _ => True | Panic => False end.

Lemma good_try_from u : good (ok (try_from u)).
Proof.
  unfold good. destruct (ok (try_from u)) as [w| |] eqn:E; [|done|by apply ok_try_from_total in E].
  rewrite ok_Done in E. by apply (try_from_valid u).
Qed.

Lemma good_segments c host segs : good (path_uri_from_segments c host segs).
Proof.
  unfold path_uri_from_segments. destruct (url_parse _) as [u|]; [|done].
  destruct (match host with Some h => set_host (Some h) u | None => Some u end) as [v|]; [|done].
  destruct (normalize_segments _ _ _ _ _) as [[? ?] ?]. apply good_try_from.
Qed.

Lemma good_opaque (bs : bytes) : bs ≠ [] → good (from_opaque_path_bytes bs).
Proof. intros H. by destruct (from_opaque_spec bs H) as (u & -> & Hv & _). Qed.
Lemma good_windows_opaque (path : rstr) : path ≠ [] → good (windows_opaque_path_uri path).
Proof. intros H. by destruct (windows_opaque_spec path H) as (u & -> & Hv & _). Qed.
Hint Resolve good_segments good_opaque good_windows_opaque : codex.

Lemma good_posix path : good (parse_posix_path path).
Proof. unfold parse_posix_path. destruct (strip_prefix _ _); [|done]. case_bool_decide; auto with codex. Qed.

Lemma good_unnormalized path : path ≠ [] → good (parse_unnormalized_windows_path path).
Proof.
  intros Hp. unfold parse_unnormalized_windows_path.
  destruct (_ || _); [auto with codex|]. destruct (is_windows_drive_absolute_path path); [auto with codex|].
  destruct path as [|first [|second rest]]; [done..|]. destruct (_ && _); [|done].
  destruct (split_where _ rest) as [|host [|share components]]; [done..|]. destruct (_ || _); [done|].
  destruct (_ || _); [auto with codex|].
  pose proof (good_segments Windows (Some host) (share :: components)) as H.
  destruct (path_uri_from_segments _ _ _); [|auto with codex|done]. destruct (is_some_and _ _); auto with codex.
Qed.

Lemma normalize_device_nonempty path p : normalize_windows_device_path path = Some p → p ≠ [].
Proof.
  unfold normalize_windows_device_path. repeat (destruct (strip_prefix _ path); [by intros [= <-]|]).
  assert (∀ prefix, (p0 ← strip_prefix prefix path; if is_windows_drive_absolute_path p0 then Some p0 else None) = Some p → p ≠ []) as H.
  { intros prefix. destruct (strip_prefix prefix path) as [q|]; [cbn|done].
    destruct (is_windows_drive_absolute_path q) eqn:E; [|done]. intros [= <-] ->. done. }
  cbv zeta beta. match goal with |- match ?x with Some _ => _ | None => _ end = _ → _ => destruct x as [q|] eqn:E end.
  - intros [= <-]. by apply (H _ E).
  - apply H.
Qed.
Lemma good_windows path : good (parse_windows_path path).
Proof.
  unfold parse_windows_path. destruct (normalize_windows_device_path path) as [p|] eqn:En.
  - assert (path ≠ []) as Hp by (by intros ->). destruct (is_some_and _ _); [auto with codex|].
    pose proof (good_unnormalized p (normalize_device_nonempty _ _ En)) as H.
    destruct (parse_unnormalized_windows_path p); [|auto with codex|done]. destruct (_ && _); auto with codex.
  - destruct path; [done|]. by apply good_unnormalized.
Qed.

Lemma good_absolute path c : good (from_absolute_native_path path c).
Proof.
  unfold from_absolute_native_path. destruct path as [|ch path]; [by destruct c|].
  assert (good (match c with Posix => parse_posix_path (ch :: path) | Windows => parse_windows_path (ch :: path) end)) as H.
  { destruct c; [apply good_posix|apply good_windows]. }
  destruct (match c with Posix => _ | Windows => _ end); [cbn|done|done]. destruct (_ && _); [done|].
  destruct c; [|by apply good_windows_opaque]. apply good_opaque. unfold as_bytes, encode. cbn [fmap list_fmap concat].
  assert (encode_char ch ≠ []); [|by destruct (encode_char ch)]. unfold encode_char. by repeat case_match.
Qed.

(** What a join returns, on every branch. *)
Lemma join_good u path : valid u = true →
  match join u path with Done w => valid w = true | Failed _ => True | Panic => False end.
Proof.
  intros Hv. unfold join. case_bool_decide; [done|]. destruct (is_empty path); [done|].
  destruct (infer_path_convention u) as [c|]; [|done].
  pose proof (good_absolute path c) as Ha. destruct (from_absolute_native_path path c) as [w|[]|]; [done| |done].
  destruct (_ && negb _); [done|]. destruct (is_opaque u); [done|].
  match goal with |- match ?r with Done _ => _ | Failed _ => _ | Panic => _ end => destruct r as [w|e|] eqn:E end; [|done|].
  - by apply try_from_valid in E.
  - match type of E with try_from ?x = _ => pose proof (try_from_shape x) as Hx end. by rewrite E in Hx.
Qed.

Lemma join_valid u path w : valid u = true → join u path = Done w → valid w = true.
Proof. intros Hv E. pose proof (join_good u path Hv) as H. by rewrite E in H. Qed.

Lemma join_descendant_shape u path : valid u = true →
  match join_descendant u path with
  | Done w => valid w = true ∧ join u path = Done w ∧ starts_with w u = true ∧ RustStr.starts_with [SLASH] path = false
  | Failed _ => True
  | Panic => False
  end.
Proof.
  intros Hv. unfold join_descendant. pose proof (join_good u path Hv) as H.
  destruct (join u path) as [w|e|]; [|done|done]. cbn [mbind outcome_bind].
  match goal with |- context [if ?b then Failed _ else _] => destruct b eqn:E end; [done|].
  rewrite !orb_false_iff, negb_false_iff in E. naive_solver.
Qed.

(** ** Pushing names *)

(** Text that stands for its bytes wherever it is pushed. *)
Definition segment_ok (s : rstr) : Prop :=
  segment_text s ∧ segment_bytes true s = as_bytes s ∧ s ∉ [[DOT]; [DOT; DOT]] ∧ s ≠ [].

Lemma segment_bytes_ok first s : segment_ok s → segment_bytes first s = as_bytes s.
Proof. intros (_ & Hs & _). destruct first; [done|]. by destruct s as [|c [|bar [|? ?]]]. Qed.

Lemma as_bytes_nonempty s : s ≠ [] → as_bytes s ≠ [].
Proof.
  destruct s as [|c s]; [done|]. intros _. unfold as_bytes, encode. cbn [fmap list_fmap concat].
  assert (encode_char c ≠ []); [|by destruct (encode_char c)]. unfold encode_char. by repeat case_match.
Qed.

Lemma non_empty_all segs : (∀ s, s ∈ segs → s ≠ []) → non_empty segs = segs.
Proof.
  intros H. induction segs as [|s segs IH]; [done|]. change (s :: segs) with ([s] ++ segs). rewrite non_empty_app, non_empty_one.
  rewrite bool_decide_eq_false_2 by (apply H; left). rewrite IH; [done|]. intros x Hx. apply H. by right.
Qed.

(** A URL that ends in a name, or is the root. *)
Definition trimmed u : Prop := url_segments u = [[]] ∨ ∀ s, s ∈ url_segments u → s ≠ [].

Lemma push_names_any s u : plain_file u → segment_ok s →
  plain_file (seg_push s u) ∧ host_str (seg_push s u) = host_str u ∧
  path_names (seg_push s u) = path_names u ++ [as_bytes s] ∧
  non_empty (url_segments u) `prefix_of` non_empty (url_segments (seg_push s u)) ∧
  ∃ e, e ≠ [] ∧ url_segments (seg_push s u) = (if bool_decide (url_segments u = [[]]) then [] else url_segments u) ++ [e].
Proof.
  intros Hu Hs. pose proof Hs as (Htext & _ & Hdots & Hne). destruct (seg_push_part s u Hu) as [Hp Hh].
  destruct (seg_push_segments s u Hu Htext Hdots) as (e & He & Hde & _). rewrite segment_bytes_ok in Hde by done.
  assert (e ≠ []) as Hen.
  { intros ->. rewrite decode_nil in Hde. by apply (as_bytes_nonempty s). }
  assert (non_empty (url_segments (seg_push s u)) = non_empty (url_segments u) ++ [e]) as Hns.
  { rewrite He, non_empty_app, non_empty_one, (bool_decide_eq_false_2 (e = [])) by done. f_equal.
    case_bool_decide as E; [by rewrite E|done]. }
  split_and!; [done|done| | |by exists e].
  - unfold path_names. rewrite Hns, fmap_app. cbn [fmap list_fmap]. do 2 f_equal. by rewrite <- Hde, decode_binary_spec.
  - rewrite Hns. by apply prefix_app_r.
Qed.

Lemma push_names s u : plain_file u → trimmed u → segment_ok s →
  plain_file (seg_push s u) ∧ host_str (seg_push s u) = host_str u ∧ trimmed (seg_push s u) ∧
  path_names (seg_push s u) = path_names u ++ [as_bytes s].
Proof.
  intros Hu Ht Hs. destruct (push_names_any s u Hu Hs) as (Hp & Hh & Hn & _ & e & Hen & He). split_and!; [done|done| |done].
  right. intros x. rewrite He, elem_of_app, list_elem_of_singleton. intros [Hx| ->]; [|done].
  case_bool_decide; [by apply not_elem_of_nil in Hx|]. destruct Ht as [Ht|Ht]; [done|by apply Ht].
Qed.

Lemma pop_names u : plain_file u → trimmed u → non_empty (url_segments u) ≠ [] →
  plain_file (seg_pop u) ∧ host_str (seg_pop u) = host_str u ∧ trimmed (seg_pop u) ∧
  path_names (seg_pop u) = take (length (path_names u) - 1) (path_names u) ∧
  non_empty (url_segments (seg_pop u)) `prefix_of` non_empty (url_segments u).
Proof.
  intros Hu Ht Hne. destruct (seg_pop_part u Hu) as [Hp Hh]. destruct (segments_snoc u Hu) as (k & s & Hs).
  pose proof (seg_pop_segments u k s Hu Hs) as Hps. destruct Ht as [Ht|Hall]; [by rewrite Ht in Hne|].
  assert (∀ x, x ∈ k → x ≠ []) as Hk by (intros x Hx; apply Hall; rewrite Hs, elem_of_app; by left).
  split; [done|]. split; [done|]. unfold path_names. rewrite (non_empty_all _ Hall).
  rewrite length_fmap, <- fmap_take, Hs, length_app, take_app_le by (cbn; lia). cbn [length].
  rewrite take_ge by lia.
  destruct k as [|s0 k].
  - rewrite Hps. split_and!; [by left|done|apply prefix_nil].
  - assert (url_segments (seg_pop u) = s0 :: k) as E by done. rewrite E.
    split_and!; [right; by rewrite E|by rewrite (non_empty_all _ Hk)|]. rewrite (non_empty_all _ Hk). by apply prefix_app_r.
Qed.
(** ** Resolving names *)

Definition resolve_name (names : list bytes) (c : rstr) : list bytes :=
  if is_empty c || bool_decide (c = [DOT]) then names
  else if bool_decide (c = [DOT; DOT]) then take (length names - 1) names
  else names ++ [as_bytes c].
Definition resolve_names (names : list bytes) (components : list rstr) : list bytes := foldl resolve_name names components.

(** A component of a native path: a name, or one of the special ones. *)
Definition component_ok (c : rstr) : Prop := c = [] ∨ c = [DOT] ∨ c = [DOT; DOT] ∨ segment_ok c.

Lemma names_nil u : path_names u = [] ↔ non_empty (url_segments u) = [].
Proof. unfold path_names. by destruct (non_empty (url_segments u)). Qed.

Lemma step_component u c : plain_file u → trimmed u → component_ok c →
  ∃ v, join_component 0 (u, length (path_names u)) c = (v, length (path_names v)) ∧
    plain_file v ∧ host_str v = host_str u ∧ trimmed v ∧ path_names v = resolve_name (path_names u) c.
Proof.
  intros Hu Ht Hc. unfold join_component, resolve_name.
  destruct (is_empty c || bool_decide (c = [DOT])) eqn:E1; [by exists u|].
  apply orb_false_iff in E1 as [E1 E2]. apply is_empty_false in E1. apply bool_decide_eq_false in E2.
  destruct (bool_decide (c = [DOT; DOT])) eqn:E3.
  - destruct (Nat.ltb_spec 0 (length (path_names u))) as [Hlt|Hge].
    + destruct (pop_names u Hu Ht) as (Hp & Hh & Htp & Hn & _).
      { intros E%names_nil. rewrite E in Hlt. simpl in Hlt. lia. }
      exists (seg_pop u). split_and!; [|done..]. f_equal. rewrite Hn, length_take. lia.
    + assert (path_names u = []) as E by (apply nil_length_inv; lia). exists u. by rewrite E.
  - apply bool_decide_eq_false in E3. destruct Hc as [?|[?|[?|Hc]]]; [done..|].
    destruct (push_names c u Hu Ht Hc) as (Hp & Hh & Htp & Hn).
    exists (seg_push c u). split_and!; [|done..]. f_equal. rewrite Hn, length_app. cbn [length]. lia.
Qed.

Lemma fold_components components : ∀ u, plain_file u → trimmed u → Forall component_ok components →
  let u' := (foldl (join_component 0) (u, length (path_names u)) components).1 in
  plain_file u' ∧ host_str u' = host_str u ∧ trimmed u' ∧ path_names u' = resolve_names (path_names u) components.
Proof.
  induction components as [|c components IH]; intros u Hu Ht Hall; [done|].
  apply Forall_cons in Hall as [Hc Hall]. destruct (step_component u c Hu Ht Hc) as (v & Hs & Hv & Hh & Htv & Hn).
  cbn [foldl resolve_names]. rewrite Hs, <- Hn, <- Hh. by apply IH.
Qed.

(** No doubled slashes: at most the last segment is empty. *)
Definition tidy u : Prop := ∀ k s x, url_segments u = k ++ [s] → x ∈ k → x ≠ [].

Lemma pop_if_empty_names u : plain_file u →
  plain_file (seg_pop_if_empty u) ∧ host_str (seg_pop_if_empty u) = host_str u ∧
  non_empty (url_segments (seg_pop_if_empty u)) = non_empty (url_segments u).
Proof.
  intros Hu. destruct (seg_pop_if_empty_part u Hu) as [Hp Hh]. split_and!; [done|done|].
  destruct (segments_snoc u Hu) as (k & s & Hs). rewrite (seg_pop_if_empty_segments u k s Hu Hs), Hs.
  destruct s as [|c s]; [destruct k as [|s0 k]|]; [done| |done]. by rewrite non_empty_app, non_empty_one, app_nil_r.
Qed.

Lemma pop_if_empty_trimmed u : plain_file u → tidy u → trimmed (seg_pop_if_empty u).
Proof.
  intros Hu Ht. destruct (segments_snoc u Hu) as (k & s & Hs). pose proof (seg_pop_if_empty_segments u k s Hu Hs) as Hps.
  specialize (Ht k s). destruct s as [|c s]; [destruct k as [|s0 k]|].
  - by left.
  - right. intros x. rewrite Hps. by apply Ht.
  - right. intros x. rewrite Hps, elem_of_app, list_elem_of_singleton. intros [Hx| ->]; [by apply Ht|done].
Qed.

Lemma trimmed_tidy u : plain_file u → trimmed u → tidy u.
Proof.
  intros _ [Hr|Hall] k s x Hs Hx; [|apply Hall; rewrite Hs, elem_of_app; by left].
  rewrite Hr in Hs. destruct k as [|? [|? ?]]; [by apply not_elem_of_nil in Hx|done..].
Qed.

Lemma as_bytes_nul s : 0%N ∈ as_bytes s → 0%N ∈ s.
Proof.
  unfold as_bytes, encode. rewrite elem_of_concat_fmap. intros (c & Hc & Hz).
  assert (c = 0%N) as ->; [|done]. revert Hz. unfold encode_char.
  repeat case_match; rewrite !elem_of_cons, elem_of_nil; intros Hz; intuition bytes_lia.
Qed.

Lemma no_nul_names u : plain_file u → no_nul u ↔ ∀ n, n ∈ path_names u → 0%N ∉ n.
Proof.
  intros Hu. unfold no_nul, path_names, non_empty. split.
  - intros H n (s & -> & Hs)%list_elem_of_fmap. apply list_elem_of_filter in Hs. apply H. tauto.
  - intros H s Hs. destruct s as [|c s]; [apply not_elem_of_nil|]. apply H, list_elem_of_fmap. exists (c :: s).
    split; [done|]. by apply list_elem_of_filter.
Qed.

Lemma resolve_names_nul components : ∀ names, (∀ n, n ∈ names → 0%N ∉ n) → (∀ c : rstr, c ∈ components → 0%N ∉ c) →
  ∀ n, n ∈ resolve_names names components → 0%N ∉ n.
Proof.
  induction components as [|c components IH]; intros names Hn Hc; [done|].
  apply IH; [|intros x Hx; apply Hc; by right]. unfold resolve_name. destruct (_ || _); [done|].
  case_bool_decide; intros n.
  - intros [i Hi]%list_elem_of_lookup. rewrite lookup_take_Some in Hi. apply Hn, list_elem_of_lookup. exists i. tauto.
  - rewrite elem_of_app, list_elem_of_singleton. intros [?| ->]; [by apply Hn|].
    intros H0%as_bytes_nul. apply (Hc c); [left|done].
Qed.

(** The decoded first name looks like a drive. *)
Definition drive_name (names : list bytes) : bool :=
  match names with [c; colon] :: _ => is_ascii_alphabetic c && bool_decide (colon = COLON) | _ => false end.

Lemma no_drive_name u : drive_name (path_names u) = false →
  is_some_and is_windows_drive_uri_segment (head (non_empty (url_segments u))) = false.
Proof.
  unfold path_names. destruct (non_empty (url_segments u)) as [|s segs]; [done|]. cbn [fmap list_fmap head is_some_and].
  destruct (is_windows_drive_uri_segment s) eqn:Ed; [|done]. destruct s as [|c s]; [done|].
  destruct (decode_drive (c :: s) c s Ed eq_refl) as (-> & Hc & _). cbn. rewrite Hc. done.
Qed.

Lemma relative_not_absolute path : RustStr.starts_with [SLASH] path = false → from_absolute_native_path path Posix = Failed tt.
Proof.
  intros Hr. unfold from_absolute_native_path, parse_posix_path. unfold RustStr.starts_with in Hr.
  by destruct (strip_prefix [SLASH] path).
Qed.

(** A relative POSIX join succeeds and resolves the names. *)
Lemma posix_join u path : posix u → tidy u → 0%N ∉ path → RustStr.starts_with [SLASH] path = false →
  Forall component_ok (split_char SLASH path) →
  drive_name (resolve_names (path_names u) (split_char SLASH path)) = false →
  ∃ w, join u path = Done w ∧ posix w ∧ tidy w ∧ path_names w = resolve_names (path_names u) (split_char SLASH path).
Proof.
  intros Hpu Ht H0 Hr Hc Hdr. pose proof Hpu as (Hu & Hn & Hconv). unfold join.
  rewrite bool_decide_eq_false_2 by done. destruct (is_empty path) eqn:Ep.
  { apply is_empty_true in Ep as ->. by exists u. }
  rewrite Hconv, relative_not_absolute by done. cbn [bool_decide andb]. rewrite bool_decide_eq_false_2 by done. cbn [andb].
  pose proof (no_nul_not_opaque u Hu Hn) as Ho. rewrite Ho.
  destruct (pop_if_empty_names u Hu) as (Hv & Hhv & Hsv). pose proof (pop_if_empty_trimmed u Hu Ht) as Htv.
  assert (path_names (seg_pop_if_empty u) = path_names u) as Hnv by (unfold path_names; by rewrite Hsv).
  destruct (fold_components (split_char SLASH path) (seg_pop_if_empty u) Hv Htv Hc) as (Hw & Hhw & Htw & Hnw).
  assert (join_components Posix path u =
    (foldl (join_component 0) (seg_pop_if_empty u, length (path_names (seg_pop_if_empty u))) (split_char SLASH path)).1) as ->.
  { unfold join_components. cbn. rewrite Hnv. unfold path_names. by rewrite length_fmap. }
  set (w := (foldl _ _ _).1) in *. rewrite Hnv in Hnw. exists w.
  assert (host_str w = None) as Hh.
  { apply posix_head in Hconv; [|done]. destruct Hconv. congruence. }
  rewrite <- Hnw in Hdr. apply no_drive_name in Hdr.
  assert (no_nul w) as Hnul.
  { apply no_nul_names; [done|]. rewrite Hnw. apply resolve_names_nul; [by apply no_nul_names|].
    intros c Hcin Hc0. apply H0. clear -Hcin Hc0. revert c Hcin Hc0. induction path as [|a path IH]; intros c Hcin Hc0.
    - cbn in Hcin. apply list_elem_of_singleton in Hcin as ->. done.
    - cbn [split_char] in Hcin. destruct (decide (a = SLASH)).
      + apply elem_of_cons in Hcin as [->|Hcin]; [by apply not_elem_of_nil in Hc0|right; by eapply IH].
      + destruct (split_char SLASH path) as [|h t] eqn:Es.
        * apply list_elem_of_singleton in Hcin as ->. apply list_elem_of_singleton in Hc0 as <-. left.
        * apply elem_of_cons in Hcin as [->|Hcin].
          -- apply elem_of_cons in Hc0 as [<-|Hc0]; [left|right]. eapply IH; [left|done].
          -- right. eapply IH; [right; done|done]. }
  rewrite try_from_same; [|apply valid_spec; auto|done|done].
  split_and!; [done|by apply posix_intro|by apply trimmed_tidy|done].
Qed.
(** One name below a POSIX path, however it is spelled. *)
Lemma posix_child u name : posix u → segment_ok name → 0%N ∉ name → SLASH ∉ name → drive_name [as_bytes name] = false →
  ∃ w, join u name = Done w ∧ posix w ∧ path_names w = path_names u ++ [as_bytes name].
Proof.
  intros Hpu Hs H0 Hsl Hdr. pose proof Hpu as (Hu & Hn & Hc). pose proof Hs as (_ & _ & Hd & Hne).
  pose proof (no_nul_not_opaque u Hu Hn) as Ho. pose proof (proj1 (posix_head u Ho) Hc) as [Hh Hdu].
  destruct (pop_if_empty_names u Hu) as (Hv & Hhv & Hsv).
  destruct (push_names_any name _ Hv Hs) as (Hw & Hhw & Hnw & Hpre & _). set (w := seg_push name (seg_pop_if_empty u)) in *.
  assert (path_names w = path_names u ++ [as_bytes name]) as Hnames by (rewrite Hnw; unfold path_names; by rewrite Hsv).
  assert (is_some_and is_windows_drive_uri_segment (head (non_empty (url_segments w))) = false) as Hdw.
  { destruct (non_empty (url_segments u)) as [|s segs] eqn:E.
    - apply no_drive_name. rewrite Hnames. apply names_nil in E. by rewrite E.
    - rewrite Hsv in Hpre. destruct (prefix_head _ _ Hpre) as [?|Hhd]; [done|]. by rewrite <- Hhd. }
  assert (no_nul w) as Hnul.
  { apply no_nul_names; [done|]. rewrite Hnames. intros n. rewrite elem_of_app, list_elem_of_singleton.
    intros [?| ->]; [by apply (proj1 (no_nul_names u Hu) Hn)|]. by intros ?%as_bytes_nul. }
  exists w. split_and!; [|apply posix_intro; [done|done|congruence|done]|done].
  unfold join. rewrite bool_decide_eq_false_2 by done. assert (is_empty name = false) as -> by (by apply is_empty_false).
  assert (split_char SLASH name = [name]) as Hsplit.
  { apply (split_char_join [name]); [done|]. by intros s ->%list_elem_of_singleton. }
  rewrite Hc, relative_not_absolute.
  2: { destruct name as [|c name]; [done|]. apply not_true_iff_false. intros [k Hk]%starts_with_spec. injection Hk as -> _. apply Hsl. left. }
  cbn [bool_decide andb]. rewrite bool_decide_eq_false_2 by done. cbn [andb]. rewrite Ho.
  assert (join_components Posix name u = w) as ->.
  { unfold join_components. cbn. rewrite Hsplit. cbn. assert (is_empty name = false) as -> by (by apply is_empty_false).
    rewrite !elem_of_cons in Hd. rewrite !bool_decide_eq_false_2 by tauto. done. }
  apply try_from_same; [apply valid_spec; auto|congruence|done].
Qed.
End joins.
