(* ===== verification/PathUriRoundTrip.v ===== *)
(** * Path text and path URIs

    Relative paths join back to the path they were taken from, and the native
    text of a path reads back as the same path. *)

From S2P Require Import Prelude RustStr StreamText Utf8Stream Url PathUri ApiPathString PathUriFacts PathUriJoin.

(** ** UTF-8 that decodes encodes back *)

Lemma utf8_next_code b rest c w : utf8_next b rest = CodePoint c w →
  encode_char c = take w (b :: rest) ∧ is_scalar c = true.
Proof.
  unfold utf8_next, second3, second4, is_cont, is_scalar, encode_char. intros Hn.
  repeat case_hyp Hn; simplify_eq/=;
    repeat match goal with
    | H : between _ _ _ = true |- _ => apply between_true in H
    | H : (_ <? _)%N = true |- _ => apply N.ltb_lt in H
    | H : (_ <? _)%N = false |- _ => apply N.ltb_ge in H
    | H : (_ =? _)%N = true |- _ => apply N.eqb_eq in H
    | H : (_ =? _)%N = false |- _ => apply N.eqb_neq in H
    end; repeat byte_case; cbn [take app andb orb]; (split; [|done || bytes_lia]); repeat f_equal; bytes_lia.
Qed.

Lemma encode_of_decode bs : ∀ s, decode bs = (s, None) → encode s = bs ∧ Forall (λ c, is_scalar c = true) s.
Proof.
  induction bs as [bs IH] using (induction_ltof1 _ (@length N)). unfold ltof in IH. intros s.
  destruct bs as [|b rest]; [by intros [= <-]|]. rewrite decode_cons.
  destruct (utf8_next b rest) as [c w|n|] eqn:E; [|done..].
  pose proof (utf8_next_width b rest c w E) as Hw. destruct (utf8_next_code b rest c w E) as [Hc Hs].
  destruct (decode (drop w (b :: rest))) as [s' e] eqn:Ed. intros [= <- He]. destruct e; [done|].
  destruct (IH (drop w (b :: rest))) with (s := s') as [Hes Hss]; [rewrite length_drop; cbn [length]; lia|done|].
  split; [|by constructor]. unfold encode in *. rewrite fmap_cons. cbn [concat]. by rewrite Hes, Hc, take_drop.
Qed.

Lemma from_utf8_Ok bs s : from_utf8 bs = Ok s → decode bs = (s, None) ∧ as_bytes s = bs ∧ Forall (λ c, is_scalar c = true) s.
Proof.
  unfold from_utf8. destruct (decode bs) as [t [e|]] eqn:E; [done|]. intros [= ->].
  destruct (encode_of_decode bs s E) as [He Hs]. done.
Qed.

Lemma lossy_valid fuel : ∀ bs s, length bs ≤ fuel → decode bs = (s, None) → utf8_lossy_loop fuel bs = s.
Proof.
  induction fuel as [|fuel IH]; intros bs s Hl.
  - destruct bs; [by intros [= <-]|simpl in Hl; lia].
  - destruct bs as [|b rest]; [by intros [= <-]|]. rewrite decode_cons. cbn [utf8_lossy_loop].
    destruct (utf8_next b rest) as [c w|n|] eqn:E; [|done..]. pose proof (utf8_next_width b rest c w E) as Hw.
    destruct (decode (drop w (b :: rest))) as [s' e] eqn:Ed. intros [= <- He]. destruct e; [done|].
    f_equal. apply IH; [rewrite length_drop; cbn [length] in *; lia|done].
Qed.

Section round_trips.
Context {Url : Type} `{!UrlOps Url, !UrlLaws Url}.
Implicit Types (u v w base : Url).

(** A name that is UTF-8 without the characters URL parsing would change. *)
Definition name_ok (n : bytes) : Prop :=
  match from_utf8 n with Ok t => segment_text t ∧ segment_bytes true t = as_bytes t | Err _ => False end.

Lemma name_component u s : plain_file u → no_nul u → s ∈ url_segments u → s ≠ [] → name_ok (percent_decode s) →
  ∃ t, from_utf8 (percent_decode s) = Ok t ∧ as_bytes t = percent_decode s ∧ segment_ok t ∧ 0%N ∉ t ∧
    decode_uri_path s = t ∧ decode_native_segment s = t.
Proof.
  intros Hu Hn Hs Hne Hok. unfold name_ok in Hok. destruct (from_utf8 (percent_decode s)) as [t|] eqn:E; [|done].
  destruct (from_utf8_Ok _ _ E) as (Hd & Hb & Hsc). exists t. destruct Hok as [Htext Hbar].
  pose proof (segments_no_dots u s Hu Hs) as Hdots. unfold dot_segment in Hdots. rewrite decode_binary_spec in Hdots.
  split_and!; [done|done| | | |].
  - split_and!; [done|done| |].
    + rewrite !elem_of_cons, elem_of_nil. intros [->|[->|[]]]; apply Hdots; rewrite <- Hb; vm_compute; auto.
    + intros ->. assert (percent_decode s = []) as Hp by done. destruct s as [|c s]; [done|].
      cbn [percent_decode] in Hp. repeat case_match; done.
  - intros H0. apply (Hn s Hs). rewrite <- Hb. unfold as_bytes, encode. rewrite elem_of_concat_fmap.
    exists 0%N. split; [done|]. vm_compute. left.
  - unfold decode_uri_path. by rewrite (decode_segment u), E.
  - unfold decode_native_segment, from_utf8_lossy. rewrite (decode_segment u) by done. by apply lossy_valid.
Qed.

Lemma name_components u (segs : list rstr) : plain_file u → no_nul u → (∀ s, s ∈ segs → s ∈ url_segments u ∧ s ≠ []) →
  Forall name_ok (percent_decode <$> segs) →
  let ts := decode_uri_path <$> segs in
  Forall (λ t, segment_ok t ∧ 0%N ∉ t) ts ∧ as_bytes <$> ts = percent_decode <$> segs ∧
  decode_native_segment <$> segs = ts.
Proof.
  intros Hu Hn Hin Hok. induction segs as [|s segs IH]; [done|].
  rewrite fmap_cons, Forall_cons in Hok. destruct Hok as [Hok Hall].
  destruct IH as (H1 & H2 & H3); [intros x Hx; apply Hin; by right|done|].
  destruct (Hin s) as [Hs Hne]; [left|].
  destruct (name_component u s Hu Hn Hs Hne Hok) as (t & _ & Hb & Hseg & H0 & Ht & Hl). cbn [fmap list_fmap].
  split_and!; [constructor; [by rewrite Ht|done]|f_equal; [by rewrite Ht|done]|f_equal; [congruence|done]].
Qed.

(** Resolving plain names appends them. *)
Lemma resolve_plain ts : ∀ names, Forall (λ t, segment_ok t ∧ 0%N ∉ t) ts → resolve_names names ts = names ++ (as_bytes <$> ts).
Proof.
  induction ts as [|t ts IH]; intros names Hts; [by rewrite app_nil_r|].
  apply Forall_cons in Hts as [[(_ & _ & Hd & Hne) _] Hts]. unfold resolve_names. cbn [foldl fmap list_fmap].
  unfold resolve_name at 2. assert (is_empty t = false) as -> by (by apply is_empty_false).
  rewrite !elem_of_cons in Hd. rewrite !bool_decide_eq_false_2 by tauto. cbn [orb].
  fold (resolve_names (names ++ [as_bytes t]) ts). by rewrite IH, <- app_assoc.
Qed.

Lemma join_elem (ts : list rstr) c : c ∈ RustStr.join [SLASH] ts → c = SLASH ∨ ∃ t, t ∈ ts ∧ c ∈ t.
Proof.
  induction ts as [|t [|t' ts] IH]; [by intros ?%elem_of_nil|intros H; right; exists t; by rewrite elem_of_cons; auto|].
  change (RustStr.join [SLASH] (t :: t' :: ts)) with (t ++ SLASH :: RustStr.join [SLASH] (t' :: ts)).
  rewrite elem_of_app, elem_of_cons. intros [H|[H|H]]; [right; exists t; split; [left|done]|by left|].
  destruct (IH H) as [?|(x & Hx & Hc)]; [by left|right]. exists x. split; [by right|done].
Qed.

Lemma no_separator u s : plain_file u → s ∈ url_segments u → has_native_separator Posix s = false → SLASH ∉ percent_decode s.
Proof.
  intros Hu Hs Hsep Hin. unfold has_native_separator in Hsep. rewrite (decode_segment u s Hu Hs) in Hsep.
  apply not_true_iff_false in Hsep. apply Hsep, existsb_exists. exists SLASH. by rewrite <- list_elem_of_In.
Qed.

Lemma as_bytes_slash t : SLASH ∈ t → SLASH ∈ as_bytes t.
Proof.
  intros H. unfold as_bytes, encode. rewrite elem_of_concat_fmap. exists SLASH. split; [done|]. vm_compute. left.
Qed.

(** A depth means that no name holds a separator. *)
Lemma depth_names u : posix u → is_Some (lexical_depth u) ↔ ∀ n, n ∈ path_names u → SLASH ∉ n.
Proof.
  intros (Hu & Hn & Hc). unfold lexical_depth. rewrite (no_nul_not_opaque u Hu Hn), Hc. cbn.
  unfold containment_path_segments. rewrite fmap_is_Some. split.
  - destruct (existsb _ _) eqn:E; [by intros []|]. intros _ n (s & -> & Hs)%list_elem_of_fmap.
    assert (s ∈ url_segments u) as Hin by (apply list_elem_of_filter in Hs; tauto).
    apply (no_separator u); [done..|]. apply not_true_iff_false. intros Hsep. apply not_true_iff_false in E.
    apply E, existsb_exists. exists s. by rewrite <- list_elem_of_In.
  - intros H. destruct (existsb _ _) eqn:E; [exfalso|by eexists]. apply existsb_exists in E as (s & Hs & Hsep).
    rewrite <- list_elem_of_In in Hs. assert (s ∈ url_segments u) as Hin by (apply list_elem_of_filter in Hs; tauto).
    apply (H (percent_decode s)); [by apply list_elem_of_fmap_2|]. unfold has_native_separator in Hsep.
    rewrite (decode_segment u s Hu Hin) in Hsep. apply existsb_exists in Hsep as (b & Hb & Hsl).
    rewrite <- list_elem_of_In in Hb. rewrite (bool_decide_eq_false_2 (Posix = Windows)) in Hsl by done.
    cbn [andb] in Hsl. rewrite orb_false_r in Hsl.
    apply bool_decide_eq_true in Hsl. by subst b.
Qed.

(** Paths with the same names contain each other. *)
Lemma same_names_within u w : posix u → posix w → is_Some (lexical_depth u) → path_names w = path_names u →
  starts_with w u = true ∧ starts_with u w = true.
Proof.
  intros Hu Hw Hd Hn. assert (is_Some (lexical_depth w)) as Hdw.
  { apply depth_names; [done|]. rewrite Hn. by apply depth_names. }
  destruct Hd as [d Hd], Hdw as [d' Hdw]. destruct Hu as (? & ? & ?), Hw as (? & ? & ?).
  split; [apply (posix_within w u d' d)|apply (posix_within u w d d')]; try done; by rewrite Hn.
Qed.

Lemma relative_join u base r : posix u → posix base → tidy base → Forall name_ok (path_names u) →
  drive_name (path_names u) = false → relative_path_from u base = Some r →
  ∃ w, join base r = Done w ∧ posix w ∧ path_names w = path_names u.
Proof.
  intros Hpu Hpb Ht Hok Hdr. pose proof Hpu as (Hu & Hn & Hcu). pose proof Hpb as (Hb & Hnb & Hcb).
  unfold relative_path_from. rewrite (posix_eq u base Hcb). case_bool_decide as He.
  { intros [= <-]. subst base. exists u. split_and!; [|done|done]. unfold join. cbn. done. }
  rewrite (no_nul_not_opaque u Hu Hn), (no_nul_not_opaque base Hb Hnb). cbn [orb].
  destruct (negb _ || negb _); [done|]. rewrite Hcu. cbn [mbind option_bind].
  unfold containment_path_segments. destruct (existsb _ (non_empty (url_segments u))) eqn:Eu; [done|].
  destruct (existsb _ (non_empty (url_segments base))) eqn:Eb; [done|]. cbn [mbind option_bind].
  destruct (native_path_segments_start_with _ _ _) eqn:Es; [cbn [negb]|done].
  apply start_with_posix in Es. rewrite !decode_non_empty in Es by done. destruct Es as [rest Es].
  intros [= <-]. set (segs := drop (length (non_empty (url_segments base))) (non_empty (url_segments u))).
  assert (percent_decode <$> segs = rest) as Hrest.
  { unfold segs. rewrite fmap_drop. fold (path_names u). rewrite Es. apply drop_app_length'. unfold path_names. by rewrite length_fmap. }
  assert (∀ s, s ∈ segs → s ∈ url_segments u ∧ s ≠ []) as Hsegs.
  { intros s Hs. assert (s ∈ non_empty (url_segments u)) as Hin.
    { apply list_elem_of_lookup in Hs as [i Hi]. unfold segs in Hi. rewrite lookup_drop in Hi. by apply list_elem_of_lookup_2 in Hi. }
    apply list_elem_of_filter in Hin. tauto. }
  destruct (name_components u segs Hu Hn Hsegs) as (Hts & Hbs & _).
  { rewrite Hrest. rewrite Es, Forall_app in Hok. tauto. }
  set (ts := decode_uri_path <$> segs) in *. change (native_separator Posix) with [SLASH].
  destruct (decide (ts = [])) as [Hnil|Hne].
  { rewrite Hnil. exists base. split_and!; [|done|]. { unfold join. cbn. done. }
    rewrite Es, <- Hrest, <- Hbs, Hnil, app_nil_r. done. }
  assert (∀ t, t ∈ ts → SLASH ∉ t) as Hsl.
  { intros t Htin Hst. pose proof Htin as Hin2. apply list_elem_of_fmap in Htin as (s & -> & Hs).
    apply as_bytes_slash in Hst. destruct (Hsegs s Hs) as [Hsu Hsn].
    assert (name_ok (percent_decode s)) as Hnok.
    { rewrite Forall_forall in Hok. apply Hok. rewrite Es, <- Hrest, elem_of_app. right. by apply list_elem_of_fmap_2. }
    destruct (name_component u s Hu Hn Hsu Hsn Hnok) as (t & _ & Hbt & _ & _ & Htt & _). rewrite Htt, Hbt in Hst.
    revert Hst. apply (no_separator u); [done..|]. apply not_true_iff_false. intros Hsep. apply not_true_iff_false in Eu.
    apply Eu, existsb_exists. exists s. rewrite <- list_elem_of_In. split; [|done]. unfold non_empty.
    by apply list_elem_of_filter. }
  assert (split_char SLASH (RustStr.join [SLASH] ts) = ts) as Hsplit by (by apply split_char_join).
  assert (resolve_names (path_names base) ts = path_names u) as Hres.
  { rewrite resolve_plain by done. by rewrite Hbs, Hrest, Es. }
  destruct (posix_join base (RustStr.join [SLASH] ts) Hpb Ht) as (w & Hj & Hw & _ & Hnw).
  - intros [?|(t & Htin & H0)]%join_elem; [done|]. rewrite Forall_forall in Hts. by apply Hts in Htin as [_ ?].
  - destruct ts as [|t ts']; [done|]. apply not_true_iff_false. intros [k Hk]%starts_with_spec.
    apply Forall_cons in Hts as [[(_ & _ & _ & Hte) _] _]. destruct t as [|c t]; [done|].
    apply (Hsl (c :: t)); [left|]. destruct ts'; cbn in Hk; injection Hk as -> _; left.
  - rewrite Hsplit. eapply Forall_impl; [exact Hts|]. intros t [Hseg _]. by do 3 right.
  - by rewrite Hsplit, Hres.
  - exists w. split_and!; [done|done|]. by rewrite Hnw, Hsplit, Hres.
Qed.
(** ** Reading rendered text *)

Lemma extend_names ts : ∀ u, plain_file u → trimmed u → Forall (λ t, segment_ok t ∧ 0%N ∉ t) ts →
  plain_file (extend ts u) ∧ host_str (extend ts u) = host_str u ∧ trimmed (extend ts u) ∧
  path_names (extend ts u) = path_names u ++ (as_bytes <$> ts).
Proof.
  induction ts as [|t ts IH]; intros u Hu Ht Hts; [by rewrite app_nil_r|].
  apply Forall_cons in Hts as [[Hok _] Hts]. destruct (push_names t u Hu Ht Hok) as (Hp & Hh & Htp & Hn).
  unfold extend. cbn [foldl fmap list_fmap]. destruct (IH (seg_push t u) Hp Htp Hts) as (H1 & H2 & H3 & H4).
  split_and!; [done|unfold extend in H2; congruence|done|]. unfold extend in H4. by rewrite H4, Hn, <- app_assoc.
Qed.

Lemma push_empty_names u : plain_file u → plain_file (seg_push [] u) ∧ host_str (seg_push [] u) = host_str u ∧
  path_names (seg_push [] u) = path_names u ∧ (trimmed u → tidy (seg_push [] u)).
Proof.
  intros Hu. destruct (seg_push_part [] u Hu) as [Hp Hh].
  destruct (seg_push_segments [] u Hu) as (e & He & _ & Hempty); [by constructor|by rewrite !elem_of_cons, elem_of_nil; intros [?|[?|[]]]|].
  rewrite (Hempty eq_refl) in He. split_and!; [done|done| |].
  - unfold path_names. rewrite He, non_empty_app, non_empty_one, app_nil_r. case_bool_decide as E; [by rewrite E|done].
  - intros Ht k s x Hs Hx. rewrite He in Hs. apply app_inj_tail in Hs as [<- _]. case_bool_decide as E; [by apply not_elem_of_nil in Hx|].
    destruct Ht as [Ht|Ht]; [done|by apply Ht].
Qed.

Lemma normalize_plain ts a : ∀ d acc b, Forall (λ t : rstr, t = [] ∨ t ∉ [[DOT]; [DOT; DOT]]) ts →
  ∃ b', normalize_segments a d acc b ts = (reverse acc ++ non_empty ts, d + length (non_empty ts), b').
Proof.
  induction ts as [|t ts IH]; intros d acc b Hts; [exists b; cbn; by rewrite app_nil_r, Nat.add_0_r|].
  apply Forall_cons in Hts as [Ht Hts]. change (non_empty (t :: ts)) with (non_empty ([t] ++ ts)).
  rewrite non_empty_app, non_empty_one. cbn [normalize_segments]. case_bool_decide as E; [apply (IH d acc true Hts)|].
  destruct Ht as [?|Ht]; [done|]. rewrite !elem_of_cons in Ht. rewrite !bool_decide_eq_false_2 by tauto.
  destruct (IH (S d) (t :: acc) false Hts) as [b' ->]. exists b'. rewrite reverse_cons, <- app_assoc. cbn [app length]. do 2 f_equal. lia.
Qed.

Lemma segments_path ts : ts ≠ [] → Forall (λ t, t = [] ∨ segment_ok t ∧ 0%N ∉ t) ts →
  drive_name (as_bytes <$> non_empty ts) = false →
  ∃ w, path_uri_from_segments Posix None ts = Done w ∧ posix w ∧ tidy w ∧ path_names w = as_bytes <$> non_empty ts.
Proof.
  intros Hne Hts Hdr. unfold path_uri_from_segments.
  destruct (parse_normal [[]]) as (u0 & Hp & Hu0 & Hh0 & Hs0); [done| |].
  { repeat constructor. unfold dot_segment. rewrite decode_nil. by intros [?|?]. }
  change ($"file:///") with ($"file://" ++ concat (cons SLASH <$> [([] : rstr)])). rewrite Hp.
  destruct (normalize_plain ts (anchor_depth Posix) 0 [] false) as [b Hnorm].
  { eapply Forall_impl; [exact Hts|]. intros t [?|[(_ & _ & ? & _) _]]; [by left|by right]. }
  rewrite Hnorm. cbn [reverse rev_append app]. rewrite (bool_decide_eq_false_2 (Posix = Windows)) by done. cbn [andb].
  rewrite orb_false_r.
  destruct (seg_clear_part u0 Hu0) as [Hc Hhc]. pose proof (seg_clear_segments u0 Hu0) as Hsc.
  assert (trimmed (seg_clear u0)) as Htc by (by left).
  assert (path_names (seg_clear u0) = []) as Hnc by (unfold path_names; by rewrite Hsc).
  assert (Forall (λ t, segment_ok t ∧ 0%N ∉ t) (non_empty ts)) as Hall.
  { rewrite Forall_forall in Hts |- *. intros t Ht. apply list_elem_of_filter in Ht as [Htn Ht].
    by destruct (Hts t Ht) as [?|?]. }
  destruct (extend_names (non_empty ts) (seg_clear u0) Hc Htc Hall) as (Hx & Hhx & Htx & Hnx). rewrite Hnc in Hnx. cbn [app] in Hnx.
  set (v := extend (non_empty ts) (seg_clear u0)) in *.
  assert (∃ w, extend (if b then non_empty ts ++ [[]] else non_empty ts) (seg_clear u0) = w ∧ plain_file w ∧ host_str w = None ∧
    tidy w ∧ path_names w = as_bytes <$> non_empty ts) as (w & -> & Hw & Hhw & Htw & Hnw).
  { destruct b.
    - destruct (push_empty_names v Hx) as (H1 & H2 & H3 & H4). exists (seg_push [] v).
      split_and!; [|done|congruence|by apply H4|congruence]. unfold extend. rewrite foldl_app. done.
    - exists v. split_and!; [done|done|congruence|by apply trimmed_tidy|done]. }
  rewrite <- Hnw in Hdr. apply no_drive_name in Hdr.
  assert (no_nul w) as Hnul.
  { apply no_nul_names; [done|]. rewrite Hnw. intros n (t & -> & Ht)%list_elem_of_fmap H0%as_bytes_nul.
    rewrite Forall_forall in Hall. by apply Hall in Ht as [_ ?]. }
  exists w. rewrite try_from_same; [|apply valid_spec; auto|done|done]. split_and!; [done|by apply posix_intro|done|done].
Qed.

Lemma concat_join (ts : list rstr) : ts ≠ [] → concat (cons SLASH <$> ts) = SLASH :: RustStr.join [SLASH] ts.
Proof.
  induction ts as [|t [|t' ts] IH]; [done|intros _; cbn; by rewrite app_nil_r|]. intros _.
  change (concat (cons SLASH <$> (t :: t' :: ts))) with ((SLASH :: t) ++ concat (cons SLASH <$> (t' :: ts))).
  rewrite IH by done. done.
Qed.

Lemma render_posix u : posix u → Forall name_ok (path_names u) →
  ∃ ts, ts ≠ [] ∧ inferred_native_path_string u = concat (cons SLASH <$> ts) ∧
    Forall (λ t, t = [] ∨ segment_ok t ∧ 0%N ∉ t) ts ∧ as_bytes <$> non_empty ts = path_names u.
Proof.
  intros (Hu & Hn & Hc) Hok. pose proof (no_nul_not_opaque u Hu Hn) as Ho. pose proof (proj1 (posix_head u Ho) Hc) as [Hh _].
  exists (decode_native_segment <$> url_segments u). split; [by intros ?%fmap_nil_inv%segments_nonempty|].
  split.
  { unfold inferred_native_path_string. rewrite Hc. unfold from_path_uri. unfold is_opaque in Ho.
    destruct (opaque_fallback_bytes u); [done|]. unfold render_posix_path. rewrite Hh, bool_decide_eq_false_2 by done.
    by rewrite <- list_fmap_compose. }
  assert (∀ segs, (∀ s, s ∈ segs → s ∈ url_segments u) → Forall name_ok (percent_decode <$> non_empty segs) →
    Forall (λ t, t = [] ∨ segment_ok t ∧ 0%N ∉ t) (decode_native_segment <$> segs) ∧
    as_bytes <$> non_empty (decode_native_segment <$> segs) = percent_decode <$> non_empty segs) as H.
  2: { apply (H (url_segments u)); [done|exact Hok]. }
  clear Hok. induction segs as [|s segs IH]; intros Hin Hok; [done|].
  change (s :: segs) with ([s] ++ segs) in Hok |- *. rewrite non_empty_app, non_empty_one, fmap_app, Forall_app in Hok. destruct Hok as [Hs Hok].
  destruct IH as [H1 H2]; [intros x Hx; apply Hin; by right|done|].
  rewrite !fmap_app. cbn [fmap list_fmap]. rewrite !non_empty_app, !fmap_app, H2.
  rewrite !non_empty_one. rewrite Forall_app. case_bool_decide as E.
  - subst s. assert (decode_native_segment [] = []) as ->.
    { unfold decode_native_segment, as_bytes, encode. cbn. by rewrite decode_nil. }
    split; [split; [constructor; [by left|done]|done]|]. done.
  - cbn [fmap list_fmap] in Hs. apply Forall_cons in Hs as [Hs _].
    destruct (name_component u s Hu Hn (Hin s ltac:(left)) E Hs) as (t & _ & Hb & Hseg & H0 & _ & ->).
    split; [split; [constructor; [by right|done]|done]|]. rewrite bool_decide_eq_false_2 by (by destruct Hseg as (_ & _ & _ & ?)).
    cbn [fmap list_fmap]. by rewrite Hb.
Qed.

Lemma native_text u : posix u → is_Some (lexical_depth u) → Forall name_ok (path_names u) → drive_name (path_names u) = false →
  ∃ w, to_path_uri (inferred_native_path_string u) Posix = Done w ∧ posix w ∧ tidy w ∧ path_names w = path_names u.
Proof.
  intros Hpu Hd Hok Hdr. destruct (render_posix u Hpu Hok) as (ts & Hne & -> & Hts & Hnames).
  assert (∀ t, t ∈ ts → SLASH ∉ t) as Hsl.
  { intros t Ht Hst. apply (proj1 (depth_names u Hpu) Hd (as_bytes t)); [|by apply as_bytes_slash].
    rewrite <- Hnames. apply list_elem_of_fmap_2, list_elem_of_filter. split; [|done]. by intros ->; apply not_elem_of_nil in Hst. }
  rewrite <- Hnames in Hdr. destruct (segments_path ts Hne Hts Hdr) as (w & Hw & Hpw & Htw & Hnw).
  exists w. split_and!; [|done|done|congruence]. rewrite concat_join by done.
  unfold to_path_uri, from_absolute_native_path, parse_posix_path.
  replace (strip_prefix [SLASH] (SLASH :: RustStr.join [SLASH] ts)) with (Some (RustStr.join [SLASH] ts))
    by (symmetry; apply (strip_prefix_app [SLASH])).
  rewrite bool_decide_eq_false_2.
  2: { intros [?|(t & Ht & H0)]%join_elem; [done|]. rewrite Forall_forall in Hts. destruct (Hts t Ht) as [->|[_ ?]]; [by apply not_elem_of_nil in H0|done]. }
  rewrite split_char_join by done. rewrite Hw. cbn [mbind outcome_bind].
  destruct Hpw as (Hpw & Hnul & Hc). pose proof (proj1 (posix_head w (no_nul_not_opaque w Hpw Hnul)) Hc) as [-> _].
  rewrite Hc. done.
Qed.
End round_trips.
