(* ===== verification/SimpleUrl.v ===== *)
(** * A concrete URL library

    The URLs [file://host/path] with the laws of [Url], for running the
    definitions on concrete paths. *)

From S2P Require Import Prelude RustStr StreamText Utf8Stream Url PathUriJoin.

Record raw_url := mkRaw { raw_host : option rstr; raw_segments : list rstr }.
#[local] Instance raw_eq_dec : EqDecision raw_url.
Proof. solve_decision. Defined.

Definition is_dot (s : rstr) : bool := bool_decide (percent_decode s ∈ [[DOT]; [DOT; DOT]]).
Definition seg_wf (s : rstr) : bool :=
  forallb (λ c, (c <? 128)%N && negb (bool_decide (c = SLASH))) s && negb (is_dot s).
Definition host_wf (h : option rstr) : bool :=
  match h with
  | None => true
  | Some h => negb (is_empty h) && forallb (λ c, (c <? 128)%N && negb (bool_decide (c = SLASH))) h
  end.
Definition raw_wf (r : raw_url) : bool :=
  host_wf (raw_host r) && negb (is_empty (raw_segments r)) && forallb seg_wf (raw_segments r).

Definition simple_url : Type := {r : raw_url | raw_wf r = true}.

(** A URL with these parts, or the fallback if there is none. *)
Definition check_url (r : raw_url) : option simple_url :=
  match decide (raw_wf r = true) with left H => Some (exist _ r H) | right _ => None end.
Definition update_url (r : raw_url) (u : simple_url) : simple_url := default u (check_url r).

Definition simple_path (u : simple_url) : rstr := concat (cons SLASH <$> raw_segments (`u)).
Definition simple_str (u : simple_url) : rstr := $"file://" ++ default [] (raw_host (`u)) ++ simple_path u.

Definition simple_parse (s : rstr) : result rstr simple_url :=
  match strip_prefix ($"file://") s with
  | None => Err ($"relative URL without a base")
  | Some rest =>
      match split_char SLASH rest with
      | host :: segs =>
          match check_url (mkRaw (match host with [] => None | _ => Some host end) segs) with
          | Some u => Ok u
          | None => Err ($"invalid domain character")
          end
      | [] => Err ($"empty host")
      end
  end.

Definition simple_set_path (p : rstr) (u : simple_url) : simple_url :=
  match p with
  | c :: q => if decide (c = SLASH) then update_url (mkRaw (raw_host (`u)) (split_char SLASH q)) u else u
  | [] => u
  end.

Definition pop_segments (segs : list rstr) : list rstr :=
  match take (length segs - 1) segs with [] => [[]] | k => k end.
Definition trim_segments (segs : list rstr) : list rstr :=
  match last segs, take (length segs - 1) segs with Some [], _ :: _ => take (length segs - 1) segs | _, _ => segs end.

Definition hex_digit (n : N) : char := if (n <? 10)%N then (48 + n)%N else (55 + n)%N.
Definition percent_encode_byte (b : N) : rstr :=
  if plain_char b || bool_decide (b = DOT) || bool_decide (b = COLON) then [b]
  else [PERCENT; hex_digit (b / 16 mod 16); hex_digit (b mod 16)].
Definition percent_encode (bs : bytes) : rstr := concat (percent_encode_byte <$> bs).

Definition push_segments (s : rstr) (segs : list rstr) : list rstr :=
  (if bool_decide (segs = [[]]) then [] else segs) ++ [percent_encode (segment_bytes (bool_decide (segs = [[]])) s)].

(** Each value as so many letters, closed by a mark. *)
Definition letters_encode (bs : bytes) : rstr := concat ((λ b, replicate (N.to_nat b) 65%N ++ [95%N]) <$> bs).
Fixpoint letters_decode_from (n : N) (s : rstr) : option bytes :=
  match s with
  | [] => if decide (n = 0%N) then Some [] else None
  | c :: s =>
      if decide (c = 65%N) then letters_decode_from (N.succ n) s
      else if decide (c = 95%N) then bs ← letters_decode_from 0 s; Some (n :: bs)
      else None
  end.

#[export] Instance simple_ops : UrlOps simple_url := {|
  url_eq_dec := _;
  url_parse := simple_parse;
  as_str := simple_str;
  scheme _ := FILE_SCHEME;
  username _ := [];
  password _ := None;
  port _ := None;
  query _ := None;
  fragment _ := None;
  host_str u := raw_host (`u);
  url_path := simple_path;
  url_segments u := raw_segments (`u);
  set_host h u := check_url (mkRaw h (raw_segments (`u)));
  set_path := simple_set_path;
  seg_clear u := update_url (mkRaw (raw_host (`u)) [[]]) u;
  seg_pop_if_empty u := update_url (mkRaw (raw_host (`u)) (trim_segments (raw_segments (`u)))) u;
  seg_pop u := update_url (mkRaw (raw_host (`u)) (pop_segments (raw_segments (`u)))) u;
  seg_push s u := update_url (mkRaw (raw_host (`u)) (push_segments s (raw_segments (`u)))) u;
  decode_binary := percent_decode;
  encode_binary := percent_encode;
  base64_encode := letters_encode;
  base64_decode := letters_decode_from 0
|}.

(** ** Its laws *)

Lemma check_url_Some r (H : raw_wf r = true) : ∃ u, check_url r = Some u ∧ proj1_sig u = r.
Proof. unfold check_url. destruct (decide _) as [H'|]; [by eexists|done]. Qed.

Lemma update_url_ok r u : raw_wf r = true → proj1_sig (update_url r u) = r.
Proof. intros H. unfold update_url. by destruct (check_url_Some r H) as (v & -> & Hv). Qed.

Lemma update_url_host segs u : raw_host (proj1_sig (update_url (mkRaw (raw_host (`u)) segs) u)) = raw_host (`u).
Proof. unfold update_url, check_url. by destruct (decide _). Qed.

Lemma raw_wf_spec (h : option rstr) segs : raw_wf (mkRaw h segs) = true ↔
  host_wf h = true ∧ segs ≠ [] ∧ ∀ s, s ∈ segs → seg_wf s = true.
Proof.
  unfold raw_wf. cbn. rewrite !andb_true_iff, negb_true_iff, is_empty_false, forallb_forall.
  setoid_rewrite <- list_elem_of_In. naive_solver.
Qed.

Lemma seg_wf_spec s : seg_wf s = true ↔ Forall (λ c, (c < 128)%N ∧ c ≠ SLASH) s ∧ is_dot s = false.
Proof.
  unfold seg_wf. rewrite andb_true_iff, forallb_forall, negb_true_iff, Forall_forall. setoid_rewrite <- list_elem_of_In.
  setoid_rewrite andb_true_iff. setoid_rewrite N.ltb_lt. setoid_rewrite negb_true_iff. setoid_rewrite bool_decide_eq_false. done.
Qed.

Lemma simple_wf (u : simple_url) : host_wf (raw_host (`u)) = true ∧ raw_segments (`u) ≠ [] ∧
  ∀ s, s ∈ raw_segments (`u) → Forall (λ c, (c < 128)%N ∧ c ≠ SLASH) s ∧ is_dot s = false.
Proof.
  destruct u as [[h segs] H]. cbn. apply raw_wf_spec in H as (? & ? & H). split_and!; [done..|].
  intros s Hs. apply seg_wf_spec. by apply H.
Qed.

Lemma host_wf_Some h : host_wf (Some h) = true ↔ h ≠ [] ∧ Forall (λ c, (c < 128)%N ∧ c ≠ SLASH) h.
Proof.
  unfold host_wf. rewrite andb_true_iff, negb_true_iff, is_empty_false, forallb_forall, Forall_forall.
  setoid_rewrite <- list_elem_of_In. setoid_rewrite andb_true_iff. setoid_rewrite N.ltb_lt. setoid_rewrite negb_true_iff.
  setoid_rewrite bool_decide_eq_false. done.
Qed.

Lemma no_slash_of (s : rstr) : Forall (λ c, (c < 128)%N ∧ c ≠ SLASH) s → SLASH ∉ s.
Proof. rewrite Forall_forall. intros H Hs. by apply H in Hs as [_ ?]. Qed.

Lemma simple_host_no_slash (u : simple_url) : SLASH ∉ default [] (raw_host (`u)).
Proof.
  destruct (simple_wf u) as (Hh & _). destruct (raw_host (`u)) as [h|]; [|apply not_elem_of_nil].
  apply host_wf_Some in Hh as [_ Hh]. by apply no_slash_of.
Qed.

(** A keeping update: the new segments are well formed. *)
Lemma update_segments segs u : segs ≠ [] → (∀ s, s ∈ segs → seg_wf s = true) →
  raw_segments (proj1_sig (update_url (mkRaw (raw_host (`u)) segs) u)) = segs.
Proof.
  intros Hn H. rewrite update_url_ok; [done|]. apply raw_wf_spec. split_and!; [|done|done]. apply simple_wf.
Qed.

Lemma hex_digit_value n : (n < 16)%N → hex_value (hex_digit n) = Some n.
Proof.
  intros H. assert (∃ k, k < 16 ∧ n = N.of_nat k) as (k & Hk & ->) by (exists (N.to_nat n); lia).
  do 16 (destruct k as [|k]; [reflexivity|]). lia.
Qed.

Lemma percent_encode_decode bs : Forall (λ b, (b < 256)%N) bs → percent_decode (percent_encode bs) = bs.
Proof.
  induction 1 as [|b bs Hb _ IH]; [done|]. unfold percent_encode. cbn [fmap list_fmap concat]. fold (percent_encode bs).
  unfold percent_encode_byte. destruct (plain_char b || bool_decide (b = DOT) || bool_decide (b = COLON)) eqn:E; cbn [app percent_decode].
  - rewrite decide_False, IH; [done|]. by intros ->.
  - rewrite decide_True by done. rewrite !hex_digit_value by bytes_lia. rewrite IH. f_equal. bytes_lia.
Qed.

Lemma hex_digit_char n : (n < 16)%N → (hex_digit n < 128)%N ∧ hex_digit n ≠ SLASH.
Proof. unfold hex_digit, SLASH. destruct (N.ltb_spec n 10); lia. Qed.

Lemma percent_encode_chars bs : Forall (λ c, (c < 128)%N ∧ c ≠ SLASH) (percent_encode bs).
Proof.
  induction bs as [|b bs IH]; [constructor|]. unfold percent_encode. cbn [fmap list_fmap concat]. apply Forall_app. split; [|done].
  unfold percent_encode_byte. destruct (plain_char b || bool_decide (b = DOT) || bool_decide (b = COLON)) eqn:E.
  - constructor; [|constructor]. revert E. unfold plain_char, is_ascii_digit, is_ascii_alphabetic, MINUS, DOT, COLON, SLASH.
    rewrite !orb_true_iff, !andb_true_iff, !N.leb_le, !bool_decide_eq_true. lia.
  - repeat constructor; try apply hex_digit_char; try (unfold PERCENT, SLASH; done); bytes_lia.
Qed.

Lemma encode_char_bytes c : is_scalar c = true → Forall (λ b, (b < 256)%N) (encode_char c).
Proof.
  intros Hc. assert (c < 1114112)%N.
  { unfold is_scalar in Hc. rewrite orb_true_iff, andb_true_iff, !N.ltb_lt in Hc. lia. }
  unfold encode_char. repeat byte_case; repeat constructor; bytes_lia.
Qed.

Lemma segment_bytes_byte first s : segment_text s → Forall (λ b, (b < 256)%N) (segment_bytes first s).
Proof.
  intros Ht. assert (Forall (λ b, (b < 256)%N) (as_bytes s)) as Hb.
  { unfold as_bytes, encode. apply Forall_concat, Forall_fmap. eapply Forall_impl; [exact Ht|].
    intros c [Hc _]. by apply encode_char_bytes. }
  destruct s as [|c [|bar [|? ?]]]; [done..| |done]. cbn [segment_bytes].
  destruct (_ && _) eqn:E; [|done]. rewrite !andb_true_iff in E. destruct E as [[_ Hc] _].
  repeat constructor. revert Hc. unfold is_ascii_alphabetic. rewrite orb_true_iff, !andb_true_iff, !N.leb_le. lia.
Qed.

Lemma segment_bytes_no_dot first s : segment_text s → s ∉ [[DOT]; [DOT; DOT]] → segment_bytes first s ∉ [[DOT]; [DOT; DOT]].
Proof.
  intros Ht Hs Hb. assert (Forall (λ c, is_scalar c = true) s) as Hsc by (eapply Forall_impl; [exact Ht|]; by intros ? [? _]).
  assert (segment_bytes first s = as_bytes s) as E.
  { revert Hb. destruct s as [|c [|bar [|? ?]]]; [done..| |done]. cbn [segment_bytes]. destruct (_ && _); [|done].
    rewrite !elem_of_cons, elem_of_nil. by intros [?|[?|[]]]. }
  rewrite E in Hb. apply Hs. pose proof (decode_encode s Hsc) as Hd. unfold as_bytes in Hb.
  rewrite !elem_of_cons, elem_of_nil in Hb |- *. destruct Hb as [Hb|[Hb|[]]]; rewrite Hb in Hd; vm_compute in Hd; injection Hd as <-; auto.
Qed.

Lemma letters_roundtrip bs : letters_decode_from 0 (letters_encode bs) = Some bs.
Proof.
  assert (∀ k n s, letters_decode_from n (replicate k 65%N ++ s) = letters_decode_from (n + N.of_nat k) s) as Hrep.
  { induction k as [|k IH]; intros n s; [by rewrite N.add_0_r|]. cbn [replicate app letters_decode_from].
    rewrite decide_True, IH by done. f_equal. lia. }
  induction bs as [|b bs IH]; [done|]. unfold letters_encode. cbn [fmap list_fmap concat]. fold (letters_encode bs).
  rewrite <- app_assoc, Hrep, N.add_0_l, N2Nat.id. cbn [app letters_decode_from].
  rewrite decide_False, decide_True by done. by rewrite IH.
Qed.

Lemma plain_char_ascii (c : char) : plain_char c → (c < 128)%N ∧ c ≠ SLASH ∧ c ≠ PERCENT ∧ c ≠ DOT.
Proof.
  intros H%Is_true_eq_true. revert H. unfold plain_char, is_ascii_digit, is_ascii_alphabetic, MINUS, SLASH, PERCENT, DOT.
  rewrite !orb_true_iff, !andb_true_iff, !N.leb_le, !bool_decide_eq_true. lia.
Qed.

Lemma raw_inj (u v : simple_url) : `u = `v → u = v.
Proof. destruct u as [r H], v as [r' H']. cbn. intros ->. f_equal. apply eq_pi, _. Qed.

Lemma split_char_path (segs : list rstr) : segs ≠ [] → (∀ s, s ∈ segs → SLASH ∉ s) →
  split_char SLASH (concat (cons SLASH <$> segs)) = [] :: segs.
Proof.
  intros Hn Hs. assert (concat (cons SLASH <$> segs) = RustStr.join [SLASH] ([] :: segs)) as ->.
  { clear Hs. induction segs as [|s [|s' segs] IH]; [done|cbn; by rewrite app_nil_r|].
    change (concat (cons SLASH <$> (s :: s' :: segs))) with ((SLASH :: s) ++ concat (cons SLASH <$> (s' :: segs))).
    rewrite IH by done. done. }
  apply split_char_join; [done|]. intros s [->|H]%elem_of_cons; [apply not_elem_of_nil|by apply Hs].
Qed.

Lemma split_char_inverse q : concat (cons SLASH <$> split_char SLASH q) = SLASH :: q.
Proof.
  induction q as [|c q IH]; [done|]. cbn [split_char]. destruct (decide (c = SLASH)) as [->|Hc].
  - cbn [fmap list_fmap concat app]. by rewrite IH.
  - destruct (split_char SLASH q) as [|h t]; [done|]. cbn [fmap list_fmap concat app] in IH |- *. injection IH as IH. by rewrite IH.
Qed.

Lemma simple_path_split (u : simple_url) : split_char SLASH (simple_path u) = [] :: raw_segments (`u).
Proof.
  destruct (simple_wf u) as (_ & Hn & Hs). apply split_char_path; [done|]. intros s H. apply no_slash_of. by apply Hs.
Qed.

(** Changing the case of a letter that starts a segment. *)
Lemma split_char_upper pre c rest : Forall (λ c, c = SLASH) pre → is_ascii_lowercase c = true →
  ∃ k s t, split_char SLASH (pre ++ c :: rest) = k ++ (c :: s) :: t ∧
    split_char SLASH (pre ++ (c - 32)%N :: rest) = k ++ ((c - 32)%N :: s) :: t.
Proof.
  intros Hp Hc. assert (c ≠ SLASH ∧ (c - 32)%N ≠ SLASH) as [H1 H2].
  { unfold is_ascii_lowercase in Hc. rewrite andb_true_iff, !N.leb_le in Hc. unfold SLASH. lia. }
  induction Hp as [|x pre -> _ (k & s & t & IH1 & IH2)]; cbn [app split_char].
  - rewrite !decide_False by done. destruct (split_char SLASH rest) as [|h t]; [exists [], [], []|exists [], h, t]; done.
  - rewrite decide_True, IH1, IH2 by done. by exists ([] :: k), s, t.
Qed.

Lemma simple_set_path_case (u : simple_url) pre c rest : simple_path u = pre ++ c :: rest → is_ascii_lowercase c →
  Forall (λ c, c = SLASH) pre → simple_path (simple_set_path (pre ++ (c - 32)%N :: rest) u) = pre ++ (c - 32)%N :: rest.
Proof.
  intros Hpath Hc%Is_true_eq_true Hp. destruct (simple_wf u) as (Hh & Hn & Hs).
  destruct pre as [|x pre].
  { exfalso. unfold simple_path in Hpath. destruct (raw_segments (`u)); [done|]. injection Hpath as <- _. done. }
  apply Forall_cons in Hp as [-> Hp]. cbn [app]. unfold simple_set_path. rewrite decide_True by done.
  pose proof (simple_path_split u) as Hsp. rewrite Hpath in Hsp. cbn [app split_char] in Hsp. rewrite decide_True in Hsp by done.
  injection Hsp as Hsp. destruct (split_char_upper pre c rest Hp Hc) as (k & s & t & E1 & E2).
  unfold simple_path. rewrite update_segments.
  - apply split_char_inverse.
  - rewrite E2. by destruct k.
  - intros x Hx. pose proof (split_char_no_sep _ _ Hx) as Hsl. rewrite E2 in Hx. rewrite <- Hsp, E1 in Hs.
    assert (is_ascii_alphabetic (c - 32) = true ∧ (c - 32)%N ≠ PERCENT ∧ (c - 32)%N ≠ DOT ∧ (c - 32 < 128)%N) as (_ & Hc1 & Hc2 & Hc3).
    { unfold is_ascii_lowercase in Hc. unfold is_ascii_alphabetic, PERCENT, DOT.
      rewrite orb_true_iff, !andb_true_iff, !N.leb_le in *. lia. }
    rewrite !elem_of_app, elem_of_cons in Hx. apply seg_wf_spec.
    destruct Hx as [Hx|[->|Hx]].
    + apply Hs. rewrite elem_of_app. by left.
    + destruct (Hs (c :: s)) as [Hall _]; [rewrite elem_of_app, elem_of_cons; auto|]. apply Forall_cons in Hall as [_ Hall].
      rewrite not_elem_of_cons in Hsl. split; [constructor; [split; [done|]|done]|]; [by destruct Hsl as [? _]; congruence|].
      unfold is_dot. apply bool_decide_eq_false_2. cbn [percent_decode]. rewrite decide_False by done.
      rewrite !elem_of_cons, elem_of_nil. intros [[=]|[[=]|[]]]; congruence.
    + apply Hs. rewrite elem_of_app, elem_of_cons. by auto.
Qed.

Lemma take_snoc {A} (k : list A) s : take (length (k ++ [s]) - 1) (k ++ [s]) = k.
Proof. rewrite length_app. cbn [length]. rewrite Nat.add_sub. by apply take_app_length. Qed.

Lemma simple_seg_wf (u : simple_url) s : s ∈ raw_segments (`u) → seg_wf s = true.
Proof. destruct (simple_wf u) as (_ & _ & H). intros Hs. apply seg_wf_spec. by apply H. Qed.

Lemma root_wf (s : rstr) : s ∈ [([] : rstr)] → seg_wf s = true.
Proof. by intros ->%list_elem_of_singleton. Qed.

#[export] Instance simple_laws : UrlLaws simple_url.
Proof.
  split; unfold plain_file, dot_segment; cbn [url_parse as_str scheme username password port query fragment host_str url_path url_segments
    set_host set_path seg_clear seg_pop_if_empty seg_pop seg_push decode_binary base64_encode base64_decode simple_ops].
  - intros u v E. apply raw_inj. unfold simple_str in E.
    assert (raw_host (`u) = raw_host (`v) ∧ simple_path u = simple_path v) as [Hh Hp].
    { apply app_inv_head in E.
      assert (∀ u : simple_url, split_char SLASH (default [] (raw_host (`u)) ++ simple_path u)
        = default [] (raw_host (`u)) :: raw_segments (`u)) as Hsp.
      { intros w. destruct (simple_wf w) as (_ & Hn & Hs). transitivity (split_char SLASH (RustStr.join [SLASH]
          (default [] (raw_host (`w)) :: raw_segments (`w)))).
        - f_equal. unfold simple_path. destruct (raw_segments (`w)) as [|s segs]; [done|].
          pose proof (split_char_inverse (RustStr.join [SLASH] (s :: segs))) as Hi.
          rewrite split_char_join in Hi; [|done|intros t Ht; by apply no_slash_of, Hs]. rewrite Hi. by destruct segs.
        - apply split_char_join; [done|]. intros s [->|Hin]%elem_of_cons; [apply simple_host_no_slash|by apply no_slash_of, Hs]. }
      pose proof (Hsp u) as Hu. rewrite E, Hsp in Hu. injection Hu as Hh Hs. split.
      - destruct (simple_wf u) as (Hwu & _), (simple_wf v) as (Hwv & _).
        destruct (raw_host (`u)) as [h|], (raw_host (`v)) as [h'|]; cbn in Hh; subst; try done.
      - unfold simple_path. by rewrite Hs. }
    destruct (`u) as [h segs] eqn:Eu, (`v) as [h' segs'] eqn:Ev. cbn in *. f_equal; [done|].
    pose proof (simple_path_split u) as H1. rewrite Hp, (simple_path_split v), Eu, Ev in H1. by injection H1.
  - intros u. unfold simple_str. destruct (simple_wf u) as (Hh & _ & Hs). apply Forall_app. split; [by repeat constructor|].
    apply Forall_app. split.
    + destruct (raw_host (`u)); [|constructor]. apply host_wf_Some in Hh as [_ Hh]. eapply Forall_impl; [exact Hh|]. by intros c [? _].
    + unfold simple_path. apply Forall_concat, Forall_fmap, Forall_forall. intros s Hin. constructor; [done|].
      eapply Forall_impl; [apply (Hs s Hin)|]. by intros c [? _].
  - done.
  - done.
  - intros u _. apply simple_wf.
  - intros u s _ Hs. apply no_slash_of. by apply (simple_wf u).
  - intros u s _ Hs. destruct (simple_wf u) as (_ & _ & H). destruct (H s Hs) as [_ Hd]. unfold is_dot in Hd.
    apply bool_decide_eq_false in Hd. rewrite !elem_of_cons in Hd. tauto.
  - intros u _. apply simple_host_no_slash.
  - intros segs Hn Hs. unfold simple_parse. rewrite strip_prefix_app. rewrite split_char_path; [|done|].
    + assert (raw_wf (mkRaw None segs) = true) as Hwf.
      { apply raw_wf_spec. split_and!; [done..|]. intros s Hin. rewrite Forall_forall in Hs. destruct (Hs s Hin) as [Hd Hc].
        apply seg_wf_spec. split.
        - eapply Forall_impl; [exact Hc|]. intros c. rewrite orb_True. intros [H|H]; [apply plain_char_ascii in H; tauto|].
          apply bool_decide_unpack in H. by subst.
        - unfold is_dot. apply bool_decide_eq_false_2. rewrite !elem_of_cons, elem_of_nil. tauto. }
      destruct (check_url_Some _ Hwf) as (u & -> & Hu). exists u. rewrite Hu. done.
    + intros s Hin Hsl. rewrite Forall_forall in Hs. destruct (Hs s Hin) as [_ Hc]. rewrite Forall_forall in Hc.
      by apply Hc in Hsl.
  - intros h u v _ E. unfold check_url in E. destruct (decide _); [|done]. injection E as <-. done.
  - intros u _. assert (raw_wf (mkRaw None (raw_segments (`u))) = true) as Hwf.
    { apply raw_wf_spec. split_and!; [done|apply simple_wf|apply simple_seg_wf]. }
    destruct (check_url_Some _ Hwf) as (v & -> & Hv). exists v. by rewrite Hv.
  - intros p u _. split; [done|]. unfold simple_set_path. destruct p as [|c q]; [done|]. destruct (decide _); [|done].
    apply update_url_host.
  - intros u pre c rest _. apply simple_set_path_case.
  - intros u _. split; [done|apply update_url_host].
  - intros u _. split; [done|apply update_url_host].
  - intros u _. split; [done|apply update_url_host].
  - intros s u _. split; [done|apply update_url_host].
  - intros u _. apply update_segments; [done|apply root_wf].
  - intros u k s _ Hs. assert (trim_segments (raw_segments (`u)) = match s, k with [], _ :: _ => k | _, _ => k ++ [s] end) as E.
    { unfold trim_segments. rewrite Hs, last_snoc, take_snoc. by destruct s, k. }
    rewrite update_segments; [done|rewrite E; by destruct s, k|]. intros x Hx. apply (simple_seg_wf u). rewrite E in Hx. rewrite Hs.
    destruct s, k; try done. rewrite elem_of_app. by left.
  - intros u k s _ Hs. assert (pop_segments (raw_segments (`u)) = match k with [] => [[]] | _ => k end) as E.
    { unfold pop_segments. rewrite Hs, take_snoc. by destruct k. }
    rewrite update_segments; [done|rewrite E; by destruct k|]. intros x Hx. rewrite E in Hx.
    destruct k; [by apply root_wf|]. apply (simple_seg_wf u). rewrite Hs, elem_of_app. by left.
  - intros s u _ Ht Hd. set (e := percent_encode (segment_bytes (bool_decide (raw_segments (`u) = [[]])) s)). exists e.
    assert (percent_decode e = segment_bytes (bool_decide (raw_segments (`u) = [[]])) s) as Hde.
    { apply percent_encode_decode. by apply segment_bytes_byte. }
    split_and!; [|exact Hde|].
    2: { unfold e. intros ->. by case_bool_decide. }
    rewrite update_segments; [done|unfold push_segments; by case_bool_decide; destruct (raw_segments (`u))|].
    intros x. unfold push_segments. rewrite elem_of_app, list_elem_of_singleton. intros [Hx| ->].
    + apply (simple_seg_wf u). case_bool_decide; [by apply not_elem_of_nil in Hx|done].
    + fold e. apply seg_wf_spec. split; [apply percent_encode_chars|]. unfold is_dot. apply bool_decide_eq_false_2. rewrite Hde.
      by apply segment_bytes_no_dot.
  - done.
  - intros c s Hc. cbn [percent_decode]. by rewrite decide_False.
  - intros h l x y s Hh Hl. cbn [percent_decode]. by rewrite decide_True, Hh, Hl by done.
  - intros [|h [|l s]] H; [done..|]. cbn [percent_decode]. rewrite decide_True by done.
    destruct H as [-> | ->]; [done|by destruct (hex_value h)].
  - apply letters_roundtrip.
  - intros bs. unfold letters_encode. apply Forall_concat, Forall_fmap, Forall_forall. intros b _. cbn.
    apply Forall_app. split; [|by repeat constructor]. by apply Forall_replicate.
  - intros [|b bs] H; [done|]. unfold letters_encode. cbn [fmap list_fmap concat]. by destruct (N.to_nat b).
Qed.
