(* ===== verification/PathUriProps.v ===== *)
(** * Path URIs implement the paths of permissions

    The validated URLs with the operations of [PathUri] are an instance of
    [UriOps], and satisfy every law the permission claims assume. *)
From S2P Require Permissions.
From S2P Require Import Prelude RustStr StreamText Utf8Stream PermissionsFacts ApprovedCommand PolicyTransformsFacts Url PathUri ApiPathString PathUriFacts PathUriJoin PathUriRoundTrip SimpleUrl.


Section instance.
Context {Url : Type} `{!UrlOps Url, !UrlLaws Url}.

(** [struct PathUri(Url)]: what [TryFrom<Url>] lets through. *)
Definition PathUri : Type := {u : Url | valid u = true}.

Implicit Types (p q : PathUri) (u v w : Url).

Definition wrap (u : Url) : option PathUri :=
  match decide (valid u = true) with left H => Some (exist _ u H) | right _ => None end.
Definition wrap_outcome {E} (r : outcome E Url) : option PathUri :=
  match r with Done u => wrap u | _ => None end.

Lemma wrap_valid u : valid u = true → ∃ p, wrap u = Some p ∧ proj1_sig p = u.
Proof. intros H. unfold wrap. destruct (decide _); [by eexists|done]. Qed.
Lemma wrap_Some u p : wrap u = Some p → proj1_sig p = u.
Proof. unfold wrap. destruct (decide _); [by intros [= <-]|done]. Qed.

#[export] Instance path_uri_ops : Permissions.UriOps PathUri := {|
  Permissions.uri_eqb p q := path_uri_eq (`p) (`q);
  Permissions.infer_path_convention p := infer_path_convention (`p);
  Permissions.lexical_depth p := lexical_depth (`p);
  Permissions.is_opaque p := is_opaque (`p);
  Permissions.parent p := parent (`p) ≫= wrap;
  Permissions.ancestors p := omap wrap (ancestors (`p));
  Permissions.basename p := basename (`p);
  Permissions.is_within p q := starts_with (`p) (`q);
  Permissions.join p path := wrap_outcome (join (`p) path);
  Permissions.join_descendant p path := wrap_outcome (join_descendant (`p) path);
  Permissions.validate_glob_directory p c := is_ok (validate_glob_directory (`p) c);
  Permissions.inferred_native_path_string p := inferred_native_path_string (`p)
|}.

(** Nothing is lost in wrapping: the results are validated. *)
Lemma wrap_parent p : Permissions.parent p = None ↔ parent (`p) = None.
Proof.
  cbn. destruct (parent (`p)) as [u|] eqn:E; [|done]. cbn. split; [|done]. intros Hn.
  destruct (wrap_valid u) as (q & Hq & _); [by eapply parent_valid; [apply (proj2_sig p)|]|]. congruence.
Qed.

Lemma wrap_join p path : match join (`p) path with Done w => ∃ q, Permissions.join p path = Some q ∧ proj1_sig q = w | _ => Permissions.join p path = None end.
Proof.
  cbn. destruct (join (`p) path) as [w| |] eqn:E; [|done..]. cbn. apply wrap_valid. by eapply join_valid; [apply (proj2_sig p)|].
Qed.

Lemma posix_of p : infer_path_convention (`p) = Some Posix → is_opaque (`p) = false → posix (`p).
Proof. intros Hc Ho. pose proof (proj2_sig p) as [Hu [?|Hn]]%valid_spec; [congruence|done]. Qed.

Lemma posix_of_depth p : infer_path_convention (`p) = Some Posix → is_Some (lexical_depth (`p)) → posix (`p).
Proof. intros Hc [d Hd]. apply posix_of; [done|]. by destruct (posix_depth _ _ Hc Hd). Qed.

Lemma depth_is_length u d : posix u → lexical_depth u = Some d → d = length (path_names u).
Proof. intros (_ & _ & Hc) Hd. destruct (posix_depth u d Hc Hd) as (_ & _ & ->). unfold path_names. by rewrite length_fmap. Qed.

Lemma ancestors_wrap u r : valid u = true → last (ancestors u) = Some r →
  ∃ p, last (omap wrap (ancestors u)) = Some p ∧ proj1_sig p = r.
Proof.
  unfold ancestors. generalize (S (length (url_path u))). intros fuel. revert u.
  induction fuel as [|fuel IH]; intros u Hv; [done|]. cbn [successors].
  destruct (wrap_valid u Hv) as (p & Hp & Hpu).
  destruct (parent u) as [q|] eqn:Eq.
  - intros Hl. rewrite last_cons in Hl. destruct (last (successors fuel q)) as [r'|] eqn:El.
    + injection Hl as ->. destruct (IH q) as (x & Hx & Hxr); [by eapply parent_valid|done|].
      exists x. split; [|done]. cbn. rewrite Hp, last_cons. by rewrite Hx.
    + injection Hl as ->. exists p. split; [|done]. cbn. rewrite Hp, last_cons.
      apply last_None in El. by rewrite El.
  - intros [= ->]. exists p. split; [|done]. cbn. by rewrite Hp.
Qed.

(** The directory [/tmp] from anywhere. *)
Lemma tmp_path u : infer_path_convention u = Some Posix →
  ∃ t, join u ($"/tmp") = Done t ∧ posix t ∧ path_names t = [$"tmp"].
Proof.
  intros Hc. unfold join. rewrite bool_decide_eq_false_2 by (apply (bool_decide_unpack _); reflexivity). cbn [is_empty].
  change (is_empty ($"/tmp")) with false. rewrite Hc. cbn iota.
  destruct (segments_path [$"tmp"]) as (w & Hw & Hp & _ & Hn); [done| |done|].
  { constructor; [right|constructor]. split; [|apply (bool_decide_unpack _); reflexivity]. split_and!; [|done|apply (bool_decide_unpack _); reflexivity|done].
    repeat constructor; apply (bool_decide_unpack _); reflexivity. }
  exists w. split_and!; [|done|done]. unfold from_absolute_native_path.
  assert (parse_posix_path ($"/tmp") = Done w) as ->.
  { unfold parse_posix_path. change (strip_prefix [SLASH] ($"/tmp")) with (Some ($"tmp")). cbn iota.
    rewrite bool_decide_eq_false_2 by (apply (bool_decide_unpack _); reflexivity). exact Hw. }
  cbn [mbind outcome_bind]. destruct Hp as (Hpw & Hnul & Hcw).
  pose proof (proj1 (posix_head w (no_nul_not_opaque w Hpw Hnul)) Hcw) as [-> _]. by rewrite Hcw.
Qed.

Lemma names_basename u d : posix u → lexical_depth u = Some d → d = 1 → basename u = Some ($"tmp") → path_names u = [$"tmp"].
Proof.
  intros Hp Hd -> Hb. pose proof (depth_is_length u 1 Hp Hd) as Hl. destruct Hp as (Hu & Hn & Hc).
  unfold basename in Hb. rewrite (no_nul_not_opaque u Hu Hn) in Hb. unfold path_names in Hl |- *.
  destruct (non_empty (url_segments u)) as [|s [|? ?]] eqn:E; [done| |done]. cbn in Hb. injection Hb as Hb. cbn [fmap list_fmap]. f_equal.
  assert (s ∈ url_segments u) as Hs.
  { assert (s ∈ non_empty (url_segments u)) as Hin by (rewrite E; left). apply list_elem_of_filter in Hin. tauto. }
  unfold decode_uri_path in Hb. rewrite (decode_segment u s Hu Hs) in Hb.
  destruct (from_utf8 (percent_decode s)) as [t|] eqn:Et.
  - destruct (from_utf8_Ok _ _ Et) as (_ & <- & _). by rewrite Hb.
  - rewrite Hb in Et. vm_compute in Et. done.
Qed.

(** Containment in a path with a depth depends on its names only. *)
Lemma within_same_names (x q t : Url) : valid x = true → posix q → posix t → is_Some (lexical_depth q) →
  path_names q = path_names t → starts_with x q = starts_with x t.
Proof.
  intros Hx Hq Ht Hdq Hn. pose proof Hq as (Huq & Hnq & Hcq). pose proof Ht as (Hut & Hnt & Hct).
  assert (is_Some (lexical_depth t)) as Hdt by (apply depth_names; [done|]; rewrite <- Hn; by apply depth_names).
  pose proof Hdq as [dq Eq]. pose proof Hdt as [dt Et].
  destruct (decide (infer_path_convention x = Some Posix)) as [Hcx|Hcx].
  - destruct (lexical_depth x) as [d|] eqn:Ex.
    + apply valid_spec in Hx as [Hux _]. apply eq_true_iff_eq.
      rewrite (posix_within x q d dq), (posix_within x t d dt) by done. by rewrite Hn.
    + assert (∀ y, infer_path_convention y = Some Posix → is_Some (lexical_depth y) → starts_with x y = false) as H.
      { intros y Hy [d Hd]. apply not_true_iff_false. intros Hw. apply posix_within_no_depth in Hw; [|done|done|by left].
        congruence. }
      by rewrite !H.
  - assert (∀ y, infer_path_convention y = Some Posix → starts_with x y = false) as H.
    { intros y Hy. unfold starts_with. rewrite (posix_eq x y Hy). case_bool_decide; [by subst|].
      destruct (_ || _); [done|]. destruct (negb (bool_decide (host_str x = _))); [done|].
      rewrite Hy. by rewrite bool_decide_eq_false_2. }
    by rewrite !H.
Qed.

#[export] Instance path_uri_laws : UriLaws PathUri.
Proof.
  split; cbn.
  - intros p. unfold path_uri_eq. by rewrite bool_decide_eq_true_2.
  - intros p. unfold starts_with, path_uri_eq. by rewrite bool_decide_eq_true_2.
  - intros p q Hq He. rewrite (posix_eq _ _ Hq) in He. apply bool_decide_eq_true in He. rewrite He. done.
  - intros c Hc Hd. pose proof (posix_of_depth c Hc Hd) as Hp.
    destruct (successors_root (S (length (url_path (`c)))) (`c) Hp) as (r & Hr & Hpr & He); [lia|].
    destruct (ancestors_wrap (`c) r (proj2_sig c) Hr) as (q & Hq & <-). exists q. split_and!; [done|apply Hpr|by apply root_depth].
  - intros x r Hx [d Hd] Hr Hdr. apply (posix_within (`x) (`r) d 0); [apply (posix_of_depth x); [done|by eexists]|apply (posix_of_depth r); [done|by eexists]|done..|].
    assert (path_names (`r) = []) as ->; [|apply prefix_nil]. apply nil_length_inv. symmetry. apply depth_is_length; [|done].
    apply posix_of_depth; [done|by eexists].
  - intros q d Hq Hd Hn. assert (posix (`q)) as Hp by (apply posix_of_depth; [done|by eexists]).
    apply wrap_parent in Hn. rewrite (depth_is_length _ _ Hp Hd). apply (parent_none _ Hp), names_nil in Hn. by rewrite Hn.
  - intros c Hc. destruct (tmp_path (`c) Hc) as (t & Ht & Hpt & Hnt).
    pose proof (wrap_join c ($"/tmp")) as Hj. rewrite Ht in Hj. destruct Hj as (q & Hq & <-). exists q.
    assert (is_Some (lexical_depth (`q))) as Hdq.
    { apply depth_names; [done|]. rewrite Hnt. intros n ->%list_elem_of_singleton. apply (bool_decide_unpack _). reflexivity. }
    split_and!; [done|apply Hpt| |].
    + destruct Hdq as [d Hd]. rewrite Hd. f_equal. rewrite (depth_is_length _ _ Hpt Hd). by rewrite Hnt.
    + intros y Hy Hdy Hb x. assert (posix (`y)) as Hpy by (apply posix_of_depth; [done|by eexists]).
      apply within_same_names; [apply (proj2_sig x)|done|done|by eexists|]. rewrite Hnt.
      by eapply names_basename.
Qed.

#[export] Instance path_uri_order_laws : UriOrderLaws PathUri.
Proof.
  assert (∀ p, infer_path_convention (`p) = Some Posix → lexical_depth (`p) = None ∨
    ∃ d, lexical_depth (`p) = Some d ∧ posix (`p)) as Hcase.
  { intros p Hp. destruct (lexical_depth (`p)) as [d|] eqn:E; [right|by left]. exists d. split; [done|].
    apply posix_of_depth; [done|by eexists]. }
  assert (∀ p q d d', posix (`p) → posix (`q) → lexical_depth (`p) = Some d → lexical_depth (`q) = Some d' →
    starts_with (`p) (`q) = true ↔ path_names (`q) `prefix_of` path_names (`p)) as Hpre.
  { intros p q d d' (Hp & _ & Hcp) (Hq & _ & Hcq) Hd Hd'. by apply (posix_within _ _ d d'). }
  split; cbn.
  - intros x a b Hx Ha Hb Hxa Hab.
    destruct (Hcase x Hx) as [Hn|(dx & Hdx & Hpx)]; [apply posix_within_no_depth in Hxa; [by rewrite Hxa|done|done|by left]|].
    destruct (Hcase a Ha) as [Hn|(da & Hda & Hpa)]; [apply posix_within_no_depth in Hxa; [by rewrite Hxa|done|done|by right]|].
    destruct (Hcase b Hb) as [Hn|(db & Hdb & Hpb)]; [apply posix_within_no_depth in Hab; [by rewrite <- Hab|done|done|by right]|].
    apply (Hpre x a dx da) in Hxa; [|done..]. apply (Hpre a b da db) in Hab; [|done..]. apply (Hpre x b dx db); [done..|]. by etrans.
  - intros x a d d' Hx Ha Hdx Hda Hw. assert (posix (`x)) by (apply posix_of_depth; [done|by eexists]).
    assert (posix (`a)) by (apply posix_of_depth; [done|by eexists]). apply (Hpre x a d d') in Hw; [|done..].
    rewrite (depth_is_length (`x) d), (depth_is_length (`a) d') by done. by apply prefix_length.
  - intros x a b d d' Hx Ha Hb Hda Hdb Hle Hxa Hxb.
    assert (posix (`a)) as Hpa by (apply posix_of_depth; [done|by eexists]).
    assert (posix (`b)) as Hpb by (apply posix_of_depth; [done|by eexists]).
    destruct (Hcase x Hx) as [Hn|(dx & Hdx & Hpx)].
    { apply posix_within_no_depth in Hxa; [|done|done|by left]. congruence. }
    apply (Hpre x a dx d) in Hxa; [|done..]. apply (Hpre x b dx d') in Hxb; [|done..]. apply (Hpre b a d' d); [done..|].
    rewrite (depth_is_length (`a) d), (depth_is_length (`b) d') in Hle by done.
    destruct (prefix_weak_total _ _ _ Hxa Hxb) as [?|Hba]; [done|]. by rewrite (prefix_length_eq _ _ Hba Hle).
  - intros p q Hq He. rewrite (posix_eq _ _ Hq) in He. apply bool_decide_eq_true in He. by rewrite He.
Qed.

#[export] Instance path_uri_child_laws : UriChildLaws PathUri.
Proof.
  split; cbn. intros r name c d Hname Hc Hd Hj. assert (posix (`r)) as Hr by (apply posix_of_depth; [done|by eexists]).
  assert (segment_ok name ∧ (0%N ∉ name) ∧ (SLASH ∉ name) ∧ drive_name [as_bytes name] = false ∧ SLASH ∉ as_bytes name)
    as (Hok & H0 & Hsl & Hdr & Hb).
  { unfold Permissions.PROTECTED_METADATA_PATH_NAMES in Hname. rewrite !elem_of_cons, elem_of_nil in Hname.
    destruct Hname as [->|[->|[->|[->|[]]]]]; (split_and!; [|apply (bool_decide_unpack _); reflexivity..]); (split_and!; [|done|apply (bool_decide_unpack _); reflexivity|done]);
      repeat constructor; apply (bool_decide_unpack _); reflexivity. }
  destruct (PathUriJoin.posix_child (`r) name Hr Hok H0 Hsl Hdr) as (w & Hw & Hpw & Hnw).
  pose proof (join_descendant_shape (`r) name (proj2_sig r)) as Hs.
  destruct (join_descendant (`r) name) as [v| |] eqn:E; [|done..]. cbn in Hj. apply wrap_Some in Hj as ->.
  destruct Hs as (_ & Hjw & _). rewrite Hw in Hjw. injection Hjw as <-. split; [apply Hpw|].
  assert (is_Some (lexical_depth w)) as [d' Hd'].
  { apply depth_names; [done|]. rewrite Hnw. intros n. rewrite elem_of_app, list_elem_of_singleton. intros [Hn| ->]; [|done].
    revert n Hn. apply depth_names; [done|by eexists]. }
  rewrite Hd'. f_equal. rewrite (depth_is_length w d' Hpw Hd'), (depth_is_length _ _ Hr Hd), Hnw, length_app. apply Nat.add_1_r.
Qed.

(** The native text of a path starts with a separator, a drive or [file:]. *)
Lemma native_first u : plain_file u → match inferred_native_path_string u with
  | c :: s => c ≠ 99%N ∨ head s = Some COLON
  | [] => True
  end.
Proof.
  intros Hu. assert (∃ s, as_str u = 102%N :: s) as [str Hstr] by (rewrite (as_str_file u Hu); by eexists).
  unfold inferred_native_path_string. destruct (infer_path_convention u) as [c|]; [|rewrite Hstr; by left].
  assert (∀ x, is_windows_separator_char x = true → x ≠ 99%N) as Hsep by (by intros x Hx ->).
  assert (∀ us, match us with drive :: colon :: _ => is_ascii_alphabetic drive && bool_decide (colon = COLON) = true ∨ is_windows_separator_char drive = true | _ => False end →
    match from_utf16_lossy us with c :: s => c ≠ 99%N ∨ head s = Some COLON | [] => True end) as H16.
  { intros [|drive [|colon us]]; [done..|]. intros Hd.
    assert (is_high_surrogate drive = false ∧ is_low_surrogate drive = false) as [Hh Hl].
    { unfold is_high_surrogate, is_low_surrogate, between. rewrite !andb_false_iff, !N.leb_gt.
      revert Hd. unfold is_ascii_alphabetic, is_windows_separator_char, SLASH, BACKSLASH.
      rewrite andb_true_iff, !orb_true_iff, !andb_true_iff, !N.leb_le, !bool_decide_eq_true. lia. }
    cbn [from_utf16_lossy]. rewrite Hh, Hl. destruct Hd as [[_ ->%bool_decide_eq_true]%andb_true_iff|Hd]; [by right|left; by apply Hsep]. }
  unfold from_path_uri. destruct (opaque_fallback_bytes u) as [bs|].
  - unfold render_opaque_fallback. destruct c.
    + destruct bs as [|b bs]; [cbn; rewrite Hstr; by left|].
      destruct (RustStr.starts_with [SLASH] (b :: bs)) eqn:E; [|rewrite Hstr; by left].
      apply starts_with_spec in E as [k Hk]. injection Hk as -> _. by left.
    + destruct (render_windows_opaque_fallback bs) as [s|] eqn:E; [|rewrite Hstr; by left].
      unfold render_windows_opaque_fallback in E. destruct (chunks_u16 bs) as [us|]; [cbn in E|done].
      destruct us as [|drive [|colon us]]; [done..|]. cbv zeta in E.
      match type of E with (if ?b then _ else _) = _ => destruct b eqn:Hg end; [|done]. injection E as <-. apply (H16 (drive :: colon :: us)).
      apply orb_true_iff in Hg as [Hg|[Hg _]%andb_true_iff]; [left|by right]. destruct us; [done|]. by apply andb_true_iff in Hg as [? _].
  - destruct c.
    + unfold render_posix_path. case_bool_decide; [rewrite Hstr; by left|].
      pose proof (segments_nonempty u Hu). destruct (url_segments u); [done|]. by left.
    + destruct (render_windows_path u) as [s|] eqn:E; [|rewrite Hstr; by left]. unfold render_windows_path in E.
      destruct (host_str u) as [h|], (url_segments u) as [|x segs]; [done| |done|].
      * destruct (is_empty (decode_native_segment x)); [done|]. cbn in E. injection E as <-.
        destruct ((h ++ _) ++ _); cbn; by left.
      * destruct (is_bare_drive (decode_native_segment x)) eqn:Ed; [|done]. cbn in E.
        destruct (decode_native_segment x) as [|drive [|colon [|? ?]]]; [done..| |done]. cbn in Ed.
        apply andb_true_iff in Ed as [_ ->%bool_decide_eq_true]. cbn in E. injection E as <-.
        destruct (concat _); cbn; by right.
Qed.

#[export] Instance path_uri_native_laws : UriNativeLaws PathUri.
Proof.
  split. intros p. cbn [Permissions.inferred_native_path_string path_uri_ops]. pose proof (proj2_sig p) as [Hu _]%valid_spec. pose proof (native_first (`p) Hu) as H.
  match goal with |- ?s = None => destruct s as [r|] eqn:E end; [|done]. apply strip_prefix_Some in E. rewrite E in H.
  by destruct H as [H|H]; [destruct H|].
Qed.
End instance.
Arguments PathUri Url {_}.

(** * The claims about path URIs *)
(** C30: The paths of the permission code are real paths: with the operations
    of [PathUri], validated [file:] URLs satisfy every law the claims about
    permissions assume.  On POSIX paths [==] refines containment, containment
    is an order whose lower sets are chains, the ancestors end at a root that
    contains everything, a metadata name joined to a root is one level below
    it, and no native text looks like a pattern of the workspace roots. *)
Theorem path_uris_satisfy_laws (Url : Type) `{!UrlOps Url} :
  UrlLaws Url →
  @UriLaws (PathUri Url) path_uri_ops ∧ @UriOrderLaws (PathUri Url) path_uri_ops ∧
  @UriChildLaws (PathUri Url) path_uri_ops ∧ @UriNativeLaws (PathUri Url) path_uri_ops.
Proof. intros Hl. split_and!; apply _. Qed.

Lemma path_uris_satisfy_laws_witness :
  @UriLaws (PathUri simple_url) path_uri_ops ∧ @UriOrderLaws (PathUri simple_url) path_uri_ops ∧
  @UriChildLaws (PathUri simple_url) path_uri_ops ∧ @UriNativeLaws (PathUri simple_url) path_uri_ops.
Proof. exact (path_uris_satisfy_laws simple_url simple_laws). Defined.

(** ** Examples *)

Definition demo_url (segs : list rstr) : simple_url :=
  default (exist _ (mkRaw None [[]]) eq_refl) (check_url (mkRaw None segs)).
Definition work : simple_url := demo_url [$"w"; $"my%20dir"; []].

Definition url_text (r : outcome PathUriParseError simple_url) : option rstr :=
  match r with Done u => Some (as_str u) | _ => None end.

Example join_resolves_dots : url_text (join work ($"../src/./a b.rs")) = Some ($"file:///w/src/a%20b.rs").
Proof. reflexivity. Qed.
Example join_unc_root : url_text (join (default work (check_url (mkRaw (Some ($"server")) [$"share"; $"x"]))) ($"\y\..\..\z"))
  = Some ($"file://server/share/z").
Proof. reflexivity. Qed.
Example join_posix_absolute : url_text (join work ($"//etc/../tmp/")) = Some ($"file:///tmp/").
Proof. reflexivity. Qed.

(** Where slashes are doubled, [..] takes away an empty segment and counts
    it as a name: the result is below the base, not beside it. *)
Example join_doubled_slashes :
  url_text (join (demo_url [$"workspace"; []; []; []]) ($"../x")) = Some ($"file:///workspace//x").
Proof. reflexivity. Qed.

(** ** Joining *)

Lemma simple_posix (u : simple_url) : valid u = true → infer_path_convention u = Some Posix → is_opaque u = false → posix u.
Proof. intros [Hu [?|Hn]]%valid_spec Hc Ho; [congruence|done]. Qed.

Lemma simple_tidy (u : simple_url) : forallb (λ s, negb (is_empty s)) (take (length (url_segments u) - 1) (url_segments u)) = true → tidy u.
Proof.
  intros H k s x Hs Hx. rewrite Hs, take_snoc in H. rewrite forallb_forall in H.
  apply is_empty_false, negb_true_iff, H. by rewrite <- list_elem_of_In.
Qed.

#[local] Instance name_ok_dec n : Decision (name_ok n).
Proof. unfold name_ok. destruct (from_utf8 n); apply _. Defined.
#[local] Instance component_ok_dec c : Decision (component_ok c).
Proof. unfold component_ok, segment_ok, segment_text. apply _. Defined.

(** Joining relative text to a POSIX path without doubled slashes is the
    resolution of names: [.] and empty components are skipped, [..] drops a
    name and stays at the root, any other component is appended with its
    bytes, and the result is again such a path. *)
Theorem posix_join_resolves {Url : Type} `{!UrlOps Url} (u : Url) (path : rstr) :
  UrlLaws Url → posix u → tidy u → 0%N ∉ path → RustStr.starts_with [SLASH] path = false →
  Forall component_ok (split_char SLASH path) →
  drive_name (resolve_names (path_names u) (split_char SLASH path)) = false →
  ∃ w, join u path = Done w ∧ posix w ∧ tidy w ∧ path_names w = resolve_names (path_names u) (split_char SLASH path).
Proof. intros Hl. apply posix_join. Qed.

Lemma posix_join_resolves_witness :
  ∃ w, join work ($"../src/./a b.rs") = Done w ∧ posix w ∧ tidy w ∧ path_names w = [$"w"; $"src"; $"a b.rs"].
Proof.
  replace [$"w"; $"src"; $"a b.rs"] with (resolve_names (path_names work) (split_char SLASH ($"../src/./a b.rs")))
    by (vm_compute; reflexivity).
  apply (posix_join_resolves work ($"../src/./a b.rs")).
  - apply simple_laws.
  - apply simple_posix; reflexivity.
  - apply simple_tidy. reflexivity.
  - apply (bool_decide_unpack _). reflexivity.
  - reflexivity.
  - apply (bool_decide_unpack _). vm_compute. reflexivity.
  - reflexivity.
Defined.

(** C31: Joins are total and confined: for every validated path, of either
    convention or opaque, and every text, [join] and [join_descendant] reach
    none of the [unreachable!]s, return only validated paths, and a path that
    [join_descendant] returns is contained in its base and was not given as
    an absolute path. *)
Theorem joins_are_confined {Url : Type} `{!UrlOps Url} (u : Url) (path : rstr) :
  UrlLaws Url → valid u = true →
  match join u path with Done w => valid w = true | Failed _ => True | Panic => False end ∧
  match join_descendant u path with
  | Done w => valid w = true ∧ join u path = Done w ∧ starts_with w u = true ∧ RustStr.starts_with [SLASH] path = false
  | Failed _ => True
  | Panic => False
  end.
Proof. intros Hl Hv. split; [by apply join_good|by apply join_descendant_shape]. Qed.

Definition descendant := Eval vm_compute in
  match join_descendant work ($"src/../lib") with Done w => w | _ => work end.

Lemma joins_are_confined_witness : starts_with descendant work = true.
Proof.
  destruct (joins_are_confined work ($"src/../lib") simple_laws eq_refl) as [_ H].
  destruct (join_descendant work ($"src/../lib")) as [w| |] eqn:E; [|done..]. destruct H as (_ & _ & H & _).
  vm_compute in E. injection E as <-. vm_compute. reflexivity.
Defined.

(** ** Text *)

(** A relative path joins back: if [relative_path_from] gives the path of
    a POSIX URI below a base, joining it to the base gives a URI with the same
    names, which contains and is contained in the first one. *)
Theorem relative_path_joins_back {Url : Type} `{!UrlOps Url} (u base : Url) (r : rstr) :
  UrlLaws Url → posix u → posix base → tidy base → is_Some (lexical_depth u) → Forall name_ok (path_names u) →
  drive_name (path_names u) = false → relative_path_from u base = Some r →
  ∃ w, join base r = Done w ∧ starts_with w u = true ∧ starts_with u w = true.
Proof.
  intros Hl Hu Hb Ht Hd Hok Hdr Hr. destruct (relative_join u base r Hu Hb Ht Hok Hdr Hr) as (w & Hj & Hw & Hn).
  exists w. split; [done|by apply same_names_within].
Qed.

Lemma relative_path_joins_back_witness :
  let u := demo_url [$"w"; $"my%20dir"; $"%C3%A9t%c3%a9"; $"x"] in
  ∃ w, join work (233 :: 116 :: 233 :: $"/x")%N = Done w ∧ starts_with w u = true ∧ starts_with u w = true.
Proof.
  intros u. apply (relative_path_joins_back u work).
  - apply simple_laws.
  - apply simple_posix; reflexivity.
  - apply simple_posix; reflexivity.
  - apply simple_tidy. reflexivity.
  - by eexists.
  - apply (bool_decide_unpack _). vm_compute. reflexivity.
  - reflexivity.
  - vm_compute. reflexivity.
Defined.

(** The native text of a POSIX URI reads back as the same path: parsing
    what [inferred_native_path_string] renders gives a URI with the same
    names, which contains and is contained in the first one, in any
    percent-encoded spelling of UTF-8 names. *)
Theorem native_text_reads_back {Url : Type} `{!UrlOps Url} (u : Url) :
  UrlLaws Url → posix u → is_Some (lexical_depth u) → Forall name_ok (path_names u) → drive_name (path_names u) = false →
  ∃ w, to_path_uri (inferred_native_path_string u) Posix = Done w ∧ path_names w = path_names u ∧
    starts_with w u = true ∧ starts_with u w = true.
Proof.
  intros Hl Hu Hd Hok Hdr. destruct (native_text u Hu Hd Hok Hdr) as (w & Hw & Hpw & _ & Hn).
  exists w. destruct (same_names_within u w Hu Hpw Hd Hn). done.
Qed.

Lemma native_text_reads_back_witness :
  let u := demo_url [$"w"; []; $"%61%20b"; []] in
  ∃ w, to_path_uri ($"/w//a b/") Posix = Done w ∧ path_names w = path_names u ∧ starts_with w u = true ∧ starts_with u w = true.
Proof.
  intros u. replace ($"/w//a b/") with (inferred_native_path_string u) by (vm_compute; reflexivity).
  apply (native_text_reads_back u).
  - apply simple_laws.
  - apply simple_posix; reflexivity.
  - by eexists.
  - apply (bool_decide_unpack _). vm_compute. reflexivity.
  - reflexivity.
Defined.
