(* ===== verification/Sandboxing.v ===== *)
(** * Choosing a sandbox

    [core/src/tools/sandboxing.rs] and [sandboxing/src/manager.rs]: what
    approval a tool call needs by default, when it may leave the sandbox, and
    which sandbox it runs in. *)

From S2P Require Import Prelude RustStr ExecPolicy Permissions ExecApproval Approvals PolicyTransforms.

(** ** Platforms *)

Inductive SandboxType := NoSandbox | MacosSeatbelt | LinuxSeccomp | WindowsRestrictedToken | WindowsMxc.
#[export] Instance SandboxType_eq : EqDecision SandboxType.
Proof. solve_decision. Defined.

(** [cfg!(target_os = ..)]. *)
Inductive TargetOs := MacOs | Linux | WindowsOs | OtherOs.

Definition native_convention (os : TargetOs) : PathConvention :=
  match os with WindowsOs => Windows | _ => Posix end.

Definition effective_windows_sandbox_type (sandbox_type : SandboxType) (level : WindowsSandboxLevel) : SandboxType :=
  match sandbox_type, level with
  | WindowsMxc, _ => WindowsMxc
  | _, SandboxDisabled => NoSandbox
  | _, (RestrictedToken | Elevated) => WindowsRestrictedToken
  end.

Definition get_platform_sandbox (os : TargetOs) (windows_sandbox_enabled : bool) : option SandboxType :=
  match os with
  | MacOs => Some MacosSeatbelt
  | Linux => Some LinuxSeccomp
  | WindowsOs => if windows_sandbox_enabled then Some WindowsRestrictedToken else None
  | OtherOs => None
  end.

Inductive SandboxablePreference := Auto | Require | Forbid.

(** ** Approval and escalation *)

Inductive SandboxOverride := NoOverride | EscalatedSandboxWithRestrictions | BypassSandboxFirstAttempt.
#[export] Instance SandboxOverride_eq : EqDecision SandboxOverride.
Proof. solve_decision. Defined.

Definition msg_sandbox_prompt_disallowed : rstr := $"approval policy disallowed sandbox approval prompt".
Definition msg_needs_sandbox : rstr := $"command escalation with denied reads requires an available filesystem sandbox".

Definition ensure_native_sandbox {Output Payload} (o : SandboxOverride) (sandbox : SandboxType) :
    result (ToolError Output Payload) unit :=
  if bool_decide (o = EscalatedSandboxWithRestrictions) && bool_decide (sandbox = NoSandbox)
  then Err (Rejected msg_needs_sandbox) else Ok tt.

(** The methods of [Approvable] a tool may override. *)
Definition should_bypass_approval (policy : AskForApproval) (already_approved : bool) : bool :=
  if already_approved then true else match policy with Never => true | _ => false end.

Definition wants_no_sandbox_approval (policy : AskForApproval) : bool :=
  match policy with
  | UnlessTrusted => true
  | Never | OnRequest => false
  | Granular config => sandbox_approval config
  end.

(** The override of [ApplyPatchRuntime]. *)
Definition apply_patch_wants_no_sandbox_approval (policy : AskForApproval) : bool :=
  match policy with
  | Never => false
  | Granular config => sandbox_approval config
  | OnRequest | UnlessTrusted => true
  end.

Section sandboxing.
Context {PathUri : Type} `{!UriOps PathUri}.
Context (os : TargetOs).

Local Abbreviation Policy := (FileSystemSandboxPolicy PathUri).

Definition has_denied_read_restrictions (p : Policy) : bool :=
  has_denied_read_restrictions_for_convention p (Some (native_convention os)).

Definition default_exec_approval_requirement (policy : AskForApproval) (p : Policy) : ExecApprovalRequirement :=
  let needs_approval :=
    match policy with
    | Never => false
    | OnRequest | Granular _ => bool_decide (kind p = Restricted)
    | UnlessTrusted => true
    end in
  if needs_approval && match policy with Granular config => negb (sandbox_approval config) | _ => false end
  then Forbidden msg_sandbox_prompt_disallowed
  else if needs_approval then NeedsApproval None None
  else Skip false None.

Definition unsandboxed_execution_allowed (p : Policy) : bool := negb (has_denied_read_restrictions p).

Definition sandbox_override_for_first_attempt (sandbox_permissions : SandboxPermissions)
    (requirement : ExecApprovalRequirement) (p : Policy) (already_approved : bool) : SandboxOverride :=
  if negb (unsandboxed_execution_allowed p) then
    if requires_escalated_permissions sandbox_permissions && already_approved
    then EscalatedSandboxWithRestrictions else NoOverride
  else
    match requirement with
    | Skip true _ => BypassSandboxFirstAttempt
    | _ =>
        if requires_escalated_permissions sandbox_permissions
        then BypassSandboxFirstAttempt else NoOverride
    end.

Definition sandbox_permissions_preserving_denied_reads (sandbox_permissions : SandboxPermissions) (p : Policy) :
    SandboxPermissions :=
  if requires_escalated_permissions sandbox_permissions && negb (unsandboxed_execution_allowed p)
  then UseDefault else sandbox_permissions.

(** ** The sandbox manager *)

Definition should_sandbox (profile : PermissionProfile PathUri) (pref : SandboxablePreference)
    (has_managed_network_requirements : bool) : bool :=
  match pref with
  | Forbid => false
  | Require => true
  | Auto =>
      let '(p, network_policy) := to_runtime_permissions profile in
      should_require_platform_sandbox (native_convention os) p network_policy has_managed_network_requirements
  end.

Definition select_initial (profile : PermissionProfile PathUri) (pref : SandboxablePreference)
    (windows_sandbox_type : SandboxType) (has_managed_network_requirements : bool) : SandboxType :=
  if negb (should_sandbox profile pref has_managed_network_requirements) then NoSandbox
  else if match os with WindowsOs => bool_decide (windows_sandbox_type = WindowsMxc) | _ => false end then WindowsMxc
  else default NoSandbox (get_platform_sandbox os (negb (bool_decide (windows_sandbox_type = NoSandbox)))).

(** ** Profiles with workspace roots *)

(** The policy of a profile is never external, so neither is the new one. *)
Definition profile_with_roots (roots : list PathUri) (profile : PermissionProfile PathUri) : PermissionProfile PathUri :=
  match profile with
  | Managed file_system network_policy =>
      match from_sandbox_policy (materialize_project_roots_with_path_uris (to_sandbox_policy file_system) roots) with
      | Some file_system => Managed file_system network_policy
      | None => External network_policy
      end
  | Disabled => Disabled
  | External network_policy => External network_policy
  end.

(** The derived [==] of policies. *)
Fixpoint entries_eqb (es fs : list (FileSystemSandboxEntry PathUri)) : bool :=
  match es, fs with
  | [], [] => true
  | e :: es, f :: fs => entry_eqb e f && entries_eqb es fs
  | _, _ => false
  end.
Definition policy_eqb (p q : Policy) : bool :=
  bool_decide (kind p = kind q) && bool_decide (glob_scan_max_depth p = glob_scan_max_depth q)
  && entries_eqb (entries p) (entries q).
End sandboxing.
