(* ===== verification/PatchSafety.v ===== *)
(** * Approving patches

    [core/src/safety.rs], [core/src/apply_patch.rs], the patch part of
    [core/src/tools/handlers/apply_patch.rs] and the permissions of
    [core/src/tools/handlers/mod.rs], with the local matcher of
    [protocol/src/permissions/local_aliases.rs]: whether a verified patch is
    applied without asking, asked about, or rejected, and which permissions it
    is applied with.

    Parameters: the target system; [normalize_local], which resolves the
    system aliases of a local path by reading the disk; the local parent of an
    opaque path; and the text of a URI. *)

From S2P Require Import Prelude RustStr PatchParser FileUpdate FileSystem ApplyPatch Invocation.
From S2P Require Import Permissions ExecApproval PolicyTransforms Sandboxing.

Definition PATCH_REJECTED_OUTSIDE_PROJECT_REASON : rstr :=
  $"writing outside of the project; rejected by user approval settings".
Definition PATCH_REJECTED_READ_ONLY_REASON : rstr :=
  $"writing is blocked by read-only sandbox; rejected by user approval settings".
Definition msg_empty_patch : rstr := $"empty patch".
Definition msg_patch_rejected : rstr := $"patch rejected: ".
Definition msg_check_permissions : rstr := $"failed to check patch permissions: ".
Definition msg_prepare_permissions : rstr := $"failed to prepare patch permissions: ".

Inductive SafetyCheck :=
| AutoApprove
| AskUser
| Reject (reason : rstr).

Inductive PatchSandboxRoute :=
| ExecutorManaged
| Platform (windows_sandbox_level : WindowsSandboxLevel).

Inductive FunctionCallError := RespondToModel (message : rstr) | Fatal (message : rstr).

Section safety.
Context {PathUri : Type} `{Countable PathUri, !UriOps PathUri}.
Context (os : TargetOs).
Context (normalize_local : PathUri → result io_error PathUri).
Context (local_parent : PathUri → option PathUri).
Context (uri_string : PathUri → rstr).

Local Abbreviation Policy := (FileSystemSandboxPolicy PathUri).
Local Abbreviation PolicyContext := (FileSystemSandboxPolicyContext PathUri).
Local Abbreviation Changes := (gmap PathUri (ApplyPatchFileChange PathUri)).

(** ** Local matching *)

Record LocalFileSystemPolicyMatcher := mkLocalMatcher {
  matcher_policy : Policy;
  matcher_context : PolicyContext
}.

(** Entries that are not paths stay as they are. *)
Definition keeps_spelling (e : FileSystemSandboxEntry PathUri) : bool :=
  match entry_path e with
  | GlobPattern _ | Special (Root | Minimal | Unknown _ _) => true
  | _ => false
  end.

Fixpoint normalized_entries (l : list (PathUri * FileSystemAccessMode)) : result io_error (list (FileSystemSandboxEntry PathUri)) :=
  match l with
  | [] => Ok []
  | (root, m) :: l =>
      if is_opaque root then normalized_entries l
      else
        normalized ← normalize_local root;
        rest ← normalized_entries l;
        Ok (new_entry (Path normalized) m :: rest)
  end.

Definition prepare_local_matching (p : Policy) (context : PolicyContext) : result io_error LocalFileSystemPolicyMatcher :=
  match os with
  | MacOs =>
      es ← normalized_entries (resolved_entries p context);
      Ok (mkLocalMatcher (mkPolicy (kind p) (glob_scan_max_depth p)
        (filter (λ e, keeps_spelling e = true) (entries p) ++ es)) context)
  | _ => Ok (mkLocalMatcher p context)
  end.

Definition with_path {T} (path : PathUri) (evaluate : PathUri → T) : result io_error T :=
  match os with MacOs => path ← normalize_local path; Ok (evaluate path) | _ => Ok (evaluate path) end.

Definition local_can_write_path (m : LocalFileSystemPolicyMatcher) (path : PathUri) : result io_error bool :=
  with_path path (λ path, can_write_path (matcher_policy m) path (matcher_context m)).
Definition local_resolve_access (m : LocalFileSystemPolicyMatcher) (path : PathUri) : FileSystemAccessMode :=
  match with_path path (λ path, resolve_access (matcher_policy m) path (matcher_context m)) with
  | Ok access => access
  | Err _ => Deny
  end.

Record PatchPolicyMatcher := mkMatcher {
  configured_policy : Policy;
  matching_context : PolicyContext;
  sandbox_route : PatchSandboxRoute;
  local_matching : option LocalFileSystemPolicyMatcher
}.

Definition prepare_matching (route : PatchSandboxRoute) (p : Policy) (context : PolicyContext) : result io_error PatchPolicyMatcher :=
  local ← match route with
          | Platform _ => m ← prepare_local_matching p context; Ok (Some m)
          | ExecutorManaged => Ok None
          end;
  Ok (mkMatcher p context route local).

Definition patch_can_write_path (m : PatchPolicyMatcher) (path : PathUri) : result io_error bool :=
  match local_matching m with
  | Some local => local_can_write_path local path
  | None => Ok (can_write_path (configured_policy m) path (matching_context m))
  end.

(** ** Assessing a patch *)

(** The paths a change writes or removes. *)
Definition change_paths (path : PathUri) (change : ApplyPatchFileChange PathUri) : list PathUri :=
  match change with
  | Add _ | Delete _ => [path]
  | Update _ move_path _ => path :: option_list move_path
  end.

(** The checks stop at the first path that cannot be written or judged. *)
Fixpoint all_writable (m : PatchPolicyMatcher) (paths : list PathUri) : result io_error bool :=
  match paths with
  | [] => Ok true
  | path :: paths => writable ← patch_can_write_path m path; if (writable : bool) then all_writable m paths else Ok false
  end.

(** The order of a [HashMap] is unspecified. *)
Definition file_paths_for_action (changes : Changes) : list PathUri :=
  concat ((λ '(path, change), change_paths path change) <$> map_to_list changes).

Definition is_write_patch_constrained_to_writable_paths (changes : Changes) (m : PatchPolicyMatcher) : result io_error bool :=
  if has_full_disk_write_access_with_context (configured_policy m) (matching_context m) then Ok true
  else all_writable m (file_paths_for_action changes).

Definition patch_rejection_reason (profile : PermissionProfile PathUri) (p : Policy) (context : PolicyContext) : rstr :=
  let has_no_writable_roots := negb (has_configured_writable_roots p context) in
  match profile with
  | Managed _ _ =>
      if negb (has_full_disk_write_access_with_context p context) && has_no_writable_roots
      then PATCH_REJECTED_READ_ONLY_REASON else PATCH_REJECTED_OUTSIDE_PROJECT_REASON
  | Disabled | External _ => PATCH_REJECTED_OUTSIDE_PROJECT_REASON
  end.

Definition sandbox_available (route : PatchSandboxRoute) : bool :=
  match route with
  | ExecutorManaged => true
  | Platform level => bool_decide (is_Some (get_platform_sandbox os (negb (bool_decide (level = SandboxDisabled)))))
  end.

Definition assess_patch_safety (changes : Changes) (policy : AskForApproval) (profile : PermissionProfile PathUri)
    (m : PatchPolicyMatcher) : result io_error SafetyCheck :=
  if bool_decide (changes = ∅) then Ok (Reject msg_empty_patch)
  else
    match policy with
    | UnlessTrusted => Ok AskUser
    | Never | OnRequest | Granular _ =>
        let rejects_sandbox_approval :=
          match policy with Never => true | Granular config => negb (sandbox_approval config) | _ => false end in
        constrained ← is_write_patch_constrained_to_writable_paths changes m;
        if constrained && (match profile with Disabled | External _ => true | Managed _ _ => false end
                           || sandbox_available (sandbox_route m))
        then Ok AutoApprove
        else if rejects_sandbox_approval
        then Ok (Reject (patch_rejection_reason profile (configured_policy m) (matching_context m)))
        else Ok AskUser
    end.

(** ** Preparing the call ([core/src/apply_patch.rs]) *)

Record ApplyPatchRuntimeInvocation := mkRuntimeInvocation {
  runtime_changes : Changes;
  auto_approved : bool;
  exec_approval_requirement : ExecApprovalRequirement
}.

Definition prepare_apply_patch (changes : Changes) (policy : AskForApproval) (profile : PermissionProfile PathUri)
    (m : PatchPolicyMatcher) : result FunctionCallError ApplyPatchRuntimeInvocation :=
  match assess_patch_safety changes policy profile m with
  | Err error => Err (RespondToModel (msg_check_permissions ++ io_message error))
  | Ok AutoApprove => Ok (mkRuntimeInvocation changes true (Skip false None))
  | Ok AskUser => Ok (mkRuntimeInvocation changes false (NeedsApproval None None))
  | Ok (Reject reason) => Err (RespondToModel (msg_patch_rejected ++ reason))
  end.

(** ** Permissions of the call *)

(** [str]'s order: by code point, as UTF-8 preserves it. *)
Fixpoint str_le (a b : rstr) : bool :=
  match a, b with
  | [], _ => true
  | _ :: _, [] => false
  | x :: a, y :: b => (x <? y)%N || (x =? y)%N && str_le a b
  end.

(** [sort_by_key(PathUri::to_string)], stable. *)
Fixpoint insert_path (path : PathUri) (l : list PathUri) : list PathUri :=
  match l with
  | [] => [path]
  | q :: l => if str_le (uri_string path) (uri_string q) then path :: q :: l else q :: insert_path path l
  end.
Definition sort_paths (l : list PathUri) : list PathUri := foldr insert_path [] l.

(** [Vec::dedup]: the first of each run of equal elements. *)
Fixpoint dedup (l : list PathUri) : list PathUri :=
  match l with
  | x :: ((y :: _) as l') => if uri_eqb x y then
      match dedup l' with _ :: rest => x :: rest | [] => [x] end else x :: dedup l'
  | _ => l
  end.

(** The directories to ask for, of the paths that cannot be written. *)
Fixpoint missing_write_paths (m : PatchPolicyMatcher) (paths : list PathUri) : result io_error (list PathUri) :=
  match paths with
  | [] => Ok []
  | path :: paths =>
      writable ← patch_can_write_path m path;
      if (writable : bool) then missing_write_paths m paths
      else
        let parent :=
          default path
            match parent path with
            | Some parent => Some parent
            | None => match sandbox_route m with Platform _ => local_parent path | ExecutorManaged => None end
            end in
        writable ← patch_can_write_path m parent;
        rest ← missing_write_paths m paths;
        Ok (if (writable : bool) then rest else parent :: rest)
  end.

Definition write_permissions_for_paths (paths : list PathUri) (m : PatchPolicyMatcher) :
    result io_error (option (AdditionalPermissionProfile PathUri)) :=
  write_paths ← missing_write_paths m paths;
  let write_paths := dedup (sort_paths write_paths) in
  if is_empty write_paths then Ok None
  else
    let permissions :=
      mkAdditional None (Some (mkFileSystemPermissions ((λ path, new_entry (Path path) Write) <$> write_paths) None)) in
    let normalized :=
      match sandbox_route m with
      | Platform _ => normalize_additional_permissions permissions
      | ExecutorManaged => normalize_additional_permissions_with_context permissions (matching_context m)
      end in
    Ok (match normalized with Ok a => Some a | Err _ => None end).

Record EffectiveAdditionalPermissions := mkEffective {
  effective_sandbox_permissions : SandboxPermissions;
  effective_additional_permissions : option (AdditionalPermissionProfile PathUri);
  permissions_preapproved : bool
}.

(** The derived [==] of [FileSystemPermissions], up to the order of entries. *)
Definition same_file_system (effective granted : FileSystemPermissions PathUri) : bool :=
  bool_decide (permission_depth effective = permission_depth granted)
  && (length (permission_entries effective) =? length (permission_entries granted))
  && forallb (λ e, existsb (entry_eqb e) (permission_entries granted)) (permission_entries effective).

(** An entry whose place the context does not give. *)
Definition unbound_entry (context : PolicyContext) (e : FileSystemSandboxEntry PathUri) : bool :=
  match entry_path e with
  | Special Tmpdir => match temporary_directories context with Some (_ :: _) => false | _ => true end
  | Special (ProjectRoots _) => is_empty (workspace_roots context)
  | _ => false
  end.

Definition preapproved_permission_profile (effective granted : AdditionalPermissionProfile PathUri) (context : PolicyContext) :
    option (AdditionalPermissionProfile PathUri) :=
  if is_some_and (λ f, existsb (unbound_entry context) (permission_entries f)) (file_system effective) then None
  else
    match materialize_additional_permissions_with_context effective context,
          materialize_additional_permissions_with_context granted context with
    | Ok e, Ok g =>
        if negb (bool_decide (enabled <$> network e = enabled <$> network g)) then None
        else if match file_system e, file_system g with
                | Some e, Some g => same_file_system e g
                | None, None => true
                | Some _, None | None, Some _ => false
                end
        then Some granted else None
    | _, _ => None
    end.

Definition is_none {A} (o : option A) : bool := match o with Some _ => false | None => true end.

(** [granted] is [turn.granted_permissions(environment_id)]. *)
Definition apply_granted_turn_permissions (granted : option (AdditionalPermissionProfile PathUri)) (context : PolicyContext)
    (sandbox_permissions : SandboxPermissions) (additional : option (AdditionalPermissionProfile PathUri)) :
    EffectiveAdditionalPermissions :=
  if bool_decide (sandbox_permissions = RequireEscalated) then mkEffective sandbox_permissions additional false
  else
    let effective := merge_permission_profiles additional granted in
    let preapproved :=
      granted ← granted;
      if is_none additional then Some granted
      else effective ← effective; preapproved_permission_profile effective granted context in
    let effective := match preapproved with Some _ => preapproved | None => effective end in
    mkEffective
      (if bool_decide (is_Some effective) && negb (bool_decide (sandbox_permissions = WithAdditionalPermissions))
       then WithAdditionalPermissions else sandbox_permissions)
      effective (bool_decide (is_Some preapproved)).

(** [AskForApproval]'s derived [Debug] text. *)
Definition debug_bool (b : bool) : rstr := if b then $"true" else $"false".
Definition debug_policy (policy : AskForApproval) : rstr :=
  match policy with
  | UnlessTrusted => $"UnlessTrusted"
  | OnRequest => $"OnRequest"
  | Never => $"Never"
  | Granular c =>
      $"Granular(GranularApprovalConfig { sandbox_approval: " ++ debug_bool (sandbox_approval c)
      ++ $", rules: " ++ debug_bool (rules c) ++ $", skill_approval: " ++ debug_bool (skill_approval c)
      ++ $", request_permissions: " ++ debug_bool (request_permissions c)
      ++ $", mcp_elicitations: " ++ debug_bool (mcp_elicitations c) ++ $" })"
  end.

Definition msg_additional_disabled : rstr :=
  $"additional permissions are disabled; enable `features.exec_permission_approvals` before using `with_additional_permissions`".
Definition msg_not_on_request (policy : AskForApproval) : rstr :=
  $"approval policy is " ++ debug_policy policy ++ $"; reject command " ++ [8212%N]
  ++ $" you cannot request additional permissions unless the approval policy is OnRequest".
Definition msg_missing_additional : rstr :=
  $"missing `additional_permissions`; provide at least one of `network` or `file_system` when using `with_additional_permissions`".
Definition msg_empty_additional : rstr :=
  $"`additional_permissions` must include at least one requested permission in `network` or `file_system`".
Definition msg_additional_needs_mode : rstr :=
  $"`additional_permissions` requires `sandbox_permissions` set to `with_additional_permissions`".

Inductive AdditionalPermissionsError :=
| InvalidRequest (message : rstr)
| NotNormalized (error : PermissionError PathUri).

Definition normalize_and_validate_additional_permissions (additional_permissions_allowed : bool) (policy : AskForApproval)
    (sandbox_permissions : SandboxPermissions) (additional : option (AdditionalPermissionProfile PathUri))
    (preapproved : bool) (context : PolicyContext) :
    result AdditionalPermissionsError (option (AdditionalPermissionProfile PathUri)) :=
  let uses_additional_permissions := bool_decide (sandbox_permissions = WithAdditionalPermissions) in
  if negb preapproved && negb additional_permissions_allowed
     && (uses_additional_permissions || bool_decide (is_Some additional))
  then Err (InvalidRequest msg_additional_disabled)
  else if uses_additional_permissions then
    if negb preapproved && match policy with OnRequest => false | _ => true end
    then Err (InvalidRequest (msg_not_on_request policy))
    else
      match additional with
      | None => Err (InvalidRequest msg_missing_additional)
      | Some additional =>
          normalized ← map_err NotNormalized (normalize_additional_permissions_with_context additional context);
          if additional_is_empty normalized then Err (InvalidRequest msg_empty_additional) else Ok (Some normalized)
      end
  else match additional with
       | Some _ => Err (InvalidRequest msg_additional_needs_mode)
       | None => Ok None
       end.

Definition implicit_granted_permissions (sandbox_permissions : SandboxPermissions)
    (additional : option (AdditionalPermissionProfile PathUri)) (effective : EffectiveAdditionalPermissions) :
    option (AdditionalPermissionProfile PathUri) :=
  if negb (bool_decide (sandbox_permissions = WithAdditionalPermissions))
     && negb (bool_decide (sandbox_permissions = RequireEscalated)) && is_none additional
  then effective_additional_permissions effective else None.

(** ** The call as it reaches the orchestrator *)

Record ApplyPatchRequest := mkPatchRequest {
  request_file_paths : list PathUri;
  request_requirement : ExecApprovalRequirement;
  request_additional_permissions : option (AdditionalPermissionProfile PathUri);
  request_permissions_preapproved : bool
}.

(** [execute_verified_patch] up to the call of the orchestrator. *)
Definition patch_request (changes : Changes) (policy : AskForApproval) (profile : PermissionProfile PathUri)
    (granted : option (AdditionalPermissionProfile PathUri)) (route : PatchSandboxRoute) (context : PolicyContext) :
    result FunctionCallError ApplyPatchRequest :=
  let file_paths := file_paths_for_action changes in
  let p := effective_file_system_sandbox_policy (file_system_sandbox_policy profile) granted in
  match prepare_matching route p context with
  | Err error => Err (RespondToModel (msg_prepare_permissions ++ io_message error))
  | Ok matching =>
      match write_permissions_for_paths file_paths matching with
      | Err error => Err (RespondToModel (msg_check_permissions ++ io_message error))
      | Ok additional_permissions =>
          let effective := apply_granted_turn_permissions granted context UseDefault additional_permissions in
          apply ← prepare_apply_patch changes policy profile matching;
          Ok (mkPatchRequest file_paths (exec_approval_requirement apply) (effective_additional_permissions effective)
                (permissions_preapproved effective))
      end
  end.
End safety.
Arguments ApplyPatchRequest : clear implicits.
Arguments PatchPolicyMatcher : clear implicits.
