(* ===== verification/PatchSafetyFacts.v ===== *)
(** * Facts about approved patches

    A patch applied without asking writes only where the policy lets it:
    whatever is true of a file system and kept by writing and removing
    writable files (and creating their parents) is still true after the
    engine ran, whether it succeeded or not. *)
From S2P Require Import Prelude RustStr SeekSequence PatchParser PatchRoundTrip PatchReparse FileUpdate FileSystem ApplyPatch ApplyPatchProps Invocation InvocationFacts Permissions PermissionsFacts ExecApproval PolicyTransforms Sandboxing PatchSafety.


(** ** What the engine keeps true of the file system *)

Section keeping.
Context {FS Path UriError : Type} `{!ExecutorFileSystem FS Path, !PathOps Path UriError}.
Context (I : FS → Prop).

Definition keeps {A} (m : engine FS Path UriError A) : Prop := ∀ s, I s.1 → I (m s).1.1.

Lemma keeps_bind {A B} (m : engine FS Path UriError A) (k : A → engine FS Path UriError B) :
  keeps m → (∀ a, keeps (k a)) → keeps (m ≫= k).
Proof.
  intros Hm Hk s Hs. specialize (Hm s Hs). unfold mbind, engine_bind.
  destruct (m s) as [s' [a|e|]]; simpl in *; [by apply Hk|done..].
Qed.

Lemma keeps_ret {A} (a : A) : keeps (mret a).
Proof. by intros s Hs. Qed.
Lemma keeps_raise {A} e : keeps (raise e : engine FS Path UriError A).
Proof. by intros s Hs. Qed.
Lemma keeps_query {A} (f : FS → A) : keeps (query f).
Proof. by intros [fs d]. Qed.
Lemma keeps_effect {A} (f : FS → FS * A) : (∀ fs, I fs → I (f fs).1) → keeps (effect f).
Proof. intros Hf [fs d] Hs. specialize (Hf fs Hs). simpl. by destruct (f fs). Qed.
Lemma keeps_modify f : keeps (modify_delta f).
Proof. by intros [fs d]. Qed.
Lemma keeps_change_count : keeps change_count.
Proof. by intros [fs d]. Qed.
Lemma keeps_set_change i c : keeps (set_change i c).
Proof. intros [fs d]. simpl. by case_decide. Qed.
Lemma keeps_with_context {A} ctx (r : result io_error A) : keeps (with_context ctx r).
Proof. destruct r; by intros s Hs. Qed.
Lemma keeps_try_write {A} (m : engine FS Path UriError A) : keeps m → keeps (try_write m).
Proof. intros Hm s Hs. specialize (Hm s Hs). unfold try_write. by destruct (m s) as [[fs d] [a|e|]]. Qed.
Lemma keeps_lift_patch {A} (r : outcome _ A) : keeps (lift_patch r).
Proof. destruct r; by intros s Hs. Qed.
Lemma keeps_lift_uri {A} r (k : Path → engine FS Path UriError A) :
  (∀ p, r = Ok p → keeps (k p)) → keeps (lift_uri r ≫= k).
Proof. destruct r as [p|e]; intros Hk; [by apply (Hk p)|apply keeps_raise]. Qed.

(** Only the effects are left to show. *)
Ltac solve_keeps :=
  repeat first
    [ solve [eauto using keeps_ret, keeps_raise, keeps_query, keeps_modify, keeps_change_count, keeps_set_change,
        keeps_with_context, keeps_lift_patch]
    | apply keeps_try_write | apply keeps_effect
    | apply keeps_bind; [|intros ?]
    | progress case_goal ].

Context (options : ApplyPatchOptions) (allowed : Path → Prop).
Abbreviation follow := (follow_symlinks options).

(** The three ways a patch changes a file it may write. *)
Definition closed_under_writes : Prop := ∀ p fs, allowed p → I fs →
  (∀ c, I (write_file p c follow fs).1) ∧ I (remove p follow fs).1 ∧
  (∀ q, path_parent p = Some q → I (create_directory q follow fs).1).

Context (Hclosed : closed_under_writes).

Lemma keeps_note p : keeps (note_existing_path_delta_support options p : engine FS Path UriError _).
Proof. unfold note_existing_path_delta_support. solve_keeps. Qed.
Lemma keeps_read_optional p : keeps (read_optional_file_text_for_delta options p : engine FS Path UriError _).
Proof. unfold read_optional_file_text_for_delta. pose proof keeps_note. solve_keeps. Qed.
Lemma keeps_write_retry p c : allowed p →
  keeps (write_file_with_missing_parent_retry options p c : engine FS Path UriError _).
Proof.
  intros Hp. unfold write_file_with_missing_parent_retry.
  assert (∀ fs, I fs → I (write_file p c follow fs).1) by (intros fs Hfs; by apply (Hclosed p fs)).
  assert (∀ q, path_parent p = Some q → ∀ fs, I fs → I (create_directory q follow fs).1)
    by (intros q Hq fs Hfs; by apply (Hclosed p fs)).
  destruct (path_parent p) eqn:?; solve_keeps.
Qed.
Lemma keeps_remove p c e : allowed p → keeps (remove_checked options p c e : engine FS Path UriError _).
Proof.
  intros Hp. unfold remove_checked. assert (∀ fs, I fs → I (remove p follow fs).1) by (intros fs Hfs; by apply (Hclosed p fs)).
  solve_keeps.
Qed.

Lemma keeps_apply_hunk cwd h : (∀ q, q ∈ touched_hunk cwd h → allowed q) →
  keeps (apply_hunk options cwd h : engine FS Path UriError _).
Proof.
  pose proof keeps_note. pose proof keeps_read_optional. pose proof keeps_write_retry. pose proof keeps_remove.
  unfold apply_hunk, touched_hunk. intros Hall. apply keeps_lift_uri. intros p Hr. rewrite Hr in Hall.
  assert (allowed p) as Hp by (apply Hall; left).
  assert (∀ c fs, I fs → I (write_file p c follow fs).1) by (intros c fs Hfs; by apply (Hclosed p fs)).
  destruct h as [path c|path|path mv chunks]; unfold add_file, delete_file, update_file, push_change, not_exact;
    [solve_keeps..|].
  destruct mv as [dest|]; [|solve_keeps].
  apply keeps_bind; [solve_keeps|intros []]. apply keeps_bind; [solve_keeps|intros ?].
  apply keeps_bind; [solve_keeps|intros [old new]].
  apply keeps_lift_uri. intros q Hq. rewrite Hq in Hall.
  assert (allowed q) by (apply Hall; right; left). unfold move_file, push_change. solve_keeps.
Qed.

Lemma keeps_hunks cwd hs : (∀ q, q ∈ touched cwd hs → allowed q) → ∀ a,
  keeps (hunks_loop options cwd hs a : engine FS Path UriError _).
Proof.
  unfold touched. induction hs as [|h hs IH]; intros Hall a; simpl; [apply keeps_ret|].
  rewrite fmap_cons in Hall. simpl in Hall.
  apply keeps_bind; [apply keeps_apply_hunk|intros []; apply IH]; intros q Hq; apply Hall, elem_of_app; auto.
Qed.

Lemma keeps_apply_patch {W} (writeln : W → rstr → W * result io_error unit) patch args cwd (w : World FS W) :
  parse_patch patch = Ok args → (∀ q, q ∈ touched cwd (args_hunks args) → allowed q) →
  I (fs_of w) → I (fs_of (apply_patch_with_options options writeln patch cwd w).1).
Proof.
  intros Hp Hall Hw. unfold apply_patch_with_options. rewrite Hp. unfold apply_hunks_with_options.
  assert (I (apply_hunks_to_files options (args_hunks args) cwd (fs_of w, delta_empty)).1.1) as Hk.
  { unfold apply_hunks_to_files. destruct (is_empty _); [done|]. by apply keeps_hunks. }
  destruct (apply_hunks_to_files _ _ _ _) as [[fs d] [a|e|]]; simpl in *.
  - by destruct (print_summary writeln a (stdout w)) as [out [[]|e]].
  - by destruct (writeln (stderr w) (anyhow_display e)) as [err [[]|e']].
  - done.
Qed.
End keeping.

(** ** The targets of a verified patch *)

Section targets.
Context {FS Path UriError : Type}.
Context `{Countable Path, !ExecutorFileSystem FS Path, !PathOps Path UriError}.
Context (text_diff : nat → rstr → rstr → rstr) (m : ApplyPatchFileUpdateMode).

Lemma elem_of_file_paths (changes : gmap Path (ApplyPatchFileChange Path)) q :
  q ∈ file_paths_for_action changes ↔ ∃ p c, changes !! p = Some c ∧ q ∈ change_paths p c.
Proof.
  unfold file_paths_for_action. rewrite elem_of_concat_fmap. split.
  - intros ([p c] & Hpc%elem_of_map_to_list & Hq). eauto.
  - intros (p & c & Hpc & Hq). exists (p, c). by rewrite elem_of_map_to_list.
Qed.

Lemma hunk_change_paths fs cwd p h c : resolve_path cwd h = Ok p →
  hunk_change text_diff m fs cwd p h = Done c → ∀ q, q ∈ touched_hunk cwd h → q ∈ change_paths p c.
Proof.
  intros Hp Hc q. unfold touched_hunk. rewrite Hp. destruct h as [path x|path|path mv chunks]; simpl in Hc.
  - by injection Hc as <-.
  - destruct (read_file_text p true fs); [|done]. by injection Hc as <-.
  - destruct (unified_diff_from_chunks_with_mode _ _ _ _ _) as [u|e|]; [|done..]. simpl in Hc.
    destruct mv as [dest|]; [|by injection Hc as <-].
    destruct (join_uri cwd dest) as [r|e|] eqn:Hr; [|done..]. apply join_uri_Done in Hr. rewrite Hr.
    by injection Hc as <-.
Qed.

Lemma verify_loop_targets fs cwd hs : ∀ changes0 changes,
  verify_loop text_diff m fs cwd hs changes0 = Done changes →
  changes0 ⊆ changes ∧ ∀ q, q ∈ touched cwd hs → q ∈ file_paths_for_action changes.
Proof.
  unfold touched. induction hs as [|h hs IH]; intros changes0 changes Hv.
  { injection Hv as <-. split; [done|]. by intros q ?%elem_of_nil. }
  simpl in Hv. destruct (join_uri cwd (hunk_source_path h)) as [p|e|] eqn:Hj; [|done..]. simpl in Hv.
  apply join_uri_Done in Hj. case_bool_decide as Hnew; [done|].
  destruct (hunk_change text_diff m fs cwd p h) as [c|e|] eqn:Hc; [|done..]. simpl in Hv.
  destruct (IH _ _ Hv) as [Hsub Hin]. split.
  { etrans; [|exact Hsub]. apply insert_subseteq. by apply eq_None_not_Some. }
  intros q. rewrite fmap_cons. simpl. intros [Hq|Hq]%elem_of_app; [|by apply Hin].
  apply elem_of_file_paths. exists p, c. split; [|by eapply hunk_change_paths].
  eapply lookup_weaken; [apply lookup_insert_eq|exact Hsub].
Qed.

Lemma verified_targets fs args cwd action : try_verify_apply_patch_args text_diff args cwd m fs = Done action →
  action_patch action = args_patch args ∧
  ∀ q, q ∈ touched (action_cwd action) (args_hunks args) → q ∈ file_paths_for_action (action_changes action).
Proof.
  unfold try_verify_apply_patch_args. destruct (effective_cwd args cwd) as [cwd'|e|]; [|done..]. simpl.
  destruct (verify_loop _ _ _ _ _ _) as [changes|e|] eqn:Hl; [|done..]. intros [= <-]. simpl.
  split; [done|]. by eapply verify_loop_targets.
Qed.
End targets.

(** ** Decisions *)

Section decisions.
Context {PathUri : Type} `{Countable PathUri, !UriOps PathUri}.
Context (os : TargetOs) (normalize_local : PathUri → result io_error PathUri).
Local Abbreviation Changes := (gmap PathUri (ApplyPatchFileChange PathUri)).

Lemma all_writable_true (m : PatchPolicyMatcher PathUri) paths :
  all_writable os normalize_local m paths = Ok true →
  ∀ p, p ∈ paths → patch_can_write_path os normalize_local m p = Ok true.
Proof.
  induction paths as [|q paths IH]; simpl; [by intros _ p ?%elem_of_nil|].
  destruct (patch_can_write_path os normalize_local m q) as [[]|e] eqn:E; [|done..]. simpl.
  intros Hall p [-> | ?]%elem_of_cons; [done|by apply IH].
Qed.

(** Every write of [changes] is one the matcher lets through. *)
Definition may_write (m : PatchPolicyMatcher PathUri) (p : PathUri) : Prop :=
  has_full_disk_write_access_with_context (configured_policy m) (matching_context m) = true ∨
  patch_can_write_path os normalize_local m p = Ok true.

Lemma auto_approve_spec (changes : Changes) policy profile m :
  assess_patch_safety os normalize_local changes policy profile m = Ok AutoApprove →
  changes ≠ ∅ ∧ policy ≠ UnlessTrusted ∧
  ((∃ f n, profile = Managed f n) → sandbox_available os (sandbox_route m) = true) ∧
  ∀ p, p ∈ file_paths_for_action changes → may_write m p.
Proof.
  unfold assess_patch_safety. case_bool_decide as Hne; [done|].
  destruct (is_write_patch_constrained_to_writable_paths os normalize_local changes m) as [b|e] eqn:Hw;
    [|by destruct policy]. cbn [mbind result_bind].
  intros Ha. assert (policy ≠ UnlessTrusted) as Hp by (intros ->; done).
  assert (b = true ∧ (match profile with Disabled | External _ => true | Managed _ _ => false end
                      || sandbox_available os (sandbox_route m)) = true) as [-> Hs].
  { apply andb_true_iff. destruct policy; try done; destruct (b && _); try done;
      repeat (match type of Ha with context [if ?c then _ else _] => destruct c end); done. }
  split; [done|]. split; [done|]. split; [intros (f & n & ->); done|]. intros p Hin.
  unfold is_write_patch_constrained_to_writable_paths in Hw. unfold may_write.
  destruct (has_full_disk_write_access_with_context _ _); [by left|right]. by eapply all_writable_true.
Qed.

Lemma patch_request_inv local_parent uri_string (changes : Changes) policy profile granted route context req :
  patch_request os normalize_local local_parent uri_string changes policy profile granted route context = Ok req →
  request_requirement req = Skip false None →
  ∃ m, prepare_matching os normalize_local route
         (effective_file_system_sandbox_policy (file_system_sandbox_policy profile) granted) context = Ok m ∧
    sandbox_route m = route ∧ assess_patch_safety os normalize_local changes policy profile m = Ok AutoApprove.
Proof.
  unfold patch_request. destruct (prepare_matching _ _ _ _ _) as [m|e] eqn:Hm; [|done].
  destruct (write_permissions_for_paths _ _ _ _ _ _) as [additional|e]; [|done].
  unfold prepare_apply_patch. destruct (assess_patch_safety _ _ _ _ _ _) as [[| |]|e] eqn:Ha; simpl; [..|done];
    try done; intros [= <-] Hreq; try done. exists m. split; [done|]. split; [|done].
  unfold prepare_matching in Hm. destruct route as [|level]; simpl in Hm; [by injection Hm as <-|].
  destruct (prepare_local_matching _ _ _ _); [|done]. simpl in Hm. by injection Hm as <-.
Qed.

(** ** Asking for directories *)

Context (local_parent : PathUri → option PathUri) (uri_string : PathUri → rstr).

(** The directory asked for on behalf of a path. *)
Definition asked_directory (route : PatchSandboxRoute) (path : PathUri) : PathUri :=
  default path
    match parent path with
    | Some parent => Some parent
    | None => match route with Platform _ => local_parent path | ExecutorManaged => None end
    end.

(** A directory some target needs: neither can be written. *)
Definition needed (m : PatchPolicyMatcher PathUri) (paths : list PathUri) (d : PathUri) : Prop :=
  ∃ p, p ∈ paths ∧ patch_can_write_path os normalize_local m p = Ok false ∧ d = asked_directory (sandbox_route m) p ∧
    patch_can_write_path os normalize_local m d = Ok false.

Lemma missing_needed m paths : ∀ l, missing_write_paths os normalize_local local_parent m paths = Ok l →
  ∀ d, d ∈ l ↔ needed m paths d.
Proof.
  unfold needed. induction paths as [|q paths IH]; simpl.
  { intros l [= <-] d. split; [by intros ?%elem_of_nil|by intros (? & ?%elem_of_nil & _)]. }
  fold (asked_directory (sandbox_route m) q).
  destruct (patch_can_write_path os normalize_local m q) as [[]|e] eqn:Eq; [..|done]; simpl.
  - intros l Hl d. rewrite (IH l Hl d). split; intros (p & Hp & Hw & ?); exists p; [by split; [right|]|].
    apply elem_of_cons in Hp as [-> |?]; [congruence|done].
  - fold (asked_directory (sandbox_route m) q).
    destruct (patch_can_write_path os normalize_local m (asked_directory _ q)) as [b|e] eqn:Ed; [|done]. simpl.
    destruct (missing_write_paths _ _ _ m paths) as [l'|e]; [|done]. simpl. intros l [= <-] d. specialize (IH l' eq_refl d).
    assert (d ∈ (if b then l' else asked_directory (sandbox_route m) q :: l') ↔
      d ∈ l' ∨ (b = false ∧ d = asked_directory (sandbox_route m) q)) as ->.
    { destruct b; [naive_solver|]. rewrite elem_of_cons. naive_solver. }
    rewrite IH. split.
    + intros [(p & Hp & ?)|[-> ->]]; [exists p; split; [by right|done]|]. exists q. split; [left|done].
    + intros (p & [-> |Hp]%elem_of_cons & Hw & -> & Hd); [right; split; [congruence|done]|left; eauto].
Qed.

Lemma elem_of_insert_path p l x : x ∈ insert_path uri_string p l ↔ x = p ∨ x ∈ l.
Proof.
  induction l as [|q l IH]; simpl; [by rewrite list_elem_of_singleton, elem_of_nil; naive_solver|].
  case_match; rewrite !elem_of_cons; [naive_solver|]. rewrite IH. naive_solver.
Qed.

Lemma elem_of_sort_paths l x : x ∈ sort_paths uri_string l ↔ x ∈ l.
Proof.
  unfold sort_paths. induction l as [|q l IH]; simpl; [done|]. by rewrite elem_of_insert_path, IH, elem_of_cons.
Qed.

Lemma dedup_sub l : ∀ x, x ∈ dedup l → x ∈ l.
Proof.
  induction l as [|y [|z l] IH]; intros x; [done..|].
  change (dedup (y :: z :: l)) with (if uri_eqb y z then
    match dedup (z :: l) with _ :: rest => y :: rest | [] => [y] end else y :: dedup (z :: l)).
  destruct (uri_eqb y z), (dedup (z :: l)) as [|w rest];
    (intros [-> |Hx]%elem_of_cons; [left|right; apply IH; first [done | by right]]).
Qed.

Lemma normalize_entries_sub (es : list (FileSystemSandboxEntry PathUri)) : ∀ done_entries es',
  normalize_entries es done_entries = Ok es' → ∀ e, e ∈ es' → e ∈ done_entries ∨ e ∈ es.
Proof.
  induction es as [|x es IH]; intros done_entries es'; simpl; [by intros [= <-]; left|].
  intros Hn e He.
  assert (normalize_entries es (push_missing done_entries x) = Ok es') as Hn' by (by repeat case_match).
  destruct (IH _ _ Hn' e He) as [Hd|?]; [|right; by right].
  unfold push_missing in Hd. case_match; [by left|]. apply elem_of_app in Hd as [?|Hd%list_elem_of_singleton]; [by left|].
  right. subst. left.
Qed.

(** What is asked for: writing to needed directories, and nothing else. *)
Lemma asked_permissions paths m a :
  write_permissions_for_paths os normalize_local local_parent uri_string paths m = Ok (Some a) →
  network a = None ∧ ∀ f e, file_system a = Some f → e ∈ permission_entries f →
    ∃ d, e = new_entry (Path d) Write ∧ needed m paths d.
Proof.
  unfold write_permissions_for_paths.
  destruct (missing_write_paths _ _ _ m paths) as [l|e] eqn:Hl; [|done]. cbn [mbind result_bind].
  destruct (is_empty _); [done|].
  set (entries := _ <$> dedup (sort_paths uri_string l)).
  assert (∀ a', normalize_additional_permissions (mkAdditional None (Some (mkFileSystemPermissions entries None))) = Ok a' →
    network a' = None ∧ ∀ f e, file_system a' = Some f → e ∈ permission_entries f → e ∈ entries) as Hn.
  { intros a'. unfold normalize_additional_permissions. cbn [network file_system permission_entries option_filter].
    destruct (normalize_entries entries []) as [es'|e] eqn:He; [|done]. intros [= <-]. split; [done|].
    intros f e. unfold option_filter. cbn [file_system]. case_match; [|done]. intros [= <-]. cbn [permission_entries].
    intros Hin. by destruct (normalize_entries_sub _ _ _ He e Hin) as [?%elem_of_nil|?]. }
  intros Ha.
  assert (normalize_additional_permissions (mkAdditional None (Some (mkFileSystemPermissions entries None))) = Ok a) as Hn'.
  { injection Ha as Ha. unfold normalize_additional_permissions_with_context in Ha.
    destruct (normalize_additional_permissions _) as [a'|e], (sandbox_route m); try done;
      repeat case_match; congruence. }
  destruct (Hn a Hn') as [Hnet Hes]. split; [done|]. intros f e Hf He.
  apply (Hes f e Hf), list_elem_of_fmap in He as (d & -> & Hd). exists d. split; [done|].
  by apply (missing_needed m paths l Hl), (elem_of_sort_paths l), dedup_sub.
Qed.

(** A stored grant that answers the call is used as it is. *)
Lemma preapproved_grant granted context sp asked :
  let effective := apply_granted_turn_permissions granted context sp asked in
  if permissions_preapproved effective
  then is_Some granted ∧ effective_additional_permissions effective = granted ∧ sp ≠ RequireEscalated
  else effective_additional_permissions effective =
         if bool_decide (sp = RequireEscalated) then asked else merge_permission_profiles asked granted.
Proof.
  unfold apply_granted_turn_permissions. case_bool_decide as Hsp; [done|].
  cbn [permissions_preapproved effective_additional_permissions].
  destruct granted as [g|]; [|by destruct asked]. cbn [mbind option_bind].
  destruct (is_none asked); [done|]. destruct (merge_permission_profiles asked (Some g)) as [e|]; [|done]. cbn [mbind option_bind].
  destruct (preapproved_permission_profile e g context) as [g'|] eqn:E; [|done].
  case_bool_decide as Hs; [|by destruct Hs; eexists]. split; [by eexists|]. split; [|done].
  unfold preapproved_permission_profile in E. repeat case_match; try done; congruence.
Qed.
End decisions.

(** * Properties of approved patches

    What a patch may do that the user was not asked about, and what its
    permissions may be when they count as approved. *)
(** C9: A patch applied without asking stays where the policy lets it write.
    If the patch text has no carriage return, verifies, and its request needs
    no approval, then the approval mode is not [UnlessTrusted], a managed
    profile has a sandbox to run in, and whatever holds of the file system and
    is kept by writing and removing files the request's matcher lets through
    (and creating their parents) still holds after the action's patch was
    applied in any later state, whether it succeeded or failed half way. *)
Theorem auto_approved_patch_confined {FS PathUri UriError W : Type} `{Countable PathUri, !ExecutorFileSystem FS PathUri,
    !PathOps PathUri UriError, !UriOps PathUri} os normalize_local local_parent uri_string text_diff
    (writeln : W → rstr → W * result io_error unit) options patch args (cwd : PathUri) mode (fs : FS) action
    policy profile granted route context req (w : World FS W) :
  CR ∉ patch → parse_patch patch = Ok args →
  try_verify_apply_patch_args text_diff args cwd mode fs = Done action →
  patch_request os normalize_local local_parent uri_string (action_changes action) policy profile granted route context = Ok req →
  request_requirement req = Skip false None →
  policy ≠ UnlessTrusted ∧
  ((∃ f n, profile = Managed f n) → sandbox_available os route = true) ∧
  ∃ m, prepare_matching os normalize_local route
         (effective_file_system_sandbox_policy (file_system_sandbox_policy profile) granted) context = Ok m ∧
  ∀ I : FS → Prop, closed_under_writes I options (may_write os normalize_local m) →
    I (fs_of w) → I (fs_of (apply_patch_with_options options writeln (action_patch action) (action_cwd action) w).1).
Proof.
  intros Hcr Hp Hv Hr Hreq. destruct (reparse patch args Hcr Hp) as (args' & Hp' & Hhs & _).
  destruct (verified_targets _ _ _ _ _ _ Hv) as [Hpatch Htargets].
  destruct (patch_request_inv _ _ _ _ _ _ _ _ _ _ _ Hr Hreq) as (m & Hm & Hroute & Ha).
  apply auto_approve_spec in Ha as (_ & Hpol & Hsb & Hall). rewrite Hroute in Hsb.
  split; [done|]. split; [done|]. exists m. split; [done|]. intros I HI Hw.
  eapply (keeps_apply_patch I options); [exact HI|rewrite Hpatch; exact Hp'| |exact Hw].
  intros q Hq. rewrite Hhs in Hq. by apply Hall, Htargets.
Qed.

(** What a patch asks for and gets.  If the request is made, then with the
    matcher of the policy and the stored grant: its targets are those of the
    changes; it asks at most for writing to the directories of targets that
    cannot be written, among those that cannot be written themselves (the
    target itself where it has no parent), and never for network access; when
    its permissions count as approved they are the stored grant, otherwise the
    union of both. *)
Theorem patch_asks_for_directories {PathUri : Type} `{Countable PathUri, !UriOps PathUri} os normalize_local local_parent
    uri_string (changes : gmap PathUri (ApplyPatchFileChange PathUri)) policy profile granted route context req :
  patch_request os normalize_local local_parent uri_string changes policy profile granted route context = Ok req →
  request_file_paths req = file_paths_for_action changes ∧
  ∃ m asked, prepare_matching os normalize_local route
      (effective_file_system_sandbox_policy (file_system_sandbox_policy profile) granted) context = Ok m ∧
    (∀ a, asked = Some a → network a = None ∧ ∀ f e, file_system a = Some f → e ∈ permission_entries f →
       ∃ d, e = new_entry (Path d) Write ∧ needed os normalize_local local_parent m (request_file_paths req) d) ∧
    if request_permissions_preapproved req then is_Some granted ∧ request_additional_permissions req = granted
    else request_additional_permissions req = merge_permission_profiles asked granted.
Proof.
  unfold patch_request. destruct (prepare_matching _ _ _ _ _) as [m|e]; [|done].
  destruct (write_permissions_for_paths _ _ _ _ _ _) as [asked|e] eqn:Ha; [|done].
  pose proof (preapproved_grant granted context UseDefault asked) as Hg. cbn zeta in *. revert Hg.
  generalize (apply_granted_turn_permissions granted context UseDefault asked). intros effective Hg.
  destruct (prepare_apply_patch _ _ _ _ _ _) as [inv|e]; [|done]. intros [= <-]. split; [done|].
  exists m, asked. split; [done|]. split.
  { intros a ->. by eapply asked_permissions. }
  cbn [request_permissions_preapproved request_additional_permissions].
  destruct (permissions_preapproved effective); [|exact Hg]. by destruct Hg as (? & ? & _).
Qed.

(** *** A tree of files under the paths as lists of names *)

#[local] Existing Instance names_ops.

Abbreviation tree := (gmap (list rstr) rstr).

#[local] Instance tree_fs : ExecutorFileSystem tree (list rstr) := {|
  read_file_text p _ fs := match fs !! p with Some c => Ok c | None => Err not_found end;
  get_metadata p _ fs := match fs !! p with Some _ => Ok (mkMetadata false true false) | None => Err not_found end;
  write_file p c _ fs := (<[p:=c]> fs, Ok tt);
  create_directory _ _ fs := (fs, Ok tt);
  remove p _ fs := (delete p fs, Ok tt)
|}.

#[local] Instance tree_paths : PathOps (list rstr) unit := {|
  path_join p s := match Permissions.join p s with Some q => Ok q | None => Err tt end;
  path_parent := parent;
  FileSystem.inferred_native_path_string := Permissions.inferred_native_path_string;
  uri_error_message _ := []
|}.

Definition project_patch : rstr := render_patch None
  [ PAdd ($"src/new.txt") [$"hello"]; PUpdate ($"old.txt") (Some ($"src/moved.txt")) [mkDiffChunk None [Removed ($"x"); Added ($"y")] false] ].
Definition project_args : ApplyPatchArgs := Eval vm_compute in
  match parse_patch project_patch with Ok a => a | Err _ => mkArgs [] [] None None end.
Definition passwd : list rstr := [$"etc"; $"passwd"].
Definition project_tree : tree := <[passwd := $"root"]> {[ [$"w"; $"old.txt"] := $"x" ++ [LF] ]}.
Definition project_world : World tree (list rstr) := mkWorld project_tree [] [].
Definition project_profile : PermissionProfile (list rstr) :=
  Managed (ManagedRestricted [new_entry (Special Root) Read; new_entry (Special (ProjectRoots None)) Write] None) NetworkRestricted.
Definition project_action : ApplyPatchAction (list rstr) :=
  match try_verify_apply_patch_args (UriError:=unit) no_diff project_args [$"w"] NormalizeToLf project_tree with
  | Done a => a
  | _ => mkAction ∅ NormalizeToLf [] []
  end.
Definition project_request (asked : ApplyPatchAction (list rstr)) (granted : option (AdditionalPermissionProfile (list rstr))) :
    result FunctionCallError (ApplyPatchRequest (list rstr)) :=
  patch_request Linux Ok (λ _, None) Permissions.inferred_native_path_string (action_changes asked) OnRequest
    project_profile granted (Platform SandboxDisabled) demo_context.

Lemma auto_approved_patch_confined_witness :
  let final := (apply_patch_with_options default_options log_writeln (action_patch project_action) [$"w"] project_world).1 in
  fs_of final !! passwd = Some ($"root") ∧ fs_of final !! [$"w"; $"src"; $"new.txt"] = Some ($"hello" ++ [LF]).
Proof.
  intros final. split; [|vm_compute; reflexivity].
  destruct (project_request project_action None) as [req|e] eqn:E; [|vm_compute in E; discriminate E].
  destruct (auto_approved_patch_confined Linux Ok (λ _, None) Permissions.inferred_native_path_string no_diff log_writeln
    default_options project_patch project_args [$"w"] NormalizeToLf project_tree project_action OnRequest project_profile None
    (Platform SandboxDisabled) demo_context req project_world) as (_ & _ & m & Hm & HI).
  - apply (bool_decide_unpack _). vm_compute. reflexivity.
  - vm_compute. reflexivity.
  - vm_compute. reflexivity.
  - exact E.
  - vm_compute in E. injection E as <-. reflexivity.
  - apply (HI (λ fs, fs !! passwd = Some ($"root"))); [|vm_compute; reflexivity].
    vm_compute in Hm. injection Hm as <-. intros p fs Hp Hfs. assert (p ≠ passwd) as Hne.
    { intros ->. destruct Hp as [Hp|Hp]; vm_compute in Hp; discriminate Hp. }
    cbn [remove write_file create_directory tree_fs fst].
    split_and!; [|by rewrite lookup_delete_ne|done]. intros c. by rewrite lookup_insert_ne.
Defined.

(** A file outside the workspace: its directory is asked for. *)
Definition etc_action : ApplyPatchAction (list rstr) :=
  mkAction {[ [$"etc"; $"motd"] := Invocation.Add ($"hi") ]} NormalizeToLf [] [$"w"].

Lemma patch_asks_for_directories_witness :
  ∃ req asked, project_request etc_action None = Ok req ∧ request_file_paths req = [[$"etc"; $"motd"]] ∧
    request_requirement req = NeedsApproval None None ∧
    request_additional_permissions req = merge_permission_profiles asked None ∧
    ∀ a, asked = Some a → network a = None.
Proof.
  destruct (project_request etc_action None) as [req|e] eqn:E; [|vm_compute in E; discriminate E].
  destruct (patch_asks_for_directories _ _ _ _ _ _ _ _ _ _ _ E) as (Hf & m & asked & _ & Hasked & Ha).
  exists req, asked. split; [done|]. split; [rewrite Hf; vm_compute; reflexivity|].
  split; [vm_compute in E; injection E as <-; reflexivity|]. split; [|intros a Has; by apply Hasked].
  assert (request_permissions_preapproved req = false) as Hp by (vm_compute in E; injection E as <-; reflexivity).
  by rewrite Hp in Ha.
Defined.
