(* ===== verification/Orchestrator.v ===== *)
(** * Running a tool

    [core/src/tools/orchestrator.rs]: the approval of a tool call, the choice
    of its sandbox, its first attempt, and the second one if the sandbox
    denied the first.  A run is a program of effects ([prog]): asking for
    approval, asking the executor about itself, opening and closing network
    approvals, and running the tool; what they answer is up to the world. *)

From S2P Require Import Prelude RustStr ExecPolicy ShellSyntax Permissions ExecApproval Approvals ApprovedCommand.
From S2P Require Import PolicyTransforms Sandboxing.

(** ** Network denials *)

Inductive NetworkPolicyDecision := DenyRequest | AskUser.
Inductive NetworkDecisionSource := BaselinePolicy | ModeGuard | ProxyState | Decider.
Inductive NetworkApprovalProtocol := Http | Https | Socks5Tcp | Socks5Udp.

Record NetworkPolicyDecisionPayload := mkPayload {
  payload_decision : NetworkPolicyDecision;
  payload_source : NetworkDecisionSource;
  payload_protocol : option NetworkApprovalProtocol;
  payload_host : option rstr
}.

Record NetworkApprovalContext := mkNetworkContext {
  host : rstr;
  protocol : NetworkApprovalProtocol
}.

Definition is_ask_from_decider (p : NetworkPolicyDecisionPayload) : bool :=
  match payload_decision p, payload_source p with AskUser, Decider => true | _, _ => false end.

Definition network_approval_context_from_payload (p : NetworkPolicyDecisionPayload) : option NetworkApprovalContext :=
  if negb (is_ask_from_decider p) then None
  else
    protocol ← payload_protocol p;
    host ← payload_host p;
    let host := trim host in
    if is_empty host then None else Some (mkNetworkContext host protocol).

Definition msg_prepare : rstr := $"could not prepare approval action: ".
Definition msg_verify : rstr := $"could not verify exec-server support for escalation with denied reads: ".
Definition msg_upgrade : rstr :=
  $"this exec-server cannot safely escalate with denied reads; upgrade the exec-server and retry".
Definition msg_retry : rstr := $"command failed; retry without sandbox?".
Definition msg_network_pre : rstr := $"Network access to ".
Definition msg_network_post : rstr := $" is blocked by policy.".

Section orchestrator.
Context {PathUri Changes Out Output Spec Proxy Exe : Type} `{!UriOps PathUri}.
Context (os : TargetOs).
(** The matcher of denied globs, and what a network approval adds to the
    permissions of its command. *)
Context (try_new_matcher : FileSystemSandboxPolicy PathUri → FileSystemSandboxPolicyContext PathUri →
  result rstr (option (PathUri → bool))).
Context (spec_additional_permissions : Spec → option (AdditionalPermissionProfile PathUri)).

Local Abbreviation Profile := (PermissionProfile PathUri).
Local Abbreviation Error := (ToolError Output NetworkPolicyDecisionPayload).
Local Abbreviation Action := (ApprovalAction PathUri (AdditionalPermissionProfile PathUri) Changes).

(** ** What a run works with *)

(** The answers of [ToolRuntime] for one request. *)
Record ToolRuntime := mkTool {
  tool_sandbox_permissions : SandboxPermissions;
  tool_exec_approval_requirement : option ExecApprovalRequirement;
  tool_sandbox_preference : SandboxablePreference;
  escalate_on_failure : bool;
  tool_should_bypass_approval : AskForApproval → bool → bool;
  tool_wants_no_sandbox_approval : AskForApproval → bool;
  approval_action : result rstr Action;
  uses_executor_managed_process_sandbox : bool;
  network_approval_spec : option Spec;
  tool_sandbox_cwd : option PathUri
}.

Record TurnEnvironment := mkEnvironment {
  env_permission_profile : Profile;
  env_context : FileSystemSandboxPolicyContext PathUri;
  env_is_remote : bool;
  env_requires_proxy : option bool;
  env_windows_sandbox_type : SandboxType;
  env_windows_sandbox_level : WindowsSandboxLevel;
  env_use_legacy_landlock : bool
}.

Record TurnContext := mkTurn {
  turn_approval_policy : AskForApproval;
  turn_strict_auto_review : bool;
  turn_network_enabled : option bool;
  turn_has_network : bool;
  codex_self_exe : option Exe;
  codex_linux_sandbox_exe : option Exe
}.

Record SandboxAttempt := mkAttempt {
  sandbox : SandboxType;
  sandbox_requested : bool;
  attempt_permissions : Profile;
  exec_server_permissions : Profile;
  enforce_managed_network : bool;
  sandbox_cwd : PathUri;
  attempt_workspace_roots : list PathUri;
  sandbox_exe : option Exe;
  use_legacy_landlock : bool;
  attempt_windows_sandbox_type : SandboxType;
  attempt_windows_sandbox_level : WindowsSandboxLevel;
  network_proxy : option Proxy
}.

Record ActiveNetworkApproval := mkActive { registration_id : option rstr; execution_proxy : Proxy }.
Record DeferredNetworkApproval := mkDeferred { deferred_registration_id : rstr; deferred_proxy : Proxy }.

Definition into_deferred (a : ActiveNetworkApproval) : option DeferredNetworkApproval :=
  (λ id, mkDeferred id (execution_proxy a)) <$> registration_id a.

Record ExecServerInfo := mkInfo {
  platform_os : option rstr;
  linux_approved_root_write_preserves_restrictions : bool
}.

(** ** Effects *)

Inductive prog (A : Type) :=
| Return (a : A)
| RequestApproval (action : Action) (ctx : ApprovalContext NetworkApprovalContext)
    (k : result Error ReviewDecision → prog A)
| AskInfo (k : result rstr ExecServerInfo → prog A)
| BeginNetworkApproval (managed : bool) (spec : option Spec)
    (k : result Error (option ActiveNetworkApproval) → prog A)
| RunTool (attempt : SandboxAttempt) (k : result Error Out → prog A)
| FinishNetworkApproval (deferred : option DeferredNetworkApproval) (k : result Error unit → prog A).
Arguments Return {A}.
Arguments RequestApproval {A}.
Arguments AskInfo {A}.
Arguments BeginNetworkApproval {A}.
Arguments RunTool {A}.
Arguments FinishNetworkApproval {A}.

Fixpoint bind {A B} (p : prog A) (f : A → prog B) : prog B :=
  match p with
  | Return a => f a
  | RequestApproval action ctx k => RequestApproval action ctx (λ r, bind (k r) f)
  | AskInfo k => AskInfo (λ r, bind (k r) f)
  | BeginNetworkApproval managed spec k => BeginNetworkApproval managed spec (λ r, bind (k r) f)
  | RunTool attempt k => RunTool attempt (λ r, bind (k r) f)
  | FinishNetworkApproval d k => FinishNetworkApproval d (λ r, bind (k r) f)
  end.

(** What has happened. *)
Inductive event :=
| Asked (action : Action) (ctx : ApprovalContext NetworkApprovalContext) (answer : result Error ReviewDecision)
| Informed (answer : result rstr ExecServerInfo)
| Began (managed : bool) (spec : option Spec) (answer : result Error (option ActiveNetworkApproval))
| Ran (attempt : SandboxAttempt) (answer : result Error Out)
| Finished (deferred : option DeferredNetworkApproval) (answer : result Error unit).

(** [runs p t a]: with these answers, the program does this and returns [a]. *)
Fixpoint runs {A} (p : prog A) (t : list event) (a : A) : Prop :=
  match p with
  | Return b => t = [] ∧ a = b
  | RequestApproval action ctx k => ∃ r t', t = Asked action ctx r :: t' ∧ runs (k r) t' a
  | AskInfo k => ∃ r t', t = Informed r :: t' ∧ runs (k r) t' a
  | BeginNetworkApproval managed spec k => ∃ r t', t = Began managed spec r :: t' ∧ runs (k r) t' a
  | RunTool attempt k => ∃ r t', t = Ran attempt r :: t' ∧ runs (k r) t' a
  | FinishNetworkApproval d k => ∃ r t', t = Finished d r :: t' ∧ runs (k r) t' a
  end.

(** A world answers each effect, knowing what has happened. *)
Record World := mkWorld {
  answer_approval : list event → Action → ApprovalContext NetworkApprovalContext → result Error ReviewDecision;
  answer_info : list event → result rstr ExecServerInfo;
  answer_begin : list event → bool → option Spec → result Error (option ActiveNetworkApproval);
  answer_run : list event → SandboxAttempt → result Error Out;
  answer_finish : list event → option DeferredNetworkApproval → result Error unit
}.

(** Running a program in a world after the events [h]. *)
Fixpoint play {A} (w : World) (h : list event) (p : prog A) : list event * A :=
  match p with
  | Return a => ([], a)
  | RequestApproval action ctx k =>
      let r := answer_approval w h action ctx in
      let '(t, a) := play w (h ++ [Asked action ctx r]) (k r) in (Asked action ctx r :: t, a)
  | AskInfo k =>
      let r := answer_info w h in
      let '(t, a) := play w (h ++ [Informed r]) (k r) in (Informed r :: t, a)
  | BeginNetworkApproval managed spec k =>
      let r := answer_begin w h managed spec in
      let '(t, a) := play w (h ++ [Began managed spec r]) (k r) in (Began managed spec r :: t, a)
  | RunTool attempt k =>
      let r := answer_run w h attempt in
      let '(t, a) := play w (h ++ [Ran attempt r]) (k r) in (Ran attempt r :: t, a)
  | FinishNetworkApproval d k =>
      let r := answer_finish w h d in
      let '(t, a) := play w (h ++ [Finished d r]) (k r) in (Finished d r :: t, a)
  end.

(** The [?] operator. *)
Definition try_ {A B} (r : result Error A) (k : A → prog (result Error B)) : prog (result Error B) :=
  match r with Ok a => k a | Err err => Return (Err err) end.

(** ** Approval *)

Definition approval_context (turn : TurnContext) (approval_reason retry_reason : option rstr)
    (network : option NetworkApprovalContext) : ApprovalContext NetworkApprovalContext :=
  mkApprovalContext (turn_strict_auto_review turn) approval_reason retry_reason network.

Definition request_tool_approval (tool : ToolRuntime) (ctx : ApprovalContext NetworkApprovalContext) :
    prog (result Error unit) :=
  match approval_action tool with
  | Err err => Return (Err (Rejected (msg_prepare ++ err)))
  | Ok action =>
      RequestApproval action ctx (λ r, try_ r (λ _, Return (Ok tt)))
  end.

(** Whether the call has been approved. *)
Definition approve (tool : ToolRuntime) (turn : TurnContext) (requirement : ExecApprovalRequirement) :
    prog (result Error bool) :=
  match requirement with
  | Skip _ _ =>
      if turn_strict_auto_review turn
      then bind (request_tool_approval tool (approval_context turn None None None)) (λ r, try_ r (λ _, Return (Ok true)))
      else Return (Ok false)
  | Forbidden reason => Return (Err (Rejected reason))
  | NeedsApproval reason _ =>
      bind (request_tool_approval tool (approval_context turn reason None None)) (λ r, try_ r (λ _, Return (Ok true)))
  end.

(** ** Escalation *)

Definition escalation (env : TurnEnvironment) (override : SandboxOverride) : option Profile * bool :=
  match override with
  | EscalatedSandboxWithRestrictions =>
      let context := env_context env in
      let profile := env_permission_profile env in
      let baseline := file_system_sandbox_policy profile in
      let file_system := for_approved_command try_new_matcher baseline context in
      let writable_root_metadata :=
        is_some_and (λ root,
          can_write_path file_system root context
          && existsb (λ name, is_some_and (λ path, can_write_path file_system path context) (join_descendant root name))
               PROTECTED_METADATA_PATH_NAMES) (file_system_root context) in
      let escalated_profile :=
        if negb (policy_eqb file_system baseline)
           && negb (policy_eqb file_system (materialize_project_roots_with_path_uris baseline (workspace_roots context)))
        then Some (from_runtime_permissions_with_enforcement (enforcement profile) file_system
                     (network_sandbox_policy profile))
        else None in
      (escalated_profile, writable_root_metadata)
  | _ => (None, false)
  end.

Definition executor_supports_escalation (info : ExecServerInfo) : bool :=
  match platform_os info with
  | Some platform => bool_decide (platform = $"windows") || bool_decide (platform = $"macos")
  | None => false
  end || linux_approved_root_write_preserves_restrictions info.

Definition verify_executor (env : TurnEnvironment) (escalated_profile : option Profile) (writable_root_metadata : bool) :
    prog (result Error unit) :=
  if (bool_decide (is_Some escalated_profile) || writable_root_metadata) && env_is_remote env
  then
    AskInfo (λ r,
      match r with
      | Err err => Return (Err (Rejected (msg_verify ++ err)))
      | Ok info =>
          if negb (executor_supports_escalation info) then Return (Err (Rejected msg_upgrade)) else Return (Ok tt)
      end)
  else Return (Ok tt).

Definition managed_network_active (tool : ToolRuntime) (env : TurnEnvironment) (turn : TurnContext) : bool :=
  match env_requires_proxy env with
  | Some requires_proxy =>
      default false (turn_network_enabled turn) || requires_proxy
      || (bool_decide (is_Some (network_approval_spec tool)) || requires_escalated_permissions (tool_sandbox_permissions tool))
         && is_enabled (effective_network_sandbox_policy (network_sandbox_policy (env_permission_profile env))
                          (spec ← network_approval_spec tool; spec_additional_permissions spec))
  | None => turn_has_network turn
  end.

(** ** Attempts *)

Definition run_attempt (attempt : SandboxAttempt) (spec : option Spec) :
    prog (result Error Out * option DeferredNetworkApproval) :=
  BeginNetworkApproval (enforce_managed_network attempt) spec (λ r,
    match r with
    | Err err => Return (Err err, None)
    | Ok network_approval =>
        let attempt :=
          mkAttempt (sandbox attempt) (sandbox_requested attempt) (attempt_permissions attempt)
            (exec_server_permissions attempt) (enforce_managed_network attempt) (sandbox_cwd attempt)
            (attempt_workspace_roots attempt) (sandbox_exe attempt) (use_legacy_landlock attempt)
            (attempt_windows_sandbox_type attempt) (attempt_windows_sandbox_level attempt)
            (execution_proxy <$> network_approval) in
        RunTool attempt (λ run_result,
          match network_approval with
          | None => Return (run_result, None)
          | Some network_approval =>
              let deferred := into_deferred network_approval in
              if negb (is_ok run_result) then
                FinishNetworkApproval deferred (λ finalize_result,
                  match finalize_result with
                  | Err err => Return (Err err, None)
                  | Ok _ => Return (run_result, None)
                  end)
              else Return (run_result, deferred)
          end)
    end).

(** What the attempts share. *)
Record Setup := mkSetup {
  setup_requirement : ExecApprovalRequirement;
  setup_already_approved : bool;
  setup_policy : FileSystemSandboxPolicy PathUri;
  setup_override : SandboxOverride;
  setup_initial_permissions : Profile;
  setup_exec_server_permissions : Profile
}.

Definition orchestrator_requirement (tool : ToolRuntime) (turn : TurnContext) (p : FileSystemSandboxPolicy PathUri) :
    ExecApprovalRequirement :=
  default (default_exec_approval_requirement (turn_approval_policy turn) p) (tool_exec_approval_requirement tool).

Definition environment_permissions (tool : ToolRuntime) (env : TurnEnvironment) : Profile :=
  if uses_executor_managed_process_sandbox tool then env_permission_profile env
  else profile_with_roots (workspace_roots (env_context env)) (env_permission_profile env).

Definition setup (tool : ToolRuntime) (env : TurnEnvironment) (requirement : ExecApprovalRequirement)
    (already_approved : bool) (escalated_profile : option Profile) : Setup :=
  let permissions := environment_permissions tool env in
  let p := file_system_sandbox_policy permissions in
  let escalated_local_profile :=
    if uses_executor_managed_process_sandbox tool then None
    else profile_with_roots (workspace_roots (env_context env)) <$> escalated_profile in
  mkSetup requirement already_approved p
    (sandbox_override_for_first_attempt os (tool_sandbox_permissions tool) requirement p already_approved)
    (default permissions (or_else escalated_local_profile escalated_profile))
    (default (env_permission_profile env) escalated_profile).

Definition attempt_of (tool : ToolRuntime) (env : TurnEnvironment) (turn : TurnContext) (s : Setup)
    (requested : bool) (exe : option Exe) : SandboxAttempt :=
  let windows_sandbox_type := effective_windows_sandbox_type (env_windows_sandbox_type env) (env_windows_sandbox_level env) in
  let managed := managed_network_active tool env turn in
  mkAttempt
    (if requested && negb (uses_executor_managed_process_sandbox tool)
     then select_initial os (setup_initial_permissions s) (tool_sandbox_preference tool) windows_sandbox_type managed
     else NoSandbox)
    requested (setup_initial_permissions s) (setup_exec_server_permissions s) managed
    (default (cwd (env_context env)) (tool_sandbox_cwd tool)) (workspace_roots (env_context env)) exe
    (env_use_legacy_landlock env) windows_sandbox_type (env_windows_sandbox_level env) None.

Definition needs_sandbox (tool : ToolRuntime) (env : TurnEnvironment) (turn : TurnContext) (s : Setup) : bool :=
  should_sandbox os (setup_initial_permissions s) (tool_sandbox_preference tool) (managed_network_active tool env turn).

Definition codex_sandbox_exe (turn : TurnContext) : option Exe :=
  match os with WindowsOs => codex_self_exe turn | _ => codex_linux_sandbox_exe turn end.

Definition initial_attempt (tool : ToolRuntime) (env : TurnEnvironment) (turn : TurnContext) (s : Setup) : SandboxAttempt :=
  attempt_of tool env turn s
    (match setup_override s with
     | BypassSandboxFirstAttempt => false
     | NoOverride | EscalatedSandboxWithRestrictions => needs_sandbox tool env turn s
     end) (codex_sandbox_exe turn).

Definition retry_attempt (tool : ToolRuntime) (env : TurnEnvironment) (turn : TurnContext) (s : Setup) : SandboxAttempt :=
  let unsandboxed_allowed := unsandboxed_execution_allowed os (setup_policy s) in
  attempt_of tool env turn s (negb unsandboxed_allowed && needs_sandbox tool env turn s)
    (if unsandboxed_allowed then None else codex_sandbox_exe turn).

(** Whether a denied attempt is tried again, and the network denial it is
    tried again for. *)
Definition retry_after_denial (tool : ToolRuntime) (env : TurnEnvironment) (turn : TurnContext) (s : Setup)
    (network_policy_decision : option NetworkPolicyDecisionPayload) : option (option NetworkApprovalContext) :=
  let network_approval_context :=
    if managed_network_active tool env turn
    then payload ← network_policy_decision; network_approval_context_from_payload payload else None in
  let policy := turn_approval_policy turn in
  if bool_decide (is_Some network_policy_decision) && is_none network_approval_context then None
  else if negb (escalate_on_failure tool) then None
  else if negb (tool_wants_no_sandbox_approval tool policy)
          && negb (match policy with OnRequest => true | _ => false end
                   && bool_decide (is_Some network_approval_context)
                   && match default_exec_approval_requirement policy (setup_policy s) with
                      | NeedsApproval _ _ => true | _ => false end) then None
  else if negb (unsandboxed_execution_allowed os (setup_policy s)) && is_none network_approval_context then None
  else Some network_approval_context.

Definition retry_reason_for (network : option NetworkApprovalContext) : rstr :=
  match network with
  | Some network => msg_network_pre ++ [DQUOTE] ++ host network ++ [DQUOTE] ++ msg_network_post
  | None => msg_retry
  end.

Definition requirement_reason (r : ExecApprovalRequirement) : option rstr :=
  match r with NeedsApproval reason _ => reason | Skip _ _ | Forbidden _ => None end.

Definition approve_retry (tool : ToolRuntime) (turn : TurnContext) (s : Setup) (network : option NetworkApprovalContext) :
    prog (result Error unit) :=
  if negb (turn_strict_auto_review turn)
     && tool_should_bypass_approval tool (turn_approval_policy turn) (setup_already_approved s)
     && is_none network
  then Return (Ok tt)
  else
    request_tool_approval tool
      (approval_context turn (requirement_reason (setup_requirement s)) (Some (retry_reason_for network)) network).

Definition attempt_result (r : result Error Out * option DeferredNetworkApproval) :
    result Error (Out * option DeferredNetworkApproval) :=
  match r.1 with Ok out => Ok (out, r.2) | Err err => Err err end.

(** The first attempt and what follows it. *)
Definition run_attempts (tool : ToolRuntime) (env : TurnEnvironment) (turn : TurnContext) (s : Setup) :
    prog (result Error (Out * option DeferredNetworkApproval)) :=
  bind (run_attempt (initial_attempt tool env turn s) (network_approval_spec tool)) (λ first,
    match first.1 with
    | Err (Codex (SandboxDenied output network_policy_decision)) =>
        match retry_after_denial tool env turn s network_policy_decision with
        | None => Return (Err (Codex (SandboxDenied output network_policy_decision)))
        | Some network =>
            bind (approve_retry tool turn s network) (λ r, try_ r (λ _,
              bind (run_attempt (retry_attempt tool env turn s) (network_approval_spec tool)) (λ second,
                Return (attempt_result second))))
        end
    | _ => Return (attempt_result first)
    end).

Definition run (tool : ToolRuntime) (env : TurnEnvironment) (turn : TurnContext) :
    prog (result Error (Out * option DeferredNetworkApproval)) :=
  let p := file_system_sandbox_policy (environment_permissions tool env) in
  let requirement := orchestrator_requirement tool turn p in
  bind (approve tool turn requirement) (λ r, try_ r (λ already_approved,
    let override := sandbox_override_for_first_attempt os (tool_sandbox_permissions tool) requirement p already_approved in
    let '(escalated_profile, writable_root_metadata) := escalation env override in
    bind (verify_executor env escalated_profile writable_root_metadata) (λ r, try_ r (λ _,
      let s := setup tool env requirement already_approved escalated_profile in
      try_ (if uses_executor_managed_process_sandbox tool then Ok tt
            else ensure_native_sandbox override (sandbox (initial_attempt tool env turn s)))
        (λ _, run_attempts tool env turn s))))).

(** ** The two tools *)

Definition apply_patch_tool (requirement : ExecApprovalRequirement) (action : Action) (is_remote : bool) (cwd : PathUri) : ToolRuntime :=
  mkTool UseDefault (Some requirement) Auto true should_bypass_approval apply_patch_wants_no_sandbox_approval (Ok action)
    is_remote None (Some cwd).

Definition unified_exec_tool (permissions : SandboxPermissions) (requirement : ExecApprovalRequirement) (action : Action)
    (executor_managed : bool) (spec : option Spec) (cwd : PathUri) : ToolRuntime :=
  mkTool permissions (Some requirement) Auto true should_bypass_approval wants_no_sandbox_approval (Ok action)
    executor_managed spec (Some cwd).
End orchestrator.
Arguments ToolRuntime : clear implicits.
Arguments TurnEnvironment : clear implicits.
Arguments TurnContext : clear implicits.
Arguments SandboxAttempt : clear implicits.
Arguments ActiveNetworkApproval : clear implicits.
Arguments DeferredNetworkApproval : clear implicits.
Arguments event : clear implicits.
Arguments World : clear implicits.
Arguments prog : clear implicits.
Arguments Return {PathUri Changes Out Output Spec Proxy Exe A} a.
Arguments RequestApproval {PathUri Changes Out Output Spec Proxy Exe A} action ctx k.
Arguments AskInfo {PathUri Changes Out Output Spec Proxy Exe A} k.
Arguments BeginNetworkApproval {PathUri Changes Out Output Spec Proxy Exe A} managed spec k.
Arguments RunTool {PathUri Changes Out Output Spec Proxy Exe A} attempt k.
Arguments FinishNetworkApproval {PathUri Changes Out Output Spec Proxy Exe A} deferred k.
