(* ===== verification/OrchestratorFacts.v ===== *)
(** * Properties of running a tool

    What a run can do before and after the tool runs, when it leaves the
    sandbox, and that it closes the network approvals it opens. *)

From S2P Require Import Prelude RustStr Permissions PermissionsFacts ExecApproval ApprovedCommand.
From S2P Require Import Approvals PolicyTransforms PolicyTransformsFacts Sandboxing Orchestrator.

Section facts.
Context {PathUri Changes Out Output Spec Proxy Exe : Type} `{!UriOps PathUri}.
Context (os : TargetOs) (try_new_matcher : FileSystemSandboxPolicy PathUri → FileSystemSandboxPolicyContext PathUri →
  result rstr (option (PathUri → bool))).
Context (spec_additional_permissions : Spec → option (AdditionalPermissionProfile PathUri)).

Local Abbreviation Error := (ToolError Output NetworkPolicyDecisionPayload).
Local Abbreviation Event := (event PathUri Changes Out Output Spec Proxy Exe).
Local Abbreviation Prog := (prog PathUri Changes Out Output Spec Proxy Exe).
Local Abbreviation Tool := (ToolRuntime PathUri Changes Spec).
Local Abbreviation Attempt := (SandboxAttempt PathUri Proxy Exe).

(** ** Runs of composed programs *)

Lemma runs_bind {A B} (p : Prog A) (f : A → Prog B) t b :
  runs (bind p f) t b ↔ ∃ t1 t2 a, t = t1 ++ t2 ∧ runs p t1 a ∧ runs (f a) t2 b.
Proof.
  revert t. induction p as [a|action ctx k IH|k IH|m s k IH|attempt k IH|d k IH]; intros t; cbn [bind runs].
  { split; [intros H; by exists [], t, a|by intros (t1 & t2 & a' & -> & [-> ->] & H)]. }
  all: split.
  all: try by (intros (r & t' & -> & (t1 & t2 & a & -> & H1 & H2)%IH); eexists (_ :: t1), t2, a; split; [done|];
    split; [by eexists r, t1|done]).
  all: intros (t1 & t2 & a & -> & (r & t' & -> & H1) & H2); exists r, (t' ++ t2); split; [done|]; apply IH; by exists t', t2, a.
Qed.

Lemma runs_return {A} (a : A) t b : runs (Return a : Prog A) t b ↔ t = [] ∧ b = a.
Proof. done. Qed.

(** ** Asking *)

(** Asking for approval asks once, and goes on if the answer is yes. *)
Lemma request_runs (tool : Tool) ctx (t : list Event) r :
  runs (request_tool_approval tool ctx) t r →
  (t = [] ∧ ∃ err, r = Err (Rejected (msg_prepare ++ err))) ∨
  ∃ action answer, t = [Asked action ctx answer] ∧ r = match answer with Ok _ => Ok tt | Err err => Err err end.
Proof.
  unfold request_tool_approval. destruct (approval_action tool) as [action|err].
  - intros (answer & t' & -> & H). right. exists action, answer. destruct answer; cbn in H; by destruct H as [-> ->].
  - intros [-> ->]. left. split; [done|by exists err].
Qed.

(** The first approval. *)
Lemma approve_runs (tool : Tool) (turn : TurnContext Exe) requirement (t : list Event) r :
  runs (approve tool turn requirement) t r →
  (∀ e, e ∈ t → ∃ action ctx answer, e = Asked action ctx answer) ∧ length t ≤ 1 ∧
  match r with
  | Ok already_approved =>
      match requirement with
      | Forbidden _ => False
      | Skip _ _ => already_approved = turn_strict_auto_review turn
      | NeedsApproval _ _ => already_approved = true
      end ∧
      (already_approved = true → ∃ action ctx d, t = [Asked action ctx (Ok d)] ∧ retry_reason ctx = None) ∧
      (already_approved = false → t = [])
  | Err _ => True
  end.
Proof.
  assert (∀ ctx t r, retry_reason ctx = None →
    runs (bind (request_tool_approval tool ctx) (λ r, try_ r (λ _, Return (Ok true))) : Prog (result Error bool)) t r →
    (∀ e, e ∈ t → ∃ action ctx answer, e = Asked action ctx answer) ∧ length t ≤ 1 ∧
    match r with
    | Ok already => already = true ∧ ∃ action ctx d, t = [Asked action ctx (Ok d)] ∧ retry_reason ctx = None
    | Err _ => True
    end) as Hreq.
  { intros ctx t' r' Hctx (t1 & t2 & a & -> & Ha & H)%runs_bind.
    destruct (request_runs _ _ _ _ Ha) as [[-> (err & ->)]|(action & answer & -> & ->)].
    - destruct H as [-> ->]. split_and!; [by intros ? ?%elem_of_nil|cbn; lia|done].
    - destruct answer as [d|err]; destruct H as [-> ->]; cbn; split_and!; try done; try lia.
      all: try by (intros e He%list_elem_of_singleton; subst e; eexists _, _, _).
      by exists action, ctx, d. }
  unfold approve. destruct requirement as [bypass amendment|reason amendment|reason].
  - destruct (turn_strict_auto_review turn).
    + intros (H1 & H2 & H3)%Hreq; [|done]. split_and!; [done|done|]. destruct r; [|done]. by destruct H3 as [-> H3].
    + intros [-> ->]. split_and!; try done; [by intros ? ?%elem_of_nil|cbn; lia].
  - intros (H1 & H2 & H3)%Hreq; [|done]. split_and!; [done|done|]. destruct r; [|done]. by destruct H3 as [-> H3].
  - intros [-> ->]. split_and!; [by intros ? ?%elem_of_nil|cbn; lia|done].
Qed.

Lemma verify_runs (env : TurnEnvironment PathUri) escalated metadata (t : list Event) r :
  runs (verify_executor env escalated metadata : Prog (result Error unit)) t r →
  (∀ e, e ∈ t → ∃ answer, e = Informed answer) ∧ length t ≤ 1.
Proof.
  unfold verify_executor. destruct (_ && _).
  - intros (answer & t' & -> & H). assert (t' = []) as ->.
    { destruct answer as [info|]; [destruct (negb _)|]; by destruct H. }
    split; [|done]. intros e ->%list_elem_of_singleton. by eexists.
  - intros [-> _]. split; [by intros ? ?%elem_of_nil|cbn; lia].
Qed.

(** ** Attempts *)

Definition with_proxy (attempt : Attempt) (approval : option (ActiveNetworkApproval Proxy)) : Attempt :=
  mkAttempt (sandbox attempt) (sandbox_requested attempt) (attempt_permissions attempt) (exec_server_permissions attempt)
    (enforce_managed_network attempt) (sandbox_cwd attempt) (attempt_workspace_roots attempt) (sandbox_exe attempt)
    (use_legacy_landlock attempt) (attempt_windows_sandbox_type attempt) (attempt_windows_sandbox_level attempt)
    (execution_proxy <$> approval).

(** What an attempt does: nothing but open the network approval, or also run
    the tool, and close the approval if the tool fails. *)
Inductive attempt_runs (attempt : Attempt) (spec : option Spec) : list Event → result Error Out → option (DeferredNetworkApproval Proxy) → Prop :=
| attempt_refused err : attempt_runs attempt spec [Began (enforce_managed_network attempt) spec (Err err)] (Err err) None
| attempt_plain answer : attempt_runs attempt spec
    [Began (enforce_managed_network attempt) spec (Ok None); Ran (with_proxy attempt None) answer] answer None
| attempt_succeeded na out : attempt_runs attempt spec
    [Began (enforce_managed_network attempt) spec (Ok (Some na)); Ran (with_proxy attempt (Some na)) (Ok out)]
    (Ok out) (into_deferred na)
| attempt_failed na err finished : attempt_runs attempt spec
    [Began (enforce_managed_network attempt) spec (Ok (Some na)); Ran (with_proxy attempt (Some na)) (Err err);
     Finished (into_deferred na) finished]
    (Err (match finished with Ok _ => err | Err err' => err' end)) None.

Lemma run_attempt_runs attempt spec (t : list Event) res d :
  runs (run_attempt attempt spec) t (res, d) → attempt_runs attempt spec t res d.
Proof.
  intros (answer & t' & -> & H). destruct answer as [approval|err].
  - destruct H as (answer & t'' & -> & H). change (mkAttempt _ _ _ _ _ _ _ _ _ _ _ _) with (with_proxy attempt approval).
    destruct approval as [na|]; [|destruct H as [-> [= -> ->]]; constructor].
    destruct answer as [out|err]; cbn [is_ok negb] in H.
    + destruct H as [-> [= -> ->]]. constructor.
    + destruct H as (finished & t3 & -> & H). destruct finished; destruct H as [-> [= -> ->]].
      * apply (attempt_failed attempt spec na err (Ok _)).
      * apply (attempt_failed attempt spec na err (Err _)).
  - destruct H as [-> [= -> ->]]. constructor.
Qed.

(** ** Where the tool runs *)

Definition ran (t : list Event) : list (Attempt * result Error Out) :=
  omap (λ e, match e with Ran attempt answer => Some (attempt, answer) | _ => None end) t.

(** Nothing has happened but questions. *)
Definition quiet (t : list Event) : Prop := ∀ e, e ∈ t → (∃ action ctx answer, e = Asked action ctx answer) ∨ ∃ answer, e = Informed answer.

Lemma quiet_ran (t : list Event) : quiet t →
  ran t = [].
Proof.
  induction t as [|e t IH]; [done|]. intros H. cbn.
  destruct (H e ltac:(left)) as [(? & ? & ? & ->)|(? & ->)]; apply IH; intros e' ?; apply H; by right.
Qed.

Lemma quiet_open (t t1 t2 : list Event) managed spec answer : quiet t → t = t1 ++ Began managed spec answer :: t2 → False.
Proof.
  intros H ->. destruct (H (Began managed spec answer)) as [(? & ? & ? & ?)|(? & ?)]; [|done..]. apply elem_of_app. right. left.
Qed.

(** Something the run did was answered with a denial of the sandbox. *)
Definition denied_before (t : list Event) output decision : Prop :=
  let denial := Codex (SandboxDenied output decision) in
  ∃ e, e ∈ t ∧
    match e with
    | Began _ _ (Err err) | Ran _ (Err err) | Finished _ (Err err) => err = denial
    | _ => False
    end.

Lemma split_app {A} (l k l1 l2 : list A) x : l ++ k = l1 ++ x :: l2 →
  (∃ m, l = l1 ++ x :: m ∧ l2 = m ++ k) ∨ (∃ m, l1 = l ++ m ∧ k = m ++ x :: l2).
Proof.
  revert l1. induction l as [|y l IH]; intros l1 H; [right; by exists l1|].
  destruct l1 as [|z l1]; [injection H as -> <-; left; by exists l|].
  injection H as -> H. destruct (IH l1 H) as [(m & -> & ->)|(m & -> & ->)]; [left|right]; by exists m.
Qed.

Lemma attempt_split attempt spec t res d t1 a answer t2 : attempt_runs attempt spec t res d → t = t1 ++ Ran a answer :: t2 →
  ran t1 = [] ∧ ran t2 = [] ∧ ∃ na, a = with_proxy attempt na.
Proof.
  intros H. destruct H as [err|answer'|na out|na err finished]; intros Ht;
    destruct t1 as [|e0 [|e1 [|e2 [|]]]]; cbn [app] in Ht; simplify_eq; (split_and!; [done|done|by eexists]).
Qed.

Lemma attempt_ran attempt spec t res d : attempt_runs attempt spec t res d → length (ran t) ≤ 1 ∧ length t ≤ 3.
Proof. destruct 1; cbn; lia. Qed.

Lemma attempt_denied attempt spec t output decision d : attempt_runs attempt spec t (Err (Codex (SandboxDenied output decision))) d →
  denied_before t output decision.
Proof.
  inversion 1; subst.
  - eexists. split; [left|done].
  - eexists. split; [right; left|done].
  - destruct finished as [u|err']; subst.
    + eexists. split; [right; left|done].
    + eexists. split; [right; right; left|done].
Qed.

(** ** The second attempt *)

(** What allows it after a denial. *)
Definition retry_consent (tool : Tool) (turn : TurnContext Exe) already_approved network (t : list Event) : Prop :=
  (network = None ∧ turn_strict_auto_review turn = false ∧
   tool_should_bypass_approval tool (turn_approval_policy turn) already_approved = true) ∨
  ∃ action ctx d, Asked action ctx (Ok d) ∈ t ∧ is_Some (retry_reason ctx) ∧ network_approval_context ctx = network.

Lemma approve_retry_runs (tool : Tool) turn (s : Setup) network (t : list Event) r :
  runs (approve_retry tool turn s network) t r →
  quiet t ∧ length t ≤ 1 ∧ match r with Ok _ => retry_consent tool turn (setup_already_approved s) network t | Err _ => True end.
Proof.
  unfold approve_retry. destruct (_ && _) eqn:Hbypass.
  - intros [-> ->]. split_and!; [by intros ? ?%elem_of_nil|cbn; lia|]. left. rewrite !andb_true_iff, negb_true_iff in Hbypass.
    destruct Hbypass as [[? ?] ?]. by destruct network.
  - intros H. destruct (request_runs _ _ _ _ H) as [[-> (err & ->)]|(action & answer & -> & ->)]; [split_and!; [by intros ? ?%elem_of_nil|cbn; lia|done]|].
    split_and!; [intros e ->%list_elem_of_singleton; left; by eexists _, _, _|cbn; lia|]. destruct answer as [d|err]; [|done]. right. exists action, (approval_context turn
      (requirement_reason (setup_requirement s)) (Some (retry_reason_for network)) network), d.
    split_and!; [left|by eexists|done].
Qed.

Lemma attempt_result_ok (r : result Error Out * option (DeferredNetworkApproval Proxy)) out d :
  attempt_result r = Ok (out, d) → r = (Ok out, d).
Proof. destruct r as [[o|e] d']; cbn; intros [= <- <-]; done. Qed.

Local Abbreviation initial tool env turn s := (initial_attempt os spec_additional_permissions tool env turn s : Attempt).
Local Abbreviation retried tool env turn s := (retry_attempt os spec_additional_permissions tool env turn s : Attempt).

(** The attempts of a run. *)
Inductive both_attempts (tool : Tool) env turn s : list Event → result Error (Out * option (DeferredNetworkApproval Proxy)) → Prop :=
| one_attempt t res d : attempt_runs (initial tool env turn s) (network_approval_spec tool) t res d →
    both_attempts tool env turn s t (attempt_result (res, d))
| refused_retry t output decision d network ta err :
    attempt_runs (initial tool env turn s) (network_approval_spec tool) t (Err (Codex (SandboxDenied output decision))) d →
    retry_after_denial os spec_additional_permissions tool env turn s decision = Some network →
    quiet ta → length ta ≤ 1 → both_attempts tool env turn s (t ++ ta) (Err err)
| two_attempts t output decision d network ta t' res d' :
    attempt_runs (initial tool env turn s) (network_approval_spec tool) t (Err (Codex (SandboxDenied output decision))) d →
    retry_after_denial os spec_additional_permissions tool env turn s decision = Some network →
    quiet ta → length ta ≤ 1 → retry_consent tool turn (setup_already_approved s) network ta →
    attempt_runs (retried tool env turn s) (network_approval_spec tool) t' res d' →
    both_attempts tool env turn s (t ++ ta ++ t') (attempt_result (res, d')).

Lemma run_attempts_runs (tool : Tool) env turn s (t : list Event) r :
  runs (run_attempts os spec_additional_permissions tool env turn s) t r → both_attempts tool env turn s t r.
Proof.
  intros (t1 & t2 & [res d] & -> & H1%run_attempt_runs & H)%runs_bind. cbn [fst] in H.
  assert (runs (Return (attempt_result (res, d))) t2 r → both_attempts tool env turn s (t1 ++ t2) r) as Hone.
  { intros [-> ->]. rewrite app_nil_r. by constructor. }
  destruct res as [out|[reason|[output decision|output|signal| |message]]]; try by apply Hone.
  destruct (retry_after_denial os spec_additional_permissions tool env turn s decision) as [network|] eqn:Hretry; [|by apply Hone].
  apply runs_bind in H as (ta & tb & consent & -> & Ha & H). destruct (approve_retry_runs _ _ _ _ _ _ Ha) as (Hta & Hlen & Hconsent).
  destruct consent as [[]|err].
  - cbn [try_] in H. apply runs_bind in H as (t' & t'' & [res' d'] & -> & H2%run_attempt_runs & [-> ->]). rewrite app_nil_r.
    by eapply two_attempts.
  - destruct H as [-> ->]. rewrite app_nil_r. by eapply refused_retry.
Qed.

(** ** The whole run *)

Definition run_setup (tool : Tool) (env : TurnEnvironment PathUri) (turn : TurnContext Exe) (already_approved : bool) : Setup :=
  let p := file_system_sandbox_policy (environment_permissions tool env) in
  let requirement := orchestrator_requirement tool turn p in
  setup os tool env requirement already_approved
    (escalation try_new_matcher env
       (sandbox_override_for_first_attempt os (tool_sandbox_permissions tool) requirement p already_approved)).1.

(** The answer that let the first attempt run. *)
Definition first_consent (tool : Tool) (env : TurnEnvironment PathUri) (turn : TurnContext Exe) already_approved (t : list Event) : Prop :=
  match orchestrator_requirement tool turn (file_system_sandbox_policy (environment_permissions tool env)) with
  | Forbidden _ => False
  | Skip _ _ => already_approved = turn_strict_auto_review turn
  | NeedsApproval _ _ => already_approved = true
  end ∧
  (already_approved = true → ∃ action ctx d, Asked action ctx (Ok d) ∈ t ∧ retry_reason ctx = None).

(** A run refuses the call before any attempt, or makes its attempts. *)
Inductive whole_run (tool : Tool) env turn : list Event → result Error (Out * option (DeferredNetworkApproval Proxy)) → Prop :=
| no_attempt t err : quiet t →
    length t ≤ 2 → whole_run tool env turn t (Err err)
| some_attempt t already_approved t' r :
    quiet t → length t ≤ 2 →
    first_consent tool env turn already_approved t →
    (uses_executor_managed_process_sandbox tool = false →
     setup_override (run_setup tool env turn already_approved) = EscalatedSandboxWithRestrictions →
     sandbox (initial tool env turn (run_setup tool env turn already_approved)) ≠ NoSandbox) →
    both_attempts tool env turn (run_setup tool env turn already_approved) t' r →
    whole_run tool env turn (t ++ t') r.

Lemma run_runs (tool : Tool) env turn (t : list Event) r :
  runs (run os try_new_matcher spec_additional_permissions tool env turn) t r → whole_run tool env turn t r.
Proof.
  unfold run. intros (t1 & t2 & a & -> & Ha & H)%runs_bind. apply approve_runs in Ha as (Hasked & Hlen & Ha).
  assert (quiet t1) as Hquiet1.
  { intros e He. left. by apply Hasked. }
  destruct a as [already|err]; cbn [try_] in H; [|destruct H as [-> ->]; rewrite app_nil_r; constructor; [done|lia]].
  destruct (escalation _ _ _) as [escalated metadata] eqn:Hesc.
  apply runs_bind in H as (tv & t3 & v & -> & Hv & H). apply verify_runs in Hv as [Hinfo Hlenv]. rewrite (assoc_L (++)).
  assert (quiet (t1 ++ tv)) as Hquiet.
  { intros e [He|He]%elem_of_app; [by apply Hquiet1|right; by apply Hinfo]. }
  assert (length (t1 ++ tv) ≤ 2) as Hlen2 by (rewrite length_app; lia).
  destruct v as [[]|err]; cbn [try_] in H; [|destruct H as [-> ->]; rewrite app_nil_r; by constructor].
  assert (run_setup tool env turn already = setup os tool env (orchestrator_requirement tool turn
    (file_system_sandbox_policy (environment_permissions tool env))) already escalated) as Hsetup.
  { unfold run_setup. cbv zeta. by rewrite Hesc. }
  rewrite <- Hsetup in H.
  destruct (if uses_executor_managed_process_sandbox tool then Ok tt else _) as [[]|err] eqn:Hens; cbn [try_] in H;
    [|destruct H as [-> ->]; rewrite app_nil_r; by constructor].
  apply (some_attempt _ _ _ _ already); try done.
  - destruct Ha as (Hreq & Hyes & _). split; [done|]. intros Hal. destruct (Hyes Hal) as (action & ctx & d & -> & Hctx).
    exists action, ctx, d. split; [apply elem_of_app; left; left|done].
  - intros Hman Hover. rewrite Hman in Hens. unfold ensure_native_sandbox in Hens.
    rewrite Hsetup in Hover. cbn [setup setup_override] in Hover. rewrite Hover, bool_decide_true in Hens by done. cbn [andb] in Hens.
    by case_bool_decide.
  - by apply run_attempts_runs.
Qed.

Lemma ran_app (t k : list Event) : ran (t ++ k) = ran t ++ ran k.
Proof. apply omap_app. Qed.

Lemma not_ran (t t1 t2 : list Event) a answer : ran t = [] → t = t1 ++ Ran a answer :: t2 → False.
Proof. intros H ->. rewrite ran_app in H. apply app_nil in H as [_ H]. done. Qed.

Lemma consent_mono (tool : Tool) turn already network (t k : list Event) :
  t ⊆ k → retry_consent tool turn already network t → retry_consent tool turn already network k.
Proof. intros Hsub [?|(action & ctx & d & ? & ?)]; [by left|right; exists action, ctx, d; split; [by apply Hsub|done]]. Qed.

Lemma denied_mono (t k : list Event) output decision : t ⊆ k → denied_before t output decision → denied_before k output decision.
Proof. intros Hsub (e & ? & ?). exists e. split; [by apply Hsub|done]. Qed.

Lemma first_consent_mono (tool : Tool) env turn already (t k : list Event) : t ⊆ k → first_consent tool env turn already t →
  first_consent tool env turn already k.
Proof. intros Hsub [? H]. split; [done|]. intros Ha. destruct (H Ha) as (x & y & z & ? & ?). exists x, y, z. split; [by apply Hsub|done]. Qed.

(** The two kinds of attempt a run makes. *)
Definition first_attempt (tool : Tool) env turn s (t1 : list Event) (a : Attempt) : Prop :=
  ran t1 = [] ∧ ∃ na, a = with_proxy (initial tool env turn s) na.
Definition second_attempt (tool : Tool) env turn s (t1 : list Event) (a : Attempt) : Prop :=
  length (ran t1) ≤ 1 ∧ (∃ na, a = with_proxy (retried tool env turn s) na) ∧
  ∃ output decision network, denied_before t1 output decision ∧
    retry_after_denial os spec_additional_permissions tool env turn s decision = Some network ∧
    retry_consent tool turn (setup_already_approved s) network t1.

Lemma both_attempts_split (tool : Tool) env turn s t r t1 a answer t2 : both_attempts tool env turn s t r → t = t1 ++ Ran a answer :: t2 →
  first_attempt tool env turn s t1 a ∨ second_attempt tool env turn s t1 a.
Proof.
  destruct 1 as [t res d H|t output decision d network ta err H Hretry Hta _|t output decision d network ta t' res d' H Hretry Hta _ Hc H'];
    intros Heq.
  - left. destruct (attempt_split _ _ _ _ _ _ _ _ _ H Heq) as (? & _ & ?). by split.
  - apply split_app in Heq as [(m & -> & ->)|(m & -> & Heq)]; [|by destruct (not_ran _ _ _ _ _ (quiet_ran _ Hta) Heq)].
    left. destruct (attempt_split _ _ _ _ _ _ _ _ _ H eq_refl) as (? & _ & ?). by split.
  - apply split_app in Heq as [(m & -> & ->)|(m & -> & Heq)].
    + left. destruct (attempt_split _ _ _ _ _ _ _ _ _ H eq_refl) as (? & _ & ?). by split.
    + apply split_app in Heq as [(m' & Heq & _)|(m' & -> & Heq)]; [by destruct (not_ran _ _ _ _ _ (quiet_ran _ Hta) Heq)|].
      destruct (attempt_split _ _ _ _ _ _ _ _ _ H' Heq) as (Hm & _ & Hna). right. split_and!; [|done|].
      * rewrite !ran_app, (quiet_ran _ Hta), Hm, app_nil_r. by eapply attempt_ran.
      * exists output, decision, network. split_and!; [|done|].
        -- eapply denied_mono; [|by eapply attempt_denied]. intros e He. apply elem_of_app. by left.
        -- eapply consent_mono; [|done]. intros e He. rewrite !elem_of_app. auto.
Qed.

Lemma run_split (tool : Tool) env turn t r t1 a answer t2 : whole_run tool env turn t r → t = t1 ++ Ran a answer :: t2 →
  ∃ already_approved, let s := run_setup tool env turn already_approved in
    first_consent tool env turn already_approved t1 ∧
    (uses_executor_managed_process_sandbox tool = false → setup_override s = EscalatedSandboxWithRestrictions →
     sandbox (initial tool env turn s) ≠ NoSandbox) ∧
    (first_attempt tool env turn s t1 a ∨ second_attempt tool env turn s t1 a).
Proof.
  destruct 1 as [t err Hquiet _|t already t' r Hquiet _ Hfirst Hsandbox Hboth]; intros Heq.
  { by destruct (not_ran _ _ _ _ _ (quiet_ran _ Hquiet) Heq). }
  apply split_app in Heq as [(m & Heq & _)|(m & -> & Heq)]; [by destruct (not_ran _ _ _ _ _ (quiet_ran _ Hquiet) Heq)|].
  exists already. cbv zeta. assert (t ⊆ t ++ m) as Hsub by (intros e He; apply elem_of_app; by left).
  split_and!; [by eapply first_consent_mono|done|].
  unfold first_attempt, second_attempt. rewrite ran_app, (quiet_ran t Hquiet). cbn [app].
  destruct (both_attempts_split _ _ _ _ _ _ _ _ _ _ Hboth Heq) as [?|(Hlen & Hna & output & decision & network & Hd & Hr & Hc)];
    [by left|right]. split_and!; [done..|]. exists output, decision, network.
  assert (m ⊆ t ++ m) as Hsub' by (intros e He; apply elem_of_app; by right).
  split_and!; [by eapply denied_mono|done|by eapply consent_mono].
Qed.

Lemma both_attempts_bounds (tool : Tool) env turn s t r : both_attempts tool env turn s t r → length (ran t) ≤ 2 ∧ length t ≤ 7.
Proof.
  destruct 1 as [t res d H|t output decision d network ta err H _ Hta Hlen|t output decision d network ta t' res d' H _ Hta Hlen _ H'].
  - apply attempt_ran in H. lia.
  - apply attempt_ran in H. rewrite ran_app, !length_app, (quiet_ran _ Hta). cbn. lia.
  - apply attempt_ran in H, H'. rewrite !ran_app, !length_app, (quiet_ran _ Hta). cbn. lia.
Qed.

(** ** The permissions of the attempts *)

Section permissions.
Context `{!UriLaws PathUri, !UriChildLaws PathUri, !UriNativeLaws PathUri}.

Lemma policy_eqb_refl (p : FileSystemSandboxPolicy PathUri) : policy_eqb p p = true.
Proof.
  unfold policy_eqb. rewrite !bool_decide_true by done. cbn [andb].
  induction (entries p) as [|e es IH]; [done|]. cbn. by rewrite entry_eqb_refl.
Qed.

Lemma resolve_access_entries (p q : FileSystemSandboxPolicy PathUri) path context : kind p = kind q → entries p = entries q →
  resolve_access p path context = resolve_access q path context.
Proof. intros Hk He. unfold resolve_access, resolved_entries. by rewrite Hk, He. Qed.

(** A restricted policy made a profile, with the workspace roots resolved or not. *)
Lemma managed_entries enf (p : FileSystemSandboxPolicy PathUri) n : kind p = Restricted →
  let q := file_system_sandbox_policy (from_runtime_permissions_with_enforcement enf p n) in
  kind q = Restricted ∧ entries q = entries p.
Proof.
  intros Hk. unfold from_runtime_permissions_with_enforcement, from_sandbox_policy. rewrite Hk. by destruct enf.
Qed.

Lemma profile_roots_entries roots enf (p : FileSystemSandboxPolicy PathUri) n : kind p = Restricted →
  (∀ e, e ∈ entries p → project_root_subpath (entry_path e) = None) →
  let q := file_system_sandbox_policy (profile_with_roots roots (from_runtime_permissions_with_enforcement enf p n)) in
  kind q = Restricted ∧ entries q = entries p.
Proof.
  intros Hk Hplain. unfold from_runtime_permissions_with_enforcement, from_sandbox_policy. rewrite Hk.
  assert (∀ g, materialize_project_roots_with_path_uris (mkPolicy Restricted g (entries p)) roots = mkPolicy Restricted g (entries p)) as Hm.
  { intros g. unfold materialize_project_roots_with_path_uris. cbn [entries kind glob_scan_max_depth]. by rewrite materialize_plain. }
  destruct enf; cbn [profile_with_roots to_sandbox_policy]; rewrite Hm; by cbn.
Qed.

(** Either nothing changes, or an approved escalation keeps the denials. *)
Lemma initial_permissions (tool : Tool) env (turn : TurnContext Exe) already :
  let s := run_setup tool env turn already in let baseline := file_system_sandbox_policy (env_permission_profile env) in
  setup_initial_permissions s = environment_permissions tool env ∨
  setup_override s = EscalatedSandboxWithRestrictions ∧
  ∀ path, posix_context (env_context env) path → denied baseline (env_context env) path →
    resolve_access (file_system_sandbox_policy (setup_initial_permissions s)) path (env_context env) = Deny.
Proof.
  intros s baseline. unfold s, run_setup. cbv zeta.
  set (override := sandbox_override_for_first_attempt _ _ _ _ _).
  destruct (escalation try_new_matcher env override) as [[profile|] metadata] eqn:Hesc; cbn [fst];
    [right|left; unfold setup; cbn [setup_initial_permissions fmap option_fmap option_map]; by destruct (uses_executor_managed_process_sandbox tool)].
  unfold escalation in Hesc. cbn [setup setup_override]. fold override.
  destruct override eqn:Hover; try done. split; [done|]. intros path Hposix Hdenied. fold baseline in Hesc.
  injection Hesc as Hprof _. set (approved := for_approved_command try_new_matcher baseline (env_context env)) in *.
  destruct (negb (policy_eqb approved baseline) && _) eqn:Hdiff; [|done]. injection Hprof as Hprof.
  apply andb_true_iff in Hdiff as [Hdiff%negb_true_iff _].
  assert (approved ≠ baseline) as Hne by (intros Heq; rewrite Heq, policy_eqb_refl in Hdiff; done).
  destruct (for_approved_access try_new_matcher baseline (env_context env) path Hposix) as [[_ ?]|[Hk Hacc]]; [done|].
  fold approved in Hk, Hacc. destruct Hacc as [[Hacc _]|[_ ?]]; [|done].
  pose proof (λ e, for_approved_plain try_new_matcher baseline (env_context env) path e Hposix Hne) as Hplain. fold approved in Hplain.
  unfold setup. cbn [setup_initial_permissions]. rewrite <- Hprof. rewrite <- Hacc.
  destruct (uses_executor_managed_process_sandbox tool); cbn [fmap option_fmap option_map or_else default from_option id].
  - destruct (managed_entries (enforcement (env_permission_profile env)) approved (network_sandbox_policy (env_permission_profile env)) Hk).
    apply resolve_access_entries; [congruence|done].
  - destruct (profile_roots_entries (workspace_roots (env_context env)) (enforcement (env_permission_profile env)) approved
      (network_sandbox_policy (env_permission_profile env)) Hk Hplain).
    apply resolve_access_entries; [congruence|done].
Qed.
End permissions.

(** An override to escalate comes from a request that was approved. *)
Lemma escalated_override (tool : Tool) env (turn : TurnContext Exe) already :
  let s := run_setup tool env turn already in
  setup_override s = EscalatedSandboxWithRestrictions →
  unsandboxed_execution_allowed os (setup_policy s) = false ∧
  requires_escalated_permissions (tool_sandbox_permissions tool) = true ∧ already = true.
Proof.
  unfold run_setup. cbv zeta. cbn [setup setup_override setup_policy]. unfold sandbox_override_for_first_attempt.
  destruct (unsandboxed_execution_allowed os _); cbn [negb].
  - destruct (orchestrator_requirement _ _ _) as [[]| |]; cbn; try done; by destruct (requires_escalated_permissions _).
  - destruct (requires_escalated_permissions _), already; done.
Qed.

Lemma bypass_override (tool : Tool) env (turn : TurnContext Exe) already :
  let s := run_setup tool env turn already in
  setup_override s = BypassSandboxFirstAttempt →
  unsandboxed_execution_allowed os (setup_policy s) = true ∧
  ((∃ amendment, orchestrator_requirement tool turn (setup_policy s) = Skip true amendment) ∨
   requires_escalated_permissions (tool_sandbox_permissions tool) = true).
Proof.
  unfold run_setup. cbv zeta. cbn [setup setup_override setup_policy]. unfold sandbox_override_for_first_attempt.
  destruct (unsandboxed_execution_allowed os _); cbn [negb].
  - intros H. split; [done|]. destruct (orchestrator_requirement _ _ _) as [[] amendment| |]; [left; by exists amendment|right..];
      by destruct (requires_escalated_permissions _).
  - by destruct (requires_escalated_permissions _ && already).
Qed.

Lemma with_proxy_same attempt na : sandbox (with_proxy attempt na) = sandbox attempt ∧
  sandbox_requested (with_proxy attempt na) = sandbox_requested attempt ∧
  attempt_permissions (with_proxy attempt na) = attempt_permissions attempt.
Proof. done. Qed.

(** The user, or whoever answers for them, approved the call: at first, or
    the second attempt. *)
Definition approved_first (t : list Event) : Prop := ∃ action ctx d, Asked action ctx (Ok d) ∈ t ∧ retry_reason ctx = None.
Definition approved_retry (t : list Event) : Prop := ∃ action ctx d, Asked action ctx (Ok d) ∈ t ∧ is_Some (retry_reason ctx).

(** ** Results *)

Lemma play_runs {A} (w : World PathUri Changes Out Output Spec Proxy Exe) h (p : Prog A) :
  runs p (play w h p).1 (play w h p).2.
Proof.
  revert h. induction p as [a|action ctx k IH|k IH|m s k IH|attempt k IH|d k IH]; intros h; [done|..]; cbn [runs play];
    match goal with |- context [play w ?h' (k ?r)] => specialize (IH r h'); destruct (play w h' (k r)) as [t a] eqn:Hplay end;
    eexists _, t; by split.
Qed.

(** A success of the tool ends the run with its output, and nothing else does. *)
Definition ends_with_success (t : list Event) (r : result Error (Out * option (DeferredNetworkApproval Proxy))) : Prop :=
  (∀ t1 a out t2, t = t1 ++ Ran a (Ok out) :: t2 → t2 = [] ∧ ∃ d, r = Ok (out, d)) ∧
  (∀ out d, r = Ok (out, d) → ∃ t1 a, t = t1 ++ [Ran a (Ok out)]).

Lemma attempt_success attempt spec t res d : attempt_runs attempt spec t res d → ends_with_success t (attempt_result (res, d)).
Proof.
  destruct 1 as [err|[out|err]|na out|na err finished]; unfold ends_with_success; cbn; split.
  all: try (intros t1 a out' t2 Heq; destruct t1 as [|e0 [|e1 [|e2 [|]]]]; cbn [app] in Heq; simplify_eq; by eauto).
  all: intros out' d' [= <- <-].
  - by eexists [_], _.
  - by eexists [_], _.
Qed.

Lemma success_app (t k : list Event) r : (∀ t1 a out t2, t = t1 ++ Ran a (Ok out) :: t2 → False) → ends_with_success k r →
  ends_with_success (t ++ k) r.
Proof.
  intros Ht [H1 H2]. split.
  - intros t1 a out t2 [(m & -> & _)|(m & -> & Hk)]%split_app; [by destruct (Ht _ _ _ _ eq_refl)|by eapply H1].
  - intros out d Hr. destruct (H2 out d Hr) as (t1 & a & ->). exists (t ++ t1), a. by rewrite (assoc_L (++)).
Qed.

Lemma no_success (t : list Event) err : ends_with_success t (Err err) → ∀ t1 a out t2, t = t1 ++ Ran a (Ok out) :: t2 → False.
Proof. intros [H _] t1 a out t2 Ht. by destruct (H _ _ _ _ Ht) as [_ [d ?]]. Qed.

Lemma both_attempts_success (tool : Tool) env turn s t r : both_attempts tool env turn s t r → ends_with_success t r.
Proof.
  destruct 1 as [t res d H|t output decision d network ta err H _ Hta _|t output decision d network ta t' res d' H _ Hta _ _ H'].
  - by eapply attempt_success.
  - apply success_app; [exact (no_success _ _ (attempt_success _ _ _ _ _ H))|]. split; [|done].
    intros t1 a out t2 Heq. by destruct (not_ran _ _ _ _ _ (quiet_ran _ Hta) Heq).
  - apply success_app; [exact (no_success _ _ (attempt_success _ _ _ _ _ H))|].
    apply success_app; [|by eapply attempt_success]. intros t1 a out t2 Heq. by destruct (not_ran _ _ _ _ _ (quiet_ran _ Hta) Heq).
Qed.

Lemma whole_run_success (tool : Tool) env turn t r : whole_run tool env turn t r → ends_with_success t r ∧ length t ≤ 9.
Proof.
  destruct 1 as [t err Hquiet Hlen|t already t' r Hquiet Hlen _ _ Hboth].
  - split; [|lia]. split; [|done]. intros t1 a out t2 Heq. by destruct (not_ran _ _ _ _ _ (quiet_ran _ Hquiet) Heq).
  - split.
    + apply success_app; [|by eapply both_attempts_success].
      intros t1 a out t2 Heq. by destruct (not_ran _ _ _ _ _ (quiet_ran _ Hquiet) Heq).
    + apply both_attempts_bounds in Hboth. rewrite length_app. lia.
Qed.

(** ** Network approvals *)

(** An open network approval is handed to the tool, and closed if it fails. *)
Definition closes (t : list Event) (r : result Error (Out * option (DeferredNetworkApproval Proxy))) : Prop :=
  ∀ t1 managed spec na t2, t = t1 ++ Began managed spec (Ok (Some na)) :: t2 →
    ∃ attempt answer t3, t2 = Ran attempt answer :: t3 ∧ network_proxy attempt = Some (execution_proxy na) ∧
      match answer with
      | Ok out => t3 = [] ∧ r = Ok (out, into_deferred na)
      | Err _ => ∃ finished t4, t3 = Finished (into_deferred na) finished :: t4
      end.

Lemma attempt_closes attempt spec t res d : attempt_runs attempt spec t res d → closes t (attempt_result (res, d)).
Proof.
  destruct 1 as [err|answer|na out|na err finished]; intros t1 managed spec' na' t2 Heq;
    destruct t1 as [|e0 [|e1 [|e2 [|]]]]; cbn [app] in Heq; simplify_eq; by eauto 10.
Qed.

(** What is not an opened approval changes nothing. *)
Lemma closes_before (t k : list Event) r : (∀ t1 managed spec na t2, t = t1 ++ Began managed spec (Ok (Some na)) :: t2 → False) →
  closes k r → closes (t ++ k) r.
Proof.
  intros Ht Hk t1 managed spec na t2 [(m & -> & _)|(m & -> & Heq)]%split_app; [by destruct (Ht _ _ _ _ _ eq_refl)|by eapply Hk].
Qed.

Lemma closes_failed (t k : list Event) err r : closes t (Err err) → closes k r → closes (t ++ k) r.
Proof.
  intros Ht Hk t1 managed spec na t2 [(m & -> & ->)|(m & -> & Heq)]%split_app; [|by eapply Hk].
  destruct (Ht _ _ _ _ _ eq_refl) as (attempt & answer & t3 & -> & Hproxy & Hanswer). exists attempt, answer, (t3 ++ k).
  split_and!; [done|done|]. destruct answer as [out|e]; [by destruct Hanswer|]. destruct Hanswer as (finished & t4 & ->).
  by exists finished, (t4 ++ k).
Qed.
End facts.

(** C6: A tool runs only with consent.  Whatever the world answers: a call that
    is forbidden never runs; before the tool runs the call has been approved,
    unless its requirement is to skip the approval and reviews are not strict;
    it runs at most twice; and the second time only after a denial by the
    sandbox and a fresh approval of the retry, which can be left out only
    without strict review, if the call was approved before or the setting is
    never to ask. *)
Theorem tool_runs_with_consent {PathUri Changes Out Output Spec Proxy Exe} `{!UriOps PathUri} (os : TargetOs)
    (try_new_matcher : FileSystemSandboxPolicy PathUri → FileSystemSandboxPolicyContext PathUri → result rstr (option (PathUri → bool)))
    (spec_additional_permissions : Spec → option (AdditionalPermissionProfile PathUri))
    (tool : ToolRuntime PathUri Changes Spec) (env : TurnEnvironment PathUri) (turn : TurnContext Exe)
    (t1 t2 : list (event PathUri Changes Out Output Spec Proxy Exe)) (attempt : SandboxAttempt PathUri Proxy Exe)
    (answer : result (ToolError Output NetworkPolicyDecisionPayload) Out) r
    (Hbypass : ∀ policy already, tool_should_bypass_approval tool policy already = should_bypass_approval policy already)
    (Hrun : runs (run os try_new_matcher spec_additional_permissions tool env turn) (t1 ++ Ran attempt answer :: t2) r) :
  let requirement := orchestrator_requirement tool turn (file_system_sandbox_policy (environment_permissions tool env)) in
  (∀ reason, requirement ≠ Forbidden reason) ∧
  (approved_first t1 ∨ (∃ bypass amendment, requirement = Skip bypass amendment) ∧ turn_strict_auto_review turn = false) ∧
  (ran t1 = [] ∨
   length (ran t1) ≤ 1 ∧ (∃ output decision, denied_before t1 output decision) ∧
   (approved_retry t1 ∨
    turn_strict_auto_review turn = false ∧ (approved_first t1 ∨ turn_approval_policy turn = Never))).
Proof.
  intros requirement. apply run_runs in Hrun.
  destruct (run_split _ _ _ _ _ _ _ _ _ _ _ _ Hrun eq_refl) as (already & [Hreq Hfirst] & _ & Hattempt). fold requirement in Hreq.
  assert (already = true → approved_first t1) as Happroved.
  { intros Ha. destruct (Hfirst Ha) as (action & ctx & d & ? & ?). by exists action, ctx, d. }
  split_and!.
  - intros reason Hf. by rewrite Hf in Hreq.
  - destruct already; [left; by apply Happroved|]. right. destruct requirement as [b am| |]; [|done|done]. split; [by exists b, am|done].
  - destruct Hattempt as [[? _]|(Hlen & _ & output & decision & network & Hden & _ & Hretry)]; [by left|right].
    split_and!; [done|by exists output, decision|]. destruct Hretry as [(_ & Hstrict & Hby)|(action & ctx & d & ? & ? & _)].
    + right. split; [done|]. rewrite Hbypass in Hby. cbn [setup_already_approved run_setup setup] in Hby. unfold should_bypass_approval in Hby.
      destruct already; [left; by apply Happroved|right]. by destruct (turn_approval_policy turn).
    + left. by exists action, ctx, d.
Qed.

(** C7: The sandbox is left only with grounds.  If the policy of the call
    denies reading some places, every attempt asks for the sandbox its
    permissions need.  An attempt that needs one runs without only if nothing
    is denied, and if a rule allows it, the call asked for escalated
    permissions, or the sandbox denied an attempt before.  The permissions of
    an attempt are those of the environment, or those of an escalation that
    was asked for and approved, which keeps, on POSIX paths, what the
    environment denies. *)
Theorem sandbox_left_with_grounds {PathUri Changes Out Output Spec Proxy Exe}
    `{!UriOps PathUri, !UriLaws PathUri, !UriChildLaws PathUri, !UriNativeLaws PathUri} (os : TargetOs)
    (try_new_matcher : FileSystemSandboxPolicy PathUri → FileSystemSandboxPolicyContext PathUri → result rstr (option (PathUri → bool)))
    (spec_additional_permissions : Spec → option (AdditionalPermissionProfile PathUri))
    (tool : ToolRuntime PathUri Changes Spec) (env : TurnEnvironment PathUri) (turn : TurnContext Exe)
    (t1 t2 : list (event PathUri Changes Out Output Spec Proxy Exe)) (attempt : SandboxAttempt PathUri Proxy Exe)
    (answer : result (ToolError Output NetworkPolicyDecisionPayload) Out) r
    (Hrun : runs (run os try_new_matcher spec_additional_permissions tool env turn) (t1 ++ Ran attempt answer :: t2) r) :
  let p := file_system_sandbox_policy (environment_permissions tool env) in
  let needed := should_sandbox os (attempt_permissions attempt) (tool_sandbox_preference tool)
                  (managed_network_active spec_additional_permissions tool env turn) in
  (has_denied_read_restrictions os p = true → sandbox_requested attempt = needed) ∧
  (sandbox_requested attempt = false → needed = true →
     has_denied_read_restrictions os p = false ∧
     ((∃ amendment, orchestrator_requirement tool turn p = Skip true amendment) ∨
      requires_escalated_permissions (tool_sandbox_permissions tool) = true ∨
      ∃ output decision, denied_before t1 output decision)) ∧
  (attempt_permissions attempt = environment_permissions tool env ∨
   requires_escalated_permissions (tool_sandbox_permissions tool) = true ∧ approved_first t1 ∧
   (uses_executor_managed_process_sandbox tool = false → ran t1 = [] → sandbox attempt ≠ NoSandbox) ∧
   ∀ path, posix_context (env_context env) path →
     denied (file_system_sandbox_policy (env_permission_profile env)) (env_context env) path →
     resolve_access (file_system_sandbox_policy (attempt_permissions attempt)) path (env_context env) = Deny).
Proof.
  intros p needed. apply run_runs in Hrun.
  destruct (run_split _ _ _ _ _ _ _ _ _ _ _ _ Hrun eq_refl) as (already & [Hreq Hfirst] & Hnative & Hattempt).
  set (s := run_setup os try_new_matcher tool env turn already) in *.
  assert (setup_policy s = p) as Hp by done.
  assert (attempt_permissions attempt = setup_initial_permissions s) as Hperm
    by (destruct Hattempt as [[_ (na & ->)]|(_ & (na & ->) & _)]; done).
  assert (needed = needs_sandbox os spec_additional_permissions tool env turn s) as Hneeded by (unfold needed; by rewrite Hperm).
  assert (sandbox_requested attempt = match setup_override s with BypassSandboxFirstAttempt => false | _ => needed end ∧
      (first_attempt os spec_additional_permissions tool env turn s t1 attempt) ∨
    sandbox_requested attempt = negb (unsandboxed_execution_allowed os p) && needed ∧ ∃ output decision, denied_before t1 output decision) as Hrequested.
  { rewrite Hneeded. destruct Hattempt as [[Hran (na & ->)]|(_ & (na & ->) & output & decision & network & ? & _)]; [left|right].
    - split; [done|]. split; [done|by exists na].
    - split; [done|by exists output, decision]. }
  unfold unsandboxed_execution_allowed in Hrequested. split_and!.
  - intros Hden. destruct Hrequested as [[-> _]|[-> _]]; [|by rewrite Hden].
    destruct (setup_override s) eqn:Hover; [done..|]. apply bypass_override in Hover as [Hallowed _].
    fold s in Hallowed. unfold unsandboxed_execution_allowed in Hallowed. by rewrite Hp, Hden in Hallowed.
  - intros Hnot Hneed. rewrite Hneed in Hrequested. destruct Hrequested as [[Hr _]|[Hr Hd]]; rewrite Hnot in Hr.
    + destruct (setup_override s) eqn:Hover; [done..|]. apply bypass_override in Hover as [Hallowed Hgrounds].
      fold s in Hallowed, Hgrounds. rewrite Hp in Hallowed, Hgrounds. apply negb_true_iff in Hallowed. split; [done|].
      destruct Hgrounds; [by left|by right; left].
    + split; [by destruct (has_denied_read_restrictions os p)|by right; right].
  - rewrite Hperm. destruct (initial_permissions os try_new_matcher tool env turn already) as [H|[Hover Hdenied]]; [by left|right].
    fold s in Hover, Hdenied. destruct (escalated_override _ _ _ _ _ _ Hover) as (_ & Hesc & Hal). split_and!; [done| | |done].
    + destruct (Hfirst Hal) as (action & ctx & d & ? & ?). by exists action, ctx, d.
    + intros Hman Hran. destruct Hattempt as [[_ (na & ->)]|(_ & (na & ->) & _)]; [by apply Hnative|].
      specialize (Hnative Hman Hover). revert Hnative. unfold initial_attempt, retry_attempt, attempt_of. cbn [sandbox with_proxy].
      rewrite Hman, Hover. destruct (escalated_override _ _ _ _ _ _ Hover) as (Hun & _ & _). fold s in Hun. rewrite Hun.
      cbn [negb andb]. done.
Qed.

(** C8: No network approval is left open: when one is opened for an attempt,
    the tool runs next, behind its proxy; if the tool fails, the approval is
    closed before anything else happens, and if it succeeds, the run ends and
    hands the approval over to be closed later. *)
Theorem network_approvals_closed {PathUri Changes Out Output Spec Proxy Exe} `{!UriOps PathUri} (os : TargetOs)
    (try_new_matcher : FileSystemSandboxPolicy PathUri → FileSystemSandboxPolicyContext PathUri → result rstr (option (PathUri → bool)))
    (spec_additional_permissions : Spec → option (AdditionalPermissionProfile PathUri))
    (tool : ToolRuntime PathUri Changes Spec) (env : TurnEnvironment PathUri) (turn : TurnContext Exe)
    (t1 t2 : list (event PathUri Changes Out Output Spec Proxy Exe)) managed spec (na : ActiveNetworkApproval Proxy) r
    (Hrun : runs (run os try_new_matcher spec_additional_permissions tool env turn) (t1 ++ Began managed spec (Ok (Some na)) :: t2) r) :
  ∃ attempt answer t3, t2 = Ran attempt answer :: t3 ∧ network_proxy attempt = Some (execution_proxy na) ∧
    match answer with
    | Ok out => t3 = [] ∧ r = Ok (out, into_deferred na)
    | Err _ => ∃ finished t4, t3 = Finished (into_deferred na) finished :: t4
    end.
Proof.
  apply run_runs in Hrun. enough (closes (t1 ++ Began managed spec (Ok (Some na)) :: t2) r) as Hc by by apply (Hc t1 managed spec na t2).
  assert (∀ t : list (event PathUri Changes Out Output Spec Proxy Exe), quiet t →
    ∀ t1 managed spec na t2, t = t1 ++ Began managed spec (Ok (Some na)) :: t2 → False) as Hquiet by by (intros; eapply quiet_open).
  destruct Hrun as [t err Hq _|t already t' r Hq _ _ _ Hboth]; [intros s1 m sp n s2 Heq; by destruct (Hquiet _ Hq _ _ _ _ _ Heq)|].
  apply closes_before; [by apply Hquiet|].
  destruct Hboth as [t0 res d H|t0 output decision d network ta err H _ Hta|t0 output decision d network ta t'' res d' H _ Hta _ _ H'].
  - by apply attempt_closes in H.
  - eapply closes_failed; [exact (attempt_closes _ _ _ _ _ H)|].
    intros s1 m sp n s2 Heq. by destruct (Hquiet _ Hta _ _ _ _ _ Heq).
  - eapply closes_failed; [exact (attempt_closes _ _ _ _ _ H)|]. apply closes_before; [by apply Hquiet|].
    by apply attempt_closes in H'.
Qed.

(** C23: Every run returns: whatever the world answers, the run does at most
    nine things and ends with a result; it succeeds exactly when the tool
    does, with the output of its last run, which is the last thing that
    happens. *)
Theorem run_returns {PathUri Changes Out Output Spec Proxy Exe} `{!UriOps PathUri} (os : TargetOs)
    (try_new_matcher : FileSystemSandboxPolicy PathUri → FileSystemSandboxPolicyContext PathUri → result rstr (option (PathUri → bool)))
    (spec_additional_permissions : Spec → option (AdditionalPermissionProfile PathUri))
    (tool : ToolRuntime PathUri Changes Spec) (env : TurnEnvironment PathUri) (turn : TurnContext Exe)
    (w : World PathUri Changes Out Output Spec Proxy Exe) :
  let program := run os try_new_matcher spec_additional_permissions tool env turn in
  let t := (play w [] program).1 in let r := (play w [] program).2 in
  runs program t r ∧ length t ≤ 9 ∧
  (∀ t1 attempt out t2, t = t1 ++ Ran attempt (Ok out) :: t2 → t2 = [] ∧ ∃ deferred, r = Ok (out, deferred)) ∧
  (∀ out deferred, r = Ok (out, deferred) → ∃ t1 attempt, t = t1 ++ [Ran attempt (Ok out)]).
Proof.
  intros program t r. assert (runs program t r) as Hrun by apply play_runs. split; [done|].
  apply run_runs in Hrun. destruct (whole_run_success _ _ _ _ _ _ _ _ Hrun) as [[H1 H2] Hlen]. by split_and!.
Qed.

(** ** Examples *)

#[local] Existing Instance names_ops.
#[local] Existing Instance names_laws.
#[local] Existing Instance names_child_laws.
#[local] Existing Instance names_native_laws.

Local Abbreviation DemoError := (ToolError unit NetworkPolicyDecisionPayload).
Local Abbreviation DemoEvent := (event (list rstr) unit nat unit unit unit unit).

Definition demo_action : ApprovalAction (list rstr) (AdditionalPermissionProfile (list rstr)) unit :=
  ExecCommand [] [$"make"] [$"w"] false RequireEscalated None.

(** A command that asks to leave the sandbox, where reading a directory is
    denied. *)
Definition demo_tool : ToolRuntime (list rstr) unit unit :=
  unified_exec_tool RequireEscalated (NeedsApproval None None) demo_action false None [$"w"].
Definition demo_environment : TurnEnvironment (list rstr) :=
  mkEnvironment (Managed (ManagedRestricted [new_entry (Special Root) Read; new_entry (Path [$"w"; $"secret"]) Deny] None)
    NetworkRestricted) demo_context false None NoSandbox SandboxDisabled false.
Definition demo_turn : TurnContext unit := mkTurn OnRequest false None false None None.

(** The user approves, and the tool works the second time it is run. *)
Definition demo_world : World (list rstr) unit nat unit unit unit unit :=
  mkWorld (λ _ _ _, Ok Approved) (λ _, Err []) (λ _ _ _, Ok (Some (mkActive (Some ($"id")) tt)))
    (λ h _, match ran h with [] => Err (Codex (SandboxDenied tt None)) | _ => Ok 7 end) (λ _ _, Ok tt).

Definition demo_program := run (Out := nat) (Output := unit) (Proxy := unit) Linux (λ _ _, Ok None) (λ _ : unit, None) demo_tool demo_environment demo_turn.
Definition demo_trace : list DemoEvent := (play demo_world [] demo_program).1.

Lemma demo_runs : runs demo_program demo_trace (play demo_world [] demo_program).2.
Proof. apply play_runs. Qed.

Lemma demo_split : ∃ attempt answer, demo_trace = take 2 demo_trace ++ Ran attempt answer :: drop 3 demo_trace.
Proof. eexists _, _. vm_compute. reflexivity. Qed.

Lemma demo_split_open : ∃ managed na, demo_trace = take 1 demo_trace ++ Began managed None (Ok (Some na)) :: drop 2 demo_trace.
Proof. eexists _, _. vm_compute. reflexivity. Qed.

Lemma tool_runs_with_consent_witness : approved_first (take 2 demo_trace) ∧ ran (take 2 demo_trace) = [].
Proof.
  destruct demo_split as (attempt & answer & Ht). pose proof demo_runs as Hrun. rewrite Ht in Hrun.
  destruct (tool_runs_with_consent Linux _ _ demo_tool demo_environment demo_turn _ _ attempt answer _ (λ _ _, eq_refl) Hrun)
    as (_ & [Happroved|[(bypass & amendment & Hskip) _]] & _); [|discriminate Hskip].
  split; [exact Happroved|reflexivity].
Defined.

Lemma sandbox_left_with_grounds_witness : ∃ attempt answer t1 t2, demo_trace = t1 ++ Ran attempt answer :: t2 ∧
  sandbox_requested attempt = should_sandbox Linux (attempt_permissions attempt) Auto false.
Proof.
  destruct demo_split as (attempt & answer & Ht). exists attempt, answer, (take 2 demo_trace), (drop 3 demo_trace).
  split; [exact Ht|]. pose proof demo_runs as Hrun. rewrite Ht in Hrun.
  destruct (sandbox_left_with_grounds Linux _ _ demo_tool demo_environment demo_turn _ _ attempt answer _ Hrun) as (Hkept & _ & _).
  apply Hkept. vm_compute. reflexivity.
Defined.

Lemma network_approvals_closed_witness : ∃ t1 managed na attempt err t3,
  demo_trace = t1 ++ Began managed None (Ok (Some na)) :: Ran attempt (Err err) :: t3 ∧
  ∃ finished t4, t3 = Finished (into_deferred na) finished :: t4.
Proof.
  destruct demo_split_open as (managed & na & Ht). pose proof demo_runs as Hrun. rewrite Ht in Hrun.
  destruct (network_approvals_closed Linux _ _ demo_tool demo_environment demo_turn _ _ managed None na _ Hrun)
    as (attempt & [out|err] & t3 & Ht2 & _ & Hclosed).
  - destruct Hclosed as [_ Hr]. vm_compute in Hr. discriminate Hr.
  - exists (take 1 demo_trace), managed, na, attempt, err, t3. split; [rewrite Ht at 1; rewrite Ht2; reflexivity|exact Hclosed].
Defined.
