(* ===== verification/IpAddr.v ===== *)
(** * IP addresses

    The part of [std::net] the network policy uses: addresses, their
    classification and their text forms.  An [Ipv4Addr] is its 32-bit number,
    an [Ipv6Addr] its 128-bit number.  The parser follows [std::net::parser]:
    every reader gives the value it read with the text that is left. *)

From S2P Require Import Prelude RustStr.
From S2P Require Url.
Import Url(hex_value).

Abbreviation Ipv4Addr := N (only parsing).
Abbreviation Ipv6Addr := N (only parsing).

Inductive IpAddr :=
| V4 (ip : Ipv4Addr)
| V6 (ip : Ipv6Addr).

#[global] Instance IpAddr_eq_dec : EqDecision IpAddr.
Proof. solve_decision. Defined.

(** [Ipv4Addr::from([a, b, c, d])] and [Ipv6Addr::from(segments)]: the parts
    of the number, the most significant first. *)
Definition of_digits (w : N) (l : list N) : N := foldl (λ n d, n * 2 ^ w + d)%N 0%N l.
Definition octets (a b c d : N) : Ipv4Addr := of_digits 8 [a; b; c; d].
Definition from_segments (l : list N) : Ipv6Addr := of_digits 16 l.

Definition octet (ip : Ipv4Addr) (i : N) : N := (N.shiftr ip (24 - 8 * i) mod 256)%N.
Definition segment (ip : Ipv6Addr) (i : N) : N := (N.shiftr ip (112 - 16 * i) mod 65536)%N.

(** ** Classification of IPv4 addresses *)

Definition LOCALHOST4 : Ipv4Addr := octets 127 0 0 1.
Definition BROADCAST4 : Ipv4Addr := octets 255 255 255 255.

Definition v4_is_loopback (ip : Ipv4Addr) : bool := (octet ip 0 =? 127)%N.
Definition v4_is_private (ip : Ipv4Addr) : bool :=
  ((octet ip 0 =? 10) || (octet ip 0 =? 172) && ((16 <=? octet ip 1) && (octet ip 1 <=? 31))
   || (octet ip 0 =? 192) && (octet ip 1 =? 168))%N.
Definition v4_is_link_local (ip : Ipv4Addr) : bool := ((octet ip 0 =? 169) && (octet ip 1 =? 254))%N.
Definition v4_is_unspecified (ip : Ipv4Addr) : bool := (ip =? 0)%N.
Definition v4_is_multicast (ip : Ipv4Addr) : bool := ((224 <=? octet ip 0) && (octet ip 0 <=? 239))%N.
Definition v4_is_broadcast (ip : Ipv4Addr) : bool := (ip =? BROADCAST4)%N.

(** ** Classification of IPv6 addresses *)

Definition LOCALHOST6 : Ipv6Addr := 1%N.

Definition to_ipv4 (ip : Ipv6Addr) : option Ipv4Addr :=
  let high := N.shiftr ip 32 in
  if ((high =? 0) || (high =? 0xffff))%N then Some (ip mod 2 ^ 32)%N else None.
Definition v6_is_loopback (ip : Ipv6Addr) : bool := (ip =? LOCALHOST6)%N.
Definition v6_is_unspecified (ip : Ipv6Addr) : bool := (ip =? 0)%N.
Definition v6_is_multicast (ip : Ipv6Addr) : bool := (N.land (segment ip 0) 0xff00 =? 0xff00)%N.
Definition v6_is_unique_local (ip : Ipv6Addr) : bool := (N.land (segment ip 0) 0xfe00 =? 0xfc00)%N.
Definition v6_is_unicast_link_local (ip : Ipv6Addr) : bool := (N.land (segment ip 0) 0xffc0 =? 0xfe80)%N.

Definition is_loopback (ip : IpAddr) : bool :=
  match ip with V4 ip => v4_is_loopback ip | V6 ip => v6_is_loopback ip end.

(** ** Reading addresses *)

Definition reader (T : Type) : Type := rstr → option (T * rstr).

Definition read_given_char (c : char) : reader () := λ s,
  match s with
  | x :: s' => if decide (x = c) then Some ((), s') else None
  | [] => None
  end.

(** [char::to_digit] for the radixes 10 and 16. *)
Definition to_digit (radix : N) (c : char) : option N :=
  v ← hex_value c; if (v <? radix)%N then Some v else None.

(** The digits at the start of the text, at most [max] of them; [None] when
    there is one more. *)
Fixpoint read_digits (radix : N) (max : nat) (acc : N) (count : nat) (s : rstr) : option (N * nat * rstr) :=
  match s with
  | c :: s' =>
      match to_digit radix c with
      | Some d =>
          match max with
          | O => None
          | S max => read_digits radix max (acc * radix + d)%N (S count) s'
          end
      | None => Some (acc, count, s)
      end
  | [] => Some (acc, count, s)
  end.

(** [bound] is what fits the type of the number. *)
Definition read_number (radix : N) (max_digits : nat) (allow_zero_prefix : bool) (bound : N) : reader N := λ s,
  let has_leading_zero := bool_decide (head s = Some 48%N) in
  '(v, count, s') ← read_digits radix max_digits 0 0 s;
  if bool_decide (count = 0%nat) then None
  else if negb allow_zero_prefix && has_leading_zero && (1 <? count)%nat then None
  else if (v <? bound)%N then Some (v, s') else None.

Definition read_separator {T} (sep : char) (index : nat) (inner : reader T) : reader T := λ s,
  match index with
  | O => inner s
  | S _ => '(_, s') ← read_given_char sep s; inner s'
  end.

Definition read_octet (i : nat) : reader N := read_separator DOT i (read_number 10 3 false 256).

Definition read_ipv4_addr : reader Ipv4Addr := λ s,
  '(a, s) ← read_octet 0 s; '(b, s) ← read_octet 1 s; '(c, s) ← read_octet 2 s; '(d, s) ← read_octet 3 s;
  Some (octets a b c d, s).

Definition COLON : char := 58%N.

(** [read_groups] on the last [left] of the [i + left] slots: the groups read,
    whether they end with an IPv4 address, and the text that is left. *)
Fixpoint read_groups (i left : nat) (s : rstr) : list N * bool * rstr :=
  match left with
  | O => ([], false, s)
  | S left' =>
      let group :=
        match read_separator COLON i (read_number 16 4 true 65536) s with
        | Some (g, s') => let '(gs, v4, s'') := read_groups (S i) left' s' in (g :: gs, v4, s'')
        | None => ([], false, s)
        end in
      match left' with
      | O => group
      | S _ =>
          match read_separator COLON i read_ipv4_addr s with
          | Some (ip, s') => ([N.shiftr ip 16; (ip mod 65536)%N], true, s')
          | None => group
          end
      end
  end.

Definition read_ipv6_addr : reader Ipv6Addr := λ s,
  let '(head, head_ipv4, s) := read_groups 0 8 s in
  if bool_decide (length head = 8) then Some (from_segments head, s)
  else if head_ipv4 then None
  else
    '(_, s) ← read_given_char COLON s; '(_, s) ← read_given_char COLON s;
    let limit := 8 - (length head + 1) in
    let '(tail, _, s) := read_groups 0 limit s in
    Some (from_segments (head ++ replicate (8 - length head - length tail) 0%N ++ tail), s).

(** [str::parse::<IpAddr>]: an address and nothing after it. *)
Definition parse_ip (s : rstr) : option IpAddr :=
  let read := match read_ipv4_addr s with
              | Some (ip, s') => Some (V4 ip, s')
              | None => '(ip, s') ← read_ipv6_addr s; Some (V6 ip, s')
              end in
  '(ip, rest) ← read;
  match rest with [] => Some ip | _ => None end.

Example parse_ip_examples :
  parse_ip ($"127.0.0.1") = Some (V4 0x7f000001) ∧ parse_ip ($"127.0.0.01") = None ∧ parse_ip ($"1.2.3") = None
  ∧ parse_ip ($"1.2.3.256") = None ∧ parse_ip ($"::") = Some (V6 0) ∧ parse_ip ($"::1") = Some (V6 1)
  ∧ parse_ip ($"fe80::1%eth0") = None ∧ parse_ip ($"[::1]") = None
  ∧ parse_ip ($"::ffff:10.0.0.1") = Some (V6 0xffff0a000001)
  ∧ parse_ip ($"1:2:3:4:5:6:7:8") = Some (V6 0x00010002000300040005000600070008)
  ∧ parse_ip ($"1:2:3:4:5:6:7::") = Some (V6 0x00010002000300040005000600070000)
  ∧ parse_ip ($"1::2:3:4:5:6:7:8") = None ∧ parse_ip ($"2001:DB8::A:0") = Some (V6 0x20010db80000000000000000000a0000).
Proof. by vm_compute. Qed.
