(* ===== verification/NetPolicy.v ===== *)
(** * Hosts and domain patterns of the network proxy

    [network-proxy/src/policy.rs]: which addresses are not public, how the
    text of a host is normalised, and the patterns of the allow and the deny
    list.  The crates behind them, [globset] and the host parser of [url], are
    classes of operations with the laws their documentation states; a set of
    globs matches what one of its globs matches.

    Byte positions of ASCII delimiters are character positions here. *)

From S2P Require Import Prelude RustStr IpAddr.

(** ** Addresses *)

Definition ipv4_in_cidr (ip base : Ipv4Addr) (prefix : N) : bool :=
  let mask := if (prefix =? 0)%N then 0%N else (N.shiftl (2 ^ 32 - 1) (32 - prefix) mod 2 ^ 32)%N in
  (N.land ip mask =? N.land base mask)%N.

Definition is_non_public_ipv4 (ip : Ipv4Addr) : bool :=
  v4_is_loopback ip
  || v4_is_private ip
  || v4_is_link_local ip
  || v4_is_unspecified ip
  || v4_is_multicast ip
  || v4_is_broadcast ip
  || ipv4_in_cidr ip (octets 0 0 0 0) 8
  || ipv4_in_cidr ip (octets 100 64 0 0) 10
  || ipv4_in_cidr ip (octets 192 0 0 0) 24
  || ipv4_in_cidr ip (octets 192 0 2 0) 24
  || ipv4_in_cidr ip (octets 198 18 0 0) 15
  || ipv4_in_cidr ip (octets 198 51 100 0) 24
  || ipv4_in_cidr ip (octets 203 0 113 0) 24
  || ipv4_in_cidr ip (octets 240 0 0 0) 4.

Definition is_non_public_ipv6 (ip : Ipv6Addr) : bool :=
  match to_ipv4 ip with
  | Some v4 => is_non_public_ipv4 v4 || v6_is_loopback ip
  | None =>
      v6_is_loopback ip
      || v6_is_unspecified ip
      || v6_is_multicast ip
      || v6_is_unique_local ip
      || v6_is_unicast_link_local ip
  end.

Definition is_non_public_ip (ip : IpAddr) : bool :=
  match ip with
  | V4 ip => is_non_public_ipv4 ip
  | V6 ip => is_non_public_ipv6 ip
  end.

Definition is_private_network_ip (ip : IpAddr) : bool :=
  let v4 ip := v4_is_private ip || ipv4_in_cidr ip (octets 100 64 0 0) 10 in
  match ip with
  | V4 ip => v4 ip
  | V6 ip => match to_ipv4 ip with Some ip => v4 ip | None => v6_is_unique_local ip end
  end.

(** ** Hosts *)

Definition LBRACKET : char := 91%N.
Definition RBRACKET : char := 93%N.
Definition PERCENT : char := 37%N.
Definition STAR : char := 42%N.
Definition QUESTION : char := 63%N.

Definition is_ip_text (s : rstr) : bool := match parse_ip s with Some _ => true | None => false end.

Definition unscoped_ip_literal (host : rstr) : option rstr :=
  '(ip, _) ← split_once [PERCENT] host;
  if is_ip_text ip then Some ip else None.

Definition scoped_literal (delimiter host : rstr) : option rstr :=
  '(ip, scope) ← split_once delimiter host;
  if is_ip_text ip then Some (ip ++ [PERCENT] ++ scope) else None.
Definition normalize_ip_literal (host : rstr) : option rstr :=
  if is_ip_text host then Some host
  else find_map (λ delimiter, scoped_literal delimiter host) [$"%25"; $"%"].

Definition trim_end_dots (s : rstr) : rstr := trim_end_matches (N.eqb DOT) s.

Definition normalize_dns_host_or_ip_literal (host : rstr) : rstr :=
  let host := trim_end_dots (to_ascii_lowercase host) in
  default host (normalize_ip_literal host).

Definition count_char (c : char) (s : rstr) : nat := length (List.filter (N.eqb c) s).

Definition normalize_host (host : rstr) : rstr :=
  let host := trim host in
  match (if starts_with [LBRACKET] host then find [RBRACKET] host else None) with
  | Some end_ => normalize_dns_host_or_ip_literal (drop 1 (take end_ host))
  | None =>
      if bool_decide (count_char COLON host = 1%nat) then
        normalize_dns_host_or_ip_literal (default [] (head (split_char COLON host)))
      else normalize_dns_host_or_ip_literal host
  end.

(** A [Host] is its normalised text. *)
Definition Host_parse (input : rstr) : option rstr :=
  let normalized := normalize_host input in
  if is_empty normalized then None else Some normalized.

Definition is_loopback_host (host : rstr) : bool :=
  let host := default host (unscoped_ip_literal host) in
  bool_decide (host = $"localhost")
  || match parse_ip host with Some ip => is_loopback ip | None => false end.

Definition is_default_proxy_bypass_host (host : rstr) : bool :=
  let host := normalize_host host in
  match parse_ip host with
  | Some (V4 ip) => (ip =? LOCALHOST4)%N || v4_is_private ip
  | Some (V6 ip) => (ip =? LOCALHOST6)%N
  | None => bool_decide (host = $"localhost") || ends_with ($".localhost") host
  end.

(** ** Patterns *)

Definition APEX : rstr := $"**.".
Definition SUBDOMAINS : rstr := $"*.".

Definition normalize_pattern (pattern : rstr) : rstr :=
  let pattern := trim pattern in
  if bool_decide (pattern = [STAR]) then [STAR]
  else
    let '(prefix, remainder) :=
      match strip_prefix APEX pattern with
      | Some domain => (APEX, domain)
      | None => match strip_prefix SUBDOMAINS pattern with
                | Some domain => (SUBDOMAINS, domain)
                | None => ([], pattern)
                end
      end in
    let remainder := normalize_host remainder in
    if is_empty prefix then remainder else prefix ++ remainder.

Inductive DomainPattern :=
| ApexAndSubdomains (domain : rstr)
| SubdomainsOnly (domain : rstr)
| Exact (domain : rstr).

Definition parse_domain (domain : rstr) (build : rstr → DomainPattern) : DomainPattern :=
  let domain := trim domain in
  if is_empty domain then Exact [] else build domain.

Definition DomainPattern_parse (input : rstr) : DomainPattern :=
  let input := trim input in
  if is_empty input then Exact []
  else match strip_prefix APEX input with
       | Some domain => parse_domain domain ApexAndSubdomains
       | None => match strip_prefix SUBDOMAINS input with
                 | Some domain => parse_domain domain SubdomainsOnly
                 | None => Exact input
                 end
       end.

Definition expand_domain_pattern (pattern : rstr) : list rstr :=
  match DomainPattern_parse pattern with
  | Exact domain => [domain]
  | SubdomainsOnly domain => [$"?*." ++ domain]
  | ApexAndSubdomains domain => [domain; $"?*." ++ domain]
  end.

Definition is_global_wildcard_domain_pattern (pattern : rstr) : bool :=
  existsb (λ candidate, bool_decide (candidate = [STAR])) (expand_domain_pattern (normalize_pattern pattern)).

(** *** Comparing patterns *)

Definition normalize_domain (domain : rstr) : rstr := to_ascii_lowercase (trim_end_dots domain).
Definition domain_eq (left_ right_ : rstr) : bool := bool_decide (normalize_domain left_ = normalize_domain right_).
Definition is_subdomain_or_equal (child parent : rstr) : bool :=
  let child := normalize_domain child in
  let parent := normalize_domain parent in
  bool_decide (child = parent) || ends_with ([DOT] ++ parent) child.
Definition is_strict_subdomain (child parent : rstr) : bool :=
  let child := normalize_domain child in
  let parent := normalize_domain parent in
  bool_decide (child ≠ parent) && ends_with ([DOT] ++ parent) child.

Definition allows (self candidate : DomainPattern) : bool :=
  match self with
  | Exact domain => match candidate with Exact candidate => domain_eq candidate domain | _ => false end
  | SubdomainsOnly domain =>
      match candidate with
      | Exact candidate => is_strict_subdomain candidate domain
      | SubdomainsOnly candidate => is_subdomain_or_equal candidate domain
      | ApexAndSubdomains candidate => is_strict_subdomain candidate domain
      end
  | ApexAndSubdomains domain =>
      match candidate with
      | Exact candidate | SubdomainsOnly candidate | ApexAndSubdomains candidate =>
          is_subdomain_or_equal candidate domain
      end
  end.

(** [url::Host::parse] followed by [to_string]. *)
Class UrlHost := url_host_parse : rstr → option rstr.

Section constraints.
Context `{!UrlHost}.

Definition parse_domain_for_constraints (domain : rstr) : rstr :=
  let domain := trim_end_dots (trim domain) in
  if is_empty domain then []
  else
    let host := if starts_with [LBRACKET] domain && ends_with [RBRACKET] domain
                then drop 1 (take (length domain - 1) domain) else domain in
    if contains [STAR] host || contains [QUESTION] host || contains [PERCENT] host then domain
    else default [] (url_host_parse host).

Definition parse_for_constraints (input : rstr) : DomainPattern :=
  let input := trim input in
  if is_empty input then Exact []
  else match strip_prefix APEX input with
       | Some domain => ApexAndSubdomains (parse_domain_for_constraints domain)
       | None => match strip_prefix SUBDOMAINS input with
                 | Some domain => SubdomainsOnly (parse_domain_for_constraints domain)
                 | None => Exact (parse_domain_for_constraints input)
                 end
       end.

End constraints.

(** ** Glob sets *)

(** [GlobBuilder::new(pattern).case_insensitive(true).build()],
    [GlobSetBuilder::build] and [GlobSet::is_match]. *)
Class GlobOps := {
  Glob : Type;
  GlobSet : Type;
  glob_build : rstr → result rstr Glob;
  glob_is_match : Glob → rstr → bool;
  globset_build : list Glob → result rstr GlobSet;
  is_match : GlobSet → rstr → bool
}.

Inductive GlobalWildcard := Allow | Reject.

Section globsets.
Context `{!GlobOps}.

(** The loops of [compile_globset_with_policy]: [seen] are the candidates
    so far, [builder] their globs. *)
Fixpoint add_candidates (candidates : list rstr) (seen : list rstr) (builder : list Glob)
    : result rstr (list rstr * list Glob) :=
  match candidates with
  | [] => Ok (seen, builder)
  | candidate :: candidates =>
      if bool_decide (candidate ∈ seen) then add_candidates candidates seen builder
      else
        glob ← map_err (λ _, $"invalid glob pattern: " ++ candidate) (glob_build candidate);
        add_candidates candidates (candidate :: seen) (builder ++ [glob])
  end.

Definition GLOBAL_WILDCARD_ERROR : rstr :=
  $"unsupported global wildcard domain pattern " ++ [DQUOTE; STAR; DQUOTE]
  ++ $"; use exact hosts or scoped wildcards like *.example.com or **.example.com".

Fixpoint add_patterns (patterns : list rstr) (global_wildcard : GlobalWildcard) (seen : list rstr) (builder : list Glob)
    : result rstr (list Glob) :=
  match patterns with
  | [] => Ok builder
  | pattern :: patterns =>
      if (match global_wildcard with Reject => is_global_wildcard_domain_pattern pattern | Allow => false end)
      then Err GLOBAL_WILDCARD_ERROR
      else
        '(seen, builder) ← add_candidates (expand_domain_pattern (normalize_pattern pattern)) seen builder;
        add_patterns patterns global_wildcard seen builder
  end.

Definition compile_globset_with_policy (patterns : list rstr) (global_wildcard : GlobalWildcard) : result rstr GlobSet :=
  builder ← add_patterns patterns global_wildcard [] [];
  globset_build builder.
Definition compile_allowlist_globset (patterns : list rstr) : result rstr GlobSet :=
  compile_globset_with_policy patterns Allow.
Definition compile_denylist_globset (patterns : list rstr) : result rstr GlobSet :=
  compile_globset_with_policy patterns Reject.

(** [globset_matches_host_or_unscoped] of [runtime.rs]. *)
Definition globset_matches_host_or_unscoped (set : GlobSet) (host : rstr) : bool :=
  is_match set host || is_some_and (is_match set) (unscoped_ip_literal host).

End globsets.

(** *** What the crates document *)

(** Patterns without classes, alternatives and escapes: a question mark is
    any one character, a star any number of them, everything else itself
    without regard to case. *)
Fixpoint wild_match (p : rstr) : rstr → bool :=
  match p with
  | [] => is_empty
  | c :: p' =>
      if bool_decide (c = STAR) then
        fix star (s : rstr) : bool := wild_match p' s || match s with [] => false | _ :: s' => star s' end
      else λ s, match s with
                | [] => false
                | x :: s' =>
                    (bool_decide (c = QUESTION)
                     || bool_decide (to_ascii_lowercase_char c = to_ascii_lowercase_char x)) && wild_match p' s'
                end
  end.

Definition ldh (c : char) : bool := is_ascii_digit c || is_ascii_alphabetic c || bool_decide (c = MINUS).
Definition pattern_char (c : char) : bool :=
  ldh c || bool_decide (c = DOT) || bool_decide (c = STAR) || bool_decide (c = QUESTION).
Definition ascii_char (c : char) : bool := (c <? 128)%N.

Class GlobLaws `{!GlobOps} : Prop := {
  glob_build_plain p : forallb pattern_char p = true → is_ok (glob_build p) = true;
  glob_is_match_plain p g s : forallb pattern_char p = true → forallb ascii_char s = true →
    glob_build p = Ok g → glob_is_match g s = wild_match p s;
  globset_is_match gs set s : globset_build gs = Ok set → is_match set s = existsb (λ g, glob_is_match g s) gs
}.

(** Letters, digits and hyphens in labels that are not empty and not
    punycode, the last of which starts with a letter: a name the host parser
    only changes the case of. *)
Definition simple_label (l : rstr) : bool :=
  negb (is_empty l) && forallb ldh l && negb (starts_with ($"xn--") (to_ascii_lowercase l)).
Definition simple_last (l : rstr) : bool :=
  match l with c :: _ => is_ascii_alphabetic c | [] => false end.
Definition simple_domain (s : rstr) : bool :=
  let labels := split_char DOT s in
  forallb simple_label labels && is_some_and simple_last (last labels).

(** The dotted text of an IPv4 address. *)
Definition ipv4_text (s : rstr) : bool := match parse_ip s with Some (V4 _) => true | _ => false end.

Class UrlHostLaws `{!UrlHost} : Prop := {
  url_host_simple s : simple_domain s = true → url_host_parse s = Some (to_ascii_lowercase s);
  url_host_ipv4 s : simple_domain s = false → ipv4_text s = true → url_host_parse s = Some s
}.
