(* ===== verification/IpAddrFacts.v ===== *)
(** * The addresses that are not public

    The bit tests and comparisons of [is_non_public_ip] against a table of
    address blocks. *)

From Stdlib Require Import Lia.
From S2P Require Import Prelude RustStr IpAddr NetPolicy.

(** ** Blocks of addresses

    A block is its first address and the length of its prefix. *)

Definition in_block (w : N) (block : N * N) (ip : N) : bool :=
  let '(base, len) := block in ((base <=? ip) && (ip <? base + 2 ^ (w - len)))%N.

Definition non_public_ipv4_blocks : list (N * N) :=
  [(octets 0 0 0 0, 8); (octets 10 0 0 0, 8); (octets 100 64 0 0, 10); (octets 127 0 0 0, 8); (octets 169 254 0 0, 16);
   (octets 172 16 0 0, 12); (octets 192 0 0 0, 24); (octets 192 0 2 0, 24); (octets 192 168 0 0, 16);
   (octets 198 18 0 0, 15); (octets 198 51 100 0, 24); (octets 203 0 113 0, 24); (octets 224 0 0 0, 4);
   (octets 240 0 0 0, 4)]%N.


Definition non_public_ipv6_blocks : list (N * N) :=
  let embed high := List.map (λ '(base, len), (high * 2 ^ 32 + base, 96 + len)%N) non_public_ipv4_blocks in
  [(0xfc00 * 2 ^ 112, 7); (0xfe80 * 2 ^ 112, 10); (0xff00 * 2 ^ 112, 8)]%N ++ embed 0%N ++ embed 0xffff%N.

Definition valid_ip (ip : IpAddr) : Prop := match ip with V4 ip => (ip < 2 ^ 32)%N | V6 ip => (ip < 2 ^ 128)%N end.
Definition non_public_block (ip : IpAddr) : bool :=
  match ip with
  | V4 ip => existsb (λ b, in_block 32 b ip) non_public_ipv4_blocks
  | V6 ip => existsb (λ b, in_block 128 b ip) non_public_ipv6_blocks
  end.

Lemma div_between d lo hi ip : (0 < d)%N →
  ((lo <=? ip / d) && (ip / d <? hi))%N = ((lo * d <=? ip) && (ip <? hi * d))%N.
Proof.
  intros Hd. apply eq_true_iff_eq. rewrite !andb_true_iff, !N.leb_le, !N.ltb_lt.
  pose proof (N.div_mod ip d ltac:(lia)) as H. pose proof (N.mod_lt ip d ltac:(lia)) as H'.
  revert H H'. generalize (ip / d)%N (ip mod d)%N. intros q r -> Hr. split; intros [? ?]; split; nia.
Qed.

(** A mask of the [p] high bits of [w] keeps the high bits. *)
Lemma land_mask w x p : (p ≤ w)%N → (x < 2 ^ w)%N →
  (N.land x (N.shiftl (2 ^ w - 1) (w - p) mod 2 ^ w) = N.shiftl (N.shiftr x (w - p)) (w - p))%N.
Proof.
  intros Hp Hx. apply N.bits_inj. intros i. rewrite N.land_spec.
  destruct (decide (i < w)%N) as [Hi|Hi].
  - rewrite N.mod_pow2_bits_low by done.
    destruct (decide (i < w - p)%N) as [Hk|Hk].
    + rewrite !N.shiftl_spec_low by done. by rewrite andb_false_r.
    + rewrite !N.shiftl_spec_high' by lia. rewrite N.shiftr_spec'.
      replace (i - (w - p) + (w - p))%N with i by lia.
      replace (N.testbit (2 ^ w - 1) (i - (w - p))) with true; [by rewrite andb_true_r|].
      replace (2 ^ w - 1)%N with (N.ones w) by (rewrite N.ones_equiv; lia). symmetry. apply N.ones_spec_low. lia.
  - rewrite N.mod_pow2_bits_high by lia. rewrite andb_false_r.
    rewrite N.shiftl_spec_high' by lia. rewrite N.shiftr_spec'.
    replace (i - (w - p) + (w - p))%N with i by lia.
    destruct (decide (x = 0)%N) as [->|Hz]; [by rewrite N.bits_0|].
    symmetry. apply N.bits_above_log2. apply N.log2_lt_pow2; [lia|].
    eapply N.lt_le_trans; [exact Hx|]. apply N.pow_le_mono_r; lia.
Qed.

(** Masked comparison with an aligned base tests a block. *)
Lemma masked_block w ip q p : (p ≤ w)%N → (ip < 2 ^ w)%N →
  (N.land ip (N.shiftl (2 ^ w - 1) (w - p) mod 2 ^ w) =? q * 2 ^ (w - p))%N = in_block w (q * 2 ^ (w - p), p)%N ip.
Proof.
  intros Hp Hip. unfold in_block. rewrite land_mask by lia. rewrite N.shiftl_mul_pow2, N.shiftr_div_pow2.
  assert (0 < 2 ^ (w - p))%N as Hd by (apply N.neq_0_lt_0, N.pow_nonzero; lia).
  replace (q * 2 ^ (w - p) + 2 ^ (w - p))%N with ((q + 1) * 2 ^ (w - p))%N by lia.
  rewrite <- div_between by done. revert Hd. generalize (2 ^ (w - p))%N. intros d Hd.
  generalize (ip / d)%N. intros a. apply eq_true_iff_eq. rewrite N.eqb_eq, andb_true_iff, N.leb_le, N.ltb_lt. nia.
Qed.

Lemma cidr_block ip base p : (0 < p ≤ 32)%N → (ip < 2 ^ 32)%N → (base < 2 ^ 32)%N →
  base = (base / 2 ^ (32 - p) * 2 ^ (32 - p))%N → ipv4_in_cidr ip base p = in_block 32 (base, p)%N ip.
Proof.
  intros Hp Hip Hb Hq. unfold ipv4_in_cidr. destruct (N.eqb_spec p 0) as [->|_]; [lia|]. cbv zeta.
  rewrite Hq at 2. rewrite <- masked_block by lia. f_equal. rewrite land_mask by lia.
  rewrite N.shiftl_mul_pow2, N.shiftr_div_pow2. done.
Qed.

Lemma octet_0 ip : (ip < 2 ^ 32)%N → octet ip 0 = (ip / 2 ^ 24)%N.
Proof.
  intros H. unfold octet. change (24 - 8 * 0)%N with 24%N. rewrite N.shiftr_div_pow2. apply N.mod_small.
  apply N.Div0.div_lt_upper_bound. exact H.
Qed.
Lemma octet_1 ip : octet ip 1 = ((ip / 2 ^ 16) mod 256)%N.
Proof. unfold octet. change (24 - 8 * 1)%N with 16%N. by rewrite N.shiftr_div_pow2. Qed.



(** The two octets that come first, as one number of 16 bits. *)
Lemma octets_hi ip : (ip < 2 ^ 32)%N → octet ip 0 = (ip / 2 ^ 16 / 256)%N ∧ octet ip 1 = ((ip / 2 ^ 16) mod 256)%N.
Proof.
  intros H. rewrite octet_0, octet_1 by done. split; [|done]. rewrite N.Div0.div_div. done.
Qed.

Lemma in_block_range w base len ip lo hi d : (0 < d)%N → base = (lo * d)%N → (base + 2 ^ (w - len) = hi * d)%N →
  in_block w (base, len) ip = ((lo <=? ip / d) && (ip / d <? hi))%N.
Proof. intros Hd -> H. unfold in_block. rewrite H. symmetry. by apply div_between. Qed.

Ltac block16 := 
  match goal with |- context [in_block 32 (octets ?a ?b 0 0, ?l) ?ip] =>
    rewrite (in_block_range 32 (octets a b 0 0) l ip (a * 256 + b) (a * 256 + b + 2 ^ (16 - l)) (2 ^ 16)) by reflexivity
  end.
Ltac reflect_N := apply eq_true_iff_eq; repeat rewrite ?orb_true_iff, ?andb_true_iff, ?N.eqb_eq, ?N.leb_le, ?N.ltb_lt.
Ltac eval_pows :=
  repeat match goal with |- context [(2 ^ ?b)%N] => let v := eval vm_compute in (2 ^ b)%N in change (2 ^ b)%N with v end.
Ltac by_first_octets :=
  repeat block16; reflect_N;
  match goal with |- context [(?ip / 2 ^ 16)%N] => generalize (ip / 2 ^ 16)%N end;
  intros q; eval_pows;
  pose proof (N.div_mod q 256 ltac:(lia)); pose proof (N.mod_lt q 256 ltac:(lia));
  generalize dependent (q / 256)%N; generalize dependent (q mod 256)%N; intros; lia.

Section first_octets.
Context (ip : N) (Hip : (ip < 2 ^ 32)%N).


Lemma loopback_block : v4_is_loopback ip = in_block 32 (octets 127 0 0 0, 8%N) ip.
Proof. unfold v4_is_loopback. destruct (octets_hi ip Hip) as [-> ?]. by_first_octets. Qed.
Lemma private_blocks : v4_is_private ip =
  in_block 32 (octets 10 0 0 0, 8%N) ip || in_block 32 (octets 172 16 0 0, 12%N) ip
  || in_block 32 (octets 192 168 0 0, 16%N) ip.
Proof. unfold v4_is_private. destruct (octets_hi ip Hip) as [-> ->]. by_first_octets. Qed.
Lemma link_local_block : v4_is_link_local ip = in_block 32 (octets 169 254 0 0, 16%N) ip.
Proof. unfold v4_is_link_local. destruct (octets_hi ip Hip) as [-> ->]. by_first_octets. Qed.
Lemma multicast_block : v4_is_multicast ip = in_block 32 (octets 224 0 0 0, 4%N) ip.
Proof. unfold v4_is_multicast. destruct (octets_hi ip Hip) as [-> ?]. by_first_octets. Qed.
End first_octets.

Lemma non_public_ipv4_spec ip : (ip < 2 ^ 32)%N → is_non_public_ipv4 ip = existsb (λ b, in_block 32 b ip) non_public_ipv4_blocks.
Proof.
  intros H. unfold is_non_public_ipv4.
  rewrite !cidr_block by first [exact H | by vm_compute].
  rewrite loopback_block, private_blocks, link_local_block, multicast_block by done.
  assert (v4_is_unspecified ip = true → in_block 32 (octets 0 0 0 0, 8%N) ip = true) as H1.
  { unfold v4_is_unspecified. rewrite N.eqb_eq. by intros ->. }
  assert (v4_is_broadcast ip = true → in_block 32 (octets 240 0 0 0, 4%N) ip = true) as H2.
  { unfold v4_is_broadcast. rewrite N.eqb_eq. by intros ->. }
  cbv [non_public_ipv4_blocks]. cbn [existsb]. rewrite orb_false_r. apply eq_true_iff_eq. rewrite !orb_true_iff.
  revert H1 H2.
  repeat match goal with |- context [in_block 32 ?b ip] => generalize (in_block 32 b ip); intros ? end.
  generalize (v4_is_unspecified ip) (v4_is_broadcast ip). intros ? ? H1 H2. tauto.
Qed.


(** ** Addresses of IPv6 *)

Lemma embedded_block hi base len ip : (len ≤ 32)%N → (base + 2 ^ (32 - len) ≤ 2 ^ 32)%N →
  in_block 128 (hi * 2 ^ 32 + base, 96 + len)%N ip
  = (N.shiftr ip 32 =? hi)%N && in_block 32 (base, len) (ip mod 2 ^ 32)%N.
Proof.
  intros Hl Hb. unfold in_block. replace (128 - (96 + len))%N with (32 - len)%N by lia.
  rewrite N.shiftr_div_pow2. pose proof (N.div_mod ip (2 ^ 32) ltac:(done)) as H.
  pose proof (N.mod_lt ip (2 ^ 32) ltac:(done)) as H'. revert Hb H H'.
  generalize (ip / 2 ^ 32)%N (ip mod 2 ^ 32)%N (2 ^ (32 - len))%N. change (2 ^ 32)%N with 4294967296%N.
  intros q r d Hb -> Hr. apply eq_true_iff_eq. rewrite !andb_true_iff, N.eqb_eq, !N.leb_le, !N.ltb_lt. lia.
Qed.

Lemma embedded_blocks hi ip :
  existsb (λ b, in_block 128 b ip) (List.map (λ '(base, len), (hi * 2 ^ 32 + base, 96 + len)%N) non_public_ipv4_blocks)
  = (N.shiftr ip 32 =? hi)%N && existsb (λ b, in_block 32 b (ip mod 2 ^ 32)%N) non_public_ipv4_blocks.
Proof.
  assert (Forall (λ '(base, len), (len ≤ 32)%N ∧ (base + 2 ^ (32 - len) ≤ 2 ^ 32)%N) non_public_ipv4_blocks) as H
    by (repeat constructor; vm_compute; done).
  induction H as [|[base len] l [Hl Hb] _ IH]; cbn [existsb List.map]; [by rewrite andb_false_r|].
  by rewrite embedded_block, IH, andb_orb_distrib_r.
Qed.

Lemma segment_0 ip : (ip < 2 ^ 128)%N → segment ip 0 = (ip / 2 ^ 112)%N ∧ (segment ip 0 < 2 ^ 16)%N.
Proof.
  intros H. unfold segment. change (112 - 16 * 0)%N with 112%N. rewrite N.shiftr_div_pow2.
  assert (ip / 2 ^ 112 < 2 ^ 16)%N as Hlt by (apply N.Div0.div_lt_upper_bound; exact H).
  rewrite N.mod_small by done. done.
Qed.

(** The mask of the first segment tests a block of addresses. *)
Lemma segment_block ip q p : (ip < 2 ^ 128)%N → (p ≤ 16)%N →
  (N.land (segment ip 0) (N.shiftl (2 ^ 16 - 1) (16 - p) mod 2 ^ 16) =? q * 2 ^ (16 - p))%N
  = in_block 128 (q * 2 ^ (16 - p) * 2 ^ 112, p)%N ip.
Proof.
  intros H Hp. destruct (segment_0 ip H) as [Hs Hlt]. rewrite masked_block by done. unfold in_block. rewrite Hs.
  rewrite div_between by done. f_equal. f_equal. replace (128 - p)%N with (16 - p + 112)%N by lia.
  rewrite N.pow_add_r. lia.
Qed.

Lemma unique_local_block ip : (ip < 2 ^ 128)%N → v6_is_unique_local ip = in_block 128 (0xfc00 * 2 ^ 112, 7)%N ip.
Proof. intros H. exact (segment_block ip 0x7e 7 H ltac:(done)). Qed.
Lemma unicast_link_local_block ip : (ip < 2 ^ 128)%N →
  v6_is_unicast_link_local ip = in_block 128 (0xfe80 * 2 ^ 112, 10)%N ip.
Proof. intros H. exact (segment_block ip 0x3fa 10 H ltac:(done)). Qed.
Lemma multicast6_block ip : (ip < 2 ^ 128)%N → v6_is_multicast ip = in_block 128 (0xff00 * 2 ^ 112, 8)%N ip.
Proof. intros H. exact (segment_block ip 0xff 8 H ltac:(done)). Qed.

(** An address with an embedded one is in none of the other blocks. *)
Lemma low_not_in_block ip base len : (N.shiftr ip 32 ≤ 0xffff)%N → (2 ^ 48 ≤ base)%N → in_block 128 (base, len) ip = false.
Proof.
  intros H Hb. unfold in_block. apply andb_false_iff. left. apply N.leb_gt. rewrite N.shiftr_div_pow2 in H.
  eapply N.lt_le_trans; [|exact Hb].
  pose proof (N.div_mod ip (2 ^ 32) ltac:(done)) as E. pose proof (N.mod_lt ip (2 ^ 32) ltac:(done)) as E'. revert H E E'.
  generalize (ip / 2 ^ 32)%N (ip mod 2 ^ 32)%N. change (2 ^ 32)%N with 4294967296%N. change (2 ^ 48)%N with 281474976710656%N. lia.
Qed.

Lemma non_public_ipv6_spec ip : (ip < 2 ^ 128)%N → is_non_public_ipv6 ip = non_public_block (V6 ip).
Proof.
  intros H. unfold non_public_block, non_public_ipv6_blocks. cbv zeta. rewrite !existsb_app, !embedded_blocks.
  cbn [existsb]. rewrite orb_false_r. unfold is_non_public_ipv6, to_ipv4. cbv zeta.
  rewrite <- non_public_ipv4_spec by (apply N.mod_lt; done).
  destruct (N.eqb_spec (N.shiftr ip 32) 0) as [E|E]; [|destruct (N.eqb_spec (N.shiftr ip 32) 0xffff) as [E'|E']];
    cbn [orb andb].
  - rewrite E, !low_not_in_block by (rewrite ?E; done). cbn [orb]. rewrite orb_false_r.
    destruct (v6_is_loopback ip) eqn:Hl; [|by rewrite orb_false_r].
    apply N.eqb_eq in Hl. subst ip. by vm_compute.
  - rewrite !low_not_in_block by (rewrite ?E'; done). cbn [orb].
    destruct (v6_is_loopback ip) eqn:Hl; [|by rewrite orb_false_r]. apply N.eqb_eq in Hl. by subst ip.
  - assert (v6_is_loopback ip = false) as -> by (apply N.eqb_neq; by intros ->).
    assert (v6_is_unspecified ip = false) as -> by (apply N.eqb_neq; by intros ->).
    rewrite unique_local_block, unicast_link_local_block, multicast6_block by done.
    repeat match goal with |- context [in_block ?w ?b ip] => generalize (in_block w b ip); intros [] end; done.
Qed.
