(* ===== verification/NetPolicyFacts.v ===== *)
(** * Lemmas on hosts and domain patterns

    What a wildcard pattern matches, what normalising does to a pattern made
    of the characters of host names and wildcards, which hosts a compiled list
    of such patterns matches, and that a pattern [allows] only patterns whose
    hosts it has itself. *)

From S2P Require Import Prelude RustStr IpAddr NetPolicy.

(** ** Characters *)

Lemma pattern_char_spec c : pattern_char c = true →
  is_whitespace c = false ∧ c ≠ LBRACKET ∧ c ≠ COLON ∧ c ≠ PERCENT ∧ ascii_char c = true.
Proof.
  unfold pattern_char, ldh, is_ascii_digit, is_ascii_alphabetic, is_whitespace, ascii_char.
  unfold MINUS, DOT, STAR, QUESTION, LBRACKET, COLON, PERCENT. intros H.
  repeat (rewrite ?orb_true_iff, ?andb_true_iff, ?bool_decide_eq_true, ?N.leb_le in H).
  rewrite N.ltb_lt. split; [|lia].
  repeat (apply orb_false_iff; split); rewrite ?andb_false_iff, ?N.leb_gt, ?N.eqb_neq; lia.
Qed.

Lemma lower_fixed (x c : char) : x ∈ [STAR; DOT; QUESTION] → to_ascii_lowercase_char c = x ↔ c = x.
Proof.
  rewrite !elem_of_cons, elem_of_nil. unfold STAR, DOT, QUESTION, to_ascii_lowercase_char.
  intros H. destruct ((65 <=? c) && (c <=? 90))%N eqn:E; [|done].
  rewrite andb_true_iff, !N.leb_le in E. lia.
Qed.

Lemma pattern_char_lower c : pattern_char (to_ascii_lowercase_char c) = pattern_char c.
Proof.
  unfold to_ascii_lowercase_char. destruct ((65 <=? c) && (c <=? 90))%N eqn:E; [|done].
  rewrite andb_true_iff, !N.leb_le in E.
  unfold pattern_char, ldh, is_ascii_digit, is_ascii_alphabetic, MINUS, DOT, STAR, QUESTION.
  apply eq_true_iff_eq.
  rewrite !orb_true_iff, !andb_true_iff, !bool_decide_eq_true, !N.leb_le. lia.
Qed.

Lemma lower_char_idem c : to_ascii_lowercase_char (to_ascii_lowercase_char c) = to_ascii_lowercase_char c.
Proof.
  unfold to_ascii_lowercase_char. destruct ((65 <=? c) && (c <=? 90))%N eqn:E; [|by rewrite E].
  rewrite andb_true_iff, !N.leb_le in E. replace (_ && _)%N with false; [done|].
  symmetry. rewrite andb_false_iff, !N.leb_gt. lia.
Qed.

Lemma lower_idem s : to_ascii_lowercase (to_ascii_lowercase s) = to_ascii_lowercase s.
Proof. unfold to_ascii_lowercase. rewrite <- list_fmap_compose. apply list_fmap_ext. intros. apply lower_char_idem. Qed.

Lemma lower_app a b : to_ascii_lowercase (a ++ b) = to_ascii_lowercase a ++ to_ascii_lowercase b.
Proof. apply fmap_app. Qed.

Lemma lower_forallb (p : char → bool) s : (∀ c, p (to_ascii_lowercase_char c) = p c) →
  forallb p (to_ascii_lowercase s) = forallb p s.
Proof. intros Hp. induction s as [|c s IH]; [done|]. simpl. by rewrite Hp, IH. Qed.

(** ** Trailing dots *)

Lemma trim_end_dots_lower s : trim_end_dots (to_ascii_lowercase s) = to_ascii_lowercase (trim_end_dots s).
Proof.
  assert (∀ c, N.eqb DOT (to_ascii_lowercase_char c) = N.eqb DOT c) as Hd.
  { intros c. apply eq_true_iff_eq. rewrite !N.eqb_eq. pose proof (lower_fixed DOT c ltac:(set_solver)) as H.
    split; intros E; symmetry; by apply H. }
  unfold trim_end_dots, to_ascii_lowercase. induction s as [|c s IH]; [done|]. rewrite fmap_cons.
  cbn [trim_end_matches]. rewrite IH, Hd.
  destruct (trim_end_matches (N.eqb DOT) s) as [|y t]; [|done]. by destruct (N.eqb DOT c).
Qed.

Lemma trim_end_dots_idem s : trim_end_dots (trim_end_dots s) = trim_end_dots s.
Proof. apply trim_end_matches_idem. Qed.

Lemma trim_end_dots_prefix s : ∃ k, s = trim_end_dots s ++ k.
Proof. destruct (trim_end_matches_prefix (N.eqb DOT) s) as (k & Hk & _). by exists k. Qed.

Lemma trim_end_dots_no_dot s q : trim_end_dots s ≠ q ++ [DOT].
Proof.
  intros E. pose proof (trim_end_matches_last (N.eqb DOT) s) as H. unfold trim_end_dots in E.
  rewrite E, last_snoc in H. done.
Qed.

Lemma trim_end_dots_forallb p s : forallb p s = true → forallb p (trim_end_dots s) = true.
Proof. destruct (trim_end_dots_prefix s) as [k Hk]. rewrite Hk at 1. rewrite forallb_app, andb_true_iff. tauto. Qed.

(** ** Wildcards *)

Lemma wild_match_star p s :
  wild_match (STAR :: p) s = wild_match p s || match s with [] => false | _ :: s' => wild_match (STAR :: p) s' end.
Proof. by destruct s. Qed.

Lemma wild_match_cons c p s : c ≠ STAR →
  wild_match (c :: p) s = match s with
                          | [] => false
                          | x :: s' => (bool_decide (c = QUESTION)
                                        || bool_decide (to_ascii_lowercase_char c = to_ascii_lowercase_char x)) && wild_match p s'
                          end.
Proof. intros Hc. simpl. by rewrite (bool_decide_eq_false_2 (c = STAR)). Qed.

Lemma wild_match_star_iff p s : wild_match (STAR :: p) s = true ↔ ∃ a b, s = a ++ b ∧ wild_match p b = true.
Proof.
  induction s as [|x s IH]; rewrite wild_match_star.
  - rewrite orb_false_r. split; [by exists [], []|]. intros (a & b & E & H). symmetry in E.
    apply app_eq_nil in E as [-> ->]. done.
  - rewrite orb_true_iff, IH. split.
    + intros [H|(a & b & -> & H)]; [by exists [], (x :: s)|]. by exists (x :: a), b.
    + intros ([|y a] & b & E & H); simplify_eq/=; [by left|]. right. eauto.
Qed.

Lemma wild_match_app p q s :
  wild_match (p ++ q) s = true ↔ ∃ a b, s = a ++ b ∧ wild_match p a = true ∧ wild_match q b = true.
Proof.
  revert s. induction p as [|c p IH]; intros s; simpl app.
  - split; [intros H; by exists [], s|]. intros ([|??] & b & -> & ? & ?); done.
  - destruct (decide (c = STAR)) as [->|Hc].
    + rewrite wild_match_star_iff. split.
      * intros (u & v & -> & (a & b & -> & Ha & Hb)%IH). exists (u ++ a), b. rewrite app_assoc.
        split; [done|]. split; [|done]. apply wild_match_star_iff. eauto.
      * intros (ab & b & -> & (u & a & -> & Ha)%wild_match_star_iff & Hb). exists u, (a ++ b). rewrite <- app_assoc.
        split; [done|]. apply IH. eauto.
    + rewrite wild_match_cons by done. destruct s as [|x s].
      * split; [done|]. intros ([|??] & b & E & Ha & Hb); [|done]. by rewrite wild_match_cons in Ha.
      * rewrite andb_true_iff, IH. split.
        -- intros (Hx & a & b & -> & Ha & Hb). exists (x :: a), b. rewrite wild_match_cons by done.
           by rewrite Hx, Ha.
        -- intros ([|y a] & b & E & Ha & Hb); rewrite wild_match_cons in Ha by done; [done|].
           simplify_eq/=. apply andb_true_iff in Ha as [Hx Ha]. eauto 8.
Qed.

Lemma wild_match_lower p s : wild_match (to_ascii_lowercase p) s = wild_match p s.
Proof.
  revert s. induction p as [|c p IH]; [done|]. intros s. unfold to_ascii_lowercase. rewrite fmap_cons.
  fold (to_ascii_lowercase p). destruct (decide (c = STAR)) as [->|Hc].
  - change (wild_match (STAR :: to_ascii_lowercase p) s = wild_match (STAR :: p) s).
    induction s as [|x s IHs]; rewrite (wild_match_star (to_ascii_lowercase p)), (wild_match_star p), IH; [done|].
    by rewrite IHs.
  - rewrite !wild_match_cons; [|done|by rewrite lower_fixed by set_solver]. destruct s as [|x s]; [done|].
    rewrite IH, lower_char_idem. f_equal. f_equal. apply bool_decide_ext. apply lower_fixed. set_solver.
Qed.

Definition is_wild (c : char) : bool := bool_decide (c = STAR) || bool_decide (c = QUESTION).

Lemma wild_match_literal p s : forallb (λ c, negb (is_wild c)) p = true →
  wild_match p s = true ↔ to_ascii_lowercase p = to_ascii_lowercase s.
Proof.
  revert s. induction p as [|c p IH]; intros s; simpl forallb.
  - intros _. simpl. destruct s; by split.
  - rewrite andb_true_iff. intros [Hc Hp]. unfold is_wild in Hc. apply negb_true_iff, orb_false_iff in Hc as [H1 H2].
    apply bool_decide_eq_false in H1, H2. rewrite wild_match_cons by done.
    destruct s as [|x s]; [done|]. rewrite (bool_decide_eq_false_2 (c = QUESTION)) by done. cbn [orb].
    rewrite andb_true_iff, IH by done. rewrite bool_decide_eq_true. unfold to_ascii_lowercase. rewrite !fmap_cons.
    split; [by intros [-> ->]|by intros [= -> ->]].
Qed.

(** A label before a dot: at least one character, whatever it is. *)
Lemma wild_match_subdomain d s :
  wild_match ($"?*." ++ d) s = true ↔ ∃ a b, s = a ++ DOT :: b ∧ a ≠ [] ∧ wild_match d b = true.
Proof.
  change ($"?*." ++ d) with ((QUESTION :: [STAR]) ++ ([DOT] ++ d)). rewrite wild_match_app. split.
  - intros (a & b & -> & Ha & Hb). apply wild_match_app in Hb as (u & v & -> & Hu & Hv).
    apply (wild_match_literal [DOT]) in Hu; [|done]. destruct u as [|x [|??]]; try done.
    assert (x = DOT) as -> by (apply (lower_fixed DOT); [set_solver|]; by injection Hu).
    exists a, v. split; [done|]. split; [|done]. by intros ->.
  - intros (a & b & -> & Ha & Hb). exists a, (DOT :: b). split; [done|]. destruct a as [|x a]; [done|].
    rewrite wild_match_cons by done. cbn [bool_decide orb andb]. split.
    + apply wild_match_star_iff. exists a, []. by rewrite app_nil_r.
    + apply (wild_match_app [DOT] d). exists [DOT], b. by repeat split.
Qed.

(** ** Plain patterns *)

Lemma find_absent c needle s : c ∉ s → find (c :: needle) s = None.
Proof.
  induction s as [|x s IH]; intros Hc; [done|]. rewrite not_elem_of_cons in Hc. destruct Hc as [Hx Hs].
  cbn [find]. replace (starts_with (c :: needle) (x :: s)) with false; [by rewrite IH|].
  unfold starts_with. cbn [strip_prefix]. by rewrite decide_False.
Qed.

Lemma plain_absent c s : forallb pattern_char s = true → pattern_char c = false → c ∉ s.
Proof. intros Hs Hc Hin. rewrite forallb_forall in Hs. apply list_elem_of_In, Hs in Hin. congruence. Qed.

Lemma plain_trim s : forallb pattern_char s = true → trim s = s.
Proof.
  destruct s as [|c s]; [done|]. intros Hs. rewrite forallb_forall in Hs.
  assert (∀ x, x ∈ c :: s → is_whitespace x = false) as H
    by (intros x Hx; apply list_elem_of_In, Hs, pattern_char_spec in Hx; tauto).
  apply trim_id; [apply H; by left|].
  destruct (last (c :: s)) as [x|] eqn:E; [|done]. apply H. by apply last_Some_elem_of.
Qed.

Lemma plain_lower s : forallb pattern_char s = true → forallb pattern_char (to_ascii_lowercase s) = true.
Proof. intros Hs. rewrite lower_forallb; [done|]. apply pattern_char_lower. Qed.

Lemma plain_no_scope c s : forallb pattern_char s = true → split_once (PERCENT :: c) s = None.
Proof. intros Hs. unfold split_once. by rewrite find_absent by (by apply plain_absent). Qed.

Lemma plain_ip_literal s : forallb pattern_char s = true → default s (normalize_ip_literal s) = s.
Proof.
  intros Hs. unfold normalize_ip_literal. destruct (is_ip_text s); [done|]. cbn [find_map].
  unfold scoped_literal. change ($"%25") with (PERCENT :: $"25"). change ($"%") with [PERCENT].
  by rewrite !plain_no_scope.
Qed.

Lemma plain_normalize_host s : forallb pattern_char s = true → normalize_host s = trim_end_dots (to_ascii_lowercase s).
Proof.
  intros Hs. unfold normalize_host. rewrite plain_trim by done. cbv zeta.
  replace (starts_with [LBRACKET] s) with false.
  2: { symmetry. apply not_true_iff_false. rewrite starts_with_spec. intros [k ->].
       assert (LBRACKET ∉ [LBRACKET] ++ k) as Hno by (by apply plain_absent). set_solver. }
  rewrite bool_decide_eq_false_2.
  - unfold normalize_dns_host_or_ip_literal. apply plain_ip_literal. apply trim_end_dots_forallb. by apply plain_lower.
  - unfold count_char. rewrite forallb_forall in Hs. intros E.
    destruct (List.filter (N.eqb COLON) s) as [|x l] eqn:F; [done|].
    assert (In x (List.filter (N.eqb COLON) s)) as Hin by (rewrite F; by left).
    apply filter_In in Hin as [Hx E']. apply N.eqb_eq in E'. subst x. by apply Hs in Hx.
Qed.

(** The prefix of a pattern and its domain. *)
Definition view (p : rstr) : DomainPattern :=
  match strip_prefix APEX p with
  | Some d => ApexAndSubdomains d
  | None => match strip_prefix SUBDOMAINS p with
            | Some d => SubdomainsOnly d
            | None => Exact p
            end
  end.
Definition domain_of (d : DomainPattern) : rstr :=
  match d with Exact d | SubdomainsOnly d | ApexAndSubdomains d => d end.
Definition map_domain (f : rstr → rstr) (d : DomainPattern) : DomainPattern :=
  match d with
  | Exact d => Exact (f d)
  | SubdomainsOnly d => SubdomainsOnly (f d)
  | ApexAndSubdomains d => ApexAndSubdomains (f d)
  end.

(** Host characters and wildcards, and a domain that has wildcards, is the
    text of an IPv4 address, or that the host parser only changes the case of. *)
Definition plain_pattern (p : rstr) : bool :=
  forallb pattern_char p
  && (let d := trim_end_dots (domain_of (view p)) in is_empty d || existsb is_wild d || simple_domain d || ipv4_text d).

(** The hosts of a pattern, by what it is expanded to. *)
Definition pattern_hosts (p s : rstr) : bool :=
  existsb (λ c, wild_match c s) (expand_domain_pattern (normalize_pattern p)).

(** The hosts of a parsed pattern. *)
Definition hosts (d : DomainPattern) (s : rstr) : Prop :=
  match d with
  | Exact d => wild_match (normalize_domain d) s = true
  | SubdomainsOnly d => normalize_domain d ≠ [] ∧ wild_match ($"?*." ++ normalize_domain d) s = true
  | ApexAndSubdomains d =>
      normalize_domain d ≠ []
      ∧ (wild_match (normalize_domain d) s = true ∨ wild_match ($"?*." ++ normalize_domain d) s = true)
  end.

Lemma normalize_domain_alt d : normalize_domain d = trim_end_dots (to_ascii_lowercase d).
Proof. unfold normalize_domain. by rewrite trim_end_dots_lower. Qed.

Lemma normalize_domain_idem d : normalize_domain (normalize_domain d) = normalize_domain d.
Proof. by rewrite !normalize_domain_alt, <- trim_end_dots_lower, trim_end_dots_idem, lower_idem. Qed.

Lemma strip_wild_lower k s : (∀ c, c ∈ k → c ∈ [STAR; DOT; QUESTION]) →
  strip_prefix k (to_ascii_lowercase s) = to_ascii_lowercase <$> strip_prefix k s.
Proof.
  revert s. induction k as [|x k IH]; intros s Hk; [done|]. destruct s as [|c s]; [done|].
  unfold to_ascii_lowercase at 1. rewrite fmap_cons. cbn [strip_prefix].
  fold (to_ascii_lowercase s). pose proof (lower_fixed x c (Hk x ltac:(by left))) as H.
  destruct (decide (x = c)) as [->|Hne].
  - rewrite decide_True by (symmetry; by apply H). apply IH. intros. apply Hk. by right.
  - rewrite decide_False; [done|]. intros E. symmetry in E. apply H in E. congruence.
Qed.

Lemma view_lower p : view (to_ascii_lowercase p) = map_domain to_ascii_lowercase (view p).
Proof.
  unfold view. rewrite !strip_wild_lower by (intros c; set_unfold; naive_solver).
  destruct (strip_prefix APEX p); [done|]. cbn [fmap option_fmap option_map].
  by destruct (strip_prefix SUBDOMAINS p).
Qed.

Lemma view_plain p : forallb pattern_char p = true → forallb pattern_char (domain_of (view p)) = true.
Proof.
  unfold view. destruct (strip_prefix APEX p) as [d|] eqn:E1; [|destruct (strip_prefix SUBDOMAINS p) as [d|] eqn:E2];
    cbn [domain_of]; [apply strip_prefix_Some in E1 as ->|apply strip_prefix_Some in E2 as ->|done];
    rewrite forallb_app, andb_true_iff; tauto.
Qed.

Lemma view_trim_dots p d : view p = Exact d → view (trim_end_dots p) = Exact (trim_end_dots p).
Proof.
  unfold view. destruct (strip_prefix APEX p) eqn:E1; [done|]. destruct (strip_prefix SUBDOMAINS p) eqn:E2; [done|].
  intros _. rewrite strip_prefix_None in E1, E2. destruct (trim_end_dots_prefix p) as [k Hk].
  assert (∀ x, ¬ x `prefix_of` p → strip_prefix x (trim_end_dots p) = None) as H.
  { intros x Hx. rewrite strip_prefix_None. intros H. apply Hx. rewrite Hk. by apply prefix_app_r. }
  by rewrite !H.
Qed.

(** What [normalize_pattern] and [DomainPattern::parse] make of it. *)
Lemma plain_expand p : forallb pattern_char p = true →
  expand_domain_pattern (normalize_pattern p) =
  match view p with
  | Exact d => [normalize_domain d]
  | SubdomainsOnly d => if is_empty (normalize_domain d) then [[]] else [$"?*." ++ normalize_domain d]
  | ApexAndSubdomains d =>
      if is_empty (normalize_domain d) then [[]] else [normalize_domain d; $"?*." ++ normalize_domain d]
  end.
Proof.
  intros Hp. pose proof (view_plain p Hp) as Hd. pose proof (view_trim_dots (to_ascii_lowercase p) (to_ascii_lowercase p)) as Ht.
  rewrite view_lower in Ht. revert Hd Ht.
  assert (∀ d, forallb pattern_char d = true → forallb pattern_char (normalize_domain d) = true) as Hnd.
  { intros d H. rewrite normalize_domain_alt. by apply trim_end_dots_forallb, plain_lower. }
  assert (∀ k d, forallb pattern_char k = true → forallb pattern_char d = true → trim (k ++ normalize_domain d) = k ++ normalize_domain d) as Htr.
  { intros k d Hk H. apply plain_trim. rewrite forallb_app, Hk. by apply Hnd. }
  unfold normalize_pattern. rewrite plain_trim by done. cbv zeta.
  destruct (bool_decide_reflect (p = [STAR])) as [->|_]; [done|].
  unfold view. destruct (strip_prefix APEX p) as [d|]; [|destruct (strip_prefix SUBDOMAINS p) as [d|] eqn:E2];
    cbn [domain_of map_domain is_empty]; intros Hd Ht;
    rewrite plain_normalize_host, <- normalize_domain_alt by done.
  - change (is_empty APEX) with false. cbv iota. unfold expand_domain_pattern, DomainPattern_parse.
    rewrite Htr by done. cbv zeta. change (is_empty (APEX ++ normalize_domain d)) with false. cbv iota. rewrite strip_prefix_app.
    unfold parse_domain. rewrite plain_trim by (by apply Hnd). cbv zeta. by destruct (is_empty (normalize_domain d)).
  - change (is_empty SUBDOMAINS) with false. cbv iota. unfold expand_domain_pattern, DomainPattern_parse.
    rewrite Htr by done. cbv zeta. change (is_empty (SUBDOMAINS ++ normalize_domain d)) with false. cbv iota.
    change (strip_prefix APEX (SUBDOMAINS ++ normalize_domain d)) with (@None rstr). cbv iota. rewrite strip_prefix_app.
    unfold parse_domain. rewrite plain_trim by (by apply Hnd). cbv zeta. by destruct (is_empty (normalize_domain d)).
  - specialize (Ht eq_refl). rewrite <- normalize_domain_alt in Ht. revert Ht.
    unfold expand_domain_pattern, DomainPattern_parse, view. rewrite plain_trim by (by apply Hnd). cbv zeta.
    destruct (is_empty (normalize_domain p)) eqn:Ee; [apply is_empty_true in Ee; by rewrite Ee|].
    destruct (strip_prefix APEX (normalize_domain p)); [done|].
    by destruct (strip_prefix SUBDOMAINS (normalize_domain p)).
Qed.

(** ** Comparing patterns *)

Lemma normalize_domain_no_dot d q : normalize_domain d ≠ q ++ [DOT].
Proof. rewrite normalize_domain_alt. apply trim_end_dots_no_dot. Qed.

Lemma wild_match_nil s : wild_match [] s = true ↔ s = [].
Proof. by destruct s. Qed.

(** The hosts of a subdomain pattern are among those of a parent's. *)
Lemma subdomain_hosts (child parent s : rstr) : child = parent ∨ [DOT] ++ parent `suffix_of` child →
  wild_match ($"?*." ++ child) s = true → wild_match ($"?*." ++ parent) s = true.
Proof.
  intros [->|[q ->]]; [done|]. rewrite !wild_match_subdomain. intros (a & b & -> & Ha & Hb).
  apply wild_match_app in Hb as (u & v & -> & _ & Hv).
  apply (wild_match_app [DOT] parent) in Hv as (x & v' & -> & Hx & Hv').
  apply (wild_match_literal [DOT]) in Hx; [|done]. destruct x as [|x [|??]]; try done.
  assert (x = DOT) as -> by (apply (lower_fixed DOT); [set_solver|]; by injection Hx).
  exists (a ++ DOT :: u), v'. rewrite <- !app_assoc. split; [done|]. split; [by destruct a|done].
Qed.

(** A host that does not start with a dot. *)
Definition host_start (s : rstr) : Prop := ∃ c s', s = c :: s' ∧ c ≠ DOT.

Lemma exact_subdomain_hosts (child parent s : rstr) : [DOT] ++ parent `suffix_of` child → host_start s →
  wild_match child s = true → wild_match ($"?*." ++ parent) s = true.
Proof.
  intros [q ->] (c & s' & -> & Hc) H. apply wild_match_app in H as (u & v & E & Hu & Hv).
  apply (wild_match_app [DOT] parent) in Hv as (x & v' & -> & Hx & Hv').
  apply (wild_match_literal [DOT]) in Hx; [|done]. destruct x as [|x [|??]]; try done.
  assert (x = DOT) as -> by (apply (lower_fixed DOT); [set_solver|]; by injection Hx).
  rewrite E. apply wild_match_subdomain. exists u, v'. split; [done|]. split; [|done].
  intros ->. by injection E as -> _.
Qed.

Lemma domain_eq_spec a b : domain_eq a b = true ↔ normalize_domain a = normalize_domain b.
Proof. apply bool_decide_eq_true. Qed.
Lemma is_subdomain_or_equal_spec a b : is_subdomain_or_equal a b = true ↔
  normalize_domain a = normalize_domain b ∨ [DOT] ++ normalize_domain b `suffix_of` normalize_domain a.
Proof. unfold is_subdomain_or_equal. by rewrite orb_true_iff, bool_decide_eq_true, ends_with_spec. Qed.
Lemma is_strict_subdomain_spec a b : is_strict_subdomain a b = true →
  [DOT] ++ normalize_domain b `suffix_of` normalize_domain a.
Proof. unfold is_strict_subdomain. rewrite andb_true_iff, ends_with_spec. tauto. Qed.

Lemma parent_nonempty child parent : [DOT] ++ normalize_domain parent `suffix_of` normalize_domain child →
  normalize_domain parent ≠ [].
Proof. intros [q H] E. rewrite E in H. by apply normalize_domain_no_dot in H. Qed.

(** What a pattern allows has no host of its own. *)
Lemma allows_sound self candidate s : host_start s → allows self candidate = true → hosts candidate s → hosts self s.
Proof.
  intros Hs. assert (∀ d, wild_match (normalize_domain d) s = true → normalize_domain d ≠ []) as Hne.
  { intros d H E. rewrite E, wild_match_nil in H. by destruct Hs as (? & ? & -> & _). }
  destruct self as [d|d|d], candidate as [c|c|c]; cbn [allows hosts]; try done.
  - rewrite is_subdomain_or_equal_spec. intros [->|H]; [done|]. pose proof (parent_nonempty _ _ H).
    intros [? [Hc|Hc]]; (split; [done|]); right; [by apply (exact_subdomain_hosts (normalize_domain c))|].
    apply (subdomain_hosts (normalize_domain c)); auto.
  - rewrite is_subdomain_or_equal_spec. intros H [Hc Hw]. split.
    + destruct H as [<-|H]; [done|by eapply parent_nonempty].
    + right. by apply (subdomain_hosts (normalize_domain c)).
  - rewrite is_subdomain_or_equal_spec. intros [<-|H] Hw; [auto|]. split; [by eapply parent_nonempty|].
    right. by apply (exact_subdomain_hosts (normalize_domain c)).
  - intros H%is_strict_subdomain_spec. pose proof (parent_nonempty _ _ H).
    intros [? [Hc|Hc]]; (split; [done|]); [by apply (exact_subdomain_hosts (normalize_domain c))|].
    apply (subdomain_hosts (normalize_domain c)); auto.
  - rewrite is_subdomain_or_equal_spec. intros H [Hc Hw]. split.
    + destruct H as [<-|H]; [done|by eapply parent_nonempty].
    + by apply (subdomain_hosts (normalize_domain c)).
  - intros H%is_strict_subdomain_spec Hw. split; [by eapply parent_nonempty|].
    by apply (exact_subdomain_hosts (normalize_domain c)).
  - rewrite domain_eq_spec. by intros ->.
Qed.

Section patterns.
Context `{!UrlHost, !UrlHostLaws}.

Lemma plain_constraint_domain d : forallb pattern_char d = true →
  (let e := trim_end_dots d in is_empty e || existsb is_wild e || simple_domain e || ipv4_text e) = true →
  normalize_domain (parse_domain_for_constraints d) = normalize_domain d.
Proof.
  intros Hd Hk. unfold parse_domain_for_constraints. rewrite plain_trim by done. cbv zeta in *.
  assert (normalize_domain (trim_end_dots d) = normalize_domain d) as Hn.
  { unfold normalize_domain. by rewrite trim_end_dots_idem. }
  pose proof (trim_end_dots_forallb _ _ Hd) as Ht. revert Hk Ht Hn.
  generalize (trim_end_dots d). intros e Hk Ht Hn.
  destruct (is_empty e) eqn:Ee; [apply is_empty_true in Ee; subst e; by rewrite <- Hn|].
  replace (starts_with [LBRACKET] e) with false.
  2: { symmetry. apply not_true_iff_false. rewrite starts_with_spec. intros [k ->].
       assert (LBRACKET ∉ [LBRACKET] ++ k) as Hno by (by apply plain_absent). set_solver. }
  cbn [andb]. destruct (contains [STAR] e || contains [QUESTION] e || contains [PERCENT] e) eqn:Ew; [done|].
  rewrite !orb_false_iff in Ew. destruct Ew as [[H1 H2] _].
  destruct (existsb is_wild e) eqn:Eex.
  { exfalso. apply existsb_exists in Eex as (c & Hin & Hc). apply list_elem_of_In in Hin.
    assert (∀ x, x ∈ e → contains [x] e = true) as Hcon.
    { clear. intros x. unfold contains. induction e as [|y e IH]; [set_solver|]. intros Hx. cbn [find].
      destruct (starts_with [x] (y :: e)) eqn:Es; [done|].
      assert (x ≠ y) as Hne by (intros ->; unfold starts_with in Es; cbn in Es; rewrite decide_True in Es by done; done).
      specialize (IH ltac:(set_solver)). by destruct (find [x] e). }
    apply Hcon in Hin. unfold is_wild in Hc. rewrite orb_true_iff, !bool_decide_eq_true in Hc. destruct Hc; congruence. }
  cbn [orb] in Hk. rewrite <- Hn. destruct (simple_domain e) eqn:Es.
  - rewrite url_host_simple by done. cbn [default]. unfold id. rewrite !normalize_domain_alt. by rewrite lower_idem.
  - by rewrite url_host_ipv4.
Qed.

(** The hosts of a plain pattern as the allowlist compiles it are the hosts
    of the pattern the constraints compare. *)
Lemma plain_hosts p s : plain_pattern p = true → s ≠ [] →
  pattern_hosts p s = true ↔ hosts (parse_for_constraints p) s.
Proof.
  unfold plain_pattern. rewrite andb_true_iff. intros [Hp Hk] Hs.
  pose proof (view_plain p Hp) as Hd. pose proof (plain_constraint_domain _ Hd Hk) as Hn. revert Hn.
  unfold pattern_hosts. rewrite plain_expand by done. unfold parse_for_constraints. rewrite plain_trim by done. cbv zeta.
  destruct p as [|c p']; [intros _; cbn; by rewrite orb_false_r|].
  change (is_empty (c :: p')) with false. cbv iota. unfold view.
  assert (∀ d : rstr, is_empty d = true → existsb (λ c, wild_match c s) [[]] = false) as Hnil.
  { intros _ _. cbn. by destruct s. }
  destruct (strip_prefix APEX (c :: p')) as [d|]; [|destruct (strip_prefix SUBDOMAINS (c :: p')) as [d|]];
    cbn [domain_of hosts]; intros ->.
  - destruct (is_empty (normalize_domain d)) eqn:E.
    + rewrite (Hnil _ E). apply is_empty_true in E. rewrite E. split; [done|]. by intros [].
    + apply is_empty_false in E. cbn [existsb]. rewrite orb_false_r, orb_true_iff. tauto.
  - destruct (is_empty (normalize_domain d)) eqn:E.
    + rewrite (Hnil _ E). apply is_empty_true in E. rewrite E. split; [done|]. by intros [].
    + apply is_empty_false in E. cbn [existsb]. rewrite orb_false_r. tauto.
  - cbn [existsb]. by rewrite orb_false_r.
Qed.

End patterns.

(** ** Compiled lists *)

Section compiled.
Context `{!GlobOps, !GlobLaws}.

Definition builder_matches (builder : list Glob) (s : rstr) : bool := existsb (λ g, glob_is_match g s) builder.

(** The globs built so far are those of the candidates seen. *)
Definition builder_ok (seen : list rstr) (builder : list Glob) : Prop :=
  ∀ s, forallb ascii_char s = true → builder_matches builder s = existsb (λ c, wild_match c s) seen.

Lemma add_candidates_ok candidates seen builder seen' builder' :
  forallb (forallb pattern_char) candidates = true → builder_ok seen builder →
  add_candidates candidates seen builder = Ok (seen', builder') →
  builder_ok seen' builder' ∧ (∀ s, existsb (λ c, wild_match c s) seen'
                                   = existsb (λ c, wild_match c s) candidates || existsb (λ c, wild_match c s) seen).
Proof.
  revert seen builder. induction candidates as [|c candidates IH]; intros seen builder Hc Hb; cbn [add_candidates].
  - intros [= <- <-]. done.
  - cbn [forallb] in Hc. apply andb_true_iff in Hc as [Hc Hcs]. case_bool_decide as Hin.
    + intros Hr. apply IH in Hr as [H1 H2]; [|done..]. split; [done|]. intros s. rewrite H2. cbn [existsb].
      destruct (wild_match c s) eqn:Hw; [|done]. cbn [orb].
      replace (existsb (λ c, wild_match c s) seen) with true; [by rewrite orb_true_r|].
      symmetry. apply existsb_exists. exists c. split; [by apply list_elem_of_In|done].
    + destruct (glob_build c) as [g|] eqn:Hg; [|done]. cbn [map_err mbind result_bind].
      intros Hr. apply IH in Hr as [H1 H2]; [|done|].
      * split; [done|]. intros s. rewrite H2. cbn [existsb]. by rewrite orb_assoc, (orb_comm _ (wild_match c s)).
      * intros s Hs. unfold builder_matches. rewrite existsb_app. cbn [existsb]. rewrite orb_false_r, orb_comm.
        f_equal; [by apply glob_is_match_plain|by apply Hb].
Qed.

Lemma plain_candidates p : plain_pattern p = true →
  forallb (forallb pattern_char) (expand_domain_pattern (normalize_pattern p)) = true.
Proof.
  unfold plain_pattern. rewrite andb_true_iff. intros [Hp _]. rewrite plain_expand by done.
  pose proof (view_plain p Hp) as Hd.
  assert (forallb pattern_char (normalize_domain (domain_of (view p))) = true) as Hn.
  { rewrite normalize_domain_alt. by apply trim_end_dots_forallb, plain_lower. }
  destruct (view p) as [d|d|d]; cbn [domain_of] in Hn; [destruct (is_empty (normalize_domain d)); [done|]..|];
    cbn [forallb]; rewrite ?forallb_app, Hn; done.
Qed.

Lemma add_patterns_ok patterns w seen builder builder' :
  forallb plain_pattern patterns = true → builder_ok seen builder →
  add_patterns patterns w seen builder = Ok builder' →
  ∀ s, forallb ascii_char s = true →
    builder_matches builder' s = existsb (λ p, pattern_hosts p s) patterns || existsb (λ c, wild_match c s) seen.
Proof.
  revert seen builder. induction patterns as [|p patterns IH]; intros seen builder Hp Hb; cbn [add_patterns].
  - intros [= <-] s Hs. by apply Hb.
  - cbn [forallb] in Hp. apply andb_true_iff in Hp as [Hp Hps].
    destruct (match w with Reject => _ | Allow => _ end); [done|].
    destruct (add_candidates _ seen builder) as [[seen1 builder1]|] eqn:E; [|done]. cbn [mbind result_bind].
    intros Hr s Hs. apply add_candidates_ok in E as [E1 E2]; [|by apply plain_candidates|done].
    rewrite (IH _ _ Hps E1 Hr s Hs), E2. cbn [existsb]. unfold pattern_hosts at 2.
    rewrite orb_assoc. f_equal. apply orb_comm.
Qed.

(** A compiled list of plain patterns matches the hosts of its patterns. *)
Lemma compiled_matches patterns w set s : forallb plain_pattern patterns = true →
  compile_globset_with_policy patterns w = Ok set → forallb ascii_char s = true →
  is_match set s = existsb (λ p, pattern_hosts p s) patterns.
Proof.
  unfold compile_globset_with_policy. intros Hp Hr Hs.
  destruct (add_patterns patterns w [] []) as [builder|] eqn:E; [|done].
  apply globset_is_match with (s := s) in Hr. rewrite Hr.
  apply (add_patterns_ok patterns w [] [] builder Hp ltac:(done) E) in Hs. rewrite orb_false_r in Hs. exact Hs.
Qed.

End compiled.
