(* ===== verification/NetConfig.v ===== *)
(** * Configuration of the network proxy and its managed limits

    The policy part of [network-proxy/src/config.rs]: the permissions of
    domains and sockets; and [network-proxy/src/state.rs] with
    [socket_path.rs]: the checks of a configuration against the constraints
    an administrator set, and the state built from a configuration.

    Hooks of the MITM proxy, the settings that no policy decision reads and
    the proxy's certificate store are parameters.  An error keeps the name of
    the field; the two texts that show the user the refused and the allowed
    values are left out.  Domains are read in the order the code has them;
    the maps whose order only an error text shows are [gmap]s. *)

From stdpp Require Import gmap.
From S2P Require Import Prelude RustStr ApiPathString IpAddr NetPolicy.

(** ** Permissions *)

Inductive NetworkDomainPermission := PermNone | PermAllow | PermDeny.
#[global] Instance NetworkDomainPermission_eq_dec : EqDecision NetworkDomainPermission.
Proof. solve_decision. Defined.

(** The derived order of the variants. *)
Definition permission_rank (p : NetworkDomainPermission) : nat :=
  match p with PermNone => 0 | PermAllow => 1 | PermDeny => 2 end.

Record NetworkDomainPermissionEntry := mkEntry { pattern : rstr; permission : NetworkDomainPermission }.
#[global] Instance NetworkDomainPermissionEntry_eq_dec : EqDecision NetworkDomainPermissionEntry.
Proof. solve_decision. Defined.

Abbreviation NetworkDomainPermissions := (list NetworkDomainPermissionEntry) (only parsing).

Definition effective_step (acc : list rstr * gmap rstr NetworkDomainPermission) (entry : NetworkDomainPermissionEntry)
    : list rstr * gmap rstr NetworkDomainPermission :=
  let '(order, effective) := acc in
  match effective !! pattern entry with
  | None => (order ++ [pattern entry], <[pattern entry := permission entry]> effective)
  | Some p =>
      (order, if permission_rank p <? permission_rank (permission entry)
              then <[pattern entry := permission entry]> effective else effective)
  end.

Fixpoint take_permissions (order : list rstr) (effective : gmap rstr NetworkDomainPermission)
    : list NetworkDomainPermissionEntry :=
  match order with
  | [] => []
  | p :: order =>
      match effective !! p with
      | Some perm => mkEntry p perm :: take_permissions order (delete p effective)
      | None => take_permissions order effective
      end
  end.

Definition effective_entries (entries : NetworkDomainPermissions) : list NetworkDomainPermissionEntry :=
  let '(order, effective) := foldl effective_step ([], ∅) entries in
  take_permissions order effective.

Inductive NetworkUnixSocketPermission := SocketAllow | SocketDeny.
#[global] Instance NetworkUnixSocketPermission_eq_dec : EqDecision NetworkUnixSocketPermission.
Proof. solve_decision. Defined.

Inductive NetworkMode := Limited | Full.
#[global] Instance NetworkMode_eq_dec : EqDecision NetworkMode.
Proof. solve_decision. Defined.

Definition allows_method (self : NetworkMode) (method : rstr) : bool :=
  match self with
  | Full => true
  | Limited => bool_decide (method ∈ [$"GET"; $"HEAD"; $"OPTIONS"])
  end.

Definition network_mode_rank (mode : NetworkMode) : nat := match mode with Limited => 0 | Full => 1 end.

(** ** Constraints *)

Record NetworkProxyConstraints := mkConstraints {
  c_enabled : option bool;
  c_mode : option NetworkMode;
  c_allow_upstream_proxy : option bool;
  c_dangerously_allow_non_loopback_proxy : option bool;
  c_dangerously_allow_all_unix_sockets : option bool;
  c_allowed_domains : option (list rstr);
  allowlist_expansion_enabled : option bool;
  c_denied_domains : option (list rstr);
  denylist_expansion_enabled : option bool;
  c_allow_unix_sockets : option (list rstr);
  c_allow_local_binding : option bool
}.
#[global] Instance NetworkProxyConstraints_eq_dec : EqDecision NetworkProxyConstraints.
Proof. solve_decision. Defined.

(** [InvalidValue] with its field. *)
Inductive NetworkProxyConstraintError := InvalidValue (field_name : rstr).

Definition invalid_if (field_name : rstr) (bad : bool) : result NetworkProxyConstraintError () :=
  if bad then Err (InvalidValue field_name) else Ok ().

Definition validate_non_global_wildcard_domain_patterns (field_name : rstr) (patterns : list rstr)
    : result NetworkProxyConstraintError () :=
  invalid_if field_name (existsb is_global_wildcard_domain_pattern patterns).

Definition lower_set (l : list rstr) : gset rstr := list_to_set (to_ascii_lowercase <$> l).

(** ** Configurations *)

Section config.
Context {Hook Rest : Type} `{!EqDecision Hook, !EqDecision Rest}.

(** [rest]: the addresses of the listeners, SOCKS5, credential providers and
    contexts, plaintext injection. *)
Record NetworkProxyConfig := mkConfig {
  enabled : bool;
  allow_upstream_proxy : bool;
  dangerously_allow_non_loopback_proxy : bool;
  dangerously_allow_all_unix_sockets : option bool;
  mode : NetworkMode;
  domains : option NetworkDomainPermissions;
  unix_sockets : option (gmap rstr NetworkUnixSocketPermission);
  allow_local_binding : option bool;
  mitm : bool;
  mitm_ca : option rstr;
  credential_broker : bool;
  mitm_hooks : list Hook;
  rest : Rest
}.

#[global] Instance NetworkProxyConfig_eq_dec : EqDecision NetworkProxyConfig.
Proof using All. solve_decision. Defined.

Definition with_enabled (b : bool) (c : NetworkProxyConfig) : NetworkProxyConfig :=
  mkConfig b (allow_upstream_proxy c) (dangerously_allow_non_loopback_proxy c) (dangerously_allow_all_unix_sockets c)
    (mode c) (domains c) (unix_sockets c) (allow_local_binding c) (mitm c) (mitm_ca c) (credential_broker c)
    (mitm_hooks c) (rest c).
Definition with_mode (m : NetworkMode) (c : NetworkProxyConfig) : NetworkProxyConfig :=
  mkConfig (enabled c) (allow_upstream_proxy c) (dangerously_allow_non_loopback_proxy c)
    (dangerously_allow_all_unix_sockets c) m (domains c) (unix_sockets c) (allow_local_binding c) (mitm c) (mitm_ca c)
    (credential_broker c) (mitm_hooks c) (rest c).
Definition with_domains (d : option NetworkDomainPermissions) (c : NetworkProxyConfig) : NetworkProxyConfig :=
  mkConfig (enabled c) (allow_upstream_proxy c) (dangerously_allow_non_loopback_proxy c)
    (dangerously_allow_all_unix_sockets c) (mode c) d (unix_sockets c) (allow_local_binding c) (mitm c) (mitm_ca c)
    (credential_broker c) (mitm_hooks c) (rest c).
Definition with_local_binding (b : option bool) (c : NetworkProxyConfig) : NetworkProxyConfig :=
  mkConfig (enabled c) (allow_upstream_proxy c) (dangerously_allow_non_loopback_proxy c)
    (dangerously_allow_all_unix_sockets c) (mode c) (domains c) (unix_sockets c) b (mitm c) (mitm_ca c)
    (credential_broker c) (mitm_hooks c) (rest c).
Definition with_broker (b : bool) (c : NetworkProxyConfig) : NetworkProxyConfig :=
  mkConfig (enabled c) (allow_upstream_proxy c) (dangerously_allow_non_loopback_proxy c)
    (dangerously_allow_all_unix_sockets c) (mode c) (domains c) (unix_sockets c) (allow_local_binding c) (mitm c)
    (mitm_ca c) b (mitm_hooks c) (rest c).

Definition nonempty (l : list rstr) : option (list rstr) := if is_empty l then None else Some l.

Definition domain_entries (c : NetworkProxyConfig) (perm : NetworkDomainPermission) : option (list rstr) :=
  match domains c with
  | Some ds => nonempty (pattern <$> List.filter (λ e, bool_decide (permission e = perm)) (effective_entries ds))
  | None => None
  end.
Definition allowed_domains (c : NetworkProxyConfig) : option (list rstr) := domain_entries c PermAllow.
Definition denied_domains (c : NetworkProxyConfig) : option (list rstr) := domain_entries c PermDeny.

Definition allow_unix_sockets (c : NetworkProxyConfig) : list rstr :=
  match unix_sockets c with
  | Some m => List.map fst (List.filter (λ '(_, p), bool_decide (p = SocketAllow)) (map_to_list m))
  | None => []
  end.

Definition some_nonempty (ds : NetworkDomainPermissions) : option NetworkDomainPermissions :=
  if is_empty ds then None else Some ds.

Definition upsert_domain_permission (host : rstr) (perm : NetworkDomainPermission) (normalize : rstr → rstr)
    (c : NetworkProxyConfig) : NetworkProxyConfig :=
  let ds := default [] (domains c) in
  let normalized_host := normalize host in
  let ds := List.filter (λ e, negb (bool_decide (normalize (pattern e) = normalized_host))) ds in
  with_domains (some_nonempty (ds ++ [mkEntry host perm])) c.

Definition push_entry (perm : NetworkDomainPermission) (ds : NetworkDomainPermissions) (entry : rstr)
    : NetworkDomainPermissions :=
  if existsb (λ e, bool_decide (pattern e = entry) && bool_decide (permission e = perm)) ds then ds
  else ds ++ [mkEntry entry perm].
Definition set_domain_entries (entries : list rstr) (perm : NetworkDomainPermission) (c : NetworkProxyConfig)
    : NetworkProxyConfig :=
  let ds := default [] (domains c) in
  let ds := List.filter (λ e, negb (bool_decide (permission e = perm))) ds in
  with_domains (some_nonempty (foldl (push_entry perm) ds entries)) c.
Definition set_allowed_domains (l : list rstr) : NetworkProxyConfig → NetworkProxyConfig := set_domain_entries l PermAllow.
Definition set_denied_domains (l : list rstr) : NetworkProxyConfig → NetworkProxyConfig := set_domain_entries l PermDeny.

(** *** Listening addresses *)

Definition clamp_non_loopback (addr : IpAddr * N) (allow_non_loopback : bool) : IpAddr * N :=
  if is_loopback addr.1 then addr
  else if allow_non_loopback then addr
  else (V4 LOCALHOST4, addr.2).
Definition clamp_bind_addrs (http_addr socks_addr : IpAddr * N) (cfg : NetworkProxyConfig)
    : (IpAddr * N) * (IpAddr * N) :=
  let http_addr := clamp_non_loopback http_addr (dangerously_allow_non_loopback_proxy cfg) in
  let socks_addr := clamp_non_loopback socks_addr (dangerously_allow_non_loopback_proxy cfg) in
  if is_empty (allow_unix_sockets cfg) && negb (default false (dangerously_allow_all_unix_sockets cfg))
  then (http_addr, socks_addr)
  else ((V4 LOCALHOST4, http_addr.2), (V4 LOCALHOST4, socks_addr.2)).

(** *** Socket paths *)

Definition is_slash (c : char) : bool := bool_decide (c = BACKSLASH) || bool_decide (c = SLASH).

Definition windows_path_is_absolute (path : rstr) : bool :=
  match path with
  | drive :: colon :: s :: _ =>
      if is_ascii_alphabetic drive && bool_decide (colon = COLON) && is_slash s then true
      else
        if is_slash drive && is_slash colon then
          let rest := drop 2 path in
          if starts_with [BACKSLASH; BACKSLASH; QUESTION; BACKSLASH] path
             || match rest with a :: b :: _ => bool_decide (a = DOT) && is_slash b | _ => false end
          then true
          else match split_where is_slash rest with
               | server :: share :: _ => negb (is_empty server) && negb (is_empty share)
               | _ => false
               end
        else false
  | _ => false
  end.

Definition socket_path_is_absolute (platform : Platform) (path : rstr) : bool :=
  starts_with [SLASH] path
  || match path_convention platform with
     | Some Posix => false
     | Some Windows | None => windows_path_is_absolute path
     end.

Definition validate_unix_socket_allowlist_paths (cfg : NetworkProxyConfig) (executor_os : Platform) : result rstr () :=
  if forallb (λ socket_path, socket_path_is_absolute executor_os socket_path && negb (contains [0%N] socket_path))
       (allow_unix_sockets cfg)
  then Ok () else Err ($"invalid network.allow_unix_sockets").

(** *** Checking a configuration *)

Context `{!UrlHost}.
(** [validate_mitm_hook_config], which reads [mitm] and the hooks. *)
Context (validate_mitm_hooks : bool → list Hook → result rstr ()).

Definition validate_allowed_domains (config : NetworkProxyConfig) (constraints : NetworkProxyConstraints)
    : result NetworkProxyConstraintError () :=
  let config_allowed_domains := default [] (allowed_domains config) in
  let denied_domain_overrides := lower_set (default [] (denied_domains config)) in
  match c_allowed_domains constraints with
  | None => Ok ()
  | Some managed =>
      _ ← validate_non_global_wildcard_domain_patterns ($"network.allowed_domains") managed;
      match allowlist_expansion_enabled constraints with
      | Some true =>
          invalid_if ($"network.allowed_domains")
            (negb (bool_decide (lower_set managed ∖ lower_set config_allowed_domains ∖ denied_domain_overrides = ∅)))
      | Some false =>
          invalid_if ($"network.allowed_domains")
            (negb (bool_decide (lower_set config_allowed_domains = lower_set managed ∖ denied_domain_overrides)))
      | None =>
          let managed_patterns := parse_for_constraints <$> managed in
          invalid_if ($"network.allowed_domains")
            (negb (forallb (λ entry, existsb (λ managed, allows managed (parse_for_constraints entry)) managed_patterns)
                     config_allowed_domains))
      end
  end.

Definition validate_denied_domains (config : NetworkProxyConfig) (constraints : NetworkProxyConstraints)
    : result NetworkProxyConstraintError () :=
  let config_denied_domains := default [] (denied_domains config) in
  match c_denied_domains constraints with
  | None => Ok ()
  | Some managed =>
      _ ← validate_non_global_wildcard_domain_patterns ($"network.denied_domains") managed;
      match denylist_expansion_enabled constraints with
      | Some false =>
          invalid_if ($"network.denied_domains")
            (negb (bool_decide (lower_set config_denied_domains = lower_set managed)))
      | Some true | None =>
          invalid_if ($"network.denied_domains")
            (negb (bool_decide (lower_set managed ∖ lower_set config_denied_domains = ∅)))
      end
  end.

Definition validate_allow_unix_sockets (config : NetworkProxyConfig) (constraints : NetworkProxyConstraints)
    : result NetworkProxyConstraintError () :=
  match c_allow_unix_sockets constraints with
  | None => Ok ()
  | Some allowed =>
      invalid_if ($"network.allow_unix_sockets")
        (negb (forallb (λ entry, bool_decide (to_ascii_lowercase entry ∈ lower_set allowed)) (allow_unix_sockets config)))
  end.

Definition opt_binding (c : NetworkProxyConfig) : bool := default false (allow_local_binding c).

Definition validate_policy_against_constraints (config : NetworkProxyConfig) (constraints : NetworkProxyConstraints)
    : result NetworkProxyConstraintError () :=
  _ ← map_err (λ _, InvalidValue ($"network.mitm_hooks")) (validate_mitm_hooks (mitm config) (mitm_hooks config));
  _ ← validate_non_global_wildcard_domain_patterns ($"network.denied_domains") (default [] (denied_domains config));
  _ ← match c_enabled constraints with
      | Some max_enabled => invalid_if ($"network.enabled") (enabled config && negb max_enabled)
      | None => Ok ()
      end;
  _ ← match c_mode constraints with
      | Some max_mode => invalid_if ($"network.mode") (network_mode_rank max_mode <? network_mode_rank (mode config))
      | None => Ok ()
      end;
  _ ← invalid_if ($"network.allow_upstream_proxy")
        (match c_allow_upstream_proxy constraints with
         | Some true | None => false | Some false => allow_upstream_proxy config end);
  _ ← invalid_if ($"network.dangerously_allow_non_loopback_proxy")
        (match c_dangerously_allow_non_loopback_proxy constraints with
         | Some true | None => false | Some false => dangerously_allow_non_loopback_proxy config end);
  _ ← (let allow_all_unix_sockets :=
         default (bool_decide (c_allow_unix_sockets constraints = None))
           (c_dangerously_allow_all_unix_sockets constraints) in
       invalid_if ($"network.dangerously_allow_all_unix_sockets")
         (default false (dangerously_allow_all_unix_sockets config) && negb allow_all_unix_sockets));
  _ ← match c_allow_local_binding constraints with
      | Some allowed => invalid_if ($"network.allow_local_binding") (opt_binding config && negb allowed)
      | None => Ok ()
      end;
  _ ← validate_allowed_domains config constraints;
  _ ← validate_denied_domains config constraints;
  validate_allow_unix_sockets config constraints.

End config.
Arguments NetworkProxyConfig : clear implicits.
