(* ===== verification/NetConfigFacts.v ===== *)
(** * Lemmas on the proxy's configuration and its limits

    The effective permission of a domain, what a validated configuration says
    about the domain lists, and how changing one part of a configuration
    affects the checks. *)

From stdpp Require Import gmap.
From S2P Require Import Prelude RustStr ApiPathString IpAddr NetPolicy NetPolicyFacts NetConfig.

(** ** Effective permissions *)

(** The highest of the permissions given to a pattern. *)
Definition best (es : list NetworkDomainPermissionEntry) (p : rstr) (q : NetworkDomainPermission) : Prop :=
  mkEntry p q ∈ es ∧ ∀ q', mkEntry p q' ∈ es → permission_rank q' ≤ permission_rank q.

Lemma permission_rank_inj a b : permission_rank a = permission_rank b → a = b.
Proof. by destruct a, b. Qed.

Lemma best_unique es p q q' : best es p q → best es p q' → q = q'.
Proof. intros [H1 H2] [H3 H4]. apply permission_rank_inj. apply H2 in H3. apply H4 in H1. lia. Qed.

Lemma best_snoc es e p q : pattern e ≠ p → best (es ++ [e]) p q ↔ best es p q.
Proof.
  intros Hne. unfold best. setoid_rewrite elem_of_app. setoid_rewrite list_elem_of_singleton.
  assert (∀ q', mkEntry p q' ≠ e) as H by (intros q' <-; done).
  split; intros [Hin Hmax].
  - split; [destruct Hin as [?|E]; [done|by apply H in E]|]. auto.
  - split; [by left|]. intros q' [?|E]; [auto|by apply H in E].
Qed.

(** What the fold knows after the entries [es]. *)
Definition effective_inv (es : list NetworkDomainPermissionEntry)
    (acc : list rstr * gmap rstr NetworkDomainPermission) : Prop :=
  NoDup acc.1 ∧ (∀ p, p ∈ acc.1 ↔ is_Some (acc.2 !! p)) ∧ (∀ p q, acc.2 !! p = Some q ↔ best es p q)
  ∧ (∀ e, e ∈ es → pattern e ∈ acc.1).

Lemma entry_eta e : mkEntry (pattern e) (permission e) = e.
Proof. by destruct e. Qed.

Lemma best_new es (e : NetworkDomainPermissionEntry) : (∀ q, mkEntry (pattern e) q ∉ es) → best (es ++ [e]) (pattern e) (permission e).
Proof.
  intros Hno. unfold best. setoid_rewrite elem_of_app. setoid_rewrite list_elem_of_singleton.
  rewrite entry_eta. split; [by right|]. intros q' [Hq|<-]; [by apply Hno in Hq|done].
Qed.

Lemma best_again es (e : NetworkDomainPermissionEntry) q : best es (pattern e) q →
  best (es ++ [e]) (pattern e) (if permission_rank q <? permission_rank (permission e) then permission e else q).
Proof.
  intros [Hin Hmax]. unfold best. setoid_rewrite elem_of_app. setoid_rewrite list_elem_of_singleton.
  destruct (Nat.ltb_spec (permission_rank q) (permission_rank (permission e))) as [Hlt|Hge].
  - rewrite entry_eta. split; [by right|]. intros q' [Hq|<-]; [|done]. apply Hmax in Hq. lia.
  - split; [by left|]. intros q' [Hq|Hq]; [auto|]. rewrite <- Hq in Hge. cbn in Hge. lia.
Qed.

(** A lookup that agrees with [best] after one more entry. *)
Lemma best_step (es : list NetworkDomainPermissionEntry) (e : NetworkDomainPermissionEntry) (m m' : gmap rstr NetworkDomainPermission) :
  (∀ p q, m !! p = Some q ↔ best es p q) → (∀ p, p ≠ pattern e → m' !! p = m !! p) →
  (∃ q, m' !! pattern e = Some q ∧ best (es ++ [e]) (pattern e) q) →
  ∀ p q, m' !! p = Some q ↔ best (es ++ [e]) p q.
Proof.
  intros Hm Hne (q0 & Hq0 & Hb) p q. destruct (decide (p = pattern e)) as [->|Hp].
  - rewrite Hq0. split; [by intros [= <-]|]. intros H. f_equal. by eapply best_unique.
  - rewrite Hne, best_snoc by done. apply Hm.
Qed.

Lemma effective_step_inv es (e : NetworkDomainPermissionEntry) acc : effective_inv es acc → effective_inv (es ++ [e]) (effective_step acc e).
Proof.
  destruct acc as [order m]. intros (Hnd & Hdom & Hbest & Hall). cbn in Hnd, Hdom, Hbest, Hall.
  unfold effective_step. destruct (m !! pattern e) as [q|] eqn:E.
  - pose proof (best_again es e q (proj1 (Hbest _ _) E)) as Hb. revert Hb.
    destruct (permission_rank q <? permission_rank (permission e)); intros Hb; (split; [done|]); cbn.
    + split; [|split].
      * intros p. rewrite Hdom. destruct (decide (pattern e = p)) as [<-|Hp]; [|by rewrite lookup_insert_ne].
        rewrite lookup_insert_eq, E. split; by eexists.
      * apply (best_step es e m); [done| |].
        -- intros p Hp. by rewrite lookup_insert_ne.
        -- eexists. by rewrite lookup_insert_eq.
      * intros e' [He| ->%list_elem_of_singleton]%elem_of_app; [auto|]. apply Hdom. by rewrite E.
    + split; [done|]. split.
      * apply (best_step es e m); [done|done|]. eauto.
      * intros e' [He| ->%list_elem_of_singleton]%elem_of_app; [auto|]. apply Hdom. by rewrite E.
  - assert (∀ q, mkEntry (pattern e) q ∉ es) as Hno.
    { intros q Hq. apply Hall in Hq. cbn in Hq. apply Hdom in Hq as [? ?]. congruence. }
    split; [|split; [|split]]; cbn.
    + apply NoDup_app. split; [done|]. split; [|apply NoDup_singleton].
      intros p Hp ->%list_elem_of_singleton. apply Hdom in Hp as [? ?]. congruence.
    + intros p. rewrite elem_of_app, list_elem_of_singleton, Hdom.
      destruct (decide (pattern e = p)) as [<-|Hp]; [rewrite lookup_insert_eq; split; [by eexists|by right]|].
      rewrite lookup_insert_ne by done. split; [|by left]. intros [?|?]; [done|congruence].
    + apply (best_step es e m); [done| |].
      * intros p Hp. by rewrite lookup_insert_ne.
      * eexists. rewrite lookup_insert_eq. split; [done|]. by apply best_new.
    + intros e' [He| ->%list_elem_of_singleton]%elem_of_app; apply elem_of_app; [auto|]. right. by left.
Qed.

Lemma effective_fold_inv es : effective_inv es (foldl effective_step ([], ∅) es).
Proof.
  induction es as [|e es IH] using rev_ind.
  - cbn. split; [constructor|]. cbn. split; [|split].
    + intros p. rewrite lookup_empty, elem_of_nil. split; [done|by intros []].
    + intros p q. rewrite lookup_empty. unfold best. rewrite elem_of_nil. naive_solver.
    + intros e He. by apply elem_of_nil in He.
  - rewrite foldl_app. by apply effective_step_inv.
Qed.

Lemma take_permissions_spec order m : NoDup order →
  take_permissions order m = omap (λ p, mkEntry p <$> m !! p) order.
Proof.
  intros H. revert m. induction H as [|p order Hp _ IH]; intros m; [done|]. cbn.
  destruct (m !! p) as [q|] eqn:E; cbn; rewrite IH; [|done]. f_equal.

  clear IH E. induction order as [|x order IH]; [done|]. apply not_elem_of_cons in Hp as [Hx Ho]. cbn.
  rewrite lookup_delete_ne by done. destruct (mkEntry x <$> m !! x); [f_equal|]; by apply IH.
Qed.

(** An entry is effective when it has the highest permission of its pattern. *)
Lemma effective_spec es p q : mkEntry p q ∈ effective_entries es ↔ best es p q.
Proof.
  unfold effective_entries. pose proof (effective_fold_inv es) as H.
  destruct (foldl effective_step ([], ∅) es) as [order m]. destruct H as (Hnd & Hdom & Hbest & _).
  cbn in Hnd, Hdom, Hbest. rewrite take_permissions_spec by done. rewrite list_elem_of_omap, <- Hbest. split.
  - intros (x & Hx & Hm). apply fmap_Some in Hm as (y & Hy & E). by simplify_eq.
  - intros Hm. exists p. split; [apply Hdom; by rewrite Hm|]. by rewrite Hm.
Qed.

(** ** Checks in sequence *)

Lemma then_ok {E T} (a : result E ()) (b : result E T) x : (_ ← a; b) = Ok x ↔ a = Ok () ∧ b = Ok x.
Proof. destruct a as [[]|e]; cbn; split; try tauto; [done|by intros []]. Qed.

Lemma invalid_if_ok field b : invalid_if field b = Ok () ↔ b = false.
Proof. unfold invalid_if. by destruct b. Qed.

Section config.
Context {Hook Rest : Type}.
Abbreviation Config := (NetworkProxyConfig Hook Rest).

(** ** Domain lists *)

Lemma elem_of_nonempty l (x : rstr) : x ∈ default [] (nonempty l) ↔ x ∈ l.
Proof. unfold nonempty. by destruct l. Qed.

Lemma domain_entries_spec (c : Config) perm d :
  d ∈ default [] (domain_entries c perm) ↔ best (default [] (domains c)) d perm.
Proof.
  unfold domain_entries. destruct (domains c) as [ds|]; cbn [default].
  - change (id ds) with ds. rewrite elem_of_nonempty, list_elem_of_fmap. setoid_rewrite list_elem_of_In.
    setoid_rewrite filter_In. setoid_rewrite bool_decide_eq_true. rewrite <- effective_spec, list_elem_of_In. split.
    + intros ([p q] & -> & Hin & E). cbn in *. by subst q.
    + intros H. by exists (mkEntry d perm).
  - unfold best. rewrite !elem_of_nil. naive_solver.
Qed.

Lemma denied_not_allowed (c : Config) d :
  d ∈ default [] (denied_domains c) → d ∉ default [] (allowed_domains c).
Proof.
  unfold denied_domains, allowed_domains. rewrite !domain_entries_spec. intros H1 H2.
  by pose proof (best_unique _ _ _ _ H1 H2).
Qed.

Lemma domain_entries_with_mode m (c : Config) perm : domain_entries (with_mode m c) perm = domain_entries c perm.
Proof. done. Qed.

(** *** Entering a domain *)

Section upsert.
Context (c : Config) (host : rstr) (perm : NetworkDomainPermission).
Let c' := upsert_domain_permission host perm normalize_host c.

Lemma upsert_entries e : e ∈ default [] (domains c') ↔
  e = mkEntry host perm ∨ e ∈ default [] (domains c) ∧ normalize_host (pattern e) ≠ normalize_host host.
Proof.
  subst c'. unfold upsert_domain_permission. cbn [domains with_domains].
  assert (∀ l x, is_empty (l ++ [x : NetworkDomainPermissionEntry]) = false) as He by (by intros []).
  unfold some_nonempty. rewrite He. cbn [default]. change id with (λ x : list NetworkDomainPermissionEntry, x).
  cbn beta. rewrite elem_of_app, list_elem_of_singleton, list_elem_of_In, filter_In, <- list_elem_of_In.
  rewrite negb_true_iff, bool_decide_eq_false. tauto.
Qed.

Lemma upsert_domains q d : d ∈ default [] (domain_entries c' q) ↔
  d = host ∧ q = perm ∨ d ∈ default [] (domain_entries c q) ∧ normalize_host d ≠ normalize_host host.
Proof.
  rewrite !domain_entries_spec. unfold best. setoid_rewrite upsert_entries. cbn [pattern]. split.
  - intros [[[= -> ->]|[Hin Hne]] Hmax]; [by left|]. right. split; [|done]. split; [done|].
    intros q' Hq'. apply Hmax. by right.
  - intros [[-> ->]|[[Hin Hmax] Hne]].
    + split; [by left|]. intros q' [[= ->]|[_ ?]]; [done|congruence].
    + split; [by right|]. intros q' [[= -> _]|[Hq' _]]; [congruence|auto].
Qed.
End upsert.

(** *** Replacing the allowed domains *)

Lemma push_entry_elem perm l x e : e ∈ push_entry perm l x ↔ e ∈ l ∨ e = mkEntry x perm.
Proof.
  unfold push_entry. destruct (existsb _ l) eqn:E.
  - apply existsb_exists in E as (y & Hy & H). rewrite andb_true_iff, !bool_decide_eq_true in H. destruct H as [<- <-].
    rewrite entry_eta. apply list_elem_of_In in Hy. split; [by left|by intros [?| ->]].
  - by rewrite elem_of_app, list_elem_of_singleton.
Qed.

Lemma set_allowed_entries l (c : Config) e : e ∈ default [] (domains (set_allowed_domains l c)) ↔
  e ∈ default [] (domains c) ∧ permission e ≠ PermAllow ∨ pattern e ∈ l ∧ permission e = PermAllow.
Proof.
  unfold set_allowed_domains, set_domain_entries. cbn [domains with_domains].
  assert (∀ l : list NetworkDomainPermissionEntry, default [] (some_nonempty l) = l) as H by (by intros []).
  rewrite H. clear H.
  assert (∀ ds, e ∈ foldl (push_entry PermAllow) ds l ↔ e ∈ ds ∨ pattern e ∈ l ∧ permission e = PermAllow) as H.
  { induction l as [|x l IH]; intros ds; cbn [foldl]; [set_solver|]. rewrite IH, push_entry_elem, elem_of_cons.
    destruct e as [p q]. cbn. split; [intros [[?|[= -> ->]]|?]; tauto|]. intros [?|[[->|?] ->]]; tauto. }
  rewrite H, list_elem_of_In, filter_In, <- list_elem_of_In, negb_true_iff, bool_decide_eq_false. done.
Qed.

Lemma set_allowed_denied l (c : Config) d :
  d ∈ default [] (denied_domains (set_allowed_domains l c)) ↔ d ∈ default [] (denied_domains c).
Proof.
  unfold denied_domains. rewrite !domain_entries_spec. unfold best. setoid_rewrite set_allowed_entries. cbn.
  assert (∀ q, permission_rank q ≤ permission_rank PermDeny) as Hmax by (intros []; cbn; lia).
  split; [intros [[[H _]|[_ H]] _]|intros [H _]]; [by split; auto|done|]. split; [left; by split|auto].
Qed.

(** ** What the checks say *)

Context {UH : UrlHost} (validate_mitm_hooks : bool → list Hook → result rstr ()).

Record within_limits (c : Config) (k : NetworkProxyConstraints) : Prop := {
  lim_hooks : validate_mitm_hooks (mitm c) (mitm_hooks c) = Ok ();
  lim_wildcard d : d ∈ default [] (denied_domains c) → is_global_wildcard_domain_pattern d = false;
  lim_enabled : c_enabled k = Some false → enabled c = false;
  lim_mode m : c_mode k = Some m → network_mode_rank (mode c) ≤ network_mode_rank m;
  lim_upstream : c_allow_upstream_proxy k = Some false → allow_upstream_proxy c = false;
  lim_loopback : c_dangerously_allow_non_loopback_proxy k = Some false → dangerously_allow_non_loopback_proxy c = false;
  lim_all_sockets :
    default (bool_decide (c_allow_unix_sockets k = None)) (c_dangerously_allow_all_unix_sockets k) = false →
    default false (dangerously_allow_all_unix_sockets c) = false;
  lim_binding : c_allow_local_binding k = Some false → opt_binding c = false;
  lim_allowed : validate_allowed_domains c k = Ok ();
  lim_denied : validate_denied_domains c k = Ok ();
  lim_sockets : validate_allow_unix_sockets c k = Ok ()
}.

Lemma existsb_false {A} (f : A → bool) l : existsb f l = false ↔ ∀ x, x ∈ l → f x = false.
Proof.
  rewrite <- not_true_iff_false, existsb_exists. setoid_rewrite <- list_elem_of_In. split.
  - intros H x Hx. apply not_true_iff_false. eauto.
  - intros H (x & Hx & E). apply H in Hx. congruence.
Qed.

Lemma validate_within c k : validate_policy_against_constraints validate_mitm_hooks c k = Ok () ↔ within_limits c k.
Proof.
  unfold validate_policy_against_constraints, validate_non_global_wildcard_domain_patterns. cbv zeta.
  rewrite !then_ok, !invalid_if_ok, existsb_false.
  assert (map_err (λ _, InvalidValue ($"network.mitm_hooks")) (validate_mitm_hooks (mitm c) (mitm_hooks c)) = Ok ()
          ↔ validate_mitm_hooks (mitm c) (mitm_hooks c) = Ok ()) as -> by (destruct (validate_mitm_hooks _ _); cbn; split; congruence).
  split.
  - intros (? & ? & He & Hm & Hu & Hl & Hs & Hb & ? & ? & ?). split; try done.
    + intros E. rewrite E, invalid_if_ok, andb_false_iff in He. by destruct He.
    + intros m E. rewrite E, invalid_if_ok, Nat.ltb_ge in Hm. done.
    + intros E. by rewrite E in Hu.
    + intros E. by rewrite E in Hl.
    + intros E. rewrite E, andb_true_r in Hs. done.
    + intros E. rewrite E, invalid_if_ok, andb_true_r in Hb. done.
  - intros []. repeat split; try done.
    + destruct (c_enabled k) as [[]|] eqn:E; [|by rewrite lim_enabled0|done].
      rewrite invalid_if_ok. by rewrite andb_false_r.
    + destruct (c_mode k) eqn:E; [|done]. rewrite invalid_if_ok, Nat.ltb_ge. auto.
    + destruct (c_allow_upstream_proxy k) as [[]|] eqn:E; auto.
    + destruct (c_dangerously_allow_non_loopback_proxy k) as [[]|] eqn:E; auto.
    + destruct (default _ (c_dangerously_allow_all_unix_sockets k)) eqn:E; [by rewrite andb_false_r|]. by rewrite lim_all_sockets0.
    + destruct (c_allow_local_binding k) as [[]|] eqn:E; [|by rewrite lim_binding0|done].
      rewrite invalid_if_ok. by rewrite andb_false_r.
Qed.

(** Another mode within the limits changes no other check. *)
Lemma within_limits_mode m c c' k : within_limits c k → within_limits (with_mode m c') k → within_limits (with_mode m c) k.
Proof. intros [] H. split; try done. intros m' E. exact (lim_mode _ _ H m' E). Qed.

(** The checks read the domain lists as sets. *)
Lemma lower_set_ext l l' : (∀ d, d ∈ l ↔ d ∈ l') → lower_set l = lower_set l'.
Proof.
  intros H. unfold lower_set. apply set_eq. intros x. rewrite !elem_of_list_to_set, !list_elem_of_fmap.
  split; intros (d & -> & Hd); exists d; split; [done|by apply H|done|by apply H].
Qed.

Lemma elem_of_lower_set x l : x ∈ lower_set l ↔ ∃ d, d ∈ l ∧ x = to_ascii_lowercase d.
Proof. unfold lower_set. rewrite elem_of_list_to_set, list_elem_of_fmap. naive_solver. Qed.

(** ** The limits on domains *)

Context {UHL : UrlHostLaws}.

Definition list_hosts (l : list rstr) (s : rstr) : bool := existsb (λ p, pattern_hosts p s) l.

Lemma list_hosts_spec l s : list_hosts l s = true ↔ ∃ p, p ∈ l ∧ pattern_hosts p s = true.
Proof. unfold list_hosts. rewrite existsb_exists. by setoid_rewrite <- list_elem_of_In. Qed.

(** The case of a plain pattern does not matter. *)
Lemma pattern_hosts_lower p q s : forallb pattern_char p = true → forallb pattern_char q = true →
  to_ascii_lowercase p = to_ascii_lowercase q → pattern_hosts p s = pattern_hosts q s.
Proof.
  assert (∀ p, forallb pattern_char p = true →
    expand_domain_pattern (normalize_pattern p) = expand_domain_pattern (normalize_pattern (to_ascii_lowercase p))) as H.
  { intros r Hr. rewrite (plain_expand r) by done. rewrite plain_expand by (by apply plain_lower). rewrite view_lower.
    assert (∀ d, normalize_domain (to_ascii_lowercase d) = normalize_domain d) as Hd.
    { intros d. by rewrite !normalize_domain_alt, lower_idem. }
    destruct (view r); cbn [map_domain]; by rewrite Hd. }
  intros Hp Hq E. unfold pattern_hosts. by rewrite (H p), (H q), E.
Qed.

Lemma plain_chars p : plain_pattern p = true → forallb pattern_char p = true.
Proof. unfold plain_pattern. rewrite andb_true_iff. tauto. Qed.

Lemma allowed_within_managed (c : Config) k managed s :
  validate_allowed_domains c k = Ok () → c_allowed_domains k = Some managed → allowlist_expansion_enabled k ≠ Some true →
  forallb plain_pattern managed = true → forallb plain_pattern (default [] (allowed_domains c)) = true → host_start s →
  list_hosts (default [] (allowed_domains c)) s = true → list_hosts managed s = true.
Proof.
  unfold validate_allowed_domains. cbv zeta. intros Hv Hk Hexp Hm Hc Hs. rewrite Hk, then_ok in Hv. destruct Hv as [_ Hv].
  rewrite forallb_forall in Hm, Hc. setoid_rewrite <- list_elem_of_In in Hm. setoid_rewrite <- list_elem_of_In in Hc.
  rewrite !list_hosts_spec. intros (p & Hp & Hh).
  destruct (allowlist_expansion_enabled k) as [[]|]; [done| |]; apply invalid_if_ok, negb_false_iff in Hv.
  - apply bool_decide_eq_true in Hv. assert (to_ascii_lowercase p ∈ lower_set managed) as Hin.
    { cut (to_ascii_lowercase p ∈ lower_set (default [] (allowed_domains c))); [rewrite Hv; set_solver|].
      apply elem_of_lower_set. eauto. }
    apply elem_of_lower_set in Hin as (m & Hin & E). exists m. split; [done|].
    rewrite <- (pattern_hosts_lower p m); auto using plain_chars.
  - rewrite forallb_forall in Hv. pose proof (proj1 (list_elem_of_In _ _) Hp) as Hin.
    apply Hv, existsb_exists in Hin as (pm & Hpm & Ha). apply list_elem_of_In, list_elem_of_fmap in Hpm as (m & -> & Hin).
    exists m. split; [done|]. assert (s ≠ []) as Hne by (by destruct Hs as (? & ? & -> & _)).
    apply plain_hosts in Hh; [|by auto|done]. apply plain_hosts; [by auto|done|]. by eapply allows_sound.
Qed.

Lemma denied_covers_managed (c : Config) k managed s :
  validate_denied_domains c k = Ok () → c_denied_domains k = Some managed →
  forallb plain_pattern managed = true → forallb plain_pattern (default [] (denied_domains c)) = true →
  list_hosts managed s = true → list_hosts (default [] (denied_domains c)) s = true.
Proof.
  unfold validate_denied_domains. cbv zeta. intros Hv Hk Hm Hc. rewrite Hk, then_ok in Hv. destruct Hv as [_ Hv].
  rewrite forallb_forall in Hm, Hc. setoid_rewrite <- list_elem_of_In in Hm. setoid_rewrite <- list_elem_of_In in Hc.
  rewrite !list_hosts_spec. intros (m & Hin & Hh).
  assert (lower_set managed ⊆ lower_set (default [] (denied_domains c))) as Hsub.
  { destruct (denylist_expansion_enabled k) as [[]|]; apply invalid_if_ok, negb_false_iff, bool_decide_eq_true in Hv;
      [|by rewrite Hv|]; intros x Hx; destruct (decide (x ∈ lower_set (default [] (denied_domains c)))) as [?|Hn];
      try done; assert (x ∈ lower_set managed ∖ lower_set (default [] (denied_domains c))) as H by (by apply elem_of_difference);
      rewrite Hv in H; by apply elem_of_empty in H. }
  assert (to_ascii_lowercase m ∈ lower_set (default [] (denied_domains c))) as (p & Hp & E)%elem_of_lower_set.
  { apply Hsub, elem_of_lower_set. eauto. }
  exists p. split; [done|]. rewrite <- (pattern_hosts_lower m p); auto using plain_chars.
Qed.

End config.
