(* ===== verification/NetProxy.v ===== *)
(** * The network proxy at run time

    [network-proxy/src/runtime.rs], [network_policy.rs] and
    [connect_policy.rs]: the state built from a configuration, the decision on
    a host, the client that may widen it, the check of an address about to be
    connected to, and the operations that change the state.

    The answers of the outside are arguments: what DNS answers, what the
    loader of the configuration returns, whether hooks compile and the
    certificates can be made.  An operation is a sequence of sections between
    two awaits; [advance] runs one section, and [net_step] lets any of the
    running operations make the next one.  Logging and telemetry other than
    the audit event are left out, as are the operations that only read. *)

From stdpp Require Import gmap.
From S2P Require Import Prelude RustStr ApiPathString IpAddr NetPolicy NetConfig.

(** ** Decisions *)

Inductive HostBlockReason := Denied | NotAllowed | NotAllowedLocal.
Definition reason_as_str (r : HostBlockReason) : rstr :=
  match r with
  | Denied => $"denied"
  | NotAllowed => $"not_allowed"
  | NotAllowedLocal => $"not_allowed_local"
  end.
Inductive HostBlockDecision := Allowed | Blocked (reason : HostBlockReason).

Inductive NetworkProtocol := ProtoHttp | ProtoHttpsConnect | ProtoSocks5Tcp | ProtoSocks5Udp.
Inductive NetworkPolicyDecision := PolicyDeny | PolicyAsk.
Inductive NetworkDecisionSource := BaselinePolicy | ModeGuard | ProxyState | Decider.
Inductive NetworkDecision :=
| NetAllow
| NetDeny (reason : rstr) (source : NetworkDecisionSource) (decision : NetworkPolicyDecision).

Definition policy_decision_as_str (d : NetworkPolicyDecision) : rstr :=
  match d with PolicyDeny => $"deny" | PolicyAsk => $"ask" end.

Definition REASON_POLICY_DENIED : rstr := $"policy_denied".
Definition or_policy_denied (reason : rstr) : rstr := if is_empty reason then REASON_POLICY_DENIED else reason.
Definition deny_with_source (reason : rstr) (source : NetworkDecisionSource) : NetworkDecision :=
  NetDeny (or_policy_denied reason) source PolicyDeny.
Definition ask_with_source (reason : rstr) (source : NetworkDecisionSource) : NetworkDecision :=
  NetDeny (or_policy_denied reason) source PolicyAsk.
Definition deny (reason : rstr) : NetworkDecision := deny_with_source reason Decider.
Definition ask (reason : rstr) : NetworkDecision := ask_with_source reason Decider.

Definition map_decider_decision (d : NetworkDecision) : NetworkDecision :=
  match d with
  | NetAllow => NetAllow
  | NetDeny reason _ decision => NetDeny reason Decider decision
  end.

Record BlockedRequest := mkBlocked {
  b_host : rstr;
  b_reason : rstr;
  b_client : option rstr;
  b_method : option rstr;
  b_mode : option NetworkMode;
  b_protocol : rstr;
  b_execution_id : option rstr;
  b_decision : option rstr;
  b_source : option rstr;
  b_port : option N;
  b_timestamp : Z
}.

Definition MAX_BLOCKED_EVENTS : nat := 200.
Definition U64_MAX : N := (2 ^ 64 - 1)%N.

Inductive LocalBindingPolicy := DefaultFalse | RequireTrue.
#[global] Instance LocalBindingPolicy_eq_dec : EqDecision LocalBindingPolicy.
Proof. solve_decision. Defined.

#[global] Instance Platform_eq_dec : EqDecision Platform.
Proof. solve_decision. Defined.

Section runtime.
Context {Hook Rest : Type} `{!EqDecision Hook, !EqDecision Rest}.
(** The compiled hooks and the certificates of the MITM proxy. *)
Context {Hooks MitmState : Type}.
Context `{!UrlHost, !GlobOps}.
Context (validate_mitm_hooks : bool → list Hook → result rstr ()).

Abbreviation Config := (NetworkProxyConfig Hook Rest).

Definition resolve (self : LocalBindingPolicy) (config : Config) : bool :=
  default (enabled config && bool_decide (self = RequireTrue)) (allow_local_binding config).
Definition resolved_config (self : LocalBindingPolicy) (config : Config) : Config :=
  with_local_binding (Some (resolve self config)) config.

Record ConfigState := mkState {
  executor_os : Platform;
  config : Config;
  brokerage_created_default_allowlist : bool;
  allow_set : GlobSet;
  deny_set : GlobSet;
  mitm_state : option MitmState;
  mitm_hooks_by_host : Hooks;
  constraints : NetworkProxyConstraints;
  blocked : list BlockedRequest;
  blocked_total : N
}.

Definition with_config (c : Config) (s : ConfigState) : ConfigState :=
  mkState (executor_os s) c (brokerage_created_default_allowlist s) (allow_set s) (deny_set s) (mitm_state s)
    (mitm_hooks_by_host s) (constraints s) (blocked s) (blocked_total s).
Definition with_blocked (b : list BlockedRequest) (total : N) (s : ConfigState) : ConfigState :=
  mkState (executor_os s) (config s) (brokerage_created_default_allowlist s) (allow_set s) (deny_set s) (mitm_state s)
    (mitm_hooks_by_host s) (constraints s) b total.

(** What compiling the hooks and making the certificates gives. *)
Record BuildEnv := mkBuildEnv {
  compile_mitm_hooks : Config → result rstr Hooks;
  new_mitm_state : Config → result rstr MitmState
}.

Definition ensure (cond : bool) (message : rstr) : result rstr () := if cond then Ok () else Err message.

(** The changes [build_config_state] makes to the configuration first. *)
Definition brokerage_created_proxy (c : Config) : bool := credential_broker c && negb (enabled c).
Definition created_default_allowlist (c : Config) (k : NetworkProxyConstraints) : bool :=
  brokerage_created_proxy c && bool_decide (allowed_domains c = None) && bool_decide (c_allowed_domains k = None).
Definition adjust_config (c : Config) (k : NetworkProxyConstraints) : Config * bool :=
  let c := if bool_decide (c_enabled k = Some false) then with_broker false c else c in
  let created := brokerage_created_proxy c in
  let default_allowlist := created_default_allowlist c k in
  let c := if created then with_enabled true c else c in
  let c := if default_allowlist then set_allowed_domains [[STAR]] c else c in
  (c, default_allowlist).

Definition build_config_state (env : BuildEnv) (config0 : Config) (k : NetworkProxyConstraints) (os : Platform)
    : result rstr ConfigState :=
  let '(c, default_allowlist) := adjust_config config0 k in
  _ ← validate_unix_socket_allowlist_paths c os;
  _ ← ensure (negb (credential_broker c) || mitm c) ($"network.credential_broker requires network.mitm = true");
  _ ← ensure (bool_decide (mitm_ca c = None) || mitm c) ($"network.mitm_ca requires network.mitm = true");
  let allowed := default [] (allowed_domains c) in
  let denied := default [] (denied_domains c) in
  _ ← map_err (λ '(InvalidValue field), field)
        (validate_non_global_wildcard_domain_patterns ($"network.denied_domains") denied);
  dset ← compile_denylist_globset denied;
  aset ← compile_allowlist_globset allowed;
  hooks ← compile_mitm_hooks env c;
  m ← (if mitm c then Some <$> new_mitm_state env c else Ok None);
  Ok (mkState os c default_allowlist aset dset m hooks k [] 0).

(** *** The decision on a host *)

Definition is_explicit_local_allowlisted (allowed : list rstr) (host : rstr) : bool :=
  let unscoped_host := unscoped_ip_literal host in
  existsb (λ pattern,
    let pattern := trim pattern in
    if bool_decide (pattern = [STAR]) || starts_with SUBDOMAINS pattern || starts_with APEX pattern then false
    else if contains [STAR] pattern || contains [QUESTION] pattern then false
    else
      let normalized_pattern := normalize_host pattern in
      bool_decide (normalized_pattern = host)
      || is_some_and (λ ip, bool_decide (normalized_pattern = ip)) unscoped_host) allowed.

(** [lookup]: the addresses, [None] when the lookup fails or times out. *)
Definition host_resolves_to_non_public_ip (lookup : rstr → N → option (list IpAddr)) (host : rstr) (port : N) : bool :=
  match parse_ip host with
  | Some ip => is_non_public_ip ip
  | None =>
      match lookup host port with
      | None => true
      | Some addrs => existsb is_non_public_ip addrs
      end
  end.

Definition is_local_literal (host : rstr) : bool :=
  let host_no_scope := default host (unscoped_ip_literal host) in
  if is_loopback_host host then true
  else match parse_ip host_no_scope with
       | Some ip => is_non_public_ip ip
       | None => false
       end.

Definition host_blocked_with_local_binding (policy : LocalBindingPolicy) (lookup : rstr → N → option (list IpAddr))
    (guard : ConfigState) (input : rstr) (port : N) (local_binding : option bool) : HostBlockDecision :=
  match Host_parse input with
  | None => Blocked NotAllowed
  | Some host =>
      let allow_local := default (resolve policy (config guard)) local_binding
                         && negb (bool_decide (allow_local_binding (config guard) = Some false)) in
      let allowed := allowed_domains (config guard) in
      let allowed_domains_empty := bool_decide (allowed = None) in
      let allowed := default [] allowed in
      if globset_matches_host_or_unscoped (deny_set guard) host then Blocked Denied
      else
        let is_allowlisted := globset_matches_host_or_unscoped (allow_set guard) host in
        let final := if allowed_domains_empty || negb is_allowlisted then Blocked NotAllowed else Allowed in
        if negb allow_local then
          if is_local_literal host then
            if negb (is_explicit_local_allowlisted allowed host) then Blocked NotAllowedLocal else final
          else if host_resolves_to_non_public_ip lookup host port then Blocked NotAllowedLocal
          else final
        else final
  end.
Definition host_blocked (policy : LocalBindingPolicy) (lookup : rstr → N → option (list IpAddr)) (guard : ConfigState)
    (host : rstr) (port : N) : HostBlockDecision :=
  host_blocked_with_local_binding policy lookup guard host port None.

(** *** Asking the decider *)

Section requests.
(** What a request carries to watch for its end. *)
Context {Handles : Type}.

Record NetworkPolicyRequest := mkRequest {
  r_protocol : NetworkProtocol;
  r_host : rstr;
  r_port : N;
  r_environment_id : option rstr;
  r_client_addr : option rstr;
  r_method : option rstr;
  r_command : option rstr;
  r_exec_policy_hint : option rstr;
  r_execution_id : option rstr;
  r_handles : Handles
}.

Definition for_decider (environment_id execution_id : option rstr) (r : NetworkPolicyRequest) : NetworkPolicyRequest :=
  mkRequest (r_protocol r) (r_host r) (r_port r)
    (match r_environment_id r with Some e => Some e | None => environment_id end)
    (r_client_addr r) (r_method r) (r_command r) (r_exec_policy_hint r) execution_id (r_handles r).

(** The arguments of the audit event. *)
Record PolicyAuditEvent := mkAudit {
  a_decision : rstr;
  a_source : NetworkDecisionSource;
  a_reason : rstr;
  a_protocol : NetworkProtocol;
  a_server_address : rstr;
  a_server_port : N;
  a_method : option rstr;
  a_client_addr : option rstr;
  a_execution_id : option rstr;
  a_policy_override : bool
}.

Definition evaluate_host_policy (environment_id execution_id : option rstr)
    (decider : option (NetworkPolicyRequest → NetworkDecision)) (host_decision : HostBlockDecision)
    (request : NetworkPolicyRequest) : NetworkDecision * PolicyAuditEvent :=
  let '(decision, policy_override) :=
    match host_decision with
    | Allowed => (NetAllow, false)
    | Blocked NotAllowed =>
        match decider with
        | Some decide =>
            let decider_decision := map_decider_decision (decide (for_decider environment_id execution_id request)) in
            (decider_decision, match decider_decision with NetAllow => true | _ => false end)
        | None => (deny_with_source (reason_as_str NotAllowed) BaselinePolicy, false)
        end
    | Blocked reason => (deny_with_source (reason_as_str reason) BaselinePolicy, false)
    end in
  let '(policy_decision, source, reason) :=
    match decision with
    | NetAllow =>
        ($"allow", if policy_override then Decider else BaselinePolicy,
         if policy_override then reason_as_str NotAllowed else $"allow")
    | NetDeny reason source decision => (policy_decision_as_str decision, source, reason)
    end in
  (decision,
   mkAudit policy_decision source reason (r_protocol request) (r_host request) (r_port request) (r_method request)
     (r_client_addr request) execution_id policy_override).

End requests.

(** *** Connecting *)

(** [rama_net::address::Host] and its text. *)
Inductive TargetHost := Address (ip : IpAddr) | Name (name : rstr).
Context (host_to_string : TargetHost → rstr).

Definition is_non_public_target (host : TargetHost) : bool :=
  match host with
  | Address ip => is_non_public_ip ip
  | Name name => eq_ignore_ascii_case (trim_end_dots name) ($"localhost")
  end.

Definition target_matches_non_public_addr (host : TargetHost) (addr : IpAddr) : bool :=
  match host with
  | Address ip => bool_decide (ip = addr)
  | Name name => eq_ignore_ascii_case (trim_end_dots name) ($"localhost") && is_loopback addr
  end.

(** [guard1] and [guard2] are the states the two reads find. *)
Definition allows_non_public_target (policy : LocalBindingPolicy) (lookup : rstr → N → option (list IpAddr))
    (guard1 guard2 : ConfigState) (target : TargetHost) (port : N) (addr : IpAddr) : bool :=
  if resolve policy (config guard1) then true
  else if negb (target_matches_non_public_addr target addr) then false
  else match host_blocked policy lookup guard2 (host_to_string target) port with Allowed => true | Blocked _ => false end.

(** Whether [connect] goes on to open the connection. *)
Definition connects (policy : LocalBindingPolicy) (lookup : rstr → N → option (list IpAddr))
    (guard1 guard2 : ConfigState) (target : TargetHost) (port : N) (addr : IpAddr) : bool :=
  negb (is_non_public_ip addr && negb (allows_non_public_target policy lookup guard1 guard2 target port addr)).

(** Whether [serve] opens a connection to [addr], an address of the target or,
    if the request is bound for an upstream proxy, of that proxy, which it
    opens unchecked; [None] is a target without a port, an error. *)
Definition serve (policy : LocalBindingPolicy) (lookup : rstr → N → option (list IpAddr))
    (guard1 guard2 : ConfigState) (proxy_address : bool) (target : option (TargetHost * N)) (addr : IpAddr) : bool :=
  if proxy_address then true
  else match target with
       | None => false
       | Some (host, port) => connects policy lookup guard1 guard2 host port addr
       end.

(** ** Operations *)

Inductive DomainListKind := KindAllow | KindDeny.

Definition kind_permission (k : DomainListKind) : NetworkDomainPermission :=
  match k with KindAllow => PermAllow | KindDeny => PermDeny end.
Definition kind_entries (k : DomainListKind) (c : Config) : list rstr :=
  match k with KindAllow => default [] (allowed_domains c) | KindDeny => default [] (denied_domains c) end.
Definition opposite_entries (k : DomainListKind) (c : Config) : list rstr :=
  match k with KindAllow => default [] (denied_domains c) | KindDeny => default [] (allowed_domains c) end.

(** Buffers of a state that replaces [guard]. *)
Definition keep_blocked (guard new_state : ConfigState) : ConfigState :=
  with_blocked (blocked guard) (blocked_total guard) new_state.
(** [force_reload] keeps the entries only. *)
Definition keep_entries (guard new_state : ConfigState) : ConfigState :=
  with_blocked (blocked guard) (blocked_total new_state) new_state.

Definition saturating_succ (n : N) : N := N.min (n + 1) U64_MAX.

(** The loop that pops from the front. *)
Fixpoint trim_front (fuel : nat) (l : list BlockedRequest) : list BlockedRequest :=
  match fuel with
  | O => l
  | S fuel => if MAX_BLOCKED_EVENTS <? length l then trim_front fuel (tail l) else l
  end.
Definition push_blocked (entry : BlockedRequest) (guard : ConfigState) : ConfigState :=
  let l := blocked guard ++ [entry] in
  with_blocked (trim_front (length l) l) (saturating_succ (blocked_total guard)) guard.

Definition set_execution_id (id : option rstr) (e : BlockedRequest) : BlockedRequest :=
  mkBlocked (b_host e) (b_reason e) (b_client e) (b_method e) (b_mode e) (b_protocol e) id (b_decision e) (b_source e)
    (b_port e) (b_timestamp e).

Inductive Op :=
| OpRecord (entry : BlockedRequest)
| OpDrain
| OpSetMode (m : NetworkMode)
| OpUpdate (normalized_host : rstr) (kind : DomainListKind)
| OpReplace (new_state : ConfigState)
| OpForceReload.

Inductive OpResult :=
| Done_ (drained : list BlockedRequest)
| Failed (message : rstr).

(** Where an operation is: about to ask the loader, about to install what it
    returned, about to take the lock, or holding what it computed from a
    state it has read. *)
Inductive Pc :=
| Reloading (op : Op)
| Installing (new_state : ConfigState) (op : Op)
| Ready (op : Op)
| ModeChecked (m : NetworkMode) (k : NetworkProxyConstraints)
| Built (normalized_host : rstr) (kind : DomainListKind) (previous : Config) (k : NetworkProxyConstraints) (os : Platform)
    (new_state : ConfigState)
| ForceInstalling (new_state : ConfigState)
| Finished (r : OpResult).

(** What the loader and the builder answer while a section runs. *)
Record World := mkWorld {
  maybe_reload : result rstr (option ConfigState);
  reload_now : result rstr ConfigState;
  build_env : BuildEnv
}.

Section proxy.
Context (local_binding_policy : LocalBindingPolicy) (execution_id : option rstr).

Definition start (op : Op) : Pc :=
  match op with OpForceReload => Ready OpForceReload | _ => Reloading op end.
Definition add_domain (host : rstr) (kind : DomainListKind) : Pc :=
  match Host_parse host with
  | None => Finished (Failed ($"invalid network host"))
  | Some normalized_host => start (OpUpdate normalized_host kind)
  end.

Definition check_policy (c : Config) (k : NetworkProxyConstraints) : result NetworkProxyConstraintError () :=
  validate_policy_against_constraints validate_mitm_hooks (resolved_config local_binding_policy c) k.

Definition read_for_update (env : BuildEnv) (guard : ConfigState) (normalized_host : rstr) (kind : DomainListKind) : Pc :=
  let previous := config guard in
  let contains_host entries := existsb (λ e, bool_decide (normalize_host e = normalized_host)) entries in
  if contains_host (kind_entries kind previous) && negb (contains_host (opposite_entries kind previous))
  then Finished (Done_ [])
  else
    let candidate := upsert_domain_permission normalized_host (kind_permission kind) normalize_host previous in
    match check_policy candidate (constraints guard) with
    | Err (InvalidValue field) => Finished (Failed field)
    | Ok _ =>
        match build_config_state env candidate (constraints guard) (executor_os guard) with
        | Err e => Finished (Failed e)
        | Ok new_state =>
            Built normalized_host kind previous (constraints guard) (executor_os guard) (keep_blocked guard new_state)
        end
    end.

Definition read_for_mode (guard : ConfigState) (m : NetworkMode) : Pc :=
  match check_policy (with_mode m (config guard)) (constraints guard) with
  | Err (InvalidValue field) => Finished (Failed field)
  | Ok _ => ModeChecked m (constraints guard)
  end.

Definition write_mode (m : NetworkMode) (k : NetworkProxyConstraints) (guard : ConfigState) : ConfigState * Pc :=
  if bool_decide (constraints guard ≠ k) then (guard, Reloading (OpSetMode m))
  else (with_config (with_mode m (config guard)) guard, Finished (Done_ [])).

Definition write_update (normalized_host : rstr) (kind : DomainListKind) (previous : Config) (k : NetworkProxyConstraints)
    (os : Platform) (new_state guard : ConfigState) : ConfigState * Pc :=
  if bool_decide (constraints guard ≠ k) || bool_decide (config guard ≠ previous) || bool_decide (executor_os guard ≠ os)
  then (guard, Reloading (OpUpdate normalized_host kind))
  else (new_state, Finished (Done_ [])).

Definition drain_blocked (guard : ConfigState) : ConfigState * Pc :=
  (with_blocked [] (blocked_total guard) guard, Finished (Done_ (blocked guard))).

Definition replace_config_state (new_state guard : ConfigState) : ConfigState * Pc :=
  (keep_blocked guard new_state, Finished (Done_ [])).

Definition force_reload (w : World) (guard : ConfigState) : ConfigState * Pc :=
  match reload_now w with
  | Ok new_state => (guard, ForceInstalling new_state)
  | Err e => (guard, Finished (Failed e))
  end.

Definition reload_if_needed (w : World) (guard : ConfigState) (op : Op) : ConfigState * Pc :=
  match maybe_reload w with
  | Err e => (guard, Finished (Failed e))
  | Ok None => (guard, Ready op)
  | Ok (Some new_state) => (guard, Installing new_state op)
  end.

(** The first section of an operation, after [reload_if_needed] if it starts
    with that. *)
Definition run_ready (w : World) (guard : ConfigState) (op : Op) : ConfigState * Pc :=
  match op with
  | OpRecord entry => (push_blocked (set_execution_id execution_id entry) guard, Finished (Done_ []))
  | OpDrain => drain_blocked guard
  | OpSetMode m => (guard, read_for_mode guard m)
  | OpUpdate normalized_host kind => (guard, read_for_update (build_env w) guard normalized_host kind)
  | OpReplace new_state => replace_config_state new_state guard
  | OpForceReload => force_reload w guard
  end.

Definition advance (w : World) (guard : ConfigState) (pc : Pc) : ConfigState * Pc :=
  match pc with
  | Reloading op => reload_if_needed w guard op
  | Installing new_state op => (keep_blocked guard new_state, Ready op)
  | Ready op => run_ready w guard op
  | ModeChecked m k => write_mode m k guard
  | Built normalized_host kind previous k os new_state => write_update normalized_host kind previous k os new_state guard
  | ForceInstalling new_state => (keep_entries guard new_state, Finished (Done_ []))
  | Finished r => (guard, Finished r)
  end.

(** The states that come from outside, from the loader or a caller. *)
Definition world_loads (loaded : ConfigState → Prop) (w : World) : Prop :=
  (∀ s, maybe_reload w = Ok (Some s) → loaded s) ∧ (∀ s, reload_now w = Ok s → loaded s).
Definition op_loads (loaded : ConfigState → Prop) (op : Op) : Prop :=
  match op with OpReplace s => loaded s | _ => True end.

(** Any operation that is running makes its next section, or a new one starts. *)
Inductive net_step (loaded : ConfigState → Prop) : ConfigState * list Pc → ConfigState * list Pc → Prop :=
| step_start guard tasks op : op_loads loaded op → net_step loaded (guard, tasks) (guard, tasks ++ [start op])
| step_add guard tasks host kind : net_step loaded (guard, tasks) (guard, tasks ++ [add_domain host kind])
| step_run guard tasks i pc w guard' pc' :
    tasks !! i = Some pc → world_loads loaded w → advance w guard pc = (guard', pc') →
    net_step loaded (guard, tasks) (guard', <[i := pc']> tasks).

End proxy.
End runtime.
