(* ===== verification/NetProxyFacts.v ===== *)
(** * Lemmas on the proxy at run time

    A state built from a configuration within the limits keeps them; every
    section of every operation keeps the state consistent with its
    configuration, within the limits and its buffer bounded. *)
From stdpp Require Import gmap relations.
From stdpp Require Import gmap.
From S2P Require Import Prelude RustStr ApiPathString IpAddr NetPolicy NetPolicyFacts NetConfig NetConfigFacts NetProxy.


Section facts.
Context {Hook Rest : Type} `{!EqDecision Hook, !EqDecision Rest} {Hooks MitmState : Type}.
Context {UH : UrlHost} {GO : GlobOps}.
Context (validate_mitm_hooks : bool → list Hook → result rstr ()).
Context (policy : LocalBindingPolicy).

Abbreviation Config := (NetworkProxyConfig Hook Rest).
Abbreviation State := (@ConfigState Hook Rest Hooks MitmState GO).
Abbreviation within := (within_limits validate_mitm_hooks).

(** ** Building a state *)

Lemma with_broker_id (c : Config) : credential_broker c = false → with_broker false c = c.
Proof. destruct c. cbn. by intros ->. Qed.

Lemma adjust_id (c : Config) k : (credential_broker c = true → enabled c = true) →
  (c_enabled k = Some false → credential_broker c = false) → adjust_config c k = (c, false).
Proof.
  intros Hb Hk. unfold adjust_config.
  assert ((if bool_decide (c_enabled k = Some false) then with_broker false c else c) = c) as ->.
  { case_bool_decide; [|done]. apply with_broker_id. auto. }
  cbv zeta. unfold created_default_allowlist, brokerage_created_proxy.
  destruct (credential_broker c); [|done]. by rewrite Hb.
Qed.

Lemma adjust_broker (c c' : Config) k d : adjust_config c k = (c', d) →
  (credential_broker c' = true → enabled c' = true) ∧ (c_enabled k = Some false → credential_broker c' = false).
Proof.
  unfold adjust_config. cbv zeta. intros [= <- _]. case_bool_decide as Hk; [by cbn; rewrite ?andb_false_l|].
  unfold created_default_allowlist, brokerage_created_proxy.
  destruct (credential_broker c) eqn:E1, (enabled c) eqn:E2; cbn [andb negb];
    repeat case_match; cbn; rewrite ?E1, ?E2; split; done.
Qed.

Lemma validate_denied_ext (c c' : Config) k :
  (∀ d, d ∈ default [] (denied_domains c) ↔ d ∈ default [] (denied_domains c')) →
  validate_denied_domains c k = validate_denied_domains c' k.
Proof. intros H. unfold validate_denied_domains. by rewrite (lower_set_ext _ _ H). Qed.

(** The changes made first keep a configuration within its limits, unless
    they turn on the default of the local binding. *)
Lemma adjust_within (c c' : Config) k d :
  policy = DefaultFalse ∨ allow_local_binding c ≠ None ∨ c_allow_local_binding k ≠ Some false →
  within (resolved_config policy c) k → adjust_config c k = (c', d) → within (resolved_config policy c') k.
Proof.
  intros Hpol Hw. unfold adjust_config. cbv zeta. intros [= <- _].
  set (c1 := if bool_decide (c_enabled k = Some false) then with_broker false c else c).
  assert (within (resolved_config policy c1) k ∧ (allow_local_binding c1 = allow_local_binding c)
          ∧ (brokerage_created_proxy c1 = true → c_enabled k ≠ Some false)) as (Hw1 & Hl1 & Hk1).
  { subst c1. case_bool_decide as E; [|done]. split; [destruct Hw; by split|done]. }
  clearbody c1. clear Hw. rename c into c0. rename c1 into c.
  destruct (brokerage_created_proxy c) eqn:Eb; unfold created_default_allowlist; rewrite Eb; cbn [andb]; [|done].
  set (c2 := with_enabled true c).
  assert (resolve policy c2 = true → c_allow_local_binding k = Some false → resolve policy c = true) as Hres.
  { unfold resolve. subst c2. cbn. rewrite Hl1. destruct (allow_local_binding c0); [done|]. cbn.
    destruct Hpol as [->|[?|?]]; [|done..]. by rewrite !bool_decide_eq_false_2, andb_false_r by done. }
  assert (within (resolved_config policy c2) k) as Hw2.
  { destruct Hw1. split; try done.
    - intros E. by destruct (Hk1 eq_refl).
    - intros E. apply not_true_iff_false. intros Ht. specialize (lim_binding E).
      unfold opt_binding, resolved_config in *. cbn in *. unfold id in *. rewrite (Hres Ht E) in lim_binding. done. }
  destruct (bool_decide (c_allowed_domains k = None)) eqn:Ek; [|by rewrite andb_false_r].
  apply bool_decide_eq_true in Ek. rewrite andb_true_r.
  destruct (bool_decide (allowed_domains c = None)); [|done].
  destruct Hw2. split; try done.
  - intros x Hx. apply lim_wildcard. by apply (set_allowed_denied [[STAR]] c2 x).
  - unfold validate_allowed_domains. by rewrite Ek.
  - rewrite <- lim_denied. apply validate_denied_ext. intros x. apply (set_allowed_denied [[STAR]] c2 x).
Qed.

(** ** Consistent states *)

(** What a state promises about its policy: the configuration is within the
    limits, the compiled lists are those of the configuration, and brokerage
    runs only in a proxy that is on and sees into TLS. *)
Record policy_ok (s : State) : Prop := {
  ok_limits : within (resolved_config policy (config s)) (constraints s);
  ok_allow : compile_allowlist_globset (default [] (allowed_domains (config s))) = Ok (allow_set s);
  ok_deny : compile_denylist_globset (default [] (denied_domains (config s))) = Ok (deny_set s);
  ok_broker : credential_broker (config s) = true → enabled (config s) = true ∧ mitm (config s) = true;
  ok_off : c_enabled (constraints s) = Some false → credential_broker (config s) = false
}.

Definition buffers_ok (s : State) : Prop := length (blocked s) ≤ MAX_BLOCKED_EVENTS ∧ (blocked_total s ≤ U64_MAX)%N.

Lemma policy_ok_blocked b t (s : State) : policy_ok s → policy_ok (with_blocked b t s).
Proof. intros []. by split. Qed.

Lemma build_result env (c c' : Config) k os d (s : State) : adjust_config c k = (c', d) → build_config_state env c k os = Ok s →
  config s = c' ∧ constraints s = k ∧ executor_os s = os ∧ blocked s = [] ∧ blocked_total s = 0%N
  ∧ compile_allowlist_globset (default [] (allowed_domains c')) = Ok (allow_set s)
  ∧ compile_denylist_globset (default [] (denied_domains c')) = Ok (deny_set s)
  ∧ (credential_broker c' = true → mitm c' = true).
Proof.
  intros Ha. unfold build_config_state. rewrite Ha. cbv zeta. rewrite !then_ok. intros (_ & Hb & _ & _ & H). revert H.
  destruct (compile_denylist_globset _) as [ds|] eqn:Ed; [|done]. cbn [mbind result_bind].
  destruct (compile_allowlist_globset _) as [al|] eqn:Ea; [|done]. cbn [mbind result_bind].
  destruct (compile_mitm_hooks env c') as [hooks|]; [|done]. cbn [mbind result_bind].
  destruct (if mitm c' then _ else _) as [m|]; [|done]. intros [= <-]. cbn. repeat (split; [done|]).
  intros E. unfold ensure in Hb. rewrite E in Hb. by destruct (mitm c').
Qed.

(** A state built from a configuration that was checked is consistent. *)
Lemma built_policy_ok env (c : Config) k os (s : State) :
  policy = DefaultFalse ∨ allow_local_binding c ≠ None ∨ c_allow_local_binding k ≠ Some false →
  check_policy validate_mitm_hooks policy c k = Ok () → build_config_state env c k os = Ok s → policy_ok s.
Proof.
  intros Hp Hc Hs. unfold check_policy in Hc. apply validate_within in Hc.
  destruct (adjust_config c k) as [c' d] eqn:E. pose proof (adjust_within c c' k d Hp Hc E) as Hw.
  apply adjust_broker in E as Hb. destruct Hb as [Hb Hoff].
  destruct (build_result env c c' k os d s E Hs) as (<- & <- & _ & _ & _ & Ha & Hd & Hm). split; auto.
Qed.

(** ** Sections *)

Lemma trim_front_length fuel l : length l ≤ MAX_BLOCKED_EVENTS + fuel → length (trim_front fuel l) ≤ MAX_BLOCKED_EVENTS.
Proof.
  revert l. induction fuel as [|fuel IH]; intros l Hl; cbn [trim_front]; [lia|].
  destruct (Nat.ltb_spec MAX_BLOCKED_EVENTS (length l)); [|done]. apply IH. destruct l; cbn in *; lia.
Qed.

Lemma push_blocked_ok entry (s : State) : buffers_ok s → buffers_ok (push_blocked entry s).
Proof.
  intros [H1 H2]. unfold push_blocked, buffers_ok, saturating_succ. cbn [blocked blocked_total with_blocked]. split; [|lia].
  apply trim_front_length. lia.
Qed.

Context (loaded : State → Prop) (Hloaded : ∀ s, loaded s → policy_ok s ∧ (blocked_total s ≤ U64_MAX)%N).

(** What an operation holds between its sections. *)
Definition pc_ok (pc : @Pc Hook Rest Hooks MitmState GO) : Prop :=
  match pc with
  | Reloading op | Ready op => op_loads loaded op
  | Installing s op => loaded s ∧ op_loads loaded op
  | ModeChecked m k => ∃ c : Config, within (resolved_config policy (with_mode m c)) k
  | Built host kind previous k os s =>
      policy_ok s ∧ buffers_ok s ∧ constraints s = k ∧ executor_os s = os
      ∧ config s = upsert_domain_permission host (kind_permission kind) normalize_host previous
  | ForceInstalling s => loaded s
  | Finished _ => True
  end.

Lemma resolved_mode m (c : Config) : resolved_config policy (with_mode m c) = with_mode m (resolved_config policy c).
Proof. done. Qed.

Lemma mode_policy_ok m (c : Config) (s : State) : policy_ok s → within (resolved_config policy (with_mode m c)) (constraints s) →
  policy_ok (with_config (with_mode m (config s)) s).
Proof.
  intros [] H. split; try done. cbn. rewrite resolved_mode in *. by eapply within_limits_mode.
Qed.

Lemma read_for_update_ok env (s : State) host kind : policy_ok s → buffers_ok s →
  pc_ok (read_for_update validate_mitm_hooks policy env s host kind).
Proof.
  intros Hp Hb. unfold read_for_update. cbv zeta. destruct (existsb _ _ && negb _); [done|].
  set (c := upsert_domain_permission _ _ _ _).
  destruct (check_policy _ _ c _) as [[]|[field]] eqn:Ec; [|done].
  destruct (build_config_state env c _ _) as [s'|] eqn:Es; [|done].
  unfold check_policy in Ec. apply validate_within in Ec.
  assert (adjust_config c (constraints s) = (c, false)) as Ha.
  { destruct Hp. apply adjust_id; [by apply ok_broker0|by apply ok_off0]. }
  destruct (build_result env c c _ _ _ s' Ha Es) as (H1 & H2 & H3 & _ & _ & H4 & H5 & H6).
  cbn [pc_ok]. unfold keep_blocked. split; [|split; [exact Hb|by repeat split]]. apply policy_ok_blocked.
  destruct Hp. split; rewrite ?H1, ?H2; done.
Qed.

Local Ltac unchanged := split; [assumption|split; [assumption|try done]].

(** Every section of every operation keeps the state consistent. *)
Lemma advance_ok execution_id w s pc s' pc' : world_loads loaded w → policy_ok s → buffers_ok s → pc_ok pc →
  advance validate_mitm_hooks policy execution_id w s pc = (s', pc') → policy_ok s' ∧ buffers_ok s' ∧ pc_ok pc'.
Proof using Hloaded.
  intros [Hw1 Hw2] Hp Hb Hpc. destruct pc as [op|new op|op|m k|host kind previous k os new|new|r]; cbn [advance].
  - unfold reload_if_needed. destruct (maybe_reload w) as [[new|]|] eqn:E; intros [= <- <-]; unchanged. split; auto.
  - intros [= <- <-]. destruct Hpc as [Hl Hop]. apply Hloaded in Hl as [Hl _]. unfold keep_blocked.
    split; [by apply policy_ok_blocked|]. by split.
  - destruct op as [entry| |m|host kind|new|]; cbn [run_ready].
    + intros [= <- <-]. split; [by apply policy_ok_blocked|]. split; [by apply push_blocked_ok|done].
    + intros [= <- <-]. split; [by apply policy_ok_blocked|]. split; [|done]. split; [cbn; lia|apply Hb].
    + intros [= <- <-]. unchanged. unfold read_for_mode. destruct (check_policy _ _ _ _) as [[]|[field]] eqn:Ec; [|done].
      unfold check_policy in Ec. apply validate_within in Ec. by exists (config s).
    + intros [= <- <-]. unchanged. by apply read_for_update_ok.
    + intros [= <- <-]. apply Hloaded in Hpc as [Hl _]. split; [by apply policy_ok_blocked|]. by split.
    + unfold force_reload. destruct (reload_now w) as [new|] eqn:E; intros [= <- <-]; unchanged. by apply Hw2.
  - unfold write_mode. case_bool_decide as Hk; intros [= <- <-]; [by unchanged|].
    destruct Hpc as [c Hc]. destruct (decide (constraints s = k)) as [<-|?]; [|done].
    split; [by eapply mode_policy_ok|]. by split.
  - unfold write_update. destruct (_ || _ || _); intros [= <- <-]; [by unchanged|]. destruct Hpc as (? & ? & _). by split_and!.
  - intros [= <- <-]. apply Hloaded in Hpc as [Hl Ht]. unfold keep_entries.
    split; [by apply policy_ok_blocked|]. split; [|done]. split; [apply Hb|done].
  - intros [= <- <-]. by unchanged.
Qed.

Lemma start_ok op : op_loads loaded op → pc_ok (start op).
Proof. by destruct op. Qed.
Lemma add_domain_ok host kind : pc_ok (add_domain host kind).
Proof. unfold add_domain. by destruct (Host_parse host). Qed.

(** Reachable states are consistent, whatever the interleaving. *)
Lemma reachable_ok execution_id s tasks s' tasks' : policy_ok s → buffers_ok s → Forall pc_ok tasks →
  rtc (net_step validate_mitm_hooks policy execution_id loaded) (s, tasks) (s', tasks') →
  policy_ok s' ∧ buffers_ok s' ∧ Forall pc_ok tasks'.
Proof using Hloaded.
  intros Hp Hb Ht H. remember (s, tasks) as x eqn:Ex. remember (s', tasks') as y eqn:Ey.
  revert s tasks Hp Hb Ht Ex. induction H as [x|x y z Hstep _ IH]; intros s tasks Hp Hb Ht Ex.
  - by simplify_eq.
  - subst x. inversion Hstep; subst; clear Hstep.
    + eapply IH; [done|exact Hp|exact Hb| |done]. apply Forall_app. split; [done|]. constructor; [by apply start_ok|done].
    + eapply IH; [done|exact Hp|exact Hb| |done]. apply Forall_app. split; [done|].
      constructor; [by apply add_domain_ok|done].
    + match goal with Ha : advance _ _ _ _ _ _ = _, Hl : _ !! _ = Some ?pc |- _ =>
        assert (pc_ok pc) as Hpc by (by eapply (Forall_lookup_1 _ _ _ _ Ht));
        apply advance_ok in Ha as (Hp' & Hb' & Hpc'); [|done..] end.
      eapply IH; [done|exact Hp'|exact Hb'| |done]. by apply Forall_insert.
Qed.

End facts.

(** * Lemmas on the decisions of the proxy

    When a host is allowed, what the text of an address becomes, and what an
    updated domain list matches. *)
Lemma trim_idem s : trim (trim s) = trim s.
Proof.
  assert (∀ r, trim_start r = [] ∨ ∃ c q, trim_start r = c :: q ∧ is_whitespace c = false) as Hstart.
  { induction r as [|c r IH]; [by left|]. unfold trim_start in *. cbn [trim_start_matches].
    destruct (is_whitespace c) eqn:E; [done|]. right. eauto. }
  unfold trim at 2. destruct (Hstart (trim_end s)) as [E|(c & q & E & Hc)].
  - unfold trim. by rewrite E.
  - unfold trim at 2. rewrite E. apply trim_id; [done|]. rewrite <- E.
    assert (∃ k, trim_end s = k ++ trim_start (trim_end s)) as [k Hk].
    { generalize (trim_end s). clear. intros r. unfold trim_start. induction r as [|c r [k IH]]; [by exists []|].
      cbn [trim_start_matches]. destruct (is_whitespace c); [exists (c :: k); by rewrite IH at 1|by exists []]. }
    pose proof (trim_end_matches_last is_whitespace s) as Hl. unfold trim_end in *. rewrite Hk, E, last_app in Hl.
    rewrite E. destruct (last (c :: q)) eqn:El; [done|]. by rewrite last_None in El.
Qed.

(** ** Addresses in text *)

Lemma parse_ip_start s : is_ip_text s = true → host_start s.
Proof.
  destruct s as [|c s]; [done|]. intros H. exists c, s. split; [done|]. intros ->. revert H.
  unfold is_ip_text, parse_ip.
  assert (∀ bound m z, read_number bound m z 256 (DOT :: s) = None ∧ read_number bound m z 65536 (DOT :: s) = None) as Hn.
  { intros bound m z. unfold read_number. cbn [read_digits to_digit]. unfold to_digit.
    change (Url.hex_value DOT) with (@None N). cbn [mbind option_bind]. by destruct m. }
  replace (read_ipv4_addr (DOT :: s)) with (@None (N * rstr)).
  2: { unfold read_ipv4_addr, read_octet, read_separator. by rewrite (proj1 (Hn _ _ _)). }
  unfold read_ipv6_addr. cbn [read_groups read_separator].
  replace (read_ipv4_addr (DOT :: s)) with (@None (N * rstr)).
  2: { unfold read_ipv4_addr, read_octet, read_separator. by rewrite (proj1 (Hn _ _ _)). }
  rewrite (proj2 (Hn _ _ _)). done.
Qed.

Lemma split_once_prefix needle s a b : split_once needle s = Some (a, b) → ∃ k, s = a ++ k.
Proof.
  unfold split_once. destruct (find needle s) as [i|]; [|done]. intros [= <- <-].
  exists (drop i s). by rewrite take_drop.
Qed.

Lemma unscoped_spec h ip : unscoped_ip_literal h = Some ip → host_start ip ∧ ∃ k, h = ip ++ k.
Proof.
  unfold unscoped_ip_literal. destruct (split_once [PERCENT] h) as [[a b]|] eqn:E; [|done]. cbn [mbind option_bind].
  destruct (is_ip_text a) eqn:Ei; [|done]. intros [= <-]. split; [by apply parse_ip_start|].
  by eapply split_once_prefix.
Qed.

Section facts.
Context {Hook Rest : Type} `{!EqDecision Hook, !EqDecision Rest} {Hooks MitmState : Type}.
Context {UH : UrlHost} {GO : GlobOps}.
Abbreviation Config := (NetworkProxyConfig Hook Rest).
Abbreviation State := (@ConfigState Hook Rest Hooks MitmState GO).

(** Whether the local binding is on for a request. *)
Definition local_allowed (policy : LocalBindingPolicy) (s : State) : bool :=
  resolve policy (config s) && negb (bool_decide (allow_local_binding (config s) = Some false)).

(** The local destinations: a literal must be listed as it is, and a name must
    resolve to public addresses only. *)
Definition local_check (lookup : rstr → N → option (list IpAddr)) (s : State) (h : rstr) (port : N) : bool :=
  if is_local_literal h then is_explicit_local_allowlisted (default [] (allowed_domains (config s))) h
  else negb (host_resolves_to_non_public_ip lookup h port).

Definition listed (set : GlobSet) (h : rstr) : bool := globset_matches_host_or_unscoped set h.

(** The decision without its early returns. *)
Lemma host_blocked_spec policy lookup (s : State) input port h : Host_parse input = Some h →
  host_blocked policy lookup s input port =
  if listed (deny_set s) h then Blocked Denied
  else if negb (local_allowed policy s) && negb (local_check lookup s h port) then Blocked NotAllowedLocal
  else if is_some_and (λ _, listed (allow_set s) h) (allowed_domains (config s)) then Allowed
  else Blocked NotAllowed.
Proof.
  intros Hh. unfold host_blocked, host_blocked_with_local_binding, listed, local_allowed, local_check. rewrite Hh. cbv zeta.
  cbn [default]. unfold id. destruct (globset_matches_host_or_unscoped (deny_set s) h); [done|].
  assert ((if bool_decide (allowed_domains (config s) = None) || negb (globset_matches_host_or_unscoped (allow_set s) h)
           then Blocked NotAllowed else Allowed)
          = if is_some_and (λ _, globset_matches_host_or_unscoped (allow_set s) h) (allowed_domains (config s))
            then Allowed else Blocked NotAllowed) as ->.
  { destruct (allowed_domains (config s)); [|done]. cbn. by destruct (globset_matches_host_or_unscoped (allow_set s) h). }
  destruct (resolve policy (config s) && _); cbn [negb andb]; [done|].
  destruct (is_local_literal h).
  - by destruct (is_explicit_local_allowlisted _ h).
  - by destruct (host_resolves_to_non_public_ip lookup h port).
Qed.

Lemma host_blocked_allowed policy lookup (s : State) input port :
  host_blocked policy lookup s input port = Allowed ↔
  ∃ h, Host_parse input = Some h ∧ listed (deny_set s) h = false ∧ allowed_domains (config s) ≠ None
       ∧ listed (allow_set s) h = true ∧ (local_allowed policy s = true ∨ local_check lookup s h port = true).
Proof.
  destruct (Host_parse input) as [h|] eqn:Hh.
  - rewrite (host_blocked_spec _ _ _ _ _ h Hh). split.
    + destruct (listed (deny_set s) h) eqn:Ed; [done|].
      destruct (local_allowed policy s) eqn:El, (local_check lookup s h port) eqn:Ec; cbn [negb andb]; try done;
        destruct (allowed_domains (config s)) eqn:Ea; cbn; try done;
        destruct (listed (allow_set s) h) eqn:Es; try done; intros _; exists h; repeat split; auto.
    + intros (h' & [= <-] & -> & Ha & Hs & Hl).
      assert (negb (local_allowed policy s) && negb (local_check lookup s h port) = false) as ->.
      { destruct Hl as [-> | ->]; [done|]. by rewrite andb_false_r. }
      destruct (allowed_domains (config s)); [|done]. cbn. by rewrite Hs.
  - split; [|by intros (? & ? & _)]. unfold host_blocked, host_blocked_with_local_binding. by rewrite Hh.
Qed.

(** ** What a compiled list matches at least *)

Context {GL : GlobLaws}.

Lemma add_candidates_seen candidates seen builder seen' builder' :
  (∀ c, c ∈ seen → ∃ g, g ∈ builder ∧ glob_build c = Ok g) →
  add_candidates candidates seen builder = Ok (seen', builder') →
  (∀ c, c ∈ seen' → ∃ g, g ∈ builder' ∧ glob_build c = Ok g) ∧ (∀ c, c ∈ candidates ∨ c ∈ seen → c ∈ seen').
Proof.
  revert seen builder. induction candidates as [|c candidates IH]; intros seen builder Hseen; cbn [add_candidates].
  - intros [= <- <-]. split; [done|]. intros c [H|?]; [by apply elem_of_nil in H|done].
  - case_bool_decide as Hin.
    + intros H. apply IH in H as [H1 H2]; [|done]. split; [done|]. setoid_rewrite elem_of_cons.
      intros x [[->|?]|?]; auto.
    + destruct (glob_build c) as [g|] eqn:Hg; [|done]. cbn [map_err mbind result_bind].
      intros H. apply IH in H as [H1 H2].
      * split; [done|]. setoid_rewrite elem_of_cons. setoid_rewrite elem_of_cons in H2. intros x [[->|?]|?]; auto.
      * intros x [->|Hx]%elem_of_cons; [exists g; split; [apply elem_of_app; right; by left|done]|].
        apply Hseen in Hx as (g' & Hg' & ?). exists g'. split; [apply elem_of_app; by left|done].
Qed.

Lemma add_patterns_seen patterns w seen builder builder' :
  (∀ c, c ∈ seen → ∃ g, g ∈ builder ∧ glob_build c = Ok g) →
  add_patterns patterns w seen builder = Ok builder' →
  ∀ c, c ∈ seen ∨ (∃ p, p ∈ patterns ∧ c ∈ expand_domain_pattern (normalize_pattern p)) →
    ∃ g, g ∈ builder' ∧ glob_build c = Ok g.
Proof.
  revert seen builder. induction patterns as [|p patterns IH]; intros seen builder Hseen; cbn [add_patterns].
  - intros [= <-] c [H|(p & Hp & _)]; [by apply Hseen|by apply elem_of_nil in Hp].
  - destruct (match w with Reject => _ | NetPolicy.Allow => _ end); [done|].
    destruct (add_candidates _ seen builder) as [[seen1 builder1]|] eqn:E; [|done]. cbn [mbind result_bind].
    apply add_candidates_seen in E as [E1 E2]; [|done]. intros H c Hc. apply (IH _ _ E1 H).
    destruct Hc as [?|(q & [->|Hq]%elem_of_cons & Hc)]; eauto.
Qed.

(** A host without wildcards on a list is matched by the compiled list. *)
Definition host_text (h : rstr) : bool := forallb (λ c, pattern_char c && negb (is_wild c)) h.

Lemma host_text_spec h : host_text h = true →
  forallb pattern_char h = true ∧ forallb (λ c, negb (is_wild c)) h = true ∧ forallb ascii_char h = true.
Proof.
  unfold host_text. rewrite !forallb_forall. intros H.
  split; [|split]; intros c Hc; apply H in Hc as [H1 H2]%andb_true_iff; [done|done|]. apply pattern_char_spec in H1. tauto.
Qed.

Lemma is_match_candidate patterns w set p h : compile_globset_with_policy patterns w = Ok set → p ∈ patterns →
  host_text h = true → h ∈ expand_domain_pattern (normalize_pattern p) → is_match set h = true.
Proof.
  intros Hc Hp Hh Hin. unfold compile_globset_with_policy in Hc.
  destruct (add_patterns patterns w [] []) as [builder|] eqn:E; [|done]. cbn [mbind result_bind] in Hc.
  apply add_patterns_seen with (c := h) in E as (g & Hg & Hb); [|intros c Hc'; by apply elem_of_nil in Hc'|eauto].
  apply globset_is_match with (s := h) in Hc. rewrite Hc. apply existsb_exists. exists g.
  split; [by apply list_elem_of_In|]. apply host_text_spec in Hh as (H1 & H2 & H3).
  rewrite (glob_is_match_plain h) by done. by apply wild_match_literal.
Qed.

(** A pattern that normalises to such a host is expanded to it. *)
Lemma normalize_star p : (∃ q, trim p = STAR :: q) → normalize_host p = [] ∨ ∃ q, normalize_host p = STAR :: q.
Proof.
  intros [q Hq]. unfold normalize_host. rewrite Hq. cbv zeta.
  replace (starts_with [LBRACKET] (STAR :: q)) with false by done.
  assert (∀ r, normalize_dns_host_or_ip_literal (STAR :: r) = [] ∨ ∃ q, normalize_dns_host_or_ip_literal (STAR :: r) = STAR :: q) as H.
  { intros r. unfold normalize_dns_host_or_ip_literal. cbv zeta.
    assert (∃ r', trim_end_dots (to_ascii_lowercase (STAR :: r)) = STAR :: r') as [r' ->].
    { unfold to_ascii_lowercase. rewrite fmap_cons. change (to_ascii_lowercase_char STAR) with STAR.
      unfold trim_end_dots. cbn [trim_end_matches]. destruct (trim_end_matches _ _); [|eauto].
      change (N.eqb DOT STAR) with false. eauto. }
    right. unfold normalize_ip_literal. destruct (is_ip_text (STAR :: r')); [by exists r'|]. cbn [find_map].
    assert (∀ d, match scoped_literal d (STAR :: r') with Some x => ∃ q, x = STAR :: q | None => True end) as Hs.
    { intros d. unfold scoped_literal. destruct (split_once d (STAR :: r')) as [[a b]|] eqn:E; [|done]. cbn.
      destruct (is_ip_text a) eqn:Ea; [|done]. apply split_once_prefix in E as [k E].
      destruct a as [|x a]; [done|]. injection E as <- _. by exists (a ++ PERCENT :: b). }
    pose proof (Hs ($"%25")) as H1. destruct (scoped_literal ($"%25") (STAR :: r')); [by destruct H1 as [? ->]; eauto|].
    pose proof (Hs ($"%")) as H2. destruct (scoped_literal ($"%") (STAR :: r')); [by destruct H2 as [? ->]; eauto|]. by exists r'. }
  case_bool_decide; [|apply H]. destruct (head (split_char COLON (STAR :: q))) as [x|] eqn:E; [|by left].
  cbn [default]. cbn [split_char] in E. rewrite decide_False in E by done.
  destruct (split_char COLON q); injection E as <-; apply H.
Qed.

Lemma normalized_candidate p h : normalize_host p = h → h ≠ [] → host_text h = true →
  h ∈ expand_domain_pattern (normalize_pattern p).
Proof.
  intros Hp Hne Hh. apply host_text_spec in Hh as (Hc & Hw & _).
  assert (∀ q, h ≠ STAR :: q) as Hstar by (by intros q ->).
  assert (∀ q, trim p ≠ STAR :: q) as Ht.
  { intros q E. destruct (normalize_star p ltac:(eauto)) as [?|[q' ?]]; [congruence|]. apply (Hstar q'). congruence. }
  assert (∀ k r, strip_prefix (STAR :: k) r = None ∨ ∃ q, r = STAR :: q) as Hs.
  { intros k r. destruct r as [|x r]; [by left|]. cbn [strip_prefix]. case_decide as E; [right; exists r; by rewrite E|by left]. }
  unfold normalize_pattern. cbv zeta. rewrite bool_decide_eq_false_2 by (apply Ht).
  unfold APEX, SUBDOMAINS. change ($"**.") with (STAR :: $"*."). change ($"*.") with (STAR :: $".").
  destruct (Hs (STAR :: $".") (trim p)) as [->|[q E]]; [|by apply Ht in E].
  destruct (Hs ($".") (trim p)) as [->|[q E]]; [|by apply Ht in E]. cbn [is_empty].
  assert (normalize_host (trim p) = normalize_host p) as -> by (unfold normalize_host; by rewrite trim_idem).
  rewrite Hp. unfold expand_domain_pattern, DomainPattern_parse. rewrite plain_trim by done. cbv zeta.
  replace (is_empty h) with false by (by destruct h).
  destruct (Hs (STAR :: $".") h) as [E|[q E]]; [|by apply Hstar in E].
  destruct (Hs ($".") h) as [E'|[q E']]; [|by apply Hstar in E'].
  unfold APEX, SUBDOMAINS. change ($"**.") with (STAR :: STAR :: $"."). change ($"*.") with (STAR :: $".").
  rewrite E, E'. by left.
Qed.

(** *** Normalised hosts *)

Lemma normalize_dns_text x h : normalize_dns_host_or_ip_literal x = h → forallb pattern_char h = true →
  normalize_domain h = h.
Proof.
  unfold normalize_dns_host_or_ip_literal. cbv zeta. rewrite <- normalize_domain_alt.
  assert (∀ y, normalize_ip_literal y = None ∨ normalize_ip_literal y = Some y
               ∨ ∃ z, normalize_ip_literal y = Some z ∧ PERCENT ∈ z) as H.
  { intros y. unfold normalize_ip_literal. destruct (is_ip_text y); [by right; left|]. cbn [find_map].
    assert (∀ d z, scoped_literal d y = Some z → PERCENT ∈ z) as Hs.
    { intros d z. unfold scoped_literal. destruct (split_once d y) as [[a b]|]; [|done]. cbn.
      destruct (is_ip_text a); [|done]. intros [= <-]. set_solver. }
    destruct (scoped_literal ($"%25") y) eqn:E1; [right; right; eauto|].
    destruct (scoped_literal ($"%") y) eqn:E2; [right; right; eauto|by left]. }
  destruct (H (normalize_domain x)) as [-> | [-> | (z & -> & Hz)]]; cbn [default]; unfold id.
  - intros <- _. apply normalize_domain_idem.
  - intros <- _. apply normalize_domain_idem.
  - intros <- Hp. by apply (plain_absent PERCENT z) in Hz.
Qed.

Lemma normalize_host_text input h : normalize_host input = h → forallb pattern_char h = true → normalize_host h = h.
Proof.
  intros Hn Hp. rewrite plain_normalize_host by done. rewrite <- normalize_domain_alt. revert Hn.
  unfold normalize_host. cbv zeta. destruct (if starts_with _ _ then _ else _).
  - intros Hn. by eapply normalize_dns_text.
  - case_bool_decide; intros Hn; by eapply normalize_dns_text.
Qed.

Lemma Host_parse_Some input h : Host_parse input = Some h → normalize_host input = h ∧ h ≠ [].
Proof.
  unfold Host_parse. cbv zeta. destruct (is_empty (normalize_host input)) eqn:E; [done|]. intros [= <-].
  split; [done|]. by apply is_empty_false.
Qed.

Lemma listed_plain (set : GlobSet) h : forallb pattern_char h = true → listed set h = is_match set h.
Proof.
  intros Hp. unfold listed, globset_matches_host_or_unscoped, unscoped_ip_literal.
  rewrite (plain_no_scope [] h) by done. cbn. apply orb_false_r.
Qed.

(** ** Updated lists *)

(** What an update leaves: the host on its list and off the other one. *)
Definition updated (c : Config) (h : rstr) (kind : DomainListKind) : Prop :=
  (∃ p, p ∈ kind_entries kind c ∧ normalize_host p = h) ∧ (∀ p, p ∈ opposite_entries kind c → normalize_host p ≠ h).

Lemma upsert_updated (c : Config) h kind : normalize_host h = h →
  updated (upsert_domain_permission h (kind_permission kind) normalize_host c) h kind.
Proof.
  intros Hn. unfold updated, kind_entries, opposite_entries. split.
  - exists h. split; [|done]. destruct kind; apply upsert_domains; by left.
  - intros p Hp. destruct kind; apply upsert_domains in Hp as [[_ ?]|[_ Hp]]; try done; by rewrite Hn in Hp.
Qed.

Context (validate_mitm_hooks : bool → list Hook → result rstr ()) (policy : LocalBindingPolicy).
Context (loaded : State → Prop).

Lemma advance_updated execution_id w (s s' : State) pc h kind : pc_ok validate_mitm_hooks policy loaded pc →
  normalize_host h = h → pc = Ready (OpUpdate h kind) ∨ (∃ previous k os new, pc = Built h kind previous k os new) →
  advance validate_mitm_hooks policy execution_id w s pc = (s', Finished (Done_ [])) → updated (config s') h kind.
Proof.
  intros Hpc Hn Hcase. destruct Hcase as [->|(previous & k & os & new & ->)]; cbn [advance run_ready].
  - unfold read_for_update. cbv zeta. destruct (existsb _ _ && negb _) eqn:E.
    + intros [= <-]. apply andb_true_iff in E as [E1 E2]. apply negb_true_iff in E2.
      apply existsb_exists in E1 as (p & Hp & Hb). apply bool_decide_eq_true in Hb. rewrite existsb_false in E2. split.
      * exists p. split; [by apply list_elem_of_In|done].
      * intros q Hq. apply E2 in Hq. by apply bool_decide_eq_false in Hq.
    + destruct (check_policy _ _ _ _) as [[]|[field]]; [|done]. by destruct (build_config_state _ _ _ _).
  - unfold write_update. destruct (_ || _ || _); [done|]. intros [= <-]. destruct Hpc as (_ & _ & _ & _ & ->). by apply upsert_updated.
Qed.

(** An updated list matches the host. *)
Lemma updated_match w set (c : Config) h kind patterns : updated c h kind → kind_entries kind c = patterns →
  compile_globset_with_policy patterns w = Ok set → h ≠ [] → host_text h = true → listed set h = true.
Proof.
  intros [(p & Hp & Hn) _] <- Hc Hne Hh. rewrite listed_plain by (by apply host_text_spec).
  eapply is_match_candidate; [done|done|done|]. by apply normalized_candidate.
Qed.

(** ** Local targets *)

Definition ip_char (c : char) : bool :=
  is_ascii_digit c || (97 <=? c)%N && (c <=? 102)%N || bool_decide (c = COLON) || bool_decide (c = DOT).
(** The text of an address: lower-case digits and its separators. *)
Definition ip_text (ip : IpAddr) (s : rstr) : Prop :=
  parse_ip s = Some ip ∧ forallb ip_char s = true ∧ count_char COLON s ≠ 1 ∧ last s ≠ Some DOT.

Lemma ip_char_spec c : ip_char c = true →
  is_whitespace c = false ∧ c ≠ LBRACKET ∧ c ≠ PERCENT ∧ to_ascii_lowercase_char c = c.
Proof.
  unfold ip_char, is_ascii_digit, is_whitespace, to_ascii_lowercase_char, LBRACKET, COLON, DOT, PERCENT. intros H.
  repeat (rewrite ?orb_true_iff, ?andb_true_iff, ?bool_decide_eq_true, ?N.leb_le in H).
  split; [repeat (apply orb_false_iff; split); rewrite ?andb_false_iff, ?N.leb_gt, ?N.eqb_neq; lia|].
  split; [lia|]. split; [lia|]. destruct ((65 <=? c) && (c <=? 90))%N eqn:E; [|done].
  rewrite andb_true_iff, !N.leb_le in E. lia.
Qed.

Lemma ip_text_normal ip s : ip_text ip s → normalize_host s = s ∧ s ≠ [] ∧ unscoped_ip_literal s = None.
Proof.
  intros (Hp & Hc & Hcol & Hlast).
  assert (∀ c, c ∈ s → ip_char c = true) as Hall by (intros c Hin; rewrite forallb_forall in Hc; by apply Hc, list_elem_of_In).
  assert (s ≠ []) as Hne by (by intros ->).
  assert (trim s = s) as Ht.
  { destruct s as [|c s']; [done|]. apply trim_id; [apply (ip_char_spec c), Hall; by left|].
    destruct (last (c :: s')) as [x|] eqn:E; [|done]. apply last_Some_elem_of, Hall, ip_char_spec in E. by apply E. }
  assert (to_ascii_lowercase s = s) as Hl.
  { unfold to_ascii_lowercase. clear -Hall. induction s as [|c s IH]; [done|]. rewrite fmap_cons.
    destruct (ip_char_spec c (Hall c ltac:(by left))) as (_ & _ & _ & ->). f_equal. apply IH. intros. apply Hall. by right. }
  assert (trim_end_dots s = s) as Hd.
  { apply trim_end_matches_id. destruct (last s) as [x|]; [|done]. change (N.eqb DOT x = false). apply N.eqb_neq. congruence. }
  split; [|split; [done|]].
  - unfold normalize_host. rewrite Ht. cbv zeta.
    replace (starts_with [LBRACKET] s) with false.
    2: { symmetry. apply not_true_iff_false. rewrite starts_with_spec. intros [k ->].
         destruct (ip_char_spec LBRACKET (Hall LBRACKET ltac:(by left))) as (_ & ? & _). done. }
    rewrite bool_decide_eq_false_2 by done. unfold normalize_dns_host_or_ip_literal. rewrite Hl, Hd. cbv zeta.
    unfold normalize_ip_literal, is_ip_text. by rewrite Hp.
  - unfold unscoped_ip_literal, split_once. rewrite find_absent; [done|].
    intros Hin. apply Hall, ip_char_spec in Hin. tauto.
Qed.

(** The text the connector asks the policy about. *)
Definition target_text (target : TargetHost) (s : rstr) : Prop :=
  match target with Address ip => ip_text ip s | Name name => s = name end.

Lemma localhost_text name : eq_ignore_ascii_case (trim_end_dots name) ($"localhost") = true →
  normalize_host name = $"localhost".
Proof.
  unfold eq_ignore_ascii_case. rewrite bool_decide_eq_true. change (to_ascii_lowercase ($"localhost")) with ($"localhost").
  intros H. assert (forallb pattern_char name = true) as Hp.
  { destruct (trim_end_matches_prefix (N.eqb DOT) name) as (k & Hk & Hdots). fold (trim_end_dots name) in Hk. rewrite Hk.
    rewrite forallb_app. apply andb_true_iff. split.
    - rewrite <- (lower_forallb pattern_char) by apply pattern_char_lower. by rewrite H.
    - apply forallb_forall. intros c Hc. apply list_elem_of_In in Hc. rewrite Forall_forall in Hdots.
      apply Hdots, N.eqb_eq in Hc. by subst c. }
  by rewrite plain_normalize_host, trim_end_dots_lower.
Qed.

(** A target that is the non-public address itself is a local literal. *)
Lemma local_target target s addr : target_text target s → is_non_public_ip addr = true →
  target_matches_non_public_addr target addr = true → is_local_literal (normalize_host s) = true.
Proof.
  destruct target as [ip|name]; cbn [target_text target_matches_non_public_addr].
  - intros Ht Hn Hm. apply bool_decide_eq_true in Hm as ->. destruct (ip_text_normal _ _ Ht) as (-> & _ & Hu).
    unfold is_local_literal. rewrite Hu. cbn [default]. unfold id. destruct Ht as (-> & _). by destruct (is_loopback_host s).
  - intros -> _ Hm. apply andb_true_iff in Hm as [Hm _]. by rewrite localhost_text.
Qed.

End facts.
