(* ===== verification/NetProps.v ===== *)
(** * The network proxy's claims, and instances they can be tested on

    First, instances of the classes of [NetPolicy] that satisfy their laws: globs
    without classes, alternatives and escapes, and the host parser on simple
    names.  They show that the laws can hold and let examples be evaluated. *)
From stdpp Require Import gmap relations.
From S2P Require Import Prelude RustStr ApiPathString IpAddr NetPolicy IpAddrFacts NetPolicyFacts NetConfig NetConfigFacts NetProxy NetProxyFacts.


#[export] Instance simple_globs : GlobOps := {
  Glob := rstr;
  GlobSet := list rstr;
  glob_build p := if forallb pattern_char p then Ok p else Err ($"unsupported pattern");
  glob_is_match := wild_match;
  globset_build gs := Ok gs;
  is_match gs s := existsb (λ g, wild_match g s) gs
}.

#[export] Instance simple_glob_laws : GlobLaws.
Proof.
  split.
  - intros p H. cbn. by rewrite H.
  - intros p g s H _. cbn. rewrite H. by intros [= ->].
  - intros gs set s. cbn. by intros [= ->].
Qed.

#[export] Instance simple_url_host : UrlHost :=
  λ s, if simple_domain s then Some (to_ascii_lowercase s) else if ipv4_text s then Some s else None.

#[export] Instance simple_url_host_laws : UrlHostLaws.
Proof.
  split; intros s H; unfold url_host_parse, simple_url_host; rewrite H; [done|]. by intros ->.
Qed.

(** * The claims about the network proxy

    The witnesses run on a proxy whose configuration was checked against
    managed limits, with the globs and the host parser above. *)
Section claims.
Context {Hook Rest : Type} `{!EqDecision Hook, !EqDecision Rest} {Hooks MitmState : Type}.
Context {UH : UrlHost} {UHL : UrlHostLaws} {GO : GlobOps} {GL : GlobLaws}.
Context (validate_mitm_hooks : bool → list Hook → result rstr ()) (policy : LocalBindingPolicy).
Context (execution_id : option rstr).

Abbreviation State := (@ConfigState Hook Rest Hooks MitmState GO).

(** A state as callers and the loader make it: built from a configuration
    that was checked against the constraints.  Brokerage that turns the proxy
    on must not turn on a local binding that the constraints forbid. *)
Definition built_state (s : State) : Prop :=
  ∃ env c k os,
    check_policy validate_mitm_hooks policy c k = Ok () ∧ build_config_state env c k os = Ok s
    ∧ (policy = DefaultFalse ∨ allow_local_binding c ≠ None ∨ c_allow_local_binding k ≠ Some false).

Definition runs (s : State) : State * list Pc → Prop :=
  rtc (net_step validate_mitm_hooks policy execution_id built_state) (s, []).

Lemma built_ok s : built_state s → policy_ok validate_mitm_hooks policy s ∧ blocked s = [] ∧ blocked_total s = 0%N.
Proof using All.
  intros (env & c & k & os & Hc & Hb & Hp). split; [by eapply built_policy_ok|].
  destruct (adjust_config c k) as [c' d] eqn:E. by destruct (build_result env c c' k os d s E Hb) as (_ & _ & _ & -> & -> & _).
Qed.

Lemma runs_ok s0 s tasks : built_state s0 → runs s0 (s, tasks) →
  policy_ok validate_mitm_hooks policy s ∧ buffers_ok s ∧ Forall (pc_ok validate_mitm_hooks policy built_state) tasks.
Proof using All.
  intros Hb Hr. destruct (built_ok s0 Hb) as (Hp & Hbl & Ht).
  eapply reachable_ok; [|exact Hp| |by constructor|exact Hr].
  - intros t Hl. destruct (built_ok t Hl) as (? & _ & ->). done.
  - unfold buffers_ok. rewrite Hbl, Ht. cbn. split; [lia|done].
Qed.

(** C12: However the operations of the proxy interleave, its state stays
    consistent: the configuration satisfies the managed constraints, the
    compiled allow and deny lists are those of the configuration, brokerage
    of credentials is on only in a proxy that is on and intercepts TLS, and
    never where the administrator disabled the proxy; at most 200 refused
    requests are kept and their count never wraps. *)
Theorem proxy_state_stays_valid s0 s tasks : built_state s0 → runs s0 (s, tasks) →
  validate_policy_against_constraints validate_mitm_hooks (resolved_config policy (config s)) (constraints s) = Ok ()
  ∧ compile_allowlist_globset (default [] (allowed_domains (config s))) = Ok (allow_set s)
  ∧ compile_denylist_globset (default [] (denied_domains (config s))) = Ok (deny_set s)
  ∧ (credential_broker (config s) = true →
       enabled (config s) = true ∧ mitm (config s) = true ∧ c_enabled (constraints s) ≠ Some false)
  ∧ length (blocked s) ≤ 200 ∧ (blocked_total s < 2 ^ 64)%N.
Proof using All.
  intros Hb Hr. destruct (runs_ok _ _ _ Hb Hr) as ([] & [Hl Ht] & _).
  split; [by apply validate_within|]. split; [done|]. split; [done|]. split; [|split; [done|]].
  - intros E. destruct (ok_broker E). split; [done|]. split; [done|]. intros Ho. apply ok_off in Ho. congruence.
  - eapply N.le_lt_trans; [exact Ht|]. done.
Qed.

(** C11: An administrator's lists bound what the proxy lets through by itself.
    While the allow list is managed and not open to extension, every host the
    policy allows is one the managed allow list matches and the managed deny
    list does not, for lists of host names and wildcards. *)
Theorem allowed_hosts_are_managed s0 s tasks managed managed_allow managed_deny lookup input port h :
  built_state s0 → runs s0 (s, tasks) →
  c_allowed_domains (constraints s) = Some managed → allowlist_expansion_enabled (constraints s) ≠ Some true →
  compile_allowlist_globset managed = Ok managed_allow →
  compile_denylist_globset (default [] (c_denied_domains (constraints s))) = Ok managed_deny →
  forallb plain_pattern managed = true → forallb plain_pattern (default [] (c_denied_domains (constraints s))) = true →
  forallb plain_pattern (default [] (allowed_domains (config s))) = true →
  forallb plain_pattern (default [] (denied_domains (config s))) = true →
  Host_parse input = Some h → forallb ascii_char h = true → host_start h →
  host_blocked policy lookup s input port = Allowed →
  globset_matches_host_or_unscoped managed_allow h = true ∧ globset_matches_host_or_unscoped managed_deny h = false.
Proof using All.
  intros Hb Hr Hk Hexp Hma Hmd Pm Pmd Pa Pd Hh Hascii Hstart Hallow.
  destruct (runs_ok _ _ _ Hb Hr) as ([Hlim Ha Hd _ _] & _ & _).
  apply host_blocked_allowed in Hallow as (h' & Hh' & Hden & _ & Hal & _). rewrite Hh in Hh'. injection Hh' as <-.
  assert (∀ t, host_start t → forallb ascii_char t = true →
    (is_match (allow_set s) t = true → is_match managed_allow t = true)
    ∧ (is_match managed_deny t = true → is_match (deny_set s) t = true)) as Hsub.
  { intros t Ht Hta. unfold compile_allowlist_globset, compile_denylist_globset in *.
    rewrite (compiled_matches _ _ _ _ Pa Ha Hta), (compiled_matches _ _ _ _ Pm Hma Hta).
    rewrite (compiled_matches _ _ _ _ Pd Hd Hta), (compiled_matches _ _ _ _ Pmd Hmd Hta). split.
    - by apply (allowed_within_managed _ _ _ _ (lim_allowed _ _ _ Hlim)).
    - destruct (c_denied_domains (constraints s)) as [md|] eqn:Emd; [|done].
      by apply (denied_covers_managed _ _ _ _ (lim_denied _ _ _ Hlim)). }
  unfold listed, globset_matches_host_or_unscoped in *. destruct (Hsub h Hstart Hascii) as [Hs1 Hs2].
  destruct (unscoped_ip_literal h) as [ip|] eqn:Eu; cbn [is_some_and] in *.
  - destruct (unscoped_spec _ _ Eu) as [Hip [k ->]]. rewrite forallb_app in Hascii. apply andb_true_iff in Hascii as [Hia _].
    destruct (Hsub ip Hip Hia) as [Hi1 Hi2]. rewrite orb_true_iff in Hal. rewrite orb_false_iff in Hden.
    split; [apply orb_true_iff; tauto|]. apply orb_false_iff. destruct Hden. split; apply not_true_iff_false; intros E; [apply Hs2 in E|apply Hi2 in E]; congruence.
  - rewrite !orb_false_r. rewrite orb_false_r in Hal, Hden. split; [auto|]. apply not_true_iff_false. intros E. apply Hs2 in E. congruence.
Qed.

(** C10: A connection that does not go through an upstream proxy is opened to
    an address that is not public only if the local binding is on, or if the
    client asked for this very address, or for [localhost] and the address is
    a loopback one, and the policy still allows that: the host is not denied,
    and, unless the local binding has been turned on meanwhile, it is on the
    allow list as it is and not through a wildcard.  So no answer of the name
    service reaches a private address. *)
Theorem private_addresses_need_consent host_to_string lookup (s1 s2 : State) target port addr :
  target_text target (host_to_string target) → is_non_public_ip addr = true →
  serve host_to_string policy lookup s1 s2 false (Some (target, port)) addr = true →
  resolve policy (config s1) = true
  ∨ target_matches_non_public_addr target addr = true
    ∧ let h := normalize_host (host_to_string target) in
      globset_matches_host_or_unscoped (deny_set s2) h = false
      ∧ globset_matches_host_or_unscoped (allow_set s2) h = true
      ∧ (resolve policy (config s2) = true
         ∨ is_explicit_local_allowlisted (default [] (allowed_domains (config s2))) h = true).
Proof using All.
  intros Ht Hn. unfold serve, connects, allows_non_public_target. rewrite Hn. cbn [andb]. rewrite negb_involutive.
  destruct (resolve policy (config s1)); [by left|]. destruct (target_matches_non_public_addr target addr) eqn:Em; [|done].
  cbn [negb]. destruct (host_blocked policy lookup s2 _ port) eqn:Eb; [|done]. intros _. right. split; [done|].
  apply host_blocked_allowed in Eb as (h & Hh & Hd & _ & Ha & Hl). apply Host_parse_Some in Hh as [<- _]. cbv zeta.
  split; [done|]. split; [done|]. destruct Hl as [Hl|Hl].
  - left. unfold local_allowed in Hl. by apply andb_true_iff in Hl as [? _].
  - right. unfold local_check in Hl. by rewrite (local_target _ _ _ Ht Hn Em) in Hl.
Qed.

(** C14: What is let through, without the order of the checks.  A request is
    allowed exactly if its host is not denied, is not local (or local access
    is on, or the host is listed literally, or its name resolves to public
    addresses only), and is on the allow list or accepted by the client's
    decider; a text that is no host needs the decider.  The decider cannot
    lift a denial or local protection.  The audit event says so: it allows
    exactly these requests, and marks those that only the decider accepted. *)
Theorem request_let_through_iff {Handles : Type} lookup (s : State) environment_id
    (decider : option (NetworkPolicyRequest → NetworkDecision)) (req : @NetworkPolicyRequest Handles) :
  let '(d, audit) := evaluate_host_policy environment_id execution_id decider
                       (host_blocked policy lookup s (r_host req) (r_port req)) req in
  let accepted := match decider with
                  | Some decide => decide (for_decider environment_id execution_id req) = NetAllow
                  | None => False
                  end in
  (d = NetAllow ↔
     match Host_parse (r_host req) with
     | None => accepted
     | Some h =>
         globset_matches_host_or_unscoped (deny_set s) h = false
         ∧ (local_allowed policy s = true ∨ local_check lookup s h (r_port req) = true)
         ∧ (allowed_domains (config s) ≠ None ∧ globset_matches_host_or_unscoped (allow_set s) h = true ∨ accepted)
     end)
  ∧ (a_decision audit = $"allow" ↔ d = NetAllow)
  ∧ (a_policy_override audit = true ↔ d = NetAllow ∧ host_blocked policy lookup s (r_host req) (r_port req) ≠ Allowed)
  ∧ a_server_address audit = r_host req ∧ a_execution_id audit = execution_id.
Proof using Type.
  assert (∀ d : NetworkPolicyDecision, policy_decision_as_str d ≠ $"allow") as Hstr by (by intros []).
  destruct (Host_parse (r_host req)) as [h|] eqn:Hh.
  - rewrite (host_blocked_spec _ _ _ _ _ h Hh). unfold listed.
    destruct (globset_matches_host_or_unscoped (deny_set s) h); [cbn; repeat split; naive_solver|].
    assert (negb (local_allowed policy s) && negb (local_check lookup s h (r_port req)) = false
            ↔ local_allowed policy s = true ∨ local_check lookup s h (r_port req) = true) as Hl.
    { destruct (local_allowed policy s), (local_check lookup s h (r_port req)); cbn; naive_solver. }
    destruct (negb (local_allowed policy s) && _); [cbn; repeat split; naive_solver|].
    destruct (allowed_domains (config s)) as [al|]; cbn [is_some_and];
      [destruct (globset_matches_host_or_unscoped (allow_set s) h); [cbn; repeat split; naive_solver|]|];
      unfold evaluate_host_policy; destruct decider as [decide|]; try (cbn; repeat split; naive_solver);
      destruct (decide (for_decider environment_id execution_id req)); cbn; repeat split; naive_solver.
  - unfold host_blocked, host_blocked_with_local_binding. rewrite Hh. unfold evaluate_host_policy.
    destruct decider as [decide|]; [|cbn; repeat split; naive_solver].
    destruct (decide (for_decider environment_id execution_id req)); cbn; repeat split; naive_solver.
Qed.

(** C13: Changing a domain list takes effect, for hosts of letters, digits,
    hyphens and dots ([host_text]: no IPv6 literal, underscore or character of
    a pattern, for which the laws of the globs say nothing).  When the update of
    such a host returns without an error, however other operations interleaved with it, a
    host added to the deny list is denied, and a host added to the allow list
    is no longer refused as not allowed, nor denied on its own name. *)
Theorem domain_updates_take_effect s0 s tasks i pc host kind h w s' lookup input port :
  built_state s0 → runs s0 (s, tasks) → Host_parse host = Some h → host_text h = true → tasks !! i = Some pc →
  pc = Ready (OpUpdate h kind) ∨ (∃ previous k os new, pc = Built h kind previous k os new) →
  world_loads built_state w → advance validate_mitm_hooks policy execution_id w s pc = (s', Finished (Done_ [])) →
  Host_parse input = Some h →
  match kind with
  | KindDeny => host_blocked policy lookup s' input port = Blocked Denied
  | KindAllow =>
      host_blocked policy lookup s' input port ≠ Blocked NotAllowed
      ∧ ∀ p, p ∈ default [] (denied_domains (config s')) → normalize_host p ≠ h
  end.
Proof using All.
  intros Hb Hr Hh Ht Hi Hcase Hw Hadv Hin. destruct (runs_ok _ _ _ Hb Hr) as (Hp & Hbuf & Hpcs).
  pose proof (Forall_lookup_1 _ _ _ _ Hpcs Hi) as Hpc. apply Host_parse_Some in Hh as [Hh Hne].
  assert (normalize_host h = h) as Hn by (eapply normalize_host_text; [exact Hh|]; by apply host_text_spec).
  pose proof (advance_updated _ _ _ _ _ _ _ _ _ _ Hpc Hn Hcase Hadv) as Hup.
  assert (policy_ok validate_mitm_hooks policy s') as [_ Ha Hd _ _].
  { eapply advance_ok; [|exact Hw|exact Hp|exact Hbuf|exact Hpc|exact Hadv].
    intros t Hl. destruct (built_ok t Hl) as (? & _ & ->). done. }
  rewrite (host_blocked_spec _ _ _ _ _ h Hin). destruct kind.
  - pose proof (updated_match _ _ _ _ KindAllow _ Hup eq_refl Ha Hne Ht) as ->. split.
    + destruct (allowed_domains (config s')) eqn:E; cbn; [by repeat case_match|].
      destruct Hup as [(p & Hp' & _) _]. cbn in Hp'. rewrite E in Hp'. by apply elem_of_nil in Hp'.
    + exact (proj2 Hup).
  - by rewrite (updated_match _ _ _ _ KindDeny _ Hup eq_refl Hd Hne Ht).
Qed.

End claims.

(** The bit tests that keep the proxy off local networks are a table of
    address blocks: an address is not public exactly if it is in one of
    fourteen blocks of IPv4, in the unique-local, link-local or multicast
    block of IPv6, or is an IPv6 spelling, mapped or compatible, of an
    address in one of the fourteen. *)
Theorem non_public_address_blocks ip : valid_ip ip → is_non_public_ip ip = non_public_block ip.
Proof. destruct ip as [ip|ip]; intros H; [by apply non_public_ipv4_spec|by apply non_public_ipv6_spec]. Qed.

Lemma non_public_address_blocks_witness :
  is_non_public_ip (V6 0xffff0a000001) = true ∧ is_non_public_ip (V6 0x20010db8000000000000000000000001) = false.
Proof.
  split; (rewrite non_public_address_blocks; [by vm_compute|by vm_compute]).
Defined.

(** ** A proxy with managed limits *)

Definition no_hooks (m : bool) (l : list ()) : result rstr () := Ok ().
Definition plain_env : BuildEnv (Hook:=()) (Rest:=()) (Hooks:=()) (MitmState:=()) := mkBuildEnv (λ _, Ok ()) (λ _, Ok ()).
Definition base_config : NetworkProxyConfig () () :=
  mkConfig true true false None Full None None None false None false [] ().
Definition limits (allowed : list rstr) : NetworkProxyConstraints :=
  mkConstraints None None None None None (Some allowed) None (Some [$"bad.example.com"]) None None None.

Definition demo_config : NetworkProxyConfig () () :=
  set_denied_domains [$"BAD.example.com"; $"*.internal"] (set_allowed_domains [$"api.example.com"; $"*.example.com"] base_config).
Definition demo_limits : NetworkProxyConstraints := limits [$"*.example.com"; $"10.0.0.1"].

Abbreviation demo_state := (@ConfigState () () () () simple_globs).
Definition empty_state : demo_state :=
  mkState PlatformLinux base_config false [] [] None () (limits []) [] 0.
Definition build_or_empty (c : NetworkProxyConfig () ()) (k : NetworkProxyConstraints) : demo_state :=
  match build_config_state plain_env c k PlatformLinux with Ok s => s | Err _ => empty_state end.
Definition demo : demo_state := build_or_empty demo_config demo_limits.
Definition public_dns (h : rstr) (p : N) : option (list IpAddr) := Some [V4 0x08080808].

Lemma demo_net_built : built_state no_hooks DefaultFalse demo.
Proof. exists plain_env, demo_config, demo_limits, PlatformLinux. split; [by vm_compute|]. split; [by vm_compute|by left]. Qed.
Lemma demo_net_runs : runs no_hooks DefaultFalse None demo (demo, []).
Proof. apply rtc_refl. Qed.

Lemma proxy_state_stays_valid_witness :
  validate_policy_against_constraints no_hooks (resolved_config DefaultFalse (config demo)) (constraints demo) = Ok ()
  ∧ length (blocked demo) ≤ 200.
Proof.
  pose proof (proxy_state_stays_valid no_hooks DefaultFalse None demo demo [] demo_net_built demo_net_runs) as H.
  split; [exact (proj1 H)|apply H].
Defined.

(** The managed lists of [demo_limits] as they compile. *)
Lemma allowed_hosts_are_managed_witness :
  host_blocked DefaultFalse public_dns demo ($"V1.Example.com:443") 443 = Allowed
  ∧ @globset_matches_host_or_unscoped simple_globs [$"?*.example.com"; $"10.0.0.1"] ($"v1.example.com") = true
  ∧ @globset_matches_host_or_unscoped simple_globs [$"bad.example.com"] ($"v1.example.com") = false.
Proof.
  split; [by vm_compute|].
  apply (allowed_hosts_are_managed no_hooks DefaultFalse None demo demo [] [$"*.example.com"; $"10.0.0.1"]
           [$"?*.example.com"; $"10.0.0.1"] [$"bad.example.com"] public_dns ($"V1.Example.com:443") 443%N ($"v1.example.com"));
    [apply demo_net_built|apply demo_net_runs|by vm_compute..|exists 118%N, ($"1.example.com"); by vm_compute|by vm_compute].
Defined.

(** *** Local targets *)

Definition show_target (t : TargetHost) : rstr :=
  match t with Address _ => $"10.0.0.1" | Name name => name end.
Definition local_demo : demo_state :=
  build_or_empty (set_allowed_domains [$"10.0.0.1"] base_config) (limits [$"*.example.com"; $"10.0.0.1"]).

Lemma private_addresses_need_consent_witness :
  let target := Address (V4 0x0a000001) in
  serve show_target DefaultFalse public_dns local_demo local_demo false (Some (target, 80%N)) (V4 0x0a000001) = true
  ∧ is_explicit_local_allowlisted (default [] (allowed_domains (config local_demo))) ($"10.0.0.1") = true.
Proof.
  split; [by vm_compute|].
  assert (target_text (Address (V4 0x0a000001)) (show_target (Address (V4 0x0a000001)))) as Ht
    by (split; [by vm_compute|split; [by vm_compute|split; by vm_compute]]).
  destruct (private_addresses_need_consent no_hooks DefaultFalse None show_target public_dns local_demo local_demo
              (Address (V4 0x0a000001)) 80%N (V4 0x0a000001) Ht ltac:(by vm_compute) ltac:(by vm_compute)) as [H|(_ & _ & _ & [H|H])];
    [by vm_compute in H|by vm_compute in H|exact H].
Defined.

(** A name that resolves to a private address after the check. *)
Example rebinding_is_refused :
  host_blocked DefaultFalse public_dns demo ($"v1.example.com") 80 = Allowed
  ∧ connects show_target DefaultFalse public_dns demo demo (Name ($"v1.example.com")) 80 (V4 0x0a000001) = false.
Proof. by vm_compute. Qed.

(** *** Updates of the domain lists *)

Definition quiet : @World () () () () simple_globs := mkWorld (Ok None) (Err ($"static")) plain_env.
Abbreviation demo_pc := (@Pc () () () () simple_globs).
Definition next (s : demo_state) (pc : demo_pc) : demo_state * demo_pc := advance no_hooks DefaultFalse None quiet s pc.

Lemma quiet_loads (P : demo_state → Prop) : world_loads P quiet.
Proof. by split. Qed.

Definition deny_api : demo_pc := add_domain ($"API.example.com") KindDeny.
Definition deny_api_built : demo_pc := (next demo (next demo deny_api).2).2.

Lemma deny_api_runs : runs no_hooks DefaultFalse None demo (demo, [deny_api_built]).
Proof.
  eapply rtc_l; [exact (step_add _ _ _ _ demo [] ($"API.example.com") KindDeny)|].
  eapply rtc_l; [apply (step_run _ _ _ _ demo _ 0 deny_api quiet demo (next demo deny_api).2); [done|apply quiet_loads|by vm_compute]|].
  eapply rtc_l; [apply (step_run _ _ _ _ demo _ 0 (next demo deny_api).2 quiet demo deny_api_built); [done|apply quiet_loads|by vm_compute]|].
  apply rtc_refl.
Qed.

Lemma domain_updates_take_effect_witness :
  host_blocked DefaultFalse public_dns demo ($"api.example.com") 443 = Allowed
  ∧ host_blocked DefaultFalse public_dns (next demo deny_api_built).1 ($"api.example.com") 443 = Blocked Denied.
Proof.
  split; [by vm_compute|].
  apply (domain_updates_take_effect no_hooks DefaultFalse None demo demo [deny_api_built] 0 deny_api_built ($"API.example.com")
           KindDeny ($"api.example.com") quiet); [apply demo_net_built|apply deny_api_runs|by vm_compute|by vm_compute|done| |apply quiet_loads|by vm_compute|by vm_compute].
  right. by vm_compute; eauto 10.
Defined.

(** ** What modelling showed *)

(** The constraints compare the text of a pattern, the globs are compiled
    from its host: what follows a colon or a bracket satisfies the managed
    list and is then dropped. *)
Definition smuggled (pattern : rstr) : demo_state :=
  build_or_empty (set_allowed_domains [pattern] base_config)
    (mkConstraints None None None None None (Some [$"*.example.com"]) None None None None None).
Example port_smuggles_wildcard :
  check_policy no_hooks DefaultFalse (config (smuggled ($"*:x.example.com"))) (constraints (smuggled ($"*:x.example.com"))) = Ok ()
  ∧ host_blocked DefaultFalse public_dns (smuggled ($"*:x.example.com")) ($"evil.com") 443 = Allowed
  ∧ check_policy no_hooks DefaultFalse (config (smuggled ($"[*].example.com"))) (constraints (smuggled ($"[*].example.com"))) = Ok ()
  ∧ host_blocked DefaultFalse public_dns (smuggled ($"[*].example.com")) ($"evil.com") 443 = Allowed.
Proof. by vm_compute. Qed.

(** Patterns the host parser refuses all compare as the empty name, so a
    managed pattern with a port admits every pattern with a port. *)
Definition with_port : demo_state :=
  build_or_empty (set_allowed_domains [$"evil.com:443"] base_config)
    (mkConstraints None None None None None (Some [$"example.com:443"]) None None None None None).
Example unparsable_hosts_are_equal :
  check_policy no_hooks DefaultFalse (config with_port) (constraints with_port) = Ok ()
  ∧ host_blocked DefaultFalse public_dns with_port ($"evil.com") 443 = Allowed.
Proof. by vm_compute. Qed.

(** An update of a list installs the buffer it read before: a request refused
    in between is forgotten. *)
Definition refused : BlockedRequest :=
  mkBlocked ($"evil.com") ($"not_allowed") None None None ($"http") None None None None 0%Z.
Definition after_record : demo_state := (next demo (Ready (OpRecord refused))).1.
Example update_forgets_refusals :
  blocked after_record = [refused] ∧ blocked_total after_record = 1%N
  ∧ blocked (next after_record deny_api_built).1 = [] ∧ blocked_total (next after_record deny_api_built).1 = 0%N
  ∧ (next after_record deny_api_built).2 = Finished (Done_ []).
Proof. by vm_compute. Qed.

(** A forced reload keeps the entries and forgets their count. *)
Example forced_reload_forgets_the_count :
  let s := (next after_record (ForceInstalling demo)).1 in blocked s = [refused] ∧ blocked_total s = 0%N.
Proof. by vm_compute. Qed.
