(* ===== verification/NetApproval.v ===== *)
(** * Approving hosts while a command runs

    [core/src/tools/network_approval.rs] with [network_policy_decision.rs]
    and the amendment of the policy in [session/mod.rs]: a request the proxy
    does not let through is attributed to the command that made it, joined
    with the requests for the same host that are already being reviewed, and
    reviewed; the answer may hold for the session.

    A request is a sequence of sections between two awaits; [advance] runs one
    section of it, [drop_request] is the drop of its future at an await, and
    [approval_step] lets any of the requests go on.  A section that has to
    wait, for a lock, for another request or for an answer, is not enabled.
    The active turn, the reviewer's answer, the running proxy's and the policy
    file's are inputs of the section that gets them.  An [Arc] is its number,
    a cancellation token is the number of its call.  Telemetry and what is
    shown to the user are left out. *)

From stdpp Require Import gmap pretty.
From S2P Require Orchestrator.
From S2P Require Import Prelude RustStr ExecPolicy Permissions Approvals Truncation NetPolicy NetProxy.
From S2P Require ExecApproval.

Import Orchestrator(NetworkApprovalProtocol, Http, Https, Socks5Tcp, Socks5Udp, NetworkApprovalContext, mkNetworkContext).
Import ExecApproval(AskForApproval, Never).

(** ** Messages *)

Definition ABANDONED_NETWORK_APPROVAL_MESSAGE : rstr :=
  $"network approval was cancelled before a decision was returned".
Definition REASON_NOT_ALLOWED : rstr := $"not_allowed".
Definition not_allowed : NetworkDecision := deny REASON_NOT_ALLOWED.
Definition msg_rejected_by_user : rstr := $"rejected by user".

Definition parse_network_policy_decision (value : rstr) : option NetworkPolicyDecision :=
  if bool_decide (value = $"deny") then Some PolicyDeny
  else if bool_decide (value = $"ask") then Some PolicyAsk else None.

Definition denied_detail (reason : rstr) : rstr :=
  if bool_decide (reason = $"denied") then
    $"domain is explicitly denied by policy and cannot be approved from this prompt"
  else if bool_decide (reason = $"not_allowed") then $"domain is not on the allowlist for the current sandbox mode"
  else if bool_decide (reason = $"not_allowed_local") then
    $"local/private network addresses are blocked by the sandbox policy"
  else if bool_decide (reason = $"method_not_allowed") then $"request method is blocked by the current network mode"
  else if bool_decide (reason = $"proxy_disabled") then $"network proxy is disabled"
  else $"request is blocked by network policy".

Definition denied_network_policy_message (blocked : BlockedRequest) : option rstr :=
  match (d ← b_decision blocked; parse_network_policy_decision d) with
  | Some PolicyDeny =>
      let host := trim (b_host blocked) in
      Some (if is_empty host then $"Network access was blocked by policy."
            else $"Network access to " ++ [DQUOTE] ++ host ++ [DQUOTE] ++ $" was blocked: "
                 ++ denied_detail (b_reason blocked) ++ $".")
  | _ => None
  end.

(** ** The rule an amendment adds *)

Record ExecPolicyNetworkRuleAmendment := mkRuleAmendment {
  ra_protocol : NetworkRuleProtocol;
  ra_decision : Decision;
  ra_justification : rstr
}.

Definition rule_protocol (p : NetworkApprovalProtocol) : NetworkRuleProtocol :=
  match p with
  | Http => ExecPolicy.Http
  | Https => ExecPolicy.Https
  | Socks5Tcp => ExecPolicy.Socks5Tcp
  | Socks5Udp => ExecPolicy.Socks5Udp
  end.
Definition rule_protocol_label (p : NetworkApprovalProtocol) : rstr :=
  match p with
  | Http => $"http" | Https => $"https_connect" | Socks5Tcp => $"socks5_tcp" | Socks5Udp => $"socks5_udp"
  end.

Definition execpolicy_network_rule_amendment (action : NetworkPolicyRuleAction) (context : NetworkApprovalContext)
    (host : rstr) : ExecPolicyNetworkRuleAmendment :=
  let protocol := Orchestrator.protocol context in
  let '(decision, action_verb) :=
    match action with AllowHost => (ExecPolicy.Allow, $"Allow") | DenyHost => (Forbidden, $"Deny") end in
  mkRuleAmendment (rule_protocol protocol) decision
    (action_verb ++ $" " ++ rule_protocol_label protocol ++ $" access to " ++ host).

Definition validated_network_policy_amendment_host (amendment_host : rstr) (context : NetworkApprovalContext) :
    option rstr :=
  let approved_host := normalize_host (Orchestrator.host context) in
  if bool_decide (normalize_host amendment_host = approved_host) then Some approved_host else None.

(** ** Keys *)

Record HostApprovalKey := mkHostKey {
  k_environment_id : rstr;
  k_host : rstr;
  k_protocol : rstr;
  k_port : N
}.
#[global] Instance HostApprovalKey_eq_dec : EqDecision HostApprovalKey.
Proof. solve_decision. Defined.
#[global] Instance HostApprovalKey_countable : Countable HostApprovalKey.
Proof.
  refine (inj_countable' (λ k, (k_environment_id k, k_host k, k_protocol k, k_port k))
    (λ '(e, h, p, n), mkHostKey e h p n) _). by intros [].
Defined.

Record PendingHostApprovalKey := mkPendingKey {
  pk_host : HostApprovalKey;
  pk_turn_id : rstr;
  pk_execution_id : option rstr
}.
#[global] Instance PendingHostApprovalKey_eq_dec : EqDecision PendingHostApprovalKey.
Proof. solve_decision. Defined.
#[global] Instance PendingHostApprovalKey_countable : Countable PendingHostApprovalKey.
Proof.
  refine (inj_countable' (λ k, (pk_host k, pk_turn_id k, pk_execution_id k))
    (λ '(h, t, e), mkPendingKey h t e) _). by intros [].
Defined.

Definition protocol_key_label (p : NetworkApprovalProtocol) : rstr :=
  match p with
  | Http => $"http" | Https => $"https" | Socks5Tcp => $"socks5-tcp" | Socks5Udp => $"socks5-udp"
  end.
Definition approval_protocol (p : NetworkProtocol) : NetworkApprovalProtocol :=
  match p with
  | ProtoHttp => Http | ProtoHttpsConnect => Https | ProtoSocks5Tcp => Socks5Tcp | ProtoSocks5Udp => Socks5Udp
  end.

(** What a request carries to watch for its end: whether it has a
    [NetworkRequestDisconnect] and a [NetworkRequestCancellation]. *)
Record Handles := mkHandles { has_disconnect : bool; has_cancellation : bool }.
Abbreviation Request := (NetworkPolicyRequest (Handles:=Handles)).

Definition from_request (request : Request) (protocol : NetworkApprovalProtocol) (environment_id : rstr) :
    HostApprovalKey :=
  mkHostKey environment_id (to_ascii_lowercase (r_host request)) (protocol_key_label protocol) (r_port request).

Definition format_network_target (protocol host : rstr) (port : N) : rstr :=
  protocol ++ $"://" ++ host ++ $":" ++ str (pretty port).
Definition approval_id_for_key (k : HostApprovalKey) : rstr :=
  $"network#" ++ k_environment_id k ++ $"#" ++ k_protocol k ++ $"#" ++ k_host k ++ $"#" ++ str (pretty (k_port k)).

(** ** Decisions *)

Inductive PendingApprovalDecision := AllowOnce | AllowForSession | DenyRequest.
#[global] Instance PendingApprovalDecision_eq_dec : EqDecision PendingApprovalDecision.
Proof. solve_decision. Defined.

Definition to_network_decision (d : PendingApprovalDecision) : NetworkDecision :=
  match d with AllowOnce | AllowForSession => NetAllow | DenyRequest => not_allowed end.

Inductive NetworkRequestCancellationReason := ProcessFinished | ProcessCancelled | ConnectionClosed | TimedOutReason.
#[global] Instance NetworkRequestCancellationReason_eq_dec : EqDecision NetworkRequestCancellationReason.
Proof. solve_decision. Defined.

(** Whether an allowlist miss may be reviewed instead of denied. *)
Definition allows_network_approval_flow (policy : AskForApproval) : bool :=
  match policy with Never => false | _ => true end.

Section service.
Context {PathUri Output Payload : Type}.
Local Abbreviation Profile := (PermissionProfile PathUri).
Local Abbreviation Error := (ToolError Output Payload).

Definition permission_profile_allows_network_approval_flow (profile : Profile) : bool :=
  match profile with Managed _ _ => true | _ => false end.

(** ** Calls and turns *)

(** An environment that is ready; [NotReady] is one that is starting or
    has failed. *)
Record ReadyEnvironment := mkReady { e_environment_id : rstr; e_permission_profile : Profile }.
Inductive TurnEnvironmentState := Ready (environment : ReadyEnvironment) | NotReady.
Local Abbreviation Snapshot := (list TurnEnvironmentState).

Definition turn_environments (s : Snapshot) : list ReadyEnvironment :=
  omap (λ e, match e with Ready e => Some e | NotReady => None end) s.
Definition primary (s : Snapshot) : option ReadyEnvironment := head (turn_environments s).
Definition find_environment (environment_id : rstr) (s : Snapshot) : option ReadyEnvironment :=
  List.find (λ e, bool_decide (e_environment_id e = environment_id)) (turn_environments s).

(** [ActiveNetworkApprovalCall]; the trigger and the tool are for display. *)
Record Call := mkCall {
  call_registration_id : rstr;
  call_turn_id : rstr;
  call_command : rstr;
  call_environment_id : rstr;
  call_permission_profile : Profile;
  call_environments : Snapshot;
  call_token : nat
}.

(** The active turn with the settings of its next step. *)
Record ActiveTurn := mkTurn {
  sub_id : rstr;
  approval_policy : AskForApproval;
  active_environments : Snapshot;
  turn_strict_auto_review : bool
}.

(** ** The state of the service *)

(** [pendings] holds the generations of reviews made so far with their
    decision, [cancelled] the tokens that are cancelled. *)
Record Service := mkService {
  active_calls : list (rstr * Call);
  call_outcomes : gmap rstr rstr;
  cancelled : gset nat;
  pending_host_approvals : gmap PendingHostApprovalKey nat;
  pendings : list (option PendingApprovalDecision);
  session_policy_commit_lock : option nat;
  session_approved_hosts : gset HostApprovalKey;
  session_denied_hosts : gset HostApprovalKey
}.
Definition default_service : Service := mkService [] ∅ ∅ ∅ [] None ∅ ∅.

Definition with_calls (calls : list (rstr * Call)) (outcomes : gmap rstr rstr) (s : Service) : Service :=
  mkService calls outcomes (cancelled s) (pending_host_approvals s) (pendings s) (session_policy_commit_lock s)
    (session_approved_hosts s) (session_denied_hosts s).
Definition with_pending (m : gmap PendingHostApprovalKey nat) (l : list (option PendingApprovalDecision)) (s : Service) :
    Service :=
  mkService (active_calls s) (call_outcomes s) (cancelled s) m l (session_policy_commit_lock s)
    (session_approved_hosts s) (session_denied_hosts s).
Definition with_hosts (approved denied : gset HostApprovalKey) (s : Service) : Service :=
  mkService (active_calls s) (call_outcomes s) (cancelled s) (pending_host_approvals s) (pendings s)
    (session_policy_commit_lock s) approved denied.
Definition with_lock (l : option nat) (s : Service) : Service :=
  mkService (active_calls s) (call_outcomes s) (cancelled s) (pending_host_approvals s) (pendings s) l
    (session_approved_hosts s) (session_denied_hosts s).
Definition cancel (token : nat) (s : Service) : Service :=
  mkService (active_calls s) (call_outcomes s) ({[token]} ∪ cancelled s) (pending_host_approvals s) (pendings s)
    (session_policy_commit_lock s) (session_approved_hosts s) (session_denied_hosts s).
Definition is_cancelled (token : nat) (s : Service) : bool := bool_decide (token ∈ cancelled s).

(** *** Calls *)

Fixpoint call_insert (id : rstr) (c : Call) (l : list (rstr * Call)) : list (rstr * Call) :=
  match l with
  | [] => [(id, c)]
  | (id', c') :: l => if bool_decide (id' = id) then (id, c) :: l else (id', c') :: call_insert id c l
  end.
Definition call_get (id : rstr) (l : list (rstr * Call)) : option Call :=
  snd <$> List.find (λ '(id', _), bool_decide (id' = id)) l.
Definition shift_remove (id : rstr) (l : list (rstr * Call)) : list (rstr * Call) :=
  List.filter (λ '(id', _), negb (bool_decide (id' = id))) l.

Definition register_call (call : Call) (s : Service) : Service :=
  with_calls (call_insert (call_registration_id call) call (active_calls s)) (call_outcomes s) s.

Definition resolve_single_active_call (s : Service) : option Call :=
  match active_calls s with [(_, call)] => Some call | _ => None end.
Definition resolve_active_call_by_execution_id (execution_id : rstr) (s : Service) : option Call :=
  call_get execution_id (active_calls s).

Inductive Attribution := AttributionNone | Single (call : Call) | Ambiguous.
Definition resolve_active_call_attribution (s : Service) : Attribution :=
  match active_calls s with [] => AttributionNone | [(_, call)] => Single call | _ => Ambiguous end.

(** The call a request belongs to and its environment; [None] is a request
    that cannot be attributed. *)
Definition resolve_request_attribution (request : Request) (s : Service) : option (option Call * option rstr) :=
  match r_execution_id request with
  | Some execution_id =>
      call ← resolve_active_call_by_execution_id execution_id s;
      let environment_id := default (call_environment_id call) (r_environment_id request) in
      if bool_decide (call_environment_id call = environment_id) then Some (Some call, Some environment_id) else None
  | None =>
      match r_environment_id request with
      | Some environment_id =>
          let owner_call :=
            match resolve_active_call_attribution s with
            | Single call => if bool_decide (call_environment_id call = environment_id) then Some call else None
            | AttributionNone | Ambiguous => None
            end in
          Some (owner_call, Some environment_id)
      | None =>
          match resolve_active_call_attribution s with
          | AttributionNone => Some (None, None)
          | Single call => Some (Some call, Some (call_environment_id call))
          | Ambiguous => None
          end
      end
  end.

Definition store_call_outcome (registration_id outcome : rstr) (s : Service) : Service * option nat :=
  match call_get registration_id (active_calls s) with
  | None => (s, None)
  | Some call => (with_calls (active_calls s) (<[registration_id := outcome]> (call_outcomes s)) s, Some (call_token call))
  end.
Definition record_call_outcome (registration_id outcome : rstr) (s : Service) : Service :=
  match store_call_outcome registration_id outcome s with
  | (s, Some token) => cancel token s
  | (s, None) => s
  end.
Definition record_call_outcome_if_absent (registration_id outcome : rstr) (s : Service) : Service :=
  match call_get registration_id (active_calls s) with
  | None => s
  | Some call =>
      let outcomes :=
        match call_outcomes s !! registration_id with
        | Some _ => call_outcomes s
        | None => <[registration_id := outcome]> (call_outcomes s)
        end in
      cancel (call_token call) (with_calls (active_calls s) outcomes s)
  end.
Definition remove_call (registration_id : rstr) (s : Service) : Service * option rstr :=
  (with_calls (shift_remove registration_id (active_calls s)) (delete registration_id (call_outcomes s)) s,
   call_outcomes s !! registration_id).

Definition record_blocked_request (blocked : BlockedRequest) (s : Service) : Service :=
  match denied_network_policy_message blocked with
  | None => s
  | Some message =>
      let owner_call :=
        match b_execution_id blocked with
        | Some execution_id => resolve_active_call_by_execution_id execution_id s
        | None => resolve_single_active_call s
        end in
      match owner_call with
      | None => s
      | Some call => record_call_outcome_if_absent (call_registration_id call) message s
      end
  end.

Definition record_for (call : option Call) (outcome : rstr) (s : Service) : Service :=
  match call with Some call => record_call_outcome (call_registration_id call) outcome s | None => s end.

Definition sync_session_approved_hosts_to (s other : Service) : Service :=
  with_hosts (session_approved_hosts s) (session_denied_hosts other) other.

(** *** Finishing a call *)

(** [finish_outcome] is the shared cell of the clones of one approval. *)
Record DeferredNetworkApproval := mkDeferred {
  registration_id : rstr;
  cancellation_token : nat;
  finish_outcome : option (option rstr)
}.

Definition REJECTION_MESSAGE_MAX_TOKENS : N := 900.

Definition network_approval_outcome_to_result (o : option rstr) : outcome unit (result Error ()) :=
  match o with
  | Some rejection =>
      '(text, _) ← truncate_middle_with_token_budget rejection REJECTION_MESSAGE_MAX_TOKENS; Done (Err (Rejected text))
  | None => Done (Ok ())
  end.
Definition abandoned_network_approval_outcome (token : nat) (s : Service) : option rstr :=
  if is_cancelled token s then Some ABANDONED_NETWORK_APPROVAL_MESSAGE else None.

Definition finish (d : DeferredNetworkApproval) (s : Service) :
    Service * DeferredNetworkApproval * outcome unit (result Error ()) :=
  let '(s, o) :=
    match finish_outcome d with Some o => (s, o) | None => remove_call (registration_id d) s end in
  let d := mkDeferred (registration_id d) (cancellation_token d) (Some o) in
  (s, d, network_approval_outcome_to_result (or_else o (abandoned_network_approval_outcome (cancellation_token d) s))).

(** *** Pending reviews *)

Definition get_or_create_pending_approval (key : PendingHostApprovalKey) (s : Service) : Service * nat * bool :=
  match pending_host_approvals s !! key with
  | Some existing => (s, existing, false)
  | None =>
      let created := length (pendings s) in
      (with_pending (<[key := created]> (pending_host_approvals s)) (pendings s ++ [None]) s, created, true)
  end.

(** [set_decision]: the first decision stays. *)
Definition set_decision (pending : nat) (d : PendingApprovalDecision) (l : list (option PendingApprovalDecision)) :
    list (option PendingApprovalDecision) :=
  match l !! pending with Some None => <[pending := Some d]> l | _ => l end.

(** [PendingHostApprovalOwner] with what the review needs to know. *)
Record Owner := mkOwner {
  key : PendingHostApprovalKey;
  pending : nat;
  owner_call : option Call;
  handles : Handles;
  decision_on_drop : PendingApprovalDecision;
  request_host : rstr;
  policy_denial_message : rstr;
  context : NetworkApprovalContext
}.
Definition set_decision_on_drop (d : PendingApprovalDecision) (o : Owner) : Owner :=
  mkOwner (key o) (pending o) (owner_call o) (handles o) d (request_host o) (policy_denial_message o) (context o).
Definition host_key (o : Owner) : HostApprovalKey := pk_host (key o).

Definition publish_and_remove (o : Owner) (d : PendingApprovalDecision) (s : Service) : Service :=
  let m := pending_host_approvals s in
  let m := if bool_decide (m !! key o = Some (pending o)) then delete (key o) m else m in
  with_pending m (set_decision (pending o) d (pendings s)) s.

Definition cancel_execution_if_denied (o : Owner) (d : PendingApprovalDecision) (s : Service) : Service :=
  match d, owner_call o with
  | DenyRequest, Some call => cancel (call_token call) s
  | _, _ => s
  end.

Definition complete (o : Owner) (d : PendingApprovalDecision) (s : Service) : Service :=
  publish_and_remove o d (cancel_execution_if_denied o d s).

Definition disconnected_message (elapsed_ms : N) : rstr :=
  $"Network request disconnected after " ++ str (pretty elapsed_ms) ++ $" ms, before approval could complete".

(** [Drop] of an owner that is not completed; [reason] and [elapsed] are what
    the handles of its request hold. *)
Definition drop_owner (o : Owner) (reason : option NetworkRequestCancellationReason) (elapsed : option N) (s : Service) :
    Service :=
  let reason := if has_cancellation (handles o) then reason else None in
  let elapsed := if has_disconnect (handles o) then elapsed else None in
  let d := decision_on_drop o in
  if bool_decide (reason = Some ProcessFinished) then publish_and_remove o d s
  else
    let s :=
      match d, pk_execution_id (key o), elapsed with
      | DenyRequest, Some registration_id, Some elapsed_ms =>
          record_call_outcome_if_absent registration_id (disconnected_message elapsed_ms) s
      | _, _, _ => s
      end in
    publish_and_remove o d (cancel_execution_if_denied o d s).

(** ** Handling a request *)

(** A request after the active turn is known. *)
Record Attributed := mkAttributed {
  a_request : Request;
  a_owner_call : option Call;
  a_environment_id : rstr;
  a_turn : option ActiveTurn
}.
Definition a_protocol (a : Attributed) : NetworkApprovalProtocol := approval_protocol (r_protocol (a_request a)).
Definition a_key (a : Attributed) : HostApprovalKey := from_request (a_request a) (a_protocol a) (a_environment_id a).
Definition a_target (a : Attributed) : rstr :=
  format_network_target (k_protocol (a_key a)) (r_host (a_request a)) (k_port (a_key a)).
Definition a_denial_message (a : Attributed) : rstr :=
  $"Network access to " ++ [DQUOTE] ++ a_target a ++ [DQUOTE] ++ $" was blocked by policy.".

(** The fields of [ApprovalAction::NetworkAccess] but the trigger and the
    directory. *)
Record NetworkAccessAction := mkAction {
  action_id : rstr;
  action_turn_id : rstr;
  action_environment_id : rstr;
  action_target : rstr;
  action_host : rstr;
  action_protocol : NetworkApprovalProtocol;
  action_port : N;
  action_hook_command : rstr;
  action_hook_run_id : rstr;
  action_command : list rstr
}.
Local Abbreviation ReviewContext := (ApprovalContext NetworkApprovalContext).

(** Where a request is: about to be attributed; waiting for the active turn,
    for the policy lock, for the set of denied hosts, for the set of approved
    hosts; waiting for another review, or for its own; waiting for the policy
    lock with an answer, and then for the sets; amending the policy; reporting
    that; changing the sets; returned, with the key and the review that
    decided, if there was one; or dropped. *)
Inductive Pc :=
| Starting (request : Request)
| NeedsTurn (request : Request) (call : option Call) (environment_id : option rstr)
| NeedsLock (a : Attributed)
| ReadingDenied (a : Attributed)
| ReadingApproved (a : Attributed)
| Waiting (k : HostApprovalKey) (review : nat)
| Reviewing (o : Owner) (action : NetworkAccessAction) (ctx : ReviewContext)
| Committing (o : Owner) (decision : ReviewDecision)
| Deciding (o : Owner) (for_session : bool)
| Approving (o : Owner)
| Validating (o : Owner) (amendment_host : rstr) (action : NetworkPolicyRuleAction)
| Updating (o : Owner) (host : rstr) (action : NetworkPolicyRuleAction)
| Saving (o : Owner) (host : rstr) (action : NetworkPolicyRuleAction) (amendment : ExecPolicyNetworkRuleAmendment)
    (notified : bool)
| Reporting (o : Owner) (action : NetworkPolicyRuleAction)
| Removing (o : Owner) (action : NetworkPolicyRuleAction)
| Adding (o : Owner) (action : NetworkPolicyRuleAction)
| Returned (k : option HostApprovalKey) (review : option nat) (decision : NetworkDecision)
| Dropped.

Definition owner_of (pc : Pc) : option Owner :=
  match pc with
  | Reviewing o _ _ | Committing o _ | Deciding o _ | Approving o | Validating o _ _ | Updating o _ _
  | Saving o _ _ _ _ | Reporting o _ | Removing o _ | Adding o _ => Some o
  | _ => None
  end.
Definition holds_lock (pc : Pc) : bool :=
  match pc with
  | ReadingDenied _ | ReadingApproved _ | Deciding _ _ | Approving _ | Validating _ _ _ | Updating _ _ _
  | Saving _ _ _ _ _ | Reporting _ _ | Removing _ _ | Adding _ _ => true
  | _ => false
  end.

(** What a section gets from outside. *)
Inductive Input :=
| Go
| Turn (turn : option ActiveTurn)
| Reviewed (r : result Error ReviewDecision)
| Withdrawn
| Refresh (open : bool)
| Runtime (r : option (result rstr ()))
| Saved (r : result rstr ()).

Context (err_text : CodexErr Output Payload → rstr).

Definition codex_err_is_abort (err : CodexErr Output Payload) : bool :=
  match err with TurnAborted => true | _ => false end.

(** [complete] and the end of the function. *)
Definition resolved (o : Owner) (d : PendingApprovalDecision) (s : Service) : Service * Pc :=
  (complete o d s, Returned (Some (host_key o)) (Some (pending o)) (to_network_decision d)).
(** The same, holding the policy lock. *)
Definition resolved_locked (o : Owner) (d : PendingApprovalDecision) (s : Service) : Service * Pc :=
  resolved o d (with_lock None s).
Definition refused (o : Owner) (outcome : rstr) (s : Service) : Service * Pc :=
  resolved o DenyRequest (record_for (owner_call o) outcome s).

Definition review_environments (a : Attributed) (turn : ActiveTurn) : Snapshot :=
  match a_owner_call a with Some call => call_environments call | None => active_environments turn end.
Definition review_permission_profile (a : Attributed) (turn : ActiveTurn) : option Profile :=
  match a_owner_call a with
  | Some call => Some (call_permission_profile call)
  | None => e_permission_profile <$> find_environment (a_environment_id a) (review_environments a turn)
  end.

Definition network_access_action (a : Attributed) (turn : ActiveTurn) : NetworkAccessAction :=
  let id := approval_id_for_key (a_key a) in
  let command := [$"network-access"; a_target a] in
  mkAction id (sub_id turn) (a_environment_id a) (a_target a) (r_host (a_request a)) (a_protocol a) (k_port (a_key a))
    (match a_owner_call a with Some call => call_command call | None => RustStr.join ($" ") command end)
    (match a_owner_call a with Some call => id ++ $"#" ++ call_registration_id call | None => id end)
    command.

Definition review_context (a : Attributed) (turn : ActiveTurn) (context : NetworkApprovalContext) : ReviewContext :=
  mkApprovalContext (turn_strict_auto_review turn) (Some (r_host (a_request a) ++ $" is not in the allowed_domains"))
    (Some (a_denial_message a)) (Some context).

(** After the sets said nothing about the host: join the review of the same
    key, or start one. *)
Definition join_review (a : Attributed) (s : Service) : Service * Pc :=
  match a_turn a with
  | None => (record_for (a_owner_call a) (a_denial_message a) s, Returned (Some (a_key a)) None not_allowed)
  | Some turn =>
      let pending_key :=
        mkPendingKey (a_key a) (match a_owner_call a with Some call => call_turn_id call | None => sub_id turn end)
          (call_registration_id <$> a_owner_call a) in
      let '(s, id, is_owner) := get_or_create_pending_approval pending_key s in
      if negb is_owner then (s, Waiting (a_key a) id)
      else
        let context := mkNetworkContext (r_host (a_request a)) (a_protocol a) in
        let o := mkOwner pending_key id (a_owner_call a) (r_handles (a_request a)) DenyRequest (r_host (a_request a))
                   (a_denial_message a) context in
        if negb (match review_permission_profile a turn with
                 | Some p => permission_profile_allows_network_approval_flow p
                 | None => false
                 end)
        then refused o (a_denial_message a) s
        else if negb (allows_network_approval_flow (approval_policy turn)) then refused o (a_denial_message a) s
        else (s, Reviewing o (network_access_action a turn) (review_context a turn context))
  end.

Definition begin_request (request : Request) (s : Service) : Pc :=
  match resolve_request_attribution request s with
  | None => Returned None None not_allowed
  | Some (call, environment_id) =>
      if (match call with Some call => is_cancelled (call_token call) s | None => false end)
      then Returned None None not_allowed
      else NeedsTurn request call environment_id
  end.

Definition with_turn (request : Request) (call : option Call) (environment_id : option rstr) (turn : option ActiveTurn) :
    Pc :=
  let from_turn := (t ← turn; e ← primary (active_environments t); Some (e_environment_id e)) in
  match or_else environment_id from_turn with
  | None => Returned None None not_allowed
  | Some environment_id => NeedsLock (mkAttributed request call environment_id turn)
  end.

(** What follows the reviewer's answer up to the next await. *)
Definition reviewed (o : Owner) (r : result Error ReviewDecision) (s : Service) : Service * Pc :=
  match r with
  | Err (Rejected rejection) => refused o rejection s
  | Err (Codex err) =>
      refused o (if codex_err_is_abort err then msg_rejected_by_user
                 else $"Error while requesting approval: " ++ err_text err) s
  | Ok decision =>
      let s :=
        match decision, owner_call o with
        | NetworkPolicyAmendment _ DenyHost, Some call =>
            fst (store_call_outcome (call_registration_id call) msg_rejected_by_user s)
        | _, _ => s
        end in
      match decision with
      | Approved | ApprovedExecpolicyAmendment _ | ApprovedForSession | NetworkPolicyAmendment _ _ =>
          (s, Committing o decision)
      | ApprovedMcpPolicyAmendment | Approvals.Denied _ | TimedOut | Abort => refused o ($"Error while requesting approval") s
      end
  end.

Definition commit (o : Owner) (decision : ReviewDecision) : Pc :=
  match decision with
  | ApprovedForSession => Deciding o true
  | NetworkPolicyAmendment amendment_host action => Validating o amendment_host action
  | _ => Deciding o false
  end.

Definition decide_approved (o : Owner) (for_session : bool) (s : Service) : Service * Pc :=
  if bool_decide (host_key o ∈ session_denied_hosts s)
  then resolved_locked o DenyRequest (record_for (owner_call o) (policy_denial_message o) s)
  else if for_session then (s, Approving o) else resolved_locked o AllowOnce s.

Definition applied_decision (action : NetworkPolicyRuleAction) : PendingApprovalDecision :=
  match action with AllowHost => AllowForSession | DenyHost => DenyRequest end.

(** After the amendment was reported. *)
Definition reported (o : Owner) (action : NetworkPolicyRuleAction) (s : Service) : Service * Pc :=
  match action with
  | AllowHost =>
      if bool_decide (decision_on_drop o = AllowForSession) then (s, Removing o AllowHost)
      else resolved_locked o DenyRequest (record_for (owner_call o) (policy_denial_message o) s)
  | DenyHost => (record_for (owner_call o) msg_rejected_by_user s, Removing o DenyHost)
  end.

Definition remove_host (o : Owner) (action : NetworkPolicyRuleAction) (s : Service) : Service :=
  match action with
  | AllowHost => with_hosts (session_approved_hosts s) (session_denied_hosts s ∖ {[host_key o]}) s
  | DenyHost => with_hosts (session_approved_hosts s ∖ {[host_key o]}) (session_denied_hosts s) s
  end.
Definition add_host (o : Owner) (action : NetworkPolicyRuleAction) (s : Service) : Service :=
  match action with
  | AllowHost => with_hosts ({[host_key o]} ∪ session_approved_hosts s) (session_denied_hosts s) s
  | DenyHost => with_hosts (session_approved_hosts s) ({[host_key o]} ∪ session_denied_hosts s) s
  end.

(** One section of request [me]; [None] while it has to wait, or if the input
    is none it waits for. *)
Definition advance (me : nat) (input : Input) (s : Service) (pc : Pc) : option (Service * Pc) :=
  match pc, input with
  | Starting request, Go => Some (s, begin_request request s)
  | NeedsTurn request call environment_id, Turn turn => Some (s, with_turn request call environment_id turn)
  | NeedsLock a, Go =>
      if session_policy_commit_lock s then None else Some (with_lock (Some me) s, ReadingDenied a)
  | ReadingDenied a, Go =>
      if bool_decide (a_key a ∈ session_denied_hosts s)
      then Some (with_lock None s, Returned (Some (a_key a)) None not_allowed)
      else Some (s, ReadingApproved a)
  | ReadingApproved a, Go =>
      let released := with_lock None s in
      if bool_decide (a_key a ∈ session_approved_hosts s)
      then Some (released, Returned (Some (a_key a)) None NetAllow)
      else Some (join_review a released)
  | Waiting k review, Go =>
      match pendings s !! review with
      | Some (Some d) => Some (s, Returned (Some k) (Some review) (to_network_decision d))
      | _ => None
      end
  | Reviewing o _ _, Reviewed r => Some (reviewed o r s)
  | Reviewing o _ _, Withdrawn =>
      match owner_call o with
      | Some call => if is_cancelled (call_token call) s then Some (resolved o DenyRequest s) else None
      | None => None
      end
  | Committing o decision, Go =>
      if session_policy_commit_lock s then None else Some (with_lock (Some me) s, commit o decision)
  | Deciding o for_session, Go => Some (decide_approved o for_session s)
  | Approving o, Go => Some (resolved_locked o AllowForSession (add_host o AllowHost s))
  | Validating o amendment_host action, Refresh open =>
      match open, validated_network_policy_amendment_host amendment_host (context o) with
      | true, Some host => Some (s, Updating o host action)
      | _, _ => Some (s, Reporting o action)
      end
  | Updating o host action, Runtime r =>
      let amendment := execpolicy_network_rule_amendment action (context o) host in
      match r with
      | None => Some (s, Saving o host action amendment false)
      | Some (Ok _) => Some (s, Saving (set_decision_on_drop (applied_decision action) o) host action amendment true)
      | Some (Err _) => Some (s, Reporting o action)
      end
  | Saving o _ action _ notified, Saved r =>
      match r with
      | Ok _ => Some (s, Reporting (if notified then o else set_decision_on_drop (applied_decision action) o) action)
      | Err _ => Some (s, Reporting o action)
      end
  | Reporting o action, Go => Some (reported o action s)
  | Removing o action, Go => Some (remove_host o action s, Adding o action)
  | Adding o action, Go => Some (resolved_locked o (applied_decision action) (add_host o action s))
  | _, _ => None
  end.

(** The future of request [me] is dropped at an await. *)
Definition drop_request (me : nat) (reason : option NetworkRequestCancellationReason) (elapsed : option N) (s : Service)
    (pc : Pc) : Service * Pc :=
  let s := match owner_of pc with Some o => drop_owner o reason elapsed s | None => s end in
  (if holds_lock pc then with_lock None s else s, Dropped).
Definition is_finished (pc : Pc) : bool := match pc with Returned _ _ _ | Dropped => true | _ => false end.

(** ** The service at work *)

Definition System : Type := Service * list Pc.

(** What happened in a step: request [i] went on from [pc], or something else
    used the service. *)
Inductive Label :=
| LRequest (request : Request)
| LRun (i : nat) (pc : Pc) (input : Input)
| LDrop (i : nat) (pc : Pc)
| LRegister (call : Call)
| LRemove (registration_id : rstr)
| LBlocked (blocked : BlockedRequest)
| LSync (hosts : gset HostApprovalKey).

Inductive approval_step : System → Label → System → Prop :=
| step_request s tasks request :
    approval_step (s, tasks) (LRequest request) (s, tasks ++ [Starting request])
| step_run s tasks i pc input s' pc' :
    tasks !! i = Some pc → advance i input s pc = Some (s', pc') →
    approval_step (s, tasks) (LRun i pc input) (s', <[i := pc']> tasks)
| step_drop s tasks i pc reason elapsed s' pc' :
    tasks !! i = Some pc → is_finished pc = false → drop_request i reason elapsed s pc = (s', pc') →
    approval_step (s, tasks) (LDrop i pc) (s', <[i := pc']> tasks)
| step_register s tasks call : approval_step (s, tasks) (LRegister call) (register_call call s, tasks)
| step_remove s tasks id : approval_step (s, tasks) (LRemove id) ((remove_call id s).1, tasks)
| step_blocked s tasks b : approval_step (s, tasks) (LBlocked b) (record_blocked_request b s, tasks)
| step_sync s tasks other :
    approval_step (s, tasks) (LSync (session_approved_hosts other)) (sync_session_approved_hosts_to other s, tasks).

Inductive runs : System → list Label → System → Prop :=
| runs_refl st : runs st [] st
| runs_snoc st tr st' l st'' : runs st tr st' → approval_step st' l st'' → runs st (tr ++ [l]) st''.

Definition initial : System := (default_service, []).
End service.
