(* ===== verification/NetApprovalFacts.v ===== *)
(** * Facts about approving hosts

    [protocol_step] is an abstract board of reviews: who owns one, who waits
    for one, and what was decided.  The service is a refinement of it
    ([step_refines]); on the board, an open review has one owner and a joined
    one ends with its owner's decision ([board_ok]). *)

From stdpp Require Import gmap.
From S2P Require Orchestrator ExecApproval.
From S2P Require Import Prelude RustStr ExecPolicy Permissions Approvals Truncation NetPolicy NetProxy NetApproval.

(** ** The board of reviews *)

(** The open review of each key, and all reviews with their decision. *)
Definition Board : Type := gmap PendingHostApprovalKey nat * list (option PendingApprovalDecision).

(** What a request has to do with the board. *)
Inductive Role :=
| NoRole
| OwnerOf (k : PendingHostApprovalKey) (p : nat)
| Waits (k : HostApprovalKey) (p : nat)
| Answered (k : HostApprovalKey) (p : nat) (d : NetworkDecision)
| Gone.

(** The board after the owner of [(k, p)] published [d]. *)
Definition published (k : PendingHostApprovalKey) (p : nat) (d : PendingApprovalDecision) (b : Board) : Board :=
  ((if bool_decide (b.1 !! k = Some p) then delete k b.1 else b.1), set_decision p d b.2).

(** The moves of a request: nothing; join the open review of a key, or open
    one; open one and refuse it at once; decide a review, or abandon it with a
    decision; learn the decision; leave. *)
Inductive move (b : Board) : Role → Board → Role → Prop :=
| move_none r : move b r b r
| move_join k p : b.1 !! k = Some p → move b NoRole b (Waits (pk_host k) p)
| move_open k : b.1 !! k = None →
    move b NoRole (<[k := length b.2]> b.1, b.2 ++ [None]) (OwnerOf k (length b.2))
| move_refuse k : b.1 !! k = None →
    move b NoRole (b.1, b.2 ++ [Some DenyRequest]) (Answered (pk_host k) (length b.2) not_allowed)
| move_decide k p d : move b (OwnerOf k p) (published k p d b) (Answered (pk_host k) p (to_network_decision d))
| move_abandon k p d : move b (OwnerOf k p) (published k p d b) Gone
| move_learn k p d : b.2 !! p = Some (Some d) → move b (Waits k p) b (Answered k p (to_network_decision d))
| move_leave r : (∀ k p, r ≠ OwnerOf k p) → move b r b Gone.

Inductive protocol_step : Board * list Role → Board * list Role → Prop :=
| protocol_start b roles : protocol_step (b, roles) (b, roles ++ [NoRole])
| protocol_idle b roles : protocol_step (b, roles) (b, roles)
| protocol_move b roles i r b' r' :
    roles !! i = Some r → move b r b' r' → protocol_step (b, roles) (b', <[i := r']> roles).

(** Every review under way is open under the key of its one owner, whoever
    waits for a review finds it, and answers are its decision. *)
Record board_ok (b : Board) (roles : list Role) : Prop := {
  owners_open i k p : roles !! i = Some (OwnerOf k p) → b.1 !! k = Some p ∧ b.2 !! p = Some None;
  owners_unique i j k k' p : roles !! i = Some (OwnerOf k p) → roles !! j = Some (OwnerOf k' p) → i = j;
  reviews_owned p : b.2 !! p = Some None → ∃ i k, roles !! i = Some (OwnerOf k p);
  keys_open k p : b.1 !! k = Some p → b.2 !! p = Some None ∧ ∃ i, roles !! i = Some (OwnerOf k p);
  waits_known i k p : roles !! i = Some (Waits k p) →
    (∃ j k', roles !! j = Some (OwnerOf k' p) ∧ pk_host k' = k) ∨ ∃ d, b.2 !! p = Some (Some d);
  answers_decided i k p d : roles !! i = Some (Answered k p d) →
    ∃ d', b.2 !! p = Some (Some d') ∧ d = to_network_decision d'
}.

(** *** The board stays consistent *)

Ltac at_roles :=
  repeat match goal with
  | H : <[_ := _]> _ !! _ = Some _ |- _ => apply list_lookup_insert_Some in H as [(? & ? & ?)|(? & ?)]
  | H : ?l !! ?i = Some ?a, H' : ?l !! ?i = Some ?b |- _ =>
      lazymatch a with b => fail | _ => rewrite H in H'; injection H' as H'; subst end
  end; simplify_eq.

Lemma owner_kept (roles : list Role) (i : nat) r k p (j : nat) :
  roles !! j = Some (OwnerOf k p) → roles !! i = Some r → (∀ k' p', r ≠ OwnerOf k' p') →
  ∀ r', <[i := r']> roles !! j = Some (OwnerOf k p).
Proof. intros Hj Hi Hr r'. rewrite list_lookup_insert_ne; [done|]. intros ->. naive_solver. Qed.

(** A request that owns nothing and will own nothing changes its role. *)
Lemma quiet_ok b roles i r r' : board_ok b roles → roles !! i = Some r →
  (∀ k p, r ≠ OwnerOf k p) → (∀ k p, r' ≠ OwnerOf k p) →
  (∀ k p, r' = Waits k p →
     (∃ j k', roles !! j = Some (OwnerOf k' p) ∧ pk_host k' = k) ∨ ∃ d, b.2 !! p = Some (Some d)) →
  (∀ k p d, r' = Answered k p d → ∃ d', b.2 !! p = Some (Some d') ∧ d = to_network_decision d') →
  board_ok b (<[i := r']> roles).
Proof.
  intros [Ho Hu Hv Hk Hw Ha] Hi Hr Hr' Hwait Hans. split.
  - intros j k p Hj. at_roles; naive_solver.
  - intros j j' k k' p Hj Hj'. at_roles; naive_solver.
  - intros p Hp. destruct (Hv p Hp) as (j & k & Hj). eauto using owner_kept.
  - intros k p Hp. destruct (Hk k p Hp) as (? & j & Hj). eauto using owner_kept.
  - intros j k p Hj.
    assert ((∃ j k', roles !! j = Some (OwnerOf k' p) ∧ pk_host k' = k) ∨ ∃ d, b.2 !! p = Some (Some d))
      as [(j' & k' & Hj' & ?)|?]; [|left; eauto using owner_kept|by right].
    at_roles; eauto.
  - intros j k p d Hj. at_roles; eauto.
Qed.

(** The owner of a review publishes a decision. *)
Lemma published_eq b roles i k p d : board_ok b roles → roles !! i = Some (OwnerOf k p) →
  published k p d b = (delete k b.1, <[p := Some d]> b.2).
Proof.
  intros Hok Hi. destruct (owners_open _ _ Hok _ _ _ Hi) as [H1 H2].
  unfold published, set_decision. rewrite bool_decide_eq_true_2 by done. by rewrite H2.
Qed.

Lemma published_ok b roles i k p d r' : board_ok b roles → roles !! i = Some (OwnerOf k p) →
  r' = Gone ∨ r' = Answered (pk_host k) p (to_network_decision d) →
  board_ok (published k p d b) (<[i := r']> roles).
Proof.
  intros Hok Hi Hr'. rewrite (published_eq _ _ _ _ _ _ Hok Hi).
  pose proof (lookup_lt_Some _ _ _ Hi) as Hlt. destruct Hok as [Ho Hu Hv Hk Hw Ha].
  destruct (Ho _ _ _ Hi) as [Hkp Hp]. pose proof (lookup_lt_Some _ _ _ Hp) as Hlp.
  assert (∀ j k' p', roles !! j = Some (OwnerOf k' p') → j ≠ i → k' ≠ k ∧ p' ≠ p) as Hne.
  { intros j k' p' Hj Hji. split; intros ->; [|by eapply Hji, Hu].
    destruct (Ho _ _ _ Hj) as [E _]. rewrite Hkp in E. simplify_eq. by eapply Hji, Hu. }
  split; cbn.
  - intros j k' p' Hj. at_roles; [naive_solver|]. destruct (Hne _ _ _ H0) as [? ?]; [done|].
    rewrite lookup_delete_ne, list_lookup_insert_ne by done. eauto.
  - intros j j' k1 k2 p' Hj Hj'. at_roles; naive_solver.
  - intros p' Hp'. apply list_lookup_insert_Some in Hp' as [(? & ? & ?)|[? Hp']]; [done|].
    destruct (Hv p' Hp') as (j & k' & Hj). exists j, k'. rewrite list_lookup_insert_ne; [done|]. intros ->. naive_solver.
  - intros k' p' Hk'. apply lookup_delete_Some in Hk' as [? Hk']. destruct (Hk _ _ Hk') as (Hp' & j & Hj).
    assert (j ≠ i) by (intros ->; naive_solver). destruct (Hne _ _ _ Hj) as [? ?]; [done|].
    rewrite list_lookup_insert_ne by done. split; [done|]. exists j. by rewrite list_lookup_insert_ne.
  - intros j k' p' Hj. at_roles; [naive_solver|].
    destruct (decide (p' = p)) as [->|]; [right; exists d; by apply list_lookup_insert_eq|].
    rewrite (list_lookup_insert_ne b.2) by done. destruct (Hw _ _ _ H0) as [(j' & k2 & Hj' & ?)|?]; [left|by right].
    exists j', k2. rewrite list_lookup_insert_ne; [done|]. intros ->. naive_solver.
  - intros j k' p' d' Hj. at_roles.
    + destruct Hr' as [|Hr']; simplify_eq. exists d. by rewrite list_lookup_insert_eq.
    + destruct (Ha _ _ _ _ H0) as (d2 & Hd2 & ->). exists d2. rewrite list_lookup_insert_ne; [done|]. intros ->.
      by simplify_eq.
Qed.

(** A review is added to the list. *)
Lemma open_ok b roles i k : board_ok b roles → roles !! i = Some NoRole → b.1 !! k = None →
  board_ok (<[k := length b.2]> b.1, b.2 ++ [None]) (<[i := OwnerOf k (length b.2)]> roles).
Proof.
  intros [Ho Hu Hv Hk Hw Ha] Hi Hnone. pose proof (lookup_lt_Some _ _ _ Hi) as Hlt.
  assert (∀ p d, b.2 !! p = Some d → (b.2 ++ [None]) !! p = Some d) as Happ
    by (intros; by apply lookup_app_l_Some).
  assert (b.2 !! length b.2 = None) as Hnew by (by apply lookup_ge_None).
  assert (∀ j k p, roles !! j = Some (OwnerOf k p) → p ≠ length b.2) as Hne.
  { intros j k' p Hj ->. destruct (Ho _ _ _ Hj) as [_ E]. by rewrite Hnew in E. }
  split; cbn.
  - intros j k' p Hj. at_roles; [rewrite lookup_insert_eq, lookup_app_r, Nat.sub_diag by done; done|].
    destruct (Ho _ _ _ H0) as [E ?]. rewrite lookup_insert_ne by (intros ->; by simplify_eq). eauto.
  - intros j j' k1 k2 p Hj Hj'. at_roles; try done; naive_solver.
  - intros p Hp. destruct (decide (p = length b.2)) as [->|Hp'].
    + exists i, k. by rewrite list_lookup_insert_eq.
    + rewrite lookup_app_l in Hp; [|apply lookup_lt_Some in Hp; rewrite length_app in Hp; cbn in Hp; lia].
      destruct (Hv p Hp) as (j & k' & Hj). exists j, k'. rewrite list_lookup_insert_ne; [done|]. intros ->. by simplify_eq.
  - intros k' p Hp. destruct (decide (k' = k)) as [->|].
    + rewrite lookup_insert_eq in Hp. simplify_eq. rewrite lookup_app_r, Nat.sub_diag by done.
      split; [done|]. exists i. by rewrite list_lookup_insert_eq.
    + rewrite lookup_insert_ne in Hp by done. destruct (Hk _ _ Hp) as (? & j & Hj). split; [eauto|].
      exists j. rewrite list_lookup_insert_ne; [done|]. intros ->. by simplify_eq.
  - intros j k' p Hj. at_roles. destruct (Hw _ _ _ H0) as [(j' & k2 & Hj' & ?)|[d ?]]; [left|right; eauto].
    exists j', k2. rewrite list_lookup_insert_ne; [done|]. intros ->. by simplify_eq.
  - intros j k' p d Hj. at_roles. destruct (Ha _ _ _ _ H0) as (d2 & ? & ->). eauto.
Qed.

Lemma refuse_board_ok b roles d : board_ok b roles → board_ok (b.1, b.2 ++ [Some d]) roles.
Proof.
  intros [Ho Hu Hv Hk Hw Ha].
  assert (∀ p d', b.2 !! p = Some d' → (b.2 ++ [Some d]) !! p = Some d') as Happ by (intros; by apply lookup_app_l_Some).
  split; cbn; [naive_solver..|intros p Hp|naive_solver|intros j k p Hj|intros j k p d' Hj].
  - apply lookup_app_Some in Hp as [Hp|[_ Hp]]; [eauto|]. by apply list_lookup_singleton_Some in Hp as [_ ?].
  - destruct (Hw _ _ _ Hj) as [?|[d' ?]]; eauto.
  - destruct (Ha _ _ _ _ Hj) as (d2 & ? & ->). eauto.
Qed.

Lemma move_ok b roles i r b' r' : board_ok b roles → roles !! i = Some r → move b r b' r' →
  board_ok b' (<[i := r']> roles).
Proof.
  intros Hok Hi Hm. destruct Hm.
  - by rewrite list_insert_id.
  - apply (quiet_ok _ _ _ NoRole); try done. intros k' p' [= <- <-]. destruct (keys_open _ _ Hok _ _ H) as (_ & j & Hj).
    left. eauto.
  - by apply open_ok.
  - apply (quiet_ok _ _ _ NoRole); try done; [by apply refuse_board_ok|]. intros k' p' d' [= <- <- <-].
    exists DenyRequest. cbn. by rewrite lookup_app_r, Nat.sub_diag by done.
  - apply published_ok; auto.
  - apply published_ok; auto.
  - apply (quiet_ok _ _ _ (Waits k p)); try done. intros k' p' d' [= <- <- <-]. eauto.
  - by apply (quiet_ok _ _ _ r).
Qed.

Lemma protocol_ok b roles b' roles' : protocol_step (b, roles) (b', roles') → board_ok b roles → board_ok b' roles'.
Proof.
  inversion 1; subst; [|done|intros; by eapply move_ok]. intros [Ho Hu Hv Hk Hw Ha].
  assert (∀ j r, (roles ++ [NoRole]) !! j = Some r → roles !! j = Some r ∨ r = NoRole) as Happ.
  { intros j r Hj. apply lookup_app_Some in Hj as [?|[_ Hj]]; [by left|right]. by apply list_lookup_singleton_Some in Hj as [_ ?]. }
  assert (∀ j r, roles !! j = Some r → (roles ++ [NoRole]) !! j = Some r) as Happ' by (intros; by apply lookup_app_l_Some).
  split.
  - intros j k p Hj. destruct (Happ _ _ Hj); naive_solver.
  - intros j j' k k' p Hj Hj'. destruct (Happ _ _ Hj), (Happ _ _ Hj'); naive_solver.
  - naive_solver.
  - naive_solver.
  - intros j k p Hj. destruct (Happ _ _ Hj); [|done]. destruct (Hw _ _ _ H0) as [(? & ? & ? & ?)|]; [left|right]; naive_solver.
  - intros j k p d Hj. destruct (Happ _ _ Hj); naive_solver.
Qed.

Section facts.
Context {PathUri Output Payload : Type} (err_text : CodexErr Output Payload → rstr).
Local Abbreviation Service := (Service (PathUri:=PathUri)).
Local Abbreviation Pc := (Pc (PathUri:=PathUri)).
Local Abbreviation Owner := (Owner (PathUri:=PathUri)).
Local Abbreviation advance := (advance (PathUri:=PathUri) err_text).
Local Abbreviation approval_step := (approval_step (PathUri:=PathUri) err_text).
Local Abbreviation runs := (runs (PathUri:=PathUri) err_text).

(** ** The board of a service *)

Definition board_of (s : Service) : Board := (pending_host_approvals s, pendings s).
Definition role_of (pc : Pc) : Role :=
  match owner_of pc with
  | Some o => OwnerOf (key o) (pending o)
  | None =>
      match pc with
      | Waiting k p => Waits k p
      | Returned (Some k) (Some p) d => Answered k p d
      | Dropped => Gone
      | _ => NoRole
      end
  end.

Lemma record_for_board c m s : board_of (record_for c m s) = board_of s.
Proof. unfold record_for, record_call_outcome, store_call_outcome. by repeat case_match; simplify_eq. Qed.
Lemma record_if_absent_board id m s : board_of (record_call_outcome_if_absent id m s) = board_of s.
Proof. unfold record_call_outcome_if_absent. by repeat case_match. Qed.
Lemma cancel_if_denied_board o d s : board_of (cancel_execution_if_denied o d s) = board_of s.
Proof. unfold cancel_execution_if_denied. by repeat case_match. Qed.

Lemma publish_board o d s : board_of (publish_and_remove o d s) = published (key o) (pending o) d (board_of s).
Proof. done. Qed.
Lemma complete_board o d s : board_of (complete o d s) = published (key o) (pending o) d (board_of s).
Proof. unfold complete. by rewrite publish_board, cancel_if_denied_board. Qed.
Lemma drop_owner_board o reason elapsed s :
  board_of (drop_owner o reason elapsed s) = published (key o) (pending o) (decision_on_drop o) (board_of s).
Proof.
  unfold drop_owner. case_match; [done|]. rewrite publish_board, cancel_if_denied_board.
  f_equal. repeat case_match; auto using record_if_absent_board.
Qed.

(** *** The service refines the board *)

Lemma resolved_move (o : Owner) d s s' pc' : resolved o d s = (s', pc') →
  move (board_of s) (OwnerOf (key o) (pending o)) (board_of s') (role_of pc').
Proof. intros [= <- <-]. rewrite complete_board. apply move_decide. Qed.

Lemma refused_move (o : Owner) m s s' pc' : refused o m s = (s', pc') →
  move (board_of s) (OwnerOf (key o) (pending o)) (board_of s') (role_of pc').
Proof. intros H%resolved_move. by rewrite record_for_board in H. Qed.

Lemma reviewed_move (o : Owner) r s s' pc' : reviewed err_text o r s = (s', pc') →
  move (board_of s) (OwnerOf (key o) (pending o)) (board_of s') (role_of pc').
Proof.
  unfold reviewed. destruct r as [decision|[m|err]]; [|apply refused_move..].
  set (s1 := match decision with NetworkPolicyAmendment _ DenyHost => _ | _ => s end).
  assert (board_of s1 = board_of s) as <-.
  { subst s1. unfold store_call_outcome. by repeat case_match; simplify_eq. }
  destruct decision; first [apply refused_move | intros [= <- <-]; apply move_none].
Qed.

Lemma join_review_move a s s' pc' : join_review a s = (s', pc') → move (board_of s) NoRole (board_of s') (role_of pc').
Proof.
  unfold join_review. destruct (a_turn a) as [turn|].
  2: { intros [= <- <-]. rewrite record_for_board. apply move_none. }
  unfold get_or_create_pending_approval. set (k := mkPendingKey _ _ _).
  destruct (pending_host_approvals s !! k) as [p|] eqn:E; cbn [negb].
  { intros [= <- <-]. by apply (move_join (board_of s) k). }
  set (s1 := with_pending _ _ s).
  assert (∀ (o : Owner) m s2 pc2, key o = k → pending o = length (pendings s) → refused o m s1 = (s2, pc2) →
          move (board_of s) NoRole (board_of s2) (role_of pc2)) as Hrefuse.
  { intros o m s2 pc2 Hk Hp [= <- <-]. rewrite complete_board, record_for_board. cbn. unfold host_key. rewrite Hk, Hp.
    unfold published, set_decision. cbn. rewrite lookup_insert_eq, bool_decide_eq_true_2 by done.
    rewrite lookup_app_r, Nat.sub_diag by done. cbn. rewrite insert_app_r_alt, Nat.sub_diag by done. cbn.
    rewrite delete_insert_id by done. by apply (move_refuse (board_of s) k). }
  do 2 (match goal with |- (if ?b then _ else _) = _ → _ => destruct b end; [by apply Hrefuse|]). intros [= <- <-]. by apply (move_open (board_of s) k).
Qed.

Lemma advance_move me input s pc s' pc' : advance me input s pc = Some (s', pc') →
  move (board_of s) (role_of pc) (board_of s') (role_of pc').
Proof.
  destruct pc; destruct input; try done; cbn [NetApproval.advance].
  - intros [= <- <-]. unfold begin_request. repeat case_match; apply move_none.
  - intros [= <- <-]. unfold with_turn. repeat case_match; apply move_none.
  - case_match; [done|]. intros [= <- <-]. apply move_none.
  - case_match; intros [= <- <-]; apply move_none.
  - case_match; intros [= H1]; [simplify_eq; apply move_none|].
    apply join_review_move in H1. exact H1.
  - destruct (pendings s !! review) as [[d|]|] eqn:E; try done. intros [= <- <-]. by apply (move_learn (board_of s)).
  - intros [= H]. by eapply reviewed_move.
  - repeat case_match; try done. intros [= <- <-]. rewrite complete_board. apply move_decide.
  - case_match; [done|]. intros [= <- <-]. unfold commit. repeat case_match; apply move_none.
  - unfold decide_approved. case_match; [|case_match]; intros [= <- <-]; try apply move_none.
    + rewrite complete_board. change (board_of (with_lock _ _)) with (board_of (record_for (owner_call o) (policy_denial_message o) s)).
      rewrite record_for_board. apply move_decide.
    + rewrite complete_board. apply (move_decide (board_of s)).
  - intros [= <- <-]. rewrite complete_board. apply (move_decide (board_of s)).
  - repeat case_match; intros [= <- <-]; apply move_none.
  - repeat case_match; intros [= <- <-]; apply move_none.
  - repeat case_match; intros [= <- <-]; apply move_none.
  - unfold reported. repeat case_match; intros [= <- <-]; try apply move_none.
    + rewrite complete_board. change (board_of (with_lock _ _)) with (board_of (record_for (owner_call o) (policy_denial_message o) s)).
      rewrite record_for_board. apply move_decide.
    + rewrite record_for_board. apply move_none.
  - intros [= <- <-]. destruct action; apply move_none.
  - intros [= <- <-]. rewrite complete_board. destruct action; apply (move_decide (board_of s)).
Qed.

Lemma drop_move me reason elapsed s pc s' pc' : is_finished pc = false →
  drop_request me reason elapsed s pc = (s', pc') → move (board_of s) (role_of pc) (board_of s') (role_of pc').
Proof.
  intros Hf. unfold drop_request. intros [= <- <-].
  assert (∀ b (s0 : Service), board_of (if b : bool then with_lock None s0 else s0) = board_of s0) as -> by (by intros []).
  unfold role_of. destruct (owner_of pc) as [o|] eqn:E.
  - rewrite drop_owner_board. apply move_abandon.
  - destruct pc; try done; by apply move_leave.
Qed.

Definition board_state (st : System (PathUri:=PathUri)) : Board * list Role := (board_of st.1, role_of <$> st.2).

Lemma step_refines st l st' : approval_step st l st' → protocol_step (board_state st) (board_state st').
Proof.
  unfold board_state.
  destruct 1 as [s tasks request|s tasks i pc input s' pc' Hi Ha|s tasks i pc reason elapsed s' pc' Hi Hf Hd|s tasks call
                |s tasks id|s tasks blocked|s tasks other]; cbn [fst snd].
  - rewrite fmap_app. apply protocol_start.
  - rewrite list_fmap_insert. eapply protocol_move; [by rewrite list_lookup_fmap, Hi|by eapply advance_move].
  - rewrite list_fmap_insert. eapply protocol_move; [by rewrite list_lookup_fmap, Hi|by eapply drop_move].
  - apply protocol_idle.
  - apply protocol_idle.
  - assert (board_of (record_blocked_request blocked s) = board_of s) as ->; [|apply protocol_idle].
    unfold record_blocked_request. repeat case_match; auto using record_if_absent_board.
  - apply protocol_idle.
Qed.

Lemma runs_board_ok tr st : runs initial tr st → board_ok (board_of st.1) (role_of <$> st.2).
Proof.
  remember initial as st0. induction 1 as [st|st tr st' l st'' _ IH Hs]; subst.
  - split; cbn; try (intros i; intros; by rewrite lookup_nil in *); intros; set_solver.
  - specialize (IH eq_refl). by eapply (protocol_ok (board_of st'.1)), IH; apply step_refines in Hs.
Qed.

(** ** The policy lock and the hosts of the session *)

(** What only the holder of the lock changes. *)
Definition guarded (s : Service) : option nat * gset HostApprovalKey * gset HostApprovalKey :=
  (session_policy_commit_lock s, session_approved_hosts s, session_denied_hosts s).

Lemma record_for_guarded c m s : guarded (record_for c m s) = guarded s.
Proof. unfold record_for, record_call_outcome, store_call_outcome. by repeat case_match; simplify_eq. Qed.
Lemma record_if_absent_guarded id m s : guarded (record_call_outcome_if_absent id m s) = guarded s.
Proof. unfold record_call_outcome_if_absent. by repeat case_match. Qed.
Lemma complete_guarded o d s : guarded (complete o d s) = guarded s.
Proof. unfold complete, cancel_execution_if_denied. by repeat case_match. Qed.
Lemma drop_owner_guarded o reason elapsed s : guarded (drop_owner o reason elapsed s) = guarded s.
Proof.
  unfold drop_owner. case_match; [done|]. change (guarded (publish_and_remove ?o ?d ?s)) with (guarded s).
  unfold cancel_execution_if_denied. repeat case_match; first [done | exact (record_if_absent_guarded _ _ _)].
Qed.
Lemma record_blocked_guarded b s : guarded (record_blocked_request b s) = guarded s.
Proof. unfold record_blocked_request. repeat case_match; auto using record_if_absent_guarded. Qed.

Lemma refused_guarded o m s s' pc' : refused o m s = (s', pc') → guarded s' = guarded s ∧ holds_lock pc' = false.
Proof. intros [= <- <-]. by rewrite complete_guarded, record_for_guarded. Qed.
Lemma reviewed_guarded o r s s' pc' : reviewed err_text o r s = (s', pc') → guarded s' = guarded s ∧ holds_lock pc' = false.
Proof.
  unfold reviewed. destruct r as [decision|[m|err]]; [|apply refused_guarded..].
  set (s1 := match decision with NetworkPolicyAmendment _ DenyHost => _ | _ => s end).
  assert (guarded s1 = guarded s) as <-.
  { subst s1. unfold store_call_outcome. by repeat case_match; simplify_eq. }
  destruct decision; first [apply refused_guarded | by intros [= <- <-]].
Qed.
Lemma join_review_guarded a s s' pc' : join_review a s = (s', pc') → guarded s' = guarded s ∧ holds_lock pc' = false.
Proof.
  unfold join_review, get_or_create_pending_approval.
  destruct (a_turn a); [|intros [= <- <-]; by rewrite record_for_guarded].
  destruct (pending_host_approvals s !! _); cbn [negb]; [by intros [= <- <-]|].
  do 2 (match goal with |- (if ?b then _ else _) = _ → _ => destruct b end; [by intros H%refused_guarded|]).
  by intros [= <- <-].
Qed.

(** What a section does with the lock: it stays outside, takes the free lock,
    keeps it or releases it, and changes the hosts only while holding it. *)
Inductive lock_effect (me : nat) (s s' : Service) (pc pc' : Pc) : Prop :=
| stays_out : guarded s' = guarded s → holds_lock pc = false → holds_lock pc' = false → lock_effect me s s' pc pc'
| takes_lock : session_policy_commit_lock s = None → guarded s' = (Some me, session_approved_hosts s, session_denied_hosts s) →
    holds_lock pc = false → holds_lock pc' = true → lock_effect me s s' pc pc'
| keeps_lock : session_policy_commit_lock s' = session_policy_commit_lock s → holds_lock pc = true → holds_lock pc' = true →
    lock_effect me s s' pc pc'
| releases_lock : session_policy_commit_lock s' = None → holds_lock pc = true → holds_lock pc' = false →
    lock_effect me s s' pc pc'.

Lemma resolved_locked_effect me o d s s' s0 pc pc' : resolved_locked o d s = (s', pc') → holds_lock pc = true →
  lock_effect me s0 s' pc pc'.
Proof.
  intros [= <- <-] H. apply releases_lock; [|done..].
  pose proof (complete_guarded o d (with_lock None s)) as E. by injection E.
Qed.

Lemma lock_of_guarded s s' : guarded s' = guarded s → session_policy_commit_lock s' = session_policy_commit_lock s.
Proof. by intros [= ->]. Qed.

Lemma advance_lock me input s pc s' pc' : advance me input s pc = Some (s', pc') → lock_effect me s s' pc pc'.
Proof.
  destruct pc; destruct input; try done; cbn [NetApproval.advance].
  - intros [= <- <-]. apply stays_out; [done..|]. unfold begin_request. by repeat case_match.
  - intros [= <- <-]. apply stays_out; [done..|]. unfold with_turn. by repeat case_match.
  - case_match eqn:E; [done|]. intros [= <- <-]. by apply takes_lock.
  - case_match; intros [= <- <-]; [by apply releases_lock|by apply keeps_lock].
  - case_match; intros [= H1]; [simplify_eq; by apply releases_lock|].
    apply join_review_guarded in H1 as [H1 ?]. apply releases_lock; [by apply lock_of_guarded in H1|done..].
  - case_match; [|done]. case_match; [|done]. intros [= <- <-]. by apply stays_out.
  - intros [= H]. apply reviewed_guarded in H as [? ?]. by apply stays_out.
  - repeat case_match; try done. intros [= <- <-]. apply stays_out; [apply complete_guarded|done..].
  - case_match eqn:E; [done|]. intros [= <- <-]. apply takes_lock; try done. unfold commit. by repeat case_match.
  - unfold decide_approved. repeat case_match; intros Hres%(inj Some);
      first [eapply resolved_locked_effect; [exact Hres|done] | injection Hres as <- <-; by apply keeps_lock].
  - intros Hres%(inj Some). eapply resolved_locked_effect; [exact Hres|done].
  - repeat case_match; intros [= <- <-]; by apply keeps_lock.
  - repeat case_match; intros [= <- <-]; by apply keeps_lock.
  - repeat case_match; intros [= <- <-]; by apply keeps_lock.
  - unfold reported. repeat case_match; intros Hres%(inj Some);
      first [eapply resolved_locked_effect; [exact Hres|done] | injection Hres as <- <-; apply keeps_lock; try done].
    apply lock_of_guarded, record_for_guarded.
  - intros [= <- <-]. apply keeps_lock; [by destruct action|done..].
  - intros Hres%(inj Some). eapply resolved_locked_effect; [exact Hres|done].
Qed.

Lemma drop_guarded me reason elapsed s pc s' pc' : drop_request me reason elapsed s pc = (s', pc') →
  guarded s' = ((if holds_lock pc then None else session_policy_commit_lock s), session_approved_hosts s, session_denied_hosts s)
  ∧ pc' = Dropped.
Proof.
  intros [= <- <-]. split; [|done].
  assert (guarded (match owner_of pc with Some o => drop_owner o reason elapsed s | None => s end) = guarded s) as E
    by (case_match; [apply drop_owner_guarded|done]).
  injection E as E1 E2 E3. unfold guarded. destruct (holds_lock pc); cbn; by rewrite ?E1, E2, E3.
Qed.

(** The lock is held by a request that is in a section that needs it. *)
Definition lock_ok (st : System (PathUri:=PathUri)) : Prop :=
  ∀ i, session_policy_commit_lock st.1 = Some i ↔ ∃ pc, st.2 !! i = Some pc ∧ holds_lock pc = true.

Lemma lock_effect_ok (i : nat) s s' (tasks : list Pc) pc pc' : lock_ok (s, tasks) → tasks !! i = Some pc →
  lock_effect i s s' pc pc' → lock_ok (s', <[i := pc']> tasks).
Proof.
  unfold lock_ok. cbn [fst snd]. intros H Hi He j. pose proof (lookup_lt_Some _ _ _ Hi) as Hlt.
  destruct (decide (j = i)) as [->|Hne].
  - rewrite list_lookup_insert_eq by done.
    assert (holds_lock pc = true ↔ session_policy_commit_lock s = Some i) as Hpc.
    { rewrite (H i). split; [eauto|]. by intros (pc2 & ? & ?); simplify_eq. }
    destruct He as [Hg Hp Hp'|_ Hg _ Hp'|Hg Hp Hp'|Hg _ Hp'];
      [apply lock_of_guarded in Hg; rewrite Hg, <- Hpc|injection Hg as Hg _ _; rewrite Hg|rewrite Hg, <- Hpc|rewrite Hg];
      naive_solver congruence.
  - rewrite list_lookup_insert_ne by done. rewrite <- H.
    assert (holds_lock pc = true → session_policy_commit_lock s = Some i) as Hpc by (intros; apply H; eauto).
    destruct He as [Hg _ _|Hl Hg _ _|Hg _ _|Hg Hp _];
      [by apply lock_of_guarded in Hg as ->|injection Hg as Hg _ _; rewrite Hg, Hl; naive_solver|by rewrite Hg
      |rewrite Hg, Hpc by done; naive_solver].
Qed.

Lemma lock_ok_frame s s' (tasks : list Pc) : session_policy_commit_lock s' = session_policy_commit_lock s →
  lock_ok (s, tasks) → lock_ok (s', tasks).
Proof. intros E H i. cbn. rewrite E. apply H. Qed.

Lemma step_lock_ok st l st' : approval_step st l st' → lock_ok st → lock_ok st'.
Proof.
  destruct 1 as [s tasks request|s tasks i pc input s' pc' Hi Ha|s tasks i pc reason elapsed s' pc' Hi Hf Hd|s tasks call
                |s tasks id|s tasks blocked|s tasks other]; intros H; [|..|by eapply lock_ok_frame, H].
  - intros i. cbn. rewrite (H i). cbn. split.
    + intros (pc & ? & ?). exists pc. split; [by apply lookup_app_l_Some|done].
    + intros (pc & [Hpc|[_ Hpc]]%lookup_app_Some & Hh); [by eauto|]. apply list_lookup_singleton_Some in Hpc as [_ <-]. done.
  - eapply lock_effect_ok; [done..|]. by eapply advance_lock.
  - apply drop_guarded in Hd as [[= Hl Ha Hb] ->]. eapply lock_effect_ok; [done..|].
    destruct (holds_lock pc) eqn:E; [by apply releases_lock|]. apply stays_out; [|done..]. unfold guarded. by rewrite Hl, Ha, Hb.
  - by eapply lock_ok_frame, H.
  - by eapply lock_ok_frame, H.
  - eapply lock_ok_frame, H. apply lock_of_guarded, record_blocked_guarded.
Qed.

Lemma runs_lock_ok tr st : runs initial tr st → lock_ok st.
Proof.
  remember initial as st0. induction 1 as [st|st tr st' l st'' _ IH Hs]; subst.
  - intros i. cbn. split; [done|]. intros (pc & Hpc & _). by rewrite lookup_nil in Hpc.
  - eapply step_lock_ok; [done|]. by apply IH.
Qed.

(** ** Cancelled calls *)

Lemma record_for_cancelled c m (s : Service) : cancelled s ⊆ cancelled (record_for c m s).
Proof. unfold record_for, record_call_outcome, store_call_outcome. repeat case_match; simplify_eq; cbn; set_solver. Qed.
Lemma record_if_absent_cancelled id m (s : Service) : cancelled s ⊆ cancelled (record_call_outcome_if_absent id m s).
Proof. unfold record_call_outcome_if_absent. repeat case_match; cbn; set_solver. Qed.
Lemma complete_cancelled o d (s : Service) : cancelled s ⊆ cancelled (complete o d s).
Proof. unfold complete, cancel_execution_if_denied. repeat case_match; cbn; set_solver. Qed.
Lemma drop_owner_cancelled o reason elapsed (s : Service) : cancelled s ⊆ cancelled (drop_owner o reason elapsed s).
Proof.
  unfold drop_owner. case_match; [done|]. change (cancelled (publish_and_remove ?o ?d ?s)) with (cancelled s).
  unfold cancel_execution_if_denied. repeat case_match; cbn; try (pose proof record_if_absent_cancelled); set_solver.
Qed.
Lemma refused_cancelled o m (s : Service) : cancelled s ⊆ cancelled (refused o m s).1.
Proof. unfold refused, resolved. cbn [fst]. etrans; [apply record_for_cancelled|apply complete_cancelled]. Qed.
Lemma resolved_locked_cancelled o d (s : Service) : cancelled s ⊆ cancelled (resolved_locked o d s).1.
Proof. unfold resolved_locked, resolved. cbn [fst]. apply (complete_cancelled o d (with_lock None s)). Qed.

Lemma reviewed_cancelled o r (s : Service) : cancelled s ⊆ cancelled (reviewed err_text o r s).1.
Proof.
  unfold reviewed. destruct r as [decision|[m|err]]; [|apply refused_cancelled..].
  set (s1 := match decision with NetworkPolicyAmendment _ DenyHost => _ | _ => s end).
  assert (cancelled s1 = cancelled s) as <-.
  { subst s1. unfold store_call_outcome. by repeat case_match; simplify_eq. }
  destruct decision; first [apply refused_cancelled | done].
Qed.

Lemma join_review_cancelled a (s : Service) : cancelled s ⊆ cancelled (join_review a s).1.
Proof.
  unfold join_review, get_or_create_pending_approval.
  destruct (a_turn a); [|apply record_for_cancelled].
  destruct (pending_host_approvals s !! _); cbn [negb]; [done|].
  do 2 (match goal with |- context [if ?b then refused _ _ _ else _] => destruct b end;
        [etrans; [|apply refused_cancelled]; done|]). done.
Qed.

Lemma advance_cancelled me input s pc s' pc' : advance me input s pc = Some (s', pc') → cancelled s ⊆ cancelled s'.
Proof.
  destruct pc; destruct input; try done; cbn [NetApproval.advance]; try (intros [= <- <-]; done).
  - case_match; [done|]. by intros [= <- <-].
  - case_match; by intros [= <- <-].
  - case_match; intros H1%(inj Some); [by injection H1 as <- <-|].
    pose proof (join_review_cancelled a (with_lock None s)) as Hc. by rewrite H1 in Hc.
  - repeat case_match; try done. by intros [= <- <-].
  - intros H%(inj Some). pose proof (reviewed_cancelled o r s) as Hc. by rewrite H in Hc.
  - repeat case_match; try done. intros [= <- <-]. apply complete_cancelled.
  - case_match; [done|]. by intros [= <- <-].
  - unfold decide_approved. repeat case_match; intros Hres%(inj Some)%(f_equal fst); cbn [fst] in Hres; rewrite <- Hres;
      [etrans; [apply record_for_cancelled|apply resolved_locked_cancelled]|done|apply resolved_locked_cancelled].
  - repeat case_match; by intros [= <- <-].
  - repeat case_match; by intros [= <- <-].
  - repeat case_match; by intros [= <- <-].
  - unfold reported. repeat case_match; intros Hres%(inj Some)%(f_equal fst); cbn [fst] in Hres; rewrite <- Hres;
      [done|etrans; [apply record_for_cancelled|apply resolved_locked_cancelled]|apply record_for_cancelled].
  - intros [= <- <-]. by destruct action.
  - intros Hres%(inj Some)%(f_equal fst). cbn [fst] in Hres. rewrite <- Hres.
    etrans; [|apply resolved_locked_cancelled]. by destruct action.
Qed.

Lemma step_cancelled st l st' : approval_step st l st' → cancelled st.1 ⊆ cancelled st'.1.
Proof.
  destruct 1 as [s tasks request|s tasks i pc input s' pc' Hi Ha|s tasks i pc reason elapsed s' pc' Hi Hf Hd|s tasks call
                |s tasks id|s tasks blocked|s tasks other]; cbn [fst]; try done.
  - by eapply advance_cancelled.
  - injection Hd as <- <-.
    assert (cancelled s ⊆ cancelled (match owner_of pc with Some o => drop_owner o reason elapsed s | None => s end)) as E
      by (case_match; [apply drop_owner_cancelled|done]).
    by destruct (holds_lock pc).
  - unfold record_blocked_request. repeat case_match; try done; apply record_if_absent_cancelled.
Qed.

Lemma runs_cancelled st tr st' : runs st tr st' → cancelled st.1 ⊆ cancelled st'.1.
Proof. induction 1 as [st|st tr st' l st'' _ IH Hs]; [done|]. etrans; [exact IH|by eapply step_cancelled]. Qed.

(** ** The hosts after a section *)

Definition hosts_after (pc : Pc) (approved denied : gset HostApprovalKey) : gset HostApprovalKey * gset HostApprovalKey :=
  match pc with
  | Approving o | Adding o AllowHost => ({[host_key o]} ∪ approved, denied)
  | Removing o AllowHost => (approved, denied ∖ {[host_key o]})
  | Removing o DenyHost => (approved ∖ {[host_key o]}, denied)
  | Adding o DenyHost => (approved, {[host_key o]} ∪ denied)
  | _ => (approved, denied)
  end.
Definition hosts_of (s : Service) : gset HostApprovalKey * gset HostApprovalKey :=
  (session_approved_hosts s, session_denied_hosts s).

Lemma hosts_of_guarded s s' : guarded s' = guarded s → hosts_of s' = hosts_of s.
Proof. unfold hosts_of. by intros [= _ -> ->]. Qed.
Lemma resolved_locked_hosts o d s : hosts_of (resolved_locked o d s).1 = hosts_of s.
Proof. exact (hosts_of_guarded _ _ (complete_guarded o d (with_lock None s))). Qed.
Lemma record_for_hosts c m s : hosts_of (record_for c m s) = hosts_of s.
Proof. apply hosts_of_guarded, record_for_guarded. Qed.

Lemma advance_hosts me input s pc s' pc' : advance me input s pc = Some (s', pc') →
  hosts_of s' = hosts_after pc (session_approved_hosts s) (session_denied_hosts s).
Proof.
  intros H. destruct (advance_lock _ _ _ _ _ _ H) as [Hg Hl _|_ Hg Hl _|_ Hl _|_ Hl _];
    [apply hosts_of_guarded in Hg; rewrite Hg; by destruct pc
    |injection Hg as _ H1 H2; unfold hosts_of; rewrite H1, H2; by destruct pc|..];
    destruct pc; try done; destruct input; try done; cbn [NetApproval.advance] in H.
  all: try (repeat case_match; simplify_eq; done).
  all: try (case_match; apply (inj Some) in H; [by injection H as <- _|apply join_review_guarded in H as [H _];
    by apply hosts_of_guarded in H]).
  all: unfold decide_approved, reported in H; repeat case_match; apply (inj Some), (f_equal fst) in H; cbn [fst] in H;
    rewrite <- H; rewrite ?resolved_locked_hosts, ?record_for_hosts; first [done|by destruct action].
Qed.
End facts.
