(* ===== verification/NetApprovalProps.v ===== *)
(** * What approving hosts guarantees

    For every interleaving of requests, commands and drops: a host is let
    through only with consent to exactly this host, a host denied for the
    session stays denied, everyone who joined a review gets its answer and
    nobody waits for a review without an owner, and a denied review ends the
    command it belongs to. *)

From stdpp Require Import gmap.
From S2P Require Orchestrator ExecApproval ShellSyntax.
From S2P Require Import Prelude RustStr ExecPolicy Permissions Approvals Truncation TruncationFacts NetPolicy NetProxy.
From S2P Require Import NetApproval NetApprovalFacts.

Section claims.
Context {PathUri Output Payload : Type} (err_text : CodexErr Output Payload → rstr).
Local Abbreviation Service := (Service (PathUri:=PathUri)).
Local Abbreviation Pc := (Pc (PathUri:=PathUri)).
Local Abbreviation Owner := (Owner (PathUri:=PathUri)).
Local Abbreviation Label := (Label (PathUri:=PathUri) (Output:=Output) (Payload:=Payload)).
Local Abbreviation advance := (advance (PathUri:=PathUri) err_text).
Local Abbreviation approval_step := (approval_step (PathUri:=PathUri) err_text).
Local Abbreviation runs := (runs (PathUri:=PathUri) err_text).

(** ** Consent *)

(** Whether an answer lets the request through; an amendment has to be for
    the host that was asked about. *)
Definition answer_allows (o : Owner) (d : ReviewDecision) : bool :=
  match d with
  | Approved | ApprovedExecpolicyAmendment _ | ApprovedForSession => true
  | NetworkPolicyAmendment h AllowHost => bool_decide (normalize_host h = normalize_host (Orchestrator.host (context o)))
  | _ => false
  end.

(** The steps that let host [k] through: an answer to a request for [k], or
    the approved hosts of another session. *)
Definition consents (k : HostApprovalKey) (l : Label) : Prop :=
  match l with
  | LRun _ (Reviewing o _ _) (Reviewed (Ok d)) => host_key o = k ∧ answer_allows o d = true
  | LSync hosts => k ∈ hosts
  | _ => False
  end.
Definition consented (tr : list Label) (k : HostApprovalKey) : Prop := ∃ l, l ∈ tr ∧ consents k l.

Lemma consented_app tr l k : consented tr k → consented (tr ++ [l]) k.
Proof. intros (l' & ? & ?). exists l'. split; [set_solver|done]. Qed.
Lemma consented_now tr l k : consents k l → consented (tr ++ [l]) k.
Proof. intros ?. exists l. split; [set_solver|done]. Qed.

(** The host a request has got an answer for. *)
Definition granted (pc : Pc) : option HostApprovalKey :=
  match pc with
  | Committing o (NetworkPolicyAmendment h a) | Validating o h a =>
      if answer_allows o (NetworkPolicyAmendment h a) then Some (host_key o) else None
  | Committing o _ | Deciding o _ | Approving o | Updating o _ AllowHost | Saving o _ AllowHost _ _ | Removing o AllowHost
  | Adding o AllowHost => Some (host_key o)
  | Returned (Some k) _ NetAllow => Some k
  | _ => None
  end.
Definition nameless (pc : Pc) : Prop := match pc with Returned None _ NetAllow => False | _ => True end.

(** What a request holds is covered by consent. *)
Definition covered (tr : list Label) (pc : Pc) : Prop :=
  (∀ k, granted pc = Some k → consented tr k)
  ∧ (∀ o, owner_of pc = Some o → decision_on_drop o ≠ DenyRequest → consented tr (host_key o)) ∧ nameless pc.

Lemma covered_app tr l pc : covered tr pc → covered (tr ++ [l]) pc.
Proof. intros (H1 & H2 & H3). split_and!; auto using consented_app. Qed.
Lemma covered_none tr pc : granted pc = None → owner_of pc = None → nameless pc → covered tr pc.
Proof. intros E E' ?. split_and!; [rewrite E|rewrite E'|]; done. Qed.
Lemma covered_resolved tr o d s : (d ≠ DenyRequest → consented tr (host_key o)) → covered tr (resolved o d s).2.
Proof. intros H. split_and!; [|done..]. destruct d; cbn; intros k [= <-]; by apply H. Qed.
Lemma covered_refused tr o m s : covered tr (refused o m s).2.
Proof. by apply covered_resolved. Qed.

(** Waiting for a review that was decided to allow. *)
Definition waiters_covered (tr : list Label) (b : Board) (roles : list Role) : Prop :=
  ∀ i k p d, roles !! i = Some (Waits k p) → b.2 !! p = Some (Some d) → d ≠ DenyRequest → consented tr k.

Lemma move_covered tr b roles i r b' r' : board_ok b roles → waiters_covered tr b roles → roles !! i = Some r →
  move b r b' r' →
  (∀ k p d, r = OwnerOf k p → b' = published k p d b → r' = Gone ∨ r' = Answered (pk_host k) p (to_network_decision d) →
     d ≠ DenyRequest → consented tr (pk_host k)) →
  waiters_covered tr b' (<[i := r']> roles).
Proof.
  intros Hok Hw Hi Hm Hd j kw p dw Hj Hp Hne.
  assert (∀ k p0 d, r = OwnerOf k p0 → b' = published k p0 d b → r' = Gone ∨ r' = Answered (pk_host k) p0 (to_network_decision d) →
     consented tr kw) as Hpub.
  { intros k p0 d -> -> Hr'.
    assert (roles !! j = Some (Waits kw p)) as Hj'. { at_roles; [naive_solver|done]. }
    rewrite (published_eq _ _ _ _ _ _ Hok Hi) in Hp. cbn in Hp.
    apply list_lookup_insert_Some in Hp as [(-> & [= ->] & ?)|[_ Hp]]; [|by eapply Hw].
    destruct (waits_known _ _ Hok _ _ _ Hj') as [(j' & k' & Hj'' & <-)|[d' Hd']].
    - pose proof (owners_unique _ _ Hok _ _ _ _ _ Hi Hj'') as ->. at_roles. by eapply Hd.
    - destruct (owners_open _ _ Hok _ _ _ Hi) as [_ E]. by simplify_eq. }
  destruct Hm; try (by eapply Hpub; eauto).
  - rewrite list_insert_id in Hj by done. by eapply Hw.
  - at_roles; [|by eapply Hw]. destruct (keys_open _ _ Hok _ _ H) as [E _]. by simplify_eq.
  - at_roles. cbn in Hp. apply lookup_app_Some in Hp as [Hp|[_ Hp]]; [by eapply Hw|].
    by apply list_lookup_singleton_Some in Hp as [_ ?].
  - at_roles. cbn in Hp. apply lookup_app_Some in Hp as [Hp|[_ Hp]]; [by eapply Hw|].
    apply list_lookup_singleton_Some in Hp as [_ ?]. by simplify_eq.
  - at_roles. by eapply Hw.
  - at_roles. by eapply Hw.
Qed.

Lemma reviewed_covered tr i o action ctx r s : covered tr (Reviewing o action ctx) →
  covered (tr ++ [LRun i (Reviewing o action ctx) (Reviewed r)]) (reviewed err_text o r s).2.
Proof.
  intros (_ & H & _). unfold reviewed.
  destruct r as [decision|[m|err]]; [|apply covered_refused..].
  set (l := LRun i _ _).
  assert (answer_allows o decision = true → consented (tr ++ [l]) (host_key o)) as Hc by (intros; by apply consented_now).
  destruct decision as [| | | |h a| | |]; try apply covered_refused; split_and!; try done; cbn;
    try (intros k [= <-]; by apply Hc); try (intros o' [= <-] Hd; apply consented_app; by eapply H).
  intros k. case_match; [intros [= <-]; by apply Hc|done].
Qed.

Lemma join_review_covered tr a s : covered tr (join_review a s).2.
Proof.
  unfold join_review, get_or_create_pending_approval.
  destruct (a_turn a); [|by apply covered_none].
  destruct (pending_host_approvals s !! _); cbn [negb]; [by apply covered_none|].
  do 2 (match goal with |- context [if ?b then refused _ _ _ else _] => destruct b end; [apply covered_refused|]).
  split_and!; [done| |done]. by intros o [= <-].
Qed.

Lemma begin_covered tr request (s : Service) : covered tr (begin_request request s).
Proof. unfold begin_request. repeat case_match; by apply covered_none. Qed.
Lemma with_turn_covered tr request call environment_id turn : covered tr (with_turn request call environment_id turn).
Proof. unfold with_turn. repeat case_match; by apply covered_none. Qed.

Lemma covered_owner tr pc o : covered tr pc → owner_of pc = Some o →
  (decision_on_drop o ≠ DenyRequest → consented tr (host_key o)).
Proof. intros (_ & H & _) E. by apply H. Qed.

(** A pc of the same owner. *)
Lemma covered_same tr pc pc' o : covered tr pc → owner_of pc = Some o → owner_of pc' = Some o →
  (∀ k, granted pc' = Some k → consented tr k) → covered tr pc'.
Proof.
  intros Hc E E' H. split_and!; [done| |by destruct pc']. rewrite E'. intros o' [= <-]. by eapply covered_owner.
Qed.
Lemma covered_marked tr pc' o a : owner_of pc' = Some (set_decision_on_drop (applied_decision a) o) →
  (a = AllowHost → consented tr (host_key o)) → (∀ k, granted pc' = Some k → consented tr k) → covered tr pc'.
Proof.
  intros E' H Hg. split_and!; [done| |by destruct pc']. rewrite E'. intros o' [= <-]. destruct a; [intros; by apply H|done].
Qed.

(** What a section leads to. *)
Local Ltac settle :=
  simplify_eq; try (match goal with H : _ = (_, _) |- _ => apply (f_equal snd) in H; cbn [snd] in H; subst end).

Lemma advance_covered tr i input s pc s' pc' : covered tr pc → (∀ k, k ∈ session_approved_hosts s → consented tr k) →
  (∀ k p d, pc = Waiting k p → pendings s !! p = Some (Some d) → d ≠ DenyRequest → consented tr k) →
  advance i input s pc = Some (s', pc') → covered (tr ++ [LRun i pc input]) pc'.
Proof.
  intros Hc Ha Hw H. set (l := LRun i pc input) in *. pose proof (covered_app tr l pc Hc) as Hc'.
  destruct pc as [request|request call e|a|a|a|k p|o ac ctx|o d|o b|o|o h a|o h a|o h a am n|o a|o a|o a|k p d|];
    destruct input; try done; cbn [NetApproval.advance] in H.
  - injection H as <- <-. apply begin_covered.
  - injection H as <- <-. apply with_turn_covered.
  - case_match; settle. by apply covered_none.
  - case_match; settle; by apply covered_none.
  - case_match; settle.
    + split_and!; [|done..]. intros k [= <-]. apply consented_app, Ha. by eapply bool_decide_eq_true_1.
    + apply join_review_covered.
  - destruct (pendings s !! p) as [[d|]|] eqn:E; settle. split_and!; [|done..].
    destruct d; cbn; intros k' [= <-]; apply consented_app; by eapply Hw.
  - settle. by apply reviewed_covered.
  - repeat case_match; settle. by apply covered_resolved.
  - case_match; [done|]. settle.
    eapply (covered_same _ _ _ o); [exact Hc'|done|by unfold commit; repeat case_match|].
    intros k Hk. apply (proj1 Hc'). by destruct d.
  - unfold decide_approved in H. destruct Hc' as (Hg & Hc' & _). repeat case_match; settle.
    + by apply (covered_resolved _ _ _ (with_lock None _)).
    + split_and!; [exact Hg|exact Hc'|done].
    + apply (covered_resolved _ o AllowOnce (with_lock None _)). intros _. by apply Hg.
  - settle. apply (covered_resolved _ o AllowForSession (with_lock None _)). intros _. by apply (proj1 Hc').
  - destruct (validated_network_policy_amendment_host h (context o)) as [host|] eqn:E; destruct open; settle;
      (eapply (covered_same _ _ _ o); [exact Hc'|done..|]); try done.
    destruct a; [|done]. intros k [= <-]. apply (proj1 Hc'). cbn.
    unfold validated_network_policy_amendment_host in E. by case_bool_decide.
  - assert (a = AllowHost → consented (tr ++ [l]) (host_key o)) as Hg by (intros ->; by apply (proj1 Hc')).
    repeat case_match; settle.
    + apply (covered_marked _ _ o a); [done..|]. destruct a; [|done]. intros k [= <-]. by apply Hg.
    + eapply (covered_same _ _ _ o); [exact Hc'|done..].
    + eapply (covered_same _ _ _ o); [exact Hc'|done..|]. destruct a; [|done]. intros k [= <-]. by apply Hg.
  - assert (a = AllowHost → consented (tr ++ [l]) (host_key o)) as Hg by (intros ->; by apply (proj1 Hc')).
    repeat case_match; settle; first [by apply (covered_marked _ _ o a)|eapply (covered_same _ _ _ o); [exact Hc'|done..]].
  - unfold reported in H. pose proof (covered_owner _ _ o Hc' eq_refl) as Ho. repeat case_match; settle.
    + eapply (covered_same _ _ _ o); [exact Hc'|done..|]. intros k [= <-]. apply Ho.
      match goal with E : bool_decide _ = true |- _ => apply bool_decide_eq_true_1 in E as -> end. done.
    + by apply (covered_resolved _ o DenyRequest (with_lock None _)).
    + by eapply (covered_same _ _ _ o).
  - settle. eapply (covered_same _ _ _ o); [exact Hc'|done..|]. destruct a; [|done]. by apply (proj1 Hc').
  - settle. apply (covered_resolved _ o (applied_decision a) (with_lock None _)).
    destruct a; [intros _; by apply (proj1 Hc')|done].
Qed.

(** The approved hosts of the session. *)
Lemma advance_approved i input s pc s' pc' k : advance i input s pc = Some (s', pc') → k ∈ session_approved_hosts s' →
  k ∈ session_approved_hosts s ∨ granted pc = Some k.
Proof.
  intros H Hk. apply advance_hosts in H. apply (f_equal fst) in H. cbn [fst hosts_of] in H. rewrite H in Hk.
  destruct pc; cbn in *; try (by left); try destruct action; cbn in *; set_solver.
Qed.

Lemma advance_not_dropped i input (s s' : Service) pc : advance i input s pc ≠ Some (s', Dropped).
Proof.
  destruct pc; destruct input; try done; cbn [NetApproval.advance];
    unfold begin_request, with_turn, join_review, get_or_create_pending_approval, reviewed, commit, decide_approved, reported,
      refused, resolved_locked, resolved; repeat case_match; naive_solver.
Qed.

(** Everything held or approved so far is covered by consent. *)
Record all_covered (tr : list Label) (s : Service) (tasks : list Pc) : Prop := {
  tasks_covered i pc : tasks !! i = Some pc → covered tr pc;
  approved_covered k : k ∈ session_approved_hosts s → consented tr k;
  waiting_covered : waiters_covered tr (board_of s) (role_of <$> tasks)
}.

Lemma waiters_covered_app tr l b roles : waiters_covered tr b roles → waiters_covered (tr ++ [l]) b roles.
Proof. intros H i k p d ???. apply consented_app. by eapply H. Qed.

Lemma role_waits (pc : Pc) k p : role_of pc = Waits k p ↔ pc = Waiting k p.
Proof. unfold role_of. split; [|by intros ->]. destruct pc; cbn; repeat case_match; naive_solver. Qed.

Lemma run_covered tr s tasks i input pc s' pc' : board_ok (board_of s) (role_of <$> tasks) → all_covered tr s tasks →
  tasks !! i = Some pc → advance i input s pc = Some (s', pc') →
  all_covered (tr ++ [LRun i pc input]) s' (<[i := pc']> tasks).
Proof.
  intros Hb [Ht Ha Hw] Hi H.
  assert ((role_of <$> tasks) !! i = Some (role_of pc)) as Hri by (by rewrite list_lookup_fmap, Hi).
  assert (covered (tr ++ [LRun i pc input]) pc') as Hc.
  { eapply advance_covered; [by eapply Ht|exact Ha| |exact H]. intros k p d ->. by apply (Hw i). }
  split.
  - intros j pcj Hj. apply list_lookup_insert_Some in Hj as [(_ & <- & _)|[_ Hj]]; [done|]. by eapply covered_app, Ht.
  - intros k Hk. destruct (advance_approved _ _ _ _ _ _ _ H Hk) as [Hk'|Hg]; [by apply consented_app, Ha|].
    apply consented_app. by apply (proj1 (Ht _ _ Hi)).
  - rewrite list_fmap_insert. eapply move_covered; [exact Hb|by apply waiters_covered_app|exact Hri|by eapply advance_move|].
    intros k p d Hk _ [E|E] Hd.
    + assert (pc' = Dropped) as ->; [|by apply advance_not_dropped in H].
      unfold role_of in E. destruct pc'; try done; repeat case_match; done.
    + assert (pc' = Returned (Some (pk_host k)) (Some p) (to_network_decision d)) as ->.
      { unfold role_of in E. destruct pc'; try done; repeat case_match; naive_solver. }
      apply (proj1 Hc). by destruct d.
Qed.

Lemma drop_covered tr s tasks i pc reason elapsed s' pc' : board_ok (board_of s) (role_of <$> tasks) → all_covered tr s tasks →
  tasks !! i = Some pc → is_finished pc = false → drop_request i reason elapsed s pc = (s', pc') →
  all_covered (tr ++ [LDrop i pc]) s' (<[i := pc']> tasks).
Proof.
  intros Hb [Ht Ha Hw] Hi Hf H.
  assert ((role_of <$> tasks) !! i = Some (role_of pc)) as Hri by (by rewrite list_lookup_fmap, Hi).
  pose proof (drop_guarded _ _ _ _ _ _ _ H) as [[= _ Happ _] ->]. split.
  - intros j pcj Hj. apply list_lookup_insert_Some in Hj as [(_ & <- & _)|[_ Hj]]; [by apply covered_none|].
    by eapply covered_app, Ht.
  - intros k. rewrite Happ. intros Hk. by apply consented_app, Ha.
  - rewrite list_fmap_insert. eapply move_covered; [exact Hb|by apply waiters_covered_app|exact Hri|by eapply drop_move|].
    intros k p d Hk Hpub _ Hd. rewrite Hk in Hri.
    destruct (owner_of pc) as [o|] eqn:Eo; [|unfold role_of in Hk; rewrite Eo in Hk; by repeat case_match].
    assert (role_of pc = OwnerOf (key o) (pending o)) as Hk' by (unfold role_of; by rewrite Eo).
    rewrite Hk in Hk'. injection Hk' as -> ->.
    assert (board_of s' = published (key o) (pending o) (decision_on_drop o) (board_of s)) as Hpub'.
    { injection H as <-. rewrite Eo. rewrite <- (drop_owner_board o reason elapsed). by destruct (holds_lock pc). }
    rewrite Hpub' in Hpub. rewrite !(published_eq _ _ _ _ _ _ Hb Hri) in Hpub. injection Hpub as Hpub.
    destruct (owners_open _ _ Hb _ _ _ Hri) as [_ Hlt%lookup_lt_Some].
    apply (f_equal (λ l, l !! pending o)) in Hpub. rewrite !list_lookup_insert_eq in Hpub by done. injection Hpub as <-.
    apply consented_app. by eapply covered_owner; [eapply Ht|..].
Qed.

Lemma runs_covered tr s tasks : runs initial tr (s, tasks) → all_covered tr s tasks.
Proof.
  intros H. remember (s, tasks) as st eqn:Est. remember initial as st0.
  revert s tasks Est. induction H as [st|st tr [s1 tasks1] l st'' Hr IH Hs]; intros s tasks ->; subst.
  { injection Heqst0 as -> ->. split; [intros i pc|intros k|intros i k p d]; intros; try set_solver;
      by rewrite lookup_nil in *. }
  specialize (IH eq_refl _ _ eq_refl). pose proof (runs_board_ok _ _ _ Hr) as Hb. cbn in Hb.
  assert (∀ s2, session_approved_hosts s2 = session_approved_hosts s1 → board_of s2 = board_of s1 →
          all_covered (tr ++ [l]) s2 tasks1) as Hsame.
  { intros s2 E1 E2. destruct IH as [Ht Ha Hw]. split; [intros ?? ?; by eapply covered_app, Ht| |].
    - intros k. rewrite E1. intros Hk. by apply consented_app, Ha.
    - rewrite E2. by apply waiters_covered_app. }
  inversion Hs; subst; [|by eapply run_covered|by eapply drop_covered|by apply Hsame..| |].
  - destruct (Hsame s eq_refl eq_refl) as [Ht Ha Hw]. split; [|exact Ha|].
    + intros i pc Hi. apply lookup_app_Some in Hi as [Hi|[_ Hi]]; [by eapply Ht|].
      apply list_lookup_singleton_Some in Hi as [_ <-]. by apply covered_none.
    + intros i k p d Hi. rewrite fmap_app in Hi. apply lookup_app_Some in Hi as [Hi|[_ Hi]]; [by eapply Hw|].
      by apply list_lookup_singleton_Some in Hi as [_ ?].
  - apply Hsame; [|].
    + pose proof (record_blocked_guarded b s1) as E. by injection E.
    + unfold record_blocked_request. repeat case_match; auto using record_if_absent_board.
  - destruct IH as [Ht Ha Hw]. split; [intros ?? ?; by eapply covered_app, Ht| |by apply waiters_covered_app].
    intros k Hk. by apply consented_now.
Qed.

(** *** Requests and what is shown of them *)

(** The requests made so far, in the order of their tasks. *)
Definition requests_of (tr : list Label) : list Request := omap (λ l, match l with LRequest r => Some r | _ => None end) tr.

(** The environment task [i] was attributed to: the one its request names, that
    of its command, or the first of the turn. *)
Definition attributed (tr : list Label) (i : nat) (request : Request) (environment_id : rstr) : Prop :=
  ∃ call e turn, LRun i (NeedsTurn request call e) (Turn turn) ∈ tr ∧
    or_else e (t ← turn; x ← primary (active_environments t); Some (e_environment_id x)) = Some environment_id ∧
    (∀ named, r_environment_id request = Some named → environment_id = named).

(** The action shown to the reviewer is about the request. *)
Definition about_request (request : Request) (environment_id : rstr) (action : NetworkAccessAction) : Prop :=
  to_ascii_lowercase (action_host action) = to_ascii_lowercase (r_host request) ∧
  action_environment_id action = environment_id ∧ action_protocol action = approval_protocol (r_protocol request) ∧
  action_port action = r_port request.

Definition approves_action (action : NetworkAccessAction) (d : ReviewDecision) : Prop :=
  match d with
  | Approved | ApprovedExecpolicyAmendment _ | ApprovedForSession => True
  | NetworkPolicyAmendment h AllowHost => normalize_host h = normalize_host (action_host action)
  | _ => False
  end.

(** A reviewer's answer about such an action, or the approved hosts of another
    session with the request's host, environment, protocol and port. *)
Definition consents_to (request : Request) (environment_id : rstr) (l : Label) : Prop :=
  match l with
  | LRun _ (Reviewing _ action _) (Reviewed (Ok d)) => about_request request environment_id action ∧ approves_action action d
  | LSync hosts =>
      mkHostKey environment_id (to_ascii_lowercase (r_host request))
        (protocol_key_label (approval_protocol (r_protocol request))) (r_port request) ∈ hosts
  | _ => False
  end.

Definition request_key (request : Request) (environment_id : rstr) : HostApprovalKey :=
  from_request request (approval_protocol (r_protocol request)) environment_id.

(** The key a task works on. *)
Definition pc_key (pc : Pc) : option HostApprovalKey :=
  match pc with
  | Waiting k _ => Some k
  | Returned k _ _ => k
  | _ => host_key <$> owner_of pc
  end.
Definition pc_attributed (pc : Pc) : option Attributed :=
  match pc with NeedsLock a | ReadingDenied a | ReadingApproved a => Some a | _ => None end.

(** What is shown of a review is about the key of its owner. *)
Definition shown (o : Owner) (action : NetworkAccessAction) : Prop :=
  to_ascii_lowercase (action_host action) = k_host (host_key o) ∧ action_environment_id action = k_environment_id (host_key o)
  ∧ protocol_key_label (action_protocol action) = k_protocol (host_key o) ∧ action_port action = k_port (host_key o)
  ∧ Orchestrator.host (context o) = action_host action.

(** Task [i] is about request [i]. *)
Definition traced (tr : list Label) (i : nat) (pc : Pc) : Prop :=
  ∃ request, requests_of tr !! i = Some request ∧
  match pc with
  | Starting r => r = request
  | NeedsTurn r _ e => r = request ∧ (∀ named, r_environment_id request = Some named → e = Some named)
  | _ => True
  end ∧
  (∀ a, pc_attributed pc = Some a → a_request a = request ∧ attributed tr i request (a_environment_id a)) ∧
  (∀ k, pc_key pc = Some k → ∃ environment_id, attributed tr i request environment_id ∧ k = request_key request environment_id) ∧
  (∀ o action ctx, pc = Reviewing o action ctx → shown o action).

Lemma requests_app tr l i r : requests_of tr !! i = Some r → requests_of (tr ++ [l]) !! i = Some r.
Proof. intros H. unfold requests_of in *. rewrite omap_app. by apply lookup_app_l_Some. Qed.
Lemma attributed_app tr l i r e : attributed tr i r e → attributed (tr ++ [l]) i r e.
Proof. intros (c & x & t & H & ?). exists c, x, t. split; [set_solver|done]. Qed.

Lemma traced_app tr l i pc : traced tr i pc → traced (tr ++ [l]) i pc.
Proof.
  intros (r & Hr & Hs & Ha & Hk & Ho). exists r. split_and!; [by apply requests_app|done| | |done].
  - intros a E. destruct (Ha a E). split; [done|by apply attributed_app].
  - intros k E. destruct (Hk k E) as (e & ? & ?). exists e. split; [by apply attributed_app|done].
Qed.

(** Going on with the same key. *)
Lemma traced_key tr l i pc pc' : traced tr i pc → pc_attributed pc' = None →
  match pc' with Starting _ | NeedsTurn _ _ _ | Reviewing _ _ _ => False | _ => True end →
  (∀ k, pc_key pc' = Some k → pc_key pc = Some k ∨ ∃ a, pc_attributed pc = Some a ∧ k = a_key a) → traced (tr ++ [l]) i pc'.
Proof.
  intros (r & Hr & _ & Ha & Hk & _) En Hpc Hkey. exists r. split_and!; [by apply requests_app|by destruct pc'|by rewrite En| |by intros ??? ->].
  intros k [E|(a & E & ->)]%Hkey.
  - destruct (Hk k E) as (e & ? & ?). exists e. split; [by apply attributed_app|done].
  - destruct (Ha a E) as [Hreq ?]. exists (a_environment_id a). split; [by apply attributed_app|].
    unfold a_key, a_protocol, request_key. by rewrite Hreq.
Qed.

Lemma join_review_traced tr l i a (s : Service) : traced tr i (ReadingApproved a) → traced (tr ++ [l]) i (join_review a s).2.
Proof.
  intros Ht. pose proof Ht as (r & Hr & _ & Ha & _ & _). destruct (Ha a eq_refl) as [Hreq Hatt].
  unfold join_review, get_or_create_pending_approval. destruct (a_turn a) as [turn|].
  2: { eapply traced_key; [exact Ht|done..|]. intros k [= <-]. right. by exists a. }
  destruct (pending_host_approvals s !! _); cbn [negb].
  { eapply traced_key; [exact Ht|done..|]. intros k [= <-]. right. by exists a. }
  do 2 (match goal with |- context [if ?b then refused _ _ _ else _] => destruct b end;
    [eapply traced_key; [exact Ht|done..|]; intros k [= <-]; right; by exists a|]).
  exists r. split_and!; [by apply requests_app|done|done| |].
  - intros k [= <-]. exists (a_environment_id a). split; [by apply attributed_app|]. cbn. unfold a_key, a_protocol, request_key. by rewrite Hreq.
  - intros o action ctx [= <- <- _]. by split_and!.
Qed.

Lemma begin_traced tr l i request (s : Service) : traced tr i (Starting request) → traced (tr ++ [l]) i (begin_request request s).
Proof.
  intros Ht. pose proof Ht as (r & Hr & -> & _).
  assert (∀ d, traced (tr ++ [l]) i (Returned None None d)) as Hnone by (intros; by eapply traced_key).
  unfold begin_request. destruct (resolve_request_attribution r s) as [[call e]|] eqn:E; [|apply Hnone].
  case_match; [apply Hnone|]. exists r. split_and!; [by apply requests_app|done| |done..]. intros named Hn.
  unfold resolve_request_attribution in E. rewrite Hn in E. destruct (r_execution_id r) as [x|].
  - apply bind_Some in E as (c & _ & E). cbn in E. by case_bool_decide; simplify_eq.
  - by simplify_eq.
Qed.

Lemma with_turn_traced tr i request call e turn : traced tr i (NeedsTurn request call e) →
  traced (tr ++ [LRun i (NeedsTurn request call e) (Turn turn)]) i (with_turn request call e turn).
Proof.
  intros Ht. pose proof Ht as (r & Hr & [-> Hn] & _). unfold with_turn. cbv zeta.
  destruct (or_else e _) as [environment_id|] eqn:E; [|by eapply traced_key].
  exists r. split_and!; [by apply requests_app|done| |done..]. intros a [= <-]. split; [done|].
  exists call, e, turn. split_and!; [set_solver|done|]. intros named Hx. rewrite (Hn _ Hx) in E. injection E as <-. done.
Qed.

Lemma advance_traced tr i input s pc s' pc' : traced tr i pc → advance i input s pc = Some (s', pc') →
  traced (tr ++ [LRun i pc input]) i pc'.
Proof.
  intros Ht H.
  destruct pc as [request|request call e|a|a|a|k p|o ac ctx|o d|o b|o|o h a|o h a|o h a am n|o a|o a|o a|k p d|];
    destruct input; try done; cbn [NetApproval.advance] in H.
  - settle. by apply begin_traced.
  - settle. by apply with_turn_traced.
  - case_match; settle. pose proof Ht as (r & Hr & _ & Ha & _). exists r. split_and!; [by apply requests_app|done| |done..].
    intros a' [= <-]. destruct (Ha a eq_refl). split; [done|by apply attributed_app].
  - case_match; settle.
    + eapply traced_key; [exact Ht|done..|]. intros k [= <-]. right. by exists a.
    + pose proof Ht as (r & Hr & _ & Ha & _). exists r. split_and!; [by apply requests_app|done| |done..].
      intros a' [= <-]. destruct (Ha a eq_refl). split; [done|by apply attributed_app].
  - case_match; settle; [|by apply join_review_traced].
    eapply traced_key; [exact Ht|done..|]. intros k [= <-]. right. by exists a.
  - repeat case_match; settle. eapply traced_key; [exact Ht|done..|]. intros k' [= <-]. by left.
  - settle. unfold reviewed, refused, resolved. repeat case_match; (eapply traced_key; [exact Ht|done..|]; intros k [= <-]; by left).
  - repeat case_match; settle. eapply traced_key; [exact Ht|done..|]. intros k [= <-]. by left.
  - case_match; settle. unfold commit. repeat case_match; (eapply traced_key; [exact Ht|done..|]; intros k [= <-]; by left).
  - unfold decide_approved in H. repeat case_match; settle; (eapply traced_key; [exact Ht|done..|]; intros k [= <-]; by left).
  - settle. eapply traced_key; [exact Ht|done..|]. intros k [= <-]. by left.
  - repeat case_match; settle; (eapply traced_key; [exact Ht|done..|]; intros k [= <-]; by left).
  - repeat case_match; settle; (eapply traced_key; [exact Ht|done..|]; intros k [= <-]; by left).
  - repeat case_match; settle; (eapply traced_key; [exact Ht|done..|]; intros k [= <-]; by left).
  - unfold reported in H. repeat case_match; settle; (eapply traced_key; [exact Ht|done..|]; intros k [= <-]; by left).
  - settle. eapply traced_key; [exact Ht|done..|]. intros k [= <-]. by left.
  - settle. eapply traced_key; [exact Ht|done..|]. intros k [= <-]. by left.
Qed.

(** Every task is about its request, and every answer in the trace was about
    what its owner's review showed. *)
Record all_traced (tr : list Label) (tasks : list Pc) : Prop := {
  traced_tasks i pc : tasks !! i = Some pc → traced tr i pc;
  traced_length : length (requests_of tr) = length tasks;
  traced_answers i o action ctx r : LRun i (Reviewing o action ctx) (Reviewed r) ∈ tr → shown o action
}.

Lemma runs_traced tr s tasks : runs initial tr (s, tasks) → all_traced tr tasks.
Proof.
  intros H. remember (s, tasks) as st eqn:Est. remember initial as st0.
  revert s tasks Est. induction H as [st|st tr [s1 tasks1] l st'' Hr IH Hs]; intros s tasks ->; subst.
  { injection Heqst0 as -> ->. split; [intros i pc; by rewrite lookup_nil|done|]. intros. by set_solver. }
  destruct (IH eq_refl _ _ eq_refl) as [Ht Hl Ha].
  assert (requests_of (tr ++ [l]) = requests_of tr ++ requests_of [l]) as Hreq by (unfold requests_of; by rewrite omap_app).
  assert ((∀ i o action ctx r, l = LRun i (Reviewing o action ctx) (Reviewed r) → tasks1 !! i = Some (Reviewing o action ctx)) →
    ∀ i o action ctx r, LRun i (Reviewing o action ctx) (Reviewed r) ∈ tr ++ [l] → shown o action) as Hans.
  { intros Hnow i o action ctx r [Hin|Hin%list_elem_of_singleton]%elem_of_app; [by eapply Ha|].
    destruct (Ht _ _ (Hnow _ _ _ _ _ (eq_sym Hin))) as (_ & _ & _ & _ & _ & Ho). by eapply Ho. }
  assert (requests_of [l] = [] → (∀ i o action ctx r, l ≠ LRun i (Reviewing o action ctx) (Reviewed r)) → all_traced (tr ++ [l]) tasks1) as Hsame.
  { intros Hn Hl'. split; [intros i pc Hi; by apply traced_app, Ht|by rewrite Hreq, Hn, app_nil_r|].
    apply Hans. intros i o action ctx r E. by destruct (Hl' i o action ctx r). }
  inversion Hs; subst; [| | |by apply Hsame..].
  - split; [|by rewrite Hreq, !length_app, Hl|by apply Hans]. intros i pc Hi. apply lookup_app_Some in Hi as [Hi|[Hlt Hi]].
    + by apply traced_app, Ht.
    + apply list_lookup_singleton_Some in Hi as [Hz <-]. exists request.
      split_and!; [|done..]. rewrite Hreq. apply lookup_app_Some. right. rewrite Hl. split; [done|]. by rewrite Hz.
  - split; [|by rewrite Hreq, app_nil_r, length_insert|].
    + intros j pcj Hj. apply list_lookup_insert_Some in Hj as [(<- & <- & _)|[_ Hj]]; [|by apply traced_app, Ht].
      eapply advance_traced; [by apply Ht|done].
    + apply Hans. intros j o action ctx r [= -> -> ->]. done.
  - split; [|by rewrite Hreq, app_nil_r, length_insert|by apply Hans].
    intros j pcj Hj. apply list_lookup_insert_Some in Hj as [(<- & <- & _)|[_ Hj]]; [|by apply traced_app, Ht].
    match goal with H : drop_request _ _ _ _ _ = _ |- _ => apply (f_equal snd) in H; cbn in H; subst end.
    by eapply traced_key; [eapply Ht|..].
Qed.

Lemma protocol_key_label_inj p q : protocol_key_label p = protocol_key_label q → p = q.
Proof. by destruct p, q. Qed.

(** C15: Nothing is let through without consent.  In every interleaving, when a
    request returns "allow", then a reviewer was shown an action with this
    request's host (up to letter case), protocol and port in the environment
    the request was attributed to, which is the one it names if it names one,
    and answered with an approval, or with an amendment that allows the host
    shown; or the approved hosts of another session were copied in and had
    this host with this environment, protocol and port.  That covers requests
    that joined another's review and requests whose owner was dropped. *)
Theorem network_allow_needs_consent tr s tasks i k review :
  runs initial tr (s, tasks) → tasks !! i = Some (Returned k review NetAllow) →
  ∃ request environment_id l, requests_of tr !! i = Some request ∧ attributed tr i request environment_id ∧
    l ∈ tr ∧ consents_to request environment_id l.
Proof.
  intros H Hi. destruct (tasks_covered _ _ _ (runs_covered _ _ _ H) _ _ Hi) as (Hg & _ & Hn).
  destruct k as [k|]; [|done]. destruct (Hg k eq_refl) as (l & Hl & Hc).
  destruct (runs_traced _ _ _ H) as [Ht _ Ha]. destruct (Ht _ _ Hi) as (request & Hreq & _ & _ & Hk & _).
  destruct (Hk k eq_refl) as (environment_id & Hatt & ->). exists request, environment_id, l. split_and!; [done..|].
  destruct l as [|j pc input| | | | |]; try done. destruct pc as [| | | | | |o action ctx| | | | | | | | | | |]; try done.
  destruct input as [| |[d|]| | | |]; try done. destruct Hc as [Hkey Hd]. destruct (Ha _ _ _ _ _ Hl) as (H1 & H2 & H3 & H4 & H5).
  rewrite Hkey in *. cbn in H1, H2, H3, H4. split; [split_and!; [done..|by apply protocol_key_label_inj|done]|].
  destruct d as [| | | |h []| | |]; try done. cbn in Hd |- *. apply bool_decide_eq_true in Hd. by rewrite <- H5.
Qed.

(** ** Denials *)

(** The step in which an approved amendment takes a denial back. *)
Definition lifts (k : HostApprovalKey) (l : Label) : Prop :=
  match l with LRun _ (Removing o AllowHost) _ => host_key o = k | _ => False end.

(** A request that has not yet passed the check of the denied hosts for [k],
    nor waits for another's review of it. *)
Definition undecided_on (k : HostApprovalKey) (pc : Pc) : Prop :=
  match pc with
  | ReadingApproved a => a_key a ≠ k
  | Waiting k' _ => k' ≠ k
  | Approving o | Adding o AllowHost => host_key o ≠ k
  | Returned (Some k') _ d => k' = k → d = not_allowed
  | _ => True
  end.

Lemma refused_undecided k o m (s : Service) : undecided_on k (refused o m s).2.
Proof. done. Qed.

Lemma advance_undecided k i input s pc s' pc' : k ∈ session_denied_hosts s → ¬ lifts k (LRun i pc input) →
  advance i input s pc = Some (s', pc') →
  k ∈ session_denied_hosts s' ∧ (undecided_on k pc → undecided_on k pc').
Proof.
  intros Hk Hl H. split.
  { apply advance_hosts, (f_equal snd) in H. cbn [snd hosts_of] in H. rewrite H.
    destruct pc; try done; destruct action; cbn in *; set_solver. }
  intros Hu. destruct pc; destruct input; try done; cbn [NetApproval.advance] in H.
  - settle. unfold begin_request. by repeat case_match.
  - settle. unfold with_turn. by repeat case_match.
  - by case_match; settle.
  - case_bool_decide; settle; [done|]. cbn. by intros <-.
  - case_match; settle; [by intros Hk'|]. unfold join_review, get_or_create_pending_approval.
    destruct (a_turn a); [|done]. destruct (pending_host_approvals _ !! _); cbn [negb]; [done|].
    do 2 (match goal with |- context [if ?b then refused _ _ _ else _] => destruct b end; [done|]). done.
  - repeat case_match; settle. by intros Hk'.
  - settle. unfold reviewed. by repeat case_match.
  - by repeat case_match; settle.
  - case_match; settle. unfold commit. by repeat case_match.
  - unfold decide_approved in H. case_bool_decide; settle; [done|]. case_match; settle; [by intros <-|]. by intros Hk'; subst.
  - settle. by intros Hk'.
  - by repeat case_match; settle.
  - by repeat case_match; settle.
  - by repeat case_match; settle.
  - unfold reported in H. by repeat case_match; settle.
  - settle. by destruct action.
  - settle. destruct action; [by intros Hk'|done].
Qed.

(** C16: A denial for the session lasts.  Once a host is denied, and until a
    reviewer approves an amendment that allows it, it stays denied, and every
    request for it that had not passed the check by then, or begins later, is
    refused if it returns, whatever its own reviewer answers. *)
Theorem session_denial_lasts k tr s tasks s' tasks' i review d :
  k ∈ session_denied_hosts s → runs (s, tasks) tr (s', tasks') → (∀ l, l ∈ tr → ¬ lifts k l) →
  (∀ pc, tasks !! i = Some pc → undecided_on k pc) →
  k ∈ session_denied_hosts s' ∧ (tasks' !! i = Some (Returned (Some k) review d) → d = not_allowed).
Proof.
  intros Hk H. remember (s, tasks) as st eqn:E1. remember (s', tasks') as st' eqn:E2. intros Hl Hu.
  assert (k ∈ session_denied_hosts st'.1 ∧ ∀ pc, st'.2 !! i = Some pc → undecided_on k pc) as [H1 H2].
  { clear s' tasks' E2. induction H as [st|st tr [s1 tasks1] l st'' Hr IH Hs]; subst st; [done|].
    destruct IH as [IH1 IH2]; [done|intros; apply Hl; set_solver|]. cbn [fst snd] in *.
    assert (¬ lifts k l) as Hl' by (apply Hl; set_solver).
    inversion Hs; subst; cbn [fst snd]; try done.
    - split; [done|]. intros pc Hpc. apply lookup_app_Some in Hpc as [Hpc|[_ Hpc]]; [by apply IH2|].
      by apply list_lookup_singleton_Some in Hpc as [_ <-].
    - edestruct advance_undecided as [Hd' Hu']; [exact IH1|exact Hl'|done|]. split; [done|].
      intros pc2 Hpc. apply list_lookup_insert_Some in Hpc as [(-> & <- & _)|[_ Hpc]]; [|by apply IH2].
      by apply Hu', IH2.
    - match goal with Hx : drop_request _ _ _ _ _ = _ |- _ =>
        pose proof (drop_guarded _ _ _ _ _ _ _ Hx) as [[= _ _ Hdenied] ->] end.
      split; [by rewrite Hdenied|]. intros pc2 Hpc. apply list_lookup_insert_Some in Hpc as [(-> & <- & _)|[_ Hpc]]; [done|by apply IH2].
    - pose proof (record_blocked_guarded b s1) as E. injection E as _ _ ->. done. }
  subst st'. split; [done|]. intros Hi. by apply (H2 _ Hi).
Qed.

(** ** The hosts of the session *)

(** What a request that holds the lock knows about the hosts. *)
Definition knows (s : Service) (pc : Pc) : Prop :=
  match pc with
  | Approving o | Adding o AllowHost => host_key o ∉ session_denied_hosts s
  | Adding o DenyHost => host_key o ∉ session_approved_hosts s
  | _ => True
  end.

Lemma knows_nothing s pc : holds_lock pc = false → knows s pc.
Proof. by destruct pc. Qed.
Lemma knows_hosts s s' pc : hosts_of s' = hosts_of s → knows s pc → knows s' pc.
Proof. unfold knows. by intros [= -> ->]. Qed.

Lemma enter_knows i input s pc s' pc' : holds_lock pc = false → advance i input s pc = Some (s', pc') → knows s' pc'.
Proof.
  destruct pc; destruct input; try done; cbn [NetApproval.advance]; intros _;
    unfold begin_request, with_turn, join_review, get_or_create_pending_approval, reviewed, commit, refused, resolved;
    repeat case_match; intros H'; by simplify_eq.
Qed.

Lemma advance_knows i input s pc s' pc' : session_approved_hosts s ## session_denied_hosts s → knows s pc →
  advance i input s pc = Some (s', pc') → session_approved_hosts s' ## session_denied_hosts s' ∧ knows s' pc'.
Proof.
  intros Hd Hk H. pose proof (advance_hosts _ _ _ _ _ _ _ H) as Hh. pose proof (advance_lock _ _ _ _ _ _ _ H) as He. split.
  { destruct pc; try destruct action; cbn in Hk, Hh; injection Hh as -> ->; set_solver. }
  destruct (holds_lock pc') eqn:Hl; [|by apply knows_nothing].
  assert (holds_lock pc = true ∨ knows s' pc') as [Hp|?]; [|clear Hl|done].
  { destruct He as [_ _ Hf|_ _ Hp _|_ Hp _|_ _ Hf]; [congruence|right|by left|congruence].
    by eapply enter_knows. }
  destruct pc; destruct input; try done; cbn [NetApproval.advance] in H.
  - by case_match; settle.
  - case_match; settle; [done|]. apply knows_nothing.
    destruct (join_review a (with_lock None s)) as [s2 pc2] eqn:E. by apply join_review_guarded in E as [_ ?].
  - unfold decide_approved in H. case_bool_decide; [by settle|]. case_match; simplify_eq; [done|]. by settle.
  - by settle.
  - by repeat case_match; settle.
  - by repeat case_match; settle.
  - by repeat case_match; settle.
  - unfold reported in H. by repeat case_match; settle.
  - destruct action; simplify_eq; cbn; set_solver.
  - by settle.
Qed.

Definition is_sync (l : Label) : bool := match l with LSync _ => true | _ => false end.

(** C17: The two host sets of a session never overlap, and change only under
    the policy lock.  In every interleaving of requests, drops and commands,
    as long as no other session's approvals are copied in, no host is both
    approved and denied; whoever holds the lock is a request in a section that
    needs it, and no other request is in one. *)
Theorem approved_and_denied_hosts_disjoint tr s tasks :
  runs initial tr (s, tasks) → (∀ l, l ∈ tr → is_sync l = false) →
  session_approved_hosts s ## session_denied_hosts s
  ∧ ∀ i, session_policy_commit_lock s = Some i ↔ ∃ pc, tasks !! i = Some pc ∧ holds_lock pc = true.
Proof.
  intros H Hns. split; [|apply (runs_lock_ok _ _ _ H)].
  assert (session_approved_hosts s ## session_denied_hosts s ∧ ∀ i pc, tasks !! i = Some pc → knows s pc) as [? _]; [|done].
  remember (s, tasks) as st eqn:E. remember initial as st0.
  revert s tasks E. induction H as [st|st tr [s1 tasks1] l st'' Hr IH Hs]; intros s tasks ->; subst.
  { injection Heqst0 as -> ->. split; [set_solver|]. intros i pc. by rewrite lookup_nil. }
  pose proof (runs_lock_ok _ _ _ Hr) as Hlock.
  destruct (IH eq_refl (λ l' Hl', Hns l' ltac:(set_solver)) _ _ eq_refl) as [Hd Hk].
  assert (∀ i s2 pc pc', tasks1 !! i = Some pc → lock_effect i s1 s2 pc pc' → (hosts_of s2 = hosts_of s1 ∨ holds_lock pc = true) →
          ∀ j pcj, j ≠ i → tasks1 !! j = Some pcj → knows s2 pcj) as Hothers.
  { intros i s2 pc pc' Hi _ Hsame j pcj Hne Hj. destruct (holds_lock pcj) eqn:Hlj; [|by apply knows_nothing].
    destruct Hsame as [E|Hp]; [by eapply knows_hosts, Hk|]. exfalso. apply Hne.
    assert (session_policy_commit_lock s1 = Some i) as E1 by (apply Hlock; eauto).
    assert (session_policy_commit_lock s1 = Some j) as E2 by (apply Hlock; eauto). congruence. }
  inversion Hs; subst; try done.
  - split; [done|]. intros i pc Hi. apply lookup_app_Some in Hi as [Hi|[_ Hi]]; [by eapply Hk|].
    by apply list_lookup_singleton_Some in Hi as [_ <-].
  - match goal with Hx : tasks1 !! i = Some pc, Ha : advance _ _ _ _ = _ |- _ => rename Hx into Hi; rename Ha into Hadv end.
    destruct (advance_knows _ _ _ _ _ _ Hd (Hk _ _ Hi) Hadv) as [Hd' Hk']. split; [done|].
    intros j pcj Hj. apply list_lookup_insert_Some in Hj as [(-> & <- & _)|[Hne Hj]]; [done|].
    eapply Hothers; [exact Hi|by eapply advance_lock| |by symmetry|exact Hj].
    destruct (advance_lock _ _ _ _ _ _ _ Hadv) as [Hg|_ Hg|_ ?|_ ?]; [left; by apply hosts_of_guarded|left|by right..].
    unfold hosts_of. by injection Hg as _ -> ->.
  - match goal with Hx : drop_request _ _ _ _ _ = _ |- _ => pose proof (drop_guarded _ _ _ _ _ _ _ Hx) as [[= _ Ea Ed] ->] end.
    split; [by rewrite Ea, Ed|]. intros j pcj Hj. apply list_lookup_insert_Some in Hj as [(-> & <- & _)|[Hne Hj]]; [done|].
    eapply knows_hosts, Hk, Hj. unfold hosts_of. by rewrite Ea, Ed.
  - pose proof (record_blocked_guarded b s1) as E. split; [injection E as _ -> ->; done|].
    intros i pc Hi. eapply knows_hosts, Hk, Hi. by apply hosts_of_guarded.
  - specialize (Hns (LSync (session_approved_hosts other)) ltac:(set_solver)). done.
Qed.

(** ** Joined reviews *)

(** A review has one answer.  Requests that return with the same review,
    the one that owned it and all that joined it, return the same decision,
    and it is the one the review was completed with. *)
Theorem one_answer_per_review tr s tasks i j ki kj p di dj :
  runs initial tr (s, tasks) → tasks !! i = Some (Returned (Some ki) (Some p) di) →
  tasks !! j = Some (Returned (Some kj) (Some p) dj) →
  di = dj ∧ ∃ d, pendings s !! p = Some (Some d) ∧ di = to_network_decision d.
Proof.
  intros H Hi Hj. pose proof (runs_board_ok _ _ _ H) as Hb. cbn in Hb.
  destruct (answers_decided _ _ Hb i ki p di) as (d & Hd & ->); [by rewrite list_lookup_fmap, Hi|].
  destruct (answers_decided _ _ Hb j kj p dj) as (d' & Hd' & ->); [by rewrite list_lookup_fmap, Hj|].
  cbn in Hd, Hd'. simplify_eq. eauto.
Qed.

(** C18: Nobody waits for a review without an owner.  In every reachable state
    a request that joined a review either can return now, with the review's
    decision, or the review has an owner that is still running; and if that
    owner is dropped, at whatever await it is, the request can return next. *)
Theorem waiters_are_not_stranded tr s tasks i k p :
  runs initial tr (s, tasks) → tasks !! i = Some (Waiting k p) →
  (∃ d, approval_step (s, tasks) (LRun i (Waiting k p) Go) (s, <[i := Returned (Some k) (Some p) d]> tasks))
  ∨ ∃ j pc o, tasks !! j = Some pc ∧ owner_of pc = Some o ∧ pending o = p ∧ host_key o = k
      ∧ ∀ reason elapsed s1 pc1, drop_request j reason elapsed s pc = (s1, pc1) →
          approval_step (s, tasks) (LDrop j pc) (s1, <[j := pc1]> tasks)
          ∧ approval_step (s1, <[j := pc1]> tasks) (LRun i (Waiting k p) Go)
              (s1, <[i := Returned (Some k) (Some p) (to_network_decision (decision_on_drop o))]> (<[j := pc1]> tasks)).
Proof.
  intros H Hi. pose proof (runs_board_ok _ _ _ H) as Hb. cbn in Hb.
  destruct (waits_known _ _ Hb i k p) as [(j & k' & Hj & <-)|[d Hd]]; [by rewrite list_lookup_fmap, Hi| |].
  - right. pose proof Hj as Hjr. rewrite list_lookup_fmap in Hj.
    destruct (tasks !! j) as [pc|] eqn:Hpc; [|done]. injection Hj as Hj.
    assert (∃ o, owner_of pc = Some o ∧ key o = k' ∧ pending o = p) as (o & Ho & <- & <-).
    { unfold role_of in Hj. destruct (owner_of pc) as [o|]; [|by repeat case_match]. exists o. by injection Hj. }
    exists j, pc, o. split_and!; [done..|]. intros reason elapsed s1 pc1 Hdrop.
    assert (is_finished pc = false) as Hf by (by destruct pc).
    split; [by eapply step_drop|]. apply step_run.
    + rewrite list_lookup_insert_ne; [done|]. intros ->. by simplify_eq.
    + cbn. assert (board_of s1 = published (key o) (pending o) (decision_on_drop o) (board_of s)) as E.
      { injection Hdrop as <- _. rewrite Ho, <- (drop_owner_board o reason elapsed). by destruct (holds_lock pc). }
      rewrite (published_eq _ _ _ _ _ _ Hb Hjr) in E. injection E as _ E. rewrite E.
      destruct (owners_open _ _ Hb _ _ _ Hjr) as [_ Hlt%lookup_lt_Some]. by rewrite list_lookup_insert_eq.
  - left. exists (to_network_decision d). apply step_run; [done|]. cbn in *. by rewrite Hd.
Qed.

(** ** Denied reviews and their command *)

Lemma complete_denied (o : Owner) c (s : Service) : owner_call o = Some c → call_token c ∈ cancelled (complete o DenyRequest s).
Proof. intros E. unfold complete, cancel_execution_if_denied. rewrite E. cbn. set_solver. Qed.

Lemma denied_cancels i input s pc s' pc' o c k review : advance i input s pc = Some (s', pc') → owner_of pc = Some o →
  owner_call o = Some c → pc' = Returned k review not_allowed → call_token c ∈ cancelled s'.
Proof.
  intros H Ho Hc E.
  assert (∀ d s0, resolved o d s0 = (s', pc') → call_token c ∈ cancelled s') as Hres.
  { intros d s0 [= <- Hd]. subst pc'. destruct d; try done. by apply complete_denied. }
  destruct pc; try done; injection Ho as ->; destruct input; try done; cbn [NetApproval.advance] in H.
  - apply (inj Some) in H. unfold reviewed, refused in H. subst pc'. repeat case_match; try done; by eapply Hres.
  - repeat case_match; simplify_eq; by eapply Hres.
  - case_match; [done|]. unfold commit in H. subst pc'. repeat case_match; simplify_eq.
  - apply (inj Some) in H. unfold decide_approved, resolved_locked in H. subst pc'.
    repeat case_match; try done; by eapply Hres.
  - apply (inj Some) in H. by eapply Hres.
  - subst pc'. repeat case_match; simplify_eq.
  - subst pc'. repeat case_match; simplify_eq.
  - subst pc'. repeat case_match; simplify_eq.
  - apply (inj Some) in H. unfold reported, resolved_locked in H. subst pc'. repeat case_match; try done; by eapply Hres.
  - subst pc'. simplify_eq.
  - apply (inj Some) in H. by eapply Hres.
Qed.

Lemma outcome_is_error m : ∃ t, (len m ≤ HeadTail.USIZE_MAX)%N →
  network_approval_outcome_to_result (Output:=Output) (Payload:=Payload) (Some m) = Done (Err (Rejected t)).
Proof.
  destruct (decide (len m ≤ HeadTail.USIZE_MAX)%N) as [Hm|]; [|by exists []].
  pose proof (truncate_text_spec m (Tokens REJECTION_MESSAGE_MAX_TOKENS) Hm) as Ht. unfold truncate_text in Ht. cbn.
  destruct (truncate_middle_with_token_budget m REJECTION_MESSAGE_MAX_TOKENS) as [[t n]|e|]; [by exists t| |];
    exfalso; case_match; cbn in Ht; [|destruct Ht as (? & ? & _)|..]; try done. all: by destruct Ht as (? & ? & _).
Qed.

(** C19: A denied review fails its command.  When the review of a request that
    belongs to a command ends with a denial, or its owner is dropped with a
    denial for any reason but the normal end of the process, then finishing
    this command, at any later time and with any of its handles, is an error:
    the recorded reason or the cancellation, as far as a text of its size can
    be shortened. *)
Theorem denied_review_fails_its_command s tasks l s1 tasks1 tr s2 tasks2 i pc o c (d : DeferredNetworkApproval) :
  approval_step (s, tasks) l (s1, tasks1) → owner_of pc = Some o → owner_call o = Some c → tasks !! i = Some pc →
  (∃ input k review, l = LRun i pc input ∧ tasks1 !! i = Some (Returned k review not_allowed))
  ∨ (∃ reason elapsed, drop_request i reason elapsed s pc = (s1, Dropped) ∧ reason ≠ Some ProcessFinished
     ∧ decision_on_drop o = DenyRequest) →
  runs (s1, tasks1) tr (s2, tasks2) → cancellation_token d = call_token c →
  ∃ rejection t, (finish d s2).2 = network_approval_outcome_to_result (Output:=Output) (Payload:=Payload) (Some rejection)
    ∧ ((len rejection ≤ HeadTail.USIZE_MAX)%N → (finish (Output:=Output) (Payload:=Payload) d s2).2 = Done (Err (Rejected t))).
Proof.
  intros Hs Ho Hc Hi Hend Hr Hd.
  assert (call_token c ∈ cancelled s2) as Hcan.
  { apply (runs_cancelled _ _ _ _ Hr). cbn. destruct Hend as [(input & k & review & -> & H1)|(reason & elapsed & H1 & Hne & Hdeny)].
    - inversion Hs; subst. rewrite list_lookup_insert_eq in H1 by (by eapply lookup_lt_Some). injection H1 as ->.
      by eapply denied_cancels.
    - injection H1 as <-. rewrite Ho. unfold drop_owner. rewrite Hdeny. rewrite bool_decide_eq_false_2 by (by destruct (has_cancellation (handles o))).
      unfold cancel_execution_if_denied. rewrite Hc. destruct (holds_lock pc); cbn; set_solver. }
  assert (∃ rejection, (finish (Output:=Output) (Payload:=Payload) d s2).2 = network_approval_outcome_to_result (Some rejection))
    as [m Hm].
  { unfold finish, abandoned_network_approval_outcome, is_cancelled. rewrite Hd.
    destruct (finish_outcome d) as [[m|]|]; cbn; [eauto|..].
    - rewrite bool_decide_eq_true_2 by done. eauto.
    - destruct (call_outcomes s2 !! registration_id d); [eauto|]. rewrite bool_decide_eq_true_2 by done. eauto. }
  destruct (outcome_is_error m) as [t Ht]. exists m, t. rewrite Hm. auto.
Qed.

(** The reviewer of [Approvals] never gives an answer the service calls
    invalid. *)
Lemma review_answers_are_valid {U E C} (f : rstr → option ShellSyntax.Tree) environments to_json timeout policy ctx hook guardian user store r store' :
  request_approval (PathUri:=U) (Extra:=E) (Changes:=C) (NetworkContext:=Orchestrator.NetworkApprovalContext)
    (Output:=Output) (Payload:=Payload) f environments to_json timeout policy NetworkAccess ctx hook guardian user store = Some (r, store') →
  match r with
  | Ok (Approved | ApprovedExecpolicyAmendment _ | ApprovedForSession | NetworkPolicyAmendment _ _) | Err _ => True
  | _ => False
  end.
Proof.
  destruct hook as [[|m]|]; [| |destruct guardian as [g|]; [destruct g as [| | | |? []| | |]|destruct user as [| | | |? []| | |]]];
    cbn; by intros [= <- _].
Qed.
End claims.

(** ** Runs as scripts *)

Section scripts.
Context {PathUri Output Payload : Type} (err_text : CodexErr Output Payload → rstr).

Inductive Act :=
| DoRequest (request : Request)
| DoRun (i : nat) (input : Input (PathUri:=PathUri) (Output:=Output) (Payload:=Payload))
| DoDrop (i : nat) (reason : option NetworkRequestCancellationReason) (elapsed : option N)
| DoRegister (call : Call (PathUri:=PathUri))
| DoRemove (registration_id : rstr).

Definition act (a : Act) (st : System) : option (Label (PathUri:=PathUri) (Output:=Output) (Payload:=Payload) * System (PathUri:=PathUri)) :=
  let '(s, tasks) := st in
  match a with
  | DoRequest request => Some (LRequest request, (s, tasks ++ [Starting request]))
  | DoRun i input =>
      pc ← tasks !! i; '(s', pc') ← advance err_text i input s pc; Some (LRun i pc input, (s', <[i := pc']> tasks))
  | DoDrop i reason elapsed =>
      pc ← tasks !! i;
      if is_finished pc then None
      else let '(s', pc') := drop_request i reason elapsed s pc in Some (LDrop i pc, (s', <[i := pc']> tasks))
  | DoRegister call => Some (LRegister call, (register_call call s, tasks))
  | DoRemove id => Some (LRemove id, ((remove_call id s).1, tasks))
  end.
Fixpoint acts (script : list Act) (st : System (PathUri:=PathUri)) : option (list (Label (PathUri:=PathUri) (Output:=Output) (Payload:=Payload)) * System) :=
  match script with
  | [] => Some ([], st)
  | a :: script => '(l, st) ← act a st; '(tr, st) ← acts script st; Some (l :: tr, st)
  end.

Lemma act_step a st l st' : act a st = Some (l, st') → approval_step err_text st l st'.
Proof.
  destruct st as [s tasks], a as [request|i input|i reason elapsed|call|id]; cbn; intros H.
  - simplify_eq. apply step_request.
  - destruct (tasks !! i) as [pc|] eqn:Hi; [|done]. cbn in H.
    destruct (advance err_text i input s pc) as [[s' pc']|] eqn:Ha; [|done]. cbn in H. simplify_eq. by apply step_run.
  - destruct (tasks !! i) as [pc|] eqn:Hi; [|done]. cbn in H. destruct (is_finished pc) eqn:Hf; [done|].
    destruct (drop_request i reason elapsed s pc) as [s' pc'] eqn:Ha. simplify_eq. by eapply step_drop.
  - simplify_eq. apply step_register.
  - simplify_eq. apply step_remove.
Qed.
Lemma acts_runs script st0 tr0 st tr st' : runs err_text st0 tr0 st → acts script st = Some (tr, st') →
  runs err_text st0 (tr0 ++ tr) st'.
Proof.
  revert tr0 st tr. induction script as [|a script IH]; cbn; intros tr0 st tr Hr H.
  { simplify_eq. by rewrite app_nil_r. }
  destruct (act a st) as [[l st1]|] eqn:E1; [|done]. cbn in H.
  destruct (acts script st1) as [[tr1 st2]|] eqn:E2; [|done]. cbn in H. simplify_eq.
  rewrite cons_middle, app_assoc. eapply IH; [|exact E2]. eapply runs_snoc; [exact Hr|]. by eapply act_step.
Qed.
Lemma acts_initial script tr st : acts script initial = Some (tr, st) → runs err_text initial tr st.
Proof. intros H. apply (acts_runs script initial [] initial); [apply runs_refl|done]. Qed.
End scripts.

(** A command with two requests for one host. *)
Definition demo_profile : PermissionProfile () := Managed (ManagedUnrestricted) NetworkRestricted.
Definition demo_call : Call (PathUri:=()) :=
  mkCall ($"c1") ($"t1") ($"curl https://API.example.com") ($"local") demo_profile [NotReady; Ready (mkReady ($"local") demo_profile)] 7.
Definition demo_turn : ActiveTurn (PathUri:=()) := mkTurn ($"t1") ExecApproval.OnRequest [Ready (mkReady ($"local") demo_profile)] false.
Definition demo_request : Request :=
  mkRequest ProtoHttpsConnect ($"API.example.com") 443 None None None None None (Some ($"c1")) (mkHandles true true).
Definition demo_key : HostApprovalKey := mkHostKey ($"local") ($"api.example.com") ($"https") 443.
Definition demo_text (e : CodexErr () ()) : rstr := $"failed".

Abbreviation DemoAct := (Act (PathUri:=()) (Output:=()) (Payload:=())).
(** A request up to its review, or to the review it joins. *)
Definition asks (i : nat) : list DemoAct := [DoRun i Go; DoRun i (Turn (Some demo_turn)); DoRun i Go; DoRun i Go; DoRun i Go].
Definition demo_joined : list DemoAct := [DoRegister demo_call; DoRequest demo_request; DoRequest demo_request] ++ asks 0 ++ asks 1.
Definition demo_approved : list DemoAct := demo_joined ++ [DoRun 0 (Reviewed (Ok ApprovedForSession)); DoRun 0 Go; DoRun 0 Go; DoRun 0 Go; DoRun 1 Go].
Definition demo_denied : list DemoAct :=
  demo_joined ++ [DoDrop 1 None None; DoRun 0 (Reviewed (Ok (NetworkPolicyAmendment ($"api.EXAMPLE.com") DenyHost))); DoRun 0 Go;
             DoRun 0 (Refresh true); DoRun 0 (Runtime None); DoRun 0 (Saved (Ok ())); DoRun 0 Go; DoRun 0 Go; DoRun 0 Go].
Definition asks_again : list DemoAct := DoRemove ($"c1") :: DoRequest (mkRequest ProtoHttpsConnect ($"api.example.com") 443 (Some ($"local")) None None None None None
  (mkHandles false false)) :: firstn 4 (asks 2).

Definition played (script : list DemoAct) st := default ([], st) (acts demo_text script st).
Definition trace_of (script : list DemoAct) := (played script initial).1.
Definition state_of (script : list DemoAct) := (played script initial).2.

Definition plays (script : list DemoAct) (st : System) : bool :=
  match acts demo_text script st with Some _ => true | None => false end.

Lemma played_from script st : plays script st = true → runs demo_text st (played script st).1 (played script st).2.
Proof.
  unfold plays, played. destruct (acts demo_text script st) as [[tr st']|] eqn:E; [|done]. intros _.
  apply (acts_runs demo_text script st [] st); [apply runs_refl|done].
Qed.
Lemma played_runs script : plays script initial = true →
  runs demo_text initial (trace_of script) ((state_of script).1, (state_of script).2).
Proof. intros H. rewrite <- surjective_pairing. by apply played_from. Qed.

Definition lifting (l : Label (PathUri:=()) (Output:=()) (Payload:=())) : bool :=
  match l with LRun _ (Removing _ AllowHost) _ => true | _ => false end.
Lemma none_lifts k tr : forallb (λ l, negb (lifting l)) tr = true → ∀ l, l ∈ tr → ¬ lifts k l.
Proof.
  intros H l Hl. rewrite forallb_forall in H. apply list_elem_of_In in Hl. specialize (H l Hl).
  destruct l as [|i pc input| | | | |]; try by intros []. destruct pc; try by intros []. destruct action; [done|by intros []].
Qed.
Lemma none_syncs (tr : list (Label (PathUri:=()) (Output:=()) (Payload:=()))) :
  forallb (λ l, negb (is_sync l)) tr = true → ∀ l, l ∈ tr → is_sync l = false.
Proof. intros H l Hl. rewrite forallb_forall in H. apply list_elem_of_In in Hl. apply negb_true_iff. by apply H. Qed.

Lemma network_allow_needs_consent_witness :
  ∃ environment_id l, attributed (trace_of demo_approved) 1 demo_request environment_id ∧
    l ∈ trace_of demo_approved ∧ consents_to demo_request environment_id l.
Proof.
  destruct (network_allow_needs_consent demo_text (trace_of demo_approved) (state_of demo_approved).1 (state_of demo_approved).2 1 (Some demo_key) (Some 0))
    as (request & e & l & Hr & Ha & Hl & Hc); [apply played_runs; vm_compute; reflexivity|vm_compute; reflexivity|].
  assert (requests_of (trace_of demo_approved) !! 1 = Some demo_request) as E by (vm_compute; reflexivity).
  rewrite E in Hr. injection Hr as <-. exists e, l. by split_and!.
Defined.

Lemma session_denial_lasts_witness :
  demo_key ∈ session_denied_hosts (played asks_again (state_of demo_denied)).2.1
  ∧ (played asks_again (state_of demo_denied)).2.2 !! 2 = Some (Returned (Some demo_key) None not_allowed).
Proof.
  split; [|vm_compute; reflexivity].
  apply (session_denial_lasts demo_text demo_key (played asks_again (state_of demo_denied)).1 (state_of demo_denied).1 (state_of demo_denied).2
           (played asks_again (state_of demo_denied)).2.1 (played asks_again (state_of demo_denied)).2.2 2 None not_allowed).
  - apply (bool_decide_unpack _). vm_compute; reflexivity.
  - rewrite <- !surjective_pairing. apply played_from. vm_compute; reflexivity.
  - apply none_lifts. vm_compute; reflexivity.
  - assert ((state_of demo_denied).2 !! 2 = None) as -> by (vm_compute; reflexivity). done.
Defined.

Lemma approved_and_denied_hosts_disjoint_witness :
  session_approved_hosts (state_of demo_denied).1 ## session_denied_hosts (state_of demo_denied).1
  ∧ session_policy_commit_lock (state_of demo_denied).1 ≠ Some 0.
Proof.
  destruct (approved_and_denied_hosts_disjoint demo_text (trace_of demo_denied) (state_of demo_denied).1 (state_of demo_denied).2) as [H _];
    [apply played_runs; vm_compute; reflexivity| |by split; [exact H|vm_compute; congruence]].
  apply none_syncs. vm_compute; reflexivity.
Defined.

Lemma one_answer_per_review_witness :
  (state_of demo_approved).2 !! 0 = Some (Returned (Some demo_key) (Some 0) NetAllow)
  ∧ ∃ d, pendings (state_of demo_approved).1 !! 0 = Some (Some d) ∧ NetAllow = to_network_decision d.
Proof.
  split; [vm_compute; reflexivity|].
  apply (one_answer_per_review demo_text (trace_of demo_approved) (state_of demo_approved).1 (state_of demo_approved).2 0 1 demo_key demo_key 0
           NetAllow NetAllow); [apply played_runs; vm_compute; reflexivity|vm_compute; reflexivity..].
Defined.

Lemma waiters_are_not_stranded_witness :
  ∃ d tr st, runs demo_text (state_of demo_joined) tr st ∧ st.2 !! 1 = Some (Returned (Some demo_key) (Some 0) d).
Proof.
  assert (runs demo_text initial (trace_of demo_joined) ((state_of demo_joined).1, (state_of demo_joined).2)) as Hr
    by (apply played_runs; vm_compute; reflexivity).
  assert ((state_of demo_joined).2 !! 1 = Some (Waiting demo_key 0)) as Hi by (vm_compute; reflexivity).
  generalize dependent (trace_of demo_joined). destruct (state_of demo_joined) as [s tasks]. cbn [fst snd] in Hi |- *.
  intros tr Hr. pose proof (lookup_lt_Some _ _ _ Hi) as Hlt.
  destruct (waiters_are_not_stranded demo_text tr s tasks 1 demo_key 0 Hr Hi) as [[d H]|(j & pc & o & Hj & Ho & _ & _ & H)].
  - exists d, ([] ++ [LRun 1 (Waiting demo_key 0) Go]). eexists. split; [eapply runs_snoc; [apply runs_refl|exact H]|].
    by apply list_lookup_insert_eq.
  - destruct (drop_request j None None s pc) as [s1 pc1] eqn:E. destruct (H _ _ _ _ E) as [H1 H2].
    exists (to_network_decision (decision_on_drop o)), (([] ++ [LDrop j pc]) ++ [LRun 1 (Waiting demo_key 0) Go]). eexists.
    split; [eapply runs_snoc; [eapply runs_snoc; [apply runs_refl|exact H1]|exact H2]|].
    apply list_lookup_insert_eq. by rewrite length_insert.
Defined.

Definition demo_pc : Pc (PathUri:=()) := Eval vm_compute in default Dropped ((state_of demo_joined).2 !! 0).
Definition demo_owner : Owner (PathUri:=()) :=
  Eval vm_compute in
    default (mkOwner (mkPendingKey demo_key [] None) 0 None (mkHandles false false) DenyRequest [] []
               (Orchestrator.mkNetworkContext [] Orchestrator.Http)) (owner_of demo_pc).
Definition demo_refusal : Input (PathUri:=()) (Output:=()) (Payload:=()) := Reviewed (Err (Rejected ($"no"))).
Definition refused_state := (played [DoRun 0 demo_refusal] (state_of demo_joined)).2.

Lemma denied_review_fails_its_command_witness :
  ∃ rejection, (finish (Output:=()) (Payload:=()) (mkDeferred ($"c1") 7 None) refused_state.1).2
               = network_approval_outcome_to_result (Some rejection).
Proof.
  destruct (denied_review_fails_its_command demo_text (state_of demo_joined).1 (state_of demo_joined).2
              (LRun 0 demo_pc demo_refusal) refused_state.1 refused_state.2 [] refused_state.1 refused_state.2 0
              demo_pc demo_owner demo_call (mkDeferred ($"c1") 7 None)) as (m & t & Hm & _); [| | | | | | |by exists m].
  - rewrite <- !surjective_pairing. apply (act_step demo_text (DoRun 0 demo_refusal)). vm_compute; reflexivity.
  - reflexivity.
  - reflexivity.
  - vm_compute; reflexivity.
  - left. exists demo_refusal, (Some demo_key), (Some 0). split; [reflexivity|vm_compute; reflexivity].
  - apply runs_refl.
  - reflexivity.
Defined.
