(* ===== verification/NetSpec.v ===== *)
(** * Where the proxy's configuration comes from

    [core/src/config/network_proxy_spec.rs] with
    [network-proxy/src/environment_policy.rs]: a configuration of the user
    combined with the requirements of an administrator, the rules of the
    execution policy, and the network policy of the owner of an environment.

    The TOML maps of the requirements are lists in the order of their keys.
    The settings no decision reads are the opaque field of [NetConfig]; the
    two addresses in it are set by parameters. *)

From stdpp Require Import gmap pretty.
From S2P Require ExecPolicy.
From S2P Require Import Prelude RustStr ApiPathString Permissions IpAddr NetPolicy NetConfig NetProxy.

(** ** Requirements *)

Inductive NetworkDomainPermissionToml := TomlAllow | TomlDeny.
#[global] Instance NetworkDomainPermissionToml_eq_dec : EqDecision NetworkDomainPermissionToml.
Proof. solve_decision. Defined.

Abbreviation NetworkDomainPermissionsToml := (list (rstr * NetworkDomainPermissionToml)) (only parsing).
Definition toml_domains (perm : NetworkDomainPermissionToml) (entries : NetworkDomainPermissionsToml) : option (list rstr) :=
  nonempty (fst <$> List.filter (λ '(_, p), bool_decide (p = perm)) entries).
Definition toml_allowed_domains : NetworkDomainPermissionsToml → option (list rstr) := toml_domains TomlAllow.
Definition toml_denied_domains : NetworkDomainPermissionsToml → option (list rstr) := toml_domains TomlDeny.

Abbreviation NetworkUnixSocketPermissionsToml := (list (rstr * NetworkUnixSocketPermission)) (only parsing).
Definition toml_allow_unix_sockets (entries : NetworkUnixSocketPermissionsToml) : list rstr :=
  fst <$> List.filter (λ '(_, p), bool_decide (p = SocketAllow)) entries.

(** [header_injections] is not read here. *)
Record NetworkConstraints := mkRequirements {
  req_enabled : option bool;
  req_http_port : option N;
  req_socks_port : option N;
  req_allow_upstream_proxy : option bool;
  req_dangerously_allow_non_loopback_proxy : option bool;
  req_dangerously_allow_all_unix_sockets : option bool;
  req_domains : option NetworkDomainPermissionsToml;
  req_managed_allowed_domains_only : option bool;
  req_unix_sockets : option NetworkUnixSocketPermissionsToml;
  req_allow_local_binding : option bool
}.

Definition managed_allowed_domains_only (r : NetworkConstraints) : bool := default false (req_managed_allowed_domains_only r).

Definition no_constraints : NetworkProxyConstraints :=
  mkConstraints None None None None None None None None None None None.

(** The managed entries, and those of the user that are not among them. *)
Definition merge_domain_lists (managed user_entries : list rstr) : list rstr :=
  foldl (λ managed entry,
    if existsb (λ managed_entry, bool_decide (to_ascii_lowercase managed_entry = to_ascii_lowercase entry)) managed
    then managed else managed ++ [entry]) managed user_entries.

Section spec.
Context {Hook Rest : Type} {PathUri : Type} `{!UrlHost}.
Context (set_proxy_url set_socks_url : rstr → Rest → Rest) (default_rest : Rest).
Context (validate_mitm_hooks : bool → list Hook → result rstr ()).
Local Abbreviation Config := (NetworkProxyConfig Hook Rest).
Local Abbreviation Profile := (PermissionProfile PathUri).

Definition managed_sandbox_active (p : Profile) : bool := match p with Managed _ _ => true | _ => false end.
Definition denylist_expansion (p : Profile) : bool := managed_sandbox_active p.
Definition allowlist_expansion (p : Profile) (hard_deny_allowlist_misses : bool) : bool :=
  managed_sandbox_active p && negb hard_deny_allowlist_misses.

(** ** Fields *)

Definition default_config : Config :=
  mkConfig false true false None Full None None None false None false [] default_rest.

Definition with_upstream (b : bool) (c : Config) : Config :=
  mkConfig (enabled c) b (dangerously_allow_non_loopback_proxy c) (dangerously_allow_all_unix_sockets c) (mode c) (domains c)
    (unix_sockets c) (allow_local_binding c) (mitm c) (mitm_ca c) (credential_broker c) (mitm_hooks c) (rest c).
Definition with_non_loopback (b : bool) (c : Config) : Config :=
  mkConfig (enabled c) (allow_upstream_proxy c) b (dangerously_allow_all_unix_sockets c) (mode c) (domains c)
    (unix_sockets c) (allow_local_binding c) (mitm c) (mitm_ca c) (credential_broker c) (mitm_hooks c) (rest c).
Definition with_all_sockets (b : option bool) (c : Config) : Config :=
  mkConfig (enabled c) (allow_upstream_proxy c) (dangerously_allow_non_loopback_proxy c) b (mode c) (domains c)
    (unix_sockets c) (allow_local_binding c) (mitm c) (mitm_ca c) (credential_broker c) (mitm_hooks c) (rest c).
Definition with_sockets (m : option (gmap rstr NetworkUnixSocketPermission)) (c : Config) : Config :=
  mkConfig (enabled c) (allow_upstream_proxy c) (dangerously_allow_non_loopback_proxy c)
    (dangerously_allow_all_unix_sockets c) (mode c) (domains c) m (allow_local_binding c) (mitm c) (mitm_ca c)
    (credential_broker c) (mitm_hooks c) (rest c).
Definition with_rest (r : Rest) (c : Config) : Config :=
  mkConfig (enabled c) (allow_upstream_proxy c) (dangerously_allow_non_loopback_proxy c)
    (dangerously_allow_all_unix_sockets c) (mode c) (domains c) (unix_sockets c) (allow_local_binding c) (mitm c) (mitm_ca c)
    (credential_broker c) (mitm_hooks c) r.

Definition set_allow_unix_sockets (entries : list rstr) (c : Config) : Config :=
  let m := filter (λ '(_, existing), existing ≠ SocketAllow) (default ∅ (unix_sockets c)) in
  with_sockets (Some (foldl (λ m entry, <[entry := SocketAllow]> m) m entries)) c.

(** [if let Some(x) = o { ... }] *)
Definition apply_some {A} (o : option A) (f : A → Config → Config) (c : Config) : Config :=
  match o with Some x => f x c | None => c end.
Definition loopback_url (port : N) : rstr := $"http://127.0.0.1:" ++ str (pretty port).

(** ** Applying the requirements *)

(** The managed allow list: with hard denial it is there even if empty. *)
Definition managed_allowed (r : NetworkConstraints) (hard_deny_allowlist_misses : bool) : option (list rstr) :=
  let listed := (ds ← req_domains r; toml_allowed_domains ds) in
  if hard_deny_allowlist_misses then Some (default [] listed) else listed.
Definition managed_denied (r : NetworkConstraints) : option (list rstr) := ds ← req_domains r; toml_denied_domains ds.

Definition effective_list (expansion : bool) (managed : list rstr) (user : option (list rstr)) : list rstr :=
  if expansion then merge_domain_lists managed (default [] user) else managed.

Definition apply_requirements (config : Config) (r : NetworkConstraints) (p : Profile) (hard_deny_allowlist_misses : bool)
    : Config * NetworkProxyConstraints :=
  let allow_expansion := allowlist_expansion p hard_deny_allowlist_misses in
  let deny_expansion := denylist_expansion p in
  let c := apply_some (req_enabled r) with_enabled config in
  let c := apply_some (req_http_port r) (λ port c, with_rest (set_proxy_url (loopback_url port) (rest c)) c) c in
  let c := apply_some (req_socks_port r) (λ port c, with_rest (set_socks_url (loopback_url port) (rest c)) c) c in
  let c := apply_some (req_allow_upstream_proxy r) with_upstream c in
  let c := apply_some (req_dangerously_allow_non_loopback_proxy r) with_non_loopback c in
  let c := apply_some (req_dangerously_allow_all_unix_sockets r) (λ b, with_all_sockets (Some b)) c in
  let allowed := managed_allowed r hard_deny_allowlist_misses in
  let c := apply_some allowed (λ managed c, set_allowed_domains (effective_list allow_expansion managed (allowed_domains c)) c) c in
  let denied := managed_denied r in
  let c := apply_some denied (λ managed c, set_denied_domains (effective_list deny_expansion managed (denied_domains c)) c) c in
  let sockets := toml_allow_unix_sockets <$> req_unix_sockets r in
  let c := apply_some sockets set_allow_unix_sockets c in
  let c := apply_some (req_allow_local_binding r) (λ b, with_local_binding (Some b)) c in
  (c, mkConstraints (req_enabled r) None (req_allow_upstream_proxy r) (req_dangerously_allow_non_loopback_proxy r)
        (req_dangerously_allow_all_unix_sockets r) allowed (allowed ≫= λ _, Some allow_expansion) denied
        (denied ≫= λ _, Some deny_expansion) sockets (req_allow_local_binding r)).

(** ** Specifications *)

Record NetworkProxySpec := mkSpec {
  base_config : Config;
  requirements : option NetworkConstraints;
  spec_config : Config;
  spec_constraints : NetworkProxyConstraints;
  hard_deny_allowlist_misses : bool
}.

(** A violated constraint is reported by its field; the values the message
    also prints are left out, as in [NetPolicy]. *)
Definition msg_invalid_constraints : rstr := $"network proxy constraints are invalid: ".
Definition validated (prefix : rstr) (c : Config) (k : NetworkProxyConstraints) : result rstr () :=
  map_err (λ '(InvalidValue field), prefix ++ field) (validate_policy_against_constraints validate_mitm_hooks c k).

Definition from_config_and_constraints (config : Config) (requirements : option NetworkConstraints) (p : Profile)
    : result rstr NetworkProxySpec :=
  let hard_deny := match requirements with Some r => managed_allowed_domains_only r | None => false end in
  let '(c, k) :=
    match requirements with
    | Some r => apply_requirements config r p hard_deny
    | None => (config, no_constraints)
    end in
  _ ← validated msg_invalid_constraints c k;
  Ok (mkSpec config requirements c k hard_deny).

Definition recompute_for_permission_profile (s : NetworkProxySpec) (p : Profile) : result rstr NetworkProxySpec :=
  from_config_and_constraints (base_config s) (requirements s) p.

Definition spec_enabled (s : NetworkProxySpec) : bool := enabled (spec_config s).
Definition credential_broker_enabled (s : NetworkProxySpec) : bool :=
  credential_broker (spec_config s) && negb (bool_decide (c_enabled (spec_constraints s) = Some false)).

(** *** Rules of the execution policy *)

Fixpoint upsert_new (hosts : list rstr) (perm : NetworkDomainPermission) (incoming : gset rstr) (c : Config) : Config :=
  match hosts with
  | [] => c
  | host :: hosts =>
      if bool_decide (host ∈ incoming) then upsert_new hosts perm incoming c
      else upsert_new hosts perm ({[host]} ∪ incoming) (upsert_domain_permission host perm normalize_host c)
  end.
Definition upsert_network_domains (hosts : list rstr) (allow : bool) (c : Config) : Config :=
  upsert_new hosts (if allow then PermAllow else PermDeny) ∅ c.

Section rules.
Context {AbsPath : Type}.

Definition apply_exec_policy_network_rules (exec_policy : ExecPolicy.Policy AbsPath) (c : Config) : Config :=
  let '(allowed, denied) := ExecPolicy.compiled_network_domains exec_policy in
  upsert_network_domains denied false (upsert_network_domains allowed true c).

Definition with_exec_policy_network_rules (s : NetworkProxySpec) (exec_policy : ExecPolicy.Policy AbsPath)
    : result rstr NetworkProxySpec :=
  let c := apply_exec_policy_network_rules exec_policy (spec_config s) in
  _ ← validated msg_invalid_constraints c (spec_constraints s);
  Ok (mkSpec (base_config s) (requirements s) c (spec_constraints s) (hard_deny_allowlist_misses s)).
End rules.

(** *** The policy of an environment *)

Record EnvironmentNetworkPolicy := mkEnvPolicy {
  requires_proxy : bool;
  p_domains : option NetworkDomainPermissions;
  p_unix_sockets : option (gmap rstr NetworkUnixSocketPermission);
  p_allow_upstream_proxy : bool;
  p_dangerously_allow_all_unix_sockets : bool;
  p_allow_local_binding : option bool;
  p_managed_allowed_domains_only : bool
}.

Definition from_config (c : Config) (managed_only : bool) : EnvironmentNetworkPolicy :=
  mkEnvPolicy (enabled c) (domains c) (unix_sockets c) (allow_upstream_proxy c)
    (default false (dangerously_allow_all_unix_sockets c)) (allow_local_binding c) managed_only.
Definition environment_policy (s : NetworkProxySpec) : EnvironmentNetworkPolicy :=
  from_config (spec_config s) (hard_deny_allowlist_misses s).

(** "Allow all" with no denial among the sockets. *)
Definition permits_all (allow_all : bool) (m : gmap rstr NetworkUnixSocketPermission) : bool :=
  allow_all && negb (existsb (λ '(_, p), bool_decide (p = SocketDeny)) (map_to_list m)).
Definition inherited_allow_all (c : Config) : bool :=
  default (bool_decide (unix_sockets c = None)) (dangerously_allow_all_unix_sockets c).

Definition effective_sockets (inherited owner : gmap rstr NetworkUnixSocketPermission)
    (inherited_permits_all owner_permits_all : bool) : gmap rstr NetworkUnixSocketPermission :=
  let kept :=
    filter (λ '(path, p), p = SocketDeny ∨ inherited_permits_all = true ∨ inherited !! path = Some SocketAllow) owner in
  filter (λ '(_, p), owner_permits_all = true ∨ p = SocketDeny) inherited ∪ kept.

Definition both_bindings (controller owner : option bool) : option bool :=
  match controller, owner with
  | Some c, Some o => Some (c && o)
  | Some c, None => Some c
  | None, o => o
  end.

Definition apply_to (self : EnvironmentNetworkPolicy) (c : Config) : Config :=
  let inherited_denials := default [] (denied_domains c) in
  let c1 := foldl (λ c domain, upsert_domain_permission domain PermDeny normalize_host c)
              (with_domains (p_domains self) c) inherited_denials in
  let inherited := default ∅ (unix_sockets c) in
  let owner := default ∅ (p_unix_sockets self) in
  let inherited_all := permits_all (inherited_allow_all c) inherited in
  let owner_all := permits_all (p_dangerously_allow_all_unix_sockets self) owner in
  let effective := effective_sockets inherited owner inherited_all owner_all in
  let c2 := with_sockets (if bool_decide (effective = ∅) then None else Some effective) c1 in
  let c3 := with_all_sockets (Some (inherited_all && owner_all)) c2 in
  let c4 := with_upstream (allow_upstream_proxy c && p_allow_upstream_proxy self) c3 in
  with_local_binding (both_bindings (allow_local_binding c) (p_allow_local_binding self)) c4.

Definition msg_needs_enforcement : rstr := $"environment network policy requires managed network enforcement".
Definition msg_disabled_controller : rstr := $"environment network policy cannot override a disabled controller proxy".
Definition msg_violates : rstr := $"environment network policy violates managed requirements: ".

(** The specification the policy of an environment is applied to. *)
Definition environment_base (controller : option NetworkProxySpec) (policy : EnvironmentNetworkPolicy) (p : Profile)
    : result rstr NetworkProxySpec :=
  match controller with
  | Some controller => recompute_for_permission_profile controller p
  | None =>
      from_config_and_constraints
        (with_local_binding (Some (default false (p_allow_local_binding policy)))
           (with_all_sockets (Some true) (with_enabled true default_config)))
        None p
  end.

Definition fixed_allowlist (s : NetworkProxySpec) : bool :=
  hard_deny_allowlist_misses s || bool_decide (allowlist_expansion_enabled (spec_constraints s) = Some false).

(** The constraints a policy is checked against. *)
Definition environment_constraints (fixed allow_owner_grants : bool) (allowed : option (list rstr))
    (denied : option (list rstr)) (k : NetworkProxyConstraints) : NetworkProxyConstraints :=
  mkConstraints (c_enabled k) (c_mode k) (c_allow_upstream_proxy k) (c_dangerously_allow_non_loopback_proxy k)
    (c_dangerously_allow_all_unix_sockets k)
    (if fixed then c_allowed_domains k else Some (default [] allowed))
    (if fixed then None else Some allow_owner_grants)
    denied (Some true) (c_allow_unix_sockets k) (c_allow_local_binding k).

(** [exec_policy_domains] is [compiled_network_domains] of the execution
    policy, its only use. *)
Definition for_environment (controller : option NetworkProxySpec) (policy : EnvironmentNetworkPolicy) (p : Profile)
    (exec_policy_domains : list rstr * list rstr) (local_binding_policy : LocalBindingPolicy)
    : result rstr NetworkProxySpec :=
  if match p with Disabled => true | _ => false end then Err msg_needs_enforcement
  else if match controller with Some c => negb (spec_enabled c) | None => false end then Err msg_disabled_controller
  else
    spec ← environment_base controller policy p;
    let c := apply_to policy (spec_config spec) in
    let c := with_local_binding (Some (resolve local_binding_policy c)) c in
    let protected_denials := default [] (denied_domains c) in
    let fixed := fixed_allowlist spec in
    let hard_deny := hard_deny_allowlist_misses spec || (p_managed_allowed_domains_only policy || negb (managed_sandbox_active p)) in
    let allow_owner_grants := negb hard_deny && negb fixed in
    let '(allowed, denied) := exec_policy_domains in
    let c' := if allow_owner_grants then upsert_network_domains allowed true c else c in
    let c' := upsert_network_domains denied false c' in
    let c' := upsert_network_domains protected_denials false c' in
    let k := environment_constraints fixed allow_owner_grants (allowed_domains c) (denied_domains c') (spec_constraints spec) in
    _ ← validated msg_violates c' k;
    Ok (mkSpec (base_config spec) (requirements spec) c' k hard_deny).

(** *** Starting a proxy *)

(** The decider of [start_proxy]; [ask_decider] asks about every host. *)
Definition start_decider {Decider : Type} (ask_decider : Decider) (s : NetworkProxySpec) (p : Profile)
    (policy_decider : option Decider) (enable_network_approval_flow : bool) : option Decider :=
  if enable_network_approval_flow && negb (hard_deny_allowlist_misses s) then
    match policy_decider with
    | Some decider => Some decider
    | None => if managed_sandbox_active p then Some ask_decider else None
    end
  else None.
End spec.
Arguments NetworkProxySpec : clear implicits.

Section state.
Context {Hook Rest : Type} `{!EqDecision Hook, !EqDecision Rest} {Hooks MitmState : Type} `{!UrlHost, !GlobOps}.

Definition build_config_state_for_spec (env : BuildEnv (Hook:=Hook) (Rest:=Rest) (Hooks:=Hooks) (MitmState:=MitmState))
    (s : NetworkProxySpec Hook Rest) (os : Platform) : result rstr ConfigState :=
  map_err (λ e, $"failed to build network proxy state: " ++ e)
    (build_config_state env (spec_config s) (spec_constraints s) os).
End state.
