(* ===== verification/NetSpecFacts.v ===== *)
(** * What administrators, owners and rules can count on

    Domain lists are compared by their normalised hosts ([listed_host]).
    Managed lists hold whatever the user configures; an environment has
    exactly the denials of its controller, its owner and the execution
    policy, and no permission that controller and owner do not both give. *)

From stdpp Require Import gmap.
From S2P Require ExecPolicy.
From S2P Require Import Prelude RustStr ApiPathString Permissions IpAddr NetPolicy NetPolicyFacts NetConfig NetConfigFacts.
From S2P Require Import NetProxy NetProxyFacts NetProps NetSpec.

Section facts.
Context {Hook Rest : Type} {PathUri : Type} {UH : UrlHost}.
Context (set_proxy_url set_socks_url : rstr → Rest → Rest) (default_rest : Rest).
Context (validate_mitm_hooks : bool → list Hook → result rstr ()).
Local Abbreviation Config := (NetworkProxyConfig Hook Rest).
Local Abbreviation Profile := (PermissionProfile PathUri).
Local Abbreviation from_config_and_constraints :=
  (from_config_and_constraints (PathUri:=PathUri) set_proxy_url set_socks_url validate_mitm_hooks).
Local Abbreviation environment_base := (environment_base (PathUri:=PathUri) set_proxy_url set_socks_url default_rest validate_mitm_hooks).
Local Abbreviation for_environment := (for_environment (PathUri:=PathUri) set_proxy_url set_socks_url default_rest validate_mitm_hooks).

(** ** Hosts of the lists *)

(** [n] is the host of an effective entry with permission [q]. *)
Definition listed_host (c : Config) (q : NetworkDomainPermission) (n : rstr) : Prop :=
  ∃ d, d ∈ default [] (domain_entries c q) ∧ normalize_host d = n.

Lemma listed_host_list (c : Config) q n : n ∈ normalize_host <$> default [] (domain_entries c q) ↔ listed_host c q n.
Proof. rewrite list_elem_of_fmap. unfold listed_host. naive_solver. Qed.

Lemma listed_upsert (c : Config) host perm q n :
  listed_host (upsert_domain_permission host perm normalize_host c) q n ↔
  n = normalize_host host ∧ q = perm ∨ listed_host c q n ∧ n ≠ normalize_host host.
Proof. unfold listed_host. setoid_rewrite upsert_domains. naive_solver. Qed.

Lemma listed_domains (c c' : Config) q n : domains c = domains c' → listed_host c q n ↔ listed_host c' q n.
Proof. intros E. unfold listed_host, domain_entries. by rewrite E. Qed.

Lemma listed_upsert_all l (c : Config) q n :
  listed_host (foldl (λ c domain, upsert_domain_permission domain PermDeny normalize_host c) c l) q n ↔
  q = PermDeny ∧ n ∈ normalize_host <$> l ∨ listed_host c q n ∧ n ∉ normalize_host <$> l.
Proof.
  revert c. induction l as [|h l IH]; intros c; cbn [foldl]; [set_solver|].
  rewrite IH, listed_upsert, fmap_cons, not_elem_of_cons, elem_of_cons.
  destruct (decide (n ∈ normalize_host <$> l)), (decide (n = normalize_host h)); naive_solver.
Qed.

Lemma listed_upsert_new hosts perm incoming (c : Config) q n :
  listed_host (upsert_new hosts perm incoming c) q n ↔
  q = perm ∧ (∃ h, h ∈ hosts ∧ h ∉ incoming ∧ normalize_host h = n)
  ∨ listed_host c q n ∧ (∀ h, h ∈ hosts → h ∉ incoming → normalize_host h ≠ n).
Proof.
  revert incoming c. induction hosts as [|h0 hosts IH]; intros incoming c; cbn [upsert_new]; [set_solver|].
  case_bool_decide as Hin; rewrite IH; [set_solver|]. rewrite listed_upsert.
  assert (Decision (∃ h, h ∈ hosts ∧ h ∉ {[h0]} ∪ incoming ∧ normalize_host h = n)) as [(h & ? & ? & ?)|Hno].
  { destruct (decide (Exists (λ h, h ∉ ({[h0]} ∪ incoming : gset rstr) ∧ normalize_host h = n) hosts)) as [E|E];
      [left|right]; rewrite Exists_exists in E; naive_solver. }
  - set_solver.
  - assert (∀ h, h ∈ hosts → h ∉ {[h0]} ∪ incoming → normalize_host h ≠ n) as Hno' by naive_solver.
    destruct (decide (n = normalize_host h0)) as [->|Hne].
    + split; [|intros [[-> _]|[_ H]]; [right; split; [by left|done]|]].
      * intros [[? (h & ? & ? & ?)]|[[[_ ->]|[? ?]] _]]; [by exfalso; eapply Hno'|left; set_solver|done].
      * exfalso. eapply (H h0); [set_solver..|done].
    + split.
      * intros [[? (h & ? & ? & ?)]|[[[? ?]|[? ?]] _]]; [by exfalso; eapply Hno'|done|]. right. split; [done|].
        intros h [->|Hh]%elem_of_cons ?; [congruence|]. destruct (decide (h = h0)) as [->|]; [congruence|]. set_solver.
      * intros [[-> (h & [->|Hh]%elem_of_cons & Hni & E)]|[? H]]; [congruence| |].
        -- destruct (decide (h = h0)) as [->|]; [congruence|]. exfalso. eapply (Hno' h); set_solver.
        -- right. split; [right; split; [done|done]|]. done.
Qed.

Lemma listed_upsert_network hosts (allow : bool) (c : Config) q n :
  listed_host (upsert_network_domains hosts allow c) q n ↔
  q = (if allow then PermAllow else PermDeny) ∧ n ∈ normalize_host <$> hosts ∨ listed_host c q n ∧ n ∉ normalize_host <$> hosts.
Proof.
  unfold upsert_network_domains. rewrite listed_upsert_new, list_elem_of_fmap. set_solver.
Qed.

Lemma listed_apply_to policy (c : Config) q n : listed_host (apply_to policy c) q n ↔
  q = PermDeny ∧ listed_host c PermDeny n ∨ listed_host (with_domains (p_domains policy) c) q n ∧ ¬ listed_host c PermDeny n.
Proof.
  rewrite <- (listed_host_list c). rewrite <- listed_upsert_all. by apply listed_domains.
Qed.

(** ** Sockets *)

(** Whether a path is granted: by its entry, or by "allow all" without a
    denial. *)
Definition grants_socket (allow_all : bool) (m : gmap rstr NetworkUnixSocketPermission) (path : rstr) : Prop :=
  m !! path = Some SocketAllow ∨ permits_all allow_all m = true.

Lemma permits_all_no_denial allow_all m path : permits_all allow_all m = true → m !! path ≠ Some SocketDeny.
Proof.
  unfold permits_all. intros [_ H]%andb_true_iff E. rewrite negb_true_iff, <- not_true_iff_false in H. apply H.
  apply existsb_exists. exists (path, SocketDeny). split; [|by apply bool_decide_eq_true_2].
  by apply list_elem_of_In, elem_of_map_to_list.
Qed.

Lemma effective_sockets_lookup inherited owner (ia oa : bool) path : (∀ p, inherited !! p = Some SocketDeny → ia = false) →
  (∀ p, owner !! p = Some SocketDeny → oa = false) →
  effective_sockets inherited owner ia oa !! path =
  match inherited !! path, owner !! path with
  | Some SocketDeny, _ | _, Some SocketDeny => Some SocketDeny
  | Some SocketAllow, Some SocketAllow => Some SocketAllow
  | Some SocketAllow, None => if oa then Some SocketAllow else None
  | None, Some SocketAllow => if ia then Some SocketAllow else None
  | None, None => None
  end.
Proof.
  intros Hi Ho. unfold effective_sockets. specialize (Hi path). specialize (Ho path). apply option_eq. intros q.
  rewrite lookup_union_Some_raw, map_lookup_filter_None, !map_lookup_filter_Some.
  destruct (inherited !! path) as [[]|], (owner !! path) as [[]|], ia, oa; cbn; naive_solver.
Qed.

(** ** The claims *)

Lemma validated_ok prefix (c : Config) k : validated validate_mitm_hooks prefix c k = Ok () →
  validate_policy_against_constraints validate_mitm_hooks c k = Ok ().
Proof. unfold validated. destruct (validate_policy_against_constraints _ c k) as [[]|[]]; cbn; congruence. Qed.

(** What a policy of an environment resolves to. *)
Lemma for_environment_inv controller policy p allowed denied lbp spec :
  for_environment controller policy p (allowed, denied) lbp = Ok spec →
  ∃ base, environment_base controller policy p = Ok base ∧
    let c := with_local_binding (Some (resolve lbp (apply_to policy (spec_config base)))) (apply_to policy (spec_config base)) in
    let grants := negb (hard_deny_allowlist_misses spec) && negb (fixed_allowlist base) in
    let c1 := if grants then upsert_network_domains allowed true c else c in
    spec_config spec = upsert_network_domains (default [] (denied_domains c)) false (upsert_network_domains denied false c1)
    ∧ hard_deny_allowlist_misses spec =
        hard_deny_allowlist_misses base || (p_managed_allowed_domains_only policy || negb (managed_sandbox_active p))
    ∧ validate_policy_against_constraints validate_mitm_hooks (spec_config spec) (spec_constraints spec) = Ok ().
Proof.
  unfold NetSpec.for_environment. do 2 (match goal with |- (if ?b then _ else _) = _ → _ => destruct b end; [done|]).
  destruct (environment_base controller policy p) as [base|] eqn:Eb; [|done]. cbn [mbind result_bind].
  set (v := validated _ _ _ _). destruct v as [[]|] eqn:Ev; [|done]. cbn [mbind result_bind]. intros [= <-].
  exists base. split; [done|]. cbv zeta. cbn [spec_config hard_deny_allowlist_misses spec_constraints].
  split_and!; [done..|]. by eapply validated_ok.
Qed.

(** C20: The domains of an environment, exactly.  When the policy of an
    environment is resolved, the denied hosts are those the controller, the
    owner or the rules of the execution policy deny, and nobody's grant lifts
    a denial; the allowed hosts are the others that the owner allows or, only
    if neither side's allow list is fixed, that a rule allows. *)
Theorem environment_domains_exact controller policy p allowed denied lbp spec :
  for_environment controller policy p (allowed, denied) lbp = Ok spec →
  ∃ base, environment_base controller policy p = Ok base ∧
    let owner := with_domains (p_domains policy) (spec_config base) in
    (∀ n, listed_host (spec_config spec) PermDeny n ↔
       listed_host (spec_config base) PermDeny n ∨ listed_host owner PermDeny n ∨ n ∈ normalize_host <$> denied)
    ∧ ∀ n, listed_host (spec_config spec) PermAllow n ↔
       ¬ listed_host (spec_config spec) PermDeny n
       ∧ (listed_host owner PermAllow n
          ∨ hard_deny_allowlist_misses spec = false ∧ fixed_allowlist base = false ∧ n ∈ normalize_host <$> allowed).
Proof.
  intros (base & Hb & Hc & _ & _)%for_environment_inv. exists base. split; [done|].
  set (c := with_local_binding _ _) in Hc. cbv zeta in *.
  assert (∀ q n, listed_host c q n ↔ listed_host (apply_to policy (spec_config base)) q n) as Hl
    by (intros; by apply listed_domains).
  set (owner := with_domains (p_domains policy) (spec_config base)).
  assert (∀ q n, listed_host (spec_config spec) q n ↔
    q = PermDeny ∧ listed_host c PermDeny n
    ∨ (q = PermDeny ∧ n ∈ normalize_host <$> denied
       ∨ (if negb (hard_deny_allowlist_misses spec) && negb (fixed_allowlist base)
          then q = PermAllow ∧ n ∈ normalize_host <$> allowed ∨ listed_host c q n ∧ n ∉ normalize_host <$> allowed
          else listed_host c q n) ∧ n ∉ normalize_host <$> denied) ∧ ¬ listed_host c PermDeny n) as H.
  { intros q n. rewrite Hc, listed_upsert_network, (listed_host_list c PermDeny), listed_upsert_network.
    destruct (negb (hard_deny_allowlist_misses spec) && _); [by rewrite listed_upsert_network|done]. }
  clear Hc. fold owner. split; intros n.
  all: destruct (hard_deny_allowlist_misses spec), (fixed_allowlist base); cbn [negb andb] in H;
    rewrite !H, !Hl, !listed_apply_to; fold owner; clear H Hl;
    destruct (decide (n ∈ normalize_host <$> default [] (denied_domains (spec_config base)))) as [HI|HI];
    rewrite (listed_host_list (spec_config base) PermDeny) in HI;
    destruct (decide (n ∈ normalize_host <$> default [] (denied_domains owner))) as [HO|HO];
    rewrite (listed_host_list owner PermDeny) in HO;
    destruct (decide (n ∈ normalize_host <$> denied)), (decide (n ∈ normalize_host <$> allowed)); naive_solver.
Qed.

(** *** Everything but the domains *)

Lemma upsert_new_rest hosts perm incoming (c : Config) : with_domains None (upsert_new hosts perm incoming c) = with_domains None c.
Proof. revert incoming c. induction hosts as [|h hosts IH]; intros; cbn; [done|]. case_bool_decide; by rewrite IH. Qed.

Lemma for_environment_rest controller policy p allowed denied lbp spec :
  for_environment controller policy p (allowed, denied) lbp = Ok spec →
  ∃ base, environment_base controller policy p = Ok base ∧
    let c := apply_to policy (spec_config base) in
    with_domains None (spec_config spec) = with_domains None (with_local_binding (Some (resolve lbp c)) c).
Proof.
  intros (base & Hb & Hc & _)%for_environment_inv. exists base. split; [done|]. cbv zeta in *. rewrite Hc.
  unfold upsert_network_domains. rewrite !upsert_new_rest. case_match; [by rewrite upsert_new_rest|done].
Qed.

Lemma apply_to_rest policy (c : Config) :
  let inherited := default ∅ (unix_sockets c) in
  let owner := default ∅ (p_unix_sockets policy) in
  let ia := permits_all (inherited_allow_all c) inherited in
  let oa := permits_all (p_dangerously_allow_all_unix_sockets policy) owner in
  default ∅ (unix_sockets (apply_to policy c)) = effective_sockets inherited owner ia oa
  ∧ dangerously_allow_all_unix_sockets (apply_to policy c) = Some (ia && oa)
  ∧ allow_upstream_proxy (apply_to policy c) = allow_upstream_proxy c && p_allow_upstream_proxy policy
  ∧ allow_local_binding (apply_to policy c) = both_bindings (allow_local_binding c) (p_allow_local_binding policy).
Proof. split_and!; try done. cbn. case_bool_decide as E; cbn; by rewrite ?E. Qed.

(** C21: An environment gets no more than controller and owner both give.  In a
    resolved policy, upstream proxies are allowed exactly if both allow them;
    a socket that is granted, by its path or by "allow all", is granted by the
    controller and by the owner; a socket that either side denies is denied;
    and a local binding is allowed only if neither side forbids it. *)
Theorem environment_needs_both_grants controller policy p allowed denied lbp spec :
  for_environment controller policy p (allowed, denied) lbp = Ok spec →
  ∃ base, environment_base controller policy p = Ok base ∧
    let c := spec_config base in let c' := spec_config spec in
    allow_upstream_proxy c' = allow_upstream_proxy c && p_allow_upstream_proxy policy
    ∧ (∀ path, grants_socket (default false (dangerously_allow_all_unix_sockets c')) (default ∅ (unix_sockets c')) path →
         grants_socket (inherited_allow_all c) (default ∅ (unix_sockets c)) path
         ∧ grants_socket (p_dangerously_allow_all_unix_sockets policy) (default ∅ (p_unix_sockets policy)) path)
    ∧ (∀ path, default ∅ (unix_sockets c) !! path = Some SocketDeny ∨ default ∅ (p_unix_sockets policy) !! path = Some SocketDeny →
         default ∅ (unix_sockets c') !! path = Some SocketDeny)
    ∧ (opt_binding c' = true → allow_local_binding c ≠ Some false ∧ p_allow_local_binding policy ≠ Some false).
Proof.
  intros (base & Hb & Hr)%for_environment_rest. exists base. split; [done|]. cbv zeta in *.
  destruct (apply_to_rest policy (spec_config base)) as (Hs & Ha & Hu & Hl). cbv zeta in *.
  set (c := spec_config base) in *. set (c1 := apply_to policy c) in *.
  assert (allow_upstream_proxy (spec_config spec) = allow_upstream_proxy c1) as -> by exact (f_equal allow_upstream_proxy Hr).
  assert (unix_sockets (spec_config spec) = unix_sockets c1) as -> by exact (f_equal unix_sockets Hr).
  assert (dangerously_allow_all_unix_sockets (spec_config spec) = dangerously_allow_all_unix_sockets c1) as ->
    by exact (f_equal dangerously_allow_all_unix_sockets Hr).
  assert (allow_local_binding (spec_config spec) = Some (resolve lbp c1)) as Hbind by exact (f_equal allow_local_binding Hr).
  rewrite Hs, Ha, Hu. unfold grants_socket.
  set (inherited := default ∅ (unix_sockets c)). set (owner := default ∅ (p_unix_sockets policy)).
  set (ia := permits_all (inherited_allow_all c) inherited). set (oa := permits_all (p_dangerously_allow_all_unix_sockets policy) owner).
  assert (∀ path, inherited !! path = Some SocketDeny → ia = false) as Hi.
  { intros path E. apply not_true_iff_false. intros Hp. by eapply permits_all_no_denial. }
  assert (∀ path, owner !! path = Some SocketDeny → oa = false) as Ho.
  { intros path E. apply not_true_iff_false. intros Hp. by eapply permits_all_no_denial. }
  split_and!; [done|..].
  - intros path [H|H].
    + rewrite effective_sockets_lookup in H by done.
      destruct (inherited !! path) as [[]|], (owner !! path) as [[]|]; try done; repeat (case_match; try done); auto.
    + unfold permits_all in H at 1. cbn [default] in H. apply andb_true_iff in H as [H _].
      change (id (ia && oa)) with (ia && oa) in H. apply andb_true_iff in H as [-> ->]. auto.
  - intros path H. rewrite effective_sockets_lookup by done. by destruct H as [-> | ->]; repeat case_match.
  - unfold opt_binding. rewrite Hbind. change (default false (Some ?x)) with x. unfold resolve. rewrite Hl.
    destruct (allow_local_binding c) as [[]|], (p_allow_local_binding policy) as [[]|]; cbn; done.
Qed.

(** *** Managed lists *)

Lemma merge_domain_lists_managed managed user d : d ∈ managed → d ∈ merge_domain_lists managed user.
Proof.
  unfold merge_domain_lists. revert managed. induction user as [|u user IH]; intros managed H; cbn; [done|].
  apply IH. case_match; [done|]. apply elem_of_app. by left.
Qed.

Lemma set_entries perm l (c : Config) e : e ∈ default [] (domains (set_domain_entries l perm c)) ↔
  e ∈ default [] (domains c) ∧ permission e ≠ perm ∨ pattern e ∈ l ∧ permission e = perm.
Proof.
  unfold set_domain_entries. cbn [domains with_domains].
  assert (∀ l : list NetworkDomainPermissionEntry, default [] (some_nonempty l) = l) as -> by (by intros []).
  assert (∀ ds, e ∈ foldl (push_entry perm) ds l ↔ e ∈ ds ∨ pattern e ∈ l ∧ permission e = perm) as ->.
  { induction l as [|x l IH]; intros ds; cbn [foldl]; [set_solver|]. rewrite IH, push_entry_elem, elem_of_cons.
    destruct e as [p q]. cbn. split; [intros [[?|[= -> ->]]|?]; tauto|]. intros [?|[[->|?] ->]]; tauto. }
  rewrite list_elem_of_In, filter_In, <- list_elem_of_In, negb_true_iff, bool_decide_eq_false. done.
Qed.

(** The entries after the requirements. *)
Lemma requirements_domains (config : Config) r p hard : let c := (apply_requirements (PathUri:=PathUri) set_proxy_url set_socks_url config r p hard).1 in
  (∀ d, d ∈ default [] (managed_denied r) → mkEntry d PermDeny ∈ default [] (domains c))
  ∧ (allowlist_expansion p hard = false → ∀ managed, managed_allowed r hard = Some managed →
       ∀ d, mkEntry d PermAllow ∈ default [] (domains c) → d ∈ managed).
Proof.
  cbv zeta. unfold apply_requirements. cbn [fst].
  set (c1 := apply_some (req_dangerously_allow_all_unix_sockets r) _ _).
  set (c2 := apply_some (managed_allowed r hard) _ c1). set (c3 := apply_some (managed_denied r) _ c2).
  match goal with |- context [domains ?c] => assert (domains c = domains c3) as -> end.
  { unfold apply_some. by repeat case_match. }
  split.
  - intros d Hd. subst c3. destruct (managed_denied r) as [l|]; [|by apply elem_of_nil in Hd]. cbn in Hd |- *.
    apply set_entries. right. split; [|done]. unfold effective_list. case_match; [by apply merge_domain_lists_managed|done].
  - intros He managed Hm d Hd.
    assert (mkEntry d PermAllow ∈ default [] (domains c2)) as Hd2.
    { subst c3. destruct (managed_denied r) as [l|]; [|done]. cbn in Hd. apply set_entries in Hd as [[? _]|[_ ?]]; done. }
    subst c2. rewrite Hm in Hd2. cbn in Hd2. apply set_entries in Hd2 as [[_ ?]|[? _]]; [done|]. by rewrite He in *.
Qed.

(** C22: What the administrator lists holds.  Whatever the user configured,
    every managed denial is in force; where the user may not extend the allow
    list, outside a managed sandbox or in managed-only mode, only managed
    domains are allowed; and in managed-only mode nobody is asked about other
    hosts, so no reviewer can let them through. *)
Theorem managed_lists_hold {Decider : Type} config r p s (ask_decider : Decider) :
  from_config_and_constraints config (Some r) p = Ok s →
  (∀ d, d ∈ default [] (managed_denied r) → d ∈ default [] (denied_domains (spec_config s)))
  ∧ (managed_sandbox_active p = false ∨ managed_allowed_domains_only r = true →
     ∀ managed, managed_allowed r (managed_allowed_domains_only r) = Some managed →
     ∀ d, d ∈ default [] (allowed_domains (spec_config s)) → d ∈ managed)
  ∧ (managed_allowed_domains_only r = true →
     managed_allowed r true ≠ None ∧ ∀ decider flow, start_decider ask_decider s p decider flow = None).
Proof.
  unfold NetSpec.from_config_and_constraints.
  pose proof (requirements_domains config r p (managed_allowed_domains_only r)) as Hd.
  destruct (apply_requirements _ _ config r p _) as [c k]. cbv zeta in Hd. cbn [fst] in Hd. destruct Hd as [Hd Ha].
  destruct (validated _ _ c k) as [[]|]; [|done]. cbn [mbind result_bind]. intros [= <-]. cbn [spec_config]. split_and!.
  - intros d H%Hd. unfold denied_domains. apply domain_entries_spec. split; [done|]. by intros []; cbn; lia.
  - intros Hexp managed Hm d H. unfold allowed_domains in H. apply domain_entries_spec in H as [H _]. eapply Ha; [|done|exact H].
    unfold allowlist_expansion. destruct Hexp as [-> | ->]; [done|by rewrite andb_false_r].
  - intros Hm. split; [done|]. intros decider flow. unfold start_decider. cbn [hard_deny_allowlist_misses]. rewrite Hm.
    by rewrite andb_false_r.
Qed.

(** *** The state of a proxy *)

(** A specification that was checked builds a state the theorems about the
    running proxy start from. *)
Lemma spec_state_is_built {Hooks MitmState} {GO : GlobOps} `{!EqDecision Hook, !EqDecision Rest}
    (env : BuildEnv (Hook:=Hook) (Rest:=Rest) (Hooks:=Hooks) (MitmState:=MitmState)) (s : NetworkProxySpec Hook Rest) os st :
  validate_policy_against_constraints validate_mitm_hooks (spec_config s) (spec_constraints s) = Ok () →
  build_config_state_for_spec env s os = Ok st → built_state validate_mitm_hooks DefaultFalse st.
Proof.
  intros Hv Hb. exists env, (spec_config s), (spec_constraints s), os. split_and!; [| |by left].
  - apply validate_within in Hv as []. apply validate_within. split; try done.
    intros Hk%lim_binding. unfold opt_binding, resolved_config, resolve in *. cbn.
    destruct (allow_local_binding (spec_config s)); cbn in *; [done|]. apply andb_false_r.
  - unfold build_config_state_for_spec in Hb. destruct (build_config_state env _ _ os) eqn:E; cbn in Hb; congruence.
Qed.
End facts.

(** ** A controller and the owner of an environment *)

Definition demo_requirements : NetworkConstraints :=
  mkRequirements (Some true) None None (Some true) None None
    (Some [($"*.example.com", TomlAllow); ($"bad.example.com", TomlDeny)]) None (Some [($"/run/a.sock", SocketAllow); ($"/run/b.sock", SocketDeny)]) (Some true).
Definition demo_user : NetworkProxyConfig () () := set_allowed_domains [$"other.org"] NetProps.base_config.
Definition demo_sandbox : PermissionProfile () := Managed ManagedUnrestricted NetworkRestricted.
Definition keep_rest (url : rstr) (r : ()) : () := r.
Definition demo_spec (p : PermissionProfile ()) (r : NetworkConstraints) : result rstr (NetworkProxySpec () ()) :=
  from_config_and_constraints keep_rest keep_rest no_hooks demo_user (Some r) p.
Definition spec_or_default (r : result rstr (NetworkProxySpec () ())) : NetworkProxySpec () () :=
  match r with Ok s => s | Err _ => mkSpec NetProps.base_config None NetProps.base_config no_constraints false end.
Definition demo_controller : NetworkProxySpec () () := spec_or_default (demo_spec demo_sandbox demo_requirements).
Definition demo_owner : EnvironmentNetworkPolicy :=
  mkEnvPolicy true (Some [mkEntry ($"API.example.com") PermAllow; mkEntry ($"BAD.example.com") PermAllow; mkEntry ($"x.example.com") PermDeny])
    (Some {[ $"/run/a.sock" := SocketAllow; $"/run/c.sock" := SocketAllow ]}) true false (Some false) false.
Definition demo_resolved : result rstr (NetworkProxySpec () ()) :=
  for_environment keep_rest keep_rest () no_hooks (Some demo_controller) demo_owner demo_sandbox
    ([$"extra.example.com"; $"x.example.com"], [$"slow.example.com"]) DefaultFalse.

Lemma environment_domains_exact_witness :
  allowed_domains (spec_config (spec_or_default demo_resolved)) = Some [$"API.example.com"; $"extra.example.com"]
  ∧ listed_host (spec_config (spec_or_default demo_resolved)) PermDeny ($"bad.example.com").
Proof.
  split; [vm_compute; reflexivity|].
  destruct (environment_domains_exact keep_rest keep_rest () no_hooks (Some demo_controller) demo_owner demo_sandbox
    [$"extra.example.com"; $"x.example.com"] [$"slow.example.com"] DefaultFalse (spec_or_default demo_resolved))
    as (base & Hb & Hd & _); [vm_compute; reflexivity|].
  assert (environment_base keep_rest keep_rest () no_hooks (Some demo_controller) demo_owner demo_sandbox = Ok demo_controller) as E
    by (vm_compute; reflexivity).
  assert (base = demo_controller) as ->.
  { rewrite E in Hb. exact (f_equal (λ r, match r with Ok x => x | Err _ => demo_controller end) (eq_sym Hb)). }
  apply Hd. left. apply (proj1 (listed_host_list keep_rest keep_rest () _ _ _)).
  apply (bool_decide_unpack _). vm_compute; reflexivity.
Defined.

Lemma environment_needs_both_grants_witness :
  default ∅ (unix_sockets (spec_config (spec_or_default demo_resolved))) !! ($"/run/a.sock") = Some SocketAllow
  ∧ default ∅ (unix_sockets (spec_config (spec_or_default demo_resolved))) !! ($"/run/c.sock") = None
  ∧ opt_binding (spec_config (spec_or_default demo_resolved)) ≠ true.
Proof.
  split_and!; [vm_compute; reflexivity..|].
  destruct (environment_needs_both_grants keep_rest keep_rest () no_hooks (Some demo_controller) demo_owner demo_sandbox
    [$"extra.example.com"; $"x.example.com"] [$"slow.example.com"] DefaultFalse (spec_or_default demo_resolved))
    as (base & _ & _ & _ & _ & H); [vm_compute; reflexivity|].
  intros E. by apply H in E as [_ ?].
Defined.

Lemma managed_lists_hold_witness :
  $"bad.example.com" ∈ default [] (denied_domains (spec_config demo_controller))
  ∧ allowed_domains (spec_config demo_controller) = Some [$"*.example.com"; $"other.org"]
  ∧ allowed_domains (spec_config (spec_or_default (demo_spec Disabled demo_requirements))) = Some [$"*.example.com"].
Proof.
  split_and!; [|vm_compute; reflexivity..].
  destruct (managed_lists_hold keep_rest keep_rest () no_hooks demo_user demo_requirements demo_sandbox demo_controller ())
    as (H & _); [vm_compute; reflexivity|].
  apply H. apply (bool_decide_unpack _). vm_compute; reflexivity.
Defined.
